(* ===== verification/_CoqProject ===== *)
-Q . S2P
Prelude.v
AsyncCell.v
AsyncCancel.v
WebTimers.v
Modules.v
Snapshot.v
ModuleMap.v
RecursiveLoad.v
DynImports.v
ImportFlow.v
Buffers.v
Resources.v
Arena.v
SharedArena.v
OpDriver.v
Tasks.v
Stats.v
EventLoop.v
RustStr.v
Numbers.v
Specifiers.v
SourceMaps.v
StackTraces.v
JsErrors.v
OpContexts.v
ExtSources.v
SerdeV8.v
SerdeRoundtrip.v
OpValues.v
Convert.v
ConvertLaws.v
Rejections.v
Inspector.v
InspectorRuns.v
UvLoop.v
UvHandles.v
UvClient.v
UvPhases.v
UvStreams.v
WebIdl.v
WebIdlTypes.v
FastStrings.v
Op2Config.v
Op2Signature.v
Op2SignatureLaws.v
Op2Generics.v
Op2Codegen.v
Op2Fast.v
Op2Scoping.v
Op2Hygiene.v
Op2Reads.v
Op2Closed.v
Op2Objects.v
CppgcTypes.v
Cppgc.v
CppgcTemplates.v
Externals.v
