(* ===== verification/Prelude.v ===== *)
(** * deno_core in Rocq

    deno_core is the runtime core of Deno: it embeds V8, loads JavaScript modules, runs
    an event loop and lets JavaScript call asynchronous Rust functions ("ops").  This
    library models the logic that [src/core] itself keeps, and the macros of [src/ops] that
    generate ops, definition by definition, and proves what makes it correct.  V8, tokio,
    libuv, the embedder and third-party crates are parameters of the definitions that call
    them.

    ** How the parts of the program meet

    The embedder polls the event loop of a runtime ([runtime/jsruntime.rs]).  One tick
    fires timers ([web_timeout.rs]), completes ops and I/O, runs the queues of JavaScript
    and decides whether to ask for another tick.  Modules enter through a recursive load
    ([modules/recursive_load.rs]), which asks the embedder's loader for sources and
    registers each with the module map ([modules/map.rs]), whose data
    ([modules/module_map_data.rs]) finds modules by name and type and survives a snapshot
    ([runtime/snapshot.rs]); [import()] and evaluation go through queues of the module map
    that each tick advances.  Asynchronous ops are futures in the op driver
    ([runtime/op_driver]), whose results the tick hands to JavaScript, and other threads send
    tasks through the spawner ([tasks.rs]).  Native add-ons see a replacement for libuv
    ([uv_compat.rs]), whose phases the tick runs.  Ops convert numbers as WebIDL says
    ([webidl.rs]), hold resources by id ([io/resource_table.rs]), share them
    through cells whose borrows are futures ([async_cell.rs]), can be cancelled
    ([async_cancel.rs]), move bytes in views ([io/buffers.rs]) and live in arenas
    ([arena/raw_arena.rs], [unique_arena.rs]).  The Rust functions behind ops are written
    with the macro [#[op2]] ([src/ops/op2]), which parses their signatures and generates the
    functions that V8 calls; on an [impl] block it makes a class of JavaScript, whose objects
    hold Rust values on the C++ heap of V8 ([cppgc.rs]).

    ** The files

    - [Prelude] (this file): panics ([outcome], [fault]), Rust's [result] and [poll],
      build profiles with machine arithmetic, slices, shared lemmas and tactics.
    - [AsyncCell]: [AsyncRefCell].  [BorrowCount] and its [try_add] and [remove]; the cell
      with its queue of waiters, holes and turns; futures and guards; [exec] runs an action
      of a client, [reachable] are the states that clients can bring about.
    - [AsyncCancel]: the circular list of [async_cancel.rs] as an explicit [heap] of nodes
      ([link], [unlink], [cancel]), and [Cancelable], [TryCancelable] and [Abortable] over
      any future.  The abstract specification is a registry: handles with ordered lists of
      wakers, and loose nodes.
    - [WebTimers]: the timer tree with its tombstones and compaction, the map of timer
      data, counters, the sleep and the lock of [web_timeout.rs].  The abstract
      specification is the [schedule] of pending timers, by deadline and id, which
      [spec_step] changes.
    - [Modules]: module and import types ([modules/mod.rs]), [ModuleNameTypeMap],
      [ModuleMapData] with its invariant, alias resolution, and the snapshot of the data.
    - [Snapshot]: the frame of a snapshot blob, the stores of V8 data, the round trips.
    - [ModuleMap]: [resolve], [new_module] with a constructor per module type,
      [new_wasm_module_source], import attributes and [resolve_callback] of
      [modules/map.rs].
    - [RecursiveLoad]: [RecursiveModuleLoad] as a stream: [prepare], [register_and_recurse],
      [poll_next] and the loop of [JsRealm] that drives it.
    - [DynImports]: [load_dynamic_import] behind [import()], the queues of prepared loads, of
      loads and of evaluations, [poll_progress], instantiation, [mod_evaluate] with its
      callbacks, stalled awaits.  A host stands for V8, the futures and JavaScript, which may
      call [import()] again at every step.  [ImportFlow] has the theorems.
    - [Buffers]: [V8Slice] of [serde_v8/magic], [BufView] and [BufMutView].  The class
      [Buffer] with [BufferLaws] states what [bytes::Bytes] documents; [V8Slice] is an
      instance, and [ViewInner] lets one definition serve both kinds of view.
    - [Resources]: [ResourceTable], resource handles, the default [write_all], the adaptive
      buffer strategy and [GothamState].
    - [Arena]: [RawArena] and [ArenaUnique] over explicit slots, where unsafe reads can
      fail with [BadMemory].  [SharedArena]: the reference-counted boxes of [ArenaShared] and
      [ArenaSharedAtomic], the latter under any interleaving of threads.
    - [OpDriver]: the queue of pending ops, their submission in each scheduling mode, the
      arena of futures, completion and the polls of the driver, with the borrows of its
      queues; futures may call back into the driver.
    - [Tasks]: the spawner of tasks for the thread of the runtime, step by step with other
      threads between the steps.
    - [Stats]: what is in flight ([runtime/stats.rs]), from the op driver, the resources and
      the timers.
    - [EventLoop]: [poll_event_loop_inner] as a program over events (the calls into V8,
      libuv and the other parts), whose effect is a parameter and whose log is kept.
    - [Rejections]: the exception state, the callback of V8 for promise rejections and their
      delivery by the tick.
    - [Inspector]: the sessions of debuggers ([inspector.rs]): [poll_sessions] step by step,
      with debuggers, workers and V8 in between, and a [park] that may return for no reason;
      the invariant behind its wake-ups.
      [InspectorRuns]: its end, the order of messages, the theorems.
    - [RustStr]: texts as bytes in UTF-8, searching, slices that may panic, numbers.
      [Specifiers]: the interface of the [url] crate and [resolve_import].
    - [SourceMaps]: [SourceMapper] with its caches and everyone who asks it for positions.
      [StackTraces]: frames, eval origins, file names, call sites.  [JsErrors]: errors from
      exceptions, over a heap of V8 objects.
    - [OpContexts]: op declarations and extensions, op contexts with their ids, metrics,
      what the bindings give to JavaScript, against a description by properties, reentrancy.
      [ExtSources]: the files of
      extensions, the module loaders, the execution of extension code.
    - [Numbers]: [f64] and casts.  [SerdeV8]: the serializer and the deserializer of
      [serde_v8] over trees of JavaScript values, in which a read of an element or property
      may throw (getters, proxies).  [SerdeRoundtrip]: what they promise.
    - [OpValues]: the arguments of ops ([runtime/ops.rs]): numbers, strings of fast calls,
      buffers of a heap in which views share bytes and buffers share stores.  [Convert]: the traits [ToV8] and [FromV8]
      ([convert.rs]) over codes of types; elements of arrays may throw.  [ConvertLaws]: what they promise.
    - [UvLoop]: [uv_compat.rs]: handles in a heap of pointers, timers, watchers, closing,
      TCP streams, the phases.  [UvHandles]: the invariant of lists and memory.  [UvClient]:
      the calls of C code, the rules of libuv for them, callbacks as sequences of legal
      calls.  [UvPhases], [UvStreams]: the theorems.
    - [WebIdl]: the conversions from a JavaScript number to an integer type.  [WebIdlTypes]:
      the other converters of [webidl.rs], with any JavaScript running in between.
    - [Op2Config]: the flags of [#[op2]] ([ops/op2/config.rs]).  [Op2Signature]: types and
      attributes of arguments and return values ([signature.rs]), [Op2SignatureLaws]: what
      parses, [Op2Generics]: generics, return types and whole signatures
      ([signature_retval.rs]).  The class [Syn] stands for the texts that [syn] parses.
    - [Op2Codegen]: the code of the slow and the asynchronous call
      ([dispatch_slow.rs], [dispatch_async.rs], [dispatch_shared.rs]), as a term over the
      names that it binds, uses and reads, in a monad over [GeneratorState].  [Op2Fast]:
      fast calls ([dispatch_fast.rs]) and [generate_op2].  [Op2Scoping], [Op2Hygiene],
      [Op2Closed]: names are bound before they are used; [Op2Reads]: positions.
      [Op2Objects]: [impl] blocks ([object_wrap.rs]).
    - [FastStrings]: the strings of [fast_string.rs] in five kinds of memory, against texts
      that know whether they are static, owned or shared.  [Externals]: typed pointers in V8 externals ([external.rs]).
    - [CppgcTypes]: the derive macros for inheritance ([ops/cppgc.rs]), the graph of
      inheritance, values in memory.  [Cppgc]: objects, wrappers, pointers and the casts
      between types, with the garbage collectors as actions of the host.  [CppgcTemplates]:
      the templates of classes through a snapshot.

    Names of definitions are those of the source.  A method of a Rust type takes the state
    first and returns it with its result; a Rust panic is [Panic] with its cause; [self]
    behind a [RefCell] or [Cell] is passed and returned.  [profile] tells debug builds,
    with overflow checks and debug assertions, from release builds that wrap.

    ** What is proved

    - Safety and refinement of the stateful parts: the cell excludes conflicting guards and
      is fair, panic-free and loses no wake-up; the pointer lists and the timer tree
      implement their abstract specifications; a raw arena implements a set of slots, and
      a unique arena frees its memory at the right time as long as nothing overflows it; an
      arena that threads share answers as the counts of their references say.
    - The module graph: registration keeps the map consistent whatever it is given; when a
      load is done, every module that its root reaches is registered and each of their
      imports resolves, in any order of completions and with other loads in between, if every
      specifier is imported with one type and not in the source phase; no reference is asked
      for twice; the loop around the load never panics if V8 can hold the sources.  Snapshots
      round-trip, in debug builds if there are no aliases.
    - The event loop: phases come in the documented order, with microtask checkpoints
      between them, after each timer and each round of I/O; the next-tick queue runs before
      the reactions of completed ops; no wake-up is lost; the batch of ops is bounded and in
      order.
    - Imports and evaluations: every promise of [import()] is settled at most once and, until
      then, its load is in a queue or its module is under evaluation, unless V8 gave it up;
      [poll_progress] ends and reports exactly what is left, and each evaluation
      is answered once, for every behaviour of JavaScript in between.
    - Ops and tasks: each op is answered once, a submitted one schedules the driver and a
      completed one wakes the event loop; tasks run once, in order, and none is left without a wake-up.
    - Extensions: ops are bound as their declarations say, without an index out of bounds, if
      the last object is not empty; metrics count calls exactly; the sources of extensions are
      those that the snapshot lacks, none is handed out twice, and if specifiers differ none is
      left over when initialisation succeeds.
    - Debuggers: the inspector misses no message or connection, however they come in between
      its steps, and its loop ends when nothing comes any more; it does not panic unless
      [park] returns for no reason.
    - Errors: each rejected promise is reported as [HostPromiseRejectionTracker] prescribes;
      the caches of source maps change no answer; eval origins parse back; frames format
      without panics, colours or not; exceptions become well-formed errors for every heap
      where that ends.
    - libuv: C code that follows the rules never makes the loop touch freed memory; expired
      timers fire in order; close callbacks come once; writes keep every byte in order.
    - Bytes and numbers: the operations on views hold together what they cut, ids are
      unused until they wrap, buffer sizes stay between their bounds, [write_all] sends
      every byte once, numbers convert as WebIDL prescribes, socket addresses round-trip;
      Rust values survive the way to JavaScript and back, and no JavaScript value makes
      deserialization panic whose reads do not throw and that has no symbols, or none where
      the type allows any value.
    - Arguments of ops: integers convert as in JavaScript wherever the code does not
      saturate, strings of fast calls become UTF-8 in bounds, a buffer that Rust takes over is out of
      the reach of JavaScript unless it has a detach key or another buffer shares its store;
      [from_v8] is typed, and total where reads of elements do not throw, and values come back
      from [to_v8] whenever the type can carry them; the converters of Web IDL are typed for
      any JavaScript, and end if its iterators do.
    - The op macro: its flags decide the configuration, every type parses with an answer or
      an error, arguments need the attribute of their type; the generated functions are
      closed, but for three combinations that the macro does not check; the slow and the fast
      call of an op read the same values, but for the argument of [#[proto]] and for
      asynchronous ops that ask for the id of their promise; a class is declared with the ops
      of its methods.
    - Memory that V8 manages: casts of garbage collected objects find values of their type
      whatever is collected in between, for clients that keep a contract, and strings in
      static memory answer as texts.
    - Where the code does not do what it means to, a theorem states what it does:
      [Abortable] never reports termination after completion, alias loops hang, two
      imports that differ in type or phase hide each other during a load, view operations
      that assert too much, arenas that free memory behind an overflowed box, an [import()]
      made during evaluation that does not wait, handlers of rejections that panic,
      [AggregateError]s that exhaust the stack, disabled extensions whose ops stay enabled,
      methods that share op ids, six differences from libuv, a shared arena that keeps its
      lock, debuggers that are never forgotten, nested options that lose their [Some], ops whose
      generated code uses a name that nothing binds, or whose fast call is off by one, static
      setters that are declared under a wrong name, pointers to objects that safe code can keep
      too long, getters that throw into an [unwrap], two buffers over one store, modules of an
      extension that replace each other without an error, accessors declared with a symbol
      that are bound under a string.

    ** Fuel and bounds

    Loops that the code bounds itself are recursive on that bound ([task_loop], [io_loop]).
    [op_loop] gets 343 rounds: three arguments per op reach 1024 after 342 ([ops_batch]
    proves that this is enough).  [cancel] gets one more than the number of nodes of the
    heap, [walk] one more than the number of registered imports, [vacant_walk] the capacity
    of the arena; their callers' theorems show that this is enough.  [write_all] ends with
    any fuel above the length of the view, [get_id] with fuel above the number of entries
    of the name map; [get_id_resolves] also shows that a loop of aliases exhausts any
    fuel.  [handled_loop] and [run_close_callbacks] run callbacks that may queue more, so
    the code need not end; their theorems hold for every fuel.  [poll_progress] ends with
    any fuel above [2 * (rank + prepared) + evaluations] ([poll_progress_ends]).  A poll of
    the task spawner takes three steps.  [uv_write] needs fuel above the bytes that it is
    given and [poll_write] above the bytes and writes that are queued, which their theorems
    show to be enough; the watchers and the reads of [uv_compat.rs] run callbacks that may
    go on for ever, and their theorems hold for every fuel.  The fuel of
    [inner_from_v8_exception] is the stack of Rust; [exceptions_end] says how much is enough.
    [parse_type] ends with any fuel above the depth of the type ([op_types_parse]).
    The loop over an iterator of JavaScript ends with fuel above the elements that are left,
    if there is a measure of them ([web_idl_values_typed]).
    [find_transitive_inheritors] takes a step per type that it finds, of which there are at
    most as many as edges.

    ** What is not modelled

    Glue to V8 (the rest of [runtime/bindings.rs], [ops_builtin_v8.rs]), the construction of
    the runtime, the macros that derive converters ([src/ops/webidl], [src/ops/conversion]),
    the JavaScript sources, tools and tests are left out: they are mostly calls into
    libraries whose definition is not part of the repository.
    The round trip of the module map is stated for maps without aliases: with an alias,
    debug builds fail an assertion of the code. *)

From stdpp Require Export base tactics list list_numbers gmap strings fin_maps.
From Stdlib Require Export ZArith Lia.

(** * Faults and outcomes

    A Rust function either returns or panics.  [outcome] is the error monad for
    panics; [fault] records which construct panicked. *)

Inductive fault :=
  | Overflow      (** arithmetic overflow under [overflow-checks] *)
  | DebugAssert   (** a [debug_assert!] *)
  | Assert        (** an [assert!] *)
  | Unwrap        (** [unwrap] of [None], an explicit [panic!] *)
  | Unreachable   (** [unreachable!()] *)
  | OutOfBounds   (** slice indexing *)
  | BorrowConflict  (** a [RefCell] that is borrowed already *)
  | BadMemory     (** a read that [unsafe] code must never make *)
  | OutOfFuel.    (** the model's own bound on a loop *)

Inductive outcome (A : Type) :=
  | Ret (a : A)
  | Panic (f : fault).
Arguments Ret {A} a.
Arguments Panic {A} f.

Global Instance fault_eq_dec : EqDecision fault.
Proof. solve_decision. Defined.
Global Instance outcome_eq_dec `{EqDecision A} : EqDecision (outcome A).
Proof. solve_decision. Defined.

Global Instance outcome_ret : MRet outcome := λ A a, Ret a.
Global Instance outcome_bind : MBind outcome := λ A B k o,
  match o with Ret a => k a | Panic f => Panic f end.

(** Rust's [Result] and [Poll]. *)
Inductive result (A E : Type) :=
  | Ok (a : A)
  | Err (e : E).
Arguments Ok {A E} a.
Arguments Err {A E} e.

Inductive poll (A : Type) :=
  | Ready (a : A)
  | Pending.
Arguments Ready {A} a.
Arguments Pending {A}.

Global Instance result_eq_dec `{EqDecision A, EqDecision E} :
  EqDecision (result A E).
Proof. solve_decision. Defined.
Global Instance poll_eq_dec `{EqDecision A} : EqDecision (poll A).
Proof. solve_decision. Defined.

(** * Build profiles

    [Debug] has [debug_assertions] and [overflow-checks]; [Release] has neither:
    a [debug_assert!] is skipped and integer arithmetic wraps. *)

Inductive profile := Debug | Release.
Global Instance profile_eq_dec : EqDecision profile.
Proof. solve_decision. Defined.

Section machine_integers.
Context (p : profile).
Local Open Scope Z_scope.

(** Unsigned [w]-bit addition and subtraction. *)
Definition add_w (w a b : Z) : outcome Z :=
  if decide (a + b < 2 ^ w) then Ret (a + b)
  else match p with
       | Debug => Panic Overflow
       | Release => Ret ((a + b) mod 2 ^ w)
       end.

Definition sub_w (w a b : Z) : outcome Z :=
  if decide (b <= a) then Ret (a - b)
  else match p with
       | Debug => Panic Overflow
       | Release => Ret ((a - b) mod 2 ^ w)
       end.

(** Signed [w]-bit addition, in two's complement. *)
Definition add_s (w a b : Z) : outcome Z :=
  if decide (- 2 ^ (w - 1) <= a + b < 2 ^ (w - 1)) then Ret (a + b)
  else match p with
       | Debug => Panic Overflow
       | Release => Ret ((a + b + 2 ^ (w - 1)) mod 2 ^ w - 2 ^ (w - 1))
       end.

Definition debug_assert (b : bool) : outcome unit :=
  match p with
  | Debug => if b then Ret tt else Panic DebugAssert
  | Release => Ret tt
  end.

Lemma add_w_fits w a b : a + b < 2 ^ w → add_w w a b = Ret (a + b).
Proof. intros. unfold add_w. by case_decide. Qed.

Lemma add_s_fits w a b :
  - 2 ^ (w - 1) <= a + b < 2 ^ (w - 1) → add_s w a b = Ret (a + b).
Proof. intros. unfold add_s. by case_decide. Qed.

Lemma sub_w_fits w a b : b <= a → sub_w w a b = Ret (a - b).
Proof. intros. unfold sub_w. by case_decide. Qed.

Lemma debug_assert_true b : b = true → debug_assert b = Ret tt.
Proof. intros Hb. subst b. unfold debug_assert. by destruct p. Qed.
End machine_integers.

Global Arguments add_w : simpl never.
Global Arguments sub_w : simpl never.
Global Arguments add_s : simpl never.

(** [assert!], [unwrap], [unreachable!] do not depend on the profile. *)
Definition assert (b : bool) : outcome unit :=
  if b then Ret tt else Panic Assert.
Definition unwrap {A} (o : option A) : outcome A :=
  match o with Some a => Ret a | None => Panic Unwrap end.

Lemma assert_true b : b = true → assert b = Ret tt.
Proof. by intros ->. Qed.

(** * Reasoning about [outcome] *)

Definition returns {A} (o : outcome A) : Prop := ∃ a, o = Ret a.

Lemma bind_Ret_inv {A B} (o : outcome A) (k : A → outcome B) b :
  o ≫= k = Ret b → ∃ a, o = Ret a ∧ k a = Ret b.
Proof. destruct o; [eauto | done]. Qed.

Lemma bind_Ret {A B} (a : A) (k : A → outcome B) : Ret a ≫= k = k a.
Proof. done. Qed.

Lemma unwrap_Ret_inv {A} (o : option A) a : unwrap o = Ret a → o = Some a.
Proof. destruct o; by intros [= ->]. Qed.

Lemma assert_Ret_inv b u : assert b = Ret u → b = true.
Proof. by destruct b. Qed.

(** [run_in H] takes apart a successful run: every bind, [unwrap] and [assert]
    in the hypothesis [H : _ = Ret _]. *)
Ltac run_in H :=
  repeat first
    [ progress simpl in H
    | match type of H with
      | _ ≫= _ = Ret _ =>
          let a := fresh "a" in let H1 := fresh "Hrun" in
          apply bind_Ret_inv in H as (a & H1 & H)
      | Ret _ = Ret _ => injection H as H; subst
      | Panic _ = Ret _ => discriminate H
      end ].

(** [run_all] does the same for every hypothesis, splitting the cases of the
    matches it meets on the way. *)
Ltac run_all :=
  repeat first
    [ progress simplify_eq/=
    | match goal with
      | H : _ ≫= _ = Ret _ |- _ =>
          let a := fresh "a" in let H1 := fresh "Hrun" in
          apply bind_Ret_inv in H as (a & H1 & H)
      | H : unwrap _ = Ret _ |- _ => apply unwrap_Ret_inv in H
      | H : assert _ = Ret _ |- _ => apply assert_Ret_inv in H
      | H : match ?x with _ => _ end = Ret _ |- _ => destruct x eqn:?
      end ].

(** ** State and panics

    A method of a type with state [S] that may panic. *)

Definition stateM (S A : Type) : Type := S → outcome (A * S).
Global Instance stateM_ret {S} : MRet (stateM S) := λ A a s, Ret (a, s).
Global Instance stateM_bind {S} : MBind (stateM S) := λ A B k f s, '(a, s) ← f s; k a s.

Lemma stateM_bind_inv {S A B} (m : stateM S A) (k : A → stateM S B) s b s' :
  (m ≫= k) s = Ret (b, s') → ∃ a s1, m s = Ret (a, s1) ∧ k a s1 = Ret (b, s').
Proof. unfold mbind, stateM_bind. destruct (m s) as [[a s1]|f]; [|done]. by exists a, s1. Qed.

Lemma stateM_bind_panic {S A B} (m : stateM S A) (k : A → stateM S B) s f :
  (m ≫= k) s = Panic f → m s = Panic f ∨ ∃ a s1, m s = Ret (a, s1) ∧ k a s1 = Panic f.
Proof.
  unfold mbind, stateM_bind.
  destruct (m s) as [[a s1]|f']; intros Hk; [right; by exists a, s1|left]. by simplify_eq/=.
Qed.

(** A method that may also return an error; effects made before it stay. *)
Definition resultM (S E A : Type) : Type := S → outcome (result A E * S).
Global Instance resultM_ret {S E} : MRet (resultM S E) := λ A a s, Ret (Ok a, s).
Global Instance resultM_bind {S E} : MBind (resultM S E) := λ A B k f s,
  '(r, s) ← f s;
  match r with Ok a => k a s | Err e => Ret (Err e, s) end.

Lemma resultM_bind_Ok {S E A B} (m : resultM S E A) (k : A → resultM S E B) s a s1 :
  m s = Ret (Ok a, s1) → (m ≫= k) s = k a s1.
Proof. unfold mbind, resultM_bind. by intros ->. Qed.

Lemma resultM_bind_Err {S E A B} (m : resultM S E A) (k : A → resultM S E B) s e s1 :
  m s = Ret (Err e, s1) → (m ≫= k) s = Ret (Err e, s1).
Proof. unfold mbind, resultM_bind. by intros ->. Qed.

(** The method returns, and what it returns satisfies [Q]. *)
Definition terminates {S E A} (m : resultM S E A) (s : S) (Q : result A E → S → Prop) : Prop :=
  ∃ r s', m s = Ret (r, s') ∧ Q r s'.

Lemma terminates_ret {S E A} (a : A) (s : S) (Q : result A E → S → Prop) : Q (Ok a) s → terminates (mret a) s Q.
Proof. intros HQ. by eexists _, _. Qed.

Lemma terminates_bind {S E A B} (m : resultM S E A) (k : A → resultM S E B) s Q :
  terminates m s (λ r s, match r with Ok a => terminates (k a) s Q | Err e => Q (Err e) s end) →
  terminates (m ≫= k) s Q.
Proof.
  intros ([a|e] & s1 & Hm & Hk).
  - destruct Hk as (r & s2 & Hr & HQ). exists r, s2. by rewrite (resultM_bind_Ok _ _ _ _ _ Hm).
  - exists (Err e), s1. by rewrite (resultM_bind_Err _ _ _ _ _ Hm).
Qed.

Lemma terminates_mono {S E A} (m : resultM S E A) s (Q R : result A E → S → Prop) :
  terminates m s Q → (∀ r s', Q r s' → R r s') → terminates m s R.
Proof. intros (r & s' & Hm & HQ) HR. exists r, s'. split; [done|by apply HR]. Qed.

Create HintDb deno discriminated.
Create Rewrite HintDb deno_run.
#[export] Hint Rewrite @bind_Ret : deno_run.
#[export] Hint Rewrite @add_w_fits @sub_w_fits @add_s_fits using lia : deno_run.
#[export] Hint Rewrite @assert_true @debug_assert_true using done : deno_run.

(** [step] runs the program one construct further: monad laws, machine
    arithmetic whose bounds [lia] proves, and assertions that compute. *)
Ltac step := repeat (progress (autorewrite with deno_run; simpl)).

(** * Lists *)

Lemma list_filter_ext_elem {A} (P Q : A → Prop)
    `{!∀ x, Decision (P x), !∀ x, Decision (Q x)} (l : list A) :
  (∀ x, x ∈ l → P x ↔ Q x) → filter P l = filter Q l.
Proof.
  induction l as [|x l IH]; intros HPQ; [done|].
  assert (P x ↔ Q x) by (apply HPQ, elem_of_cons; auto).
  rewrite !filter_cons, IH by (intros y Hy; apply HPQ, elem_of_cons; auto).
  repeat case_decide; tauto.
Qed.

Lemma list_filter_all {A} (P : A → Prop) `{!∀ x, Decision (P x)} (l : list A) :
  (∀ x, x ∈ l → P x) → filter P l = l.
Proof.
  induction l as [|x l IH]; intros HP; [done|].
  rewrite filter_cons, decide_True by (apply HP, elem_of_cons; auto).
  by rewrite IH by (intros y Hy; apply HP, elem_of_cons; auto).
Qed.

(** * Slices

    Lengths and positions of Rust slices are [usize], integers here. *)

Definition zlen {A} (l : list A) : Z := Z.of_nat (length l).
Definition ztake {A} (n : Z) (l : list A) : list A := take (Z.to_nat n) l.
Definition zdrop {A} (n : Z) (l : list A) : list A := drop (Z.to_nat n) l.

Section slices.
Context {A : Type}.
Implicit Types (l : list A) (n m : Z).
Local Open Scope Z_scope.

Lemma zlen_nonneg l : 0 <= zlen l.
Proof. unfold zlen. lia. Qed.
Lemma zlen_ztake n l : 0 <= n → zlen (ztake n l) = Z.min n (zlen l).
Proof. unfold zlen, ztake. intros. rewrite length_take. lia. Qed.
Lemma zlen_zdrop n l : 0 <= n → zlen (zdrop n l) = Z.max 0 (zlen l - n).
Proof. unfold zlen, zdrop. intros. rewrite length_drop. lia. Qed.
Lemma zlen_app l l' : zlen (l ++ l') = zlen l + zlen l'.
Proof. unfold zlen. rewrite length_app. lia. Qed.
Lemma ztake_all n l : zlen l <= n → ztake n l = l.
Proof. unfold zlen, ztake. intros. apply take_ge. lia. Qed.
Lemma zdrop_all n l : zlen l <= n → zdrop n l = [].
Proof. unfold zlen, zdrop. intros. apply drop_ge. lia. Qed.
Lemma zdrop_0 l : zdrop 0 l = l.
Proof. done. Qed.
Lemma zdrop_zdrop n m l : 0 <= n → 0 <= m → zdrop n (zdrop m l) = zdrop (m + n) l.
Proof. unfold zdrop. intros. rewrite drop_drop. f_equal. lia. Qed.
Lemma ztake_ztake n m l : ztake n (ztake m l) = ztake (Z.min n m) l.
Proof.
  unfold ztake. intros. rewrite take_take. f_equal.
  destruct (Z.min_spec n m) as [[? ->]|[? ->]]; lia.
Qed.
Lemma zdrop_ztake n m l : 0 <= n → zdrop n (ztake m l) = ztake (m - n) (zdrop n l).
Proof.
  unfold zdrop, ztake. intros. rewrite skipn_firstn_comm. f_equal. lia.
Qed.
Lemma ztake_zdrop_id n l : ztake n l ++ zdrop n l = l.
Proof. apply take_drop. Qed.
End slices.
