(* ===== verification/AsyncCell.v ===== *)
(** [core/async_cell.rs]: [AsyncRefCell], a [RefCell] whose borrows are futures.

    Holds the borrow counter ([BorrowCount]), the waiter queue with its holes and
    turn counter ([AsyncRefCell]), the futures and guards that clients hold, and
    the proofs of mutual exclusion, first-come-first-served order, panic freedom
    and absence of lost wakeups. *)

From S2P Require Import Prelude.
Local Open Scope Z_scope.

(** A [std::task::Waker], up to [will_wake]: the task it wakes. *)
Abbreviation waker := nat.

(** * The borrow counter *)

Inductive BorrowMode := MShared | MExclusive.
Global Instance BorrowMode_eq_dec : EqDecision BorrowMode.
Proof. solve_decision. Defined.

Inductive BorrowCount :=
  | Shared (refs : Z)
  | Exclusive.
Global Instance BorrowCount_eq_dec : EqDecision BorrowCount.
Proof. solve_decision. Defined.

Definition BorrowCount_default : BorrowCount := Shared 0.

Definition is_empty (c : BorrowCount) : bool :=
  match c with Shared refs => refs =? 0 | Exclusive => false end.

Section cell.
Context (p : profile).

Definition try_add (c : BorrowCount) (mode : BorrowMode) :
    outcome (option BorrowCount) :=
  match c, mode with
  | Shared refs, MShared => r ← add_w p 64 refs 1; Ret (Some (Shared r))
  | Shared refs, MExclusive => Ret (if refs =? 0 then Some Exclusive else None)
  | Exclusive, _ => Ret None
  end.

Definition try_remove (c : BorrowCount) (mode : BorrowMode) :
    option BorrowCount :=
  match c, mode with
  | Shared refs, MShared =>
      if 0 <? refs then Some (Shared (refs - 1)) else None
  | Exclusive, MExclusive => Some (Shared 0)
  | _, _ => None
  end.

Definition remove (c : BorrowCount) (mode : BorrowMode) :
    outcome BorrowCount :=
  match try_remove c mode with
  | Some value => Ret value
  | None => Panic Unwrap
  end.

(** * Waiters *)

Record Waiter := mkWaiter { borrow_mode : BorrowMode; w_waker : option waker }.

Definition Waiter_new (mode : BorrowMode) : Waiter := mkWaiter mode None.

(** The stored waker is replaced unless it already wakes the same task. *)
Definition set_waker (w : Waiter) (new_waker : waker) : Waiter :=
  match w_waker w with
  | Some old => if decide (old = new_waker) then w
                else mkWaiter (borrow_mode w) (Some new_waker)
  | None => mkWaiter (borrow_mode w) (Some new_waker)
  end.

Definition take_waker (w : Waiter) : Waiter * option waker :=
  (mkWaiter (borrow_mode w) None, w_waker w).

(** * The cell

    [value] is only reached through guards, so the operations below leave it
    alone; the waiter queue is a [VecDeque] of optional waiters whose [None]
    entries are the holes left by dropped futures. *)

Record AsyncRefCell (T : Type) := mkCell {
  value : T;
  borrow_count : BorrowCount;
  waiters : list (option Waiter);
  turn : Z
}.
End cell.
Arguments mkCell {T} _ _ _ _.
Arguments value {T} _.
Arguments borrow_count {T} _.
Arguments waiters {T} _.
Arguments turn {T} _.

Section operations.
Context (p : profile) {T : Type}.
Implicit Types c : AsyncRefCell T.

Definition AsyncRefCell_new (v : T) : AsyncRefCell T :=
  mkCell v BorrowCount_default [] 0.

Definition into_inner (c : AsyncRefCell T) : outcome T :=
  _ ← assert (is_empty (borrow_count c)); Ret (value c).

Definition set_count (c : AsyncRefCell T) (b : BorrowCount) : AsyncRefCell T :=
  mkCell (value c) b (waiters c) (turn c).
Definition set_waiters (c : AsyncRefCell T) (ws : list (option Waiter)) :
    AsyncRefCell T :=
  mkCell (value c) (borrow_count c) ws (turn c).

(** The loop of [wake_waiters]: pops holes, grants the borrow to waiters at
    the front while it can be added, and collects the wakers it wakes. *)
Fixpoint wake_loop (b : BorrowCount) (t : Z) (ws : list (option Waiter)) :
    outcome (BorrowCount * Z * list (option Waiter) * list waker) :=
  match ws with
  | [] => Ret (b, t, [], [])
  | None :: ws' => t' ← add_w p 64 t 1; wake_loop b t' ws'
  | Some w :: ws' =>
      ob ← try_add p b (borrow_mode w);
      match ob with
      | None => Ret (b, t, ws, [])
      | Some b' =>
          t' ← add_w p 64 t 1;
          '(b'', t'', rest, woken) ← wake_loop b' t' ws';
          Ret (b'', t'', rest,
               match snd (take_waker w) with
               | Some k => k :: woken
               | None => woken
               end)
      end
  end.

Definition wake_waiters (c : AsyncRefCell T) :
    outcome (AsyncRefCell T * list waker) :=
  '(b, t, ws, woken) ← wake_loop (borrow_count c) (turn c) (waiters c);
  Ret (mkCell (value c) b ws t, woken).

Definition borrow_sync (mode : BorrowMode) (c : AsyncRefCell T) :
    outcome (option (AsyncRefCell T)) :=
  match waiters c with
  | [] =>
      ob ← try_add p (borrow_count c) mode;
      match ob with
      | Some b => Ret (Some (set_count c b))
      | None => Ret None
      end
  | _ :: _ => Ret None
  end.

Definition drop_borrow (mode : BorrowMode) (c : AsyncRefCell T) :
    outcome (AsyncRefCell T * list waker) :=
  b ← remove (borrow_count c) mode;
  let c' := set_count c b in
  if is_empty b then wake_waiters c' else Ret (c', []).

Definition create_waiter (mode : BorrowMode) (c : AsyncRefCell T) :
    outcome (Z * AsyncRefCell T * list waker) :=
  let t := turn c in
  let ws := waiters c ++ [Some (Waiter_new mode)] in
  let index := Z.of_nat (length ws) - 1 in
  '(c', woken) ←
    (if index =? 0 then wake_waiters (set_waiters c ws)
     else Ret (set_waiters c ws, []));
  id ← add_w p 64 t index;
  Ret (id, c', woken).

Definition poll_waiter (mode : BorrowMode) (c : AsyncRefCell T)
    (id : Z) (cx : waker) : outcome (poll unit * AsyncRefCell T) :=
  let t := turn c in
  if id <? t then
    _ ← remove (borrow_count c) mode;
    Ret (Ready tt, c)
  else
    bound ← add_w p 64 t (Z.of_nat (length (waiters c)));
    _ ← assert (id <? bound);
    _ ← (if t <? id then Ret tt
         else ob ← try_add p (borrow_count c) mode;
              assert (match ob with None => true | Some _ => false end));
    let i := Z.to_nat (id - t) in
    match waiters c !! i with
    | None => Panic OutOfBounds
    | Some None => Panic Unwrap
    | Some (Some w) =>
        Ret (Pending, set_waiters c (<[i := Some (set_waker w cx)]> (waiters c)))
    end.

Definition drop_waiter (mode : BorrowMode) (c : AsyncRefCell T) (id : Z) :
    outcome (AsyncRefCell T * list waker) :=
  let t := turn c in
  '(c', woken) ←
    (if id <? t then drop_borrow mode c
     else
       let i := Z.to_nat (id - t) in
       match waiters c !! i with
       | None => Panic OutOfBounds
       | Some None => Panic Unwrap
       | Some (Some _) => Ret (set_waiters c (<[i := None]> (waiters c)), [])
       end);
  if id =? t then
    '(c'', woken') ← wake_waiters c'; Ret (c'', woken ++ woken')
  else Ret (c', woken).
End operations.

(** * Futures and guards *)

(** [AsyncBorrowFutureImpl]: [f_cell] says whether its [cell] field is still
    [Some]; the mode is its type parameter. *)
Record future := mkFuture { f_cell : bool; f_id : Z; f_mode : BorrowMode }.

Section futures.
Context (p : profile) {T : Type}.
Implicit Types c : AsyncRefCell T.

Definition future_new (mode : BorrowMode) (c : AsyncRefCell T) :
    outcome (future * AsyncRefCell T * list waker) :=
  '(id, c', woken) ← create_waiter p mode c;
  Ret (mkFuture true id mode, c', woken).

(** [Ready] hands out a guard: the future gives up its [cell]. *)
Definition future_poll (f : future) (c : AsyncRefCell T) (cx : waker) :
    outcome (poll unit * future * AsyncRefCell T) :=
  if f_cell f then
    '(r, c') ← poll_waiter p (f_mode f) c (f_id f) cx;
    match r with
    | Pending => Ret (Pending, f, c')
    | Ready _ => Ret (Ready tt, mkFuture false (f_id f) (f_mode f), c')
    end
  else Panic Unwrap.

Definition future_drop (f : future) (c : AsyncRefCell T) :
    outcome (AsyncRefCell T * list waker) :=
  if f_cell f then drop_waiter p (f_mode f) c (f_id f) else Ret (c, []).
End futures.

(** * Clients of one cell

    A client may request a borrow, poll or drop a future it holds, try to borrow
    synchronously, and drop a guard, in any order.  [s_created] counts the
    borrows requested so far. *)

Record sys (T : Type) := mkSys {
  s_cell : AsyncRefCell T;
  s_futs : list future;
  s_guards : list BorrowMode;
  s_created : Z
}.
Arguments mkSys {T} _ _ _ _.
Arguments s_cell {T} _.
Arguments s_futs {T} _.
Arguments s_guards {T} _.
Arguments s_created {T} _.

Inductive action :=
  | ABorrow (mode : BorrowMode)
  | APoll (i : nat) (cx : waker)
  | ADropFuture (i : nat)
  | ATryBorrow (mode : BorrowMode)
  | ADropGuard (i : nat).

Section system.
Context (p : profile) {T : Type}.
Implicit Types s : sys T.

Definition init (v : T) : sys T := mkSys (AsyncRefCell_new v) [] [] 0.

(** What the borrow checker and the futures contract allow: a client acts on
    futures and guards it holds, and fewer than [2^64 - 2] borrows are ever
    requested from one cell. *)
Definition legal (s : sys T) (a : action) : Prop :=
  match a with
  | ABorrow _ | ATryBorrow _ => s_created s + 2 < 2 ^ 64
  | APoll i _ | ADropFuture i => (i < length (s_futs s))%nat
  | ADropGuard i => (i < length (s_guards s))%nat
  end.

(** The result [None] stands for an action on a future or guard that does not
    exist. *)
Definition exec (s : sys T) (a : action) : outcome (sys T * list waker) :=
  match a with
  | ABorrow mode =>
      '(f, c, woken) ← future_new p mode (s_cell s);
      Ret (mkSys c (s_futs s ++ [f]) (s_guards s) (s_created s + 1), woken)
  | APoll i cx =>
      f ← unwrap (s_futs s !! i);
      '(r, _, c) ← future_poll p f (s_cell s) cx;
      match r with
      | Pending => Ret (mkSys c (s_futs s) (s_guards s) (s_created s), [])
      | Ready _ =>
          Ret (mkSys c (delete i (s_futs s)) (f_mode f :: s_guards s)
                 (s_created s), [])
      end
  | ADropFuture i =>
      f ← unwrap (s_futs s !! i);
      '(c, woken) ← future_drop p f (s_cell s);
      Ret (mkSys c (delete i (s_futs s)) (s_guards s) (s_created s), woken)
  | ATryBorrow mode =>
      oc ← borrow_sync p mode (s_cell s);
      match oc with
      | Some c => Ret (mkSys c (s_futs s) (mode :: s_guards s)
                         (s_created s + 1), [])
      | None => Ret (s, [])
      end
  | ADropGuard i =>
      mode ← unwrap (s_guards s !! i);
      '(c, woken) ← drop_borrow p mode (s_cell s);
      Ret (mkSys c (s_futs s) (delete i (s_guards s)) (s_created s), woken)
  end.

Inductive reachable (v : T) : sys T → Prop :=
  | reach_init : reachable v (init v)
  | reach_step s a s' woken :
      reachable v s → legal s a → exec s a = Ret (s', woken) →
      reachable v s'.
End system.

(** * The borrow counter counts the holders *)

(** The modes in [l] are what the counter [b] accounts for. *)
Definition holds (b : BorrowCount) (l : list BorrowMode) : Prop :=
  match b with
  | Shared n => n = Z.of_nat (length l) ∧ Forall (eq MShared) l
  | Exclusive => l = [MExclusive]
  end.

Global Instance holds_proper b : Proper ((≡ₚ) ==> iff) (holds b).
Proof.
  intros l1 l2 Hl. destruct b as [n|]; simpl.
  - by rewrite Hl.
  - split; intros ->.
    + by apply Permutation_singleton_l in Hl.
    + by apply Permutation_singleton_r in Hl.
Qed.

Lemma holds_add p b l m :
  holds b l → Z.of_nat (length l) + 1 < 2 ^ 64 →
  ∃ ob, try_add p b m = Ret ob ∧
    match ob with
    | Some b' => holds b' (m :: l)
    | None => l ≠ []
    end.
Proof.
  destruct b as [n|], m; simpl; intros Hh Hlt.
  - destruct Hh as [-> Hl]. step. eexists; split; [done|]. simpl.
    split; [lia|by constructor].
  - destruct Hh as [-> Hl]. destruct l as [|m l]; simpl; [by eexists|].
    by eexists.
  - subst. by eexists.
  - subst. by eexists.
Qed.

Lemma holds_remove b l m :
  holds b (m :: l) → ∃ b', try_remove b m = Some b' ∧ holds b' l.
Proof.
  destruct b as [n|]; simpl.
  - intros [-> Hl]. inversion Hl; subst. simpl.
    eexists; split; [done|]. simpl. split; [lia|done].
  - intros [= -> ->]. by eexists.
Qed.

Lemma holds_empty b l : holds b l → is_empty b = true ↔ l = [].
Proof.
  destruct b as [n|]; simpl.
  - intros [-> _]. by destruct l.
  - intros ->. done.
Qed.

(** An exclusive holder excludes every other holder. *)
Lemma holds_exclusive b l l1 l2 :
  holds b l → l ≡ₚ l1 ++ MExclusive :: l2 → l1 ++ l2 = [].
Proof.
  intros Hh Hp. rewrite Hp in Hh. destruct b as [n|]; simpl in Hh.
  - destruct Hh as [_ Hf]. apply Forall_app in Hf as [_ Hf].
    by inversion Hf.
  - by destruct l1 as [|? [|]]; simplify_eq/=.
Qed.

(** * The queue holds exactly the futures that wait *)

(** Futures whose turn has come hold a reserved borrow. *)
Definition reserved (t : Z) (fs : list future) : list BorrowMode :=
  f_mode <$> filter (λ f, f_id f < t) fs.

Record queue_ok (t : Z) (ws : list (option Waiter)) (fs : list future) : Prop := {
  queue_future i w : ws !! i = Some (Some w) →
    ∃ f, f ∈ fs ∧ f_id f = t + Z.of_nat i ∧ f_mode f = borrow_mode w;
  queue_waiter f : f ∈ fs → t <= f_id f →
    ∃ w, ws !! Z.to_nat (f_id f - t) = Some (Some w) ∧ borrow_mode w = f_mode f
}.

(** The waiter at the front cannot be served: the queue is empty or its front is
    a waiter in conflict with the current holders. *)
Definition front_blocked (p : profile) (b : BorrowCount)
    (ws : list (option Waiter)) : Prop :=
  match ws with
  | [] => True
  | None :: _ => False
  | Some w :: _ => try_add p b (borrow_mode w) = Ret None
  end.

Lemma reserved_app t fs1 fs2 :
  reserved t (fs1 ++ fs2) = reserved t fs1 ++ reserved t fs2.
Proof. unfold reserved. by rewrite filter_app, fmap_app. Qed.

Lemma reserved_cons t f fs :
  reserved t (f :: fs) =
    if decide (f_id f < t) then f_mode f :: reserved t fs else reserved t fs.
Proof. unfold reserved. rewrite filter_cons. by case_decide. Qed.

Lemma length_reserved t fs : (length (reserved t fs) <= length fs)%nat.
Proof. unfold reserved. rewrite length_fmap. apply length_filter. Qed.

Lemma reserved_skip t fs :
  (∀ f, f ∈ fs → f_id f ≠ t) → reserved (t + 1) fs = reserved t fs.
Proof.
  intros Hne. unfold reserved. f_equal. apply list_filter_ext_elem.
  intros f Hf%Hne. lia.
Qed.

Lemma reserved_grant t fs f :
  NoDup (f_id <$> fs) → f ∈ fs → f_id f = t →
  reserved (t + 1) fs ≡ₚ f_mode f :: reserved t fs.
Proof.
  intros Hnd Hf Hid. apply list_elem_of_split in Hf as (fs1 & fs2 & ->).
  rewrite fmap_app, fmap_cons in Hnd.
  apply NoDup_app in Hnd as (_ & Hd & Hnd). apply NoDup_cons in Hnd as [Hn _].
  rewrite !reserved_app.
  rewrite (reserved_skip t fs1).
  2: { intros g Hg Hgt. apply (Hd (f_id g)); [by apply list_elem_of_fmap_2|].
       apply elem_of_cons; left; congruence. }
  rewrite !reserved_cons. rewrite decide_True by lia. rewrite decide_False by lia.
  rewrite (reserved_skip t fs2).
  2: { intros g Hg Hgt. apply Hn. rewrite Hid, <- Hgt.
       by apply list_elem_of_fmap_2. }
  symmetry. apply Permutation_middle.
Qed.

Lemma filter_perm_reserved t fs1 fs2 :
  fs1 ≡ₚ fs2 → reserved t fs1 ≡ₚ reserved t fs2.
Proof. intros H. unfold reserved. by rewrite H. Qed.

Lemma queue_ok_pop t ow ws fs :
  queue_ok t (ow :: ws) fs → queue_ok (t + 1) ws fs.
Proof.
  intros [Hqf Hqw]. split.
  - intros i w Hi. destruct (Hqf (S i) w Hi) as (f & ? & ? & ?).
    exists f. split_and!; [done|lia|done].
  - intros f Hf Hge. destruct (Hqw f Hf ltac:(lia)) as (w & Hw & Hm).
    exists w. split; [|done].
    replace (Z.to_nat (f_id f - t)) with (S (Z.to_nat (f_id f - (t + 1)))) in Hw
      by lia. done.
Qed.

Section wake.
Context (p : profile).

(** What [wake_loop] does, in one statement: it serves the longest prefix of
    the queue it can, keeps the counter exact, and wakes whom it serves. *)
Lemma wake_loop_spec fs G : NoDup (f_id <$> fs) →
  Z.of_nat (length G + length fs) + 1 < 2 ^ 64 →
  ∀ ws b t,
  queue_ok t ws fs → holds b (reserved t fs ++ G) →
  t + Z.of_nat (length ws) < 2 ^ 64 →
  ∃ b' t' ws' woken,
    wake_loop p b t ws = Ret (b', t', ws', woken) ∧
    t <= t' ∧ t' + Z.of_nat (length ws') = t + Z.of_nat (length ws) ∧
    queue_ok t' ws' fs ∧ holds b' (reserved t' fs ++ G) ∧
    front_blocked p b' ws' ∧
    ws' = drop (Z.to_nat (t' - t)) ws ∧
    (∀ i w k, ws !! i = Some (Some w) → w_waker w = Some k →
      t + Z.of_nat i < t' → k ∈ woken).
Proof.
  intros Hnd Hlen. induction ws as [|ow ws IH]; intros b t Hq Hh Hfit.
  { exists b, t, [], []. split_and!; rewrite ?Z.sub_diag; try done; lia. }
  simpl in Hfit. pose proof (queue_ok_pop _ _ _ _ Hq) as Hq'.
  destruct ow as [w|]; simpl; step.
  - destruct (queue_future _ _ _ Hq 0 w eq_refl) as (f & Hf & Hid & Hm).
    rewrite Z.add_0_r in Hid.
    destruct (holds_add p b _ (borrow_mode w) Hh) as (ob & Hadd & Hob).
    { pose proof (length_reserved t fs). rewrite length_app. lia. }
    rewrite Hadd. simpl. destruct ob as [b'|].
    + step. destruct (IH b' (t + 1)) as
        (b'' & t'' & ws'' & woken & -> & ? & ? & ? & ? & ? & Hws & Hw);
        [done| |lia|].
      { by rewrite (reserved_grant t fs f), Hm. }
      step. do 4 eexists. split; [done|]. split_and!; try done; try lia.
      * rewrite Hws.
        by replace (Z.to_nat (t'' - t)) with (S (Z.to_nat (t'' - (t + 1)))) by lia.
      * intros [|i] w' k Hi Hk Hlt; simplify_eq/=.
        { rewrite Hk. set_solver. }
        apply (Hw i w' k) in Hk; [|done|lia]. destruct (w_waker w); set_solver.
    + do 4 eexists. split; [done|]. split_and!; rewrite ?Z.sub_diag;
        try done; lia.
  - destruct (IH b (t + 1)) as
      (b'' & t'' & ws'' & woken & -> & ? & ? & ? & ? & ? & Hws & Hw);
      [done| |lia|].
    { rewrite reserved_skip; [done|]. intros f Hf Hid.
      destruct (queue_waiter _ _ _ Hq f Hf) as (w & Hw & _); [lia|].
      by rewrite Hid, Z.sub_diag in Hw. }
    do 4 eexists. split; [done|]. split_and!; try done; try lia.
    + rewrite Hws.
      by replace (Z.to_nat (t'' - t)) with (S (Z.to_nat (t'' - (t + 1)))) by lia.
    + intros [|i] w' k Hi Hk Hlt; simplify_eq/=.
      apply (Hw i w' k); [done..|lia].
Qed.
End wake.

(** * The invariant of a cell and its clients *)

Section invariant.
Context (p : profile) {T : Type}.
Implicit Types (c : AsyncRefCell T) (s : sys T) (fs : list future)
  (G : list BorrowMode) (n : Z).

(** Everything but the front of the queue, which only [wake_waiters] mends. *)
Record core c fs G n : Prop := {
  core_live f : f ∈ fs → f_cell f = true;
  core_nodup : NoDup (f_id <$> fs);
  core_queue : queue_ok (turn c) (waiters c) fs;
  core_holds : holds (borrow_count c) (reserved (turn c) fs ++ G);
  core_fit : turn c + Z.of_nat (length (waiters c)) <= n;
  core_size : Z.of_nat (length G + length fs) <= n;
  core_bound : n + 1 < 2 ^ 64
}.

Record inv s : Prop := {
  inv_core : core (s_cell s) (s_futs s) (s_guards s) (s_created s);
  inv_front : front_blocked p (borrow_count (s_cell s)) (waiters (s_cell s))
}.

(** From [c] to [c'] the front of the queue was served, and every stored waker
    of a served waiter is in [woken]. *)
Definition served c c' (woken : list waker) : Prop :=
  value c' = value c ∧ turn c <= turn c' ∧
  ∀ i w k, waiters c !! i = Some (Some w) → w_waker w = Some k →
    turn c + Z.of_nat i < turn c' → k ∈ woken.

Lemma served_refl c c' woken :
  value c' = value c → turn c' = turn c → served c c' woken.
Proof. intros ? Ht. unfold served. rewrite Ht. split_and!; [done|lia|]. intros; lia. Qed.

Lemma core_id_lt c fs G n f :
  core c fs G n → f ∈ fs → f_id f < turn c + Z.of_nat (length (waiters c)).
Proof.
  intros Hc Hf. destruct (decide (turn c <= f_id f)); [|lia].
  destruct (queue_waiter _ _ _ (core_queue _ _ _ _ Hc) f Hf) as (w & Hw & _);
    [done|].
  apply lookup_lt_Some in Hw. lia.
Qed.

Lemma wake_waiters_spec c fs G n :
  core c fs G n →
  ∃ c' woken, wake_waiters p c = Ret (c', woken) ∧ core c' fs G n ∧
    front_blocked p (borrow_count c') (waiters c') ∧ served c c' woken.
Proof.
  intros [Hlive Hnd Hq Hh Hfit Hsz Hb].
  destruct (wake_loop_spec p fs G Hnd ltac:(lia) _ _ _ Hq Hh ltac:(lia)) as
    (b' & t' & ws' & woken & Hrun & ? & Hsum & ? & ? & ? & _ & Hw).
  unfold wake_waiters. rewrite Hrun. simpl. do 2 eexists. split; [done|].
  split_and!; simpl; [|done..]. split; simpl; try done. lia.
Qed.

Lemma core_perm c fs G G' n : G ≡ₚ G' → core c fs G n → core c fs G' n.
Proof.
  intros HG [Hlive Hnd Hq Hh Hfit Hsz Hb]. split; try done.
  - by rewrite <- HG.
  - by rewrite <- HG.
Qed.

Lemma front_blocked_remove b b' m ws :
  try_remove b m = Some b' → is_empty b' = false →
  front_blocked p b ws → front_blocked p b' ws.
Proof.
  destruct ws as [|[w|] ws]; simpl; [done| |done].
  destruct b as [r|], m; simpl; try done.
  - destruct (Z.ltb_spec 0 r); intros [= <-].
    simpl.
    destruct (borrow_mode w).
    + intros _ Hf. by run_in Hf.
    + by intros ->.
  - by intros [= <-].
Qed.

(** Dropping one borrow of mode [m]. *)
Lemma drop_borrow_spec c fs G n m :
  core c fs (m :: G) n → front_blocked p (borrow_count c) (waiters c) →
  ∃ c' woken, drop_borrow p m c = Ret (c', woken) ∧ core c' fs G n ∧
    front_blocked p (borrow_count c') (waiters c') ∧ served c c' woken.
Proof.
  intros [Hlive Hnd Hq Hh Hfit Hsz Hb] Hf.
  rewrite <- Permutation_middle in Hh.
  destruct (holds_remove _ _ _ Hh) as (b' & Hrm & Hh').
  unfold drop_borrow, remove. rewrite Hrm. simpl. simpl in Hsz.
  assert (core (set_count c b') fs G n) as Hcore by (split; simpl; try done; lia).
  destruct (is_empty b') eqn:He.
  - destruct (wake_waiters_spec _ _ _ _ Hcore) as (c' & woken & -> & ?).
    by exists c', woken.
  - exists (set_count c b'), []. split_and!; [done..| |by apply served_refl].
    by eapply front_blocked_remove.
Qed.

(** ** Changes to the queue *)

Lemma core_push c fs G n m :
  core c fs G n → n + 2 < 2 ^ 64 →
  core (set_waiters c (waiters c ++ [Some (Waiter_new m)]))
    (fs ++ [mkFuture true (turn c + Z.of_nat (length (waiters c))) m]) G (n + 1).
Proof.
  intros Hc Hn. pose proof (λ f, core_id_lt c fs G n f Hc) as Hlt.
  destruct Hc as [Hlive Hnd Hq Hh Hfit Hsz Hb]. split; simpl.
  - intros f [Hf| ->%list_elem_of_singleton]%elem_of_app; [by apply Hlive|done].
  - rewrite fmap_app. apply NoDup_app. split_and!; [done| |apply NoDup_singleton].
    intros ? (f & -> & Hf)%list_elem_of_fmap Heq%list_elem_of_singleton.
    specialize (Hlt f Hf). simpl in Heq. lia.
  - split.
    + intros i w [Hi|[Hi Hw]]%lookup_app_Some.
      * destruct (queue_future _ _ _ Hq i w Hi) as (f & ? & ? & ?).
        exists f. set_solver.
      * apply list_lookup_singleton_Some in Hw as [? [= <-]].
        eexists. split; [apply elem_of_app; right; by apply list_elem_of_singleton|].
        simpl. split; [lia|done].
    + intros f [Hf| ->%list_elem_of_singleton]%elem_of_app Hge.
      * destruct (queue_waiter _ _ _ Hq f Hf Hge) as (w & Hw & ?).
        exists w. split; [|done]. apply lookup_app_Some. by left.
      * exists (Waiter_new m). simpl. split; [|done].
        replace (Z.to_nat _) with (length (waiters c)) by lia.
        by rewrite lookup_app_r, Nat.sub_diag by done.
  - rewrite reserved_app, reserved_cons. simpl.
    rewrite decide_False by lia. unfold reserved at 2. simpl. by rewrite app_nil_r.
  - rewrite length_app. simpl. lia.
  - rewrite length_app. simpl. lia.
  - lia.
Qed.

Lemma core_hole c fs G n i f :
  core c fs G n → fs !! i = Some f → turn c <= f_id f →
  core (set_waiters c (<[Z.to_nat (f_id f - turn c) := None]> (waiters c)))
    (delete i fs) G n.
Proof.
  intros [Hlive Hnd Hq Hh Hfit Hsz Hb] Hi Hge.
  pose proof (delete_Permutation fs i f Hi) as Hperm.
  assert (Hsub : ∀ g, g ∈ delete i fs → g ∈ fs) by (intros; rewrite Hperm; set_solver).
  rewrite Hperm, fmap_cons, NoDup_cons in Hnd. destruct Hnd as [Hnotin Hnd].
  split; simpl; try done.
  - intros g Hg. by apply Hlive, Hsub.
  - split.
    + intros j w Hj. apply list_lookup_insert_Some in Hj as [(_ & [=] & _)|[Hne Hj]].
      destruct (queue_future _ _ _ Hq j w Hj) as (g & Hg & Hid & ?).
      exists g. split; [|done]. rewrite Hperm in Hg.
      apply elem_of_cons in Hg as [->|?]; [lia|done].
    + intros g Hg Hgge. destruct (queue_waiter _ _ _ Hq g (Hsub _ Hg) Hgge) as (w & ?).
      exists w. rewrite list_lookup_insert_ne; [done|]. intros Heq. apply Hnotin.
      replace (f_id f) with (f_id g) by lia. by apply list_elem_of_fmap_2.
  - rewrite (filter_perm_reserved (turn c) _ _ Hperm), reserved_cons in Hh.
    by rewrite decide_False in Hh by lia.
  - by rewrite length_insert.
  - rewrite Hperm in Hsz. simpl in Hsz. lia.
Qed.

Lemma core_take c fs G n i f :
  core c fs G n → fs !! i = Some f → f_id f < turn c →
  core c (delete i fs) (f_mode f :: G) n.
Proof.
  intros [Hlive Hnd Hq Hh Hfit Hsz Hb] Hi Hlt.
  pose proof (delete_Permutation fs i f Hi) as Hperm.
  assert (Hsub : ∀ g, g ∈ delete i fs → g ∈ fs) by (intros; rewrite Hperm; set_solver).
  rewrite Hperm, fmap_cons, NoDup_cons in Hnd. destruct Hnd as [_ Hnd].
  split; simpl; try done.
  - intros g Hg. by apply Hlive, Hsub.
  - split.
    + intros j w Hj. destruct (queue_future _ _ _ Hq j w Hj) as (g & Hg & Hid & ?).
      exists g. split; [|done]. rewrite Hperm in Hg.
      apply elem_of_cons in Hg as [->|?]; [lia|done].
    + intros g Hg. by apply (queue_waiter _ _ _ Hq g), Hsub.
  - rewrite (filter_perm_reserved (turn c) _ _ Hperm), reserved_cons in Hh.
    rewrite decide_True in Hh by lia. by rewrite <- Permutation_middle.
  - rewrite Hperm in Hsz. simpl in Hsz. lia.
Qed.

Lemma core_set_waker c fs G n i w w' :
  core c fs G n → waiters c !! i = Some (Some w) →
  borrow_mode w' = borrow_mode w →
  core (set_waiters c (<[i := Some w']> (waiters c))) fs G n.
Proof.
  intros [Hlive Hnd Hq Hh Hfit Hsz Hb] Hi Hm. pose proof (lookup_lt_Some _ _ _ Hi).
  split; simpl; try done; [|by rewrite length_insert]. split.
  - intros j v [(<- & [= <-] & _)|[Hne Hj]]%list_lookup_insert_Some.
    + rewrite Hm. by apply (queue_future _ _ _ Hq).
    + by apply (queue_future _ _ _ Hq).
  - intros g Hg Hge. destruct (queue_waiter _ _ _ Hq g Hg Hge) as (v & Hv & Hvm).
    destruct (decide (Z.to_nat (f_id g - turn c) = i)) as [<-|Hne].
    + exists w'. rewrite list_lookup_insert_eq by done.
      split; [done|]. rewrite Hi in Hv. injection Hv as ->. congruence.
    + exists v. by rewrite list_lookup_insert_ne by done.
Qed.
End invariant.

(** * Every legal action runs, and keeps the invariant *)

Section preservation.
Context (p : profile) {T : Type}.
Implicit Types s : sys T.

(** A waiter served by the step from [s] to [s'] whose future is still held
    has its last stored waker in [woken]. *)
Definition wakes s s' (woken : list waker) : Prop :=
  ∀ f w k, f ∈ s_futs s' → turn (s_cell s) <= f_id f < turn (s_cell s') →
    waiters (s_cell s) !! Z.to_nat (f_id f - turn (s_cell s)) = Some (Some w) →
    w_waker w = Some k → k ∈ woken.

Lemma served_wakes s s' woken :
  served (s_cell s) (s_cell s') woken → wakes s s' woken.
Proof. intros (_ & _ & Hw) f w k _ Hid Hl Hk. apply (Hw _ w k Hl Hk). lia. Qed.

Definition good_step s a : Prop :=
  ∃ s' woken, exec p s a = Ret (s', woken) ∧ inv p s' ∧ wakes s s' woken ∧
    value (s_cell s') = value (s_cell s).

Lemma good_step_borrow s mode : inv p s → legal s (ABorrow mode) →
  good_step s (ABorrow mode).
Proof.
  intros [Hc Hf] Hlegal. simpl in Hlegal.
  pose proof (core_push _ _ _ _ mode Hc Hlegal) as Hc'.
  unfold good_step. simpl. unfold future_new, create_waiter. rewrite length_app. simpl.
  destruct (Z.eqb_spec (Z.of_nat (length (waiters (s_cell s)) + 1) - 1) 0) as [H0|H0].
  - destruct (wake_waiters_spec p _ _ _ _ Hc') as (c' & woken & -> & ? & ? & Hv & ? & ?).
    step. rewrite add_w_fits by (pose proof (core_fit _ _ _ _ Hc); lia). simpl.
    do 2 eexists. split; [done|]. split_and!;
      [|by intros f w k _ _ Hl%lookup_lt_Some; lia|done].
    split; simpl; [|done].
    by replace (Z.of_nat (length (waiters (s_cell s)) + 1) - 1)
      with (Z.of_nat (length (waiters (s_cell s)))) by lia.
  - simpl. rewrite add_w_fits by (pose proof (core_fit _ _ _ _ Hc); lia). simpl.
    do 2 eexists. split; [done|]. split_and!; [|by apply served_wakes, served_refl|done].
    split; simpl.
    + by replace (Z.of_nat (length (waiters (s_cell s)) + 1) - 1)
        with (Z.of_nat (length (waiters (s_cell s)))) by lia.
    + destruct (waiters (s_cell s)); simpl in *; [lia|done].
Qed.

Lemma good_step_poll s i cx : inv p s → legal s (APoll i cx) →
  good_step s (APoll i cx).
Proof.
  intros [Hc Hf] [f Hi]%lookup_lt_is_Some_2. unfold good_step. simpl.
  rewrite Hi. simpl. pose proof (list_elem_of_lookup_2 _ _ _ Hi) as Hfin.
  unfold future_poll. rewrite (core_live _ _ _ _ Hc f Hfin).
  unfold poll_waiter. destruct (Z.ltb_spec (f_id f) (turn (s_cell s))) as [Hlt|Hge].
  - pose proof (core_take _ _ _ _ _ _ Hc Hi Hlt) as Hc'.
    pose proof (core_holds _ _ _ _ Hc') as Hh. rewrite <- Permutation_middle in Hh.
    destruct (holds_remove _ _ _ Hh) as (b' & Hrm & _).
    unfold remove. rewrite Hrm. simpl. do 2 eexists. split; [done|].
    split_and!; [by split|by apply served_wakes, served_refl|done].
  - destruct (queue_waiter _ _ _ (core_queue _ _ _ _ Hc) f Hfin Hge) as (w & Hw & Hm).
    pose proof (core_id_lt _ _ _ _ _ Hc Hfin). pose proof (core_fit _ _ _ _ Hc).
    pose proof (core_bound _ _ _ _ Hc). rewrite add_w_fits by lia. simpl.
    rewrite assert_true by (by apply Z.ltb_lt). simpl.
    assert (Hassert : (if turn (s_cell s) <? f_id f then Ret tt
        else ob ← try_add p (borrow_count (s_cell s)) (f_mode f);
             assert (match ob with None => true | Some _ => false end)) = Ret tt).
    { destruct (Z.ltb_spec (turn (s_cell s)) (f_id f)); [done|].
      replace (f_id f - turn (s_cell s)) with 0 in Hw by lia.
      destruct (waiters (s_cell s)) as [|? ws]; simplify_eq/=.
      by rewrite <- Hm, Hf. }
    rewrite Hassert. simpl. rewrite Hw. simpl. do 2 eexists. split; [done|].
    split_and!; [|by apply served_wakes, served_refl|done]. split; simpl.
    + eapply core_set_waker; [done..|]. by unfold set_waker; repeat case_match.
    + destruct (waiters (s_cell s)) as [|ow ws]; [done|].
      destruct (Z.to_nat (f_id f - turn (s_cell s))) as [|j]; simplify_eq/=; [|done].
      rewrite <- Hf. by unfold set_waker; repeat case_match.
Qed.

(** A future still in the queue leaves a hole; if it was at the front, the
    queue is served again. *)
Lemma drop_waiting s i f :
  inv p s → s_futs s !! i = Some f → turn (s_cell s) <= f_id f →
  good_step s (ADropFuture i).
Proof.
  intros [Hc Hf] Hi Hge. pose proof (list_elem_of_lookup_2 _ _ _ Hi) as Hfin.
  unfold good_step. simpl. rewrite Hi. simpl. unfold future_drop.
  rewrite (core_live _ _ _ _ Hc f Hfin). unfold drop_waiter.
  destruct (Z.ltb_spec (f_id f) (turn (s_cell s))); [lia|].
  destruct (queue_waiter _ _ _ (core_queue _ _ _ _ Hc) f Hfin Hge) as (w & Hw & _).
  rewrite Hw. simpl. pose proof (core_hole _ _ _ _ _ _ Hc Hi Hge) as Hc'.
  destruct (Z.eqb_spec (f_id f) (turn (s_cell s))) as [Heq|Hne].
  - destruct (wake_waiters_spec p _ _ _ _ Hc') as (c' & woken & -> & Hc'' & ? & Hv & ? & Hwk).
    simpl. do 2 eexists. split; [done|]. split_and!; [by split| |done].
    intros g v k Hg Hid Hl Hk. simpl in *. apply (Hwk (Z.to_nat (f_id g - turn (s_cell s))) v k);
      [|done|lia].
    rewrite list_lookup_insert_ne; [done|]. intros Hj.
    pose proof (core_nodup _ _ _ _ Hc) as Hnd. pose proof (delete_Permutation _ _ _ Hi) as Hp.
    rewrite Hp, fmap_cons, NoDup_cons in Hnd. apply (proj1 Hnd).
    replace (f_id f) with (f_id g) by lia. by apply list_elem_of_fmap_2.
  - simpl. do 2 eexists. split; [done|].
    split_and!; [|by apply served_wakes, served_refl|done]. split; [done|]. simpl.
    destruct (waiters (s_cell s)) as [|ow ws]; [done|].
    by destruct (Z.to_nat (f_id f - turn (s_cell s))) eqn:?; [lia|].
Qed.

(** A future whose turn has come gives back the borrow reserved for it. *)
Lemma drop_reserved s i f :
  inv p s → s_futs s !! i = Some f → f_id f < turn (s_cell s) →
  good_step s (ADropFuture i).
Proof.
  intros [Hc Hf] Hi Hlt. pose proof (list_elem_of_lookup_2 _ _ _ Hi) as Hfin.
  unfold good_step. simpl. rewrite Hi. simpl. unfold future_drop.
  rewrite (core_live _ _ _ _ Hc f Hfin). unfold drop_waiter.
  destruct (Z.ltb_spec (f_id f) (turn (s_cell s))); [|lia].
  pose proof (core_take _ _ _ _ _ _ Hc Hi Hlt) as Hc'.
  destruct (drop_borrow_spec p _ _ _ _ _ Hc' Hf) as (c' & woken & -> & ? & ? & Hs).
  simpl. destruct (Z.eqb_spec (f_id f) (turn (s_cell s))); [lia|]. simpl.
  do 2 eexists. split; [done|].
  split_and!; [by split|by apply served_wakes|by apply Hs].
Qed.

Lemma good_step_try s mode : inv p s → legal s (ATryBorrow mode) →
  good_step s (ATryBorrow mode).
Proof.
  intros [Hc Hf] Hlegal. simpl in Hlegal. unfold good_step. simpl.
  unfold borrow_sync. destruct (waiters (s_cell s)) as [|ow ws] eqn:Hws.
  2:{ simpl. exists s, []. split_and!; [done|by split; rewrite ?Hws|
        by apply served_wakes, served_refl|done]. }
  destruct (holds_add p _ _ mode (core_holds _ _ _ _ Hc)) as (ob & Hadd & Hob).
  { pose proof (core_size _ _ _ _ Hc). rewrite length_app.
    pose proof (length_reserved (turn (s_cell s)) (s_futs s)). lia. }
  rewrite Hadd. simpl. destruct ob as [b|]; simpl.
  - do 2 eexists. split; [done|].
    split_and!; [|by apply served_wakes, served_refl|done].
    split; simpl; [|by rewrite Hws].
    destruct Hc as [Hlive Hnd Hq Hh Hfit Hsz Hb]. split; simpl; try done; try lia.
    by rewrite <- Permutation_middle.
  - exists s, []. split_and!; [done|by split; rewrite ?Hws|
      by apply served_wakes, served_refl|done].
Qed.

Lemma good_step_guard s i : inv p s → legal s (ADropGuard i) →
  good_step s (ADropGuard i).
Proof.
  intros [Hc Hf] [m Hi]%lookup_lt_is_Some_2. unfold good_step. simpl.
  rewrite Hi. simpl. pose proof (delete_Permutation _ _ _ Hi) as Hp.
  pose proof (core_perm _ _ _ _ _ Hp Hc) as Hc'.
  destruct (drop_borrow_spec p _ _ _ _ _ Hc' Hf) as (c' & woken & -> & ? & ? & Hs).
  simpl. do 2 eexists. split; [done|].
  split_and!; [by split|by apply served_wakes|by apply Hs].
Qed.

Lemma exec_good s a : inv p s → legal s a → good_step s a.
Proof.
  intros Hinv Hlegal. destruct a as [m|i cx|i|m|i].
  - by apply good_step_borrow.
  - by apply good_step_poll.
  - destruct (lookup_lt_is_Some_2 _ _ Hlegal) as [f Hi].
    destruct (decide (f_id f < turn (s_cell s))).
    + by eapply drop_reserved.
    + eapply drop_waiting; [done..|lia].
  - by apply good_step_try.
  - by apply good_step_guard.
Qed.

Lemma init_inv (v : T) : inv p (init v).
Proof.
  split; [|done]. split; simpl; try done; try constructor; try lia;
    intros; set_solver.
Qed.

Lemma cell_reachable_inv (v : T) s : reachable p v s → inv p s.
Proof.
  induction 1 as [|s a s' woken Hr IH Hl Hex]; [apply init_inv|].
  destruct (exec_good s a IH Hl) as (? & ? & Hex' & ? & _).
  rewrite Hex in Hex'. by injection Hex' as -> ->.
Qed.
End preservation.

(** * Properties *)

Global Instance legal_dec {T} (s : sys T) a : Decision (legal s a).
Proof. destruct a; simpl; apply _. Defined.

(** Runs a list of actions from [s], each of them legal. *)
Fixpoint run {T} (p : profile) (s : sys T) (acts : list action) :
    outcome (sys T) :=
  match acts with
  | [] => Ret s
  | a :: acts' =>
      if decide (legal s a) then '(s', _) ← exec p s a; run p s' acts'
      else Panic Unreachable
  end.

Lemma cell_run_reachable {T} p (v : T) acts s s' :
  reachable p v s → run p s acts = Ret s' → reachable p v s'.
Proof.
  revert s. induction acts as [|a acts IH]; simpl; intros s Hs Hrun.
  - by injection Hrun as <-.
  - case_decide as Hl; [|done].
    apply bind_Ret_inv in Hrun as ([s1 woken] & Hex & Hrun).
    eapply IH; [|exact Hrun]. by eapply reach_step.
Qed.

Section properties.
Context (p : profile) {T : Type} (v : T).

(** [f] would be granted its borrow if polled now. *)
Definition is_ready (s : sys T) (f : future) : Prop :=
  ∀ cx, future_poll p f (s_cell s) cx =
    Ret (Ready tt, mkFuture false (f_id f) (f_mode f), s_cell s).

(** The waker that the queue keeps for a future that waits. *)
Definition stored_waker (s : sys T) (f : future) : option waker :=
  if decide (turn (s_cell s) <= f_id f) then
    ow ← waiters (s_cell s) !! Z.to_nat (f_id f - turn (s_cell s));
    w ← ow; w_waker w
  else None.

Lemma ready_iff s f : reachable p v s → f ∈ s_futs s →
  is_ready s f ↔ f_id f < turn (s_cell s).
Proof.
  intros Hr Hf. pose proof (cell_reachable_inv p v s Hr) as Hinv.
  pose proof (inv_core _ _ Hinv) as Hc.
  unfold is_ready, future_poll, poll_waiter. rewrite (core_live _ _ _ _ Hc f Hf).
  split.
  - intros Hp. specialize (Hp 0%nat).
    destruct (Z.ltb_spec (f_id f) (turn (s_cell s))); [done|].
    run_all.
  - intros Hlt cx. apply list_elem_of_lookup in Hf as [i Hi].
    pose proof (core_holds _ _ _ _ (core_take _ _ _ _ _ _ Hc Hi Hlt)) as Hh.
    rewrite <- Permutation_middle in Hh.
    destruct (holds_remove _ _ _ Hh) as (b' & Hrm & _).
    apply Z.ltb_lt in Hlt as ->. unfold remove. by rewrite Hrm.
Qed.

(** C1: mutual exclusion.  Whatever the clients do, an exclusive guard is the
    only guard, and no other future can be granted a borrow while it lives. *)
Theorem exclusive_guard_alone s :
  reachable p v s → MExclusive ∈ s_guards s →
  s_guards s = [MExclusive] ∧ ∀ f, f ∈ s_futs s → ¬ is_ready s f.
Proof.
  intros Hr Hg. pose proof (inv_core _ _ (cell_reachable_inv p v s Hr)) as Hc.
  apply list_elem_of_split in Hg as (l1 & l2 & Hg).
  pose proof (core_holds _ _ _ _ Hc) as Hh. rewrite Hg, app_assoc in Hh.
  pose proof (holds_exclusive _ _ _ _ Hh (reflexivity _)) as Hnil.
  apply app_nil in Hnil as [[Hres Hl1]%app_nil Hl2].
  split; [by rewrite Hg, Hl1, Hl2|]. intros f Hf Hready.
  apply ready_iff in Hready; [|done..].
  assert (f_mode f ∈ reserved (turn (s_cell s)) (s_futs s)) as Hin.
  { unfold reserved. apply list_elem_of_fmap_2, list_elem_of_filter. by split. }
  rewrite Hres in Hin. by apply elem_of_nil in Hin.
Qed.

(** C2: no assertion, [unwrap], index or counter of the cell can fail: every
    legal action on a reachable cell returns, in both build profiles. *)
Theorem legal_actions_return s a :
  reachable p v s → legal s a → returns (exec p s a).
Proof.
  intros Hr Hl. destruct (exec_good p s a (cell_reachable_inv p v s Hr) Hl)
    as (s' & woken & Hex & _). by exists (s', woken).
Qed.

(** First come, first served.  A new borrow queues behind every other one;
    a ready future makes every older one ready; and a synchronous borrow is
    refused while a future waits. *)
Lemma fifo s :
  reachable p v s →
  (∀ mode s' woken, legal s (ABorrow mode) →
    exec p s (ABorrow mode) = Ret (s', woken) →
    ∃ f, s_futs s' = s_futs s ++ [f] ∧ f_mode f = mode ∧
      ∀ g, g ∈ s_futs s → f_id g < f_id f) ∧
  (∀ f g, f ∈ s_futs s → g ∈ s_futs s → f_id f < f_id g →
    is_ready s g → is_ready s f) ∧
  (∀ f mode, f ∈ s_futs s → ¬ is_ready s f →
    borrow_sync p mode (s_cell s) = Ret None).
Proof.
  intros Hr. pose proof (inv_core _ _ (cell_reachable_inv p v s Hr)) as Hc.
  split_and!.
  - intros mode s' woken Hl Hex. simpl in Hl, Hex.
    pose proof (core_fit _ _ _ _ Hc). unfold future_new, create_waiter in Hex.
    apply bind_Ret_inv in Hex as ([[f c] w] & Hnew & Hex). injection Hex as <- <-.
    apply bind_Ret_inv in Hnew as ([[id c1] w1] & Hnew & Hf). injection Hf as <- <- <-.
    apply bind_Ret_inv in Hnew as ([c2 w2] & _ & Hid).
    rewrite length_app in Hid. simpl in Hid.
    rewrite add_w_fits in Hid by lia. simpl in Hid. injection Hid as <- <- <-.
    eexists. split_and!; [done..|]. intros g Hg. simpl.
    pose proof (core_id_lt _ _ _ _ _ Hc Hg). lia.
  - intros f g Hf Hg Hlt. rewrite !ready_iff by done. lia.
  - intros f mode Hf Hnr. rewrite ready_iff in Hnr by done.
    destruct (queue_waiter _ _ _ (core_queue _ _ _ _ Hc) f Hf ltac:(lia)) as (w & Hw & _).
    unfold borrow_sync. by destruct (waiters (s_cell s)).
Qed.

(** C3: no lost wakeup.  A poll that returns [Pending] leaves its waker with the
    cell, and the step that makes a waiting future ready wakes that waker. *)
Theorem no_lost_wakeup s a s' woken :
  reachable p v s → legal s a → exec p s a = Ret (s', woken) →
  (∀ i cx f, a = APoll i cx → s_futs s !! i = Some f → ¬ is_ready s f →
    stored_waker s' f = Some cx) ∧
  (∀ f k, f ∈ s_futs s → f ∈ s_futs s' → ¬ is_ready s f → is_ready s' f →
    stored_waker s f = Some k → k ∈ woken).
Proof.
  intros Hr Hl Hex. destruct (exec_good p s a (cell_reachable_inv p v s Hr) Hl)
    as (? & ? & Hex' & _ & Hwk & _). rewrite Hex in Hex'. injection Hex' as <- <-.
  assert (reachable p v s') as Hr' by (by eapply reach_step). split.
  - intros i cx f -> Hi Hnr. pose proof (list_elem_of_lookup_2 _ _ _ Hi) as Hf.
    rewrite ready_iff in Hnr by done. pose proof (inv_core _ _ (cell_reachable_inv p v s Hr)) as Hc.
    destruct (queue_waiter _ _ _ (core_queue _ _ _ _ Hc) f Hf ltac:(lia)) as (w & Hw & _).
    simpl in Hex. rewrite Hi in Hex. simpl in Hex. unfold future_poll, poll_waiter in Hex.
    rewrite (core_live _ _ _ _ Hc f Hf) in Hex.
    destruct (Z.ltb_spec (f_id f) (turn (s_cell s))); [lia|]. rewrite Hw in Hex.
    run_all; unfold stored_waker; simpl; rewrite decide_True by lia;
      rewrite list_lookup_insert_eq by (by eapply lookup_lt_Some); simpl;
      unfold set_waker; by repeat case_match; simplify_eq/=.
  - intros f k Hf Hf' Hnr Hr1 Hst. rewrite ready_iff in Hnr, Hr1 by done.
    unfold stored_waker in Hst. rewrite decide_True in Hst by lia.
    destruct (waiters (s_cell s) !! _) as [[w|]|] eqn:Hw; simplify_eq/=.
    by apply (Hwk f w k Hf'); [lia|..].
Qed.

(** Progress.  When no guard is held and some future is left, at least one
    of the futures is ready: the cell never idles with clients in line. *)
Lemma idle_cell_serves s :
  reachable p v s → s_guards s = [] → s_futs s ≠ [] →
  ∃ f, f ∈ s_futs s ∧ is_ready s f.
Proof.
  intros Hr Hg Hne. pose proof (cell_reachable_inv p v s Hr) as [Hc Hf].
  destruct (reserved (turn (s_cell s)) (s_futs s)) as [|m l] eqn:Hres.
  - exfalso. pose proof (core_holds _ _ _ _ Hc) as Hh. rewrite Hres, Hg in Hh.
    destruct (s_futs s) as [|f fs] eqn:Hfs; [done|].
    assert (f ∈ s_futs s) as Hin by (rewrite Hfs; set_solver).
    rewrite <- Hfs in *. assert (turn (s_cell s) <= f_id f) as Hge.
    { rewrite Hfs, reserved_cons in Hres. case_decide; [done|lia]. }
    destruct (queue_waiter _ _ _ (core_queue _ _ _ _ Hc) f Hin Hge) as (w & Hw & _).
    destruct (borrow_count (s_cell s)) as [n|]; [|done]. destruct Hh as [-> _].
    destruct (waiters (s_cell s)) as [|[w'|] ws]; [done| |done]. simpl in Hf.
    destruct (borrow_mode w'); [by run_in Hf|done].
  - assert (m ∈ reserved (turn (s_cell s)) (s_futs s)) as Hm by (rewrite Hres; set_solver).
    unfold reserved in Hm. apply list_elem_of_fmap in Hm as (f & _ & Hin).
    apply list_elem_of_filter in Hin as [Hlt Hin].
    exists f. split; [done|]. by apply ready_iff.
Qed.
End properties.

(** * The properties at concrete cells *)

(** Actions that leave one exclusive guard and two waiting futures, the first of
    which has been polled by task 7. *)
Definition contended : list action :=
  [ABorrow MExclusive; APoll 0 5; ABorrow MShared; ABorrow MShared; APoll 0 7].

(** The state that [acts] lead to. *)
Definition state_after (acts : list action) : sys nat :=
  match run Debug (init 0%nat) acts with Ret s => s | Panic _ => init 0%nat end.

Lemma state_after_reachable acts :
  is_Some (match run Debug (init 0%nat) acts with Ret s => Some s | Panic _ => None end) →
  reachable Debug 0%nat (state_after acts).
Proof.
  unfold state_after. intros [s Hs].
  destruct (run Debug (init 0%nat) acts) as [s'|] eqn:Hrun; [|done].
  eapply cell_run_reachable; [apply reach_init|exact Hrun].
Qed.

Ltac concrete_reachable :=
  apply state_after_reachable; vm_compute; eexists; reflexivity.

Lemma exclusive_guard_alone_witness :
  s_guards (state_after contended) = [MExclusive] ∧
  ∀ f, f ∈ s_futs (state_after contended) → ¬ is_ready Debug (state_after contended) f.
Proof.
  apply (exclusive_guard_alone Debug 0%nat); [concrete_reachable|].
  vm_compute. left.
Defined.

Lemma legal_actions_return_witness :
  returns (exec Debug (state_after contended) (ADropGuard 0)).
Proof.
  apply (legal_actions_return Debug 0%nat); [concrete_reachable|].
  vm_compute. lia.
Defined.

Lemma fifo_example :
  borrow_sync Debug MShared (s_cell (state_after contended)) = Ret None.
Proof.
  destruct (fifo Debug 0%nat (state_after contended)) as (_ & _ & Hsync);
    [concrete_reachable|].
  apply (Hsync (mkFuture true 2 MShared)); [vm_compute; right; left|].
  intros Hr. specialize (Hr 0%nat). vm_compute in Hr. discriminate Hr.
Qed.

Lemma no_lost_wakeup_witness :
  7%nat ∈ match exec Debug (state_after contended) (ADropGuard 0) with
          | Ret (_, woken) => woken
          | Panic _ => []
          end.
Proof.
  destruct (exec Debug (state_after contended) (ADropGuard 0)) as [[s' woken]|] eqn:Hex;
    [|vm_compute in Hex; discriminate Hex].
  destruct (no_lost_wakeup Debug 0%nat (state_after contended) (ADropGuard 0) s' woken)
    as [_ Hw]; [concrete_reachable|vm_compute; lia|exact Hex|].
  vm_compute in Hex. injection Hex as Hs' Hwoken.
  apply (Hw (mkFuture true 1 MShared)).
  - vm_compute. left.
  - rewrite <- Hs'. vm_compute. left.
  - intros Hr. specialize (Hr 0%nat). vm_compute in Hr. discriminate Hr.
  - intros cx. rewrite <- Hs'. reflexivity.
  - reflexivity.
Defined.

(** Actions after which a guard was dropped while futures wait. *)
Definition released : list action := contended ++ [ADropGuard 0].

Lemma idle_cell_serves_example :
  ∃ f, f ∈ s_futs (state_after released) ∧ is_ready Debug (state_after released) f.
Proof.
  apply (idle_cell_serves Debug 0%nat); [concrete_reachable|reflexivity|].
  vm_compute. discriminate.
Qed.
