(* ===== verification/AsyncCancel.v ===== *)
(** [core/async_cancel.rs]: [CancelHandle] and the futures it can cancel.

    A handle and the futures registered with it form a circular doubly linked
    list threaded through raw pointers.  The file models that list in an explicit
    heap, the [Cancelable], [TryCancelable] and [Abortable] futures on top of it,
    and proves that the list implements an ordered registry of wakers: linking
    appends, dropping a node removes it, cancelling wakes every registered future
    once, in registration order, and no [unreachable!] is ever reached. *)

From S2P Require Import Prelude.

Abbreviation loc := nat.
Abbreviation waker := nat.

(** * Nodes *)

(** [NodeKind]; the [_weak_pin] of a head only pins its allocation. *)
Inductive NodeKind :=
  | Head
  | Item (w : waker).

Inductive NodeInner :=
  | Unlinked
  | Linked (kind : NodeKind) (prev next : loc)
  | NCanceled.

(** [struct Canceled]. *)
Inductive Canceled := canceled.

Abbreviation heap := (gmap loc NodeInner).

Global Instance NodeKind_eq_dec : EqDecision NodeKind.
Proof. solve_decision. Defined.
Global Instance NodeInner_eq_dec : EqDecision NodeInner.
Proof. solve_decision. Defined.
Global Instance Canceled_eq_dec : EqDecision Canceled.
Proof. solve_decision. Defined.

(** Dereferencing a [NonNull]; a dangling pointer is [BadMemory]. *)
Definition deref (h : heap) (x : loc) : outcome NodeInner :=
  match h !! x with Some n => Ret n | None => Panic BadMemory end.

Definition is_canceled_node (n : NodeInner) : bool :=
  match n with
  | Unlinked | Linked _ _ _ => false
  | NCanceled => true
  end.

Definition node_is_canceled (h : heap) (x : loc) : outcome bool :=
  n ← deref h x; Ret (is_canceled_node n).

(** [NodeInner::link]. *)
Definition link (h : heap) (this : loc) (w : waker) (head : loc) :
    outcome (heap * result unit Canceled) :=
  head_n ← deref h head;
  this_n ← deref h this;
  _ ← assert (bool_decide (this_n = Unlinked));
  match head_n with
  | Unlinked =>
      let h1 := <[head := Linked Head this this]> h in
      Ret (<[this := Linked (Item w) head head]> h1, Ok tt)
  | Linked Head next_prev next =>
      prev_n ← deref h next_prev;
      match prev_n with
      | Linked (Item k) pprev prev_next =>
          let h1 := <[head := Linked Head this next]> h in
          let h2 := <[next_prev := Linked (Item k) pprev this]> h1 in
          Ret (<[this := Linked (Item w) next_prev prev_next]> h2, Ok tt)
      | _ => Panic Unreachable
      end
  | NCanceled => Ret (h, Err canceled)
  | Linked (Item _) _ _ => Panic Unreachable
  end.

(** [NodeInner::update_waker]. *)
Definition update_waker (h : heap) (this : loc) (new_waker : waker) :
    outcome (heap * result unit Canceled) :=
  n ← deref h this;
  match n with
  | Unlinked => Ret (h, Ok tt)
  | Linked (Item w) prev next =>
      if decide (w = new_waker) then Ret (h, Ok tt)
      else Ret (<[this := Linked (Item new_waker) prev next]> h, Ok tt)
  | NCanceled => Ret (h, Err canceled)
  | Linked Head _ _ => Panic Unreachable
  end.

(** [Node::register]. *)
Definition register (h : heap) (this : loc) (w : waker) (head_rc : option loc) :
    outcome (heap * result unit Canceled) :=
  match head_rc with
  | Some head =>
      _ ← assert (bool_decide (this ≠ head));
      link h this w head
  | None => update_waker h this w
  end.

(** [NodeInner::unlink], the drop handler of a node. *)
Definition unlink (h : heap) (this : loc) : outcome heap :=
  n ← deref h this;
  let h1 := <[this := Unlinked]> h in
  match n with
  | Linked _ prev next =>
      if decide (prev = next) then
        _ ← deref h1 prev;
        Ret (<[prev := Unlinked]> h1)
      else
        prev_n ← deref h1 prev;
        match prev_n with
        | Linked k pp _ =>
            let h2 := <[prev := Linked k pp next]> h1 in
            next_n ← deref h2 next;
            match next_n with
            | Linked k' _ nn => Ret (<[next := Linked k' prev nn]> h2)
            | _ => Panic Unreachable
            end
        | _ => Panic Unreachable
        end
  | _ => Ret h1
  end.

(** Dropping a node ends its life. *)
Definition drop_node (h : heap) (this : loc) : outcome heap :=
  h' ← unlink h this; Ret (delete this h').

(** The loop of [NodeInner::cancel]; returns the wakers in the order woken. *)
Fixpoint cancel_loop (fuel : nat) (h : heap) (head item : loc) :
    outcome (heap * list waker) :=
  match fuel with
  | O => Panic OutOfFuel
  | S fuel =>
      if decide (item = head) then Ret (h, [])
      else
        n ← deref h item;
        match n with
        | Linked (Item w) _ next =>
            '(h', ws) ← cancel_loop fuel (<[item := NCanceled]> h) head next;
            Ret (h', w :: ws)
        | _ => Panic Unreachable
        end
  end.

(** [NodeInner::cancel]. *)
Definition cancel (fuel : nat) (h : heap) (head : loc) :
    outcome (heap * list waker) :=
  n ← deref h head;
  let h1 := <[head := NCanceled]> h in
  match n with
  | Linked Head _ next => cancel_loop fuel h1 head next
  | Unlinked | NCanceled => Ret (h1, [])
  | Linked (Item _) _ _ => Panic Unreachable
  end.

(** * Cancelable futures

    The node of a registered future sits inside the future, at [me].  The inner
    future is the client's: [F_poll] and [F_drop] may do anything to the heap,
    cancelling the very handle included. *)

Inductive Registration :=
  | WillRegister (head : loc)
  | Registered.

Inductive Cancelable (F : Type) :=
  | CPending (future : F) (registration : Registration)
  | Terminated.
Arguments CPending {F} _ _.
Arguments Terminated {F}.

Definition is_terminated {F} (c : Cancelable F) : bool :=
  match c with CPending _ _ => false | Terminated => true end.

Definition Cancelable_new {F} (future : F) (handle : loc) : Cancelable F :=
  CPending future (WillRegister handle).

Section cancelable.
Context {F O : Type}.
Context (F_poll : F → waker → heap → outcome (poll O * F * heap)).
Context (F_drop : F → heap → outcome heap).
Context (me : loc).

(** [Cancelable::poll_pending]. *)
Definition poll_pending (future : F) (registration : Registration) (cx : waker)
    (h : heap) :
    outcome (poll (result O Canceled) * F * Registration * heap) :=
  let node := match registration with WillRegister hd => hd | Registered => me end in
  c ← node_is_canceled h node;
  if (c : bool) then Ret (Ready (Err canceled), future, registration, h)
  else
    '(r, future', h1) ← F_poll future cx h;
    match r with
    | Ready res => Ret (Ready (Ok res), future', registration, h1)
    | Pending =>
        let '(head_node, h2) :=
          match registration with
          | WillRegister hd => (Some hd, <[me := Unlinked]> h1)
          | Registered => (None, h1)
          end in
        '(h3, reg) ← register h2 me cx head_node;
        match reg with
        | Ok _ => Ret (Pending, future', Registered, h3)
        | Err e => Ret (Ready (Err e), future', Registered, h3)
        end
    end.

Definition drop_registration (registration : Registration) (h : heap) :
    outcome heap :=
  match registration with
  | WillRegister _ => Ret h
  | Registered => drop_node h me
  end.

(** [Cancelable::poll]: completion drops the future and its registration. *)
Definition Cancelable_poll (c : Cancelable F) (cx : waker) (h : heap) :
    outcome (poll (result O Canceled) * Cancelable F * heap) :=
  match c with
  | Terminated => Panic Unwrap
  | CPending future registration =>
      '(r, future', registration', h') ← poll_pending future registration cx h;
      match r with
      | Pending => Ret (Pending, CPending future' registration', h')
      | Ready res =>
          h1 ← F_drop future' h';
          h2 ← drop_registration registration' h1;
          Ret (Ready res, Terminated, h2)
      end
  end.

(** [Abortable::poll]: cancellation hands the inner future back. *)
Definition Abortable_poll (c : Cancelable F) (cx : waker) (h : heap) :
    outcome (poll (result O F) * Cancelable F * heap) :=
  match c with
  | Terminated => Panic Unwrap
  | CPending future registration =>
      '(r, future', registration', h') ← poll_pending future registration cx h;
      match r with
      | Pending => Ret (Pending, CPending future' registration', h')
      | Ready (Ok res) => Ret (Ready (Ok res), CPending future' registration', h')
      | Ready (Err _) =>
          h1 ← drop_registration registration' h';
          Ret (Ready (Err future'), Terminated, h1)
      end
  end.

(** Dropping a future that has not completed. *)
Definition Cancelable_drop (c : Cancelable F) (h : heap) : outcome heap :=
  match c with
  | Terminated => Ret h
  | CPending future registration =>
      h1 ← F_drop future h; drop_registration registration h1
  end.
End cancelable.

(** [TryCancelable::poll]: the cancellation error joins the future's own. *)
Definition TryCancelable_poll {F T E}
    (F_poll : F → waker → heap → outcome (poll (result T E) * F * heap))
    (F_drop : F → heap → outcome heap) (into : Canceled → E)
    (me : loc) (c : Cancelable F) (cx : waker) (h : heap) :
    outcome (poll (result T E) * Cancelable F * heap) :=
  '(r, c', h') ← Cancelable_poll F_poll F_drop me c cx h;
  Ret (match r with
       | Pending => Pending
       | Ready (Ok res) => Ready res
       | Ready (Err e) => Ready (Err (into e))
       end, c', h').

(** * Rings

    [l] lists the nodes of a ring in the order of their [next] pointers. *)

Abbreviation knode := (loc * NodeKind)%type.

(** The first node of [l], or [b] when there is none; the last one, or [a]. *)
Definition first (l : list knode) (b : loc) : loc :=
  match l with [] => b | (x, _) :: _ => x end.
Fixpoint final (a : loc) (l : list knode) : loc :=
  match l with [] => a | (x, _) :: l' => final x l' end.

(** [l] is laid out in [h] between the nodes [a] and [b]. *)
Fixpoint nodes_at (h : heap) (a : loc) (l : list knode) (b : loc) : Prop :=
  match l with
  | [] => True
  | (x, k) :: l' => h !! x = Some (Linked k a (first l' b)) ∧ nodes_at h x l' b
  end.

Definition ring (h : heap) (l : list knode) : Prop :=
  2 ≤ length l ∧ NoDup l.*1 ∧ nodes_at h (final 0 l) l (first l 0).

Lemma ring_nil h : ¬ ring h [].
Proof. intros (Hlen & _). simpl in Hlen. lia. Qed.

Lemma first_app l1 l2 b : first (l1 ++ l2) b = first l1 (first l2 b).
Proof. by destruct l1 as [|[]]. Qed.

Lemma final_app a l1 l2 : final a (l1 ++ l2) = final (final a l1) l2.
Proof. revert a. induction l1 as [|[x k] l1 IH]; simpl; auto. Qed.

Lemma first_nonempty l b b' : l ≠ [] → first l b = first l b'.
Proof. by destruct l as [|[]]. Qed.

Lemma final_nonempty a a' l : l ≠ [] → final a l = final a' l.
Proof. by destruct l as [|[]]. Qed.

Lemma nodes_at_app h a l1 l2 b :
  nodes_at h a (l1 ++ l2) b ↔
  nodes_at h a l1 (first l2 b) ∧ nodes_at h (final a l1) l2 b.
Proof.
  revert a. induction l1 as [|[x k] l1 IH]; intros a; simpl; [tauto|].
  rewrite IH, first_app. tauto.
Qed.

(** Writing elsewhere leaves a layout alone. *)
Lemma nodes_at_frame h h' a l b :
  (∀ x, x ∈ l.*1 → h' !! x = h !! x) → nodes_at h a l b → nodes_at h' a l b.
Proof.
  revert a. induction l as [|[x k] l IH]; intros a; simpl; [done|].
  intros Heq [Hx Hl]. split; [rewrite Heq; [done|by left]|].
  apply IH; [|done]. intros y Hy. apply Heq. by right.
Qed.

Lemma nodes_at_insert h a l b y n :
  y ∉ l.*1 → nodes_at h a l b → nodes_at (<[y := n]> h) a l b.
Proof.
  intros Hy. apply nodes_at_frame. intros x Hx.
  apply lookup_insert_ne. by intros ->.
Qed.

(** A ring has no distinguished first node. *)
Lemma ring_rotate1 h n l : ring h (n :: l) → ring h (l ++ [n]).
Proof.
  destruct n as [x k], l as [|[y ky] l]; [done|].
  intros (Hlen & Hnd & Hx & Hl). split_and!.
  - rewrite length_app. simpl in *. lia.
  - rewrite fmap_app, Permutation_app_comm. done.
  - rewrite first_app, final_app. apply nodes_at_app. by simpl in *.
Qed.

Lemma ring_rotate h l1 l2 : ring h (l1 ++ l2) → ring h (l2 ++ l1).
Proof.
  revert l2. induction l1 as [|n l1 IH]; intros l2; [by rewrite app_nil_r|].
  intros Hr%ring_rotate1. rewrite <- app_assoc in Hr. apply IH in Hr.
  by rewrite <- app_assoc in Hr.
Qed.

Lemma ring_head h x k l :
  ring h ((x, k) :: l) ↔
  l ≠ [] ∧ NoDup (x :: l.*1) ∧
  h !! x = Some (Linked k (final x l) (first l x)) ∧ nodes_at h x l x.
Proof.
  unfold ring. simpl. split.
  - intros (? & ? & ? & ?). split_and!; [intros ->; simpl in *; lia|done..].
  - intros (? & ? & ? & ?). split_and!; [destruct l; [done|simpl; lia]|done..].
Qed.

(** A ring that may consist of one unlinked node. *)
Definition ring1 (h : heap) (l : list knode) : Prop :=
  match l with
  | [(x, _)] => h !! x = Some Unlinked
  | _ => ring h l
  end.

Arguments ring1 : simpl never.

Lemma ring1_single h x k : ring1 h [(x, k)] ↔ h !! x = Some Unlinked.
Proof. done. Qed.

Lemma ring1_ring h l : 2 ≤ length l → ring1 h l ↔ ring h l.
Proof. unfold ring1. destruct l as [|[x k] [|n l]]; simpl; [lia|lia|done]. Qed.

Lemma ring1_rotate h l1 l2 : ring1 h (l1 ++ l2) → ring1 h (l2 ++ l1).
Proof.
  destruct l1 as [|n1 l1]; [by rewrite app_nil_r|].
  destruct l2 as [|n2 l2]; [by rewrite app_nil_r|].
  rewrite !ring1_ring by (rewrite length_app; simpl; lia). apply ring_rotate.
Qed.

(** ** The operations on a ring *)

(** What an operation leaves untouched. *)
Definition agree_off (h h' : heap) (xs : list loc) : Prop :=
  ∀ x, x ∉ xs → h' !! x = h !! x.

(** Unlinking the first node: a ring of two leaves a lone unlinked node, a longer
    ring stays a ring. *)
Lemma unlink_ring h x k l :
  ring h ((x, k) :: l) →
  ∃ h', unlink h x = Ret h' ∧ agree_off h h' (x :: l.*1) ∧
    h' !! x = Some Unlinked ∧
    ring1 h' l.
Proof.
  rewrite ring_head. intros (Hne & Hnd & Hx & Hl).
  apply NoDup_cons in Hnd as [Hxl Hnd].
  unfold unlink, deref. rewrite Hx. simpl.
  destruct l as [|[y ky] l]; [done|]. clear Hne.
  destruct l as [|[z kz] m _] using rev_ind; simpl.
  - rewrite decide_True by done. rewrite lookup_insert_ne by set_solver.
    destruct Hl as [Hy _]. rewrite Hy. simpl. eexists. split; [done|].
    split_and!.
    + intros u Hu. rewrite !lookup_insert_ne by set_solver. done.
    + rewrite lookup_insert_ne by set_solver. by rewrite lookup_insert_eq.
    + by rewrite ring1_single, lookup_insert_eq.
  - rewrite final_app. destruct Hl as [Hy Hm].
    apply nodes_at_app in Hm as [Hm [Hz _]]. simpl in *.
    rewrite fmap_app in *. simpl in *.
    apply NoDup_cons in Hnd as [Hynd Hnd]. apply NoDup_app in Hnd as (Hndm & Hmz & _).
    assert (x ≠ y ∧ x ≠ z ∧ y ≠ z) as (Hxy & Hxz & Hyz) by set_solver.
    rewrite decide_False by done.
    rewrite lookup_insert_ne, Hz by done. simpl.
    rewrite !lookup_insert_ne, Hy by done. simpl. eexists. split; [done|].
    split_and!.
    + intros u Hu. rewrite !lookup_insert_ne by set_solver. done.
    + rewrite !lookup_insert_ne by done. by rewrite lookup_insert_eq.
    + rewrite ring1_ring by (rewrite length_cons, length_app; simpl; lia).
      apply ring_head. rewrite final_app, fmap_app. split_and!.
      * by destruct m.
      * simpl. apply NoDup_cons. split; [set_solver|].
        apply NoDup_app. split_and!; [|set_solver|apply NoDup_singleton].
        done.
      * rewrite lookup_insert_eq. simpl. rewrite !first_app. by destruct m as [|[]].
      * apply nodes_at_app. simpl. split.
        -- do 3 (apply nodes_at_insert; [set_solver|]). done.
        -- split; [|done]. rewrite lookup_insert_ne by done. by rewrite lookup_insert_eq.
Qed.

(** Linking [this] to the ring of [hd] puts it last, before [hd]. *)
Lemma link_ring h hd l z wz this w :
  ring h ((hd, Head) :: l ++ [(z, Item wz)]) →
  h !! this = Some Unlinked → this ∉ hd :: l.*1 ++ [z] →
  ∃ h', link h this w hd = Ret (h', Ok tt) ∧
    agree_off h h' (this :: hd :: l.*1 ++ [z]) ∧
    ring h' ((hd, Head) :: (l ++ [(z, Item wz)]) ++ [(this, Item w)]).
Proof.
  rewrite ring_head. intros (_ & Hnd & Hhd & Hl) Hthis Hnin.
  rewrite fmap_app in Hnd. simpl in Hnd. rewrite final_app in Hhd. simpl in Hhd.
  apply nodes_at_app in Hl as [Hl [Hz _]]. simpl in Hl, Hz.
  apply NoDup_cons in Hnd as [Hhdl Hnd]. pose proof Hnd as Hnd'.
  apply NoDup_app in Hnd' as (_ & Hlz & _).
  assert (hd ≠ z ∧ this ≠ hd ∧ this ≠ z) as (Hhz & Hth & Htz) by set_solver.
  unfold link, deref. rewrite Hhd. simpl. rewrite Hthis. simpl. rewrite Hz. simpl.
  eexists. split; [done|]. split.
  - intros u Hu. rewrite !lookup_insert_ne by set_solver. done.
  - apply ring_head. rewrite !fmap_app, !final_app. simpl. split_and!.
    + by destruct l.
    + apply NoDup_cons. split; [set_solver|].
      apply NoDup_app. split_and!; [done|set_solver|apply NoDup_singleton].
    + rewrite !lookup_insert_ne by done. rewrite lookup_insert_eq.
      rewrite !first_app. simpl. by destruct l as [|[]].
    + rewrite <- app_assoc. apply nodes_at_app. simpl. split_and!; [| | |done].
      * do 3 (apply nodes_at_insert; [set_solver|]). done.
      * rewrite lookup_insert_ne by done. rewrite lookup_insert_eq. done.
      * rewrite lookup_insert_eq. simpl. done.
Qed.

(** * The parts of the heap *)

Abbreviation item := (loc * waker)%type.

Definition inode (i : item) : knode := (i.1, Item i.2).
Definition inodes (l : list item) : list knode := inode <$> l.

Lemma inodes_locs l : (inodes l).*1 = l.*1.
Proof. unfold inodes. by rewrite <- list_fmap_compose. Qed.

Inductive part :=
  | Handle (head : loc) (l : list item)  (** a live handle and its futures *)
  | Loose (l : list item)                (** futures without a handle *)
  | Dead (x : loc).                      (** a cancelled node *)

Definition locs (r : part) : list loc :=
  match r with
  | Handle hd l => hd :: l.*1
  | Loose l => l.*1
  | Dead x => [x]
  end.

Definition sat (h : heap) (r : part) : Prop :=
  match r with
  | Handle hd l => ring1 h ((hd, Head) :: inodes l)
  | Loose l => ring1 h (inodes l)
  | Dead x => h !! x = Some NCanceled
  end.

Lemma ring1_frame h h' l :
  (∀ x, x ∈ l.*1 → h' !! x = h !! x) → ring1 h l → ring1 h' l.
Proof.
  intros Heq. assert (ring h l → ring h' l).
  { intros (? & ? & ?). split_and!; [done..|]. by eapply nodes_at_frame. }
  unfold ring1. destruct l as [|[x k] [|]]; simpl in *; [done| |done].
  by rewrite Heq by left.
Qed.

Lemma sat_frame h h' r :
  (∀ x, x ∈ locs r → h' !! x = h !! x) → sat h r → sat h' r.
Proof.
  destruct r as [hd l|l|x]; simpl; intros Heq.
  - apply ring1_frame. simpl. by rewrite inodes_locs.
  - apply ring1_frame. by rewrite inodes_locs.
  - by rewrite Heq by left.
Qed.

Lemma sat_dom h r x : sat h r → x ∈ locs r → is_Some (h !! x).
Proof.
  assert (∀ a l b, nodes_at h a l b → x ∈ l.*1 → is_Some (h !! x)) as Hn.
  { intros a l b. revert a. induction l as [|[y k] l IH]; simpl; intros a.
    - by intros _ ?%elem_of_nil.
    - intros [Hy Hl] [->|Hx]%elem_of_cons; eauto. }
  assert (∀ l, ring1 h l → x ∈ l.*1 → is_Some (h !! x)) as Hr.
  { unfold ring1. intros [|[y k] [|n l]]; [by intros ?%ring_nil| |]; simpl.
    - intros Hy ->%list_elem_of_singleton. eauto.
    - intros (_ & _ & Hnodes). exact (Hn _ (_ :: _) _ Hnodes). }
  destruct r as [hd l|l|y]; simpl; intros Hs Hx.
  - eapply Hr; [exact Hs|]. simpl. by rewrite inodes_locs.
  - eapply Hr; [exact Hs|]. by rewrite inodes_locs.
  - apply list_elem_of_singleton in Hx as ->. eauto.
Qed.

Lemma sat_nodup h r : sat h r → NoDup (locs r).
Proof.
  assert (∀ l, ring1 h l → NoDup l.*1) as Hr.
  { unfold ring1. intros [|[y k] [|n l]]; [by intros ?%ring_nil| |]; simpl.
    - intros _. apply NoDup_singleton.
    - by intros (_ & ? & _). }
  destruct r as [hd l|l|y]; simpl; intros Hs.
  - apply Hr in Hs. simpl in Hs. by rewrite inodes_locs in Hs.
  - apply Hr in Hs. by rewrite inodes_locs in Hs.
  - apply NoDup_singleton.
Qed.

Lemma inodes_app l1 l2 : inodes (l1 ++ l2) = inodes l1 ++ inodes l2.
Proof. apply fmap_app. Qed.

(** ** Registering *)

Lemma link_part h hd l this w :
  sat h (Handle hd l) → h !! this = Some Unlinked → this ∉ locs (Handle hd l) →
  ∃ h', link h this w hd = Ret (h', Ok tt) ∧
    agree_off h h' (this :: locs (Handle hd l)) ∧
    sat h' (Handle hd (l ++ [(this, w)])).
Proof.
  destruct l as [|[z wz] l _] using rev_ind; intros Hs Hthis Hnin.
  - simpl in *. rewrite ring1_single in Hs.
    unfold link, deref. rewrite Hs. simpl. rewrite Hthis. simpl.
    assert (this ≠ hd) by set_solver. eexists. split; [done|]. split.
    + intros u Hu. rewrite !lookup_insert_ne by set_solver. done.
    + rewrite ring1_ring, ring_head by done. simpl. split_and!; [done| | |by rewrite lookup_insert_eq|done].
      * apply NoDup_cons. split; [set_solver|apply NoDup_singleton].
      * rewrite lookup_insert_ne by done. by rewrite lookup_insert_eq.
  - simpl in *. rewrite fmap_app in *. rewrite !inodes_app in *. simpl in *.
    destruct (link_ring h hd (inodes l) z wz this w) as (h' & Hl & Hag & Hr).
    + rewrite ring1_ring in Hs; [done|]. rewrite length_cons, length_app. simpl. lia.
    + done.
    + by rewrite inodes_locs.
    + rewrite inodes_locs in Hag. exists h'. split_and!; [done|done|].
      rewrite ring1_ring; [done|]. simpl. rewrite !length_app. simpl. lia.
Qed.

Lemma link_dead h hd this w :
  h !! hd = Some NCanceled → h !! this = Some Unlinked →
  link h this w hd = Ret (h, Err canceled).
Proof. intros Hhd Hthis. unfold link, deref. rewrite Hhd. simpl. by rewrite Hthis. Qed.

(** ** Updating a waker *)

Lemma update_waker_ring h x w l w' :
  ring1 h ((x, Item w) :: l) →
  ∃ h', update_waker h x w' = Ret (h', Ok tt) ∧ agree_off h h' [x] ∧
    ring1 h' ((x, Item w') :: l).
Proof.
  unfold update_waker, deref. destruct l as [|n l].
  - rewrite ring1_single. intros Hx. rewrite Hx. simpl.
    exists h. by split_and!.
  - rewrite ring1_ring, ring_head by (simpl; lia). intros (Hne & Hnd & Hx & Hl).
    rewrite Hx. simpl. case_decide as Hw; [subst w'|].
    + exists h. split_and!; [done|done|].
      rewrite ring1_ring, ring_head by (simpl; lia). done.
    + eexists. split_and!; [done| |].
      * intros u Hu. rewrite lookup_insert_ne by set_solver. done.
      * rewrite ring1_ring, ring_head by (simpl; lia).
        rewrite lookup_insert_eq. split_and!; [done..|].
        apply nodes_at_insert; [|done]. by apply NoDup_cons in Hnd as [? _].
Qed.

(** The item [x] in the middle of a ring can be brought to its front. *)
Lemma ring1_bring h r1 r2 n : ring1 h (r1 ++ n :: r2) → ring1 h (n :: r2 ++ r1).
Proof. intros Hr%ring1_rotate. done. Qed.

Lemma ring1_back h r1 r2 n : ring1 h (n :: r2 ++ r1) → ring1 h (r1 ++ n :: r2).
Proof. intros Hr. by apply (ring1_rotate _ (n :: r2)). Qed.

Lemma update_waker_part h r l1 x w l2 w' :
  sat h r → r = Loose (l1 ++ (x, w) :: l2) ∨ (∃ hd, r = Handle hd (l1 ++ (x, w) :: l2)) →
  ∃ h', update_waker h x w' = Ret (h', Ok tt) ∧ agree_off h h' [x] ∧
    match r with
    | Handle hd _ => sat h' (Handle hd (l1 ++ (x, w') :: l2))
    | _ => sat h' (Loose (l1 ++ (x, w') :: l2))
    end.
Proof.
  intros Hs [->|[hd ->]]; simpl in *; rewrite inodes_app in *; simpl in *.
  - apply ring1_bring, (update_waker_ring h x w _ w') in Hs as (h' & ? & ? & Hr).
    exists h'. split_and!; [done..|]. by apply ring1_back.
  - apply (ring1_bring _ (_ :: _)), (update_waker_ring h x w _ w') in Hs as (h' & ? & ? & Hr).
    exists h'. split_and!; [done..|]. by apply (ring1_back _ (_ :: _)).
Qed.

(** ** Dropping a node *)

Definition loose (l : list item) : list part :=
  match l with [] => [] | _ => [Loose l] end.

Definition without (x : loc) (l : list item) : list item := filter (λ i, i.1 ≠ x) l.

(** What is left of a part after its node [x] is dropped. *)
Definition drop_part (r : part) (x : loc) : list part :=
  match r with
  | Handle hd l => if decide (x = hd) then loose l else [Handle hd (without x l)]
  | Loose l => loose (without x l)
  | Dead _ => []
  end.

Lemma drop_ring h x k l :
  ring1 h ((x, k) :: l) →
  ∃ h', drop_node h x = Ret h' ∧ agree_off h h' (x :: l.*1) ∧ h' !! x = None ∧
    (l ≠ [] → ring1 h' l).
Proof.
  intros Hr. assert (∃ h', unlink h x = Ret h' ∧ agree_off h h' (x :: l.*1) ∧
    (l ≠ [] → ring1 h' l)) as (h' & Hu & Hag & Hl).
  { destruct l as [|n l].
    - rewrite ring1_single in Hr. unfold unlink, deref. rewrite Hr. simpl.
      eexists. split_and!; [done| |done].
      intros u Hu. by rewrite lookup_insert_ne by set_solver.
    - rewrite ring1_ring in Hr by (simpl; lia).
      apply unlink_ring in Hr as (h' & ? & ? & ? & ?). eauto. }
  assert (x ∉ l.*1) as Hx.
  { destruct l as [|n l]; [by intros ?%elem_of_nil|].
    rewrite ring1_ring, ring_head in Hr by (simpl; lia).
    by destruct Hr as (_ & [? _]%NoDup_cons & _). }
  unfold drop_node. rewrite Hu. simpl. eexists. split_and!; [done| | |].
  - intros u Hu'. rewrite lookup_delete_ne by set_solver. by apply Hag.
  - by rewrite lookup_delete_eq.
  - intros Hne. eapply ring1_frame; [|by apply Hl].
    intros u Hu'. rewrite lookup_delete_ne; [done|]. by intros ->.
Qed.

Lemma without_split l1 x w l2 :
  NoDup (l1 ++ (x, w) :: l2).*1 → without x (l1 ++ (x, w) :: l2) = l1 ++ l2.
Proof.
  rewrite fmap_app, fmap_cons. simpl. intros (_ & H1 & [H2 _]%NoDup_cons)%NoDup_app.
  unfold without. rewrite filter_app, filter_cons. simpl.
  rewrite decide_False by (by intros []).
  f_equal; apply list_filter_all; intros i Hi Heq.
  - apply (H1 x); [|by left]. rewrite <- Heq. by apply list_elem_of_fmap_2.
  - apply H2. rewrite <- Heq. by apply list_elem_of_fmap_2.
Qed.

Lemma sat_loose h l : (l ≠ [] → ring1 h (inodes l)) → Forall (sat h) (loose l).
Proof. destruct l; simpl; intros Hl; [constructor|]. constructor; [by apply Hl|constructor]. Qed.

Lemma agree_off_sub h h' xs ys : xs ⊆ ys → agree_off h h' xs → agree_off h h' ys.
Proof. intros Hp Hag x Hx. apply Hag. by intros ?%Hp. Qed.

Lemma drop_node_part h r x :
  sat h r → x ∈ locs r →
  ∃ h', drop_node h x = Ret h' ∧ agree_off h h' (locs r) ∧ h' !! x = None ∧
    Forall (sat h') (drop_part r x).
Proof.
  intros Hs Hx. pose proof (sat_nodup _ _ Hs) as Hnd.
  destruct r as [hd l|l|y]; simpl in *.
  - case_decide as Heq.
    + subst hd. destruct (drop_ring _ _ _ _ Hs) as (h' & ? & Hag & ? & Hr).
      rewrite inodes_locs in Hag. exists h'. split_and!; [done..|].
      apply sat_loose. intros Hne. apply Hr. by destruct l.
    + apply elem_of_cons in Hx as [?|Hx]; [done|].
      apply list_elem_of_fmap in Hx as ([x' w] & -> & Hx). simpl in *.
      apply list_elem_of_split in Hx as (l1 & l2 & ->).
      apply NoDup_cons in Hnd as [Hhd Hnd]. rewrite without_split by done.
      rewrite inodes_app in Hs. simpl in Hs. apply (ring1_bring _ (_ :: _)) in Hs.
      destruct (drop_ring _ _ _ _ Hs) as (h' & ? & Hag & ? & Hr).
      exists h'. split_and!; [done| |done|].
      * eapply agree_off_sub; [|exact Hag]. rewrite fmap_app. simpl.
        rewrite !inodes_locs, fmap_app. simpl. set_solver.
      * constructor; [|constructor]. simpl. rewrite inodes_app.
        apply (ring1_rotate _ _ (_ :: _)), Hr. by destruct (inodes l2).
  - apply list_elem_of_fmap in Hx as ([x' w] & -> & Hx). simpl in *.
    apply list_elem_of_split in Hx as (l1 & l2 & ->).
    rewrite without_split by done. rewrite inodes_app in Hs. simpl in Hs.
    apply ring1_bring in Hs. destruct (drop_ring _ _ _ _ Hs) as (h' & ? & Hag & ? & Hr).
    exists h'. split_and!; [done| |done|].
    + eapply agree_off_sub; [|exact Hag]. rewrite fmap_app.
      rewrite !inodes_locs, fmap_app. simpl. set_solver.
    + apply sat_loose. intros Hne. rewrite inodes_app. apply ring1_rotate, Hr.
      by destruct l1, l2.
  - apply list_elem_of_singleton in Hx as ->. unfold drop_node, unlink, deref.
    rewrite Hs. simpl. eexists. split_and!; [done| | |constructor].
    + intros u Hu. rewrite lookup_delete_ne, lookup_insert_ne by set_solver. done.
    + by rewrite lookup_delete_eq.
Qed.

(** ** Cancelling a handle *)

Lemma cancel_loop_spec hd l : NoDup l.*1 → hd ∉ l.*1 →
  ∀ fuel h a, length l < fuel → nodes_at h a (inodes l) hd →
  ∃ h', cancel_loop fuel h hd (first (inodes l) hd) = Ret (h', l.*2) ∧
    agree_off h h' l.*1 ∧ ∀ x, x ∈ l.*1 → h' !! x = Some NCanceled.
Proof.
  intros Hnd Hhd. induction l as [|[x w] l IH]; intros fuel h a Hfuel Hn.
  - destruct fuel; [simpl in *; lia|]. simpl. rewrite decide_True by done.
    exists h. split_and!; [done|done|]. by intros x ?%elem_of_nil.
  - destruct fuel as [|fuel]; [simpl in *; lia|]. simpl in *.
    apply NoDup_cons in Hnd as [Hx Hnd]. destruct Hn as [Hhx Hn].
    rewrite decide_False by set_solver. unfold deref. rewrite Hhx. simpl.
    destruct (IH Hnd ltac:(set_solver) fuel (<[x := NCanceled]> h) x) as
      (h' & Hrun & Hag & Hc).
    + lia.
    + apply nodes_at_insert; [by rewrite inodes_locs|done].
    + rewrite Hrun. simpl. exists h'. split_and!; [done| |].
      * intros u Hu. rewrite Hag by set_solver. by rewrite lookup_insert_ne by set_solver.
      * intros u [->|Hu]%elem_of_cons; [|by apply Hc].
        rewrite Hag by done. by rewrite lookup_insert_eq.
Qed.

Lemma cancel_part h hd l fuel :
  sat h (Handle hd l) → length l < fuel →
  ∃ h', cancel fuel h hd = Ret (h', l.*2) ∧ agree_off h h' (hd :: l.*1) ∧
    Forall (sat h') (Dead <$> hd :: l.*1).
Proof.
  intros Hs Hfuel. pose proof (sat_nodup _ _ Hs) as Hnd. simpl in Hnd.
  apply NoDup_cons in Hnd as [Hhd Hnd].
  assert (∃ h', cancel fuel h hd = Ret (h', l.*2) ∧ agree_off h h' (hd :: l.*1) ∧
    ∀ x, x ∈ hd :: l.*1 → h' !! x = Some NCanceled) as (h' & ? & ? & Hc).
  { unfold cancel, deref. simpl in Hs. destruct l as [|i l].
    - rewrite ring1_single in Hs. rewrite Hs. simpl. eexists. split_and!; [done| |].
      + intros u Hu. by rewrite lookup_insert_ne by set_solver.
      + intros u ->%list_elem_of_singleton. by rewrite lookup_insert_eq.
    - rewrite ring1_ring, ring_head in Hs by (simpl; lia).
      destruct Hs as (_ & _ & Hhdl & Hn). rewrite Hhdl. simpl.
      destruct (cancel_loop_spec hd (i :: l) Hnd Hhd fuel (<[hd := NCanceled]> h) hd Hfuel)
        as (h' & Hrun & Hag & Hc).
      { apply nodes_at_insert; [by rewrite inodes_locs|done]. }
      exists h'. split_and!; [done| |].
      + intros u Hu. rewrite Hag by set_solver. by rewrite lookup_insert_ne by set_solver.
      + intros u [->|Hu]%elem_of_cons; [|by apply Hc].
        rewrite Hag by done. by rewrite lookup_insert_eq. }
  exists h'. split_and!; [done..|].
  apply Forall_fmap, Forall_forall. intros x Hx. by apply Hc.
Qed.

Lemma cancel_dead h hd fuel :
  h !! hd = Some NCanceled →
  cancel fuel h hd = Ret (<[hd := NCanceled]> h, []).
Proof. intros Hhd. unfold cancel, deref. by rewrite Hhd. Qed.

(** * All handles and futures of a program

    [w_handles] are the nodes that sit in a [CancelHandle]; the other nodes sit
    in a [Cancelable]. *)

Record world := mkWorld { w_heap : heap; w_handles : gset loc }.

Inductive act :=
  | NewHandle (x : loc)
  | NewNode (x : loc)
  | Register (this : loc) (w : waker) (head : loc)
  | UpdateWaker (this : loc) (w : waker)
  | CancelHandle (head : loc)
  | DropNode (x : loc).

(** What the types of the module guarantee: allocations are new, a future
    registers once, with a handle that is alive. *)
Definition legal (w : world) (a : act) : Prop :=
  match a with
  | NewHandle x | NewNode x => w_heap w !! x = None
  | Register this _ head =>
      w_heap w !! this = Some Unlinked ∧ ¬ (this ∈ w_handles w) ∧
      head ∈ w_handles w ∧ is_Some (w_heap w !! head)
  | UpdateWaker this _ => ¬ (this ∈ w_handles w) ∧ is_Some (w_heap w !! this)
  | CancelHandle head => head ∈ w_handles w ∧ is_Some (w_heap w !! head)
  | DropNode x => is_Some (w_heap w !! x)
  end.

(** The wakers an action wakes, and whether it reports [Canceled]. *)
Definition exec (w : world) (a : act) :
    outcome (world * list waker * result unit Canceled) :=
  match a with
  | NewHandle x =>
      Ret ((mkWorld (<[x := Unlinked]> (w_heap w)) ({[x]} ∪ w_handles w), []), Ok tt)
  | NewNode x =>
      Ret (mkWorld (<[x := Unlinked]> (w_heap w)) (w_handles w ∖ {[x]}), [], Ok tt)
  | Register this k head =>
      '(h, r) ← register (w_heap w) this k (Some head);
      Ret (mkWorld h (w_handles w), [], r)
  | UpdateWaker this k =>
      '(h, r) ← register (w_heap w) this k None;
      Ret (mkWorld h (w_handles w), [], r)
  | CancelHandle head =>
      '(h, woken) ← cancel (S (size (w_heap w))) (w_heap w) head;
      Ret (mkWorld h (w_handles w), woken, Ok tt)
  | DropNode x =>
      h ← drop_node (w_heap w) x;
      Ret (mkWorld h (w_handles w ∖ {[x]}), [], Ok tt)
  end.

Inductive reachable : world → Prop :=
  | reach_empty : reachable (mkWorld ∅ ∅)
  | reach_act w a w' woken r :
      reachable w → legal w a → exec w a = Ret (w', woken, r) →
      reachable w'.

Definition role_ok (H : gset loc) (r : part) : Prop :=
  match r with
  | Handle hd l => hd ∈ H ∧ ∀ x, x ∈ l.*1 → x ∉ H
  | Loose l => ∀ x, x ∈ l.*1 → x ∉ H
  | Dead _ => True
  end.

Definition all_locs (rs : list part) : list loc := rs ≫= locs.

(** The heap is the disjoint union of its parts. *)
Record inv (w : world) (rs : list part) : Prop := {
  inv_nodup : NoDup (all_locs rs);
  inv_sat : Forall (sat (w_heap w)) rs;
  inv_dom x : is_Some (w_heap w !! x) → x ∈ all_locs rs;
  inv_roles : Forall (role_ok (w_handles w)) rs
}.

Lemma all_locs_app rs1 rs2 : all_locs (rs1 ++ rs2) = all_locs rs1 ++ all_locs rs2.
Proof. apply bind_app. Qed.

Lemma all_locs_perm rs1 rs2 : rs1 ≡ₚ rs2 → all_locs rs1 ≡ₚ all_locs rs2.
Proof. intros Hp. unfold all_locs. by rewrite Hp. Qed.

Lemma inv_perm w rs1 rs2 : rs1 ≡ₚ rs2 → inv w rs1 → inv w rs2.
Proof.
  intros Hp [Hnd Hsat Hdom Hrole]. split.
  - by rewrite <- (all_locs_perm _ _ Hp).
  - by rewrite <- Hp.
  - intros x Hx. rewrite <- (all_locs_perm _ _ Hp). by apply Hdom.
  - by rewrite <- Hp.
Qed.

Lemma elem_of_all_locs x rs :
  x ∈ all_locs rs → ∃ r rest, rs ≡ₚ r :: rest ∧ x ∈ locs r.
Proof.
  intros (r & Hx & Hr)%list_elem_of_bind.
  apply list_elem_of_split in Hr as (l1 & l2 & ->).
  exists r, (l1 ++ l2). split; [|done]. by rewrite <- Permutation_middle.
Qed.

Lemma inv_part w rs x :
  inv w rs → is_Some (w_heap w !! x) →
  ∃ r rest, rs ≡ₚ r :: rest ∧ inv w (r :: rest) ∧ x ∈ locs r ∧
    sat (w_heap w) r ∧ role_ok (w_handles w) r.
Proof.
  intros Hinv Hx. destruct (elem_of_all_locs x rs) as (r & rest & Hp & Hr).
  { by apply (inv_dom _ _ Hinv). }
  pose proof (inv_perm _ _ _ Hp Hinv) as Hinv'. exists r, rest.
  pose proof (inv_sat _ _ Hinv') as [? _]%Forall_cons.
  pose proof (inv_roles _ _ Hinv') as [? _]%Forall_cons. done.
Qed.

(** Replacing some parts of the heap leaves the rest as it was. *)
Lemma inv_replace w old rest h' H' new xs :
  inv w (old ++ rest) → agree_off (w_heap w) h' xs →
  (∀ x, x ∈ xs ++ all_locs new → x ∉ all_locs rest) →
  NoDup (all_locs new) → Forall (sat h') new → Forall (role_ok H') new →
  (∀ x, is_Some (h' !! x) → x ∉ all_locs rest → x ∈ all_locs new) →
  (∀ x, x ∈ all_locs rest → x ∈ H' ↔ x ∈ w_handles w) →
  inv (mkWorld h' H') (new ++ rest).
Proof.
  intros [Hnd Hsat Hdom Hrole] Hag Hdisj Hndn Hsatn Hrolen Hdom' HH.
  rewrite all_locs_app in Hnd. apply NoDup_app in Hnd as (_ & _ & Hnd).
  apply Forall_app in Hsat as [_ Hsat]. apply Forall_app in Hrole as [_ Hrole].
  assert (∀ r, r ∈ rest → ∀ x, x ∈ locs r → x ∈ all_locs rest) as Hin.
  { intros r Hr x Hx. apply list_elem_of_bind. eauto. }
  split; simpl.
  - rewrite all_locs_app. apply NoDup_app. split_and!; [done| |done].
    intros x Hx. apply Hdisj. set_solver.
  - apply Forall_app. split; [done|]. rewrite Forall_forall in Hsat |- *.
    intros r Hr. eapply sat_frame; [|by apply Hsat].
    intros x Hx. apply Hag. intros Hxs. apply (Hdisj x); [set_solver|eauto].
  - intros x Hx. rewrite all_locs_app. apply elem_of_app.
    destruct (decide (x ∈ all_locs rest)); auto.
  - apply Forall_app. split; [done|]. rewrite Forall_forall in Hrole |- *.
    intros r Hr. specialize (Hrole r Hr). specialize (Hin r Hr).
    destruct r as [hd l|l|x]; simpl in *; [destruct Hrole as [Hhd Hl]; split|..].
    + rewrite HH; [done|]. apply Hin. by left.
    + intros x Hx. rewrite HH; [by apply Hl|]. apply Hin. by right.
    + intros x Hx. rewrite HH; [by apply Hrole|by apply Hin].
    + done.
Qed.

(** Which part an unlinked node is in. *)
Lemma sat_unlinked h r x :
  sat h r → x ∈ locs r → h !! x = Some Unlinked →
  r = Handle x [] ∨ ∃ w, r = Loose [(x, w)].
Proof.
  assert (∀ l, ring h l → x ∈ l.*1 → h !! x ≠ Some Unlinked) as Hring.
  { intros l (_ & _ & Hn). revert Hn. generalize (final 0 l), (first l 0). intros a b.
    revert a. induction l as [|[y k] l IH]; simpl; intros a.
    - by intros _ ?%elem_of_nil.
    - intros [Hy Hl] [->|Hx]%elem_of_cons; [congruence|by eapply IH]. }
  destruct r as [hd l|l|y]; simpl; intros Hs Hx Hu.
  - destruct l as [|i l]; [apply list_elem_of_singleton in Hx as ->; by left|].
    rewrite ring1_ring in Hs by (simpl; lia). exfalso.
    eapply Hring; [exact Hs| |done]. simpl. change (inode i :: inodes l) with (inodes (i :: l)).
    by rewrite inodes_locs.
  - destruct l as [|[y w] [|i l]].
    + by apply elem_of_nil in Hx.
    + apply list_elem_of_singleton in Hx as ->. right. by exists w.
    + rewrite ring1_ring in Hs by (simpl; lia). exfalso.
      eapply Hring; [exact Hs| |done]. by rewrite inodes_locs.
  - apply list_elem_of_singleton in Hx as ->. congruence.
Qed.

(** Which part a living handle is in. *)
Lemma inv_handle w rs x :
  inv w rs → x ∈ w_handles w → is_Some (w_heap w !! x) →
  ∃ r rest, rs ≡ₚ r :: rest ∧ inv w (r :: rest) ∧ sat (w_heap w) r ∧
    ((∃ l, r = Handle x l) ∨ r = Dead x).
Proof.
  intros Hinv HxH Hx.
  destruct (inv_part w rs x Hinv Hx) as (r & rest & Hp & Hinv' & Hr & Hsat & Hrole).
  exists r, rest. split_and!; [done..|].
  destruct r as [hd l|l|y]; simpl in *.
  - apply elem_of_cons in Hr as [->|Hr]; [by eauto|]. by apply Hrole in Hr.
  - by apply Hrole in Hr.
  - apply list_elem_of_singleton in Hr as ->. by right.
Qed.

(** * The abstract registry

    What the module promises, without pointers: each live handle owns the ordered
    list of the futures registered with it and their wakers. *)
Inductive astep (rs : list part) :
    act → list part → list waker → result unit Canceled → Prop :=
  | A_new_handle x : astep rs (NewHandle x) (Handle x [] :: rs) [] (Ok tt)
  | A_new_node x k : astep rs (NewNode x) (Loose [(x, k)] :: rs) [] (Ok tt)
  | A_register rest hd l x k0 k :
      rs ≡ₚ Handle hd l :: Loose [(x, k0)] :: rest →
      astep rs (Register x k hd) (Handle hd (l ++ [(x, k)]) :: rest) [] (Ok tt)
  | A_register_late rest hd x k :
      rs ≡ₚ Dead hd :: rest →
      astep rs (Register x k hd) rs [] (Err canceled)
  | A_update rest hd l1 l2 x k0 k :
      rs ≡ₚ Handle hd (l1 ++ (x, k0) :: l2) :: rest →
      astep rs (UpdateWaker x k) (Handle hd (l1 ++ (x, k) :: l2) :: rest) [] (Ok tt)
  | A_update_loose rest l1 l2 x k0 k :
      rs ≡ₚ Loose (l1 ++ (x, k0) :: l2) :: rest →
      astep rs (UpdateWaker x k) (Loose (l1 ++ (x, k) :: l2) :: rest) [] (Ok tt)
  | A_update_late rest x k :
      rs ≡ₚ Dead x :: rest → astep rs (UpdateWaker x k) rs [] (Err canceled)
  | A_cancel rest hd l :
      rs ≡ₚ Handle hd l :: rest →
      astep rs (CancelHandle hd) ((Dead <$> hd :: l.*1) ++ rest) l.*2 (Ok tt)
  | A_cancel_again rest hd :
      rs ≡ₚ Dead hd :: rest → astep rs (CancelHandle hd) rs [] (Ok tt)
  | A_drop rest r x :
      rs ≡ₚ r :: rest → x ∈ locs r →
      astep rs (DropNode x) (drop_part r x ++ rest) [] (Ok tt).

(** One step of the heap is one step of the registry. *)
Definition refines (w : world) (rs : list part) (a : act) : Prop :=
  ∃ w' woken r rs', exec w a = Ret (w', woken, r) ∧ astep rs a rs' woken r ∧ inv w' rs'.

Lemma all_locs_cons r rs : all_locs (r :: rs) = locs r ++ all_locs rs.
Proof. done. Qed.

Lemma refines_new_handle w rs x : inv w rs → legal w (NewHandle x) →
  refines w rs (NewHandle x).
Proof.
  intros Hinv Hx. simpl in Hx. do 4 eexists. split_and!; [done|apply A_new_handle|].
  assert (Hnin : x ∉ all_locs rs).
  { intros (r & rest & Hp & Hr)%elem_of_all_locs.
    pose proof (inv_sat _ _ Hinv) as Hsat. rewrite Hp in Hsat.
    apply Forall_cons in Hsat as [Hsat _].
    destruct (sat_dom _ _ _ Hsat Hr) as [n Hn]. congruence. }
  apply (inv_replace w [] rs _ _ [Handle x []] [x]); [done|..].
  - intros u Hu. by rewrite lookup_insert_ne by set_solver.
  - intros u Hu. set_solver.
  - apply NoDup_singleton.
  - constructor; [|constructor]. simpl. by rewrite ring1_single, lookup_insert_eq.
  - constructor; [|constructor]. simpl. split; [set_solver|]. by intros ? ?%elem_of_nil.
  - intros u [n Hu] Hnr. destruct (decide (u = x)) as [->|Hne]; [by left|].
    rewrite lookup_insert_ne in Hu by done. exfalso. apply Hnr, (inv_dom _ _ Hinv). eauto.
  - intros u Hu. set_solver.
Qed.

Lemma refines_new_node w rs x : inv w rs → legal w (NewNode x) →
  refines w rs (NewNode x).
Proof.
  intros Hinv Hx. simpl in Hx. do 4 eexists. split_and!; [done|apply (A_new_node _ _ 0)|].
  assert (Hnin : x ∉ all_locs rs).
  { intros (r & rest & Hp & Hr)%elem_of_all_locs.
    pose proof (inv_sat _ _ Hinv) as Hsat. rewrite Hp in Hsat.
    apply Forall_cons in Hsat as [Hsat _].
    destruct (sat_dom _ _ _ Hsat Hr) as [n Hn]. congruence. }
  apply (inv_replace w [] rs _ _ [Loose [(x, 0)]] [x]); [done|..].
  - intros u Hu. by rewrite lookup_insert_ne by set_solver.
  - intros u Hu. set_solver.
  - apply NoDup_singleton.
  - constructor; [|constructor]. apply (ring1_single _ x (Item 0)), lookup_insert_eq.
  - constructor; [|constructor]. simpl. intros ? ->%list_elem_of_singleton. set_solver.
  - intros u [n Hu] Hnr. destruct (decide (u = x)) as [->|Hne]; [by left|].
    rewrite lookup_insert_ne in Hu by done. exfalso. apply Hnr, (inv_dom _ _ Hinv). eauto.
  - intros u Hu. set_solver.
Qed.

(** Replacing one part by parts that cover the same nodes, minus those that left
    the heap. *)
Lemma inv_replace_part w r rest h' new :
  inv w (r :: rest) → agree_off (w_heap w) h' (locs r) →
  all_locs new ⊆ locs r → NoDup (all_locs new) → Forall (sat h') new →
  Forall (role_ok (w_handles w)) new →
  (∀ x, x ∈ locs r → x ∈ all_locs new ∨ h' !! x = None) →
  inv (mkWorld h' (w_handles w)) (new ++ rest).
Proof.
  intros Hinv Hag Hsub Hnd Hsat Hrole Hcov.
  pose proof (inv_nodup _ _ Hinv) as Hall. rewrite all_locs_cons in Hall.
  apply NoDup_app in Hall as (_ & Hdisj & _).
  apply (inv_replace w [r] rest _ _ new (locs r)); try done.
  - intros x [Hx|Hx]%elem_of_app; [by apply Hdisj|]. by apply Hdisj, Hsub.
  - intros x [n Hx] Hnr. destruct (decide (x ∈ locs r)) as [Hxr|Hxr].
    + destruct (Hcov x Hxr); [done|congruence].
    + rewrite Hag in Hx by done. assert (x ∈ all_locs (r :: rest)) as Hin.
      { apply (inv_dom _ _ Hinv). eauto. }
      rewrite all_locs_cons in Hin. set_solver.
Qed.

(** The heap as a world does not mention the order of its parts. *)
Lemma world_eta w : mkWorld (w_heap w) (w_handles w) = w.
Proof. by destruct w. Qed.

(** A handle has fewer futures than the heap has nodes, so the fuel of
    [CancelHandle] never runs out. *)
Lemma fuel_enough h hd l : sat h (Handle hd l) → length l < S (size h).
Proof.
  intros Hsat. pose proof (sat_nodup _ _ Hsat) as [_ Hnd]%NoDup_cons.
  rewrite <- (length_fmap fst).
  rewrite <- (size_list_to_set (C := gset loc) _ Hnd), <- size_dom.
  enough (size (list_to_set l.*1 : gset loc) <= size (dom h)) by lia.
  apply subseteq_size. intros x Hx%elem_of_list_to_set. apply elem_of_dom.
  apply (sat_dom _ _ _ Hsat). simpl. set_solver.
Qed.

Lemma refines_cancel w rs hd : inv w rs → legal w (CancelHandle hd) →
  refines w rs (CancelHandle hd).
Proof.
  intros Hinv [HhdH Hhd].
  destruct (inv_handle w rs hd Hinv HhdH Hhd) as (r & rest & Hp & Hinv' & Hsat & Hr).
  unfold refines. simpl.
  destruct Hr as [[l ->]| ->].
  - pose proof (sat_nodup _ _ Hsat) as Hnd.
    destruct (cancel_part _ _ _ (S (size (w_heap w))) Hsat) as (h' & -> & Hag & Hdead).
    + by eapply fuel_enough.
    + simpl. do 4 eexists. split_and!; [done|by eapply A_cancel|].
      assert (all_locs (Dead <$> hd :: l.*1) = hd :: l.*1) as Hlocs.
      { generalize (hd :: l.*1). intros xs. induction xs as [|x xs IH]; [done|].
        rewrite fmap_cons, all_locs_cons, IH. done. }
      apply (inv_replace_part w _ rest h' _ Hinv' Hag); rewrite ?Hlocs; try done.
      * by apply Forall_fmap, Forall_true.
      * intros x Hx. by left.
  - simpl in Hsat. rewrite (cancel_dead _ _ _ Hsat). simpl.
    do 4 eexists. split_and!; [done|by eapply A_cancel_again|].
    rewrite insert_id by done. by rewrite world_eta.
Qed.

Lemma refines_register w rs x k hd : inv w rs → legal w (Register x k hd) →
  refines w rs (Register x k hd).
Proof.
  intros Hinv (Hx & HxH & HhdH & Hhd).
  destruct (inv_handle w rs hd Hinv HhdH Hhd) as (r & rest & Hp & Hinv' & Hsat & Hr).
  unfold refines. simpl. rewrite assert_true by (apply bool_decide_eq_true; set_solver).
  simpl. destruct Hr as [[l ->]| ->].
  - assert (x ∉ locs (Handle hd l)) as Hxl.
    { intros Hin. destruct (sat_unlinked _ _ _ Hsat Hin Hx) as [[= -> _]|[? [=]]]. done. }
    assert (x ∈ all_locs rest) as Hxr.
    { assert (x ∈ all_locs (Handle hd l :: rest)) as Hin by (apply (inv_dom _ _ Hinv'); eauto).
      rewrite all_locs_cons in Hin. set_solver. }
    apply elem_of_all_locs in Hxr as (r & rest' & Hp' & Hr).
    assert (inv w (r :: Handle hd l :: rest')) as Hinv2.
    { eapply inv_perm; [|exact Hinv']. rewrite Hp'. apply perm_swap. }
    pose proof (inv_sat _ _ Hinv2) as [Hsatr _]%Forall_cons.
    pose proof (inv_roles _ _ Hinv2) as [Hroler [[Hrolehd Hrolel] _]%Forall_cons]%Forall_cons.
    destruct (sat_unlinked _ _ _ Hsatr Hr Hx) as [->|[k0 ->]].
    { by destruct Hroler. }
    destruct (link_part _ _ _ x k Hsat Hx Hxl) as (h' & -> & Hag & Hsat'). simpl.
    do 4 eexists. split_and!; [done| |].
    + eapply A_register. by rewrite Hp, Hp'.
    + pose proof (inv_nodup _ _ Hinv2) as Hnd. rewrite !all_locs_cons, app_assoc in Hnd.
      apply NoDup_app in Hnd as (Hnd & Hdisj & _).
      assert (all_locs [Handle hd (l ++ [(x, k)])] ≡ₚ locs (Loose [(x, k0)]) ++ locs (Handle hd l))
        as Hlocs.
      { unfold all_locs. simpl. rewrite app_nil_r, fmap_app. simpl. solve_Permutation. }
      eapply (inv_replace w [Loose [(x, k0)]; Handle hd l] rest' h' _
        [Handle hd (l ++ [(x, k)])]); [exact Hinv2|exact Hag|..].
      * intros u. rewrite Hlocs. simpl. intros Hu. apply Hdisj. set_solver.
      * by rewrite Hlocs.
      * by constructor.
      * constructor; [|done]. simpl. split; [done|]. intros u. rewrite fmap_app.
        intros [?|?]%elem_of_app; [by apply Hrolel|]. set_solver.
      * intros u [n Hu] Hnr. rewrite Hlocs. destruct (decide (u ∈ x :: locs (Handle hd l)))
          as [Hin|Hnin]; [set_solver|]. rewrite Hag in Hu by done.
        assert (u ∈ all_locs (Loose [(x, k0)] :: Handle hd l :: rest')) as Hin
          by (apply (inv_dom _ _ Hinv2); eauto).
        rewrite !all_locs_cons in Hin. set_solver.
      * done.
  - simpl in Hsat. rewrite (link_dead _ _ _ k Hsat Hx). simpl.
    do 4 eexists. split_and!; [done|by eapply A_register_late|]. by rewrite world_eta.
Qed.

(** Replacing a part by one with the same nodes. *)
Lemma inv_relabel w r r' rest h' :
  inv w (r :: rest) → agree_off (w_heap w) h' (locs r) → locs r' = locs r →
  sat h' r' → role_ok (w_handles w) r' →
  inv (mkWorld h' (w_handles w)) (r' :: rest).
Proof.
  intros Hinv Hag Hlocs Hsat Hrole.
  pose proof (inv_nodup _ _ Hinv) as Hnd. rewrite all_locs_cons in Hnd.
  apply NoDup_app in Hnd as (Hnd & _ & _).
  assert (all_locs [r'] = locs r) as Hall.
  { unfold all_locs. simpl. by rewrite app_nil_r. }
  apply (inv_replace_part w r rest h' [r'] Hinv Hag); rewrite ?Hall; auto.
Qed.

Lemma middle_locs (l1 l2 : list item) x k k' :
  (l1 ++ (x, k) :: l2).*1 = (l1 ++ (x, k') :: l2).*1.
Proof. by rewrite !fmap_app. Qed.

Lemma refines_update w rs x k : inv w rs → legal w (UpdateWaker x k) →
  refines w rs (UpdateWaker x k).
Proof.
  intros Hinv (HxH & Hx).
  destruct (inv_part w rs x Hinv Hx) as (r & rest & Hp & Hinv' & Hr & Hsat & Hrole).
  unfold refines. simpl. destruct r as [hd l|l|y].
  - simpl in Hr. apply elem_of_cons in Hr as [->|Hr]; [by destruct Hrole|].
    apply list_elem_of_fmap in Hr as ([x' k0] & -> & Hr).
    apply list_elem_of_split in Hr as (l1 & l2 & ->).
    destruct (update_waker_part _ _ l1 x' k0 l2 k Hsat ltac:(eauto)) as (h' & Hrun & Hag & Hs').
    simpl. rewrite Hrun. do 4 eexists. split_and!; [done|by eapply A_update|].
    eapply inv_relabel; [exact Hinv'| | |exact Hs'|].
    + eapply agree_off_sub; [|exact Hag]. simpl. rewrite fmap_app. set_solver.
    + simpl. by rewrite (middle_locs _ _ _ k k0).
    + simpl. by rewrite (middle_locs _ _ _ k k0).
  - simpl in Hr. apply list_elem_of_fmap in Hr as ([x' k0] & -> & Hr).
    apply list_elem_of_split in Hr as (l1 & l2 & ->).
    destruct (update_waker_part _ _ l1 x' k0 l2 k Hsat ltac:(eauto)) as (h' & Hrun & Hag & Hs').
    simpl. rewrite Hrun. do 4 eexists. split_and!; [done|by eapply A_update_loose|].
    eapply inv_relabel; [exact Hinv'| | |exact Hs'|].
    + eapply agree_off_sub; [|exact Hag]. simpl. rewrite fmap_app. set_solver.
    + simpl. by rewrite (middle_locs _ _ _ k k0).
    + simpl. by rewrite (middle_locs _ _ _ k k0).
  - apply list_elem_of_singleton in Hr as ->. simpl in Hsat.
    unfold update_waker, deref. rewrite Hsat. simpl.
    do 4 eexists. split_and!; [done|by eapply A_update_late|]. by rewrite world_eta.
Qed.

Lemma elem_of_without x u l : u ∈ (without x l).*1 ↔ u ∈ l.*1 ∧ u ≠ x.
Proof.
  unfold without. rewrite !list_elem_of_fmap. setoid_rewrite list_elem_of_filter. naive_solver.
Qed.

Lemma all_locs_loose l : all_locs (loose l) = l.*1.
Proof. destruct l; [done|]. unfold all_locs. simpl. by rewrite app_nil_r. Qed.

Lemma elem_of_drop_part r x u :
  NoDup (locs r) → x ∈ locs r →
  u ∈ all_locs (drop_part r x) ↔ u ∈ locs r ∧ u ≠ x.
Proof.
  destruct r as [hd l|l|y]; simpl; intros Hnd Hx.
  - apply NoDup_cons in Hnd as [Hhd _]. case_decide as Heq.
    + subst hd. rewrite all_locs_loose. set_solver.
    + unfold all_locs. simpl. rewrite app_nil_r, !elem_of_cons, elem_of_without. naive_solver.
  - by rewrite all_locs_loose, elem_of_without.
  - apply list_elem_of_singleton in Hx as ->. rewrite list_elem_of_singleton, elem_of_nil. naive_solver.
Qed.

Lemma NoDup_without x l : NoDup l.*1 → NoDup (without x l).*1.
Proof. intros Hnd. eapply sublist_NoDup; [exact Hnd|]. apply fmap_sublist, sublist_filter. Qed.

Lemma NoDup_drop_part r x : NoDup (locs r) → NoDup (all_locs (drop_part r x)).
Proof.
  destruct r as [hd l|l|y]; simpl.
  - intros [Hhd Hnd]%NoDup_cons. case_decide; [by rewrite all_locs_loose|].
    unfold all_locs. simpl. rewrite app_nil_r. apply NoDup_cons.
    split; [|by apply NoDup_without]. by intros [? _]%elem_of_without.
  - rewrite all_locs_loose. apply NoDup_without.
  - intros _. apply NoDup_nil_2.
Qed.

Lemma role_ok_drop_part H r x :
  role_ok H r → Forall (role_ok (H ∖ {[x]})) (drop_part r x).
Proof.
  assert (∀ l, (∀ u, u ∈ l.*1 → u ∉ H) → Forall (role_ok (H ∖ {[x]})) (loose l)) as Hl.
  { intros [|i l] Hl; simpl; [constructor|]. constructor; [|constructor].
    intros u Hu. simpl. intros [Hu' _]%elem_of_difference. by apply (Hl u). }
  destruct r as [hd l|l|y]; simpl.
  - intros [Hhd Hr]. case_decide; [by apply Hl|]. constructor; [|constructor].
    simpl. split; [set_solver|].
    intros u [Hu _]%elem_of_without. apply Hr in Hu. set_solver.
  - intros Hr. apply Hl. intros u [Hu _]%elem_of_without. by apply Hr.
  - constructor.
Qed.

Lemma refines_drop w rs x : inv w rs → legal w (DropNode x) →
  refines w rs (DropNode x).
Proof.
  intros Hinv Hx.
  destruct (inv_part w rs x Hinv Hx) as (r & rest & Hp & Hinv' & Hr & Hsat & Hrole).
  pose proof (sat_nodup _ _ Hsat) as Hndr.
  pose proof (inv_nodup _ _ Hinv') as Hnd. rewrite all_locs_cons in Hnd.
  apply NoDup_app in Hnd as (_ & Hdisj & _).
  destruct (drop_node_part _ _ _ Hsat Hr) as (h' & Hrun & Hag & Hnone & Hsat').
  unfold refines. simpl. rewrite Hrun. simpl.
  do 4 eexists. split_and!; [done|by eapply A_drop|].
  apply (inv_replace w [r] rest h' _ (drop_part r x) (locs r)); try done.
  - intros u Hu. apply Hdisj. apply elem_of_app in Hu as [?|Hu]; [done|].
    by apply elem_of_drop_part in Hu as [? _].
  - by apply NoDup_drop_part.
  - by apply role_ok_drop_part.
  - intros u [n Hu] Hnr. apply elem_of_drop_part; [done..|].
    split; [|intros ->; congruence].
    destruct (decide (u ∈ locs r)) as [|Hnin]; [done|]. exfalso.
    rewrite Hag in Hu by done. assert (u ∈ all_locs (r :: rest)) as Hin
      by (apply (inv_dom _ _ Hinv'); eauto).
    rewrite all_locs_cons in Hin. set_solver.
  - intros u Hu. assert (u ≠ x) by (intros ->; by apply (Hdisj x)). set_solver.
Qed.

Lemma exec_refines w rs a : inv w rs → legal w a → refines w rs a.
Proof.
  intros Hinv Hl. destruct a.
  - by apply refines_new_handle.
  - by apply refines_new_node.
  - by apply refines_register.
  - by apply refines_update.
  - by apply refines_cancel.
  - by apply refines_drop.
Qed.

Lemma node_reachable_inv w : reachable w → ∃ rs, inv w rs.
Proof.
  induction 1 as [|w a w' woken r Hr [rs Hinv] Hl Hex].
  - exists []. split; [constructor|constructor| |constructor].
    intros x [n Hx]. simpl in Hx. by rewrite lookup_empty in Hx.
  - destruct (exec_refines w rs a Hinv Hl) as (? & ? & ? & rs' & Hex' & _ & Hinv').
    rewrite Hex in Hex'. injection Hex' as <- <- <-. by exists rs'.
Qed.

(** * Properties *)

(** C15: the pointer lists implement the registry.  Any reachable heap is a
    disjoint union of handles, futures without a handle and cancelled nodes; each
    legal action runs without hitting an [unreachable!] or a dangling pointer,
    and does to the parts what the abstract registry does. *)
Theorem list_refines_registry w a :
  reachable w → legal w a →
  ∃ rs w' woken r rs', inv w rs ∧ exec w a = Ret (w', woken, r) ∧
    astep rs a rs' woken r ∧ inv w' rs'.
Proof.
  intros [rs Hinv]%node_reachable_inv Hl.
  destruct (exec_refines w rs a Hinv Hl) as (w' & woken & r & rs' & ?).
  by exists rs, w', woken, r, rs'.
Qed.

(** Cancelling a handle wakes every registered future, once, in the order of
    registration, and whenever such a future is polled afterwards it resolves to
    [Canceled] without its inner future being polled. *)
Lemma cancel_resolves_all w hd l rest :
  inv w (Handle hd l :: rest) →
  ∃ w', exec w (CancelHandle hd) = Ret (w', l.*2, Ok tt) ∧
    ∀ x k, (x, k) ∈ l → k ∈ l.*2 ∧
    ∀ F O (F_poll : F → waker → heap → outcome (poll O * F * heap)) f cx,
      Cancelable_poll F_poll (λ _ h, Ret h) x (CPending f Registered) cx (w_heap w') =
      Ret (Ready (Err canceled), Terminated, delete x (w_heap w')).
Proof.
  intros Hinv. pose proof (inv_sat _ _ Hinv) as [Hsat _]%Forall_cons.
  pose proof (inv_roles _ _ Hinv) as [[Hhd _] _]%Forall_cons.
  assert (is_Some (w_heap w !! hd)) as Hal by (eapply sat_dom; [exact Hsat|by left]).
  destruct (cancel_part _ _ _ (S (size (w_heap w))) Hsat) as (h' & Hrun & _ & Hdead).
  { by eapply fuel_enough. }
  simpl. rewrite Hrun. simpl. eexists. split; [done|]. intros x k Hx.
  split; [by apply (list_elem_of_fmap_2 snd) in Hx|].
  intros F O F_poll f cx. simpl.
  rewrite Forall_fmap, Forall_forall in Hdead.
  assert (h' !! x = Some NCanceled) as Hxc.
  { apply (Hdead x). apply elem_of_cons. right. by apply (list_elem_of_fmap_2 fst) in Hx. }
  unfold poll_pending, node_is_canceled, deref. rewrite Hxc. simpl.
  unfold drop_node, unlink, deref. rewrite Hxc. simpl. by rewrite delete_insert_eq.
Qed.

Lemma link_Ok_inv h this k hd h' u :
  link h this k hd = Ret (h', Ok u) →
  ∃ prev next, h' !! this = Some (Linked (Item k) prev next).
Proof. unfold link. intros Hl. run_all; rewrite lookup_insert_eq; eauto. Qed.

Lemma update_waker_Ok_inv h this k h' u :
  update_waker h this k = Ret (h', Ok u) →
  (∃ prev next, h' !! this = Some (Linked (Item k) prev next)) ∨
  h' !! this = Some Unlinked.
Proof.
  unfold update_waker, deref. intros Hl. run_all; rewrite ?lookup_insert_eq; eauto.
Qed.

(** A poll that returns [Pending] leaves the future able to be woken: its node
    carries the waker of that poll, unless its handle is gone.  A future that was
    not yet registered is registered by its first pending poll. *)
Lemma pending_poll_registers {F O}
    (F_poll : F → waker → heap → outcome (poll O * F * heap)) F_drop me f reg cx h c' h' :
  Cancelable_poll F_poll F_drop me (CPending f reg) cx h = Ret (Pending, c', h') →
  ∃ f', c' = CPending f' Registered ∧
    ((∃ prev next, h' !! me = Some (Linked (Item cx) prev next)) ∨
     (reg = Registered ∧ h' !! me = Some Unlinked)).
Proof.
  simpl. intros Hp. run_all; unfold poll_pending, register in *; run_all;
    eexists; (split; [done|]).
  - left. by eapply link_Ok_inv.
  - destruct reg; simplify_eq/=.
    match goal with H : update_waker _ _ _ = _ |- _ => apply update_waker_Ok_inv in H end.
    naive_solver.
Qed.

(** A completed [Cancelable] is terminated, so that polling it again is the
    caller's error; an [Abortable] that was aborted is, too, but one whose future
    completed is not: it would poll the completed future again. *)
Lemma fused_after_completion {F O}
    (F_poll : F → waker → heap → outcome (poll O * F * heap)) F_drop me c cx h c' h' :
  (∀ res, Cancelable_poll F_poll F_drop me c cx h = Ret (Ready res, c', h') →
    is_terminated c' = true) ∧
  (∀ f, Abortable_poll F_poll me c cx h = Ret (Ready (Err f), c', h') →
    is_terminated c' = true) ∧
  (∀ o, Abortable_poll F_poll me c cx h = Ret (Ready (Ok o), c', h') →
    is_terminated c' = false).
Proof.
  unfold Cancelable_poll, Abortable_poll. split_and!; intros r Hp; by run_all.
Qed.

(** ** The properties at concrete heaps *)

(** Runs a list of actions, each of them legal. *)
Definition legal_dec (w : world) (a : act) : Decision (legal w a).
Proof. destruct a; simpl; apply _. Defined.
Local Existing Instance legal_dec.

Fixpoint run (w : world) (acts : list act) : outcome world :=
  match acts with
  | [] => Ret w
  | a :: acts' =>
      if decide (legal w a) then '(w', _, _) ← exec w a; run w' acts'
      else Panic Unreachable
  end.

Lemma node_run_reachable acts w w' :
  reachable w → run w acts = Ret w' → reachable w'.
Proof.
  revert w. induction acts as [|a acts IH]; simpl; intros w Hw Hrun.
  - by injection Hrun as <-.
  - case_decide as Hl; [|done].
    apply bind_Ret_inv in Hrun as ([[w1 woken] r] & Hex & Hrun).
    eapply IH; [|exact Hrun]. by eapply reach_act.
Qed.

(** One handle at 10 with three futures, of which the middle one was dropped. *)
Definition three_futures : list act :=
  [NewHandle 10; NewNode 11; Register 11 1 10; NewNode 12; Register 12 2 10;
   NewNode 13; Register 13 3 10; DropNode 12].

Definition world_after (acts : list act) : world :=
  match run (mkWorld ∅ ∅) acts with Ret w => w | Panic _ => mkWorld ∅ ∅ end.

Lemma world_after_reachable acts : reachable (world_after acts).
Proof.
  unfold world_after. destruct (run _ acts) as [w|] eqn:Hrun; [|constructor].
  eapply node_run_reachable; [constructor|exact Hrun].
Qed.

Lemma list_refines_registry_witness :
  ∃ rs w' woken r rs',
    inv (world_after three_futures) rs ∧
    exec (world_after three_futures) (CancelHandle 10) = Ret (w', woken, r) ∧
    astep rs (CancelHandle 10) rs' woken r ∧ inv w' rs'.
Proof.
  apply (list_refines_registry (world_after three_futures) (CancelHandle 10)).
  - apply world_after_reachable.
  - apply (bool_decide_unpack _). vm_compute. exact I.
Defined.

(** A handle at 10 with one future at 11. *)
Definition one_future : world :=
  mkWorld (<[10 := Linked Head 11 11]> (<[11 := Linked (Item 1) 10 10]> ∅)) {[10]}.

Lemma one_future_inv : inv one_future [Handle 10 [(11, 1)]].
Proof.
  split.
  - apply (bool_decide_unpack _). vm_compute. exact I.
  - constructor; [|constructor]. apply ring1_ring; [simpl; lia|].
    apply ring_head. split_and!; try done.
    apply (bool_decide_unpack _). vm_compute. exact I.
  - intros x [n Hx]. simpl in Hx. unfold all_locs. simpl.
    apply lookup_insert_Some in Hx as [[<- _]|[_ Hx]]; [by left|].
    apply lookup_insert_Some in Hx as [[<- _]|[_ Hx]]; [by right; left|].
    by rewrite lookup_empty in Hx.
  - constructor; [|constructor]. simpl. split; [set_solver|].
    intros x ->%list_elem_of_singleton. set_solver.
Qed.

Lemma cancel_resolves_all_example :
  ∃ w', exec one_future (CancelHandle 10) = Ret (w', [1], Ok tt) ∧
    Cancelable_poll (λ (_ : unit) _ h, Ret (Ready 5, tt, h)) (λ _ h, Ret h) 11
      (CPending tt Registered) 0 (w_heap w') =
    Ret (Ready (Err canceled), Terminated, delete 11 (w_heap w')).
Proof.
  destruct (cancel_resolves_all one_future 10 [(11, 1)] [] one_future_inv)
    as (w' & Hex & Hres).
  exists w'. split; [exact Hex|].
  destruct (Hres 11 1) as [_ Hpoll]; [by left|]. apply Hpoll.
Qed.

Definition never (f : unit) (cx : waker) (h : heap) : outcome (poll nat * unit * heap) :=
  Ret (Pending, f, h).

Lemma pending_poll_registers_example :
  ∃ c' h', Cancelable_poll never (λ _ h, Ret h) 11 (Cancelable_new tt 10) 7
      {[10 := Unlinked]} = Ret (Pending, c', h') ∧
    c' = CPending tt Registered ∧ ∃ prev next, h' !! 11 = Some (Linked (Item 7) prev next).
Proof.
  destruct (Cancelable_poll never (λ _ h, Ret h) 11 (Cancelable_new tt 10) 7
    {[10 := Unlinked]}) as [[[[r|] c'] h']|] eqn:Hp; [|..].
  - vm_compute in Hp. discriminate Hp.
  - exists c', h'. split; [done|].
    destruct (pending_poll_registers _ _ _ _ _ _ _ _ _ Hp) as ([] & Hc & [Hn|[Hr _]]).
    + done.
    + discriminate Hr.
  - vm_compute in Hp. discriminate Hp.
Qed.

Lemma fused_after_completion_example :
  ∃ c' h', Cancelable_poll never (λ _ h, Ret h) 11 (Cancelable_new tt 10) 7
      {[10 := NCanceled]} = Ret (Ready (Err canceled), c', h') ∧ is_terminated c' = true.
Proof.
  eexists _, _. split; [reflexivity|].
  destruct (fused_after_completion never (λ _ h, Ret h) 11 (Cancelable_new tt 10) 7
    {[10 := NCanceled]} Terminated {[10 := NCanceled]}) as (Hc & _ & _).
  by apply (Hc (Err canceled)).
Qed.
