(* ===== verification/WebTimers.v ===== *)
(** [core/web_timeout.rs]: [WebTimers], the timers behind [setTimeout] and
    [setInterval], with the loop of [core/runtime/jsruntime.rs] that fires them.

    Holds the ordered set of deadlines with its tombstones, the map of timer
    data, the reference and high-resolution counters and the sleep that wakes the
    event loop; the configuration is the one that keeps the high-resolution lock
    (Windows and tests).  Instants are nanoseconds since an arbitrary epoch;
    [instant_max] is the largest one the platform's clock represents. *)

From stdpp Require Import sorting.
From S2P Require Import Prelude.
Local Open Scope Z_scope.

Abbreviation waker := nat.
Abbreviation WebTimerId := Z.

Definition COMPACTION_MINIMUM : Z := 16.
Definition LOW_RES_TIMER_RESOLUTION : Z := 100.

(** * Keys *)

Inductive TimerType :=
  | Repeat (interval : Z)
  | Once.
Global Instance TimerType_eq_dec : EqDecision TimerType.
Proof. solve_decision. Defined.

Record TimerKey := mkKey {
  k_deadline : Z;
  k_id : WebTimerId;
  k_type : TimerType;
  k_system : bool
}.
Global Instance TimerKey_eq_dec : EqDecision TimerKey.
Proof. solve_decision. Defined.

(** The derived orders: constructors in source order, then their fields. *)
Definition type_lt (a b : TimerType) : bool :=
  match a, b with
  | Repeat n, Repeat m => n <? m
  | Repeat _, Once => true
  | Once, _ => false
  end.

Definition key_lt (a b : TimerKey) : bool :=
  (k_deadline a <? k_deadline b)
  || ((k_deadline a =? k_deadline b)
      && ((k_id a <? k_id b)
          || ((k_id a =? k_id b)
              && (type_lt (k_type a) (k_type b)
                  || (bool_decide (k_type a = k_type b)
                      && (negb (k_system a) && k_system b)))))).

(** [BTreeSet]: its elements in increasing order. *)
Fixpoint btree_insert (k : TimerKey) (l : list TimerKey) : list TimerKey :=
  match l with
  | [] => [k]
  | x :: r =>
      if key_lt k x then k :: l
      else if decide (k = x) then l
      else x :: btree_insert k r
  end.

(** [split_off k]: what stays (the elements below [k]) and what is returned. *)
Definition split_off (k : TimerKey) (l : list TimerKey) :
    list TimerKey * list TimerKey :=
  (filter (λ x, key_lt x k = true) l, filter (λ x, key_lt x k = false) l).

(** * State *)

Record TimerData (T : Type) := mkData { data : T; unrefd : bool; high_res : bool }.
Arguments mkData {T} _ _ _.
Arguments data {T} _.
Arguments unrefd {T} _.
Arguments high_res {T} _.

(** The sleep armed with the reactor is known by its deadline. *)
Record MutableSleep := mkSleep {
  sleep_timer : option Z;
  ready : bool;
  external_waker : option waker
}.

Record WebTimers (T : Type) := mkTimers {
  next_id : Z;
  timers : list TimerKey;
  data_map : gmap WebTimerId (TimerData T);
  unrefd_count : Z;
  sleep : MutableSleep;
  lock_count : Z
}.
Arguments mkTimers {T} _ _ _ _ _ _.
Arguments next_id {T} _.
Arguments timers {T} _.
Arguments data_map {T} _.
Arguments unrefd_count {T} _.
Arguments sleep {T} _.
Arguments lock_count {T} _.

(** * The sleep *)

Definition MutableSleep_new : MutableSleep := mkSleep None false None.

(** [MutableSleepWaker::wake_by_ref]. *)
Definition internal_wake (s : MutableSleep) : MutableSleep * list waker :=
  (mkSleep (sleep_timer s) true (external_waker s),
   match external_waker s with Some w => [w] | None => [] end).

Definition poll_ready (now : Z) (cx : waker) (s : MutableSleep) :
    poll unit * MutableSleep :=
  if ready s then (Ready tt, mkSleep (sleep_timer s) false (external_waker s))
  else
    match external_waker s with
    | Some external =>
        let external' := if decide (external = cx) then external else cx in
        let s' := mkSleep (sleep_timer s) (ready s) (Some external') in
        match sleep_timer s with
        | Some deadline =>
            if deadline <=? now then (Ready tt, s') else (Pending, s')
        | None => (Pending, s')
        end
    | None => (Pending, mkSleep (sleep_timer s) (ready s) (Some cx))
    end.

Definition sleep_clear (s : MutableSleep) : MutableSleep :=
  mkSleep None false (external_waker s).

(** [change]: the new timer is polled once with the internal waker; [reactor]
    is the answer of that poll for each deadline. *)
Definition change (reactor : Z → bool) (deadline : Z) (s : MutableSleep) :
    MutableSleep * list waker :=
  let s' := mkSleep (Some deadline) (ready s) (external_waker s) in
  if reactor deadline then
    internal_wake (mkSleep (Some deadline) true (external_waker s))
  else (s', []).

(** * The high-resolution lock *)

Definition maybe_unlock (p : profile) (high_res : bool) (lock_count : Z) :
    outcome Z :=
  if high_res then
    _ ← debug_assert p (0 <? lock_count);
    sub_w p 64 lock_count 1
  else Ret lock_count.

Definition maybe_lock (p : profile) (timeout_ms lock_count : Z) :
    outcome (bool * Z) :=
  if timeout_ms <=? LOW_RES_TIMER_RESOLUTION then
    n ← add_w p 64 lock_count 1; Ret (true, n)
  else Ret (false, lock_count).

Definition is_locked (lock_count : Z) : bool := 0 <? lock_count.

(** * Operations *)

Section operations.
Context (p : profile) (instant_max : Z) {T : Type}.
Implicit Types s : WebTimers T.

(** [ReactorInstant::checked_add] of a duration in milliseconds. *)
Definition checked_add (i ms : Z) : option Z :=
  if decide (i + ms * 1000000 <= instant_max) then Some (i + ms * 1000000) else None.

Definition WebTimers_new : WebTimers T :=
  mkTimers 0 [] ∅ 0 MutableSleep_new 0.

Definition has_pending s : bool :=
  match timers s with [] => false | _ => true end.

(** [WebTimersIterator]: the live timers with their repeat and system flags. *)
Definition iter s : list (WebTimerId * bool * bool) :=
  omap (λ k, match data_map s !! k_id k with
             | Some _ =>
                 Some (k_id k,
                       match k_type k with Once => false | Repeat _ => true end,
                       k_system k)
             | None => None
             end) (timers s).

Definition ref_timer (id : WebTimerId) s : outcome (WebTimers T) :=
  match data_map s !! id with
  | Some td =>
      let m := <[id := mkData (data td) false (high_res td)]> (data_map s) in
      n ← (if unrefd td then sub_w p 64 (unrefd_count s) 1 else Ret (unrefd_count s));
      Ret (mkTimers (next_id s) (timers s) m n (sleep s) (lock_count s))
  | None => Ret s
  end.

Definition unref_timer (id : WebTimerId) s : outcome (WebTimers T) :=
  match data_map s !! id with
  | Some td =>
      let m := <[id := mkData (data td) true (high_res td)]> (data_map s) in
      n ← (if unrefd td then Ret (unrefd_count s) else add_w p 64 (unrefd_count s) 1);
      Ret (mkTimers (next_id s) (timers s) m n (sleep s) (lock_count s))
  | None => Ret s
  end.

Definition queue_timer_internal (now : Z) (reactor : Z → bool)
    (repeat : bool) (timeout_ms : Z) (d : T) (is_system_timer : bool) s :
    outcome (WebTimerId * WebTimers T * list waker) :=
  '(hr, locks) ← maybe_lock p timeout_ms (lock_count s);
  id ← add_w p 64 (next_id s) 1;
  deadline ← unwrap (checked_add now timeout_ms);
  let '(sl, woken) :=
    match timers s with
    | k :: _ =>
        if deadline <? k_deadline k then change reactor deadline (sleep s)
        else (sleep s, [])
    | [] => change reactor deadline (sleep s)
    end in
  let timer_type :=
    if repeat then Repeat (if timeout_ms =? 0 then 1 else timeout_ms) else Once in
  Ret (id,
       mkTimers id
         (btree_insert (mkKey deadline id timer_type is_system_timer) (timers s))
         (<[id := mkData d false hr]> (data_map s))
         (unrefd_count s) sl locks,
       woken).

Definition queue_timer now reactor timeout_ms d s :=
  queue_timer_internal now reactor false timeout_ms d false s.
Definition queue_timer_repeat now reactor timeout_ms d s :=
  queue_timer_internal now reactor true timeout_ms d false s.
Definition queue_system_timer now reactor repeat timeout_ms d s :=
  queue_timer_internal now reactor repeat timeout_ms d true s.

(** The tail shared by [cancel_timer] and [take_fired_timer]: [m] is the map
    without the timer whose data is [td]. *)
Definition removed (m : gmap WebTimerId (TimerData T)) (td : TimerData T) s :
    outcome (WebTimers T) :=
  if decide (m = ∅) then
    Ret (mkTimers (next_id s) [] m 0 (sleep_clear (sleep s)) 0)
  else
    locks ← maybe_unlock p (high_res td) (lock_count s);
    n ← (if unrefd td then sub_w p 64 (unrefd_count s) 1 else Ret (unrefd_count s));
    Ret (mkTimers (next_id s) (timers s) m n (sleep s) locks).

Definition cancel_timer (timer : WebTimerId) s : outcome (option T * WebTimers T) :=
  match data_map s !! timer with
  | Some td =>
      let m := delete timer (data_map s) in
      _ ← (if decide (m = ∅) then
             _ ← debug_assert p (unrefd_count s =? (if unrefd td then 1 else 0));
             debug_assert p (bool_decide (is_locked (lock_count s) = high_res td))
           else Ret tt);
      s' ← removed m td s;
      Ret (Some (data td), s')
  | None => Ret (None, s)
  end.

(** The loop over the elapsed keys: the re-armed set, the timers to fire and
    how many of them fire once. *)
Fixpoint fire_loop (now : Z) (m : gmap WebTimerId (TimerData T))
    (split timers : list TimerKey) :
    outcome (list TimerKey * list (WebTimerId * TimerType) * Z) :=
  match split with
  | [] => Ret (timers, [], 0)
  | k :: split' =>
      match m !! k_id k with
      | None => fire_loop now m split' timers
      | Some _ =>
          match k_type k with
          | Repeat interval =>
              d ← unwrap (checked_add now interval);
              '(ts, output, n) ← fire_loop now m split'
                (btree_insert (mkKey d (k_id k) (k_type k) (k_system k)) timers);
              Ret (ts, (k_id k, k_type k) :: output, n)
          | Once =>
              '(ts, output, n) ← fire_loop now m split' timers;
              n' ← add_w p 64 n 1;
              Ret (ts, (k_id k, k_type k) :: output, n')
          end
      end
  end.

(** The front compaction of an ineffective poll. *)
Fixpoint compact_front (m : gmap WebTimerId (TimerData T)) (l : list TimerKey) :
    list TimerKey :=
  match l with
  | k :: r => match m !! k_id k with Some _ => l | None => compact_front m r end
  | [] => []
  end.

Definition rearm (reactor : Z → bool) (l : list TimerKey) (sl : MutableSleep) :
    MutableSleep * list waker :=
  match l with
  | k :: _ => change reactor (k_deadline k) sl
  | [] => (sl, [])
  end.

(** [now0] and [now] are the two readings of the clock a poll makes. *)
Definition poll_timers (now0 now : Z) (reactor : Z → bool) (cx : waker) s :
    outcome (poll (list (WebTimerId * TimerType)) * WebTimers T * list waker) :=
  let '(r, sl) := poll_ready now0 cx (sleep s) in
  let m := data_map s in
  let ret ts sl := mkTimers (next_id s) ts m (unrefd_count s) sl (lock_count s) in
  match r with
  | Pending => Ret (Pending, ret (timers s) sl, [])
  | Ready _ =>
      let '(split, rest) := split_off (mkKey now 0 Once false) (timers s) in
      '(ts, output, fired_once_count) ← fire_loop now m split rest;
      match output with
      | [] =>
          _ ← debug_assert p (bool_decide (m ≠ ∅));
          let ts' := compact_front m ts in
          let '(sl', woken) := rearm reactor ts' sl in
          Ret (Pending, ret ts' sl', woken)
      | _ =>
          pending_data_count ← sub_w p 64 (Z.of_nat (size m)) fired_once_count;
          if pending_data_count =? 0 then
            Ret (Ready output, ret [] (sleep_clear sl), [])
          else
            tombstone_count ← sub_w p 64 (Z.of_nat (length ts)) pending_data_count;
            let ts' := if COMPACTION_MINIMUM <? tombstone_count
                       then filter (λ k, is_Some (m !! k_id k)) ts else ts in
            let '(sl', woken) := rearm reactor ts' sl in
            Ret (Ready output, ret ts' sl', woken)
      end
  end.

Definition take_fired_timer (id : WebTimerId) (timer_type : TimerType) s :
    outcome (option T * WebTimers T) :=
  match timer_type with
  | Repeat _ => Ret (data <$> data_map s !! id, s)
  | Once =>
      match data_map s !! id with
      | None => Ret (None, s)
      | Some td =>
          s' ← removed (delete id (data_map s)) td s;
          Ret (Some (data td), s')
      end
  end.

Definition timers_is_empty s : bool := bool_decide (data_map s = ∅).
Definition len s : Z := Z.of_nat (size (data_map s)).
Definition unref_len s : Z := unrefd_count s.
Definition has_pending_timers s : bool := unref_len s <? len s.
End operations.

(** * The event loop as the client

    [dispatch_timers] takes every timer of a poll before it polls again; between
    two takes, callbacks run and queue, cancel, ref and unref timers.  [s_fired]
    holds the expired timers of the current dispatch that are still to be taken. *)

Record sys (T : Type) := mkSys {
  s_timers : WebTimers T;
  s_fired : list (WebTimerId * TimerType)
}.
Arguments mkSys {T} _ _.
Arguments s_timers {T} _.
Arguments s_fired {T} _.

Inductive action (T : Type) :=
  | AQueue (now : Z) (reactor : Z → bool) (repeat : bool) (timeout_ms : Z) (d : T)
      (is_system_timer : bool)
  | ACancel (id : WebTimerId)
  | ARef (id : WebTimerId)
  | AUnref (id : WebTimerId)
  | APoll (now0 now : Z) (reactor : Z → bool) (cx : waker)
  | ATake
  | AFire.  (** the reactor wakes the sleep it armed *)
Arguments AQueue {T} _ _ _ _ _ _.
Arguments ACancel {T} _.
Arguments ARef {T} _.
Arguments AUnref {T} _.
Arguments APoll {T} _ _ _ _.
Arguments ATake {T}.
Arguments AFire {T}.

(** What a step hands to its caller. *)
Inductive event (T : Type) :=
  | Queued (id : WebTimerId)
  | Cancelled (id : WebTimerId) (d : option T)
  | Expired (r : poll (list (WebTimerId * TimerType)))
  | Taken (id : WebTimerId) (ty : TimerType) (d : option T).
Arguments Queued {T} _.
Arguments Cancelled {T} _ _.
Arguments Expired {T} _.
Arguments Taken {T} _ _ _.

Section system.
Context (p : profile) (instant_max : Z) {T : Type}.
Implicit Types (s : sys T) (a : action T).

(** Timeouts are [u64]; a deadline must be representable ([checked_add] is
    unwrapped) and the identifiers must not run out.  A poll waits until the
    timers of the previous one were taken. *)
Definition legal s a : Prop :=
  match a with
  | AQueue now _ _ timeout_ms _ _ =>
      next_id (s_timers s) + 1 < 2 ^ 64 ∧ 0 <= timeout_ms < 2 ^ 64 ∧
      now + timeout_ms * 1000000 <= instant_max
  | APoll _ now _ _ =>
      s_fired s = [] ∧
      Forall (λ k, match k_type k with
                   | Repeat interval => now + interval * 1000000 <= instant_max
                   | Once => True
                   end) (timers (s_timers s))
  | ATake => s_fired s ≠ []
  | AFire => is_Some (sleep_timer (sleep (s_timers s)))
  | _ => True
  end.

Definition exec s a : outcome (sys T * list (event T) * list waker) :=
  let t := s_timers s in
  match a with
  | AQueue now reactor repeat timeout_ms d sy =>
      '(id, t', woken) ←
        queue_timer_internal p instant_max now reactor repeat timeout_ms d sy t;
      Ret (mkSys t' (s_fired s), [Queued id], woken)
  | ACancel id =>
      '(o, t') ← cancel_timer p id t;
      Ret (mkSys t' (s_fired s), [Cancelled id o], [])
  | ARef id => t' ← ref_timer p id t; Ret (mkSys t' (s_fired s), [], [])
  | AUnref id => t' ← unref_timer p id t; Ret (mkSys t' (s_fired s), [], [])
  | APoll now0 now reactor cx =>
      '(r, t', woken) ← poll_timers p instant_max now0 now reactor cx t;
      Ret (mkSys t' (match r with Ready l => l | Pending => [] end), [Expired r], woken)
  | ATake =>
      match s_fired s with
      | [] => Ret (s, [], [])
      | (id, ty) :: fired =>
          '(o, t') ← take_fired_timer p id ty t;
          Ret (mkSys t' fired, [Taken id ty o], [])
      end
  | AFire =>
      let '(sl, woken) := internal_wake (sleep t) in
      Ret (mkSys (mkTimers (next_id t) (timers t) (data_map t) (unrefd_count t) sl
                    (lock_count t)) (s_fired s), [], woken)
  end.

Definition init : sys T := mkSys WebTimers_new [].

(** Runs of legal actions, with the events they produce. *)
Inductive runs : sys T → list (event T) → sys T → Prop :=
  | runs_nil s : runs s [] s
  | runs_step s a s1 ev woken evs s2 :
      legal s a → exec s a = Ret (s1, ev, woken) → runs s1 evs s2 →
      runs s (ev ++ evs) s2.

Definition reachable s : Prop := ∃ evs, runs init evs s.
End system.

(** * Counting entries of the data map *)

Section counting.
Context {T : Type}.
Implicit Types (m : gmap WebTimerId (TimerData T)) (f : TimerData T → bool).

Definition count f m : Z := Z.of_nat (size (filter (λ kv, f kv.2 = true) m)).

Lemma count_insert f m id x :
  m !! id = None → count f (<[id := x]> m) = count f m + Z.b2z (f x).
Proof.
  intros Hid. unfold count. destruct (f x) eqn:Hf; simpl.
  - rewrite map_filter_insert_True by done.
    rewrite map_size_insert_None; [lia|].
    apply map_lookup_filter_None. auto.
  - rewrite map_filter_insert_False by (simpl; congruence).
    rewrite delete_id by done. lia.
Qed.

Lemma count_delete f m id x :
  m !! id = Some x → count f (delete id m) = count f m - Z.b2z (f x).
Proof.
  intros Hid. rewrite <- (insert_delete_id m id x Hid) at 2.
  rewrite count_insert by apply lookup_delete_eq. lia.
Qed.

Lemma count_update f m id x y :
  m !! id = Some x →
  count f (<[id := y]> m) = count f m - Z.b2z (f x) + Z.b2z (f y).
Proof.
  intros Hid. rewrite <- insert_delete_eq.
  rewrite count_insert by apply lookup_delete_eq.
  by rewrite (count_delete f m id x Hid).
Qed.

Lemma count_empty f : count f ∅ = 0.
Proof. unfold count. by rewrite map_filter_empty, map_size_empty. Qed.

Lemma count_range f m : 0 <= count f m <= Z.of_nat (size m).
Proof.
  unfold count. split; [lia|]. apply Nat2Z.inj_le, map_subseteq_size, map_filter_subseteq.
Qed.

Lemma count_member f m id x : m !! id = Some x → f x = true → 1 <= count f m.
Proof.
  intros Hid Hf. pose proof (count_delete f m id x Hid) as Hd.
  pose proof (count_range f (delete id m)). rewrite Hf in Hd. simpl in Hd. lia.
Qed.

(** Every entry is counted exactly when [f] holds of all of them. *)
Lemma count_all f m :
  count f m = Z.of_nat (size m) ↔ ∀ id x, m !! id = Some x → f x = true.
Proof.
  split.
  - intros Hc id x Hid. destruct (f x) eqn:Hf; [done|].
    pose proof (count_delete f m id x Hid) as Hd. rewrite Hf in Hd.
    pose proof (count_range f (delete id m)).
    assert (size m = S (size (delete id m))) as Hs.
    { rewrite <- (insert_delete_id m id x Hid) at 1.
      apply map_size_insert_None, lookup_delete_eq. }
    simpl in Hd. lia.
  - intros Hf. unfold count. rewrite map_filter_id; [done|].
    intros i x Hi. by apply (Hf i).
Qed.
End counting.

(** Maps whose keys are identifiers up to [n] have at most [n] entries. *)
Lemma size_ids {A} (m : gmap Z A) n :
  0 <= n → (∀ id, is_Some (m !! id) → 1 <= id <= n) → Z.of_nat (size m) <= n.
Proof.
  intros Hn Hm. rewrite <- size_dom.
  assert (dom m ⊆ list_to_set (seqZ 1 n)) as Hsub%subseteq_size.
  { intros i Hi%elem_of_dom. apply elem_of_list_to_set, elem_of_seqZ.
    specialize (Hm i Hi). lia. }
  rewrite size_list_to_set in Hsub by apply NoDup_seqZ.
  rewrite length_seqZ in Hsub. lia.
Qed.

(** * The order of the set

    Identifiers are unique in the set, so the derived order of keys is the order
    of deadlines, then of identifiers. *)

Definition before (a b : TimerKey) : Prop :=
  k_deadline a < k_deadline b ∨ (k_deadline a = k_deadline b ∧ k_id a < k_id b).

Global Instance before_trans : Transitive before.
Proof. unfold before. intros x y z. lia. Qed.

Abbreviation sorted := (StronglySorted before).
Abbreviation ids l := (k_id <$> (l : list TimerKey)).

Lemma key_lt_before a b : k_id a ≠ k_id b → key_lt a b = true ↔ before a b.
Proof.
  intros Hid. unfold key_lt, before.
  rewrite (proj2 (Z.eqb_neq (k_id a) (k_id b))) by done.
  rewrite !orb_true_iff, !andb_true_iff, !orb_true_iff, Z.eqb_eq, !Z.ltb_lt.
  intuition lia.
Qed.

Lemma before_total a b : k_id a ≠ k_id b → ¬ before a b → before b a.
Proof. unfold before. lia. Qed.

Lemma btree_insert_perm k l : k_id k ∉ ids l → btree_insert k l ≡ₚ k :: l.
Proof.
  induction l as [|x l IH]; simpl; [done|].
  intros [Hx Hl]%not_elem_of_cons. destruct (key_lt k x); [done|].
  rewrite decide_False by congruence. rewrite IH by done. constructor.
Qed.

Lemma btree_insert_sorted k l : k_id k ∉ ids l → sorted l → sorted (btree_insert k l).
Proof.
  intros Hk Hs. induction Hs as [|x l Hs IH Hx]; simpl in *; [repeat constructor|].
  apply not_elem_of_cons in Hk as [Hkx Hk].
  destruct (key_lt k x) eqn:Hlt.
  - apply key_lt_before in Hlt; [|done]. constructor; [by constructor|].
    constructor; [done|]. eapply Forall_impl; [exact Hx|]. intros y. by transitivity x.
  - rewrite decide_False by congruence. constructor; [auto|].
    rewrite btree_insert_perm by done. constructor; [|done].
    apply before_total; [done|]. rewrite <- key_lt_before by done. by rewrite Hlt.
Qed.

Lemma pivot_lt now k : 1 <= k_id k →
  key_lt k (mkKey now 0 Once false) = bool_decide (k_deadline k < now).
Proof.
  intros Hid. apply eq_true_iff_eq.
  rewrite key_lt_before by (simpl; lia). rewrite bool_decide_eq_true.
  unfold before. simpl. lia.
Qed.

(** Sorted lists with the same elements are equal, so a set is determined by
    its keys. *)
Lemma sorted_perm_eq l l' : sorted l → sorted l' → l ≡ₚ l' → l = l'.
Proof.
  intros Hs. revert l'. induction Hs as [|x l Hs IH Hx]; intros l' Hs' Hp.
  { by apply Permutation_nil_l in Hp. }
  destruct Hs' as [|y l' Hs' Hy]; [by apply Permutation_nil_r in Hp|].
  assert (x = y) as ->.
  { assert (x ∈ y :: l') as Hxy by (rewrite <- Hp; constructor).
    assert (y ∈ x :: l) as Hyx by (rewrite Hp; constructor).
    apply elem_of_cons in Hxy as [?|Hxy], Hyx as [?|Hyx]; try done.
    rewrite Forall_forall in Hx, Hy. specialize (Hx y Hyx). specialize (Hy x Hxy).
    unfold before in *. lia. }
  f_equal. apply IH; [done|]. by apply Permutation_cons_inv in Hp.
Qed.

Lemma sorted_filter (P : TimerKey → Prop) `{!∀ k, Decision (P k)} l :
  sorted l → sorted (filter P l).
Proof.
  induction 1 as [|x l Hs IH Hx]; [constructor|]. rewrite filter_cons.
  case_decide; [|done]. constructor; [done|].
  rewrite Forall_forall in *. intros y [_ Hy]%list_elem_of_filter. auto.
Qed.

Lemma ids_filter_sub (P : TimerKey → Prop) `{!∀ k, Decision (P k)} l id :
  id ∈ ids (filter P l) → id ∈ ids l.
Proof.
  rewrite !list_elem_of_fmap. intros (k & -> & [_ Hk]%list_elem_of_filter). eauto.
Qed.

Lemma NoDup_ids_filter (P : TimerKey → Prop) `{!∀ k, Decision (P k)} l :
  NoDup (ids l) → NoDup (ids (filter P l)).
Proof.
  induction l as [|x l IH]; [done|]. rewrite filter_cons. simpl.
  intros [Hx Hl]%NoDup_cons. case_decide; [|auto]. simpl. constructor; [|auto].
  intros Hid. by apply ids_filter_sub in Hid.
Qed.

(** * Firing *)

Section firing.
Context (instant_max : Z) {T : Type}.
Implicit Types (m : gmap WebTimerId (TimerData T)) (l : list TimerKey).

Abbreviation live m := (λ k, is_Some (m !! k_id k)).

(** The keys that expire at [now], what they give to the caller and how
    repeating timers are re-armed. *)
Definition elapsed (now : Z) l : list TimerKey := filter (λ k, k_deadline k < now) l.
Definition to_fire l : list (WebTimerId * TimerType) := (λ k, (k_id k, k_type k)) <$> l.
Definition rearmed (now : Z) l : list TimerKey :=
  omap (λ k, match k_type k with
             | Repeat interval =>
                 Some (mkKey (now + interval * 1000000) (k_id k) (k_type k) (k_system k))
             | Once => None
             end) l.
Definition once_count l : Z :=
  Z.of_nat (length (filter (λ k, k_type k = Once) l)).

Local Arguments rearmed : simpl never.

Lemma ids_rearmed now l id :
  id ∈ ids (rearmed now l) → ∃ k, k ∈ l ∧ k_id k = id ∧ k_type k ≠ Once.
Proof.
  intros (k' & -> & Hk')%list_elem_of_fmap. apply list_elem_of_omap in Hk' as (k & Hk & He).
  exists k. destruct (k_type k) eqn:?; [|done]. by simplify_eq/=.
Qed.

Lemma rearmed_cons now k l :
  rearmed now (k :: l) =
    match k_type k with
    | Repeat interval =>
        mkKey (now + interval * 1000000) (k_id k) (k_type k) (k_system k) :: rearmed now l
    | Once => rearmed now l
    end.
Proof. unfold rearmed. simpl. by destruct (k_type k). Qed.

Lemma once_count_cons k l :
  once_count (k :: l) = once_count l + (if decide (k_type k = Once) then 1 else 0).
Proof. unfold once_count. rewrite filter_cons. case_decide; simpl; lia. Qed.

Lemma NoDup_ids_rearmed now l : NoDup (ids l) → NoDup (ids (rearmed now l)).
Proof.
  induction l as [|k l IH]; [done|]. rewrite rearmed_cons. simpl.
  intros [Hk Hl]%NoDup_cons. destruct (k_type k); [|auto]. simpl. constructor; [|auto].
  intros Hid. apply ids_rearmed in Hid as (k' & Hk' & He & _). apply Hk.
  rewrite <- He. apply list_elem_of_fmap. eauto.
Qed.

Lemma fire_loop_spec now m split l p :
  Forall (λ k, match k_type k with
               | Repeat interval => now + interval * 1000000 <= instant_max
               | Once => True
               end) split →
  NoDup (ids split) → (∀ id, id ∈ ids split → id ∉ ids l) →
  Z.of_nat (length split) < 2 ^ 64 → sorted l →
  ∃ l', fire_loop p instant_max now m split l =
          Ret (l', to_fire (filter (live m) split), once_count (filter (live m) split)) ∧
        sorted l' ∧ l' ≡ₚ rearmed now (filter (live m) split) ++ l.
Proof.
  revert l. induction split as [|k split IH]; intros l Hfit Hnd Hdis Hlen Hs.
  { exists l. done. }
  apply Forall_cons in Hfit as [Hk Hfit]. apply NoDup_cons in Hnd as [Hknd Hnd].
  assert (k_id k ∉ ids l) as Hkl by (apply Hdis; left).
  simpl in Hlen. rewrite filter_cons. simpl.
  destruct (m !! k_id k) as [td|] eqn:Hm.
  2:{ rewrite decide_False by (intros []; congruence).
      apply IH; [done..| |lia|done]. intros id ?. apply Hdis. by right. }
  rewrite decide_True by done. rewrite once_count_cons.
  destruct (k_type k) as [interval|] eqn:Hty; simpl in *.
  - unfold checked_add. rewrite decide_True by done. simpl.
    set (k' := mkKey (now + interval * 1000000) (k_id k) (Repeat interval) (k_system k)).
    rewrite <- Hty.
    destruct (IH (btree_insert k' l)) as (l' & -> & Hs' & Hp); [done..| |lia| |].
    { intros id Hid. rewrite btree_insert_perm by done. simpl.
      apply not_elem_of_cons. split; [by intros ->|]. apply Hdis. by right. }
    { by apply btree_insert_sorted. }
    exists l'. simpl. rewrite Hty. split; [do 2 f_equal; lia|]. split; [done|].
    rewrite Hp, btree_insert_perm by done. rewrite rearmed_cons, Hty. simpl.
    by rewrite Permutation_middle.
  - destruct (IH l) as (l' & -> & Hs' & Hp); [done..| |lia|done|].
    { intros id Hid. apply Hdis. by right. }
    exists l'. simpl. rewrite add_w_fits; [by rewrite rearmed_cons, Hty|].
    unfold once_count. pose proof (length_filter (live m) split).
    pose proof (length_filter (λ k, k_type k = Once) (filter (live m) split)). lia.
Qed.
End firing.

(** * The invariant *)

Section invariant.
Context {T : Type}.
Implicit Types (s : WebTimers T) (fired : list (WebTimerId * TimerType)).

Record inv s fired : Prop := {
  i_sorted : sorted (timers s);
  i_ids : NoDup (ids (timers s));
  i_range : ∀ id, id ∈ ids (timers s) → 1 <= id <= next_id s;
  i_data : ∀ id, is_Some (data_map s !! id) →
    (1 <= id <= next_id s) ∧ (id ∈ ids (timers s) ∨ (id, Once) ∈ fired);
  i_fired : ∀ id, (id, Once) ∈ fired → (id <= next_id s) ∧ id ∉ ids (timers s);
  i_next : 0 <= next_id s < 2 ^ 64;
  i_unref : unrefd_count s = count unrefd (data_map s);
  i_lock : lock_count s = count high_res (data_map s);
  i_armed : match timers s with
            | k :: _ => ∃ d, sleep_timer (sleep s) = Some d ∧ d <= k_deadline k
            | [] => True
            end;
  i_idle : data_map s = ∅ →
    timers s = [] ∧ sleep_timer (sleep s) = None ∧ ready (sleep s) = false
}.

Lemma inv_size s fired : inv s fired → Z.of_nat (size (data_map s)) <= next_id s.
Proof.
  intros I. apply size_ids; [apply (i_next _ _ I)|]. intros id. apply (i_data _ _ I).
Qed.

Lemma inv_counts s fired f : inv s fired → 0 <= count f (data_map s) < 2 ^ 64.
Proof.
  intros I. pose proof (inv_size s fired I). pose proof (count_range f (data_map s)).
  pose proof (i_next _ _ I). lia.
Qed.

Lemma inv_length s fired : inv s fired → Z.of_nat (length (timers s)) <= next_id s.
Proof.
  intros I. rewrite <- (length_fmap k_id).
  pose proof (i_next _ _ I).
  assert ((list_to_set (ids (timers s)) : gset Z) ⊆ (list_to_set (seqZ 1 (next_id s)) : gset Z))
    as Hsub%subseteq_size.
  { intros i Hi%elem_of_list_to_set. apply elem_of_list_to_set, elem_of_seqZ.
    pose proof (i_range _ _ I i Hi). lia. }
  rewrite !size_list_to_set in Hsub by (apply NoDup_seqZ || apply (i_ids _ _ I)).
  rewrite length_seqZ in Hsub. lia.
Qed.

(** An identifier not handed out yet is unknown everywhere. *)
Lemma inv_fresh s fired id :
  inv s fired → next_id s < id →
  data_map s !! id = None ∧ (id ∉ ids (timers s)) ∧ (id, Once) ∉ fired.
Proof.
  intros I Hid. split; [|split].
  - apply eq_None_not_Some. intros H%(i_data _ _ I). lia.
  - intros H%(i_range _ _ I). lia.
  - intros H%(i_fired _ _ I). lia.
Qed.

Lemma inv_init : inv (WebTimers_new (T:=T)) [].
Proof.
  split; simpl; try done; try (by rewrite count_empty).
  - constructor.
  - constructor.
  - by intros id ?%elem_of_nil.
  - intros id [x Hx]. by rewrite lookup_empty in Hx.
  - by intros id ?%elem_of_nil.
Qed.

(** The operations on counters that the invariant justifies. *)
Lemma maybe_unlock_fits p b n : 1 <= n ∨ b = false → 
  maybe_unlock p b n = Ret (n - Z.b2z b).
Proof.
  intros Hn. unfold maybe_unlock. destruct b; simpl; [|f_equal; lia].
  destruct Hn as [Hn|]; [|done]. rewrite debug_assert_true by (apply Z.ltb_lt; lia).
  by step.
Qed.

Lemma unref_sub_fits p (b : bool) n : 1 <= n ∨ b = false →
  (if b then sub_w p 64 n 1 else Ret n) = Ret (n - Z.b2z b).
Proof.
  intros Hn. destruct b; simpl; [|f_equal; lia].
  destruct Hn as [Hn|]; [|done]. by rewrite sub_w_fits by lia.
Qed.

Lemma counted f (m : gmap WebTimerId (TimerData T)) id td :
  m !! id = Some td → 1 <= count f m ∨ f td = false.
Proof.
  intros Hid. destruct (f td) eqn:Hf; [left|by right]. by eapply count_member.
Qed.

(** The state left by [removed]: what the source's two branches have in common. *)
Definition without (id : WebTimerId) (td : TimerData T) s : WebTimers T :=
  let m := delete id (data_map s) in
  if decide (m = ∅) then mkTimers (next_id s) [] m 0 (sleep_clear (sleep s)) 0
  else mkTimers (next_id s) (timers s) m
         (unrefd_count s - Z.b2z (unrefd td)) (sleep s)
         (lock_count s - Z.b2z (high_res td)).

Lemma removed_spec p s fired id td :
  inv s fired → data_map s !! id = Some td →
  removed p (delete id (data_map s)) td s = Ret (without id td s).
Proof.
  intros I Hid. unfold removed, without. case_decide; [done|].
  rewrite maybe_unlock_fits by (rewrite (i_lock _ _ I); by eapply counted).
  rewrite unref_sub_fits by (rewrite (i_unref _ _ I); by eapply counted).
  done.
Qed.

Lemma inv_without s fired fired' id td :
  inv s fired → data_map s !! id = Some td →
  (∀ i, i ≠ id → (i, Once) ∈ fired ↔ (i, Once) ∈ fired') →
  ((id, Once) ∈ fired' → (id, Once) ∈ fired) →
  inv (without id td s) fired'.
Proof.
  intros I Hid Hf Hf'. unfold without. case_decide as He.
  - split; simpl; try done; try (by rewrite He, count_empty).
    + constructor.
    + constructor.
    + by intros i ?%elem_of_nil.
    + intros i [x Hx]. by rewrite He, lookup_empty in Hx.
    + intros i Hi. split; [|by intros ?%elem_of_nil].
      destruct (decide (i = id)) as [->|]; apply (i_fired _ _ I); [auto|by apply Hf].
    + apply (i_next _ _ I).
  - split; simpl; try apply I; try done.
    + intros i Hi. apply lookup_delete_is_Some in Hi as [Hne Hi].
      destruct (i_data _ _ I i Hi) as [? [?|?]]; split; auto. right. by apply Hf.
    + intros i Hi. destruct (decide (i = id)) as [->|]; apply (i_fired _ _ I); [auto|by apply Hf].
    + rewrite (count_delete _ _ _ td) by done. by rewrite (i_unref _ _ I).
    + rewrite (count_delete _ _ _ td) by done. by rewrite (i_lock _ _ I).
Qed.

Lemma cancel_timer_spec p s fired id :
  inv s fired →
  cancel_timer p id s =
    match data_map s !! id with
    | Some td => Ret (Some (data td), without id td s)
    | None => Ret (None, s)
    end.
Proof.
  intros I. unfold cancel_timer. destruct (data_map s !! id) as [td|] eqn:Hid; [|done].
  rewrite (removed_spec p s fired id td) by done. case_decide as He; [|done].
  assert (∀ f, count f (data_map s) = Z.b2z (f td)) as Hc.
  { intros f. pose proof (count_delete f _ _ _ Hid) as Hc.
    rewrite He, count_empty in Hc. lia. }
  rewrite !debug_assert_true; [done| |].
  - apply Z.eqb_eq. rewrite (i_unref _ _ I), Hc. by destruct (unrefd td).
  - apply bool_decide_eq_true. unfold is_locked. rewrite (i_lock _ _ I), Hc.
    by destruct (high_res td).
Qed.

Lemma inv_set_unrefd s fired id td b :
  inv s fired → data_map s !! id = Some td →
  inv (mkTimers (next_id s) (timers s)
         (<[id := mkData (data td) b (high_res td)]> (data_map s))
         (unrefd_count s - Z.b2z (unrefd td) + Z.b2z b) (sleep s) (lock_count s)) fired.
Proof.
  intros I Hid. split; simpl; try apply I.
  - intros i Hi. apply (i_data _ _ I). apply lookup_insert_is_Some in Hi as [<-|[_ Hi]]; eauto.
  - rewrite (count_update _ _ _ td) by done. by rewrite (i_unref _ _ I).
  - rewrite (count_update _ _ _ td) by done. rewrite (i_lock _ _ I). simpl. lia.
  - intros He. exfalso. by apply insert_non_empty in He.
Qed.
End invariant.

(** * Preservation *)

Section preservation.
Context (p : profile) (instant_max : Z) {T : Type}.
Implicit Types (s : WebTimers T) (fired : list (WebTimerId * TimerType)).

Definition timer_type_of (repeat : bool) (timeout_ms : Z) : TimerType :=
  if repeat then Repeat (if timeout_ms =? 0 then 1 else timeout_ms) else Once.

Lemma change_armed reactor d sl :
  sleep_timer (change reactor d sl).1 = Some d ∧
  external_waker (change reactor d sl).1 = external_waker sl.
Proof. unfold change. by destruct (reactor d). Qed.

(** Queueing: the new state, with its sleep described only as far as needed. *)
Lemma queue_timer_spec now reactor repeat ms d sy s fired :
  inv s fired → next_id s + 1 < 2 ^ 64 → now + ms * 1000000 <= instant_max →
  let id := next_id s + 1 in
  let k := mkKey (now + ms * 1000000) id (timer_type_of repeat ms) sy in
  ∃ sl woken locks,
    queue_timer_internal p instant_max now reactor repeat ms d sy s =
      Ret (id, mkTimers id (btree_insert k (timers s))
                 (<[id := mkData d false (ms <=? 100)]> (data_map s))
                 (unrefd_count s) sl locks, woken) ∧
    locks = lock_count s + Z.b2z (ms <=? 100) ∧
    match btree_insert k (timers s) with
    | k' :: _ => ∃ d, sleep_timer sl = Some d ∧ d <= k_deadline k'
    | [] => True
    end.
Proof.
  intros I Hid Hd id k. unfold queue_timer_internal, maybe_lock, LOW_RES_TIMER_RESOLUTION.
  pose proof (inv_counts s fired high_res I) as Hc. pose proof (inv_size s fired I).
  pose proof (count_range high_res (data_map s)). rewrite <- (i_lock _ _ I) in *.
  pose proof (i_armed _ _ I) as Harm.
  assert (k_id k ∉ ids (timers s)) as Hk by (apply (inv_fresh s fired); simpl; [done|lia]).
  set (q := match timers s with
            | x :: _ => if now + ms * 1000000 <? k_deadline x
                        then change reactor (now + ms * 1000000) (sleep s)
                        else (sleep s, [])
            | [] => change reactor (now + ms * 1000000) (sleep s)
            end).
  exists q.1, q.2, (lock_count s + Z.b2z (ms <=? 100)). split; [|split; [done|]].
  - unfold checked_add. rewrite (decide_True (P := _ <= instant_max)) by done.
    rewrite !(add_w_fits p 64 (next_id s)) by done.
    destruct (ms <=? 100); rewrite ?add_w_fits by lia; simpl; fold q id k;
      destruct q; rewrite ?Z.add_0_r; done.
  - unfold q. destruct (timers s) as [|x l] eqn:Hts; simpl in *.
    + exists (now + ms * 1000000). split; [|lia]. apply change_armed.
    + apply not_elem_of_cons in Hk as [Hkx Hk].
      destruct (key_lt k x) eqn:Hlt.
      * apply key_lt_before in Hlt; [|done]. unfold before in Hlt. simpl in *.
        destruct (Z.ltb_spec (now + ms * 1000000) (k_deadline x)).
        -- exists (now + ms * 1000000). split; [|lia]. apply change_armed.
        -- destruct Harm as (d' & ? & ?). exists d'. split; [done|lia].
      * rewrite decide_False by (intros He; apply Hkx; by rewrite <- He).
        destruct (Z.ltb_spec (now + ms * 1000000) (k_deadline x)).
        -- exfalso. apply not_true_iff_false in Hlt. apply Hlt, key_lt_before; [done|].
           unfold before. simpl. lia.
        -- done.
Qed.

Lemma inv_queue now repeat ms d sy s fired sl locks :
  inv s fired → next_id s + 1 < 2 ^ 64 →
  let id := next_id s + 1 in
  let k := mkKey (now + ms * 1000000) id (timer_type_of repeat ms) sy in
  locks = lock_count s + Z.b2z (ms <=? 100) →
  match btree_insert k (timers s) with
  | k' :: _ => ∃ d, sleep_timer sl = Some d ∧ d <= k_deadline k'
  | [] => True
  end →
  inv (mkTimers id (btree_insert k (timers s))
         (<[id := mkData d false (ms <=? 100)]> (data_map s))
         (unrefd_count s) sl locks) fired.
Proof.
  intros I Hid id k -> Harm.
  destruct (inv_fresh s fired id I) as (Hm & Hk & Hf); [lia|].
  pose proof (btree_insert_perm k (timers s) Hk) as Hp.
  assert (ids (btree_insert k (timers s)) ≡ₚ id :: ids (timers s)) as Hpi by by rewrite Hp.
  pose proof (i_next _ _ I).
  split; simpl; try done.
  - apply btree_insert_sorted; [done|]. apply I.
  - rewrite Hpi. constructor; [done|]. apply I.
  - intros i Hi. rewrite Hpi in Hi. apply elem_of_cons in Hi as [->|Hi]; [lia|].
    apply (i_range _ _ I) in Hi. lia.
  - intros i Hi. rewrite Hpi. apply lookup_insert_is_Some in Hi as [<-|[_ Hi]].
    { split; [lia|]. left. constructor. }
    destruct (i_data _ _ I i Hi) as [? [?|?]]; split; [lia|left; by right|lia|by right].
  - intros i Hi. destruct (i_fired _ _ I i Hi) as [? Hin]. rewrite Hpi. split; [lia|].
    rewrite elem_of_cons. intros [->|?]; [|done]. by apply Hf.
  - lia.
  - rewrite count_insert by done. rewrite (i_unref _ _ I). simpl. lia.
  - rewrite count_insert by done. by rewrite (i_lock _ _ I).
  - intros He. exfalso. by apply insert_non_empty in He.
Qed.

Lemma take_fired_timer_spec id ty s fired :
  inv s ((id, ty) :: fired) →
  take_fired_timer p id ty s =
    match data_map s !! id, ty with
    | Some td, Once => Ret (Some (data td), without id td s)
    | Some td, Repeat _ => Ret (Some (data td), s)
    | None, _ => Ret (None, s)
    end.
Proof.
  intros I. unfold take_fired_timer. destruct ty; destruct (data_map s !! id) as [td|] eqn:Hid;
    try done. by rewrite (removed_spec p s ((id, Once) :: fired)).
Qed.

Lemma inv_take_repeat s id n fired : inv s ((id, Repeat n) :: fired) → inv s fired.
Proof.
  intros I. split; try apply I.
  - intros i Hi. destruct (i_data _ _ I i Hi) as [? [?|[?|?]%elem_of_cons]]; auto; done.
  - intros i Hi. apply (i_fired _ _ I). by right.
Qed.

Lemma inv_take_gone s id ty fired :
  inv s ((id, ty) :: fired) → data_map s !! id = None → inv s fired.
Proof.
  intros I Hid. split; try apply I.
  - intros i Hi. destruct (i_data _ _ I i Hi) as [? [?|[[= ->]|?]%elem_of_cons]]; auto.
    rewrite Hid in Hi. by destruct Hi.
  - intros i Hi. apply (i_fired _ _ I). by right.
Qed.

Lemma inv_sleep s fired sl :
  inv s fired → sleep_timer sl = sleep_timer (sleep s) →
  (data_map s = ∅ → ready sl = false) →
  inv (mkTimers (next_id s) (timers s) (data_map s) (unrefd_count s) sl (lock_count s))
    fired.
Proof.
  intros I Hs Hr. split; simpl; try apply I.
  - rewrite Hs. apply I.
  - intros He. split; [by apply (i_idle _ _ I)|]. rewrite Hs. split; [|auto].
    by apply (i_idle _ _ I).
Qed.
End preservation.

(** * Polling *)

Section polling.
Context (p : profile) (instant_max : Z) {T : Type}.
Implicit Types (s : WebTimers T) (m : gmap WebTimerId (TimerData T))
  (l ts : list TimerKey).

Definition alive_in m l : list TimerKey := filter (λ k, is_Some (m !! k_id k)) l.

(** The pending timers in the order they fire: the set without tombstones. *)
Definition alive s : list TimerKey := alive_in (data_map s) (timers s).

Definition not_elapsed (now : Z) l : list TimerKey :=
  filter (λ k, ¬ k_deadline k < now) l.

(** [ts'] holds the same live keys as [ts] and perhaps fewer tombstones. *)
Record compacts m ts ts' : Prop := {
  c_sorted : sorted ts';
  c_ids : NoDup (ids ts');
  c_sub : ∀ k, k ∈ ts' → k ∈ ts;
  c_alive : alive_in m ts' = alive_in m ts
}.

Lemma compacts_refl m ts : sorted ts → NoDup (ids ts) → compacts m ts ts.
Proof. by split. Qed.

Lemma compacts_retain m ts :
  sorted ts → NoDup (ids ts) →
  compacts m ts (filter (λ k, is_Some (m !! k_id k)) ts).
Proof.
  intros Hs Hn. split.
  - by apply sorted_filter.
  - by apply NoDup_ids_filter.
  - by intros k [_ Hk]%list_elem_of_filter.
  - apply list_filter_all. by intros k [Hk _]%list_elem_of_filter.
Qed.

Lemma compacts_nil m ts : alive_in m ts = [] → compacts m ts [].
Proof.
  intros Ha. split; [constructor|constructor|by intros k ?%elem_of_nil|done].
Qed.

Lemma compacts_front m ts :
  sorted ts → NoDup (ids ts) → compacts m ts (compact_front m ts).
Proof.
  induction ts as [|k ts IH]; intros Hs Hn; simpl; [by apply compacts_refl|].
  destruct (m !! k_id k) eqn:Hm; [by apply compacts_refl|].
  apply StronglySorted_inv in Hs as [Hs _]. apply NoDup_cons in Hn as [_ Hn].
  destruct (IH Hs Hn) as [? ? Hsub Ha]. split; try done.
  - intros k' Hk'. right. auto.
  - rewrite Ha. unfold alive_in. rewrite filter_cons.
    rewrite decide_False; [done|]. intros []. congruence.
Qed.

Lemma elem_of_alive_in m l k : k ∈ alive_in m l ↔ is_Some (m !! k_id k) ∧ k ∈ l.
Proof. unfold alive_in. by rewrite list_elem_of_filter. Qed.

Lemma size_alive s : inv s [] → length (alive s) = size (data_map s).
Proof.
  intros I. rewrite <- size_dom.
  assert (dom (data_map s) = list_to_set (ids (alive s))) as ->.
  { apply set_eq. intros id. rewrite elem_of_dom, elem_of_list_to_set, list_elem_of_fmap.
    split.
    - intros Hid. destruct (i_data _ _ I id Hid) as [_ [Hin|?%elem_of_nil]]; [|done].
      apply list_elem_of_fmap in Hin as (k & -> & Hk). exists k. split; [done|].
      by apply elem_of_alive_in.
    - intros (k & -> & [Hk _]%elem_of_alive_in). done. }
  rewrite size_list_to_set by apply NoDup_ids_filter, I. by rewrite length_fmap.
Qed.

(** The split at [now] separates the elapsed keys from the others. *)
Lemma split_off_elapsed s now :
  inv s [] →
  split_off (mkKey now 0 Once false) (timers s) =
    (elapsed now (timers s), not_elapsed now (timers s)).
Proof.
  intros I. unfold split_off, elapsed, not_elapsed. f_equal.
  all: apply list_filter_ext_elem; intros k Hk.
  all: rewrite pivot_lt by (eapply (i_range _ _ I), list_elem_of_fmap; eauto).
  - apply bool_decide_eq_true.
  - apply bool_decide_eq_false.
Qed.

Lemma alive_elapsed m now l : alive_in m (elapsed now l) = elapsed now (alive_in m l).
Proof.
  unfold alive_in, elapsed. rewrite !list_filter_filter.
  apply list_filter_ext_elem. tauto.
Qed.

Lemma alive_not_elapsed m now l :
  alive_in m (not_elapsed now l) = not_elapsed now (alive_in m l).
Proof.
  unfold alive_in, not_elapsed. rewrite !list_filter_filter.
  apply list_filter_ext_elem. tauto.
Qed.

Lemma elapsed_split now l : l ≡ₚ elapsed now l ++ not_elapsed now l.
Proof.
  induction l as [|k l IH]; [done|]. unfold elapsed, not_elapsed in *.
  rewrite !filter_cons. repeat case_decide; try done.
  - simpl. by rewrite <- IH.
  - rewrite <- Permutation_middle. by rewrite <- IH.
Qed.

Lemma rearmed_length now l :
  Z.of_nat (length (rearmed now l)) = Z.of_nat (length l) - once_count l.
Proof.
  induction l as [|k l IH]; [done|]. rewrite once_count_cons, rearmed_cons.
  destruct (k_type k); simpl; lia.
Qed.

Lemma alive_rearmed m now l :
  (∀ k, k ∈ l → is_Some (m !! k_id k)) →
  alive_in m (rearmed now l) = rearmed now l.
Proof.
  intros Hl. apply list_filter_all. intros k Hk.
  assert (k_id k ∈ ids (rearmed now l)) as Hid by (apply list_elem_of_fmap; eauto).
  apply ids_rearmed in Hid as (k' & Hk' & <- & _). auto.
Qed.

(** What the pending timers become when those elapsed at [now] expire. *)
Definition after_firing (now : Z) l : list TimerKey :=
  rearmed now (elapsed now l) ++ not_elapsed now l.

Lemma after_firing_length now l :
  Z.of_nat (length (after_firing now l)) =
    Z.of_nat (length l) - once_count (elapsed now l).
Proof.
  unfold after_firing. rewrite length_app, Nat2Z.inj_add, rearmed_length.
  rewrite (elapsed_split now l) at 4. rewrite length_app. lia.
Qed.

Lemma key_unique s fired k k' :
  inv s fired → k ∈ timers s → k' ∈ timers s → k_id k = k_id k' → k = k'.
Proof.
  intros I [i Hi]%list_elem_of_lookup [j Hj]%list_elem_of_lookup He.
  assert (i = j) as <-; [|congruence].
  eapply (NoDup_lookup (ids (timers s)) i j (k_id k)); [apply I|..];
    rewrite list_lookup_fmap, ?Hi, ?Hj; simpl; congruence.
Qed.

Lemma elem_of_elapsed now s k :
  k ∈ elapsed now (alive s) ↔
    (k ∈ timers s) ∧ k_deadline k < now ∧ is_Some (data_map s !! k_id k).
Proof. unfold elapsed, alive. rewrite list_elem_of_filter, elem_of_alive_in. tauto. Qed.

(** The state an expiring poll leaves, for any compaction of the set. *)
Lemma inv_poll s now ts ts' sl :
  inv s [] → data_map s ≠ ∅ → sorted ts →
  ts ≡ₚ rearmed now (elapsed now (alive s)) ++ not_elapsed now (timers s) →
  compacts (data_map s) ts ts' →
  match ts' with
  | k :: _ => ∃ d, sleep_timer sl = Some d ∧ d <= k_deadline k
  | [] => True
  end →
  inv (mkTimers (next_id s) ts' (data_map s) (unrefd_count s) sl (lock_count s))
    (to_fire (elapsed now (alive s))).
Proof.
  intros I Hne Hs Hp [Hs' Hn' Hsub Ha] Harm.
  assert (∀ id, id ∈ ids ts → id ∈ ids (timers s)) as Hids.
  { intros id Hid. rewrite Hp, fmap_app in Hid. apply elem_of_app in Hid as [Hid|Hid].
    - apply ids_rearmed in Hid as (k & Hk & <- & _). apply list_elem_of_fmap.
      exists k. split; [done|]. by apply elem_of_elapsed in Hk as [? _].
    - by apply ids_filter_sub in Hid. }
  assert (∀ id, id ∈ ids ts' → id ∈ ids ts) as Hids'.
  { intros id (k & -> & Hk)%list_elem_of_fmap. apply list_elem_of_fmap; eauto. }
  split; simpl; try done; try apply I.
  - intros id Hid. apply (i_range _ _ I). auto.
  - intros id Hid. destruct (i_data _ _ I id Hid) as [? [Hin|?%elem_of_nil]]; [|done].
    split; [done|]. apply list_elem_of_fmap in Hin as (k & -> & Hk).
    destruct (decide (k_deadline k < now)) as [Hlt|Hlt].
    + assert (k ∈ elapsed now (alive s)) as Hke
        by by apply elem_of_elapsed.
      destruct (k_type k) as [n|] eqn:Ht.
      * left. apply list_elem_of_fmap.
        exists (mkKey (now + n * 1000000) (k_id k) (k_type k) (k_system k)).
        split; [done|]. eapply (elem_of_alive_in (data_map s) ts').
        rewrite Ha. apply elem_of_alive_in. split; [done|]. rewrite Hp.
        apply elem_of_app. left. apply list_elem_of_omap. exists k. split; [done|].
        by rewrite Ht.
      * right. apply list_elem_of_fmap. exists k. by rewrite Ht.
    + left. apply list_elem_of_fmap. exists k. split; [done|].
      eapply (elem_of_alive_in (data_map s) ts'). rewrite Ha. apply elem_of_alive_in.
      split; [done|]. rewrite Hp. apply elem_of_app. right. by apply list_elem_of_filter.
  - intros id (k & [= -> Ht] & Hk)%list_elem_of_fmap.
    apply elem_of_elapsed in Hk as (Hin & Hlt & _).
    split. { apply (i_range _ _ I), list_elem_of_fmap. eauto. }
    intros Hid%Hids'. rewrite Hp, fmap_app in Hid. apply elem_of_app in Hid as [Hid|Hid].
    + apply ids_rearmed in Hid as (k' & Hk' & He & Hty).
      apply elem_of_elapsed in Hk' as (Hin' & _).
      rewrite (key_unique s [] k' k) in Hty; congruence.
    + apply list_elem_of_fmap in Hid as (k' & He & Hk').
      apply list_elem_of_filter in Hk' as [Hge Hin'].
      by rewrite (key_unique s [] k k') in Hlt.
Qed.

Abbreviation fits now := (λ k, match k_type k with
  | Repeat interval => now + interval * 1000000 <= instant_max
  | Once => True
  end).

Lemma rearm_armed reactor ts sl :
  external_waker (rearm reactor ts sl).1 = external_waker sl ∧
  match ts with
  | k :: _ => ∃ d, sleep_timer (rearm reactor ts sl).1 = Some d ∧ d <= k_deadline k
  | [] => True
  end.
Proof.
  destruct ts as [|k ts]; [done|]. split; [apply change_armed|].
  exists (k_deadline k). split; [apply change_armed|lia].
Qed.

(** The loop of a poll on a consistent state. *)
Lemma poll_loop now s :
  inv s [] → Forall (fits now) (timers s) →
  ∃ ts, fire_loop p instant_max now (data_map s) (elapsed now (timers s))
            (not_elapsed now (timers s)) =
          Ret (ts, to_fire (elapsed now (alive s)), once_count (elapsed now (alive s))) ∧
        sorted ts ∧ NoDup (ids ts) ∧
        ts ≡ₚ rearmed now (elapsed now (alive s)) ++ not_elapsed now (timers s).
Proof.
  intros I Hfit. pose proof (i_ids _ _ I) as Hnd.
  rewrite (elapsed_split now (timers s)), fmap_app in Hnd.
  apply NoDup_app in Hnd as (Hnd & Hdis & Hnd').
  destruct (fire_loop_spec instant_max now (data_map s) (elapsed now (timers s))
    (not_elapsed now (timers s)) p) as (ts & He & Hs & Hp); try done.
  - rewrite Forall_forall in *. intros k [_ Hk]%list_elem_of_filter. by apply Hfit.
  - pose proof (inv_length s [] I). pose proof (i_next _ _ I).
    pose proof (length_filter (λ k, k_deadline k < now) (timers s)).
    unfold elapsed. lia.
  - apply sorted_filter, I.
  - fold (alive_in (data_map s) (elapsed now (timers s))) in He, Hp.
    rewrite alive_elapsed in He, Hp. exists ts. split; [done|]. split; [done|].
    split; [|done]. rewrite Hp, fmap_app. apply NoDup_app. split; [|split; [|done]].
    + apply NoDup_ids_rearmed. unfold alive, elapsed. by do 2 apply NoDup_ids_filter; apply I.
    + intros id Hid. apply ids_rearmed in Hid as (k & Hk & <- & _). apply Hdis.
      apply elem_of_elapsed in Hk as (? & ? & _). apply list_elem_of_fmap.
      exists k. split; [done|]. by apply list_elem_of_filter.
Qed.

Lemma alive_after_loop now s ts :
  inv s [] →
  ts ≡ₚ rearmed now (elapsed now (alive s)) ++ not_elapsed now (timers s) →
  alive_in (data_map s) ts ≡ₚ after_firing now (alive s).
Proof.
  intros I Hp. unfold alive_in at 1. rewrite Hp, filter_app.
  fold (alive_in (data_map s) (rearmed now (elapsed now (alive s)))).
  rewrite alive_rearmed by by intros k (_ & _ & ?)%elem_of_elapsed.
  fold (alive_in (data_map s) (not_elapsed now (timers s))).
  by rewrite alive_not_elapsed.
Qed.

Definition polled s ts sl : WebTimers T :=
  mkTimers (next_id s) ts (data_map s) (unrefd_count s) sl (lock_count s).

(** A poll that the sleep does not hold back: the elapsed timers are fired, the
    repeating ones are re-armed, and the compactions only drop tombstones. *)
Lemma poll_timers_spec now0 now reactor cx s sl :
  inv s [] → Forall (fits now) (timers s) → data_map s ≠ ∅ →
  poll_ready now0 cx (sleep s) = (Ready tt, sl) →
  let E := elapsed now (alive s) in
  ∃ ts' sl' woken,
    poll_timers p instant_max now0 now reactor cx s =
      Ret (match E with [] => Pending | _ => Ready (to_fire E) end,
           polled s ts' sl', woken) ∧
    inv (polled s ts' sl') (to_fire E) ∧
    alive_in (data_map s) ts' ≡ₚ after_firing now (alive s) ∧
    external_waker sl' = external_waker sl.
Proof.
  intros I Hfit Hne Hpr E. unfold poll_timers. rewrite Hpr, split_off_elapsed by done.
  destruct (poll_loop now s I Hfit) as (ts & -> & Hs & Hn & Hp). fold E in Hp |- *.
  rewrite bind_Ret. pose proof (alive_after_loop now s ts I Hp) as Hal.
  assert (∀ ts' sl', compacts (data_map s) ts ts' →
    match ts' with
    | k :: _ => ∃ d, sleep_timer sl' = Some d ∧ d <= k_deadline k
    | [] => True
    end →
    inv (polled s ts' sl') (to_fire E) ∧
    alive_in (data_map s) ts' ≡ₚ after_firing now (alive s)) as Hok.
  { intros ts' sl' Hc Harm. split; [by eapply inv_poll|].
    by rewrite (c_alive _ _ _ Hc). }
  assert (∀ ts', compacts (data_map s) ts ts' →
    let r := rearm reactor ts' sl in
    inv (polled s ts' r.1) (to_fire E) ∧
    alive_in (data_map s) ts' ≡ₚ after_firing now (alive s) ∧
    external_waker r.1 = external_waker sl) as Hre.
  { intros ts' Hc. destruct (rearm_armed reactor ts' sl) as [Hw Harm].
    destruct (Hok ts' (rearm reactor ts' sl).1 Hc Harm). done. }
  destruct E as [|k E'] eqn:HE; simpl.
  { rewrite debug_assert_true by by apply bool_decide_eq_true. simpl.
    specialize (Hre _ (compacts_front _ ts Hs Hn)).
    destruct (rearm _ _ _) as [sl' woken]. by eexists _, _, _. }
  change ((k_id k, k_type k) :: to_fire E') with (to_fire (k :: E')).
  rewrite <- HE in *. pose proof (size_alive s I) as Hsz.
  pose proof (after_firing_length now (alive s)) as Hlen. rewrite <- Hal, Hsz in Hlen.
  fold E in Hlen. rewrite sub_w_fits by lia. rewrite bind_Ret, <- Hlen.
  case_match eqn:Hz.
  { apply Z.eqb_eq, (inj Z.of_nat _ 0%nat), length_zero_iff_nil in Hz.
    destruct (Hok [] (sleep_clear sl)) as [??]; [by apply compacts_nil|done|].
    by eexists _, _, _. }
  rewrite sub_w_fits, bind_Ret by (apply inj_le, length_filter).
  specialize (Hre (if COMPACTION_MINIMUM <? Z.of_nat (length ts)
      - Z.of_nat (length (alive_in (data_map s) ts))
    then filter (λ k, is_Some (data_map s !! k_id k)) ts else ts)).
  destruct (rearm _ _ _) as [sl' woken]. eexists _, _, _. split; [done|]. apply Hre.
  case_match; [by apply compacts_retain|by apply compacts_refl].
Qed.
End polling.

(** * Runs *)

Section runs_facts.
Context (p : profile) (instant_max : Z) {T : Type}.
Implicit Types (s : sys T) (a : action T) (t : WebTimers T).

Abbreviation legal := (legal instant_max).
Abbreviation exec := (exec p instant_max).

(** The abstract schedule: the pending timers.  What an action does to it. *)
Definition schedule s : list TimerKey := alive (s_timers s).

Definition sleep_ready (now0 : Z) (sl : MutableSleep) : bool :=
  ready sl || match external_waker sl, sleep_timer sl with
              | Some _, Some d => d <=? now0
              | _, _ => false
              end.

Definition spec_step s a (l : list TimerKey) : list TimerKey :=
  match a with
  | AQueue now _ repeat ms _ sy =>
      mkKey (now + ms * 1000000) (next_id (s_timers s) + 1) (timer_type_of repeat ms) sy
        :: l
  | ACancel id => filter (λ k, k_id k ≠ id) l
  | APoll now0 now _ _ =>
      if sleep_ready now0 (sleep (s_timers s)) then after_firing now l else l
  | _ => l
  end.

(** An event that hands out, or announces, timer [id]. *)
Definition concerns (id : WebTimerId) (e : event T) : Prop :=
  match e with
  | Cancelled i (Some _) => i = id
  | Expired (Ready l) => id ∈ l.*1
  | Taken i _ (Some _) => i = id
  | _ => False
  end.

(** A timer that has been handed out or cancelled. *)
Definition gone (t : WebTimers T) (id : WebTimerId) : Prop :=
  data_map t !! id = None ∧ id <= next_id t.

Record good_step s a s' (ev : list (event T)) : Prop := {
  g_inv : inv (s_timers s') (s_fired s');
  g_spec : schedule s' ≡ₚ spec_step s a (schedule s);
  g_gone : ∀ id, gone (s_timers s) id →
    gone (s_timers s') id ∧ Forall (λ e, ¬ concerns id e) ev
}.

Lemma poll_ready_spec now0 cx sl :
  let '(r, sl') := poll_ready now0 cx sl in
  r = (if sleep_ready now0 sl then Ready tt else Pending) ∧
  sleep_timer sl' = sleep_timer sl ∧
  (r = Pending → ready sl' = ready sl ∧ external_waker sl' = Some cx) ∧
  (r = Ready tt → external_waker sl' = Some cx ∨
                  ready sl = true ∧ external_waker sl' = external_waker sl).
Proof.
  unfold poll_ready, sleep_ready. destruct sl as [st [] [w|]]; simpl;
    [naive_solver..| |naive_solver].
  assert ((if decide (w = cx) then w else cx) = cx) as -> by by case_decide.
  destruct st as [d|]; [destruct (d <=? now0)|]; simpl; naive_solver.
Qed.

Lemma sleep_ready_data t fired now0 :
  inv t fired → sleep_ready now0 (sleep t) = true → data_map t ≠ ∅.
Proof.
  intros I Hr He. destruct (i_idle _ _ I He) as (_ & Hst & Hrd).
  unfold sleep_ready in Hr. rewrite Hst, Hrd in Hr. by destruct (external_waker _).
Qed.

Lemma alive_without t id td fired :
  inv t fired → data_map t !! id = Some td →
  alive (without id td t) = filter (λ k, k_id k ≠ id) (alive t).
Proof.
  intros I Hid. unfold alive, without, alive_in. rewrite list_filter_filter.
  case_decide as He; simpl.
  - symmetry. apply elem_of_nil_inv. intros k [[Hk [x Hx]] _]%list_elem_of_filter.
    assert (delete id (data_map t) !! k_id k = Some x) as Hd
      by by rewrite lookup_delete_ne.
    by rewrite He, lookup_empty in Hd.
  - apply list_filter_ext_elem. intros k _. rewrite lookup_delete_is_Some. naive_solver.
Qed.

Lemma gone_without t id td i fired :
  inv t fired → data_map t !! id = Some td → gone t i →
  gone (without id td t) i ∧ i ≠ id.
Proof.
  intros I Hid [Hi Hn]. split; [|by intros ->; congruence].
  unfold gone, without. case_decide; simpl; split; try done;
    apply lookup_delete_None; auto.
Qed.

Lemma gone_after t id td fired :
  inv t fired → data_map t !! id = Some td → gone (without id td t) id.
Proof.
  intros I Hid. unfold gone, without.
  assert (id <= next_id t) by by apply (i_data _ _ I).
  case_decide; simpl; split; try done; apply lookup_delete_eq.
Qed.

Lemma good_queue s now reactor repeat ms d sy :
  inv (s_timers s) (s_fired s) → legal s (AQueue now reactor repeat ms d sy) →
  ∃ s' ev woken, exec s (AQueue now reactor repeat ms d sy) = Ret (s', ev, woken) ∧
    good_step s (AQueue now reactor repeat ms d sy) s' ev.
Proof.
  intros I (Hid & _ & Hfit). unfold exec, WebTimers.exec.
  destruct (queue_timer_spec p instant_max now reactor repeat ms d sy _ _ I Hid Hfit)
    as (sl & woken & locks & -> & Hl & Harm).
  simpl. eexists _, _, _. split; [done|].
  set (id := next_id (s_timers s) + 1) in *.
  destruct (inv_fresh _ _ id I) as (Hm & Hk & _); [lia|].
  split; simpl.
  - by apply inv_queue.
  - unfold schedule, alive, alive_in. simpl.
    rewrite btree_insert_perm by done. rewrite filter_cons, decide_True
      by (simpl; rewrite lookup_insert_eq; eauto).
    apply reflexive_eq. f_equal. apply list_filter_ext_elem. intros k' Hin.
    rewrite lookup_insert_ne; [done|]. intros He. apply Hk, list_elem_of_fmap. eauto.
  - intros i [Hi Hle]. split; [|by apply Forall_singleton; intros []]. split; simpl; [|lia].
    rewrite lookup_insert_ne by lia. done.
Qed.

Lemma alive_missing t id : data_map t !! id = None →
  alive t = filter (λ k, k_id k ≠ id) (alive t).
Proof.
  intros Hid. symmetry. apply list_filter_all.
  intros k [Hk _]%elem_of_alive_in ?. destruct Hk. congruence.
Qed.

Lemma good_cancel s id :
  inv (s_timers s) (s_fired s) →
  ∃ s' ev woken, exec s (ACancel id) = Ret (s', ev, woken) ∧
    good_step s (ACancel id) s' ev.
Proof.
  intros I. unfold exec, WebTimers.exec.
  rewrite (cancel_timer_spec p _ _ id I).
  destruct (data_map (s_timers s) !! id) as [td|] eqn:Hid; simpl;
    eexists _, _, _; (split; [done|]); split; simpl.
  - by eapply inv_without.
  - unfold schedule. simpl. by rewrite (alive_without _ _ _ _ I Hid).
  - intros i Hi. destruct (gone_without _ _ _ _ _ I Hid Hi) as [? Hne].
    split; [done|]. apply Forall_singleton. simpl. congruence.
  - done.
  - unfold schedule. simpl. by rewrite <- alive_missing.
  - intros i Hi. split; [done|]. apply Forall_singleton. by intros [].
Qed.

Lemma alive_set_unrefd t id td b n :
  data_map t !! id = Some td →
  alive (mkTimers (next_id t) (timers t)
           (<[id := mkData (data td) b (high_res td)]> (data_map t)) n (sleep t)
           (lock_count t)) = alive t.
Proof.
  intros Hid. apply list_filter_ext_elem. intros k _. simpl.
  destruct (decide (id = k_id k)) as [->|]; [|by rewrite lookup_insert_ne].
  rewrite lookup_insert_eq, Hid. split; eauto.
Qed.

Lemma gone_set_unrefd t id td b n i :
  data_map t !! id = Some td → gone t i →
  gone (mkTimers (next_id t) (timers t)
          (<[id := mkData (data td) b (high_res td)]> (data_map t)) n (sleep t)
          (lock_count t)) i.
Proof.
  intros Hid [Hi ?]. split; [|done]. simpl.
  rewrite lookup_insert_ne; [done|]. congruence.
Qed.

Lemma ref_timer_spec t fired id :
  inv t fired →
  ref_timer p id t = Ret (match data_map t !! id with
    | Some td => mkTimers (next_id t) (timers t)
        (<[id := mkData (data td) false (high_res td)]> (data_map t))
        (unrefd_count t - Z.b2z (unrefd td) + Z.b2z false) (sleep t) (lock_count t)
    | None => t
    end).
Proof.
  intros I. unfold ref_timer. destruct (data_map t !! id) as [td|] eqn:Hid; [|done].
  rewrite unref_sub_fits by (rewrite (i_unref _ _ I); by eapply counted).
  simpl. by rewrite Z.add_0_r.
Qed.

Lemma unref_timer_spec t fired id :
  inv t fired →
  unref_timer p id t = Ret (match data_map t !! id with
    | Some td => mkTimers (next_id t) (timers t)
        (<[id := mkData (data td) true (high_res td)]> (data_map t))
        (unrefd_count t - Z.b2z (unrefd td) + Z.b2z true) (sleep t) (lock_count t)
    | None => t
    end).
Proof.
  intros I. unfold unref_timer. destruct (data_map t !! id) as [td|] eqn:Hid; [|done].
  destruct (unrefd td) eqn:Hu; simpl.
  - do 2 f_equal. lia.
  - pose proof (count_update unrefd _ _ _ (mkData (data td) true (high_res td)) Hid) as Hc.
    rewrite Hu in Hc. simpl in Hc. pose proof (inv_size _ _ I). pose proof (i_next _ _ I).
    pose proof (inv_counts _ _ unrefd (inv_set_unrefd _ _ _ _ true I Hid)) as Hb.
    simpl in Hb. rewrite <- (i_unref _ _ I) in Hc. rewrite add_w_fits by lia.
    simpl. do 2 f_equal. lia.
Qed.

Lemma good_ref s id (b : bool) :
  inv (s_timers s) (s_fired s) →
  let a := if b then AUnref id else ARef id in
  ∃ s' ev woken, exec s a = Ret (s', ev, woken) ∧ good_step s a s' ev.
Proof.
  intros I a.
  assert (exec s a = Ret (mkSys (match data_map (s_timers s) !! id with
    | Some td => mkTimers (next_id (s_timers s)) (timers (s_timers s))
        (<[id := mkData (data td) b (high_res td)]> (data_map (s_timers s)))
        (unrefd_count (s_timers s) - Z.b2z (unrefd td) + Z.b2z b)
        (sleep (s_timers s)) (lock_count (s_timers s))
    | None => s_timers s
    end) (s_fired s), [], [])) as ->.
  { unfold a, exec, WebTimers.exec. destruct b;
      [rewrite (unref_timer_spec _ _ id I)|rewrite (ref_timer_spec _ _ id I)]; done. }
  eexists _, _, _. split; [done|].
  assert (∀ l, spec_step s a l = l) as Hspec by (intros; unfold a; by destruct b).
  destruct (data_map (s_timers s) !! id) as [td|] eqn:Hid; split; simpl; try done.
  - by apply inv_set_unrefd.
  - rewrite Hspec. unfold schedule. simpl. by rewrite alive_set_unrefd.
  - intros i Hi. split; [|done]. by apply gone_set_unrefd.
  - by rewrite Hspec.
Qed.

Lemma good_take s : inv (s_timers s) (s_fired s) → s_fired s ≠ [] →
  ∃ s' ev woken, exec s ATake = Ret (s', ev, woken) ∧ good_step s ATake s' ev.
Proof.
  intros I Hne. unfold exec, WebTimers.exec.
  destruct (s_fired s) as [|[id ty] fired] eqn:Hf; [done|].
  rewrite (take_fired_timer_spec p id ty _ fired I).
  destruct (data_map (s_timers s) !! id) as [td|] eqn:Hid; [destruct ty as [n|]|];
    simpl; eexists _, _, _; (split; [done|]); split; simpl; try done.
  - by eapply inv_take_repeat.
  - intros i [Hi ?]. split; [done|]. apply Forall_singleton. simpl. congruence.
  - eapply (inv_without _ ((id, Once) :: fired)); [done..| |by right].
    intros i Hi. rewrite elem_of_cons. naive_solver.
  - unfold schedule. simpl. rewrite (alive_without _ _ _ _ I Hid).
    apply reflexive_eq, list_filter_all. intros k [_ Hk]%elem_of_alive_in He.
    destruct (i_fired _ _ I id) as [_ Hn]; [by left|].
    apply Hn, list_elem_of_fmap. eauto.
  - intros i Hi. destruct (gone_without _ _ _ _ _ I Hid Hi) as [? Hn].
    split; [done|]. apply Forall_singleton. simpl. congruence.
  - by eapply inv_take_gone.
  - intros i Hi. split; [done|]. apply Forall_singleton. by intros [].
Qed.

(** What a poll answers, in terms of the schedule. *)
Definition poll_answer (now0 now : Z) s : poll (list (WebTimerId * TimerType)) :=
  if sleep_ready now0 (sleep (s_timers s)) then
    match elapsed now (schedule s) with
    | [] => Pending
    | E => Ready (to_fire E)
    end
  else Pending.

Lemma good_poll s now0 now reactor cx :
  inv (s_timers s) (s_fired s) → legal s (APoll now0 now reactor cx) →
  ∃ s' ev woken, exec s (APoll now0 now reactor cx) = Ret (s', ev, woken) ∧
    good_step s (APoll now0 now reactor cx) s' ev ∧
    ev = [Expired (poll_answer now0 now s)] ∧
    (poll_answer now0 now s = Pending →
      external_waker (sleep (s_timers s')) = Some cx ∨
      ready (sleep (s_timers s)) = true ∧
      external_waker (sleep (s_timers s')) = external_waker (sleep (s_timers s))).
Proof.
  intros I [Hf Hfit]. rewrite Hf in I. unfold exec, WebTimers.exec.
  pose proof (poll_ready_spec now0 cx (sleep (s_timers s))) as Hpr.
  destruct (poll_ready now0 cx (sleep (s_timers s))) as [r sl] eqn:Hpe.
  destruct Hpr as (Hr & Hst & Hpend & Hready). unfold poll_answer.
  destruct (sleep_ready now0 (sleep (s_timers s))) eqn:Hsr; subst r.
  - destruct (poll_timers_spec p instant_max now0 now reactor cx _ sl I Hfit)
      as (ts & sl' & woken & -> & Hinv & Hal & Hw);
      [by eapply sleep_ready_data|done|].
    rewrite bind_Ret. unfold schedule. set (E := elapsed now (alive (s_timers s))) in *.
    eexists _, _, _. split; [done|]. split; [split; simpl|split; [by destruct E|]].
    + by destruct E.
    + rewrite Hsr. unfold schedule, alive. simpl. by rewrite Hal.
    + intros i [Hi Hn]. split; [done|]. apply Forall_singleton.
      destruct E as [|k E'] eqn:HE; [by intros []|]. simpl.
      change (¬ i ∈ (to_fire (k :: E')).*1). rewrite <- HE. unfold to_fire.
      rewrite <- list_fmap_compose. intros (k' & -> & Hk')%list_elem_of_fmap.
      apply elem_of_elapsed in Hk' as (_ & _ & []). simpl in *. congruence.
    + intros _. simpl. rewrite Hw. by apply Hready.
  - destruct (Hpend eq_refl) as [Hrd Hw]. unfold poll_timers. rewrite Hpe. simpl.
    eexists _, _, _. split; [done|]. split; [split; simpl|split; [done|by left]].
    + apply inv_sleep; [done|done|]. intros He. rewrite Hrd. by apply (i_idle _ _ I).
    + rewrite Hsr. done.
    + intros i Hi. split; [done|]. apply Forall_singleton. by intros [].
Qed.

Lemma good_fire s :
  inv (s_timers s) (s_fired s) → legal s AFire →
  ∃ s' ev woken, exec s AFire = Ret (s', ev, woken) ∧ good_step s AFire s' ev.
Proof.
  intros I [d Hd]. unfold exec, WebTimers.exec. simpl.
  eexists _, _, _. split; [done|]. split; simpl; [|done|done].
  apply (inv_sleep _ _ (mkSleep _ _ _)); [done|done|].
  intros He. destruct (i_idle _ _ I He) as (_ & ? & _). congruence.
Qed.

(** Every legal action returns, keeps the invariant and acts on the schedule as
    [spec_step] says. *)
Lemma timers_exec_good s a :
  inv (s_timers s) (s_fired s) → legal s a →
  ∃ s' ev woken, exec s a = Ret (s', ev, woken) ∧ good_step s a s' ev.
Proof.
  intros I Hl. destruct a.
  - by apply good_queue.
  - by apply good_cancel.
  - by apply (good_ref s id false).
  - by apply (good_ref s id true).
  - destruct (good_poll s now0 now reactor cx I Hl) as (s' & ev & woken & ? & ? & _). eauto.
  - by apply good_take.
  - by apply good_fire.
Qed.

Lemma timers_exec_good_inv s a s' ev woken :
  inv (s_timers s) (s_fired s) → legal s a → exec s a = Ret (s', ev, woken) →
  good_step s a s' ev.
Proof.
  intros I Hl He. destruct (timers_exec_good s a I Hl) as (? & ? & ? & He' & ?). congruence.
Qed.

Lemma runs_inv s evs s' :
  inv (s_timers s) (s_fired s) → runs p instant_max s evs s' →
  inv (s_timers s') (s_fired s').
Proof.
  intros I Hr. induction Hr as [|s a s1 ev woken evs s2 Hl He Hr IH]; [done|].
  apply IH. eapply (g_inv _ _ _ _ (timers_exec_good_inv _ _ _ _ _ I Hl He)).
Qed.

Lemma timers_reachable_inv s :
  reachable p instant_max s → inv (s_timers s) (s_fired s).
Proof. intros [evs Hr]. eapply runs_inv; [|done]. apply inv_init. Qed.

Lemma runs_gone s evs s' id :
  inv (s_timers s) (s_fired s) → gone (s_timers s) id → runs p instant_max s evs s' →
  Forall (λ e, ¬ concerns id e) evs.
Proof.
  intros I Hg Hr. induction Hr as [|s a s1 ev woken evs s2 Hl He Hr IH]; [done|].
  destruct (timers_exec_good_inv _ _ _ _ _ I Hl He) as [Hi _ Hgone].
  destruct (Hgone id Hg) as [Hg1 Hev]. apply Forall_app. auto.
Qed.
End runs_facts.

(** * Properties *)

Section properties.
Context (p : profile) (instant_max : Z) {T : Type}.
Implicit Types (s : sys T) (a : action T).

(** C16. Every legal action on reachable timers returns - no counter overflows or
    underflows and no assertion fails, in either profile - and changes the schedule
    of pending timers, kept sorted by deadline and identifier, exactly as the
    abstract step says: tombstones and compactions are invisible. *)
Theorem timers_refine_schedule s a :
  reachable p instant_max s → legal instant_max s a →
  ∃ s' ev woken, exec p instant_max s a = Ret (s', ev, woken) ∧
    sorted (schedule s') ∧ schedule s' ≡ₚ spec_step s a (schedule s).
Proof.
  intros Hr%timers_reachable_inv Hl.
  destruct (timers_exec_good p instant_max s a Hr Hl) as (s' & ev & woken & He & [I Hs _]).
  exists s', ev, woken. split; [done|]. split; [|done]. apply sorted_filter, I.
Qed.

(** A poll hands out the pending timers whose deadline is strictly before the
    clock, all of them, in the order of deadlines and identifiers, and nothing
    else; it answers [Pending] only if the sleep holds it back or none elapsed. *)
Lemma poll_answers_elapsed s now0 now reactor cx :
  reachable p instant_max s → legal instant_max s (APoll now0 now reactor cx) →
  ∃ s' r woken, exec p instant_max s (APoll now0 now reactor cx) =
      Ret (s', [Expired r], woken) ∧
    match r with
    | Ready output => output = to_fire (elapsed now (schedule s)) ∧ output ≠ []
    | Pending => sleep_ready now0 (sleep (s_timers s)) = false ∨
                 ∀ k, k ∈ schedule s → now <= k_deadline k
    end.
Proof.
  intros Hr%timers_reachable_inv Hl.
  destruct (good_poll p instant_max s now0 now reactor cx Hr Hl)
    as (s' & ev & woken & He & _ & -> & _).
  exists s', (poll_answer now0 now s), woken. split; [done|]. unfold poll_answer.
  destruct (sleep_ready _ _) eqn:Hsr; [|by left].
  destruct (elapsed now (schedule s)) as [|k E] eqn:HE; [right|done].
  intros k Hk. destruct (Z.lt_ge_cases (k_deadline k) now); [|done].
  assert (k ∈ elapsed now (schedule s)) as Hin by by apply list_elem_of_filter.
  rewrite HE in Hin. by apply elem_of_nil in Hin.
Qed.

(** A pending timer is never missed: once its deadline has passed, the next
    poll hands it out, if the sleep has fired or an earlier poll left a waker. *)
Lemma elapsed_timer_fires s now0 now reactor cx k :
  reachable p instant_max s → legal instant_max s (APoll now0 now reactor cx) →
  k ∈ schedule s → k_deadline k <= now0 → k_deadline k < now →
  ready (sleep (s_timers s)) = true ∨ is_Some (external_waker (sleep (s_timers s))) →
  ∃ s' output woken, exec p instant_max s (APoll now0 now reactor cx) =
      Ret (s', [Expired (Ready output)], woken) ∧ (k_id k, k_type k) ∈ output.
Proof.
  intros I%timers_reachable_inv Hl Hk Hk0 Hkn Hw.
  destruct (good_poll p instant_max s now0 now reactor cx I Hl)
    as (s' & ev & woken & He & _ & -> & _).
  assert (sleep_ready now0 (sleep (s_timers s)) = true) as Hsr.
  { unfold sleep_ready. destruct Hw as [->|[w ->]]; [done|]. apply orb_true_iff. right.
    pose proof (i_armed _ _ I) as Harm. pose proof (i_sorted _ _ I) as Hs.
    apply elem_of_alive_in in Hk as [_ Hk].
    destruct (timers (s_timers s)) as [|k0 l]; [by apply elem_of_nil in Hk|].
    destruct Harm as (d & -> & Hd). apply Z.leb_le.
    apply StronglySorted_inv in Hs as [_ Hs]. rewrite Forall_forall in Hs.
    apply elem_of_cons in Hk as [->|Hk]; [lia|]. destruct (Hs k Hk); lia. }
  assert (k ∈ elapsed now (schedule s)) as Hin by by apply list_elem_of_filter.
  exists s', (to_fire (elapsed now (schedule s))), woken. split.
  - rewrite He. unfold poll_answer. rewrite Hsr.
    by destruct (elapsed now (schedule s)); [apply elem_of_nil in Hin|].
  - apply list_elem_of_fmap. eauto.
Qed.

(** A timer that was cancelled, or that fired once, is never announced or
    handed out again, whatever is queued, cancelled and polled afterwards: a
    cancellation between the poll and the dispatch of a timer prevents it. *)
Lemma gone_timer_never_fires s a s1 id d evs s2 woken :
  reachable p instant_max s → legal instant_max s a →
  (exec p instant_max s a = Ret (s1, [Cancelled id (Some d)], woken) ∨
   exec p instant_max s a = Ret (s1, [Taken id Once (Some d)], woken)) →
  runs p instant_max s1 evs s2 → Forall (λ e, ¬ concerns id e) evs.
Proof.
  intros I%timers_reachable_inv Hl He Hr.
  assert (inv (s_timers s1) (s_fired s1)) as I1.
  { destruct He as [He|He]; by eapply (g_inv _ _ _ _ (timers_exec_good_inv _ _ _ _ _ _ _ I Hl He)). }
  eapply runs_gone; [done| |done]. clear Hr I1.
  destruct He as [He|He]; destruct a; simpl in He; run_all; try done.
  - rewrite (cancel_timer_spec p _ _ _ I) in Hrun.
    destruct (data_map (s_timers s) !! _) eqn:Hid; simplify_eq/=. by eapply gone_after.
  - match goal with H : removed _ _ _ _ = _ |- _ => rename H into Hrm end.
    erewrite removed_spec in Hrm by done. simplify_eq. by eapply gone_after.
Qed.

(** [has_pending_timers] holds exactly when some timer is still referenced,
    [unref_len] counts the unreferenced ones, and without timers the tree is
    empty, the sleep disarmed and the high-resolution lock released. *)
Lemma pending_timers_counted s :
  reachable p instant_max s →
  let t := s_timers s in
  (has_pending_timers t = true ↔ ∃ id td, data_map t !! id = Some td ∧ unrefd td = false) ∧
  unref_len t = count unrefd (data_map t) ∧
  (timers_is_empty t = true →
     timers t = [] ∧ sleep_timer (sleep t) = None ∧ is_locked (lock_count t) = false).
Proof.
  intros I%timers_reachable_inv t. fold t in I. unfold has_pending_timers, unref_len, len.
  rewrite (i_unref _ _ I), Z.ltb_lt. pose proof (count_range unrefd (data_map t)).
  split; [|split; [done|]].
  - split.
    + intros Hlt.
      destruct (decide (map_Exists (λ _ td, unrefd td = false) (data_map t))) as [Hex|Hno].
      { destruct Hex as (id & td & ? & ?). eauto. }
      assert (count unrefd (data_map t) = Z.of_nat (size (data_map t))); [|lia].
      apply count_all. intros id td Hid. destruct (unrefd td) eqn:?; [done|].
      exfalso. apply Hno. by exists id, td.
    + intros (id & td & Hid & Hu).
      assert (count unrefd (data_map t) ≠ Z.of_nat (size (data_map t))); [|lia].
      rewrite count_all. intros Hall. specialize (Hall id td Hid). congruence.
  - intros He%bool_decide_eq_true. destruct (i_idle _ _ I He) as (? & ? & _).
    split; [done|]. split; [done|]. by rewrite (i_lock _ _ I), He, count_empty.
Qed.

(** A poll that answers [Pending] leaves its waker to be woken by the sleep,
    except when the sleep had already fired: then the poll consumed the signal,
    fired nothing and the waker of an earlier poll, or none, stays registered. *)
Lemma pending_poll_waker s now0 now reactor cx s' woken :
  reachable p instant_max s → legal instant_max s (APoll now0 now reactor cx) →
  exec p instant_max s (APoll now0 now reactor cx) = Ret (s', [Expired Pending], woken) →
  external_waker (sleep (s_timers s')) = Some cx ∨
  ready (sleep (s_timers s)) = true ∧
  external_waker (sleep (s_timers s')) = external_waker (sleep (s_timers s)).
Proof.
  intros I%timers_reachable_inv Hl He.
  destruct (good_poll p instant_max s now0 now reactor cx I Hl)
    as (s1 & ev & woken1 & He1 & _ & -> & Hw).
  rewrite He in He1. injection He1 as -> Ha _. by apply Hw.
Qed.
End properties.

(** * Concrete runs *)

Global Instance timer_legal_dec {T} instant_max (s : sys T) a :
  Decision (legal instant_max s a).
Proof.
  destruct a; simpl; try apply _.
  apply and_dec; [apply _|]. apply Forall_dec. intros k. destruct (k_type k); apply _.
Defined.

Fixpoint run {T} (p : profile) (instant_max : Z) (s : sys T) (acts : list (action T)) :
    outcome (sys T * list (event T)) :=
  match acts with
  | [] => Ret (s, [])
  | a :: acts =>
      if decide (legal instant_max s a) then
        '(s1, ev, _) ← exec p instant_max s a;
        '(s2, evs) ← run p instant_max s1 acts;
        Ret (s2, ev ++ evs)
      else Panic Assert
  end.

Lemma timers_run_runs {T} p instant_max (s : sys T) acts s' evs :
  run p instant_max s acts = Ret (s', evs) → runs p instant_max s evs s'.
Proof.
  revert s evs. induction acts as [|a acts IH]; intros s evs Hr; simpl in Hr; run_all;
    [constructor|].
  eapply runs_step; [done..|]. auto.
Qed.

(** A day and a bit, in nanoseconds. *)
Definition horizon : Z := 100000000000000.

Definition no_timer : Z → bool := λ _, false.

(** An interval of 10 ms, a timeout of 25 ms and one of 0 ms; the loop polls once
    before anything elapses. *)
Definition three_timers : list (action nat) :=
  [AQueue 0 no_timer true 10 100%nat false; AQueue 0 no_timer false 25 200%nat false;
   AQueue 0 no_timer false 0 300%nat true; APoll (-1) (-1) no_timer 7%nat].

Definition timers_after (acts : list (action nat)) : sys nat :=
  match run Debug horizon init acts with Ret (s, _) => s | _ => init end.

Lemma timers_after_reachable acts : reachable Debug horizon (timers_after acts).
Proof.
  unfold timers_after. destruct (run Debug horizon init acts) as [[s evs]|] eqn:Hr.
  - exists evs. by eapply timers_run_runs.
  - exists []. constructor.
Qed.

(** 30 ms later all three fire, the interval first by deadline. *)
Example three_timers_fire :
  exec Debug horizon (timers_after three_timers) (APoll 30000000 30000000 no_timer 7%nat)
    = Ret (mkSys (mkTimers 3
             [mkKey 40000000 1 (Repeat 10) false]
             (data_map (s_timers (timers_after three_timers))) 0
             (mkSleep (Some 40000000) false (Some 7%nat)) 3)
             [(3, Once); (1, Repeat 10); (2, Once)],
           [Expired (Ready [(3, Once); (1, Repeat 10); (2, Once)])], []).
Proof. vm_compute. reflexivity. Qed.

Lemma timers_refine_schedule_witness :
  ∃ s' ev woken,
    exec Debug horizon (timers_after three_timers) (ACancel 3) = Ret (s', ev, woken) ∧
    sorted (schedule s') ∧
    schedule s' ≡ₚ spec_step (timers_after three_timers) (ACancel 3)
                     (schedule (timers_after three_timers)).
Proof.
  apply (timers_refine_schedule Debug horizon (timers_after three_timers) (ACancel 3)).
  - apply timers_after_reachable.
  - exact I.
Defined.

Definition due : action nat := APoll 30000000 30000000 no_timer 7%nat.

Lemma due_legal : legal horizon (timers_after three_timers) due.
Proof. by apply (bool_decide_eq_true_1 _); vm_compute. Qed.

Lemma poll_answers_elapsed_example :
  ∃ s' r woken, exec Debug horizon (timers_after three_timers) due =
      Ret (s', [Expired r], woken) ∧
    match r with
    | Ready output =>
        output = to_fire (elapsed 30000000 (schedule (timers_after three_timers))) ∧
        output ≠ []
    | Pending =>
        sleep_ready 30000000 (sleep (s_timers (timers_after three_timers))) = false ∨
        ∀ k, k ∈ schedule (timers_after three_timers) → 30000000 <= k_deadline k
    end.
Proof.
  apply (poll_answers_elapsed Debug horizon (timers_after three_timers) 30000000 30000000
    no_timer 7%nat (timers_after_reachable three_timers) due_legal).
Qed.

Lemma elapsed_timer_fires_example :
  ∃ s' output woken, exec Debug horizon (timers_after three_timers) due =
      Ret (s', [Expired (Ready output)], woken) ∧ (1, Repeat 10) ∈ output.
Proof.
  apply (elapsed_timer_fires Debug horizon (timers_after three_timers) 30000000 30000000
    no_timer 7%nat (mkKey 10000000 1 (Repeat 10) false)
    (timers_after_reachable three_timers) due_legal).
  - apply (bool_decide_eq_true_1 _). vm_compute. reflexivity.
  - simpl. lia.
  - simpl. lia.
  - right. exists 7%nat. vm_compute. reflexivity.
Qed.

(** The callback of timer 3 cancels timer 2, which expired in the same batch. *)
Definition mid_dispatch : sys nat := timers_after (three_timers ++ [due; ATake]).

Lemma gone_timer_never_fires_example :
  ∃ s1 evs s2 woken,
    exec Debug horizon mid_dispatch (ACancel 2) =
      Ret (s1, [Cancelled 2 (Some 200%nat)], woken) ∧
    runs Debug horizon s1 evs s2 ∧ length evs = 3%nat ∧
    Forall (λ e, ¬ concerns 2 e) evs.
Proof.
  destruct (exec Debug horizon mid_dispatch (ACancel 2)) as [[[s1 ev] woken]|] eqn:He;
    [|vm_compute in He; discriminate He].
  assert (ev = [Cancelled 2 (Some 200%nat)]) as ->
    by (vm_compute in He; injection He as _ <- _; reflexivity).
  destruct (run Debug horizon s1
    [ATake; ATake; APoll 60000000 60000000 no_timer 7%nat]) as [[s2 evs]|] eqn:Hr;
    [|vm_compute in He; injection He as <- _; vm_compute in Hr; discriminate Hr].
  exists s1, evs, s2, woken. split; [reflexivity|].
  pose proof (timers_run_runs _ _ _ _ _ _ Hr) as Hruns.
  split; [exact Hruns|]. split.
  - vm_compute in He. injection He as <- _. vm_compute in Hr.
    injection Hr as _ <-. reflexivity.
  - apply (gone_timer_never_fires Debug horizon mid_dispatch (ACancel 2) s1 2 200%nat evs
      s2 woken (timers_after_reachable _) I (or_introl He) Hruns).
Qed.

Lemma pending_timers_counted_example :
  let t := s_timers (timers_after (three_timers ++ [AUnref 1; AUnref 2])) in
  has_pending_timers t = true ∧
  ((has_pending_timers t = true ↔
     ∃ id td, data_map t !! id = Some td ∧ unrefd td = false) ∧
  unref_len t = count unrefd (data_map t) ∧
  (timers_is_empty t = true →
     timers t = [] ∧ sleep_timer (sleep t) = None ∧ is_locked (lock_count t) = false)).
Proof.
  split; [vm_compute; reflexivity|].
  apply (pending_timers_counted Debug horizon
    (timers_after (three_timers ++ [AUnref 1; AUnref 2]))).
  apply timers_after_reachable.
Qed.

(** The first timer is cancelled after the sleep fired for it and before the first
    poll: the poll is ineffective, and no waker is left for the second timer. *)
Definition stale_signal : list (action nat) :=
  [AQueue 0 no_timer false 1 100%nat false; AQueue 0 no_timer false 1000 200%nat false;
   AFire; ACancel 1].

Lemma stale_legal : legal horizon (timers_after stale_signal)
  (APoll 2000000 2000000 no_timer 7%nat).
Proof. by apply (bool_decide_eq_true_1 _); vm_compute. Qed.

Definition stale_poll : sys nat :=
  timers_after (stale_signal ++ [APoll 2000000 2000000 no_timer 7%nat]).

Lemma pending_poll_waker_example :
  external_waker (sleep (s_timers stale_poll)) = Some 7%nat ∨
  ready (sleep (s_timers (timers_after stale_signal))) = true ∧
  external_waker (sleep (s_timers stale_poll)) =
    external_waker (sleep (s_timers (timers_after stale_signal))).
Proof.
  apply (pending_poll_waker Debug horizon (timers_after stale_signal) 2000000 2000000
    no_timer 7%nat stale_poll [] (timers_after_reachable _) stale_legal).
  vm_compute. reflexivity.
Qed.

(** The reactor then fires for the second timer and wakes nobody, although a poll
    with waker 7 returned [Pending]. *)
Lemma pending_poll_loses_waker :
  external_waker (sleep (s_timers stale_poll)) = None ∧
  schedule stale_poll = [mkKey 1000000000 2 Once false] ∧
  ∃ s', exec Debug horizon stale_poll AFire = Ret (s', [], []).
Proof.
  split; [vm_compute; reflexivity|]. split; [vm_compute; reflexivity|].
  eexists. vm_compute. reflexivity.
Qed.
