(* ===== verification/Modules.v ===== *)
(** [core/modules/mod.rs] and [core/modules/module_map_data.rs]: what the module
    map stores and how modules are found by name.

    Holds the module and import types, the two-level map from (type, name) to
    modules and aliases ([ModuleNameTypeMap]) with its laws, the data of the module
    map with its invariant, alias resolution with its termination, and the snapshot
    of the map with its round trip.  Strings are compared by content, so a
    [FastString] is its text; a [v8::Global<Module>] is known by its identity. *)

From S2P Require Import Prelude.

Abbreviation ModuleId := nat.
Abbreviation ModuleName := string.
Abbreviation handle := Z.

(** * Module types *)

Inductive ModuleType :=
  | JavaScript
  | Wasm
  | Json
  | Text
  | Bytes
  | Other (ty : string).

Inductive RequestedModuleType :=
  | RNone
  | RJson
  | RText
  | RBytes
  | ROther (ty : string).

Global Instance ModuleType_eq_dec : EqDecision ModuleType.
Proof. solve_decision. Defined.
Global Instance RequestedModuleType_eq_dec : EqDecision RequestedModuleType.
Proof. solve_decision. Defined.
Global Instance RequestedModuleType_countable : Countable RequestedModuleType.
Proof.
  refine (inj_countable'
    (λ t, match t with
          | RNone => inl 0%nat | RJson => inl 1%nat | RText => inl 2%nat
          | RBytes => inl 3%nat | ROther s => inr s
          end)
    (λ x, match x with
          | inl 0%nat => RNone | inl 1%nat => RJson | inl 2%nat => RText
          | inl _ => RBytes | inr s => ROther s
          end) _).
  by intros [].
Defined.

(** [impl From<ModuleType> for RequestedModuleType]. *)
Definition requested_of (module_type : ModuleType) : RequestedModuleType :=
  match module_type with
  | JavaScript => RNone
  | Wasm => RNone
  | Json => RJson
  | Text => RText
  | Bytes => RBytes
  | Other ty => ROther ty
  end.

(** [impl PartialEq<ModuleType> for RequestedModuleType]. *)
Definition requested_eq (self : RequestedModuleType) (other : ModuleType) : bool :=
  match other with
  | JavaScript => bool_decide (self = RNone)
  | Wasm => bool_decide (self = RNone)
  | Json => bool_decide (self = RJson)
  | Text => bool_decide (self = RText)
  | Bytes => bool_decide (self = RBytes)
  | Other ty => bool_decide (self = ROther ty)
  end.

Definition module_type_display (t : ModuleType) : string :=
  match t with
  | JavaScript => "JavaScript" | Wasm => "Wasm" | Json => "JSON"
  | Text => "Text" | Bytes => "Bytes" | Other ty => ty
  end.

Definition requested_as_str (t : RequestedModuleType) : option string :=
  match t with
  | RNone => None
  | RJson => Some "json" | RText => Some "text" | RBytes => Some "bytes"
  | ROther ty => Some ty
  end.

Definition get_requested_module_type_from_attributes (attributes : gmap string string) :
    RequestedModuleType :=
  match attributes !! "type" with
  | None => RNone
  | Some ty =>
      if decide (ty = "json") then RJson
      else if decide (ty = "text") then RText
      else if decide (ty = "bytes") then RBytes
      else ROther ty
  end.

(** [parse_import_attributes]: entries of a [FixedArray], read in groups of
    three (keyword, value, offset) or two (keyword, value). *)
Inductive ImportAttributesKind := StaticImport | DynamicImport.

Fixpoint parse_groups (fuel step : nat) (attributes : list string)
    (acc : gmap string string) : gmap string string :=
  match fuel, attributes with
  | S fuel, k :: v :: _ =>
      parse_groups fuel step (drop step attributes) (<[k := v]> acc)
  | _, _ => acc
  end.

Definition parse_import_attributes (attributes : list string)
    (kind : ImportAttributesKind) : outcome (gmap string string) :=
  let assertions_per_line := match kind with StaticImport => 3 | DynamicImport => 2 end in
  _ ← assert (bool_decide (length attributes mod assertions_per_line = 0));
  Ret (parse_groups (length attributes / assertions_per_line) assertions_per_line
         attributes ∅).

(** * References and requests *)

Record ModuleReference := mkReference {
  specifier : string;
  requested_module_type : RequestedModuleType
}.
Global Instance ModuleReference_eq_dec : EqDecision ModuleReference.
Proof. solve_decision. Defined.
Global Instance ModuleReference_countable : Countable ModuleReference.
Proof.
  refine (inj_countable' (λ r, (specifier r, requested_module_type r))
    (λ p, mkReference p.1 p.2) _).
  by intros [].
Defined.

Inductive ModuleImportPhase := Evaluation | Source | Defer.
Global Instance ModuleImportPhase_eq_dec : EqDecision ModuleImportPhase.
Proof. solve_decision. Defined.

Record ModuleRequest := mkRequest {
  reference : ModuleReference;
  specifier_key : option string;
  referrer_source_offset : option Z;
  phase : ModuleImportPhase
}.

Record ModuleInfo := mkInfo {
  info_id : ModuleId;
  info_main : bool;
  info_name : ModuleName;
  requests : list ModuleRequest;
  module_type : ModuleType
}.

Inductive SymbolicModule :=
  | Alias (target : ModuleName)
  | Mod (id : ModuleId).
Global Instance SymbolicModule_eq_dec : EqDecision SymbolicModule.
Proof. solve_decision. Defined.

(** * [ModuleNameTypeMap] *)

Record ModuleNameTypeMap (T : Type) := mkNameTypeMap {
  submaps : list (gmap ModuleName T);
  map_index : gmap RequestedModuleType nat;
  map_len : nat
}.
Arguments mkNameTypeMap {T} _ _ _.
Arguments submaps {T} _.
Arguments map_index {T} _.
Arguments map_len {T} _.

Section name_type_map.
Context {T : Type}.
Implicit Types m : ModuleNameTypeMap T.

Definition nt_default : ModuleNameTypeMap T := mkNameTypeMap [] ∅ 0.

Definition nt_get m (ty : RequestedModuleType) (name : ModuleName) : option T :=
  index ← map_index m !! ty;
  map ← submaps m !! index;
  map !! name.

Definition nt_insert m (module_type : RequestedModuleType) (name : ModuleName)
    (module : T) : outcome (ModuleNameTypeMap T) :=
  let '(index, indices, subs) :=
    match map_index m !! module_type with
    | Some index => (index, map_index m, submaps m)
    | None =>
        let index := length (submaps m) in
        (index, <[module_type := index]> (map_index m), submaps m ++ [∅])
    end in
  map ← unwrap (subs !! index);
  Ret (mkNameTypeMap (<[index := <[name := module]> map]> subs) indices
         (match map !! name with
          | None => S (map_len m)
          | Some _ => map_len m
          end)).

(** [drain]: the entries, in the iteration order of the two hash maps.  The code
    unwraps the submap of each index; [nt_ok] below says that none is missing. *)
Definition entries (ty : RequestedModuleType) (map : gmap ModuleName T) :
    list (ModuleName * RequestedModuleType * T) :=
  (λ '(name, x), (name, ty, x)) <$> map_to_list map.

Definition drain_of (subs : list (gmap ModuleName T)) (p : RequestedModuleType * nat) :
    list (ModuleName * RequestedModuleType * T) :=
  match subs !! p.2 with Some map => entries p.1 map | None => [] end.

Definition nt_drain m : list (ModuleName * RequestedModuleType * T) :=
  map_to_list (map_index m) ≫= drain_of (submaps m).

(** Distinct types own distinct submaps, and the length counts the entries. *)
Record nt_ok m : Prop := {
  nt_index_lt : ∀ ty i, map_index m !! ty = Some i → i < length (submaps m);
  nt_index_inj : ∀ ty ty' i,
    map_index m !! ty = Some i → map_index m !! ty' = Some i → ty = ty';
  nt_len : map_len m = length (nt_drain m)
}.

(** Maps that answer every lookup alike. *)
Global Instance nt_equiv : Equiv (ModuleNameTypeMap T) := λ m m',
  ∀ ty name, nt_get m ty name = nt_get m' ty name.

Global Instance nt_equivalence : Equivalence (≡@{ModuleNameTypeMap T}).
Proof.
  split.
  - by intros m ty name.
  - intros m m' H ty name. by rewrite H.
  - intros m1 m2 m3 H1 H2 ty name. by rewrite H1.
Qed.

Global Instance nt_get_proper : Proper ((≡) ==> (=) ==> (=) ==> (=)) nt_get.
Proof. intros m m' H ty ? <- name ? <-. apply H. Qed.

Lemma nt_default_ok : nt_ok nt_default.
Proof.
  split; simpl.
  - intros ty i H. by rewrite lookup_empty in H.
  - intros ty ty' i H. by rewrite lookup_empty in H.
  - unfold nt_drain. csimpl. by rewrite map_to_list_empty.
Qed.

Lemma elem_of_drain m name ty x :
  (name, ty, x) ∈ nt_drain m ↔ nt_get m ty name = Some x.
Proof.
  unfold nt_drain. rewrite list_elem_of_bind. unfold nt_get. split.
  - intros ([ty' i] & Hin & Hi%elem_of_map_to_list). unfold drain_of in Hin. simpl in *.
    destruct (submaps m !! i) as [map|] eqn:Hs; [|by apply elem_of_nil in Hin].
    apply list_elem_of_fmap in Hin as ([n y] & [= <- <- <-] & Hy%elem_of_map_to_list).
    by rewrite Hi; simpl; rewrite Hs.
  - intros Hg. destruct (map_index m !! ty) as [i|] eqn:Hi; simpl in Hg; [|done].
    destruct (submaps m !! i) as [map|] eqn:Hs; simpl in Hg; [|done].
    exists (ty, i). split; [|by apply elem_of_map_to_list].
    unfold drain_of. simpl. rewrite Hs. apply list_elem_of_fmap. exists (name, x).
    split; [done|]. by apply elem_of_map_to_list.
Qed.

(** Rewriting one submap leaves the entries of the other types alone. *)
Lemma bind_drain_ext (l : list (RequestedModuleType * nat)) subs subs' :
  (∀ p, p ∈ l → subs !! p.2 = subs' !! p.2) →
  l ≫= drain_of subs = l ≫= drain_of subs'.
Proof.
  induction l as [|p l IH]; intros H; [done|]. csimpl. rewrite IH
    by (intros q Hq; apply H; by right).
  unfold drain_of at 1 3. rewrite (H p); [done|by left].
Qed.

Lemma drain_split (mi : gmap RequestedModuleType nat) subs ty i map :
  mi !! ty = Some i → subs !! i = Some map →
  map_to_list mi ≫= drain_of subs ≡ₚ
    entries ty map ++ (map_to_list (delete ty mi) ≫= drain_of subs).
Proof.
  intros Hi Hm. rewrite <- (insert_delete_id mi ty i Hi) at 1.
  rewrite map_to_list_insert by apply lookup_delete_eq. csimpl.
  unfold drain_of at 1. simpl. by rewrite Hm.
Qed.

Lemma length_entries ty map : length (entries ty map) = size map.
Proof. unfold entries. by rewrite length_fmap, length_map_to_list. Qed.

(** What [nt_insert] does to a well-formed map. *)
Definition inserted m ty name x m' : Prop :=
  nt_ok m' ∧
  ∀ ty' name', nt_get m' ty' name' =
    if decide (ty' = ty ∧ name' = name) then Some x else nt_get m ty' name'.

Lemma nt_insert_present m ty name x i map :
  nt_ok m → map_index m !! ty = Some i → submaps m !! i = Some map →
  inserted m ty name x
    (mkNameTypeMap (<[i := <[name := x]> map]> (submaps m)) (map_index m)
       (match map !! name with None => S (map_len m) | Some _ => map_len m end)).
Proof.
  intros [Hlt Hinj Hlen] Hi Hm.
  assert (i < length (submaps m)) as Hil by eauto.
  split; [split|]; simpl.
  - by setoid_rewrite length_insert.
  - done.
  - assert (length (nt_drain m) + length (entries ty (<[name:=x]> map)) =
            length (nt_drain (mkNameTypeMap (<[i := <[name := x]> map]> (submaps m))
              (map_index m) 0)) + length (entries ty map)) as Hl.
    { unfold nt_drain. simpl. rewrite (drain_split _ (submaps m) ty i map) by done.
      rewrite (drain_split _ (<[i:=_]> (submaps m)) ty i (<[name:=x]> map))
        by (try apply list_lookup_insert_eq; done).
      rewrite !length_app.
      rewrite (bind_drain_ext _ (<[i:=<[name:=x]> map]> (submaps m)) (submaps m)); [lia|].
      intros [ty' j] [Hne Hj]%elem_of_map_to_list%lookup_delete_Some. simpl.
      rewrite list_lookup_insert_ne; [done|]. intros ->. apply Hne. eauto. }
    rewrite !length_entries in Hl. unfold nt_drain in *. simpl in *. rewrite Hlen.
    destruct (map !! name) eqn:Hn.
    + rewrite map_size_insert_Some in Hl by eauto. lia.
    + rewrite map_size_insert_None in Hl by done. lia.
  - intros ty' name'. unfold nt_get. simpl.
    destruct (decide (ty' = ty)) as [->|Hty].
    + rewrite Hi. simpl. rewrite list_lookup_insert_eq, Hm by done. simpl.
      destruct (decide (name' = name)) as [->|Hn].
      { rewrite lookup_insert_eq. by rewrite decide_True. }
      rewrite lookup_insert_ne by done. rewrite decide_False; [done|]. by intros [_ ?].
    + rewrite decide_False by (by intros [? _]).
      destruct (map_index m !! ty') as [j|] eqn:Hj; [|done]. simpl.
      rewrite list_lookup_insert_ne; [done|]. intros <-. apply Hty. eauto.
Qed.

Lemma nt_insert_absent m ty name x :
  nt_ok m → map_index m !! ty = None →
  inserted m ty name x
    (mkNameTypeMap (submaps m ++ [{[name := x]}])
       (<[ty := length (submaps m)]> (map_index m)) (S (map_len m))).
Proof.
  intros [Hlt Hinj Hlen] Hi.
  split; [split|]; simpl.
  - intros ty' j. rewrite length_app. simpl.
    intros [[<- <-]|[Hne Hj%Hlt]]%lookup_insert_Some; lia.
  - intros t1 t2 j H1 H2. rewrite lookup_insert_Some in H1, H2.
    destruct H1 as [[<- <-]|[? H1]], H2 as [[<- H2]|[? H2]]; try done; eauto.
    + apply Hlt in H2. lia.
    + apply Hlt in H1. lia.
  - unfold nt_drain. csimpl. rewrite map_to_list_insert by done. csimpl.
    rewrite length_app. unfold drain_of at 1. simpl.
    rewrite lookup_app_r, Nat.sub_diag by lia. simpl.
    rewrite length_entries, map_size_singleton, Hlen. simpl. do 2 f_equal.
    apply bind_drain_ext. intros [ty' j] Hj%elem_of_map_to_list. simpl.
    rewrite lookup_app_l; [done|]. eauto.
  - intros ty' name'. unfold nt_get. simpl.
    destruct (decide (ty' = ty)) as [->|Hty].
    + rewrite lookup_insert_eq, Hi. simpl. rewrite lookup_app_r, Nat.sub_diag by lia. simpl.
      destruct (decide (name' = name)) as [->|Hn].
      { rewrite lookup_singleton_eq. by rewrite decide_True. }
      rewrite lookup_singleton_ne by done. rewrite decide_False; [done|]. by intros [_ ?].
    + rewrite lookup_insert_ne by done. rewrite decide_False by (by intros [? _]).
      destruct (map_index m !! ty') as [j|] eqn:Hj; [|done]. simpl.
      by rewrite lookup_app_l by eauto.
Qed.

Lemma nt_insert_spec m ty name x :
  nt_ok m → ∃ m', nt_insert m ty name x = Ret m' ∧ inserted m ty name x m'.
Proof.
  intros Hok. unfold nt_insert. destruct (map_index m !! ty) as [i|] eqn:Hi.
  - destruct (submaps m !! i) as [map|] eqn:Hm.
    + simpl. eexists. split; [done|]. by apply nt_insert_present.
    + apply lookup_ge_None in Hm. apply (nt_index_lt _ Hok) in Hi. lia.
  - rewrite lookup_app_r, Nat.sub_diag by lia. simpl.
    eexists. split; [done|]. rewrite lookup_empty.
    rewrite insert_app_r_alt, Nat.sub_diag by lia. simpl. rewrite insert_empty.
    by apply nt_insert_absent.
Qed.
End name_type_map.

(** * [ModuleMapData] *)

Inductive ModuleSourceType :=
  | Loaded (t : ModuleType)
  | Requested (t : RequestedModuleType).
Global Instance ModuleSourceType_eq_dec : EqDecision ModuleSourceType.
Proof. solve_decision. Defined.

Record ModuleSourceKey := mkSourceKey {
  key_name : ModuleName;
  key_typ : ModuleSourceType
}.
Global Instance ModuleSourceKey_eq_dec : EqDecision ModuleSourceKey.
Proof. solve_decision. Defined.

Global Instance ModuleType_countable : Countable ModuleType.
Proof.
  refine (inj_countable'
    (λ t, match t with
          | JavaScript => inl RNone | Wasm => inr tt
          | Json => inl RJson | Text => inl RText | Bytes => inl RBytes
          | Other s => inl (ROther s)
          end)
    (λ x, match x with
          | inl RNone => JavaScript | inr _ => Wasm
          | inl RJson => Json | inl RText => Text | inl RBytes => Bytes
          | inl (ROther s) => Other s
          end) _).
  by intros [].
Defined.
Global Instance ModuleSourceType_countable : Countable ModuleSourceType.
Proof.
  refine (inj_countable' (λ t, match t with Loaded a => inl a | Requested b => inr b end)
    (λ x, match x with inl a => Loaded a | inr b => Requested b end) _).
  by intros [].
Defined.
Global Instance ModuleSourceKey_countable : Countable ModuleSourceKey.
Proof.
  refine (inj_countable' (λ k, (key_name k, key_typ k)) (λ p, mkSourceKey p.1 p.2) _).
  by intros [].
Defined.

Inductive ModuleSourceKind := KindWasm.

Definition from_module_type (module_type : ModuleType) : option ModuleSourceKind :=
  match module_type with Wasm => Some KindWasm | _ => None end.

(** Values of the JavaScript heap, functions and objects, are known by identity. *)
Abbreviation js_global := Z.

Record ModuleMapData := mkMapData {
  handles_inverted : gmap handle ModuleId;
  handles : list handle;
  main_module_callbacks : list js_global;
  info : list ModuleInfo;
  by_name : ModuleNameTypeMap SymbolicModule;
  next_load_id : Z;
  main_module_id : option ModuleId;
  synthetic_module_exports_store : gmap handle (list (string * js_global));
  lazy_esm_sources : gmap ModuleName string;
  sources : gmap ModuleSourceKey js_global
}.

Definition MapData_default : ModuleMapData :=
  mkMapData ∅ [] [] [] nt_default 0 None ∅ ∅ ∅.

Implicit Types d : ModuleMapData.

Definition set_by_name d (bn : ModuleNameTypeMap SymbolicModule) : ModuleMapData :=
  mkMapData (handles_inverted d) (handles d) (main_module_callbacks d) (info d) bn
    (next_load_id d) (main_module_id d) (synthetic_module_exports_store d)
    (lazy_esm_sources d) (sources d).

Definition create_module_info d (name : ModuleName) (module_type : ModuleType)
    (h : handle) (main : bool) (reqs : list ModuleRequest) :
    outcome (ModuleId * ModuleMapData) :=
  let id := length (handles d) in
  let requested_module_type := requested_of module_type in
  bn ← nt_insert (by_name d) requested_module_type name (Mod id);
  Ret (id, mkMapData (<[h := id]> (handles_inverted d)) (handles d ++ [h])
             (main_module_callbacks d)
             (info d ++ [mkInfo id main name reqs module_type]) bn
             (next_load_id d) (if main then Some id else main_module_id d)
             (synthetic_module_exports_store d) (lazy_esm_sources d) (sources d)).

(** The loop of [get_id] follows aliases until a module or a missing name. *)
Fixpoint get_id_loop (p : profile) (fuel : nat) d (ty : RequestedModuleType)
    (mod_name : ModuleName) : outcome (option ModuleId) :=
  match fuel with
  | 0 => Panic OutOfFuel
  | S fuel =>
      match nt_get (by_name d) ty mod_name with
      | None => Ret None
      | Some (Alias target) =>
          _ ← debug_assert p (bool_decide (mod_name ≠ target));
          get_id_loop p fuel d ty target
      | Some (Mod mod_id) => Ret (Some mod_id)
      end
  end.

Definition get_id (p : profile) (fuel : nat) d (name : ModuleName)
    (requested_module_type : RequestedModuleType) : outcome (option ModuleId) :=
  match nt_get (by_name d) requested_module_type name with
  | None => Ret None
  | Some (Mod mod_id) => Ret (Some mod_id)
  | Some (Alias target) => get_id_loop p fuel d requested_module_type target
  end.

Definition alias (p : profile) d (name : ModuleName)
    (requested_module_type : RequestedModuleType) (target : ModuleName) :
    outcome ModuleMapData :=
  _ ← debug_assert p (bool_decide (name ≠ target));
  bn ← nt_insert (by_name d) requested_module_type name (Alias target);
  Ret (set_by_name d bn).

Definition get_handle d (id : ModuleId) : option handle := handles d !! id.
Definition get_name_by_id d (id : ModuleId) : option ModuleName :=
  info_name <$> info d !! id.
Definition get_name_by_module d (global : handle) : option ModuleName :=
  id ← handles_inverted d !! global; get_name_by_id d id.
Definition get_info_by_module d (global : handle) : outcome (option ModuleInfo) :=
  match handles_inverted d !! global with
  | Some id => i ← unwrap (info d !! id); Ret (Some i)
  | None => Ret None
  end.
Definition get_type_by_module d (global : handle) : outcome (option ModuleType) :=
  match handles_inverted d !! global with
  | Some id => i ← unwrap (info d !! id); Ret (Some (module_type i))
  | None => Ret None
  end.
Definition is_main_module d (global : handle) : bool :=
  match main_module_id d with
  | Some id => bool_decide (handles_inverted d !! global = Some id)
  | None => false
  end.

(** [ModuleMap::next_load_id]: an [i32] counter. *)
Definition fresh_load_id (p : profile) d : outcome (Z * ModuleMapData) :=
  n ← add_s p 32 (next_load_id d) 1;
  id ← add_s p 32 (next_load_id d) 1;
  Ret (id, mkMapData (handles_inverted d) (handles d) (main_module_callbacks d)
             (info d) (by_name d) n (main_module_id d)
             (synthetic_module_exports_store d) (lazy_esm_sources d) (sources d)).

(** * Alias resolution *)

Inductive resolves d (ty : RequestedModuleType) : ModuleName → ModuleId → Prop :=
  | resolves_mod name id :
      nt_get (by_name d) ty name = Some (Mod id) → resolves d ty name id
  | resolves_alias name target id :
      nt_get (by_name d) ty name = Some (Alias target) → resolves d ty target id →
      resolves d ty name id.

Definition aliases d ty (name target : ModuleName) : Prop :=
  nt_get (by_name d) ty name = Some (Alias target).

(** The aliases that [name] leads to never come back to a name. *)
Definition acyclic_from d ty (name : ModuleName) : Prop :=
  ∀ n, rtc (aliases d ty) name n → ¬ tc (aliases d ty) n n.

Lemma resolves_functional d ty name id id' :
  resolves d ty name id → resolves d ty name id' → id = id'.
Proof.
  intros H. revert id'. induction H; intros id'; inversion 1; simplify_eq; auto.
Qed.

(** The names with an entry of a type are at most as many as the entries. *)
Lemma names_bound (m : ModuleNameTypeMap SymbolicModule) ty (ns : list ModuleName) :
  nt_ok m → NoDup ns → (∀ n, n ∈ ns → is_Some (nt_get m ty n)) →
  length ns <= map_len m.
Proof.
  intros Hok Hnd Hns. rewrite (nt_len _ Hok).
  rewrite <- (length_fmap (λ e : ModuleName * _ * SymbolicModule, e.1.1)).
  apply submseteq_length, NoDup_submseteq; [done|].
  intros n Hn. destruct (Hns n Hn) as [x Hx]. apply list_elem_of_fmap.
  exists (n, ty, x). split; [done|]. by apply elem_of_drain.
Qed.

(** The loop with enough fuel, started after the aliases [vs] were followed. *)
Lemma get_id_loop_spec p d ty fuel name vs :
  nt_ok (by_name d) → acyclic_from d ty name → NoDup vs →
  (∀ v, v ∈ vs → is_Some (nt_get (by_name d) ty v) ∧ tc (aliases d ty) v name) →
  map_len (by_name d) < length vs + fuel →
  ∃ r, get_id_loop p fuel d ty name = Ret r ∧ ∀ id, r = Some id ↔ resolves d ty name id.
Proof.
  intros Hok. revert name vs. induction fuel as [|fuel IH]; intros name vs Hac Hnd Hvs Hlen.
  { exfalso. pose proof (names_bound _ ty vs Hok Hnd) as Hb.
    assert (length vs <= map_len (by_name d)); [|lia]. apply Hb. intros n Hn. by apply Hvs. }
  simpl. destruct (nt_get (by_name d) ty name) as [[target|id]|] eqn:Hg.
  - assert (name ≠ target) as Hne.
    { intros <-. apply (Hac name); [done|]. by apply tc_once. }
    rewrite debug_assert_true by by apply bool_decide_eq_true. simpl.
    destruct (IH target (name :: vs)) as (r & Hr & Hid).
    + intros n Hn. apply Hac. by eapply rtc_l.
    + constructor; [|done]. intros [_ Hin]%Hvs. by apply (Hac name).
    + intros v [->|Hv]%elem_of_cons; [split; [eauto|by apply tc_once]|].
      destruct (Hvs v Hv) as [? Htc]. split; [done|]. eapply tc_r; [done|]. done.
    + simpl. lia.
    + exists r. split; [done|]. intros id. rewrite Hid. split.
      * by apply resolves_alias.
      * by inversion 1; simplify_eq.
  - exists (Some id). split; [done|]. intros id'. split.
    + intros [= <-]. by constructor.
    + by inversion 1; simplify_eq.
  - exists None. split; [done|]. intros id. split; [done|]. by inversion 1; simplify_eq.
Qed.

(** On a cycle the loop never ends. *)
Lemma get_id_loop_cycle d ty fuel name :
  (∀ n, rtc (aliases d ty) name n → ∃ n', aliases d ty n n') →
  get_id_loop Release fuel d ty name = Panic OutOfFuel.
Proof.
  revert name. induction fuel as [|fuel IH]; intros name Hc; [done|]. simpl.
  destruct (Hc name) as [target Ht]; [done|]. unfold aliases in Ht. rewrite Ht. simpl.
  apply IH. intros n Hn. apply Hc. by eapply rtc_l.
Qed.

Lemma aliases_det d ty n a b : aliases d ty n a → aliases d ty n b → a = b.
Proof. unfold aliases. congruence. Qed.

(** From a name on a cycle every alias can be followed further. *)
Lemma cycle_goes_on d ty n m :
  tc (aliases d ty) n n → rtc (aliases d ty) n m → tc (aliases d ty) m m.
Proof.
  intros Hc Hr. induction Hr as [|n n' m Hn Hr IH]; [done|]. apply IH.
  inversion Hc as [? ? Hn'|? n1 ? Hn' Hc']; subst;
    rewrite (aliases_det _ _ _ _ _ Hn Hn') in *; [done|by eapply tc_r].
Qed.

(** Two names on the chain of a third lead to one another. *)
Lemma aliases_linear d ty a m n :
  rtc (aliases d ty) a m → rtc (aliases d ty) a n →
  rtc (aliases d ty) m n ∨ rtc (aliases d ty) n m.
Proof.
  intros Hm. revert n. induction Hm as [|a a' m Ha Hm IH]; intros n Hn; [by left|].
  inversion Hn as [|? a1 ? Ha1 Hn']; subst; [right; by eapply rtc_l|].
  rewrite (aliases_det _ _ _ _ _ Ha Ha1) in *. auto.
Qed.

Lemma chain_to_cycle_goes_on d ty name n m :
  rtc (aliases d ty) name n → tc (aliases d ty) n n → rtc (aliases d ty) name m →
  ∃ m', aliases d ty m m'.
Proof.
  intros Hn Hc Hm. destruct (aliases_linear _ _ _ _ _ Hn Hm) as [Hnm|Hmn].
  - pose proof (cycle_goes_on _ _ _ _ Hc Hnm) as Hcm. inversion Hcm; subst; eauto.
  - inversion Hmn; subst; [inversion Hc; subst; eauto|eauto].
Qed.

(** The two ways a lookup can go. *)
Lemma get_id_acyclic p d name ty fuel :
  nt_ok (by_name d) → acyclic_from d ty name → map_len (by_name d) < fuel →
  ∃ r, get_id p fuel d name ty = Ret r ∧ ∀ id, r = Some id ↔ resolves d ty name id.
Proof.
  intros Hok Hac Hf. unfold get_id.
  destruct (nt_get (by_name d) ty name) as [[target|id]|] eqn:Hg.
  - destruct (get_id_loop_spec p d ty fuel target [] Hok) as (r & Hr & Hid);
      [|constructor|by intros v ?%elem_of_nil|simpl; lia|].
    { intros n Hn. apply Hac. by eapply rtc_l. }
    exists r. split; [done|]. intros id. rewrite Hid. split.
    + by apply resolves_alias.
    + by inversion 1; simplify_eq.
  - exists (Some id). split; [done|]. intros id'. split.
    + intros [= <-]. by constructor.
    + by inversion 1; simplify_eq.
  - exists None. split; [done|]. intros id. split; [done|]. by inversion 1; simplify_eq.
Qed.

Lemma get_id_cyclic d name ty n fuel :
  rtc (aliases d ty) name n → tc (aliases d ty) n n →
  get_id Release fuel d name ty = Panic OutOfFuel.
Proof.
  intros Hn Hc. unfold get_id.
  destruct (chain_to_cycle_goes_on d ty name n name Hn Hc) as [target Ht]; [done|].
  unfold aliases in Ht. rewrite Ht. apply get_id_loop_cycle.
  intros m Hm. apply (chain_to_cycle_goes_on d ty name n m Hn Hc).
  by apply (rtc_l _ _ target).
Qed.

(** * The invariant of the module map *)

Record map_ok d : Prop := {
  d_names : nt_ok (by_name d);
  d_len : length (info d) = length (handles d);
  d_inv : ∀ h i, handles_inverted d !! h = Some i ↔ handles d !! i = Some h;
  d_ids : ∀ i x, info d !! i = Some x → info_id x = i;
  d_mods : ∀ ty n id, nt_get (by_name d) ty n = Some (Mod id) →
    ∃ x, info d !! id = Some x ∧ info_name x = n ∧ requested_of (module_type x) = ty;
  d_main : ∀ id, main_module_id d = Some id →
    ∃ x, info d !! id = Some x ∧ info_main x = true
}.

Lemma map_default_ok : map_ok MapData_default.
Proof.
  by split.
Qed.

Lemma resolves_registered d ty n id :
  map_ok d → resolves d ty n id → is_Some (info d !! id).
Proof.
  intros Hok. induction 1 as [n id Hg|]; [|done].
  destruct (d_mods _ Hok _ _ _ Hg) as (x & ? & _). eauto.
Qed.

Lemma handles_bound d h i : map_ok d → handles_inverted d !! h = Some i → i < length (info d).
Proof.
  intros Hok Hi%(d_inv _ Hok). rewrite (d_len _ Hok). by eapply lookup_lt_Some.
Qed.

(** [create_module_info] as a state: the new module gets the next index. *)
Lemma create_module_info_spec d name ty h main reqs :
  map_ok d → h ∉ handles d →
  ∃ d', create_module_info d name ty h main reqs = Ret (length (info d), d') ∧
    map_ok d' ∧
    info d' = info d ++ [mkInfo (length (info d)) main name reqs ty] ∧
    handles d' = handles d ++ [h] ∧
    main_module_id d' = (if main then Some (length (info d)) else main_module_id d) ∧
    inserted (by_name d) (requested_of ty) name (Mod (length (info d))) (by_name d').
Proof.
  intros Hok Hh. pose proof Hok as [Hn Hl Hi Hids Hm Hmain]. unfold create_module_info.
  destruct (nt_insert_spec (by_name d) (requested_of ty) name
    (Mod (length (handles d))) Hn) as (bn & -> & Hins).
  simpl. rewrite <- Hl in *. eexists. split; [done|].
  assert (∀ i, is_Some (info d !! i) → i ≠ length (info d)) as Hlt.
  { intros i Hs%lookup_lt_is_Some. lia. }
  split; [split|]; simpl; [apply Hins|by rewrite !length_app, Hl| | | | |done].
  - intros h' i. rewrite lookup_insert_Some, lookup_snoc_Some, <- Hl, Hi.
    split.
    + intros [[<- <-]|[Hne Hl']]; [by right|left]. split; [|done].
      apply lookup_lt_Some in Hl'. lia.
    + intros [[? Hl']|[-> ->]]; [right|by left]. split; [|done].
      intros ->. apply Hh. by eapply list_elem_of_lookup_2.
  - intros i x [[_ ?]|[-> <-]]%lookup_snoc_Some; [auto|done].
  - intros ty' n id Hg. rewrite (proj2 Hins) in Hg. case_decide as Hd.
    + destruct Hd as [-> ->]. injection Hg as <-.
      eexists. rewrite lookup_app_r, Nat.sub_diag by done. done.
    + destruct (Hm _ _ _ Hg) as (x & Hx & ?). exists x.
      split; [|done]. by apply lookup_app_l_Some.
  - intros id Hid. destruct main.
    + injection Hid as <-. eexists. rewrite lookup_app_r, Nat.sub_diag by done. done.
    + destruct (Hmain id Hid) as (x & Hx & ?). exists x. split; [|done].
      by apply lookup_app_l_Some.
Qed.

Lemma alias_spec p d name ty target :
  map_ok d → name ≠ target →
  ∃ d', alias p d name ty target = Ret d' ∧ map_ok d' ∧
    info d' = info d ∧ handles d' = handles d ∧
    inserted (by_name d) ty name (Alias target) (by_name d').
Proof.
  intros Hok Hne. pose proof Hok as [Hn Hl Hi Hids Hm Hmain]. unfold alias.
  rewrite debug_assert_true by by apply bool_decide_eq_true. simpl.
  destruct (nt_insert_spec (by_name d) ty name (Alias target) Hn) as (bn & -> & Hins).
  simpl. eexists. split; [done|]. split; [split|]; simpl; try done; [apply Hins|].
  intros ty' n id Hg. rewrite (proj2 Hins) in Hg. case_decide; [done|]. eauto.
Qed.

(** A registration under a name that led nowhere keeps every resolution. *)
Lemma resolves_create d ty name id bn ty' n id' :
  (∀ id0, ¬ resolves d ty name id0) →
  inserted (by_name d) ty name (Mod id) bn →
  resolves d ty' n id' → resolves (set_by_name d bn) ty' n id'.
Proof.
  intros Hno [_ Hins] H. induction H as [n id0 Hg|n target id0 Hg Hr IH].
  - constructor. simpl. rewrite Hins. case_decide as Hd; [|done].
    destruct Hd as [-> ->]. exfalso. by apply (Hno id0), resolves_mod.
  - eapply resolves_alias; [|done]. simpl. rewrite Hins. case_decide as Hd; [|done].
    destruct Hd as [-> ->]. exfalso. by eapply Hno, resolves_alias.
Qed.

Lemma resolves_ext d d' ty n id :
  by_name d ≡ by_name d' → resolves d ty n id → resolves d' ty n id.
Proof.
  intros He. induction 1 as [n id Hg|n target id Hg Hr IH].
  - constructor. by rewrite <- (He ty n).
  - eapply resolves_alias; [|done]. by rewrite <- (He ty n).
Qed.

(** * Properties *)

(** [ModuleNameTypeMap] behaves as a map keyed by type and name: an insertion
    never fails, is found under its key only, and the length counts the distinct
    keys, which are what [drain] enumerates. *)
Lemma name_type_map_laws {T} (m : ModuleNameTypeMap T) ty name x :
  nt_ok m →
  ∃ m', nt_insert m ty name x = Ret m' ∧ nt_ok m' ∧
    nt_get m' ty name = Some x ∧
    (∀ ty' name', (ty', name') ≠ (ty, name) → nt_get m' ty' name' = nt_get m ty' name') ∧
    (∀ ty' name' y, (name', ty', y) ∈ nt_drain m' ↔ nt_get m' ty' name' = Some y) ∧
    map_len m' = length (nt_drain m').
Proof.
  intros Hok. destruct (nt_insert_spec m ty name x Hok) as (m' & He & Hok' & Hget).
  exists m'. split; [done|]. split; [done|]. split; [|split; [|split]].
  - by rewrite Hget, decide_True.
  - intros ty' name' Hne. rewrite Hget, decide_False; [done|]. intros [-> ->]. done.
  - intros. apply elem_of_drain.
  - apply Hok'.
Qed.

(** Looking a name up terminates exactly when its aliases do not loop: then,
    with more steps than the map has entries, the answer is the module at the end
    of the alias chain and nothing if the chain leads nowhere; on a loop of aliases
    no number of steps is enough. *)
Lemma get_id_resolves p d name ty :
  nt_ok (by_name d) →
  (acyclic_from d ty name → ∀ fuel, map_len (by_name d) < fuel →
     ∃ r, get_id p fuel d name ty = Ret r ∧ ∀ id, r = Some id ↔ resolves d ty name id) ∧
  (∀ n, rtc (aliases d ty) name n → tc (aliases d ty) n n →
     ∀ fuel, get_id Release fuel d name ty = Panic OutOfFuel).
Proof.
  intros Hok. split; intros.
  - by apply get_id_acyclic.
  - by eapply get_id_cyclic.
Qed.

(** A registered module is found again by its name and type, by its index and
    by its handle, it is the main module only if it was registered so, and names
    that resolved keep resolving to the same module if the new name led nowhere. *)
Lemma created_module_found p fuel d name ty h main reqs :
  map_ok d → h ∉ handles d →
  ∃ d' id, create_module_info d name ty h main reqs = Ret (id, d') ∧ map_ok d' ∧
    get_id p fuel d' name (requested_of ty) = Ret (Some id) ∧
    get_handle d' id = Some h ∧ get_name_by_module d' h = Some name ∧
    get_type_by_module d' h = Ret (Some ty) ∧
    is_main_module d' h = main ∧
    ((∀ id0, ¬ resolves d (requested_of ty) name id0) →
       ∀ ty' n id', resolves d ty' n id' → resolves d' ty' n id').
Proof.
  intros Hok Hh.
  destruct (create_module_info_spec d name ty h main reqs Hok Hh)
    as (d' & He & Hok' & Hinfo & Hhs & Hmain & Hins).
  exists d', (length (info d)). split; [done|]. split; [done|].
  assert (handles_inverted d' !! h = Some (length (info d))) as Hinv.
  { apply (d_inv _ Hok'). rewrite Hhs, (d_len _ Hok), lookup_app_r, Nat.sub_diag by done. done. }
  assert (info d' !! length (info d) = Some (mkInfo (length (info d)) main name reqs ty))
    as Hi by (rewrite Hinfo, lookup_app_r, Nat.sub_diag by done; done).
  split; [|split; [|split; [|split; [|split]]]].
  - unfold get_id. by rewrite (proj2 Hins), decide_True.
  - apply (d_inv _ Hok'), Hinv.
  - unfold get_name_by_module, get_name_by_id. rewrite Hinv. simpl. by rewrite Hi.
  - unfold get_type_by_module. by rewrite Hinv, Hi.
  - unfold is_main_module. rewrite Hmain. destruct main.
    + by rewrite bool_decide_true.
    + destruct (main_module_id d) as [id|] eqn:Hm; [|done].
      apply bool_decide_eq_false. rewrite Hinv. intros [= <-].
      destruct (d_main _ Hok _ Hm) as (x & Hx%lookup_lt_Some & _). lia.
  - intros Hno ty' n id' Hr. eapply resolves_ext; [|by eapply resolves_create].
    by intros ??.
Qed.

(** * Concrete maps *)

(** [a] redirects to [b]; then [b] is found to redirect to [a]: two loads that ran
    at the same time, as [ModuleMap::new_module] records them. *)
Definition redirected : outcome ModuleMapData :=
  d ← alias Release MapData_default "file:///a.js" RNone "file:///b.js";
  '(_, d) ← create_module_info d "file:///b.js" JavaScript 100 false [];
  Ret d.

Definition looping : outcome ModuleMapData :=
  d ← redirected; alias Release d "file:///b.js" RNone "file:///a.js".

Definition from_outcome (o : outcome ModuleMapData) : ModuleMapData :=
  match o with Ret d => d | Panic _ => MapData_default end.

Lemma redirected_ok : map_ok (from_outcome redirected).
Proof.
  unfold redirected.
  destruct (alias_spec Release MapData_default "file:///a.js" RNone "file:///b.js")
    as (d1 & -> & Hok1 & _ & Hhs & _); [apply map_default_ok|done|]. simpl.
  destruct (create_module_info_spec d1 "file:///b.js" JavaScript 100 false [])
    as (d2 & -> & Hok2 & _); [done|by rewrite Hhs; apply not_elem_of_nil|]. done.
Qed.

Lemma looping_ok : nt_ok (by_name (from_outcome looping)).
Proof.
  unfold looping. pose proof redirected_ok as Hok.
  destruct redirected as [d|] eqn:Hr; [|vm_compute in Hr; discriminate Hr]. simpl in *.
  destruct (alias_spec Release d "file:///b.js" RNone "file:///a.js")
    as (d1 & -> & Hok1 & _); [done|done|]. apply Hok1.
Qed.

(** The lookup of a module that was registered never ends. *)
Lemma redirect_loop_hangs fuel :
  get_id Release fuel (from_outcome looping) "file:///b.js" RNone = Panic OutOfFuel.
Proof.
  unfold get_id.
  replace (nt_get (by_name (from_outcome looping)) RNone "file:///b.js")
    with (Some (Alias "file:///a.js")) by (vm_compute; reflexivity).
  apply get_id_loop_cycle.
  assert (aliases (from_outcome looping) RNone "file:///a.js" "file:///b.js") as Hab
    by (unfold aliases; vm_compute; reflexivity).
  assert (aliases (from_outcome looping) RNone "file:///b.js" "file:///a.js") as Hba
    by (unfold aliases; vm_compute; reflexivity).
  intros n Hn. apply (cycle_goes_on _ _ _ n) in Hn; [inversion Hn; subst; eauto|].
  by eapply tc_l, tc_once.
Qed.

Lemma name_type_map_laws_example :
  let m : ModuleNameTypeMap nat := nt_default in
  ∃ m', nt_insert m RJson "http://example.com/" 1 = Ret m' ∧ nt_ok m' ∧
    nt_get m' RJson "http://example.com/" = Some 1 ∧
    (∀ ty' name', (ty', name') ≠ (RJson, "http://example.com/") →
       nt_get m' ty' name' = nt_get m ty' name') ∧
    (∀ ty' name' y, (name', ty', y) ∈ nt_drain m' ↔ nt_get m' ty' name' = Some y) ∧
    map_len m' = length (nt_drain m').
Proof.
  apply (name_type_map_laws nt_default RJson "http://example.com/" 1).
  apply nt_default_ok.
Qed.

Lemma get_id_resolves_example :
  let d := from_outcome redirected in
  get_id Release 3 d "file:///a.js" RNone = Ret (Some 0) ∧
  (acyclic_from d RNone "file:///a.js" → ∀ fuel, map_len (by_name d) < fuel →
     ∃ r, get_id Release fuel d "file:///a.js" RNone = Ret r ∧
          ∀ id, r = Some id ↔ resolves d RNone "file:///a.js" id) ∧
  (∀ n, rtc (aliases d RNone) "file:///a.js" n → tc (aliases d RNone) n n →
     ∀ fuel, get_id Release fuel d "file:///a.js" RNone = Panic OutOfFuel).
Proof.
  split; [vm_compute; reflexivity|].
  apply (get_id_resolves Release (from_outcome redirected) "file:///a.js" RNone).
  apply redirected_ok.
Qed.

Lemma created_module_found_example :
  let d := from_outcome redirected in
  ∃ d' id,
    create_module_info d "file:///c.json" Json 101 true [] = Ret (id, d') ∧ map_ok d' ∧
    get_id Debug 0 d' "file:///c.json" RJson = Ret (Some id) ∧
    get_handle d' id = Some 101%Z ∧ get_name_by_module d' 101 = Some "file:///c.json" ∧
    get_type_by_module d' 101 = Ret (Some Json) ∧ is_main_module d' 101 = true ∧
    ((∀ id0, ¬ resolves d RJson "file:///c.json" id0) →
       ∀ ty' n id', resolves d ty' n id' → resolves d' ty' n id').
Proof.
  apply (created_module_found Debug 0 (from_outcome redirected) "file:///c.json" Json 101
    true []); [apply redirected_ok|].
  replace (handles (from_outcome redirected)) with [100%Z] by (vm_compute; reflexivity).
  by intros ?%list_elem_of_singleton.
Qed.
