(* ===== verification/Snapshot.v ===== *)
(** [core/runtime/snapshot.rs] and the snapshot of [core/modules/module_map_data.rs]:
    how the module map survives the serialization of the runtime.

    Holds the framing of a snapshot blob ([serialize], [deconstruct]), the stores of
    V8 data indexed by [u32] identifiers, the serialized module map, and the round
    trips.  The blobs of V8 and of the sidecar codec (bincode) are byte lists given
    as arguments; [revive] maps an object of the old heap to the one V8 restores. *)

From S2P Require Import Prelude Modules.
Local Open Scope Z_scope.

Abbreviation byte := Z.
Abbreviation SnapshotDataId := Z.

(** [std::mem::size_of::<usize>()]. *)
Definition ULEN : nat := 8.

(** * Framing *)

Fixpoint to_le_bytes (n : nat) (x : Z) : list byte :=
  match n with
  | O => []
  | S n => x mod 256 :: to_le_bytes n (x / 256)
  end.

Fixpoint from_le_bytes (l : list byte) : Z :=
  match l with [] => 0 | b :: l => b + 256 * from_le_bytes l end.

(** Slicing: [slice] panics when the range is not inside the slice. *)
Definition slice {A} (l : list A) (from to : Z) : outcome (list A) :=
  if decide (0 <= from <= to ∧ to <= Z.of_nat (length l)) then
    Ret (take (Z.to_nat (to - from)) (drop (Z.to_nat from) l))
  else Panic OutOfBounds.

Definition serialize (v8_data sidecar_data : list byte) : list byte :=
  v8_data ++ sidecar_data ++ to_le_bytes ULEN (Z.of_nat (length v8_data)).

(** The V8 blob and the bytes of the sidecar data. *)
Definition deconstruct (p : profile) (blob : list byte) :
    outcome (list byte * list byte) :=
  let n := Z.of_nat (length blob) in
  tail ← sub_w p 64 n (Z.of_nat ULEN);
  len_bytes ← slice blob tail n;
  let len := from_le_bytes len_bytes in
  tail' ← sub_w p 64 n (Z.of_nat ULEN);
  sidecar ← slice blob len tail';
  v8 ← slice blob 0 len;
  Ret (v8, sidecar).

(** * Data stores *)

(** A [v8::Global<v8::Data>]: what [Local::try_from] can tell apart. *)
Inductive Data :=
  | DModule (h : handle)
  | DFunction (f : js_global)
  | DTemplate (t : js_global).
Global Instance Data_eq_dec : EqDecision Data.
Proof. solve_decision. Defined.

Abbreviation StoreDataStore := (list Data).
Abbreviation LoadDataStore := (list (option Data)).

Definition register (store : StoreDataStore) (global : Data) :
    SnapshotDataId * StoreDataStore :=
  (Z.of_nat (length store) mod 2 ^ 32, store ++ [global]).

Fixpoint register_all (store : StoreDataStore) (globals : list Data) :
    list SnapshotDataId * StoreDataStore :=
  match globals with
  | [] => ([], store)
  | g :: globals =>
      let '(id, store) := register store g in
      let '(ids, store) := register_all store globals in
      (id :: ids, store)
  end.

(** [SnapshotLoadDataStore::get]: each entry can be taken once. *)
Definition get (store : LoadDataStore) (id : SnapshotDataId) :
    outcome (Data * LoadDataStore) :=
  match store !! Z.to_nat id with
  | None => Panic Unwrap
  | Some None => Panic Unwrap
  | Some (Some data) => Ret (data, <[Z.to_nat id := None]> store)
  end.

Definition get_module (store : LoadDataStore) (id : SnapshotDataId) :
    outcome (handle * LoadDataStore) :=
  '(data, store) ← get store id;
  match data with DModule h => Ret (h, store) | _ => Panic Unwrap end.

Definition get_function (store : LoadDataStore) (id : SnapshotDataId) :
    outcome (js_global * LoadDataStore) :=
  '(data, store) ← get store id;
  match data with DFunction f => Ret (f, store) | _ => Panic Unwrap end.

Definition get_template (store : LoadDataStore) (id : SnapshotDataId) :
    outcome (js_global * LoadDataStore) :=
  '(data, store) ← get store id;
  match data with DTemplate t => Ret (t, store) | _ => Panic Unwrap end.

Fixpoint get_all {A} (f : LoadDataStore → SnapshotDataId → outcome (A * LoadDataStore))
    (store : LoadDataStore) (ids : list SnapshotDataId) :
    outcome (list A * LoadDataStore) :=
  match ids with
  | [] => Ret ([], store)
  | id :: ids =>
      '(x, store) ← f store id;
      '(xs, store) ← get_all f store ids;
      Ret (x :: xs, store)
  end.

(** [store_snapshotted_data_for_snapshot] adds the data to the context in order,
    [load_snapshotted_data_from_snapshot] reads [data_count] items back. *)
Section v8_heap.
Context (revive : Z → Z).

Definition revive_data (d : Data) : Data :=
  match d with DModule h => DModule (revive h) | DFunction f => DFunction (revive f) | DTemplate t => DTemplate (revive t) end.

Definition data_count (store : StoreDataStore) : Z := Z.of_nat (length store) mod 2 ^ 32.

Definition load_data (store : StoreDataStore) : LoadDataStore :=
  Some ∘ revive_data <$> take (Z.to_nat (data_count store)) store.
End v8_heap.

(** * The module map *)

Record ModuleMapSnapshotData := mkSnapshot {
  s_next_load_id : Z;
  s_main_module_id : option Z;
  s_modules : list ModuleInfo;
  s_module_handles : list SnapshotDataId;
  s_main_module_callbacks : list SnapshotDataId;
  s_by_name : list (ModuleName * RequestedModuleType * SymbolicModule)
}.

(** [as i32] and back [as usize]. *)
Definition as_i32 (n : nat) : Z := (Z.of_nat n + 2 ^ 31) mod 2 ^ 32 - 2 ^ 31.
Definition as_usize (z : Z) : nat := Z.to_nat (z mod 2 ^ 64).

Definition serialize_for_snapshotting (p : profile) (d : ModuleMapData)
    (store : StoreDataStore) : outcome (ModuleMapSnapshotData * StoreDataStore) :=
  _ ← debug_assert p (bool_decide (map_len (by_name d) = length (handles d)));
  _ ← debug_assert p (bool_decide (length (info d) = length (handles d)));
  let '(callbacks, store) := register_all store (DFunction <$> main_module_callbacks d) in
  let '(hs, store) := register_all store (DModule <$> handles d) in
  Ret (mkSnapshot (next_load_id d) (as_i32 <$> main_module_id d) (info d) hs callbacks
         (nt_drain (by_name d)), store).

Fixpoint insert_all (bn : ModuleNameTypeMap SymbolicModule)
    (l : list (ModuleName * RequestedModuleType * SymbolicModule)) :
    outcome (ModuleNameTypeMap SymbolicModule) :=
  match l with
  | [] => Ret bn
  | (name, module_type, module) :: l =>
      bn ← nt_insert bn module_type name module; insert_all bn l
  end.

(** The handles pushed one by one, each with its index. *)
Fixpoint push_handles (inverted : gmap handle ModuleId) (handles : list handle)
    (new : list handle) : gmap handle ModuleId * list handle :=
  match new with
  | [] => (inverted, handles)
  | h :: new =>
      push_handles (<[h := length handles]> inverted) (handles ++ [h]) new
  end.

Definition update_with_snapshotted_data (d : ModuleMapData) (store : LoadDataStore)
    (data : ModuleMapSnapshotData) : outcome (ModuleMapData * LoadDataStore) :=
  '(callbacks, store) ← get_all get_function store (s_main_module_callbacks data);
  '(hs, store) ← get_all get_module store (s_module_handles data);
  let '(inverted, hs) := push_handles (handles_inverted d) (handles d) hs in
  bn ← insert_all (by_name d) (s_by_name data);
  Ret (mkMapData inverted hs callbacks (s_modules data) bn (s_next_load_id data)
         (as_usize <$> s_main_module_id data) (synthetic_module_exports_store d)
         (lazy_esm_sources d) (sources d), store).

(** * The frame *)

Lemma length_to_le_bytes n x : length (to_le_bytes n x) = n.
Proof. revert x. induction n; intros x; simpl; auto. Qed.

Lemma from_to_le_bytes n x :
  0 <= x < 256 ^ Z.of_nat n → from_le_bytes (to_le_bytes n x) = x.
Proof.
  revert x. induction n as [|n IH]; intros x Hx; [simpl in *; lia|].
  rewrite Nat2Z.inj_succ, Z.pow_succ_r in Hx by lia. simpl.
  rewrite IH; [|split; [apply Z.div_pos; lia|apply Z.div_lt_upper_bound; lia]].
  pose proof (Z.div_mod x 256). lia.
Qed.

Lemma slice_middle {A} (l1 l2 l3 : list A) a b :
  a = Z.of_nat (length l1) → b = Z.of_nat (length (l1 ++ l2)) →
  slice (l1 ++ l2 ++ l3) a b = Ret l2.
Proof.
  intros -> ->. unfold slice. rewrite !length_app, decide_True by lia.
  rewrite Nat2Z.id, drop_app_length. f_equal.
  replace (Z.to_nat _) with (length l2) by lia. by rewrite take_app_length.
Qed.

(** * The stores *)

Definition ids_from (n : nat) (gs : list Data) : list SnapshotDataId :=
  Z.of_nat <$> seq n (length gs).

Lemma register_all_spec store gs :
  Z.of_nat (length store + length gs) <= 2 ^ 32 →
  register_all store gs = (ids_from (length store) gs, store ++ gs).
Proof.
  revert store. induction gs as [|g gs IH]; intros store Hl; simpl.
  { by rewrite app_nil_r. }
  simpl in Hl. rewrite IH by (rewrite length_app; simpl; lia).
  rewrite length_app, Nat.add_comm, <- (assoc_L (++)). unfold ids_from. simpl.
  by rewrite Z.mod_small by lia.
Qed.

(** Reading back a registered segment, in order, takes every entry once. *)
Lemma get_all_spec {A} (f : LoadDataStore → SnapshotDataId → outcome (A * LoadDataStore))
    (inj : A → Data) pre (gs : list A) post :
  (∀ pre g post, f (pre ++ Some (inj g) :: post) (Z.of_nat (length pre)) =
     Ret (g, pre ++ None :: post)) →
  get_all f (pre ++ (Some ∘ inj <$> gs) ++ post) (ids_from (length pre) (inj <$> gs)) =
    Ret (gs, pre ++ ((λ _, None) <$> gs) ++ post).
Proof.
  intros Hf. revert pre. induction gs as [|g gs IH]; intros pre; [done|].
  unfold ids_from. csimpl. rewrite (Hf pre g), bind_Ret.
  specialize (IH (pre ++ [None])). rewrite length_app, Nat.add_comm in IH.
  unfold ids_from in IH. rewrite <- !(assoc_L (++)) in IH. simpl in IH.
  rewrite IH, bind_Ret. done.
Qed.

Lemma get_at pre d post :
  get (pre ++ Some d :: post) (Z.of_nat (length pre)) = Ret (d, pre ++ None :: post).
Proof.
  unfold get. rewrite Nat2Z.id, list_lookup_middle by done.
  by rewrite insert_app_r_alt, Nat.sub_diag by lia.
Qed.

Lemma get_modules pre hs post :
  get_all get_module (pre ++ (Some ∘ DModule <$> hs) ++ post)
    (ids_from (length pre) (DModule <$> hs)) =
    Ret (hs, pre ++ ((λ _, None) <$> hs) ++ post).
Proof. apply get_all_spec. intros ? g ?. unfold get_module. by rewrite get_at. Qed.

Lemma get_functions pre fs post :
  get_all get_function (pre ++ (Some ∘ DFunction <$> fs) ++ post)
    (ids_from (length pre) (DFunction <$> fs)) =
    Ret (fs, pre ++ ((λ _, None) <$> fs) ++ post).
Proof. apply get_all_spec. intros ? g ?. unfold get_function. by rewrite get_at. Qed.

Lemma get_templates pre ts post :
  get_all get_template (pre ++ (Some ∘ DTemplate <$> ts) ++ post)
    (ids_from (length pre) (DTemplate <$> ts)) =
    Ret (ts, pre ++ ((λ _, None) <$> ts) ++ post).
Proof. apply get_all_spec. intros ? g ?. unfold get_template. by rewrite get_at. Qed.

(** * Rebuilding the tables *)

Lemma push_handles_spec inv hs new :
  (∀ h i, inv !! h = Some i ↔ hs !! i = Some h) → NoDup (hs ++ new) →
  let r := push_handles inv hs new in
  r.2 = hs ++ new ∧ ∀ h i, r.1 !! h = Some i ↔ (hs ++ new) !! i = Some h.
Proof.
  revert inv hs. induction new as [|x new IH]; intros inv hs Hinv Hnd; simpl.
  { by rewrite app_nil_r. }
  destruct (IH (<[x := length hs]> inv) (hs ++ [x])) as [H1 H2].
  - intros h i. rewrite lookup_insert_Some, lookup_snoc_Some, Hinv. split.
    + intros [[<- <-]|[? Hl]]; [by right|left]. split; [by eapply lookup_lt_Some|done].
    + intros [[? Hl]|[-> ->]]; [right|by left]. split; [|done]. intros ->.
      apply NoDup_app in Hnd as (_ & Hd & _). apply (Hd h); [|left].
      by eapply list_elem_of_lookup_2.
  - by rewrite <- (assoc_L (++)).
  - rewrite <- (assoc_L (++)) in H1, H2. done.
Qed.

Abbreviation entry := (ModuleName * RequestedModuleType * SymbolicModule)%type.

(** Entries whose keys are distinct all end up in the map. *)
Lemma insert_all_spec bn (l : list entry) :
  nt_ok bn → NoDup l.*1 →
  ∃ bn', insert_all bn l = Ret bn' ∧ nt_ok bn' ∧
    ∀ ty n x, nt_get bn' ty n = Some x ↔
      (n, ty, x) ∈ l ∨ (((n, ty) ∉ l.*1) ∧ nt_get bn ty n = Some x).
Proof.
  revert bn. induction l as [|[[n ty] x] l IH]; intros bn Hok Hnd.
  { exists bn. split; [done|]. split; [done|]. intros. set_solver. }
  apply NoDup_cons in Hnd as [Hn Hnd]. simpl.
  destruct (nt_insert_spec bn ty n x Hok) as (bn1 & -> & Hok1 & Hget). simpl.
  destruct (IH bn1 Hok1 Hnd) as (bn' & -> & Hok' & Hget').
  exists bn'. split; [done|]. split; [done|]. intros ty' n' x'.
  rewrite Hget', Hget. rewrite !elem_of_cons.
  change (list_fmap _ _ fst l) with (l.*1).
  assert ((n, ty) ∈ l.*1 ↔ ∃ y, (n, ty, y) ∈ l) as Hin.
  { rewrite list_elem_of_fmap. split; [intros ([k y] & -> & ?); eauto|].
    intros [y ?]. exists (n, ty, y). done. }
  case_decide as Hd; [destruct Hd as [-> ->]|]; clear Hget Hget'; naive_solver.
Qed.

Lemma drain_keys (m : ModuleNameTypeMap SymbolicModule) :
  nt_ok m → NoDup (nt_drain m).*1.
Proof.
  intros Hok. apply NoDup_fmap_2_strong.
  - intros [[n ty] x] [[n' ty'] y] Hx Hy [= <- <-].
    apply elem_of_drain in Hx, Hy. congruence.
  - apply NoDup_bind; [| |apply NoDup_map_to_list].
    + intros [ty i] [ty' i'] e Hp Hp' He He'.
      apply elem_of_map_to_list in Hp, Hp'. unfold drain_of, entries in *. simpl in *.
      destruct (submaps m !! i), (submaps m !! i'); try by apply elem_of_nil in He || apply elem_of_nil in He'.
      apply list_elem_of_fmap in He as ([] & -> & _), He' as ([] & [=] & _). congruence.
    + intros [ty i] _. unfold drain_of, entries. simpl.
      destruct (submaps m !! i); [|constructor].
      apply NoDup_fmap_2; [|apply NoDup_map_to_list]. intros [] [] [= -> ->]. done.
Qed.

(** * Properties *)

(** A snapshot blob is taken apart into the V8 blob and the sidecar data it
    was assembled from, whatever the two contain. *)
Lemma snapshot_frame_roundtrip p (v8_data sidecar_data : list byte) :
  Z.of_nat (length (serialize v8_data sidecar_data)) < 2 ^ 64 →
  deconstruct p (serialize v8_data sidecar_data) = Ret (v8_data, sidecar_data).
Proof.
  unfold deconstruct, serialize. rewrite !length_app, length_to_le_bytes. intros Hn.
  unfold ULEN in *. rewrite sub_w_fits by lia. rewrite bind_Ret.
  set (len := to_le_bytes _ _).
  assert (from_le_bytes len = Z.of_nat (length v8_data)) as Hle
    by (apply from_to_le_bytes; simpl; lia).
  rewrite (assoc_L (++)), <- (app_nil_r len), (slice_middle (v8_data ++ sidecar_data))
    by (rewrite !length_app; unfold len; rewrite ?length_to_le_bytes; lia).
  rewrite !bind_Ret, Hle.
  rewrite app_nil_r, <- (assoc_L (++)).
  rewrite (slice_middle v8_data sidecar_data _ (Z.of_nat (length v8_data)))
    by (rewrite ?length_app; lia).
  rewrite bind_Ret.
  pose proof (slice_middle [] v8_data (sidecar_data ++ len) 0 (Z.of_nat (length v8_data))
    eq_refl eq_refl) as Hs.
  simpl in Hs. by rewrite Hs.
Qed.

Lemma as_usize_i32 n : Z.of_nat n < 2 ^ 31 → as_usize (as_i32 n) = n.
Proof. intros Hn. unfold as_usize, as_i32. rewrite (Z.mod_small (_ + _)) by lia.
  rewrite Z.mod_small by lia. lia.
Qed.

Lemma inverted_ok_NoDup (hs : list handle) (inv : gmap handle ModuleId) :
  (∀ h i, inv !! h = Some i ↔ hs !! i = Some h) → NoDup hs.
Proof.
  intros Hinv. apply NoDup_alt. intros i j h Hi%Hinv Hj%Hinv. congruence.
Qed.

(** Restored objects are those of the old heap, mapped by [revive]. *)
Lemma restored_functions revive (l : list js_global) :
  Some ∘ revive_data revive <$> (DFunction <$> l) = Some ∘ DFunction <$> (revive <$> l).
Proof. by rewrite <- !list_fmap_compose. Qed.

Lemma restored_modules revive (l : list handle) :
  Some ∘ revive_data revive <$> (DModule <$> l) = Some ∘ DModule <$> (revive <$> l).
Proof. by rewrite <- !list_fmap_compose. Qed.

(** The load store of a snapshot whose stores hold [c] and [hs] after [before]. *)
Lemma load_segment revive (before : StoreDataStore) c hs (after : StoreDataStore) :
  Z.of_nat (length (before ++ ((DFunction <$> c) ++ (DModule <$> hs)) ++ after)) < 2 ^ 32 →
  load_data revive (before ++ ((DFunction <$> c) ++ (DModule <$> hs)) ++ after) =
    (Some ∘ revive_data revive <$> before) ++ (Some ∘ DFunction <$> (revive <$> c)) ++
    (Some ∘ DModule <$> (revive <$> hs)) ++ (Some ∘ revive_data revive <$> after).
Proof.
  intros Hl. unfold load_data, data_count. rewrite Z.mod_small by lia.
  rewrite Nat2Z.id, take_ge by done. rewrite !fmap_app, <- !(assoc_L (++)).
  by rewrite restored_functions, restored_modules.
Qed.

Lemma ids_from_length n (gs gs' : list Data) :
  length gs = length gs' → ids_from n gs = ids_from n gs'.
Proof. unfold ids_from. by intros ->. Qed.

Lemma get_restored revive (before : StoreDataStore) c hs (after : StoreDataStore) :
  let store := (Some ∘ revive_data revive <$> before) ++
    (Some ∘ DFunction <$> (revive <$> c)) ++
    (Some ∘ DModule <$> (revive <$> hs)) ++ (Some ∘ revive_data revive <$> after) in
  ∃ store1 store2,
    get_all get_function store (ids_from (length before) (DFunction <$> c)) =
      Ret (revive <$> c, store1) ∧
    get_all get_module store1
      (ids_from (length (before ++ (DFunction <$> c))) (DModule <$> hs)) =
      Ret (revive <$> hs, store2).
Proof.
  intros store. eexists _, _. split.
  - rewrite (ids_from_length _ _ (DFunction <$> (revive <$> c))) by by rewrite !length_fmap.
    rewrite <- (length_fmap (Some ∘ revive_data revive) before). apply get_functions.
  - rewrite (ids_from_length _ _ (DModule <$> (revive <$> hs))) by by rewrite !length_fmap.
    rewrite (assoc_L (++)).
    replace (length (before ++ _)) with (length ((Some ∘ revive_data revive <$> before) ++
      ((λ _, None : option Data) <$> (revive <$> c))))
      by by rewrite !length_app, !length_fmap.
    apply get_modules.
Qed.

Section roundtrip.
Context (revive : Z → Z) `{!Inj (=) (=) revive}.
Context (p : profile) (d : ModuleMapData) (before after : StoreDataStore).

(** What the two stores hold around the objects of the module map. *)
Definition globals : list Data :=
  (DFunction <$> main_module_callbacks d) ++ (DModule <$> handles d).

(** C17. A well-formed module map survives a snapshot, in release builds always and in debug
    builds when it has as many names as modules, i.e. no alias: debug builds assert this, and
    panic on a map with a redirected module ([redirected_snapshot_panics]).  Every name
    resolves to the module it named, with the same information, main module and load counter;
    the handles and callbacks are the restored objects, in order.  The objects of a snapshot
    are assumed to be fewer than 2^32 and the modules fewer than 2^31, the widths of their
    indices. *)
Theorem module_map_snapshot_roundtrip :
  map_ok d →
  (p = Debug → map_len (by_name d) = length (handles d)) →
  Z.of_nat (length (before ++ globals ++ after)) < 2 ^ 32 →
  Z.of_nat (length (info d)) < 2 ^ 31 →
  ∃ snapshot store' d' rest,
    serialize_for_snapshotting p d before = Ret (snapshot, before ++ globals) ∧
    store' = load_data revive (before ++ globals ++ after) ∧
    update_with_snapshotted_data MapData_default store' snapshot = Ret (d', rest) ∧
    map_ok d' ∧ by_name d' ≡ by_name d ∧ info d' = info d ∧
    handles d' = revive <$> handles d ∧
    main_module_callbacks d' = revive <$> main_module_callbacks d ∧
    main_module_id d' = main_module_id d ∧ next_load_id d' = next_load_id d.
Proof.
  intros Hok Hdbg Hlen Hinfo. unfold globals in *. rewrite !length_app, !length_fmap in Hlen.
  unfold serialize_for_snapshotting, update_with_snapshotted_data.
  assert (debug_assert p (bool_decide (map_len (by_name d) = length (handles d))) = Ret tt)
    as ->.
  { destruct p; [|done]. rewrite bool_decide_true by auto. done. }
  rewrite (debug_assert_true p) by (apply bool_decide_eq_true, (d_len _ Hok)).
  rewrite !bind_Ret, register_all_spec by (rewrite length_fmap; lia).
  rewrite register_all_spec by (rewrite length_app, !length_fmap; lia).
  rewrite <- (assoc_L (++) before).
  destruct (insert_all_spec nt_default (nt_drain (by_name d))) as (bn & Hbn & Hbnok & Hget);
    [apply nt_default_ok|apply drain_keys, Hok|].
  destruct (push_handles_spec ∅ [] (revive <$> handles d)) as [Hh Hinv].
  { intros h i. by rewrite lookup_empty. }
  { simpl. apply NoDup_fmap_2; [done|]. eapply inverted_ok_NoDup, Hok. }
  destruct (get_restored revive before (main_module_callbacks d) (handles d) after)
    as (store1 & store2 & H1 & H2).
  destruct (push_handles _ _ _) as [inverted hs] eqn:Hph. simpl in *. subst hs.
  do 4 eexists. split; [done|]. split; [done|].
  rewrite load_segment by (rewrite !length_app, !length_fmap; lia). simpl.
  rewrite H1, bind_Ret, H2, bind_Ret, Hph, Hbn.
  split; [done|]. simpl.
  assert (as_usize <$> (as_i32 <$> main_module_id d) = main_module_id d) as ->.
  { destruct (main_module_id d) as [id|] eqn:Hm; [|done]. simpl. f_equal.
    apply as_usize_i32. destruct (d_main _ Hok _ Hm) as (x & Hx%lookup_lt_Some & _). lia. }
  assert (bn ≡ by_name d) as Heq.
  { intros ty n. apply option_eq. intros x. rewrite Hget, elem_of_drain.
    split; [by intros [?|[_ ?]]|by left]. }
  split; [|done]. split; simpl; try apply Hok; try done.
  - by rewrite length_fmap, (d_len _ Hok).
  - intros ty n id Hg. apply (d_mods _ Hok). by rewrite <- (Heq ty n).
Qed.
End roundtrip.

(** * Concrete snapshots *)

Lemma snapshot_frame_roundtrip_example :
  deconstruct Debug (serialize [1; 2; 3] [7; 8]) = Ret ([1; 2; 3], [7; 8]).
Proof. apply (snapshot_frame_roundtrip Debug [1; 2; 3] [7; 8]). simpl. lia. Qed.

(** One module without redirect, and a load counter that was used. *)
Definition one_module : ModuleMapData :=
  from_outcome (
    '(_, d) ← create_module_info MapData_default "file:///b.js" JavaScript 100 true [];
    Ret d).

Lemma one_module_ok : map_ok one_module.
Proof.
  unfold one_module.
  destruct (create_module_info_spec MapData_default "file:///b.js" JavaScript 100 true [])
    as (d & -> & Hok & _); [apply map_default_ok|by apply not_elem_of_nil|done].
Qed.

#[local] Instance opp_inj : Inj (=) (=) Z.opp.
Proof. intros x y. lia. Qed.

Lemma module_map_snapshot_roundtrip_witness :
  ∃ snapshot store' d' rest,
    serialize_for_snapshotting Debug one_module [DFunction 5] =
      Ret (snapshot, [DFunction 5] ++ globals one_module) ∧
    store' = load_data Z.opp ([DFunction 5] ++ globals one_module ++ []) ∧
    update_with_snapshotted_data MapData_default store' snapshot = Ret (d', rest) ∧
    map_ok d' ∧ by_name d' ≡ by_name one_module ∧ info d' = info one_module ∧
    handles d' = Z.opp <$> handles one_module ∧
    main_module_callbacks d' = Z.opp <$> main_module_callbacks one_module ∧
    main_module_id d' = main_module_id one_module ∧
    next_load_id d' = next_load_id one_module.
Proof.
  apply (module_map_snapshot_roundtrip Z.opp Debug one_module [DFunction 5] []).
  - exact one_module_ok.
  - intros _. vm_compute. reflexivity.
  - vm_compute. reflexivity.
  - vm_compute. reflexivity.
Defined.

(** A redirect puts one name more than modules in the map, and the snapshot of the
    debug build panics on it. *)
Lemma redirected_snapshot_panics :
  serialize_for_snapshotting Debug (from_outcome redirected) [] = Panic DebugAssert.
Proof. vm_compute. reflexivity. Qed.
