(* ===== verification/ModuleMap.v ===== *)
(** [core/modules/map.rs]: how a loaded source becomes a registered module.

    Holds [ModuleMap::resolve], [new_module] with its constructor per module type,
    [new_wasm_module_source] and the lookup that instantiation makes
    ([resolve_callback]), over the data of [Modules].  V8, the embedder's loader and
    callbacks, the [url] and [sourcemap] crates are parameters ([env]); the
    JavaScript rendered for a WebAssembly module is one too ([wasm_js]). *)

From S2P Require Import Prelude Modules.
From Stdlib Require Import Ascii.
From Stdlib Require String.

(** * Text *)

(** [String::from_utf8_lossy]: an invalid sequence becomes U+FFFD. *)
Definition replacement : list ascii :=
  [ascii_of_nat 239; ascii_of_nat 191; ascii_of_nat 189].

Definition in_range (lo hi : nat) (a : ascii) : bool :=
  (lo <=? nat_of_ascii a) && (nat_of_ascii a <=? hi).

(** Ranges of the bytes that may follow a first byte of a sequence. *)
Definition continuations (b : ascii) : option (list (nat * nat)) :=
  let c := (128, 191) in
  if in_range 0 127 b then Some []
  else if in_range 194 223 b then Some [c]
  else if in_range 224 224 b then Some [(160, 191); c]
  else if in_range 225 236 b then Some [c; c]
  else if in_range 237 237 b then Some [(128, 159); c]
  else if in_range 238 239 b then Some [c; c]
  else if in_range 240 240 b then Some [(144, 191); c; c]
  else if in_range 241 243 b then Some [c; c; c]
  else if in_range 244 244 b then Some [(128, 143); c; c]
  else None.

(** The longest prefix that fits the ranges, whether it is complete, the rest. *)
Fixpoint take_ranges (rs : list (nat * nat)) (l : list ascii) :
    list ascii * bool * list ascii :=
  match rs with
  | [] => ([], true, l)
  | (lo, hi) :: rs =>
      match l with
      | b :: l' =>
          if in_range lo hi b then
            let '(pre, ok, rest) := take_ranges rs l' in (b :: pre, ok, rest)
          else ([], false, l)
      | [] => ([], false, [])
      end
  end.

Fixpoint lossy (fuel : nat) (l : list ascii) : list ascii :=
  match fuel, l with
  | S fuel, b :: l =>
      match continuations b with
      | None => replacement ++ lossy fuel l
      | Some rs =>
          let '(pre, ok, rest) := take_ranges rs l in
          (if (ok : bool) then b :: pre else replacement) ++ lossy fuel rest
      end
  | _, _ => []
  end.

Definition from_utf8_lossy (bytes : list ascii) : string :=
  Stdlib.Strings.String.string_of_list_ascii (lossy (length bytes) bytes).

Definition BOM_CHAR : string :=
  Stdlib.Strings.String.string_of_list_ascii [ascii_of_nat 239; ascii_of_nat 187; ascii_of_nat 191].

Definition strip_bom (source_code : string) : string :=
  if Stdlib.Strings.String.prefix BOM_CHAR source_code then
    Stdlib.Strings.String.substring 3 (Stdlib.Strings.String.length source_code - 3) source_code
  else source_code.

Definition DATA_PREFIX : string := "data:".

(** * Sources *)

Inductive ModuleSourceCode :=
  | SString (s : string)
  | SBytes (b : list ascii).

Definition get_string_source (code : ModuleSourceCode) : string :=
  match code with SString code => code | SBytes bytes => from_utf8_lossy bytes end.

Record SourceCodeCacheInfo := mkCacheInfo { hash : Z; cache_data : option (list ascii) }.

Record ModuleSource := mkSource {
  code : ModuleSourceCode;
  src_type : ModuleType;
  code_cache : option SourceCodeCacheInfo;
  module_url_specified : ModuleName;
  module_url_found : option ModuleName
}.

(** [ModuleSource::new] and [new_with_redirect]. *)
Definition ModuleSource_new (module_type : ModuleType) (code : ModuleSourceCode)
    (specifier : string) (code_cache : option SourceCodeCacheInfo) : ModuleSource :=
  mkSource code module_type code_cache specifier None.

Definition new_with_redirect (module_type : ModuleType) (code : ModuleSourceCode)
    (specifier specifier_found : string) (code_cache : option SourceCodeCacheInfo) :
    ModuleSource :=
  let module_url_found :=
    if decide (specifier = specifier_found) then None else Some specifier_found in
  mkSource code module_type code_cache specifier module_url_found.

Definition from_reference (r : ModuleReference) : ModuleSourceKey :=
  mkSourceKey (specifier r) (Requested (requested_module_type r)).

Definition from_loaded_source (s : ModuleSource) : ModuleSourceKey :=
  mkSourceKey (match module_url_found s with
               | Some found => found
               | None => module_url_specified s
               end) (Loaded (src_type s)).

Inductive ResolutionKind := MainModule | Import | KDynamicImport.
Global Instance ResolutionKind_eq_dec : EqDecision ResolutionKind.
Proof. solve_decision. Defined.

Inductive ModuleConcreteError :=
  | MainModuleAlreadyExists (main_module new_module : string)
  | UnboundModuleScriptCodeCache
  | WasmParse
  | WasmNotBytes
  | WasmCompile (name : string)
  | UnsupportedKind (ty : string)
  | BytesNotBytes.

(** [E] is the embedder's error type, exceptions are V8 values. *)
Inductive ModuleError (E : Type) :=
  | Exception (e : js_global)
  | Concrete (e : ModuleConcreteError)
  | Core (e : E)
  | ExtImport (specifier referrer : string).  (** the [type_error] of [resolve] *)
Arguments Exception {E} _.
Arguments Concrete {E} _.
Arguments Core {E} _.
Arguments ExtImport {E} _ _.

Inductive CustomModuleEvaluationKind :=
  | Synthetic (value : js_global)
  | ComputedAndSynthetic (computed_src : string) (synthetic_value : js_global)
      (synthetic_module_type : ModuleType).

(** An import as V8 reports it. *)
Record RawRequest := mkRaw {
  raw_specifier : string;
  raw_attributes : list string;
  raw_offset : Z;
  raw_phase : ModuleImportPhase
}.

Record Compiled := mkCompiled {
  c_requests : list RawRequest;
  c_source_mapping_url : option string;
  c_code_cache : option (list ascii)  (** [create_code_cache] *)
}.

(** * The environment: code outside the repository *)

Record env (E : Type) := mkEnv {
  loader_resolve : string → string → ResolutionKind → result string E;
  (** [compile_module]: the module or the exception, and whether the provided code
      cache was rejected. *)
  v8_compile : string → string → option (list ascii) → result Compiled js_global * bool;
  v8_json_parse : string → result js_global js_global;
  v8_string : string → option js_global;  (** [None]: longer than V8 allows *)
  reference_error : js_global → js_global;
  v8_uint8array : list ascii → js_global;
  v8_wasm_compile : list ascii → option js_global;
  wasm_js : string → list ascii → option string;
  validate_import_attributes_cb : gmap string string → option js_global;
  custom_module_evaluation_cb :
    option (string → string → ModuleSourceCode → result CustomModuleEvaluationKind E);
  decode_data_url : string → option js_global;
  url_parse : string → option string;
  url_join : string → string → option string;
  will_snapshot : bool
}.
Arguments loader_resolve {E} _ _ _ _.
Arguments v8_compile {E} _ _ _ _.
Arguments v8_json_parse {E} _ _.
Arguments v8_string {E} _ _.
Arguments reference_error {E} _ _.
Arguments v8_uint8array {E} _ _.
Arguments v8_wasm_compile {E} _ _.
Arguments wasm_js {E} _ _ _.
Arguments validate_import_attributes_cb {E} _ _.
Arguments custom_module_evaluation_cb {E} _.
Arguments decode_data_url {E} _ _.
Arguments url_parse {E} _ _.
Arguments url_join {E} _ _ _.
Arguments will_snapshot {E} _.

(** * The module map *)

Record ModuleMap := mkMap {
  data : ModuleMapData;
  v8_modules : Z;  (** how many modules V8 has created: the next handle *)
  source_maps : gmap string js_global;
  source_map_urls : gmap ModuleName string;
  code_cache_ready_futs : list (ModuleName * Z * list ascii);
  pending_code_cache_ready : bool
}.

Definition set_data (m : ModuleMap) (d : ModuleMapData) : ModuleMap :=
  mkMap d (v8_modules m) (source_maps m) (source_map_urls m) (code_cache_ready_futs m)
    (pending_code_cache_ready m).

(** Methods run on the module map, may panic and may return an error: effects made
    before an error stay. *)
Definition method (E A : Type) : Type := ModuleMap → outcome (result A E * ModuleMap).

Global Instance method_ret {E} : MRet (method E) := λ A a m, Ret (Ok a, m).
Global Instance method_bind {E} : MBind (method E) := λ A B k f m,
  '(r, m) ← f m;
  match r with Ok a => k a m | Err e => Ret (Err e, m) end.

Definition fail {E A} (e : E) : method E A := λ m, Ret (Err e, m).
Definition lift {E A} (o : outcome A) : method E A := λ m, a ← o; Ret (Ok a, m).
Definition try_res {E A} (r : result A E) : method E A := λ m, Ret (r, m).
Definition get_map {E} : method E ModuleMap := λ m, Ret (Ok m, m).
Definition modify {E} (f : ModuleMap → ModuleMap) : method E unit := λ m, Ret (Ok tt, f m).
(** An operation on the data that may panic but not fail. *)
Definition on_data {E A} (f : ModuleMapData → outcome (A * ModuleMapData)) : method E A :=
  λ m, '(a, d) ← f (data m); Ret (Ok a, set_data m d).

Section module_map.
Context {E : Type} (V : env E) (p : profile).

Abbreviation MError := (ModuleError E).
Abbreviation M := (method MError).

(** Lookups on the map run with more steps than it has names. *)
Definition lookup_id (d : ModuleMapData) (name : ModuleName) (ty : RequestedModuleType) :
    outcome (option ModuleId) :=
  get_id p (S (map_len (by_name d))) d name ty.

Definition starts_with (pre s : string) : bool := Stdlib.Strings.String.prefix pre s.

(** [ModuleMap::resolve]. *)
Definition resolve (specifier referrer : string) (kind : ResolutionKind) :
    result string MError :=
  if starts_with "ext:" specifier && negb (starts_with "ext:" referrer)
     && negb (starts_with "node:" referrer) && negb (starts_with "checkin:" referrer)
     && bool_decide (referrer ≠ ".") && bool_decide (kind ≠ MainModule) then
    Err (ExtImport specifier
           (if decide (referrer = "") then "(no referrer)" else referrer))
  else
    match loader_resolve V specifier referrer kind with
    | Ok s => Ok s
    | Err e => Err (Core e)
    end.

Definition alloc_handle : M handle := λ m,
  Ret (Ok (v8_modules m),
       mkMap (data m) (v8_modules m + 1)%Z (source_maps m) (source_map_urls m)
         (code_cache_ready_futs m) (pending_code_cache_ready m)).

(** [v8_string(scope).unwrap()] of a name or a text. *)
Definition to_v8_string (s : string) : M js_global := lift (unwrap (v8_string V s)).
Fixpoint to_v8_strings (l : list string) : M unit :=
  match l with [] => mret tt | s :: l => _ ← to_v8_string s; to_v8_strings l end.

Definition new_synthetic_module (name : ModuleName) (module_type : ModuleType)
    (exports : list (string * js_global)) : M ModuleId :=
  _ ← to_v8_string name;
  _ ← to_v8_strings (exports.*1);
  h ← alloc_handle;
  _ ← modify (λ m,
    let d := data m in
    set_data m (mkMapData (handles_inverted d) (handles d) (main_module_callbacks d)
      (info d) (by_name d) (next_load_id d) (main_module_id d)
      (<[h := exports]> (synthetic_module_exports_store d)) (lazy_esm_sources d)
      (sources d)));
  id ← on_data (λ d, create_module_info d name module_type h false []);
  m ← get_map;
  _ ← lift (unwrap (get_handle (data m) id));
  mret id.

(** The source map V8 found in a module. *)
Definition record_source_map (name : ModuleName) (source_mapping_url : option string) :
    M unit :=
  match source_mapping_url with
  | None => mret tt
  | Some url =>
      modify (λ m,
        if starts_with DATA_PREFIX url then
          match decode_data_url V url with
          | Some sm =>
              mkMap (data m) (v8_modules m) (<[name := sm]> (source_maps m))
                (source_map_urls m) (code_cache_ready_futs m) (pending_code_cache_ready m)
          | None => m
          end
        else
          let resolved_url :=
            match url_parse V name with
            | Some module_url => default module_url (url_join V module_url url)
            | None => url
            end in
          mkMap (data m) (v8_modules m) (source_maps m)
            (<[name := resolved_url]> (source_map_urls m)) (code_cache_ready_futs m)
            (pending_code_cache_ready m))
  end.

(** The loop that turns V8's imports into module requests. *)
Fixpoint module_requests (module_type : ModuleType) (name : ModuleName)
    (is_dynamic_import : bool) (raws : list RawRequest) : M (list ModuleRequest) :=
  match raws with
  | [] => mret []
  | raw :: raws =>
      attributes ← lift (parse_import_attributes (raw_attributes raw) StaticImport);
      match validate_import_attributes_cb V attributes with
      | Some exception => fail (Exception exception)
      | None =>
          module_specifier ← try_res (resolve (raw_specifier raw) name
            (if is_dynamic_import then KDynamicImport else Import));
          let request :=
            mkRequest
              (mkReference module_specifier
                 (get_requested_module_type_from_attributes attributes))
              (Some (raw_specifier raw))
              (match module_type with Wasm => None | _ => Some (raw_offset raw) end)
              (raw_phase raw) in
          rest ← module_requests module_type name is_dynamic_import raws;
          mret (request :: rest)
      end
  end.

(** A pending notification for the embedder's code cache; the hash and the name
    are captured by the callback of the source. *)
Definition push_code_cache (name : ModuleName) (cc : SourceCodeCacheInfo)
    (bytes : list ascii) : M unit :=
  modify (λ m, mkMap (data m) (v8_modules m) (source_maps m) (source_map_urls m)
    (code_cache_ready_futs m ++ [(name, hash cc, bytes)]) true).

(** V8 cannot make code caches while snapshotting. *)
Definition store_code_cache (try_store_code_cache : bool) (name : ModuleName)
    (code_cache_info : option SourceCodeCacheInfo) (c : Compiled) : M unit :=
  if try_store_code_cache && negb (will_snapshot V) then
    match code_cache_info with
    | Some cc =>
        match c_code_cache c with
        | Some bytes => push_code_cache name cc bytes
        | None => fail (Concrete UnboundModuleScriptCodeCache)
        end
    | None => mret tt
    end
  else mret tt.

Definition new_module_from_js_source (main : bool) (module_type : ModuleType)
    (name : ModuleName) (source : string) (is_dynamic_import : bool)
    (code_cache_info : option SourceCodeCacheInfo) : M ModuleId :=
  m ← get_map;
  match (if main then main_module_id (data m) else None) with
  | Some main_module =>
      main_name ← lift (unwrap (get_name_by_id (data m) main_module));
      fail (Concrete (MainModuleAlreadyExists main_name name))
  | None =>
      _ ← to_v8_string name;
      _ ← to_v8_string source;
      let cache := cc ← code_cache_info; cache_data cc in
      let '(compiled, rejected) := v8_compile V name source cache in
      let try_store_code_cache := match cache with Some _ => rejected | None => true end in
      match compiled with
      | Err exception => fail (Exception exception)
      | Ok c =>
          h ← alloc_handle;
          _ ← store_code_cache try_store_code_cache name code_cache_info c;
          _ ← record_source_map name (c_source_mapping_url c);
          requests ← module_requests module_type name is_dynamic_import (c_requests c);
          on_data (λ d, create_module_info d name module_type h main requests)
      end
  end.

Definition new_wasm_module (name : ModuleName) (source : ModuleSourceCode)
    (is_dynamic_import : bool) : M ModuleId :=
  let bytes := match source with
               | SString s => Stdlib.Strings.String.list_ascii_of_string s
               | SBytes b => b
               end in
  match wasm_js V name bytes with
  | None => fail (Concrete WasmParse)
  | Some js =>
      new_module_from_js_source false Wasm name js is_dynamic_import None
  end.

Definition new_json_module (name : ModuleName) (code : string) : M ModuleId :=
  _ ← to_v8_string (strip_bom code);
  match v8_json_parse V (strip_bom code) with
  | Ok parsed_json => new_synthetic_module name Json [("default", parsed_json)]
  | Err exception => fail (Exception exception)
  end.

Definition new_text_module (name : ModuleName) (code : string) : M ModuleId :=
  source_str ← to_v8_string (strip_bom code);
  new_synthetic_module name Text [("default", source_str)].

Definition new_bytes_module (name : ModuleName) (code : list ascii) : M ModuleId :=
  new_synthetic_module name Bytes [("default", v8_uint8array V code)].

(** Custom module types, evaluated by the embedder's callback. *)
Definition new_custom_module (main dynamic : bool) (module_type : string)
    (name : ModuleName) (code : ModuleSourceCode)
    (code_cache : option SourceCodeCacheInfo) : M ModuleId :=
  match custom_module_evaluation_cb V with
  | None => fail (Concrete (UnsupportedKind module_type))
  | Some custom_evaluation_cb =>
      match custom_evaluation_cb module_type name code with
      | Err e => fail (Core e)
      | Ok (Synthetic value) =>
          new_synthetic_module name (Other module_type) [("default", value)]
      | Ok (ComputedAndSynthetic computed_src synthetic_value synthetic_module_type) =>
          _ ← new_synthetic_module name synthetic_module_type
                [("default", synthetic_value)];
          new_module_from_js_source main (Other module_type) name computed_src dynamic
            code_cache
      end
  end.

(** The [match] of [new_module] on the type of the source. *)
Definition new_module_of_type (main dynamic : bool) (module_type : ModuleType)
    (name : ModuleName) (code : ModuleSourceCode)
    (code_cache : option SourceCodeCacheInfo) : M ModuleId :=
  match module_type with
  | JavaScript =>
      new_module_from_js_source main JavaScript name (get_string_source code) dynamic
        code_cache
  | Wasm => new_wasm_module name code dynamic
  | Json => new_json_module name (get_string_source code)
  | Text => new_text_module name (get_string_source code)
  | Bytes =>
      match code with
      | SBytes code => new_bytes_module name code
      | SString _ => fail (Concrete BytesNotBytes)
      end
  | Other ty => new_custom_module main dynamic ty name code code_cache
  end.

Definition new_module (main dynamic : bool) (module_source : ModuleSource) :
    M ModuleId :=
  let module_type := src_type module_source in
  let requested_module_type := requested_of module_type in
  name ← match module_url_found module_source with
         | Some found =>
             _ ← on_data (λ d,
               d ← alias p d (module_url_specified module_source) requested_module_type
                     found;
               Ret (tt, d));
             mret found
         | None => mret (module_url_specified module_source)
         end;
  m ← get_map;
  maybe_module_id ← lift (lookup_id (data m) name requested_module_type);
  match maybe_module_id with
  | Some module_id => mret module_id
  | None =>
      new_module_of_type main dynamic module_type name (code module_source)
        (code_cache module_source)
  end.

(** [new_wasm_module_source]: the source object of a WebAssembly module, shared by
    the reference and the source it was loaded from. *)
Definition insert_source (k : ModuleSourceKey) (v : js_global) : M unit :=
  modify (λ m,
    let d := data m in
    set_data m (mkMapData (handles_inverted d) (handles d) (main_module_callbacks d)
      (info d) (by_name d) (next_load_id d) (main_module_id d)
      (synthetic_module_exports_store d) (lazy_esm_sources d)
      (<[k := v]> (sources d)))).

Definition new_wasm_module_source (module_reference : ModuleReference)
    (loaded_source : ModuleSource) : M ModuleSource :=
  _ ← match module_url_found loaded_source with
      | Some found =>
          on_data (λ d,
            d ← alias p d (module_url_specified loaded_source)
                  (requested_of (src_type loaded_source)) found;
            Ret (tt, d))
      | None => mret tt
      end;
  let reference_key := from_reference module_reference in
  let loaded_key := from_loaded_source loaded_source in
  m ← get_map;
  match sources (data m) !! reference_key with
  | Some _ => mret loaded_source
  | None =>
      match sources (data m) !! loaded_key with
      | Some source => _ ← insert_source reference_key source; mret loaded_source
      | None =>
          match code loaded_source with
          | SString _ => fail (Concrete WasmNotBytes)
          | SBytes bytes =>
              match v8_wasm_compile V bytes with
              | None => fail (Concrete (WasmCompile (key_name loaded_key)))
              | Some source =>
                  _ ← insert_source reference_key source;
                  _ ← insert_source loaded_key source;
                  mret loaded_source
              end
          end
      end
  end.

(** [resolve_callback]: what V8 asks for each import while it instantiates. *)
Definition resolve_callback (d : ModuleMapData) (specifier referrer : string)
    (import_attributes : gmap string string) : outcome (result (option handle) MError) :=
  match resolve specifier referrer Import with
  | Err e => Ret (Err e)
  | Ok resolved_specifier =>
      oid ← lookup_id d resolved_specifier
              (get_requested_module_type_from_attributes import_attributes);
      Ret (Ok (id ← oid; get_handle d id))
  end.
End module_map.

(** * Reasoning about methods *)

Section wp.
Context {E : Type}.

(** [f] returns from [m], with a result and a state that satisfy [Q]. *)
Definition wp {A} (f : method E A) (m : ModuleMap) (Q : result A E → ModuleMap → Prop) :
    Prop :=
  ∃ r m', f m = Ret (r, m') ∧ Q r m'.

Lemma wp_bind {A B} (f : method E A) (k : A → method E B) m Q :
  wp f m (λ r m', match r with Ok a => wp (k a) m' Q | Err e => Q (Err e) m' end) →
  wp (f ≫= k) m Q.
Proof.
  intros (r & m' & Hf & H). destruct r as [a|e].
  - destruct H as (r2 & m2 & Hk & HQ). exists r2, m2. split; [|done].
    unfold mbind, method_bind. rewrite Hf. simpl. done.
  - exists (Err e), m'. split; [|done]. unfold mbind, method_bind. by rewrite Hf.
Qed.

Lemma wp_ret {A} (a : A) m (Q : result A E → ModuleMap → Prop) : Q (Ok a) m → wp (mret a) m Q.
Proof. intros H. by exists (Ok a), m. Qed.

Lemma wp_fail {A} e m (Q : result A E → ModuleMap → Prop) : Q (Err e) m → wp (fail e) m Q.
Proof. intros H. by exists (Err e), m. Qed.

Lemma wp_lift {A} (o : outcome A) a m (Q : result A E → ModuleMap → Prop) :
  o = Ret a → Q (Ok a) m → wp (lift o) m Q.
Proof. intros -> H. by exists (Ok a), m. Qed.

Lemma wp_get m (Q : result ModuleMap E → ModuleMap → Prop) : Q (Ok m) m → wp get_map m Q.
Proof. intros H. by exists (Ok m), m. Qed.

Lemma wp_modify f m (Q : result unit E → ModuleMap → Prop) :
  Q (Ok tt) (f m) → wp (modify f) m Q.
Proof. intros H. by exists (Ok tt), (f m). Qed.

Lemma wp_try {A} (r : result A E) m Q : Q r m → wp (try_res r) m Q.
Proof. intros H. by exists r, m. Qed.

Lemma wp_mono {A} (f : method E A) m (Q Q' : result A E → ModuleMap → Prop) :
  wp f m Q → (∀ r m', Q r m' → Q' r m') → wp f m Q'.
Proof. intros (r & m' & Hf & HQ) H. exists r, m'. auto. Qed.
End wp.

Create HintDb wp discriminated.
#[export] Hint Resolve wp_ret wp_fail wp_get wp_modify wp_try : wp.

(** * Consistent redirects

    [R] is the loader's redirection: the URL found for a specifier, if it differs.
    A found URL is final: it is not redirected again. *)

Section redirects.
Context (R : ModuleName → option ModuleName).
Context (R_final : ∀ s f, R s = Some f → R f = None).
Implicit Types (d : ModuleMapData).

Record consistent d : Prop := {
  cs_alias : ∀ ty n t, aliases d ty n t → R n = Some t;
  cs_mod : ∀ ty n id, nt_get (by_name d) ty n = Some (Mod id) → R n = None
}.

Definition source_ok (s : ModuleSource) : Prop :=
  module_url_found s = R (module_url_specified s).

Definition final_url (n : ModuleName) : ModuleName := default n (R n).

Lemma final_final n : R (final_url n) = None.
Proof. unfold final_url. destruct (R n) as [f|] eqn:Hn; simpl; eauto. Qed.

Lemma consistent_acyclic d ty n : consistent d → acyclic_from d ty n.
Proof.
  intros [Ha _] m _ Hc. inversion Hc as [? ? Hm|? m1 ? Hm Hc']; subst.
  - apply Ha in Hm. pose proof (R_final _ _ Hm). congruence.
  - apply Ha in Hm. apply R_final in Hm.
    inversion Hc' as [? ? Hm1|? m2 ? Hm1 _]; subst; apply Ha in Hm1; congruence.
Qed.

Lemma lookup_id_spec p d n ty :
  nt_ok (by_name d) → consistent d →
  ∃ r, lookup_id p d n ty = Ret r ∧ ∀ id, r = Some id ↔ resolves d ty n id.
Proof.
  intros Hok Hc. apply get_id_acyclic; [done|by apply consistent_acyclic|lia].
Qed.

(** ** Registration *)

Definition grows d d' : Prop :=
  (∀ ty n id, resolves d ty n id → resolves d' ty n id) ∧
  info d `prefix_of` info d' ∧
  (∀ ty n t, aliases d ty n t → aliases d' ty n t).

Global Instance grows_preorder : PreOrder grows.
Proof.
  split.
  - by intros d.
  - intros d1 d2 d3 (H1 & P1 & A1) (H2 & P2 & A2). split; [auto|split; [by etrans|auto]].
Qed.

(** [P] is what the imports of every registered module satisfy. *)
Record good (P : list ModuleRequest → Prop) (m : ModuleMap) : Prop := {
  g_map : map_ok (data m);
  g_reqs : ∀ i x, info (data m) !! i = Some x → P (requests x);
  g_cons : consistent (data m);
  g_fresh : ∀ h, h ∈ handles (data m) → (h < v8_modules m)%Z
}.

Lemma create_good d name ty h main reqs :
  map_ok d → consistent d → h ∉ handles d → R name = None →
  (∀ id, ¬ resolves d (requested_of ty) name id) →
  ∃ d' id, create_module_info d name ty h main reqs = Ret (id, d') ∧
    map_ok d' ∧ consistent d' ∧ grows d d' ∧ resolves d' (requested_of ty) name id ∧
    handles d' = handles d ++ [h] ∧
    info d' = info d ++ [mkInfo id main name reqs ty] ∧ id = length (info d).
Proof.
  intros Hok [Ha Hm] Hh Hn Hno.
  destruct (create_module_info_spec d name ty h main reqs Hok Hh)
    as (d' & He & Hok' & Hinfo & Hhs & _ & Hins).
  exists d', (length (info d)). split; [done|]. split; [done|]. split; [|split; [|split]].
  - split.
    + intros ty' n t. unfold aliases. rewrite (proj2 Hins). case_decide; [done|]. apply Ha.
    + intros ty' n id. rewrite (proj2 Hins).
      case_decide as Hd; [by destruct Hd as [-> ->]|]. apply Hm.
  - split; [|split; [rewrite Hinfo; by apply prefix_app_r|]].
    + intros ty' n id Hr. eapply resolves_ext; [|by eapply resolves_create].
      by intros ??.
    + intros ty' n t Hal. unfold aliases. rewrite (proj2 Hins), decide_False; [done|].
      intros [-> ->]. apply Ha in Hal. congruence.
  - constructor. by rewrite (proj2 Hins), decide_True.
  - done.
Qed.

(** An alias of a redirected name changes no resolution. *)
Lemma alias_good p d ty s f :
  map_ok d → consistent d → R s = Some f →
  ∃ d', alias p d s ty f = Ret d' ∧ map_ok d' ∧ consistent d' ∧ grows d d' ∧
    handles d' = handles d ∧ info d' = info d ∧
    aliases d' ty s f.
Proof.
  intros Hok [Ha Hm] Hs. assert (R f = None) as Hf by eauto.
  destruct (alias_spec p d s ty f Hok) as (d' & He & Hok' & Hinfo & Hhs & Hins);
    [congruence|].
  exists d'. split; [done|]. split; [done|]. split; [|split; [|split; [|split]]]; try done.
  - split.
    + intros ty' n t. unfold aliases. rewrite (proj2 Hins).
      case_decide as Hd; [destruct Hd as [-> ->]; congruence|]. apply Ha.
    + intros ty' n id. rewrite (proj2 Hins). case_decide; [done|]. apply Hm.
  - assert (∀ ty' n t, aliases d ty' n t → aliases d' ty' n t) as Hal.
    { intros ty' n t Hal. unfold aliases. rewrite (proj2 Hins). case_decide as Hd; [|done].
      destruct Hd as [-> ->]. apply Ha in Hal. congruence. }
    split; [|split; [by rewrite Hinfo|done]]. intros ty' n id Hr.
    induction Hr as [n id Hg|n t id Hg Hr IH].
    + constructor. rewrite (proj2 Hins). case_decide as Hd; [|done].
      destruct Hd as [-> ->]. apply Hm in Hg. congruence.
    + eapply resolves_alias; [|done]. by apply Hal.
  - unfold aliases. by rewrite (proj2 Hins), decide_True.
Qed.

(** What a constructor of modules of type [ty] under [name] does. *)
Definition creates {E} (P : list ModuleRequest → Prop) (ty : ModuleType) (name : ModuleName) (m : ModuleMap)
    (r : result ModuleId E) (m' : ModuleMap) : Prop :=
  good P m' ∧ grows (data m) (data m') ∧
  match r with
  | Ok id => resolves (data m') (requested_of ty) name id
  | Err _ => data m' = data m
  end.

(** A step that leaves the registered modules alone. *)
Definition keeps {E A} (f : method E A) : Prop :=
  ∀ m, wp f m (λ _ m', data m' = data m ∧ (v8_modules m <= v8_modules m')%Z).

Lemma keeps_bind {E A B} (f : method E A) (k : A → method E B) :
  keeps f → (∀ a, keeps (k a)) → keeps (f ≫= k).
Proof.
  intros Hf Hk m. apply wp_bind. eapply wp_mono; [apply Hf|].
  intros [a|e] m' [Hd Hv]; [|done]. eapply wp_mono; [apply Hk|].
  intros r m2 [Hd2 Hv2]. rewrite Hd2, Hd. split; [done|lia].
Qed.

Lemma keeps_ret {E A} (a : A) : keeps (mret a : method E A).
Proof. intros m. by apply wp_ret. Qed.
Lemma keeps_fail {E A} (e : E) : keeps (fail e : method E A).
Proof. intros m. by apply wp_fail. Qed.
Lemma keeps_get {E} : keeps (get_map : method E _).
Proof. intros m. by apply wp_get. Qed.
Lemma keeps_try {E A} (r : result A E) : keeps (try_res r).
Proof. intros m. by apply wp_try. Qed.
Lemma keeps_lift {E A} (o : outcome A) : returns o → keeps (lift o : method E A).
Proof. intros [a ->] m. by eapply wp_lift. Qed.
Lemma keeps_modify {E} f :
  (∀ m, data (f m) = data m ∧ v8_modules (f m) = v8_modules m) →
  keeps (modify f : method E unit).
Proof. intros Hf m. apply wp_modify. destruct (Hf m) as [-> ->]. split; [done|lia]. Qed.
End redirects.

#[export] Hint Resolve keeps_bind keeps_ret keeps_fail keeps_get keeps_try keeps_lift : wp.

Section constructors.
Context {E : Type} (V : env E) (p : profile).
Context (R : ModuleName → option ModuleName).
Context (R_final : ∀ s f, R s = Some f → R f = None).

(** V8 reports import attributes in groups of three, and the embedder's callback
    makes one module per source. *)
Context (V_attributes : ∀ name src cache c rej,
  v8_compile V name src cache = (Ok c, rej) →
  Forall (λ raw, length (raw_attributes raw) mod 3 = 0) (c_requests c)).
Context (V_custom : ∀ cb ty name code src v sty,
  custom_module_evaluation_cb V = Some cb →
  cb ty name code ≠ Ok (ComputedAndSynthetic src v sty)).

Context (P : list ModuleRequest → Prop) (P_nil : P []).
Context (V_requests : ∀ ty name dyn src cache c rej m reqs m',
  v8_compile V name src cache = (Ok c, rej) →
  module_requests V ty name dyn (c_requests c) m = Ret (Ok reqs, m') → P reqs).

(** The strings that V8 is given to make a module of this source fit. *)
Definition strings_fit (name : ModuleName) (ty : ModuleType) (code : ModuleSourceCode) : Prop :=
  let fits s := is_Some (v8_string V s) in
  fits name ∧
  match ty with
  | JavaScript => fits (get_string_source code)
  | Wasm =>
      ∀ js, wasm_js V name match code with
                           | SString s => Stdlib.Strings.String.list_ascii_of_string s
                           | SBytes b => b
                           end = Some js → fits js
  | Json | Text => fits (strip_bom (get_string_source code)) ∧ fits "default"
  | Bytes | Other _ => fits "default"
  end.

Lemma wp_to_v8 s m (Q : result js_global (ModuleError E) → ModuleMap → Prop) :
  is_Some (v8_string V s) → (∀ v, Q (Ok v) m) → wp (to_v8_string V s) m Q.
Proof. intros [v Hv] HQ. unfold to_v8_string. rewrite Hv. by eapply wp_lift. Qed.

Abbreviation good := (good R P).
Abbreviation creates := (creates R P).
Abbreviation MError := (ModuleError E).

(** [name] is a final URL under which nothing of the type is registered. *)
Definition vacant (d : ModuleMapData) (ty : ModuleType) (name : ModuleName) : Prop :=
  R name = None ∧ ∀ id, ¬ resolves d (requested_of ty) name id.

(** The last step of every constructor, after the handle was allocated. *)
Lemma register_wp (ty : ModuleType) name main reqs d0 m (h : handle)
    (Q : result ModuleId MError → ModuleMap → Prop) :
  good d0 → vacant (data d0) ty name → P reqs →
  by_name (data m) = by_name (data d0) → info (data m) = info (data d0) →
  handles (data m) = handles (data d0) → handles_inverted (data m) = handles_inverted (data d0) →
  main_module_id (data m) = main_module_id (data d0) →
  (v8_modules d0 <= h < v8_modules m)%Z →
  (∀ id m', good m' → grows (data d0) (data m') →
     resolves (data m') (requested_of ty) name id → is_Some (get_handle (data m') id) →
     Q (Ok id) m') →
  wp (on_data (λ d, create_module_info d name ty h main reqs)) m Q.
Proof.
  intros [Hok Hreqs [Ha Hm] Hfr] [Hn Hno] HP Hb Hi Hh Hhi Hmm Hv HQ.
  assert (map_ok (data m)) as Hok1.
  { destruct Hok. split; rewrite ?Hb, ?Hi, ?Hh, ?Hhi, ?Hmm; done. }
  assert (consistent R (data m)) as Hc1.
  { split; unfold aliases; rewrite Hb; done. }
  assert (grows (data d0) (data m)) as Hg1.
  { split; [|split; [by rewrite Hi|unfold aliases; by rewrite Hb]].
    intros ty' n id. apply resolves_ext. by rewrite Hb. }
  destruct (create_good R (data m) name ty h main reqs Hok1 Hc1)
    as (d' & id & He & Hok' & Hc' & Hg' & Hr & Hhs & Hinfo & ->).
  - rewrite Hh. intros Hin%Hfr. lia.
  - done.
  - intros id Hr. apply (Hno id). eapply resolves_ext; [|done]. by rewrite Hb.
  - exists (Ok (length (info (data m)))), (set_data m d'). unfold on_data. rewrite He.
    split; [done|]. apply HQ; simpl.
    + split; [done| |done|]; simpl.
      { intros i x. rewrite Hinfo, Hi, lookup_snoc_Some.
        intros [[_ Hx]|[_ <-]]; [by eapply Hreqs|done]. }
      intros h'. rewrite Hhs, Hh. intros Hin.
      apply elem_of_app in Hin as [Hin%Hfr|Hin%list_elem_of_singleton]; [lia|subst; lia].
    + by etrans.
    + done.
    + unfold get_handle. rewrite Hhs, (d_len _ Hok1), lookup_app_r, Nat.sub_diag by done.
      by eexists.
Qed.

Lemma new_synthetic_module_spec name ty v m :
  good m → vacant (data m) ty name → is_Some (v8_string V name) → is_Some (v8_string V "default") →
  wp (new_synthetic_module V name ty [("default", v)]) m (creates ty name m).
Proof.
  intros Hg Hv Hn Hd. unfold new_synthetic_module.
  apply wp_bind, wp_to_v8; [done|intros _]. apply wp_bind. simpl.
  apply wp_bind, wp_to_v8; [done|intros _]. apply wp_ret.
  apply wp_bind. eexists (Ok _), _. split; [done|]. simpl.
  apply wp_bind, wp_modify. simpl.
  apply wp_bind. eapply (register_wp ty name false [] m); try done; simpl; [lia|].
  intros id m' Hg' Hgr Hr [h' Hh']. apply wp_bind, wp_get, wp_bind.
  eapply (wp_lift _ h'); [by rewrite Hh'|]. by apply wp_ret.
Qed.

Lemma keeps_code_cache b name cc c :
  keeps (store_code_cache V b name cc c : method MError _).
Proof.
  unfold store_code_cache. destruct (b && _); [|apply keeps_ret].
  destruct cc as [cc|]; [|apply keeps_ret].
  destruct (c_code_cache c); [|apply keeps_fail]. by apply keeps_modify.
Qed.

Lemma keeps_source_map name url : keeps (record_source_map V name url : method MError _).
Proof.
  destruct url as [url|]; [|apply keeps_ret]. apply keeps_modify. intros m.
  destruct (starts_with _ _); [destruct (decode_data_url V url)|]; done.
Qed.

Lemma keeps_module_requests ty name dyn raws :
  Forall (λ raw, length (raw_attributes raw) mod 3 = 0) raws →
  keeps (module_requests V ty name dyn raws).
Proof.
  induction 1 as [|raw raws Hraw _ IH]; simpl; [apply keeps_ret|].
  apply keeps_bind; [apply keeps_lift|intros attributes].
  { unfold parse_import_attributes. rewrite assert_true by by apply bool_decide_eq_true.
    by eexists. }
  destruct (validate_import_attributes_cb V attributes); [apply keeps_fail|].
  apply keeps_bind; [apply keeps_try|intros spec].
  apply keeps_bind; [done|intros rest; apply keeps_ret].
Qed.

Lemma new_js_spec main ty name source dyn cc m :
  good m → vacant (data m) ty name → is_Some (v8_string V name) → is_Some (v8_string V source) →
  wp (new_module_from_js_source V main ty name source dyn cc) m (creates ty name m).
Proof.
  intros Hg Hv Hname Hsource. unfold new_module_from_js_source. apply wp_bind, wp_get.
  assert (∀ m' (e : MError), data m' = data m → (v8_modules m <= v8_modules m')%Z →
    creates ty name m (Err e) m') as Herr.
  { intros m' e Hd Hle. destruct Hg as [Ho Hq Hc Hf]. split; [|by rewrite Hd].
    split; rewrite ?Hd; try done. intros h Hh%Hf. lia. }
  destruct (if main then _ else _) as [mid|] eqn:Hmain.
  { destruct main; [|done]. destruct (d_main _ (g_map _ _ _ Hg) _ Hmain) as (x & Hx & _).
    apply wp_bind. eapply (wp_lift _ (info_name x)).
    { unfold get_name_by_id. by rewrite Hx. }
    apply wp_fail, Herr; done. }
  apply wp_bind, wp_to_v8; [done|intros _]. apply wp_bind, wp_to_v8; [done|intros _].
  destruct (v8_compile V name source _) as [compiled rejected] eqn:Hcomp.
  destruct compiled as [c|exn]; [|apply wp_fail, Herr; done].
  apply wp_bind. eexists (Ok _), _. split; [done|]. simpl.
  apply wp_bind. eapply wp_mono; [apply keeps_code_cache|].
  simpl. intros [ []|e] m1 [Hd1 Hv1]; [|apply Herr; [done|lia]].
  apply wp_bind. eapply wp_mono; [apply keeps_source_map|].
  simpl. intros [ []|e] m2 [Hd2 Hv2]; [|apply Herr; [congruence|lia]].
  apply wp_bind.
  destruct (keeps_module_requests ty name dyn (c_requests c)
    (V_attributes _ _ _ _ _ Hcomp) m2) as (rr & m3 & Hreq & Hd3 & Hv3).
  exists rr, m3. split; [done|].
  destruct rr as [reqs|e]; [|apply Herr; [congruence|lia]].
  pose proof (V_requests _ _ _ _ _ _ _ _ _ _ Hcomp Hreq) as HP.
  assert (data m3 = data m) as Hd by congruence.
  eapply (register_wp ty name main reqs m); rewrite ?Hd; try done; simpl in *; lia.
Qed.

Lemma new_module_of_type_spec main dyn ty name code cc m :
  good m → vacant (data m) ty name → strings_fit name ty code →
  wp (new_module_of_type V main dyn ty name code cc) m (creates ty name m).
Proof.
  intros Hg Hv [Hn Hfit].
  assert (∀ e : MError, wp (fail e) m (creates ty name m)) as Hfail
    by (intros e; by apply wp_fail).
  destruct ty as [| | | | |cty]; simpl.
  - by apply new_js_spec.
  - unfold new_wasm_module. destruct (wasm_js V name _); [apply new_js_spec; auto|done].
  - destruct Hfit. unfold new_json_module. apply wp_bind, wp_to_v8; [done|intros _].
    destruct (v8_json_parse V _); [|done]. by apply new_synthetic_module_spec.
  - destruct Hfit. apply wp_bind, wp_to_v8; [done|intros v]. by apply new_synthetic_module_spec.
  - destruct code; [done|]. by apply new_synthetic_module_spec.
  - unfold new_custom_module. destruct (custom_module_evaluation_cb V) as [cb|] eqn:Hcb; [|done].
    destruct (cb cty name code) as [[v|src v sty]|e] eqn:Hk; [| |done].
    + by apply new_synthetic_module_spec.
    + by apply V_custom in Hk.
Qed.

(** What [new_module] does with a source of a consistent loader. *)
Definition registers (s : ModuleSource) (m : ModuleMap)
    (r : result ModuleId MError) (m' : ModuleMap) : Prop :=
  good m' ∧ grows (data m) (data m') ∧
  match r with
  | Ok id => resolves (data m') (requested_of (src_type s)) (module_url_specified s) id ∧
      resolves (data m') (requested_of (src_type s)) (final_url R (module_url_specified s)) id
  | Err _ => info (data m') = info (data m)
  end ∧
  ∀ id, resolves (data m) (requested_of (src_type s))
          (final_url R (module_url_specified s)) id →
    r = Ok id ∧ info (data m') = info (data m).

(** The first part: the alias of a redirected source. *)
Lemma record_redirect s m :
  good m → source_ok R s →
  let ty := requested_of (src_type s) in
  let final := final_url R (module_url_specified s) in
  wp (match module_url_found s with
      | Some found =>
          _ ← on_data (λ d, d ← alias p d (module_url_specified s) ty found; Ret (tt, d));
          mret found
      | None => mret (module_url_specified s)
      end) m
    (λ r m1, r = Ok (E:=MError) final ∧ good m1 ∧ grows (data m) (data m1) ∧
       info (data m1) = info (data m) ∧
       ∀ d id, grows (data m1) d → resolves d ty final id →
         resolves d ty (module_url_specified s) id).
Proof.
  intros Hg Hs ty final. unfold final, source_ok, final_url in *.
  rewrite <- Hs. destruct (module_url_found s) as [f|] eqn:Hf; simpl; [|by apply wp_ret].
  destruct (alias_good R R_final p (data m) ty (module_url_specified s) f)
    as (d' & He & Hok' & Hc' & Hgr & Hhs & Hinfo & Hal); [apply Hg..|done|].
  apply wp_bind. exists (Ok tt), (set_data m d'). unfold on_data. rewrite He.
  split; [done|]. apply wp_ret. split; [done|]. split.
  { split; simpl; [done|rewrite Hinfo; apply Hg|done|rewrite Hhs; apply Hg]. }
  split; [done|]. split; [done|]. intros d id (_ & _ & Hd) Hr.
  eapply resolves_alias; [by apply Hd|done].
Qed.

(** A source of a consistent loader that V8 can take. *)
Definition source_fits (s : ModuleSource) : Prop :=
  strings_fit (final_url R (module_url_specified s)) (src_type s) (code s).

Lemma new_module_spec main dyn s m :
  good m → source_ok R s → source_fits s → wp (new_module V p main dyn s) m (registers s m).
Proof.
  intros Hg Hs Hfit. unfold new_module. apply wp_bind.
  eapply wp_mono; [by apply record_redirect|]. cbv beta.
  intros r m1 (-> & Hg1 & Hgr1 & Hinfo1 & Hback).
  apply wp_bind, wp_get.
  destruct (lookup_id_spec R R_final p (data m1) (final_url R (module_url_specified s))
    (requested_of (src_type s))) as (oid & Hl & Hid); [apply Hg1..|].
  apply wp_bind. eapply wp_lift; [exact Hl|].
  destruct oid as [id|].
  - apply wp_ret. assert (resolves (data m1) (requested_of (src_type s))
      (final_url R (module_url_specified s)) id) as Hr by by apply Hid.
    split; [done|]. split; [done|]. split; [split; [by apply Hback|done]|].
    intros id' Hr'%Hgr1. by rewrite (resolves_functional _ _ _ _ _ Hr Hr').
  - eapply wp_mono; [apply new_module_of_type_spec; [done| |done]|].
    { split; [by apply final_final|]. intros id Hr%Hid. done. }
    intros r m' (Hg' & Hgr' & Hr). split; [done|]. split; [by etrans|]. split.
    + destruct r; [split; [by apply Hback|done]|by rewrite Hr].
    + intros id Hr'%Hgr1%Hid. done.
Qed.
(** ** Sources of WebAssembly modules *)

Lemma wp_insert_source k v m (Q : result unit MError → ModuleMap → Prop) :
  good m →
  (∀ m', good m' → grows (data m) (data m') → info (data m') = info (data m) →
     Q (Ok tt) m') →
  wp (insert_source k v) m Q.
Proof.
  intros [Hok Hr [Ha Hm] Hf] HQ. apply wp_modify, HQ; simpl; [| |done].
  - split; simpl; try done. by destruct Hok.
  - split; [|done]. intros ty n id. by apply resolves_ext.
Qed.

Lemma record_source_redirect s m :
  good m → source_ok R s →
  wp (match module_url_found s with
      | Some found =>
          on_data (λ d,
            d ← alias p d (module_url_specified s) (requested_of (src_type s)) found;
            Ret (tt, d))
      | None => mret tt
      end) m
    (λ r m1, r = Ok (E:=MError) tt ∧ good m1 ∧ grows (data m) (data m1) ∧
       info (data m1) = info (data m)).
Proof.
  intros Hg Hs. unfold source_ok in Hs.
  destruct (module_url_found s) as [f|]; [|by apply wp_ret].
  destruct (alias_good R R_final p (data m) (requested_of (src_type s))
    (module_url_specified s) f) as (d' & He & Hok' & Hc' & Hgr & Hhs & Hinfo & Hal);
    [apply Hg..|done|].
  exists (Ok tt), (set_data m d'). unfold on_data. rewrite He. split; [done|].
  split; [done|]. split; [|done]. split; simpl; [done| |done|].
  - rewrite Hinfo. apply Hg.
  - rewrite Hhs. apply Hg.
Qed.

Lemma new_wasm_module_source_spec ref s m :
  good m → source_ok R s →
  wp (new_wasm_module_source V p ref s : method MError _) m (λ r m',
    good m' ∧ grows (data m) (data m') ∧ info (data m') = info (data m) ∧
    match r with Ok s' => s' = s | Err _ => True end).
Proof.
  intros Hg Hs. unfold new_wasm_module_source.
  apply wp_bind. eapply wp_mono; [by apply record_source_redirect|].
  intros r m1 (-> & Hg1 & Hgr & Hinfo). apply wp_bind, wp_get.
  destruct (sources (data m1) !! from_reference ref); [by apply wp_ret|].
  destruct (sources (data m1) !! from_loaded_source s) as [src|].
  { apply wp_bind, wp_insert_source; [done|]. intros m2 Hg2 Hgr2 Hi2. apply wp_ret.
    split; [done|]. split; [by etrans|]. by rewrite Hi2. }
  destruct (code s) as [|bytes]; [by apply wp_fail|].
  destruct (v8_wasm_compile V bytes) as [src|]; [|by apply wp_fail].
  apply wp_bind, wp_insert_source; [done|]. intros m2 Hg2 Hgr2 Hi2.
  apply wp_bind, wp_insert_source; [done|]. intros m3 Hg3 Hgr3 Hi3. apply wp_ret.
  split; [done|]. split; [etrans; [exact Hgr|]; by etrans|]. split; [congruence|done].
Qed.
End constructors.

(** * Properties *)

Section properties.
Context {E : Type} (V : env E) (p : profile).
Context (R : ModuleName → option ModuleName).

(** With a loader whose redirects are final, registering a source whose strings fit into
    V8 never panics or loops: it returns an error and no new module, or a module that both the
    specified and the found URL resolve to; a URL that is registered already gives
    its module and compiles nothing; every earlier name keeps its module. *)
Lemma new_module_registers main dynamic s m :
  (∀ a f, R a = Some f → R f = None) →
  (∀ name src cache c rej, v8_compile V name src cache = (Ok c, rej) →
     Forall (λ raw, length (raw_attributes raw) mod 3 = 0) (c_requests c)) →
  (∀ cb ty name code src v sty, custom_module_evaluation_cb V = Some cb →
     cb ty name code ≠ Ok (ComputedAndSynthetic src v sty)) →
  good R (λ _, True) m → source_ok R s → source_fits V R s →
  ∃ r m', new_module V p main dynamic s m = Ret (r, m') ∧
    registers R (λ _, True) s m r m'.
Proof. intros HR HV HC Hg Hs Hfit. by apply (new_module_spec V p R HR HV HC). Qed.

(** An [ext:] module is only resolved for an [ext:], [node:] or [checkin:]
    module, for a root specifier, or as the main module; any other importer gets
    the error before the loader is asked. *)
Lemma ext_import_guard specifier referrer kind :
  starts_with "ext:" specifier = true →
  let allowed :=
    starts_with "ext:" referrer = true ∨ starts_with "node:" referrer = true ∨
    starts_with "checkin:" referrer = true ∨ referrer = "." ∨ kind = MainModule in
  (allowed ∧ resolve V specifier referrer kind =
     match loader_resolve V specifier referrer kind with
     | Ok s => Ok s
     | Err e => Err (Core e)
     end) ∨
  (¬ allowed ∧ ∃ shown, resolve V specifier referrer kind = Err (ExtImport specifier shown)).
Proof.
  intros Hs. unfold resolve. rewrite Hs. simpl.
  destruct (starts_with "ext:" referrer) eqn:He; simpl; [by auto|].
  destruct (starts_with "node:" referrer) eqn:Hn; simpl; [by auto|].
  destruct (starts_with "checkin:" referrer) eqn:Hc; simpl; [by auto 6|].
  destruct (decide (referrer = ".")) as [->|Hr].
  { rewrite bool_decide_false by auto. simpl. left. auto 6. }
  rewrite bool_decide_true by done. simpl.
  destruct (decide (kind = MainModule)) as [->|Hk].
  { rewrite bool_decide_false by auto. simpl. left. auto 6. }
  rewrite bool_decide_true by done. right. split; [|by eexists].
  intros [?|[?|[?|[?|?]]]]; done.
Qed.
End properties.

(** * A concrete environment *)

(** Specifiers are URLs; every module imports nothing but [main], which imports
    [lib] and a JSON file. *)
Definition demo_imports (name : string) : list RawRequest :=
  if decide (name = "file:///main.js") then
    [mkRaw "file:///lib.js" [] 7 Evaluation;
     mkRaw "file:///conf.json" ["type"; "json"; "31"] 31 Evaluation]
  else [].

Definition demo_env : env string :=
  mkEnv string (λ s _ _, Ok s) (λ name _ _, (Ok (mkCompiled (demo_imports name) None None), false))
    (λ _, Ok 1%Z) (λ _, Some 2%Z) id (λ _, 3%Z) (λ _, None) (λ _ _, None) (λ _, None) None
    (λ _, None) (λ s, Some s) (λ _ s, Some s) false.

Definition demo_redirect (n : ModuleName) : option ModuleName :=
  if decide (n = "file:///old.js") then Some "file:///lib.js" else None.

Lemma demo_final a f : demo_redirect a = Some f → demo_redirect f = None.
Proof. unfold demo_redirect. case_decide; [intros [= <-]; by rewrite decide_False|done]. Qed.

Lemma demo_attributes name src cache c rej :
  v8_compile demo_env name src cache = (Ok c, rej) →
  Forall (λ raw, length (raw_attributes raw) mod 3 = 0) (c_requests c).
Proof.
  intros [= <- <-]. simpl. unfold demo_imports.
  case_decide; repeat constructor.
Qed.

Definition empty_map : ModuleMap := mkMap MapData_default 100 ∅ ∅ [] false.

Lemma empty_good R P : good R P empty_map.
Proof.
  split; simpl.
  - apply map_default_ok.
  - done.
  - by split.
  - by intros h ?%elem_of_nil.
Qed.

Definition old_source : ModuleSource :=
  mkSource (SString "export {}") JavaScript None "file:///old.js" (Some "file:///lib.js").

Lemma new_module_registers_example :
  ∃ r m', new_module demo_env Debug false false old_source empty_map = Ret (r, m') ∧
    registers demo_redirect (λ _, True) old_source empty_map r m'.
Proof.
  apply (new_module_registers demo_env Debug demo_redirect false false old_source empty_map).
  - exact demo_final.
  - exact demo_attributes.
  - intros cb ty name code src v sty H. discriminate H.
  - apply empty_good.
  - vm_compute. reflexivity.
  - by split; eexists.
Qed.

(** V8 makes no string of a text that is too long: creating a module of it panics. *)
Lemma oversized_source_panics {E} (V : env E) main name source dyn cc m :
  main = false → is_Some (v8_string V name) → v8_string V source = None →
  new_module_from_js_source V main JavaScript name source dyn cc m = Panic Unwrap.
Proof.
  intros -> [v Hn] Hs. unfold new_module_from_js_source, to_v8_string, mbind, method_bind, lift, get_map. simpl.
  by rewrite Hn, Hs.
Qed.

Lemma ext_import_guard_example :
  let allowed :=
    starts_with "ext:" "file:///main.js" = true ∨
    starts_with "node:" "file:///main.js" = true ∨
    starts_with "checkin:" "file:///main.js" = true ∨
    "file:///main.js" = "." ∨ Import = MainModule in
  (allowed ∧ resolve demo_env "ext:core/mod.js" "file:///main.js" Import =
     match loader_resolve demo_env "ext:core/mod.js" "file:///main.js" Import with
     | Ok s => Ok s
     | Err e => Err (Core e)
     end) ∨
  (¬ allowed ∧ ∃ shown,
     resolve demo_env "ext:core/mod.js" "file:///main.js" Import =
       Err (ExtImport "ext:core/mod.js" shown)).
Proof.
  apply (ext_import_guard demo_env "ext:core/mod.js" "file:///main.js" Import).
  vm_compute. reflexivity.
Qed.
