(* ===== verification/RecursiveLoad.v ===== *)
(** [core/modules/recursive_load.rs]: [RecursiveModuleLoad], the stream that loads a
    module and everything it imports.

    Holds the states of a load, the futures it has in flight, the registration of a
    loaded source with the breadth-first walk over known modules, and [poll_next].
    [FuturesUnordered] is a bag of futures polled in an order given by the caller of
    the model; the loader's answers are part of that order. *)

From S2P Require Import Prelude Modules ModuleMap.

Inductive SideModuleKind := Async | Sync.

Inductive LoadInit :=
  | Main (specifier : string)
  | Side (specifier : string) (kind : SideModuleKind) (code : option string)
  | DynamicImport (specifier referrer : string) (ty : RequestedModuleType)
      (phase : ModuleImportPhase).

Inductive LoadState := Init | LoadingRoot | LoadingImports | Done.
Global Instance LoadState_eq_dec : EqDecision LoadState.
Proof. solve_decision. Defined.

(** A load future: the future of the root does not look at the aliases. *)
Record Load := mkLoad { l_request : ModuleRequest; l_root : bool; l_started : bool }.

Record RecursiveModuleLoad := mkRecursive {
  load_id : Z;
  root_module_id : option ModuleId;
  init : LoadInit;
  state : LoadState;
  pending : list Load;
  visited : gset ModuleReference;
  visited_as_alias : gset string;
  root_module_reference : option ModuleReference
}.

(** The options handed to the loader. *)
Record PrepareArgs := mkPrepare {
  pa_specifier : string;
  pa_referrer : option string;
  pa_code : option string;
  pa_type : RequestedModuleType;
  pa_synchronous : bool;
  pa_dynamic : bool
}.

Section load.
Context {E : Type} (V : env E) (p : profile).
Implicit Types (L : RecursiveModuleLoad) (m : ModuleMap).

Abbreviation MError := (ModuleError E).

Definition set_state L (s : LoadState) : RecursiveModuleLoad :=
  mkRecursive (load_id L) (root_module_id L) (init L) s (pending L) (visited L)
    (visited_as_alias L) (root_module_reference L).
Definition set_pending L (l : list Load) : RecursiveModuleLoad :=
  mkRecursive (load_id L) (root_module_id L) (init L) (state L) l (visited L)
    (visited_as_alias L) (root_module_reference L).
Definition set_aliases L (a : gset string) : RecursiveModuleLoad :=
  mkRecursive (load_id L) (root_module_id L) (init L) (state L) (pending L) (visited L)
    a (root_module_reference L).
Definition visit L (r : ModuleReference) : RecursiveModuleLoad :=
  mkRecursive (load_id L) (root_module_id L) (init L) (state L) (pending L)
    ({[r]} ∪ visited L) (visited_as_alias L) (root_module_reference L).
Definition set_root L (id : ModuleId) : RecursiveModuleLoad :=
  mkRecursive (load_id L) (Some id) (init L) (state L) (pending L) (visited L)
    (visited_as_alias L) (root_module_reference L).
Definition set_root_reference L (r : ModuleReference) : RecursiveModuleLoad :=
  mkRecursive (load_id L) (root_module_id L) (init L) (state L) (pending L) (visited L)
    (visited_as_alias L) (Some r).

Definition resolve_root (i : LoadInit) : result string MError :=
  match i with
  | Main specifier => resolve V specifier "." MainModule
  | Side specifier _ _ => resolve V specifier "." Import
  | DynamicImport specifier referrer _ _ => resolve V specifier referrer KDynamicImport
  end.

Definition root_type (i : LoadInit) : RequestedModuleType :=
  match i with DynamicImport _ _ ty _ => ty | _ => RNone end.
Definition root_phase (i : LoadInit) : ModuleImportPhase :=
  match i with DynamicImport _ _ _ phase => phase | _ => Evaluation end.

Definition load_new (i : LoadInit) m : outcome (RecursiveModuleLoad * ModuleMap) :=
  '(id, d) ← fresh_load_id p (data m);
  root ← match resolve_root i with
         | Ok root_specifier => lookup_id p d root_specifier (root_type i)
         | Err _ => Ret None
         end;
  Ret (mkRecursive id root i Init [] ∅ ∅ None, set_data m d).

Definition is_dynamic_import L : bool :=
  match init L with DynamicImport _ _ _ _ => true | _ => false end.
Definition is_synchronous L : bool :=
  match init L with Side _ Sync _ => true | _ => false end.
Definition is_currently_loading_main_module L : bool :=
  negb (is_dynamic_import L) && match init L with Main _ => true | _ => false end
  && bool_decide (state L = LoadingRoot).

(** [prepare]: what the loader is asked to prepare; the code of a side module is
    taken out of the load. *)
Definition prepare L : result PrepareArgs MError * RecursiveModuleLoad :=
  match init L with
  | Main specifier =>
      (match resolve V specifier "." MainModule with
       | Ok spec => Ok (mkPrepare spec None None RNone false (is_dynamic_import L))
       | Err e => Err e
       end, L)
  | Side specifier kind code =>
      match resolve V specifier "." Import with
      | Ok spec =>
          (Ok (mkPrepare spec None code RNone
                 (match kind with Async => false | Sync => true end) (is_dynamic_import L)),
           mkRecursive (load_id L) (root_module_id L) (Side specifier kind None) (state L)
             (pending L) (visited L) (visited_as_alias L) (root_module_reference L))
      | Err e => (Err e, L)
      end
  | DynamicImport specifier referrer requested_module_type _ =>
      (match resolve V specifier referrer KDynamicImport with
       | Ok spec =>
           Ok (mkPrepare spec (Some referrer) None requested_module_type false
                 (is_dynamic_import L))
       | Err e => Err e
       end, L)
  end.

(** One import of a module being walked: known modules are queued, unknown ones are
    loaded, and a reference is treated once. *)
Definition visit_import (d : ModuleMapData) (q : ModuleRequest)
    (already_registered : list (ModuleId * ModuleReference)) L :
    outcome (list (ModuleId * ModuleReference) * RecursiveModuleLoad) :=
  let r := reference q in
  if decide ((r ∉ visited L) ∧ (specifier r ∉ visited_as_alias L)) then
    oid ← lookup_id p d (specifier r) (requested_module_type r);
    Ret (match oid with
         | Some module_id => (already_registered ++ [(module_id, r)], visit L r)
         | None =>
             (already_registered,
              visit (set_pending L (pending L ++ [mkLoad q false false])) r)
         end)
  else Ret (already_registered, L).

Fixpoint visit_imports (d : ModuleMapData) (imports : list ModuleRequest)
    (already_registered : list (ModuleId * ModuleReference)) L :
    outcome (list (ModuleId * ModuleReference) * RecursiveModuleLoad) :=
  match imports with
  | [] => Ret (already_registered, L)
  | q :: imports =>
      '(queue, L) ← visit_import d q already_registered L;
      visit_imports d imports queue L
  end.

(** The walk; every round but the first treats a reference that was not visited. *)
Fixpoint walk (fuel : nat) (d : ModuleMapData)
    (already_registered : list (ModuleId * ModuleReference)) L :
    outcome RecursiveModuleLoad :=
  match already_registered with
  | [] => Ret L
  | (module_id, _) :: queue =>
      match fuel with
      | 0 => Panic OutOfFuel
      | S fuel =>
          imports ← unwrap (requests <$> info d !! module_id);
          '(queue, L) ← visit_imports d imports queue L;
          walk fuel d queue L
      end
  end.

Definition all_requests (d : ModuleMapData) : list ModuleRequest := info d ≫= requests.

Definition register_and_recurse_inner (d : ModuleMapData) (module_id : ModuleId)
    (module_reference : ModuleReference) L : outcome RecursiveModuleLoad :=
  walk (S (length (all_requests d))) d [(module_id, module_reference)]
    (visit L module_reference).

Definition finish_if_idle L : RecursiveModuleLoad :=
  match pending L with [] => set_state L Done | _ => L end.

(** [register_and_recurse]. *)
Definition register_and_recurse (request : ModuleRequest) (module_source : ModuleSource)
    L m : outcome (result RecursiveModuleLoad MError * ModuleMap) :=
  '(r, m) ← match from_module_type (src_type module_source) with
            | Some KindWasm => new_wasm_module_source V p (reference request) module_source m
            | None => Ret (Ok module_source, m)
            end;
  match r with
  | Err e => Ret (Err e, m)
  | Ok module_source =>
      match from_module_type (src_type module_source), phase request with
      | Some KindWasm, Source => Ret (Ok (finish_if_idle L), m)
      | None, Source =>
          message ← unwrap (v8_string V
            ("Source phase imports are not supported for " ++ module_type_display (src_type module_source) ++ " modules"));
          Ret (Err (Exception (reference_error V message)), m)
      | _, _ =>
          '(r, m) ← new_module V p (is_currently_loading_main_module L)
                      (is_dynamic_import L) module_source m;
          match r with
          | Err e => Ret (Err e, m)
          | Ok module_id =>
              L ← register_and_recurse_inner (data m) module_id (reference request) L;
              let L := if decide (state L = LoadingRoot)
                       then set_state (set_root L module_id) LoadingImports else L in
              Ret (Ok (finish_if_idle L), m)
          end
      end
  end.

(** * Polling *)

(** What the loader answers when a future is polled: it is not done, or it loads the
    request of the future. *)
Inductive answer := Still | Loaded (load : ModuleRequest → result ModuleSource E).

(** [FuturesUnordered::try_poll_next]: the futures are polled in the order of
    [choices] until one completes. *)
Fixpoint poll_pending (choices : list (nat * answer)) (futs : list Load)
    (aliases : gset string) :
    poll (option (result (option (ModuleRequest * ModuleSource)) E)) * list Load
      * gset string :=
  match futs, choices with
  | [], _ => (Ready None, futs, aliases)
  | _, [] => (Pending, futs, aliases)
  | _, (i, a) :: choices =>
      match futs !! i with
      | None => poll_pending choices futs aliases
      | Some f =>
          let q := l_request f in
          if negb (l_root f) && negb (l_started f)
             && bool_decide (specifier (reference q) ∈ aliases) then
            (Ready (Some (Ok None)), delete i futs, aliases)
          else
            match a with
            | Still =>
                poll_pending choices (<[i := mkLoad q (l_root f) true]> futs) aliases
            | Loaded load =>
                match load q with
                | Err e => (Ready (Some (Err e)), delete i futs, aliases)
                | Ok source =>
                    (Ready (Some (Ok (Some (q, source)))), delete i futs,
                     match l_root f, module_url_found source with
                     | false, Some found_specifier => {[found_specifier]} ∪ aliases
                     | _, _ => aliases
                     end)
                end
            end
      end
  end.

(** The polling of [LoadingRoot] and [LoadingImports]; [steps] gives the choices of
    each successive poll of the bag. *)
Fixpoint poll_loading (steps : list (list (nat * answer))) L :
    outcome (poll (option (result (ModuleRequest * ModuleSource) E))
             * RecursiveModuleLoad) :=
  match steps with
  | [] =>
      match pending L with
      | [] => Panic Unreachable
      | _ => Ret (Pending, L)
      end
  | choices :: steps =>
      let '(r, futs, aliases) := poll_pending choices (pending L) (visited_as_alias L) in
      let L := set_aliases (set_pending L futs) aliases in
      match r with
      | Ready None => Panic Unreachable
      | Ready (Some (Err e)) => Ret (Ready (Some (Err e)), L)
      | Ready (Some (Ok None)) =>
          match pending L with
          | [] => Ret (Ready None, set_state L Done)
          | _ => poll_loading steps L
          end
      | Ready (Some (Ok (Some info))) => Ret (Ready (Some (Ok info)), L)
      | Pending => Ret (Pending, L)
      end
  end.

Definition root_request (i : LoadInit) (module_specifier : string) : ModuleRequest :=
  mkRequest (mkReference module_specifier (root_type i)) None None (root_phase i).

(** [poll_next]: an error of the root's resolution is a [ModuleError], one of the
    loader an [E]. *)
Definition poll_next (steps : list (list (nat * answer))) (d : ModuleMapData) L :
    outcome (poll (option (result (ModuleRequest * ModuleSource) (MError + E)))
             * RecursiveModuleLoad) :=
  let loading L :=
    '(r, L) ← poll_loading steps L;
    Ret (match r with
         | Ready (Some (Ok x)) => Ready (Some (Ok x))
         | Ready (Some (Err e)) => Ready (Some (Err (inr e)))
         | Ready None => Ready None
         | Pending => Pending
         end, L) in
  match state L with
  | Init =>
      match resolve_root (init L) with
      | Err error => Ret (Ready (Some (Err (inl error))), L)
      | Ok module_specifier =>
          let module_request := root_request (init L) module_specifier in
          let L := set_root_reference L (reference module_request) in
          match phase module_request, root_module_id L with
          | Evaluation, Some module_id =>
              L ← register_and_recurse_inner d module_id (reference module_request) L;
              match pending L with
              | [] => Ret (Ready None, set_state L Done)
              | _ => loading (set_state L LoadingImports)
              end
          | _, _ =>
              loading (set_state
                (set_pending L (pending L ++ [mkLoad module_request true false]))
                LoadingRoot)
          end
      end
  | LoadingRoot | LoadingImports => loading L
  | Done => Ret (Ready None, L)
  end.

(** The loop of [load_main_es_module_from_code] and [load_side_es_module_from_code];
    one element of [polls] per poll of the stream.  [None]: the load is pending. *)
Fixpoint load_graph (polls : list (list (list (nat * answer)))) L m :
    outcome (option (result ModuleId (MError + E)) * RecursiveModuleLoad * ModuleMap) :=
  match polls with
  | [] => Ret (None, L, m)
  | steps :: polls =>
      '(load_result, L) ← poll_next steps (data m) L;
      match load_result with
      | Pending => load_graph polls L m
      | Ready (Some (Ok (request, info))) =>
          '(r, m) ← register_and_recurse request info L m;
          match r with
          | Ok L => load_graph polls L m
          | Err e => Ret (Some (Err (inl e)), L, m)
          end
      | Ready (Some (Err e)) => Ret (Some (Err e), L, m)
      | Ready None =>
          root_id ← unwrap (root_module_id L);
          Ret (Some (Ok root_id), L, m)
      end
  end.
End load.
Arguments Still {E}.
Arguments Loaded {E} _.

(** * The walk over known modules *)

Section closure.
Context {E : Type} (V : env E) (p : profile).
Context (R : ModuleName → option ModuleName).
Context (R_final : ∀ s f, R s = Some f → R f = None).
Context (V_attributes : ∀ name src cache c rej,
  v8_compile V name src cache = (Ok c, rej) →
  Forall (λ raw, length (raw_attributes raw) mod 3 = 0) (c_requests c)).
Context (V_custom : ∀ cb ty name code src v sty,
  custom_module_evaluation_cb V = Some cb →
  cb ty name code ≠ Ok (ComputedAndSynthetic src v sty)).

(** Every specifier is imported with one type, its redirect with the same, and no
    import is in the source phase. *)
Context (T : string → RequestedModuleType).
Context (T_final : ∀ s, T (final_url R s) = T s).

Definition typed (q : ModuleRequest) : Prop :=
  requested_module_type (reference q) = T (specifier (reference q)) ∧ phase q ≠ Source.

Context (V_requests : ∀ ty name dyn src cache c rej m reqs m',
  v8_compile V name src cache = (Ok c, rej) →
  module_requests V ty name dyn (c_requests c) m = Ret (Ok reqs, m') →
  Forall typed reqs).

Abbreviation MError := (ModuleError E).
Abbreviation good := (good R (Forall typed)).
Implicit Types (L : RecursiveModuleLoad) (m : ModuleMap) (d : ModuleMapData).

Definition resolved d (r : ModuleReference) (id : ModuleId) : Prop :=
  resolves d (requested_module_type r) (specifier r) id.

(** The answer of a consistent loader to a request. *)
Definition source_for (q : ModuleRequest) (s : ModuleSource) : Prop :=
  module_url_specified s = specifier (reference q) ∧ source_ok R s ∧
  requested_of (src_type s) = requested_module_type (reference q) ∧ source_fits V R s.

Definition seen L (q : ModuleRequest) : Prop :=
  reference q ∈ visited L ∨ specifier (reference q) ∈ visited_as_alias L.

Definition ref_of (f : Load) : ModuleReference := reference (l_request f).

(** [Rec]: modules whose imports were all looked at; [Qu]: modules still queued;
    [out]: the reference of the source that was handed out and is not registered. *)
Record walked d L (Rec Qu : list ModuleId) (out : option ModuleReference) : Prop := {
  w_rec : ∀ id x q, id ∈ Rec → info d !! id = Some x → q ∈ requests x → seen L q;
  w_info : ∀ id, id ∈ Rec ++ Qu → is_Some (info d !! id);
  w_visited : ∀ r, r ∈ visited L →
    (∃ id, id ∈ Rec ++ Qu ∧ resolved d r id) ∨ r ∈ ref_of <$> pending L ∨
    out = Some r ∨ specifier r ∈ visited_as_alias L
}.

(** A load that a walk starts: for a reference it is the first to visit. *)
Definition fresh_load (before after : gset ModuleReference) (f : Load) : Prop :=
  typed (l_request f) ∧ l_root f = false ∧ (ref_of f ∉ before) ∧ ref_of f ∈ after.

(** What a walk changes: it visits references and starts loads. *)
Record extends L L' : Prop := {
  e_state : state L' = state L;
  e_root : root_module_id L' = root_module_id L;
  e_init : init L' = init L;
  e_alias : visited_as_alias L' = visited_as_alias L;
  e_visited : visited L ⊆ visited L';
  e_pending : ∃ new, pending L' = pending L ++ new ∧
    Forall (fresh_load (visited L) (visited L')) new ∧
    NoDup (ref_of <$> new);
  e_typed : (∀ r, r ∈ visited L → requested_module_type r = T (specifier r)) →
    ∀ r, r ∈ visited L' → requested_module_type r = T (specifier r)
}.

Lemma fresh_load_mono b b' a a' f :
  b ⊆ b' → a ⊆ a' → fresh_load b' a f → fresh_load b a' f.
Proof.
  intros Hb Ha (? & ? & Hn & Hi). split; [done|]. split; [done|].
  split; [intros Hi2; by apply Hn, Hb|by apply Ha].
Qed.

Global Instance extends_preorder : PreOrder extends.
Proof.
  split.
  - intros L. split; try reflexivity; [|by intros ?].
    exists []. rewrite app_nil_r. split; [reflexivity|]. split; constructor.
  - intros L1 L2 L3 [? ? ? ? Hv (n1 & Hp1 & Hn1 & Hnd1) ?]
      [? ? ? ? Hv' (n2 & Hp2 & Hn2 & Hnd2) ?].
    split; [congruence|congruence|congruence|congruence|by etrans| |auto].
    exists (n1 ++ n2). split; [by rewrite Hp2, Hp1, <- (assoc_L (++))|]. split.
    + apply Forall_app. split; (eapply Forall_impl; [eassumption|]); intros f;
        by apply fresh_load_mono.
    + rewrite fmap_app. apply NoDup_app. split; [done|]. split; [|done].
      intros r (f & -> & Hf)%list_elem_of_fmap (f' & He & Hf')%list_elem_of_fmap.
      rewrite Forall_forall in Hn1, Hn2.
      destruct (Hn1 f Hf) as (_ & _ & _ & Hin), (Hn2 f' Hf') as (_ & _ & Hnin & _).
      congruence.
Qed.

Definition unvisited d L : nat :=
  length (filter (λ q, reference q ∉ visited L) (all_requests d)).

Lemma unvisited_mono d L L' : visited L ⊆ visited L' → unvisited d L' <= unvisited d L.
Proof.
  intros Hv. unfold unvisited. induction (all_requests d) as [|q l IH]; [done|].
  rewrite !filter_cons. repeat case_decide; simpl; try lia. set_solver.
Qed.

Lemma unvisited_visit d L L' q :
  q ∈ all_requests d → (reference q ∉ visited L) → reference q ∈ visited L' →
  visited L ⊆ visited L' → S (unvisited d L') <= unvisited d L.
Proof.
  intros Hq Hnv Hv' Hsub. unfold unvisited. induction (all_requests d) as [|a l IH].
  { by apply elem_of_nil in Hq. }
  assert (length (filter (λ q, reference q ∉ visited L') l) <=
          length (filter (λ q, reference q ∉ visited L) l)) as Hl.
  { clear IH Hq. induction l as [|b l IH]; [done|]. rewrite !filter_cons.
    repeat case_decide; simpl; try lia. set_solver. }
  rewrite !filter_cons. apply elem_of_cons in Hq as [<-|Hq].
  - rewrite decide_False, decide_True by auto. simpl. lia.
  - specialize (IH Hq). repeat case_decide; simpl; try lia. set_solver.
Qed.

Lemma elem_of_queue (K : list ModuleId) id i : i ∈ K ++ [id] ↔ i ∈ K ∨ i = id.
Proof. rewrite elem_of_app. by rewrite list_elem_of_singleton. Qed.

Lemma seen_extends L L' q : extends L L' → seen L q → seen L' q.
Proof.
  intros He [Hv|Ha]; [left; by apply (e_visited _ _ He)|right]. by rewrite (e_alias _ _ He).
Qed.

Lemma walked_visit d L Rec Qu out r id :
  walked d L Rec Qu out → resolved d r id → is_Some (info d !! id) →
  walked d (visit L r) Rec (Qu ++ [id]) out.
Proof.
  intros [Hw1 Hw2 Hw3] Hres Hreg. split; simpl.
  - intros i x q' Hi Hx Hq'. destruct (Hw1 i x q' Hi Hx Hq'); [left|by right].
    simpl. set_solver.
  - intros i. rewrite (assoc_L (++)), elem_of_queue. intros [Hi| ->]; auto.
  - rewrite (assoc_L (++)). intros r' [->%elem_of_singleton|Hr']%elem_of_union.
    { left. exists id. split; [|done]. apply elem_of_queue. by right. }
    destruct (Hw3 r' Hr') as [(i & Hi & ?)|?]; [left|by right].
    exists i. split; [|done]. apply elem_of_queue. by left.
Qed.

Lemma walked_load d L Rec Qu out q :
  walked d L Rec Qu out →
  walked d (visit (set_pending L (pending L ++ [mkLoad q false false])) (reference q))
    Rec Qu out.
Proof.
  intros [Hw1 Hw2 Hw3]. split; simpl; [|done|].
  - intros i x q' Hi Hx Hq'. destruct (Hw1 i x q' Hi Hx Hq'); [left|by right].
    simpl. set_solver.
  - rewrite fmap_app. intros r' [->%elem_of_singleton|Hr']%elem_of_union.
    { right. left. apply elem_of_app. right. by left. }
    destruct (Hw3 r' Hr') as [?|[?|?]]; [by left|right; left|by right; right].
    apply elem_of_app. by left.
Qed.

Lemma extends_visit L q pend :
  typed q → Forall (fresh_load (visited L) ({[reference q]} ∪ visited L)) pend →
  NoDup (ref_of <$> pend) →
  extends L (visit (set_pending L (pending L ++ pend)) (reference q)).
Proof.
  intros Ht Hn Hnd. split; simpl; [done|done|done|done|set_solver|by exists pend|].
  intros Hty r' [->%elem_of_singleton|?]%elem_of_union; [apply Ht|auto].
Qed.

Lemma visit_import_spec m q L Rec X Qu out :
  good m → walked (data m) L Rec (X ++ Qu.*1) out → q ∈ all_requests (data m) → typed q →
  ∃ Qu' L', visit_import p (data m) q Qu L = Ret (Qu', L') ∧
    walked (data m) L' Rec (X ++ Qu'.*1) out ∧ extends L L' ∧ seen L' q ∧
    Qu.*1 ⊆ Qu'.*1 ∧
    unvisited (data m) L' + length Qu' <= unvisited (data m) L + length Qu.
Proof.
  intros Hg Hw Hq Ht. unfold visit_import. case_decide as Hd.
  2:{ exists Qu, L. split; [done|]. split; [done|]. split; [reflexivity|]. split; [|done].
      unfold seen. destruct (decide (reference q ∈ visited L)); [by left|right].
      destruct (decide (specifier (reference q) ∈ visited_as_alias L)); [done|]. tauto. }
  destruct Hd as [Hnv Hna].
  destruct (lookup_id_spec R R_final p (data m) (specifier (reference q))
    (requested_module_type (reference q))) as (oid & -> & Hid); [apply Hg..|]. simpl.
  pose proof (unvisited_visit (data m) L (visit L (reference q)) q Hq Hnv) as Hun.
  simpl in Hun. specialize (Hun ltac:(set_solver) ltac:(set_solver)).
  assert (∀ l, seen (visit (set_pending L l) (reference q)) q) as Hseen
    by (intros l; left; simpl; set_solver).
  destruct oid as [id|]; (eexists _, _; split; [done|]).
  - assert (resolved (data m) (reference q) id) as Hres by by apply Hid.
    split; [|split; [|split; [|split]]].
    + rewrite fmap_app, (assoc_L (++)). apply walked_visit; [done|done|].
      by eapply resolves_registered; [apply Hg|].
    + pose proof (extends_visit L q [] Ht (Forall_nil_2 _) (NoDup_nil_2)) as He.
      rewrite app_nil_r in He. by destruct L.
    + specialize (Hseen (pending L)). by destruct L.
    + rewrite fmap_app. set_solver.
    + rewrite length_app. simpl. lia.
  - split; [by apply walked_load|]. split; [|split; [done|split; [done|]]].
    + apply extends_visit; [done| |apply NoDup_singleton]. apply Forall_singleton.
      split; [done|]. split; [done|]. split; [done|]. simpl. set_solver.
    + change (unvisited (data m) (visit (set_pending L (pending L ++ [mkLoad q false false]))
        (reference q))) with (unvisited (data m) (visit L (reference q))). lia.
Qed.

Lemma visit_imports_spec m imports L Rec X Qu out :
  good m → walked (data m) L Rec (X ++ Qu.*1) out →
  (∀ q, q ∈ imports → q ∈ all_requests (data m) ∧ typed q) →
  ∃ Qu' L', visit_imports p (data m) imports Qu L = Ret (Qu', L') ∧
    walked (data m) L' Rec (X ++ Qu'.*1) out ∧ extends L L' ∧
    (∀ q, q ∈ imports → seen L' q) ∧ Qu.*1 ⊆ Qu'.*1 ∧
    unvisited (data m) L' + length Qu' <= unvisited (data m) L + length Qu.
Proof.
  intros Hg. revert Qu L. induction imports as [|q imports IH]; intros Qu L Hw Hi.
  - exists Qu, L. split; [done|]. split; [done|]. split; [reflexivity|].
    split; [by intros q ?%elem_of_nil|done].
  - destruct (Hi q) as [Hq Ht]; [by left|].
    destruct (visit_import_spec m q L Rec X Qu out Hg Hw Hq Ht)
      as (Qu1 & L1 & He1 & Hw1 & Hx1 & Hs1 & Hsub1 & Hm1).
    destruct (IH Qu1 L1 Hw1) as (Qu2 & L2 & He2 & Hw2 & Hx2 & Hs2 & Hsub2 & Hm2).
    { intros q' Hq'. apply Hi. by right. }
    exists Qu2, L2. simpl. rewrite He1. simpl. rewrite He2.
    split; [done|]. split; [done|]. split; [by etrans|]. split; [|split; [by etrans|lia]].
    intros q' [->|Hq']%elem_of_cons; [by eapply seen_extends|auto].
Qed.

Lemma imports_of m id x q :
  good m → info (data m) !! id = Some x → q ∈ requests x →
  q ∈ all_requests (data m) ∧ typed q.
Proof.
  intros Hg Hx Hq. split.
  - apply list_elem_of_bind. exists x. split; [done|]. by eapply list_elem_of_lookup_2.
  - pose proof (g_reqs _ _ _ Hg id x Hx) as Hf. rewrite Forall_forall in Hf. auto.
Qed.

Lemma walked_done d L Rec Qu out id :
  walked d L Rec (id :: Qu) out →
  (∀ x q, info d !! id = Some x → q ∈ requests x → seen L q) →
  walked d L (id :: Rec) Qu out.
Proof.
  intros [Hw1 Hw2 Hw3] Hid.
  assert (∀ i, i ∈ (id :: Rec) ++ Qu ↔ i ∈ Rec ++ id :: Qu) as Heq.
  { intros i. rewrite !elem_of_app, !elem_of_cons. tauto. }
  split.
  - intros i x q [->|Hi]%elem_of_cons; [by apply Hid|by apply Hw1].
  - intros i. rewrite Heq. apply Hw2.
  - intros r Hr. destruct (Hw3 r Hr) as [(i & Hi & ?)|?]; [left|by right].
    exists i. by rewrite Heq.
Qed.

Lemma walk_spec m fuel Qu L Rec out :
  good m → walked (data m) L Rec (Qu.*1) out → unvisited (data m) L + length Qu <= fuel →
  ∃ Rec' L', walk p fuel (data m) Qu L = Ret L' ∧ walked (data m) L' Rec' [] out ∧
    extends L L' ∧ Rec ++ Qu.*1 ⊆ Rec'.
Proof.
  intros Hg. revert Qu L Rec. induction fuel as [|fuel IH]; intros [|[id r] Qu] L Rec Hw Hf;
    simpl in *; try lia.
  1,2: exists Rec, L; rewrite app_nil_r; done.
  destruct (w_info _ _ _ _ _ Hw id) as [x Hx]; [apply elem_of_app; right; by left|].
  rewrite Hx. simpl.
  destruct (visit_imports_spec m (requests x) L Rec [id] Qu out Hg Hw)
    as (Qu' & L1 & -> & Hw1 & Hx1 & Hs & Hsub & Hm).
  { intros q Hq. by eapply imports_of. }
  simpl in *. apply (walked_done _ _ _ _ _ id) in Hw1.
  2:{ intros x' q Hx'. rewrite Hx in Hx'. injection Hx' as <-. auto. }
  destruct (IH Qu' L1 _ Hw1) as (Rec' & L2 & He & Hw2 & Hx2 & Hs2); [lia|].
  exists Rec', L2. split; [done|]. split; [done|]. split; [by etrans|].
  intros i Hi. apply Hs2. apply elem_of_app in Hi as [Hi|Hi].
  - apply elem_of_app. left. by right.
  - apply elem_of_cons in Hi as [->|Hi]; [by left|].
    apply elem_of_app. right. by apply Hsub.
Qed.

(** Registering the module of the source that was handed out. *)
Lemma register_inner_spec m L Rec id ref out :
  good m → walked (data m) L Rec [] out → (out = None ∨ out = Some ref) →
  resolved (data m) ref id →
  ∃ Rec' L', register_and_recurse_inner p (data m) id ref L = Ret L' ∧
    walked (data m) L' Rec' [] None ∧ extends (visit L ref) L' ∧ Rec ⊆ Rec' ∧ id ∈ Rec'.
Proof.
  intros Hg Hw Hout Hres. unfold register_and_recurse_inner.
  assert (walked (data m) (visit L ref) Rec [id] None) as Hw1.
  { pose proof (resolves_registered _ _ _ _ (g_map _ _ _ Hg) Hres) as Hreg.
    destruct (walked_visit _ _ _ _ _ _ _ Hw Hres Hreg) as [Hw1 Hw2 Hw3].
    split; [done|done|]. intros r Hr. destruct (Hw3 r Hr) as [?|[?|[Hr'|?]]]; auto.
    left. exists id. split; [apply elem_of_queue; by right|].
    destruct Hout; congruence. }
  destruct (walk_spec m (S (length (all_requests (data m)))) [(id, ref)] (visit L ref) Rec
    None Hg Hw1) as (Rec' & L' & He & Hw2 & Hx & Hsub).
  { simpl. pose proof (length_filter (λ q, reference q ∉ visited (visit L ref))
      (all_requests (data m))). unfold unvisited. lia. }
  exists Rec', L'. split; [done|]. split; [done|]. split; [done|].
  split; [|apply Hsub, elem_of_queue; by right].
  intros i Hi. apply Hsub, elem_of_queue. by left.
Qed.

Lemma walked_grows d d' L Rec out :
  grows d d' → walked d L Rec [] out → walked d' L Rec [] out.
Proof.
  intros (Hr & Hi & _) [Hw1 Hw2 Hw3]. split.
  - intros id x q Hid Hx. destruct (Hw2 id) as [x' Hx']; [by apply elem_of_app; left|].
    pose proof (prefix_lookup_Some _ _ _ _ Hx' Hi) as Hx2.
    rewrite Hx in Hx2. injection Hx2 as ->. by apply (Hw1 id x').
  - intros id Hid. destruct (Hw2 id Hid) as [x Hx]. exists x. by eapply prefix_lookup_Some.
  - intros r Hin. destruct (Hw3 r Hin) as [(id & ? & ?)|?]; [left|by right].
    exists id. split; [done|]. by apply Hr.
Qed.

(** ** The bag of futures *)

Definition key (f : Load) : ModuleRequest * bool := (l_request f, l_root f).

Implicit Types (l : list Load).

Lemma ref_of_key l : ref_of <$> l = (λ k : ModuleRequest * bool, reference k.1) <$> (key <$> l).
Proof. by rewrite <- list_fmap_compose. Qed.

Lemma ref_of_remove l k l' :
  key <$> l ≡ₚ k :: (key <$> l') → ref_of <$> l ≡ₚ reference k.1 :: (ref_of <$> l').
Proof. intros Hk. by rewrite !ref_of_key, Hk. Qed.

Lemma key_forall (Q : ModuleRequest → Prop) l :
  Forall (λ f, Q (l_request f)) l ↔ Forall (λ k : ModuleRequest * bool, Q k.1) (key <$> l).
Proof. by rewrite Forall_fmap. Qed.

Lemma key_delete l i f :
  l !! i = Some f → key <$> l ≡ₚ key f :: (key <$> delete i l).
Proof. intros Hi. by rewrite (delete_Permutation l i f Hi) at 1. Qed.

Lemma poll_pending_spec choices futs al r futs' al' :
  poll_pending (E:=E) choices futs al = (r, futs', al') →
  match r with
  | Pending => key <$> futs' = key <$> futs ∧ al' = al
  | Ready None => futs = []
  | Ready (Some (Err _)) => True
  | Ready (Some (Ok None)) => al' = al ∧ ∃ q,
      specifier (reference q) ∈ al ∧ key <$> futs ≡ₚ (q, false) :: (key <$> futs')
  | Ready (Some (Ok (Some (q, s)))) => ∃ root,
      key <$> futs ≡ₚ (q, root) :: (key <$> futs') ∧
      al' = match root, module_url_found s with
            | false, Some found => {[found]} ∪ al
            | _, _ => al
            end
  end.
Proof.
  revert futs. induction choices as [|[i a] choices IH]; intros futs.
  { destruct futs; by intros [= <- <- <-]. }
  destruct futs as [|f0 futs0]; [by intros [= <- <- <-]|]. cbn [poll_pending].
  set (futs := f0 :: futs0). destruct (futs !! i) as [f|] eqn:Hi.
  2:{ intros H. apply IH in H. done. }
  pose proof (key_delete futs i f Hi) as Hk.
  destruct (negb (l_root f) && _ && _) eqn:Hal.
  { intros [= <- <- <-]. split; [done|]. exists (l_request f).
    apply andb_true_iff in Hal as [[Hr _]%andb_true_iff Ha%bool_decide_eq_true].
    split; [done|]. rewrite Hk. unfold key at 1. by destruct (l_root f). }
  destruct a as [|load]; [|destruct (load (l_request f)) as [s|e]; [|by intros [= <- <- <-]]].
  - intros H. apply IH in H.
    assert (key <$> <[i:=mkLoad (l_request f) (l_root f) true]> futs = key <$> futs) as Hs.
    { rewrite list_fmap_insert. apply list_insert_id. rewrite list_lookup_fmap, Hi. done. }
    destruct r as [[[[[q s]|]|e]|]|]; rewrite ?Hs in H; try done.
    apply (f_equal length) in H. by rewrite length_insert in H.
  - intros [= <- <- <-]. exists (l_root f). split; [done|]. by destruct (l_root f).
Qed.

(** ** Runs

    [out] is the source that [poll_next] handed out and that is not registered yet,
    [hist] the references handed out so far.  Other loads may add modules to the map
    between any two steps. *)

Record run := mkRun {
  r_load : RecursiveModuleLoad;
  r_map : ModuleMap;
  r_out : option (ModuleRequest * ModuleSource);
  r_hist : list ModuleReference
}.

Inductive step : run → run → Prop :=
  | step_poll_idle steps L m h r L' :
      poll_next V p steps (data m) L = Ret (r, L') → r = Pending ∨ r = Ready None →
      step (mkRun L m None h) (mkRun L' m None h)
  | step_poll_source steps L m h q s L' :
      poll_next V p steps (data m) L = Ret (Ready (Some (Ok (q, s))), L') →
      source_for q s →
      step (mkRun L m None h) (mkRun L' m (Some (q, s)) (h ++ [reference q]))
  | step_register L m q s h L' m' :
      register_and_recurse V p q s L m = Ret (Ok L', m') →
      step (mkRun L m (Some (q, s)) h) (mkRun L' m' None h)
  | step_other L m out h m' :
      good m' → grows (data m) (data m') →
      step (mkRun L m out h) (mkRun L m' out h).

Context (i : LoadInit).
Context (i_phase : root_phase i ≠ Source).
Context (i_type : ∀ s, resolve_root V i = Ok s → root_type i = T s).

Definition alias_ok d L (Rec : list ModuleId) (out : option ModuleSource) : Prop :=
  ∀ s, s ∈ visited_as_alias L →
    (∃ id, id ∈ Rec ∧ resolves d (T s) s id) ∨
    ∃ src, out = Some src ∧ s = final_url R (module_url_specified src).

Definition shape L (out : option (ModuleRequest * ModuleSource))
    (h : list ModuleReference) : Prop :=
  match state L, out with
  | Init, None => pending L = [] ∧ visited L = ∅ ∧ h = []
  | LoadingRoot, None =>
      (∃ f, pending L = [f] ∧ l_root f = true) ∧ visited L = ∅ ∧ h = []
  | LoadingRoot, Some (q, _) => pending L = [] ∧ visited L = ∅ ∧ h = [reference q]
  | LoadingImports, None => pending L ≠ []
  | LoadingImports, Some _ => True
  | Done, None => pending L = []
  | _, _ => False
  end.

Definition past_root L : Prop := state L = LoadingImports ∨ state L = Done.

Record inv L m (out : option (ModuleRequest * ModuleSource)) (h : list ModuleReference) :
    Prop := {
  i_good : good m;
  i_init : init L = i;
  i_walk : ∃ Rec, walked (data m) L Rec [] ((λ o, reference o.1) <$> out) ∧
    alias_ok (data m) L Rec (snd <$> out) ∧
    (past_root L → ∃ root, root_module_id L = Some root ∧ root ∈ Rec);
  i_typed : ∀ r, r ∈ visited L → requested_module_type r = T (specifier r);
  i_pending : Forall (λ f, typed (l_request f)) (pending L);
  i_out : ∀ q s, out = Some (q, s) → typed q ∧ source_for q s;
  i_shape : shape L out h;
  i_root : state L = Init → ∀ s id, resolve_root V i = Ok s →
    root_module_id L = Some id → resolves (data m) (root_type i) s id;
  i_once : NoDup (h ++ (ref_of <$> pending L));
  i_hist : past_root L → ∀ r, r ∈ h ++ (ref_of <$> pending L) → r ∈ visited L
}.

Definition handed (out : option (ModuleRequest * ModuleSource)) : list ModuleReference :=
  match out with Some (q, _) => [reference q] | None => [] end.

(** Futures [ks] leave the bag: each was skipped as an alias or is handed out. *)
Record takes L (ks : list (ModuleRequest * bool)) (futs : list Load) (al : gset string)
    (out : option (ModuleRequest * ModuleSource)) : Prop := {
  t_bag : key <$> pending L ≡ₚ ks ++ (key <$> futs);
  t_alias : visited_as_alias L ⊆ al;
  t_left : ∀ k, k ∈ ks →
    (∃ s, out = Some (k.1, s)) ∨ specifier (reference k.1) ∈ al;
  t_new : ∀ s, s ∈ al → s ∈ visited_as_alias L ∨
    ∃ q src, out = Some (q, src) ∧ s = final_url R (module_url_specified src);
  t_out : ∀ q s, out = Some (q, s) → source_for q s ∧ ∃ root, ks = [(q, root)]
}.

Lemma takes_refs L ks futs al out :
  takes L ks futs al out →
  ref_of <$> pending L ≡ₚ ((λ k, reference k.1) <$> ks) ++ (ref_of <$> futs).
Proof. intros Ht. by rewrite ref_of_key, (t_bag _ _ _ _ _ Ht), fmap_app, <- ref_of_key. Qed.

Lemma walked_take d L Rec ks futs al out st :
  takes L ks futs al out → walked d L Rec [] None →
  walked d (set_state (set_aliases (set_pending L futs) al) st) Rec []
    ((λ o, reference o.1) <$> out).
Proof.
  intros Ht [Hw1 Hw2 Hw3]. split; [|done|]; simpl.
  - intros id x q Hi Hx Hq. destruct (Hw1 id x q Hi Hx Hq) as [?|?]; [by left|right].
    simpl. by apply (t_alias _ _ _ _ _ Ht).
  - intros r Hr. destruct (Hw3 r Hr) as [?|[Hp|[?|Ha]]]; [by left| |done|].
    + rewrite (takes_refs _ _ _ _ _ Ht), elem_of_app in Hp.
      destruct Hp as [(k & -> & Hk)%list_elem_of_fmap|?]; [|by right; left].
      destruct (t_left _ _ _ _ _ Ht k Hk) as [[s ->]|?]; by right; right; auto.
    + right; right; right. by apply (t_alias _ _ _ _ _ Ht).
Qed.

Lemma inv_take L m h ks futs al out st :
  inv L m None h → takes L ks futs al out →
  (st = state L ∨ past_root L) → state L ≠ Init → st ≠ Init →
  let L' := set_state (set_aliases (set_pending L futs) al) st in
  shape L' out (h ++ handed out) → inv L' m out (h ++ handed out).
Proof.
  intros [Hg Hi Hw Hty Hp _ _ Hr Ho Hh] Ht Hst HnI HnI' L' Hs.
  assert (past_root L' → past_root L) as Hpast.
  { intros H. destruct Hst as [Hst|?]; [|done]. unfold past_root in *.
    simpl in H. by rewrite <- Hst. }
  pose proof (takes_refs _ _ _ _ _ Ht) as Hrefs.
  assert ((h ++ handed out) ++ (ref_of <$> futs) ⊆ h ++ (ref_of <$> pending L)) as Hsub.
  { intros r. rewrite !elem_of_app, Hrefs, elem_of_app. intros [[?|Hin]|?]; auto.
    right; left. destruct out as [[q s]|]; [|by apply elem_of_nil in Hin].
    destruct (t_out _ _ _ _ _ Ht q s eq_refl) as [_ [root ->]].
    apply list_elem_of_singleton in Hin as ->. by left. }
  split; try done.
  - destruct Hw as (Rec & Hw1 & Hw2 & Hw3). exists Rec. split; [by eapply walked_take|].
    split; [|intros H; by apply Hw3, Hpast].
    intros s Hs'. destruct (t_new _ _ _ _ _ Ht s Hs') as [Hold|(q & src & -> & ->)].
    + destruct (Hw2 s Hold) as [?|(src & ? & _)]; [by left|done].
    + right. by exists src.
  - simpl. apply (key_forall typed). apply key_forall in Hp.
    rewrite (t_bag _ _ _ _ _ Ht) in Hp. by apply Forall_app in Hp as [_ ?].
  - intros q s ->. destruct (t_out _ _ _ _ _ Ht q s eq_refl) as [Hsrc [root ->]].
    split; [|done]. apply key_forall in Hp. rewrite (t_bag _ _ _ _ _ Ht) in Hp.
    by apply Forall_cons in Hp as [? _].
  - simpl. rewrite Hrefs in Ho. destruct out as [[q s]|]; simpl in *.
    + destruct (t_out _ _ _ _ _ Ht q s eq_refl) as [_ [root ->]]. simpl in Ho.
      by rewrite <- (assoc_L (++)).
    + rewrite app_nil_r. apply NoDup_app in Ho as (? & Hd & Hn).
      apply NoDup_app in Hn as (? & ? & ?). apply NoDup_app.
      split; [done|]. split; [|done]. intros r Hrh Hrf. apply (Hd r Hrh).
      apply elem_of_app. by right.
  - intros H r Hin. simpl. apply (Hh (Hpast H)). by apply Hsub.
Qed.

(** What a poll that answers [r] leaves. *)
Definition settles {X} m (h : list ModuleReference)
    (r : poll (option (result (ModuleRequest * ModuleSource) X))) L : Prop :=
  match r with
  | Ready (Some (Err _)) => True
  | Ready (Some (Ok (q, s))) => source_for q s → inv L m (Some (q, s)) (h ++ [reference q])
  | Ready None => inv L m None h ∧ state L = Done
  | Pending => inv L m None h
  end.

Lemma shape_pending L h :
  state L = LoadingRoot ∨ state L = LoadingImports → shape L None h → pending L ≠ [].
Proof.
  unfold shape. intros [-> | ->]; [|done]. intros [(f & -> & _) _]. done.
Qed.

Lemma shape_key L h futs ks :
  shape L None h → state L = LoadingRoot → key <$> pending L ≡ₚ ks ++ (key <$> futs) →
  ∃ q, (ks = [(q, true)] ∧ futs = []) ∨ (ks = [] ∧ ∃ b, futs = [mkLoad q true b]).
Proof.
  unfold shape. intros Hs Hst. rewrite Hst in Hs. destruct Hs as [(f & -> & Hf) _].
  intros Hk. simpl in Hk. symmetry in Hk. apply Permutation_singleton_r in Hk.
  exists (l_request f). unfold key in Hk. rewrite Hf in Hk.
  destruct ks as [|k [|k' ks]]; simpl in Hk; [right|left|done].
  - split; [done|]. destruct futs as [|[q b s] [|]]; try done. injection Hk as <- ->. by exists s.
  - injection Hk as -> Hk. by destruct futs.
Qed.

Lemma set_state_same L : set_state L (state L) = L.
Proof. by destruct L. Qed.

Lemma shape_imports L futs al h :
  state L = LoadingImports → futs ≠ [] → shape (set_aliases (set_pending L futs) al) None h.
Proof. intros Hs Hf. unfold shape. simpl. by rewrite Hs. Qed.

Lemma take_alias L q futs :
  specifier (reference q) ∈ visited_as_alias L →
  key <$> pending L ≡ₚ (q, false) :: (key <$> futs) →
  takes L [(q, false)] futs (visited_as_alias L) None.
Proof.
  intros Hal Hk. split; [done|done| |by left|done].
  intros k ->%list_elem_of_singleton. by right.
Qed.

Lemma take_source L q root s futs :
  source_for q s → key <$> pending L ≡ₚ (q, root) :: (key <$> futs) →
  takes L [(q, root)] futs
    match root, module_url_found s with
    | false, Some found => {[found]} ∪ visited_as_alias L
    | _, _ => visited_as_alias L
    end (Some (q, s)).
Proof.
  intros Hs Hk. split; [done| | | |].
  - destruct root; [done|]. destruct (module_url_found s); [set_solver|done].
  - intros k ->%list_elem_of_singleton. left. by exists s.
  - intros a Ha. destruct root; [by left|].
    destruct (module_url_found s) as [f|] eqn:Hf; [|by left].
    apply elem_of_union in Ha as [->%elem_of_singleton|?]; [right|by left].
    exists q, s. split; [done|]. destruct Hs as (_ & Hs & _). unfold source_ok in Hs.
    unfold final_url. by rewrite <- Hs, Hf.
  - intros ? ? [= <- <-]. split; [done|]. by exists root.
Qed.

Lemma poll_loading_spec steps L m h :
  inv L m None h → state L = LoadingRoot ∨ state L = LoadingImports →
  ∃ r L', poll_loading (E:=E) steps L = Ret (r, L') ∧ settles m h r L'.
Proof.
  revert L. induction steps as [|choices steps IH]; intros L Hinv Hst.
  - pose proof (shape_pending L h Hst (i_shape _ _ _ _ Hinv)) as Hne. simpl.
    destruct (pending L) as [|f l] eqn:Hp; [done|]. by exists Pending, L.
  - simpl. destruct (poll_pending choices (pending L) (visited_as_alias L)) as [[r futs] al]
      eqn:Hpoll. apply poll_pending_spec in Hpoll.
    assert (state L ≠ Init) as HnI by (intros H; rewrite H in Hst; by destruct Hst).
    pose proof (shape_pending L h Hst (i_shape _ _ _ _ Hinv)) as Hne.
    destruct r as [[[[[q s]|]|e]|]|]; [| |by eexists _, _|done|].
    + destruct Hpoll as (root & Hk & Hal). eexists _, _. split; [done|]. intros Hs.
      pose proof (take_source L q root s futs Hs Hk) as Ht. rewrite <- Hal in Ht.
      rewrite <- (set_state_same (set_aliases _ _)).
      apply (inv_take L m h _ _ _ _ _ Hinv Ht); [by left|done|done|].
      unfold shape. simpl. destruct Hst as [Hst|Hst]; rewrite Hst; [|done].
      pose proof (i_shape _ _ _ _ Hinv) as Hshape.
      destruct (shape_key L h futs [(q, root)] Hshape Hst Hk) as (q' & [[Hq ->]|[? _]]); [|done].
      unfold shape in Hshape. rewrite Hst in Hshape. destruct Hshape as (_ & ? & ->).
      done.
    + destruct Hpoll as (-> & q & Hq & Hk).
      pose proof (take_alias L q futs Hq Hk) as Ht.
      destruct Hst as [Hst|Hst].
      { destruct (shape_key L h futs [(q, false)] (i_shape _ _ _ _ Hinv) Hst Hk)
          as (q' & [[? _]|[? _]]); done. }
      assert (past_root L) as Hpast by by left.
      destruct futs as [|f futs]; simpl.
      * eexists _, _. split; [done|]. split; [|done].
        pose proof (inv_take L m h _ _ _ _ Done Hinv Ht) as Hd. simpl in Hd.
        rewrite app_nil_r in Hd. by apply Hd; auto.
      * apply IH; [|by right].
        pose proof (inv_take L m h _ _ _ _ LoadingImports Hinv Ht) as Hd. simpl in Hd.
        rewrite app_nil_r in Hd. rewrite <- Hst in Hd. apply Hd; auto.
        unfold shape. simpl. by rewrite Hst.
    + destruct Hpoll as [Hk ->]. eexists _, _. split; [done|].
      assert (takes L [] futs (visited_as_alias L) None) as Ht.
      { split; [by rewrite Hk|done|by intros k ?%elem_of_nil|by left|done]. }
      rewrite <- (set_state_same (set_aliases _ _)).
      pose proof (inv_take L m h _ _ _ _ (state L) Hinv Ht) as Hd. simpl in Hd.
      rewrite app_nil_r in Hd. apply Hd; auto.
      pose proof (i_shape _ _ _ _ Hinv) as Hshape. unfold shape in *. simpl.
      destruct Hst as [Hst|Hst]; rewrite Hst in *.
      * destruct Hshape as ((f & Hf & Hroot) & ? & ?). split; [|done].
        rewrite Hf in Hk. destruct futs as [|f' [|]]; try done. exists f'. split; [done|].
        injection Hk as _ ->. done.
      * intros ->. by destruct (pending L).
Qed.

(** ** Registration keeps the invariant *)

Definition same_bag L L' : Prop :=
  init L = init L' ∧ visited L = visited L' ∧ visited_as_alias L = visited_as_alias L' ∧
  pending L = pending L'.

Lemma walked_same d L L' Rec out :
  same_bag L L' → walked d L Rec [] out → walked d L' Rec [] out.
Proof.
  intros (_ & Hv & Ha & Hp) [Hw1 Hw2 Hw3]. split; [|done|].
  - intros id x q Hi Hx Hq. unfold seen. rewrite <- Hv, <- Ha. by eapply Hw1.
  - rewrite <- Hv, <- Ha, <- Hp. done.
Qed.

(** What is known before the module of [ref] is walked. *)
Record ready L m (ref : ModuleReference) (h : list ModuleReference) : Prop := {
  rd_good : good m;
  rd_init : init L = i;
  rd_ref : requested_module_type ref = T (specifier ref);
  rd_typed : ∀ r, r ∈ visited L → requested_module_type r = T (specifier r);
  rd_pending : Forall (λ f, typed (l_request f)) (pending L);
  rd_once : NoDup (h ++ (ref_of <$> pending L));
  rd_hist : ∀ r, r ∈ h ++ (ref_of <$> pending L) → r ∈ visited L ∨ r = ref
}.

Lemma extends_once L L' m ref h :
  ready L m ref h → extends (visit L ref) L' →
  NoDup (h ++ (ref_of <$> pending L')) ∧
  ∀ r, r ∈ h ++ (ref_of <$> pending L') → r ∈ visited L'.
Proof.
  intros [_ _ _ _ _ Ho Hh] [_ _ _ _ Hv (new & Hp & Hn & Hnd) _]. simpl in *.
  rewrite Forall_forall in Hn. rewrite Hp, fmap_app, (assoc_L (++)).
  assert (∀ r, r ∈ h ++ (ref_of <$> pending L) → r ∈ {[ref]} ∪ visited L) as Hold.
  { intros r Hr. destruct (Hh r Hr) as [?| ->]; set_solver. }
  split.
  - apply NoDup_app. split; [done|]. split; [|done].
    intros r Hr (f & -> & Hf)%list_elem_of_fmap.
    destruct (Hn f Hf) as (_ & _ & Hnot & _). by apply Hnot, Hold.
  - intros r [Hr|(f & -> & Hf)%list_elem_of_fmap]%elem_of_app; [by apply Hv, Hold|].
    by destruct (Hn f Hf) as (_ & _ & _ & ?).
Qed.

Lemma inv_recursed L L' L2 m ref Rec root h :
  ready L m ref h → extends (visit L ref) L' → walked (data m) L' Rec [] None →
  alias_ok (data m) L' Rec None → same_bag L' L2 →
  root_module_id L2 = Some root → root ∈ Rec →
  (state L2 = LoadingImports ∧ pending L2 ≠ []) ∨ (state L2 = Done ∧ pending L2 = []) →
  inv L2 m None h.
Proof.
  intros Hrd Hx Hw Ha Hsame Hroot Hin Hst.
  destruct (extends_once _ _ _ _ _ Hrd Hx) as [Ho Hh].
  pose proof (walked_same _ _ _ _ _ Hsame Hw) as Hw2.
  destruct Hsame as (Hi2 & Hv2 & Ha2 & Hp2). destruct Hrd as [Hg Hi Href Hty Hp _ _].
  split.
  - done.
  - rewrite <- Hi2. by rewrite (e_init _ _ Hx).
  - exists Rec. split; [done|]. split; [|intros _; by exists root].
    unfold alias_ok. rewrite <- Ha2. done.
  - rewrite <- Hv2. apply (e_typed _ _ Hx). simpl.
    intros r [->%elem_of_singleton|?]%elem_of_union; auto.
  - rewrite <- Hp2. destruct (e_pending _ _ Hx) as (new & -> & Hn & _). simpl.
    apply Forall_app. split; [done|]. eapply Forall_impl; [done|]. by intros f [? _].
  - done.
  - unfold shape. by destruct Hst as [[-> ?]|[-> ?]].
  - intros H. destruct Hst as [[H' _]|[H' _]]; congruence.
  - by rewrite <- Hp2.
  - rewrite <- Hp2, <- Hv2. auto.
Qed.

Lemma finish_cases L :
  same_bag L (finish_if_idle L) ∧ root_module_id (finish_if_idle L) = root_module_id L ∧
  ((state (finish_if_idle L) = state L ∧ pending (finish_if_idle L) ≠ []) ∨
   (state (finish_if_idle L) = Done ∧ pending (finish_if_idle L) = [])).
Proof.
  unfold finish_if_idle. destruct (pending L) as [|f l] eqn:Hp.
  - repeat split; simpl; auto.
  - repeat split. left. by rewrite Hp.
Qed.

Lemma ready_registered L m m' q s h :
  inv L m (Some (q, s)) h → good m' → ready L m' (reference q) h.
Proof.
  intros [_ Hi Hw Hty Hp Hout Hs _ Ho Hh] Hg.
  destruct (Hout q s eq_refl) as [[Ht _] _]. split; try done.
  intros r Hr. unfold shape in Hs. destruct (state L) eqn:Hst; try done.
  - destruct Hs as (Hp0 & _ & ->). rewrite Hp0 in Hr. right.
    by apply list_elem_of_singleton in Hr.
  - left. apply Hh; [by left|done].
Qed.

Lemma alias_registered L m m' q s h id Rec Rec' :
  inv L m (Some (q, s)) h → alias_ok (data m) L Rec (Some s) → grows (data m) (data m') →
  resolves (data m') (requested_of (src_type s)) (final_url R (module_url_specified s)) id →
  Rec ⊆ Rec' → id ∈ Rec' → alias_ok (data m') L Rec' None.
Proof.
  intros Hinv Ha (Hgr & _) Hres Hsub Hid a Hin. left.
  destruct (i_out _ _ _ _ Hinv q s eq_refl) as [[Ht _] (Hn & _ & Hty & _)].
  destruct (Ha a Hin) as [(id' & ? & ?)|(src & [= <-] & ->)].
  - exists id'. auto.
  - exists id. split; [done|].
    replace (T _) with (requested_of (src_type s)); [done|]. by rewrite Hty, Ht, T_final, Hn.
Qed.

Lemma walk_registered L m m' q s h id :
  inv L m (Some (q, s)) h → good m' → grows (data m) (data m') →
  resolves (data m') (requested_of (src_type s)) (module_url_specified s) id →
  resolves (data m') (requested_of (src_type s)) (final_url R (module_url_specified s)) id →
  ∃ L', register_and_recurse_inner p (data m') id (reference q) L = Ret L' ∧
    inv (finish_if_idle (if decide (state L' = LoadingRoot)
           then set_state (set_root L' id) LoadingImports else L')) m' None h.
Proof.
  intros Hinv Hg Hgr Hres Hfin.
  destruct (i_walk _ _ _ _ Hinv) as (Rec & Hw & Ha & Hroot). simpl in *.
  destruct (i_out _ _ _ _ Hinv q s eq_refl) as [_ (Hn & _ & Hty & _)].
  assert (resolved (data m') (reference q) id) as Hq.
  { unfold resolved. by rewrite <- Hn, <- Hty. }
  destruct (register_inner_spec m' L Rec id (reference q) (Some (reference q)) Hg
    (walked_grows _ _ _ _ _ Hgr Hw) (or_intror eq_refl) Hq)
    as (Rec' & L' & He & Hw' & Hx & Hsub & Hin).
  exists L'. split; [done|].
  pose proof (alias_registered _ _ _ _ _ _ _ _ _ Hinv Ha Hgr Hfin Hsub Hin) as Ha'.
  assert (alias_ok (data m') L' Rec' None) as Ha2.
  { unfold alias_ok. by rewrite (e_alias _ _ Hx). }
  pose proof (ready_registered _ _ m' _ _ _ Hinv Hg) as Hrd.
  pose proof (i_shape _ _ _ _ Hinv) as Hs. unfold shape in Hs.
  pose proof (e_state _ _ Hx) as Hst. simpl in Hst. rewrite Hst.
  destruct (finish_cases (if decide (state L = LoadingRoot)
    then set_state (set_root L' id) LoadingImports else L')) as (Hsame & Hr & Hcase).
  case_decide as Hd.
  - apply (inv_recursed L L' _ m' (reference q) Rec' id); try done.
  - destruct (state L) eqn:HL; try done. destruct Hroot as (root & Hroot & Hrin); [by left|].
    apply (inv_recursed L L' _ m' (reference q) Rec' root); try done.
    + rewrite Hr, (e_root _ _ Hx). done.
    + auto.
    + by rewrite Hst in Hcase.
Qed.

Lemma register_spec L m q s h :
  inv L m (Some (q, s)) h →
  ∃ r m', register_and_recurse V p q s L m = Ret (r, m') ∧ good m' ∧
    grows (data m) (data m') ∧
    match r with Ok L' => inv L' m' None h | Err _ => True end.
Proof.
  intros Hinv. destruct (i_out _ _ _ _ Hinv q s eq_refl) as [[_ Hph] (_ & Hok & _ & Hfit)].
  pose proof (i_good _ _ _ _ Hinv) as Hg. unfold register_and_recurse.
  assert (∃ r m1, match from_module_type (src_type s) with
      | Some KindWasm => new_wasm_module_source V p (reference q) s m
      | None => Ret (Ok s, m) end = Ret (r, m1) ∧ good m1 ∧ grows (data m) (data m1) ∧
      match r with Ok s' => s' = s | Err _ => True end) as (r & m1 & -> & Hg1 & Hgr1 & Hr).
  { destruct (from_module_type (src_type s)) as [ []|]; [|by exists (Ok s), m].
    destruct (new_wasm_module_source_spec V p R R_final (Forall typed) (reference q) s m Hg Hok)
      as (r & m1 & He & ? & ? & _ & ?). by exists r, m1. }
  simpl. destruct r as [s'|e]; [|by exists (Err e), m1]. subst s'.
  destruct (new_module_spec V p R R_final V_attributes V_custom (Forall typed)
    (Forall_nil_2 _) V_requests (is_currently_loading_main_module L) (is_dynamic_import L)
    s m1 Hg1 Hok Hfit) as (r & m2 & He2 & Hg2 & Hgr2 & Hr2 & _).
  assert (∃ r' m', (
    '(r, m) ← new_module V p (is_currently_loading_main_module L) (is_dynamic_import L) s m1;
    match r with
    | Ok module_id =>
        L ← register_and_recurse_inner p (data m) module_id (reference q) L;
        let L := if decide (state L = LoadingRoot)
                 then set_state (set_root L module_id) LoadingImports else L in
        Ret (Ok (finish_if_idle L), m)
    | Err e => Ret (Err e, m)
    end) = Ret (r', m') ∧ good m' ∧ grows (data m) (data m') ∧
    match r' with Ok L' => inv L' m' None h | Err _ => True end) as Hgoal.
  { rewrite He2. simpl. destruct r as [id|e]; 
      [|exists (Err e), m2; split; [done|]; split; [done|]; split; [by etrans|done]].
    destruct Hr2 as [Hres Hfin]. assert (grows (data m) (data m2)) as Hgr by by etrans.
    destruct (walk_registered L m m2 q s h id Hinv Hg2 Hgr Hres Hfin) as (L' & -> & Hinv').
    by eexists _, _. }
  destruct (from_module_type (src_type s)) as [ []|], (phase q); done.
Qed.

Lemma ready_root L m h s :
  inv L m None h → state L = Init → resolve_root V i = Ok s →
  ready (set_root_reference L (mkReference s (root_type i))) m
    (mkReference s (root_type i)) h.
Proof.
  intros [Hg Hi _ Hty Hp _ Hs _ Ho _] Hst Hres. split; try done; simpl.
  - by apply i_type.
  - unfold shape in Hs. rewrite Hst in Hs. destruct Hs as (-> & _ & ->).
    by intros r ?%elem_of_nil.
Qed.

Lemma inv_start L m h s :
  inv L m None h → state L = Init → resolve_root V i = Ok s →
  let q := root_request i s in
  let L1 := set_root_reference L (reference q) in
  inv (set_state (set_pending L1 (pending L1 ++ [mkLoad q true false])) LoadingRoot) m None h.
Proof.
  intros [Hg Hi Hw Hty Hp _ Hs Hr Ho Hh] Hst Hres q L1.
  unfold shape in Hs. rewrite Hst in Hs. destruct Hs as (Hp0 & Hv & ->).
  split; try done.
  - destruct Hw as (Rec & [Hw1 Hw2 _] & Ha & _). exists Rec. split; [split|split].
    + done.
    + done.
    + simpl. rewrite Hv. intros r ?%elem_of_empty. done.
    + done.
    + by intros [?|?].
  - simpl. apply Forall_app. split; [done|]. apply Forall_singleton. split; [|done].
    simpl. by apply i_type.
  - unfold shape. simpl. rewrite Hp0. split; [|done]. by eexists.
  - simpl. rewrite Hp0. apply NoDup_singleton.
  - by intros [?|?].
Qed.

Lemma inv_start_known L m h s id :
  inv L m None h → state L = Init → resolve_root V i = Ok s → root_module_id L = Some id →
  let ref := mkReference s (root_type i) in
  ∃ L', register_and_recurse_inner p (data m) id ref (set_root_reference L ref) = Ret L' ∧
    (pending L' = [] → inv (set_state L' Done) m None h) ∧
    (pending L' ≠ [] → inv (set_state L' LoadingImports) m None h).
Proof.
  intros Hinv Hst Hs Hid ref. pose proof (i_good _ _ _ _ Hinv) as Hg.
  destruct (i_walk _ _ _ _ Hinv) as (Rec & Hw & Ha & _). simpl in *.
  pose proof (i_root _ _ _ _ Hinv Hst s id Hs Hid) as Hres.
  assert (walked (data m) (set_root_reference L ref) Rec [] None) as Hw1
    by by apply (walked_same _ L).
  destruct (register_inner_spec m (set_root_reference L ref) Rec id ref None Hg Hw1
    (or_introl eq_refl) Hres) as (Rec' & L' & He & Hw' & Hx & Hsub & Hin).
  exists L'. split; [done|].
  assert (alias_ok (data m) L' Rec' None) as Ha'.
  { intros a. rewrite (e_alias _ _ Hx). intros Hal.
    destruct (Ha a Hal) as [(id' & ? & ?)|(src & ? & _)]; [|done]. left. exists id'. auto. }
  pose proof (ready_root L m h s Hinv Hst Hs) as Hrd.
  assert (root_module_id L' = Some id) as Hroot by by rewrite (e_root _ _ Hx).
  split; intros Hp; (apply (inv_recursed _ L' _ m ref Rec' id h Hrd Hx Hw' Ha');
    [done|done|done|]); [by right|by left].
Qed.

Lemma poll_next_spec steps L m h :
  inv L m None h →
  ∃ r L', poll_next V p steps (data m) L = Ret (r, L') ∧ settles m h r L'.
Proof.
  intros Hinv. unfold poll_next.
  assert (∀ L, inv L m None h → state L = LoadingRoot ∨ state L = LoadingImports →
    ∃ r L', ('(r, L) ← poll_loading steps L;
      Ret (match r with
           | Ready (Some (Ok x)) => Ready (Some (Ok x))
           | Ready (Some (Err e)) => Ready (Some (Err (inr e)))
           | Ready None => Ready None
           | Pending => Pending
           end : poll (option (result (ModuleRequest * ModuleSource) (MError + E))), L)) =
      Ret (r, L') ∧ settles m h r L') as Hload.
  { intros L0 Hinv0 Hst. destruct (poll_loading_spec steps L0 m h Hinv0 Hst)
      as (r & L' & -> & Hr). eexists _, L'. split; [done|].
    by destruct r as [[[[q s]|e]|]|]. }
  destruct (state L) eqn:Hst; [|by apply Hload; auto..|by exists (Ready None), L].
  rewrite (i_init _ _ _ _ Hinv).
  pose proof (λ s, inv_start L m h s Hinv Hst) as Hstart.
  pose proof (λ s id, inv_start_known L m h s id Hinv Hst) as Hknown.
  destruct (resolve_root V i) as [s|e]; [|by eexists _, _].
  specialize (Hstart s eq_refl). simpl in Hstart. simpl.
  destruct (root_phase i); [|by apply Hload; auto..].
  destruct (root_module_id L) as [id|]; [|by apply Hload; auto].
  destruct (Hknown s id eq_refl eq_refl) as (L' & -> & Hdone & Hmore). simpl.
  destruct (pending L') as [|f l] eqn:Hp.
  - eexists _, _. split; [done|]. split; [|done]. by apply Hdone.
  - apply Hload; [by apply Hmore|by right].
Qed.

Lemma step_inv x y :
  inv (r_load x) (r_map x) (r_out x) (r_hist x) → step x y →
  inv (r_load y) (r_map y) (r_out y) (r_hist y).
Proof.
  intros Hinv Hstep. destruct Hstep as [steps L m h r L' Hp Hr|steps L m h q s L' Hp Hs|
    L m q s h L' m' Hreg|L m out h m' Hg Hgr]; simpl in *.
  - destruct (poll_next_spec steps L m h Hinv) as (r' & L2 & He & Hset).
    rewrite He in Hp. injection Hp as -> ->.
    destruct Hr as [-> | ->]; [done|]. by destruct Hset.
  - destruct (poll_next_spec steps L m h Hinv) as (r' & L2 & He & Hset).
    rewrite He in Hp. injection Hp as -> ->. by apply Hset.
  - destruct (register_spec L m q s h Hinv) as (r & m2 & He & _ & _ & Hr).
    rewrite He in Hreg. by injection Hreg as -> ->.
  - destruct Hinv as [_ Hi (Rec & Hw & Ha & Hroot) Hty Hpd Hout Hs Hr Ho Hh]. split; try done.
    + exists Rec. split; [by eapply walked_grows|]. split; [|done].
      intros a Hal. destruct (Ha a Hal) as [(id & ? & ?)|?]; [left|by right].
      exists id. split; [done|]. by apply Hgr.
    + intros Hst s id H1 H2. by apply Hgr, (Hr Hst).
Qed.

Lemma fresh_good m id d :
  good m → fresh_load_id p (data m) = Ret (id, d) → good (set_data m d) ∧ grows (data m) d ∧
  by_name d = by_name (data m).
Proof.
  unfold fresh_load_id. intros [Hok Hq [Ha Hm] Hf] He.
  apply bind_Ret_inv in He as (n & _ & He). apply bind_Ret_inv in He as (id' & _ & [= -> <-]).
  split; [|split; [|done]].
  - split; simpl; try done. by destruct Hok.
  - split; [|done]. intros ty name id'. by apply resolves_ext.
Qed.

Lemma inv_new m L m' :
  good m → load_new V p i m = Ret (L, m') → inv L m' None [].
Proof.
  intros Hg. unfold load_new.
  destruct (fresh_load_id p (data m)) as [[id d]|] eqn:Hf; [|done]. simpl.
  destruct (fresh_good m id d Hg Hf) as (Hg' & _ & _).
  assert (∀ root, (∀ s id, resolve_root V i = Ok s → root = Some id →
      resolves d (root_type i) s id) →
    inv (mkRecursive id root i Init [] ∅ ∅ None) (set_data m d) None []) as Hinv.
  { intros root Hroot. split; simpl; try done.
    - exists []. split; [split|split].
      + by intros ? ? ? ?%elem_of_nil.
      + by intros ? ?%elem_of_nil.
      + by intros ? ?%elem_of_empty.
      + by intros ? ?%elem_of_empty.
      + by intros [?|?].
    - constructor.
    - by intros [?|?]. }
  destruct (resolve_root V i) as [s|e].
  - destruct (lookup_id_spec R R_final p d s (root_type i)) as (oid & -> & Hid);
      [apply Hg'..|]. intros [= <- <-]. apply Hinv.
    intros s' id' [= <-] ->. by apply Hid.
  - intros [= <- <-]. by apply Hinv.
Qed.

(** The loader's answers are consistent. *)
Definition consistent_answer (a : answer (E:=E)) : Prop :=
  match a with
  | Still => True
  | Loaded load => ∀ q s, load q = Ok s → source_for q s
  end.

Definition consistent_polls (polls : list (list (list (nat * answer (E:=E))))) : Prop :=
  Forall (Forall (Forall (λ c, consistent_answer c.2))) polls.

(** The modules of the graph below a root: an import leads to the module that its
    specifier and type resolve to. *)
Inductive below d (root : ModuleId) : ModuleId → Prop :=
  | below_root : below d root root
  | below_import id x q id' :
      below d root id → info d !! id = Some x → q ∈ requests x →
      resolves d (requested_module_type (reference q)) (specifier (reference q)) id' →
      below d root id'.

Lemma seen_resolves L m h Rec q :
  inv L m None h → walked (data m) L Rec [] None → alias_ok (data m) L Rec None →
  pending L = [] → typed q → seen L q →
  ∃ id, id ∈ Rec ∧ resolves (data m) (requested_module_type (reference q))
    (specifier (reference q)) id.
Proof.
  intros Hinv Hw Ha Hp [Ht _] Hs.
  assert (specifier (reference q) ∈ visited_as_alias L → ∃ id, id ∈ Rec ∧
    resolves (data m) (requested_module_type (reference q)) (specifier (reference q)) id) as Hal.
  { intros Hin. rewrite Ht. by destruct (Ha _ Hin) as [?|(src & ? & _)]. }
  destruct Hs as [Hv|Hin]; [|by apply Hal].
  destruct (w_visited _ _ _ _ _ Hw _ Hv) as [(id & Hid & Hres)|[Hf|[?|Hin]]]; [| |done|by apply Hal].
  - rewrite app_nil_r in Hid. by exists id.
  - rewrite Hp in Hf. by apply elem_of_nil in Hf.
Qed.

Lemma done_closed L m h :
  inv L m None h → state L = Done →
  ∃ root, root_module_id L = Some root ∧ ∀ id, below (data m) root id →
    ∃ x, info (data m) !! id = Some x ∧ ∀ q, q ∈ requests x → ∃ id',
      resolves (data m) (requested_module_type (reference q)) (specifier (reference q)) id'.
Proof.
  intros Hinv Hst. pose proof (i_shape _ _ _ _ Hinv) as Hs. unfold shape in Hs.
  rewrite Hst in Hs. pose proof (i_good _ _ _ _ Hinv) as Hg.
  destruct (i_walk _ _ _ _ Hinv) as (Rec & Hw & Ha & Hroot). simpl in *.
  destruct Hroot as (root & Hr & Hin); [by right|]. exists root. split; [done|].
  assert (∀ id x q, id ∈ Rec → info (data m) !! id = Some x → q ∈ requests x →
    ∃ id', id' ∈ Rec ∧ resolves (data m) (requested_module_type (reference q))
      (specifier (reference q)) id') as Hclosed.
  { intros id x q Hid Hx Hq. apply (seen_resolves L m h); try done.
    - by apply (imports_of m id x).
    - by eapply (w_rec _ _ _ _ _ Hw). }
  assert (∀ id, below (data m) root id → id ∈ Rec) as Hbelow.
  { induction 1 as [|id x q id' _ IH Hx Hq Hres]; [done|].
    destruct (Hclosed id x q IH Hx Hq) as (id2 & ? & Hres2).
    by rewrite (resolves_functional _ _ _ _ _ Hres Hres2). }
  intros id Hid. destruct (w_info _ _ _ _ _ Hw id) as [x Hx].
  { rewrite app_nil_r. auto. }
  exists x. split; [done|]. intros q Hq.
  destruct (Hclosed id x q (Hbelow id Hid) Hx Hq) as (id' & _ & ?). by exists id'.
Qed.

Lemma poll_pending_consistent choices futs al q s futs' al' :
  Forall (λ c, consistent_answer c.2) choices →
  poll_pending (E:=E) choices futs al = (Ready (Some (Ok (Some (q, s)))), futs', al') →
  source_for q s.
Proof.
  intros Hc. revert futs. induction Hc as [|[k a] choices Ha _ IH]; intros [|f0 futs]; try done.
  cbn [poll_pending]. destruct ((f0 :: futs) !! k) as [f|]; [|by apply IH].
  destruct (negb (l_root f) && _ && _); [done|].
  destruct a as [|load]; [by apply IH|]. simpl in Ha.
  destruct (load (l_request f)) as [s'|e] eqn:Hl; [|done].
  intros [= <- <- _ _]. by apply Ha.
Qed.

Lemma poll_loading_consistent steps L q s L' :
  Forall (Forall (λ c, consistent_answer c.2)) steps →
  poll_loading (E:=E) steps L = Ret (Ready (Some (Ok (q, s))), L') → source_for q s.
Proof.
  intros Hc. revert L. induction Hc as [|choices steps Hch _ IH]; intros L; simpl.
  { by destruct (pending L). }
  destruct (poll_pending choices (pending L) (visited_as_alias L)) as [[r futs] al] eqn:Hp.
  destruct r as [[[[[q' s']|]|e]|]|]; try done.
  - intros [= <- <- _]. by eapply poll_pending_consistent.
  - simpl. destruct futs as [|f futs]; [done|]. apply IH.
Qed.

Lemma poll_next_consistent steps d L q s L' :
  Forall (Forall (λ c, consistent_answer c.2)) steps →
  poll_next V p steps d L = Ret (Ready (Some (Ok (q, s))), L') → source_for q s.
Proof.
  intros Hc. unfold poll_next.
  assert (∀ L, ('(r, L) ← poll_loading steps L;
      Ret (match r with
           | Ready (Some (Ok x)) => Ready (Some (Ok x))
           | Ready (Some (Err e)) => Ready (Some (Err (inr e)))
           | Ready None => Ready None
           | Pending => Pending
           end : poll (option (result (ModuleRequest * ModuleSource) (MError + E))), L)) =
      Ret (Ready (Some (Ok (q, s))), L') → source_for q s) as Hload.
  { intros L0 ([r L1] & Hp & He)%bind_Ret_inv.
    destruct r as [[[[q' s']|e]|]|]; simplify_eq. by eapply poll_loading_consistent. }
  destruct (state L); [|by apply Hload..|done].
  destruct (resolve_root V (init L)); [|done]. simpl.
  destruct (root_phase (init L)); [|by apply Hload..].
  destruct (root_module_id L); [|by apply Hload].
  intros (L1 & _ & He)%bind_Ret_inv. destruct (pending L1); [done|]. by apply (Hload _ He).
Qed.

(** Every module below [root] is registered and its imports resolve to modules. *)
Definition closed_graph d (root : ModuleId) : Prop :=
  ∀ id, below d root id → ∃ x, info d !! id = Some x ∧ ∀ q, q ∈ requests x → ∃ id',
    lookup_id p d (specifier (reference q)) (requested_module_type (reference q)) =
      Ret (Some id').

Lemma done_closed_graph L m h :
  inv L m None h → state L = Done →
  ∃ root, root_module_id L = Some root ∧ closed_graph (data m) root.
Proof.
  intros Hinv Hst. destruct (done_closed L m h Hinv Hst) as (root & Hr & Hc).
  exists root. split; [done|]. intros id Hid. destruct (Hc id Hid) as (x & Hx & Hq).
  exists x. split; [done|]. intros q Hin. destruct (Hq q Hin) as (id' & Hres). exists id'.
  destruct (lookup_id_spec R R_final p (data m) (specifier (reference q))
    (requested_module_type (reference q))) as (oid & -> & Hoid);
    [apply (i_good _ _ _ _ Hinv)..|]. by f_equal; apply Hoid.
Qed.

Lemma load_graph_spec polls L m h :
  inv L m None h → consistent_polls polls →
  ∃ r L' m', load_graph V p polls L m = Ret (r, L', m') ∧
    match r with
    | Some (Ok root) => root_module_id L' = Some root ∧ closed_graph (data m') root
    | _ => True
    end.
Proof.
  intros Hinv Hc. revert L m h Hinv. induction Hc as [|steps polls Hs _ IH]; intros L m h Hinv.
  { by eexists _, _, _. }
  cbn [load_graph]. destruct (poll_next_spec steps L m h Hinv) as (r & L1 & Hp & Hset).
  rewrite Hp. simpl. destruct r as [[[[q s]|e]|]|].
  - specialize (Hset (poll_next_consistent steps (data m) L q s L1 Hs Hp)).
    destruct (register_spec L1 m q s _ Hset) as (r & m2 & -> & _ & _ & Hr). simpl.
    destruct r as [L2|e]; [by eapply IH|by eexists _, _, _].
  - by eexists _, _, _.
  - destruct Hset as [Hset Hst].
    destruct (done_closed_graph L1 m h Hset Hst) as (root & Hroot & Hcl).
    rewrite Hroot. simpl. by eexists _, _, _.
  - by eapply IH.
Qed.

(** The loop makes the steps of a run. *)
Lemma load_graph_run polls L m h root L' m' :
  inv L m None h → consistent_polls polls →
  load_graph V p polls L m = Ret (Some (Ok root), L', m') →
  ∃ h', rtc step (mkRun L m None h) (mkRun L' m' None h') ∧ state L' = Done.
Proof.
  intros Hinv Hc. revert L m h Hinv. induction Hc as [|steps polls Hs _ IH]; intros L m h Hinv.
  { done. }
  cbn [load_graph]. destruct (poll_next_spec steps L m h Hinv) as (r & L1 & Hp & Hset).
  rewrite Hp. simpl. destruct r as [[[[q s]|e]|]|]; [|done| |].
  - pose proof (poll_next_consistent steps (data m) L q s L1 Hs Hp) as Hsrc.
    specialize (Hset Hsrc).
    destruct (register_spec L1 m q s _ Hset) as (r & m2 & Hreg & _ & _ & Hr).
    rewrite Hreg. simpl. destruct r as [L2|e]; [|done]. intros He.
    destruct (IH L2 m2 _ Hr He) as (h' & Hrun & Hd). exists h'. split; [|done].
    eapply rtc_l; [by eapply step_poll_source|]. by eapply rtc_l; [eapply step_register|].
  - destruct Hset as [_ Hst]. destruct (root_module_id L1); [|done]. simpl.
    intros [= _ <- <-]. exists h. split; [|done].
    eapply rtc_l; [|done]. by eapply step_poll_idle; [|right].
  - intros He. destruct (IH L1 m h Hset He) as (h' & Hrun & Hd). exists h'. split; [|done].
    eapply rtc_l; [|done]. by eapply step_poll_idle; [|left].
Qed.
End closure.

(** * Properties *)

(** What a load relies on: the loader's redirects are final ([R]), every specifier is
    imported with one type ([T]) and none in the source phase, V8 reports attributes
    in threes, and a custom module type makes one module. *)
Record loader_ok {E} (V : env E) (R : ModuleName → option ModuleName)
    (T : string → RequestedModuleType) (i : LoadInit) : Prop := {
  lo_final : ∀ s f, R s = Some f → R f = None;
  lo_attributes : ∀ name src cache c rej, v8_compile V name src cache = (Ok c, rej) →
    Forall (λ raw, length (raw_attributes raw) mod 3 = 0) (c_requests c);
  lo_custom : ∀ cb ty name code src v sty, custom_module_evaluation_cb V = Some cb →
    cb ty name code ≠ Ok (ComputedAndSynthetic src v sty);
  lo_types : ∀ s, T (final_url R s) = T s;
  lo_requests : ∀ ty name dyn src cache c rej m reqs m',
    v8_compile V name src cache = (Ok c, rej) →
    module_requests V ty name dyn (c_requests c) m = Ret (Ok reqs, m') →
    Forall (typed T) reqs;
  lo_phase : root_phase i ≠ Source;
  lo_root : ∀ s, resolve_root V i = Ok s → root_type i = T s
}.

Section properties.
Context {E : Type} (V : env E) (p : profile) (R : ModuleName → option ModuleName).
Context (T : string → RequestedModuleType) (i : LoadInit).
Implicit Types (m : ModuleMap).

(** Runs of a load that started on the map [m]. *)
Definition reached m (x : run) : Prop :=
  ∃ L m', load_new V p i m = Ret (L, m') ∧
    rtc (step V p R T) (mkRun L m' None []) x.

Lemma reached_inv m x :
  loader_ok V R T i → good R (Forall (typed T)) m → reached m x →
  inv V R T i (r_load x) (r_map x) (r_out x) (r_hist x).
Proof.
  intros [] Hg (L & m' & Hnew & Hrun).
  pose proof (inv_new V p R lo_final0 T i lo_root0 m L m' Hg Hnew) as Hinv.
  remember (mkRun L m' None []) as x0 eqn:Hx.
  assert (inv V R T i (r_load x0) (r_map x0) (r_out x0) (r_hist x0)) as Hinv0 by by subst.
  clear Hx Hinv Hnew. induction Hrun as [|x0 x1 x2 Hstep _ IH]; [done|]. apply IH.
  by eapply (step_inv V p R lo_final0 lo_attributes0 lo_custom0 T lo_types0 lo_requests0 i
    lo_phase0 lo_root0).
Qed.

(** C4. Suppose that the redirects of the loader are final and its sources answer the
    requests ([source_for]), that every specifier is imported with one type only and none
    in the source phase ([typed], also for what is in the map before), and what else
    [loader_ok] says of V8 and custom modules; without one type and one phase per specifier
    the code does not have this property ([visited_forgets_imports]). Then, when the stream
    ends, the whole graph is in the module map, even if other loads registered modules in
    between: the root and every module it leads to is registered, and the lookup that
    instantiation makes for any of their imports finds a module. *)
Theorem loaded_graph_closed m x :
  loader_ok V R T i → good R (Forall (typed T)) m → reached m x →
  state (r_load x) = Done →
  ∃ root, root_module_id (r_load x) = Some root ∧ closed_graph p (data (r_map x)) root.
Proof.
  intros Hok Hg Hx Hd. pose proof (reached_inv m x Hok Hg Hx) as Hinv.
  pose proof (i_shape _ _ _ _ _ _ _ _ Hinv) as Hs. unfold shape in Hs. rewrite Hd in Hs.
  destruct x as [L m' [o|] h]; simpl in *; [done|].
  by eapply (done_closed_graph V p R (lo_final _ _ _ _ Hok)).
Qed.

(** C5. Under the same hypotheses, and if the sources that the loader delivers are no longer
    than V8 allows a string to be ([source_fits]; a longer one panics,
    [oversized_source_panics]), the loop of the runtime never panics, whatever order the
    loads complete in: the stream is never polled with nothing in flight, the root is known
    when it ends, and then its graph is registered. *)
Theorem load_graph_ends m L m' polls :
  loader_ok V R T i → good R (Forall (typed T)) m → load_new V p i m = Ret (L, m') →
  consistent_polls V R polls →
  ∃ r L' m'', load_graph V p polls L m' = Ret (r, L', m'') ∧
    match r with
    | Some (Ok root) => root_module_id L' = Some root ∧ closed_graph p (data m'') root
    | _ => True
    end.
Proof.
  intros Hok Hg Hnew Hc. pose proof Hok as [].
  pose proof (inv_new V p R lo_final0 T i lo_root0 m L m' Hg Hnew) as Hinv.
  by eapply (load_graph_spec V p R lo_final0 lo_attributes0 lo_custom0 T lo_types0
    lo_requests0 i lo_phase0 lo_root0 polls L m' []).
Qed.

(** A load asks for each module reference once: those handed out and those in
    flight are pairwise different. *)
Lemma references_loaded_once m x :
  loader_ok V R T i → good R (Forall (typed T)) m → reached m x →
  NoDup (r_hist x ++ (ref_of <$> pending (r_load x))).
Proof. intros Hok Hg Hx. by apply (i_once _ _ _ _ _ _ _ _ (reached_inv m x Hok Hg Hx)). Qed.
End properties.

(** * A concrete graph *)

(** [main.js] imports [old.js], which the loader redirects to [lib.js], then [lib.js]
    itself and a JSON file. *)
Definition graph_imports (name : string) : list RawRequest :=
  if decide (name = "file:///main.js") then
    [mkRaw "file:///old.js" [] 7 Evaluation;
     mkRaw "file:///lib.js" [] 31 Evaluation;
     mkRaw "file:///conf.json" ["type"; "json"; "60"] 60 Evaluation]
  else [].

Definition env_of (imports : string → list RawRequest) : env string :=
  mkEnv string (λ s _ _, Ok s)
    (λ name _ _, (Ok (mkCompiled (imports name) None None), false))
    (λ _, Ok 1%Z) (λ _, Some 2%Z) id (λ _, 3%Z) (λ _, Some 4%Z) (λ _ _, Some "export {}")
    (λ _, None) None (λ _, None) (λ s, Some s) (λ _ s, Some s) false.

Definition graph_types (s : string) : RequestedModuleType :=
  if decide (s = "file:///conf.json") then RJson else RNone.

Definition source_of (redirect : string → option string) (q : ModuleRequest) :
    result ModuleSource string :=
  let s := specifier (reference q) in
  match requested_module_type (reference q) with
  | RNone => Ok (mkSource (SString "export {}") JavaScript None s (redirect s))
  | RJson => Ok (mkSource (SString "{}") Json None s (redirect s))
  | RText => Ok (mkSource (SString "text") Text None s (redirect s))
  | _ => Err "unsupported"
  end.

Definition graph_env : env string := env_of graph_imports.
Definition graph_init : LoadInit := Main "file:///main.js".
Definition deliver (redirect : string → option string) (i : nat) :
    list (list (nat * answer (E:=string))) :=
  [[(i, Loaded (source_of redirect))]].

(** The JSON file completes before the two modules; the last future finds its
    specifier loaded under another name. *)
Definition graph_polls : list (list (list (nat * answer (E:=string)))) :=
  [deliver demo_redirect 0; [[(0, Still)]]; deliver demo_redirect 2;
   deliver demo_redirect 0; deliver demo_redirect 0; deliver demo_redirect 0].

Lemma graph_requests ty name dyn src cache c rej m reqs m' :
  v8_compile graph_env name src cache = (Ok c, rej) →
  module_requests graph_env ty name dyn (c_requests c) m = Ret (Ok reqs, m') →
  Forall (typed graph_types) reqs.
Proof.
  intros [= <- <-]. simpl. unfold graph_imports. case_decide.
  - vm_compute. intros [= <- <-]. repeat constructor; discriminate.
  - by intros [= <- <-].
Qed.

Lemma graph_ok : loader_ok graph_env demo_redirect graph_types graph_init.
Proof.
  split; try done.
  - exact demo_final.
  - intros name src cache c rej [= <- <-]. simpl. unfold graph_imports.
    case_decide; repeat constructor.
  - intros s. unfold final_url, demo_redirect, graph_types.
    destruct (decide (s = "file:///old.js")) as [-> |]; done.
  - exact graph_requests.
  - intros s [= <-]. done.
Qed.

Lemma source_of_consistent q s :
  source_of demo_redirect q = Ok s → source_for graph_env demo_redirect q s.
Proof.
  unfold source_of. destruct (requested_module_type (reference q)) eqn:Hq; try done;
    intros [= <-]; split_and!; try done; split_and!; by eexists.
Qed.

Lemma graph_polls_consistent : consistent_polls graph_env demo_redirect graph_polls.
Proof.
  repeat first [exact I | exact source_of_consistent | apply Forall_nil_2 | apply Forall_cons_2].
Qed.

Definition start (V : env string) (i : LoadInit) : RecursiveModuleLoad * ModuleMap :=
  match load_new V Debug i empty_map with
  | Ret x => x
  | Panic _ => (mkRecursive 0 None i Init [] ∅ ∅ None, empty_map)
  end.

Definition outcome_of (V : env string) (i : LoadInit)
    (polls : list (list (list (nat * answer (E:=string))))) :
    option (result ModuleId (ModuleError string + string)) * RecursiveModuleLoad * ModuleMap :=
  match load_graph V Debug polls (start V i).1 (start V i).2 with
  | Ret x => x
  | Panic _ => (None, (start V i).1, empty_map)
  end.

Example graph_loads :
  (outcome_of graph_env graph_init graph_polls).1.1 = Some (Ok 0).
Proof. vm_compute. reflexivity. Qed.

Lemma graph_starts :
  load_new graph_env Debug graph_init empty_map =
    Ret ((start graph_env graph_init).1, (start graph_env graph_init).2).
Proof.
  assert (match load_new graph_env Debug graph_init empty_map with
          | Ret _ => true | Panic _ => false end = true) as H by (vm_compute; reflexivity).
  unfold start. by destruct (load_new graph_env Debug graph_init empty_map) as [[]|].
Qed.

Lemma graph_reached : ∃ h,
  let x := outcome_of graph_env graph_init graph_polls in
  reached graph_env Debug demo_redirect graph_types graph_init empty_map
    (mkRun x.1.2 x.2 None h) ∧ state x.1.2 = Done.
Proof.
  pose proof graph_ok as []. pose proof graph_loads as Hend. unfold outcome_of in *.
  pose proof (inv_new graph_env Debug demo_redirect lo_final0 graph_types graph_init lo_root0
    empty_map (start graph_env graph_init).1 (start graph_env graph_init).2
    (empty_good _ _) graph_starts) as Hinv.
  destruct (load_graph graph_env Debug graph_polls (start graph_env graph_init).1
    (start graph_env graph_init).2) as [[[r L] m]|] eqn:Hrun; [|done].
  simpl in Hend. subst r.
  destruct (load_graph_run graph_env Debug demo_redirect lo_final0 lo_attributes0 lo_custom0
    graph_types lo_types0 lo_requests0 graph_init lo_phase0 lo_root0 graph_polls _ _ [] 0
    _ _ Hinv graph_polls_consistent Hrun) as (h & Hr & Hd).
  exists h. split; [|exact Hd]. eexists _, _. split; [exact graph_starts|exact Hr].
Qed.

Lemma loaded_graph_closed_witness : ∃ x,
  reached graph_env Debug demo_redirect graph_types graph_init empty_map x ∧
  ∃ root, root_module_id (r_load x) = Some root ∧ closed_graph Debug (data (r_map x)) root.
Proof.
  destruct graph_reached as (h & Hx & Hd). eexists. split; [exact Hx|].
  exact (loaded_graph_closed graph_env Debug demo_redirect graph_types graph_init empty_map _
    graph_ok (empty_good _ _) Hx Hd).
Defined.

Lemma load_graph_ends_witness :
  ∃ r L' m'', load_graph graph_env Debug graph_polls (start graph_env graph_init).1
      (start graph_env graph_init).2 = Ret (r, L', m'') ∧
    match r with
    | Some (Ok root) => root_module_id L' = Some root ∧ closed_graph Debug (data m'') root
    | _ => True
    end.
Proof.
  apply (load_graph_ends graph_env Debug demo_redirect graph_types graph_init empty_map).
  - exact graph_ok.
  - apply empty_good.
  - exact graph_starts.
  - exact graph_polls_consistent.
Defined.

Lemma references_loaded_once_example : ∃ x,
  reached graph_env Debug demo_redirect graph_types graph_init empty_map x ∧
  NoDup (r_hist x ++ (ref_of <$> pending (r_load x))).
Proof.
  destruct graph_reached as (h & Hx & Hd). eexists. split; [exact Hx|].
  exact (references_loaded_once graph_env Debug demo_redirect graph_types graph_init empty_map _
    graph_ok (empty_good _ _) Hx).
Qed.

(** * Graphs with two types or two phases for one specifier *)

Definition two_types (name : string) : list RawRequest :=
  if decide (name = "file:///main.js") then
    [mkRaw "file:///old.json" ["type"; "json"; "7"] 7 Evaluation;
     mkRaw "file:///new.json" ["type"; "text"; "31"] 31 Evaluation]
  else [].

Definition moved (s : string) : option string :=
  if decide (s = "file:///old.json") then Some "file:///new.json" else None.

(** Two imports of one WebAssembly module: its source first, then an instance. *)
Definition two_phases (name : string) : list RawRequest :=
  if decide (name = "file:///main.js") then
    [mkRaw "file:///m.wasm" [] 7 Source; mkRaw "file:///m.wasm" [] 31 Evaluation]
  else [].

Definition wasm_of (q : ModuleRequest) : result ModuleSource string :=
  let s := specifier (reference q) in
  Ok (if decide (s = "file:///m.wasm") then mkSource (SBytes []) Wasm None s None
      else mkSource (SString "") JavaScript None s None).

(** What counts as visited forgets parts of an import.  [visited_as_alias] knows
    specifiers and not types: once [old.json] was loaded as JSON from [new.json], the
    import of [new.json] as text is never loaded.  [visited] knows references and not
    phases: after a source phase import of a WebAssembly module, an evaluation import of
    the same module is never registered.  Both loads succeed, and instantiation cannot find
    the import. *)
Lemma visited_forgets_imports :
  (let x := outcome_of (env_of two_types) graph_init
     [deliver moved 0; deliver moved 0; deliver moved 0] in
   x.1.1 = Some (Ok 0) ∧ state x.1.2 = Done ∧
   (map reference ∘ requests) <$> info (data x.2) !! 0 =
     Some [mkReference "file:///old.json" RJson; mkReference "file:///new.json" RText] ∧
   lookup_id Debug (data x.2) "file:///new.json" RText = Ret None ∧
   lookup_id Debug (data x.2) "file:///new.json" RJson = Ret (Some 1)) ∧
  (let x := outcome_of (env_of two_phases) graph_init
     [[[(0, Loaded wasm_of)]]; [[(0, Loaded wasm_of)]]; []] in
   x.1.1 = Some (Ok 0) ∧ state x.1.2 = Done ∧
   (map (λ q, (reference q, phase q)) ∘ requests) <$> info (data x.2) !! 0 =
     Some [(mkReference "file:///m.wasm" RNone, Source);
           (mkReference "file:///m.wasm" RNone, Evaluation)] ∧
   lookup_id Debug (data x.2) "file:///m.wasm" RNone = Ret None).
Proof. split; cbv zeta; split_and!; vm_compute; reflexivity. Qed.
