(* ===== verification/DynImports.v ===== *)
(** [core/modules/map.rs] and [core/runtime/bindings.rs]: [import()] and the evaluation
    of modules.

    Holds the queues a dynamic import goes through (loads that are prepared, loads that
    run, modules that evaluate), the promises that wait for them, [poll_progress], and
    [mod_evaluate] with the callbacks that V8 runs for it.  V8 and the futures are a
    [host]: it answers questions, and runs JavaScript, which may call back [import()].
    Loads are those of [RecursiveLoad], modules those of [ModuleMap].  The theorems are
    in [ImportFlow]. *)

From S2P Require Import Prelude Modules ModuleMap RecursiveLoad.

(** * Data *)

Inductive ModuleStatus :=
  | Uninstantiated | Instantiating | Instantiated | Evaluating | Evaluated | Errored.
Global Instance ModuleStatus_eq_dec : EqDecision ModuleStatus.
Proof. solve_decision. Defined.

(** Promises and resolvers are known by identity. *)
Abbreviation promise := Z (only parsing).
Abbreviation resolver := nat (only parsing).

Inductive PromiseState := PPending | Fulfilled | Rejected (exception : js_global).

Inductive settlement := Resolved (value : js_global) | RejectedWith (exception : js_global).

Record DynImportModEvaluate := mkDynEval {
  dm_load_id : Z;
  dm_module_id : ModuleId;
  dm_promise : promise;
  dm_module : handle
}.

Record DynImportState := mkDynState {
  ds_resolver : resolver;
  ds_cped : js_global;
  ds_phase : ModuleImportPhase
}.

(** [ModEvaluate], with the number of its channel. *)
Record ModEvaluate := mkModEvaluate {
  me_sender : nat;
  me_module : option handle;
  me_notify : list js_global
}.

(** What the receiver of [mod_evaluate] gets; a dropped sender reads as
    [ExecutionTerminated]. *)
Inductive eval_result :=
  | EvalOk
  | EvalJs (error : js_global)
  | EvalDropped.

(** Why a load ends without an evaluation: its module is not linked, or V8 gave no promise,
    with or without terminating. *)
Inductive no_evaluation := NotLinked (status : ModuleStatus) | Terminated | Threw.

Section dyn_imports.
Context {E : Type} (V : env E) (p : profile).

Abbreviation MError := (ModuleError E).

(** A future of [preparing_dynamic_imports]: of a load, or of a failed resolution. *)
Inductive PrepareLoadFuture :=
  | Preparing (load : RecursiveModuleLoad)
  | Unresolved (load : RecursiveModuleLoad) (error : MError).

Definition prepared_id (f : PrepareLoadFuture) : Z :=
  match f with Preparing load => load_id load | Unresolved load _ => load_id load end.

(** The fields of [ModuleMap] for dynamic imports.  [next_resolver] counts the promises
    that V8 made for [import()]; [settled] lists the calls of the module map that settle
    one, [refused] those of the binding, [notified] counts wake-ups of the event loop,
    [abandoned] lists the loads whose module V8 did not evaluate. *)
Record dyn_state := mkDyn {
  dynamic_import_map : gmap Z DynImportState;
  preparing_dynamic_imports : list PrepareLoadFuture;
  preparing_dynamic_imports_pending : bool;
  pending_dynamic_imports : list RecursiveModuleLoad;
  pending_dynamic_imports_pending : bool;
  pending_dyn_mod_evaluations : list DynImportModEvaluate;
  pending_dyn_mod_evaluations_pending : bool;
  pending_tla_waiters : gmap ModuleId (list resolver);
  dyn_module_evaluate_idle_counter : Z;
  next_resolver : resolver;
  settled : list (resolver * settlement);
  refused : list (resolver * js_global);
  notified : nat;
  abandoned : list (Z * no_evaluation)
}.

(** Its fields for evaluations.  [outstanding] are the boxes that V8 owns, [answers] what
    the channels were sent. *)
Record eval_state := mkEval {
  pending_mod_evaluation : bool;
  next_sender : nat;
  outstanding : list ModEvaluate;
  answers : list (nat * eval_result);
  module_woken : nat
}.

(** [J] is the state of V8. *)
Record dstate (J : Type) := mkSt { js : J; mm : ModuleMap; dyn : dyn_state; ev : eval_state }.
Arguments mkSt {J}.
Arguments js {J}.
Arguments mm {J}.
Arguments dyn {J}.
Arguments ev {J}.

(** A panic of the code; [InvalidImport] is a load whose entry of [dynamic_import_map] is
    gone, [Spins] the bound of the model on the loops of this file. *)
Inductive crash := Fault (f : fault) | InvalidImport | Spins.

(** Questions to V8 and to futures, with the types of their answers. *)
Inductive query : Type → Type :=
  | GetStatus (h : handle) : query ModuleStatus
  | GetException (h : handle) : query js_global
  | GetNamespace (h : handle) : query js_global
  | IsGraphAsync (h : handle) : query bool
  | Instantiate (h : handle)
      (resolve_import : string → list string → handle → outcome (option handle))
      (source_import : string → list string → handle → outcome (option js_global)) :
      query (option js_global)
  | ToV8Error (e : MError + E) : query js_global
  | IsTerminating : query bool
  | PromiseStateOf (pr : promise) : query PromiseState
  | WatchEvaluation (pr : promise) : query unit
  | GetCped : query js_global
  | SetCped (cped : js_global) : query unit
  | Settle (r : resolver) (s : settlement) : query unit
  | PollPreparing : query (list (nat * option (result unit E)))
  | PollLoads : query (list (nat * list (list (nat * answer (E:=E)))))
  | PollCodeCache : query (list nat)
  | HasDispatchedException : query bool
  | CaughtException : query (option js_global)
  | ErrResult (e : js_global) : query js_global
  | JsErrorOf (e : js_global) : query js_global
  | AttachHandlers (sender : nat) (pr : promise) : query bool
  | MarkAsHandled (pr : promise) : query unit
  | StalledMessages (h : handle) : query (list js_global)
  | IsSynthetic (h : handle) : query bool
  | TrackHandledRejection (pr : promise) : query unit.

(** Calls that run JavaScript. *)
Inductive entry : Type → Type :=
  | Checkpoint : entry unit
  | Evaluate (h : handle) : entry (option promise)
  | CallNotify (f ns : js_global) : entry unit.

Record host (J : Type) := mkHost {
  ask : ∀ A, query A → J → A * J;
  enter : ∀ A, entry A → dstate J → result (A * dstate J) crash
}.
Arguments ask {J} _ {A} _ _.
Arguments enter {J} _ {A} _ _.

(** Operations on the state that may panic. *)
Definition dmethod (J A : Type) : Type := dstate J → result (A * dstate J) crash.

Global Instance dmethod_ret {J} : MRet (dmethod J) := λ A a s, Ok (a, s).
Global Instance dmethod_bind {J} : MBind (dmethod J) := λ A B k f s,
  match f s with Ok (a, s) => k a s | Err c => Err c end.

(** ** Fields *)

Definition set_import_map x d := mkDyn x (preparing_dynamic_imports d)
  (preparing_dynamic_imports_pending d) (pending_dynamic_imports d)
  (pending_dynamic_imports_pending d) (pending_dyn_mod_evaluations d)
  (pending_dyn_mod_evaluations_pending d) (pending_tla_waiters d)
  (dyn_module_evaluate_idle_counter d) (next_resolver d) (settled d) (refused d) (notified d) (abandoned d).
Definition set_preparing x b d := mkDyn (dynamic_import_map d) x b (pending_dynamic_imports d)
  (pending_dynamic_imports_pending d) (pending_dyn_mod_evaluations d)
  (pending_dyn_mod_evaluations_pending d) (pending_tla_waiters d)
  (dyn_module_evaluate_idle_counter d) (next_resolver d) (settled d) (refused d) (notified d) (abandoned d).
Definition set_loads x b d := mkDyn (dynamic_import_map d) (preparing_dynamic_imports d)
  (preparing_dynamic_imports_pending d) x b (pending_dyn_mod_evaluations d)
  (pending_dyn_mod_evaluations_pending d) (pending_tla_waiters d)
  (dyn_module_evaluate_idle_counter d) (next_resolver d) (settled d) (refused d) (notified d) (abandoned d).
Definition set_evals x b d := mkDyn (dynamic_import_map d) (preparing_dynamic_imports d)
  (preparing_dynamic_imports_pending d) (pending_dynamic_imports d)
  (pending_dynamic_imports_pending d) x b (pending_tla_waiters d)
  (dyn_module_evaluate_idle_counter d) (next_resolver d) (settled d) (refused d) (notified d) (abandoned d).
Definition set_waiters x d := mkDyn (dynamic_import_map d) (preparing_dynamic_imports d)
  (preparing_dynamic_imports_pending d) (pending_dynamic_imports d)
  (pending_dynamic_imports_pending d) (pending_dyn_mod_evaluations d)
  (pending_dyn_mod_evaluations_pending d) x
  (dyn_module_evaluate_idle_counter d) (next_resolver d) (settled d) (refused d) (notified d) (abandoned d).
Definition set_idle x d := mkDyn (dynamic_import_map d) (preparing_dynamic_imports d)
  (preparing_dynamic_imports_pending d) (pending_dynamic_imports d)
  (pending_dynamic_imports_pending d) (pending_dyn_mod_evaluations d)
  (pending_dyn_mod_evaluations_pending d) (pending_tla_waiters d) x
  (next_resolver d) (settled d) (refused d) (notified d) (abandoned d).
Definition set_logs n l r w d := mkDyn (dynamic_import_map d) (preparing_dynamic_imports d)
  (preparing_dynamic_imports_pending d) (pending_dynamic_imports d)
  (pending_dynamic_imports_pending d) (pending_dyn_mod_evaluations d)
  (pending_dyn_mod_evaluations_pending d) (pending_tla_waiters d)
  (dyn_module_evaluate_idle_counter d) n l r w (abandoned d).
Definition set_abandoned x d := mkDyn (dynamic_import_map d) (preparing_dynamic_imports d)
  (preparing_dynamic_imports_pending d) (pending_dynamic_imports d)
  (pending_dynamic_imports_pending d) (pending_dyn_mod_evaluations d)
  (pending_dyn_mod_evaluations_pending d) (pending_tla_waiters d)
  (dyn_module_evaluate_idle_counter d) (next_resolver d) (settled d) (refused d) (notified d) x.

Section programs.
Context {J : Type} (H : host J).
Abbreviation M := (dmethod J).
Implicit Types (s : dstate J).

Definition query_host {A} (q : query A) : M A := λ s,
  let '(a, j) := ask H q (js s) in Ok (a, mkSt j (mm s) (dyn s) (ev s)).
Definition run_js {A} (e : entry A) : M A := enter H e.
Definition crashes {A} (c : crash) : M A := λ _, Err c.
Definition lift_outcome {A} (o : outcome A) : M A := λ s,
  match o with Ret a => Ok (a, s) | Panic f => Err (Fault f) end.
Definition get_dyn : M dyn_state := λ s, Ok (dyn s, s).
Definition get_mm : M ModuleMap := λ s, Ok (mm s, s).
Definition put_mm (m : ModuleMap) : M unit := λ s, Ok (tt, mkSt (js s) m (dyn s) (ev s)).
Definition get_ev : M eval_state := λ s, Ok (ev s, s).
Definition put_ev (e : eval_state) : M unit := λ s, Ok (tt, mkSt (js s) (mm s) (dyn s) e).
Definition on_dyn (f : dyn_state → dyn_state) : M unit := λ s,
  Ok (tt, mkSt (js s) (mm s) (f (dyn s)) (ev s)).

(** [expect] on a module's handle. *)
Definition handle_of (id : ModuleId) : M handle :=
  m ← get_mm; lift_outcome (unwrap (get_handle (data m) id)).

(** [resolver.resolve] or [resolver.reject], by the module map. *)
Definition settle_promise (r : resolver) (v : settlement) : M unit :=
  _ ← on_dyn (λ d, set_logs (next_resolver d) (settled d ++ [(r, v)]) (refused d)
                     (notified d) d);
  query_host (Settle r v).

Fixpoint settle_all (rs : list resolver) (v : settlement) : M unit :=
  match rs with
  | [] => mret tt
  | r :: rs => _ ← settle_promise r v; settle_all rs v
  end.

(** ** [import()] *)

Record import_call := mkCall {
  ic_specifier : string;
  ic_referrer : string;
  ic_attributes : list string;
  ic_phase : ModuleImportPhase
}.

(** [load_dynamic_import]: the look-up of a module that is registered already. *)
Definition evaluated_module (resolve_result : result string MError)
    (requested_module_type : RequestedModuleType) (phase : ModuleImportPhase) :
    M (option (ModuleId * handle)) :=
  match phase, resolve_result with
  | Evaluation, Ok module_specifier =>
      m ← get_mm;
      oid ← lift_outcome (lookup_id p (data m) module_specifier requested_module_type);
      match oid with
      | None => mret None
      | Some id =>
          module ← handle_of id;
          status ← query_host (GetStatus module);
          mret (if decide (status = Evaluated) then Some (id, module) else None)
      end
  | _, _ => mret None
  end.

Definition load_dynamic_import (specifier referrer : string)
    (requested_module_type : RequestedModuleType) (phase : ModuleImportPhase)
    (resolver_handle : resolver) (cped_handle : js_global) : M bool :=
  let resolve_result := resolve V specifier referrer KDynamicImport in
  known ← evaluated_module resolve_result requested_module_type phase;
  match known with
  | Some (id, module) =>
      d ← get_dyn;
      if existsb (λ pending, bool_decide (dm_module_id pending = id))
           (pending_dyn_mod_evaluations d) then
        _ ← on_dyn (set_waiters
              (<[id := default [] (pending_tla_waiters d !! id) ++ [resolver_handle]]>
                 (pending_tla_waiters d)));
        mret false
      else
        module_namespace ← query_host (GetNamespace module);
        _ ← settle_promise resolver_handle (Resolved module_namespace);
        mret false
  | None =>
      m ← get_mm;
      '(load, m) ← lift_outcome
        (load_new V p (DynamicImport specifier referrer requested_module_type phase) m);
      _ ← put_mm m;
      _ ← on_dyn (λ d, set_import_map
            (<[load_id load := mkDynState resolver_handle cped_handle phase]>
               (dynamic_import_map d)) d);
      let fut := match resolve_result with
                 | Ok _ => Preparing load
                 | Err error => Unresolved load error
                 end in
      _ ← on_dyn (λ d, set_preparing (preparing_dynamic_imports d ++ [fut]) true d);
      mret true
  end.

(** [host_import_module_with_phase_dynamically_callback], without the handler that it
    attaches to the promise for errors of resolution. *)
Definition host_import (c : import_call) : M resolver :=
  cped ← query_host GetCped;
  d ← get_dyn;
  let r := next_resolver d in
  _ ← on_dyn (λ d, set_logs (S (next_resolver d)) (settled d) (refused d) (notified d) d);
  assertions ← lift_outcome (parse_import_attributes (ic_attributes c) Modules.DynamicImport);
  _ ← match validate_import_attributes_cb V assertions with
      | Some e =>
          _ ← on_dyn (λ d, set_logs (next_resolver d) (settled d) (refused d ++ [(r, e)])
                             (notified d) d);
          query_host (Settle r (RejectedWith e))
      | None => mret tt
      end;
  new_load ← load_dynamic_import (ic_specifier c) (ic_referrer c)
    (get_requested_module_type_from_attributes assertions) (ic_phase c) r cped;
  _ ← (if new_load : bool then
         on_dyn (λ d, set_logs (next_resolver d) (settled d) (refused d) (S (notified d)) d)
       else mret tt);
  mret r.

Definition has_pending_dynamic_imports (d : dyn_state) : bool :=
  preparing_dynamic_imports_pending d || pending_dynamic_imports_pending d.
Definition has_pending_module_evaluation (e : eval_state) : bool := pending_mod_evaluation e.
Definition has_pending_dyn_module_evaluation (d : dyn_state) : bool :=
  pending_dyn_mod_evaluations_pending d.

(** ** Settling a dynamic import *)

Definition take_import (id : Z) : M resolver :=
  d ← get_dyn;
  match dynamic_import_map d !! id with
  | None => crashes InvalidImport
  | Some state =>
      _ ← on_dyn (set_import_map (delete id (dynamic_import_map d)));
      mret (ds_resolver state)
  end.

Definition dynamic_import_reject (id : Z) (exception : js_global) : M unit :=
  resolver ← take_import id;
  _ ← settle_promise resolver (RejectedWith exception);
  run_js Checkpoint.

Definition dynamic_import_resolve (id : Z) (mod_id : ModuleId) : M unit :=
  resolver ← take_import id;
  module ← handle_of mod_id;
  status ← query_host (GetStatus module);
  _ ← lift_outcome (assert (bool_decide (status = Evaluated)));
  module_namespace ← query_host (GetNamespace module);
  _ ← settle_promise resolver (Resolved module_namespace);
  _ ← on_dyn (set_idle 0);
  run_js Checkpoint.

Definition take_waiters (module_id : ModuleId) : M (option (list resolver)) :=
  d ← get_dyn;
  _ ← on_dyn (set_waiters (delete module_id (pending_tla_waiters d)));
  mret (pending_tla_waiters d !! module_id).

Definition resolve_tla_waiters (module_id : ModuleId) : M unit :=
  waiters ← take_waiters module_id;
  m ← get_mm;
  match waiters, get_handle (data m) module_id with
  | Some waiters, Some module =>
      module_namespace ← query_host (GetNamespace module);
      _ ← settle_all waiters (Resolved module_namespace);
      run_js Checkpoint
  | _, _ => mret tt
  end.

Definition reject_tla_waiters (module_id : ModuleId) (exception : js_global) : M unit :=
  waiters ← take_waiters module_id;
  match waiters with
  | Some waiters =>
      _ ← settle_all waiters (RejectedWith exception);
      run_js Checkpoint
  | None => mret tt
  end.

(** ** Instantiation *)

(** Called by V8 for each import while it links; [None] has thrown. *)
Definition module_resolve_callback (m : ModuleMap) (specifier : string)
    (import_attributes : list string) (referrer : handle) : outcome (option handle) :=
  referrer_name ← unwrap (get_name_by_module (data m) referrer);
  attributes ← parse_import_attributes import_attributes StaticImport;
  r ← resolve_callback V p (data m) specifier referrer_name attributes;
  Ret (match r with Ok module => module | Err _ => None end).

Definition module_source_callback (m : ModuleMap) (specifier : string)
    (import_attributes : list string) (referrer : handle) : outcome (option js_global) :=
  attributes ← parse_import_attributes import_attributes StaticImport;
  let requested := get_requested_module_type_from_attributes attributes in
  oinfo ← get_info_by_module (data m) referrer;
  referrer_info ← unwrap oinfo;
  request ← unwrap (head (filter (λ q, specifier_key q = Some specifier ∧
                       requested_module_type (reference q) = requested)
                     (requests referrer_info)));
  Ret (sources (data m) !! from_reference (reference request)).

Definition instantiate_module (id : ModuleId) : M (result unit js_global) :=
  module ← handle_of id;
  status ← query_host (GetStatus module);
  if decide (status = Errored) then
    e ← query_host (GetException module); mret (Err e)
  else
    status ← query_host (GetStatus module);
    if decide (status ≠ Uninstantiated) then mret (Ok tt)
    else
      m ← get_mm;
      r ← query_host (Instantiate module (module_resolve_callback m) (module_source_callback m));
      mret (match r with Some exception => Err exception | None => Ok tt end).

(** ** Evaluation of a dynamic import; the error is [EvaluateDynamicImportedModule] *)

Definition abandon (import_id : Z) (why : no_evaluation) : M unit :=
  on_dyn (λ d, set_abandoned (abandoned d ++ [(import_id, why)]) d).

Definition dynamic_import_module_evaluate (id : ModuleId) (import_id : Z)
    (state : DynImportState) : M (result unit unit) :=
  module ← handle_of id;
  status ← query_host (GetStatus module);
  match status with
  | Instantiated | Evaluated =>
      _ ← query_host (SetCped (ds_cped state));
      maybe_value ← run_js (Evaluate module);
      status ← query_host (GetStatus module);
      match maybe_value with
      | Some value =>
          _ ← lift_outcome (debug_assert p
                (bool_decide (status = Evaluated ∨ status = Errored)));
          _ ← query_host (WatchEvaluation value);
          _ ← on_dyn (λ d, set_evals (pending_dyn_mod_evaluations d
                 ++ [mkDynEval import_id id value module]) true d);
          mret (Ok tt)
      | None =>
          terminating ← query_host IsTerminating;
          if (terminating : bool) then _ ← abandon import_id Terminated; mret (Err tt)
          else
            _ ← lift_outcome (assert (bool_decide (status = Errored)));
            _ ← abandon import_id Threw;
            mret (Ok tt)
      end
  | status => _ ← abandon import_id (NotLinked status); mret (Ok tt)
  end.

(** ** The evaluations that are under way *)

Fixpoint evaluate_pending (pending : list DynImportModEvaluate)
    (still_pending : list DynImportModEvaluate) (resolved_any : bool) :
    M (list DynImportModEvaluate * bool) :=
  match pending with
  | [] => mret (still_pending, resolved_any)
  | e :: pending =>
      promise_state ← query_host (PromiseStateOf (dm_promise e));
      match promise_state with
      | PPending => evaluate_pending pending (still_pending ++ [e]) resolved_any
      | Fulfilled =>
          _ ← dynamic_import_resolve (dm_load_id e) (dm_module_id e);
          _ ← resolve_tla_waiters (dm_module_id e);
          evaluate_pending pending still_pending true
      | Rejected exception =>
          _ ← dynamic_import_reject (dm_load_id e) exception;
          _ ← reject_tla_waiters (dm_module_id e) exception;
          evaluate_pending pending still_pending true
      end
  end.

Definition evaluate_dyn_imports : M bool :=
  d ← get_dyn;
  if negb (pending_dyn_mod_evaluations_pending d) then mret false
  else
    let pending := pending_dyn_mod_evaluations d in
    _ ← on_dyn (λ d, set_evals [] (pending_dyn_mod_evaluations_pending d) d);
    '(still_pending, resolved_any) ← evaluate_pending pending [] false;
    _ ← on_dyn (set_evals still_pending
          (match still_pending with [] => false | _ => true end));
    mret resolved_any.

(** ** Polling *)

(** [FuturesUnordered::poll_next]: the futures are polled in the order of [choices]
    until one completes. *)
Fixpoint poll_bag {F A O : Type} (poll1 : A → F → outcome (option O * F))
    (choices : list (nat * A)) (bag : list F) : outcome (option O * list F) :=
  match choices with
  | [] => Ret (None, bag)
  | (i, a) :: choices =>
      match bag !! i with
      | None => poll_bag poll1 choices bag
      | Some f =>
          '(r, f) ← poll1 a f;
          match r with
          | Some o => Ret (Some o, delete i bag)
          | None => poll_bag poll1 choices (<[i := f]> bag)
          end
      end
  end.

(** [load.prepare().await.map(|()| load)]: the loader answers [a]. *)
Definition poll_prepare (a : option (result unit E)) (f : PrepareLoadFuture) :
    outcome (option (Z * result RecursiveModuleLoad MError) * PrepareLoadFuture) :=
  match f with
  | Unresolved load error => Ret (Some (load_id load, Err error), f)
  | Preparing load =>
      match prepare V load with
      | (Err error, _) => Ret (Some (load_id load, Err error), f)
      | (Ok _, load') =>
          Ret (match a with
               | None => None
               | Some (Err error) => Some (load_id load, Err (Core error))
               | Some (Ok _) => Some (load_id load, Ok load')
               end, f)
      end
  end.

Abbreviation item := (option (result (ModuleRequest * ModuleSource) (MError + E))).

(** A [StreamFuture] gives the next item of a load together with the load. *)
Definition poll_load (d : ModuleMapData) (steps : list (list (nat * answer (E:=E))))
    (load : RecursiveModuleLoad) :
    outcome (option (item * RecursiveModuleLoad) * RecursiveModuleLoad) :=
  '(r, load) ← poll_next V p steps d load;
  Ret (match r with Ready x => Some (x, load) | Pending => None end, load).

Definition nonempty {A} (l : list A) : bool := match l with [] => false | _ => true end.

Definition to_exception (e : MError) : M js_global :=
  match e with
  | Exception e => mret e
  | _ => query_host (ToV8Error (inl e))
  end.

Fixpoint poll_prepare_dyn_imports_loop (fuel : nat) : M unit :=
  match fuel with
  | 0 => crashes Spins
  | S fuel =>
      d ← get_dyn;
      choices ← query_host PollPreparing;
      '(poll_result, bag) ← lift_outcome
        (poll_bag poll_prepare choices (preparing_dynamic_imports d));
      _ ← on_dyn (λ d, set_preparing bag (preparing_dynamic_imports_pending d) d);
      match poll_result with
      | Some (dyn_import_id, prepare_result) =>
          _ ← match prepare_result with
              | Ok load => on_dyn (λ d, set_loads (pending_dynamic_imports d ++ [load]) true d)
              | Err err =>
                  exception ← query_host (ToV8Error (inl err));
                  dynamic_import_reject dyn_import_id exception
              end;
          poll_prepare_dyn_imports_loop fuel
      | None =>
          on_dyn (λ d, set_preparing (preparing_dynamic_imports d)
                         (nonempty (preparing_dynamic_imports d)) d)
      end
  end.

Definition poll_prepare_dyn_imports (fuel : nat) : M unit :=
  d ← get_dyn;
  if negb (preparing_dynamic_imports_pending d) then mret tt
  else poll_prepare_dyn_imports_loop fuel.

(** A source of a load has arrived. *)
Definition load_progress (load : RecursiveModuleLoad) (request : ModuleRequest)
    (source : ModuleSource) : M unit :=
  m ← get_mm;
  '(register_result, m) ← lift_outcome (register_and_recurse V p request source load m);
  _ ← put_mm m;
  match register_result with
  | Ok load => on_dyn (λ d, set_loads (pending_dynamic_imports d ++ [load]) true d)
  | Err err => exception ← to_exception err; dynamic_import_reject (load_id load) exception
  end.

(** A load is done. *)
Definition load_done (load : RecursiveModuleLoad) : M (result unit unit) :=
  d ← get_dyn;
  state ← match dynamic_import_map d !! load_id load with
          | Some state => mret state
          | None => crashes InvalidImport
          end;
  match ds_phase state with
  | Defer | Evaluation =>
      module_id ← lift_outcome (unwrap (root_module_id load));
      r ← instantiate_module module_id;
      _ ← match r with
          | Err exception => dynamic_import_reject (load_id load) exception
          | Ok _ => mret tt
          end;
      dynamic_import_module_evaluate module_id (load_id load) state
  | Source =>
      module_reference ← lift_outcome (unwrap (root_module_reference load));
      m ← get_mm;
      source ← lift_outcome (unwrap (sources (data m) !! from_reference module_reference));
      _ ← settle_promise (ds_resolver state) (Resolved source);
      mret (Ok tt)
  end.

Definition load_step (x : item) (load : RecursiveModuleLoad) : M (result unit unit) :=
  match x with
  | Some (Ok (request, info)) => _ ← load_progress load request info; mret (Ok tt)
  | Some (Err err) =>
      exception ← query_host (ToV8Error err);
      _ ← dynamic_import_reject (load_id load) exception;
      mret (Ok tt)
  | None => load_done load
  end.

Fixpoint poll_dyn_imports_loop (fuel : nat) : M (result unit unit) :=
  match fuel with
  | 0 => crashes Spins
  | S fuel =>
      d ← get_dyn;
      m ← get_mm;
      choices ← query_host PollLoads;
      '(poll_result, bag) ← lift_outcome
        (poll_bag (poll_load (data m)) choices (pending_dynamic_imports d));
      _ ← on_dyn (λ d, set_loads bag (pending_dynamic_imports_pending d) d);
      match poll_result with
      | Some (x, load) =>
          r ← load_step x load;
          match r with
          | Ok _ => poll_dyn_imports_loop fuel
          | Err e => mret (Err e)
          end
      | None =>
          _ ← on_dyn (λ d, set_loads (pending_dynamic_imports d)
                             (nonempty (pending_dynamic_imports d)) d);
          mret (Ok tt)
      end
  end.

Definition poll_dyn_imports (fuel : nat) : M (result unit unit) :=
  d ← get_dyn;
  if negb (pending_dynamic_imports_pending d) then mret (Ok tt)
  else poll_dyn_imports_loop fuel.

Definition set_code_cache (m : ModuleMap) l b : ModuleMap :=
  mkMap (data m) (v8_modules m) (source_maps m) (source_map_urls m) l b.

(** [poll_code_cache_ready]: a future that completes leaves the bag. *)
Fixpoint drop_ready (choices : list nat) (m : ModuleMap) : ModuleMap :=
  match choices with
  | [] => set_code_cache m (code_cache_ready_futs m) (nonempty (code_cache_ready_futs m))
  | i :: choices =>
      drop_ready choices
        (set_code_cache m (delete i (code_cache_ready_futs m)) (pending_code_cache_ready m))
  end.

Definition poll_code_cache_ready : M unit :=
  m ← get_mm;
  if negb (pending_code_cache_ready m) then mret tt
  else choices ← query_host PollCodeCache; put_mm (drop_ready choices m).

(** [poll_progress]: the inner loop with the value of [has_evaluated], and the outer. *)
Fixpoint progress_loop (fuel inner : nat) (has_evaluated : bool) :
    M (result bool unit) :=
  match inner with
  | 0 => crashes Spins
  | S inner =>
      _ ← poll_prepare_dyn_imports fuel;
      r ← poll_dyn_imports fuel;
      match r with
      | Err e => mret (Err e)
      | Ok _ =>
          _ ← poll_code_cache_ready;
          resolved ← evaluate_dyn_imports;
          if (resolved : bool) then progress_loop fuel inner true
          else mret (Ok has_evaluated)
      end
  end.

Fixpoint poll_progress_loop (fuel outer : nat) : M (result unit unit) :=
  match outer with
  | 0 => crashes Spins
  | S outer =>
      r ← progress_loop fuel fuel false;
      match r with
      | Err e => mret (Err e)
      | Ok true => poll_progress_loop fuel outer
      | Ok false => mret (Ok tt)
      end
  end.

Definition poll_progress (fuel : nat) : M (result unit unit) :=
  poll_progress_loop fuel fuel.

(** ** Evaluation for the embedder *)

Definition set_ev (pending : bool) (next : nat) (out : list ModEvaluate)
    (ans : list (nat * eval_result)) (woken : nat) : M unit :=
  put_ev (mkEval pending next out ans woken).

Definition send (k : nat) (r : eval_result) : M unit :=
  e ← get_ev;
  set_ev (pending_mod_evaluation e) (next_sender e) (outstanding e) (answers e ++ [(k, r)])
    (module_woken e).

Definition set_pending_mod_evaluation (b : bool) : M unit :=
  e ← get_ev; set_ev b (next_sender e) (outstanding e) (answers e) (module_woken e).

Definition wake_module : M unit :=
  e ← get_ev;
  set_ev (pending_mod_evaluation e) (next_sender e) (outstanding e) (answers e)
    (S (module_woken e)).

(** [get_sender]: [Box::from_raw] frees the box, so that a second call would be
    undefined behaviour. *)
Definition get_sender (k : nat) : M ModEvaluate :=
  e ← get_ev;
  match list_find (λ b, me_sender b = k) (outstanding e) with
  | Some (i, b) =>
      _ ← set_ev (pending_mod_evaluation e) (next_sender e) (delete i (outstanding e))
            (answers e) (module_woken e);
      mret b
  | None => crashes (Fault BadMemory)
  end.

Fixpoint call_all (fs : list js_global) (ns : js_global) : M unit :=
  match fs with
  | [] => mret tt
  | f :: fs => _ ← run_js (CallNotify f ns); call_all fs ns
  end.

(** [ModEvaluate::notify]. *)
Definition notify (b : ModEvaluate) : M unit :=
  _ ← match me_notify b with
      | [] => mret tt
      | fs => module ← lift_outcome (unwrap (me_module b));
              ns ← query_host (GetNamespace module);
              call_all fs ns
      end;
  send (me_sender b) EvalOk.

(** What both callbacks do first. *)
Definition claim (k : nat) : M ModEvaluate :=
  b ← get_sender k;
  _ ← set_pending_mod_evaluation false;
  _ ← wake_module;
  mret b.

Definition on_fulfilled (k : nat) : M unit := b ← claim k; notify b.

(** [on_rejected] reports success: the exception is thrown again, into the promise that
    [then2] made. *)
Definition on_rejected (k : nat) : M unit := b ← claim k; send (me_sender b) EvalOk.

Definition UNDEFINED : js_global := 0%Z.

(** The branch of [mod_evaluate] in which the callbacks could not be attached. *)
Definition synthesize_result (k : nat) (pr : promise) : M unit :=
  _ ← set_pending_mod_evaluation false;
  b ← get_sender k;
  promise_state ← query_host (PromiseStateOf pr);
  match promise_state with
  | Fulfilled =>
      caught ← query_host CaughtException;
      match caught with
      | Some exception => e ← query_host (ErrResult exception); send (me_sender b) (EvalJs e)
      | None => notify b
      end
  | Rejected err => e ← query_host (JsErrorOf err); send (me_sender b) (EvalJs e)
  | PPending =>
      terminating ← query_host IsTerminating;
      _ ← lift_outcome (debug_assert p terminating);
      send (me_sender b) EvalDropped
  end.

Definition claim_callbacks (id : ModuleId) (module : handle) :
    M (list js_global * option handle) :=
  m ← get_mm;
  if decide (main_module_id (data m) = Some id) then
    let d := data m in
    _ ← put_mm (set_data m (mkMapData (handles_inverted d) (handles d) [] (info d)
          (by_name d) (next_load_id d) (main_module_id d)
          (synthetic_module_exports_store d) (lazy_esm_sources d) (sources d)));
    mret (main_module_callbacks d, Some module)
  else mret ([], None).

(** [mod_evaluate]: [None] is a future that is ready with [Ok], [Some k] the receiver of
    channel [k]. *)
Definition mod_evaluate (id : ModuleId) : M (option nat) :=
  module ← handle_of id;
  status ← query_host (GetStatus module);
  if decide (status = Evaluated) then mret None
  else
    _ ← lift_outcome (assert (bool_decide (status = Instantiated)));
    e ← get_ev;
    let k := next_sender e in
    _ ← set_ev (pending_mod_evaluation e) (S k) (outstanding e) (answers e) (module_woken e);
    value ← run_js (Evaluate module);
    match value with
    | None =>
        terminating ← query_host IsTerminating;
        _ ← (if (terminating : bool) then
               e ← query_host (ErrResult UNDEFINED); send k (EvalJs e)
             else
               status ← query_host (GetStatus module);
               _ ← lift_outcome (debug_assert p (bool_decide (status = Errored)));
               send k EvalDropped);
        mret (Some k)
    | Some promise =>
        _ ← set_pending_mod_evaluation true;
        status ← query_host (GetStatus module);
        dispatched ← query_host HasDispatchedException;
        _ ← (if (dispatched : bool) then
               e ← query_host (ErrResult UNDEFINED); send k (EvalJs e)
             else
               _ ← lift_outcome (debug_assert p
                     (bool_decide (status = Evaluated ∨ status = Errored)));
               '(callbacks, main) ← claim_callbacks id module;
               e ← get_ev;
               _ ← set_ev (pending_mod_evaluation e) (next_sender e)
                     (outstanding e ++ [mkModEvaluate k main callbacks]) (answers e)
                     (module_woken e);
               attached ← query_host (AttachHandlers k promise);
               _ ← (if (attached : bool) then mret tt else synthesize_result k promise);
               run_js Checkpoint);
        mret (Some k)
    end.

Inductive sync_error := TLA | SyncJs (error : js_global).

Definition mod_evaluate_sync (id : ModuleId) : M (result unit sync_error) :=
  module ← handle_of id;
  status ← query_host (GetStatus module);
  if decide (status = Evaluated) then mret (Ok tt)
  else
    _ ← lift_outcome (assert (bool_decide (status = Instantiated)));
    graph_async ← query_host (IsGraphAsync module);
    if (graph_async : bool) then mret (Err TLA)
    else
      value ← run_js (Evaluate module);
      caught ← query_host CaughtException;
      match value, caught with
      | None, _ =>
          exception ← lift_outcome (unwrap caught);
          e ← query_host (JsErrorOf exception); mret (Err (SyncJs e))
      | Some _, Some exception => e ← query_host (JsErrorOf exception); mret (Err (SyncJs e))
      | Some promise, None =>
          status ← query_host (GetStatus module);
          _ ← lift_outcome (debug_assert p
                (bool_decide (status = Evaluated ∨ status = Errored)));
          _ ← query_host (MarkAsHandled promise);
          promise_state ← query_host (PromiseStateOf promise);
          match promise_state with
          | Fulfilled => mret (Ok tt)
          | Rejected err =>
              _ ← query_host (TrackHandledRejection promise);
              e ← query_host (JsErrorOf err); mret (Err (SyncJs e))
          | PPending => crashes (Fault Unreachable)
          end
      end.

(** [get_module_namespace]; the error is the module's exception. *)
Definition get_module_namespace (id : ModuleId) : M (result js_global js_global) :=
  module ← handle_of id;
  status ← query_host (GetStatus module);
  if decide (status = Errored) then
    exception ← query_host (GetException module);
    e ← query_host (ErrResult exception); mret (Err e)
  else
    _ ← lift_outcome (assert (bool_decide (status = Instantiated ∨ status = Evaluated)));
    ns ← query_host (GetNamespace module); mret (Ok ns).

(** ** Stalled top-level awaits *)

Definition get_stalled_top_level_await_message_for_module (id : ModuleId) :
    M (list js_global) :=
  module ← handle_of id;
  synthetic ← query_host (IsSynthetic module);
  if (synthetic : bool) then mret [] else query_host (StalledMessages module).

Fixpoint first_stalled (ids : list ModuleId) : M (list js_global) :=
  match ids with
  | [] => mret []
  | id :: ids =>
      messages ← get_stalled_top_level_await_message_for_module id;
      match messages with [] => first_stalled ids | _ => mret messages end
  end.

Definition find_stalled_top_level_await : M (list js_global) :=
  m ← get_mm;
  let root := option_map info_id (head (filter (λ i, info_main i = true) (info (data m)))) in
  messages ← match root with
             | Some root => get_stalled_top_level_await_message_for_module root
             | None => mret []
             end;
  match messages with
  | [] => first_stalled (seq 0 (length (handles (data m))))
  | _ => mret messages
  end.

Definition destroy : M unit :=
  _ ← on_dyn (λ d, mkDyn ∅ [] (preparing_dynamic_imports_pending d) []
        (pending_dynamic_imports_pending d) (pending_dyn_mod_evaluations d)
        (pending_dyn_mod_evaluations_pending d) ∅ (dyn_module_evaluate_idle_counter d)
        (next_resolver d) (settled d) (refused d) (notified d) (abandoned d));
  m ← get_mm;
  put_mm (set_data (set_code_cache m [] (pending_code_cache_ready m)) MapData_default).
End programs.
End dyn_imports.
Arguments mkSt {E J}.
Arguments js {E J}.
Arguments mm {E J}.
Arguments dyn {E J}.
Arguments ev {E J}.
Arguments mkHost {E J}.
Arguments ask {E J} _ {A} _ _.
Arguments enter {E J} _ {A} _ _.

(** * What a load keeps

    Registering a source takes no load id, and a load keeps its own. *)

Section keeps_ids.
Context {E : Type} (V : env E) (p : profile).

(** Whatever [f] does, the counter of load ids is the same. *)
Definition same_ids {E' A} (f : method E' A) : Prop :=
  ∀ m r m', f m = Ret (r, m') → next_load_id (data m') = next_load_id (data m).

Lemma same_bind {E' A B} (f : method E' A) (k : A → method E' B) :
  same_ids f → (∀ a, same_ids (k a)) → same_ids (f ≫= k).
Proof.
  intros Hf Hk m r m' Hrun. unfold mbind, method_bind in Hrun.
  run_in Hrun. destruct a as [[a|e] m1]; simpl in Hrun.
  - erewrite Hk by done. by eapply Hf.
  - injection Hrun as <- <-. by eapply Hf.
Qed.
Lemma same_ret {E' A} (a : A) : same_ids (mret a : method E' A).
Proof. by intros m r m' [= <- <-]. Qed.
Lemma same_fail {E' A} (e : E') : same_ids (fail e : method E' A).
Proof. by intros m r m' [= <- <-]. Qed.
Lemma same_get {E'} : same_ids (get_map : method E' _).
Proof. by intros m r m' [= <- <-]. Qed.
Lemma same_try {E' A} (r : result A E') : same_ids (try_res r).
Proof. by intros m r' m' [= <- <-]. Qed.
Lemma same_lift {E' A} (o : outcome A) : same_ids (lift o : method E' A).
Proof. intros m r m' Hrun. unfold lift in Hrun. by run_in Hrun. Qed.
Lemma same_modify {E'} f :
  (∀ m, next_load_id (data (f m)) = next_load_id (data m)) →
  same_ids (modify f : method E' unit).
Proof. intros Hf m r m' [= <- <-]. apply Hf. Qed.
Lemma same_on_data {E' A} (f : ModuleMapData → outcome (A * ModuleMapData)) :
  (∀ d a d', f d = Ret (a, d') → next_load_id d' = next_load_id d) →
  same_ids (on_data f : method E' A).
Proof.
  intros Hf m r m' Hrun. unfold on_data in Hrun. run_in Hrun. destruct a as [a d'].
  injection Hrun as <- <-. simpl. by eapply Hf.
Qed.

Create HintDb same discriminated.
Hint Resolve same_bind same_ret same_fail same_get same_try same_lift : same.

Lemma same_create name ty h main reqs :
  same_ids (on_data (λ d, create_module_info d name ty h main reqs)
              : method (ModuleError E) _).
Proof.
  apply same_on_data. intros d a d' Hrun. unfold create_module_info in Hrun.
  by run_in Hrun.
Qed.

Lemma same_alias n ty f :
  same_ids (on_data (λ d, d ← alias p d n ty f; Ret (tt, d)) : method (ModuleError E) _).
Proof.
  apply same_on_data. intros d a d' Hrun. run_in Hrun. unfold alias in Hrun0. by run_in Hrun0.
Qed.

Lemma same_alloc : same_ids (alloc_handle : method (ModuleError E) _).
Proof. by intros m r m' [= <- <-]. Qed.

Hint Resolve same_create same_alias same_alloc : same.
Hint Extern 1 (same_ids (modify _)) => apply same_modify; intros; repeat case_match; done : same.
Hint Extern 1 (same_ids (match ?x with _ => _ end)) => destruct x : same.

Lemma same_v8_string s : same_ids (to_v8_string V s).
Proof. apply same_lift. Qed.
Lemma same_v8_strings l : same_ids (to_v8_strings V l).
Proof. induction l as [|s l IH]; [apply same_ret|]. apply same_bind; [apply same_v8_string|done]. Qed.
Hint Resolve same_v8_string same_v8_strings : same.

Lemma same_synthetic name ty exports :
  same_ids (new_synthetic_module V name ty exports).
Proof.
  unfold new_synthetic_module. eauto 20 with same.
Qed.

Lemma same_requests ty name dyn raws : same_ids (module_requests V ty name dyn raws).
Proof. induction raws; simpl; eauto 10 with same. Qed.

Lemma same_js main ty name source dyn cc :
  same_ids (new_module_from_js_source V main ty name source dyn cc).
Proof.
  assert (∀ b c, same_ids (store_code_cache V b name cc c)).
  { intros. unfold store_code_cache, push_code_cache. eauto 10 with same. }
  assert (∀ u, same_ids (record_source_map V name u : method (ModuleError E) _)).
  { intros. unfold record_source_map. eauto 10 with same. }
  pose proof same_requests. unfold new_module_from_js_source. apply same_bind; [auto with same|].
  intros m. destruct (if main then _ else _); [eauto 10 with same|].
  destruct (v8_compile V name source _) as [[c|] ?]; eauto 20 with same.
Qed.

Hint Resolve same_synthetic same_js : same.

Lemma same_new_module main dyn source : same_ids (new_module V p main dyn source).
Proof.
  unfold new_module. apply same_bind; [eauto 10 with same|]. intros name.
  apply same_bind; [auto with same|]. intros m. apply same_bind; [auto with same|].
  intros [id|]; [auto with same|]. destruct (src_type source) as [| | | | |ty]; simpl.
  - auto with same.
  - unfold new_wasm_module. eauto with same.
  - unfold new_json_module. eauto with same.
  - unfold new_text_module. auto with same.
  - unfold new_bytes_module. eauto with same.
  - unfold new_custom_module. eauto 10 with same.
Qed.

Lemma same_wasm_source ref source :
  same_ids (new_wasm_module_source V p ref source : method (ModuleError E) _).
Proof.
  assert (∀ k v, same_ids (insert_source k v : method (ModuleError E) _)).
  { intros. apply same_modify. done. }
  unfold new_wasm_module_source. eauto 20 with same.
Qed.

Implicit Types (L : RecursiveModuleLoad).

Lemma walk_load_id fuel d queue L L' : walk p fuel d queue L = Ret L' → load_id L' = load_id L.
Proof.
  assert (∀ imports queue L queue' L',
    visit_imports p d imports queue L = Ret (queue', L') → load_id L' = load_id L) as Hv.
  { induction imports as [|q imports IH]; intros queue0 L0 queue' L0' Hrun; simpl in Hrun.
    - by injection Hrun as <- <-.
    - run_in Hrun. destruct a as [queue1 L1]. rewrite (IH _ _ _ _ Hrun).
      unfold visit_import in Hrun0. case_decide; [|by injection Hrun0 as <- <-].
      run_in Hrun0. by destruct a; injection Hrun0 as <- <-. }
  revert queue L. induction fuel as [|fuel IH]; intros [|[id r] queue] L Hrun; simpl in Hrun;
    try (by injection Hrun as <-); [done|].
  run_in Hrun. destruct a0 as [queue1 L1]. rewrite (IH _ _ Hrun). by eapply Hv.
Qed.

Lemma finish_load_id L : load_id (finish_if_idle L) = load_id L.
Proof. unfold finish_if_idle. by destruct (pending L). Qed.

Lemma register_keeps_ids request source L m r m' :
  register_and_recurse V p request source L m = Ret (r, m') →
  next_load_id (data m') = next_load_id (data m) ∧
  ∀ L', r = Ok L' → load_id L' = load_id L.
Proof.
  unfold register_and_recurse. intros Hrun. run_in Hrun. destruct a as [r0 m1].
  assert (next_load_id (data m1) = next_load_id (data m)) as H1.
  { destruct (from_module_type _) as [[]|]; [by eapply same_wasm_source|].
    by injection Hrun0 as <- <-. }
  destruct r0 as [s|e]; [|by injection Hrun as <- <-].
  assert (∀ r2 m2, new_module V p (is_currently_loading_main_module L)
    (is_dynamic_import L) s m1 = Ret (r2, m2) →
    match r2 with
    | Err e => Ret (Err e, m2)
    | Ok module_id =>
        L ← register_and_recurse_inner p (data m2) module_id (reference request) L;
        let L := if decide (state L = LoadingRoot)
                 then set_state (set_root L module_id) LoadingImports else L in
        Ret (Ok (finish_if_idle L), m2)
    end = Ret (r, m') →
    next_load_id (data m') = next_load_id (data m) ∧
    ∀ L', r = Ok L' → load_id L' = load_id L) as Hnew.
  { intros r2 m2 Hn Hr. apply same_new_module in Hn. rewrite <- H1.
    destruct r2 as [id|]; [|by injection Hr as <- <-].
    run_in Hr. apply walk_load_id in Hrun1.
    split; [done|]. intros L' [= <-]. rewrite finish_load_id. by case_decide. }
  destruct (from_module_type (src_type s)) as [[]|], (phase request); run_in Hrun;
    try (split; [done|]; intros ? [= <-]; apply finish_load_id);
    try (by split);
    match goal with H : new_module _ _ _ _ _ _ = Ret ?x |- _ => destruct x end; by eapply Hnew.
Qed.

Lemma poll_loading_load_id steps L r L' :
  poll_loading (E:=E) steps L = Ret (r, L') → load_id L' = load_id L.
Proof.
  revert L. induction steps as [|choices steps IH]; intros L Hrun; simpl in Hrun.
  - destruct (pending L); [done|]. by injection Hrun as <- <-.
  - destruct (poll_pending choices _ _) as [[[[[[[q s]|]|e]|]|] futs] al];
      try (by injection Hrun as <- <-); [|done].
    destruct futs; simpl in Hrun; [by injection Hrun as <- <-|].
    by rewrite (IH _ Hrun).
Qed.

Lemma poll_next_load_id steps d L r L' :
  poll_next V p steps d L = Ret (r, L') → load_id L' = load_id L.
Proof.
  unfold poll_next. intros Hrun. destruct (state L).
  1: destruct (resolve_root V (init L)) as [spec|e]; [|by injection Hrun as <- <-].
  all: repeat (simpl in *; match goal with
    | H : _ ≫= _ = Ret _ |- _ => run_in H
    | H : register_and_recurse_inner _ _ _ _ _ = Ret _ |- _ => apply walk_load_id in H
    | H : match ?l with _ => _ end = Ret _ |- _ => destruct l; run_in H
    | x : (_ * RecursiveModuleLoad)%type |- _ => destruct x
    | H : poll_loading _ _ = Ret _ |- _ => apply poll_loading_load_id in H
    end); simpl in *; congruence.
Qed.
End keeps_ids.
