(* ===== verification/ImportFlow.v ===== *)
(** What becomes of the promises of [import()] and of evaluations: the theorems about
    [DynImports].

    Holds the invariant that gives every promise one place, the laws that V8 keeps
    ([js_run], [HostLaws]), partial correctness and termination of [poll_progress], and a
    concrete host on which scenarios run. *)

From S2P Require Import Prelude Modules ModuleMap RecursiveLoad DynImports.

(** * Promises and loads

    A promise of [import()] is in one place: it was settled, it waits for a module, or it
    belongs to a load.  [held] are loads that a function has taken out of the queues,
    [hand] promises that it has taken from their place, [mods] the modules of evaluations
    that it has taken. *)

Inductive place :=
  | PSettled
  | PWaiting (m : ModuleId)
  | PImport (id : Z).
Global Instance place_eq_dec : EqDecision place.
Proof. solve_decision. Defined.

Section places.
Context {E : Type}.
Implicit Types (d : @dyn_state E) (r : nat) (held : list Z).

Definition at_place d r (a : place) : Prop :=
  match a with
  | PSettled => r ∈ (settled d).*1
  | PWaiting m => ∃ ws, pending_tla_waiters d !! m = Some ws ∧ r ∈ ws
  | PImport id => ds_resolver <$> dynamic_import_map d !! id = Some r
  end.

(** The loads in the queues. *)
Definition live d : list Z :=
  (prepared_id <$> preparing_dynamic_imports d)
  ++ (load_id <$> pending_dynamic_imports d)
  ++ (dm_load_id <$> pending_dyn_mod_evaluations d).

Definition eval_modules d : list ModuleId :=
  dm_module_id <$> pending_dyn_mod_evaluations d.

(** The entry of a load that is over. *)
Definition stale held d (a : place) : Prop :=
  match a with PImport id => id ∉ held ++ live d | _ => False end.

(** Only such an entry may share its promise, when that was settled. *)
Definition shared held d (a b : place) : Prop := a = PSettled ∧ stale held d b.

(** A queue that holds something has its flag set. *)
Definition flags_ok d : Prop :=
  (preparing_dynamic_imports d ≠ [] → preparing_dynamic_imports_pending d = true) ∧
  (pending_dynamic_imports d ≠ [] → pending_dynamic_imports_pending d = true) ∧
  (pending_dyn_mod_evaluations d ≠ [] → pending_dyn_mod_evaluations_pending d = true).

Record dyn_inv (hand : list nat) (held : list Z) (mods : list ModuleId) (n : Z) d : Prop := {
  di_loads : NoDup (held ++ live d);
  di_live : ∀ id, id ∈ held ++ live d → is_Some (dynamic_import_map d !! id);
  di_ids : ∀ id, is_Some (dynamic_import_map d !! id) → (id <= n)%Z;
  di_one : ∀ r a b, at_place d r a → at_place d r b →
    a = b ∨ shared held d a b ∨ shared held d b a;
  di_settled : NoDup (settled d).*1;
  di_waiters : ∀ m ws, pending_tla_waiters d !! m = Some ws → NoDup ws;
  di_waits_for : ∀ m, is_Some (pending_tla_waiters d !! m) → m ∈ mods ++ eval_modules d;
  di_issued : ∀ r a, at_place d r a → r < next_resolver d;
  di_placed : ∀ r, r < next_resolver d → r ∈ hand ∨ ∃ a, at_place d r a;
  di_hand : NoDup hand;
  di_hand_issued : ∀ r, r ∈ hand → r < next_resolver d;
  di_hand_free : ∀ r a, r ∈ hand → ¬ at_place d r a;
  di_flags : flags_ok d;
  di_owned : ∀ id st, dynamic_import_map d !! id = Some st →
    id ∈ held ++ live d ∨ ds_resolver st ∈ (settled d).*1 ∨ id ∈ (abandoned d).*1
}.

Lemma stale_mono held held' d d' a :
  held' ++ live d' ⊆ held ++ live d → stale held d a → stale held' d' a.
Proof. destruct a; simpl; [done..|]. intros Hs Hn Hin. by apply Hn, Hs. Qed.

Lemma shared_mono held held' d d' a b :
  held' ++ live d' ⊆ held ++ live d → shared held d a b → shared held' d' a b.
Proof. intros Hs [-> Hb]. split; [done|]. by eapply stale_mono. Qed.

(** Loads move between the queues and the hands of a function. *)
Lemma dyn_inv_move hand held held' mods mods' n d d' :
  dyn_inv hand held mods n d →
  held ++ live d ≡ₚ held' ++ live d' →
  mods ++ eval_modules d ⊆ mods' ++ eval_modules d' →
  dynamic_import_map d' = dynamic_import_map d → settled d' = settled d →
  pending_tla_waiters d' = pending_tla_waiters d → next_resolver d' = next_resolver d →
  abandoned d' = abandoned d → flags_ok d' → dyn_inv hand held' mods' n d'.
Proof.
  intros [] Hp Hm Hmap Hs Hw Hn Hab Hf.
  assert (∀ r a, at_place d' r a ↔ at_place d r a) as Hat.
  { intros r []; simpl; by rewrite ?Hmap, ?Hs, ?Hw. }
  split; rewrite ?Hmap, ?Hs, ?Hw, ?Hn, ?Hab; try done.
  - by rewrite <- Hp.
  - intros id. rewrite <- Hp. auto.
  - intros r a b Ha%Hat Hb%Hat.
    assert (held' ++ live d' ⊆ held ++ live d) as Hsub by (intros x; by rewrite Hp).
    destruct (di_one0 r a b Ha Hb) as [|[|]]; eauto using shared_mono.
  - intros m Hm'. apply Hm. auto.
  - intros r a. rewrite Hat. eauto.
  - intros r Hr. destruct (di_placed0 r Hr) as [|[a ?]]; [by left|right; exists a; by apply Hat].
  - intros r a Hr. rewrite Hat. eauto.
  - intros id st Hst. rewrite <- Hp. eauto.
Qed.

(** A load is over. *)
Lemma dyn_inv_drop hand id held mods n d :
  dyn_inv hand (id :: held) mods n d →
  NoDup (held ++ live d) ∧ (∀ i, i ∈ held ++ live d → is_Some (dynamic_import_map d !! i)) ∧
  ∀ r a b, at_place d r a → at_place d r b → a = b ∨ shared held d a b ∨ shared held d b a.
Proof.
  intros []. split; [|split].
  - simpl in di_loads0. by apply NoDup_cons in di_loads0 as [_ ?].
  - intros i Hi. apply di_live0. simpl. by right.
  - intros r a b Ha Hb.
    assert (held ++ live d ⊆ (id :: held) ++ live d) as Hsub by (intros x; by right).
    destruct (di_one0 r a b Ha Hb) as [|[|]]; eauto using shared_mono.
Qed.

(** V8 does not evaluate the module of a load: its promise is left. *)
Lemma dyn_inv_abandon hand id why held mods n d :
  dyn_inv hand (id :: held) mods n d →
  dyn_inv hand held mods n (set_abandoned (abandoned d ++ [(id, why)]) d).
Proof.
  intros Hinv. destruct (dyn_inv_drop _ _ _ _ _ _ Hinv) as (H1 & H2 & H3). destruct Hinv.
  split; try done. intros i st Hst. simpl in *. rewrite fmap_app.
  destruct (di_owned0 i st Hst) as [[->|?]%elem_of_cons|[?|?]];
    [right; right|by left|right; by left|right; right]; apply elem_of_app; [right; by left|by left].
Qed.
Lemma dyn_inv_abandoned hand x held mods n d :
  dyn_inv hand held mods n d → dyn_inv hand held mods n (set_abandoned (abandoned d ++ [x]) d).
Proof.
  intros []. split; try done. intros i st Hst. simpl in *. rewrite fmap_app.
  destruct (di_owned0 i st Hst) as [?|[?|?]]; [by left|right; by left|right; right]. apply elem_of_app. by left.
Qed.

Lemma dyn_inv_new hand held mods n d :
  dyn_inv hand held mods n d →
  dyn_inv (next_resolver d :: hand) held mods n
    (set_logs (S (next_resolver d)) (settled d) (refused d) (notified d) d).
Proof.
  intros []. split; simpl; try done.
  - intros r a Ha. specialize (di_issued0 r a Ha). lia.
  - intros r Hr. destruct (decide (r = next_resolver d)) as [->|Hne]; [left; by left|].
    destruct (di_placed0 r) as [|[a ?]]; [lia|left; by right|right; by exists a].
  - apply NoDup_cons. split; [|done]. intros Hin%di_hand_issued0. lia.
  - intros r [->|Hin]%elem_of_cons; [lia|]. specialize (di_hand_issued0 r Hin). lia.
  - intros r a [->|Hin]%elem_of_cons Ha; [|by eapply di_hand_free0].
    specialize (di_issued0 _ _ Ha). lia.
Qed.

Lemma dyn_inv_settle r v hand held mods n d :
  dyn_inv (r :: hand) held mods n d →
  dyn_inv hand held mods n
    (set_logs (next_resolver d) (settled d ++ [(r, v)]) (refused d) (notified d) d).
Proof.
  intros [].
  assert (∀ r' a, at_place
    (set_logs (next_resolver d) (settled d ++ [(r, v)]) (refused d) (notified d) d) r' a →
    at_place d r' a ∨ r' = r ∧ a = PSettled) as Hat.
  { intros r' [|m|id]; simpl; [|by left..]. rewrite fmap_app, elem_of_app. simpl.
    rewrite list_elem_of_singleton. tauto. }
  assert (∀ a, ¬ at_place d r a) as Hfree by (intros a; apply di_hand_free0; by left).
  split; simpl; try done.
  - intros r' a b [Ha|[-> ->]]%Hat [Hb|[Hr ->]]%Hat; subst;
      [by apply (di_one0 r')|by apply Hfree in Ha|by apply Hfree in Hb|by left].
  - rewrite fmap_app. apply NoDup_app. split; [done|]. split; [|apply NoDup_singleton].
    simpl. intros x Hx ->%list_elem_of_singleton. by apply (Hfree PSettled).
  - intros r' a [Ha|[-> ->]]%Hat; [eauto|]. apply di_hand_issued0. by left.
  - intros r' Hr. destruct (di_placed0 r' Hr) as [[->|]%elem_of_cons|[a Ha]].
    + right. exists PSettled. simpl. rewrite fmap_app. simpl. set_solver.
    + by left.
    + right. exists a. destruct a; simpl in *; try done. rewrite fmap_app. set_solver.
  - by apply NoDup_cons in di_hand0 as [_ ?].
  - intros r' Hr. apply di_hand_issued0. by right.
  - intros r' a Hr [Ha|[-> ->]]%Hat; [eapply di_hand_free0; [by right|done]|].
    by apply NoDup_cons in di_hand0 as [? _].
  - intros id st Hst. rewrite fmap_app.
    destruct (di_owned0 id st Hst) as [?|[?|?]]; [by left|right; left|right; by right]. apply elem_of_app. by left.
Qed.

(** An entry is taken from the map, together with its load. *)
Lemma dyn_inv_take id st hand held mods n d :
  dyn_inv hand (id :: held) mods n d → dynamic_import_map d !! id = Some st →
  dyn_inv (ds_resolver st :: hand) held mods n
    (set_import_map (delete id (dynamic_import_map d)) d).
Proof.
  intros Hinv Hst. destruct (dyn_inv_drop _ _ _ _ _ _ Hinv) as (D1 & D2 & D3).
  destruct Hinv. rename di_loads0 into L1, di_live0 into L2, di_ids0 into L3, di_one0 into L4, di_hand_free0 into L5.
  rename D1 into di_loads0, D2 into di_live0, D3 into di_one0.
  set (d' := set_import_map _ d).
  assert (∀ r a, at_place d' r a ↔ at_place d r a ∧ a ≠ PImport id) as Hat.
  { intros r [|m|i]; simpl; [naive_solver..|]. destruct (decide (i = id)) as [->|Hne].
    - rewrite lookup_delete_eq. naive_solver.
    - rewrite lookup_delete_ne by done. naive_solver. }
  assert (at_place d (ds_resolver st) (PImport id)) as Hr by (simpl; by rewrite Hst).
  assert (∀ a, at_place d (ds_resolver st) a → a = PImport id) as Honly.
  { intros a Ha. destruct (L4 _ _ _ Ha Hr) as [|[[_ Hs]|[? _]]]; [done| |done].
    by destruct Hs; left. }
  assert (id ∉ held ++ live d') as Hid by by apply NoDup_cons in L1 as [? _].
  split; try done.
  - intros i Hi. simpl. rewrite lookup_delete_ne by (by intros ->). apply L2. by right.
  - intros i [x Hx]. simpl in Hx. apply lookup_delete_Some in Hx as [_ Hx]. apply L3. by exists x.
  - intros r a b [Ha _]%Hat [Hb _]%Hat. by apply (di_one0 r).
  - intros r a [Ha _]%Hat. by eapply di_issued0.
  - intros r Hlt. destruct (di_placed0 r Hlt) as [Hh|[a Ha]]; [left; by right|].
    destruct (decide (a = PImport id)) as [->|Hne].
    + left. simpl in Ha. rewrite Hst in Ha. injection Ha as <-. by left.
    + right. exists a. by apply Hat.
  - apply NoDup_cons. split; [|done]. intros Hin. by apply (L5 _ _ Hin Hr).
  - intros r [->|Hin]%elem_of_cons; [by eapply di_issued0|by apply di_hand_issued0].
  - intros r a [->|Hin]%elem_of_cons [Ha Hne]%Hat; [|by eapply L5].
    by apply Hne, Honly.
  - intros i st' Hi. simpl in Hi. apply lookup_delete_Some in Hi as [Hne Hi].
    destruct (di_owned0 i st' Hi) as [[->|?]%elem_of_cons|?]; [done|by left|by right].
Qed.

(** The promises that wait for a module are taken. *)
Lemma dyn_inv_take_waiters m hand held mods n d :
  dyn_inv hand held mods n d →
  dyn_inv (default [] (pending_tla_waiters d !! m) ++ hand) held mods n
    (set_waiters (delete m (pending_tla_waiters d)) d).
Proof.
  intros []. set (d' := set_waiters _ d).
  assert (∀ r a, at_place d' r a ↔ at_place d r a ∧ a ≠ PWaiting m) as Hat.
  { intros r [|m'|i]; simpl; [naive_solver| |naive_solver].
    destruct (decide (m' = m)) as [->|Hne].
    - rewrite lookup_delete_eq. naive_solver.
    - rewrite lookup_delete_ne by done. naive_solver. }
  assert (∀ r, r ∈ default [] (pending_tla_waiters d !! m) ↔ at_place d r (PWaiting m)) as Hws.
  { intros r. simpl. destruct (pending_tla_waiters d !! m) as [ws|]; simpl.
    - split; [by exists ws|]. by intros (? & [= <-] & ?).
    - split; [by intros ?%elem_of_nil|]. by intros (? & ? & _). }
  split; try done.
  - intros r a b [Ha _]%Hat [Hb _]%Hat. by apply (di_one0 r).
  - intros m' ws Hm. simpl in Hm. apply lookup_delete_Some in Hm as [_ Hm]. eauto.
  - intros m' [ws Hm]. simpl in Hm. apply lookup_delete_Some in Hm as [_ Hm].
    apply di_waits_for0. by exists ws.
  - intros r a [Ha _]%Hat. by eapply di_issued0.
  - intros r Hlt. destruct (di_placed0 r Hlt) as [Hh|[a Ha]]; [left; set_solver|].
    destruct (decide (a = PWaiting m)) as [->|Hne].
    + left. apply elem_of_app. left. by apply Hws.
    + right. exists a. by apply Hat.
  - apply NoDup_app. split; [|split; [|done]].
    + destruct (pending_tla_waiters d !! m) eqn:Hm; simpl; [eauto|apply NoDup_nil_2].
    + intros r Hr%Hws Hin. by eapply di_hand_free0.
  - intros r [Hr%Hws|Hr]%elem_of_app; [by eapply di_issued0|by apply di_hand_issued0].
  - intros r a [Hr%Hws|Hr]%elem_of_app [Ha Hne]%Hat; [|by eapply di_hand_free0].
    by destruct (di_one0 _ _ _ Ha Hr) as [|[[_ []]|[? _]]].
Qed.

(** The promise waits for a module. *)
Lemma dyn_inv_wait r m hand held mods n d :
  dyn_inv (r :: hand) held mods n d → m ∈ mods ++ eval_modules d →
  dyn_inv hand held mods n
    (set_waiters (<[m := default [] (pending_tla_waiters d !! m) ++ [r]]>
       (pending_tla_waiters d)) d).
Proof.
  intros [] Hm. set (d' := set_waiters _ d).
  assert (∀ r' a, at_place d' r' a ↔ at_place d r' a ∨ r' = r ∧ a = PWaiting m) as Hat.
  { intros r' [|m'|i]; simpl; [naive_solver| |naive_solver].
    destruct (decide (m' = m)) as [->|Hne].
    - rewrite lookup_insert_eq. destruct (pending_tla_waiters d !! m) as [ws|]; simpl.
      + split.
        * intros (? & [= <-] & [?| ->%list_elem_of_singleton]%elem_of_app);
            [left; by exists ws|by right].
        * intros [(? & [= <-] & ?)|[-> _]]; eexists; (split; [done|]); apply elem_of_app;
            [by left|right; by left].
      + split; [intros (? & [= <-] & ->%list_elem_of_singleton); by right|].
        intros [(? & ? & _)|[-> _]]; [done|]. eexists. split; [done|]. by left.
    - rewrite lookup_insert_ne by done. naive_solver. }
  assert (∀ a, ¬ at_place d r a) as Hfree by (intros a; apply di_hand_free0; by left).
  apply NoDup_cons in di_hand0 as [Hr Hnd].
  split; try done.
  - intros r' a b [Ha|[-> ->]]%Hat [Hb|[Hr' ->]]%Hat; subst;
      [by apply (di_one0 r')|by apply Hfree in Ha|by apply Hfree in Hb|by left].
  - intros m' ws Hws. simpl in Hws. apply lookup_insert_Some in Hws as [[-> <-]|[_ Hws]]; [|eauto].
    apply NoDup_app. split; [|split; [|apply NoDup_singleton]].
    + destruct (pending_tla_waiters d !! m') eqn:Hm'; simpl; [eauto|apply NoDup_nil_2].
    + intros x Hx ->%list_elem_of_singleton. apply (Hfree (PWaiting m')). simpl.
      destruct (pending_tla_waiters d !! m'); simpl in Hx; [eauto|by apply elem_of_nil in Hx].
  - intros m' [ws Hws]. simpl in Hws. apply lookup_insert_Some in Hws as [[<- _]|[_ Hws]]; [done|].
    apply di_waits_for0. by exists ws.
  - intros r' a [Ha|[-> ->]]%Hat; [by eapply di_issued0|]. apply di_hand_issued0. by left.
  - intros r' Hlt. destruct (di_placed0 r' Hlt) as [[->|]%elem_of_cons|[a Ha]].
    + right. exists (PWaiting m). apply Hat. by right.
    + by left.
    + right. exists a. apply Hat. by left.
  - intros r' Hr'. apply di_hand_issued0. by right.
  - intros r' a Hr' [Ha|[-> ->]]%Hat; [|done]. eapply di_hand_free0; [by right|done].
Qed.

(** The promise gets an entry of its own, for a load with a new number. *)
Lemma dyn_inv_register r id st hand held mods n d :
  dyn_inv (r :: hand) held mods n d → (n < id)%Z → ds_resolver st = r →
  dyn_inv hand (id :: held) mods id
    (set_import_map (<[id := st]> (dynamic_import_map d)) d).
Proof.
  intros [] Hid Hst. set (d' := set_import_map _ d).
  assert (dynamic_import_map d !! id = None) as Hnone.
  { destruct (dynamic_import_map d !! id) eqn:Hx; [|done].
    specialize (di_ids0 id (mk_is_Some _ _ Hx)). lia. }
  assert (id ∉ held ++ live d) as Hnew.
  { intros Hin%di_live0. rewrite Hnone in Hin. by destruct Hin. }
  assert (∀ r' a, at_place d' r' a ↔ at_place d r' a ∨ r' = r ∧ a = PImport id) as Hat.
  { intros r' [|m'|i]; simpl; [naive_solver..|]. destruct (decide (i = id)) as [->|Hne].
    - rewrite lookup_insert_eq, Hnone. simpl. rewrite Hst. naive_solver.
    - rewrite lookup_insert_ne by done. naive_solver. }
  assert (∀ a, ¬ at_place d r a) as Hfree by (intros a; apply di_hand_free0; by left).
  apply NoDup_cons in di_hand0 as [Hr Hnd].
  split; try done.
  - by apply NoDup_cons.
  - intros i [->|Hi]%elem_of_cons; simpl; [rewrite lookup_insert_eq; by eexists|].
    rewrite lookup_insert_ne by (by intros ->). auto.
  - intros i [x Hx]. simpl in Hx. apply lookup_insert_Some in Hx as [[-> _]|[_ Hx]]; [done|].
    specialize (di_ids0 i (mk_is_Some _ _ Hx)). lia.
  - intros r' a b [Ha|[-> ->]]%Hat [Hb|[Hr' ->]]%Hat; subst;
      [|by apply Hfree in Ha|by apply Hfree in Hb|by left].
    assert (∀ c, stale held d c → at_place d r' c → stale (id :: held) d' c) as Hstale.
    { intros [| |i]; simpl; [done..|]. intros Hn Hi. rewrite elem_of_cons.
      intros [->|]; [by rewrite Hnone in Hi|done]. }
    destruct (di_one0 r' a b Ha Hb) as [|[[-> ?]|[-> ?]]]; [by left|right; left|right; right];
      split; eauto.
  - intros r' a [Ha|[-> ->]]%Hat; [by eapply di_issued0|]. apply di_hand_issued0. by left.
  - intros r' Hlt. destruct (di_placed0 r' Hlt) as [[->|]%elem_of_cons|[a Ha]].
    + right. exists (PImport id). apply Hat. by right.
    + by left.
    + right. exists a. apply Hat. by left.
  - intros r' Hr'. apply di_hand_issued0. by right.
  - intros r' a Hr' [Ha|[-> ->]]%Hat; [|done]. eapply di_hand_free0; [by right|done].
  - intros i st' Hi. simpl in Hi. apply lookup_insert_Some in Hi as [[<- _]|[_ Hi]]; [left; by left|].
    destruct (di_owned0 i st' Hi) as [?|?]; [left; by right|by right].
Qed.

(** A source phase import: the promise is settled, its entry stays. *)
Lemma dyn_inv_source id st v hand held mods n d :
  dyn_inv hand (id :: held) mods n d → dynamic_import_map d !! id = Some st →
  dyn_inv hand held mods n
    (set_logs (next_resolver d) (settled d ++ [(ds_resolver st, v)]) (refused d)
       (notified d) d).
Proof.
  intros Hinv Hst. destruct (dyn_inv_drop _ _ _ _ _ _ Hinv) as (D1 & D2 & D3).
  destruct Hinv. rename di_loads0 into L1, di_live0 into L2, di_one0 into L4, di_hand_free0 into L5.
  rename D1 into di_loads0, D2 into di_live0, D3 into di_one0. set (d' := set_logs _ _ _ _ d).
  assert (at_place d (ds_resolver st) (PImport id)) as Hr by (simpl; by rewrite Hst).
  assert (∀ a, at_place d (ds_resolver st) a → a = PImport id) as Honly.
  { intros a Ha. destruct (L4 _ _ _ Ha Hr) as [|[[_ Hs]|[? _]]]; [done| |done].
    by destruct Hs; left. }
  assert (∀ r' a, at_place d' r' a ↔ at_place d r' a ∨ r' = ds_resolver st ∧ a = PSettled) as Hat.
  { intros r' [|m|i]; simpl; [|naive_solver..]. rewrite fmap_app, elem_of_app. simpl.
    rewrite list_elem_of_singleton. naive_solver. }
  assert (stale held d' (PImport id)) as Hstale by by apply NoDup_cons in L1 as [? _].
  split; try done.
  - intros r a b [Ha|[-> ->]]%Hat [Hb|[Hr' ->]]%Hat; subst.
    + by apply (di_one0 r).
    + right; right. by apply Honly in Ha as ->.
    + right; left. by apply Honly in Hb as ->.
    + by left.
  - simpl. rewrite fmap_app. apply NoDup_app. split; [done|]. split; [|apply NoDup_singleton].
    simpl. intros x Hx ->%list_elem_of_singleton.
    by pose proof (Honly PSettled Hx).
  - intros r a [Ha|[-> ->]]%Hat; [by eapply di_issued0|by eapply di_issued0].
  - intros r Hlt. destruct (di_placed0 r Hlt) as [|[a Ha]]; [by left|].
    right. exists a. apply Hat. by left.
  - intros r a Hin [Ha|[-> ->]]%Hat; [by eapply L5|]. by apply (L5 _ _ Hin Hr).
  - intros i st' Hi. simpl in *. rewrite fmap_app.
    destruct (di_owned0 i st' Hi) as [[->|?]%elem_of_cons|[?|?]];
      [right; left|by left|right; left|right; by right]; apply elem_of_app; [right|by left].
    rewrite Hst in Hi. injection Hi as <-. by left.
Qed.
End places.

(** * What JavaScript may do

    While it runs, JavaScript calls [import()], registers modules through other ops, and
    V8 calls the callbacks of evaluations, each box at most once ([claim] frees it). *)

Section laws.
Context {E : Type} (V : env E) (p : profile) {J : Type} (H : host (E:=E) J).
Implicit Types (s : dstate (E:=E) J).

Definition MAX_LOADS : Z := 2 ^ 31 - 1.

Inductive js_run : dstate (E:=E) J → dstate (E:=E) J → Prop :=
  | run_done s : js_run s s
  | run_world s j' s' : js_run (mkSt j' (mm s) (dyn s) (ev s)) s' → js_run s s'
  | run_module s m' s' :
      (next_load_id (data (mm s)) <= next_load_id (data m'))%Z →
      handles (data (mm s)) `prefix_of` handles (data m') →
      js_run (mkSt (js s) m' (dyn s) (ev s)) s' → js_run s s'
  | run_import s c r s1 s' :
      (0 <= next_load_id (data (mm s)) < MAX_LOADS)%Z →
      host_import V p H c s = Ok (r, s1) → js_run s1 s' → js_run s s'
  | run_fulfilled s k b s1 s2 s3 s' :
      claim k s = Ok (b, s1) → js_run s1 s2 → send (me_sender b) EvalOk s2 = Ok (tt, s3) →
      js_run s3 s' → js_run s s'
  | run_rejected s k s1 s' : on_rejected k s = Ok (tt, s1) → js_run s1 s' → js_run s s'
  | run_wake s s1 s' : wake_module s = Ok (tt, s1) → js_run s1 s' → js_run s s'.

(** What this file asks of V8.  [failed]: the module is errored, or could not be linked
    and will not be linked by the microtasks that its rejection queues. *)
Class HostLaws := {
  enter_runs A (e : entry A) s a s' : enter H e s = Ok (a, s') → js_run s s';
  enter_faults A (e : entry A) s c : enter H e s = Err c → ∃ f, c = Fault f;
  failed : handle → J → Prop;
  failed_errored h j : (ask H (GetStatus h) j).1 = Errored →
    failed h (ask H (GetException h) (ask H (GetStatus h) j).2).2;
  failed_link h r1 r2 j e j' : ask H (Instantiate h r1 r2) j = (Some e, j') → failed h j';
  failed_settle h r v j : failed h j → failed h (ask H (Settle r v) j).2;
  failed_checkpoint h s a s' : enter H Checkpoint s = Ok (a, s') →
    failed h (js s) → failed h (js s');
  failed_status h j : failed h j → (ask H (GetStatus h) j).1 ∉ [Instantiated; Evaluated];
  promise_state_pure pr j : (ask H (PromiseStateOf pr) j).2 = j
}.

(** ** Reasoning about methods

    [f] ends with [Q], or panics elsewhere: for [dwp] it never misses an entry of
    [dynamic_import_map], for [ends] no loop of this file outlives its fuel. *)
Definition cwp (spins : bool) {A} (f : dmethod J A) s (Q : A → dstate (E:=E) J → Prop) :
    Prop :=
  match f s with
  | Ok (a, s') => Q a s'
  | Err InvalidImport => spins = true
  | Err Spins => spins = false
  | Err (Fault _) => True
  end.
Abbreviation dwp := (cwp false).
Abbreviation ends := (cwp true).

Section rules.
Context {spins : bool}.
Abbreviation dwp := (cwp spins).

Lemma dwp_bind {A B} (f : dmethod J A) (k : A → dmethod J B) s Q :
  dwp f s (λ a s', dwp (k a) s' Q) → dwp (f ≫= k) s Q.
Proof. unfold cwp, mbind, dmethod_bind. by destruct (f s) as [[a s']|[]]. Qed.

Lemma dwp_ret {A} (a : A) s (Q : A → dstate (E:=E) J → Prop) : Q a s → dwp (mret a) s Q.
Proof. done. Qed.

Lemma dwp_mono {A} (f : dmethod J A) s (Q Q' : A → dstate (E:=E) J → Prop) :
  dwp f s Q → (∀ a s', Q a s' → Q' a s') → dwp f s Q'.
Proof. unfold cwp. destruct (f s) as [[a s']|[]]; auto. Qed.

Lemma dwp_query {A} (q : query (E:=E) A) s (Q : A → dstate (E:=E) J → Prop) :
  (∀ a j', ask H q (js s) = (a, j') → Q a (mkSt j' (mm s) (dyn s) (ev s))) →
  dwp (query_host H q) s Q.
Proof. unfold cwp, query_host. destruct (ask H q (js s)). auto. Qed.

Lemma dwp_lift {A} (o : outcome A) s (Q : A → dstate (E:=E) J → Prop) :
  (∀ a, o = Ret a → Q a s) → dwp (lift_outcome o) s Q.
Proof. unfold cwp, lift_outcome. destruct o; auto. Qed.

Lemma dwp_dyn f s (Q : unit → dstate (E:=E) J → Prop) :
  Q tt (mkSt (js s) (mm s) (f (dyn s)) (ev s)) → dwp (on_dyn f) s Q.
Proof. done. Qed.

Lemma dwp_get s (Q : dyn_state (E:=E) → dstate (E:=E) J → Prop) :
  Q (dyn s) s → dwp get_dyn s Q.
Proof. done. Qed.
Lemma dwp_get_mm s (Q : ModuleMap → dstate (E:=E) J → Prop) : Q (mm s) s → dwp get_mm s Q.
Proof. done. Qed.
Lemma dwp_get_ev s (Q : eval_state → dstate (E:=E) J → Prop) : Q (ev s) s → dwp get_ev s Q.
Proof. done. Qed.
Lemma dwp_put_mm m s (Q : unit → dstate (E:=E) J → Prop) :
  Q tt (mkSt (js s) m (dyn s) (ev s)) → dwp (put_mm m) s Q.
Proof. done. Qed.
Lemma dwp_put_ev e s (Q : unit → dstate (E:=E) J → Prop) :
  Q tt (mkSt (js s) (mm s) (dyn s) e) → dwp (put_ev e) s Q.
Proof. done. Qed.

End rules.

(** ** The invariant *)

(** Every channel is in the hands of a function, of V8, or was answered, once. *)
Definition ev_ok (out : list nat) (e : eval_state) : Prop :=
  out ++ (me_sender <$> outstanding e) ++ (answers e).*1 ≡ₚ seq 0 (next_sender e).

Definition inv (hand : list nat) (held : list Z) (mods : list ModuleId) (out : list nat) s :
    Prop :=
  dyn_inv hand held mods (next_load_id (data (mm s))) (dyn s) ∧ ev_ok out (ev s).

(** What JavaScript leaves alone; the flag of the first queue stays exact. *)
Definition undisturbed s s' : Prop :=
  pending_dynamic_imports (dyn s') = pending_dynamic_imports (dyn s) ∧
  pending_dynamic_imports_pending (dyn s') = pending_dynamic_imports_pending (dyn s) ∧
  pending_dyn_mod_evaluations (dyn s') = pending_dyn_mod_evaluations (dyn s) ∧
  pending_dyn_mod_evaluations_pending (dyn s') = pending_dyn_mod_evaluations_pending (dyn s) ∧
  handles (data (mm s)) `prefix_of` handles (data (mm s')) ∧
  (preparing_dynamic_imports_pending (dyn s) = nonempty (preparing_dynamic_imports (dyn s)) →
   preparing_dynamic_imports_pending (dyn s') = nonempty (preparing_dynamic_imports (dyn s'))).

Global Instance undisturbed_preorder : PreOrder undisturbed.
Proof.
  split; [done|]. intros s1 s2 s3 (A1 & A2 & A3 & A4 & A5 & A6) (B1 & B2 & B3 & B4 & B5 & B6).
  split_and!; try congruence; [by etrans|auto].
Qed.

Lemma inv_ids hand held mods n n' (d : dyn_state (E:=E)) :
  dyn_inv hand held mods n d → (n <= n')%Z → dyn_inv hand held mods n' d.
Proof. intros [] Hn. split; try done. intros id Hid%di_ids0. lia. Qed.

Lemma dwp_settle r v hand held mods out s (Q : unit → dstate (E:=E) J → Prop) :
  inv (r :: hand) held mods out s →
  (∀ s', inv hand held mods out s' → undisturbed s s' →
     dynamic_import_map (dyn s') = dynamic_import_map (dyn s) → mm s' = mm s →
     js s' = (ask H (Settle r v) (js s)).2 → Q tt s') →
  dwp (settle_promise H r v) s Q.
Proof.
  intros [Hd He] HQ. apply dwp_bind, dwp_dyn, dwp_query. simpl. intros [] j' Hj.
  apply HQ; [|done|done|done|by rewrite Hj]. split; [|done]. by apply dyn_inv_settle.
Qed.

Lemma dwp_settle_all rs v hand held mods out s (Q : unit → dstate (E:=E) J → Prop) :
  inv (rs ++ hand) held mods out s →
  (∀ s', inv hand held mods out s' → undisturbed s s' → Q tt s') →
  dwp (settle_all H rs v) s Q.
Proof.
  revert s Q. induction rs as [|r rs IH]; intros s Q Hinv HQ; simpl.
  { apply dwp_ret, HQ; [done|done]. }
  apply dwp_bind. apply (dwp_settle r v (rs ++ hand) held mods out); [done|].
  intros s1 H1 U1 _ _ _. apply IH; [done|]. intros s2 H2 U2. apply HQ; [done|by etrans].
Qed.

(** ** [import()] *)

Lemma load_new_ids i m load m' :
  (0 <= next_load_id (data m) < MAX_LOADS)%Z → load_new V p i m = Ret (load, m') →
  load_id load = (next_load_id (data m) + 1)%Z ∧
  next_load_id (data m') = (next_load_id (data m) + 1)%Z ∧
  handles (data m') = handles (data m).
Proof.
  intros Hn Hrun. unfold load_new in Hrun. run_in Hrun. destruct a as [id d]. run_in Hrun.
  unfold fresh_load_id in Hrun0. rewrite add_s_fits in Hrun0 by (unfold MAX_LOADS in *; lia).
  simpl in Hrun0. injection Hrun0 as <- <-. done.
Qed.

Lemma dwp_evaluated_module res ty ph s
    (Q : option (ModuleId * handle) → dstate (E:=E) J → Prop) :
  (∀ x j', Q x (mkSt j' (mm s) (dyn s) (ev s))) → dwp (evaluated_module p H res ty ph) s Q.
Proof.
  intros HQ. assert (Q None s) as Hn by (destruct s; apply (HQ None)).
  unfold evaluated_module. destruct ph, res; try by apply dwp_ret.
  apply dwp_bind, dwp_get_mm, dwp_bind, dwp_lift. intros [id|] _; [|by apply dwp_ret].
  apply dwp_bind, dwp_bind, dwp_get_mm, dwp_lift. intros h _.
  apply dwp_bind, dwp_query. intros st j' _. apply dwp_ret, HQ.
Qed.

Lemma dwp_load_dynamic_import spec ref ty ph r cped hand held mods out s
    (Q : bool → dstate (E:=E) J → Prop) :
  inv (r :: hand) held mods out s → (0 <= next_load_id (data (mm s)) < MAX_LOADS)%Z →
  (∀ b s', inv hand held mods out s' → undisturbed s s' → Q b s') →
  dwp (load_dynamic_import V p H spec ref ty ph r cped) s Q.
Proof.
  intros Hinv Hn HQ. apply dwp_bind, dwp_evaluated_module. intros known j1.
  destruct known as [[id module]|].
  - apply dwp_bind, dwp_get. simpl.
    destruct (existsb _ _) eqn:Hex.
    + apply dwp_bind, dwp_dyn, dwp_ret, HQ; [|done].
      destruct Hinv as [Hd He]. split; [|done]. apply dyn_inv_wait; [done|].
      apply existsb_exists in Hex as (e & Hin & Hid%bool_decide_eq_true).
      apply elem_of_app. right. apply list_elem_of_fmap. exists e.
      by rewrite list_elem_of_In.
    + apply dwp_bind, dwp_query. intros ns j2 _. apply dwp_bind.
      apply (dwp_settle r _ hand held mods out); [done|].
      intros s' H' U' _ _ _. by apply dwp_ret, HQ.
  - apply dwp_bind, dwp_get_mm, dwp_bind, dwp_lift. intros [load m'] Hload.
    apply load_new_ids in Hload as (Hid & Hn' & Hh); [|done]. simpl in *.
    apply dwp_bind, dwp_put_mm, dwp_bind, dwp_dyn, dwp_bind, dwp_dyn, dwp_ret, HQ; simpl.
    + destruct Hinv as [Hd He]. split; [|done]. simpl. rewrite Hn', <- Hid.
      set (d1 := set_import_map _ (dyn s)).
      apply (dyn_inv_move hand (load_id load :: held) held mods mods _ d1); try done.
      * apply (dyn_inv_register r _ _ _ _ _ (next_load_id (data (mm s)))); [done|lia|done].
      * unfold live. simpl. rewrite fmap_app. simpl.
        replace (prepared_id _) with (load_id load) by by destruct (resolve V _ _ _).
        solve_Permutation.
      * destruct Hd as [? ? ? ? ? ? ? ? ? ? ? ? (? & ? & ?)]. split_and!; [done|done|done].
    + split_and!; try done; simpl; [by rewrite Hh|].
      intros _. by destruct (preparing_dynamic_imports (dyn s)).
Qed.

Lemma dwp_host_import c hand held mods out s (Q : nat → dstate (E:=E) J → Prop) :
  inv hand held mods out s → (0 <= next_load_id (data (mm s)) < MAX_LOADS)%Z →
  (∀ r s', inv hand held mods out s' → undisturbed s s' → Q r s') →
  dwp (host_import V p H c) s Q.
Proof.
  intros Hinv Hn HQ. apply dwp_bind, dwp_query. intros cped j1 _.
  apply dwp_bind, dwp_get, dwp_bind, dwp_dyn, dwp_bind, dwp_lift. intros attrs _. simpl.
  set (r := next_resolver (dyn s)). set (d1 := set_logs _ _ _ _ _).
  assert (dyn_inv (r :: hand) held mods (next_load_id (data (mm s))) d1) as H1
    by apply dyn_inv_new, Hinv.
  apply dwp_bind. apply dwp_mono with (λ _ s', inv (r :: hand) held mods out s' ∧
    undisturbed s s' ∧ mm s' = mm s).
  { destruct (validate_import_attributes_cb V attrs) as [e|].
    - apply dwp_bind, dwp_dyn, dwp_query. intros [] j2 _. split; [|done].
      split; [|apply Hinv]. simpl. eapply dyn_inv_move; [exact H1|..]; try done. apply H1.
    - apply dwp_ret. split; [|done]. split; [done|apply Hinv]. }
  intros _ s1 (Hs1 & U1 & Hm1). apply dwp_bind.
  apply (dwp_load_dynamic_import _ _ _ _ r cped hand held mods out); [done|by rewrite Hm1|].
  intros b s2 Hs2 U2. apply dwp_bind.
  apply dwp_mono with (λ _ s', inv hand held mods out s' ∧ undisturbed s s').
  { assert (undisturbed s s2) by by etrans. destruct b; [|by apply dwp_ret].
    apply dwp_dyn. split; [|done]. split; [|apply Hs2]. simpl.
    eapply dyn_inv_move; [apply Hs2|..]; try done. apply Hs2. }
  intros _ s3 [Hs3 U3]. by apply dwp_ret, HQ.
Qed.

(** ** JavaScript keeps the invariant *)

Lemma ev_ok_claim out e i b :
  ev_ok out e → outstanding e !! i = Some b →
  ev_ok (me_sender b :: out) (mkEval (pending_mod_evaluation e) (next_sender e)
    (delete i (outstanding e)) (answers e) (module_woken e)).
Proof.
  unfold ev_ok. simpl. intros <- Hi. rewrite (delete_Permutation _ _ _ Hi) at 2. simpl.
  solve_Permutation.
Qed.

Lemma ev_ok_send out k r e :
  ev_ok (k :: out) e →
  ev_ok out (mkEval (pending_mod_evaluation e) (next_sender e) (outstanding e)
    (answers e ++ [(k, r)]) (module_woken e)).
Proof. unfold ev_ok. simpl. intros <-. rewrite fmap_app. simpl. solve_Permutation. Qed.

Lemma dwp_claim k hand held mods out s (Q : ModEvaluate → dstate (E:=E) J → Prop) :
  inv hand held mods out s →
  (∀ b s', inv hand held mods (me_sender b :: out) s' → undisturbed s s' →
     js s' = js s → mm s' = mm s → Q b s') →
  dwp (claim k) s Q.
Proof.
  intros Hinv HQ. apply dwp_bind, dwp_bind, dwp_get_ev.
  destruct (list_find _ _) as [[i b]|] eqn:Hf; [|done].
  apply list_find_Some in Hf as (Hi & _ & _).
  apply dwp_bind, dwp_put_ev, dwp_ret, dwp_bind, dwp_bind, dwp_get_ev, dwp_put_ev, dwp_bind,
    dwp_bind, dwp_get_ev, dwp_put_ev, dwp_ret, HQ; try done.
  split; [apply Hinv|]. apply (ev_ok_claim out (ev s) i b); [apply Hinv|done].
Qed.

Lemma dwp_send k r hand held mods out s (Q : unit → dstate (E:=E) J → Prop) :
  inv hand held mods (k :: out) s →
  (∀ s', inv hand held mods out s' → undisturbed s s' → js s' = js s → mm s' = mm s →
     dyn s' = dyn s → Q tt s') →
  dwp (send k r) s Q.
Proof.
  intros Hinv HQ. apply dwp_bind, dwp_get_ev, dwp_put_ev, HQ; try done.
  split; [apply Hinv|]. apply ev_ok_send, Hinv.
Qed.

Lemma dwp_ok {A} (f : dmethod J A) s a s' (Q : A → dstate (E:=E) J → Prop) :
  dwp f s Q → f s = Ok (a, s') → Q a s'.
Proof. unfold cwp. intros HQ Hf. by rewrite Hf in HQ. Qed.

Lemma js_run_inv s s' :
  js_run s s' → ∀ hand held mods out, inv hand held mods out s →
  inv hand held mods out s' ∧ undisturbed s s'.
Proof.
  induction 1 as [s|s j' s' _ IH|s m' s' Hn Hh _ IH|s c r s1 s' Hn Hc _ IH
    |s k b s1 s2 s3 s' Hc _ IH1 Hs _ IH2|s k s1 s' Hk _ IH|s s1 s' Hw _ IH];
    intros hand held mods out Hinv.
  - done.
  - by apply IH.
  - destruct (IH hand held mods out) as [? U].
    + split; [eapply inv_ids; [apply Hinv|done]|apply Hinv].
    + split; [done|]. etrans; [|exact U]. done.
  - assert (inv hand held mods out s1 ∧ undisturbed s s1) as [H1 U1].
    { eapply (dwp_ok _ _ _ _ _ (dwp_host_import _ _ _ _ _ _ (λ _ s1, _ ∧ undisturbed s s1)
        Hinv Hn (λ _ _ Hi Hu, conj Hi Hu)) Hc). }
    destruct (IH _ _ _ _ H1). split; [done|by etrans].
  - assert (inv hand held mods (me_sender b :: out) s1 ∧ undisturbed s s1) as [H1 U1].
    { eapply (dwp_ok _ _ _ _ _ (dwp_claim _ _ _ _ _ _ (λ b s1,
        inv _ _ _ (me_sender b :: _) s1 ∧ undisturbed s s1) Hinv
        (λ _ _ Hi Hu _ _, conj Hi Hu)) Hc). }
    destruct (IH1 _ _ _ _ H1) as [H2 U2].
    assert (inv hand held mods out s3 ∧ undisturbed s2 s3) as [H3 U3].
    { eapply (dwp_ok _ _ _ _ _ (dwp_send _ _ _ _ _ _ _ (λ _ s3, _ ∧ undisturbed s2 s3) H2
        (λ _ Hi Hu _ _ _, conj Hi Hu)) Hs). }
    destruct (IH2 _ _ _ _ H3). split; [done|]. etrans; [exact U1|]. etrans; [exact U2|].
    by etrans.
  - assert (inv hand held mods out s1 ∧ undisturbed s s1) as [H1 U1].
    { apply (dwp_ok (on_rejected k) s tt s1 (λ _ s1, inv hand held mods out s1 ∧
        undisturbed s s1)); [|done].
      apply dwp_bind, (dwp_claim _ hand held mods out); [done|]. intros b s2 H2 U2 _ _.
      apply (dwp_send _ _ hand held mods out); [done|]. intros s3 H3 U3 _ _ _.
      split; [done|by etrans]. }
    destruct (IH _ _ _ _ H1). split; [done|by etrans].
  - injection Hw as <-. by apply IH.
Qed.

(** ** Settling *)

Context {LH : HostLaws}.

Lemma dwp_js {A} (e : entry A) hand held mods out s (Q : A → dstate (E:=E) J → Prop) :
  inv hand held mods out s →
  (∀ a s', enter H e s = Ok (a, s') → inv hand held mods out s' → undisturbed s s' → Q a s') →
  dwp (run_js H e) s Q.
Proof.
  intros Hinv HQ. unfold cwp, run_js. destruct (enter H e s) as [[a s']|c] eqn:He.
  - destruct (js_run_inv _ _ (enter_runs _ _ _ _ _ He) _ _ _ _ Hinv). by apply HQ.
  - by destruct (enter_faults _ _ _ _ He) as [f ->].
Qed.

Lemma dwp_take_import id hand held mods out s (Q : nat → dstate (E:=E) J → Prop) :
  inv hand (id :: held) mods out s →
  (∀ r s', inv (r :: hand) held mods out s' → undisturbed s s' → js s' = js s → mm s' = mm s →
     Q r s') →
  dwp (take_import id) s Q.
Proof.
  intros [Hd He] HQ. apply dwp_bind, dwp_get.
  destruct (di_live _ _ _ _ _ Hd id) as [st Hst]; [by left|]. rewrite Hst.
  apply dwp_bind, dwp_dyn, dwp_ret, HQ; try done. split; [|done]. by apply dyn_inv_take.
Qed.

(** A module that failed stays so while its import is rejected. *)
Lemma dwp_dynamic_import_reject id e hand held mods out s
    (Q : unit → dstate (E:=E) J → Prop) :
  inv hand (id :: held) mods out s →
  (∀ s', inv hand held mods out s' → undisturbed s s' →
     (∀ h, failed h (js s) → failed h (js s')) → Q tt s') →
  dwp (dynamic_import_reject H id e) s Q.
Proof.
  intros Hinv HQ. apply dwp_bind, (dwp_take_import _ hand held mods out); [done|].
  intros r s1 H1 U1 J1 _. apply dwp_bind, (dwp_settle _ _ hand held mods out); [done|].
  intros s2 H2 U2 _ _ J2. apply (dwp_js _ hand held mods out); [done|].
  intros [] s3 He H3 U3. apply HQ; [done|etrans; [exact U1|by etrans]|].
  intros h Hh. eapply failed_checkpoint; [done|]. rewrite J2, J1. by apply failed_settle.
Qed.

Lemma dwp_handle_of id s (Q : handle → dstate (E:=E) J → Prop) :
  (∀ h, handles (data (mm s)) !! id = Some h → Q h s) → dwp (handle_of id) s Q.
Proof.
  intros HQ. apply dwp_bind, dwp_get_mm, dwp_lift. intros h Hh%unwrap_Ret_inv. by apply HQ.
Qed.

Lemma undisturbed_handle s s' id h :
  undisturbed s s' → handles (data (mm s)) !! id = Some h →
  handles (data (mm s')) !! id = Some h.
Proof. intros (_ & _ & _ & _ & Hp & _) Hh. by eapply prefix_lookup_Some. Qed.

Lemma dwp_dynamic_import_resolve id mod_id hand held mods out s
    (Q : unit → dstate (E:=E) J → Prop) :
  inv hand (id :: held) mods out s →
  (∀ s', inv hand held mods out s' → undisturbed s s' →
     is_Some (handles (data (mm s')) !! mod_id) → Q tt s') →
  dwp (dynamic_import_resolve H id mod_id) s Q.
Proof.
  intros Hinv HQ. apply dwp_bind, (dwp_take_import _ hand held mods out); [done|].
  intros r s1 H1 U1 _ _. apply dwp_bind, dwp_handle_of. intros h Hh.
  apply dwp_bind, dwp_query. intros st j2 _. apply dwp_bind, dwp_lift. intros _ _.
  apply dwp_bind, dwp_query. intros ns j3 _. simpl.
  apply dwp_bind, (dwp_settle _ _ hand held mods out); [done|].
  intros s4 H4 U4 _ M4 _. apply dwp_bind, dwp_dyn.
  apply (dwp_js _ hand held mods out).
  { split; [|apply H4]. simpl. eapply dyn_inv_move; [apply H4|..]; try done. apply H4. }
  intros [] s5 _ H5 U5. apply HQ; [done| |].
  - etrans; [exact U1|]. etrans; [|exact U5]. done.
  - exists h. eapply (undisturbed_handle s4); [exact U5|]. by rewrite M4.
Qed.

(** After an evaluation ended, no one waits for its module. *)
Lemma dyn_inv_done m hand held mods n (d : dyn_state (E:=E)) :
  dyn_inv hand held (m :: mods) n d → pending_tla_waiters d !! m = None →
  dyn_inv hand held mods n d.
Proof.
  intros [] Hm. split; try done. intros m' Hm'. specialize (di_waits_for0 m' Hm').
  apply elem_of_cons in di_waits_for0 as [->|]; [|done]. rewrite Hm in Hm'. by destruct Hm'.
Qed.

Lemma dwp_take_waiters m hand held mods out s
    (Q : option (list nat) → dstate (E:=E) J → Prop) :
  inv hand held (m :: mods) out s →
  (∀ o s', inv (default [] o ++ hand) held mods out s' → undisturbed s s' → mm s' = mm s →
     Q o s') →
  dwp (take_waiters m) s Q.
Proof.
  intros [Hd He] HQ. apply dwp_bind, dwp_get, dwp_bind, dwp_dyn, dwp_ret, HQ; try done.
  split; [|done]. apply dyn_inv_done with m; [by apply dyn_inv_take_waiters|].
  simpl. apply lookup_delete_eq.
Qed.

Lemma dwp_resolve_tla_waiters m hand held mods out s (Q : unit → dstate (E:=E) J → Prop) :
  inv hand held (m :: mods) out s → is_Some (handles (data (mm s)) !! m) →
  (∀ s', inv hand held mods out s' → undisturbed s s' → Q tt s') →
  dwp (resolve_tla_waiters H m) s Q.
Proof.
  intros Hinv [h Hh] HQ. apply dwp_bind, (dwp_take_waiters _ hand held mods out); [done|].
  intros o s1 H1 U1 M1. apply dwp_bind, dwp_get_mm.
  rewrite <- M1 in Hh. unfold get_handle. rewrite Hh.
  destruct o as [ws|]; [|by apply dwp_ret, HQ].
  apply dwp_bind, dwp_query. intros ns j2 _.
  apply dwp_bind, (dwp_settle_all _ _ hand held mods out); [done|].
  intros s3 H3 U3. apply (dwp_js _ hand held mods out); [done|]. intros [] s4 _ H4 U4.
  apply HQ; [done|]. etrans; [exact U1|]. etrans; [|exact U4]. done.
Qed.

Lemma dwp_reject_tla_waiters m e hand held mods out s (Q : unit → dstate (E:=E) J → Prop) :
  inv hand held (m :: mods) out s →
  (∀ s', inv hand held mods out s' → undisturbed s s' → Q tt s') →
  dwp (reject_tla_waiters H m e) s Q.
Proof.
  intros Hinv HQ. apply dwp_bind, (dwp_take_waiters _ hand held mods out); [done|].
  intros o s1 H1 U1 M1. destruct o as [ws|]; [|by apply dwp_ret, HQ].
  apply dwp_bind, (dwp_settle_all _ _ hand held mods out); [done|].
  intros s3 H3 U3. apply (dwp_js _ hand held mods out); [done|]. intros [] s4 _ H4 U4.
  apply HQ; [done|]. etrans; [exact U1|]. by etrans.
Qed.

(** ** Evaluations *)

Lemma dyn_inv_push_eval e hand held mods n (d : dyn_state (E:=E)) :
  dyn_inv hand (dm_load_id e :: held) mods n d →
  dyn_inv hand held mods n (set_evals (pending_dyn_mod_evaluations d ++ [e]) true d).
Proof.
  intros Hd. eapply dyn_inv_move; [exact Hd|..]; try done.
  - unfold live. simpl. rewrite fmap_app. simpl. solve_Permutation.
  - unfold eval_modules. simpl. rewrite fmap_app. set_solver.
  - destruct (di_flags _ _ _ _ _ Hd) as (? & ? & ?). by split_and!.
Qed.

(** What only touches the first queue and the loads that run. *)
Definition undisturbed_loads s s' : Prop :=
  pending_dynamic_imports (dyn s') = pending_dynamic_imports (dyn s) ∧
  pending_dynamic_imports_pending (dyn s') = pending_dynamic_imports_pending (dyn s) ∧
  handles (data (mm s)) `prefix_of` handles (data (mm s')) ∧
  (preparing_dynamic_imports_pending (dyn s) = nonempty (preparing_dynamic_imports (dyn s)) →
   preparing_dynamic_imports_pending (dyn s') = nonempty (preparing_dynamic_imports (dyn s'))).

Lemma dwp_instantiate id hand held mods out s
    (Q : result unit js_global → dstate (E:=E) J → Prop) :
  inv hand held mods out s →
  (∀ r j' h, handles (data (mm s)) !! id = Some h →
     (∀ e, r = Err e → failed h j') → Q r (mkSt j' (mm s) (dyn s) (ev s))) →
  dwp (instantiate_module V p H id) s Q.
Proof.
  intros Hinv HQ. apply dwp_bind, dwp_handle_of. intros h Hh.
  apply dwp_bind, dwp_query. intros st j1 Hj1. case_decide as Hst.
  - apply dwp_bind, dwp_query. intros e j2 Hj2. apply dwp_ret, (HQ _ _ h); [done|].
    intros _ _. simpl in Hj2. pose proof (failed_errored h (js s)) as Hf.
    rewrite Hj1 in Hf. simpl in Hf. rewrite Hj2 in Hf. by apply Hf.
  - apply dwp_bind, dwp_query. intros st2 j2 Hj2. case_decide; [by apply dwp_ret, (HQ _ _ h)|].
    apply dwp_bind, dwp_get_mm, dwp_bind, dwp_query. intros r j3 Hj3.
    apply dwp_ret. destruct r as [e|]; apply (HQ _ _ h); try done.
    intros _ _. by eapply failed_link.
Qed.

Lemma dwp_evaluate id import_id st hand held mods out s
    (Q : result unit unit → dstate (E:=E) J → Prop) :
  inv hand (import_id :: held) mods out s →
  (∀ r s', inv hand held mods out s' → undisturbed_loads s s' → Q r s') →
  dwp (dynamic_import_module_evaluate p H id import_id st) s Q.
Proof.
  intros Hinv HQ.
  assert (∀ r why s', inv hand (import_id :: held) mods out s' → undisturbed s s' →
    dwp (_ ← abandon import_id why; mret r) s' Q) as Hover.
  { intros r why s' [Hd He] (U1 & U2 & _ & _ & U3 & U4). apply dwp_bind, dwp_dyn, dwp_ret, HQ; [|done].
    split; [by eapply dyn_inv_abandon|done]. }
  apply dwp_bind, dwp_handle_of. intros h Hh. apply dwp_bind, dwp_query. intros st1 j1 _.
  assert (∀ why, dwp (_ ← abandon import_id why; mret (Ok tt)) (mkSt j1 (mm s) (dyn s) (ev s)) Q)
    by (intros why; by apply Hover).
  assert (dwp (_ ← query_host H (SetCped (ds_cped st));
    maybe_value ← run_js H (Evaluate h);
    status ← query_host H (GetStatus h);
    match maybe_value with
    | Some value =>
        _ ← lift_outcome (debug_assert p
              (bool_decide (status = Evaluated ∨ status = Errored)));
        _ ← query_host H (WatchEvaluation value);
        _ ← on_dyn (λ d, set_evals (pending_dyn_mod_evaluations d
               ++ [mkDynEval import_id id value h]) true d);
        mret (Ok tt)
    | None =>
        terminating ← query_host H IsTerminating;
        if (terminating : bool) then _ ← abandon import_id Terminated; mret (Err tt)
        else
          _ ← lift_outcome (assert (bool_decide (status = Errored)));
          _ ← abandon import_id Threw;
          mret (Ok tt)
    end) (mkSt j1 (mm s) (dyn s) (ev s)) Q); [|by destruct st1].
  apply dwp_bind, dwp_query. intros [] j2 _.
  apply dwp_bind, (dwp_js _ hand (import_id :: held) mods out); [done|].
  intros v s3 _ H3 U3. apply dwp_bind, dwp_query. intros st4 j4 _.
  destruct v as [v|].
  - apply dwp_bind, dwp_lift. intros _ _. apply dwp_bind, dwp_query. intros [] j5 _.
    apply dwp_bind, dwp_dyn, dwp_ret, HQ.
    + split; [|apply H3]. simpl. by apply dyn_inv_push_eval, H3.
    + destruct U3 as (U1 & U2 & _ & _ & U3 & U4). done.
  - apply dwp_bind, dwp_query. intros [|] j5 _; [by apply Hover|].
    apply dwp_bind, dwp_lift. intros _ _. by apply Hover.
Qed.

(** The module of a rejected import is not evaluated. *)
Lemma dwp_evaluate_failed id import_id st h s (Q : result unit unit → dstate (E:=E) J → Prop) :
  handles (data (mm s)) !! id = Some h → failed h (js s) →
  (∀ j' why, Q (Ok tt) (mkSt j' (mm s) (set_abandoned (abandoned (dyn s) ++ [(import_id, why)]) (dyn s)) (ev s))) →
  dwp (dynamic_import_module_evaluate p H id import_id st) s Q.
Proof.
  intros Hh Hf HQ. apply dwp_bind, dwp_handle_of. intros h' Hh'.
  assert (h' = h) as -> by congruence. apply dwp_bind, dwp_query. intros st1 j1 Hj.
  apply failed_status in Hf. rewrite Hj in Hf. simpl in Hf.
  destruct st1; try (apply dwp_bind, dwp_dyn, dwp_ret, HQ); destruct Hf; set_solver.
Qed.

(** ** Bags of futures *)

Lemma poll_bag_keys {F A O K : Type} (key : F → K) (okey : O → K)
    (poll1 : A → F → outcome (option O * F)) choices bag r bag' :
  (∀ a f r f', poll1 a f = Ret (r, f') → key f' = key f ∧ ∀ o, r = Some o → okey o = key f) →
  poll_bag poll1 choices bag = Ret (r, bag') →
  match r with
  | Some o => key <$> bag ≡ₚ okey o :: (key <$> bag')
  | None => key <$> bag ≡ₚ key <$> bag'
  end.
Proof.
  intros Hpoll. revert bag. induction choices as [|[i a] choices IH]; intros bag Hrun;
    simpl in Hrun; [by injection Hrun as <- <-|].
  destruct (bag !! i) as [f|] eqn:Hi; [|by apply IH].
  run_in Hrun. destruct a0 as [r1 f1]. destruct (Hpoll _ _ _ _ Hrun0) as [Hkey Hout].
  destruct r1 as [o|].
  - injection Hrun as <- <-. rewrite (Hout o eq_refl).
    rewrite (delete_Permutation bag i f) at 1 by done. done.
  - apply IH in Hrun. replace (key <$> bag) with (key <$> <[i:=f1]> bag); [done|].
    rewrite list_fmap_insert, list_insert_id; [done|]. by rewrite list_lookup_fmap, Hi, Hkey.
Qed.

Lemma poll_prepare_key a f r f' :
  poll_prepare V a f = Ret (r, f') →
  prepared_id f' = prepared_id f ∧
  ∀ o, r = Some o → o.1 = prepared_id f ∧ ∀ load, o.2 = Ok load → load_id load = o.1.
Proof.
  assert (∀ load, load_id (prepare V load).2 = load_id load) as Hp.
  { intros load. unfold prepare. destruct (init load); try done.
    by destruct (resolve V _ _ _). }
  destruct f as [load|load e]; simpl.
  - specialize (Hp load). destruct (prepare V load) as [[x|e] load'].
    + intros [= <- <-]. split; [done|]. intros o. destruct a as [[[]|]|]; intros [= <-]; simpl;
        (split; [done|]); by intros ? [= <-].
    + intros [= <- <-]. split; [done|]. by intros o [= <-].
  - intros [= <- <-]. split; [done|]. by intros o [= <-].
Qed.

Lemma poll_load_key d a f r f' :
  poll_load V p d a f = Ret (r, f') →
  load_id f' = load_id f ∧ ∀ o, r = Some o → load_id o.2 = load_id f.
Proof.
  intros Hrun. unfold poll_load in Hrun. run_in Hrun. destruct a0 as [r0 L0].
  apply poll_next_load_id in Hrun0. injection Hrun as <- <-. split; [done|].
  intros o. destruct r0; by intros [= <-].
Qed.

(** ** [poll_prepare_dyn_imports] *)

Definition exact_preparing s : Prop :=
  preparing_dynamic_imports_pending (dyn s) = nonempty (preparing_dynamic_imports (dyn s)).
Definition exact_loads s : Prop :=
  pending_dynamic_imports_pending (dyn s) = nonempty (pending_dynamic_imports (dyn s)).
Definition exact_evals s : Prop :=
  pending_dyn_mod_evaluations_pending (dyn s) = nonempty (pending_dyn_mod_evaluations (dyn s)).

Lemma poll_bag_out {F A O : Type} (P : O → Prop) (poll1 : A → F → outcome (option O * F))
    choices bag o bag' :
  (∀ a f f' o, poll1 a f = Ret (Some o, f') → P o) →
  poll_bag poll1 choices bag = Ret (Some o, bag') → P o.
Proof.
  intros Hpoll. revert bag. induction choices as [|[i a] choices IH]; intros bag Hrun;
    simpl in Hrun; [done|].
  destruct (bag !! i) as [f|] eqn:Hi; [|by eapply IH].
  run_in Hrun. destruct a0 as [[o1|] f1]; [|by eapply IH].
  injection Hrun as <- <-. by eapply Hpoll.
Qed.

Lemma dyn_inv_preparing held mods n bag b (d : dyn_state (E:=E)) :
  dyn_inv [] [] mods n d →
  prepared_id <$> preparing_dynamic_imports d ≡ₚ held ++ (prepared_id <$> bag) →
  (bag ≠ [] → preparing_dynamic_imports_pending d = true → b = true) →
  dyn_inv [] held mods n (set_preparing bag b d).
Proof.
  intros Hd Hp Hb. eapply dyn_inv_move; [exact Hd|..]; try done.
  - unfold live. simpl. rewrite Hp. solve_Permutation.
  - destruct (di_flags _ _ _ _ _ Hd) as (Hf & ? & ?). split; [|done]. simpl. intros Hne.
    apply Hb; [done|]. apply Hf. intros Hnil. rewrite Hnil in Hp.
    apply Permutation_nil, app_eq_nil in Hp as [_ Hp]. by apply fmap_nil_inv in Hp.
Qed.

Lemma dyn_inv_loads held mods n bag b (d : dyn_state (E:=E)) :
  dyn_inv [] [] mods n d →
  load_id <$> pending_dynamic_imports d ≡ₚ held ++ (load_id <$> bag) →
  (bag ≠ [] → pending_dynamic_imports_pending d = true → b = true) →
  dyn_inv [] held mods n (set_loads bag b d).
Proof.
  intros Hd Hp Hb. eapply dyn_inv_move; [exact Hd|..]; try done.
  - unfold live. simpl. rewrite Hp. solve_Permutation.
  - destruct (di_flags _ _ _ _ _ Hd) as (? & Hf & ?). split; [done|]. split; [|done].
    simpl. intros Hne. apply Hb; [done|]. apply Hf. intros Hnil. rewrite Hnil in Hp.
    apply Permutation_nil, app_eq_nil in Hp as [_ Hp]. by apply fmap_nil_inv in Hp.
Qed.

Lemma dyn_inv_push_load load mods n (d : dyn_state (E:=E)) :
  dyn_inv [] [load_id load] mods n d →
  dyn_inv [] [] mods n (set_loads (pending_dynamic_imports d ++ [load]) true d).
Proof.
  intros Hd. eapply dyn_inv_move; [exact Hd|..]; try done.
  - unfold live. simpl. rewrite fmap_app. simpl. solve_Permutation.
  - destruct (di_flags _ _ _ _ _ Hd) as (? & ? & ?). by split_and!.
Qed.

Lemma dwp_prepare_loop fuel mods out s (Q : unit → dstate (E:=E) J → Prop) :
  inv [] [] mods out s →
  (∀ s', inv [] [] mods out s' → exact_preparing s' → Q tt s') →
  dwp (poll_prepare_dyn_imports_loop V H fuel) s Q.
Proof.
  revert s Q. induction fuel as [|fuel IH]; intros s Q [Hd He] HQ; [done|].
  apply dwp_bind, dwp_get, dwp_bind, dwp_query. intros choices j1 _.
  apply dwp_bind, dwp_lift. intros [r bag] Hbag.
  pose proof (poll_bag_keys prepared_id fst _ _ _ _ _ (λ a f r f' Hf,
    let Hk := poll_prepare_key a f r f' Hf in
    conj (proj1 Hk) (λ o Ho, proj1 (proj2 Hk o Ho))) Hbag) as Hperm.
  apply dwp_bind, dwp_dyn. simpl.
  destruct r as [[id [load|e]]|]; simpl in Hperm.
  - assert (load_id load = id) as Hid.
    { refine (poll_bag_out (λ o, ∀ load, o.2 = Ok load → load_id load = o.1) _ _ _ _ _ _
        Hbag load eq_refl). intros a f f' o Hf. by apply (poll_prepare_key a f _ f' Hf). }
    apply dwp_bind, dwp_dyn, IH; simpl; [|done]. split; [|done].
    apply (dyn_inv_push_load load mods _ (set_preparing bag _ (dyn s))).
    rewrite Hid. by apply dyn_inv_preparing.
  - apply dwp_bind, dwp_bind, dwp_query. intros exn j2 _.
    apply (dwp_dynamic_import_reject _ _ [] [] mods out).
    { split; [|done]. simpl. by apply dyn_inv_preparing. }
    intros s2 H2 U2 _. by apply IH.
  - apply dwp_dyn, HQ; [|done]. split; [|done]. simpl.
    apply (dyn_inv_preparing [] mods _ bag (nonempty bag) (dyn s)); [done|done|intros ?; by destruct bag].
Qed.

Lemma dwp_poll_prepare fuel mods out s (Q : unit → dstate (E:=E) J → Prop) :
  inv [] [] mods out s →
  (∀ s', inv [] [] mods out s' → exact_preparing s' → Q tt s') →
  dwp (poll_prepare_dyn_imports V H fuel) s Q.
Proof.
  intros Hinv HQ. apply dwp_bind, dwp_get.
  destruct (preparing_dynamic_imports_pending (dyn s)) eqn:Hf; simpl.
  - by apply (dwp_prepare_loop _ mods out).
  - apply dwp_ret, HQ; [done|]. unfold exact_preparing. rewrite Hf.
    destruct (di_flags _ _ _ _ _ (proj1 Hinv)) as (Hn & _). rewrite Hf in Hn.
    destruct (preparing_dynamic_imports (dyn s)); [done|]. by specialize (Hn ltac:(done)).
Qed.

(** ** [poll_dyn_imports] *)

(** Steps that keep the invariant and the first flag. *)
Definition tracks mods out s s' : Prop :=
  inv [] [] mods out s' ∧ (exact_preparing s → exact_preparing s').

Lemma undisturbed_exact s s' : undisturbed s s' → exact_preparing s → exact_preparing s'.
Proof. intros (_ & _ & _ & _ & _ & Hx). done. Qed.

Lemma dwp_load_progress load request source mods out s :
  inv [] [load_id load] mods out s →
  dwp (load_progress V p H load request source) s (λ _ s', tracks mods out s s').
Proof.
  intros [Hd He]. apply dwp_bind, dwp_get_mm, dwp_bind, dwp_lift. intros [r m'] Hreg.
  apply register_keeps_ids in Hreg as [Hn Hid].
  apply dwp_bind, dwp_put_mm. destruct r as [load'|err].
  - apply dwp_dyn. split; [|done]. split; [|done]. simpl. rewrite Hn.
    apply dyn_inv_push_load. by rewrite (Hid load' eq_refl).
  - apply dwp_bind. apply dwp_mono with (λ _ s', ∃ j', s' = mkSt j' m' (dyn s) (ev s)).
    { destruct err; try (apply dwp_query; eauto). apply dwp_ret. eauto. }
    intros exn s1 [j1 ->]. apply (dwp_dynamic_import_reject _ _ [] [] mods out).
    { split; [|done]. simpl. by rewrite Hn. }
    intros s2 H2 U2 _. split; [done|]. apply (undisturbed_exact _ _ U2).
Qed.

Lemma dwp_load_done load mods out s :
  inv [] [load_id load] mods out s →
  dwp (load_done V p H load) s (λ _ s', tracks mods out s s').
Proof.
  intros Hinv. apply dwp_bind, dwp_get.
  destruct (di_live _ _ _ _ _ (proj1 Hinv) (load_id load)) as [st Hst]; [by left|].
  rewrite Hst. apply dwp_bind, dwp_ret.
  assert (dwp (module_id ← lift_outcome (unwrap (root_module_id load));
      r ← instantiate_module V p H module_id;
      _ ← match r with
          | Err exception => dynamic_import_reject H (load_id load) exception
          | Ok _ => mret tt
          end;
      dynamic_import_module_evaluate p H module_id (load_id load) st) s
    (λ _ s', tracks mods out s s')) as Heval.
  { apply dwp_bind, dwp_lift. intros id _.
    apply dwp_bind, (dwp_instantiate _ [] [load_id load] mods out); [done|].
    intros r j1 h Hh Hf. apply dwp_bind. destruct r as [[]|exn].
    - apply dwp_ret, (dwp_evaluate _ _ _ [] [] mods out); [done|].
      intros r s2 H2 (_ & _ & _ & Hx). done.
    - apply (dwp_dynamic_import_reject _ _ [] [] mods out); [done|].
      intros s2 H2 U2 F2. eapply (dwp_evaluate_failed _ _ _ h).
      + by eapply undisturbed_handle.
      + by eapply F2, Hf.
      + intros j3 why. split; [|apply (undisturbed_exact _ _ U2)]. split; [|apply H2]. simpl.
        apply dyn_inv_abandoned, H2. }
  destruct (ds_phase st); try exact Heval.
  apply dwp_bind, dwp_lift. intros ref _. apply dwp_bind, dwp_get_mm, dwp_bind, dwp_lift.
  intros src _. apply dwp_bind, dwp_bind, dwp_dyn, dwp_query. intros [] j1 _.
  apply dwp_ret. split; [|done]. split; [|apply Hinv]. simpl.
  by eapply dyn_inv_source; [apply Hinv|].
Qed.

Lemma dwp_load_step x load mods out s :
  inv [] [load_id load] mods out s →
  dwp (load_step V p H x load) s (λ _ s', tracks mods out s s').
Proof.
  intros Hinv. destruct x as [[[request info]|err]|]; simpl.
  - apply dwp_bind. eapply dwp_mono; [by apply dwp_load_progress|]. by intros [] s'.
  - apply dwp_bind, dwp_query. intros exn j1 _.
    apply dwp_bind, (dwp_dynamic_import_reject _ _ [] [] mods out); [done|].
    intros s2 H2 U2 _. apply dwp_ret. split; [done|]. apply (undisturbed_exact _ _ U2).
  - by apply dwp_load_done.
Qed.

Lemma dwp_dyn_loop fuel mods out s (Q : result unit unit → dstate (E:=E) J → Prop) :
  inv [] [] mods out s →
  (∀ r s', tracks mods out s s' → (r = Ok tt → exact_loads s') → Q r s') →
  dwp (poll_dyn_imports_loop V p H fuel) s Q.
Proof.
  revert s Q. induction fuel as [|fuel IH]; intros s Q [Hd He] HQ; [done|].
  apply dwp_bind, dwp_get, dwp_bind, dwp_get_mm, dwp_bind, dwp_query. intros choices j1 _.
  apply dwp_bind, dwp_lift. intros [r bag] Hbag.
  pose proof (poll_bag_keys load_id (load_id ∘ snd) _ _ _ _ _
    (poll_load_key (data (mm s))) Hbag) as Hperm.
  apply dwp_bind, dwp_dyn. destruct r as [[x load]|]; simpl in Hperm.
  - apply dwp_bind. eapply dwp_mono.
    + apply (dwp_load_step _ _ mods out). split; [|done]. simpl. by apply dyn_inv_loads.
    + intros r s2 [H2 X2]. destruct r as [[]|e].
      * apply IH; [done|]. intros r s3 [H3 X3] Hx. apply HQ; [|done]. split; [done|auto].
      * by apply dwp_ret, HQ.
  - apply dwp_bind, dwp_dyn, dwp_ret, HQ; [|done]. split; [|done]. split; [|done]. simpl.
    apply (dyn_inv_loads [] mods _ bag (nonempty bag) (dyn s)); [done|done|].
    intros ?. by destruct bag.
Qed.

Lemma dwp_poll_dyn fuel mods out s (Q : result unit unit → dstate (E:=E) J → Prop) :
  inv [] [] mods out s →
  (∀ r s', tracks mods out s s' → (r = Ok tt → exact_loads s') → Q r s') →
  dwp (poll_dyn_imports V p H fuel) s Q.
Proof.
  intros Hinv HQ. apply dwp_bind, dwp_get.
  destruct (pending_dynamic_imports_pending (dyn s)) eqn:Hf; simpl.
  - by apply (dwp_dyn_loop _ mods out).
  - apply dwp_ret, HQ; [by split|]. intros _. unfold exact_loads. rewrite Hf.
    destruct (di_flags _ _ _ _ _ (proj1 Hinv)) as (_ & Hn & _). rewrite Hf in Hn.
    destruct (pending_dynamic_imports (dyn s)); [done|]. by specialize (Hn ltac:(done)).
Qed.

Lemma drop_ready_data choices m : data (drop_ready choices m) = data m.
Proof. revert m. induction choices as [|i choices IH]; intros m; simpl; [done|]. by rewrite IH. Qed.

Lemma dwp_code_cache s (Q : unit → dstate (E:=E) J → Prop) :
  (∀ m' j', data m' = data (mm s) → Q tt (mkSt j' m' (dyn s) (ev s))) →
  dwp (poll_code_cache_ready H) s Q.
Proof.
  intros HQ. apply dwp_bind, dwp_get_mm. destruct (pending_code_cache_ready (mm s)); simpl.
  - apply dwp_bind, dwp_query. intros choices j1 _. apply dwp_put_mm, HQ, drop_ready_data.
  - apply dwp_ret. destruct s. by apply HQ.
Qed.

(** ** [evaluate_dyn_imports] *)

Definition settled_none (still : list DynImportModEvaluate) s : Prop :=
  ∀ e, e ∈ still → (ask H (PromiseStateOf (dm_promise e)) (js s)).1 = PPending.

Lemma dyn_inv_reheld hand held held' mods mods' n (d : dyn_state (E:=E)) :
  dyn_inv hand held mods n d → held ≡ₚ held' → mods ⊆ mods' → dyn_inv hand held' mods' n d.
Proof.
  intros Hd Hp Hm. eapply dyn_inv_move; [exact Hd|..]; try done.
  - by rewrite Hp.
  - set_solver.
  - apply Hd.
Qed.

(** The loop: [still] are evaluations that were found pending. *)
Lemma dwp_evaluate_pending pending still b out s :
  inv [] (dm_load_id <$> pending ++ still) (dm_module_id <$> pending ++ still) out s →
  dwp (evaluate_pending H pending still b) s (λ x s',
    inv [] (dm_load_id <$> x.1) (dm_module_id <$> x.1) out s' ∧ undisturbed s s' ∧
    (x.2 = false → b = false ∧ s' = s ∧ x.1 = still ++ pending ∧ settled_none pending s)).
Proof.
  revert still b s. induction pending as [|e pending IH]; intros still b s Hinv; simpl.
  { apply dwp_ret. split; [done|]. split; [done|]. simpl. intros ->. rewrite app_nil_r.
    split_and!; try done. by intros e ?%elem_of_nil. }
  apply dwp_bind, dwp_query. intros st j1 Hj.
  pose proof (promise_state_pure (dm_promise e) (js s)) as Hpure.
  rewrite Hj in Hpure. simpl in Hpure. subst j1.
  replace (mkSt (js s) (mm s) (dyn s) (ev s)) with s by by destruct s.
  simpl in Hinv. destruct st as [| |exn].
  - eapply dwp_mono; [apply IH|].
    { destruct Hinv as [Hd He]. split; [|done]. eapply dyn_inv_reheld; [exact Hd| |].
      - rewrite !fmap_app. simpl. solve_Permutation.
      - set_solver. }
    intros [x b'] s' (Hx & U & Hb). split; [done|]. split; [done|]. simpl in *.
    intros ->. destruct (Hb eq_refl) as (-> & -> & -> & Hs). split_and!; try done.
    + by rewrite <- app_assoc.
    + intros e' [->|He']%elem_of_cons; [by rewrite Hj|by apply Hs].
  - apply dwp_bind, (dwp_dynamic_import_resolve _ _ [] (dm_load_id <$> pending ++ still)
      (dm_module_id e :: (dm_module_id <$> pending ++ still)) out); [done|].
    intros s1 H1 U1 Hh. apply dwp_bind, (dwp_resolve_tla_waiters _ []
      (dm_load_id <$> pending ++ still) (dm_module_id <$> pending ++ still) out); [done|done|].
    intros s2 H2 U2. eapply dwp_mono; [by apply IH|]. intros [x b'] s' (Hx & U & Hb).
    split; [done|]. split; [etrans; [exact U1|]; by etrans|]. simpl in *.
    intros ->. by destruct (Hb eq_refl).
  - apply dwp_bind, (dwp_dynamic_import_reject _ _ [] (dm_load_id <$> pending ++ still)
      (dm_module_id e :: (dm_module_id <$> pending ++ still)) out); [done|].
    intros s1 H1 U1 _. apply dwp_bind, (dwp_reject_tla_waiters _ _ []
      (dm_load_id <$> pending ++ still) (dm_module_id <$> pending ++ still) out); [done|].
    intros s2 H2 U2. eapply dwp_mono; [by apply IH|]. intros [x b'] s' (Hx & U & Hb).
    split; [done|]. split; [etrans; [exact U1|]; by etrans|]. simpl in *.
    intros ->. by destruct (Hb eq_refl).
Qed.

Lemma dwp_evaluate_dyn_imports out s (Q : bool → dstate (E:=E) J → Prop) :
  inv [] [] [] out s →
  (∀ b s', inv [] [] [] out s' → (exact_preparing s → exact_preparing s') →
     (exact_loads s → exact_loads s') → exact_evals s' →
     (b = false → settled_none (pending_dyn_mod_evaluations (dyn s')) s') → Q b s') →
  dwp (evaluate_dyn_imports H) s Q.
Proof.
  intros [Hd He] HQ. apply dwp_bind, dwp_get.
  destruct (pending_dyn_mod_evaluations_pending (dyn s)) eqn:Hf; simpl.
  - apply dwp_bind, dwp_dyn, dwp_bind. eapply dwp_mono.
    + apply dwp_evaluate_pending with (out := out). rewrite app_nil_r. split; [|done]. simpl.
      eapply dyn_inv_move; [exact Hd|..]; try done.
      * unfold live. simpl. solve_Permutation.
      * unfold eval_modules. simpl. set_solver.
      * by destruct (di_flags _ _ _ _ _ Hd) as (? & ? & ?).
    + intros [still b] s1 ([Hd1 He1] & U & Hb). simpl in *.
      destruct U as (L1 & L2 & L3 & L4 & _ & X). simpl in *.
      apply dwp_bind, dwp_dyn, dwp_ret, HQ; try done.
      * split; [|done]. simpl. eapply dyn_inv_move; [exact Hd1|..]; try done.
        -- unfold live. simpl. rewrite L3. simpl. solve_Permutation.
        -- unfold eval_modules. simpl. rewrite L3. simpl. set_solver.
        -- destruct (di_flags _ _ _ _ _ Hd1) as (? & ? & ?). split_and!; try done.
           simpl. by destruct still.
      * unfold exact_loads. simpl. by rewrite L1, L2.
      * intros ->. destruct (Hb eq_refl) as (_ & -> & -> & Hs). done.
  - apply dwp_ret.
    assert (pending_dyn_mod_evaluations (dyn s) = []) as Hnil.
    { destruct (di_flags _ _ _ _ _ Hd) as (_ & _ & Hn). rewrite Hf in Hn.
      destruct (pending_dyn_mod_evaluations (dyn s)); [done|]. by specialize (Hn ltac:(done)). }
    apply HQ; try done.
    + unfold exact_evals. by rewrite Hf, Hnil.
    + intros _ e. rewrite Hnil. by intros ?%elem_of_nil.
Qed.

(** ** [poll_progress] *)

Definition drained s : Prop :=
  exact_preparing s ∧ exact_loads s ∧ exact_evals s ∧
  settled_none (pending_dyn_mod_evaluations (dyn s)) s.

Lemma dwp_progress_loop fuel inner b out s :
  inv [] [] [] out s →
  dwp (progress_loop V p H fuel inner b) s (λ r s',
    inv [] [] [] out s' ∧ ∀ b, r = Ok b → drained s').
Proof.
  revert b s. induction inner as [|inner IH]; intros b s Hinv; [done|].
  apply dwp_bind, (dwp_poll_prepare _ [] out); [done|]. intros s1 H1 X1.
  apply dwp_bind, (dwp_poll_dyn _ [] out); [done|]. intros r s2 [H2 X2] L2.
  destruct r as [[]|e]; [|by apply dwp_ret].
  apply dwp_bind, dwp_code_cache. intros m3 j3 Hm3.
  apply dwp_bind, (dwp_evaluate_dyn_imports out).
  { split; [|apply H2]. simpl. rewrite Hm3. apply H2. }
  intros [|] s4 H4 X4 L4 V4 S4; [by apply IH|]. apply dwp_ret. split; [done|].
  intros _ _. split_and!; auto.
Qed.

Lemma dwp_poll_progress fuel out s :
  inv [] [] [] out s →
  dwp (poll_progress V p H fuel) s (λ r s',
    inv [] [] [] out s' ∧ (r = Ok tt → drained s')).
Proof.
  unfold poll_progress. generalize fuel at 2 as outer. intros outer. revert s.
  induction outer as [|outer IH]; intros s Hinv; [done|].
  apply dwp_bind. eapply dwp_mono; [by apply dwp_progress_loop|].
  intros r s1 [H1 D1]. destruct r as [[|]|e]; [by apply IH| |by apply dwp_ret].
  apply dwp_ret. split; [done|]. intros _. by eapply D1.
Qed.

(** ** [mod_evaluate] *)

Abbreviation rest out s := (inv [] [] [] out s) (only parsing).

Lemma ev_ok_new out e :
  ev_ok out e →
  ev_ok (next_sender e :: out) (mkEval (pending_mod_evaluation e) (S (next_sender e))
    (outstanding e) (answers e) (module_woken e)).
Proof.
  unfold ev_ok. intros He. cbn [next_sender outstanding answers].
  rewrite seq_S, <- He. simpl. solve_Permutation.
Qed.

Lemma ev_ok_box out e b :
  ev_ok (me_sender b :: out) e →
  ev_ok out (mkEval (pending_mod_evaluation e) (next_sender e) (outstanding e ++ [b])
    (answers e) (module_woken e)).
Proof. unfold ev_ok. simpl. intros <-. rewrite fmap_app. simpl. solve_Permutation. Qed.

Lemma dwp_send_rest k r out s : rest (k :: out) s → dwp (send k r) s (λ _ s', rest out s').
Proof. intros Hs. apply (dwp_send _ _ [] [] [] out); auto. Qed.

Lemma dwp_call_all fs ns out s : rest out s → dwp (call_all H fs ns) s (λ _ s', rest out s').
Proof.
  revert s. induction fs as [|f fs IH]; intros s Hs; simpl; [by apply dwp_ret|].
  apply dwp_bind, (dwp_js _ [] [] [] out); auto.
Qed.

Lemma dwp_notify b out s :
  rest (me_sender b :: out) s → dwp (notify H b) s (λ _ s', rest out s').
Proof.
  intros Hs. apply dwp_bind. apply dwp_mono with (λ _ s', rest (me_sender b :: out) s').
  - destruct (me_notify b); [by apply dwp_ret|]. apply dwp_bind, dwp_lift. intros h _.
    apply dwp_bind, dwp_query. intros ns j1 _. by apply dwp_call_all.
  - intros _ s' Hs'. by apply dwp_send_rest.
Qed.

Lemma dwp_get_sender k out s :
  rest out s → dwp (get_sender k) s (λ b s', me_sender b = k ∧ rest (k :: out) s').
Proof.
  intros [Hd He]. apply dwp_bind, dwp_get_ev.
  destruct (list_find _ _) as [[i b]|] eqn:Hf; [|done].
  apply list_find_Some in Hf as (Hi & <- & _).
  apply dwp_bind, dwp_put_ev, dwp_ret. split; [done|]. split; [done|].
  by apply (ev_ok_claim out (ev s) i b).
Qed.

Lemma dwp_set_pending_eval b out s :
  rest out s → dwp (set_pending_mod_evaluation b) s (λ _ s', rest out s').
Proof. done. Qed.

Lemma dwp_synthesize k pr out s :
  rest out s → dwp (synthesize_result p H k pr) s (λ _ s', rest out s').
Proof.
  intros Hs. apply dwp_bind, dwp_bind, dwp_get_ev, dwp_put_ev, dwp_bind.
  eapply dwp_mono; [apply (dwp_get_sender k out); done|]. intros b s1 [<- Hs1].
  apply dwp_bind, dwp_query. intros st j2 _. destruct st.
  - apply dwp_bind, dwp_query. intros t j3 _. apply dwp_bind, dwp_lift. intros _ _.
    by apply dwp_send_rest.
  - apply dwp_bind, dwp_query. intros [exn|] j3 _; [|by apply dwp_notify].
    apply dwp_bind, dwp_query. intros e j4 _. by apply dwp_send_rest.
  - apply dwp_bind, dwp_query. intros e j3 _. by apply dwp_send_rest.
Qed.

Lemma dwp_claim_callbacks id h out s :
  rest out s → dwp (claim_callbacks id h) s (λ _ s', rest out s').
Proof.
  intros Hs. apply dwp_bind, dwp_get_mm. case_decide; [|by apply dwp_ret].
  by apply dwp_bind, dwp_put_mm, dwp_ret.
Qed.

Lemma dwp_attached k pr (m : list js_global * option handle) out s :
  rest (k :: out) s →
  dwp (let '(callbacks, main) := m in
       e ← get_ev;
       _ ← set_ev (pending_mod_evaluation e) (next_sender e)
             (outstanding e ++ [mkModEvaluate k main callbacks]) (answers e)
             (module_woken e);
       attached ← query_host H (AttachHandlers k pr);
       _ ← (if (attached : bool) then mret tt else synthesize_result p H k pr);
       run_js H Checkpoint) s (λ _ s', rest out s').
Proof.
  intros [Hd He]. destruct m as [callbacks main].
  apply dwp_bind, dwp_get_ev, dwp_bind, dwp_put_ev, dwp_bind, dwp_query. intros attached j1 _.
  simpl. set (s1 := mkSt _ _ _ _).
  assert (rest out s1) as H1.
  { split; [done|]. by apply (ev_ok_box out (ev s) (mkModEvaluate k main callbacks)). }
  apply dwp_bind. apply dwp_mono with (λ _ s', rest out s').
  { destruct attached; [by apply dwp_ret|]. by apply dwp_synthesize. }
  intros _ s2 H2. by apply (dwp_js _ [] [] [] out).
Qed.

Lemma dwp_mod_evaluate id s :
  rest [] s → dwp (mod_evaluate p H id) s (λ r s', rest [] s').
Proof.
  intros Hs. apply dwp_bind, dwp_handle_of. intros h _. apply dwp_bind, dwp_query.
  intros st j1 _. case_decide; [by apply dwp_ret|]. apply dwp_bind, dwp_lift. intros _ _.
  apply dwp_bind, dwp_get_ev, dwp_bind, dwp_put_ev. simpl. set (k := next_sender (ev s)).
  apply dwp_bind, (dwp_js _ [] [] [] [k]).
  { split; [apply Hs|]. by apply (ev_ok_new [] (ev s)), Hs. }
  intros v s2 _ H2 _. destruct v as [pr|].
  - apply dwp_bind, dwp_bind, dwp_get_ev, dwp_put_ev, dwp_bind, dwp_query. intros st3 j3 _.
    apply dwp_bind, dwp_query. intros dispatched j4 _. simpl. set (s4 := mkSt _ _ _ _).
    assert (rest [k] s4) as H4 by done. clearbody s4.
    apply dwp_bind. apply dwp_mono with (λ _ s', rest [] s'); [|by intros _ s' ?; apply dwp_ret].
    destruct dispatched.
    + apply dwp_bind, dwp_query. intros e j5 _. by apply dwp_send_rest.
    + apply dwp_bind, dwp_lift. intros _ _. apply dwp_bind.
      eapply dwp_mono; [by apply (dwp_claim_callbacks id h [k])|]. intros m s5 H5.
      by apply (dwp_attached k pr m []).
  - apply dwp_bind, dwp_query. intros t j3 _. apply dwp_bind.
    apply dwp_mono with (λ _ s', rest [] s'); [|by intros _ s' ?; apply dwp_ret].
    destruct t.
    + apply dwp_bind, dwp_query. intros e j4 _. by apply dwp_send_rest.
    + apply dwp_bind, dwp_query. intros st4 j4 _. apply dwp_bind, dwp_lift. intros _ _.
      by apply dwp_send_rest.
Qed.

Lemma dwp_mod_evaluate_sync id s :
  rest [] s → dwp (mod_evaluate_sync p H id) s (λ r s', rest [] s').
Proof.
  intros Hs. apply dwp_bind, dwp_handle_of. intros h _. apply dwp_bind, dwp_query.
  intros st j1 _. case_decide; [by apply dwp_ret|]. apply dwp_bind, dwp_lift. intros _ _.
  apply dwp_bind, dwp_query. intros [|] j2 _; [by apply dwp_ret|].
  apply dwp_bind, (dwp_js _ [] [] [] []); [done|]. intros v s3 _ H3 _.
  apply dwp_bind, dwp_query. intros caught j4 _.
  destruct v as [pr|]; [destruct caught as [exn|]|].
  - apply dwp_bind, dwp_query. intros e j5 _. by apply dwp_ret.
  - apply dwp_bind, dwp_query. intros st5 j5 _. apply dwp_bind, dwp_lift. intros _ _.
    apply dwp_bind, dwp_query. intros [] j6 _. apply dwp_bind, dwp_query. intros st7 j7 _.
    destruct st7; [done|by apply dwp_ret|].
    apply dwp_bind, dwp_query. intros [] j8 _. apply dwp_bind, dwp_query. intros e j9 _.
    by apply dwp_ret.
  - apply dwp_bind, dwp_lift. intros exn _. apply dwp_bind, dwp_query. intros e j5 _.
    by apply dwp_ret.
Qed.
End laws.

(** * Termination

    Each turn of a loop is paid for: by a load that was prepared, by a future that was
    ready, or by a promise that was settled.  [rank] bounds how often futures are ready
    and JavaScript calls [import()]. *)

Section termination.
Context {E : Type} (V : env E) (p : profile) {J : Type} (H : host (E:=E) J).
Implicit Types (s : dstate (E:=E) J).

Definition prepares s : nat := length (preparing_dynamic_imports (dyn s)).
Definition evaluates s : nat := length (pending_dyn_mod_evaluations (dyn s)).

Class FiniteWork (rank : J → nat) := {
  rank_ask A (q : query (E:=E) A) j : rank (ask H q j).2 <= rank j;
  rank_ready j : (ask H PollLoads j).1 ≠ [] → rank (ask H PollLoads j).2 < rank j;
  rank_enter A (e : entry A) s a s' : enter H e s = Ok (a, s') →
    rank (js s') + prepares s' <= rank (js s) + prepares s ∧ evaluates s' <= evaluates s;
  enter_ends A (e : entry A) s : enter H e s ≠ Err Spins
}.
Context (rank : J → nat) {FW : FiniteWork rank}.
Abbreviation ends := (cwp true).

Definition work s : nat := rank (js s) + prepares s.
Definition total s : nat := 2 * work s + evaluates s.

(** [f] uses the work that there is, and starts at most [n] evaluations. *)
Definition paid (n : nat) s s' : Prop := work s' <= work s ∧ evaluates s' <= evaluates s + n.
Definition pays (n : nat) {A} (f : dmethod (E:=E) J A) : Prop :=
  ∀ s, ends f s (λ _ s', paid n s s').

Lemma paid_refl s : paid 0 s s.
Proof. unfold paid. lia. Qed.

Lemma pays_bind {A B} n m (f : dmethod J A) (k : A → dmethod J B) :
  pays n f → (∀ a, pays m (k a)) → pays (n + m) (f ≫= k).
Proof.
  intros Hf Hk s. apply dwp_bind. eapply dwp_mono; [apply Hf|]. intros a s1 H1.
  eapply dwp_mono; [apply Hk|]. intros b s2 H2. unfold paid in *. lia.
Qed.
Lemma pays_bind0 {A B} (f : dmethod J A) (k : A → dmethod J B) :
  pays 0 f → (∀ a, pays 0 (k a)) → pays 0 (f ≫= k).
Proof. apply (pays_bind 0 0). Qed.
Lemma pays_more {A} n (f : dmethod J A) : pays 0 f → pays n f.
Proof.
  intros Hf s. eapply dwp_mono; [apply Hf|]. unfold paid. intros _ s'. lia.
Qed.
Lemma pays_ret {A} (a : A) : pays 0 (mret a).
Proof. intros s. apply dwp_ret, paid_refl. Qed.
Lemma pays_lift {A} (o : outcome A) : pays 0 (lift_outcome o).
Proof. intros s. apply dwp_lift. intros. apply paid_refl. Qed.
Lemma pays_query {A} (q : query A) : pays 0 (query_host H q).
Proof.
  intros s. apply dwp_query. intros a j' Hj. unfold paid, work. simpl.
  pose proof (rank_ask _ q (js s)) as Hr. rewrite Hj in Hr. simpl in Hr.
  unfold prepares, evaluates. simpl. lia.
Qed.
Lemma pays_get : pays 0 get_dyn.
Proof. intros s. apply dwp_get, paid_refl. Qed.
Lemma pays_get_mm : pays 0 get_mm.
Proof. intros s. apply dwp_get_mm, paid_refl. Qed.
Lemma pays_put_mm m : pays 0 (put_mm m).
Proof. intros s. apply dwp_put_mm. exact (paid_refl s). Qed.
Lemma pays_missing {A} : pays 0 (crashes InvalidImport : dmethod J A).
Proof. done. Qed.
Lemma pays_dyn f :
  (∀ d, preparing_dynamic_imports (f d) = preparing_dynamic_imports d ∧
        pending_dyn_mod_evaluations (f d) = pending_dyn_mod_evaluations d) →
  pays 0 (on_dyn f).
Proof.
  intros Hf s. apply dwp_dyn. unfold paid, work, prepares, evaluates. simpl.
  destruct (Hf (dyn s)) as [-> ->]. lia.
Qed.
Lemma pays_js {A} (e : entry A) : pays 0 (run_js H e).
Proof.
  intros s. unfold cwp, run_js. destruct (enter H e s) as [[a s']|[]] eqn:He; try done.
  - pose proof (rank_enter _ _ _ _ _ He). unfold paid, work. lia.
  - by apply enter_ends in He.
Qed.

Create HintDb pay discriminated.
Hint Resolve pays_bind0 pays_ret pays_lift pays_query pays_get pays_get_mm pays_put_mm
  pays_missing pays_js : pay.
Hint Extern 1 (pays 0 (on_dyn _)) => apply pays_dyn; done : pay.
Hint Extern 1 (pays 0 (match ?x with _ => _ end)) => destruct x : pay.

Lemma pays_settle r v : pays 0 (settle_promise H r v).
Proof. unfold settle_promise. eauto with pay. Qed.
Hint Resolve pays_settle : pay.

Lemma pays_settle_all rs v : pays 0 (settle_all H rs v).
Proof. induction rs; simpl; eauto with pay. Qed.
Lemma pays_take id : pays 0 (take_import id).
Proof. unfold take_import. eauto 10 with pay. Qed.
Lemma pays_handle id : pays 0 (handle_of id).
Proof. unfold handle_of. eauto with pay. Qed.
Lemma pays_take_waiters id : pays 0 (take_waiters id).
Proof. unfold take_waiters. eauto 10 with pay. Qed.
Hint Resolve pays_settle_all pays_take pays_handle pays_take_waiters : pay.

Lemma pays_reject id e : pays 0 (dynamic_import_reject H id e).
Proof. unfold dynamic_import_reject. eauto with pay. Qed.
Lemma pays_resolve id mid : pays 0 (dynamic_import_resolve H id mid).
Proof. unfold dynamic_import_resolve. eauto 20 with pay. Qed.
Lemma pays_resolve_waiters id : pays 0 (resolve_tla_waiters H id).
Proof. unfold resolve_tla_waiters. eauto 20 with pay. Qed.
Lemma pays_reject_waiters id e : pays 0 (reject_tla_waiters H id e).
Proof. unfold reject_tla_waiters. eauto 20 with pay. Qed.
Lemma pays_instantiate id : pays 0 (instantiate_module V p H id).
Proof.
  unfold instantiate_module. apply pays_bind0; [auto with pay|]. intros h.
  apply pays_bind0; [auto with pay|]. intros st. destruct (decide _); [eauto with pay|].
  apply pays_bind0; [auto with pay|]. intros st2. destruct (decide _); eauto with pay.
Qed.
Lemma pays_to_exception e : pays 0 (to_exception H e).
Proof. destruct e; simpl; auto with pay. Qed.
Hint Resolve pays_reject pays_resolve pays_resolve_waiters pays_reject_waiters
  pays_instantiate pays_to_exception : pay.

Lemma pays_load_progress load request source :
  pays 0 (load_progress V p H load request source).
Proof.
  unfold load_progress. apply pays_bind0; [auto with pay|]. intros m.
  apply pays_bind0; [auto with pay|]. intros [r m']. destruct r; eauto 10 with pay.
Qed.

Lemma pays_push_eval f :
  (∀ d, preparing_dynamic_imports (f d) = preparing_dynamic_imports d ∧
        ∃ e, pending_dyn_mod_evaluations (f d) = pending_dyn_mod_evaluations d ++ [e]) →
  pays 1 (on_dyn f).
Proof.
  intros Hf s. apply dwp_dyn. unfold paid, work, prepares, evaluates. simpl.
  destruct (Hf (dyn s)) as [-> [e ->]]. rewrite length_app. simpl. lia.
Qed.

Lemma pays_evaluate id import_id st :
  pays 1 (dynamic_import_module_evaluate p H id import_id st).
Proof.
  apply (pays_bind 0 1); [auto with pay|]. intros h.
  apply (pays_bind 0 1); [auto with pay|]. intros st1.
  assert (pays 1 (mret (Ok tt) : dmethod J (result unit unit))) as Hret
    by by apply pays_more, pays_ret.
  destruct st1; try exact Hret.
  all: apply (pays_bind 0 1); [auto with pay|]; intros []; apply (pays_bind 0 1); [auto with pay|];
    intros v; apply (pays_bind 0 1); [auto with pay|]; intros st2; destruct v as [v|];
    [|apply pays_more; eauto 10 with pay].
  all: apply (pays_bind 0 1); [auto with pay|]; intros []; apply (pays_bind 0 1); [auto with pay|];
    intros []; apply (pays_bind 1 0); [apply pays_push_eval; simpl; eauto|auto with pay].
Qed.

Lemma pays_load_step x load : pays 1 (load_step V p H x load).
Proof.
  destruct x as [[[request info]|err]|]; simpl.
  - apply pays_more, pays_bind0; [apply pays_load_progress|auto with pay].
  - apply pays_more. eauto with pay.
  - unfold load_done. apply (pays_bind 0 1); [auto with pay|]. intros d.
    apply (pays_bind 0 1); [eauto with pay|]. intros st.
    destruct (ds_phase st); [|apply pays_more; eauto 20 with pay|].
    all: apply (pays_bind 0 1); [auto with pay|]; intros id; apply (pays_bind 0 1);
      [auto with pay|]; intros r; apply (pays_bind 0 1); [eauto with pay|]; intros _;
      apply pays_evaluate.
Qed.

(** A call of [import()] prepares at most one load. *)
Definition costs (n : nat) {A} (f : dmethod (E:=E) J A) : Prop :=
  ∀ s, ends f s (λ _ s', work s' <= work s + n ∧ evaluates s' <= evaluates s).

Lemma costs_bind {A B} n m (f : dmethod J A) (k : A → dmethod J B) :
  costs n f → (∀ a, costs m (k a)) → costs (n + m) (f ≫= k).
Proof.
  intros Hf Hk s. apply dwp_bind. eapply dwp_mono; [apply Hf|]. intros a s1 H1.
  eapply dwp_mono; [apply Hk|]. cbv beta in *. intros b s2 H2. lia.
Qed.
Lemma costs_pays {A} n (f : dmethod J A) : pays 0 f → costs n f.
Proof. intros Hf s. eapply dwp_mono; [apply Hf|]. unfold paid. intros _ s'. lia. Qed.

Lemma costs_prepare f : costs 1 (on_dyn (λ d, set_preparing (preparing_dynamic_imports d ++ [f]) true d)).
Proof.
  intros s. apply dwp_dyn. unfold work, prepares, evaluates. simpl.
  rewrite length_app. simpl. lia.
Qed.

Lemma costs_load spec ref ty ph r cped : costs 1 (load_dynamic_import V p H spec ref ty ph r cped).
Proof.
  assert (∀ res, pays 0 (evaluated_module p H res ty ph)) as Hev.
  { intros res. unfold evaluated_module. destruct ph, res; eauto 20 with pay. }
  unfold load_dynamic_import. apply (costs_bind 0 1); [by apply costs_pays|].
  intros [[id h]|].
  - apply costs_pays. apply pays_bind0; [auto with pay|]. intros d.
    destruct (existsb _ _); eauto 10 with pay.
  - apply (costs_bind 0 1); [apply costs_pays; auto with pay|]. intros m.
    apply (costs_bind 0 1); [apply costs_pays; auto with pay|]. intros [load m'].
    apply (costs_bind 0 1); [apply costs_pays; auto with pay|]. intros [].
    apply (costs_bind 0 1); [apply costs_pays; auto with pay|]. intros [].
    apply (costs_bind 1 0); [apply costs_prepare|]. intros []. apply costs_pays. auto with pay.
Qed.

Lemma costs_import c : costs 1 (host_import V p H c).
Proof.
  unfold host_import. apply (costs_bind 0 1); [apply costs_pays; auto with pay|]. intros cped.
  apply (costs_bind 0 1); [apply costs_pays; auto with pay|]. intros d.
  apply (costs_bind 0 1); [apply costs_pays; auto with pay|]. intros [].
  apply (costs_bind 0 1); [apply costs_pays; auto with pay|]. intros attrs.
  apply (costs_bind 0 1); [apply costs_pays; eauto 10 with pay|]. intros [].
  apply (costs_bind 1 0); [apply costs_load|]. intros b.
  apply costs_pays. destruct b; eauto 10 with pay.
Qed.

(** ** The loops *)

Lemma ends_prepare_loop fuel s :
  work s < fuel → ends (poll_prepare_dyn_imports_loop V H fuel) s (λ _ s', paid 0 s s').
Proof.
  revert s. induction fuel as [|fuel IH]; intros s Hf; [lia|].
  apply dwp_bind, dwp_get, dwp_bind, dwp_query. intros choices j1 Hj.
  pose proof (rank_ask _ PollPreparing (js s)) as Hr. rewrite Hj in Hr. simpl in Hr.
  apply dwp_bind, dwp_lift. intros [r bag] Hbag.
  pose proof (poll_bag_keys prepared_id fst _ _ _ _ _ (λ a f r f' Hf,
    let Hk := poll_prepare_key V a f r f' Hf in
    conj (proj1 Hk) (λ o Ho, proj1 (proj2 Hk o Ho))) Hbag) as Hperm.
  apply dwp_bind, dwp_dyn. simpl. set (s2 := mkSt _ _ _ _).
  destruct r as [[id x]|]; apply (f_equal length) in Hperm || apply Permutation_length in Hperm;
    simpl in Hperm; rewrite !length_fmap in Hperm.
  - assert (work s2 < work s ∧ evaluates s2 = evaluates s) as [Hw He].
    { unfold s2, work, prepares, evaluates. simpl. lia. }
    apply dwp_bind. apply dwp_mono with (λ _ s', paid 0 s2 s').
    { destruct x; [by apply (pays_dyn (set_loads _ _))|].
      assert (∀ e, pays 0 (exception ← query_host H (ToV8Error (inl e));
        dynamic_import_reject H id exception)) as Hp by eauto with pay.
      apply Hp. }
    intros _ s3 H3. unfold paid in H3. eapply dwp_mono; [apply IH; lia|].
    unfold paid. intros _ s'. lia.
  - apply dwp_dyn. unfold paid, work, prepares, evaluates. simpl. lia.
Qed.

Lemma ends_poll_prepare fuel s :
  work s < fuel → ends (poll_prepare_dyn_imports V H fuel) s (λ _ s', paid 0 s s').
Proof.
  intros Hf. apply dwp_bind, dwp_get. destruct (negb _); [apply pays_ret|].
  by apply ends_prepare_loop.
Qed.

Lemma ends_dyn_loop fuel s :
  work s < fuel →
  ends (poll_dyn_imports_loop V p H fuel) s (λ _ s', work s' <= work s ∧ total s' <= total s).
Proof.
  revert s. induction fuel as [|fuel IH]; intros s Hf; [lia|].
  apply dwp_bind, dwp_get, dwp_bind, dwp_get_mm, dwp_bind, dwp_query. intros choices j1 Hj.
  pose proof (rank_ask _ PollLoads (js s)) as Hr.
  pose proof (rank_ready (js s)) as Hready. rewrite Hj in Hr, Hready. simpl in Hr, Hready.
  apply dwp_bind, dwp_lift. intros [r bag] Hbag. apply dwp_bind, dwp_dyn.
  set (s2 := mkSt _ _ _ _). destruct r as [[x load]|].
  - assert (work s2 < work s ∧ evaluates s2 = evaluates s) as [Hw He].
    { unfold s2, work, prepares, evaluates. simpl. destruct choices; [done|].
      specialize (Hready ltac:(done)). lia. }
    apply dwp_bind. eapply dwp_mono; [apply pays_load_step|]. intros r s3 [H3 E3].
    unfold total. destruct r as [[]|e].
    + eapply dwp_mono; [apply IH; lia|]. unfold total. intros _ s'. lia.
    + apply dwp_ret. lia.
  - apply dwp_bind, dwp_dyn, dwp_ret. unfold total, work, prepares, evaluates. simpl. lia.
Qed.

Lemma ends_poll_dyn fuel s :
  work s < fuel →
  ends (poll_dyn_imports V p H fuel) s (λ _ s', work s' <= work s ∧ total s' <= total s).
Proof.
  intros Hf. apply dwp_bind, dwp_get. destruct (negb _); [by apply dwp_ret|].
  by apply ends_dyn_loop.
Qed.

Lemma ends_evaluate_pending pending still b s :
  ends (evaluate_pending H pending still b) s (λ x s', paid 0 s s' ∧
    length x.1 <= length still + length pending ∧
    (x.2 = true → b = true ∨ length x.1 < length still + length pending)).
Proof.
  revert still b s. induction pending as [|e pending IH]; intros still b s; simpl.
  { apply dwp_ret. split; [apply paid_refl|]. simpl. split; [lia|auto]. }
  apply dwp_bind. eapply dwp_mono; [apply pays_query|]. intros st s1 H1.
  assert (∀ f g : dmethod J (), pays 0 f → pays 0 g →
    ends (_ ← f; _ ← g; evaluate_pending H pending still true) s1
    (λ x s', paid 0 s s' ∧ length x.1 <= length still + S (length pending) ∧
    (x.2 = true → b = true ∨ length x.1 < length still + S (length pending)))) as Hgo.
  { intros f g Hf Hg. apply dwp_bind. eapply dwp_mono; [apply Hf|]. intros [] s2 H2.
    apply dwp_bind. eapply dwp_mono; [apply Hg|]. intros [] s3 H3.
    eapply dwp_mono; [apply IH|]. unfold paid in *. intros x s' (? & ? & _).
    split; [lia|]. split; [lia|]. intros _. right. lia. }
  destruct st as [| |exn].
  - eapply dwp_mono; [apply IH|]. rewrite length_app. simpl. unfold paid in *.
    intros x s' (? & ? & Hb). split; [lia|]. split; [lia|]. intros Hx.
    destruct (Hb Hx); [auto|right; lia].
  - apply Hgo; auto with pay.
  - apply Hgo; auto with pay.
Qed.

Lemma ends_evaluate s :
  ends (evaluate_dyn_imports H) s (λ b s', work s' <= work s ∧ total s' <= total s ∧
    (b = true → total s' < total s)).
Proof.
  apply dwp_bind, dwp_get. destruct (negb _); [by apply dwp_ret|].
  apply dwp_bind, dwp_dyn, dwp_bind. eapply dwp_mono; [apply ends_evaluate_pending|].
  simpl. intros [still b] s1 ([Hw _] & Hl & Hb). apply dwp_bind, dwp_dyn, dwp_ret.
  unfold total, work, prepares, evaluates in *. simpl in *. split; [lia|]. split; [lia|].
  intros ->. destruct (Hb eq_refl); [done|lia].
Qed.

Lemma ends_code_cache s :
  ends (poll_code_cache_ready H) s (λ _ s', paid 0 s s').
Proof.
  assert (pays 0 (poll_code_cache_ready H)) as Hp; [|apply Hp].
  unfold poll_code_cache_ready. eauto 10 with pay.
Qed.

Lemma ends_progress_loop fuel inner b s :
  total s < fuel → total s < inner →
  ends (progress_loop V p H fuel inner b) s (λ r s', total s' <= total s ∧
    (r = Ok true → b = true ∨ total s' < total s)).
Proof.
  revert b s. induction inner as [|inner IH]; intros b s Hf Hi; [lia|].
  apply dwp_bind. eapply dwp_mono; [apply ends_poll_prepare; unfold total in Hf; lia|].
  intros [] s1 [W1 E1].
  apply dwp_bind. eapply dwp_mono; [apply ends_poll_dyn; unfold total in Hf; lia|].
  intros r s2 [W2 T2]. destruct r as [[]|e].
  2: { apply dwp_ret. unfold total in *. split; [lia|done]. }
  apply dwp_bind. eapply dwp_mono; [apply ends_code_cache|]. intros [] s3 [W3 E3].
  apply dwp_bind. eapply dwp_mono; [apply ends_evaluate|]. intros [|] s4 (W4 & T4 & B4).
  - specialize (B4 eq_refl). unfold total in *.
    eapply dwp_mono; [apply IH; unfold total; lia|]. unfold total.
    intros r s' [? _]. split; [lia|]. intros _. right. lia.
  - apply dwp_ret. unfold total in *. split; [lia|]. intros [= ->]. by left.
Qed.

Lemma ends_poll_progress fuel s :
  total s < fuel → ends (poll_progress V p H fuel) s (λ _ s', total s' <= total s).
Proof.
  unfold poll_progress. intros Hf. assert (total s < fuel) as Ho by done. revert Ho.
  generalize fuel at 1 3 as outer. intros outer. revert s Hf.
  induction outer as [|outer IH]; intros s Hf Ho; [lia|].
  apply dwp_bind. eapply dwp_mono; [by apply ends_progress_loop|].
  intros r s1 [H1 B1]. destruct r as [[|]|e]; [|by apply dwp_ret|by apply dwp_ret].
  destruct (B1 eq_refl) as [?|Hlt]; [done|]. eapply dwp_mono; [apply IH; lia|].
  cbv beta. intros r s'. lia.
Qed.
End termination.

(** * Properties *)

Section properties.
Context {E : Type} (V : env E) (p : profile) {J : Type} (H : host (E:=E) J).
Implicit Types (s : dstate (E:=E) J).

(** A module map that has done nothing yet. *)
Definition fresh_dyn : dyn_state (E:=E) := mkDyn ∅ [] false [] false [] false ∅ 0 0 [] [] 0 [].
Definition fresh_eval : eval_state := mkEval false 0 [] [] 0.

(** What JavaScript, the event loop and the embedder bring about. *)
Inductive reached : dstate (E:=E) J → Prop :=
  | reached_start j m : (0 <= next_load_id (data m))%Z → reached (mkSt j m fresh_dyn fresh_eval)
  | reached_js s s' : reached s → js_run V p H s s' → reached s'
  | reached_poll fuel s r s' : reached s → poll_progress V p H fuel s = Ok (r, s') → reached s'
  | reached_evaluate id s r s' : reached s → mod_evaluate p H id s = Ok (r, s') → reached s'
  | reached_sync id s r s' : reached s → mod_evaluate_sync p H id s = Ok (r, s') → reached s'.

Lemma fresh_inv j m :
  (0 <= next_load_id (data m))%Z → inv [] [] [] [] (mkSt (E:=E) (J:=J) j m fresh_dyn fresh_eval).
Proof.
  intros _. split; [|by unfold ev_ok]. split; simpl; try done.
  - apply NoDup_nil_2.
  - by intros id ?%elem_of_nil.
  - intros id [x Hx]. by rewrite lookup_empty in Hx.
  - intros r [|m'|id] b; simpl; [by intros ?%elem_of_nil|intros (ws & Hx & _)|intros Hx];
      by rewrite lookup_empty in Hx.
  - apply NoDup_nil_2.
  - intros m' [x Hx]. by rewrite lookup_empty in Hx.
  - intros r [|m'|id]; simpl; [by intros ?%elem_of_nil|intros (ws & Hx & _)|intros Hx];
      by rewrite lookup_empty in Hx.
  - intros r. lia.
  - apply NoDup_nil_2.
  - by intros r ?%elem_of_nil.
  - by intros r a ?%elem_of_nil.
Qed.

Lemma dyn_reached_inv `{!HostLaws V p H} s : reached s → inv [] [] [] [] s.
Proof.
  induction 1 as [j m Hn|s s' _ IH Hrun|fuel s r s' _ IH Hrun|id s r s' _ IH Hrun
    |id s r s' _ IH Hrun].
  - by apply fresh_inv.
  - by eapply js_run_inv.
  - pose proof (dwp_poll_progress V p H fuel [] s IH) as Hp.
    unfold cwp in Hp. rewrite Hrun in Hp. apply Hp.
  - pose proof (dwp_mod_evaluate V p H id s IH) as Hp.
    unfold cwp in Hp. by rewrite Hrun in Hp.
  - pose proof (dwp_mod_evaluate_sync V p H id s IH) as Hp.
    unfold cwp in Hp. by rewrite Hrun in Hp.
Qed.

(** C6. Every promise of [import()] is settled at most once by the module map, and one that
    is not settled is never forgotten: it waits for a module whose evaluation is in the
    queue of evaluations; or it has an entry in [dynamic_import_map] whose load is in one of
    the three queues (loads that are prepared, that run, that evaluate); or V8 did not
    evaluate the module of its load, because execution was terminated, or V8 gave no promise,
    or did not link the module ([abandoned]).  Loads in the queues are distinct, each still
    has its entry with an unsettled promise, and a queue that holds something has the flag
    by which the event loop sees it.  V8 and JavaScript act as [HostLaws] says: JavaScript
    reaches this state through [import()], modules that other ops register and the callbacks
    of evaluations only, and microtasks do not link a module that failed. *)
Theorem import_promises `{!HostLaws V p H} s :
  reached s →
  NoDup (settled (dyn s)).*1 ∧
  (∀ r, r < next_resolver (dyn s) →
     r ∈ (settled (dyn s)).*1 ∨
     (∃ m ws, pending_tla_waiters (dyn s) !! m = Some ws ∧ r ∈ ws ∧
        m ∈ eval_modules (dyn s) ∧ r ∉ (settled (dyn s)).*1) ∨
     (∃ id st, dynamic_import_map (dyn s) !! id = Some st ∧ ds_resolver st = r ∧
        (id ∈ live (dyn s) ∨ ∃ why, (id, why) ∈ abandoned (dyn s)))) ∧
  NoDup (live (dyn s)) ∧
  (∀ id, id ∈ live (dyn s) → ∃ st, dynamic_import_map (dyn s) !! id = Some st ∧
     ds_resolver st ∉ (settled (dyn s)).*1) ∧
  flags_ok (dyn s).
Proof.
  intros Hs. destruct (dyn_reached_inv s Hs) as [Hd _]. destruct Hd.
  split; [done|]. split; [|split; [done|split; [|done]]].
  - intros r Hr. destruct (di_placed0 r Hr) as [?%elem_of_nil|[[|m|id] Ha]]; [done| | |].
    + by left.
    + right; left. destruct Ha as (ws & Hm & Hin). exists m, ws. split_and!; try done.
      * apply di_waits_for0. by exists ws.
      * intros Hset. assert (at_place (dyn s) r (PWaiting m)) as Hw by by exists ws.
        by destruct (di_one0 r PSettled (PWaiting m) Hset Hw) as [|[[_ []]|[? _]]].
    + simpl in Ha. destruct (dynamic_import_map (dyn s) !! id) as [st|] eqn:Hst; [|done].
      injection Ha as <-. destruct (di_owned0 id st Hst) as [?|[?|Hab]]; [|by left|]; right; right; exists id, st.
      * split_and!; [done..|by left].
      * apply list_elem_of_fmap in Hab as ([id' why] & -> & Hab). split_and!; [done..|right; by exists why].
  - intros id Hid. destruct (di_live0 id Hid) as [st Hst]. exists st. split; [done|].
    intros Hset. assert (at_place (dyn s) (ds_resolver st) (PImport id)) as Hi
      by (simpl; by rewrite Hst).
    by destruct (di_one0 _ PSettled (PImport id) Hset Hi) as [|[[_ Hst']|[? _]]].
Qed.

(** [poll_progress] never loses the entry of an import that it settles, and when it
    returns [Ok] its three flags say exactly which queues hold work, and every evaluation
    that it leaves has a promise that is still pending. *)
Lemma poll_progress_drains `{!HostLaws V p H} fuel s :
  reached s →
  match poll_progress V p H fuel s with
  | Ok (Ok _, s') =>
      has_pending_dynamic_imports (dyn s') =
        nonempty (preparing_dynamic_imports (dyn s'))
        || nonempty (pending_dynamic_imports (dyn s')) ∧
      has_pending_dyn_module_evaluation (dyn s') =
        nonempty (pending_dyn_mod_evaluations (dyn s')) ∧
      ∀ e, e ∈ pending_dyn_mod_evaluations (dyn s') →
        (ask H (PromiseStateOf (dm_promise e)) (js s')).1 = PPending
  | Ok (Err _, _) => True
  | Err c => c ≠ InvalidImport
  end.
Proof.
  intros Hs. pose proof (dwp_poll_progress V p H fuel [] s (dyn_reached_inv s Hs)) as Hp.
  unfold cwp in Hp. destruct (poll_progress V p H fuel s) as [[[[]|] s']|[]]; try done.
  destruct Hp as [_ Hdr]. destruct (Hdr eq_refl) as (Hx & Hl & He & Hn).
  unfold has_pending_dynamic_imports, has_pending_dyn_module_evaluation.
  by rewrite Hx, Hl, He.
Qed.

(** C7. [poll_progress] ends, with any fuel above twice the work that the world has left,
    plus the evaluations under way: each turn of its loops uses a load that was prepared,
    a future that was ready or a promise that was settled. *)
Theorem poll_progress_ends (rank : J → nat) `{!FiniteWork H rank} fuel s :
  2 * (rank (js s) + length (preparing_dynamic_imports (dyn s)))
    + length (pending_dyn_mod_evaluations (dyn s)) < fuel →
  poll_progress V p H fuel s ≠ Err Spins.
Proof.
  intros Hf Hs. pose proof (ends_poll_progress V p H rank fuel s Hf) as Hp.
  unfold cwp in Hp. by rewrite Hs in Hp.
Qed.

(** C8. The channel of every evaluation that [mod_evaluate] started is answered exactly
    once, or its callbacks are still with V8, whatever JavaScript does in between. *)
Theorem evaluations_answered_once `{!HostLaws V p H} s :
  reached s →
  (me_sender <$> outstanding (ev s)) ++ (answers (ev s)).*1 ≡ₚ seq 0 (next_sender (ev s)).
Proof. intros Hs. apply (dyn_reached_inv s Hs). Qed.
End properties.

(** * A host

    Modules are linked and evaluated without errors; promises are settled by hand, futures
    answer from a list, and each checkpoint runs the calls of one script. *)

Record demo_js := mkDemo {
  d_linked : list handle;
  d_evaluated : list handle;
  d_settled : list promise;
  d_scripts : list (list import_call);
  d_prepared : list (list (nat * option (result unit string)));
  d_ready : list (list (nat * list (list (nat * answer (E:=string)))))
}.

Definition demo_ask A (q : query (E:=string) A) (j : demo_js) : A * demo_js :=
  match q in query A return A * demo_js with
  | GetStatus h =>
      (if bool_decide (h ∈ d_evaluated j) then Evaluated
       else if bool_decide (h ∈ d_linked j) then Instantiated else Uninstantiated, j)
  | GetException _ => (0%Z, j)
  | GetNamespace h => (h, j)
  | IsGraphAsync _ => (false, j)
  | Instantiate h _ _ => (None, mkDemo (h :: d_linked j) (d_evaluated j) (d_settled j)
      (d_scripts j) (d_prepared j) (d_ready j))
  | ToV8Error _ => (7%Z, j)
  | IsTerminating => (false, j)
  | PromiseStateOf pr => (if bool_decide (pr ∈ d_settled j) then Fulfilled else PPending, j)
  | WatchEvaluation _ => (tt, j)
  | GetCped => (0%Z, j)
  | SetCped _ => (tt, j)
  | Settle _ _ => (tt, j)
  | PollPreparing => (default [] (head (d_prepared j)), mkDemo (d_linked j) (d_evaluated j)
      (d_settled j) (d_scripts j) (tail (d_prepared j)) (d_ready j))
  | PollLoads => (default [] (head (d_ready j)), mkDemo (d_linked j) (d_evaluated j)
      (d_settled j) (d_scripts j) (d_prepared j) (tail (d_ready j)))
  | PollCodeCache => ([], j)
  | HasDispatchedException => (false, j)
  | CaughtException => (None, j)
  | ErrResult e => (e, j)
  | JsErrorOf e => (e, j)
  | AttachHandlers _ _ => (true, j)
  | MarkAsHandled _ => (tt, j)
  | TrackHandledRejection _ => (tt, j)
  | StalledMessages _ => ([], j)
  | IsSynthetic _ => (false, j)
  end.

Section demo.
Context (V : env string) (p : profile).

(** What [host_import] needs of the host. *)
Definition demo_queries : host (E:=string) demo_js :=
  mkHost demo_ask (λ _ _ _, Err (Fault Unreachable)).

Fixpoint run_calls (cs : list import_call) : dmethod (E:=string) demo_js unit :=
  match cs with
  | [] => mret tt
  | c :: cs => λ s,
      if bool_decide (0 <= next_load_id (data (mm s)) < MAX_LOADS)%Z then
        (_ ← host_import V p demo_queries c; run_calls cs) s
      else Err (Fault Overflow)
  end.

Definition demo_enter A (e : entry A) (s : dstate (E:=string) demo_js) :
    result (A * dstate (E:=string) demo_js) crash :=
  let j := js s in
  match e in entry A return result (A * dstate demo_js) crash with
  | Checkpoint =>
      match d_scripts j with
      | [] => Ok (tt, s)
      | cs :: rest =>
          match run_calls cs (mkSt (mkDemo (d_linked j) (d_evaluated j) (d_settled j) rest
                                (d_prepared j) (d_ready j)) (mm s) (dyn s) (ev s)) with
          | Ok x => Ok x
          | Err _ => Err (Fault Unreachable)
          end
      end
  | Evaluate h => Ok (Some h, mkSt (mkDemo (d_linked j) (h :: d_evaluated j) (d_settled j)
                          (d_scripts j) (d_prepared j) (d_ready j)) (mm s) (dyn s) (ev s))
  | CallNotify _ _ => Ok (tt, s)
  end.

Definition demo_host : host (E:=string) demo_js := mkHost demo_ask demo_enter.

Lemma run_calls_run cs s s' :
  run_calls cs s = Ok (tt, s') → js_run V p demo_host s s'.
Proof.
  revert s. induction cs as [|c cs IH]; intros s Hrun; simpl in Hrun.
  { injection Hrun as <-. constructor. }
  case_bool_decide as Hn; [|done]. unfold mbind, dmethod_bind in Hrun.
  destruct (host_import V p demo_queries c s) as [[r s1]|] eqn:Hc; [|done].
  eapply run_import; [done|exact Hc|by apply IH].
Qed.

Global Instance demo_laws : HostLaws V p demo_host.
Proof.
  unshelve refine {| failed := λ _ _, False |}.
  - intros A e s a s' He. destruct e; simpl in He.
    + destruct (d_scripts (js s)) as [|cs rest]; [injection He as <- <-; constructor|].
      apply (run_world V p demo_host s (mkDemo (d_linked (js s)) (d_evaluated (js s))
        (d_settled (js s)) rest (d_prepared (js s)) (d_ready (js s)))), (run_calls_run cs).
      destruct (run_calls cs _) as [[[] s1]|]; [|done]. by simplify_eq/=.
    + injection He as <- <-. eapply run_world. constructor.
    + injection He as <- <-. constructor.
  - intros A e s c He. destruct e; simpl in He; try done.
    destruct (d_scripts (js s)) as [|cs rest]; [done|].
    destruct (run_calls cs _) as [[[] s1]|]; [done|]. injection He as <-. by eexists.
  - intros h j Hst. simpl in Hst. by repeat case_bool_decide.
  - done.
  - done.
  - done.
  - done.
  - done.
Defined.

(** Loads that are ready, and calls that are still to come. *)
Definition demo_rank (j : demo_js) : nat :=
  length (d_ready j) + length (mjoin (d_scripts j)).

Lemma demo_rank_ask A (q : query A) j :
  demo_rank (demo_ask A q j).2 <= demo_rank j ∧
  d_scripts (demo_ask A q j).2 = d_scripts j.
Proof. destruct q, j as [? ? ? ? ? [|? ?]]; unfold demo_rank; simpl; split; done || lia. Qed.

Lemma demo_rank_ready j :
  (demo_ask _ PollLoads j).1 ≠ [] → demo_rank (demo_ask _ PollLoads j).2 < demo_rank j.
Proof. destruct j as [? ? ? ? ? [|? ?]]; unfold demo_rank; simpl; [done|lia]. Qed.

Instance demo_queries_work : FiniteWork demo_queries demo_rank.
Proof.
  split.
  - intros A q j. apply demo_rank_ask.
  - exact demo_rank_ready.
  - done.
  - done.
Qed.

Lemma run_calls_costs cs s s' :
  run_calls cs s = Ok (tt, s') →
  demo_rank (js s') + prepares s' <= demo_rank (js s) + prepares s + length cs ∧
  evaluates s' <= evaluates s.
Proof.
  revert s. induction cs as [|c cs IH]; intros s Hrun; simpl in Hrun.
  { injection Hrun as <-. simpl. lia. }
  case_bool_decide as Hn; [|done]. unfold mbind, dmethod_bind in Hrun.
  pose proof (costs_import V p demo_queries demo_rank c s) as Hc. unfold cwp in Hc.
  destruct (host_import V p demo_queries c s) as [[r s1]|]; [|done].
  apply IH in Hrun. unfold work in Hc. simpl. lia.
Qed.

Global Instance demo_work : FiniteWork demo_host demo_rank.
Proof.
  split.
  - intros A q j. apply demo_rank_ask.
  - exact demo_rank_ready.
  - intros A e s a s' He. destruct e; simpl in He.
    + destruct (d_scripts (js s)) as [|cs rest] eqn:Hs; [injection He as <- <-; lia|].
      destruct (run_calls cs _) as [[[] s1]|] eqn:Hrun; [|done]. simplify_eq/=.
      apply run_calls_costs in Hrun. simpl in Hrun. unfold demo_rank, prepares, evaluates in *.
      rewrite Hs. simpl in *. rewrite length_app. lia.
    + by injection He as <- <-.
    + by injection He as <- <-.
  - intros A e s. destruct e; simpl; try done.
    destruct (d_scripts (js s)) as [|cs rest]; [done|].
    by destruct (run_calls cs _) as [[[] s1]|].
Qed.
End demo.

(** ** A scenario

    Two modules that wait for something before they are done are imported, and evaluate. *)

Definition two_modules : ModuleMapData :=
  match ('(_, d) ← create_module_info MapData_default "file:///a.js" JavaScript 100 false [];
         create_module_info d "file:///b.js" JavaScript 101 false []) with
  | Ret (_, d) => d
  | Panic _ => MapData_default
  end.

Definition import_of (specifier : string) (ph : ModuleImportPhase) : import_call :=
  mkCall specifier "file:///main.js" [] ph.
Definition import_a : import_call := import_of "file:///a.js" Evaluation.
Definition import_b : import_call := import_of "file:///b.js" Evaluation.

Abbreviation demo_state := (dstate (E:=string) demo_js).

(** The state a method leaves. *)
Definition after {A} (f : dmethod (E:=string) demo_js A) (s : demo_state) : demo_state :=
  match f s with Ok (_, s') => s' | Err _ => s end.
Definition succeeds {A} (f : dmethod (E:=string) demo_js A) (s : demo_state) : bool :=
  match f s with Ok _ => true | Err _ => false end.

Lemma succeeds_after {A} (f : dmethod (E:=string) demo_js A) s :
  succeeds f s = true → ∃ a, f s = Ok (a, after f s).
Proof. unfold succeeds, after. destruct (f s) as [[a s']|]; [eauto|done]. Qed.

Definition demo_start : demo_state :=
  mkSt (mkDemo [] [] [] [] [[(0, Some (Ok tt))]; [(0, Some (Ok tt))]] [[(0, [])]; [(0, [])]])
    (mkMap two_modules 102 ∅ ∅ [] false) fresh_dyn fresh_eval.
Definition demo_imported : demo_state :=
  after (run_calls demo_env Debug [import_a; import_b]) demo_start.
Definition demo_poll : dmethod (E:=string) demo_js (result unit unit) :=
  poll_progress demo_env Debug (demo_host demo_env Debug) 20.
Definition demo_evaluating : demo_state := after demo_poll demo_imported.

(** The promise of [a.js] is fulfilled, and its reaction imports [b.js]. *)
Definition with_script (settled : list promise) (scripts : list (list import_call))
    (s : demo_state) : demo_state :=
  let j := js s in
  mkSt (mkDemo (d_linked j) (d_evaluated j) settled scripts (d_prepared j) (d_ready j))
    (mm s) (dyn s) (ev s).
Definition demo_fulfilled : demo_state := with_script [100%Z] [[import_b]] demo_evaluating.
Definition demo_raced : demo_state := after demo_poll demo_fulfilled.

Lemma demo_runs :
  succeeds (run_calls demo_env Debug [import_a; import_b]) demo_start = true ∧
  succeeds demo_poll demo_imported = true ∧ succeeds demo_poll demo_fulfilled = true.
Proof. split_and!; vm_compute; reflexivity. Qed.

Abbreviation demo_reached := (reached demo_env Debug (demo_host demo_env Debug)).

Lemma demo_reached_evaluating : demo_reached demo_evaluating.
Proof.
  destruct demo_runs as (H1 & H2 & _).
  destruct (succeeds_after _ _ H1) as [[] Hr]. destruct (succeeds_after _ _ H2) as [r Hp].
  eapply reached_poll; [|exact Hp]. eapply reached_js; [|apply (run_calls_run _ _ _ _ _ Hr)].
  constructor. by vm_compute.
Qed.

Lemma demo_reached_raced : demo_reached demo_raced.
Proof.
  destruct demo_runs as (_ & _ & H3). destruct (succeeds_after _ _ H3) as [r Hp].
  eapply reached_poll; [|exact Hp]. eapply reached_js; [apply demo_reached_evaluating|].
  eapply run_world, run_done.
Qed.

Lemma import_promises_witness :
  demo_reached demo_raced ∧ NoDup (settled (dyn demo_raced)).*1 ∧ NoDup (live (dyn demo_raced)).
Proof.
  split; [exact demo_reached_raced|].
  destruct (import_promises demo_env Debug (demo_host demo_env Debug) demo_raced
    demo_reached_raced) as (Hs & _ & Hl & _). by split.
Defined.

Lemma poll_progress_drains_example :
  demo_reached demo_fulfilled ∧ ∃ r, demo_poll demo_fulfilled = Ok (r, demo_raced) ∧
  (r = Ok tt → has_pending_dyn_module_evaluation (dyn demo_raced) =
     nonempty (pending_dyn_mod_evaluations (dyn demo_raced))).
Proof.
  assert (demo_reached demo_fulfilled) as Hr.
  { eapply reached_js; [apply demo_reached_evaluating|]. eapply run_world, run_done. }
  split; [exact Hr|]. destruct (succeeds_after _ _ (proj2 (proj2 demo_runs))) as [r Hp].
  exists r. split; [exact Hp|]. intros ->.
  pose proof (poll_progress_drains demo_env Debug (demo_host demo_env Debug) 20
    demo_fulfilled Hr) as Hd.
  unfold demo_poll in Hp. rewrite Hp in Hd. apply Hd.
Qed.

Lemma poll_progress_ends_witness : demo_poll demo_fulfilled ≠ Err Spins.
Proof.
  apply (poll_progress_ends demo_env Debug (demo_host demo_env Debug) demo_rank 20).
  vm_compute. lia.
Defined.

(** [mod_evaluate] of both modules, and the callback of the second. *)
Definition demo_mod_evaluate (id : ModuleId) : dmethod (E:=string) demo_js (option nat) :=
  mod_evaluate Debug (demo_host demo_env Debug) id.
Definition demo_linked : demo_state :=
  mkSt (mkDemo [100; 101]%Z [] [] [] [] []) (mkMap two_modules 102 ∅ ∅ [] false) fresh_dyn
    fresh_eval.
Definition demo_both : demo_state :=
  after (demo_mod_evaluate 1) (after (demo_mod_evaluate 0) demo_linked).
Definition demo_one_done : demo_state :=
  after (on_fulfilled (demo_host demo_env Debug) 1) demo_both.

Lemma demo_reached_both : demo_reached demo_both.
Proof.
  assert (succeeds (demo_mod_evaluate 0) demo_linked = true) as H1 by (vm_compute; reflexivity).
  assert (succeeds (demo_mod_evaluate 1) (after (demo_mod_evaluate 0) demo_linked) = true) as H2
    by (vm_compute; reflexivity).
  destruct (succeeds_after _ _ H1) as [r1 E1]. destruct (succeeds_after _ _ H2) as [r2 E2].
  eapply reached_evaluate; [|exact E2]. eapply reached_evaluate; [|exact E1].
  constructor. by vm_compute.
Qed.

Lemma evaluations_answered_once_witness :
  demo_reached demo_both ∧
  (me_sender <$> outstanding (ev demo_both)) ++ (answers (ev demo_both)).*1 ≡ₚ
    seq 0 (next_sender (ev demo_both)).
Proof.
  split; [exact demo_reached_both|].
  exact (evaluations_answered_once demo_env Debug (demo_host demo_env Debug) demo_both
    demo_reached_both).
Defined.

(** ** Where the bookkeeping falls short *)

(** An embedder that refuses every import attribute. *)
Definition strict_env : env string :=
  mkEnv string (λ s _ _, Ok s) (λ _ _ _, (Err 0%Z, false)) (λ _, Ok 1%Z) (λ _, Some 2%Z) id (λ _, 3%Z)
    (λ _, Some 5%Z) (λ _ _, None) (λ _, Some 9%Z) None (λ _, None) (λ s, Some s)
    (λ _ s, Some s) false.

Definition demo_refused : demo_state :=
  after (host_import strict_env Debug (demo_host strict_env Debug) import_a) demo_start.

(** A source phase import of a WebAssembly module that is loaded. *)
Definition wasm_ready : list (list (nat * list (list (nat * answer (E:=string))))) :=
  [[(0, [[(0, Loaded (λ q, Ok (mkSource (SBytes []) Wasm None "file:///m.wasm" None)))]])];
   [(0, [])]].
Definition wasm_env : env string :=
  mkEnv string (λ s _ _, Ok s) (λ _ _ _, (Err 0%Z, false)) (λ _, Ok 1%Z) (λ _, Some 2%Z) id (λ _, 3%Z)
    (λ _, Some 5%Z) (λ _ _, None) (λ _, None) None (λ _, None) (λ s, Some s)
    (λ _ s, Some s) false.
Definition demo_source : demo_state :=
  after (poll_progress wasm_env Debug (demo_host wasm_env Debug) 20)
    (after (run_calls wasm_env Debug [import_of "file:///m.wasm" Source])
       (mkSt (mkDemo [] [] [] [] [[(0, Some (Ok tt))]] wasm_ready)
          (mkMap MapData_default 0 ∅ ∅ [] false) fresh_dyn fresh_eval)).

(** What the code does not do.  (1) While [evaluate_dyn_imports] settles promises, the
    list of evaluations is taken, so that [import()] of a module whose top-level await is
    pending is resolved at once instead of waiting for it.  (2) [import()] whose attributes
    the embedder refuses is rejected, and the module is loaded all the same.  (3) A source
    phase import leaves its entry behind.  (4) The flag for evaluations is one for all of
    them: it is cleared when the first ends. *)
Lemma dynamic_import_gaps :
  ((settled (dyn demo_raced) = [(0, Resolved 100%Z); (2, Resolved 101%Z)]) ∧
   map dm_module_id (pending_dyn_mod_evaluations (dyn demo_raced)) = [1] ∧
   (ask (demo_host demo_env Debug) (PromiseStateOf 101) (js demo_raced)).1 = PPending) ∧
  (map fst (refused (dyn demo_refused)) = [0] ∧
   length (preparing_dynamic_imports (dyn demo_refused)) = 1) ∧
  (settled (dyn demo_source) = [(0, Resolved 5%Z)] ∧
   live (dyn demo_source) = [] ∧
   ds_resolver <$> dynamic_import_map (dyn demo_source) !! 1%Z = Some 0) ∧
  (has_pending_module_evaluation (ev demo_both) = true ∧
   has_pending_module_evaluation (ev demo_one_done) = false ∧
   map me_sender (outstanding (ev demo_one_done)) = [0]).
Proof. split_and!; vm_compute; reflexivity. Qed.
