(* ===== verification/Buffers.v ===== *)
(** [serde_v8/magic/v8slice.rs] and [core/io/buffers.rs]: slices of V8 backing stores
    and the buffer views of resources.

    [V8Slice] (at [u8]) is a range of a shared backing store; [memory] holds the bytes
    of every store.  [bytes::Bytes] and [bytes::BytesMut] are known by the operations
    they document: the class [Buffer] states them, [V8Slice] is an instance of it. *)

From S2P Require Import Prelude.

Local Open Scope Z_scope.

Definition memory : Type := gmap Z (list Z).

(** * The interface of a buffer *)

Class Buffer (B : Type) := {
  content : memory → B → list Z;
  buf_truncate : profile → B → Z → outcome B;
  buf_split_off : profile → memory → B → Z → outcome (B * B);
  buf_split_to : profile → memory → B → Z → outcome (B * B)
}.

(** The result of a split is the buffer itself and the piece that is returned. *)
Class BufferLaws (B : Type) `{Buffer B} := {
  buf_ok : memory → B → Prop;
  buf_small mem b : buf_ok mem b → zlen (content mem b) < 2 ^ 63;
  truncate_law p mem b n : buf_ok mem b → 0 <= n < 2 ^ 63 →
    ∃ b', buf_truncate p b n = Ret b' ∧ buf_ok mem b' ∧
      content mem b' = ztake n (content mem b);
  split_off_law p mem b n : buf_ok mem b → 0 <= n <= zlen (content mem b) →
    ∃ b1 b2, buf_split_off p mem b n = Ret (b1, b2) ∧ buf_ok mem b1 ∧ buf_ok mem b2 ∧
      content mem b1 = ztake n (content mem b) ∧ content mem b2 = zdrop n (content mem b);
  split_to_law p mem b n : buf_ok mem b → 0 <= n <= zlen (content mem b) →
    ∃ b1 b2, buf_split_to p mem b n = Ret (b1, b2) ∧ buf_ok mem b1 ∧ buf_ok mem b2 ∧
      content mem b1 = zdrop n (content mem b) ∧ content mem b2 = ztake n (content mem b)
}.

(** * [V8Slice] *)

Module Slice.
Record V8Slice := mkSlice { store : Z; range_start : Z; range_end : Z }.

Section slice.
Context (p : profile) (mem : memory).
Implicit Types (s : V8Slice).

Definition store_bytes (id : Z) : list Z := default [] (mem !! id).

(** [clamped_end.saturating_sub(self.range.start)]. *)
Definition len s : Z :=
  let clamped_end := Z.min (range_end s) (zlen (store_bytes (store s))) in
  Z.max 0 (clamped_end - range_start s).

Definition as_slice s : list Z :=
  let clamped_len := len s in
  if decide (clamped_len = 0) then []
  else ztake clamped_len (zdrop (range_start s) (store_bytes (store s))).

Definition into_parts s : Z * (Z * Z) := (store s, (range_start s, range_end s)).

Definition split_to s (at_ : Z) : outcome (V8Slice * V8Slice) :=
  let len := len s in
  _ ← assert (bool_decide (at_ <= len));
  let offset := range_start s in
  offset_at ← add_w p 64 offset at_;
  offset_len ← add_w p 64 offset len;
  Ret (mkSlice (store s) offset_at offset_len, mkSlice (store s) offset offset_at).

Definition split_off s (at_ : Z) : outcome (V8Slice * V8Slice) :=
  let len := len s in
  _ ← assert (bool_decide (at_ <= len));
  let offset := range_start s in
  offset_at ← add_w p 64 offset at_;
  offset_len ← add_w p 64 offset len;
  Ret (mkSlice (store s) offset offset_at, mkSlice (store s) offset_at offset_len).

Definition truncate s (len : Z) : outcome V8Slice :=
  let offset := range_start s in
  e ← add_w p 64 offset len;
  Ret (mkSlice (store s) offset (Z.min e (range_end s))).

(** Ranges and stores are below half of the address space. *)
Definition slice_ok s : Prop :=
  0 <= range_start s < 2 ^ 63 ∧ 0 <= range_end s < 2 ^ 63 ∧
  zlen (store_bytes (store s)) < 2 ^ 63.

Lemma as_slice_eq s :
  0 <= range_start s →
  as_slice s = ztake (range_end s - range_start s) (zdrop (range_start s) (store_bytes (store s))).
Proof.
  intros Hs. unfold as_slice, len. set (l := store_bytes (store s)).
  pose proof (zlen_nonneg l). pose proof (zlen_zdrop (range_start s) l Hs) as Hl.
  case_decide as Hd.
  - unfold ztake. destruct (decide (zlen l <= range_start s)).
    + rewrite (zdrop_all _ l) by done. by rewrite take_nil.
    + replace (Z.to_nat _) with 0%nat by lia. done.
  - destruct (decide (range_end s <= zlen l)).
    + f_equal. lia.
    + rewrite !ztake_all by lia. done.
Qed.

Lemma zlen_as_slice s : 0 <= range_start s → zlen (as_slice s) = len s.
Proof.
  intros Hs. rewrite as_slice_eq by done. unfold len. set (l := store_bytes (store s)).
  pose proof (zlen_nonneg l). pose proof (zlen_zdrop (range_start s) l Hs).
  destruct (decide (range_start s <= range_end s)).
  - rewrite zlen_ztake by lia. lia.
  - unfold ztake. replace (Z.to_nat _) with 0%nat by lia. rewrite take_0.
    change (zlen []) with 0. lia.
Qed.

Lemma slice_truncate s n :
  slice_ok s → 0 <= n < 2 ^ 63 →
  ∃ s', truncate s n = Ret s' ∧ slice_ok s' ∧ as_slice s' = ztake n (as_slice s).
Proof.
  intros (Hs & He & Hl) Hn. unfold truncate. rewrite add_w_fits by lia. simpl.
  eexists. split; [done|]. split; [unfold slice_ok; simpl; lia|].
  rewrite !as_slice_eq by (simpl; lia). simpl. rewrite ztake_ztake. f_equal. lia.
Qed.

Lemma slice_pieces s n :
  slice_ok s → 0 <= n <= zlen (as_slice s) →
  let a := mkSlice (store s) (range_start s) (range_start s + n) in
  let b := mkSlice (store s) (range_start s + n) (range_start s + len s) in
  split_to s n = Ret (b, a) ∧ split_off s n = Ret (a, b) ∧ slice_ok a ∧ slice_ok b ∧
  as_slice a = ztake n (as_slice s) ∧ as_slice b = zdrop n (as_slice s).
Proof.
  intros (Hs & He & Hl) Hn a b. rewrite zlen_as_slice in Hn by lia.
  assert (len s = 0 ∨ range_start s + len s <= range_end s) as Hlen by (unfold len; lia).
  assert (range_start s + len s < 2 ^ 63) by lia.
  unfold split_to, split_off. rewrite assert_true by (apply bool_decide_eq_true; lia).
  simpl. rewrite !add_w_fits by lia. simpl. split; [done|]. split; [done|].
  split; [unfold slice_ok; simpl; lia|]. split; [unfold slice_ok; simpl; lia|].
  split.
  - rewrite !as_slice_eq by (simpl; lia). subst a. simpl. rewrite ztake_ztake.
    destruct (decide (len s = 0)) as [H0|].
    + replace n with 0 by lia. unfold ztake.
      replace (Z.to_nat (range_start s + 0 - range_start s)) with 0%nat by lia.
      replace (Z.to_nat (Z.min 0 (range_end s - range_start s))) with 0%nat by lia. done.
    + f_equal. lia.
  - rewrite as_slice_eq by (simpl; lia). subst b. simpl.
    rewrite as_slice_eq by lia. rewrite zdrop_ztake by lia. rewrite zdrop_zdrop by lia.
    pose proof (zlen_zdrop (range_start s + n) (store_bytes (store s))) as Hz.
    pose proof (zlen_nonneg (store_bytes (store s))).
    destruct (decide (len s = 0)) as [Hlen0|].
    + destruct (decide (range_end s <= range_start s)).
      * unfold ztake. replace (Z.to_nat (range_start s + _ - _)) with 0%nat by lia.
        by replace (Z.to_nat (range_end s - range_start s - n)) with 0%nat by lia.
      * rewrite (zdrop_all _ (store_bytes (store s))) by (unfold len in Hlen0; lia).
        unfold ztake. by rewrite !take_nil.
    + destruct (decide (range_end s <= zlen (store_bytes (store s)))).
      * f_equal. unfold len in *. lia.
      * rewrite !ztake_all; [done| |]; rewrite Hz by lia; unfold len in *; lia.
Qed.
End slice.

(** A slice of a backing store is a buffer. *)
Global Instance slice_buffer : Buffer V8Slice := {
  content := as_slice;
  buf_truncate := truncate;
  buf_split_off := split_off;
  buf_split_to := split_to
}.

Global Program Instance slice_laws : BufferLaws V8Slice := { buf_ok := slice_ok }.
Next Obligation.
  intros mem s (Hs & He & Hl). simpl. rewrite zlen_as_slice by lia. unfold len. lia.
Qed.
Next Obligation. intros p mem s n. apply slice_truncate. Qed.
Next Obligation.
  intros p mem s n Hs Hn. destruct (slice_pieces p mem s n Hs Hn) as (_ & H & ? & ? & ? & ?).
  by eexists _, _.
Qed.
Next Obligation.
  intros p mem s n Hs Hn. destruct (slice_pieces p mem s n Hs Hn) as (H & _ & ? & ? & ? & ?).
  by eexists _, _.
Qed.
End Slice.
Abbreviation V8Slice := Slice.V8Slice.

(** * The buffers behind a view *)

(** [BytesMut::zeroed], [resize] with zeros and the conversion into [Bytes]. *)
Class BytesMutOps (B BM : Type) `{Buffer B, Buffer BM} := {
  zeroed : Z → BM;
  resize : BM → Z → BM;
  freeze : BM → B
}.

Class BytesMutLaws (B BM : Type) `{BytesMutOps B BM, !BufferLaws B, !BufferLaws BM} := {
  zeroed_law mem n : 0 <= n < 2 ^ 63 →
    buf_ok mem (zeroed n) ∧ content mem (zeroed n) = replicate (Z.to_nat n) 0;
  resize_law mem (b : BM) n : buf_ok mem b → 0 <= n < 2 ^ 63 →
    buf_ok mem (resize b n) ∧
    content mem (resize b n) =
      ztake n (content mem b) ++ replicate (Z.to_nat (n - zlen (content mem b))) 0;
  freeze_law mem (b : BM) : buf_ok mem b →
    buf_ok mem (freeze b) ∧ content mem (freeze b) = content mem b
}.

Inductive BufViewInner (B : Type) :=
  | VEmpty
  | VBytes (bytes : B)
  | VJsBuffer (buffer : V8Slice).
Arguments VEmpty {B}.
Arguments VBytes {B} _.
Arguments VJsBuffer {B} _.

Inductive BufMutViewInner (BM : Type) :=
  | MJsBuffer (buffer : V8Slice)
  | MBytes (bytes : BM).
Arguments MJsBuffer {BM} _.
Arguments MBytes {BM} _.

(** Both kinds of inner buffer are buffers; [inner_len] is the [len] of the view. *)
Class ViewInner (I : Type) := {
  view_buffer :: Buffer I;
  inner_len : profile → memory → I → Z → outcome Z
}.
Class ViewInnerLaws (I : Type) `{ViewInner I} := {
  view_laws :: BufferLaws I;
  inner_len_law p mem i c : buf_ok mem i → 0 <= c <= zlen (content mem i) →
    inner_len p mem i c = Ret (zlen (content mem i) - c)
}.

Definition on_pair {A B} (f : A → B) (o : outcome (A * A)) : outcome (B * B) :=
  '(a, b) ← o; Ret (f a, f b).

(** [BufView::len] and [BufMutView::len]. *)
Definition bufview_len {B} `{Buffer B} (p : profile) (mem : memory) (i : BufViewInner B)
    (cursor : Z) : outcome Z :=
  match i with
  | VEmpty => Ret 0
  | VBytes bytes => sub_w p 64 (zlen (content mem bytes)) cursor
  | VJsBuffer js_buf => sub_w p 64 (Slice.len mem js_buf) cursor
  end.

Definition bufmutview_len {BM} `{Buffer BM} (p : profile) (mem : memory)
    (i : BufMutViewInner BM) (cursor : Z) : outcome Z :=
  match i with
  | MJsBuffer js_buf => sub_w p 64 (Slice.len mem js_buf) cursor
  | MBytes bytes => sub_w p 64 (zlen (content mem bytes)) cursor
  end.

Global Instance bufview_inner {B} `{Buffer B} : ViewInner (BufViewInner B) := {
  view_buffer := {|
    content mem i := match i with
                     | VEmpty => []
                     | VBytes b => content mem b
                     | VJsBuffer b => content mem b
                     end;
    buf_truncate p i n := match i with
                          | VEmpty => Ret VEmpty
                          | VBytes b => b ← buf_truncate p b n; Ret (VBytes b)
                          | VJsBuffer b => b ← buf_truncate p b n; Ret (VJsBuffer b)
                          end;
    buf_split_off p mem i n := match i with
                               | VEmpty => Ret (VEmpty, VEmpty)
                               | VBytes b => on_pair VBytes (buf_split_off p mem b n)
                               | VJsBuffer b => on_pair VJsBuffer (buf_split_off p mem b n)
                               end;
    buf_split_to p mem i n := match i with
                              | VEmpty => Ret (VEmpty, VEmpty)
                              | VBytes b => on_pair VBytes (buf_split_to p mem b n)
                              | VJsBuffer b => on_pair VJsBuffer (buf_split_to p mem b n)
                              end
  |};
  inner_len := bufview_len
}.

Global Instance bufmutview_inner {BM} `{Buffer BM} : ViewInner (BufMutViewInner BM) := {
  view_buffer := {|
    content mem i := match i with
                     | MBytes b => content mem b
                     | MJsBuffer b => content mem b
                     end;
    buf_truncate p i n := match i with
                          | MBytes b => b ← buf_truncate p b n; Ret (MBytes b)
                          | MJsBuffer b => b ← buf_truncate p b n; Ret (MJsBuffer b)
                          end;
    buf_split_off p mem i n := match i with
                               | MBytes b => on_pair MBytes (buf_split_off p mem b n)
                               | MJsBuffer b => on_pair MJsBuffer (buf_split_off p mem b n)
                               end;
    buf_split_to p mem i n := match i with
                              | MBytes b => on_pair MBytes (buf_split_to p mem b n)
                              | MJsBuffer b => on_pair MJsBuffer (buf_split_to p mem b n)
                              end
  |};
  inner_len := bufmutview_len
}.

(** * Views: a buffer with a cursor *)

Record view (I : Type) := mkView { inner : I; cursor : Z }.
Arguments mkView {I} _ _.
Arguments inner {I} _.
Arguments cursor {I} _.

Section view.
Context {I : Type} `{ViewInner I} (p : profile) (mem : memory).
Implicit Types (v : view I).

Definition from_inner (i : I) : view I := mkView i 0.
Definition view_len v : outcome Z := inner_len p mem (inner v) (cursor v).
Definition view_is_empty v : outcome bool := l ← view_len v; Ret (bool_decide (l = 0)).

Definition advance_cursor v (n : Z) : outcome (view I) :=
  l ← view_len v;
  _ ← assert (bool_decide (n <= l));
  c ← add_w p 64 (cursor v) n;
  Ret (mkView (inner v) c).

Definition reset_cursor v : Z * view I := (cursor v, mkView (inner v) 0).

(** [BufView::truncate]; an empty view has its cursor at zero, so that the sum cannot
    overflow there. *)
Definition view_truncate v (size : Z) : outcome (view I) :=
  n ← add_w p 64 size (cursor v);
  i ← buf_truncate p (inner v) n;
  Ret (mkView i (cursor v)).

(** The view itself and the piece that is returned. *)
Definition view_split_off v (at_ : Z) : outcome (view I * view I) :=
  at_ ← add_w p 64 at_ (cursor v);
  l ← view_len v;
  _ ← assert (bool_decide (at_ <= l));
  '(self, other) ← buf_split_off p mem (inner v) at_;
  Ret (mkView self (cursor v), mkView other 0).

Definition view_split_to v (at_ : Z) : outcome (view I * view I) :=
  l ← view_len v;
  _ ← assert (bool_decide (at_ <= l));
  at_ ← add_w p 64 at_ (cursor v);
  '(self, other) ← buf_split_to p mem (inner v) at_;
  Ret (mkView self 0, mkView other (cursor v)).

(** [deref]: slicing panics when the cursor is past the end. *)
Definition deref v : outcome (list Z) :=
  let buf := content mem (inner v) in
  if decide (cursor v <= zlen buf) then Ret (zdrop (cursor v) buf) else Panic OutOfBounds.

(** [BufMutView::truncate] also moves the cursor. *)
Definition mut_truncate v (size : Z) : outcome (view I) :=
  n ← add_w p 64 size (cursor v);
  i ← buf_truncate p (inner v) n;
  l ← view_len (mkView i (cursor v));
  Ret (mkView i (Z.min (cursor v) l)).
End view.

(** * Views and their bytes *)

Section laws.
Context {I : Type} `{ViewInnerLaws I} (p : profile) (mem : memory).
Implicit Types (v : view I).

Definition view_ok v : Prop :=
  buf_ok mem (inner v) ∧ 0 <= cursor v <= zlen (content mem (inner v)).

(** What is left to read. *)
Definition bytes v : list Z := zdrop (cursor v) (content mem (inner v)).

Lemma zlen_bytes v : view_ok v → zlen (bytes v) = zlen (content mem (inner v)) - cursor v.
Proof. intros [_ Hc]. unfold bytes. rewrite zlen_zdrop by lia. lia. Qed.

Lemma view_small v : view_ok v → cursor v + zlen (bytes v) < 2 ^ 63.
Proof.
  intros Hv. rewrite zlen_bytes by done. pose proof (buf_small mem (inner v) (proj1 Hv)). lia.
Qed.

Lemma view_len_spec v : view_ok v → view_len p mem v = Ret (zlen (bytes v)).
Proof.
  intros Hv. unfold view_len. destruct Hv as [Hb Hc]. rewrite inner_len_law by done.
  by rewrite zlen_bytes.
Qed.

Lemma deref_spec v : view_ok v → deref mem v = Ret (bytes v).
Proof. intros [_ Hc]. unfold deref. by rewrite decide_True by lia. Qed.

Lemma advance_spec v n :
  view_ok v → 0 <= n →
  (n <= zlen (bytes v) ∧ ∃ v', advance_cursor p mem v n = Ret v' ∧ view_ok v' ∧
     bytes v' = zdrop n (bytes v) ∧ inner v' = inner v) ∨
  (zlen (bytes v) < n ∧ advance_cursor p mem v n = Panic Assert).
Proof.
  intros Hv Hn. unfold advance_cursor. rewrite view_len_spec by done. simpl.
  pose proof (view_small v Hv). pose proof (zlen_bytes v Hv) as Hl. destruct Hv as [Hb Hc].
  destruct (decide (n <= zlen (bytes v))); [left|right; split; [lia|]].
  - split; [done|]. rewrite bool_decide_true by done. simpl. rewrite add_w_fits by lia.
    eexists. split; [done|]. split; [split; [done|simpl; lia]|]. split; [|done].
    unfold bytes. simpl. by rewrite zdrop_zdrop by lia.
  - by rewrite bool_decide_false.
Qed.

Lemma truncate_spec v size :
  view_ok v → 0 <= size → size + cursor v < 2 ^ 63 →
  ∃ v', view_truncate p v size = Ret v' ∧ view_ok v' ∧ bytes v' = ztake size (bytes v) ∧
    cursor v' = cursor v ∧
    content mem (inner v') = ztake (size + cursor v) (content mem (inner v)).
Proof.
  intros [Hb Hc] Hs Hlt. unfold view_truncate. rewrite add_w_fits by lia. simpl.
  destruct (truncate_law p mem (inner v) (size + cursor v) Hb) as (i & -> & Hi & Hcont); [lia|].
  simpl. eexists. split; [done|]. split; [split; [done|simpl]|].
  - rewrite Hcont, zlen_ztake by lia. lia.
  - unfold bytes. simpl. rewrite Hcont. split; [|done].
    rewrite zdrop_ztake by lia. f_equal. lia.
Qed.

Lemma split_to_spec v n :
  view_ok v → 0 <= n →
  (n <= zlen (bytes v) ∧ ∃ v' o, view_split_to p mem v n = Ret (v', o) ∧ view_ok v' ∧
     view_ok o ∧ bytes o = ztake n (bytes v) ∧ bytes v' = zdrop n (bytes v) ∧
     cursor v' = 0 ∧ cursor o = cursor v) ∨
  (zlen (bytes v) < n ∧ view_split_to p mem v n = Panic Assert).
Proof.
  intros Hv Hn. unfold view_split_to. rewrite view_len_spec by done. simpl.
  pose proof (view_small v Hv). pose proof (zlen_bytes v Hv) as Hl. destruct Hv as [Hb Hc].
  destruct (decide (n <= zlen (bytes v))); [left|right; split; [lia|]].
  2:{ by rewrite bool_decide_false. }
  split; [done|]. rewrite bool_decide_true by done. simpl. rewrite add_w_fits by lia. simpl.
  destruct (split_to_law p mem (inner v) (n + cursor v) Hb) as (i1 & i2 & -> & Hok1 & Hok2 & Hc1 & Hc2);
    [lia|].
  simpl. eexists _, _. split; [done|]. split; [|split; [|split; [|split; [|done]]]].
  - split; [done|]. simpl. pose proof (zlen_nonneg (content mem i1)). lia.
  - split; [done|]. simpl. rewrite Hc2, zlen_ztake by lia. lia.
  - unfold bytes. simpl. rewrite Hc2, zdrop_ztake by lia. f_equal. lia.
  - unfold bytes. simpl. rewrite Hc1, zdrop_0, zdrop_zdrop by lia. f_equal. lia.
Qed.

(** The assertion compares the position in the buffer with the length of the rest. *)
Lemma split_off_spec v n :
  view_ok v → 0 <= n < 2 ^ 63 →
  (n + cursor v <= zlen (bytes v) ∧ ∃ v' o, view_split_off p mem v n = Ret (v', o) ∧
     view_ok v' ∧ view_ok o ∧ bytes v' = ztake n (bytes v) ∧ bytes o = zdrop n (bytes v) ∧
     cursor v' = cursor v ∧ cursor o = 0) ∨
  (zlen (bytes v) < n + cursor v ∧ view_split_off p mem v n = Panic Assert).
Proof.
  intros Hv Hn. unfold view_split_off. pose proof (view_small v Hv).
  pose proof (zlen_bytes v Hv) as Hl. pose proof (zlen_nonneg (bytes v)).
  rewrite view_len_spec by done. destruct Hv as [Hb Hc].
  rewrite add_w_fits by lia. simpl.
  destruct (decide (n + cursor v <= zlen (bytes v))); [left|right; split; [lia|]].
  2:{ by rewrite bool_decide_false. }
  split; [done|]. rewrite bool_decide_true by done. simpl.
  destruct (split_off_law p mem (inner v) (n + cursor v) Hb) as (i1 & i2 & -> & Hok1 & Hok2 & Hc1 & Hc2);
    [lia|].
  simpl. eexists _, _. split; [done|]. split; [|split; [|split; [|split; [|done]]]].
  - split; [done|]. simpl. rewrite Hc1, zlen_ztake by lia. lia.
  - split; [done|]. simpl. pose proof (zlen_nonneg (content mem i2)). lia.
  - unfold bytes. simpl. rewrite Hc1, zdrop_ztake by lia. f_equal. lia.
  - unfold bytes. simpl. rewrite Hc2, zdrop_0, zdrop_zdrop by lia. f_equal. lia.
Qed.

(** The cursor goes back over bytes that were read. *)
Lemma mut_truncate_spec v size :
  view_ok v → 0 <= size → size + cursor v < 2 ^ 63 →
  ∃ v', mut_truncate p mem v size = Ret v' ∧ view_ok v' ∧
    let left := Z.min size (zlen (bytes v)) in
    cursor v' = Z.min (cursor v) left ∧
    bytes v' = zdrop (cursor v') (ztake (cursor v) (content mem (inner v))) ++
      ztake size (bytes v).
Proof.
  intros Hv Hs Hlt. destruct (truncate_spec v size Hv Hs Hlt) as (v1 & Ht & Hv1 & Hb1 & Hc1 & Hi1).
  unfold view_truncate in Ht. unfold mut_truncate.
  destruct (add_w p 64 size (cursor v)) as [n|]; [|done]. simpl in *.
  destruct (buf_truncate p (inner v) n) as [i|]; [|done]. simpl in *.
  injection Ht as <-. simpl in *. rewrite view_len_spec by done. simpl.
  rewrite Hb1, zlen_ztake by lia. pose proof Hv as [Hb Hc].
  pose proof (zlen_bytes v Hv) as Hl. pose proof Hv1 as [Hb' Hc']. simpl in *.
  eexists. split; [done|]. split; [split; [done|simpl; lia]|]. split; [done|].
  unfold bytes at 1. simpl. rewrite Hi1. unfold bytes.
  set (l := content mem (inner v)) in *. set (c := Z.min (cursor v) _).
  assert (0 <= c <= cursor v) as Hcc.
  { pose proof (zlen_nonneg (zdrop (cursor v) l)). unfold c. lia. }
  replace (ztake (size + cursor v) l) with (ztake (cursor v) l ++ ztake size (zdrop (cursor v) l)).
  - unfold zdrop at 1. rewrite drop_app_le; [done|].
    unfold ztake. rewrite length_take. unfold zlen in *. lia.
  - etrans; [|apply (ztake_zdrop_id (cursor v))]. rewrite ztake_ztake, zdrop_ztake by lia.
    replace (Z.min (cursor v) (size + cursor v)) with (cursor v) by lia.
    by replace (size + cursor v - cursor v) with size by lia.
Qed.
End laws.

Lemma on_pair_ret {A B} (f : A → B) a b : on_pair f (Ret (a, b)) = Ret (f a, f b).
Proof. done. Qed.

Section inner_laws.
Context {B : Type} `{BufferLaws B}.

Global Program Instance bufview_inner_buffer_laws :
    BufferLaws (BufViewInner B) (H := view_buffer) := {
  buf_ok mem i := match i with
                  | VEmpty => True
                  | VBytes b => buf_ok mem b
                  | VJsBuffer b => buf_ok mem b
                  end
}.
Next Obligation. intros mem [|b|b] Hb; [done|exact (buf_small mem b Hb)..]. Qed.
Next Obligation.
  intros p mem [|b|b] n Hb Hn; simpl in *.
  { exists VEmpty. split; [done|]. split; [done|]. unfold ztake. by rewrite take_nil. }
  all: assert (buf_ok mem b) as Hb' by exact Hb; destruct (truncate_law p mem b n Hb' Hn) as (b' & He & ? & ?); simpl in He; rewrite He;
    by eexists.
Qed.
Next Obligation.
  intros p mem [|b|b] n Hb Hn; simpl in *.
  { exists VEmpty, VEmpty. repeat split. unfold ztake. by rewrite take_nil.
    unfold zdrop. by rewrite drop_nil. }
  all: assert (buf_ok mem b) as Hb' by exact Hb; destruct (split_off_law p mem b n Hb' Hn) as (b1 & b2 & He & ? & ? & ? & ?);
    simpl in He; rewrite He, on_pair_ret; by eexists _, _.
Qed.
Next Obligation.
  intros p mem [|b|b] n Hb Hn; simpl in *.
  { exists VEmpty, VEmpty. repeat split. unfold zdrop. by rewrite drop_nil.
    unfold ztake. by rewrite take_nil. }
  all: assert (buf_ok mem b) as Hb' by exact Hb; destruct (split_to_law p mem b n Hb' Hn) as (b1 & b2 & He & ? & ? & ? & ?);
    simpl in He; rewrite He, on_pair_ret; by eexists _, _.
Qed.

Global Program Instance bufmutview_inner_buffer_laws :
    BufferLaws (BufMutViewInner B) (H := view_buffer) := {
  buf_ok mem i := match i with
                  | MBytes b => buf_ok mem b
                  | MJsBuffer b => buf_ok mem b
                  end
}.
Next Obligation. intros mem [b|b] Hb; exact (buf_small mem b Hb). Qed.
Next Obligation.
  intros p mem [b|b] n Hb Hn; simpl in *;
    (assert (buf_ok mem b) as Hb' by exact Hb); destruct (truncate_law p mem b n Hb' Hn) as (b' & He & ? & ?); simpl in He; rewrite He;
    by eexists.
Qed.
Next Obligation.
  intros p mem [b|b] n Hb Hn; simpl in *;
    (assert (buf_ok mem b) as Hb' by exact Hb); destruct (split_off_law p mem b n Hb' Hn) as (b1 & b2 & He & ? & ? & ? & ?);
    simpl in He; rewrite He, on_pair_ret; by eexists _, _.
Qed.
Next Obligation.
  intros p mem [b|b] n Hb Hn; simpl in *;
    (assert (buf_ok mem b) as Hb' by exact Hb); destruct (split_to_law p mem b n Hb' Hn) as (b1 & b2 & He & ? & ? & ? & ?);
    simpl in He; rewrite He, on_pair_ret; by eexists _, _.
Qed.

Global Program Instance bufview_inner_laws : ViewInnerLaws (BufViewInner B) := {}.
Next Obligation.
  intros p mem [|b|b] c Hb Hc; simpl in *.
  - change (zlen []) with 0 in *. f_equal. lia.
  - by rewrite sub_w_fits by lia.
  - rewrite <- Slice.zlen_as_slice by (destruct Hb; lia). by rewrite sub_w_fits by lia.
Qed.

Global Program Instance bufmutview_inner_laws : ViewInnerLaws (BufMutViewInner B) := {}.
Next Obligation.
  intros p mem [b|b] c Hb Hc; simpl in *.
  - rewrite <- Slice.zlen_as_slice by (destruct Hb; lia). by rewrite sub_w_fits by lia.
  - by rewrite sub_w_fits by lia.
Qed.
End inner_laws.

(** * [BufView] and [BufMutView] *)

Section views.
Context {B BM : Type} `{BytesMutLaws B BM} (p : profile) (mem : memory).

Definition BufView : Type := view (BufViewInner B).
Definition BufMutView : Type := view (BufMutViewInner BM).

Definition BufView_empty : BufView := from_inner VEmpty.
Definition BufMutView_new (len : Z) : BufMutView := from_inner (MBytes (zeroed len)).

Definition into_view (v : BufMutView) : BufView :=
  mkView (match inner v with
          | MJsBuffer js_buf => VJsBuffer js_buf
          | MBytes bytes => VBytes (freeze bytes)
          end) (cursor v).

Definition maybe_unwrap_bytes (v : BufMutView) : result BM BufMutView :=
  match inner v with MJsBuffer _ => Err v | MBytes bytes => Ok bytes end.

Definition maybe_resize (v : BufMutView) (target_size maximum_increment : Z) :
    outcome (option Z * BufMutView) :=
  match inner v with
  | MBytes bytes =>
      let len := zlen (content mem bytes) in
      target_size ← add_w p 64 target_size (cursor v);
      bytes ← match target_size ?= len with
              | Gt => limit ← add_w p 64 len maximum_increment;
                      Ret (resize bytes (Z.min target_size limit))
              | Lt => buf_truncate p bytes target_size
              | Eq => Ret bytes
              end;
      Ret (Some (zlen (content mem bytes)), mkView (MBytes bytes) (cursor v))
  | MJsBuffer _ => Ret (None, v)
  end.

Definition maybe_grow (v : BufMutView) (target_size : Z) :
    outcome (option Z * BufMutView) :=
  match inner v with
  | MBytes bytes =>
      let len := zlen (content mem bytes) in
      target_size ← add_w p 64 target_size (cursor v);
      let bytes := if decide (len < target_size) then resize bytes target_size else bytes in
      Ret (Some (zlen (content mem bytes)), mkView (MBytes bytes) (cursor v))
  | MJsBuffer _ => Ret (None, v)
  end.

Lemma into_view_spec (v : BufMutView) :
  view_ok mem v → view_ok mem (into_view v) ∧ bytes mem (into_view v) = bytes mem v ∧
  cursor (into_view v) = cursor v.
Proof.
  destruct v as [[b|b] c]; intros [Hb Hc]; unfold into_view, view_ok, bytes; simpl in *; [done|].
  destruct (freeze_law mem b Hb) as [Hf Hcont]. by rewrite Hcont.
Qed.

(** The bytes of a view after its buffer was resized to [n]. *)
Lemma resize_view b c n :
  buf_ok mem b → 0 <= c <= zlen (content mem b) → zlen (content mem b) <= n < 2 ^ 63 →
  let v := mkView (MBytes (resize b n)) c : BufMutView in
  view_ok mem v ∧
  bytes mem v = zdrop c (content mem b) ++ replicate (Z.to_nat (n - zlen (content mem b))) 0 ∧
  zlen (content mem (resize b n)) = n.
Proof.
  intros Hb Hc Hn v. pose proof (zlen_nonneg (content mem b)).
  destruct (resize_law mem b n Hb) as [Hr Hcont]; [lia|].
  rewrite ztake_all in Hcont by lia.
  assert (zlen (content mem (resize b n)) = n) as Hl.
  { rewrite Hcont, zlen_app. unfold zlen at 2. rewrite length_replicate. lia. }
  split; [split; [done|simpl; lia]|]. split; [|done].
  unfold bytes, v. simpl. rewrite Hcont. unfold zdrop. rewrite drop_app_le; [done|].
  unfold zlen in *. lia.
Qed.
(** [maybe_resize] of a view that owns its bytes. *)
Lemma maybe_resize_bytes b c target increment :
  let w := mkView (MBytes b) c : BufMutView in
  view_ok mem w → 0 <= target → 0 <= increment → target + c < 2 ^ 63 →
  zlen (content mem b) + increment < 2 ^ 63 →
  let wanted := Z.min target (zlen (bytes mem w) + increment) in
  ∃ w', maybe_resize w target increment = Ret (Some (c + wanted), w') ∧ view_ok mem w' ∧
    bytes mem w' =
      ztake wanted (bytes mem w ++ replicate (Z.to_nat (wanted - zlen (bytes mem w))) 0).
Proof.
  intros w Hw Ht Hi Hlt Hli wanted. pose proof (zlen_bytes mem w Hw) as Hlen.
  pose proof (zlen_nonneg (bytes mem w)) as Hpos. destruct Hw as [Hb Hc].
  assert (buf_ok mem b) as Hok by exact Hb. assert (0 <= c <= zlen (content mem b)) as Hcc by exact Hc.
  assert (zlen (bytes mem w) = zlen (content mem b) - c) as Hlw by exact Hlen. clear Hb Hc Hlen.
  unfold maybe_resize, w. simpl. rewrite !add_w_fits by lia. simpl. fold w.
  destruct (Z.compare_spec (target + c) (zlen (content mem b))) as [Heq|Hl|Hg]; simpl.
  - exists w. split; [unfold w; do 3 f_equal; lia|]. split; [by split|].
    replace (wanted - _) with 0 by lia. rewrite app_nil_r. rewrite ztake_all; [done|lia].
  - destruct (truncate_law p mem b (target + c) Hok) as (b' & -> & Hb' & Hcont); [lia|].
    simpl. eexists. rewrite Hcont, zlen_ztake by lia. split; [do 3 f_equal; lia|].
    split; [split; [done|simpl; rewrite Hcont, zlen_ztake by lia; lia]|].
    replace (Z.to_nat (wanted - _)) with 0%nat by lia. simpl. rewrite app_nil_r.
    unfold bytes. simpl. rewrite Hcont, zdrop_ztake by lia. f_equal. lia.
  - set (n := Z.min (target + c) (zlen (content mem b) + increment)).
    destruct (resize_view b c n Hok Hcc) as (Hok' & Hbytes & Hln); [lia|].
    eexists. rewrite Hln. split; [do 3 f_equal; lia|]. split; [done|].
    replace (n - zlen (content mem b)) with (wanted - zlen (bytes mem w)) in Hbytes by lia.
    rewrite Hbytes, ztake_all; [done|].
    rewrite zlen_app. unfold zlen at 2. rewrite length_replicate.
    change (zlen (bytes mem w) + Z.of_nat (Z.to_nat (wanted - zlen (bytes mem w))) <= wanted).
    lia.
Qed.
End views.
Arguments BufView : clear implicits.
Arguments BufMutView : clear implicits.

(** * Properties *)

Section properties.
Context {B BM : Type} `{BytesMutLaws B BM} (p : profile) (mem : memory).

(** Reading a view of either kind: its length and its bytes agree, [advance_cursor] drops what
    was read and panics only past the end, and [reset_cursor] shows everything again. *)
Lemma view_cursor {I} `{ViewInnerLaws I} (v : view I) n :
  view_ok mem v → 0 <= n →
  view_len p mem v = Ret (zlen (bytes mem v)) ∧ deref mem v = Ret (bytes mem v) ∧
  ((n <= zlen (bytes mem v) ∧ ∃ v', advance_cursor p mem v n = Ret v' ∧ view_ok mem v' ∧
      bytes mem v' = zdrop n (bytes mem v) ∧
      bytes mem (reset_cursor v').2 = content mem (inner v)) ∨
   (zlen (bytes mem v) < n ∧ advance_cursor p mem v n = Panic Assert)).
Proof.
  intros Hv Hn. split; [by apply view_len_spec|]. split; [by apply deref_spec|].
  destruct (advance_spec p mem v n Hv Hn) as [(Hle & v' & ? & ? & ? & Hi)|?]; [left|by right].
  split; [done|]. exists v'. split_and!; try done. unfold bytes. simpl. by rewrite Hi.
Qed.

(** [split_to] cuts the first [n] bytes off a view: the piece and the view are
    well formed and hold together what the view held.  It panics exactly when fewer
    than [n] bytes are left. *)
Lemma view_split_to_bytes {I} `{ViewInnerLaws I} (v : view I) n :
  view_ok mem v → 0 <= n →
  (n <= zlen (bytes mem v) ∧ ∃ v' o, view_split_to p mem v n = Ret (v', o) ∧
     view_ok mem v' ∧ view_ok mem o ∧ zlen (bytes mem o) = n ∧
     bytes mem o ++ bytes mem v' = bytes mem v) ∨
  (zlen (bytes mem v) < n ∧ view_split_to p mem v n = Panic Assert).
Proof.
  intros Hv Hn. destruct (split_to_spec p mem v n Hv Hn)
    as [(Hle & v' & o & He & ? & ? & Ho & Hv' & _)|?]; [left|by right].
  split; [done|]. exists v', o. split_and!; try done.
  - rewrite Ho, zlen_ztake by done. lia.
  - rewrite Ho, Hv'. apply ztake_zdrop_id.
Qed.

(** [split_off] keeps the first [n] bytes and returns the rest, but only when [n]
    plus the cursor is at most what is left: the assertion adds the cursor on one side
    alone, so a view that was partly read panics for positions it holds. *)
Lemma view_split_off_bytes {I} `{ViewInnerLaws I} (v : view I) n :
  view_ok mem v → 0 <= n < 2 ^ 63 →
  (n + cursor v <= zlen (bytes mem v) ∧ ∃ v' o, view_split_off p mem v n = Ret (v', o) ∧
     view_ok mem v' ∧ view_ok mem o ∧ zlen (bytes mem v') = n ∧
     bytes mem v' ++ bytes mem o = bytes mem v ∧ cursor v' = cursor v ∧ cursor o = 0) ∨
  (zlen (bytes mem v) < n + cursor v ∧ view_split_off p mem v n = Panic Assert).
Proof.
  intros Hv Hn. destruct (split_off_spec p mem v n Hv Hn)
    as [(Hle & v' & o & He & ? & ? & Ho & Hv' & ? & ?)|?]; [left|by right].
  pose proof (proj1 (proj2 Hv)).
  split; [done|]. exists v', o. split_and!; try done.
  - rewrite Ho, zlen_ztake by lia. lia.
  - rewrite Ho, Hv'. apply ztake_zdrop_id.
Qed.

(** [BufView::truncate] keeps the first [size] unread bytes.
    [BufMutView::truncate] does so too as long as they are as many as were read;
    otherwise its cursor moves back and the view starts with bytes that were read. *)
Lemma view_truncate_bytes (v : BufView B) (w : BufMutView BM) size :
  view_ok mem v → view_ok mem w → 0 <= size →
  size + cursor v < 2 ^ 63 → size + cursor w < 2 ^ 63 →
  (∃ v', view_truncate p v size = Ret v' ∧ view_ok mem v' ∧
     bytes mem v' = ztake size (bytes mem v)) ∧
  ∃ w', mut_truncate p mem w size = Ret w' ∧ view_ok mem w' ∧
    let left := zlen (ztake size (bytes mem w)) in
    if decide (cursor w <= left) then bytes mem w' = ztake size (bytes mem w)
    else bytes mem w' =
      zdrop left (ztake (cursor w) (content mem (inner w))) ++ ztake size (bytes mem w).
Proof.
  intros Hv Hw Hs Hlv Hlw. split.
  - destruct (truncate_spec p mem v size Hv Hs Hlv) as (v' & ? & ? & ? & _). by exists v'.
  - destruct (mut_truncate_spec p mem w size Hw Hs Hlw) as (w' & ? & ? & Hc & Hb).
    exists w'. split; [done|]. split; [done|]. rewrite zlen_ztake by done. simpl.
    rewrite Hb, Hc. case_decide as Hd.
    + rewrite Z.min_l by done. rewrite zdrop_all; [done|].
      destruct Hw as [_ Hcw]. rewrite zlen_ztake by lia. lia.
    + by rewrite Z.min_r by lia.
Qed.

(** [maybe_resize] makes the unread part [target] bytes long, or shorter when the
    increment does not reach; it keeps what is there and fills with zeros.  A view
    over a JavaScript buffer is left alone.  [into_view] shows the same bytes. *)
Lemma mut_view_resize (w : BufMutView BM) target increment :
  view_ok mem w → 0 <= target → 0 <= increment → target + cursor w < 2 ^ 63 →
  zlen (content mem (inner w)) + increment < 2 ^ 63 →
  let wanted := Z.min target (zlen (bytes mem w) + increment) in
  ∃ r w', maybe_resize p mem w target increment = Ret (r, w') ∧ view_ok mem w' ∧
    view_ok mem (into_view w') ∧ bytes mem (into_view w') = bytes mem w' ∧
    match inner w with
    | MJsBuffer _ => r = None ∧ w' = w
    | MBytes _ => r = Some (cursor w + wanted) ∧
        bytes mem w' =
          ztake wanted (bytes mem w ++ replicate (Z.to_nat (wanted - zlen (bytes mem w))) 0)
    end.
Proof.
  intros Hw Ht Hi Hlt Hli wanted. destruct w as [[s|b] c].
  - destruct (into_view_spec mem _ Hw) as (? & ? & _). by eexists None, _.
  - destruct (maybe_resize_bytes p mem b c target increment Hw Ht Hi Hlt Hli) as (w' & ? & ? & ?).
    destruct (into_view_spec mem w') as (? & ? & _); [done|]. by eexists _, w'.
Qed.
End properties.

(** * A concrete buffer *)

(** Byte lists as [Bytes] and [BytesMut]. *)
Record owned := mkOwned { owned_bytes : list Z }.

Definition owned_cut (l : list Z) (n : Z) : outcome (owned * owned) :=
  if decide (n <= zlen l) then Ret (mkOwned (ztake n l), mkOwned (zdrop n l))
  else Panic OutOfBounds.

Global Instance owned_buffer : Buffer owned := {
  content _ b := owned_bytes b;
  buf_truncate _ b n := Ret (mkOwned (ztake n (owned_bytes b)));
  buf_split_off _ _ b n := owned_cut (owned_bytes b) n;
  buf_split_to _ _ b n := '(a, b) ← owned_cut (owned_bytes b) n; Ret (b, a)
}.

Global Program Instance owned_laws : BufferLaws owned := {
  buf_ok _ b := zlen (owned_bytes b) < 2 ^ 63
}.
Next Obligation. done. Qed.
Next Obligation.
  intros p mem b n Hb Hn. eexists. split; [done|]. simpl in *. split; [|done].
  rewrite zlen_ztake by lia. lia.
Qed.
Next Obligation.
  intros p mem [l] n Hb Hn. simpl in *. unfold owned_cut. rewrite decide_True by lia.
  eexists _, _. split; [done|]. simpl. rewrite zlen_ztake, zlen_zdrop by lia.
  split_and!; try done; lia.
Qed.
Next Obligation.
  intros p mem [l] n Hb Hn. simpl in *. unfold owned_cut. rewrite decide_True by lia.
  eexists _, _. split; [done|]. simpl. rewrite zlen_ztake, zlen_zdrop by lia.
  split_and!; try done; lia.
Qed.

Global Instance owned_ops : BytesMutOps owned owned := {
  zeroed n := mkOwned (replicate (Z.to_nat n) 0);
  resize b n := mkOwned (ztake n (owned_bytes b) ++
                  replicate (Z.to_nat (n - zlen (owned_bytes b))) 0);
  freeze b := b
}.

Global Program Instance owned_mut_laws : BytesMutLaws owned owned := {}.
Next Obligation.
  intros mem n Hn. simpl. split; [|done]. unfold zlen. rewrite length_replicate. lia.
Qed.
Next Obligation.
  intros mem b n Hb Hn. simpl in *. split; [|done]. rewrite zlen_app, zlen_ztake by lia.
  unfold zlen at 2. rewrite length_replicate. pose proof (zlen_nonneg (owned_bytes b)).
  destruct (decide (n <= zlen (owned_bytes b))); lia.
Qed.
Next Obligation. intros mem b Hb. by split. Qed.

(** Eight bytes of which five were read. *)
Definition half_read {I} (i : owned → I) : view I := mkView (i (mkOwned [1; 2; 3; 4; 5; 6; 7; 8])) 5.
Definition demo_view : BufView owned := half_read VBytes.
Definition demo_mut : BufMutView owned := half_read MBytes.

Lemma view_cursor_example :
  view_len Debug ∅ demo_view = Ret 3 ∧ deref ∅ demo_view = Ret [6; 7; 8] ∧
  ((2 <= 3 ∧ ∃ v', advance_cursor Debug ∅ demo_view 2 = Ret v' ∧ view_ok ∅ v' ∧
      bytes ∅ v' = [8] ∧
      bytes ∅ (reset_cursor v').2 = [1; 2; 3; 4; 5; 6; 7; 8]) ∨
   (3 < 2 ∧ advance_cursor Debug ∅ demo_view 2 = Panic Assert)).
Proof. exact (view_cursor Debug ∅ demo_view 2 ltac:(by split) ltac:(lia)). Qed.

Lemma view_split_to_bytes_example :
  (2 <= 3 ∧ ∃ v' o, view_split_to Debug ∅ demo_view 2 = Ret (v', o) ∧
     view_ok ∅ v' ∧ view_ok ∅ o ∧ zlen (bytes ∅ o) = 2 ∧ bytes ∅ o ++ bytes ∅ v' = [6; 7; 8]) ∨
  (3 < 2 ∧ view_split_to Debug ∅ demo_view 2 = Panic Assert).
Proof. exact (view_split_to_bytes Debug ∅ demo_view 2 ltac:(by split) ltac:(lia)). Qed.

(** Three bytes are left; splitting after the first panics. *)
Lemma view_split_off_bytes_example :
  (1 + 5 <= 3 ∧ ∃ v' o, view_split_off Debug ∅ demo_view 1 = Ret (v', o) ∧
     view_ok ∅ v' ∧ view_ok ∅ o ∧ zlen (bytes ∅ v') = 1 ∧
     bytes ∅ v' ++ bytes ∅ o = [6; 7; 8] ∧ cursor v' = 5 ∧ cursor o = 0) ∨
  (3 < 1 + 5 ∧ view_split_off Debug ∅ demo_view 1 = Panic Assert).
Proof. exact (view_split_off_bytes Debug ∅ demo_view 1 ltac:(by split) ltac:(lia)). Qed.

(** Truncating the mutable view to two bytes leaves five: three were read already. *)
Lemma view_truncate_bytes_example :
  (∃ v', view_truncate Debug demo_view 2 = Ret v' ∧ view_ok ∅ v' ∧ bytes ∅ v' = [6; 7]) ∧
  ∃ w', mut_truncate Debug ∅ demo_mut 2 = Ret w' ∧ view_ok ∅ w' ∧
    bytes ∅ w' = [3; 4; 5; 6; 7].
Proof.
  exact (view_truncate_bytes Debug ∅ demo_view demo_mut 2 ltac:(by split) ltac:(by split)
    ltac:(lia) ltac:(done) ltac:(done)).
Qed.

Lemma mut_view_resize_example :
  ∃ r w', maybe_resize Debug ∅ demo_mut 10 4 = Ret (r, w') ∧ view_ok ∅ w' ∧
    view_ok ∅ (into_view w') ∧ bytes ∅ (into_view w') = bytes ∅ w' ∧
    r = Some 12 ∧ bytes ∅ w' = [6; 7; 8; 0; 0; 0; 0].
Proof.
  exact (mut_view_resize Debug ∅ demo_mut 10 4 ltac:(by split) ltac:(lia) ltac:(lia)
    ltac:(done) ltac:(done)).
Qed.

(** Release builds wrap in [truncate]: a size of [usize::MAX] empties the buffer below
    the cursor, although the size is greater than the length. *)
Example truncate_wraps :
  view_truncate Release demo_view (2 ^ 64 - 1) =
    Ret (mkView (VBytes (mkOwned [1; 2; 3; 4])) 5).
Proof. vm_compute. reflexivity. Qed.
