(* ===== verification/Resources.v ===== *)
(** [core/io/resource_table.rs], [resource_handle.rs], [resource.rs],
    [buffer_strategy.rs] and [core/gotham_state.rs]: what ops keep and find by an id or
    by a type.

    Holds the table of resources, the handles behind them, the default [write_all], the
    adaptive size of read buffers and the state keyed by type.  Resources themselves are
    Rust objects of the embedder: a type with the methods the table calls. *)

From S2P Require Import Prelude Buffers.

Local Open Scope Z_scope.

Definition TypeId : Type := Z.
Definition ResourceId : Type := Z.

(** * Handles (on unix) *)

Inductive ResourceHandle := Fd (fd : Z) | Socket (fd : Z).
Global Instance ResourceHandle_eq_dec : EqDecision ResourceHandle.
Proof. solve_decision. Defined.

Definition is_valid (h : ResourceHandle) : bool :=
  match h with Fd fd => bool_decide (0 <= fd) | Socket fd => bool_decide (0 <= fd) end.
Definition as_fd_like (h : ResourceHandle) : option Z :=
  match h with Fd fd => Some fd | Socket _ => None end.
Definition as_socket_like (h : ResourceHandle) : option Z :=
  match h with Socket socket => Some socket | Fd _ => None end.

Inductive ResourceError := Reference | BadResourceId | Unavailable | OtherError (s : string).
Global Instance ResourceError_eq_dec : EqDecision ResourceError.
Proof. solve_decision. Defined.

(** * The table *)

(** What the table calls on a [dyn Resource]. *)
Class Resource (res : Type) := {
  type_id : res → TypeId;
  res_name : res → string;
  backing_handle : res → option ResourceHandle
}.

Section table.
Context {res : Type} `{Resource res} (p : profile).

Record ResourceTable := mkTable { index : gmap ResourceId res; next_rid : ResourceId }.
Implicit Types (t : ResourceTable).

Definition table_default : ResourceTable := mkTable ∅ 0.
Definition table_len t : Z := Z.of_nat (size (index t)).
Definition table_is_empty t : bool := bool_decide (index t = ∅).

Definition add_rc_dyn t (resource : res) : outcome (ResourceId * ResourceTable) :=
  let rid := next_rid t in
  let removed_resource := index t !! rid in
  let index := <[rid := resource]> (index t) in
  _ ← assert (match removed_resource with None => true | Some _ => false end);
  next_rid ← add_w p 32 rid 1;
  Ret (rid, mkTable index next_rid).

Definition has t (rid : ResourceId) : bool :=
  match index t !! rid with Some _ => true | None => false end.

Definition downcast_rc (T : TypeId) (r : res) : option res :=
  if decide (type_id r = T) then Some r else None.

Definition ok_or {A} (o : option A) (e : ResourceError) : result A ResourceError :=
  match o with Some a => Ok a | None => Err e end.

Definition get (T : TypeId) t (rid : ResourceId) : result res ResourceError :=
  ok_or (r ← index t !! rid; downcast_rc T r) BadResourceId.
Definition get_any t (rid : ResourceId) : result res ResourceError :=
  ok_or (index t !! rid) BadResourceId.

Definition replace t (rid : ResourceId) (resource : res) : outcome ResourceTable :=
  let result := index t !! rid in
  let t := mkTable (<[rid := resource]> (index t)) (next_rid t) in
  _ ← assert (match result with Some _ => true | None => false end);
  Ret t.

Definition remove t (rid : ResourceId) : ResourceTable :=
  mkTable (delete rid (index t)) (next_rid t).

Definition take (T : TypeId) t (rid : ResourceId) : result res ResourceError * ResourceTable :=
  match get T t rid with
  | Ok resource => (Ok resource, remove t rid)
  | Err e => (Err e, t)
  end.

Definition take_any t (rid : ResourceId) : result res ResourceError * ResourceTable :=
  (ok_or (index t !! rid) BadResourceId, remove t rid).

(** [close]: the resource whose [close] method runs comes with the result. *)
Definition close t (rid : ResourceId) :
    result unit ResourceError * option res * ResourceTable :=
  match index t !! rid with
  | Some resource => (Ok tt, Some resource, remove t rid)
  | None => (Err BadResourceId, None, remove t rid)
  end.

Definition names t : list (ResourceId * string) :=
  (λ e, (e.1, res_name e.2)) <$> map_to_list (index t).

Definition get_handle t (rid : ResourceId) : result ResourceHandle ResourceError :=
  match get_any t rid with
  | Err e => Err e
  | Ok r =>
      match backing_handle r with
      | None => Err BadResourceId
      | Some handle => if is_valid handle then Ok handle else Err Reference
      end
  end.

Definition get_like (as_like : ResourceHandle → option Z) t (rid : ResourceId) :
    result Z ResourceError :=
  match get_any t rid with
  | Err e => Err e
  | Ok r =>
      match backing_handle r with
      | None => Err BadResourceId
      | Some handle =>
          match as_like handle with
          | None => Err BadResourceId
          | Some fd => if is_valid handle then Ok fd else Err Reference
          end
      end
  end.
Definition get_fd := get_like as_fd_like.
Definition get_socket := get_like as_socket_like.

(** Ids were handed out below [next_rid]. *)
Definition table_ok t : Prop :=
  0 <= next_rid t < 2 ^ 32 ∧ ∀ rid, is_Some (index t !! rid) → 0 <= rid < next_rid t.

Lemma table_default_ok : table_ok table_default.
Proof. split; simpl; [lia|]. intros rid [x Hx]. by rewrite lookup_empty in Hx. Qed.

Lemma remove_ok t rid : table_ok t → table_ok (remove t rid).
Proof.
  intros [Hn Hi]. split; [done|]. simpl. intros rid' [x Hx].
  apply lookup_delete_Some in Hx as [_ Hx]. by apply Hi.
Qed.
End table.
Arguments ResourceTable : clear implicits.

(** * [Resource::write_all] *)

Section write.
Context {B W X : Type} `{BufferLaws B} (p : profile) (mem : memory).

Inductive WriteOutcome :=
  | Partial (nwritten : Z) (view : BufView B)
  | Full (nwritten : Z).

Definition nwritten (o : WriteOutcome) : Z :=
  match o with Partial n _ => n | Full n => n end.

(** [write] of the resource, which may change the world. *)
Context (write : W → BufView B → result WriteOutcome X * W).

Fixpoint write_all (fuel : nat) (view : BufView B) (w : W) :
    outcome (result unit X * W) :=
  match fuel with
  | O => Panic OutOfFuel
  | S fuel =>
      empty ← view_is_empty p mem view;
      if (empty : bool) then Ret (Ok tt, w) else
      let '(resp, w) := write w view in
      match resp with
      | Err e => Ret (Err e, w)
      | Ok (Partial nwritten new_view) =>
          view ← advance_cursor p mem new_view nwritten;
          write_all fuel view w
      | Ok (Full _) => Ret (Ok tt, w)
      end
  end.

(** [sent]: what the resource has sent.  A good resource sends what it says it wrote,
    at least a byte, and gives the view back. *)
Definition good_writer (sent : W → list Z) : Prop :=
  ∀ w v, view_ok mem v → bytes mem v ≠ [] →
    match write w v with
    | (Err _, w') => sent w' = sent w
    | (Ok (Partial n v'), w') =>
        v' = v ∧ 0 < n <= zlen (bytes mem v) ∧ sent w' = sent w ++ ztake n (bytes mem v)
    | (Ok (Full n), w') => n = zlen (bytes mem v) ∧ sent w' = sent w ++ bytes mem v
    end.

Lemma view_is_empty_spec (v : BufView B) :
  view_ok mem v → view_is_empty p mem v = Ret (bool_decide (bytes mem v = [])).
Proof.
  intros Hv. unfold view_is_empty. rewrite view_len_spec by done. simpl. f_equal.
  apply bool_decide_ext. unfold zlen. destruct (bytes mem v); simpl; split; try done; lia.
Qed.

Lemma write_all_spec sent fuel v w :
  good_writer sent → view_ok mem v → (length (bytes mem v) < fuel)%nat →
  ∃ r w', write_all fuel v w = Ret (r, w') ∧
    match r with
    | Ok _ => sent w' = sent w ++ bytes mem v
    | Err _ => ∃ n, 0 <= n < zlen (bytes mem v) ∧ sent w' = sent w ++ ztake n (bytes mem v)
    end.
Proof.
  intros Hw. revert v w. induction fuel as [|fuel IH]; intros v w Hv Hf; [lia|].
  simpl. rewrite view_is_empty_spec by done. simpl.
  case_bool_decide as He; [rewrite He, app_nil_r; by eexists _, _|].
  specialize (Hw w v Hv He).
  assert (0 < zlen (bytes mem v)) as Hpos.
  { unfold zlen. destruct (bytes mem v); simpl; [done|lia]. }
  destruct (write w v) as [[[n v'|n]|e] w1].
  - destruct Hw as (-> & Hn & Hs).
    destruct (advance_spec p mem v n Hv) as [(_ & v1 & -> & Hv1 & Hb1 & _)|[Hlt _]]; [lia| |lia].
    simpl. pose proof (zlen_zdrop n (bytes mem v)) as Hl. rewrite <- Hb1 in Hl.
    destruct (IH v1 w1 Hv1) as (r & w2 & Hr & Hsent); [unfold zlen in *; lia|].
    exists r, w2. split; [done|]. destruct r as [u|e].
    + rewrite Hsent, Hs, Hb1, <- (assoc_L (++)). by rewrite ztake_zdrop_id.
    + destruct Hsent as (k & Hk & Hsent). exists (n + k). split; [lia|].
      rewrite Hsent, Hs, Hb1, <- (assoc_L (++)). f_equal.
      rewrite <- (ztake_zdrop_id n (ztake (n + k) (bytes mem v))).
      rewrite ztake_ztake, zdrop_ztake by lia.
      replace (Z.min n (n + k)) with n by lia. by replace (n + k - n) with k by lia.
  - destruct Hw as [_ Hs]. by eexists _, _.
  - eexists _, _. split; [done|]. exists 0. split; [lia|]. by rewrite Hw, app_nil_r.
Qed.
End write.
Arguments WriteOutcome : clear implicits.

(** * The size of read buffers *)

Definition STANDARD_BUFFER_SIZE : Z := 64 * 1024.
Definition TINY_BUFFER_SIZE : Z := 1024.
Definition MAX_GROW_LEN : Z := 16 * 1024 * 1024.
Definition usize_MAX : Z := 2 ^ 64 - 1.

(** [usize::next_power_of_two]. *)
Definition next_power_of_two (p : profile) (n : Z) : outcome Z :=
  let r := 2 ^ Z.log2_up n in
  if decide (r < 2 ^ 64) then Ret r
  else match p with Debug => Panic Overflow | Release => Ret 0 end.

Global Arguments next_power_of_two : simpl never.

Inductive SizeClass :=
  | Unknown
  | LikelyEmpty
  | LikelyKnown (n : Z)
  | Between (min max : Z)
  | BoundedMax (max : Z)
  | BoundedMin (min : Z).

Definition from_size_hint (min : Z) (maybe_max : option Z) : SizeClass :=
  match maybe_max with
  | None => if decide (min = 0) then Unknown else BoundedMin min
  | Some max =>
      if decide (min = 0) then if decide (max = 0) then LikelyEmpty else BoundedMax max
      else if decide (min = max) then LikelyKnown min else Between min max
  end.

Definition to_size_hint (c : SizeClass) : Z * option Z :=
  match c with
  | Unknown => (0, None)
  | LikelyEmpty => (0, Some 0)
  | LikelyKnown n => (n, Some n)
  | BoundedMin n => (n, None)
  | BoundedMax n => (0, Some n)
  | Between min max => (min, Some max)
  end.

Definition initial_buffer_size (p : profile) (c : SizeClass) : outcome Z :=
  size ← match c with
         | Unknown => Ret STANDARD_BUFFER_SIZE
         | LikelyEmpty => Ret 0
         | LikelyKnown n => next_power_of_two p n
         | BoundedMin n => k ← next_power_of_two p n; Ret (Z.max STANDARD_BUFFER_SIZE k)
         | BoundedMax n => k ← next_power_of_two p n; Ret (Z.min STANDARD_BUFFER_SIZE k)
         | Between min _ => k ← next_power_of_two p min; Ret (Z.max STANDARD_BUFFER_SIZE k)
         end;
  Ret (Z.max size TINY_BUFFER_SIZE).

Definition class_remaining (c : SizeClass) : Z :=
  match c with
  | Unknown => usize_MAX
  | LikelyEmpty => 0
  | LikelyKnown n => n
  | BoundedMin _ => usize_MAX
  | BoundedMax n => n
  | Between _ max => max
  end.

Record AdaptiveBufferStrategy := mkStrategy { grow_len : Z; expected_remaining : Z }.

Definition new_from_hint (p : profile) (min : Z) (maybe_max : option Z) :
    outcome AdaptiveBufferStrategy :=
  let size_class := from_size_hint min maybe_max in
  grow_len ← initial_buffer_size p size_class;
  Ret (mkStrategy grow_len (class_remaining size_class)).

Definition buffer_size (s : AdaptiveBufferStrategy) : Z := grow_len s.

Definition notify_read (s : AdaptiveBufferStrategy) (nread : Z) : AdaptiveBufferStrategy :=
  let expected_remaining := Z.max 0 (expected_remaining s - nread) in
  let grow_len :=
    if decide (nread >= grow_len s ∧ grow_len s < MAX_GROW_LEN ∧ expected_remaining > 0)
    then grow_len s * 2 else grow_len s in
  mkStrategy grow_len expected_remaining.

Definition power_of_two (n : Z) : Prop := ∃ k, 0 <= k ∧ n = 2 ^ k.

Lemma next_power_spec p n :
  0 <= n <= 2 ^ 63 → ∃ r, next_power_of_two p n = Ret r ∧ power_of_two r ∧ n <= r ∧
    (1 < n → r < 2 * n) ∧ r <= 2 ^ 63.
Proof.
  intros Hn. unfold next_power_of_two.
  assert (Z.log2_up n <= 63) as Hl by (apply (Z.log2_up_le_mono n (2 ^ 63)); lia).
  pose proof (Z.log2_up_nonneg n). assert (2 ^ Z.log2_up n <= 2 ^ 63) as Hp by (apply Z.pow_le_mono_r; lia).
  rewrite decide_True by lia. eexists. split; [done|]. split; [by exists (Z.log2_up n)|].
  destruct (decide (1 < n)) as [H1|].
  - destruct (Z.log2_up_spec n H1) as [Hlo Hhi]. split; [done|]. split; [|done]. intros _.
    rewrite <- (Z.succ_pred (Z.log2_up n)). rewrite Z.pow_succ_r; [lia|].
    pose proof (Z.log2_up_pos n). lia.
  - rewrite Z.log2_up_eqn0 by lia. split; [simpl; lia|]. split; [lia|]. simpl. lia.
Qed.

Lemma next_power_overflow p n :
  2 ^ 63 < n < 2 ^ 64 →
  next_power_of_two p n = match p with Debug => Panic Overflow | Release => Ret 0 end.
Proof.
  intros Hn. unfold next_power_of_two. rewrite decide_False; [done|].
  assert (63 < Z.log2_up n) as Hl.
  { apply Z.nle_gt. intros Hle.
    pose proof (Z.pow_le_mono_r 2 _ _ ltac:(lia) Hle).
    destruct (Z.log2_up_spec n) as [_ Hs]; lia. }
  assert (2 ^ 64 <= 2 ^ Z.log2_up n) by (apply Z.pow_le_mono_r; lia). lia.
Qed.

(** The sizes of buffers: powers of two of at least a kilobyte. *)
Definition strategy_ok (s : AdaptiveBufferStrategy) : Prop :=
  power_of_two (grow_len s) ∧ TINY_BUFFER_SIZE <= grow_len s ∧ 0 <= expected_remaining s.

Lemma power_max a b : power_of_two a → power_of_two b → power_of_two (Z.max a b).
Proof. intros Ha Hb. by destruct (Z.max_spec a b) as [[_ ->]|[_ ->]]. Qed.
Lemma power_min a b : power_of_two a → power_of_two b → power_of_two (Z.min a b).
Proof. intros Ha Hb. by destruct (Z.min_spec a b) as [[_ ->]|[_ ->]]. Qed.

Lemma power_tiny : power_of_two TINY_BUFFER_SIZE.
Proof. by exists 10. Qed.
Lemma power_standard : power_of_two STANDARD_BUFFER_SIZE.
Proof. by exists 16. Qed.

Lemma power_lt a k : power_of_two a → 0 <= k → a < 2 ^ k → a * 2 <= 2 ^ k.
Proof.
  intros (i & Hi & ->) Hk Hlt. apply Z.pow_lt_mono_r_iff in Hlt; [|lia..].
  rewrite Z.mul_comm, <- Z.pow_succ_r by lia. apply Z.pow_le_mono_r; lia.
Qed.

(** * State keyed by type *)

Section gotham.
(** [denote t] is the type whose [TypeId] is [t]. *)
Context (denote : TypeId → Type).

Record dyn := mkDyn { dyn_type : TypeId; dyn_value : denote dyn_type }.

(** [Any::downcast]. *)
Definition downcast (T : TypeId) (d : dyn) : option (denote T) :=
  match decide (dyn_type d = T) with
  | left e => Some (eq_rect (dyn_type d) denote (dyn_value d) T e)
  | right _ => None
  end.

Definition GothamState : Type := gmap TypeId dyn.
Implicit Types (s : GothamState).

Definition gs_put (T : TypeId) (t : denote T) s : GothamState := <[T := mkDyn T t]> s.
Definition gs_has (T : TypeId) s : bool :=
  match s !! T with Some _ => true | None => false end.
Definition gs_try_borrow (T : TypeId) s : option (denote T) := b ← s !! T; downcast T b.
Definition gs_borrow (T : TypeId) s : outcome (denote T) := unwrap (gs_try_borrow T s).
(** [borrow_mut] and a write through the reference. *)
Definition gs_update (T : TypeId) (f : denote T → denote T) s : outcome GothamState :=
  t ← unwrap (gs_try_borrow T s); Ret (<[T := mkDyn T (f t)]> s).
Definition gs_try_take (T : TypeId) s : option (denote T) * GothamState :=
  (b ← s !! T; downcast T b, delete T s).
Definition gs_take (T : TypeId) s : outcome (denote T * GothamState) :=
  let '(t, s) := gs_try_take T s in
  t ← unwrap t; Ret (t, s).

(** Values are kept under their own type. *)
Definition gotham_ok s : Prop := ∀ T d, s !! T = Some d → dyn_type d = T.

Lemma downcast_same T t : downcast T (mkDyn T t) = Some t.
Proof.
  unfold downcast. destruct (decide _) as [e|n]; [|by destruct n].
  simpl in *. by rewrite (Eqdep_dec.UIP_dec Z.eq_dec e eq_refl).
Qed.

Lemma downcast_some T d : dyn_type d = T → is_Some (downcast T d).
Proof. intros He. unfold downcast. destruct (decide _); [by eexists|done]. Qed.
End gotham.

(** * Properties *)

Section table_properties.
Context {res : Type} `{Resource res} (p : profile).
Implicit Types (t : ResourceTable res).

(** Ids of resources. An added resource gets an id that no resource has and is
    found under it, the others stay; the id space ends at [u32::MAX], where a debug
    build panics and a release build starts again at 0.  A resource is found and taken
    under its type only; a taken resource is gone, and nothing else changes. *)
Lemma resource_table_ids t r :
  table_ok t →
  index t !! next_rid t = None ∧
  (if decide (next_rid t + 1 < 2 ^ 32) then
     ∃ t', add_rc_dyn p t r = Ret (next_rid t, t') ∧ table_ok t' ∧
       get (type_id r) t' (next_rid t) = Ok r ∧
       ∀ rid, rid ≠ next_rid t → index t' !! rid = index t !! rid
   else match p with
        | Debug => add_rc_dyn p t r = Panic Overflow
        | Release => ∃ t', add_rc_dyn p t r = Ret (next_rid t, t') ∧ next_rid t' = 0
        end) ∧
  ∀ T rid, match index t !! rid with
    | None => get T t rid = Err BadResourceId ∧ take T t rid = (Err BadResourceId, t) ∧
        take_any t rid = (Err BadResourceId, t) ∧ close t rid = (Err BadResourceId, None, t)
    | Some x =>
        (if decide (type_id x = T) then
           get T t rid = Ok x ∧ take T t rid = (Ok x, remove t rid)
         else get T t rid = Err BadResourceId ∧ take T t rid = (Err BadResourceId, t)) ∧
        take_any t rid = (Ok x, remove t rid) ∧ close t rid = (Ok tt, Some x, remove t rid) ∧
        table_ok (remove t rid) ∧ get T (remove t rid) rid = Err BadResourceId ∧
        ∀ rid', rid' ≠ rid → index (remove t rid) !! rid' = index t !! rid'
    end.
Proof.
  intros Ht. pose proof Ht as [Hn Hi].
  assert (index t !! next_rid t = None) as Hfresh.
  { destruct (index t !! next_rid t) eqn:He; [|done].
    destruct (Hi (next_rid t)) as [_ ?]; [by eexists|lia]. }
  split; [done|]. split.
  - unfold add_rc_dyn. rewrite Hfresh. simpl. case_decide as Hlt.
    + rewrite add_w_fits by done. simpl. eexists. split; [done|]. split; [split; simpl; [lia|]|].
      { intros rid [x [[<- _]|[_ Hx]]%lookup_insert_Some]; [lia|].
        destruct (Hi rid) as [? ?]; [by eexists|lia]. }
      split; [|by intros rid Hne; simpl; rewrite lookup_insert_ne].
      unfold get. simpl. rewrite lookup_insert_eq. simpl. unfold downcast_rc.
      by rewrite decide_True.
    + unfold add_w. rewrite decide_False by done. destruct p; [done|]. simpl.
      eexists. split; [done|]. simpl. replace (next_rid t + 1) with (2 ^ 32) by lia. done.
  - intros T rid. destruct (index t !! rid) as [x|] eqn:He.
    + unfold take, take_any, close, get, downcast_rc. rewrite He. simpl.
      split; [by case_decide|]. split; [done|]. split; [done|]. split; [by apply remove_ok|].
      rewrite lookup_delete_eq. split; [done|]. intros rid' Hne. by rewrite lookup_delete_ne.
    + assert (remove t rid = t) as Hrm.
      { destruct t as [m n]. unfold remove. simpl in *. by rewrite delete_id. }
      unfold take, take_any, close, get. rewrite He. simpl. by rewrite Hrm.
Qed.
End table_properties.

(** The default [write_all] sends the bytes of a view once and in order, in as many
    writes as the resource takes: it ends, with all of them sent or with the error of
    the write that failed and a strict prefix sent. *)
Lemma write_all_sends {B W X} `{BufferLaws B} p mem
    (write : W → BufView B → result (WriteOutcome B) X * W) (sent : W → list Z) v w :
  good_writer mem write sent → view_ok mem v →
  ∃ r w', (∀ fuel, (length (bytes mem v) < fuel)%nat →
      write_all p mem write fuel v w = Ret (r, w')) ∧
    match r with
    | Ok _ => sent w' = sent w ++ bytes mem v
    | Err _ => ∃ n, 0 <= n < zlen (bytes mem v) ∧ sent w' = sent w ++ ztake n (bytes mem v)
    end.
Proof.
  intros Hw Hv. set (n := S (length (bytes mem v))).
  destruct (write_all_spec p mem write sent n v w Hw Hv) as (r & w' & Hr & Hs); [lia|].
  exists r, w'. split; [|done]. intros fuel Hf.
  assert (n <= fuel)%nat as Hle by lia. clearbody n. clear Hf Hs Hv Hw.
  revert v w fuel Hr Hle.
  induction n as [|n IH]; intros v w fuel Hr Hle; [done|].
  destruct fuel as [|fuel]; [lia|]. simpl in *.
  destruct (view_is_empty p mem v) as [[]|]; simpl in *; try done.
  destruct (write w v) as [[[k v'|k]|e] w1]; try done.
  destruct (advance_cursor p mem v' k) as [v1|]; simpl in *; [|done]. apply IH; [done|lia].
Qed.

Lemma initial_size p min maybe_max :
  0 <= min <= 2 ^ 63 → (∀ max, maybe_max = Some max → 0 <= max <= 2 ^ 63) →
  ∃ s, new_from_hint p min maybe_max = Ret s ∧ strategy_ok s ∧
    (maybe_max = Some min → min <= grow_len s ∧
       (TINY_BUFFER_SIZE < min → grow_len s < 2 * min)).
Proof.
  intros Hmin Hmax. unfold new_from_hint, initial_buffer_size, strategy_ok, class_remaining.
  pose proof power_tiny as Ht. pose proof power_standard as Hs.
  assert (∀ n, 0 <= n <= 2 ^ 63 → ∃ r, next_power_of_two p n = Ret r ∧ power_of_two r ∧
    n <= r ∧ (1 < n → r < 2 * n) ∧ r <= 2 ^ 63) as Hnp by (intros n; apply next_power_spec).
  unfold from_size_hint, usize_MAX, TINY_BUFFER_SIZE, STANDARD_BUFFER_SIZE in *.
  destruct maybe_max as [max|]; [specialize (Hmax max eq_refl)|]; repeat case_decide; subst; simpl;
    try (destruct (Hnp min Hmin) as (r & -> & Hr & Hge & Hlt & _));
    try (destruct (Hnp max Hmax) as (r & -> & Hr & Hge & Hlt & _));
    simpl; (eexists; split; [done|]); simpl;
    (split; [split; [auto using power_max, power_min|lia]|]);
    intros [=]; subst; lia.
Qed.

Lemma notify_read_spec s nread :
  strategy_ok s → 0 <= nread → let s' := notify_read s nread in
  strategy_ok s' ∧ grow_len s <= grow_len s' <= 2 * grow_len s ∧
  grow_len s' <= Z.max (grow_len s) MAX_GROW_LEN ∧
  (expected_remaining s <= nread → grow_len s' = grow_len s).
Proof.
  intros (Hp & Ht & He) Hn. unfold notify_read, strategy_ok, TINY_BUFFER_SIZE in *. simpl.
  case_decide as Hd.
  - assert (grow_len s * 2 <= MAX_GROW_LEN).
    { change MAX_GROW_LEN with (2 ^ 24). apply power_lt; [done|lia|]. apply Hd. }
    split; [|split; [lia|split; lia]]. split; [|lia].
    destruct Hp as (k & Hk & ->). exists (Z.succ k). rewrite Z.pow_succ_r by lia. lia.
  - split; [split; [done|lia]|]. split; [lia|]. split; [lia|done].
Qed.

(** The buffer of a hinted stream is a power of two of at least a kilobyte, and for
    a known length holds it at once. A read never shrinks it, doubles it at most, and
    neither beyond 16 MB nor when the hint says nothing is left. A minimum above 2^63
    overflows: a panic, or the standard size in a release build. *)
Lemma buffer_size_bounds p min maybe_max nread :
  0 <= min < 2 ^ 64 → (∀ max, maybe_max = Some max → 0 <= max <= 2 ^ 63) → 0 <= nread →
  (if decide (min <= 2 ^ 63) then
     ∃ s, new_from_hint p min maybe_max = Ret s ∧ strategy_ok s ∧
       (maybe_max = Some min → min <= buffer_size s ∧
          (TINY_BUFFER_SIZE < min → buffer_size s < 2 * min))
   else match p with
        | Debug => new_from_hint p min maybe_max = Panic Overflow
        | Release => ∃ s, new_from_hint p min maybe_max = Ret s ∧
            buffer_size s = STANDARD_BUFFER_SIZE
        end) ∧
  ∀ s, strategy_ok s → let s' := notify_read s nread in
    strategy_ok s' ∧ buffer_size s <= buffer_size s' <= 2 * buffer_size s ∧
    buffer_size s' <= Z.max (buffer_size s) MAX_GROW_LEN ∧
    (expected_remaining s <= nread → buffer_size s' = buffer_size s).
Proof.
  intros Hmin Hmax Hn. split; [|intros s Hs; by apply notify_read_spec].
  case_decide as Hd; [apply initial_size; [lia|done]|].
  assert (∀ max, maybe_max = Some max → min ≠ max) as Hne.
  { intros max Hm. specialize (Hmax max Hm). lia. }
  unfold new_from_hint, initial_buffer_size, from_size_hint.
  destruct maybe_max as [max|]; rewrite (decide_False (P := min = 0)) by lia;
    [rewrite (decide_False (P := min = max)) by (by apply Hne)|].
  all: simpl; rewrite next_power_overflow by lia; destruct p; try done; by eexists.
Qed.

(** [GothamState] keeps one value per type: what was put under a type is borrowed
    under it, other types are not affected, taking removes it, and borrowing a type that
    is absent panics. *)
Lemma gotham_state_laws (denote : TypeId → Type) (s : GothamState denote) T
    (t : denote T) (f : denote T → denote T) :
  gotham_ok denote s →
  let s' := gs_put denote T t s in
  gotham_ok denote s' ∧ gs_has denote T s' = true ∧ gs_borrow denote T s' = Ret t ∧
  gs_update denote T f s' = Ret (gs_put denote T (f t) s) ∧
  gs_take denote T s' = Ret (t, delete T s) ∧ gotham_ok denote (delete T s) ∧
  gs_borrow denote T (delete T s) = Panic Unwrap ∧ gs_has denote T (delete T s) = false ∧
  (∀ T', T' ≠ T → gs_try_borrow denote T' s' = gs_try_borrow denote T' s ∧
     gs_try_borrow denote T' (delete T s) = gs_try_borrow denote T' s) ∧
  ∀ T', gs_has denote T' s = true ↔ is_Some (gs_try_borrow denote T' s).
Proof.
  intros Hok s'. unfold gotham_ok, gs_has, gs_borrow, gs_update, gs_take, gs_try_take,
    gs_try_borrow, s', gs_put, GothamState in *.
  rewrite lookup_insert_eq, lookup_delete_eq. simpl. rewrite downcast_same. simpl.
  rewrite insert_insert_eq, delete_insert_eq. split_and!; try done.
  - intros T' d [[<- <-]|[_ Hd]]%lookup_insert_Some; [done|by apply Hok].
  - intros T' d [_ Hd]%lookup_delete_Some. by apply Hok.
  - intros T' Hne. by rewrite lookup_insert_ne, lookup_delete_ne by done.
  - intros T'. destruct (s !! T') as [d|] eqn:Hd; simpl; [|split; [done|by intros [? ?]]].
    split; [|done]. intros _. apply downcast_some. by apply Hok.
Qed.

(** * Concrete inputs *)

Record demo_resource := mkDemo { demo_type : TypeId; demo_handle : option ResourceHandle }.
Global Instance demo_res : Resource demo_resource := {
  type_id := demo_type;
  res_name _ := "demo"%string;
  backing_handle := demo_handle
}.

Definition demo_table : ResourceTable demo_resource :=
  mkTable {[0 := mkDemo 7 (Some (Fd 3))]} 1.

Lemma demo_table_ok : table_ok demo_table.
Proof.
  split; [simpl; lia|]. intros rid [x Hx]. simpl in Hx.
  apply lookup_singleton_Some in Hx as [<- _]. simpl. lia.
Qed.

(** A second resource gets the id 1. *)
Lemma resource_table_ids_example :
  index demo_table !! 1 = None ∧
  ∃ t', add_rc_dyn Debug demo_table (mkDemo 9 None) = Ret (1, t') ∧ table_ok t' ∧
    get 9 t' 1 = Ok (mkDemo 9 None) ∧
    ∀ rid, rid ≠ 1 → index t' !! rid = index demo_table !! rid.
Proof.
  destruct (resource_table_ids Debug demo_table (mkDemo 9 None) demo_table_ok) as (Hn & Ha & _).
  exact (conj Hn Ha).
Qed.

Example demo_fd : get_fd demo_table 0 = Ok 3 ∧ get_socket demo_table 0 = Err BadResourceId ∧
  get_fd demo_table 5 = Err BadResourceId.
Proof. split_and!; vm_compute; reflexivity. Qed.

(** A writer that takes two bytes at a time; the world is what it sent. *)
Definition two_bytes (w : list Z) (v : BufView owned) :
    result (WriteOutcome owned) string * list Z :=
  let n := Z.min 2 (zlen (bytes ∅ v)) in
  (Ok (Partial n v), w ++ ztake n (bytes ∅ v)).

Lemma write_all_sends_example :
  ∃ r w', (∀ fuel, (3 < fuel)%nat →
      write_all Debug ∅ two_bytes fuel demo_view [0] = Ret (r, w')) ∧
    match r with
    | Ok _ => w' = [0; 6; 7; 8]
    | Err _ => ∃ n, 0 <= n < 3 ∧ w' = [0] ++ ztake n [6; 7; 8]
    end.
Proof.
  refine (write_all_sends Debug ∅ two_bytes (λ w, w) demo_view [0] _ _); [|by split].
  intros w v Hv Hne. split; [done|]. split; [|done].
  assert (0 < zlen (bytes ∅ v)); [|lia].
  unfold zlen. destruct (bytes ∅ v); simpl; [done|lia].
Qed.

Lemma buffer_size_bounds_example :
  (∃ s, new_from_hint Debug 3000 (Some 3000) = Ret s ∧ strategy_ok s ∧
     (Some 3000 = Some 3000 → 3000 <= buffer_size s ∧
        (TINY_BUFFER_SIZE < 3000 → buffer_size s < 2 * 3000))) ∧
  ∀ s, strategy_ok s → let s' := notify_read s 70000 in
    strategy_ok s' ∧ buffer_size s <= buffer_size s' <= 2 * buffer_size s ∧
    buffer_size s' <= Z.max (buffer_size s) MAX_GROW_LEN ∧
    (expected_remaining s <= 70000 → buffer_size s' = buffer_size s).
Proof.
  refine (buffer_size_bounds Debug 3000 (Some 3000) 70000 _ _ _); [lia| |lia].
  intros max [= <-]. lia.
Qed.

Definition two_types (T : TypeId) : Type := if decide (T = 0) then nat else bool.

Lemma gotham_state_laws_example :
  let s : GothamState two_types := {[1 := mkDyn two_types 1 true]} in
  let s' := gs_put two_types 0 5%nat s in
  gs_borrow two_types 0 s' = Ret 5%nat ∧ gs_take two_types 0 s' = Ret (5%nat, delete 0 s) ∧
  gs_try_borrow two_types 1 s' = gs_try_borrow two_types 1 s.
Proof.
  intros s s'. destruct (gotham_state_laws two_types s 0 5%nat S) as
    (_ & _ & Hb & _ & Ht & _ & _ & _ & Ho & _).
  - intros T d Hd. unfold s, GothamState in Hd.
    apply lookup_singleton_Some in Hd as [<- <-]. reflexivity.
  - split; [exact Hb|]. split; [exact Ht|]. apply Ho. discriminate.
Qed.
