(* ===== verification/Arena.v ===== *)
(** [core/arena/raw_arena.rs] and [unique_arena.rs]: the arena of op futures.

    Memory is explicit: a slot of the arena holds what was written to it, a vacant one
    the link of the free list, and reading anything else than what is there is
    [BadMemory].  A pointer is a slot or a system allocation; positions are slot
    indices.  Dropping a value does not call back into the arena. *)

From S2P Require Import Prelude.

Inductive ptr := PSlot (i : nat) | PSystem (k : nat).
Global Instance ptr_eq_dec : EqDecision ptr.
Proof. solve_decision. Defined.

(** [RawArenaEntry]: the union of a link and a value. *)
Inductive entry (V : Type) := Link (next : nat) | Value (v : V).
Arguments Link {V} _.
Arguments Value {V} _.

Record RawArena (V : Type) := mkArena {
  capacity : nat;
  max : nat;  (** the high-water mark *)
  next : nat;
  allocated : Z;
  slots : gmap nat (entry V);
  heap : gmap nat (option V);  (** system allocations; [None] is not initialised *)
  heap_next : nat
}.
Arguments mkArena {V} _ _ _ _ _ _ _.
Arguments capacity {V} _.
Arguments max {V} _.
Arguments next {V} _.
Arguments allocated {V} _.
Arguments slots {V} _.
Arguments heap {V} _.
Arguments heap_next {V} _.

Section arena.
Context {V : Type} (p : profile).
Implicit Types (a : RawArena V).

Definition with_capacity (capacity : nat) : RawArena V := mkArena capacity 0 0 0 ∅ ∅ 0.

Definition set_list a (max next : nat) (allocated : Z) : RawArena V :=
  mkArena (capacity a) max next allocated (slots a) (heap a) (heap_next a).
Definition set_slot a (i : nat) (e : entry V) : RawArena V :=
  mkArena (capacity a) (max a) (next a) (allocated a) (<[i := e]> (slots a)) (heap a)
    (heap_next a).
Definition set_heap a (h : gmap nat (option V)) (n : nat) : RawArena V :=
  mkArena (capacity a) (max a) (next a) (allocated a) (slots a) h n.

(** [RawArenaEntry::next]. *)
Definition entry_next a (i : nat) : outcome nat :=
  match slots a !! i with Some (Link n) => Ret n | _ => Panic BadMemory end.

(** The value behind a pointer, which [drop_in_place] drops. *)
Definition read a (q : ptr) : outcome V :=
  match q with
  | PSlot i => match slots a !! i with Some (Value v) => Ret v | _ => Panic BadMemory end
  | PSystem k => match heap a !! k with Some (Some v) => Ret v | _ => Panic BadMemory end
  end.

(** [std::ptr::write] through a pointer that was handed out. *)
Definition write a (q : ptr) (v : V) : outcome (RawArena V) :=
  match q with
  | PSlot i => Ret (set_slot a i (Value v))
  | PSystem k =>
      match heap a !! k with
      | Some _ => Ret (set_heap a (<[k := Some v]> (heap a)) (heap_next a))
      | None => Panic BadMemory
      end
  end.

Definition allocate_if_space a : outcome (option ptr * RawArena V) :=
  let next := next a in
  let max := max a in
  if decide (max = next) then
    if decide (max = capacity a) then Ret (None, a)
    else
      allocated ← add_w p 64 (allocated a) 1;
      Ret (Some (PSlot next), set_list a (S max) (S max) allocated)
  else
    n ← entry_next a next;
    allocated ← add_w p 64 (allocated a) 1;
    Ret (Some (PSlot next), set_list a max n allocated).

(** [allocate] falls back to the system allocator. *)
Definition allocate a : outcome (ptr * RawArena V) :=
  let next := next a in
  let max := max a in
  if decide (max = next) then
    if decide (max = capacity a) then
      Ret (PSystem (heap_next a),
           set_heap a (<[heap_next a := None]> (heap a)) (S (heap_next a)))
    else
      allocated ← add_w p 64 (allocated a) 1;
      Ret (PSlot next, set_list a (S max) (S max) allocated)
  else
    n ← entry_next a next;
    allocated ← add_w p 64 (allocated a) 1;
    Ret (PSlot next, set_list a max n allocated).

Definition remaining a : outcome Z := sub_w p 64 (Z.of_nat (capacity a)) (allocated a).

(** The vacant slots, found by walking the links up to the high-water mark. *)
Fixpoint vacant_walk (fuel : nat) a (next : nat) (vacant : gset nat) : outcome (gset nat) :=
  if decide (next = max a) then Ret vacant
  else match fuel with
       | 0 => Panic OutOfFuel
       | S fuel => n ← entry_next a next; vacant_walk fuel a n ({[next]} ∪ vacant)
       end.

Fixpoint drop_entries a (l : list nat) : outcome (list V) :=
  match l with
  | [] => Ret []
  | i :: l => v ← read a (PSlot i); vs ← drop_entries a l; Ret (v :: vs)
  end.

(** [clear_allocated]; the values that it drops come with the arena.  There are at most
    [max] vacant slots. *)
Definition clear_allocated a : outcome (list V * RawArena V) :=
  dropped ← (if decide (allocated a > 0)%Z then
      vacant ← vacant_walk (max a) a (next a) ∅;
      drop_entries a (filter (λ i, i ∉ vacant) (seq 0 (max a)))
    else Ret []);
  Ret (dropped, set_list a 0 0 0).

(** The second half of [recycle] and [recycle_without_drop]: the entry is returned. *)
Definition give_back a (q : ptr) : outcome (bool * RawArena V) :=
  match q with
  | PSlot i =>
      if decide (i < capacity a) then
        count ← sub_w p 64 (allocated a) 1;
        Ret (bool_decide (count = 0%Z),
             set_list (set_slot a i (Link (next a))) (max a) i count)
      else Panic BadMemory
  | PSystem k =>
      match heap a !! k with
      | Some _ => Ret (false, set_heap a (delete k (heap a)) (heap_next a))
      | None => Panic BadMemory
      end
  end.

Local Arguments give_back : simpl never.

Definition recycle a (q : ptr) : outcome (bool * V * RawArena V) :=
  v ← read a q;
  '(emptied, a) ← give_back a q;
  Ret (emptied, v, a).

Definition recycle_without_drop a (q : ptr) : outcome (bool * RawArena V) := give_back a q.

(** * The free list *)

(** The links from [n] through [free] end at [m]. *)
Fixpoint chain (s : gmap nat (entry V)) (n : nat) (free : list nat) (m : nat) : Prop :=
  match free with
  | [] => n = m
  | i :: free => n = i ∧ ∃ n', s !! i = Some (Link n') ∧ chain s n' free m
  end.

Record arena_ok a (free : list nat) : Prop := {
  a_chain : chain (slots a) (next a) free (max a);
  a_nodup : NoDup free;
  a_below : ∀ i, i ∈ free → i < max a;
  a_max : max a <= capacity a;
  a_count : allocated a = Z.of_nat (max a - length free);
  a_heap : ∀ k, is_Some (heap a !! k) → k < heap_next a;
  a_size : (Z.of_nat (capacity a) < 2 ^ 64)%Z
}.

(** The slots that are handed out. *)
Definition live a (free : list nat) : gset nat := list_to_set (seq 0 (max a)) ∖ list_to_set free.

Lemma elem_of_live a free i : i ∈ live a free ↔ i < max a ∧ i ∉ free.
Proof.
  unfold live. rewrite elem_of_difference, !elem_of_list_to_set, elem_of_seq.
  split; intros [? ?]; (split; [lia|done]).
Qed.

Lemma free_length a free : arena_ok a free → length free <= max a.
Proof.
  intros [_ Hn Hb _ _ _ _]. rewrite <- (length_seq (max a) 0).
  apply submseteq_length, NoDup_submseteq; [done|].
  intros i Hi. apply elem_of_seq. specialize (Hb i Hi). lia.
Qed.

Lemma size_live a free : arena_ok a free → size (live a free) = max a - length free.
Proof.
  intros [_ Hn Hb _ _ _ _]. unfold live. rewrite size_difference.
  - rewrite !size_list_to_set by (done || apply NoDup_seq). by rewrite length_seq.
  - intros i. rewrite !elem_of_list_to_set, elem_of_seq. intros Hi. specialize (Hb i Hi). lia.
Qed.

Lemma with_capacity_ok n : (Z.of_nat n < 2 ^ 64)%Z → arena_ok (with_capacity n) [].
Proof.
  intros Hn. split; simpl; try done; try lia; [by constructor|by intros i ?%elem_of_nil|].
  intros k [x Hx]. by rewrite lookup_empty in Hx.
Qed.

Lemma chain_insert s n free m i e :
  i ∉ free → chain s n free m → chain (<[i := e]> s) n free m.
Proof.
  revert n. induction free as [|j free IH]; intros n Hi; simpl; [done|].
  intros (-> & n' & Hj & Hc). apply not_elem_of_cons in Hi as [Hne Hi].
  split; [done|]. exists n'. rewrite lookup_insert_ne by done. auto.
Qed.

Lemma chain_end s n free m : chain s n free m → n = m → (∀ i, i ∈ free → i < m) → free = [].
Proof.
  destruct free as [|i free]; [done|]. intros (-> & _) -> Hb.
  specialize (Hb m (list_elem_of_here _ _)). lia.
Qed.

Lemma allocate_eq a :
  allocate a = ('(o, a') ← allocate_if_space a;
    match o with
    | Some q => Ret (q, a')
    | None => Ret (PSystem (heap_next a'),
                   set_heap a' (<[heap_next a' := None]> (heap a')) (S (heap_next a')))
    end).
Proof.
  unfold allocate, allocate_if_space. repeat case_decide; try done.
  - by destruct (add_w p 64 (allocated a) 1).
  - destruct (entry_next a (next a)); [|done]. simpl. by destruct (add_w p 64 (allocated a) 1).
Qed.

(** [a'] differs from [a] in its free list only. *)
Definition same_memory a a' : Prop :=
  slots a' = slots a ∧ heap a' = heap a ∧ heap_next a' = heap_next a ∧ capacity a' = capacity a.

Lemma allocate_if_space_spec a free :
  arena_ok a free →
  (size (live a free) = capacity a ∧ allocate_if_space a = Ret (None, a)) ∨
  ∃ i a' free', allocate_if_space a = Ret (Some (PSlot i), a') ∧ arena_ok a' free' ∧
    i < capacity a ∧ (i ∉ live a free) ∧ live a' free' = {[i]} ∪ live a free ∧ same_memory a a'.
Proof.
  intros Hok. pose proof (free_length a free Hok) as Hlen. pose proof (size_live a free Hok) as Hsz.
  destruct Hok as [Hc Hn Hb Hm Hcnt Hh Hsize]. unfold allocate_if_space. case_decide as Hnext.
  - assert (free = []) as -> by (eapply chain_end; eauto). simpl in *.
    case_decide as Hfull; [left; split; [lia|done]|right].
    rewrite add_w_fits by lia. simpl. exists (next a), (set_list a (S (max a)) (S (max a)) (allocated a + 1)), [].
    split; [done|]. split; [split; simpl; try done; try lia; by intros i ?%elem_of_nil|].
    split; [lia|]. split; [rewrite elem_of_live; lia|]. split; [|done].
    apply set_eq. intros i. rewrite elem_of_union, elem_of_singleton, !elem_of_live. simpl.
    pose proof (not_elem_of_nil i). destruct (decide (i = next a)); intuition lia.
  - destruct free as [|i free]; [simpl in Hc; lia|]. destruct Hc as (-> & n & Hs & Hc).
    apply NoDup_cons in Hn as [Hni Hn]. simpl in *. right.
    unfold entry_next. rewrite Hs. simpl.
    assert (i < max a) as Hi by (apply Hb; by left).
    rewrite add_w_fits by lia. simpl. eexists i, _, free. split; [done|].
    split; [split; simpl; try done; [intros j Hj; apply Hb; by right|lia]|].
    split; [lia|]. split; [rewrite elem_of_live; intros [_ Hno]; apply Hno; by left|].
    split; [|done]. apply set_eq. intros j.
    rewrite elem_of_union, elem_of_singleton, !elem_of_live, elem_of_cons. simpl.
    destruct (decide (j = i)) as [->|]; intuition.
Qed.

Lemma allocate_spec a free :
  arena_ok a free →
  ∃ q a' free', allocate a = Ret (q, a') ∧ arena_ok a' free' ∧ capacity a' = capacity a ∧
    slots a' = slots a ∧
    match q with
    | PSlot i => i < capacity a ∧ (i ∉ live a free) ∧ live a' free' = {[i]} ∪ live a free ∧
        heap a' = heap a
    | PSystem k => size (live a free) = capacity a ∧ live a' free' = live a free ∧
        heap a !! k = None ∧ heap a' = <[k := None]> (heap a)
    end.
Proof.
  intros Hok. rewrite allocate_eq.
  destruct (allocate_if_space_spec a free Hok)
    as [[Hfull ->]|(i & a' & free' & -> & Hok' & Hi & Hni & Hl & Hs & Hh & _ & Hc)]; simpl.
  - eexists _, _, free. split; [done|]. split; [|split; [done|split; [done|]]].
    + destruct Hok as [Hc Hn Hb Hm Hcnt Hh Hsize]. split; simpl; try done.
      intros k [x [[<- _]|[_ Hx]]%lookup_insert_Some]; [lia|].
      specialize (Hh k (ex_intro _ x Hx)). lia.
    + simpl. split; [done|]. split; [done|]. split; [|done].
      destruct (heap a !! heap_next a) eqn:Hk; [|done].
      pose proof (a_heap _ _ Hok (heap_next a) (ex_intro _ _ Hk)). lia.
  - by exists (PSlot i), a', free'.
Qed.

Lemma give_back_spec a free i :
  arena_ok a free → i ∈ live a free →
  ∃ a', give_back a (PSlot i) = Ret (bool_decide (live a (i :: free) = ∅), a') ∧
    arena_ok a' (i :: free) ∧ live a' (i :: free) = live a free ∖ {[i]} ∧
    slots a' = <[i := Link (next a)]> (slots a) ∧ heap a' = heap a ∧
    capacity a' = capacity a ∧ next a' = i.
Proof.
  intros Hok [Hi Hni]%elem_of_live. pose proof (free_length a free Hok) as Hlen.
  assert (live a (i :: free) = live a free ∖ {[i]}) as Hl.
  { apply set_eq. intros j. rewrite elem_of_difference, elem_of_singleton, !elem_of_live, elem_of_cons.
    tauto. }
  assert (length (i :: free) <= max a) as Hlen'.
  { rewrite <- (length_seq (max a) 0). apply submseteq_length, NoDup_submseteq.
    - constructor; [done|apply Hok].
    - intros j Hj. apply elem_of_seq. apply elem_of_cons in Hj as [->|Hj]; [lia|].
      pose proof (a_below _ _ Hok j Hj). lia. }
  destruct Hok as [Hc Hn Hb Hm Hcnt Hh Hsize]. simpl in *.
  unfold give_back. rewrite decide_True by lia. rewrite sub_w_fits by lia. simpl.
  assert (arena_ok (set_list (set_slot a i (Link (next a))) (max a) i (allocated a - 1)) (i :: free))
    as Hok'.
  { split; simpl; try done; [| | |lia].
    - split; [done|]. exists (next a). rewrite lookup_insert_eq. split; [done|].
      by apply chain_insert.
    - by constructor.
    - intros j [->|Hj]%elem_of_cons; [done|auto]. }
  eexists. split; [|split; [exact Hok'|]].
  - do 2 f_equal. apply bool_decide_ext. pose proof (size_live _ _ Hok') as Hsz. simpl in Hsz.
    change (live (set_list _ _ _ _) _) with (live a (i :: free)) in Hsz. split; intros H.
    + apply leibniz_equiv, size_empty_iff. lia.
    + rewrite H, size_empty in Hsz. lia.
  - by rewrite <- Hl.
Qed.

Lemma recycle_spec a free i v :
  arena_ok a free → i ∈ live a free → slots a !! i = Some (Value v) →
  ∃ a', recycle a (PSlot i) = Ret (bool_decide (live a' (i :: free) = ∅), v, a') ∧
    arena_ok a' (i :: free) ∧ live a' (i :: free) = live a free ∖ {[i]} ∧
    slots a' = <[i := Link (next a)]> (slots a) ∧ heap a' = heap a ∧
    capacity a' = capacity a.
Proof.
  intros Hok Hi Hv. destruct (give_back_spec a free i Hok Hi) as (a' & Hg & Hok' & Hl & Hs & Hh & Hc & _).
  exists a'. unfold recycle. simpl. rewrite Hv. simpl. rewrite Hg. simpl. rewrite Hl.
  assert (live a (i :: free) = live a free ∖ {[i]}) as ->; [|done].
  apply set_eq. intros j. rewrite elem_of_difference, elem_of_singleton, !elem_of_live, elem_of_cons.
  tauto.
Qed.

(** A slot that was given back is the next one. *)
Lemma reuse a i free :
  arena_ok a (i :: free) → ∃ a', allocate_if_space a = Ret (Some (PSlot i), a').
Proof.
  intros Hok. pose proof (free_length a _ Hok) as Hlen. destruct Hok as [Hc Hn Hb Hm Hcnt Hh Hsize].
  destruct Hc as (Hi & n & Hs & _). assert (i < max a) by (apply Hb; by left).
  unfold allocate_if_space, entry_next. rewrite decide_False by lia. rewrite Hi, Hs. simpl in *.
  rewrite add_w_fits by lia. by eexists.
Qed.

(** ** Clearing *)

Lemma vacant_walk_spec a n free fuel vacant :
  chain (slots a) n free (max a) → (∀ i, i ∈ free → i < max a) → length free <= fuel →
  vacant_walk fuel a n vacant = Ret (list_to_set free ∪ vacant).
Proof.
  revert n fuel vacant. induction free as [|i free IH]; intros n fuel vacant Hc Hb Hf; simpl in *.
  - subst n. destruct fuel; simpl; rewrite decide_True by done; f_equal; set_solver.
  - destruct Hc as (-> & n' & Hs & Hc). assert (i < max a) by (apply Hb; by left).
    destruct fuel as [|fuel]; [lia|]. simpl. rewrite decide_False by lia.
    unfold entry_next. rewrite Hs. simpl. rewrite IH; [|done|intros j Hj; apply Hb; by right|lia].
    f_equal. set_solver.
Qed.

Lemma drop_entries_spec a l :
  (∀ i, i ∈ l → ∃ v, slots a !! i = Some (Value v)) →
  ∃ vs, drop_entries a l = Ret vs ∧ Forall2 (λ i v, slots a !! i = Some (Value v)) l vs.
Proof.
  induction l as [|i l IH]; intros Hl; simpl; [by exists []|].
  destruct (Hl i) as [v Hv]; [by left|]. destruct IH as (vs & -> & Hvs).
  { intros j Hj. apply Hl. by right. }
  rewrite Hv. simpl. exists (v :: vs). split; [done|]. by constructor.
Qed.

Lemma clear_spec a free :
  arena_ok a free → (∀ i, i ∈ live a free → ∃ v, slots a !! i = Some (Value v)) →
  ∃ l vs a', clear_allocated a = Ret (vs, a') ∧ NoDup l ∧ (∀ i, i ∈ l ↔ i ∈ live a free) ∧
    Forall2 (λ i v, slots a !! i = Some (Value v)) l vs ∧ arena_ok a' [] ∧
    live a' [] = ∅ ∧ heap a' = heap a ∧ capacity a' = capacity a.
Proof.
  intros Hok Hv. pose proof (free_length a free Hok) as Hlen.
  assert (arena_ok (set_list a 0 0 0) []) as Hok'.
  { destruct Hok as [Hc Hn Hb Hm Hcnt Hh Hsize].
    split; simpl; try done; try lia; [by constructor|by intros i ?%elem_of_nil]. }
  assert (live (set_list a 0 0 0) [] = ∅) as Hl0.
  { apply set_eq. intros i. rewrite elem_of_live. simpl. split; [lia|]. by intros ?%elem_of_empty. }
  unfold clear_allocated. case_decide as Hd.
  - destruct Hok as [Hc Hn Hb Hm Hcnt Hh Hsize].
    rewrite (vacant_walk_spec a (next a) free) by done. simpl.
    set (l := filter _ (seq 0 (max a))).
    assert (∀ i, i ∈ l ↔ i ∈ live a free) as Hl.
    { intros i. unfold l. rewrite list_elem_of_filter, elem_of_live, elem_of_seq.
      rewrite elem_of_union, elem_of_list_to_set. pose proof (not_elem_of_empty (C:=gset nat) i).
      intuition lia. }
    destruct (drop_entries_spec a l) as (vs & -> & Hvs); [intros i Hi; by apply Hv, Hl|].
    simpl. exists l, vs. eexists. split; [done|]. split; [apply NoDup_filter, NoDup_seq|].
    by split_and!.
  - exists [], []. eexists. split; [done|]. split; [constructor|].
    split; [|by split_and!]. intros i. pose proof (size_live a free Hok) as Hsz.
    rewrite (a_count _ _ Hok) in Hd. assert (live a free = ∅) as ->.
    { apply leibniz_equiv, size_empty_iff. lia. }
    split; [by intros ?%elem_of_nil|by intros ?%elem_of_empty].
Qed.
End arena.
#[global] Arguments give_back : simpl never.
#[global] Arguments recycle_without_drop : simpl never.

(** * [ArenaUnique]

    The arena lives until its handle and all its boxes are gone: [None] is freed
    memory. *)

Record ArenaUnique (V : Type) := mkUnique { raw_arena : option (RawArena V); alive : bool }.
Arguments mkUnique {V} _ _.
Arguments raw_arena {V} _.
Arguments alive {V} _.

Section unique.
Context {V : Type} (p : profile).
Implicit Types (u : ArenaUnique V) (a : RawArena V).

Definition unique_with_capacity (capacity : nat) : ArenaUnique V :=
  mkUnique (Some (with_capacity capacity)) true.

(** The memory behind the pointer to the arena. *)
Definition arena_of u : outcome (RawArena V) :=
  match raw_arena u with Some a => Ret a | None => Panic BadMemory end.

(** [drop_data]: the values that the arena still held come with the result. *)
Definition drop_data a (alive : bool) : outcome (list V * ArenaUnique V) :=
  '(dropped, _) ← clear_allocated a;
  Ret (dropped, mkUnique None alive).

Definition unique_allocate u (v : V) : outcome (ptr * ArenaUnique V) :=
  a ← arena_of u;
  '(q, a) ← allocate p a;
  a ← write a q v;
  Ret (q, mkUnique (Some a) (alive u)).

(** [delete], which drops a box. *)
Definition delete u (q : ptr) : outcome (V * list V * ArenaUnique V) :=
  a ← arena_of u;
  '(emptied, v, a) ← recycle p a q;
  if (emptied : bool) && negb (alive u) then
    '(dropped, u) ← drop_data a (alive u); Ret (v, dropped, u)
  else Ret (v, [], mkUnique (Some a) (alive u)).

(** [Drop] of the handle. *)
Definition drop_handle u : outcome (list V * ArenaUnique V) :=
  a ← arena_of u;
  if decide (allocated a = 0%Z) then drop_data a (alive u)
  else Ret ([], mkUnique (Some a) false).

Definition reserve_space u : outcome (option ptr * ArenaUnique V) :=
  a ← arena_of u;
  '(q, a) ← allocate_if_space p a;
  Ret (q, mkUnique (Some a) (alive u)).
Definition forget_reservation u (q : ptr) : outcome (ArenaUnique V) :=
  a ← arena_of u;
  '(_, a) ← recycle_without_drop p a q;
  Ret (mkUnique (Some a) (alive u)).
Definition complete_reservation u (q : ptr) (v : V) : outcome (ptr * ArenaUnique V) :=
  a ← arena_of u;
  a ← write a q v;
  Ret (q, mkUnique (Some a) (alive u)).

(** ** Boxes in the arena

    [boxes] are the values in live boxes, [reserved] the slots of reservations,
    [handle] whether the arena's handle exists. *)

Definition unique_ok u (boxes : gmap nat V) (reserved : gset nat) (handle : bool) : Prop :=
  match raw_arena u with
  | None => boxes = ∅ ∧ reserved = ∅ ∧ handle = false
  | Some a => ∃ free, arena_ok a free ∧ live a free = dom boxes ∪ reserved ∧
      dom boxes ## reserved ∧ (∀ i v, boxes !! i = Some v → slots a !! i = Some (Value v)) ∧
      alive u = handle ∧ (handle = true ∨ dom boxes ∪ reserved ≠ ∅)
  end.

Lemma unique_new_ok n :
  (Z.of_nat n < 2 ^ 64)%Z → unique_ok (unique_with_capacity n) ∅ ∅ true.
Proof.
  intros Hn. exists []. split; [by apply with_capacity_ok|]. split; [|split; [set_solver|]].
  - apply set_eq. intros i. rewrite elem_of_live. simpl. rewrite dom_empty_L.
    split; [lia|set_solver].
  - split; [by intros i v ?%lookup_empty_Some|]. split; [done|by left].
Qed.

Lemma drop_data_empty a free b :
  arena_ok a free → live a free = ∅ → drop_data a b = Ret ([], mkUnique None b).
Proof.
  intros Hok Hl. unfold drop_data, clear_allocated.
  rewrite decide_False; [done|]. pose proof (size_live a free Hok) as Hs.
  rewrite Hl, size_empty in Hs. rewrite (a_count _ _ Hok). lia.
Qed.

Lemma allocate_ok u boxes reserved v :
  unique_ok u boxes reserved true →
  (∀ a, raw_arena u = Some a → size (dom boxes ∪ reserved) < capacity a) →
  ∃ i u', unique_allocate u v = Ret (PSlot i, u') ∧ boxes !! i = None ∧ (i ∉ reserved) ∧
    unique_ok u' (<[i := v]> boxes) reserved true.
Proof.
  unfold unique_ok, unique_allocate, arena_of.
  destruct (raw_arena u) as [a|]; [|by intros (_ & _ & ?)].
  intros (free & Hok & Hl & Hd & Hb & Ha & _) Hroom. specialize (Hroom a eq_refl). simpl.
  destruct (allocate_spec p a free Hok) as (q & a' & free' & -> & Hok' & Hc & Hs & Hq). simpl.
  destruct q as [i|k]; [|rewrite Hl in Hq; lia].
  destruct Hq as (Hi & Hni & Hl' & _). simpl.
  rewrite Hl, not_elem_of_union in Hni. destruct Hni as [Hnb Hnr].
  exists i. eexists. split; [done|]. split; [by apply not_elem_of_dom|]. split; [done|].
  exists free'. split; [|split; [|split; [|split; [|split; [done|by left]]]]].
  - destruct Hok' as [Hc' Hn' Hb' Hm' Hcnt Hh Hsz]. split; simpl; try done.
    apply chain_insert; [|done]. intros Hin.
    assert (i ∈ live a' free') as [_ Hno]%elem_of_live by (rewrite Hl'; set_solver). done.
  - change (live (set_slot a' i (Value v)) free') with (live a' free').
    rewrite Hl', Hl, dom_insert_L. set_solver.
  - rewrite dom_insert_L. set_solver.
  - intros j w [[<- <-]|[Hne Hj]]%lookup_insert_Some; simpl; [by rewrite lookup_insert_eq|].
    rewrite lookup_insert_ne by done. rewrite Hs. by apply Hb.
Qed.

Lemma delete_ok u boxes reserved handle i v :
  unique_ok u boxes reserved handle → boxes !! i = Some v →
  ∃ u', delete u (PSlot i) = Ret (v, [], u') ∧
    unique_ok u' (base.delete i boxes) reserved handle.
Proof.
  unfold unique_ok at 1, delete, arena_of. intros Hu Hi.
  destruct (raw_arena u) as [a|]; [|destruct Hu as (-> & _); by rewrite lookup_empty in Hi].
  destruct Hu as (free & Hok & Hl & Hd & Hb & Ha & Hne). simpl.
  assert (i ∈ live a free) as Hlive by (rewrite Hl; apply elem_of_union; left; by eapply elem_of_dom_2).
  destruct (recycle_spec p a free i v Hok Hlive (Hb i v Hi))
    as (a' & -> & Hok' & Hl' & Hs & _ & Hc). simpl.
  assert (i ∉ reserved) as Hnr by (intros Hr; apply (Hd i); [by eapply elem_of_dom_2|done]).
  assert (live a' (i :: free) = dom (base.delete i boxes) ∪ reserved) as Hl2.
  { rewrite Hl', Hl, dom_delete_L. set_solver. }
  assert (dom (base.delete i boxes) ## reserved) as Hd2 by (rewrite dom_delete_L; set_solver).
  destruct (bool_decide _ && _) eqn:He.
  - apply andb_true_iff in He as [He%bool_decide_eq_true Hh%negb_true_iff].
    rewrite (drop_data_empty a' (i :: free) (alive u) Hok' He). simpl.
    eexists. split; [done|]. unfold unique_ok. simpl. rewrite Hl2 in He.
    split; [apply dom_empty_inv_L; set_solver|]. split; [set_solver|congruence].
  - eexists. split; [done|]. unfold unique_ok. simpl. exists (i :: free).
    split; [done|]. split; [done|]. split; [done|]. split; [|split; [done|]].
    + intros j w [Hij Hj]%lookup_delete_Some. rewrite Hs, lookup_insert_ne by done. by apply Hb.
    + apply andb_false_iff in He as [He%bool_decide_eq_false|Hh%negb_false_iff].
      * right. by rewrite <- Hl2.
      * left. congruence.
Qed.

Lemma drop_handle_ok u boxes reserved :
  unique_ok u boxes reserved true →
  ∃ u', drop_handle u = Ret ([], u') ∧ unique_ok u' boxes reserved false ∧
    (raw_arena u' = None ↔ dom boxes ∪ reserved = ∅).
Proof.
  unfold unique_ok at 1, drop_handle, arena_of.
  destruct (raw_arena u) as [a|]; [|by intros (_ & _ & ?)].
  intros (free & Hok & Hl & Hd & Hb & Ha & _). simpl.
  pose proof (size_live a free Hok) as Hs. case_decide as Hc; rewrite (a_count _ _ Hok) in Hc.
  - assert (live a free = ∅) as He by (apply leibniz_equiv, size_empty_iff; lia).
    rewrite (drop_data_empty a free (alive u) Hok He). rewrite Hl in He.
    eexists. split; [done|]. split; [|done]. unfold unique_ok. simpl.
    split; [apply dom_empty_inv_L; set_solver|]. split; [set_solver|done].
  - assert (dom boxes ∪ reserved ≠ ∅) as Hne.
    { rewrite <- Hl. intros He. rewrite He, size_empty in Hs. lia. }
    eexists. split; [done|]. split; [|done]. exists free.
    split_and!; try done. by right.
Qed.

Lemma reserve_ok u boxes reserved :
  unique_ok u boxes reserved true →
  ∃ o u', reserve_space u = Ret (o, u') ∧
    match o with
    | None => u' = u ∧ ∀ a, raw_arena u = Some a → size (dom boxes ∪ reserved) = capacity a
    | Some q => ∃ i, q = PSlot i ∧ boxes !! i = None ∧ (i ∉ reserved) ∧
        unique_ok u' boxes ({[i]} ∪ reserved) true
    end.
Proof.
  unfold unique_ok, reserve_space, arena_of.
  destruct u as [[a|] al]; simpl; [|by intros (_ & _ & ?)].
  intros (free & Hok & Hl & Hd & Hb & Ha & _).
  destruct (allocate_if_space_spec p a free Hok)
    as [[Hfull ->]|(i & a' & free' & -> & Hok' & Hi & Hni & Hl' & Hs & _)]; simpl.
  - eexists None, _. split; [done|]. split; [done|]. intros ? [= <-]. by rewrite <- Hl.
  - rewrite Hl, not_elem_of_union in Hni. destruct Hni as [Hnb Hnr].
    eexists _, _. split; [done|]. exists i. split; [done|]. split; [by apply not_elem_of_dom|].
    split; [done|]. exists free'. split; [done|]. split; [rewrite Hl', Hl; set_solver|].
    split; [set_solver|]. split; [|split; [done|by left]].
    intros j w Hj. rewrite Hs. by apply Hb.
Qed.

Lemma complete_ok u boxes reserved i v :
  unique_ok u boxes reserved true → i ∈ reserved →
  ∃ u', complete_reservation u (PSlot i) v = Ret (PSlot i, u') ∧
    unique_ok u' (<[i := v]> boxes) (reserved ∖ {[i]}) true.
Proof.
  unfold unique_ok, complete_reservation, arena_of. intros Hu Hi.
  destruct (raw_arena u) as [a|]; simpl; [|by destruct Hu as (_ & _ & ?)].
  destruct Hu as (free & Hok & Hl & Hd & Hb & Ha & _).
  eexists. split; [done|]. exists free.
  assert (i ∈ live a free) as [_ Hni]%elem_of_live by (rewrite Hl; set_solver).
  assert (i ∉ dom boxes) as Hnd by (intros Hin; by apply (Hd i)).
  split; [|split; [|split; [|split; [|split; [done|by left]]]]].
  - destruct Hok as [Hc' Hn' Hb' Hm' Hcnt Hh Hsz]. split; simpl; try done.
    by apply chain_insert.
  - change (live (set_slot a i (Value v)) free) with (live a free).
    rewrite Hl, dom_insert_L. apply set_eq. intros j. destruct (decide (j = i)); set_solver.
  - rewrite dom_insert_L. set_solver.
  - intros j w [[<- <-]|[Hne Hj]]%lookup_insert_Some; simpl; [by rewrite lookup_insert_eq|].
    rewrite lookup_insert_ne by done. by apply Hb.
Qed.

Lemma forget_ok u boxes reserved i :
  unique_ok u boxes reserved true → i ∈ reserved →
  ∃ u', forget_reservation u (PSlot i) = Ret u' ∧
    unique_ok u' boxes (reserved ∖ {[i]}) true.
Proof.
  unfold unique_ok, forget_reservation, arena_of. intros Hu Hi.
  destruct (raw_arena u) as [a|]; simpl; [|by destruct Hu as (_ & _ & ?)].
  destruct Hu as (free & Hok & Hl & Hd & Hb & Ha & _).
  assert (i ∈ live a free) as Hlive by (rewrite Hl; set_solver).
  destruct (give_back_spec p a free i Hok Hlive) as (a' & Hg & Hok' & Hl' & Hs & _).
  unfold recycle_without_drop. rewrite Hg. simpl. eexists. split; [done|].
  exists (i :: free). split; [done|]. split; [rewrite Hl', Hl; set_solver|].
  split; [set_solver|]. split; [|split; [done|by left]].
  intros j w Hj. rewrite Hs, lookup_insert_ne; [by apply Hb|].
  intros <-. apply (Hd i); [by eapply elem_of_dom_2|done].
Qed.

(** A value in a box is read and overwritten in place. *)
Lemma read_box u boxes reserved handle i v :
  unique_ok u boxes reserved handle → boxes !! i = Some v →
  ∃ a, arena_of u = Ret a ∧ read a (PSlot i) = Ret v.
Proof.
  unfold unique_ok, arena_of. intros Hu Hi.
  destruct (raw_arena u) as [a|]; [|destruct Hu as (-> & _); by rewrite lookup_empty in Hi].
  destruct Hu as (free & _ & _ & _ & Hb & _). exists a. split; [done|].
  simpl. by rewrite (Hb i v Hi).
Qed.
Lemma write_box u boxes reserved handle i v w :
  unique_ok u boxes reserved handle → boxes !! i = Some v →
  ∃ a a', arena_of u = Ret a ∧ write a (PSlot i) w = Ret a' ∧
    unique_ok (mkUnique (Some a') (alive u)) (<[i := w]> boxes) reserved handle.
Proof.
  unfold unique_ok, arena_of. intros Hu Hi.
  destruct (raw_arena u) as [a|]; [|destruct Hu as (-> & _); by rewrite lookup_empty in Hi].
  destruct Hu as (free & Hok & Hl & Hd & Hb & Ha & Hne).
  assert (dom (<[i := w]> boxes) = dom boxes) as Hdom.
  { rewrite dom_insert_L. pose proof (elem_of_dom_2 _ _ _ Hi). set_solver. }
  eexists a, _. split; [done|]. split; [done|]. simpl. exists free.
  assert (i ∈ live a free) as [_ Hni]%elem_of_live.
  { rewrite Hl. apply elem_of_union. left. by eapply elem_of_dom_2. }
  rewrite Hdom. split; [|split; [|split; [done|split; [|done]]]].
  - destruct Hok as [Hc' Hn' Hb' Hm' Hcnt Hh Hsz]. split; simpl; try done.
    by apply chain_insert.
  - change (live (set_slot a i (Value w)) free) with (live a free). done.
  - intros j x [[<- <-]|[Hji Hj]]%lookup_insert_Some; simpl; [by rewrite lookup_insert_eq|].
    rewrite lookup_insert_ne by done. by apply Hb.
Qed.
End unique.

(** * Properties *)

Section properties.
Context {V : Type} (p : profile).

(** C18. The arena hands out slots that nobody has: a free slot while there is one, the
    system allocator when all are taken. Recycling a slot drops its value, makes it the
    next to be handed out and tells whether it was the last one taken; clearing drops
    the value of every taken slot once. No link of the free list is ever misread. *)
Theorem raw_arena_slots (a : RawArena V) free :
  arena_ok a free →
  (∃ q a' free', allocate p a = Ret (q, a') ∧ arena_ok a' free' ∧ slots a' = slots a ∧
     match q with
     | PSlot i => i < capacity a ∧ (i ∉ live a free) ∧ live a' free' = {[i]} ∪ live a free
     | PSystem k => size (live a free) = capacity a ∧ live a' free' = live a free ∧
         heap a !! k = None
     end) ∧
  (∀ i v, i ∈ live a free → slots a !! i = Some (Value v) →
     ∃ a', recycle p a (PSlot i) = Ret (bool_decide (live a' (i :: free) = ∅), v, a') ∧
       arena_ok a' (i :: free) ∧ live a' (i :: free) = live a free ∖ {[i]} ∧
       (∃ a'', allocate p a' = Ret (PSlot i, a'')) ∧
       ∀ j, j ∈ live a' (i :: free) → slots a' !! j = slots a !! j) ∧
  ((∀ i, i ∈ live a free → ∃ v, slots a !! i = Some (Value v)) →
     ∃ l vs a', clear_allocated a = Ret (vs, a') ∧ NoDup l ∧ (∀ i, i ∈ l ↔ i ∈ live a free) ∧
       Forall2 (λ i v, slots a !! i = Some (Value v)) l vs ∧ arena_ok a' [] ∧
       live a' [] = ∅).
Proof.
  intros Hok. split; [|split].
  - destruct (allocate_spec p a free Hok) as (q & a' & free' & He & Hok' & _ & Hs & Hq).
    exists q, a', free'. split_and!; try done. destruct q; tauto.
  - intros i v Hi Hv.
    destruct (recycle_spec p a free i v Hok Hi Hv) as (a' & He & Hok' & Hl & Hs & _).
    exists a'. split; [done|]. split; [done|]. split; [done|]. split.
    + rewrite (allocate_eq p). destruct (reuse p a' i free Hok') as (a'' & ->). by eexists.
    + intros j. rewrite Hl, elem_of_difference, elem_of_singleton, Hs. intros [_ Hne].
      by rewrite lookup_insert_ne.
  - intros Hv. destruct (clear_spec a free Hok Hv) as (l & vs & a' & ? & ? & ? & ? & ? & ? & _).
    by exists l, vs, a'.
Qed.

(** While no box overflows the arena, [ArenaUnique] is memory safe: allocation
    gives an unused slot, dropping a box drops the value that was put in it and nothing
    else, and the memory is freed when the handle and the last box are gone, in either
    order. *)
Lemma unique_arena_boxes (u : ArenaUnique V) boxes reserved handle :
  unique_ok u boxes reserved handle →
  (handle = true → ∀ v,
     (∀ a, raw_arena u = Some a → size (dom boxes ∪ reserved) < capacity a) →
     ∃ i u', unique_allocate p u v = Ret (PSlot i, u') ∧ boxes !! i = None ∧
       unique_ok u' (<[i := v]> boxes) reserved true) ∧
  (∀ i v, boxes !! i = Some v →
     ∃ u', delete p u (PSlot i) = Ret (v, [], u') ∧
       unique_ok u' (base.delete i boxes) reserved handle) ∧
  (handle = true → ∃ u', drop_handle u = Ret ([], u') ∧ unique_ok u' boxes reserved false) ∧
  (raw_arena u = None ↔ handle = false ∧ boxes = ∅ ∧ reserved = ∅).
Proof.
  intros Hu. split; [|split; [|split]].
  - intros -> v Hroom. destruct (allocate_ok p u boxes reserved v Hu Hroom)
      as (i & u' & ? & ? & _ & ?). by exists i, u'.
  - intros i v. by apply delete_ok.
  - intros ->. destruct (drop_handle_ok u boxes reserved Hu) as (u' & ? & ? & _). by exists u'.
  - unfold unique_ok in Hu. destruct (raw_arena u) as [a|].
    + split; [done|]. intros (-> & -> & ->). destruct Hu as (_ & _ & _ & _ & _ & _ & [?|Hne]); [done|].
      rewrite dom_empty_L in Hne. set_solver.
    + destruct Hu as (-> & -> & ->). split; [|done]. intros _. by repeat split.
Qed.
End properties.

(** ** A box outside of the arena

    An overflowing box is allocated by the system and not counted. *)

(** [ArenaUnique] frees its memory too early when it overflowed: the count of
    [RawArena] does not include the boxes of the system allocator, so dropping the
    handle, or the last box inside, frees the arena while such a box still points to
    it, and dropping that box reads freed memory. *)
Lemma unique_arena_overflow {V : Type} p (v w : V) :
  let two := '(q1, u) ← unique_allocate p (unique_with_capacity 1) v;
             '(q2, u) ← unique_allocate p u w; Ret (q1, q2, u) in
  ∃ q1 q2 u, two = Ret (q1, q2, u) ∧ q2 = PSystem 0 ∧
    ('(_, _, u) ← delete p u q1; '(_, u) ← drop_handle u; delete p u q2) = Panic BadMemory ∧
    ('(_, u) ← drop_handle u; '(_, _, u) ← delete p u q1; delete p u q2) = Panic BadMemory.
Proof. by eexists _, _, _. Qed.

(** * A concrete arena *)

(** Two slots, the second one vacant. *)
Definition demo_arena : RawArena Z := mkArena 2 2 1 1 {[0 := Value 7%Z; 1 := Link 2]} ∅ 0.

Lemma demo_arena_ok : arena_ok demo_arena [1].
Proof.
  split; simpl; try done; try lia.
  - split; [done|]. by exists 2.
  - apply NoDup_singleton.
  - intros i ->%list_elem_of_singleton. lia.
  - intros k [x Hx]. by rewrite lookup_empty in Hx.
Qed.

Lemma raw_arena_slots_witness :
  arena_ok demo_arena [1] ∧
  ∃ a', recycle Debug demo_arena (PSlot 0) =
      Ret (bool_decide (live a' [0; 1] = ∅), 7%Z, a') ∧ arena_ok a' [0; 1] ∧
    live a' [0; 1] = live demo_arena [1] ∖ {[0]}.
Proof.
  split; [exact demo_arena_ok|].
  destruct (raw_arena_slots Debug demo_arena [1] demo_arena_ok) as (_ & Hr & _).
  destruct (Hr 0 7%Z) as (a' & H1 & H2 & H3 & _).
  - apply elem_of_live. split; [simpl; lia|]. intros H%list_elem_of_singleton. lia.
  - reflexivity.
  - exists a'. split; [exact H1|]. split; [exact H2|exact H3].
Defined.

Lemma unique_arena_boxes_example :
  ∃ u', drop_handle (unique_with_capacity (V:=Z) 2) = Ret ([], u') ∧ unique_ok u' ∅ ∅ false.
Proof.
  destruct (unique_arena_boxes Debug (unique_with_capacity (V:=Z) 2) ∅ ∅ true) as (_ & _ & H & _).
  - apply unique_new_ok. reflexivity.
  - apply H. reflexivity.
Qed.
