(* ===== verification/SharedArena.v ===== *)
(** [core/arena/shared_arena.rs] and [shared_atomic_arena.rs]: reference-counted boxes
    over a [RawArena], for one thread and for several.

    The arena is freed memory when [shared_raw] is [None].  A pointer to data and a pointer
    to its header are the same: [PTR_OFFSET] of the source is the offset of the only field
    of [ArenaRc], zero.  As in [Arena], dropping a value does not call back. *)

From S2P Require Import Prelude Arena.

Global Instance ptr_countable : Countable ptr.
Proof.
  refine (inj_countable'
    (λ q, match q with PSlot i => inl i | PSystem k => inr k end)
    (λ s, match s with inl i => PSlot i | inr k => PSystem k end) _).
  by intros [].
Defined.

(** [ArenaRcData], [ArenaArcData]: the count of the other references, and the value. *)
Record ArenaRcData (T : Type) := mkRcData { rc_count : Z; rc_data : T }.
Arguments mkRcData {T} _ _.
Arguments rc_count {T} _.
Arguments rc_data {T} _.

(** [ArenaSharedData]: the count of the other owners, boxes and handle. *)
Record ArenaShared (T : Type) := mkShared {
  shared_raw : option (RawArena (ArenaRcData T));
  shared_count : Z
}.
Arguments mkShared {T} _ _.
Arguments shared_raw {T} _.
Arguments shared_count {T} _.

Section shared.
Context {T : Type} (p : profile).
Implicit Types (s : ArenaShared T) (a : RawArena (ArenaRcData T)) (d : ArenaRcData T).

Definition shared_with_capacity (capacity : nat) : ArenaShared T :=
  mkShared (Some (with_capacity capacity)) 0.

Definition shared_arena s : outcome (RawArena (ArenaRcData T)) :=
  match shared_raw s with Some a => Ret a | None => Panic BadMemory end.

(** The memory behind an [ArenaRc]. *)
Definition rc_ref s (q : ptr) : outcome (ArenaRcData T) := a ← shared_arena s; read a q.

Definition set_rc s (q : ptr) d : outcome (ArenaShared T) :=
  a ← shared_arena s;
  a ← write a q d;
  Ret (mkShared (Some a) (shared_count s)).

(** [Deref]. *)
Definition rc_deref s (q : ptr) : outcome T := d ← rc_ref s q; Ret (rc_data d).

(** [drop_data]: dropping the [RawArena] clears it; the values that it still held come
    with the result. *)
Definition shared_drop_data s : outcome (list T * ArenaShared T) :=
  a ← shared_arena s;
  '(dropped, _) ← clear_allocated a;
  Ret (map rc_data dropped, mkShared None (shared_count s)).

Definition shared_delete s (q : ptr) : outcome (T * list T * ArenaShared T) :=
  a ← shared_arena s;
  '(_, d, a) ← recycle p a q;
  let s := mkShared (Some a) (shared_count s) in
  if decide (shared_count s = 0%Z) then
    '(dropped, s) ← shared_drop_data s; Ret (rc_data d, dropped, s)
  else
    n ← sub_w p 64 (shared_count s) 1;
    Ret (rc_data d, [], mkShared (shared_raw s) n).

Definition shared_allocate s (data : T) : outcome (ptr * ArenaShared T) :=
  a ← shared_arena s;
  '(q, a) ← allocate p a;
  n ← add_w p 64 (shared_count s) 1;
  a ← write a q (mkRcData 0 data);
  Ret (q, mkShared (Some a) n).

(** [None] is [Err(data)]. *)
Definition shared_allocate_if_space s (data : T) : outcome (option ptr * ArenaShared T) :=
  a ← shared_arena s;
  '(o, a) ← allocate_if_space p a;
  match o with
  | None => Ret (None, mkShared (Some a) (shared_count s))
  | Some q =>
      n ← add_w p 64 (shared_count s) 1;
      a ← write a q (mkRcData 0 data);
      Ret (Some q, mkShared (Some a) n)
  end.

Definition shared_reserve_space s : outcome (option ptr * ArenaShared T) :=
  a ← shared_arena s;
  '(o, a) ← allocate_if_space p a;
  match o with
  | None => Ret (None, mkShared (Some a) (shared_count s))
  | Some q =>
      n ← add_w p 64 (shared_count s) 1;
      Ret (Some q, mkShared (Some a) n)
  end.

Definition shared_forget_reservation s (q : ptr) : outcome (ArenaShared T) :=
  a ← shared_arena s;
  n ← sub_w p 64 (shared_count s) 1;
  '(_, a) ← recycle_without_drop p a q;
  Ret (mkShared (Some a) n).

Definition shared_complete_reservation s (q : ptr) (data : T) : outcome (ptr * ArenaShared T) :=
  a ← shared_arena s;
  a ← write a q (mkRcData 0 data);
  Ret (q, mkShared (Some a) (shared_count s)).

(** [Drop] of the handle. *)
Definition shared_drop_handle s : outcome (list T * ArenaShared T) :=
  _ ← shared_arena s;
  if decide (shared_count s = 0%Z) then shared_drop_data s
  else n ← sub_w p 64 (shared_count s) 1; Ret ([], mkShared (shared_raw s) n).

(** ** [ArenaRc] *)

Definition rc_into_raw (q : ptr) : ptr := q.
Definition rc_from_raw (q : ptr) : ptr := q.

(** [clone_raw_from_raw], which [clone_into_raw] and [clone_from_raw] repeat. *)
Definition clone_raw_from_raw s (q : ptr) : outcome (ArenaShared T) :=
  d ← rc_ref s q;
  n ← add_w p 64 (rc_count d) 1;
  set_rc s q (mkRcData n (rc_data d)).
Definition clone_into_raw s (q : ptr) : outcome (ptr * ArenaShared T) :=
  s ← clone_raw_from_raw s q; Ret (rc_into_raw q, s).
Definition clone_from_raw s (q : ptr) : outcome (ptr * ArenaShared T) :=
  s ← clone_raw_from_raw s q; Ret (rc_from_raw q, s).

(** [Drop], and [drop_from_raw]; the value that was dropped comes with the result. *)
Definition rc_drop s (q : ptr) : outcome (option T * list T * ArenaShared T) :=
  d ← rc_ref s q;
  if decide (rc_count d = 0%Z) then
    '(v, dropped, s) ← shared_delete s q; Ret (Some v, dropped, s)
  else
    n ← sub_w p 64 (rc_count d) 1;
    s ← set_rc s q (mkRcData n (rc_data d)); Ret (None, [], s).
End shared.

(** * A raw arena as a set of pointers

    Slots and system allocations alike. *)

Section taken.
Context {V : Type} (p : profile).
Implicit Types (a : RawArena V).

Definition taken a (free : list nat) (q : ptr) : Prop :=
  match q with PSlot i => i ∈ live a free | PSystem k => is_Some (heap a !! k) end.

(** [a'] holds at every pointer of [P] what [a] does. *)
Definition keeps a a' (P : ptr → Prop) : Prop := ∀ q, P q → read a' q = read a q.

Lemma with_capacity_taken n q : ¬ taken (with_capacity n) [] q.
Proof.
  destruct q as [i|k]; simpl; [rewrite elem_of_live; simpl; lia|].
  rewrite lookup_empty. by intros [? ?].
Qed.

Lemma allocate_if_space_taken a free :
  arena_ok a free →
  allocate_if_space p a = Ret (None, a) ∨
  ∃ q a' free', allocate_if_space p a = Ret (Some q, a') ∧ arena_ok a' free' ∧ ¬ taken a free q ∧
    (∀ q', taken a' free' q' ↔ q' = q ∨ taken a free q') ∧ keeps a a' (λ _, True).
Proof.
  intros Hok. destruct (allocate_if_space_spec p a free Hok)
    as [[_ He]|(i & a' & free' & He & Hok' & _ & Hni & Hl & Hs & Hh & _)]; [by left|right].
  exists (PSlot i), a', free'. split_and!; [done..| |].
  - intros [j|k]; simpl; [rewrite Hl, elem_of_union, elem_of_singleton; naive_solver|].
    rewrite Hh. naive_solver.
  - intros [j|k] _; simpl; by rewrite ?Hs, ?Hh.
Qed.

Lemma allocate_taken a free :
  arena_ok a free →
  ∃ q a' free', allocate p a = Ret (q, a') ∧ arena_ok a' free' ∧ ¬ taken a free q ∧
    (∀ q', taken a' free' q' ↔ q' = q ∨ taken a free q') ∧ keeps a a' (taken a free).
Proof.
  intros Hok. destruct (allocate_spec p a free Hok) as (q & a' & free' & He & Hok' & _ & Hs & Hq).
  exists q, a', free'. split; [done|]. split; [done|]. destruct q as [i|k].
  - destruct Hq as (_ & Hni & Hl & Hh). split_and!; [done| |].
    + intros [j|k]; simpl; [rewrite Hl, elem_of_union, elem_of_singleton; naive_solver|].
      rewrite Hh. naive_solver.
    + intros [j|k] _; simpl; by rewrite ?Hs, ?Hh.
  - destruct Hq as (_ & Hl & Hk & Hh). split_and!; [simpl; rewrite Hk; by intros [? ?]| |].
    + intros [j|k']; simpl; [rewrite Hl; naive_solver|]. rewrite Hh.
      rewrite lookup_insert_is_Some. destruct (decide (k = k')) as [->|]; naive_solver.
    + intros [j|k'] Ht; simpl; rewrite ?Hs, ?Hh; [done|].
      destruct (decide (k = k')) as [->|]; [|by rewrite lookup_insert_ne].
      simpl in Ht. rewrite Hk in Ht. by destruct Ht.
Qed.

Lemma write_taken a free q v :
  arena_ok a free → taken a free q →
  ∃ a', write a q v = Ret a' ∧ arena_ok a' free ∧ (∀ q', taken a' free q' ↔ taken a free q') ∧
    read a' q = Ret v ∧ keeps a a' (λ q', q' ≠ q).
Proof.
  intros Hok. destruct q as [i|k]; simpl.
  - intros [Hi Hni]%elem_of_live. eexists. split; [done|]. split; [|split; [|split]].
    + destruct Hok as [Hc Hn Hb Hm Hcnt Hh Hsize]. split; simpl; try done. by apply chain_insert.
    + by intros [j|k].
    + simpl. by rewrite lookup_insert_eq.
    + intros [j|k] Hne; simpl; [|done]. rewrite lookup_insert_ne; [done|congruence].
  - intros [o Ho]. rewrite Ho. eexists. split; [done|]. split; [|split; [|split]].
    + destruct Hok as [Hc Hn Hb Hm Hcnt Hh Hsize]. split; simpl; try done.
      intros k'. rewrite lookup_insert_is_Some. intros [->|[_ ?]]; [apply Hh; by eexists|auto].
    + intros [j|k']; simpl; [done|]. rewrite lookup_insert_is_Some.
      destruct (decide (k = k')) as [->|]; rewrite ?Ho; naive_solver.
    + simpl. by rewrite lookup_insert_eq.
    + intros [j|k'] Hne; simpl; [done|]. rewrite lookup_insert_ne; [done|congruence].
Qed.

Lemma give_back_taken a free q :
  arena_ok a free → taken a free q →
  ∃ b a' free', give_back p a q = Ret (b, a') ∧ arena_ok a' free' ∧
    (∀ q', taken a' free' q' ↔ q' ≠ q ∧ taken a free q') ∧ keeps a a' (λ q', q' ≠ q).
Proof.
  intros Hok Ht. destruct q as [i|k].
  - destruct (give_back_spec p a free i Hok Ht) as (a' & He & Hok' & Hl & Hs & Hh & _).
    eexists _, a', (i :: free). split; [done|]. split; [done|]. split.
    + intros [j|k]; simpl; [|rewrite Hh; naive_solver].
      rewrite Hl, elem_of_difference, elem_of_singleton. naive_solver.
    + intros [j|k] Hne; simpl; rewrite ?Hs, ?Hh; [|done]. rewrite lookup_insert_ne; [done|congruence].
  - destruct Ht as [o Ho]. unfold give_back. rewrite Ho. eexists _, _, free. split; [done|].
    split; [|split].
    + destruct Hok as [Hc Hn Hb Hm Hcnt Hh Hsize]. split; simpl; try done.
      intros k' [x Hx]. apply lookup_delete_Some in Hx as [_ Hx]. apply Hh. by eexists.
    + intros [j|k']; simpl; [naive_solver|]. rewrite lookup_delete_is_Some. naive_solver.
    + intros [j|k'] Hne; simpl; [done|]. rewrite lookup_delete_ne; [done|congruence].
Qed.

Lemma recycle_taken a free q v :
  arena_ok a free → taken a free q → read a q = Ret v →
  ∃ b a' free', recycle p a q = Ret (b, v, a') ∧ arena_ok a' free' ∧
    (∀ q', taken a' free' q' ↔ q' ≠ q ∧ taken a free q') ∧ keeps a a' (λ q', q' ≠ q).
Proof.
  intros Hok Ht Hv. destruct (give_back_taken a free q Hok Ht) as (b & a' & free' & He & ?).
  exists b, a', free'. split; [|done]. unfold recycle. rewrite Hv. simpl. by rewrite He.
Qed.

Lemma clear_untaken a free :
  arena_ok a free → (∀ q, ¬ taken a free q) → ∃ a', clear_allocated a = Ret ([], a').
Proof.
  intros Hok Hno. eexists. unfold clear_allocated. rewrite decide_False; [done|].
  pose proof (size_live a free Hok) as Hs.
  assert (live a free = ∅) as Hl.
  { apply set_eq. intros i. pose proof (Hno (PSlot i)) as Hi. simpl in Hi. set_solver. }
  rewrite Hl, size_empty in Hs. rewrite (a_count _ _ Hok). lia.
Qed.
End taken.

(** * Boxes and their owners

    [boxes] are the live boxes, [reserved] the reservations, [handle] whether the arena's
    handle exists; [owners] is what keeps the arena. *)

Section owners.
Context {T : Type} (p : profile).
Implicit Types (s : ArenaShared T) (a : RawArena (ArenaRcData T)) (d : ArenaRcData T)
  (boxes : gmap ptr (ArenaRcData T)) (reserved : gset ptr).

Definition owners boxes reserved (handle : bool) : Z :=
  Z.of_nat (size boxes) + Z.of_nat (size reserved) + (if handle then 1 else 0).

Definition shared_ok s boxes reserved (handle : bool) : Prop :=
  match shared_raw s with
  | None => owners boxes reserved handle = 0%Z
  | Some a => ∃ free, arena_ok a free ∧
      (∀ q, taken a free q ↔ q ∈ dom boxes ∪ reserved) ∧ dom boxes ## reserved ∧
      map_Forall (λ q d, read a q = Ret d) boxes ∧
      shared_count s = (owners boxes reserved handle - 1)%Z ∧ (0 < owners boxes reserved handle)%Z
  end.

Lemma owners_nonneg boxes reserved handle : (0 <= owners boxes reserved handle)%Z.
Proof. unfold owners. destruct handle; lia. Qed.

Lemma owners_none boxes reserved handle :
  owners boxes reserved handle = 0%Z ↔ boxes = ∅ ∧ reserved = ∅ ∧ handle = false.
Proof.
  unfold owners. split.
  - intros H. destruct handle; [lia|]. split; [apply map_size_empty_iff; lia|].
    split; [|done]. apply leibniz_equiv, size_empty_iff. lia.
  - intros (-> & -> & ->). by rewrite map_size_empty, size_empty.
Qed.

Lemma owners_insert boxes reserved handle q d :
  boxes !! q = None → owners (<[q := d]> boxes) reserved handle = (owners boxes reserved handle + 1)%Z.
Proof. intros Hq. unfold owners. rewrite map_size_insert_None by done. lia. Qed.
Lemma owners_update boxes reserved handle q d :
  is_Some (boxes !! q) → owners (<[q := d]> boxes) reserved handle = owners boxes reserved handle.
Proof. intros Hq. unfold owners. by rewrite map_size_insert_Some. Qed.
Lemma owners_delete boxes reserved handle q :
  is_Some (boxes !! q) → owners (base.delete q boxes) reserved handle = (owners boxes reserved handle - 1)%Z.
Proof.
  intros Hq. unfold owners. rewrite map_size_delete_Some by done.
  assert (size boxes ≠ 0); [|lia]. intros ->%map_size_empty_inv. destruct Hq as [? ?%lookup_empty_Some]. done.
Qed.
Lemma owners_reserve boxes reserved handle q :
  q ∉ reserved → owners boxes ({[q]} ∪ reserved) handle = (owners boxes reserved handle + 1)%Z.
Proof. intros Hq. unfold owners. rewrite size_union, size_singleton by set_solver. lia. Qed.
Lemma owners_release boxes reserved handle q :
  q ∈ reserved → owners boxes (reserved ∖ {[q]}) handle = (owners boxes reserved handle - 1)%Z.
Proof.
  intros Hq. unfold owners. rewrite size_difference, size_singleton by set_solver.
  assert (size reserved ≠ 0); [|lia]. intros ?%size_empty_inv. set_solver.
Qed.

Lemma shared_ok_live s boxes reserved handle :
  shared_ok s boxes reserved handle → (0 < owners boxes reserved handle)%Z →
  ∃ a free, shared_arena s = Ret a ∧ shared_raw s = Some a ∧ arena_ok a free ∧
    (∀ q, taken a free q ↔ q ∈ dom boxes ∪ reserved) ∧ dom boxes ## reserved ∧
    map_Forall (λ q d, read a q = Ret d) boxes ∧
    shared_count s = (owners boxes reserved handle - 1)%Z.
Proof.
  unfold shared_ok, shared_arena. destruct (shared_raw s) as [a|]; [|lia].
  intros (free & ? & ? & ? & ? & ? & _) _. by exists a, free.
Qed.

Lemma owners_box boxes reserved handle q d :
  boxes !! q = Some d → (0 < owners boxes reserved handle)%Z.
Proof.
  intros Hq. pose proof (owners_nonneg boxes reserved handle).
  destruct (decide (owners boxes reserved handle = 0%Z)) as [(-> & _)%owners_none|]; [|lia].
  by apply lookup_empty_Some in Hq.
Qed.
Lemma owners_reserved boxes reserved handle q :
  q ∈ reserved → (0 < owners boxes reserved handle)%Z.
Proof.
  intros Hq. pose proof (owners_nonneg boxes reserved handle).
  destruct (decide (owners boxes reserved handle = 0%Z)) as [(_ & -> & _)%owners_none|]; [set_solver|lia].
Qed.
Lemma owners_handle boxes reserved : (0 < owners boxes reserved true)%Z.
Proof. unfold owners. lia. Qed.

Lemma shared_new_ok n :
  (Z.of_nat n < 2 ^ 64)%Z → shared_ok (shared_with_capacity (T:=T) n) ∅ ∅ true.
Proof.
  intros Hn. exists []. split; [by apply with_capacity_ok|]. split; [|split; [set_solver|]].
  - intros q. pose proof (with_capacity_taken (V:=ArenaRcData T) n q). set_solver.
  - split; [apply map_Forall_empty|]. unfold owners. by rewrite map_size_empty, size_empty.
Qed.

(** Writing the first value of a pointer that is taken makes it a box. *)
Lemma fill_ok a free boxes reserved q d :
  arena_ok a free → (∀ q', taken a free q' ↔ q' = q ∨ q' ∈ dom boxes ∪ reserved) →
  dom boxes ## reserved → boxes !! q = None → (q ∉ reserved) →
  map_Forall (λ q d, read a q = Ret d) boxes →
  ∃ a', write a q d = Ret a' ∧ arena_ok a' free ∧
    (∀ q', taken a' free q' ↔ q' ∈ dom (<[q := d]> boxes) ∪ reserved) ∧
    dom (<[q := d]> boxes) ## reserved ∧ map_Forall (λ q d, read a' q = Ret d) (<[q := d]> boxes).
Proof.
  intros Hok Ht Hd Hb Hr Hread.
  destruct (write_taken a free q d Hok) as (a' & Hw & Hok' & Ht' & Hq & Hk); [apply Ht; by left|].
  exists a'. split; [done|]. split; [done|]. rewrite dom_insert_L. split; [|split; [set_solver|]].
  - intros q'. rewrite Ht', Ht. set_solver.
  - intros q' d' [[<- <-]|[Hne Hq']]%lookup_insert_Some; [done|]. rewrite Hk by done. by apply Hread.
Qed.

Lemma shared_allocate_if_space_ok s boxes reserved v :
  shared_ok s boxes reserved true → (owners boxes reserved true < 2 ^ 64)%Z →
  ∃ o s', shared_allocate_if_space p s v = Ret (o, s') ∧
    match o with
    | None => s' = s
    | Some q => boxes !! q = None ∧ (q ∉ reserved) ∧ shared_ok s' (<[q := mkRcData 0 v]> boxes) reserved true
    end.
Proof.
  intros Hs Hn. pose proof (owners_handle boxes reserved) as Hp.
  destruct (shared_ok_live _ _ _ _ Hs Hp) as (a & free & Ha & Hraw & Hok & Ht & Hd & Hr & Hc).
  unfold shared_allocate_if_space. rewrite Ha. simpl.
  destruct (allocate_if_space_taken p a free Hok)
    as [->|(q & a1 & free' & -> & Hok1 & Hnt & Ht1 & Hk)]; simpl.
  { eexists None, _. split; [done|]. destruct s. simpl in *. by rewrite Hraw. }
  rewrite add_w_fits by lia. simpl. rewrite Ht, not_elem_of_union, not_elem_of_dom in Hnt.
  destruct Hnt as [Hqb Hqr].
  destruct (fill_ok a1 free' boxes reserved q (mkRcData 0 v)) as (a2 & -> & Hok2 & Ht2 & Hd2 & Hr2); try done.
  { intros q'. by rewrite Ht1, Ht. }
  { intros q' d' Hq'. rewrite Hk by done. by apply Hr. }
  simpl. eexists (Some q), _. split; [done|]. split; [done|]. split; [done|].
  exists free'. rewrite owners_insert by done. simpl. split_and!; try done; lia.
Qed.

Lemma shared_allocate_ok s boxes reserved v :
  shared_ok s boxes reserved true → (owners boxes reserved true < 2 ^ 64)%Z →
  ∃ q s', shared_allocate p s v = Ret (q, s') ∧ boxes !! q = None ∧ (q ∉ reserved) ∧
    shared_ok s' (<[q := mkRcData 0 v]> boxes) reserved true.
Proof.
  intros Hs Hn. pose proof (owners_handle boxes reserved) as Hp.
  destruct (shared_ok_live _ _ _ _ Hs Hp) as (a & free & Ha & _ & Hok & Ht & Hd & Hr & Hc).
  unfold shared_allocate. rewrite Ha. simpl.
  destruct (allocate_taken p a free Hok) as (q & a1 & free' & -> & Hok1 & Hnt & Ht1 & Hk). simpl.
  rewrite add_w_fits by lia. simpl. rewrite Ht, not_elem_of_union, not_elem_of_dom in Hnt.
  destruct Hnt as [Hqb Hqr].
  destruct (fill_ok a1 free' boxes reserved q (mkRcData 0 v)) as (a2 & -> & Hok2 & Ht2 & Hd2 & Hr2); try done.
  { intros q'. by rewrite Ht1, Ht. }
  { intros q' d' Hq'. rewrite Hk; [by apply Hr|]. apply Ht. apply elem_of_union_l. by eapply elem_of_dom_2. }
  simpl. eexists q, _. split; [done|]. split; [done|]. split; [done|].
  exists free'. rewrite owners_insert by done. simpl. split_and!; try done; lia.
Qed.

Lemma shared_reserve_ok s boxes reserved :
  shared_ok s boxes reserved true → (owners boxes reserved true < 2 ^ 64)%Z →
  ∃ o s', shared_reserve_space p s = Ret (o, s') ∧
    match o with
    | None => s' = s
    | Some q => boxes !! q = None ∧ (q ∉ reserved) ∧ shared_ok s' boxes ({[q]} ∪ reserved) true
    end.
Proof.
  intros Hs Hn. pose proof (owners_handle boxes reserved) as Hp.
  destruct (shared_ok_live _ _ _ _ Hs Hp) as (a & free & Ha & Hraw & Hok & Ht & Hd & Hr & Hc).
  unfold shared_reserve_space. rewrite Ha. simpl.
  destruct (allocate_if_space_taken p a free Hok)
    as [->|(q & a1 & free' & -> & Hok1 & Hnt & Ht1 & Hk)]; simpl.
  { eexists None, _. split; [done|]. destruct s. simpl in *. by rewrite Hraw. }
  rewrite add_w_fits by lia. simpl. rewrite Ht, not_elem_of_union, not_elem_of_dom in Hnt.
  destruct Hnt as [Hqb Hqr]. eexists (Some q), _. split; [done|]. split; [done|]. split; [done|].
  exists free'. rewrite owners_reserve by done. simpl. split_and!; try done; try lia.
  - intros q'. rewrite Ht1, Ht. set_solver.
  - apply not_elem_of_dom in Hqb. set_solver.
  - intros q' d' Hq'. rewrite Hk by done. by apply Hr.
Qed.

Lemma shared_complete_ok s boxes reserved handle q v :
  shared_ok s boxes reserved handle → q ∈ reserved →
  ∃ s', shared_complete_reservation s q v = Ret (q, s') ∧
    shared_ok s' (<[q := mkRcData 0 v]> boxes) (reserved ∖ {[q]}) handle.
Proof.
  intros Hs Hq. pose proof (owners_reserved boxes reserved handle q Hq) as Hp.
  destruct (shared_ok_live _ _ _ _ Hs Hp) as (a & free & Ha & _ & Hok & Ht & Hd & Hr & Hc).
  assert (boxes !! q = None) as Hqb by (apply not_elem_of_dom; set_solver).
  destruct (fill_ok a free boxes (reserved ∖ {[q]}) q (mkRcData 0 v)) as (a' & Hw & ? & ? & ? & ?); try done.
  { intros q'. rewrite Ht. destruct (decide (q' = q)); set_solver. }
  { set_solver. } { set_solver. }
  unfold shared_complete_reservation. rewrite Ha. simpl. rewrite Hw. simpl.
  eexists. split; [done|]. exists free. rewrite owners_insert, owners_release by done. simpl.
  split_and!; try done; lia.
Qed.

Lemma shared_forget_ok s boxes reserved q :
  shared_ok s boxes reserved true → q ∈ reserved →
  ∃ s', shared_forget_reservation p s q = Ret s' ∧ shared_ok s' boxes (reserved ∖ {[q]}) true.
Proof.
  intros Hs Hq. pose proof (owners_handle boxes (reserved ∖ {[q]})) as Hp.
  pose proof (owners_release boxes reserved true q Hq) as Ho.
  destruct (shared_ok_live _ _ _ _ Hs) as (a & free & Ha & _ & Hok & Ht & Hd & Hr & Hc); [lia|].
  unfold shared_forget_reservation, recycle_without_drop. rewrite Ha. simpl.
  rewrite sub_w_fits by lia. simpl.
  destruct (give_back_taken p a free q Hok) as (b & a' & free' & -> & Hok' & Ht' & Hk); [apply Ht; set_solver|].
  simpl. eexists. split; [done|]. exists free'. simpl. split_and!; try done; try lia.
  - intros q'. rewrite Ht', Ht. destruct (decide (q' = q)); set_solver.
  - set_solver.
  - intros q' d' Hq'. rewrite Hk; [by apply Hr|]. intros ->. apply elem_of_dom_2 in Hq'. set_solver.
Qed.

(** The arena is freed with nothing left in it when its last owner goes. *)
Lemma shared_drop_data_ok s a free :
  shared_raw s = Some a → arena_ok a free → (∀ q, ¬ taken a free q) →
  shared_drop_data s = Ret ([], mkShared None (shared_count s)).
Proof.
  intros Ha Hok Hno. unfold shared_drop_data, shared_arena. rewrite Ha. simpl.
  destruct (clear_untaken a free Hok Hno) as [a' ->]. done.
Qed.

Lemma shared_delete_ok s boxes reserved handle q d :
  shared_ok s boxes reserved handle → boxes !! q = Some d →
  ∃ s', shared_delete p s q = Ret (rc_data d, [], s') ∧
    shared_ok s' (base.delete q boxes) reserved handle.
Proof.
  intros Hs Hq. pose proof (owners_box boxes reserved handle q d Hq) as Hp.
  pose proof (owners_delete boxes reserved handle q (ex_intro _ d Hq)) as Ho.
  destruct (shared_ok_live _ _ _ _ Hs Hp) as (a & free & Ha & _ & Hok & Ht & Hd & Hr & Hc).
  pose proof (elem_of_dom_2 _ _ _ Hq) as Hdom.
  unfold shared_delete. rewrite Ha. simpl.
  destruct (recycle_taken p a free q d Hok) as (b & a' & free' & -> & Hok' & Ht' & Hk);
    [apply Ht; set_solver|by apply Hr|]. simpl.
  assert (∀ q', taken a' free' q' ↔ q' ∈ dom (base.delete q boxes) ∪ reserved) as Ht2.
  { intros q'. rewrite Ht', Ht, dom_delete_L. destruct (decide (q' = q)); set_solver. }
  case_decide as Hz.
  - assert (owners (base.delete q boxes) reserved handle = 0%Z) as Hz' by lia.
    rewrite (shared_drop_data_ok _ a' free'); [|done..|].
    + simpl. eexists. split; [done|]. done.
    + intros q'. rewrite Ht2. apply owners_none in Hz' as (-> & -> & _). set_solver.
  - rewrite sub_w_fits by (pose proof (owners_nonneg (base.delete q boxes) reserved handle); lia).
    simpl. eexists. split; [done|]. exists free'. simpl. rewrite Ho. split_and!; try done; try lia.
    + rewrite dom_delete_L. set_solver.
    + intros q' d' [Hne Hq']%lookup_delete_Some. rewrite Hk by done. by apply Hr.
Qed.

Lemma shared_drop_handle_ok s boxes reserved :
  shared_ok s boxes reserved true →
  ∃ s', shared_drop_handle p s = Ret ([], s') ∧ shared_ok s' boxes reserved false.
Proof.
  intros Hs. pose proof (owners_handle boxes reserved) as Hp.
  assert (owners boxes reserved true = owners boxes reserved false + 1)%Z as Ho by (unfold owners; lia).
  destruct (shared_ok_live _ _ _ _ Hs Hp) as (a & free & Ha & Hraw & Hok & Ht & Hd & Hr & Hc).
  unfold shared_drop_handle. rewrite Ha. simpl. case_decide as Hz.
  - assert (owners boxes reserved false = 0%Z) as Hz' by lia.
    rewrite (shared_drop_data_ok _ a free); [|done..|].
    + eexists. split; [done|]. done.
    + intros q'. rewrite Ht. apply owners_none in Hz' as (-> & -> & _). set_solver.
  - rewrite sub_w_fits by (pose proof (owners_nonneg boxes reserved false); lia). simpl.
    eexists. split; [done|]. unfold shared_ok. simpl. rewrite Hraw. exists free.
    pose proof (owners_nonneg boxes reserved false). split_and!; try done; lia.
Qed.

Lemma rc_ref_ok s boxes reserved handle q d :
  shared_ok s boxes reserved handle → boxes !! q = Some d → rc_ref s q = Ret d.
Proof.
  intros Hs Hq.
  destruct (shared_ok_live _ _ _ _ Hs (owners_box _ _ _ _ _ Hq)) as (a & ? & Ha & _ & _ & _ & _ & Hr & _).
  unfold rc_ref. rewrite Ha. by apply Hr.
Qed.

Lemma set_rc_ok s boxes reserved handle q d d' :
  shared_ok s boxes reserved handle → boxes !! q = Some d →
  ∃ s', set_rc s q d' = Ret s' ∧ shared_ok s' (<[q := d']> boxes) reserved handle.
Proof.
  intros Hs Hq. pose proof (owners_box boxes reserved handle q d Hq) as Hp.
  pose proof (owners_update boxes reserved handle q d' (ex_intro _ d Hq)) as Ho.
  destruct (shared_ok_live _ _ _ _ Hs Hp) as (a & free & Ha & _ & Hok & Ht & Hd & Hr & Hc).
  pose proof (elem_of_dom_2 _ _ _ Hq) as Hdom.
  unfold set_rc. rewrite Ha. simpl.
  destruct (write_taken a free q d' Hok) as (a' & -> & Hok' & Ht' & Hq' & Hk); [apply Ht; set_solver|].
  simpl. eexists. split; [done|]. exists free. simpl. rewrite Ho, dom_insert_lookup_L by done.
  split_and!; try done; try lia.
  - intros q'. by rewrite Ht'.
  - intros q' x [[<- <-]|[Hne Hx]]%lookup_insert_Some; [done|]. rewrite Hk by done. by apply Hr.
Qed.

Lemma clone_ok s boxes reserved handle q d :
  shared_ok s boxes reserved handle → boxes !! q = Some d → (rc_count d + 1 < 2 ^ 64)%Z →
  ∃ s', clone_raw_from_raw p s q = Ret s' ∧
    shared_ok s' (<[q := mkRcData (rc_count d + 1) (rc_data d)]> boxes) reserved handle.
Proof.
  intros Hs Hq Hn. unfold clone_raw_from_raw. rewrite (rc_ref_ok _ _ _ _ _ _ Hs Hq). simpl.
  rewrite add_w_fits by done. simpl. by eapply set_rc_ok.
Qed.

Lemma rc_drop_last s boxes reserved handle q d :
  shared_ok s boxes reserved handle → boxes !! q = Some d → rc_count d = 0%Z →
  ∃ s', rc_drop p s q = Ret (Some (rc_data d), [], s') ∧
    shared_ok s' (base.delete q boxes) reserved handle.
Proof.
  intros Hs Hq Hz. unfold rc_drop. rewrite (rc_ref_ok _ _ _ _ _ _ Hs Hq). simpl.
  rewrite decide_True by done. destruct (shared_delete_ok _ _ _ _ _ _ Hs Hq) as (s' & -> & ?).
  simpl. by eexists.
Qed.

Lemma rc_drop_other s boxes reserved handle q d :
  shared_ok s boxes reserved handle → boxes !! q = Some d → (0 < rc_count d)%Z →
  ∃ s', rc_drop p s q = Ret (None, [], s') ∧
    shared_ok s' (<[q := mkRcData (rc_count d - 1) (rc_data d)]> boxes) reserved handle.
Proof.
  intros Hs Hq Hz. unfold rc_drop. rewrite (rc_ref_ok _ _ _ _ _ _ Hs Hq). simpl.
  rewrite decide_False by lia. rewrite sub_w_fits by lia. simpl.
  destruct (set_rc_ok s boxes reserved handle q d (mkRcData (rc_count d - 1) (rc_data d)) Hs Hq)
    as (s' & -> & ?). simpl. by eexists.
Qed.

Lemma shared_freed s boxes reserved handle :
  shared_ok s boxes reserved handle →
  (shared_raw s = None ↔ boxes = ∅ ∧ reserved = ∅ ∧ handle = false).
Proof.
  unfold shared_ok. rewrite <- owners_none. destruct (shared_raw s); [|done].
  intros (_ & _ & _ & _ & _ & _ & ?). split; [done|lia].
Qed.
End owners.

(** * [ArenaSharedAtomic]

    The counts of boxes are atomic, the arena is behind a spin lock.  What a thread does
    between [lock] and [unlock] is one step, since no other thread can touch the protected
    data; dropping a box is two, the decrement and, after the last one, [delete].  The
    answer [None] is a thread that spins. *)

Record ArenaSharedAtomic (T : Type) := mkAtomic { mutex : bool; protected : ArenaShared T }.
Arguments mkAtomic {T} _ _.
Arguments mutex {T} _.
Arguments protected {T} _.

Section atomic.
Context {T : Type} (p : profile).
Implicit Types (s : ArenaSharedAtomic T) (q : ptr).

Definition atomic_with_capacity (capacity : nat) : ArenaSharedAtomic T :=
  mkAtomic false (shared_with_capacity capacity).

(** One turn of the loop of [lock]. *)
Definition lock s : outcome (option (ArenaShared T)) :=
  _ ← shared_arena (protected s);
  Ret (if mutex s then None else Some (protected s)).

Definition locked {A} s (body : ArenaShared T → outcome (A * ArenaSharedAtomic T)) :
    outcome (option (A * ArenaSharedAtomic T)) :=
  r ← lock s;
  match r with None => Ret None | Some r => x ← body r; Ret (Some x) end.

(** [unlock]. *)
Definition unlocked (r : ArenaShared T) : ArenaSharedAtomic T := mkAtomic false r.

Definition atomic_delete s q : outcome (option ((T * list T) * ArenaSharedAtomic T)) :=
  _ ← rc_ref (protected s) q;
  locked s (λ r,
    '(v, dropped, r') ← shared_delete p r q;
    Ret ((v, dropped), if decide (shared_count r = 0%Z) then mkAtomic true r' else unlocked r')).

Definition atomic_allocate s (data : T) : outcome (option (ptr * ArenaSharedAtomic T)) :=
  locked s (λ r, '(q, r) ← shared_allocate p r data; Ret (q, unlocked r)).

(** A full arena returns with the lock held. *)
Definition atomic_allocate_if_space s (data : T) :
    outcome (option (option ptr * ArenaSharedAtomic T)) :=
  locked s (λ r,
    '(o, r) ← shared_allocate_if_space p r data;
    Ret (o, match o with None => mkAtomic true r | Some _ => unlocked r end)).

Definition atomic_reserve_space s : outcome (option (option ptr * ArenaSharedAtomic T)) :=
  locked s (λ r,
    '(o, r) ← shared_reserve_space p r;
    Ret (o, match o with None => mkAtomic true r | Some _ => unlocked r end)).

Definition atomic_forget_reservation s q : outcome (option (unit * ArenaSharedAtomic T)) :=
  locked s (λ r, r ← shared_forget_reservation p r q; Ret (tt, unlocked r)).

(** Takes no lock: nobody else has the pointer. *)
Definition atomic_complete_reservation s q (data : T) : outcome (ptr * ArenaSharedAtomic T) :=
  '(q, r) ← shared_complete_reservation (protected s) q data;
  Ret (q, mkAtomic (mutex s) r).

Definition atomic_drop_handle s : outcome (option (list T * ArenaSharedAtomic T)) :=
  locked s (λ r,
    '(dropped, r') ← shared_drop_handle p r;
    Ret (dropped, if decide (shared_count r = 0%Z) then mkAtomic true r' else unlocked r')).

(** ** [ArenaArc]: atomic operations wrap. *)

Definition fetch_add s q (n : Z) : outcome (Z * ArenaSharedAtomic T) :=
  d ← rc_ref (protected s) q;
  r ← set_rc (protected s) q (mkRcData ((rc_count d + n) mod 2 ^ 64) (rc_data d));
  Ret (rc_count d, mkAtomic (mutex s) r).

Definition arc_clone s q : outcome (ArenaSharedAtomic T) := '(_, s) ← fetch_add s q 1; Ret s.

(** The first half of [Drop] and [drop_from_raw]: whether [delete] comes next. *)
Definition arc_release s q : outcome (bool * ArenaSharedAtomic T) :=
  '(n, s) ← fetch_add s q (-1); Ret (bool_decide (n = 0%Z), s).

(** ** Threads

    An action is what some thread does next. *)

Inductive action :=
  | AAllocate (v : T)
  | ATryAllocate (v : T)
  | AReserve
  | AComplete (q : ptr) (v : T)
  | AForget (q : ptr)
  | AClone (q : ptr)
  | ARelease (q : ptr)
  | ADelete (q : ptr)
  | ADropHandle.

Inductive answer :=
  | RBox (q : ptr)
  | RFull
  | RDone
  | RLast                          (** the thread goes on to [delete] *)
  | RDropped (v : T) (more : list T).

Definition boxed (o : option ptr) : answer := match o with Some q => RBox q | None => RFull end.

Definition answered {A} (f : A → answer) (o : outcome (option (A * ArenaSharedAtomic T))) :
    outcome (option (answer * ArenaSharedAtomic T)) :=
  r ← o; Ret (match r with Some (x, s) => Some (f x, s) | None => None end).

Definition exec (act : action) s : outcome (option (answer * ArenaSharedAtomic T)) :=
  match act with
  | AAllocate v => answered RBox (atomic_allocate s v)
  | ATryAllocate v => answered boxed (atomic_allocate_if_space s v)
  | AReserve => answered boxed (atomic_reserve_space s)
  | AComplete q v => '(q, s) ← atomic_complete_reservation s q v; Ret (Some (RBox q, s))
  | AForget q => answered (λ _, RDone) (atomic_forget_reservation s q)
  | AClone q => s ← arc_clone s q; Ret (Some (RBox q, s))
  | ARelease q => '(b, s) ← arc_release s q; Ret (Some (if (b : bool) then RLast else RDone, s))
  | ADelete q => answered (λ x, RDropped x.1 x.2) (atomic_delete s q)
  | ADropHandle => answered (λ l, match l with [] => RDone | v :: l => RDropped v l end) (atomic_drop_handle s)
  end.

Definition takes_lock (act : action) : bool :=
  match act with AComplete _ _ | AClone _ | ARelease _ => false | _ => true end.
End atomic.
Arguments action : clear implicits.
Arguments answer : clear implicits.

(** * What the threads may rely on

    [refs] are the boxes with the number of their references, [doomed] those whose last
    reference is gone, until their thread reaches [delete]; [stuck] is a lock that nobody
    will give back. *)

Record tally (T : Type) := mkTally {
  refs : gmap ptr (Z * T);
  doomed : gmap ptr T;
  reservations : gset ptr;
  has_handle : bool;
  stuck : bool
}.
Arguments mkTally {T} _ _ _ _ _.
Arguments refs {T} _.
Arguments doomed {T} _.
Arguments reservations {T} _.
Arguments has_handle {T} _.
Arguments stuck {T} _.

Section tally.
Context {T : Type} (p : profile).
Implicit Types (s : ArenaSharedAtomic T) (t : tally T) (q : ptr) (act : action T).

Definition unused t q : Prop :=
  refs t !! q = None ∧ doomed t !! q = None ∧ (q ∉ reservations t).

Definition set_refs t (r : gmap ptr (Z * T)) : tally T :=
  mkTally r (doomed t) (reservations t) (has_handle t) (stuck t).
Definition set_reservations t (k : gset ptr) : tally T :=
  mkTally (refs t) (doomed t) k (has_handle t) (stuck t).
Definition stick t : tally T :=
  mkTally (refs t) (doomed t) (reservations t) (has_handle t) true.

Inductive tally_step t : action T → answer T → tally T → Prop :=
  | t_allocate v q : unused t q →
      tally_step t (AAllocate v) (RBox q) (set_refs t (<[q := (1%Z, v)]> (refs t)))
  | t_try v q : unused t q →
      tally_step t (ATryAllocate v) (RBox q) (set_refs t (<[q := (1%Z, v)]> (refs t)))
  | t_try_full v : tally_step t (ATryAllocate v) RFull (stick t)
  | t_reserve q : unused t q →
      tally_step t AReserve (RBox q) (set_reservations t ({[q]} ∪ reservations t))
  | t_reserve_full : tally_step t AReserve RFull (stick t)
  | t_complete q v :
      tally_step t (AComplete q v) (RBox q)
        (set_reservations (set_refs t (<[q := (1%Z, v)]> (refs t))) (reservations t ∖ {[q]}))
  | t_forget q :
      tally_step t (AForget q) RDone (set_reservations t (reservations t ∖ {[q]}))
  | t_clone q n v : refs t !! q = Some (n, v) →
      tally_step t (AClone q) (RBox q) (set_refs t (<[q := ((n + 1)%Z, v)]> (refs t)))
  | t_release q n v : refs t !! q = Some (n, v) → (1 < n)%Z →
      tally_step t (ARelease q) RDone (set_refs t (<[q := ((n - 1)%Z, v)]> (refs t)))
  | t_release_last q v : refs t !! q = Some (1%Z, v) →
      tally_step t (ARelease q) RLast
        (mkTally (base.delete q (refs t)) (<[q := v]> (doomed t)) (reservations t) (has_handle t) (stuck t))
  | t_delete q v : doomed t !! q = Some v →
      tally_step t (ADelete q) (RDropped v [])
        (mkTally (refs t) (base.delete q (doomed t)) (reservations t) (has_handle t) (stuck t))
  | t_drop_handle :
      tally_step t ADropHandle RDone
        (mkTally (refs t) (doomed t) (reservations t) false (stuck t)).

(** Methods of the arena need its handle, references and reservations are used by those
    that own them, and no count reaches the width of a word. *)
Definition fits t : Prop :=
  (Z.of_nat (size (refs t)) + Z.of_nat (size (doomed t)) + Z.of_nat (size (reservations t)) + 1 < 2 ^ 64)%Z.

Definition legal t act : Prop :=
  match act with
  | AAllocate _ | ATryAllocate _ | AReserve => has_handle t = true ∧ fits t
  | AComplete q _ | AForget q => has_handle t = true ∧ q ∈ reservations t
  | AClone q => ∃ n v, refs t !! q = Some (n, v) ∧ (n + 1 < 2 ^ 64)%Z
  | ARelease q => is_Some (refs t !! q)
  | ADelete q => is_Some (doomed t !! q)
  | ADropHandle => has_handle t = true
  end.

Definition start (capacity : nat) : ArenaSharedAtomic T * tally T :=
  (atomic_with_capacity capacity, mkTally ∅ ∅ ∅ true false).

(** What threads can bring about, with the tally of what they own. *)
Inductive reachable : ArenaSharedAtomic T → tally T → Prop :=
  | r_start n : (Z.of_nat n < 2 ^ 64)%Z → reachable (start n).1 (start n).2
  | r_step s t act r s' t' :
      reachable s t → legal t act → exec p act s = Ret (Some (r, s')) → tally_step t act r t' →
      reachable s' t'.

(** ** The tally describes the memory *)

Definition live_entry (x : Z * T) : ArenaRcData T := mkRcData (x.1 - 1) x.2.
Definition doomed_entry (v : T) : ArenaRcData T := mkRcData (2 ^ 64 - 1) v.
Definition memory t : gmap ptr (ArenaRcData T) :=
  (live_entry <$> refs t) ∪ (doomed_entry <$> doomed t).

Record describes s t : Prop := {
  d_ok : shared_ok (protected s) (memory t) (reservations t) (has_handle t);
  d_disj : ∀ q, is_Some (refs t !! q) → doomed t !! q = None;
  d_count : ∀ q n v, refs t !! q = Some (n, v) → (1 <= n < 2 ^ 64)%Z;
  d_mutex : is_Some (shared_raw (protected s)) → mutex s = stuck t
}.

Lemma memory_live t q n v : refs t !! q = Some (n, v) → memory t !! q = Some (mkRcData (n - 1) v).
Proof. intros Hq. unfold memory. apply lookup_union_Some_l. by rewrite lookup_fmap, Hq. Qed.

Lemma memory_doomed t q v :
  (∀ q, is_Some (refs t !! q) → doomed t !! q = None) → doomed t !! q = Some v →
  memory t !! q = Some (mkRcData (2 ^ 64 - 1) v).
Proof.
  intros Hd Hq. assert (refs t !! q = None) as Hr.
  { apply eq_None_not_Some. intros Hr. by rewrite (Hd _ Hr) in Hq. }
  unfold memory. rewrite lookup_union_r; by rewrite lookup_fmap, ?Hr, ?Hq.
Qed.

Lemma memory_none t q : memory t !! q = None ↔ refs t !! q = None ∧ doomed t !! q = None.
Proof. unfold memory. by rewrite lookup_union_None, !lookup_fmap, !fmap_None. Qed.

Lemma memory_insert t q n v :
  memory (set_refs t (<[q := (n, v)]> (refs t))) = <[q := mkRcData (n - 1) v]> (memory t).
Proof. unfold memory. simpl. by rewrite fmap_insert, insert_union_l. Qed.

Lemma memory_size t : size (memory t) <= size (refs t) + size (doomed t).
Proof.
  unfold memory. rewrite <- (map_size_fmap live_entry (refs t)), <- (map_size_fmap doomed_entry (doomed t)).
  rewrite <- !size_dom, dom_union_L, size_union_alt.
  apply Nat.add_le_mono_l, subseteq_size. set_solver.
Qed.

Lemma describes_alive s t :
  describes s t → (0 < owners (memory t) (reservations t) (has_handle t))%Z →
  ∃ a, shared_arena (protected s) = Ret a ∧ mutex s = stuck t ∧
    shared_count (protected s) = (owners (memory t) (reservations t) (has_handle t) - 1)%Z.
Proof.
  intros Hs Ho. destruct (shared_ok_live _ _ _ _ (d_ok _ _ Hs) Ho) as (a & free & Ha & Hraw & _ & _ & _ & _ & Hc).
  exists a. split; [done|]. split; [|done]. apply (d_mutex _ _ Hs). rewrite Hraw. by eexists.
Qed.

Lemma locked_cases {A} s t (body : ArenaShared T → outcome (A * ArenaSharedAtomic T)) :
  describes s t → (0 < owners (memory t) (reservations t) (has_handle t))%Z →
  (stuck t = true ∧ locked s body = Ret None) ∨
  (stuck t = false ∧ locked s body = (x ← body (protected s); Ret (Some x))).
Proof.
  intros Hs Ho. destruct (describes_alive s t Hs Ho) as (a & Ha & Hm & _).
  unfold locked, lock. rewrite Ha. simpl. rewrite Hm. destruct (stuck t); [by left|by right].
Qed.

(** The lock is given back unless the arena is gone. *)
Lemma unlock_or_free (s : ArenaShared T) (s' : ArenaShared T) boxes reserved handle boxes' reserved' handle' :
  shared_ok s boxes reserved handle → (0 < owners boxes reserved handle)%Z →
  shared_ok s' boxes' reserved' handle' →
  owners boxes' reserved' handle' = (owners boxes reserved handle - 1)%Z →
  let s1 := if decide (shared_count s = 0%Z) then mkAtomic true s' else unlocked s' in
  protected s1 = s' ∧ (is_Some (shared_raw (protected s1)) → mutex s1 = false).
Proof.
  intros Hs Hp Hs' Ho. destruct (shared_ok_live _ _ _ _ Hs Hp) as (_ & _ & _ & _ & _ & _ & _ & _ & Hc).
  case_decide as Hz; simpl; [|done]. split; [done|]. intros [a Ha].
  assert (owners boxes' reserved' handle' = 0%Z) as H%owners_none by lia.
  apply (shared_freed s' boxes' reserved' handle' Hs') in H. congruence.
Qed.

(** Boxes that are added or changed. *)
Lemma describes_insert s s' t q n v k :
  describes s t → doomed t !! q = None → (1 <= n < 2 ^ 64)%Z →
  shared_ok (protected s') (<[q := mkRcData (n - 1) v]> (memory t)) k (has_handle t) →
  (is_Some (shared_raw (protected s')) → mutex s' = stuck t) →
  describes s' (set_reservations (set_refs t (<[q := (n, v)]> (refs t))) k).
Proof.
  intros Hs Hd Hn Hok Hm. split; simpl; [|..|done].
  - change (memory (set_reservations _ _)) with (memory (set_refs t (<[q := (n, v)]> (refs t)))).
    by rewrite memory_insert.
  - intros q'. rewrite lookup_insert_is_Some. intros [->|[_ ?]]; [done|]. by apply (d_disj _ _ Hs).
  - intros q' n' v' [[<- [= <- <-]]|[_ ?]]%lookup_insert_Some; [done|]. by eapply (d_count _ _ Hs).
Qed.

Lemma set_reservations_id t (r : gmap ptr (Z * T)) :
  set_refs t r = set_reservations (set_refs t r) (reservations t).
Proof. done. Qed.

Lemma owners_fit t : has_handle t = true → fits t →
  (0 < owners (memory t) (reservations t) true < 2 ^ 64)%Z.
Proof.
  unfold fits, owners. intros _ Hf. pose proof (memory_size t). lia.
Qed.

(** What a legal action does, or that it waits. *)
Definition simulated s t act : Prop :=
  (stuck t = true ∧ takes_lock act = true ∧ exec p act s = Ret None) ∨
  ((takes_lock act = true → stuck t = false) ∧
   ∃ r s' t', exec p act s = Ret (Some (r, s')) ∧ tally_step t act r t' ∧ describes s' t').

Lemma simulate_allocate s t v : describes s t → legal t (AAllocate v) → simulated s t (AAllocate v).
Proof.
  intros Hs [Hh Hf]. pose proof (owners_fit t Hh Hf) as Ho. pose proof (d_ok _ _ Hs) as Hok.
  unfold simulated. simpl. unfold answered, atomic_allocate.
  rewrite <- Hh in Ho.
  destruct (locked_cases s t (λ r, '(q, r) ← shared_allocate p r v; Ret (q, unlocked r)) Hs)
    as [[Hst ->]|[Hst ->]]; [lia|by left|right]. rewrite Hh in Ho, Hok.
  destruct (shared_allocate_ok p _ _ _ v Hok) as (q & r & -> & Hq & Hr & Hok'); [lia|]. simpl.
  split; [done|]. apply memory_none in Hq as [Hq Hd].
  eexists _, _, _. split; [done|]. split; [by apply t_allocate|].
  rewrite set_reservations_id. eapply describes_insert; try done. simpl. by rewrite Hh.
Qed.

Lemma simulate_try s t v : describes s t → legal t (ATryAllocate v) → simulated s t (ATryAllocate v).
Proof.
  intros Hs [Hh Hf]. pose proof (owners_fit t Hh Hf) as Ho. pose proof (d_ok _ _ Hs) as Hok.
  unfold simulated. simpl. unfold answered, atomic_allocate_if_space.
  rewrite <- Hh in Ho.
  destruct (locked_cases s t (λ r, '(o, r) ← shared_allocate_if_space p r v;
      Ret (o, match o with None => mkAtomic true r | Some _ => unlocked r end)) Hs)
    as [[Hst ->]|[Hst ->]]; [lia|by left|right]. rewrite Hh in Ho, Hok.
  destruct (shared_allocate_if_space_ok p _ _ _ v Hok) as (o & r & -> & Hr); [lia|]. simpl.
  split; [done|]. destruct o as [q|].
  - destruct Hr as (Hq & Hr & Hok'). apply memory_none in Hq as [Hq Hd].
    eexists _, _, _. split; [done|]. split; [by apply t_try|].
    rewrite set_reservations_id. eapply describes_insert; try done. simpl. by rewrite Hh.
  - subst r. eexists _, _, _. split; [done|]. split; [apply t_try_full|].
    split; simpl; [|apply Hs|apply Hs|done].
    change (memory (stick t)) with (memory t). by rewrite Hh.
Qed.

Lemma simulate_reserve s t : describes s t → legal t AReserve → simulated s t AReserve.
Proof.
  intros Hs [Hh Hf]. pose proof (owners_fit t Hh Hf) as Ho. pose proof (d_ok _ _ Hs) as Hok.
  unfold simulated. simpl. unfold answered, atomic_reserve_space.
  rewrite <- Hh in Ho.
  destruct (locked_cases s t (λ r, '(o, r) ← shared_reserve_space p r;
      Ret (o, match o with None => mkAtomic true r | Some _ => unlocked r end)) Hs)
    as [[Hst ->]|[Hst ->]]; [lia|by left|right]. rewrite Hh in Ho, Hok.
  destruct (shared_reserve_ok p _ _ _ Hok) as (o & r & -> & Hr); [lia|]. simpl.
  split; [done|]. destruct o as [q|].
  - destruct Hr as (Hq & Hr & Hok'). apply memory_none in Hq as [Hq Hd].
    eexists _, _, _. split; [done|]. split; [by apply t_reserve|].
    split; simpl; [|apply Hs|apply Hs|done].
    change (memory (set_reservations _ _)) with (memory t). by rewrite Hh.
  - subst r. eexists _, _, _. split; [done|]. split; [apply t_reserve_full|].
    split; simpl; [|apply Hs|apply Hs|done].
    change (memory (stick t)) with (memory t). by rewrite Hh.
Qed.

Lemma simulate_complete s t q v :
  describes s t → legal t (AComplete q v) → simulated s t (AComplete q v).
Proof.
  intros Hs [_ Hq]. pose proof (d_ok _ _ Hs) as Hok.
  destruct (shared_ok_live _ _ _ _ Hok (owners_reserved _ _ _ _ Hq)) as (a & free & _ & _ & _ & _ & Hd & _).
  assert (memory t !! q = None) as [_ Hdq]%memory_none by (apply not_elem_of_dom; set_solver).
  destruct (shared_complete_ok _ _ _ _ q v Hok Hq) as (r & He & Hok').
  right. split; [done|]. simpl. unfold atomic_complete_reservation. rewrite He. simpl.
  eexists _, _, _. split; [done|]. split; [apply t_complete|].
  eapply describes_insert; try done. simpl. intros _. apply (d_mutex _ _ Hs).
  destruct (shared_ok_live _ _ _ _ Hok (owners_reserved _ _ _ _ Hq)) as (a' & _ & _ & -> & _). by eexists.
Qed.

Lemma simulate_forget s t q : describes s t → legal t (AForget q) → simulated s t (AForget q).
Proof.
  intros Hs [Hh Hq]. pose proof (d_ok _ _ Hs) as Hok. unfold simulated. simpl.
  unfold answered, atomic_forget_reservation.
  destruct (locked_cases s t (λ r, r ← shared_forget_reservation p r q; Ret (tt, unlocked r)) Hs)
    as [[Hst ->]|[Hst ->]]; [by eapply owners_reserved|by left|right].
  rewrite Hh in Hok. destruct (shared_forget_ok p _ _ _ q Hok Hq) as (r & -> & Hok'). simpl.
  split; [done|]. eexists _, _, _. split; [done|]. split; [apply t_forget|].
  split; simpl; [|apply Hs|apply Hs|done].
  change (memory (set_reservations _ _)) with (memory t). by rewrite Hh.
Qed.

(** [fetch_add] on a box. *)
Lemma fetch_add_ok s t q d n :
  describes s t → memory t !! q = Some d →
  ∃ s', fetch_add s q n = Ret (rc_count d, s') ∧
    shared_ok (protected s') (<[q := mkRcData ((rc_count d + n) mod 2 ^ 64) (rc_data d)]> (memory t))
      (reservations t) (has_handle t) ∧
    mutex s' = mutex s ∧ mutex s = stuck t.
Proof.
  intros Hs Hq. pose proof (d_ok _ _ Hs) as Hok. unfold fetch_add.
  rewrite (rc_ref_ok _ _ _ _ _ _ Hok Hq). simpl.
  destruct (set_rc_ok _ _ _ _ q d (mkRcData ((rc_count d + n) mod 2 ^ 64) (rc_data d)) Hok Hq)
    as (r & -> & Hok'). simpl. eexists. split; [done|]. split; [done|]. split; [done|].
  by destruct (describes_alive s t Hs (owners_box _ _ _ _ _ Hq)) as (_ & _ & ? & _).
Qed.

Lemma simulate_clone s t q : describes s t → legal t (AClone q) → simulated s t (AClone q).
Proof.
  intros Hs (n & v & Hq & Hn). pose proof (d_count _ _ Hs _ _ _ Hq) as Hc.
  destruct (fetch_add_ok s t q _ 1 Hs (memory_live t q n v Hq)) as (s' & He & Hok & Hm & Hm').
  right. split; [done|]. simpl. unfold arc_clone. rewrite He. simpl.
  eexists _, _, _. split; [done|]. split; [by apply t_clone|].
  simpl in Hok. rewrite set_reservations_id. eapply describes_insert; try done.
  - apply (d_disj _ _ Hs). by eexists.
  - lia.
  - by replace (n + 1 - 1)%Z with ((n - 1 + 1) mod 2 ^ 64)%Z by (rewrite Z.mod_small; lia).
  - intros _. by rewrite Hm.
Qed.

Lemma memory_release t q v :
  doomed t !! q = None →
  memory (mkTally (base.delete q (refs t)) (<[q := v]> (doomed t)) (reservations t) (has_handle t) (stuck t)) =
  <[q := mkRcData (2 ^ 64 - 1) v]> (memory t).
Proof.
  intros Hd. unfold memory. simpl. apply map_eq. intros q'. rewrite fmap_delete, fmap_insert.
  destruct (decide (q = q')) as [<-|Hne].
  - rewrite lookup_insert_eq, lookup_union_r; [by rewrite lookup_insert_eq|by rewrite lookup_delete_eq].
  - rewrite lookup_insert_ne by done. rewrite !lookup_union.
    by rewrite lookup_delete_ne, lookup_insert_ne by done.
Qed.

Lemma simulate_release s t q : describes s t → legal t (ARelease q) → simulated s t (ARelease q).
Proof.
  intros Hs [[n v] Hq]. pose proof (d_count _ _ Hs _ _ _ Hq) as Hc.
  destruct (fetch_add_ok s t q _ (-1) Hs (memory_live t q n v Hq)) as (s' & He & Hok & Hm & Hm').
  right. split; [done|]. simpl. unfold arc_release. rewrite He. simpl. simpl in Hok.
  pose proof (d_disj _ _ Hs q (ex_intro _ _ Hq)) as Hd.
  destruct (decide (n = 1%Z)) as [->|Hne].
  - rewrite bool_decide_true by done. eexists _, _, _. split; [done|]. split; [by apply t_release_last|].
    split; simpl.
    + by rewrite memory_release.
    + intros q' [x [Hqq Hx]%lookup_delete_Some]. rewrite lookup_insert_ne by done.
      apply (d_disj _ _ Hs). by eexists.
    + intros q' n' v' [_ Hx]%lookup_delete_Some. by eapply (d_count _ _ Hs).
    + intros _. by rewrite Hm.
  - rewrite bool_decide_false by lia. eexists _, _, _. split; [done|].
    split; [apply (t_release t q n v); [done|lia]|].
    rewrite set_reservations_id. eapply describes_insert; try done; [lia| |].
    + by replace (n - 1 - 1)%Z with ((n - 1 + -1) mod 2 ^ 64)%Z by (rewrite Z.mod_small; lia).
    + intros _. by rewrite Hm.
Qed.

Lemma memory_delete t q v :
  (∀ q, is_Some (refs t !! q) → doomed t !! q = None) → doomed t !! q = Some v →
  memory (mkTally (refs t) (base.delete q (doomed t)) (reservations t) (has_handle t) (stuck t)) =
  base.delete q (memory t).
Proof.
  intros Hd Hq. assert (refs t !! q = None) as Hr.
  { apply eq_None_not_Some. intros Hr. by rewrite (Hd _ Hr) in Hq. }
  unfold memory. simpl. rewrite fmap_delete, delete_union. f_equal.
  symmetry. apply delete_id. by rewrite lookup_fmap, Hr.
Qed.

Lemma simulate_delete s t q : describes s t → legal t (ADelete q) → simulated s t (ADelete q).
Proof.
  intros Hs [v Hq]. pose proof (d_ok _ _ Hs) as Hok.
  pose proof (memory_doomed t q v (d_disj _ _ Hs) Hq) as Hm.
  pose proof (owners_box _ (reservations t) (has_handle t) _ _ Hm) as Hp.
  unfold simulated. simpl. unfold answered, atomic_delete.
  rewrite (rc_ref_ok _ _ _ _ _ _ Hok Hm). simpl.
  destruct (locked_cases s t (λ r, '(v, dropped, r') ← shared_delete p r q;
    Ret ((v, dropped), if decide (shared_count r = 0%Z) then mkAtomic true r' else unlocked r')) Hs Hp)
    as [[Hst ->]|[Hst ->]]; [by left|right].
  destruct (shared_delete_ok p _ _ _ _ q _ Hok Hm) as (r & -> & Hok'). simpl.
  split; [done|]. eexists _, _, _. split; [done|]. split; [by apply t_delete|].
  destruct (unlock_or_free _ _ _ _ _ _ _ _ Hok Hp Hok') as [H1 H2]; [by apply owners_delete; eexists|].
  split; simpl.
  - rewrite (memory_delete t q v (d_disj _ _ Hs) Hq). by rewrite H1.
  - intros q' Hq'. rewrite lookup_delete_None. right. by apply (d_disj _ _ Hs).
  - apply Hs.
  - by rewrite Hst.
Qed.

Lemma simulate_drop_handle s t : describes s t → legal t ADropHandle → simulated s t ADropHandle.
Proof.
  intros Hs Hh. simpl in Hh. pose proof (d_ok _ _ Hs) as Hok. rewrite Hh in Hok.
  pose proof (owners_handle (memory t) (reservations t)) as Hp.
  unfold simulated. simpl. unfold answered, atomic_drop_handle.
  destruct (locked_cases s t (λ r, '(dropped, r') ← shared_drop_handle p r;
    Ret (dropped, if decide (shared_count r = 0%Z) then mkAtomic true r' else unlocked r')) Hs)
    as [[Hst ->]|[Hst ->]]; [by rewrite Hh|by left|right].
  destruct (shared_drop_handle_ok p _ _ _ Hok) as (r & -> & Hok'). simpl.
  split; [done|]. eexists _, _, _. split; [done|]. split; [apply t_drop_handle|].
  destruct (unlock_or_free _ _ _ _ _ _ _ _ Hok Hp Hok') as [H1 H2]; [unfold owners; lia|].
  split; simpl; [|apply Hs|apply Hs|by rewrite Hst]. by rewrite H1.
Qed.

Lemma simulate s t act : describes s t → legal t act → simulated s t act.
Proof.
  destruct act; eauto using simulate_allocate, simulate_try, simulate_reserve, simulate_complete,
    simulate_forget, simulate_clone, simulate_release, simulate_delete, simulate_drop_handle.
Qed.

(** An action and its answer determine what the threads own next. *)
Lemma tally_step_det t act r t1 t2 : tally_step t act r t1 → tally_step t act r t2 → t1 = t2.
Proof. intros H1 H2. destruct H1; inversion H2; subst; by simplify_map_eq. Qed.

Lemma start_describes n : (Z.of_nat n < 2 ^ 64)%Z → describes (start n).1 (start n).2.
Proof.
  intros Hn. split; simpl; [|done|done|done].
  change (memory _) with ((live_entry <$> ∅ : gmap ptr (ArenaRcData T)) ∪ (doomed_entry <$> ∅)).
  rewrite !fmap_empty, map_empty_union. by apply shared_new_ok.
Qed.

Lemma reachable_describes s t : reachable s t → describes s t.
Proof.
  induction 1 as [n Hn|s t act r s' t' _ IH Hl He Hst]; [by apply start_describes|].
  destruct (simulate s t act IH Hl) as [(_ & _ & He')|(_ & r2 & s2 & t2 & He' & Hst' & Hd)]; [congruence|].
  rewrite He in He'. injection He' as <- <-. by rewrite (tally_step_det _ _ _ _ _ Hst Hst').
Qed.
End tally.

(** * Properties *)

(** A box of [ArenaShared], wherever it lives: it holds its value while it has references,
    its last reference drops that value and nothing else, and the arena's memory is freed
    exactly when no box, no reservation and no handle is left, in any order. *)
Lemma shared_arena_boxes {T : Type} p (s : ArenaShared T) boxes reserved handle :
  shared_ok s boxes reserved handle →
  (handle = true → ∀ v, (owners boxes reserved true < 2 ^ 64)%Z →
     ∃ q s', shared_allocate p s v = Ret (q, s') ∧ boxes !! q = None ∧ (q ∉ reserved) ∧
       shared_ok s' (<[q := mkRcData 0 v]> boxes) reserved true) ∧
  (∀ q d, boxes !! q = Some d →
     rc_deref s q = Ret (rc_data d) ∧
     ((rc_count d + 1 < 2 ^ 64)%Z → ∃ s', clone_into_raw p s q = Ret (q, s') ∧
        shared_ok s' (<[q := mkRcData (rc_count d + 1) (rc_data d)]> boxes) reserved handle) ∧
     ((0 < rc_count d)%Z → ∃ s', rc_drop p s q = Ret (None, [], s') ∧
        shared_ok s' (<[q := mkRcData (rc_count d - 1) (rc_data d)]> boxes) reserved handle) ∧
     (rc_count d = 0%Z → ∃ s', rc_drop p s q = Ret (Some (rc_data d), [], s') ∧
        shared_ok s' (base.delete q boxes) reserved handle)) ∧
  (handle = true → ∃ s', shared_drop_handle p s = Ret ([], s') ∧ shared_ok s' boxes reserved false) ∧
  (shared_raw s = None ↔ boxes = ∅ ∧ reserved = ∅ ∧ handle = false).
Proof.
  intros Hs. split; [|split; [|split]].
  - intros -> v Hn. by apply shared_allocate_ok.
  - intros q d Hq. split; [|split; [|split]].
    + unfold rc_deref. by rewrite (rc_ref_ok _ _ _ _ _ _ Hs Hq).
    + intros Hn. destruct (clone_ok p _ _ _ _ _ _ Hs Hq Hn) as (s' & He & Hok).
      exists s'. unfold clone_into_raw. by rewrite He.
    + by apply rc_drop_other.
    + by apply rc_drop_last.
  - intros ->. by apply shared_drop_handle_ok.
  - by eapply shared_freed.
Qed.

(** C19. [ArenaSharedAtomic] implements what its threads own: after any interleaving of
    their legal actions, the next one finds the memory that it needs, answers as the counts
    of references say (the value of a box is dropped once, by the thread that gave up the
    last reference) or waits for a lock that is held only when an earlier attempt to
    allocate in place found the arena full, and the arena is freed when nobody owns any
    part of it. *)
Theorem atomic_arena_owners {T : Type} p (s : ArenaSharedAtomic T) t act :
  reachable p s t → legal t act →
  (shared_raw (protected s) = None ↔
     refs t = ∅ ∧ doomed t = ∅ ∧ reservations t = ∅ ∧ has_handle t = false) ∧
  ((stuck t = true ∧ takes_lock act = true ∧ exec p act s = Ret None) ∨
   ((takes_lock act = true → stuck t = false) ∧
    ∃ r s' t', exec p act s = Ret (Some (r, s')) ∧ tally_step t act r t' ∧ reachable p s' t')).
Proof.
  intros Hr Hl. pose proof (reachable_describes p s t Hr) as Hd. split.
  - rewrite (shared_freed _ _ _ _ (d_ok _ _ Hd)). unfold memory. split.
    + intros (Hm & Hk & Hh).
      assert (∀ q, refs t !! q = None ∧ doomed t !! q = None) as Hq.
      { intros q. apply memory_none. unfold memory. by rewrite Hm. }
      split_and!; try done; apply map_empty; intros q; apply Hq.
    + intros (-> & -> & -> & ->). by rewrite !fmap_empty, map_empty_union.
  - destruct (simulate p s t act Hd Hl) as [?|(Hst & r & s' & t' & He & Hstep & _)]; [by left|right].
    split; [done|]. exists r, s', t'. split; [done|]. split; [done|]. by eapply r_step.
Qed.

(** A full arena keeps its lock: [allocate_if_space] and [reserve_space] return early
    between [lock] and [unlock], and every later action that takes the lock spins, the
    [delete] of a box that would make room included. *)
Lemma full_arena_deadlocks {T : Type} p (v w : T) :
  ∃ q s1 s2, exec p (AAllocate v) (atomic_with_capacity 1) = Ret (Some (RBox q, s1)) ∧
    exec p (ATryAllocate w) s1 = Ret (Some (RFull, s2)) ∧
    exec p (AAllocate w) s2 = Ret None ∧ exec p ADropHandle s2 = Ret None ∧
    ∃ s3, exec p (ARelease q) s2 = Ret (Some (RLast, s3)) ∧ exec p (ADelete q) s3 = Ret None.
Proof. destruct p; by eexists _, _, _; split_and!; [..|eexists]. Qed.

(** Nothing that the threads do gives the lock back. *)
Lemma stuck_for_ever {T : Type} (t : tally T) act r t' :
  stuck t = true → tally_step t act r t' → stuck t' = true.
Proof. intros Hs Hst. by destruct Hst. Qed.

(** ** A thread that is between its last reference and [delete] *)

Definition demo_start : ArenaSharedAtomic Z * tally Z := start 1.

Lemma atomic_arena_owners_witness :
  ∃ s t, reachable Debug s t ∧ legal t (ADelete (PSlot 0)) ∧
    doomed t = {[PSlot 0 := 7%Z]} ∧ has_handle t = false ∧
    ∃ s' t', exec Debug (ADelete (PSlot 0)) s = Ret (Some (RDropped 7%Z [], s')) ∧
      reachable Debug s' t'.
Proof.
  pose (t1 := mkTally {[PSlot 0 := (1%Z, 7%Z)]} ∅ ∅ true false).
  pose (t2 := mkTally ∅ {[PSlot 0 := 7%Z]} ∅ true false).
  pose (t3 := mkTally ∅ {[PSlot 0 := 7%Z]} ∅ false false).
  assert (∃ s1, exec Debug (AAllocate 7%Z) demo_start.1 = Ret (Some (RBox (PSlot 0), s1)) ∧
    ∃ s2, exec Debug (ARelease (PSlot 0)) s1 = Ret (Some (RLast, s2)) ∧
    ∃ s3, exec Debug ADropHandle s2 = Ret (Some (RDone, s3))) as (s1 & H1 & s2 & H2 & s3 & H3).
  { eexists. split; [reflexivity|]. eexists. split; [reflexivity|]. eexists. reflexivity. }
  assert (reachable Debug s3 t3) as Hr.
  { apply (r_step Debug s2 t2 ADropHandle RDone); [|reflexivity|done|exact (t_drop_handle t2)].
    apply (r_step Debug s1 t1 (ARelease (PSlot 0)) RLast); [|by eexists|done|exact (t_release_last t1 (PSlot 0) 7%Z eq_refl)].
    apply (r_step Debug demo_start.1 demo_start.2 (AAllocate 7%Z) (RBox (PSlot 0)));
      [by apply r_start|split; [done|reflexivity]|done|].
    apply (t_allocate demo_start.2 7%Z (PSlot 0)). split; [done|]. split; [done|]. apply not_elem_of_empty. }
  exists s3, t3. split; [exact Hr|]. split; [by eexists|]. split; [done|]. split; [done|].
  destruct (atomic_arena_owners Debug s3 t3 (ADelete (PSlot 0)) Hr) as (_ & [(Hst & _)|(_ & r & s' & t' & He & Hstep & Hr')]).
  - by eexists.
  - discriminate Hst.
  - exists s', t'. rewrite He. split; [|exact Hr']. inversion Hstep as [| | | | | | | | | |q v Hq|]; subst.
    simpl in Hq. injection Hq as <-. reflexivity.
Defined.
