(* ===== verification/OpDriver.v ===== *)
(** [core/runtime/op_driver/*.rs]: how asynchronous ops run.

    Holds the arena of op futures ([FutureArena], over the arenas of [Arena]), the queue
    of submitted futures with the task that polls it, the queue of completed ops, the
    three ways to submit an op, and what becomes of results ([OpResult]).  A future is a
    parameter with its poll function.  [FuturesUnordered] is a bag that polls futures in
    an order which the caller of the model gives; it is in a [RefCell] that stays borrowed
    while futures are polled or dropped, and a future that uses the driver then panics.
    [UnsyncWaker] is an interface ([WakerCell]) with the law that a registered waker is
    woken.  Promises and ops are known by their ids.  Not modelled: what a future does with
    the driver in its first poll, before it is in the queue, and destructors of results. *)

From S2P Require Import Prelude Arena.

(** * Interfaces *)

(** [deno_unsync::UnsyncWaker]. [wake_by_ref] tells whether a waker was woken. *)
Class WakerCell (W : Type) := {
  fresh : W;
  register : W → W;
  wake_by_ref : W → bool * W;
  registered : W → Prop
}.
Class WakerCellLaws (W : Type) `{WakerCell W} := {
  register_registered w : registered (register w);
  registered_woken w : registered w → (wake_by_ref w).1 = true;
  wake_registered w : registered w → registered (wake_by_ref w).2
}.

(** * Results *)

(** [op_results.rs]. [R] are values of ops with the function that maps them to
    JavaScript, [E] errors; [is_large] compares the size of a value with
    [MAX_RESULT_SIZE]. *)
Section results.
Context {R E V M : Type} (is_large : R → bool) (rv_map : R → result V M)
  (map_error : E → V) (map_mapping_error : M → V).

Inductive OpResult :=
  | OpErr (err : E)
  | OpValue (r : R)
  | OpValueLarge (r : R).

Definition new_value (r : R) : OpResult := if is_large r then OpValueLarge r else OpValue r.

(** [PendingOp::new]; the rest of the record is in the driver. *)
Definition op_result (r : result R E) : OpResult :=
  match r with Ok r => new_value r | Err err => OpErr err end.

Definition unwrap_result (o : OpResult) : result V V :=
  let '(success, res) :=
    match o with
    | OpErr err => (false, Ok (map_error err))
    | OpValue r => (true, rv_map r)
    | OpValueLarge r => (true, rv_map r)
    end in
  match success, res with
  | true, Ok x => Ok x
  | false, Ok x => Err x
  | _, Err err => Err (map_mapping_error err)
  end.
End results.
Arguments OpResult : clear implicits.

(** * The driver *)

Record PendingOpInfo := mkInfo { promise_id : Z; op_id : Z }.
Global Instance PendingOpInfo_eq_dec : EqDecision PendingOpInfo.
Proof. solve_decision. Defined.

Inductive MaybeTask := Empty | Task | Handle.
Inductive OpScheduling := Eager | Lazy | Deferred.

Section driver.
Context {Fut Out Res W : Type} `{WakerCell W} (p : profile).
(** A future, one that is ready, and whether a future fits into a slot of the arena; whether
    the poll or the destructor of a future uses the driver; how the output of a future
    becomes the result of an op. *)
Context (F_poll : Fut → poll Out * Fut) (F_ready : Out → Fut) (fits F_calls : Fut → bool)
  (mapped : Out → Res).

(** ** [future_arena.rs] *)

Definition FUTURE_ARENA_COUNT : nat := 256.

(** [DynFutureInfo]: a future with the context of its op. *)
Abbreviation cell := (PendingOpInfo * Fut)%type.

Inductive FutureAllocation :=
  | InArena (q : ptr)
  | InBox (c : cell).

Implicit Types (a : ArenaUnique cell).

(** [FutureArena::allocate]. *)
Definition fa_allocate a (info : PendingOpInfo) (f : Fut) :
    outcome (FutureAllocation * ArenaUnique cell) :=
  if fits f then
    '(reservation, a) ← reserve_space p a;
    match reservation with
    | Some q => '(q, a) ← complete_reservation a q (info, f); Ret (InArena q, a)
    | None => Ret (InBox (info, f), a)
    end
  else Ret (InBox (info, f), a).

(** [FutureAllocation::context]. *)
Definition fa_context a (al : FutureAllocation) : outcome PendingOpInfo :=
  match al with
  | InArena q => u ← arena_of a; c ← read u q; Ret c.1
  | InBox c => Ret c.1
  end.

(** [FutureAllocation::poll] and [TypedFutureAllocation::poll], which do not move the
    future. *)
Definition fa_poll a (al : FutureAllocation) :
    outcome (poll Out * FutureAllocation * ArenaUnique cell) :=
  match al with
  | InArena q =>
      u ← arena_of a;
      c ← read u q;
      let '(r, f) := F_poll c.2 in
      u ← write u q (c.1, f);
      Ret (r, al, mkUnique (Some u) (alive a))
  | InBox c => let '(r, f) := F_poll c.2 in Ret (r, InBox (c.1, f), a)
  end.

(** What a future finds that is polled or dropped while the queue is borrowed. *)
Definition fa_borrowed a (al : FutureAllocation) : outcome unit :=
  f ← match al with
      | InArena q => u ← arena_of a; c ← read u q; Ret c.2
      | InBox c => Ret c.2
      end;
  if F_calls f then Panic BorrowConflict else Ret tt.

(** The end of an allocation. *)
Definition fa_drop a (al : FutureAllocation) : outcome (ArenaUnique cell) :=
  match al with
  | InArena q => '(_, _, a) ← delete p a q; Ret a
  | InBox _ => Ret a
  end.

(** ** [futures_unordered_driver.rs] *)

(** The submission queue and its waker, the completed ops and theirs, the arena. *)
Record FuturesUnorderedDriver := mkDriver {
  len : Z;
  task : MaybeTask;
  task_set : bool;
  queue : list FutureAllocation;
  item_waker : W;
  completed_ops : list (PendingOpInfo * Res);
  completed_waker : W;
  arena : ArenaUnique cell
}.
Implicit Types (d : FuturesUnorderedDriver).

Definition driver_default : FuturesUnorderedDriver :=
  mkDriver 0 Task false [] fresh [] fresh (unique_with_capacity FUTURE_ARENA_COUNT).

Definition set_arena d a : FuturesUnorderedDriver :=
  mkDriver (len d) (task d) (task_set d) (queue d) (item_waker d) (completed_ops d)
    (completed_waker d) a.
Definition set_queue d q w : FuturesUnorderedDriver :=
  mkDriver (len d) (task d) (task_set d) q w (completed_ops d) (completed_waker d) (arena d).
Definition set_completed d c w : FuturesUnorderedDriver :=
  mkDriver (len d) (task d) (task_set d) (queue d) (item_waker d) c w (arena d).
Definition set_len d n : FuturesUnorderedDriver :=
  mkDriver n (task d) (task_set d) (queue d) (item_waker d) (completed_ops d)
    (completed_waker d) (arena d).
Definition set_task d t b : FuturesUnorderedDriver :=
  mkDriver (len d) t b (queue d) (item_waker d) (completed_ops d) (completed_waker d) (arena d).

(** A spawned task is going to be polled; the answer says so. *)
Definition spawn_task d : outcome (bool * FuturesUnorderedDriver) :=
  match task d with
  | Task => Ret (true, set_task d Handle true)
  | _ => Panic Unreachable
  end.
Definition ensure_task d : outcome (bool * FuturesUnorderedDriver) :=
  if task_set d then Ret (false, d) else spawn_task d.

(** [SubmissionQueue::spawn]. *)
Definition queue_spawn d (al : FutureAllocation) : bool * FuturesUnorderedDriver :=
  let '(woken, w) := wake_by_ref (item_waker d) in
  (woken, set_queue d (queue d ++ [al]) w).

(** [FuturesUnorderedDriver::spawn]; is the polling task going to run? *)
Definition spawn d (al : FutureAllocation) : outcome (bool * FuturesUnorderedDriver) :=
  '(spawned, d) ← ensure_task d;
  n ← add_w p 64 (len d) 1;
  let '(woken, d) := queue_spawn (set_len d n) al in
  Ret (spawned || woken, d).

(** [submit_op_fallible::<R, E, LAZY, DEFERRED>], with the wake-up of the polling task. *)
Definition submit_op_fallible (lazy deferred : bool) d (info : PendingOpInfo) (op : Fut) :
    outcome (option Out * bool * FuturesUnorderedDriver) :=
  '(pinned, a) ← fa_allocate (arena d) info op;
  let d := set_arena d a in
  if lazy then '(woken, d) ← spawn d pinned; Ret (None, woken, d)
  else
    '(r, pinned, a) ← fa_poll (arena d) pinned;
    let d := set_arena d a in
    match r with
    | Pending => '(woken, d) ← spawn d pinned; Ret (None, woken, d)
    | Ready res =>
        if deferred then
          a ← fa_drop (arena d) pinned;
          '(again, a) ← fa_allocate a info (F_ready res);
          '(woken, d) ← spawn (set_arena d a) again;
          Ret (None, woken, d)
        else
          a ← fa_drop (arena d) pinned;
          Ret (Some res, false, set_arena d a)
    end.

(** The same body at another type of results. *)
Definition submit_op_infallible := submit_op_fallible.

Definition submit_op_fallible_scheduling (scheduling : OpScheduling) d info op :=
  match scheduling with
  | Eager => submit_op_fallible false false d info op
  | Lazy => submit_op_fallible true false d info op
  | Deferred => submit_op_fallible false true d info op
  end.
Definition submit_op_infallible_scheduling (scheduling : OpScheduling) d info op :=
  match scheduling with
  | Eager => submit_op_infallible false false d info op
  | Lazy => submit_op_infallible true false d info op
  | Deferred => submit_op_infallible false true d info op
  end.

(** [FuturesUnordered::poll_next]: it polls futures until one is ready, which leaves the
    bag.  [order] are the positions that it polls.  The queue is borrowed. *)
Fixpoint poll_next (order : list nat) a (q : list FutureAllocation) :
    outcome (poll (PendingOpInfo * Res) * list FutureAllocation * ArenaUnique cell) :=
  match order with
  | [] => Ret (Pending, q, a)
  | i :: order =>
      match q !! i with
      | None => poll_next order a q
      | Some al =>
          info ← fa_context a al;
          _ ← fa_borrowed a al;
          '(r, al, a) ← fa_poll a al;
          match r with
          | Pending => poll_next order a (<[i := al]> q)
          | Ready res =>
              a ← fa_drop a al;
              Ret (Ready (info, mapped res), base.delete i q, a)
          end
      end
  end.

(** [SubmissionQueueResults::poll_next_unpin]. *)
Definition poll_next_unpin (order : list nat) d :
    outcome (poll (PendingOpInfo * Res) * FuturesUnorderedDriver) :=
  let d := set_queue d (queue d) (register (item_waker d)) in
  if decide (queue d = []) then Ret (Pending, d)
  else
    '(r, q, a) ← poll_next order (arena d) (queue d);
    Ret (r, set_arena (set_queue d q (item_waker d)) a).

(** One poll of [poll_task]: rounds until nothing is ready.  Was the event loop woken? *)
Fixpoint poll_task (orders : list (list nat)) d : outcome (bool * FuturesUnorderedDriver) :=
  match orders with
  | [] => '(_, d) ← poll_next_unpin [] d; Ret (false, d)
  | order :: orders =>
      '(r, d) ← poll_next_unpin order d;
      match r with
      | Pending => Ret (false, d)
      | Ready ready =>
          let '(woken, w) := wake_by_ref (completed_waker d) in
          '(again, d) ← poll_task orders (set_completed d (completed_ops d ++ [ready]) w);
          Ret (woken || again, d)
      end
  end.

Definition poll_ready d : outcome (poll (PendingOpInfo * Res) * FuturesUnorderedDriver) :=
  match completed_ops d with
  | [] => Ret (Pending, set_completed d [] (register (completed_waker d)))
  | item :: ops =>
      n ← sub_w p 64 (len d) 1;
      Ret (Ready item, set_len (set_completed d ops (completed_waker d)) n)
  end.

Fixpoint drop_all a (q : list FutureAllocation) : outcome (ArenaUnique cell) :=
  match q with
  | [] => Ret a
  | al :: q => _ ← fa_borrowed a al; a ← fa_drop a al; drop_all a q
  end.

Definition shutdown d : outcome FuturesUnorderedDriver :=
  a ← drop_all (arena d) (queue d);
  Ret (mkDriver (len d) Empty (task_set d) [] (item_waker d) [] (completed_waker d) a).

Fixpoint contexts a (q : list FutureAllocation) : outcome (list PendingOpInfo) :=
  match q with
  | [] => Ret []
  | al :: q => info ← fa_context a al; infos ← contexts a q; Ret (info :: infos)
  end.

(** [stats]: the ops in the queue, but for the excluded ones. *)
Definition stats d (op_exclusions : gset Z) : outcome (list PendingOpInfo) :=
  infos ← contexts (arena d) (queue d);
  Ret (filter (λ info, op_id info ∉ op_exclusions) infos).

#[local] Arguments reserve_space : simpl never.
#[local] Arguments complete_reservation : simpl never.
#[local] Arguments delete : simpl never.
#[local] Arguments read : simpl never.
#[local] Arguments write : simpl never.
#[local] Arguments arena_of : simpl never.

(** * Memory

    [boxes] are the contents of the arena. An allocation holds a cell in the arena or
    beside it; the cells of a queue are the futures that it polls. *)

Abbreviation boxes_t := (gmap nat cell).
Implicit Types (boxes : boxes_t).

Definition holds boxes (al : FutureAllocation) (c : cell) : Prop :=
  match al with
  | InArena (PSlot i) => boxes !! i = Some c
  | InArena (PSystem _) => False
  | InBox c' => c' = c
  end.
Definition put boxes (al : FutureAllocation) (c : cell) : boxes_t :=
  match al with InArena (PSlot i) => <[i := c]> boxes | _ => boxes end.
Definition clear boxes (al : FutureAllocation) : boxes_t :=
  match al with InArena (PSlot i) => base.delete i boxes | _ => boxes end.
Definition slot (al : FutureAllocation) : option nat :=
  match al with InArena (PSlot i) => Some i | _ => None end.
Definition unused boxes (al : FutureAllocation) : Prop :=
  match al with
  | InArena (PSlot i) => boxes !! i = None
  | InArena (PSystem _) => False
  | InBox _ => True
  end.

Lemma fa_allocate_ok a boxes info f :
  unique_ok a boxes ∅ true →
  ∃ al a', fa_allocate a info f = Ret (al, a') ∧ unused boxes al ∧
    holds (put boxes al (info, f)) al (info, f) ∧ unique_ok a' (put boxes al (info, f)) ∅ true.
Proof.
  intros Hu. unfold fa_allocate. destruct (fits f); [|by eexists _, _].
  destruct (reserve_ok p a boxes ∅ Hu) as (o & a1 & -> & Ho). simpl.
  destruct o as [q|]; [|destruct Ho as [-> _]; by eexists _, _].
  destruct Ho as (i & -> & Hi & _ & Hu1).
  destruct (complete_ok a1 boxes _ i (info, f) Hu1) as (a2 & -> & Hu2); [set_solver|].
  simpl. eexists _, _. split; [done|]. split; [done|]. simpl.
  split; [by rewrite lookup_insert_eq|].
  replace (({[i]} ∪ ∅) ∖ {[i]} : gset nat) with (∅ : gset nat) in Hu2 by set_solver. done.
Qed.

Lemma fa_context_ok a boxes h al c :
  unique_ok a boxes ∅ h → holds boxes al c → fa_context a al = Ret c.1.
Proof.
  intros Hu Hh. destruct al as [[i|k]|c']; simpl in Hh; [|done|by subst].
  unfold fa_context. destruct (read_box a boxes ∅ h i c Hu Hh) as (u & -> & Hr). simpl in *.
  by rewrite Hr.
Qed.

Lemma fa_poll_ok a boxes al c :
  unique_ok a boxes ∅ true → holds boxes al c →
  ∃ al' a', fa_poll a al = Ret ((F_poll c.2).1, al', a') ∧ slot al' = slot al ∧
    let c' := (c.1, (F_poll c.2).2) in
    holds (put boxes al' c') al' c' ∧ unique_ok a' (put boxes al' c') ∅ true.
Proof.
  intros Hu Hh. destruct al as [[i|k]|c']; simpl in Hh; [|done|].
  - unfold fa_poll. destruct (read_box a boxes ∅ true i c Hu Hh) as (u & Hua & Hr).
    rewrite Hua. cbn [mbind outcome_bind]. rewrite Hr. cbn [mbind outcome_bind].
    destruct (F_poll c.2) as [r f] eqn:Hf.
    destruct (write_box a boxes ∅ true i c (c.1, f) Hu Hh) as (u1 & u2 & Hu1 & Hw & Hu2).
    rewrite Hua in Hu1. injection Hu1 as <-. rewrite Hw. simpl.
    eexists _, _. split; [done|]. split; [done|]. cbv zeta. simpl.
    split; [by rewrite lookup_insert_eq|done].
  - subst c'. simpl. destruct (F_poll c.2) as [r f]. by eexists _, _.
Qed.

Lemma fa_borrowed_ok a boxes h al c :
  unique_ok a boxes ∅ h → holds boxes al c →
  fa_borrowed a al = if F_calls c.2 then Panic BorrowConflict else Ret tt.
Proof.
  intros Hu Hh. destruct al as [[i|k]|c']; simpl in Hh; [|done|by subst].
  unfold fa_borrowed. destruct (read_box a boxes ∅ h i c Hu Hh) as (u & -> & Hr). simpl in *.
  by rewrite Hr.
Qed.

Lemma fa_drop_ok a boxes al c :
  unique_ok a boxes ∅ true → holds boxes al c →
  ∃ a', fa_drop a al = Ret a' ∧ unique_ok a' (clear boxes al) ∅ true.
Proof.
  intros Hu Hh. destruct al as [[i|k]|c']; simpl in Hh; [|done|by eexists].
  unfold fa_drop. destruct (delete_ok p a boxes ∅ true i c Hu Hh) as (a' & -> & ?). simpl.
  by eexists.
Qed.

(** ** The queue *)

Record queue_ok boxes (q : list FutureAllocation) (cs : list cell) : Prop := {
  q_holds : Forall2 (holds boxes) q cs;
  q_nodup : NoDup (omap slot q);
  q_dom i : i ∈ dom boxes ↔ i ∈ omap slot q
}.

Lemma holds_ext boxes boxes' al c :
  (∀ i, slot al = Some i → boxes' !! i = boxes !! i) → holds boxes al c → holds boxes' al c.
Proof. intros He. destruct al as [[i|k]|c']; simpl in *; [|done..]. by rewrite He. Qed.

Lemma Forall2_holds_ext boxes boxes' q cs :
  (∀ i, i ∈ omap slot q → boxes' !! i = boxes !! i) →
  Forall2 (holds boxes) q cs → Forall2 (holds boxes') q cs.
Proof.
  intros He. induction 1 as [|al c q cs Hh _ IH]; constructor.
  - eapply holds_ext; [|done]. intros i Hi. apply He. simpl. rewrite Hi. by left.
  - apply IH. intros i Hi. apply He. simpl. destruct (slot al); [by right|done].
Qed.

Lemma put_slot boxes al c :
  put boxes al c = match slot al with Some i => <[i := c]> boxes | None => boxes end.
Proof. by destruct al as [[]|]. Qed.
Lemma clear_slot boxes al :
  clear boxes al = match slot al with Some i => base.delete i boxes | None => boxes end.
Proof. by destruct al as [[]|]. Qed.
Lemma unused_slot boxes al i : unused boxes al → slot al = Some i → boxes !! i = None.
Proof. destruct al as [[]|]; simpl; intros; by simplify_eq. Qed.
Lemma unused_holds boxes al c : unused boxes al → holds boxes al c → slot al = None.
Proof. destruct al as [[]|]; simpl; [congruence|done..]. Qed.

Lemma omap_app_slot (q1 q2 : list FutureAllocation) al :
  omap slot (q1 ++ al :: q2) =
  omap slot q1 ++ match slot al with Some i => [i] | None => [] end ++ omap slot q2.
Proof. rewrite omap_app. simpl. by destruct (slot al). Qed.

Lemma NoDup_middle {A} (l1 l2 : list A) x :
  NoDup (l1 ++ x :: l2) → (x ∉ l1) ∧ (x ∉ l2) ∧ NoDup (l1 ++ l2).
Proof.
  intros (H1 & H2 & [H3 H4]%NoDup_cons)%NoDup_app. split_and!.
  - intros Hin. apply (H2 x Hin). by left.
  - done.
  - apply NoDup_app. split_and!; [done| |done]. intros y Hy Hy2. apply (H2 y Hy). by right.
Qed.

(** Changing what one allocation of the queue holds. *)
Lemma queue_set boxes q1 al al' q2 cs1 c c' cs2 :
  length q1 = length cs1 → queue_ok boxes (q1 ++ al :: q2) (cs1 ++ c :: cs2) →
  slot al' = slot al → holds (put boxes al' c') al' c' →
  queue_ok (put boxes al' c') (q1 ++ al' :: q2) (cs1 ++ c' :: cs2).
Proof.
  intros Hlen [Hh Hn Hd] Hs Hh'. apply Forall2_app_inv in Hh as [Hh1 Hh2]; [|done].
  inversion Hh2 as [|? ? ? ? Hal Hh3]; subst.
  rewrite omap_app_slot in Hn, Hd. rewrite put_slot, Hs in *.
  assert (∀ q cs, (∀ i, i ∈ omap slot q → slot al ≠ Some i) → Forall2 (holds boxes) q cs →
    Forall2 (holds (match slot al with Some i => <[i := c']> boxes | None => boxes end)) q cs)
    as Hother.
  { intros q cs Hq. apply Forall2_holds_ext. intros i Hi. specialize (Hq i Hi).
    destruct (slot al); [|done]. apply lookup_insert_ne. congruence. }
  split.
  - apply Forall2_app; [|constructor; [done|]]; apply Hother; try done;
      intros i Hi Hsl; rewrite Hsl in Hn; apply NoDup_middle in Hn; tauto.
  - rewrite omap_app_slot, Hs. done.
  - intros i. rewrite omap_app_slot, Hs, <- Hd. destruct (slot al) as [j|] eqn:Hj; [|done].
    rewrite dom_insert_L. assert (j ∈ dom boxes) by (apply Hd; set_solver). set_solver.
Qed.

Lemma queue_remove boxes q1 al q2 cs1 c cs2 :
  length q1 = length cs1 → queue_ok boxes (q1 ++ al :: q2) (cs1 ++ c :: cs2) →
  queue_ok (clear boxes al) (q1 ++ q2) (cs1 ++ cs2).
Proof.
  intros Hlen [Hh Hn Hd]. apply Forall2_app_inv in Hh as [Hh1 Hh2]; [|done].
  inversion Hh2 as [|? ? ? ? Hal Hh3]; subst.
  rewrite omap_app_slot in Hn, Hd. rewrite clear_slot in *.
  destruct (slot al) as [j|] eqn:Hj; simpl in *.
  - apply NoDup_middle in Hn as (Hn1 & Hn2 & Hn). split.
    + apply Forall2_app; apply (Forall2_holds_ext boxes); try done;
        intros i Hi; apply lookup_delete_ne; congruence.
    + by rewrite omap_app.
    + intros i. rewrite omap_app, dom_delete_L. specialize (Hd i).
      rewrite elem_of_app in *. rewrite elem_of_cons in Hd.
      rewrite elem_of_difference, elem_of_singleton, Hd. split; [tauto|].
      intros Hi. split; [tauto|]. intros ->. tauto.
  - split; [by apply Forall2_app|by rewrite omap_app|by intros i; rewrite omap_app].
Qed.

Lemma queue_push boxes q cs al c :
  queue_ok boxes q cs → unused boxes al → holds (put boxes al c) al c →
  queue_ok (put boxes al c) (q ++ [al]) (cs ++ [c]).
Proof.
  intros [Hh Hn Hd] Hun Hal. pose proof (unused_slot boxes al) as Hus.
  rewrite put_slot in *. destruct (slot al) as [j|] eqn:Hj.
  - assert (boxes !! j = None) as Hb by auto.
    assert (j ∉ omap slot q) as Hjq by (by rewrite <- Hd, not_elem_of_dom).
    split.
    + apply Forall2_app; [|by constructor]. apply (Forall2_holds_ext boxes); [|done].
      intros i Hi. apply lookup_insert_ne. congruence.
    + rewrite omap_app. simpl. rewrite Hj. apply NoDup_app. split_and!; [done| |by apply NoDup_singleton].
      by intros i Hi ->%list_elem_of_singleton.
    + intros i. rewrite omap_app, dom_insert_L. simpl. rewrite Hj, elem_of_app.
      rewrite elem_of_union, !list_elem_of_singleton, elem_of_singleton, <- Hd. tauto.
  - split.
    + apply Forall2_app; [done|by constructor].
    + rewrite omap_app. simpl. by rewrite Hj, app_nil_r.
    + intros i. rewrite omap_app. simpl. by rewrite Hj, app_nil_r.
Qed.

Lemma put_clear boxes al c : unused boxes al → clear (put boxes al c) al = boxes.
Proof.
  intros Hun. pose proof (unused_slot boxes al) as Hus. rewrite clear_slot, put_slot.
  destruct (slot al); [|done]. rewrite delete_insert_eq. apply delete_id. auto.
Qed.
Lemma put_put boxes al al' c c' :
  slot al' = slot al → put (put boxes al c) al' c' = put boxes al' c'.
Proof. intros Hs. rewrite !put_slot, Hs. destruct (slot al); [apply insert_insert_eq|done]. Qed.
Lemma unused_same boxes al al' c :
  slot al' = slot al → holds (put boxes al' c) al' c → unused boxes al → unused boxes al'.
Proof. destruct al as [[]|], al' as [[]|]; simpl; naive_solver. Qed.

(** * Operations

    The futures of a driver are the cells of its queue; the arena holds nothing else. *)
Definition rep d (cs : list cell) : Prop :=
  ∃ boxes, unique_ok (arena d) boxes ∅ true ∧ queue_ok boxes (queue d) cs.

(** The polling task runs or has not been started. *)
Definition live_task d : Prop :=
  (task_set d = false ∧ task d = Task) ∨ (task_set d = true ∧ task d = Handle).

Context `{!WakerCellLaws W}.

(** What a submission does with a future: an answer at once, or a future for the queue. *)
Definition accepted (lazy deferred : bool) (op : Fut) : Out + Fut :=
  if lazy then inr op
  else match F_poll op with
       | (Pending, op) => inr op
       | (Ready res, _) => if deferred then inr (F_ready res) else inl res
       end.

Lemma spawn_ok d al :
  live_task d → (len d + 1 < 2 ^ 64)%Z →
  ∃ woken d', spawn d al = Ret (woken, d') ∧
    queue d' = queue d ++ [al] ∧ len d' = (len d + 1)%Z ∧ arena d' = arena d ∧
    completed_ops d' = completed_ops d ∧ completed_waker d' = completed_waker d ∧
    task_set d' = true ∧ task d' = Handle ∧
    (task_set d = false → woken = true) ∧
    (registered (item_waker d) → woken = true ∧ registered (item_waker d')).
Proof.
  intros Hl Hlen. unfold spawn, ensure_task, spawn_task, queue_spawn.
  destruct Hl as [[Hs Ht]|[Hs Ht]]; rewrite Hs, ?Ht; simpl; rewrite add_w_fits by done; simpl;
    destruct (wake_by_ref (item_waker d)) as [woken w] eqn:Hw; simpl; eexists _, _;
    (split; [reflexivity|]); simpl; split_and!; try done;
    intros Hr; pose proof (registered_woken _ Hr) as H1; pose proof (wake_registered _ Hr) as H2;
    rewrite Hw in H1, H2; simpl in *; by subst.
Qed.

(** What no submission changes. *)
Definition same_completed d d' : Prop :=
  completed_ops d' = completed_ops d ∧ completed_waker d' = completed_waker d.

Definition submitted d cs d' (r : option Out * bool) (info : PendingOpInfo) (o : Out + Fut) :
    Prop :=
  same_completed d d' ∧
  match o with
  | inl res =>
      r.1 = Some res ∧ rep d' cs ∧ len d' = len d ∧ task d' = task d ∧
      task_set d' = task_set d ∧ item_waker d' = item_waker d
  | inr f =>
      r.1 = None ∧ rep d' (cs ++ [(info, f)]) ∧ len d' = (len d + 1)%Z ∧ task_set d' = true ∧
      task d' = Handle ∧ (task_set d = false → r.2 = true) ∧
      (registered (item_waker d) → r.2 = true ∧ registered (item_waker d'))
  end.

Lemma spawn_submits d cs boxes al info f :
  live_task d → (len d + 1 < 2 ^ 64)%Z →
  queue_ok boxes (queue d) cs → unused boxes al → holds (put boxes al (info, f)) al (info, f) →
  unique_ok (arena d) (put boxes al (info, f)) ∅ true →
  ∃ woken d', spawn d al = Ret (woken, d') ∧ submitted d cs d' (None, woken) info (inr f).
Proof.
  intros Hl Hlen Hq Hun Hh Hu.
  destruct (spawn_ok d al Hl Hlen) as (woken & d' & -> & Hq' & Hlen' & Ha & Hc & Hcw & Hts & Ht & Hw1 & Hw2).
  exists woken, d'. split; [done|]. split; [done|]. simpl. split_and!; try done.
  exists (put boxes al (info, f)). rewrite Ha, Hq'. split; [done|]. by apply queue_push.
Qed.

Lemma submit_ok lazy deferred d cs info op :
  rep d cs → live_task d → (len d + 1 < 2 ^ 64)%Z →
  ∃ o woken d', submit_op_fallible lazy deferred d info op = Ret (o, woken, d') ∧
    submitted d cs d' (o, woken) info (accepted lazy deferred op).
Proof.
  intros (boxes & Hu & Hq) Hl Hlen. unfold submit_op_fallible, accepted.
  destruct (fa_allocate_ok _ _ info op Hu) as (al & a & -> & Hun & Hh & Hu1).
  cbn [mbind outcome_bind]. destruct lazy.
  { destruct (spawn_submits (set_arena d a) cs boxes al info op Hl Hlen Hq Hun Hh Hu1)
      as (woken & d' & -> & Hs). simpl. eexists _, _, _. split; [reflexivity|exact Hs]. }
  destruct (fa_poll_ok _ _ _ _ Hu1 Hh) as (al' & a' & Hp & Hs & Hh' & Hu2).
  simpl arena. rewrite Hp. cbn [mbind outcome_bind fst snd]. simpl in Hh', Hu2.
  rewrite put_put in Hh', Hu2 by done.
  pose proof (unused_same _ _ _ _ Hs Hh' Hun) as Hun'.
  destruct (F_poll op) as [[res|] op'] eqn:Hop; simpl in *.
  2: { destruct (spawn_submits (set_arena d a') cs boxes al' info op' Hl Hlen Hq Hun' Hh' Hu2)
      as (woken & d' & Hsp & Hsub). change (set_arena (set_arena d a) a') with (set_arena d a').
    rewrite Hsp. simpl. eexists _, _, _. split; [reflexivity|exact Hsub]. }
  destruct (fa_drop_ok _ _ _ _ Hu2 Hh') as (a2 & Hd & Hu3).
  rewrite put_clear in Hu3 by done. destruct deferred; rewrite Hd; cbn [mbind outcome_bind].
  - destruct (fa_allocate_ok _ _ info (F_ready res) Hu3) as (al2 & a3 & -> & Hun2 & Hh2 & Hu4).
    cbn [mbind outcome_bind].
    destruct (spawn_submits (set_arena d a3) cs boxes al2 info (F_ready res) Hl Hlen Hq Hun2 Hh2 Hu4)
      as (woken & d' & Hsp & Hsub).
    change (set_arena (set_arena (set_arena d a) a') a3) with (set_arena d a3).
    rewrite Hsp. simpl. eexists _, _, _. split; [reflexivity|exact Hsub].
  - eexists _, _, _. split; [done|]. split; [done|]. split_and!; try done. by exists boxes.
Qed.

(** ** Polling

    A future evolves by polls that are not ready; it produces the result of the poll that
    is. *)
Definition evolves : Fut → Fut → Prop := rtc (λ f g, F_poll f = (Pending, g)).
Definition produces (f : Fut) (res : Res) : Prop :=
  ∃ g out g', evolves f g ∧ F_poll g = (Ready out, g') ∧ res = mapped out.
Definition in_flight (o c : cell) : Prop := o.1 = c.1 ∧ evolves o.2 c.2.
Definition answers (o : cell) (c : PendingOpInfo * Res) : Prop := o.1 = c.1 ∧ produces o.2 c.2.
(** A future that never uses the driver. *)
Definition quiet (f : Fut) : Prop := ∀ g, evolves f g → F_calls g = false.
Abbreviation all_quiet := (Forall (λ o : cell, quiet o.2)).

Lemma quiet_evolves f g : quiet f → evolves f g → quiet g.
Proof. intros Hq Hf h Hg. apply Hq. by transitivity g. Qed.
Lemma quiet_borrowed a boxes h al (o c : cell) :
  unique_ok a boxes ∅ h → holds boxes al c → in_flight o c → quiet o.2 → fa_borrowed a al = Ret tt.
Proof. intros Hu Hh [_ He] Hq. by rewrite (fa_borrowed_ok a boxes h al c Hu Hh), (Hq _ He). Qed.

Lemma list_middle {A} (l : list A) i x :
  l !! i = Some x → ∃ l1 l2, l = l1 ++ x :: l2 ∧ length l1 = i.
Proof.
  intros Hi. exists (take i l), (drop (S i) l). split; [by rewrite take_drop_middle|].
  rewrite length_take. apply lookup_lt_Some in Hi. lia.
Qed.

Lemma Forall2_middle {A B} (P : A → B → Prop) l1 x l2 k :
  Forall2 P (l1 ++ x :: l2) k →
  ∃ k1 y k2, k = k1 ++ y :: k2 ∧ length l1 = length k1 ∧ Forall2 P l1 k1 ∧ P x y ∧
    Forall2 P l2 k2.
Proof.
  intros (k1 & k' & H1 & H2 & ->)%Forall2_app_inv_l.
  inversion H2 as [|? y ? k2 Hxy H3]; subst. exists k1, y, k2.
  split_and!; try done. by eapply Forall2_length.
Qed.

Lemma poll_next_ok order a boxes q cs os :
  unique_ok a boxes ∅ true → queue_ok boxes q cs → Forall2 in_flight os cs → all_quiet os →
  ∃ r q' a' boxes' cs' os', poll_next order a q = Ret (r, q', a') ∧
    unique_ok a' boxes' ∅ true ∧ queue_ok boxes' q' cs' ∧ Forall2 in_flight os' cs' ∧
    match r with Pending => os' = os | Ready x => ∃ o, os ≡ₚ o :: os' ∧ answers o x end.
Proof.
  revert a boxes q cs. induction order as [|i order IH]; intros a boxes q cs Hu Hq Hos Hqt.
  { by eexists Pending, q, a, boxes, cs, os. }
  simpl. destruct (q !! i) as [al|] eqn:Hi; [|by eapply IH].
  apply list_middle in Hi as (q1 & q2 & -> & <-).
  destruct (Forall2_middle _ _ _ _ _ (q_holds _ _ _ Hq)) as (cs1 & c & cs2 & -> & Hl & _ & Hh & _).
  destruct (Forall2_middle (flip in_flight) cs1 c cs2 os) as (os1 & o & os2 & -> & Hl2 & Hos1 & Ho & Hos2).
  { by apply Forall2_flip. }
  apply Forall2_flip in Hos1, Hos2. unfold flip in Ho.
  rewrite (fa_context_ok a boxes true al c Hu Hh). cbn [mbind outcome_bind].
  rewrite (quiet_borrowed a boxes true al o c Hu Hh Ho)
    by (apply Forall_app in Hqt as [_ [? _]%Forall_cons]; done).
  cbn [mbind outcome_bind].
  destruct (fa_poll_ok _ _ _ _ Hu Hh) as (al' & a' & -> & Hs & Hh' & Hu').
  cbn [mbind outcome_bind].
  assert (queue_ok (put boxes al' (c.1, (F_poll c.2).2)) (q1 ++ al' :: q2)
    (cs1 ++ (c.1, (F_poll c.2).2) :: cs2)) as Hq' by by eapply queue_set.
  destruct (F_poll c.2) as [[out|] f] eqn:Hf; simpl in Hh', Hu', Hq'; cbn [fst snd].
  - destruct (fa_drop_ok _ _ _ _ Hu' Hh') as (a2 & -> & Hu2). cbn [mbind outcome_bind].
    rewrite delete_middle. eexists _, _, _, _, (cs1 ++ cs2), (os1 ++ os2). split; [reflexivity|].
    split; [done|]. split; [by eapply queue_remove|]. split; [by apply Forall2_app|].
    exists o. split; [by rewrite <- Permutation_middle|]. destruct Ho as [H1 H2].
    split; [done|]. by exists c.2, out, f.
  - replace (<[length q1:=al']> (q1 ++ al :: q2)) with (q1 ++ al' :: q2).
    2: { rewrite <- (Nat.add_0_r (length q1)), insert_app_r. done. }
    eapply IH; [done|done|apply Forall2_app; [done|]|done]. constructor; [|done].
    destruct Ho as [H1 H2]. split; [done|]. simpl. eapply rtc_r; [exact H2|done].
Qed.

Lemma poll_next_unpin_ok order d cs os :
  rep d cs → Forall2 in_flight os cs → all_quiet os →
  ∃ r d' cs' os', poll_next_unpin order d = Ret (r, d') ∧ rep d' cs' ∧
    Forall2 in_flight os' cs' ∧ same_completed d d' ∧ len d' = len d ∧ task d' = task d ∧
    task_set d' = task_set d ∧ registered (item_waker d') ∧
    match r with Pending => os' = os | Ready x => ∃ o, os ≡ₚ o :: os' ∧ answers o x end.
Proof.
  intros (boxes & Hu & Hq) Hos Hqt. unfold poll_next_unpin.
  pose proof (register_registered (item_waker d)) as Hreg. case_decide.
  - eexists _, _, cs, os. split; [reflexivity|]. split; [by exists boxes|]. done.
  - simpl. destruct (poll_next_ok order _ boxes _ cs os Hu Hq Hos Hqt)
      as (r & q' & a' & boxes' & cs' & os' & -> & Hu' & Hq' & Hos' & Hr). simpl.
    eexists _, _, cs', os'. split; [reflexivity|]. split; [by exists boxes'|]. done.
Qed.

(** The completed ops, added to the completion queue, come from as many in flight. *)
Lemma poll_task_ok orders d cs os :
  rep d cs → Forall2 in_flight os cs → all_quiet os →
  ∃ woken d' cs' os' oc new, poll_task orders d = Ret (woken, d') ∧ rep d' cs' ∧
    Forall2 in_flight os' cs' ∧ os ≡ₚ oc ++ os' ∧ Forall2 answers oc new ∧
    completed_ops d' = completed_ops d ++ new ∧
    len d' = len d ∧ task d' = task d ∧ task_set d' = task_set d ∧
    registered (item_waker d') ∧
    (registered (completed_waker d) →
     registered (completed_waker d') ∧ (new ≠ [] → woken = true)).
Proof.
  revert d cs os. induction orders as [|order orders IH]; intros d cs os Hd Hos Hqt; simpl.
  - destruct (poll_next_unpin_ok [] d cs os Hd Hos Hqt)
      as (r & d' & cs' & os' & Hp & Hd' & Hos' & [Hc Hcw] & Hl & Ht & Hts & Hreg & Hr).
    assert (r = Pending) as ->.
    { unfold poll_next_unpin in Hp. case_decide; simpl in Hp; by injection Hp as <-. }
    rewrite Hp. simpl. subst os'. eexists _, d', cs', os, [], []. split; [reflexivity|].
    split_and!; try done; [by rewrite app_nil_r|]. by rewrite Hcw.
  - destruct (poll_next_unpin_ok order d cs os Hd Hos Hqt)
      as (r & d' & cs' & os' & -> & Hd' & Hos' & [Hc Hcw] & Hl & Ht & Hts & Hreg & Hr).
    cbn [mbind outcome_bind]. destruct r as [x|].
    2: { subst os'. eexists _, d', cs', os, [], []. split; [reflexivity|].
      split_and!; try done; [by rewrite app_nil_r|]. by rewrite Hcw. }
    destruct Hr as (o & Hperm & Ho). rewrite Hcw.
    destruct (wake_by_ref (completed_waker d)) as [woken w] eqn:Hw.
    destruct (IH (set_completed d' (completed_ops d' ++ [x]) w) cs' os')
      as (again & d2 & cs2 & os2 & oc & new & -> & Hd2 & Hos2 & Hp2 & Hnew & Hc2 & Hl2 & Ht2 &
        Hts2 & Hreg2 & Hw2); [exact Hd'|done|by rewrite Hperm, Forall_cons in Hqt; destruct Hqt|].
    cbn [mbind outcome_bind]. eexists _, d2, cs2, os2, (o :: oc), (x :: new).
    split; [reflexivity|]. simpl in *. rewrite Hl2, Ht2, Hts2, Hl, Ht, Hts.
    split_and!; try done.
    + by rewrite Hperm, Hp2.
    + by constructor.
    + by rewrite Hc2, Hc, <- app_assoc.
    + intros Hr. pose proof (registered_woken _ Hr) as H1.
      pose proof (wake_registered _ Hr) as H2. rewrite Hw in H1, H2. simpl in *. subst woken.
      by destruct (Hw2 H2).
Qed.

Lemma contexts_ok a boxes h q cs :
  unique_ok a boxes ∅ h → Forall2 (holds boxes) q cs → contexts a q = Ret cs.*1.
Proof.
  intros Hu. induction 1 as [|al c q cs Hh _ IH]; [done|]. simpl.
  rewrite (fa_context_ok a boxes h al c Hu Hh). simpl. by rewrite IH.
Qed.
Lemma stats_ok d cs op_exclusions :
  rep d cs → stats d op_exclusions = Ret (filter (λ info, op_id info ∉ op_exclusions) cs.*1).
Proof.
  intros (boxes & Hu & [Hh _ _]). unfold stats. by rewrite (contexts_ok _ _ _ _ _ Hu Hh).
Qed.

Lemma drop_all_ok q a boxes cs os :
  unique_ok a boxes ∅ true → queue_ok boxes q cs → Forall2 in_flight os cs → all_quiet os →
  ∃ a', drop_all a q = Ret a' ∧ unique_ok a' ∅ ∅ true.
Proof.
  revert a boxes cs os. induction q as [|al q IH]; intros a boxes cs os Hu Hq Hos Hqt.
  - exists a. split; [done|]. replace (∅ : boxes_t) with boxes; [done|].
    apply dom_empty_inv_L. apply set_eq. intros i. rewrite (q_dom _ _ _ Hq). simpl.
    rewrite elem_of_nil. set_solver.
  - pose proof (q_holds _ _ _ Hq) as Hh. inversion Hh as [|? c ? cs' Hal Hh']; subst. simpl.
    inversion Hos as [|o ? os' ? Ho Hos']; subst. apply Forall_cons in Hqt as [Hqo Hqt].
    rewrite (quiet_borrowed a boxes true al o c Hu Hal Ho Hqo). cbn [mbind outcome_bind].
    destruct (fa_drop_ok _ _ _ _ Hu Hal) as (a' & -> & Hu'). cbn [mbind outcome_bind].
    apply (IH a' _ cs' os' Hu'); [|done..]. by apply (queue_remove boxes [] al q [] c cs').
Qed.

Lemma driver_default_ok : rep driver_default [].
Proof.
  exists ∅. split; [by apply unique_new_ok|]. split; simpl; [constructor|constructor|].
  intros i. rewrite dom_empty_L, elem_of_nil. set_solver.
Qed.

(** * The system

    The event loop submits ops and asks for results; the polling task runs whenever it is
    polled.  A ghost records what was submitted to the queue. *)
Record system := mkSystem {
  drv : FuturesUnorderedDriver;
  queued : list cell;                          (** every future given to the queue *)
  delivered : list (PendingOpInfo * Res);      (** every result picked up *)
  down : bool;
  scheduled : bool;                            (** the polling task is going to run *)
  waiting : bool;                              (** the last pick-up found nothing *)
  notified : bool                              (** the event loop was woken since *)
}.
Definition init : system := mkSystem driver_default [] [] false false false false.

Inductive action :=
  | Submit (lazy deferred : bool) (info : PendingOpInfo) (op : Fut)
  | RunTask (orders : list (list nat))
  | PollReady
  | Shutdown.

(** Ops are not submitted to a driver that was shut down, nor 2^64 at once, and do not use
    the driver themselves; the polling task is polled once it was spawned. *)
Definition legal (s : system) (act : action) : Prop :=
  match act with
  | Submit _ deferred _ op =>
      (down s = false ∧ (len (drv s) + 1 < 2 ^ 64)%Z) ∧ quiet op ∧
      (deferred = true → ∀ res, quiet (F_ready res))
  | RunTask _ => task (drv s) = Handle
  | PollReady | Shutdown => True
  end.

Definition exec (s : system) (act : action) : outcome system :=
  match act with
  | Submit lazy deferred info op =>
      '(o, woken, d) ← submit_op_fallible lazy deferred (drv s) info op;
      Ret (mkSystem d
        (queued s ++ match accepted lazy deferred op with inr f => [(info, f)] | inl _ => [] end)
        (delivered s) (down s) (scheduled s || woken) (waiting s) (notified s))
  | RunTask orders =>
      '(woken, d) ← poll_task orders (drv s);
      Ret (mkSystem d (queued s) (delivered s) (down s) false (waiting s) (notified s || woken))
  | PollReady =>
      '(r, d) ← poll_ready (drv s);
      Ret match r with
          | Ready x => mkSystem d (queued s) (delivered s ++ [x]) (down s) (scheduled s) false
                         (notified s)
          | Pending => mkSystem d (queued s) (delivered s) (down s) (scheduled s) true false
          end
  | Shutdown =>
      d ← shutdown (drv s);
      Ret (mkSystem d (queued s) (delivered s) true (scheduled s) (waiting s) (notified s))
  end.

Inductive reachable : system → Prop :=
  | reach_init : reachable init
  | reach_exec s act s' : reachable s → legal s act → exec s act = Ret s' → reachable s'.

(** Every future that was queued was answered, has its result ready, or is in flight. *)
Definition accounted (s : system) (cs : list cell) : Prop :=
  ∃ od oc os, queued s ≡ₚ od ++ oc ++ os ∧ Forall2 answers od (delivered s) ∧
    Forall2 answers oc (completed_ops (drv s)) ∧ Forall2 in_flight os cs.

Definition up_ok (s : system) (cs : list cell) : Prop :=
  live_task (drv s) ∧ accounted s cs ∧ all_quiet (queued s) ∧
  len (drv s) = Z.of_nat (length (completed_ops (drv s)) + length cs) ∧
  (task_set (drv s) = false → cs = []) ∧
  (task_set (drv s) = true → scheduled s = true ∨ registered (item_waker (drv s))) ∧
  (waiting s = true → registered (completed_waker (drv s)) ∧
    (completed_ops (drv s) ≠ [] → notified s = true)).
Definition inv (s : system) : Prop :=
  ∃ cs, rep (drv s) cs ∧
    if down s then cs = [] ∧ completed_ops (drv s) = [] ∧ task (drv s) = Empty ∧
      (∃ od, od ⊆+ queued s ∧ Forall2 answers od (delivered s))
    else up_ok s cs.

(** A step that puts an op into the queue leaves the polling task scheduled; one that
    completes an op wakes an event loop that waits. *)
Definition wakes (s s' : system) : Prop :=
  (length (queue (drv s)) < length (queue (drv s')) → scheduled s' = true)%nat ∧
  (waiting s = true → length (completed_ops (drv s)) < length (completed_ops (drv s')) →
   notified s' = true)%nat.

Definition good (s : system) (act : action) : Prop :=
  ∃ s', exec s act = Ret s' ∧ inv s' ∧ wakes s s'.

Lemma rep_length d cs : rep d cs → length (queue d) = length cs.
Proof. intros (boxes & _ & Hq). by eapply Forall2_length, q_holds. Qed.

Lemma quiet_accepted lazy deferred op f :
  quiet op → (deferred = true → ∀ res, quiet (F_ready res)) → accepted lazy deferred op = inr f → quiet f.
Proof.
  intros Hq Hr. unfold accepted. destruct lazy; [by intros [= <-]|].
  destruct (F_poll op) as [[res|] op'] eqn:Hp; [destruct deferred; [|done]; intros [= <-]; by apply Hr|].
  intros [= <-]. eapply quiet_evolves; [exact Hq|]. by apply rtc_once.
Qed.

Lemma submit_good s lazy deferred info op :
  inv s → legal s (Submit lazy deferred info op) → good s (Submit lazy deferred info op).
Proof.
  intros (cs & Hrep & Hup) [[Hd Hlen] [Hquiet Hready]]. rewrite Hd in Hup.
  destruct Hup as (Hl & (od & oc & os & Hp & Hod & Hoc & Hos) & Hqt & Hn & Hts & Hsch & Hw).
  destruct (submit_ok lazy deferred (drv s) cs info op Hrep Hl Hlen)
    as (o & woken & d' & He & [Hc Hcw] & Hs).
  pose proof (quiet_accepted lazy deferred op) as Hqa.
  eexists. split; [unfold exec; rewrite He; reflexivity|].
  destruct (accepted lazy deferred op) as [res|f].
  - destruct Hs as (_ & Hrep' & Hl' & Ht' & Hts' & Hiw). split; [exists cs; split; [done|]|].
    + simpl. rewrite Hd. unfold up_ok, accounted, live_task. simpl.
      rewrite Hc, Hcw, Hl', Ht', Hts', Hiw. split_and!; try done; rewrite ?app_nil_r; try done.
      * by exists od, oc, os.
      * intros Ht. destruct (Hsch Ht) as [->|?]; [by left|by right].
    + split; simpl; [|rewrite Hc; lia]. rewrite (rep_length _ _ Hrep), (rep_length _ _ Hrep'). lia.
  - destruct Hs as (_ & Hrep' & Hl' & Hts' & Ht' & Hfirst & Hreg).
    assert (scheduled s || woken = true) as Hsched.
    { destruct (task_set (drv s)) eqn:Hset.
      - destruct (Hsch eq_refl) as [->|Hr]; [done|]. destruct (Hreg Hr) as [H1 _].
        simpl in H1. rewrite H1. apply orb_true_r.
      - simpl in Hfirst. rewrite Hfirst by done. apply orb_true_r. }
    split; [exists (cs ++ [(info, f)]); split; [done|]|].
    + simpl. rewrite Hd. unfold up_ok, accounted, live_task. simpl. rewrite Hc, Hcw. split_and!.
      * by right.
      * exists od, oc, (os ++ [(info, f)]). split_and!; [by rewrite Hp, !app_assoc|done|done|].
        apply Forall2_app; [done|]. constructor; [|constructor]. by split; [|apply rtc_refl].
      * apply Forall_app. split; [done|]. constructor; [|constructor]. by apply Hqa.
      * rewrite Hl', Hn, length_app. simpl. lia.
      * by rewrite Hts'.
      * intros _. by left.
      * done.
    + split; simpl; [done|rewrite Hc; lia].
Qed.

Lemma run_task_good s orders : inv s → legal s (RunTask orders) → good s (RunTask orders).
Proof.
  intros (cs & Hrep & Hup) Ht. simpl in Ht. destruct (down s) eqn:Hd.
  { destruct Hup as (_ & _ & He & _). congruence. }
  destruct Hup as (Hl & (od & oc & os & Hp & Hod & Hoc & Hos) & Hqt & Hn & Hts & Hsch & Hw).
  assert (all_quiet os) as Hqo by (rewrite Hp, !Forall_app in Hqt; tauto).
  destruct (poll_task_ok orders (drv s) cs os Hrep Hos Hqo)
    as (woken & d' & cs' & os' & oc' & new & He & Hrep' & Hos' & Hp' & Hnew & Hc & Hl' & Ht' &
      Hts' & Hreg & Hw').
  assert (length os = length oc' + length os')%nat as Hlen by (by rewrite Hp', length_app).
  pose proof (Forall2_length _ _ _ Hos). pose proof (Forall2_length _ _ _ Hos').
  pose proof (Forall2_length _ _ _ Hnew).
  eexists. split; [unfold exec; rewrite He; reflexivity|]. split; [exists cs'; split; [done|]|].
  - simpl. rewrite Hd. unfold up_ok, accounted, live_task in *. simpl. split_and!.
    + by rewrite Ht', Hts'.
    + exists od, (oc ++ oc'), os'. split_and!; [by rewrite Hp, Hp', !app_assoc|done| |done].
      rewrite Hc. by apply Forall2_app.
    + done.
    + rewrite Hl', Hn, Hc, length_app. lia.
    + rewrite Hts'. intros Hset. exfalso. destruct Hl as [[_ ?]|[? _]]; congruence.
    + by right.
    + intros Hwait. destruct (Hw Hwait) as [Hr Hnot]. destruct (Hw' Hr) as [Hr' Hwk].
      split; [done|]. rewrite Hc. intros Hne.
      destruct (decide (new = [])) as [->|Hnn]; [|by rewrite Hwk, orb_true_r].
      rewrite app_nil_r in Hne. by rewrite Hnot.
  - split; simpl; [rewrite (rep_length _ _ Hrep), (rep_length _ _ Hrep'); lia|].
    intros Hwait. destruct (Hw Hwait) as [Hr _]. destruct (Hw' Hr) as [_ Hwk].
    rewrite Hc, length_app. intros. rewrite Hwk, orb_true_r; [done|]. intros ->. simpl in *. lia.
Qed.

Lemma poll_ready_good s : inv s → good s PollReady.
Proof.
  intros (cs & Hrep & Hup). unfold good, exec, poll_ready.
  destruct (completed_ops (drv s)) as [|x ops] eqn:Hc.
  - eexists. split; [reflexivity|]. split; [exists cs; split; [done|]|split; simpl; rewrite ?Hc; simpl; lia]. simpl.
    destruct (down s); [exact Hup|].
    destruct Hup as (Hl & Ha & Hqt & Hn & Hts & Hsch & Hw). unfold up_ok, accounted, live_task in *. simpl.
    rewrite Hc in *. split_and!; try done. intros _. split; [by apply register_registered|done].
  - destruct (down s) eqn:Hd; [destruct Hup as (_ & ? & _); congruence|].
    destruct Hup as (Hl & (od & oc & os & Hp & Hod & Hoc & Hos) & Hqt & Hn & Hts & Hsch & Hw).
    rewrite Hc in *. inversion Hoc as [|o ? oc' ? Ho Hoc']; subst.
    rewrite sub_w_fits by (rewrite Hn; simpl; lia). simpl.
    eexists. split; [reflexivity|]. split; [exists cs; split; [done|]|split; simpl; rewrite ?Hc; simpl; lia].
    simpl. unfold up_ok, accounted, live_task in *. simpl. split_and!; try done.
    + exists (od ++ [o]), oc', os. split_and!; try done.
      * by rewrite Hp, <- app_assoc.
      * apply Forall2_app; [done|by constructor].
    + rewrite Hn. simpl. lia.
Qed.

Lemma shutdown_good s : inv s → good s Shutdown.
Proof.
  intros (cs & (boxes & Hu & Hq) & Hup). unfold good, exec, shutdown.
  assert (∃ os, Forall2 in_flight os cs ∧ all_quiet os) as (os & Hos & Hqt).
  { destruct (down s); [destruct Hup as [-> _]; by exists []|].
    destruct Hup as (_ & (od & oc & os & Hp & _ & _ & Hos) & Hqt & _). exists os. split; [done|].
    rewrite Hp, !Forall_app in Hqt. tauto. }
  destruct (drop_all_ok _ _ _ _ _ Hu Hq Hos Hqt) as (a' & -> & Hu'). simpl.
  eexists. split; [reflexivity|]. split; [|split; simpl; lia]. exists []. split.
  { exists ∅. split; [done|]. split; simpl; [constructor|constructor|].
    intros i. rewrite dom_empty_L, elem_of_nil. set_solver. }
  simpl. split_and!; try done. destruct (down s).
  - by destruct Hup as (_ & _ & _ & ?).
  - destruct Hup as (_ & (od & oc & os' & Hp & Hod & _) & _). exists od. split; [|done].
    rewrite Hp. by apply submseteq_inserts_r.
Qed.

Lemma drv_exec_good s act : inv s → legal s act → good s act.
Proof.
  destruct act; intros; [by apply submit_good|by apply run_task_good|by apply poll_ready_good|
    by apply shutdown_good].
Qed.

Lemma drv_reachable_inv s : reachable s → inv s.
Proof.
  induction 1 as [|s act s' _ IH Hl He].
  - exists []. split; [exact driver_default_ok|]. simpl.
    split; [by left|]. split; [|done]. exists [], [], []. done.
  - destruct (drv_exec_good s act IH Hl) as (s1 & He1 & ? & _). congruence.
Qed.

(** A sequence of actions, with the tests of [legal] that can be made, for futures that
    never use the driver. *)
Definition allowed (s : system) (act : action) : bool :=
  match act with
  | Submit _ _ _ _ => negb (down s) && (len (drv s) + 1 <? 2 ^ 64)%Z
  | RunTask _ => match task (drv s) with Handle => true | _ => false end
  | PollReady | Shutdown => true
  end.
Fixpoint run (s : system) (l : list action) : outcome system :=
  match l with
  | [] => Ret s
  | act :: l => if allowed s act then s ← exec s act; run s l else Panic Assert
  end.
Lemma allowed_legal s act : (∀ f, F_calls f = false) → allowed s act = true → legal s act.
Proof.
  intros Hf. assert (∀ f, quiet f) as Hq by (intros f g _; apply Hf). destruct act; simpl; [|by destruct (task _)|done..].
  intros [?%negb_true_iff ?%Z.ltb_lt]%andb_true_iff. auto.
Qed.
Lemma drv_run_reachable s l s' :
  (∀ f, F_calls f = false) → reachable s → run s l = Ret s' → reachable s'.
Proof.
  intros Hf. revert s. induction l as [|act l IH]; intros s Hr Hl; simpl in Hl; [by injection Hl as <-|].
  destruct (allowed s act) eqn:Ha; [|done]. apply bind_Ret_inv in Hl as (s1 & He & Hl).
  eapply IH; [|exact Hl]. econstructor; [exact Hr|by apply allowed_legal|exact He].
Qed.

(** * Properties *)

(** C21: asynchronous ops. No legal operation of the driver panics or misuses the memory of
    the arena, however many futures fit into the arena and in whatever order they are
    polled; legal means that ops are not submitted after a shutdown, which panics if no op
    was submitted before, nor 2^64 at once, that the polling task is polled once it was
    spawned, and that the futures of ops do not use the driver themselves, since its queue
    is borrowed while they are polled or dropped. While the driver is up, every future given
    to the queue is accounted for exactly once: its result was picked up, waits to be, or
    the future is in flight; every result carries the ids of its own future and is what that
    future produced; [len] counts the ops that were not picked up; and [stats] lists those
    in flight, not those that completed and wait to be picked up. *)
Theorem ops_answered_once s act :
  reachable s → legal s act →
  returns (exec s act) ∧
  (down s = false → ∃ od oc os cs,
     queued s ≡ₚ od ++ oc ++ os ∧
     Forall2 answers od (delivered s) ∧ Forall2 answers oc (completed_ops (drv s)) ∧
     Forall2 in_flight os cs ∧ len (drv s) = Z.of_nat (length oc + length os) ∧
     stats (drv s) ∅ = Ret cs.*1).
Proof.
  intros Hr Hl. pose proof (drv_reachable_inv s Hr) as Hi. split.
  { destruct (drv_exec_good s act Hi Hl) as (s' & -> & _). by eexists. }
  intros Hd. destruct Hi as (cs & Hrep & Hup). rewrite Hd in Hup.
  destruct Hup as (_ & (od & oc & os & Hp & Hod & Hoc & Hos) & _ & Hn & _).
  exists od, oc, os, cs. split_and!; try done.
  - rewrite Hn. apply Forall2_length in Hoc, Hos. lia.
  - rewrite (stats_ok _ cs) by done. f_equal. apply list_filter_all.
    intros x _. apply not_elem_of_empty.
Qed.

(** C22: wake-ups of ops. A step that leaves one more op in the queue leaves the polling
    task scheduled, whatever ran before; and a step that completes an op wakes the event
    loop if it had found nothing. While ops are in the queue the polling task is scheduled
    or has left its waker there, and an event loop that found nothing has been notified as
    long as a result waits for it. *)
Theorem ops_wake s act s' :
  reachable s → legal s act → exec s act = Ret s' →
  (length (queue (drv s)) < length (queue (drv s')) → scheduled s' = true)%nat ∧
  (waiting s = true → length (completed_ops (drv s)) < length (completed_ops (drv s')) →
   notified s' = true)%nat ∧
  (down s' = false → queue (drv s') ≠ [] → scheduled s' = true ∨ registered (item_waker (drv s'))) ∧
  (down s' = false → waiting s' = true → completed_ops (drv s') ≠ [] → notified s' = true).
Proof.
  intros Hr Hl He. destruct (drv_exec_good s act (drv_reachable_inv s Hr) Hl) as (s1 & He1 & Hi & Hw1 & Hw2).
  rewrite He in He1. injection He1 as <-. destruct Hi as (cs & (boxes & _ & Hq) & Hup).
  split; [done|]. split; [done|]. destruct (down s'); [done|]. destruct Hup as (_ & _ & _ & _ & Hts & Hsch & Hw). split; intros _.
  - intros Hne. destruct (task_set (drv s')) eqn:Hset; [by apply Hsch|].
    rewrite (Hts eq_refl) in Hq. destruct Hne. eapply Forall2_nil_inv_r, Hq.
  - intros Hwait. by apply Hw.
Qed.
End driver.

(** * A driver *)

Global Instance bool_waker : WakerCell bool := {|
  fresh := false; register := λ _, true; wake_by_ref := λ w, (w, w); registered := λ w, w = true
|}.
Global Instance bool_waker_laws : WakerCellLaws bool.
Proof. by split. Qed.

(** Futures that are ready after some polls; those with a negative result do not fit. *)
Definition count_poll (f : nat * Z) : poll Z * (nat * Z) :=
  match f with (O, z) => (Ready z, f) | (S n, z) => (Pending, (n, z)) end.
Definition small (f : nat * Z) : bool := bool_decide (0 <= f.2)%Z.
Definition never (f : nat * Z) : bool := false.

Abbreviation demo_from := (run (Fut:=nat * Z) (Out:=Z) (Res:=Z) (W:=bool) Debug count_poll
  (pair 0) small never id init).
Abbreviation demo_reachable := (reachable (Fut:=nat * Z) (Out:=Z) (Res:=Z) (W:=bool) Debug
  count_poll (pair 0) small never id).

(** Three ops: one that stays pending, one that is ready but deferred, one beside the arena. *)
Definition demo_actions : list (@action (nat * Z)) :=
  [Submit false false (mkInfo 1 10) (5, 5%Z); Submit false true (mkInfo 2 10) (0, 7%Z);
   Submit true false (mkInfo 3 11) (0, (-1)%Z); PollReady; RunTask [[0; 1]; [0; 1]]; PollReady].
Definition demo_system := demo_from demo_actions.

(** The second and the third op completed, and the second was picked up. *)
Definition demo_ok (s : system (Fut:=nat * Z) (Res:=Z) (W:=bool)) : bool :=
  bool_decide (delivered s = [(mkInfo 2 10, 7%Z)]) &&
  bool_decide (completed_ops (drv s) = [(mkInfo 3 11, (-1)%Z)]) &&
  (len (drv s) =? 2)%Z && negb (down s).

Lemma demo_reached : ∃ s, demo_reachable s ∧ demo_ok s = true.
Proof.
  assert (match demo_system with Ret s => demo_ok s | Panic _ => false end = true) as Hok
    by (vm_compute; reflexivity).
  destruct demo_system as [s|] eqn:E; [|done]. exists s. split; [|done].
  eapply drv_run_reachable; [done|constructor|exact E].
Defined.

Lemma ops_answered_once_witness :
  ∃ s, demo_reachable s ∧ demo_ok s = true ∧
    returns (exec Debug count_poll (pair 0) small never id s PollReady) ∧
    ∃ od oc os, queued s ≡ₚ od ++ oc ++ os ∧
      Forall2 (answers count_poll id) od [(mkInfo 2 10, 7%Z)] ∧
      Forall2 (answers count_poll id) oc [(mkInfo 3 11, (-1)%Z)].
Proof.
  destruct demo_reached as (s & Hr & Hok). exists s. split; [exact Hr|]. split; [exact Hok|].
  destruct (ops_answered_once Debug count_poll (pair 0) small never id s PollReady Hr I) as [He Ha].
  split; [exact He|]. unfold demo_ok in Hok.
  apply andb_true_iff in Hok as [Hok Hd%negb_true_iff].
  apply andb_true_iff in Hok as [Hok _].
  apply andb_true_iff in Hok as [Hdel%bool_decide_eq_true Hc%bool_decide_eq_true].
  destruct (Ha Hd) as (od & oc & os & cs & Hp & Hod & Hoc & _).
  rewrite Hdel in Hod. rewrite Hc in Hoc. exists od, oc, os. split; [exact Hp|].
  split; [exact Hod|exact Hoc].
Defined.

(** A fourth op schedules the polling task, which had run. *)
Definition fourth : @action (nat * Z) := Submit true false (mkInfo 4 10) (1, 9%Z).
Lemma ops_wake_witness :
  ∃ s s', demo_reachable s ∧ allowed s fourth = true ∧ scheduled s = false ∧
    exec Debug count_poll (pair 0) small never id s fourth = Ret s' ∧ scheduled s' = true.
Proof.
  set (next := λ s, exec Debug count_poll (pair 0) small never id s fourth).
  assert (match demo_system with
          | Ret s => allowed s fourth && negb (scheduled s) &&
              match next s with Ret s' => (length (queue (drv s)) <? length (queue (drv s')))%nat | Panic _ => false end
          | Panic _ => false end = true) as Hok by (vm_compute; reflexivity).
  destruct demo_system as [s|] eqn:E; [|done].
  assert (demo_reachable s) as Hr by (eapply drv_run_reachable; [done|constructor|exact E]).
  apply andb_true_iff in Hok as [[Ha Hs%negb_true_iff]%andb_true_iff Hn].
  destruct (next s) as [s'|] eqn:E'; [|done]. exists s, s'.
  split; [exact Hr|]. split; [exact Ha|]. split; [exact Hs|]. split; [exact E'|].
  apply (ops_wake Debug count_poll (pair 0) small never id s fourth s' Hr); [|exact E'|by apply Nat.ltb_lt].
  by apply (allowed_legal count_poll (pair 0) never s fourth).
Defined.

(** A driver that was shut down before its first op panics at the next submission. *)
Example submit_after_shutdown :
  (d ← shutdown (Fut:=nat * Z) (Res:=Z) (W:=bool) Debug never driver_default;
   submit_op_fallible Debug count_poll (pair 0) small true false d (mkInfo 1 10) (0, 5%Z))
  = Panic Unreachable.
Proof. reflexivity. Qed.

(** Between its completion and its pick-up an op is counted by [len] and not listed by
    [stats]. *)
Example stats_misses_completed :
  (s ← demo_from [Submit true false (mkInfo 1 10) (0, 5%Z); RunTask [[0]]];
   infos ← stats (drv s) ∅; Ret (len (drv s), infos)) = Ret (1%Z, []).
Proof. vm_compute. reflexivity. Qed.

(** A future that uses the driver when it is polled finds the queue borrowed. *)
Example future_calls_back :
  (s ← run (Fut:=nat * Z) (Out:=Z) (Res:=Z) (W:=bool) Debug count_poll (pair 0) small (λ _, true) id init
         [Submit true false (mkInfo 1 10) (0, 5%Z)];
   exec Debug count_poll (pair 0) small (λ _, true) id s (RunTask [[0]])) = Panic BorrowConflict.
Proof. vm_compute. reflexivity. Qed.
