(* ===== verification/Tasks.v ===== *)
(** [core/tasks.rs]: the tasks that other threads ask the event loop to run.

    [V8TaskSpawnerFactory] is a vector behind a mutex, a flag and a waker.  Submission and
    polling run on different threads: each is cut into its atomic steps (a critical
    section, an atomic access, an operation of the waker), and a [system] interleaves one
    polling thread with any number of submitting threads.  The acquire and release
    orderings of the flag make the steps sequentially consistent here.  The waker is
    [AtomicWaker]: [register] stores a waker, [wake] takes it and wakes it.  Tasks are
    known by identity. *)

From S2P Require Import Prelude.

(** * The factory *)

Record V8TaskSpawnerFactory := mkFactory {
  tasks : list Z;
  has_tasks : bool;
  registered : bool  (** the waker of the event loop is registered *)
}.
Definition factory_default : V8TaskSpawnerFactory := mkFactory [] false false.

Definition has_pending_tasks (f : V8TaskSpawnerFactory) : bool := has_tasks f.

(** ** Submission *)

Inductive spawn_pc :=
  | SPush (task : Z)
  | SStore
  | SWake
  | SDone.
Global Instance spawn_pc_eq_dec : EqDecision spawn_pc.
Proof. solve_decision. Defined.

(** One step of [spawn]; did it wake the event loop? *)
Definition spawn_step (f : V8TaskSpawnerFactory) (pc : spawn_pc) :
    V8TaskSpawnerFactory * spawn_pc * bool :=
  match pc with
  | SPush task => (mkFactory (tasks f ++ [task]) (has_tasks f) (registered f), SStore, false)
  | SStore => (mkFactory (tasks f) true (registered f), SWake, false)
  | SWake => (mkFactory (tasks f) (has_tasks f) false, SDone, registered f)
  | SDone => (f, SDone, false)
  end.

(** The whole call. *)
Definition spawn (f : V8TaskSpawnerFactory) (task : Z) : V8TaskSpawnerFactory * bool :=
  let '(f, pc, _) := spawn_step f (SPush task) in
  let '(f, pc, _) := spawn_step f pc in
  let '(f, _, woken) := spawn_step f pc in
  (f, woken).

(** ** Polling *)

Inductive poll_pc :=
  | PExchange
  | PTake
  | PRegister.
Global Instance poll_pc_eq_dec : EqDecision poll_pc.
Proof. solve_decision. Defined.

(** One step of [poll_inner]: it goes on, or answers. *)
Definition poll_step (f : V8TaskSpawnerFactory) (pc : poll_pc) :
    V8TaskSpawnerFactory * (poll_pc + poll (list Z)) :=
  match pc with
  | PExchange =>
      if has_tasks f then (mkFactory (tasks f) false (registered f), inl PTake)
      else (f, inl PRegister)
  | PTake =>
      let f' := mkFactory [] (has_tasks f) (registered f) in
      match tasks f with
      | [] => (f', inl PRegister)
      | taken => (f', inr (Ready taken))
      end
  | PRegister => (mkFactory (tasks f) (has_tasks f) true, inr Pending)
  end.

(** At most three steps. *)
Fixpoint poll_steps (fuel : nat) (f : V8TaskSpawnerFactory) (pc : poll_pc) :
    outcome (V8TaskSpawnerFactory * poll (list Z)) :=
  match fuel with
  | 0 => Panic OutOfFuel
  | S fuel =>
      match poll_step f pc with
      | (f, inl pc) => poll_steps fuel f pc
      | (f, inr r) => Ret (f, r)
      end
  end.
Definition poll_inner (f : V8TaskSpawnerFactory) : outcome (V8TaskSpawnerFactory * poll (list Z)) :=
  poll_steps 3 f PExchange.

(** * The threads

    The polling thread follows [dispatch_task_spawner]: in a tick it polls as long as the
    answer is [Ready], and asks for another tick when it gives up. *)

Inductive loop_pc :=
  | Asleep
  | Awake
  | Polling (pc : poll_pc).
Global Instance loop_pc_eq_dec : EqDecision loop_pc.
Proof. solve_decision. Defined.

Record system := mkSystem {
  factory : V8TaskSpawnerFactory;
  spawners : list spawn_pc;
  loop : loop_pc;
  notified : bool;      (** the event loop was woken since its last tick began *)
  pushed : list Z;      (** every task submitted, in the order of submission *)
  delivered : list Z    (** every task handed to the event loop *)
}.
(** The embedder polls the event loop once to begin with. *)
Definition init : system := mkSystem factory_default [] Asleep true [] [].

Inductive action :=
  | Call (task : Z)      (** a thread calls [spawn] *)
  | Step (i : nat)       (** a submitting thread moves *)
  | Tick                 (** the event loop is polled *)
  | Poll                 (** it polls the factory *)
  | Move                 (** its poll moves *)
  | GiveUp.              (** it wakes itself and ends its tick *)

Definition exec (s : system) (a : action) : option system :=
  match a with
  | Call task =>
      Some (mkSystem (factory s) (spawners s ++ [SPush task]) (loop s) (notified s)
        (pushed s) (delivered s))
  | Step i =>
      pc ← spawners s !! i;
      let '(f, pc', woken) := spawn_step (factory s) pc in
      Some (mkSystem f (<[i := pc']> (spawners s)) (loop s) (notified s || woken)
        (match pc with SPush task => pushed s ++ [task] | _ => pushed s end) (delivered s))
  | Tick =>
      match loop s with
      | Asleep => Some (mkSystem (factory s) (spawners s) Awake false (pushed s) (delivered s))
      | _ => None
      end
  | Poll =>
      match loop s with
      | Awake => Some (mkSystem (factory s) (spawners s) (Polling PExchange) (notified s)
                   (pushed s) (delivered s))
      | _ => None
      end
  | Move =>
      match loop s with
      | Polling pc =>
          let '(f, r) := poll_step (factory s) pc in
          Some match r with
               | inl pc => mkSystem f (spawners s) (Polling pc) (notified s) (pushed s) (delivered s)
               | inr (Ready ts) =>
                   mkSystem f (spawners s) Awake (notified s) (pushed s) (delivered s ++ ts)
               | inr Pending =>
                   mkSystem f (spawners s) Asleep (notified s) (pushed s) (delivered s)
               end
      | _ => None
      end
  | GiveUp =>
      match loop s with
      | Awake => Some (mkSystem (factory s) (spawners s) Asleep true (pushed s) (delivered s))
      | _ => None
      end
  end.

Inductive reachable : system → Prop :=
  | reach_init : reachable init
  | reach_exec s a s' : reachable s → exec s a = Some s' → reachable s'.

(** Submission and polling on one thread: neither runs while the other is underway. *)
Definition spawning (s : system) : Prop := ∃ pc, pc ∈ spawners s ∧ pc ≠ SDone.
Definition polling (s : system) : Prop := ∃ pc, loop s = Polling pc.
Definition same_thread (s : system) (a : action) : Prop :=
  match a with
  | Call _ => ¬ polling s ∧ ¬ spawning s
  | Tick | Poll | GiveUp => ¬ spawning s
  | Step _ | Move => True
  end.
Inductive reachable_same_thread : system → Prop :=
  | same_init : reachable_same_thread init
  | same_exec s a s' :
      reachable_same_thread s → same_thread s a → exec s a = Some s' →
      reachable_same_thread s'.

(** * Invariants *)

(** A thread that runs alone is between the push and the store of the flag. *)
Definition announced (s : system) : Prop :=
  has_tasks (factory s) = true ∨ SStore ∈ spawners s ∨ loop s = Polling PTake.

Record inv (s : system) : Prop := {
  inv_order : pushed s = delivered s ++ tasks (factory s);
  inv_flag : tasks (factory s) ≠ [] → announced s
}.

Lemma elem_insert {A} (l : list A) i x y z :
  l !! i = Some x → z ∈ l → z ≠ x → z ∈ <[i := y]> l.
Proof.
  intros Hi [j Hj]%list_elem_of_lookup Hne. apply list_elem_of_lookup. exists j.
  rewrite list_lookup_insert_ne; [done|]. intros ->. congruence.
Qed.
Lemma elem_insert_self {A} (l : list A) i x y : l !! i = Some x → y ∈ <[i := y]> l.
Proof.
  intros Hi. apply list_elem_of_lookup. exists i. apply list_lookup_insert_eq.
  by eapply lookup_lt_Some.
Qed.

(** The flag, the announcing thread or the poll underway are as before. *)
Ltac announce Hf Hne :=
  destruct (Hf Hne) as [?|[?|?]]; unfold announced; simpl; auto; try congruence.

Lemma exec_inv s a s' : inv s → exec s a = Some s' → inv s'.
Proof.
  intros [Ho Hf] He. destruct a as [task|i| | | |]; simpl in He.
  - injection He as <-. split; [done|]. intros Hne. simpl in *.
    announce Hf Hne. right; left. apply elem_of_app. by left.
  - destruct (spawners s !! i) as [[task| | |]|] eqn:Hi; simplify_eq/=.
    + split; simpl; [by rewrite Ho, app_assoc|]. intros _. right; left. simpl.
      by eapply elem_insert_self.
    + split; [done|]. intros _. by left.
    + split; [done|]. intros Hne. simpl in *. announce Hf Hne.
      right; left. by eapply elem_insert.
    + split; [done|]. intros Hne. simpl in *. announce Hf Hne.
      right; left. by eapply elem_insert.
  - destruct (loop s) eqn:Hl; simplify_eq/=. split; [done|]. intros Hne.
    announce Hf Hne.
  - destruct (loop s) eqn:Hl; simplify_eq/=. split; [done|]. intros Hne.
    announce Hf Hne.
  - destruct (loop s) as [| |pc] eqn:Hl; [done|done|].
    destruct pc; simpl in He.
    + destruct (has_tasks (factory s)) eqn:Hh; simplify_eq/=; (split; [done|]); intros Hne;
        [by right; right|]. announce Hf Hne.
    + destruct (tasks (factory s)) as [|t ts] eqn:Ht; simplify_eq/=; (split; [|done]);
        [by rewrite Ho|by rewrite Ho, app_nil_r].
    + simplify_eq/=. split; [done|]. intros Hne. simpl in *.
      announce Hf Hne.
  - destruct (loop s) eqn:Hl; simplify_eq/=. split; [done|]. intros Hne.
    announce Hf Hne.
Qed.

Lemma reachable_inv s : reachable s → inv s.
Proof. induction 1; [by split|by eapply exec_inv]. Qed.
Lemma same_thread_reachable s : reachable_same_thread s → reachable s.
Proof. induction 1; [constructor|by econstructor]. Qed.

Lemma exec_spawning s a s' :
  exec s a = Some s' → spawning s' → spawning s ∨ ∃ task, a = Call task.
Proof.
  intros He (pc & Hin & Hne). destruct a as [task|i| | | |]; simpl in He; [by eauto|..].
  - left. destruct (spawners s !! i) as [pc0|] eqn:Hi; [|done]. simpl in He.
    destruct (decide (pc0 = SDone)) as [->|Hpc0].
    + simplify_eq/=. rewrite list_insert_id in Hin by done. by exists pc.
    + exists pc0. split; [|done]. by eapply list_elem_of_lookup_2.
  - left. destruct (loop s); simplify_eq/=. by exists pc.
  - left. destruct (loop s); simplify_eq/=. by exists pc.
  - left. destruct (loop s) as [| |pc0]; [done..|].
    destruct (poll_step (factory s) pc0) as [f [?|[?|]]]; simplify_eq/=; by exists pc.
  - left. destruct (loop s); simplify_eq/=. by exists pc.
Qed.

(** On one thread: no submission is underway while the loop polls, the poll registers only
    when there is nothing, and a sleeping loop was woken or will be. *)
Record inv_same (s : system) : Prop := {
  same_quiet : polling s → ¬ spawning s;
  same_empty : loop s = Polling PRegister → tasks (factory s) = [];
  same_asleep : loop s = Asleep → notified s = true ∨
    (registered (factory s) = true ∧ (tasks (factory s) = [] ∨ spawning s))
}.

Lemma spawning_insert s i pc pc' :
  spawners s !! i = Some pc → pc' ≠ SDone →
  ∃ pc, pc ∈ <[i := pc']> (spawners s) ∧ pc ≠ SDone.
Proof. intros. exists pc'. split; [by eapply elem_insert_self|done]. Qed.

Lemma step_inv_same s i s' : inv_same s → exec s (Step i) = Some s' → inv_same s'.
Proof.
  intros [Hq He Ha] Hx. simpl in Hx. destruct (spawners s !! i) as [pc|] eqn:Hi; [|done].
  simpl in Hx. destruct (decide (pc = SDone)) as [->|Hpc].
  { simplify_eq/=. rewrite list_insert_id, orb_false_r by done.
    split; [exact Hq|exact He|exact Ha]. }
  assert (spawning s) as Hs by (exists pc; split; [by eapply list_elem_of_lookup_2|done]).
  assert (¬ polling s) as Hp by tauto.
  destruct pc; simplify_eq/=; (split; simpl; [done|intros Hl; destruct Hp; by eexists|]);
    intros Hl; rewrite ?orb_false_r.
  - destruct (Ha Hl) as [?|[? _]]; [by left|right]. split; [done|right].
    by eapply spawning_insert.
  - destruct (Ha Hl) as [?|[? _]]; [by left|right]. split; [done|right].
    by eapply spawning_insert.
  - left. destruct (Ha Hl) as [->|[-> _]]; [done|apply orb_true_r].
Qed.

Lemma exec_inv_same s a s' :
  inv s → inv_same s → same_thread s a → exec s a = Some s' → inv_same s'.
Proof.
  intros [_ Hf] I Hst Hx. pose proof I as [Hq He Ha].
  destruct a as [task|i| | | |]; [|by eapply step_inv_same|simpl in Hx, Hst..].
  - simpl in Hx. injection Hx as <-. destruct Hst as [Hp _].
    split; simpl; [done|intros Hl; destruct Hp; by eexists|]. intros Hl.
    destruct (Ha Hl) as [?|[? [?|(pc & Hpc & ?)]]]; [by left|right; by auto|right].
    split; [done|right]. exists pc. split; [apply elem_of_app; by left|done].
  - destruct (loop s); simplify_eq/=. split; [by intros []|done|done].
  - destruct (loop s); simplify_eq/=. by split.
  - destruct (loop s) as [| |pc] eqn:Hl; [done|done|].
    assert (¬ spawning s) as Hns by (apply Hq; by eexists).
    destruct pc; simpl in Hx.
    + destruct (has_tasks (factory s)) eqn:Hh; simplify_eq/=; (split; [done| |done]);
        [done|]. intros _. simpl. destruct (tasks (factory s)) as [|t ts] eqn:Ht; [done|].
      destruct Hf as [?|[?|?]]; [done|congruence| |congruence].
      destruct Hns. by exists SStore.
    + destruct (tasks (factory s)) as [|t ts] eqn:Ht; simplify_eq/=;
        (split; [done|done|done]).
    + simplify_eq/=. split; [by intros []|done|]. intros _. right. simpl. auto.
  - destruct (loop s); simplify_eq/=. split; [by intros []|done|]. by left.
Qed.

Lemma same_thread_inv s : reachable_same_thread s → inv_same s.
Proof.
  induction 1; [split; [by intros []|done|by left]|].
  eapply exec_inv_same; [by apply reachable_inv, same_thread_reachable|done..].
Qed.

(** A sequence of actions. *)
Fixpoint run (s : system) (l : list action) : option system :=
  match l with [] => Some s | a :: l => s ← exec s a; run s l end.
Lemma run_reachable s l s' : reachable s → run s l = Some s' → reachable s'.
Proof.
  revert s. induction l as [|a l IH]; intros s Hr Hl; simpl in Hl; [by simplify_eq|].
  destruct (exec s a) as [s1|] eqn:Ha; [|done]. eapply IH; [|exact Hl]. by econstructor.
Qed.

(** A submission between the two steps of a poll that finds nothing. *)
Definition race : list action :=
  [Tick; Poll; Move; Call 7; Step 0; Step 0; Step 0; Move].

Definition lost_task : system :=
  mkSystem (mkFactory [7%Z] true true) [SDone] Asleep false [7%Z] [].

(** * Properties *)

(** However submissions from any number of threads interleave with polls, tasks are
    handed to the event loop once each, in the order in which they entered the queue; and
    when no submission is underway and no poll is, the flag tells whether tasks are queued
    or was left set for nothing, and the next poll hands over all of them. *)
Lemma tasks_in_order s :
  reachable s →
  pushed s = delivered s ++ tasks (factory s) ∧
  (¬ spawning s → ¬ polling s → tasks (factory s) ≠ [] →
   has_pending_tasks (factory s) = true ∧
   ∃ f, poll_inner (factory s) = Ret (f, Ready (tasks (factory s)))).
Proof.
  intros Hr. destruct (reachable_inv s Hr) as [Ho Hf]. split; [done|].
  intros Hns Hnp Hne. destruct (Hf Hne) as [Hh|[?|?]].
  - split; [done|]. unfold poll_inner. simpl. rewrite Hh. simpl.
    destruct (tasks (factory s)); [done|]. by eexists.
  - destruct Hns. by exists SStore.
  - destruct Hnp. by eexists.
Qed.

(** When everything happens on one thread, an event loop that went to sleep with tasks
    in the queue was woken.  Across threads it need not be: [poll_inner] registers the
    waker after it found the flag unset, and a submission in between finds no waker; the
    task then waits until something else wakes the event loop. *)
Lemma task_wakeups :
  (∀ s, reachable_same_thread s → loop s = Asleep → ¬ spawning s →
     tasks (factory s) ≠ [] → notified s = true) ∧
  (∃ s, reachable s ∧ loop s = Asleep ∧ ¬ spawning s ∧
     tasks (factory s) ≠ [] ∧ notified s = false).
Proof.
  split.
  - intros s Hr Hl Hns Hne. destruct (same_thread_inv s Hr) as [_ _ Ha].
    destruct (Ha Hl) as [?|[_ [?|?]]]; done.
  - exists lost_task. split; [by apply (run_reachable init race); [constructor|]|].
    split; [done|]. split; [|done]. by intros (pc & ->%list_elem_of_singleton & ?).
Qed.

(** * Witnesses *)

(** The event loop took one of two tasks. *)
Definition two_tasks : system :=
  mkSystem (mkFactory [2%Z] true false) [SDone; SDone] Awake false [1%Z; 2%Z] [1%Z].

Lemma tasks_in_order_example :
  reachable two_tasks ∧ pushed two_tasks = delivered two_tasks ++ [2%Z] ∧
  ∃ f, poll_inner (factory two_tasks) = Ret (f, Ready [2%Z]).
Proof.
  assert (reachable two_tasks) as Hr.
  { apply (run_reachable init [Call 1; Step 0; Step 0; Step 0; Tick; Poll; Move; Move;
      Call 2; Step 1; Step 1; Step 1]); [constructor|reflexivity]. }
  destruct (tasks_in_order two_tasks Hr) as [Ho Hp]. split; [exact Hr|]. split; [exact Ho|].
  apply Hp.
  - intros (pc & Hpc & Hne). simpl in Hpc. by set_unfold; destruct Hpc as [?|[?|?]].
  - by intros [pc ?].
  - discriminate.
Qed.

(** A task submitted to a sleeping loop on its own thread. *)
Lemma task_wakeups_example :
  let s := mkSystem (mkFactory [3%Z] true false) [SDone] Asleep true [3%Z] [] in
  reachable_same_thread s ∧ notified s = true.
Proof.
  intros s. assert (reachable_same_thread s) as Hr.
  { assert (Hex : ∀ s a s', reachable_same_thread s → same_thread s a → exec s a = Some s' →
      reachable_same_thread s') by (intros; by eapply same_exec).
    eapply (Hex _ (Step 0)); [eapply (Hex _ (Step 0)); [eapply (Hex _ (Step 0));
      [eapply (Hex _ (Call 3)); [eapply (Hex _ Move); [eapply (Hex _ Move);
      [eapply (Hex _ Poll); [eapply (Hex _ Tick); [constructor| |reflexivity]|
      |reflexivity]|exact I|reflexivity]|exact I|reflexivity]| |reflexivity]|exact I
      |reflexivity]|exact I|reflexivity]|exact I|reflexivity];
      simpl; try (intros (pc & ?%elem_of_nil & ?); done).
    split; [by intros [pc ?]|intros (pc & ?%elem_of_nil & ?); done]. }
  split; [exact Hr|]. destruct task_wakeups as [Hw _]. apply (Hw s Hr).
  - reflexivity.
  - intros (pc & Hpc & Hne). simpl in Hpc. by set_unfold; destruct Hpc as [?|?].
  - discriminate.
Qed.
