(* ===== verification/Stats.v ===== *)
(** [core/runtime/stats.rs]: what is in flight, for the sanitizers of tests.

    [capture] asks the op driver ([OpDriver]), the resource table ([Resources]) and the
    timers ([WebTimers]); [dump] lists what one capture holds and [diff] compares two.
    Promise ids are positive, so that a [BitSet] can hold them. *)

From S2P Require Import Prelude.
From stdpp Require Import sorting.
From S2P Require Resources WebTimers Arena OpDriver.

(** * Traces *)

Inductive RuntimeActivityType := TAsyncOp | TResource | TTimer | TInterval.
Global Instance RuntimeActivityType_eq_dec : EqDecision RuntimeActivityType.
Proof. solve_decision. Defined.

Definition MAX_TYPE : nat := 4.
Definition as_index (t : RuntimeActivityType) : nat :=
  match t with TAsyncOp => 0 | TResource => 1 | TTimer => 2 | TInterval => 3 end.
Definition from_u8 (value : Z) : outcome RuntimeActivityType :=
  match value with
  | 0 => Ret TAsyncOp
  | 1 => Ret TResource
  | 2 => Ret TTimer
  | 3 => Ret TInterval
  | _ => Panic Unreachable
  end%Z.

(** A map from activities to traces for each type. *)
Abbreviation trace_table := (list (gmap Z string)).
Definition NO_TRACES : trace_table := replicate MAX_TYPE ∅.

Record RuntimeActivityTraces := mkTraces { enabled : bool; traces : trace_table }.
Definition traces_default : RuntimeActivityTraces := mkTraces false NO_TRACES.

Definition slot (t : trace_table) (ty : RuntimeActivityType) : outcome (gmap Z string) :=
  match t !! as_index ty with Some m => Ret m | None => Panic OutOfBounds end.

Definition set_enabled (t : RuntimeActivityTraces) (b : bool) : RuntimeActivityTraces :=
  mkTraces b (if b then traces t else NO_TRACES).

Definition submit (p : profile) (t : RuntimeActivityTraces) (ty : RuntimeActivityType) (id : Z)
    (trace : string) : outcome RuntimeActivityTraces :=
  _ ← debug_assert p (negb (bool_decide (ty = TInterval)));
  m ← slot (traces t) ty;
  Ret (mkTraces (enabled t) (<[as_index ty := <[id := trace]> m]> (traces t))).

Definition complete (t : RuntimeActivityTraces) (ty : RuntimeActivityType) (id : Z) :
    outcome RuntimeActivityTraces :=
  m ← slot (traces t) ty;
  Ret (mkTraces (enabled t) (<[as_index ty := delete id m]> (traces t))).

Definition is_enabled (t : RuntimeActivityTraces) : bool := enabled t.

Definition count (t : RuntimeActivityTraces) : nat := length (traces t).

(** A [BTreeMap] in the order of its keys. *)
Definition key_le (a b : Z * string) : Prop := (a.1 <= b.1)%Z.
#[global] Instance key_le_dec a b : Decision (key_le a b).
Proof. unfold key_le. apply _. Defined.
Definition entries (m : gmap Z string) : list (Z * string) :=
  merge_sort key_le (map_to_list m).

(** The calls of [f] in [get_all]. *)
Definition get_all (t : RuntimeActivityTraces) : outcome (list (RuntimeActivityType * Z * string)) :=
  let fix go (i : nat) (ms : trace_table) :=
    match ms with
    | [] => Ret []
    | m :: ms =>
        ty ← from_u8 (Z.of_nat i);
        rest ← go (S i) ms;
        Ret (map (λ e, (ty, e.1, e.2)) (entries m) ++ rest)
    end in
  go 0 (traces t).

Definition capture_traces (t : RuntimeActivityTraces) : trace_table :=
  if enabled t then traces t else NO_TRACES.

Definition get (t : RuntimeActivityTraces) (ty : RuntimeActivityType) (id : Z) : outcome (option string) :=
  m ← slot (traces t) ty; Ret (m !! id).

(** A timer has fired ([dispatch_timers]). *)
Definition timer_fired (t : RuntimeActivityTraces) (id : Z) : outcome RuntimeActivityTraces :=
  if is_enabled t then complete t TTimer id else Ret t.

(** * Captures *)

Record RuntimeActivityStatsFilter := mkFilter {
  include_timers : bool;
  include_ops : bool;
  include_resources : bool;
  op_filter : gset Z
}.
Definition filter_default : RuntimeActivityStatsFilter := mkFilter false false false ∅.
Definition filter_all : RuntimeActivityStatsFilter := mkFilter true true true ∅.
Definition with_ops f := mkFilter (include_timers f) true (include_resources f) (op_filter f).
Definition with_resources f := mkFilter (include_timers f) (include_ops f) true (op_filter f).
Definition with_timers f := mkFilter true (include_ops f) (include_resources f) (op_filter f).
Definition omit_op f (op : Z) :=
  mkFilter (include_timers f) (include_ops f) (include_resources f) ({[op]} ∪ op_filter f).
Definition filter_is_empty f : bool :=
  negb (include_ops f) && negb (include_resources f) && negb (include_timers f).

(** [RuntimeActivityStats]: ops, traces, resources, and timers with their bit in
    [repeats]. *)
Record RuntimeActivityStats := mkStats {
  ops : list OpDriver.PendingOpInfo;
  activity_traces : trace_table;
  resources : list (Z * string);
  timers : list Z;
  repeats : gset nat
}.

(** The loop over the timers. *)
Definition add_timer (acc : list Z * gset nat) (x : Z * bool * bool) : list Z * gset nat :=
  let '(timer_id, repeats, is_system_timer) := x in
  let '(ids, bits) := acc in
  if (is_system_timer : bool) then (ids, bits)
  else (ids ++ [timer_id], if (repeats : bool) then {[length ids]} ∪ bits else bits).

Section capture.
Context {Fut Res W res T : Type} `{Resources.Resource res}.

Definition capture (d : OpDriver.FuturesUnorderedDriver (Fut:=Fut) (Res:=Res) (W:=W))
    (t : Resources.ResourceTable res) (tm : WebTimers.WebTimers T)
    (traces : RuntimeActivityTraces) (f : RuntimeActivityStatsFilter) : outcome RuntimeActivityStats :=
  let resources := if include_resources f then Resources.names t else [] in
  let '(timers, repeats) :=
    if include_timers f then foldl add_timer ([], ∅) (WebTimers.iter tm) else ([], ∅) in
  '(ops, activity_traces) ←
    (if include_ops f then
       ops ← OpDriver.stats d (op_filter f); Ret (ops, capture_traces traces)
     else Ret ([], NO_TRACES));
  Ret (mkStats ops activity_traces resources timers repeats).
End capture.

(** * Reports *)

Inductive RuntimeActivity :=
  | AsyncOp (promise_id : Z) (trace : option string) (name : string)
  | Resource (rid : Z) (trace : option string) (name : string)
  | Timer (id : Z) (trace : option string)
  | Interval (id : Z) (trace : option string).

Definition activity (a : RuntimeActivity) : RuntimeActivityType :=
  match a with
  | AsyncOp _ _ _ => TAsyncOp
  | Resource _ _ _ => TResource
  | Timer _ _ => TTimer
  | Interval _ _ => TInterval
  end.

Section reports.
Context (p : profile) (op_ctxs : list string).  (** the names of the ops *)
Implicit Types (s : RuntimeActivityStats).

Definition trace_for s (ty : RuntimeActivityType) (id : Z) : outcome (option string) :=
  _ ← debug_assert p (negb (bool_decide (ty = TInterval)));
  m ← slot (activity_traces s) ty;
  Ret (m !! id).

Definition op_name (op : OpDriver.PendingOpInfo) : outcome string :=
  match op_ctxs !! Z.to_nat (OpDriver.op_id op) with Some n => Ret n | None => Panic OutOfBounds end.

Definition report_op s (op : OpDriver.PendingOpInfo) : outcome RuntimeActivity :=
  trace ← trace_for s TAsyncOp (OpDriver.promise_id op);
  name ← op_name op;
  Ret (AsyncOp (OpDriver.promise_id op) trace name).
Definition report_resource (r : Z * string) : outcome RuntimeActivity := Ret (Resource r.1 None r.2).
Definition report_timer s (x : nat * Z) : outcome RuntimeActivity :=
  trace ← trace_for s TTimer x.2;
  Ret (if bool_decide (x.1 ∈ repeats s) then Interval x.2 trace else Timer x.2 trace).

Fixpoint report_all {A} (f : A → outcome RuntimeActivity) (l : list A) : outcome (list RuntimeActivity) :=
  match l with [] => Ret [] | x :: l => r ← f x; rs ← report_all f l; Ret (r :: rs) end.

Definition indexed_timers s : list (nat * Z) := imap (λ i id, (i, id)) (timers s).

(** [dump]; an array of four maps is not empty, so that [has_traces] holds. *)
Definition dump s : outcome (list RuntimeActivity) :=
  a ← report_all (report_op s) (ops s);
  b ← report_all report_resource (resources s);
  c ← report_all (report_timer s) (indexed_timers s);
  Ret (a ++ b ++ c).

(** The loops over what was there before, and over what is there after. *)
Fixpoint disappear {A} (id : A → Z) (f : A → outcome RuntimeActivity) (l : list A) (a : gset Z) :
    outcome (list RuntimeActivity * gset Z) :=
  match l with
  | [] => Ret ([], a)
  | x :: l =>
      if bool_decide (id x ∈ a) then disappear id f l (a ∖ {[id x]})
      else r ← f x; '(rs, a) ← disappear id f l a; Ret (r :: rs, a)
  end.

Fixpoint appear {A} (id : A → Z) (f : A → outcome RuntimeActivity) (l : list A) (a : gset Z) :
    outcome (list RuntimeActivity) :=
  match l with
  | [] => Ret []
  | x :: l =>
      if bool_decide (id x ∈ a) then r ← f x; rs ← appear id f l a; Ret (r :: rs)
      else appear id f l a
  end.

Definition diff_part {A} (id : A → Z) (f_before f_after : A → outcome RuntimeActivity)
    (before after : list A) : outcome (list RuntimeActivity * list RuntimeActivity) :=
  '(disappeared, a) ← disappear id f_before before (list_to_set (map id after));
  appeared ← appear id f_after after a;
  Ret (appeared, disappeared).

Record RuntimeActivityDiff := mkDiff {
  appeared : list RuntimeActivity;
  disappeared : list RuntimeActivity
}.

Definition diff (before after : RuntimeActivityStats) : outcome RuntimeActivityDiff :=
  '(a1, d1) ← diff_part OpDriver.promise_id (report_op before) (report_op after) (ops before) (ops after);
  '(a2, d2) ← diff_part fst report_resource report_resource (resources before) (resources after);
  '(a3, d3) ← diff_part snd (report_timer before) (report_timer after)
                (indexed_timers before) (indexed_timers after);
  Ret (mkDiff (a1 ++ a2 ++ a3) (d1 ++ d2 ++ d3)).

Definition diff_is_empty (d : RuntimeActivityDiff) : bool :=
  bool_decide (length (appeared d) = 0) && bool_decide (length (disappeared d) = 0).
End reports.

(** * What a capture holds *)

Section facts.
Context (p : profile) (op_ctxs : list string).
Implicit Types (s : RuntimeActivityStats).

(** Ids are unique among the activities of a kind, ops have a declaration. *)
Record stats_ok s : Prop := {
  so_traces : length (activity_traces s) = MAX_TYPE;
  so_ops : NoDup (OpDriver.promise_id <$> ops s);
  so_decl op : op ∈ ops s → (0 <= OpDriver.op_id op < Z.of_nat (length op_ctxs))%Z;
  so_resources : NoDup (resources s).*1;
  so_timers : NoDup (timers s)
}.

Lemma slot_ok t ty : length t = MAX_TYPE → ∃ m, slot t ty = Ret m ∧ t !! as_index ty = Some m.
Proof.
  intros Hl. unfold slot. destruct (lookup_lt_is_Some_2 t (as_index ty)) as [m Hm].
  - rewrite Hl. destruct ty; unfold MAX_TYPE; simpl; lia.
  - exists m. by rewrite Hm.
Qed.

Lemma report_op_ok s op : stats_ok s → op ∈ ops s → returns (report_op p op_ctxs s op).
Proof.
  intros Hs Hop. unfold report_op, trace_for, op_name. rewrite debug_assert_true by done. simpl.
  destruct (slot_ok (activity_traces s) TAsyncOp) as (m & -> & _); [apply Hs|]. simpl.
  pose proof (so_decl _ Hs op Hop).
  destruct (lookup_lt_is_Some_2 op_ctxs (Z.to_nat (OpDriver.op_id op))) as [n ->]; [lia|]. by eexists.
Qed.

Lemma report_timer_ok s x : stats_ok s → returns (report_timer p s x).
Proof.
  intros Hs. unfold report_timer, trace_for. rewrite debug_assert_true by done. simpl.
  destruct (slot_ok (activity_traces s) TTimer) as (m & -> & _); [apply Hs|]. by eexists.
Qed.

(** [rs] are the reports on [l], one each and in order. *)
Definition reports {A} (f : A → outcome RuntimeActivity) (l : list A) (rs : list RuntimeActivity) : Prop :=
  Forall2 (λ x r, f x = Ret r) l rs.

Lemma report_all_spec {A} (f : A → outcome RuntimeActivity) l :
  (∀ x, x ∈ l → returns (f x)) → ∃ rs, report_all f l = Ret rs ∧ reports f l rs.
Proof.
  induction l as [|x l IH]; intros Hf; simpl; [exists []; by split; [|constructor]|].
  destruct (Hf x) as [r Hr]; [by left|]. destruct IH as (rs & -> & Hrs); [intros y Hy; apply Hf; by right|].
  rewrite Hr. simpl. exists (r :: rs). split; [done|by constructor].
Qed.

Lemma disappear_spec {A} (id : A → Z) f l a :
  NoDup (id <$> l) → (∀ x, x ∈ l → returns (f x)) →
  ∃ rs, disappear id f l a = Ret (rs, a ∖ list_to_set (id <$> l)) ∧ reports f (filter (λ x, id x ∉ a) l) rs.
Proof.
  revert a. induction l as [|x l IH]; intros a Hn Hf.
  { exists []. simpl. split; [do 2 f_equal; set_solver|constructor]. }
  csimpl. apply NoDup_cons in Hn as [Hx Hn]. rewrite filter_cons.
  assert (∀ y, y ∈ l → returns (f y)) as Hf' by (intros y Hy; apply Hf; by right).
  case_bool_decide as Ha.
  - rewrite decide_False by tauto. destruct (IH (a ∖ {[id x]}) Hn Hf') as (rs & -> & Hrs).
    exists rs. split; [do 2 f_equal; set_solver|].
    erewrite list_filter_ext_elem; [exact Hrs|]. intros y Hy. simpl.
    assert (id y ≠ id x) by (intros He; apply Hx; rewrite <- He; by apply list_elem_of_fmap_2).
    set_solver.
  - rewrite decide_True by done. destruct (Hf x) as [r Hr]; [by left|]. rewrite Hr. simpl.
    destruct (IH a Hn Hf') as (rs & -> & Hrs). simpl. exists (r :: rs).
    split; [do 2 f_equal; set_solver|by constructor].
Qed.

Lemma appear_spec {A} (id : A → Z) f l a :
  (∀ x, x ∈ l → returns (f x)) →
  ∃ rs, appear id f l a = Ret rs ∧ reports f (filter (λ x, id x ∈ a) l) rs.
Proof.
  induction l as [|x l IH]; intros Hf; [exists []; split; [done|constructor]|].
  destruct IH as (rs & Hl & Hrs); [intros y Hy; apply Hf; by right|].
  simpl. rewrite filter_cons. case_bool_decide as Ha.
  - destruct (Hf x) as [r Hr]; [by left|]. rewrite Hr. simpl. rewrite Hl. simpl.
    rewrite decide_True by done. exists (r :: rs). split; [done|by constructor].
  - rewrite Hl, decide_False by done. by exists rs.
Qed.

Lemma diff_part_spec {A} (id : A → Z) f_before f_after before after :
  NoDup (id <$> before) → (∀ x, x ∈ before → returns (f_before x)) → (∀ x, x ∈ after → returns (f_after x)) →
  ∃ appeared disappeared, diff_part id f_before f_after before after = Ret (appeared, disappeared) ∧
    reports f_after (filter (λ x, id x ∉ id <$> before) after) appeared ∧
    reports f_before (filter (λ x, id x ∉ id <$> after) before) disappeared.
Proof.
  intros Hn Hb Ha. unfold diff_part.
  destruct (disappear_spec id f_before before (list_to_set (id <$> after)) Hn Hb) as (ds & Hds & Hd).
  change (map id after) with (id <$> after). rewrite Hds. simpl.
  destruct (appear_spec id f_after after (list_to_set (id <$> after) ∖ list_to_set (id <$> before)) Ha)
    as (rs & -> & Hr). simpl. exists rs, ds. split; [done|]. split.
  - erewrite list_filter_ext_elem; [exact Hr|]. intros x Hx. simpl.
    rewrite elem_of_difference, !elem_of_list_to_set.
    pose proof (list_elem_of_fmap_2 id after x Hx). tauto.
  - erewrite list_filter_ext_elem; [exact Hd|]. intros x Hx. simpl. by rewrite elem_of_list_to_set.
Qed.

Lemma indexed_timers_ids s : snd <$> indexed_timers s = timers s.
Proof.
  apply list_eq. intros i. unfold indexed_timers. rewrite list_lookup_fmap, list_lookup_imap.
  by destruct (timers s !! i).
Qed.
End facts.

(** ** From the parts of the runtime *)

(** The timers that scripts started, with whether they repeat. *)
Definition user_timers (l : list (Z * bool * bool)) : list (Z * bool) :=
  omap (λ x, if (x.2 : bool) then None else Some x.1) l.

Lemma add_timers_spec l acc :
  (∀ i, i ∈ acc.2 → i < length acc.1) →
  (foldl add_timer acc l).1 = acc.1 ++ (user_timers l).*1 ∧
  ∀ i, i ∈ (foldl add_timer acc l).2 ↔
    i ∈ acc.2 ∨ ∃ j id, i = length acc.1 + j ∧ user_timers l !! j = Some (id, true).
Proof.
  revert acc. induction l as [|[[id r] sys] l IH]; intros [ids bits] Hb.
  { simpl. split; [by rewrite app_nil_r|]. intros i. split; [auto|].
    intros [?|(j & id & _ & Hj)]; [done|]. by rewrite lookup_nil in Hj. }
  simpl. destruct sys; simpl; [by apply (IH (ids, bits))|].
  destruct (IH (ids ++ [id], if r then {[length ids]} ∪ bits else bits)) as [H1 H2]; simpl in *.
  { intros i. rewrite length_app. simpl. destruct r; [|intros ?%Hb; lia].
    intros [->%elem_of_singleton|?%Hb]%elem_of_union; lia. }
  split; [rewrite H1; by rewrite <- app_assoc|]. intros i. rewrite (H2 i), length_app. simpl. split.
  - intros [Hi|(j & id' & -> & Hj)].
    + destruct r; [|by left]. apply elem_of_union in Hi as [->%elem_of_singleton|?]; [right|by left].
      exists 0, id. split; [lia|done].
    + right. exists (S j), id'. split; [lia|done].
  - intros [Hi|([|j] & id' & -> & Hj)].
    + left. destruct r; [by apply elem_of_union_r|done].
    + injection Hj as <- ->. left. apply elem_of_union_l, elem_of_singleton. lia.
    + right. exists j, id'. split; [lia|done].
Qed.

Section captures.
Context {Fut Res W res T : Type} `{Resources.Resource res} (op_ctxs : list string).

(** The parts in their own invariants, with the promise ids of ops in flight unique and
    their declarations known. *)
Record parts_ok (d : OpDriver.FuturesUnorderedDriver (Fut:=Fut) (Res:=Res) (W:=W)) cs
    (tm : WebTimers.WebTimers T) (traces : RuntimeActivityTraces) : Prop := {
  po_driver : OpDriver.rep d cs;
  po_ids : NoDup (OpDriver.promise_id <$> cs.*1);
  po_decl op : op ∈ cs.*1 → (0 <= OpDriver.op_id op < Z.of_nat (length op_ctxs))%Z;
  po_timers : ∃ fired, WebTimers.inv tm fired;
  po_traces : length (Stats.traces traces) = MAX_TYPE
}.

Lemma NoDup_fmap_filter {A B} (g : A → B) (P : A → Prop) `{!∀ x, Decision (P x)} (l : list A) :
  NoDup (g <$> l) → NoDup (g <$> filter P l).
Proof.
  induction l as [|x l IH]; csimpl; [done|]. intros [Hx Hn]%NoDup_cons. rewrite filter_cons.
  case_decide; csimpl; [|by apply IH]. constructor; [|by apply IH]. intros (y & He & Hy)%list_elem_of_fmap.
  apply Hx. rewrite He. apply list_elem_of_filter in Hy as [_ Hy]. by apply list_elem_of_fmap_2.
Qed.

Lemma NoDup_user_timers l : NoDup (l.*1.*1 : list Z) → NoDup (user_timers l).*1.
Proof.
  induction l as [|[[id r] sys] l IH]; csimpl; [done|]. intros [Hx Hn]%NoDup_cons.
  destruct sys; csimpl; [by apply IH|]. constructor; [|by apply IH].
  intros Hin. apply Hx. apply list_elem_of_fmap in Hin as ([id' r'] & -> & Hin).
  unfold user_timers in Hin. apply list_elem_of_omap in Hin as ([x sys'] & Hx' & He).
  simpl in He. destruct sys'; [done|]. injection He as ->.
  apply list_elem_of_fmap. exists (id', r'). split; [done|]. apply list_elem_of_fmap. by exists (id', r', false).
Qed.

Lemma NoDup_iter (tm : WebTimers.WebTimers T) fired :
  WebTimers.inv tm fired → NoDup (WebTimers.iter tm).*1.*1.
Proof.
  intros Hi. pose proof (WebTimers.i_ids _ _ Hi) as Hn. unfold WebTimers.iter, WebTimers.ids in *.
  induction (WebTimers.timers tm) as [|k l IH]; csimpl; [done|].
  apply NoDup_cons in Hn as [Hk Hn]. destruct (WebTimers.data_map tm !! WebTimers.k_id k); csimpl; [|by apply IH].
  constructor; [|by apply IH]. intros Hin. apply Hk.
  apply list_elem_of_fmap in Hin as (x & -> & Hin). apply list_elem_of_fmap in Hin as (y & -> & Hin).
  apply list_elem_of_omap in Hin as (k' & Hk' & He). destruct (_ !! _); [|done]. injection He as <-.
  change (WebTimers.k_id k' ∈ WebTimers.k_id <$> l). by apply list_elem_of_fmap_2.
Qed.

(** A capture of everything. *)
Lemma capture_ok d cs (t : Resources.ResourceTable res) tm traces f :
  parts_ok d cs tm traces →
  ∃ s, capture d t tm traces f = Ret s ∧ stats_ok op_ctxs s ∧
    ops s = (if include_ops f then filter (λ op, OpDriver.op_id op ∉ op_filter f) cs.*1 else []) ∧
    resources s = (if include_resources f then Resources.names t else []) ∧
    timers s = (if include_timers f then (user_timers (WebTimers.iter tm)).*1 else []) ∧
    (∀ i, i ∈ repeats s ↔ include_timers f = true ∧
       ∃ id, user_timers (WebTimers.iter tm) !! i = Some (id, true)).
Proof.
  intros [Hd Hids Hdecl [fired Ht] Htr]. unfold capture.
  destruct (add_timers_spec (WebTimers.iter tm) ([], ∅)) as [H1 H2]; [set_solver|].
  rewrite (OpDriver.stats_ok _ cs) by done.
  set (tms := if include_timers f then foldl add_timer ([], ∅) (WebTimers.iter tm) else ([], ∅)).
  assert (tms.1 = (if include_timers f then (user_timers (WebTimers.iter tm)).*1 else []) ∧
    ∀ i, i ∈ tms.2 ↔ include_timers f = true ∧ ∃ id, user_timers (WebTimers.iter tm) !! i = Some (id, true))
    as [Hids' Hbits].
  { unfold tms. destruct (include_timers f); simpl; [|split; [done|set_solver]].
    split; [exact H1|]. intros i. rewrite (H2 i). simpl. set_solver. }
  destruct tms as [ids bits]. simpl in Hids', Hbits.
  assert (length (capture_traces traces) = MAX_TYPE) as Hct.
  { unfold capture_traces. destruct (enabled traces); [done|apply length_replicate]. }
  assert (NoDup ids) as Hnd.
  { rewrite Hids'. destruct (include_timers f); [|constructor].
    by apply NoDup_user_timers, (NoDup_iter _ fired). }
  assert (NoDup (if include_resources f then Resources.names t else []).*1) as Hnr.
  { destruct (include_resources f); [|constructor]. unfold Resources.names. rewrite <- list_fmap_compose.
    apply (NoDup_fst_map_to_list (Resources.index t)). }
  destruct (include_ops f); simpl; (eexists; split; [done|]; split; [split; simpl; try done|]; try done).
  - by apply NoDup_fmap_filter.
  - intros op [_ Hop]%list_elem_of_filter. by apply Hdecl.
  - constructor.
  - intros op ?%elem_of_nil. done.
Qed.
End captures.

(** * Properties *)

(** [diff] of two captures reports exactly what differs: in order, each op, resource and
    timer of the later one whose id the earlier one lacks has appeared, and the other way
    round has disappeared, each once, with its trace and its name; nothing is reported when
    the captures hold the same ids. *)
Lemma diff_exact p op_ctxs before after :
  stats_ok op_ctxs before → stats_ok op_ctxs after →
  ∃ a1 a2 a3 d1 d2 d3,
    diff p op_ctxs before after = Ret (mkDiff (a1 ++ a2 ++ a3) (d1 ++ d2 ++ d3)) ∧
    reports (report_op p op_ctxs after)
      (filter (λ op, OpDriver.promise_id op ∉ OpDriver.promise_id <$> ops before) (ops after)) a1 ∧
    reports report_resource (filter (λ r, r.1 ∉ (resources before).*1) (resources after)) a2 ∧
    reports (report_timer p after) (filter (λ x, x.2 ∉ timers before) (indexed_timers after)) a3 ∧
    reports (report_op p op_ctxs before)
      (filter (λ op, OpDriver.promise_id op ∉ OpDriver.promise_id <$> ops after) (ops before)) d1 ∧
    reports report_resource (filter (λ r, r.1 ∉ (resources after).*1) (resources before)) d2 ∧
    reports (report_timer p before) (filter (λ x, x.2 ∉ timers after) (indexed_timers before)) d3.
Proof.
  intros Hb Ha. unfold diff.
  destruct (diff_part_spec OpDriver.promise_id (report_op p op_ctxs before) (report_op p op_ctxs after)
    (ops before) (ops after)) as (a1 & d1 & -> & ? & ?).
  { apply Hb. } { intros op. by apply report_op_ok. } { intros op. by apply report_op_ok. }
  destruct (diff_part_spec fst report_resource report_resource (resources before) (resources after))
    as (a2 & d2 & -> & ? & ?).
  { apply Hb. } { intros r _. by eexists. } { intros r _. by eexists. }
  destruct (diff_part_spec snd (report_timer p before) (report_timer p after)
    (indexed_timers before) (indexed_timers after)) as (a3 & d3 & -> & ? & ?).
  { rewrite indexed_timers_ids. apply Hb. }
  { intros x _. by apply (report_timer_ok p op_ctxs). } { intros x _. by apply (report_timer_ok p op_ctxs). }
  simpl. rewrite !indexed_timers_ids in *. by exists a1, a2, a3, d1, d2, d3.
Qed.

(** Traces: [count] is the number of types; a trace is recorded when tracing is off, and an
    interval loses its trace when it fires for the first time; captures without ops have no
    traces of timers. *)
Lemma stats_gaps :
  (∀ t, length (traces t) = MAX_TYPE → count t = 4) ∧
  (∃ t, submit Debug traces_default TAsyncOp 1 "await" = Ret t ∧ get t TAsyncOp 1 = Ret (Some "await")) ∧
  (∃ t t', submit Debug (set_enabled traces_default true) TTimer 1 "setInterval" = Ret t ∧
     timer_fired t 1 = Ret t' ∧ get t' TTimer 1 = Ret None) ∧
  (∀ p, submit p traces_default TInterval 1 "setInterval" = Panic DebugAssert ↔ p = Debug).
Proof.
  split; [done|]. split; [by eexists|]. split; [by eexists _, _|].
  intros []; split; (done || by intros [=]).
Qed.

(** ** A concrete comparison *)

Definition demo_before : RuntimeActivityStats :=
  mkStats [OpDriver.mkInfo 1 0; OpDriver.mkInfo 2 1] NO_TRACES [(3%Z, "tcp")] [5%Z] {[0]}.
Definition demo_after : RuntimeActivityStats :=
  mkStats [OpDriver.mkInfo 2 1] NO_TRACES [(3%Z, "tcp"); (4%Z, "file")] [] ∅.

Lemma diff_exact_example :
  stats_ok ["op_read"; "op_sleep"] demo_before ∧ stats_ok ["op_read"; "op_sleep"] demo_after ∧
  diff Debug ["op_read"; "op_sleep"] demo_before demo_after =
    Ret (mkDiff [Resource 4 None "file"] [AsyncOp 1 None "op_read"; Interval 5 None]) ∧
  ∃ d, diff Debug ["op_read"; "op_sleep"] demo_before demo_after = Ret d.
Proof.
  assert (stats_ok ["op_read"; "op_sleep"] demo_before) as Hb.
  { split; [reflexivity|..|apply NoDup_singleton|apply NoDup_singleton].
    - apply (bool_decide_unpack _). reflexivity.
    - intros op [->|[->|[]%elem_of_nil]%elem_of_cons]%elem_of_cons; simpl; lia. }
  assert (stats_ok ["op_read"; "op_sleep"] demo_after) as Ha.
  { split; [reflexivity|apply NoDup_singleton|..|constructor].
    - intros op [->|[]%elem_of_nil]%elem_of_cons; simpl; lia.
    - apply (bool_decide_unpack _). reflexivity. }
  split; [exact Hb|]. split; [exact Ha|]. split; [reflexivity|].
  destruct (diff_exact Debug _ demo_before demo_after Hb Ha)
    as (a1 & a2 & a3 & d1 & d2 & d3 & He & _).
  eexists. exact He.
Qed.
