(* ===== verification/EventLoop.v ===== *)
(** [core/runtime/jsruntime.rs] (the tick of the event loop), [core/event_loop.rs] and
    the queues of [core/runtime/exception_state.rs].

    A tick is a program over the state that Rust keeps and over [event]s: the calls into
    V8, into the embedder and into the other parts of the runtime.  What an event does
    is a parameter ([handle]); it may change the state in any way.  The events and their
    answers are logged, so that orders can be stated.  Not modelled: activity traces,
    and the pointer to the V8 context that libuv callbacks read. *)

From S2P Require Import Prelude.

Local Open Scope Z_scope.

(** * Events and state *)

Section event.
Context {X : Type}.  (** errors *)

(** An event with the type of its answer. JavaScript values, callbacks, promises and
    tasks are known by identity. *)
Inductive event : Type → Type :=
  | RegisterWaker : event unit
  | Wake : event unit
  | PollSessions : event unit
  | PumpMessageLoop : event (result unit X)
  | Microtasks : event unit
  | UvRunTimers : event unit
  | UvSetWaker : event unit
  | UvRunIo : event bool
  | UvRunIdle : event unit
  | UvRunPrepare : event unit
  | UvRunCheck : event unit
  | UvRunClose : event unit
  | PollTimers : event (poll (list (Z * Z)))
  | TakeFiredTimer (timer_id timer_type : Z) : event (option (Z * Z))
  | SetTimerDepth (depth : Z) : event unit
  | CallTimer (callback : Z) : event (option Z)
  | ReportException (exception : Z) : event unit
  | DrainNextTickAndMacrotasks (has_tick : bool) : event (option X)
  | PollProgress : event (result unit X)
  | PollTasks : event (poll (list Z))
  | RunTask (task : Z) : event unit
  | PollOps : event (poll (Z * Z * result Z Z))
  | OpMetrics (op_id : Z) (ok : bool) : event unit
  | ResolveOps (args : list (Z * bool * Z)) : event (option X)
  | Terminated : event bool
  | RunImmediates : event (option X)
  | HandledRejection (promise value : Z) : event unit
  | HandleRejections (args : list (Z * Z * Z)) : event (option X)
  | CloseCallback (callback : Z) : event unit
  | ExceptionCondition : event (result unit X)
  | ContextDestroyed : event unit
  | WaitForInspectorDisconnect : event unit
  | StalledTopLevelAwait : event (list X).
End event.
Arguments event : clear implicits.

(** What the tick reads; [world] is the rest. *)
Record state (J : Type) := mkState {
  has_inspector : bool;
  has_active : bool;
  has_blocking : bool;
  has_nonblocking_wait_for_disconnect : bool;
  uv_loop : bool;
  uv_alive : bool;
  next_tick_scheduled : bool;
  report_exception_cb : bool;
  immediates_outstanding : bool;
  immediates_ref_count : Z;
  op_metrics : list bool;  (** one per op: are its metrics enabled *)
  unrefed_ops : gset Z;
  num_pending_ops : nat;
  pending_tasks : bool;
  timers_empty : bool;
  refed_timers : bool;
  pending_dyn_imports : bool;
  pending_dyn_module_evaluation : bool;
  pending_module_evaluation : bool;
  pending_background_tasks : bool;
  pending_external_ops : bool;
  dyn_module_evaluate_idle_counter : Z;
  dispatched_exception : bool;
  pending_promise_rejections : list (Z * Z * Z);
  pending_handled_promise_rejections : list (Z * Z);
  handled_promise_rejection_cb : bool;
  close_callbacks : list Z;
  world : J
}.
Arguments mkState {J} _ _ _ _ _ _ _ _ _ _ _ _ _ _ _ _ _ _ _ _ _ _ _ _ _ _ _ _.
Arguments has_inspector {J} _.
Arguments has_active {J} _.
Arguments has_blocking {J} _.
Arguments has_nonblocking_wait_for_disconnect {J} _.
Arguments uv_loop {J} _.
Arguments uv_alive {J} _.
Arguments next_tick_scheduled {J} _.
Arguments report_exception_cb {J} _.
Arguments immediates_outstanding {J} _.
Arguments immediates_ref_count {J} _.
Arguments op_metrics {J} _.
Arguments unrefed_ops {J} _.
Arguments num_pending_ops {J} _.
Arguments pending_tasks {J} _.
Arguments timers_empty {J} _.
Arguments refed_timers {J} _.
Arguments pending_dyn_imports {J} _.
Arguments pending_dyn_module_evaluation {J} _.
Arguments pending_module_evaluation {J} _.
Arguments pending_background_tasks {J} _.
Arguments pending_external_ops {J} _.
Arguments dyn_module_evaluate_idle_counter {J} _.
Arguments dispatched_exception {J} _.
Arguments pending_promise_rejections {J} _.
Arguments pending_handled_promise_rejections {J} _.
Arguments handled_promise_rejection_cb {J} _.
Arguments close_callbacks {J} _.
Arguments world {J} _.

Section setters.
Context {J : Type}.
Implicit Types (s : state J).

(** The parts of the state that the tick writes. *)
Definition with_queues s (idle : Z) (unrefed : gset Z) (rejections : list (Z * Z * Z))
    (handled : list (Z * Z)) (close : list Z) : state J :=
  mkState (has_inspector s) (has_active s) (has_blocking s)
    (has_nonblocking_wait_for_disconnect s) (uv_loop s) (uv_alive s) (next_tick_scheduled s)
    (report_exception_cb s) (immediates_outstanding s) (immediates_ref_count s) (op_metrics s)
    unrefed (num_pending_ops s) (pending_tasks s) (timers_empty s) (refed_timers s)
    (pending_dyn_imports s) (pending_dyn_module_evaluation s) (pending_module_evaluation s)
    (pending_background_tasks s) (pending_external_ops s) idle (dispatched_exception s)
    rejections handled (handled_promise_rejection_cb s) close (world s).

Definition set_unrefed s u := with_queues s (dyn_module_evaluate_idle_counter s) u
  (pending_promise_rejections s) (pending_handled_promise_rejections s) (close_callbacks s).
Definition set_rejections s r := with_queues s (dyn_module_evaluate_idle_counter s)
  (unrefed_ops s) r (pending_handled_promise_rejections s) (close_callbacks s).
Definition set_handled s h := with_queues s (dyn_module_evaluate_idle_counter s)
  (unrefed_ops s) (pending_promise_rejections s) h (close_callbacks s).
Definition set_close s c := with_queues s (dyn_module_evaluate_idle_counter s)
  (unrefed_ops s) (pending_promise_rejections s) (pending_handled_promise_rejections s) c.
Definition set_idle s n := with_queues s n (unrefed_ops s) (pending_promise_rejections s)
  (pending_handled_promise_rejections s) (close_callbacks s).
End setters.

(** * Programs *)

Record tag (X : Type) := Tag { tag_type : Type; tag_event : event X tag_type; tag_answer : tag_type }.
Arguments Tag {X} _ _ _.
Arguments tag_type {X} _.
Arguments tag_event {X} _.
Arguments tag_answer {X} _.

Record machine (J X : Type) := mkMachine { st : state J; log : list (tag X) }.
Arguments mkMachine {J X} _ _.
Arguments st {J X} _.
Arguments log {J X} _.

(** A program may panic, or return early with an error. *)
Definition prog (J X A : Type) : Type := machine J X → outcome (result A X * machine J X).

Global Instance prog_ret {J X} : MRet (prog J X) := λ A a w, Ret (Ok a, w).
Global Instance prog_bind {J X} : MBind (prog J X) := λ A B k f w,
  '(r, w) ← f w;
  match r with Ok a => k a w | Err e => Ret (Err e, w) end.

Section loop.
Context {J X : Type} (handle : ∀ A, event X A → state J → A * state J).

Abbreviation M := (prog J X).

Definition vis {A} (e : event X A) : M A := λ w,
  let '(a, s) := handle A e (st w) in Ret (Ok a, mkMachine s (log w ++ [Tag A e a])).
Definition get : M (state J) := λ w, Ret (Ok (st w), w).
Definition put (s : state J) : M unit := λ w, Ret (Ok tt, mkMachine s (log w)).
Definition throw {A} (e : X) : M A := λ w, Ret (Err e, w).
Definition panic {A} (f : fault) : M A := λ w, Panic f.
Definition when (b : bool) (f : M unit) : M unit := if b then f else mret tt.

(** An exception that a call left behind, and a result, end the tick. *)
Definition vis_exn (e : event X (option X)) : M unit :=
  o ← vis e; match o with Some x => throw x | None => mret tt end.
Definition vis_try (e : event X (result unit X)) : M unit :=
  r ← vis e; match r with Err x => throw x | Ok _ => mret tt end.
(** [if let Some(uv_inner_ptr) = context_state.uv_loop_inner.get()]. *)
Definition with_uv (f : M unit) : M unit := s ← get; when (uv_loop s) f.

(** ** The phases *)

Fixpoint fire_timers (expired : list (Z * Z)) : M unit :=
  match expired with
  | [] => mret tt
  | (timer_id, timer_type) :: expired =>
      o ← vis (TakeFiredTimer timer_id timer_type);
      match o with
      | None => fire_timers expired
      | Some (callback, depth) =>
          _ ← vis (SetTimerDepth depth);
          exception ← vis (CallTimer callback);
          _ ← match exception with
              | None => mret tt
              | Some e => s ← get; when (report_exception_cb s) (vis (ReportException e))
              end;
          _ ← vis Microtasks;
          s ← get;
          _ ← vis (DrainNextTickAndMacrotasks (next_tick_scheduled s));
          _ ← vis Microtasks;
          fire_timers expired
      end
  end.

Definition dispatch_timers : M bool :=
  r ← vis PollTimers;
  match r with
  | Pending | Ready [] => mret false
  | Ready expired =>
      _ ← fire_timers expired;
      _ ← vis (SetTimerDepth 0);
      mret true
  end.

Fixpoint run_tasks (tasks : list Z) : M unit :=
  match tasks with
  | [] => mret tt
  | task :: tasks => _ ← vis (RunTask task); run_tasks tasks
  end.

(** [retries]: rounds that may follow this one. *)
Fixpoint task_loop (retries : nat) : M bool :=
  r ← vis PollTasks;
  match r with
  | Pending => mret false
  | Ready tasks =>
      _ ← run_tasks tasks;
      _ ← vis Microtasks;
      match retries with
      | O => _ ← vis Wake; mret true
      | S retries => _ ← task_loop retries; mret true
      end
  end.

Definition dispatch_task_spawner : M bool := task_loop 2.

Definition MAX_VEC_SIZE_FOR_OPS : Z := 1024.

(** Three arguments are pushed for each op. *)
Fixpoint op_loop (fuel : nat) (args : list (Z * bool * Z)) : M (list (Z * bool * Z)) :=
  if decide (3 * zlen args >= MAX_VEC_SIZE_FOR_OPS) then _ ← vis Wake; mret args
  else match fuel with
       | O => panic OutOfFuel
       | S fuel =>
           r ← vis PollOps;
           match r with
           | Pending => mret args
           | Ready (promise_id, op_id, res) =>
               s ← get;
               match op_metrics s !! Z.to_nat op_id with
               | None => panic OutOfBounds
               | Some metrics_enabled =>
                   let is_ok := match res with Ok _ => true | Err _ => false end in
                   _ ← when metrics_enabled (vis (OpMetrics op_id is_ok));
                   s ← get;
                   _ ← put (set_unrefed s (unrefed_ops s ∖ {[promise_id]}));
                   op_loop fuel
                     (args ++ [(promise_id, is_ok, match res with Ok v => v | Err v => v end)])
               end
           end
       end.

Definition dispatch_pending_ops : M bool :=
  args ← op_loop 343 [];
  match args with
  | [] => mret false
  | _ =>
      _ ← vis_exn (ResolveOps args);
      terminated ← vis Terminated;
      mret (negb terminated)
  end.

Definition drain_next_tick_and_macrotasks : M unit :=
  s ← get; vis_exn (DrainNextTickAndMacrotasks (next_tick_scheduled s)).

Definition do_js_run_immediate_callbacks : M unit := vis_exn RunImmediates.

Fixpoint handled_loop (fuel : nat) : M unit :=
  match fuel with
  | O => panic OutOfFuel
  | S fuel =>
      s ← get;
      match pending_handled_promise_rejections s with
      | [] => mret tt
      | (promise, result) :: rest =>
          _ ← put (set_handled s rest);
          _ ← when (handled_promise_rejection_cb s) (vis (HandledRejection promise result));
          handled_loop fuel
      end
  end.

Definition dispatch_rejections (fuel : nat) : M unit :=
  _ ← handled_loop fuel;
  s ← get;
  match pending_promise_rejections s with
  | [] => mret tt
  | rejections =>
      _ ← put (set_rejections s []);
      vis_exn (HandleRejections rejections)
  end.

(** At most [spins] rounds of I/O; did any of them do something? *)
Fixpoint io_loop (spins : nat) : M bool :=
  match spins with
  | O => mret false
  | S spins =>
      did_io ← vis UvRunIo;
      if (did_io : bool) then
        _ ← vis Microtasks;
        _ ← drain_next_tick_and_macrotasks;
        _ ← vis Microtasks;
        _ ← io_loop spins;
        mret true
      else mret false
  end.

Definition run_io_phase : M bool :=
  s ← get;
  if uv_loop s then _ ← vis UvSetWaker; io_loop 8 else mret false.

Definition check_exception_condition : M unit :=
  s ← get; when (dispatched_exception s) (vis_try ExceptionCondition).

(** [EventLoopPhases::run_close_callbacks].  The queue is mutably borrowed meanwhile, so
    a callback cannot add to it (it would panic); here it may. *)
Fixpoint run_close_callbacks (fuel : nat) : M unit :=
  match fuel with
  | O => panic OutOfFuel
  | S fuel =>
      s ← get;
      match close_callbacks s with
      | [] => mret tt
      | cb :: rest => _ ← put (set_close s rest); _ ← vis (CloseCallback cb); run_close_callbacks fuel
      end
  end.

(** ** What is pending *)

Record EventLoopPendingState := mkPending {
  has_pending_ops : bool;
  has_pending_refed_ops : bool;
  has_pending_dyn_imports : bool;
  has_pending_dyn_module_evaluation : bool;
  has_pending_module_evaluation : bool;
  has_pending_background_tasks : bool;
  has_tick_scheduled : bool;
  has_pending_promise_events : bool;
  has_pending_external_ops : bool;
  has_outstanding_immediates : bool;
  has_refed_immediates : Z;
  has_uv_alive_handles : bool
}.

Definition nonempty {A} (l : list A) : bool := match l with [] => false | _ => true end.

Definition pending_state (s : state J) : EventLoopPendingState :=
  let num_unrefed_ops := size (unrefed_ops s) in
  let refed := pending_tasks s || refed_timers s
               || bool_decide (num_unrefed_ops < num_pending_ops s)%nat in
  mkPending
    (refed || negb (timers_empty s) || bool_decide (0 < num_pending_ops s)%nat)
    refed
    (pending_dyn_imports s) (pending_dyn_module_evaluation s) (pending_module_evaluation s)
    (pending_background_tasks s) (next_tick_scheduled s)
    (nonempty (pending_promise_rejections s) || nonempty (pending_handled_promise_rejections s))
    (pending_external_ops s) (immediates_outstanding s) (immediates_ref_count s)
    (uv_loop s && uv_alive s).

Definition is_pending (p : EventLoopPendingState) : bool :=
  has_pending_refed_ops p || has_pending_dyn_imports p || has_pending_dyn_module_evaluation p
  || has_pending_module_evaluation p || has_pending_background_tasks p || has_tick_scheduled p
  || bool_decide (0 < has_refed_immediates p) || has_pending_promise_events p
  || has_pending_external_ops p || has_uv_alive_handles p.

(** The re-wake logic. *)
Definition must_wake (p : EventLoopPendingState) (uv_did_io dispatched_ops : bool) : bool :=
  (has_pending_background_tasks p || has_tick_scheduled p || has_outstanding_immediates p
   || bool_decide (0 < has_refed_immediates p) || has_pending_promise_events p || uv_did_io)
  || ((has_pending_module_evaluation p || has_pending_dyn_module_evaluation p)
      && dispatched_ops).

Definition module_progress (p : EventLoopPendingState) : bool :=
  has_pending_ops p || has_pending_dyn_imports p || has_pending_dyn_module_evaluation p
  || has_pending_background_tasks p || has_pending_external_ops p || has_tick_scheduled p
  || bool_decide (0 < has_refed_immediates p).
Definition dyn_module_progress (p : EventLoopPendingState) : bool :=
  has_pending_ops p || has_pending_dyn_imports p
  || has_pending_background_tasks p || has_pending_external_ops p || has_tick_scheduled p
  || bool_decide (0 < has_refed_immediates p).

(** [find_and_report_stalled_level_await_in_any_realm]. *)
Definition stalled : M (poll unit) :=
  messages ← vis StalledTopLevelAwait;
  match messages with m :: _ => throw m | [] => panic Unreachable end.

Record PollEventLoopOptions := mkOptions {
  wait_for_inspector : bool;
  pump_v8_message_loop : bool
}.

(** The end of a tick that has nothing pending. *)
Definition finish (opts : PollEventLoopOptions) (inspected : bool) : M (poll unit) :=
  s ← get;
  if inspected && wait_for_inspector opts && has_active s then
    if has_blocking s then mret Pending
    else if has_nonblocking_wait_for_disconnect s then
      _ ← vis ContextDestroyed;
      _ ← vis WaitForInspectorDisconnect;
      mret Pending
    else mret (Ready tt)
  else mret (Ready tt).

(** The end of a tick that has something pending. *)
Definition stay (p : EventLoopPendingState) (did_work dispatched_ops uv_did_io : bool) :
    M (poll unit) :=
  _ ← when (negb did_work && negb dispatched_ops && bool_decide (0 < has_refed_immediates p))
        (_ ← do_js_run_immediate_callbacks; vis Microtasks);
  _ ← when (must_wake p uv_did_io dispatched_ops) (vis Wake);
  if has_pending_module_evaluation p && negb (module_progress p) then stalled
  else if has_pending_dyn_module_evaluation p && negb (dyn_module_progress p) then
    s ← get;
    if decide (dyn_module_evaluate_idle_counter s > 1) then stalled
    else
      _ ← put (set_idle s (dyn_module_evaluate_idle_counter s + 1));
      _ ← vis Wake;
      mret Pending
  else mret Pending.

(** ** The tick *)

(** Timers: libuv's, then the runtime's. *)
Definition timer_phase : M bool :=
  _ ← with_uv (vis UvRunTimers);
  did_work ← dispatch_timers;
  _ ← vis Microtasks;
  mret did_work.

(** Pending work; the answer is [dispatched_ops]. *)
Definition work_phase (fuel : nat) (did_work : bool) : M bool :=
  _ ← vis_try PollProgress;
  tasks ← dispatch_task_spawner;
  ops ← dispatch_pending_ops;
  s ← get;
  let has_tick := next_tick_scheduled s in
  let dispatched_ops := tasks || ops || has_tick in
  _ ← when (dispatched_ops || did_work || has_tick) drain_next_tick_and_macrotasks;
  s ← get;
  _ ← when ((did_work || dispatched_ops) && bool_decide (0 < immediates_ref_count s))
        do_js_run_immediate_callbacks;
  _ ← dispatch_rejections fuel;
  _ ← vis Microtasks;
  mret dispatched_ops.

Definition idle_phase : M unit :=
  _ ← with_uv (_ ← vis UvRunIdle; vis UvRunPrepare);
  vis Microtasks.
Definition check_phase : M unit :=
  _ ← with_uv (vis UvRunCheck);
  vis Microtasks.
Definition close_phase (fuel : nat) : M unit :=
  _ ← check_exception_condition;
  _ ← run_close_callbacks fuel;
  _ ← with_uv (vis UvRunClose);
  vis Microtasks.

(** The waker, the inspector, the message loop, and the six phases. *)
Definition phases (fuel : nat) (opts : PollEventLoopOptions) (inspected : bool) : M (bool * bool * bool) :=
  _ ← vis RegisterWaker;
  _ ← when inspected (vis PollSessions);
  _ ← when (pump_v8_message_loop opts) (vis_try PumpMessageLoop);
  did_work ← timer_phase;
  dispatched_ops ← work_phase fuel did_work;
  uv_did_io ← run_io_phase;
  _ ← idle_phase;
  _ ← check_phase;
  _ ← close_phase fuel;
  mret (did_work, dispatched_ops, uv_did_io).

(** [poll_event_loop_inner]. *)
Definition tick (fuel : nat) (opts : PollEventLoopOptions) : M (poll unit) :=
  s ← get;
  let inspected := has_inspector s in
  '(did_work, dispatched_ops, uv_did_io) ← phases fuel opts inspected;
  s ← get;
  let p := pending_state s in
  if is_pending p then stay p did_work dispatched_ops uv_did_io
  else finish opts inspected.

(** * Traces

    [runs f P]: whatever the events answer, a run of [f] that does not panic only appends
    to the log, and what it appended satisfies [P], with the result and the states before
    and after. *)

Definition post (A : Type) := state J → result A X → list (tag X) → state J → Prop.

Definition runs {A} (f : M A) (P : post A) : Prop :=
  ∀ w r w', f w = Ret (r, w') →
    ∃ l, log w' = log w ++ l ∧ P (st w) r l (st w').

Lemma runs_conseq {A} (f : M A) (P Q : post A) :
  runs f P → (∀ s r l s', P s r l s' → Q s r l s') → runs f Q.
Proof. intros Hf HPQ w r w' Hr. destruct (Hf w r w' Hr) as (l & ? & ?). eauto. Qed.

Lemma runs_and {A} (f : M A) (P Q : post A) :
  runs f P → runs f Q → runs f (λ s r l s', P s r l s' ∧ Q s r l s').
Proof.
  intros HP HQ w r w' Hr. destruct (HP w r w' Hr) as (l & Hl & ?).
  destruct (HQ w r w' Hr) as (l' & Hl' & ?). rewrite Hl in Hl'.
  apply app_inv_head in Hl' as <-. eauto.
Qed.

Lemma runs_ret {A} (a : A) : runs (mret a) (λ s r l s', r = Ok a ∧ l = [] ∧ s' = s).
Proof. intros w r w' [= <- <-]. exists []. by rewrite app_nil_r. Qed.
Lemma runs_get : runs get (λ s r l s', r = Ok s ∧ l = [] ∧ s' = s).
Proof. intros w r w' [= <- <-]. exists []. by rewrite app_nil_r. Qed.
Lemma runs_put s0 : runs (put s0) (λ s r l s', r = Ok tt ∧ l = [] ∧ s' = s0).
Proof. intros w r w' [= <- <-]. exists []. by rewrite app_nil_r. Qed.
Lemma runs_throw {A} e : runs (throw (A:=A) e) (λ s r l s', r = Err e ∧ l = [] ∧ s' = s).
Proof. intros w r w' [= <- <-]. exists []. by rewrite app_nil_r. Qed.
Lemma runs_panic {A} f (P : post A) : runs (panic f) P.
Proof. by intros w r w' [=]. Qed.
Lemma runs_vis {A} (e : event X A) :
  runs (vis e) (λ s r l s', ∃ a, r = Ok a ∧ l = [Tag A e a] ∧ handle A e s = (a, s')).
Proof.
  intros w r w'. unfold vis. destruct (handle A e (st w)) as [a s] eqn:Ha.
  intros [= <- <-]. exists [Tag A e a]. eauto 10.
Qed.

Lemma runs_bind {A B} (f : M A) (k : A → M B) P (Q : A → post B) :
  runs f P → (∀ a, runs (k a) (Q a)) →
  runs (f ≫= k) (λ s r l s',
    (∃ e, r = Err e ∧ P s (Err e) l s') ∨
    (∃ a l1 s1 l2, l = l1 ++ l2 ∧ P s (Ok a) l1 s1 ∧ Q a s1 r l2 s')).
Proof.
  intros Hf Hk w r w'. unfold mbind, prog_bind.
  destruct (f w) as [[[a|e] w1]|] eqn:Hr; [simpl|simpl|done].
  - intros Hr'. destruct (Hf _ _ _ Hr) as (l1 & Hl1 & HP).
    destruct (Hk _ _ _ _ Hr') as (l2 & Hl2 & HQ).
    exists (l1 ++ l2). rewrite Hl2, Hl1, app_assoc. split; [done|].
    right. exists a, l1, (st w1), l2. done.
  - intros [= <- <-]. destruct (Hf _ _ _ Hr) as (l1 & Hl1 & HP). exists l1. eauto.
Qed.

(** ** Automata over logs

    An automaton has a step for each logged event it accepts and silent moves [le];
    [path n l m] is a run of it over the log [l].  [leads n m f]: in position [n] every
    run of [f] can be followed, to [m a] when [f] answers [a]; a run that ends early with
    an error can be followed too. *)

Section automaton.
Context {I : Type} (step : I → tag X → I → Prop) (le : I → I → Prop) `{!PreOrder le}.

Inductive path : I → list (tag X) → I → Prop :=
  | path_nil n m : le n m → path n [] m
  | path_cons n n' t m' l m : le n n' → step n' t m' → path m' l m → path n (t :: l) m.

Lemma path_le n n' l m : le n n' → path n' l m → path n l m.
Proof.
  intros Hle Hp. destruct Hp as [n' m ?|n' n2 t m' l m ? ? ?];
    [constructor|econstructor; [|done..]]; by etrans.
Qed.
Lemma path_app n l k l' m : path n l k → path k l' m → path n (l ++ l') m.
Proof. induction 1; simpl; [by apply path_le|]. econstructor; eauto. Qed.

Definition leads {A} (n : I) (m : A → I) (f : M A) : Prop :=
  runs f (λ _ r l _, match r with Ok a => path n l (m a) | Err _ => ∃ k, path n l k end).

Lemma leads_weaken {A} n n' (m m' : A → I) f :
  leads n' m' f → le n n' → (∀ a, le (m' a) (m a)) → leads n m f.
Proof.
  intros Hf Hn Hm. eapply runs_conseq; [exact Hf|]. intros s [a|e] l s' Hl.
  - apply path_le with n'; [done|]. rewrite <- (app_nil_r l).
    apply path_app with (m' a); [done|]. by constructor.
  - destruct Hl as [k ?]. exists k. by apply path_le with n'.
Qed.
Lemma leads_from {A} n n' (m : A → I) f : le n n' → leads n' m f → leads n m f.
Proof. intros. by eapply leads_weaken. Qed.

Lemma leads_silent {A} n (m : A → I) (f : M A) (P : post A) :
  runs f P → (∀ s r l s', P s r l s' → ∃ a, r = Ok a ∧ l = [] ∧ le n (m a)) → leads n m f.
Proof.
  intros Hf HP. eapply runs_conseq; [exact Hf|]. intros s r l s' Hl.
  destruct (HP _ _ _ _ Hl) as (a' & -> & -> & ?). by constructor.
Qed.
Lemma leads_ret {A} n (m : A → I) a : le n (m a) → leads n m (mret a).
Proof. intros. eapply leads_silent; [apply runs_ret|]. naive_solver. Qed.
Lemma leads_get n (m : state J → I) : (∀ s, le n (m s)) → leads n m get.
Proof.
  intros. eapply runs_conseq; [apply runs_get|]. intros ???? (-> & -> & _). by constructor.
Qed.
Lemma leads_put s n (m : unit → I) : le n (m tt) → leads n m (put s).
Proof. intros. eapply leads_silent; [apply runs_put|]. naive_solver. Qed.
Lemma leads_throw {A} e n (m : A → I) : leads n m (throw e).
Proof.
  eapply runs_conseq; [apply runs_throw|]. intros ???? (-> & -> & _).
  exists n. by constructor.
Qed.
Lemma leads_panic {A} f n (m : A → I) : leads n m (panic f).
Proof. apply runs_panic. Qed.
Lemma leads_vis {A} (e : event X A) n (m : A → I) :
  (∀ a, step n (Tag A e a) (m a)) → leads n m (vis e).
Proof.
  intros He. eapply runs_conseq; [apply runs_vis|]. intros ???? (a & -> & -> & _).
  econstructor; [done|apply He|by constructor].
Qed.
Lemma leads_bind {A B} n (k : A → I) (m : B → I) (f : M A) (g : A → M B) :
  leads n k f → (∀ a, leads (k a) m (g a)) → leads n m (f ≫= g).
Proof.
  intros Hf Hg. eapply runs_conseq.
  { apply (runs_bind f g _ (λ a _ r l _, match r with
      | Ok b => path (k a) l (m b) | Err _ => ∃ j, path (k a) l j end) Hf Hg). }
  intros s r l s' [(e & -> & Hl)|(a & l1 & s1 & l2 & -> & H1 & H2)]; [done|].
  destruct r as [b|e]; [by eapply path_app|].
  destruct H2 as [j ?]. exists j. by eapply path_app.
Qed.
Lemma leads_get_bind {A} n (m : A → I) (g : state J → M A) :
  (∀ s, leads n m (g s)) → leads n m (get ≫= g).
Proof. intros Hg. apply leads_bind with (λ _, n); [by apply leads_get|exact Hg]. Qed.
Lemma leads_put_bind {A} s n (m : A → I) (g : unit → M A) :
  leads n m (g tt) → leads n m (put s ≫= g).
Proof. intros Hg. apply leads_bind with (λ _, n); [by apply leads_put|by intros []]. Qed.
Lemma leads_when n m b f :
  (b = false → le n (m tt)) → (b = true → leads n m f) → leads n m (when b f).
Proof using Type*. intros Hle Hf. destruct b; [by apply Hf|]. by apply leads_ret, Hle. Qed.
Lemma leads_vis_exn e n m :
  (∀ o, step n (Tag _ e o) (m tt)) → leads n m (vis_exn e).
Proof.
  intros He. apply leads_bind with (λ _, m tt); [by apply leads_vis|].
  intros [x|]; [apply leads_throw|by apply leads_ret].
Qed.
Lemma leads_vis_try e n m :
  (∀ o, step n (Tag _ e o) (m tt)) → leads n m (vis_try e).
Proof.
  intros He. apply leads_bind with (λ _, m tt); [by apply leads_vis|].
  intros [x|]; [by apply leads_ret; destruct x|apply leads_throw].
Qed.
Lemma leads_with_uv n m f : le n (m tt) → leads n m f → leads n m (with_uv f).
Proof.
  intros. apply leads_bind with (λ _, n); [by apply leads_get|].
  intros s. by apply leads_when.
Qed.
End automaton.

(** ** Phases

    [stage] places an event in the tick, ten times its phase (timers 1, pending work 2,
    I/O 3, idle and prepare 4, check 5, close 6) plus its rank there.  [runs_js]: the
    event called into JavaScript. *)
Definition stage {A} (e : event X A) : option nat :=
  match e with
  | RegisterWaker => Some 0 | PollSessions => Some 1 | PumpMessageLoop => Some 2
  | UvRunTimers => Some 10
  | PollTimers | TakeFiredTimer _ _ | SetTimerDepth _ | CallTimer _ | ReportException _ => Some 11
  | PollProgress => Some 20 | PollTasks | RunTask _ => Some 21
  | PollOps | OpMetrics _ _ | ResolveOps _ | Terminated => Some 22
  | HandledRejection _ _ => Some 23 | HandleRejections _ => Some 24
  | UvSetWaker => Some 30 | UvRunIo => Some 31
  | UvRunIdle => Some 40 | UvRunPrepare => Some 41
  | UvRunCheck => Some 50
  | ExceptionCondition => Some 60 | CloseCallback _ => Some 61 | UvRunClose => Some 62
  | ContextDestroyed => Some 70 | WaitForInspectorDisconnect => Some 71
  | StalledTopLevelAwait => Some 72
  | Wake | Microtasks | DrainNextTickAndMacrotasks _ | RunImmediates => None
  end%nat.

Definition runs_js {A} (e : event X A) : A → bool :=
  match e in event _ A return A → bool with
  | UvRunIo => λ did_io, did_io
  | UvRunTimers | SetTimerDepth _ | CallTimer _ | ReportException _ | PollProgress | RunTask _
  | ResolveOps _ | DrainNextTickAndMacrotasks _ | RunImmediates | HandledRejection _ _
  | HandleRejections _ | UvRunIdle | UvRunPrepare | UvRunCheck | CloseCallback _
  | UvRunClose => λ _, true
  | _ => λ _, false
  end.

Definition is_checkpoint (t : tag X) : bool :=
  match tag_event t with Microtasks => true | _ => false end.
Definition tag_stage (t : tag X) : option nat := stage (tag_event t).
Definition tag_js (t : tag X) : bool := runs_js (tag_event t) (tag_answer t).
Definition phase (s : nat) : nat := s / 10.

(** What begins the pending work, the I/O and each round of it, the idle phase and the check. *)
Definition opens (t : tag X) : bool :=
  match tag_event t with
  | PollProgress | UvSetWaker | UvRunIo | UvRunIdle | UvRunCheck | ExceptionCondition => true
  | _ => false
  end.

(** The event [b] must find no JavaScript of [a] without a checkpoint: it begins a part of the
    tick, or belongs to a later phase.  The drains of queues and the immediates, which have
    no stage, belong to the first three phases or to the end of the tick. *)
Definition separated (a b : tag X) : Prop :=
  opens b = true ∨
  ∃ s', tag_stage b = Some s' ∧ match tag_stage a with Some s => (phase s < phase s')%nat | None => (4 <= phase s')%nat end.

(** Stages follow each other, and a microtask checkpoint has followed whatever ran JavaScript
    before another part of the tick begins, the drains of the queues included. *)
Definition phases_in_order (l : list (tag X)) : Prop :=
  ∀ l1 a l2 b l3, l = l1 ++ a :: l2 ++ b :: l3 →
    (∀ s s', tag_stage a = Some s → tag_stage b = Some s' → (s <= s')%nat) ∧
    (tag_js a = true → separated a b → existsb is_checkpoint l2 = true).

(** The automaton: the stage reached, and what ran JavaScript since the last checkpoint:
    nothing (0), only events with a stage (1), or others (2). *)
Definition position : Type := nat * nat.
Definition dirty (d : nat) (t : tag X) : nat :=
  if tag_js t then Nat.max d (match tag_stage t with Some _ => 1 | None => 2 end) else d.
Definition may_begin (n : position) (t : tag X) (s : nat) : bool :=
  (n.2 =? 0)%nat ||
  negb (opens t) && (phase n.1 =? phase s)%nat && ((n.2 =? 1)%nat || (phase s <=? 3)%nat).
Definition advance (n : position) (t : tag X) : option position :=
  match tag_stage t with
  | Some s => if (n.1 <=? s)%nat && may_begin n t s then Some (s, dirty n.2 t) else None
  | None => Some (n.1, if is_checkpoint t then 0%nat else dirty n.2 t)
  end.
Definition before (n m : position) : Prop :=
  (n.1 <= m.1)%nat ∧ (n.2 <= m.2)%nat ∧ (n.2 ≠ 0%nat → phase n.1 = phase m.1).
Definition moves (n : position) (t : tag X) (m : position) : Prop :=
  match advance n t with Some k => before k m | None => False end.
#[local] Instance before_preorder : PreOrder before.
Proof.
  split; [by intros [? ?]|]. intros [p d] [q e] [r f] (H1 & H2 & H3) (H4 & H5 & H6). unfold before in *.
  simpl in *. split_and!; [lia..|]. intros. rewrite H3, H6 by lia. done.
Qed.

Lemma moves_inv n t m :
  moves n t m →
  (∃ s, tag_stage t = Some s ∧ (n.1 <= s)%nat ∧ may_begin n t s = true ∧ before (s, dirty n.2 t) m) ∨
  (tag_stage t = None ∧ before (n.1, if is_checkpoint t then 0%nat else dirty n.2 t) m).
Proof.
  unfold moves, advance. destruct (tag_stage t) as [s|]; [|by right]. destruct (_ && _) eqn:Hc; [|done].
  apply andb_true_iff in Hc as [Hc%Nat.leb_le ?]. left. by exists s.
Qed.

Lemma path_stage n l m b s : path moves before n l m → b ∈ l → tag_stage b = Some s → (n.1 <= s)%nat.
Proof.
  induction 1 as [|n n' t m' l m [Hle _] Hst _ IH]; [by intros ?%elem_of_nil|].
  apply moves_inv in Hst. intros [->|Hb]%elem_of_cons Hs.
  - destruct Hst as [(s' & Hs' & ? & _)|[? _]]; simplify_eq. lia.
  - specialize (IH Hb Hs). destruct Hst as [(s' & _ & ? & _ & ? & _)|[_ [? _]]]; simpl in *; lia.
Qed.

(** In a position [n] that is not clean, [b] must wait for a checkpoint. *)
Definition blocked (n : position) (b : tag X) : Prop :=
  n.2 ≠ 0%nat ∧ (opens b = true ∨ ∃ s, tag_stage b = Some s ∧
    ((phase n.1 < phase s)%nat ∨ ((2 <= n.2)%nat ∧ (4 <= phase s)%nat))).

Lemma blocked_before n m b : before n m → blocked n b → blocked m b.
Proof.
  intros (H1 & H2 & H3) [Hn Hb]. split; [lia|]. destruct Hb as [?|(s & Hs & Hb)]; [by left|right].
  exists s. split; [done|]. rewrite <- H3 by done. destruct Hb as [?|[? ?]]; [by left | right; lia].
Qed.

Lemma dirty_ge d t : (d <= dirty d t)%nat.
Proof. unfold dirty. destruct (tag_js t); lia. Qed.

Lemma blocked_dirtier p q d e b :
  blocked (p, d) b → phase p = phase q → (d <= e)%nat → blocked (q, e) b.
Proof.
  intros [Hn Hb] Hpq Hde. split; simpl in *; [lia|]. destruct Hb as [?|(s & Hs & Hb)]; [by left|right].
  exists s. split; [done|]. rewrite <- Hpq. destruct Hb; [by left | right; lia].
Qed.

Lemma path_checkpoint n l1 b l2 m s :
  path moves before n (l1 ++ b :: l2) m → tag_stage b = Some s → blocked n b → existsb is_checkpoint l1 = true.
Proof.
  revert n. induction l1 as [|t l1 IH]; intros n Hp Hs Hbl; simpl in Hp;
    inversion Hp as [|? [p d] ? m' ? ? Hle Hst Hp']; subst; apply (blocked_before _ _ _ Hle) in Hbl;
    apply moves_inv in Hst; simpl in Hst.
  - destruct Hst as [(s' & Hs' & _ & Hm & _)|[? _]]; simplify_eq. destruct Hbl as [Hn Hb].
    unfold may_begin in Hm. simpl in *. apply orb_true_iff in Hm as [?%Nat.eqb_eq|Hm]; [done|].
    rewrite !andb_true_iff, orb_true_iff, negb_true_iff, !Nat.eqb_eq, Nat.leb_le in Hm.
    destruct Hm as [[Ho Hph] Hd]. destruct Hb as [?|(s' & ? & Hb)]; simplify_eq; [congruence|]. lia.
  - simpl. apply orb_true_iff. destruct (is_checkpoint t) eqn:Ht; [by left|right].
    pose proof (dirty_ge d t). apply (IH m' Hp' Hs). destruct Hst as [(s' & Hs' & Hle' & Hm & Hbef)|[_ Hbef]];
      apply (blocked_before _ _ _ Hbef); apply (blocked_dirtier p _ d _ _ Hbl); try done.
    destruct Hbl as [Hn _]. unfold may_begin in Hm. simpl in *. apply orb_true_iff in Hm as [?%Nat.eqb_eq|Hm]; [done|].
    rewrite !andb_true_iff, Nat.eqb_eq in Hm. by destruct Hm as [[_ ?] _].
Qed.

Lemma path_in_order n l m : path moves before n l m → phases_in_order l.
Proof.
  induction 1 as [|n [p d] t m' l m _ Hst Hp IH]; intros l1 a l2 b l3 Hl; [by destruct l1|].
  destruct l1 as [|t' l1]; simpl in Hl; injection Hl as -> ->; [|by eapply IH].
  apply moves_inv in Hst. simpl in Hst. split.
  - intros s s' Hs Hs'. destruct Hst as [(s1 & Hs1 & _ & _ & Hle & _)|[? _]]; simplify_eq. simpl in Hle.
    assert (m'.1 <= s')%nat; [|lia]. apply (path_stage _ _ _ b s' Hp); [|done]. apply elem_of_app. right. by left.
  - intros Hjs Hsep. assert (∃ s', tag_stage b = Some s') as [s' Hs'].
    { destruct Hsep as [Ho|(s' & ? & _)]; [|by exists s']. destruct b as [A e x]. unfold opens, tag_stage in *. simpl in *.
      destruct e; try done; by eexists. }
    apply (path_checkpoint _ _ _ _ _ s' Hp Hs'). unfold dirty in Hst. rewrite Hjs in Hst.
    destruct Hst as [(s & Hs & _ & _ & Hbef)|[Hs Hbef]]; apply (blocked_before _ _ _ Hbef); unfold separated in Hsep;
      rewrite Hs in Hsep; try (assert (is_checkpoint a = false) as -> by (by destruct a as [A []])); rewrite Hs.
    + split; simpl; [lia|]. destruct Hsep as [?|(s1 & ? & ?)]; [by left | right; exists s1; auto].
    + split; simpl; [lia|]. destruct Hsep as [?|(s1 & ? & ?)]; [by left | right; exists s1; split; [done | right; lia]].
Qed.

(** ** The tick goes through the phases in order *)

Abbreviation leads_p := (leads moves before).

Ltac le := intros; unfold before; simpl; split_and!; [lia..|]; intros; first [reflexivity | lia].
Ltac mv := intros; red; cbn; first [reflexivity | le].
Ltac bind_to k := apply leads_bind with (λ _, k); [exact _| |intros].
(** One event in front of the rest. *)
Ltac ev := eapply leads_bind with (k := λ _, _); [exact _|apply leads_vis; [exact _|mv]|intros ?; cbv beta].
Ltac got := apply leads_get_bind; [exact _|intros ?; cbv beta].

Lemma fire_timers_phase ts : leads_p (11, 2)%nat (λ _, (11, 2)%nat) (fire_timers ts).
Proof.
  induction ts as [|[id ty] ts IH]; simpl; [apply leads_ret; le|].
  ev. destruct a as [[cb depth]|]; [|exact IH].
  ev. ev. bind_to (11, 2)%nat.
  { destruct a0; [|apply leads_ret; le]. got.
    apply leads_when; [exact _|le|intros _]. apply leads_vis; [exact _|mv]. }
  ev. got. ev. ev. eapply leads_from; [exact _| |exact IH]. le.
Qed.

Lemma timer_phase_phase : leads_p (2, 0)%nat (λ _, (11, 0)%nat) timer_phase.
Proof.
  unfold timer_phase. bind_to (10, 2)%nat.
  { apply leads_with_uv; [exact _|le|]. apply leads_vis; [exact _|mv]. }
  bind_to (11, 2)%nat.
  { unfold dispatch_timers. ev. destruct a0 as [[|t ts]|]; try (apply leads_ret; le).
    bind_to (11, 2)%nat; [apply fire_timers_phase|]. ev. apply leads_ret. le. }
  ev. apply leads_ret. le.
Qed.

Lemma run_tasks_phase ts : leads_p (21, 2)%nat (λ _, (21, 2)%nat) (run_tasks ts).
Proof. induction ts as [|t ts IH]; simpl; [apply leads_ret; le|]. ev. exact IH. Qed.

Lemma task_loop_phase n : leads_p (21, 2)%nat (λ _, (21, 2)%nat) (task_loop n).
Proof.
  induction n as [|n IH]; simpl; ev; (destruct a as [ts|]; [|apply leads_ret; le]);
    (bind_to (21, 2)%nat; [apply run_tasks_phase|]); ev.
  - ev. apply leads_ret. le.
  - bind_to (21, 2)%nat; [eapply leads_from; [exact _| |exact IH]; le|].
    apply leads_ret. le.
Qed.

Lemma op_loop_phase fuel args : leads_p (22, 2)%nat (λ _, (22, 2)%nat) (op_loop fuel args).
Proof.
  revert args. induction fuel as [|fuel IH]; intros args; simpl; case_decide;
    try (ev; apply leads_ret; le); [apply leads_panic|].
  ev. destruct a as [[[promise op] res]|]; [|apply leads_ret; le].
  got. destruct (op_metrics s !! _) as [b|]; [|apply leads_panic].
  bind_to (22, 2)%nat.
  { apply leads_when; [exact _|le|intros _]. apply leads_vis; [exact _|mv]. }
  got. apply leads_put_bind; [exact _|]. apply IH.
Qed.

Lemma dispatch_pending_ops_phase :
  leads_p (22, 2)%nat (λ _, (22, 2)%nat) dispatch_pending_ops.
Proof.
  unfold dispatch_pending_ops. bind_to (22, 2)%nat; [apply op_loop_phase|].
  destruct a as [|a args]; [apply leads_ret; le|].
  bind_to (22, 2)%nat; [apply leads_vis_exn; [exact _|mv]|].
  ev. apply leads_ret. le.
Qed.

Lemma drain_phase s d :
  (d <= 2)%nat → leads_p (s, d) (λ _, (s, 2)%nat) drain_next_tick_and_macrotasks.
Proof.
  intros Hd. unfold drain_next_tick_and_macrotasks. got. apply leads_vis_exn; [exact _|mv].
Qed.
Lemma immediates_phase s d :
  (d <= 2)%nat → leads_p (s, d) (λ _, (s, 2)%nat) do_js_run_immediate_callbacks.
Proof. intros Hd. apply leads_vis_exn; [exact _|mv]. Qed.

Lemma handled_loop_phase fuel : leads_p (23, 2)%nat (λ _, (23, 2)%nat) (handled_loop fuel).
Proof.
  induction fuel as [|fuel IH]; simpl; [apply leads_panic|].
  got. destruct (pending_handled_promise_rejections s) as [|[promise v] rest];
    [apply leads_ret; le|].
  apply leads_put_bind; [exact _|]. bind_to (23, 2)%nat; [|exact IH].
  apply leads_when; [exact _|le|intros _]. apply leads_vis; [exact _|mv].
Qed.

Lemma dispatch_rejections_phase fuel :
  leads_p (23, 2)%nat (λ _, (24, 2)%nat) (dispatch_rejections fuel).
Proof.
  unfold dispatch_rejections. bind_to (23, 2)%nat; [apply handled_loop_phase|].
  got. destruct (pending_promise_rejections s) as [|rj rjs]; [apply leads_ret; le|].
  apply leads_put_bind; [exact _|]. apply leads_vis_exn; [exact _|mv].
Qed.

Lemma work_phase_phase fuel b :
  leads_p (11, 0)%nat (λ _, (24, 0)%nat) (work_phase fuel b).
Proof.
  unfold work_phase. bind_to (20, 2)%nat.
  { apply leads_vis_try; [exact _|mv]. }
  bind_to (21, 2)%nat.
  { eapply leads_from; [exact _| |apply task_loop_phase]. le. }
  bind_to (22, 2)%nat.
  { eapply leads_from; [exact _| |apply dispatch_pending_ops_phase]. le. }
  got. bind_to (22, 2)%nat.
  { apply leads_when; [exact _|le|intros _]. apply drain_phase; lia. }
  got. bind_to (22, 2)%nat.
  { apply leads_when; [exact _|le|intros _]. apply immediates_phase; lia. }
  bind_to (24, 2)%nat.
  { eapply leads_from; [exact _| |apply dispatch_rejections_phase]. le. }
  ev. apply leads_ret. le.
Qed.

Lemma io_loop_phase n : leads_p (31, 0)%nat (λ _, (31, 0)%nat) (io_loop n).
Proof.
  induction n as [|n IH]; simpl; [apply leads_ret; le|].
  apply leads_bind with (λ did_io : bool, (31, if did_io then 1 else 0)%nat);
    [exact _|apply leads_vis; [exact _|intros []; mv]|intros []; [|apply leads_ret; le]].
  ev. bind_to (31, 2)%nat; [apply drain_phase; lia|]. ev.
  bind_to (31, 0)%nat; [exact IH|]. apply leads_ret. le.
Qed.

Lemma run_io_phase_phase : leads_p (24, 0)%nat (λ _, (31, 0)%nat) run_io_phase.
Proof.
  unfold run_io_phase. got. destruct (uv_loop s); [|apply leads_ret; le].
  bind_to (30, 0)%nat.
  { apply leads_vis; [exact _|mv]. }
  eapply leads_from; [exact _| |apply io_loop_phase]. le.
Qed.

Lemma idle_phase_phase : leads_p (31, 0)%nat (λ _, (41, 0)%nat) idle_phase.
Proof.
  unfold idle_phase. bind_to (41, 1)%nat; [|apply leads_vis; [exact _|mv]].
  apply leads_with_uv; [exact _|le|].
  ev. apply leads_vis; [exact _|mv].
Qed.
Lemma check_phase_phase : leads_p (41, 0)%nat (λ _, (50, 0)%nat) check_phase.
Proof.
  unfold check_phase. bind_to (50, 1)%nat; [|apply leads_vis; [exact _|mv]].
  apply leads_with_uv; [exact _|le|].
  apply leads_vis; [exact _|mv].
Qed.

Lemma close_callbacks_phase fuel :
  leads_p (61, 1)%nat (λ _, (61, 1)%nat) (run_close_callbacks fuel).
Proof.
  induction fuel as [|fuel IH]; simpl; [apply leads_panic|].
  got. destruct (close_callbacks s) as [|cb rest]; [apply leads_ret; le|].
  apply leads_put_bind; [exact _|]. ev. exact IH.
Qed.

Lemma close_phase_phase fuel : leads_p (50, 0)%nat (λ _, (62, 0)%nat) (close_phase fuel).
Proof.
  unfold close_phase. bind_to (60, 0)%nat.
  { unfold check_exception_condition. got. apply leads_when; [exact _|le|intros _].
    apply leads_vis_try; [exact _|mv]. }
  bind_to (61, 1)%nat.
  { eapply leads_from; [exact _| |apply close_callbacks_phase]. le. }
  bind_to (62, 2)%nat; [|apply leads_vis; [exact _|mv]].
  apply leads_with_uv; [exact _|le|].
  apply leads_vis; [exact _|mv].
Qed.

Lemma stalled_phase : leads_p (62, 0)%nat (λ _, (72, 0)%nat) stalled.
Proof.
  unfold stalled. ev. destruct a as [|m a]; [apply leads_panic|apply leads_throw, _].
Qed.

Lemma stay_phase p b1 b2 b3 :
  leads_p (62, 0)%nat (λ _, (72, 0)%nat) (stay p b1 b2 b3).
Proof.
  unfold stay. bind_to (62, 0)%nat.
  { apply leads_when; [exact _|le|intros _].
    bind_to (62, 2)%nat; [apply immediates_phase; lia|]. apply leads_vis; [exact _|mv]. }
  bind_to (62, 0)%nat.
  { apply leads_when; [exact _|le|intros _]. apply leads_vis; [exact _|mv]. }
  destruct (_ && _); [apply stalled_phase|].
  destruct (_ && _); [|apply leads_ret; le].
  got. case_decide; [apply stalled_phase|].
  apply leads_put_bind; [exact _|]. ev. apply leads_ret. le.
Qed.

Lemma finish_phase opts b :
  leads_p (62, 0)%nat (λ _, (72, 0)%nat) (finish opts b).
Proof.
  unfold finish. got.
  repeat match goal with |- context [if ?c then _ else _] => destruct c end;
    try (apply leads_ret; le).
  ev. ev. apply leads_ret. le.
Qed.

Lemma phases_leads fuel opts i : leads_p (0, 0)%nat (λ _, (62, 0)%nat) (phases fuel opts i).
Proof.
  unfold phases. ev. bind_to (1, 0)%nat.
  { apply leads_when; [exact _|le|intros _]. apply leads_vis; [exact _|mv]. }
  bind_to (2, 0)%nat.
  { apply leads_when; [exact _|le|intros _]. apply leads_vis_try; [exact _|mv]. }
  bind_to (11, 0)%nat; [apply timer_phase_phase|].
  bind_to (24, 0)%nat; [apply work_phase_phase|].
  bind_to (31, 0)%nat; [apply run_io_phase_phase|].
  bind_to (41, 0)%nat; [apply idle_phase_phase|].
  bind_to (50, 0)%nat; [apply check_phase_phase|].
  bind_to (62, 0)%nat; [apply close_phase_phase|]. apply leads_ret. le.
Qed.

Lemma tick_leads fuel opts :
  leads_p (0, 0)%nat (λ _, (72, 0)%nat) (tick fuel opts).
Proof.
  unfold tick. got. bind_to (62, 0)%nat; [apply phases_leads|]. destruct a as [[did_work dispatched_ops] uv_did_io].
  got. destruct (is_pending _); [apply stay_phase|apply finish_phase].
Qed.

(** ** After each timer and each round of I/O

    The automaton: how much of the checkpoint, the next-tick queue and the second checkpoint
    is still to come. *)
Definition starts_round (t : tag X) : bool :=
  match tag_event t in event _ A return A → bool with
  | CallTimer _ => λ _, true
  | UvRunIo => λ did_io, did_io
  | _ => λ _, false
  end (tag_answer t).
Definition drains (t : tag X) : bool :=
  match tag_event t with DrainNextTickAndMacrotasks _ => true | _ => false end.
(** What must wait for the end of a round: all that has a stage, but for the report of the
    exception of a timer. *)
Definition ends_round (t : tag X) : bool :=
  match tag_event t with ReportException _ => false | _ => bool_decide (is_Some (tag_stage t)) end.

Definition follow (n : nat) (t : tag X) : option nat :=
  if ends_round t then if (n =? 0)%nat then Some (if starts_round t then 3 else 0)%nat else None
  else Some (if is_checkpoint t then match n with 3 => 2 | 1 => 0 | _ => n end
             else if drains t then match n with 2 => 1 | _ => n end else n)%nat.
Definition following (n : nat) (t : tag X) (m : nat) : Prop := follow n t = Some m.

(** Between a timer, or a round of I/O that did something, and whatever comes next there is a
    checkpoint, then the next-tick queue, then another checkpoint. *)
Definition rounds_drained (l : list (tag X)) : Prop :=
  ∀ l1 a l2 b l3, l = l1 ++ a :: l2 ++ b :: l3 → starts_round a = true → ends_round b = true →
    ∃ c d c', [c; d; c'] `sublist_of` l2 ∧ is_checkpoint c = true ∧ drains d = true ∧ is_checkpoint c' = true.

Definition owed (n : nat) (l : list (tag X)) : Prop :=
  match n with
  | 0 => True
  | 1 => ∃ c', [c'] `sublist_of` l ∧ is_checkpoint c' = true
  | 2 => ∃ d c', [d; c'] `sublist_of` l ∧ drains d = true ∧ is_checkpoint c' = true
  | _ => ∃ c d c', [c; d; c'] `sublist_of` l ∧ is_checkpoint c = true ∧ drains d = true ∧ is_checkpoint c' = true
  end%nat.

Lemma owed_later n t l : owed n l → owed n (t :: l).
Proof.
  destruct n as [|[|[|n]]]; simpl; [done|..]; intros; destruct_and?; destruct_or?; naive_solver (by apply sublist_cons).
Qed.

Lemma path_owed n l1 b l2 m :
  (n <= 3)%nat → path following eq n (l1 ++ b :: l2) m → ends_round b = true → owed n l1.
Proof.
  revert n. induction l1 as [|t l1 IH]; intros n Hn Hp Hb; simpl in Hp;
    inversion Hp as [|? n' ? m' ? ? <- Hst Hp']; subst; unfold following, follow in Hst.
  - rewrite Hb in Hst. destruct (Nat.eqb_spec n 0); [by subst | done].
  - destruct (ends_round t) eqn:Ht; [destruct (Nat.eqb_spec n 0); [by subst | done]|]. injection Hst as <-.
    destruct (is_checkpoint t) eqn:Hc; [|destruct (drains t) eqn:Hd].
    + destruct n as [|[|[|[|n]]]]; [done|..|lia].
      * exists t. split; [by apply sublist_skip, sublist_nil_l | done].
      * apply owed_later. by apply (IH 2%nat).
      * destruct (IH 2%nat) as (d & c' & Hsub & Hd & Hc'); [lia|done..|].
        exists t, d, c'. split; [by apply sublist_skip | done].
    + destruct n as [|[|[|[|n]]]]; [done|..|lia].
      * apply owed_later. by apply (IH 1%nat); [lia|..].
      * destruct (IH 1%nat) as (c' & Hsub & Hc'); [lia|done..|].
        exists t, c'. split; [by apply sublist_skip | done].
      * apply owed_later. by apply (IH 3%nat).
    + apply owed_later. by apply (IH n).
Qed.

Lemma path_rounds n l m : path following eq n l m → rounds_drained l.
Proof.
  induction 1 as [|n n' t m' l m _ Hst Hp IH]; intros l1 a l2 b l3 Hl Ha Hb; [by destruct l1|].
  destruct l1 as [|t' l1]; simpl in Hl; injection Hl as -> ->; [|by eapply IH].
  apply (path_owed 3 l2 b l3 m); [lia | | done].
  assert (ends_round a = true) as He by (destruct a as [A e x]; by destruct e).
  unfold following, follow in Hst. rewrite He, Ha in Hst. destruct (_ =? _)%nat; [|done]. by injection Hst as ->.
Qed.

Abbreviation leads_r := (leads following eq).
Ltac fo := intros; red; reflexivity.
Ltac rto k := apply leads_bind with (λ _, k); [exact _| |intros ?; cbv beta].
(** One construct that neither starts a round nor comes within one. *)
Ltac calm1 := match goal with
  | |- leads _ _ _ _ (_ ≫= _) => rto 0%nat
  | |- leads _ _ _ _ (vis _) => apply leads_vis; [exact _|fo]
  | |- leads _ _ _ _ (vis_exn _) => apply leads_vis_exn; [exact _|fo]
  | |- leads _ _ _ _ (vis_try _) => apply leads_vis_try; [exact _|fo]
  | |- leads _ _ _ _ (when _ _) => apply leads_when; [exact _|done|intros _]
  | |- leads _ _ _ _ (with_uv _) => apply leads_with_uv; [exact _|done|]
  | |- leads _ _ _ _ get => by apply leads_get
  | |- leads _ _ _ _ (put _) => by apply leads_put
  | |- leads _ _ _ _ (mret _) => by apply leads_ret
  | |- leads _ _ _ _ (throw _) => apply leads_throw, _
  | |- leads _ _ _ _ (panic _) => apply leads_panic
  | |- leads _ _ _ _ (match ?x with _ => _ end) => destruct x
  end.
Create HintDb calm discriminated.
Ltac calm := repeat first [eassumption | solve [eauto with calm] | calm1].

Lemma fire_timers_rounds ts : leads_r 0%nat (λ _, 0%nat) (fire_timers ts).
Proof.
  induction ts as [|[id ty] ts IH]; simpl; [by apply leads_ret|].
  rto 0%nat; [calm|]. destruct a as [[cb depth]|]; [|exact IH].
  rto 0%nat; [calm|]. rto 3%nat; [apply leads_vis; [exact _|fo]|]. rto 3%nat.
  { destruct a0; [|by apply leads_ret]. got. apply leads_when; [exact _|done|intros _]. apply leads_vis; [exact _|fo]. }
  rto 2%nat; [apply leads_vis; [exact _|fo]|]. got. rto 1%nat; [apply leads_vis; [exact _|fo]|].
  rto 0%nat; [apply leads_vis; [exact _|fo]|]. exact IH.
Qed.
#[local] Hint Resolve fire_timers_rounds : calm.
Lemma timer_phase_rounds : leads_r 0%nat (λ _, 0%nat) timer_phase.
Proof. unfold timer_phase, dispatch_timers. calm. Qed.
Lemma run_tasks_rounds ts : leads_r 0%nat (λ _, 0%nat) (run_tasks ts).
Proof. induction ts as [|t ts IH]; simpl; calm. Qed.
#[local] Hint Resolve run_tasks_rounds : calm.
Lemma task_loop_rounds n : leads_r 0%nat (λ _, 0%nat) (task_loop n).
Proof. induction n as [|n IH]; simpl; calm. Qed.
Lemma op_loop_rounds fuel args : leads_r 0%nat (λ _, 0%nat) (op_loop fuel args).
Proof.
  revert args. induction fuel as [|fuel IH]; intros args; simpl; case_decide; calm.
Qed.
Lemma handled_loop_rounds fuel : leads_r 0%nat (λ _, 0%nat) (handled_loop fuel).
Proof. induction fuel as [|fuel IH]; simpl; calm. Qed.
#[local] Hint Resolve timer_phase_rounds task_loop_rounds op_loop_rounds handled_loop_rounds : calm.
Lemma work_phase_rounds fuel b : leads_r 0%nat (λ _, 0%nat) (work_phase fuel b).
Proof.
  unfold work_phase, dispatch_task_spawner, dispatch_pending_ops, drain_next_tick_and_macrotasks,
    do_js_run_immediate_callbacks, dispatch_rejections. calm.
Qed.
Lemma io_loop_rounds n : leads_r 0%nat (λ _, 0%nat) (io_loop n).
Proof.
  induction n as [|n IH]; simpl; [by apply leads_ret|].
  apply leads_bind with (λ did_io : bool, if did_io then 3 else 0)%nat; [exact _|apply leads_vis; [exact _|intros []; fo]|].
  intros []; [|by apply leads_ret]. rto 2%nat; [apply leads_vis; [exact _|fo]|].
  rto 1%nat; [unfold drain_next_tick_and_macrotasks; got; apply leads_vis_exn; [exact _|fo]|].
  rto 0%nat; [apply leads_vis; [exact _|fo]|]. calm.
Qed.
Lemma close_callbacks_rounds fuel : leads_r 0%nat (λ _, 0%nat) (run_close_callbacks fuel).
Proof. induction fuel as [|fuel IH]; simpl; calm. Qed.
#[local] Hint Resolve work_phase_rounds io_loop_rounds close_callbacks_rounds : calm.
Lemma tick_rounds fuel opts : leads_r 0%nat (λ _, 0%nat) (tick fuel opts).
Proof.
  unfold tick, phases, run_io_phase, idle_phase, check_phase, close_phase, check_exception_condition, stay, finish, stalled,
    do_js_run_immediate_callbacks. calm.
Qed.

(** ** Promise reactions wait for the next-tick queue

    The automaton: are the resolved ops still to be followed by the next-tick queue? *)
Definition owes (n : bool) (t : tag X) : bool :=
  match tag_event t in event _ A return A → bool with
  | ResolveOps _ => λ _, true
  | DrainNextTickAndMacrotasks _ => λ _, false
  | Terminated => λ terminated, if terminated then false else n
  | _ => λ _, n
  end (tag_answer t).
Definition owing (n : bool) (t : tag X) (m : bool) : Prop :=
  m = owes n t ∧ (is_checkpoint t = true → n = false).
Definition is_drain (t : tag X) : bool :=
  match tag_event t in event _ A return A → bool with
  | DrainNextTickAndMacrotasks _ => λ _, true
  | Terminated => λ terminated, terminated
  | _ => λ _, false
  end (tag_answer t).
Definition is_resolve (t : tag X) : bool :=
  match tag_event t with ResolveOps _ => true | _ => false end.

(** No microtask checkpoint comes between ops and the next-tick queue (unless execution
    was terminated). *)
Definition drain_before_reactions (l : list (tag X)) : Prop :=
  ∀ l1 a l2 b l3, l = l1 ++ a :: l2 ++ b :: l3 →
    is_resolve a = true → is_checkpoint b = true → existsb is_drain l2 = true.

Definition at_most (n m : bool) : Prop := n = true → m = true.
Abbreviation leads_o := (leads owing at_most).
#[local] Instance at_most_preorder : PreOrder at_most.
Proof. split; unfold Reflexive, Transitive, at_most; auto. Qed.

Lemma path_owing n l1 b l2 m :
  path owing at_most n (l1 ++ b :: l2) m → n = true → is_checkpoint b = true →
  existsb is_drain l1 = true.
Proof.
  revert n. induction l1 as [|t l1 IH]; intros n Hp Hn Hb; simpl in Hp;
    inversion Hp as [|? n' ? m' ? ? Hle [-> Hst] Hp']; subst; specialize (Hle eq_refl); subst n'.
  - by specialize (Hst Hb).
  - simpl. apply orb_true_iff. destruct (is_drain t) eqn:Hd; [by left|right].
    eapply IH; [exact Hp'| |done].
    destruct t as [A e a]. unfold is_drain, owes in *. simpl in *. by destruct e; subst.
Qed.

Lemma path_drains n l m : path owing at_most n l m → drain_before_reactions l.
Proof.
  induction 1 as [|n n' t m' l m _ [-> Hst] Hp IH]; intros l1 a l2 b l3 Hl Ha Hb;
    [by destruct l1|].
  destruct l1 as [|t' l1]; simpl in Hl; injection Hl as -> ->; [|by eapply IH].
  eapply (path_owing _ _ _ _ _ Hp); [|done].
  destruct a as [A e a]. unfold is_resolve, owes in *. simpl in *. by destruct e.
Qed.

(** ** Outside the polls

    Most of the tick neither polls tasks and ops nor resolves them. *)
Definition outside (t : tag X) : bool :=
  match tag_event t with
  | PollTasks | RunTask _ | PollOps | OpMetrics _ _ | ResolveOps _ | Terminated => false
  | _ => true
  end.
Definition keeps (n : unit) (t : tag X) (m : unit) : Prop := outside t = true.
Abbreviation leads_k := (leads keeps eq).

(** One construct of a program that stays outside. *)
Ltac keep1 := match goal with
  | |- leads _ _ _ _ (_ ≫= _) => apply leads_bind with (λ _, tt); [exact _| |intros; cbv beta]
  | |- leads _ _ _ _ (vis _) => apply leads_vis; [exact _|done]
  | |- leads _ _ _ _ (vis_exn _) => apply leads_vis_exn; [exact _|done]
  | |- leads _ _ _ _ (vis_try _) => apply leads_vis_try; [exact _|done]
  | |- leads _ _ _ _ (when _ _) => apply leads_when; [exact _|done|intros _]
  | |- leads _ _ _ _ (with_uv _) => apply leads_with_uv; [exact _|done|]
  | |- leads _ _ _ _ get => by apply leads_get
  | |- leads _ _ _ _ (put _) => by apply leads_put
  | |- leads _ _ _ _ (mret _) => by apply leads_ret
  | |- leads _ _ _ _ (throw _) => apply leads_throw, _
  | |- leads _ _ _ _ (panic _) => apply leads_panic
  | |- leads _ _ _ _ (match ?x with _ => _ end) => destruct x
  end.
Ltac keep := repeat first [eassumption | solve [eauto with keeps] | keep1].
Create HintDb keeps discriminated.

Lemma drain_keeps : leads_k tt (λ _, tt) drain_next_tick_and_macrotasks.
Proof. unfold drain_next_tick_and_macrotasks. keep. Qed.
Lemma immediates_keeps : leads_k tt (λ _, tt) do_js_run_immediate_callbacks.
Proof. unfold do_js_run_immediate_callbacks. keep. Qed.
#[local] Hint Resolve drain_keeps immediates_keeps : keeps.
Lemma fire_timers_keeps ts : leads_k tt (λ _, tt) (fire_timers ts).
Proof. induction ts as [|[id ty] ts IH]; simpl; keep. Qed.
#[local] Hint Resolve fire_timers_keeps : keeps.
Lemma timer_phase_keeps : leads_k tt (λ _, tt) timer_phase.
Proof. unfold timer_phase, dispatch_timers. keep. Qed.
Lemma handled_loop_keeps fuel : leads_k tt (λ _, tt) (handled_loop fuel).
Proof. induction fuel as [|fuel IH]; simpl; keep. Qed.
#[local] Hint Resolve handled_loop_keeps : keeps.
Lemma dispatch_rejections_keeps fuel : leads_k tt (λ _, tt) (dispatch_rejections fuel).
Proof. unfold dispatch_rejections. keep. Qed.
Lemma io_loop_keeps n : leads_k tt (λ _, tt) (io_loop n).
Proof. induction n as [|n IH]; simpl; keep. Qed.
#[local] Hint Resolve io_loop_keeps : keeps.
Lemma run_io_phase_keeps : leads_k tt (λ _, tt) run_io_phase.
Proof. unfold run_io_phase. keep. Qed.
Lemma close_callbacks_keeps fuel : leads_k tt (λ _, tt) (run_close_callbacks fuel).
Proof. induction fuel as [|fuel IH]; simpl; keep. Qed.
#[local] Hint Resolve timer_phase_keeps dispatch_rejections_keeps run_io_phase_keeps
  close_callbacks_keeps : keeps.
Lemma close_phase_keeps fuel : leads_k tt (λ _, tt) (close_phase fuel).
Proof. unfold close_phase, check_exception_condition. keep. Qed.
Lemma stay_keeps p b1 b2 b3 : leads_k tt (λ _, tt) (stay p b1 b2 b3).
Proof. unfold stay, stalled. keep. Qed.
Lemma finish_keeps opts b : leads_k tt (λ _, tt) (finish opts b).
Proof. unfold finish. keep. Qed.
#[local] Hint Resolve close_phase_keeps stay_keeps finish_keeps : keeps.

(** A program outside, followed by any automaton that keeps its position there. *)
Lemma leads_outside {A I} (step : I → tag X → I → Prop) (le : I → I → Prop) `{!PreOrder le}
    n (f : M A) :
  (∀ t, outside t = true → ∃ m, step n t m ∧ le m n) →
  leads_k tt (λ _, tt) f → leads step le n (λ _, n) f.
Proof.
  intros Hstep Hf.
  assert (∀ l u v, path keeps eq u l v → path step le n l n) as Hp.
  { induction 1 as [|? ? t ? l ? ? Ht _ IH]; [by constructor|].
    destruct (Hstep t Ht) as (k & Hk & ?).
    eapply path_cons; [reflexivity|exact Hk|]. eapply path_le; [exact _|done|exact IH]. }
  eapply runs_conseq; [exact Hf|]. intros s [a|e] l s' Hl; [|destruct Hl]; eauto.
Qed.

Ltac out := apply leads_outside; [exact _| |by eauto with keeps].

(** *** The next-tick queue *)

Lemma outside_owes t : outside t = true → ∃ m, owing false t m ∧ at_most m false.
Proof.
  intros Ht. exists (owes false t). split; [done|]. destruct t as [A e a].
  by destruct e.
Qed.

Ltac mo := intros; by split.
(** The position [k] after the first part; one event that keeps it. *)
Ltac to k := apply leads_bind with (λ _, k); [exact _| |intros ?; cbv beta].
Ltac oev := to false; [apply leads_vis; [exact _|mo]|].

Lemma run_tasks_owes ts : leads_o false (λ _, false) (run_tasks ts).
Proof. induction ts as [|t ts IH]; simpl; [by apply leads_ret|]. oev. exact IH. Qed.

Lemma task_loop_owes n : leads_o false (λ _, false) (task_loop n).
Proof.
  induction n as [|n IH]; simpl; oev; (destruct a as [ts|]; [|by apply leads_ret]);
    (to false; [apply run_tasks_owes|]); oev.
  - oev. by apply leads_ret.
  - to false; [exact IH|]. by apply leads_ret.
Qed.

Lemma op_loop_owes fuel args : leads_o false (λ _, false) (op_loop fuel args).
Proof.
  revert args. induction fuel as [|fuel IH]; intros args; simpl; case_decide;
    try (oev; by apply leads_ret); [apply leads_panic|].
  oev. destruct a as [[[promise op] res]|]; [|by apply leads_ret].
  got. destruct (op_metrics s !! _) as [b|]; [|apply leads_panic].
  to false; [apply leads_when; [exact _|done|intros _]; apply leads_vis; [exact _|mo]|].
  got. apply leads_put_bind; [exact _|]. apply IH.
Qed.

(** It owes the drain exactly when it says that it dispatched. *)
Lemma dispatch_pending_ops_owes : leads_o false (λ dispatched, dispatched) dispatch_pending_ops.
Proof.
  unfold dispatch_pending_ops. to false; [apply op_loop_owes|].
  destruct a as [|a args]; [by apply leads_ret|].
  to true; [apply leads_vis_exn; [exact _|mo]|].
  apply leads_bind with negb; [exact _| |].
  - apply leads_vis; [exact _|]. intros [|]; by split.
  - intros t. by apply leads_ret.
Qed.

Lemma work_phase_owes fuel b : leads_o false (λ _, false) (work_phase fuel b).
Proof.
  unfold work_phase. to false; [apply leads_vis_try; [exact _|mo]|].
  to false; [apply task_loop_owes|].
  apply leads_bind with (λ ops, ops); [exact _|apply dispatch_pending_ops_owes|intros ops].
  got. to false.
  { apply leads_when; [exact _| |intros _].
    - intros Hw. by destruct a0, ops.
    - unfold drain_next_tick_and_macrotasks. got. apply leads_vis_exn; [exact _|mo]. }
  got. to false.
  { apply leads_when; [exact _|done|intros _]. apply leads_vis_exn; [exact _|mo]. }
  to false; [apply leads_outside; [exact _|exact outside_owes|by eauto with keeps]|].
  oev. by apply leads_ret.
Qed.

Lemma tick_owes fuel opts : leads_o false (λ _, false) (tick fuel opts).
Proof.
  unfold tick. got. to false.
  { unfold phases. oev.
  to false; [apply leads_when; [exact _|done|intros _]; apply leads_vis; [exact _|mo]|].
  to false; [apply leads_when; [exact _|done|intros _]; apply leads_vis_try; [exact _|mo]|].
  to false; [out; exact outside_owes|].
  to false; [apply work_phase_owes|].
  to false; [out; exact outside_owes|].
  to false; [apply leads_outside; [exact _|exact outside_owes|unfold idle_phase; keep]|].
  to false; [apply leads_outside; [exact _|exact outside_owes|unfold check_phase; keep]|].
  to false; [out; exact outside_owes|]. by apply leads_ret. }
  destruct a as [[did_work dispatched_ops] uv_did_io]. got. destruct (is_pending _); out; exact outside_owes.
Qed.

(** ** No wake-up is lost

    [armed src]: after its last answer that was ready, the source was polled until it had
    nothing, or the tick asked to be polled again. *)
Definition ready_tag (tasks : bool) (t : tag X) : bool :=
  match tag_event t in event _ A return A → bool with
  | PollTasks => λ r, match r with Ready _ => tasks | Pending => false end
  | PollOps => λ r, match r with Ready _ => negb tasks | Pending => false end
  | _ => λ _, false
  end (tag_answer t).
Definition is_wake (t : tag X) : bool :=
  match tag_event t with Wake => true | _ => false end.
Definition settled_tag (tasks : bool) (t : tag X) : bool :=
  match tag_event t in event _ A return A → bool with
  | PollTasks => λ r, match r with Ready _ => false | Pending => tasks end
  | PollOps => λ r, match r with Ready _ => false | Pending => negb tasks end
  | Wake => λ _, true
  | _ => λ _, false
  end (tag_answer t).
Definition armed (tasks : bool) (l : list (tag X)) : Prop :=
  ∀ l1 a l2, l = l1 ++ a :: l2 → ready_tag tasks a = true → existsb (settled_tag tasks) l2 = true.

(** The automaton: is an answer of the tasks, of the ops, still to be followed? *)
Definition still (tasks n : bool) (t : tag X) : bool :=
  ready_tag tasks t || (n && negb (settled_tag tasks t)).
Definition arming (n : bool * bool) (t : tag X) (m : bool * bool) : Prop :=
  m = (still true n.1 t, still false n.2 t).
Definition at_most2 (n m : bool * bool) : Prop := at_most n.1 m.1 ∧ at_most n.2 m.2.
#[local] Instance at_most2_preorder : PreOrder at_most2.
Proof.
  split; unfold Reflexive, Transitive, at_most2, at_most; [auto|]. intros [] [] []; naive_solver.
Qed.
Abbreviation leads_a := (leads arming at_most2).
Definition side (tasks : bool) (n : bool * bool) : bool := if tasks then n.1 else n.2.

Lemma arming_side tasks n t m : arming n t m → side tasks m = still tasks (side tasks n) t.
Proof. intros ->. by destruct tasks. Qed.
Lemma at_most2_side tasks n m : at_most2 n m → side tasks n = true → side tasks m = true.
Proof. intros [? ?]. destruct tasks; auto. Qed.

Lemma path_settles tasks n l m :
  path arming at_most2 n l m → side tasks m = false → side tasks n = true →
  existsb (settled_tag tasks) l = true.
Proof.
  induction 1 as [n m Hle|n n' t m' l m Hle Hst _ IH]; intros Hm Hn.
  - rewrite (at_most2_side _ _ _ Hle Hn) in Hm. done.
  - simpl. apply (at_most2_side tasks _ _ Hle) in Hn. apply (arming_side tasks) in Hst.
    rewrite Hn in Hst. unfold still in Hst.
    destruct (settled_tag tasks t); [done|]. rewrite orb_true_r in Hst. by apply IH.
Qed.
Lemma path_armed tasks n l m :
  path arming at_most2 n l m → side tasks m = false → armed tasks l.
Proof.
  induction 1 as [n m Hle|n n' t m' l m Hle Hst Hp IH]; intros Hm l1 a l2 Hl Ha;
    [by destruct l1|].
  destruct l1 as [|t' l1]; simpl in Hl; injection Hl as -> ->; [|by eapply IH].
  eapply path_settles; [exact Hp|done|].
  rewrite (arming_side tasks _ _ _ Hst). unfold still. by rewrite Ha.
Qed.

Lemma outside_arms t :
  outside t = true → ∃ m, arming (false, false) t m ∧ at_most2 m (false, false).
Proof.
  intros Ht. exists (false, false). split; [|done]. destruct t as [A e a].
  by destruct e.
Qed.

Ltac ar := intros; reflexivity.
Ltac le2 := by unfold at_most2, at_most.
Definition all_armed : bool * bool := (false, false).
Ltac ato k := apply leads_bind with (λ _, k); [exact _| |intros ?; cbv beta].

Lemma run_tasks_arms ts : leads_a (true, false) (λ _, (true, false)) (run_tasks ts).
Proof.
  induction ts as [|t ts IH]; simpl; [by apply leads_ret|].
  ato (true, false); [apply leads_vis; [exact _|ar]|exact IH].
Qed.

Lemma task_loop_arms n : leads_a (true, false) (λ _, all_armed) (task_loop n).
Proof.
  assert (∀ k, (∀ ts, leads_a (true, false) (λ _, all_armed) (k ts)) →
    leads_a (true, false) (λ _, all_armed)
      (r ← vis PollTasks; match r with Pending => mret false | Ready ts => k ts end)) as Hpoll.
  { intros k Hk. apply leads_bind with (λ r, match r with Pending => all_armed | _ => (true, false) end);
      [exact _| |].
    - apply leads_vis; [exact _|]. intros []; reflexivity.
    - intros [ts|]; [apply Hk|by apply leads_ret]. }
  induction n as [|n IH]; simpl; (apply Hpoll; intros ts);
    (ato (true, false); [apply run_tasks_arms|]);
    (ato (true, false); [apply leads_vis; [exact _|ar]|]); ato all_armed.
  - apply leads_vis; [exact _|ar].
  - by apply leads_ret.
  - exact IH.
  - by apply leads_ret.
Qed.

Lemma op_loop_arms fuel args : leads_a (false, true) (λ _, all_armed) (op_loop fuel args).
Proof.
  revert args. induction fuel as [|fuel IH]; intros args; simpl; case_decide.
  1, 3: ato all_armed; [apply leads_vis; [exact _|ar]|by apply leads_ret].
  { apply leads_panic. }
  apply leads_bind with (λ r, match r with Pending => all_armed | _ => (false, true) end);
    [exact _|apply leads_vis; [exact _|intros []; reflexivity]|].
  intros [[[promise op] res]|]; [|by apply leads_ret].
  got. destruct (op_metrics s !! _) as [b|]; [|apply leads_panic].
  ato (false, true).
  { apply leads_when; [exact _|le2|intros _]. apply leads_vis; [exact _|ar]. }
  got. apply leads_put_bind; [exact _|]. apply IH.
Qed.

Lemma dispatch_pending_ops_arms : leads_a (false, true) (λ _, all_armed) dispatch_pending_ops.
Proof.
  unfold dispatch_pending_ops. ato all_armed; [apply op_loop_arms|].
  destruct a as [|a args]; [by apply leads_ret|].
  ato all_armed; [apply leads_vis_exn; [exact _|ar]|].
  ato all_armed; [apply leads_vis; [exact _|ar]|]. by apply leads_ret.
Qed.

Lemma work_phase_arms fuel b : leads_a all_armed (λ _, all_armed) (work_phase fuel b).
Proof.
  unfold work_phase. ato all_armed; [apply leads_vis_try; [exact _|ar]|].
  ato all_armed; [eapply leads_from; [exact _| |apply task_loop_arms]; le2|].
  ato all_armed; [eapply leads_from; [exact _| |apply dispatch_pending_ops_arms]; le2|].
  got. apply leads_outside; [exact _|exact outside_arms|]. keep.
Qed.

Lemma phases_arms fuel opts i : leads_a all_armed (λ _, all_armed) (phases fuel opts i).
Proof.
  unfold phases. do 3 (ato all_armed; [apply leads_outside; [exact _|exact outside_arms|keep]|]).
  ato all_armed; [out; exact outside_arms|].
  ato all_armed; [apply work_phase_arms|].
  apply leads_outside; [exact _|exact outside_arms|].
  unfold idle_phase, check_phase. keep.
Qed.

Lemma tick_arms fuel opts : leads_a all_armed (λ _, all_armed) (tick fuel opts).
Proof.
  unfold tick. got. ato all_armed; [apply phases_arms|].
  apply leads_outside; [exact _|exact outside_arms|]. keep.
Qed.

(** *** What the answer means

    The specification reads the state and the log directly. *)

(** What keeps the loop alive. *)
Definition keeps_alive (s : state J) : Prop :=
  pending_tasks s = true ∨ refed_timers s = true ∨ (size (unrefed_ops s) < num_pending_ops s)%nat ∨
  pending_dyn_imports s = true ∨ pending_dyn_module_evaluation s = true ∨ pending_module_evaluation s = true ∨
  pending_background_tasks s = true ∨ pending_external_ops s = true ∨ next_tick_scheduled s = true ∨
  0 < immediates_ref_count s ∨ pending_promise_rejections s ≠ [] ∨ pending_handled_promise_rejections s ≠ [] ∨
  (uv_loop s = true ∧ uv_alive s = true).

(** Work that holds no waker: only another tick would find it. *)
Definition needs_tick (s : state J) : Prop :=
  pending_background_tasks s = true ∨ next_tick_scheduled s = true ∨ immediates_outstanding s = true ∨
  0 < immediates_ref_count s ∨ pending_promise_rejections s ≠ [] ∨ pending_handled_promise_rejections s ≠ [].

(** What will wake the loop and may let a module go on. *)
Definition external_progress (s : state J) : Prop :=
  pending_tasks s = true ∨ refed_timers s = true ∨ timers_empty s = false ∨ (0 < num_pending_ops s)%nat ∨
  (size (unrefed_ops s) < num_pending_ops s)%nat ∨ pending_dyn_imports s = true ∨ pending_external_ops s = true.

(** A round of I/O that did something; tasks that ran, ops that were given to JavaScript. *)
Definition io_tag (t : tag X) : bool :=
  match tag_event t in event _ A return A → bool with UvRunIo => λ did_io, did_io | _ => λ _, false end (tag_answer t).
Definition work_tag (t : tag X) : bool :=
  match tag_event t in event _ A return A → bool with
  | PollTasks => λ r, match r with Ready _ => true | Pending => false end
  | Terminated => negb
  | _ => λ _, false
  end (tag_answer t).

(** A tick that answers [Pending] and has not woken itself leaves a loop that is alive and that
    something else will wake. *)
Definition at_rest (l : list (tag X)) (s : state J) : Prop :=
  keeps_alive s ∧ ¬ needs_tick s ∧ existsb io_tag l = false ∧
  (pending_module_evaluation s = true ∨ pending_dyn_module_evaluation s = true → existsb work_tag l = false) ∧
  (pending_module_evaluation s = true → external_progress s ∨ pending_dyn_module_evaluation s = true) ∧
  (pending_dyn_module_evaluation s = true → external_progress s).

Definition tick_result (inspector : bool) (r : result (poll unit) X) (l : list (tag X)) (s : state J) : Prop :=
  match r with
  | Ok (Ready _) => ¬ keeps_alive s
  | Ok Pending => existsb is_wake l = true ∨ inspector = true ∨ at_rest l s
  | Err _ => True
  end.

Lemma nonempty_true {A} (l : list A) : nonempty l = true ↔ l ≠ [].
Proof. by destruct l. Qed.

Lemma is_pending_spec s : is_pending (pending_state s) = true ↔ keeps_alive s.
Proof.
  unfold is_pending, pending_state, keeps_alive. simpl.
  rewrite !orb_true_iff, !bool_decide_eq_true, andb_true_iff, !nonempty_true. tauto.
Qed.

Lemma must_wake_spec s io work :
  must_wake (pending_state s) io work = true ↔
  needs_tick s ∨ io = true ∨ ((pending_module_evaluation s = true ∨ pending_dyn_module_evaluation s = true) ∧ work = true).
Proof.
  unfold must_wake, pending_state, needs_tick. simpl.
  rewrite !orb_true_iff, andb_true_iff, orb_true_iff, !bool_decide_eq_true, !nonempty_true. tauto.
Qed.

Lemma dyn_progress_spec s : ¬ needs_tick s → dyn_module_progress (pending_state s) = true → external_progress s.
Proof.
  unfold dyn_module_progress, pending_state, needs_tick, external_progress. simpl.
  rewrite !orb_true_iff, negb_true_iff, !bool_decide_eq_true. tauto.
Qed.

Lemma progress_spec s :
  ¬ needs_tick s → module_progress (pending_state s) = true →
  external_progress s ∨ pending_dyn_module_evaluation s = true.
Proof.
  unfold module_progress, pending_state, needs_tick, external_progress. simpl.
  rewrite !orb_true_iff, negb_true_iff, !bool_decide_eq_true. tauto.
Qed.

(** The automaton: I/O and work so far. *)
Definition counting (n : bool * bool) (t : tag X) (m : bool * bool) : Prop := m = (n.1 || io_tag t, n.2 || work_tag t).
Abbreviation leads_w := (leads counting at_most2).

Lemma path_counts n l m :
  path counting at_most2 n l m →
  (m.1 = false → existsb io_tag l = false) ∧ (m.2 = false → existsb work_tag l = false).
Proof.
  intros Hp. assert (∀ n l m, path counting at_most2 n l m →
    (m.1 = false → n.1 = false ∧ existsb io_tag l = false) ∧ (m.2 = false → n.2 = false ∧ existsb work_tag l = false)) as Hall.
  { clear. induction 1 as [n m [H1 H2]|n n' t m' l m [H1 H2] -> _ [IH1 IH2]]; unfold at_most in *; simpl in *.
    - split; intros Hm; (split; [|done]); [destruct (n.1); [by rewrite H1 in Hm|done] | destruct (n.2); [by rewrite H2 in Hm|done]].
    - split; intros Hm.
      + destruct (IH1 Hm) as [[? ->]%orb_false_iff ?]. split; [|done]. destruct (n.1); [by rewrite H1 in *|done].
      + destruct (IH2 Hm) as [[? ->]%orb_false_iff ?]. split; [|done]. destruct (n.2); [by rewrite H2 in *|done]. }
  destruct (Hall n l m Hp) as [Hi Hw]. split; intros Hm; [by apply Hi | by apply Hw].
Qed.

Ltac wo := intros; unfold counting, io_tag, work_tag; simpl; rewrite ?orb_false_r; reflexivity.
(** Events that are neither. *)
Ltac idle1 n := match goal with
  | |- leads _ _ _ _ (_ ≫= _) => apply leads_bind with (λ _, n); [exact _| |intros ?; cbv beta]
  | |- leads _ _ _ _ (vis _) => apply leads_vis; [exact _|wo]
  | |- leads _ _ _ _ (vis_exn _) => apply leads_vis_exn; [exact _|wo]
  | |- leads _ _ _ _ (vis_try _) => apply leads_vis_try; [exact _|wo]
  | |- leads _ _ _ _ (when _ _) => apply leads_when; [exact _|done|intros _]
  | |- leads _ _ _ _ (with_uv _) => apply leads_with_uv; [exact _|done|]
  | |- leads _ _ _ _ get => by apply leads_get
  | |- leads _ _ _ _ (put _) => by apply leads_put
  | |- leads _ _ _ _ (mret _) => by apply leads_ret
  | |- leads _ _ _ _ (throw _) => apply leads_throw, _
  | |- leads _ _ _ _ (panic _) => apply leads_panic
  | |- leads _ _ _ _ (match ?x with _ => _ end) => destruct x
  end.
Create HintDb idling discriminated.
Ltac idling n := repeat first [eassumption | solve [eauto with idling] | idle1 n].

Lemma fire_timers_idle n ts : leads_w n (λ _, n) (fire_timers ts).
Proof. destruct n as [b c]. induction ts as [|[id ty] ts IH]; simpl; idling (b, c). Qed.
#[local] Hint Resolve fire_timers_idle : idling.
Lemma timer_phase_idle n : leads_w n (λ _, n) timer_phase.
Proof. destruct n as [b c]. unfold timer_phase, dispatch_timers. idling (b, c). Qed.
Lemma run_tasks_idle n ts : leads_w n (λ _, n) (run_tasks ts).
Proof. destruct n as [b c]. induction ts as [|t ts IH]; simpl; idling (b, c). Qed.
Lemma op_loop_idle n fuel args : leads_w n (λ _, n) (op_loop fuel args).
Proof.
  destruct n as [b c]. revert args. induction fuel as [|fuel IH]; intros args; simpl; case_decide; idling (b, c).
Qed.
Lemma handled_loop_idle n fuel : leads_w n (λ _, n) (handled_loop fuel).
Proof. destruct n as [b c]. induction fuel as [|fuel IH]; simpl; idling (b, c). Qed.
Lemma close_callbacks_idle n fuel : leads_w n (λ _, n) (run_close_callbacks fuel).
Proof. destruct n as [b c]. induction fuel as [|fuel IH]; simpl; idling (b, c). Qed.
#[local] Hint Resolve timer_phase_idle run_tasks_idle op_loop_idle handled_loop_idle close_callbacks_idle : idling.

Ltac wto k := apply leads_bind with (λ _, k); [exact _| |intros ?; cbv beta].
Lemma task_loop_counts n b c : leads_w (b, c) (λ work, (b, c || work)) (task_loop n).
Proof.
  assert (∀ c k, (∀ ts, leads_w (b, true) (λ work, (b, c || work)) (k ts)) →
    leads_w (b, c) (λ work, (b, c || work))
      (r ← vis PollTasks; match r with Pending => mret false | Ready ts => k ts end)) as Hpoll.
  { intros c0 k Hk.
    apply leads_bind with (λ r, (b, c0 || match r with Ready _ => true | Pending => false end)); [exact _| |].
    - apply leads_vis; [exact _|]. intros []; wo.
    - intros [ts|]; rewrite ?orb_true_r; [apply Hk|by apply leads_ret]. }
  revert c. induction n as [|n IH]; intros c; simpl; (apply Hpoll; intros ts);
    (wto (b, true); [apply run_tasks_idle|]); (wto (b, true); [apply leads_vis; [exact _|wo]|]); wto (b, true).
  - apply leads_vis; [exact _|wo].
  - apply leads_ret. by rewrite orb_true_r.
  - apply (IH true).
  - apply leads_ret. by rewrite orb_true_r.
Qed.

Lemma dispatch_pending_ops_counts b c : leads_w (b, c) (λ work, (b, c || work)) dispatch_pending_ops.
Proof.
  unfold dispatch_pending_ops. wto (b, c); [apply op_loop_idle|].
  destruct a as [|a args]; [apply leads_ret; by rewrite orb_false_r|].
  wto (b, c); [apply leads_vis_exn; [exact _|wo]|].
  apply leads_bind with (λ t, (b, c || negb t)); [exact _|apply leads_vis; [exact _|wo]|].
  intros t. by apply leads_ret.
Qed.

Lemma io_loop_counts n b c : leads_w (b, c) (λ io, (b || io, c)) (io_loop n).
Proof.
  revert b. induction n as [|n IH]; intros b; simpl; [apply leads_ret; by rewrite orb_false_r|].
  apply leads_bind with (λ io : bool, (b || io, c)); [exact _|apply leads_vis; [exact _|wo]|].
  intros []; [|by apply leads_ret]. rewrite !orb_true_r.
  wto (true, c); [apply leads_vis; [exact _|wo]|].
  wto (true, c); [unfold drain_next_tick_and_macrotasks; idling (true, c)|].
  wto (true, c); [apply leads_vis; [exact _|wo]|].
  wto (true, c); [apply (IH true)|]. apply leads_ret. by rewrite orb_true_r.
Qed.

Lemma work_phase_counts fuel d b c : leads_w (b, c) (λ work, (b, c || work)) (work_phase fuel d).
Proof.
  unfold work_phase. wto (b, c); [apply leads_vis_try; [exact _|wo]|].
  apply leads_bind with (λ tasks, (b, c || tasks)); [exact _|apply task_loop_counts|intros tasks].
  apply leads_bind with (λ ops, (b, c || tasks || ops)); [exact _|apply dispatch_pending_ops_counts|intros ops].
  set (n := (b, c || tasks || ops)).
  unfold drain_next_tick_and_macrotasks, do_js_run_immediate_callbacks, dispatch_rejections.
  got. wto n; [idling n|]. got. wto n; [idling n|]. wto n; [idling n|]. wto n; [idling n|].
  apply leads_ret. split; [done|]. unfold at_most, n. simpl. by destruct c, tasks, ops.
Qed.

Lemma phases_count fuel opts i :
  leads_w (false, false) (λ a, let '(_, work, io) := a in (io, work)) (phases fuel opts i).
Proof.
  unfold phases. set (n := (false, false)). do 3 (wto n; [idling n|]). wto n; [apply timer_phase_idle|].
  apply leads_bind with (λ work, (false, work)); [exact _|apply work_phase_counts|intros work].
  apply leads_bind with (λ io, (io, work)); [exact _| |intros io].
  { unfold run_io_phase. got. destruct (uv_loop s); [|by apply leads_ret]. wto (false, work); [apply leads_vis; [exact _|wo]|].
    apply io_loop_counts. }
  unfold idle_phase, check_phase, close_phase, check_exception_condition. clear n. set (n := (io, work)).
  idling n.
Qed.

(** The automaton: did the tick ask to be polled again? *)
Definition waking (n : bool) (t : tag X) (m : bool) : Prop := m = (n || is_wake t).
Definition at_least (n m : bool) : Prop := m = true → n = true.
#[local] Instance at_least_preorder : PreOrder at_least.
Proof. split; unfold Reflexive, Transitive, at_least; auto. Qed.

Lemma path_wakes n l m :
  path waking at_least n l m → m = true → n = false → existsb is_wake l = true.
Proof.
  induction 1 as [n m Hle|n n' t m' l m Hle -> _ IH]; intros Hm Hn.
  - by rewrite (Hle Hm) in Hn.
  - simpl. destruct (is_wake t); [done|]. destruct n'; [by rewrite Hle in Hn|]. by apply IH.
Qed.

Lemma stay_wakes p b1 b2 b3 :
  must_wake p b3 b2 = true → leads waking at_least false (λ _, true) (stay p b1 b2 b3).
Proof.
  intros Hw. unfold stay. rewrite Hw. ato false.
  { apply leads_when; [exact _|done|intros _].
    ato false; [by apply leads_vis_exn; [exact _|]|]. by apply leads_vis; [exact _|]. }
  ato true; [by apply leads_vis; [exact _|]|].
  assert (leads waking at_least true (λ _, true) stalled) as Hst.
  { unfold stalled. ato true; [by apply leads_vis; [exact _|]|].
    destruct a1; [apply leads_panic|apply leads_throw, _]. }
  destruct (_ && _); [done|]. destruct (_ && _); [|by apply leads_ret].
  got. case_decide; [done|]. apply leads_put_bind; [exact _|].
  ato true; [by apply leads_vis; [exact _|]|]. by apply leads_ret.
Qed.

Lemma stalled_errs w r w' : stalled w = Ret (r, w') → ∃ l e, log w' = log w ++ l ∧ r = Err e.
Proof.
  unfold stalled, vis, mbind, prog_bind.
  destruct (handle _ _ _) as [[|m ms] s]; simpl; [done|]. intros [= <- <-].
  eexists _, _. by split.
Qed.

Definition yields {A} (a : A) (f : M A) : Prop := ∀ w b w', f w = Ret (Ok b, w') → b = a.
Lemma yields_bind {A B} a (f : M A) (k : A → M B) : (∀ x, yields a (k x)) → yields a (f ≫= k).
Proof.
  intros Hk w b w'. unfold mbind, prog_bind. destruct (f w) as [[[x|e] w1]|]; simpl; [|done..].
  apply Hk.
Qed.
(** The end of [stay] while dynamic imports are evaluated and nothing else is pending. *)
Abbreviation idle_end := (s ← get;
  if decide (dyn_module_evaluate_idle_counter s > 1) then stalled
  else
    _ ← put (set_idle s (dyn_module_evaluate_idle_counter s + 1));
    _ ← vis Wake;
    mret Pending).
Lemma idle_wakes : leads waking at_least false (λ _, true) idle_end.
Proof.
  got. case_decide.
  - unfold stalled. ato false; [by apply leads_vis; [exact _|]|].
    destruct a; [apply leads_panic|apply leads_throw, _].
  - apply leads_put_bind; [exact _|].
    ato true; [by apply leads_vis; [exact _|]|]. by apply leads_ret.
Qed.
Lemma idle_yields : yields Pending idle_end.
Proof.
  apply yields_bind; intros s. case_decide; [apply yields_bind; by intros []|].
  do 2 (apply yields_bind; intros []). by intros ??? [= <-].
Qed.

Lemma stay_yields p b1 b2 b3 : yields Pending (stay p b1 b2 b3).
Proof.
  assert (yields Pending stalled) as Hst.
  { apply yields_bind. by intros []. }
  do 2 (apply yields_bind; intros []).
  destruct (_ && _); [done|]. destruct (_ && _); [apply idle_yields|by intros ??? [= <-]].
Qed.

(** What remains when nothing wakes the tick. *)
Lemma stay_result s b1 work io :
  is_pending (pending_state s) = true →
  runs (stay (pending_state s) b1 work io) (λ s0 r l s', s0 = s → match r with
    | Ok Pending => existsb is_wake l = true ∨
        (l = [] ∧ s' = s ∧ must_wake (pending_state s) io work = false ∧
         (pending_module_evaluation s = true → module_progress (pending_state s) = true) ∧
         (pending_dyn_module_evaluation s = true → dyn_module_progress (pending_state s) = true))
    | Ok (Ready _) => False
    | Err _ => True
    end).
Proof.
  intros Hp w r w' Hr. destruct (must_wake (pending_state s) io work) eqn:Hw.
  { destruct (stay_wakes _ b1 _ _ Hw w r w' Hr) as (l & Hl & Hpath).
    exists l. split; [done|]. intros _. destruct r as [a|]; [|done].
    rewrite (stay_yields _ _ _ _ _ _ _ Hr). left. by eapply path_wakes. }
  unfold stay in Hr. rewrite Hw in Hr.
  assert (bool_decide (0 < has_refed_immediates (pending_state s)) = false) as Hi.
  { unfold must_wake in Hw. rewrite !orb_false_iff in Hw. tauto. }
  rewrite Hi, andb_false_r in Hr. unfold when in Hr.
  destruct (has_pending_module_evaluation (pending_state s) &&
    negb (module_progress (pending_state s))) eqn:Hm.
  { destruct (stalled_errs _ _ _ Hr) as (l & e & ? & ->). eauto. }
  destruct (has_pending_dyn_module_evaluation (pending_state s) &&
    negb (dyn_module_progress (pending_state s))) eqn:Hd.
  - destruct (idle_wakes _ _ _ Hr) as (l & Hl & Hpath). exists l. split; [done|]. intros _.
    destruct r as [a|]; [|done]. rewrite (idle_yields _ _ _ Hr). left. by eapply path_wakes.
  - injection Hr as <- <-. exists []. rewrite app_nil_r. split; [done|]. intros ->.
    right. split_and!; try done; intros He; simpl in Hm, Hd; rewrite He in *;
      [by destruct (module_progress _) | by destruct (dyn_module_progress _)].
Qed.

Lemma finish_result opts i s :
  is_pending (pending_state s) = false →
  runs (finish opts i) (λ s0 r l s', s0 = s → match r with
    | Ok Pending => i && wait_for_inspector opts = true
    | Ok (Ready _) => s' = s
    | Err _ => True
    end).
Proof.
  intros Hp w r w' Hr.
  destruct (i && wait_for_inspector opts) eqn:Hi.
  - destruct (finish_phase opts i w r w' Hr) as (l & Hl & _). exists l. split; [done|].
    intros Hs. destruct r as [[[]|]|]; simpl; [|done..].
    subst s. unfold finish, get, mbind, prog_bind in Hr. simpl in Hr. rewrite Hi in Hr. simpl in Hr.
    destruct (has_active (st w)); [|by injection Hr as <-].
    destruct (has_blocking (st w)); [done|].
    destruct (has_nonblocking_wait_for_disconnect (st w)); [|by injection Hr as <-].
    unfold vis in Hr. by repeat (destruct (handle _ _ _); simpl in Hr).
  - unfold finish, get, mbind, prog_bind in Hr. simpl in Hr. rewrite Hi in Hr. simpl in Hr.
    injection Hr as <- <-. exists []. rewrite app_nil_r. split; [done|]. by intros <-.
Qed.

Lemma tick_answer fuel opts w r w' :
  tick fuel opts w = Ret (r, w') →
  ∃ l, log w' = log w ++ l ∧
    tick_result (has_inspector (st w) && wait_for_inspector opts) r l (st w').
Proof.
  intros Hr. set (i := has_inspector (st w)) in *.
  unfold tick, get, mbind, prog_bind in Hr. simpl in Hr. fold i in Hr.
  destruct (phases fuel opts i w) as [[[[[did_work work] io]|e] w1]|f] eqn:Hph; [| |done].
  2: { injection Hr as <- <-. destruct (phases_leads fuel opts i _ _ _ Hph) as (l & Hl & _). by exists l. }
  destruct (phases_count fuel opts i _ _ _ Hph) as (l1 & Hl1 & [Hio Hwork]%path_counts). simpl in Hio, Hwork.
  simpl in Hr. destruct (is_pending (pending_state (st w1))) eqn:Hp.
  - destruct (stay_result _ did_work work io Hp _ _ _ Hr) as (l2 & Hl2 & Hres). specialize (Hres eq_refl).
    exists (l1 ++ l2). rewrite Hl2, Hl1, app_assoc. split; [done|].
    destruct r as [[|]|]; [done| |done]. simpl.
    destruct Hres as [Hw|(-> & Hs & Hw & Hm & Hd)]; [left; by rewrite existsb_app, Hw, orb_true_r|].
    right. right. rewrite app_nil_r, Hs. apply is_pending_spec in Hp.
    assert (¬ (needs_tick (st w1) ∨ io = true ∨ ((pending_module_evaluation (st w1) = true ∨
      pending_dyn_module_evaluation (st w1) = true) ∧ work = true))) as Hn.
    { rewrite <- must_wake_spec. by rewrite Hw. }
    assert (¬ needs_tick (st w1)) as Hnt by tauto. unfold at_rest. split_and!; try done.
    + apply Hio. destruct io; [|done]. tauto.
    + intros He. apply Hwork. destruct work; [|done]. tauto.
    + intros He. apply progress_spec; auto.
    + intros He. apply dyn_progress_spec; auto.
  - destruct (finish_result opts i _ Hp _ _ _ Hr) as (l2 & Hl2 & Hres). specialize (Hres eq_refl).
    exists (l1 ++ l2). rewrite Hl2, Hl1, app_assoc. split; [done|].
    destruct r as [[|]|]; [|by right; left|done]. simpl. rewrite Hres, <- is_pending_spec. by rewrite Hp.
Qed.

(** The waker is registered before anything is polled: a tick is that event, then others. *)
Definition registers (n : bool) (t : tag X) (m : bool) : Prop := m = true ∧ (n = true ∨ t = Tag unit RegisterWaker tt).

Lemma path_any l : path registers eq true l true.
Proof. induction l as [|t l IH]; [by constructor|]. eapply path_cons; [done|by split; [|left]|exact IH]. Qed.

Lemma leads_any {A} (f : M A) n m : leads_p n m f → leads registers eq true (λ _, true) f.
Proof.
  intros Hf. eapply runs_conseq; [exact Hf|]. intros s [a|e] l s' _; [apply path_any|exists true; apply path_any].
Qed.

Ltac atrue := apply leads_bind with (λ _, true); [exact _| |intros ?; cbv beta].
Lemma tick_registers fuel opts w a w' :
  tick fuel opts w = Ret (Ok a, w') → ∃ l, log w' = log w ++ l ∧ l !! 0%nat = Some (Tag unit RegisterWaker tt).
Proof.
  assert (leads registers eq false (λ _, true) (tick fuel opts)) as Ht.
  { unfold tick. got. apply leads_bind with (λ _, true); [exact _| |].
    - unfold phases. apply leads_bind with (λ _, true); [exact _|apply leads_vis; [exact _|by intros []; split; [|right]]|].
      intros _. atrue; [apply (leads_any _ (0, 0)%nat (λ _, (1, 0)%nat)), leads_when; [exact _|le|intros _]; apply leads_vis; [exact _|mv]|].
      atrue; [apply (leads_any _ (1, 0)%nat (λ _, (2, 0)%nat)), leads_when; [exact _|le|intros _]; apply leads_vis_try; [exact _|mv]|].
      atrue; [eapply leads_any, timer_phase_phase|]. atrue; [eapply leads_any, work_phase_phase|].
      atrue; [eapply leads_any, run_io_phase_phase|]. atrue; [eapply leads_any, idle_phase_phase|].
      atrue; [eapply leads_any, check_phase_phase|]. atrue; [eapply leads_any, close_phase_phase|]. by apply leads_ret.
    - intros [[did_work work] io]. got. destruct (is_pending _); eapply leads_any; [apply stay_phase | apply finish_phase]. }
  intros Hr. destruct (Ht _ _ _ Hr) as (l & Hl & Hp). exists l. split; [done|].
  inversion Hp as [|? ? ? ? ? ? <- [_ [?| ->]]]; subst; done.
Qed.


(** ** A batch of ops *)

(** The ops that the driver handed over, and the batches given to JavaScript. *)
Definition op_arg (o : Z * Z * result Z Z) : Z * bool * Z :=
  match o with
  | (promise_id, _, Ok v) => (promise_id, true, v)
  | (promise_id, _, Err v) => (promise_id, false, v)
  end.
Definition tag_op (t : tag X) : option (Z * bool * Z) :=
  match tag_event t in event _ A return A → option (Z * bool * Z) with
  | PollOps => λ r, match r with Ready o => Some (op_arg o) | Pending => None end
  | _ => λ _, None
  end (tag_answer t).
Definition tag_batch (t : tag X) : option (list (Z * bool * Z)) :=
  match tag_event t with ResolveOps args => Some args | _ => None end.
Definition ops_done (l : list (tag X)) : list (Z * bool * Z) := omap tag_op l.
Definition batches (l : list (tag X)) : list (list (Z * bool * Z)) := omap tag_batch l.

Definition loop_post (args : list (Z * bool * Z)) : post (list (Z * bool * Z)) := λ _ r l _,
  r = Ok (args ++ ops_done l) ∧ batches l = [] ∧
  (length (args ++ ops_done l) <= Nat.max 342 (length args))%nat ∧
  ((342 <= length (args ++ ops_done l))%nat → existsb is_wake l = true).

Lemma runs_when_metrics b op ok :
  runs (when b (vis (OpMetrics op ok))) (λ _ r l _,
    r = Ok tt ∧ ops_done l = [] ∧ batches l = [] ∧ existsb is_wake l = false).
Proof.
  destruct b; simpl.
  - eapply runs_conseq; [apply runs_vis|]. by intros ???? ([] & -> & -> & _).
  - eapply runs_conseq; [apply runs_ret|]. by intros ???? (-> & -> & _).
Qed.

Lemma max_ops (args : list (Z * bool * Z)) :
  3 * zlen args >= MAX_VEC_SIZE_FOR_OPS ↔ (342 <= length args)%nat.
Proof. unfold zlen, MAX_VEC_SIZE_FOR_OPS. lia. Qed.

Lemma op_loop_post fuel args : runs (op_loop fuel args) (loop_post args).
Proof.
  revert args. induction fuel as [|fuel IH]; intros args w r w' Hr; simpl in Hr;
    case_decide as Hmax.
  1, 3: unfold vis, mbind, prog_bind in Hr; simpl in Hr;
    destruct (handle _ Wake (st w)) as [[] s]; injection Hr as <- <-; eexists;
    (split; [reflexivity|]); unfold loop_post; simpl; rewrite app_nil_r; repeat split; lia.
  { done. }
  unfold vis, mbind, prog_bind in Hr. simpl in Hr.
  destruct (handle _ PollOps (st w)) as [[[[promise op] res]|] s] eqn:Hpoll; simpl in Hr.
  2: { injection Hr as <- <-. eexists. split; [reflexivity|].
    rewrite max_ops in Hmax. unfold loop_post. simpl. rewrite app_nil_r. repeat split; lia. }
  destruct (op_metrics s !! _) as [b|]; [|done].
  set (o := (promise, match res with Ok _ => true | Err _ => false end,
             match res with Ok v | Err v => v end)) in *.
  assert (op_arg (promise, op, res) = o) as Ho by (by destruct res).
  destruct (when b _ _) as [[r1 w1]|] eqn:Hw; [|done].
  apply runs_when_metrics in Hw as (l1 & Hl1 & -> & Hops1 & Hb1 & Hw1). simpl in Hr.
  apply IH in Hr as (l2 & Hl2 & -> & Hb2 & Hlen & Hwake). simpl in Hl1, Hl2.
  eexists. rewrite Hl2, Hl1, <- !app_assoc. split; [reflexivity|].
  unfold loop_post, ops_done, batches in *. simpl in *. unfold tag_op at 1. simpl.
  rewrite !omap_app, Hops1, Hb1, Ho, !existsb_app, Hw1. simpl.
  rewrite <- app_assoc in *. simpl in *. rewrite !length_app in *. simpl in *.
  rewrite max_ops in Hmax. repeat split; [done|lia|]. intros. apply Hwake. lia.
Qed.

Lemma op_loop_fuel fuel args w :
  (342 <= fuel + length args)%nat → op_loop fuel args w ≠ Panic OutOfFuel.
Proof.
  revert args w. induction fuel as [|fuel IH]; intros args w Hf; simpl; case_decide as Hmax;
    try (unfold vis, mbind, prog_bind; simpl; by destruct (handle _ Wake (st w))).
  { rewrite max_ops in Hmax. lia. }
  unfold vis, mbind, prog_bind. simpl.
  destruct (handle _ PollOps (st w)) as [[[[promise op] res]|] s]; simpl; [|done].
  destruct (op_metrics s !! _) as [b|]; [|done].
  destruct b; simpl; [destruct (handle _ (OpMetrics _ _) s); simpl|];
    apply IH; rewrite length_app; simpl; lia.
Qed.

(** * Properties *)

(** C9: whatever the calls into V8, libuv and the embedder do, a tick goes through its
    phases in the documented order (timers, pending work, I/O, idle and prepare, check,
    close); whatever ran JavaScript in one part of the tick, the drains of the queues and the
    immediates included, is followed by a microtask checkpoint before the pending work, a
    round of I/O or a later phase begins; and each timer and each round of I/O that did
    something is followed by a checkpoint, the next-tick queue and another checkpoint.  All
    of this also when the tick ends early with an error. *)
Theorem tick_phases fuel opts w r w' :
  tick fuel opts w = Ret (r, w') →
  ∃ l, log w' = log w ++ l ∧ phases_in_order l ∧ rounds_drained l.
Proof.
  intros Hr. destruct (tick_leads fuel opts w r w' Hr) as (l & Hl & Hp).
  destruct (tick_rounds fuel opts w r w' Hr) as (l' & Hl' & Hp').
  rewrite Hl in Hl'. apply app_inv_head in Hl' as <-. exists l. split; [done|]. split.
  - destruct r; [|destruct Hp]; by eapply path_in_order.
  - destruct r; [|destruct Hp']; by eapply path_rounds.
Qed.

(** In every tick, the promise reactions of completed ops run after the next-tick and
    macrotask queues: no microtask checkpoint comes between [__resolveOps] and the drain,
    unless V8 was terminating. *)
Lemma tick_drains_first fuel opts w r w' :
  tick fuel opts w = Ret (r, w') →
  ∃ l, log w' = log w ++ l ∧ drain_before_reactions l.
Proof.
  intros Hr. destruct (tick_owes fuel opts w r w' Hr) as (l & Hl & Hp).
  exists l. split; [done|]. destruct r; [|destruct Hp]; by eapply path_drains.
Qed.


(** C11: whatever the op driver does, polling it ends; the ops that it completed, at most
    342, go to JavaScript in one batch, in the order of completion, each with its
    result, and there is no batch if there are none.  A full batch asks for another
    tick. *)
Theorem ops_batch w :
  dispatch_pending_ops w ≠ Panic OutOfFuel ∧
  ∀ r w', dispatch_pending_ops w = Ret (r, w') →
    ∃ l, log w' = log w ++ l ∧
      batches l = match ops_done l with [] => [] | ops => [ops] end ∧
      (length (ops_done l) <= 342)%nat ∧
      (length (ops_done l) = 342 → existsb is_wake l = true)%nat.
Proof.
  split.
  { assert (op_loop 343 [] w ≠ Panic OutOfFuel) as Hf by (apply op_loop_fuel; simpl; lia).
    unfold dispatch_pending_ops, vis_exn, vis, throw, mbind, prog_bind.
    destruct (op_loop 343 [] w) as [[[[|o ops]|] w1]|f]; try done; [|by intros [= ->]].
    simpl. destruct (handle _ (ResolveOps _) _) as [[x|] s1]; simpl; [done|].
    by destruct (handle _ Terminated _). }
  intros r w' Hr. unfold dispatch_pending_ops in Hr.
  unfold mbind at 1, prog_bind at 1 in Hr.
  destruct (op_loop 343 [] w) as [[ra w1]|] eqn:Hloop; [|done].
  apply op_loop_post in Hloop as (l & Hl & -> & Hb & Hlen & Hw). simpl in *.
  destruct (ops_done l) as [|o ops] eqn:Hops.
  { injection Hr as <- <-. exists l. rewrite Hops, Hb. split; [done|]. split; [done|].
    simpl. lia. }
  unfold vis_exn, vis, throw, mbind, prog_bind in Hr. simpl in Hr.
  destruct (handle _ (ResolveOps _) _) as [[x|] s1]; simpl in Hr;
    [|destruct (handle _ Terminated _) as [t s2]]; injection Hr as <- <-;
    eexists; simpl; rewrite Hl, <- ?app_assoc; (split; [reflexivity|]);
    unfold batches, ops_done in *; rewrite !omap_app, Hb, Hops, !existsb_app; simpl;
    rewrite app_nil_r; simpl in *; (split; [done|]); (split; [lia|]);
    intros He; rewrite Hw by lia; done.
Qed.
End loop.

(** * Witnesses *)

(** JavaScript in this run: [world] holds the completions that the op driver still has,
    and every call succeeds; a V8 background task is pending. *)
Definition demo_handle (A : Type) (e : event Z A) (s : state (list (Z * Z * result Z Z))) :
    A * state (list (Z * Z * result Z Z)) :=
  match e in event _ A return A * state (list (Z * Z * result Z Z)) with
  | PumpMessageLoop | PollProgress | ExceptionCondition => (Ok tt, s)
  | UvRunIo | Terminated => (false, s)
  | PollTimers => (Ready [(1, 0); (2, 0)], s)
  | TakeFiredTimer id _ => (if decide (id = 1) then Some (7, 1) else None, s)
  | CallTimer _ | DrainNextTickAndMacrotasks _ | ResolveOps _ | RunImmediates
  | HandleRejections _ => (None, s)
  | PollTasks => (Pending, s)
  | PollOps =>
      match world s with
      | [] => (Pending, s)
      | o :: os =>
          (Ready o, mkState false false false false true true false false false 0 [true]
             ∅ 0 false true false false false false true false 0 false [] [] false [] os)
      end
  | StalledTopLevelAwait => ([0], s)
  | RegisterWaker | Wake | PollSessions | Microtasks | UvRunTimers | UvSetWaker | UvRunIdle
  | UvRunPrepare | UvRunCheck | UvRunClose | SetTimerDepth _ | ReportException _ | RunTask _
  | OpMetrics _ _ | HandledRejection _ _ | CloseCallback _ | ContextDestroyed
  | WaitForInspectorDisconnect => (tt, s)
  end.

Definition demo_machine : machine (list (Z * Z * result Z Z)) Z :=
  mkMachine (mkState false false false false true true false false false 0 [true]
    ∅ 0 false true false false false false true false 0 false [(1, 2, 3)] [] false [5]
    [(10, 0, Ok 20); (11, 0, Err 21)]) [].
Definition demo_tick := tick demo_handle 5 (mkOptions false true) demo_machine.

(** The tick answers [Pending], gave one batch to JavaScript and woke itself. *)
Definition demo_ok (o : outcome (result (poll unit) Z * machine (list (Z * Z * result Z Z)) Z)) :
    bool :=
  match o with
  | Ret (Ok Pending, w) =>
      bool_decide (batches (log w) = [[(10, true, 20); (11, false, 21)]])
      && existsb is_wake (log w) && (length (log w) =? 34)%nat
  | _ => false
  end.

Lemma tick_phases_witness :
  ∃ r w', demo_tick = Ret (r, w') ∧ demo_ok demo_tick = true ∧ phases_in_order (log w') ∧ rounds_drained (log w').
Proof.
  assert (demo_ok demo_tick = true) as Hok by (vm_compute; reflexivity).
  destruct demo_tick as [[r w']|] eqn:E; [|discriminate Hok].
  exists r, w'. split; [reflexivity|]. split; [exact Hok|].
  destruct (tick_phases _ _ _ _ _ _ E) as (l & Hl & Hp). simpl in Hl. rewrite Hl. exact Hp.
Defined.

Lemma tick_drains_first_example :
  ∃ r w', demo_tick = Ret (r, w') ∧ demo_ok demo_tick = true ∧
    drain_before_reactions (log w').
Proof.
  assert (demo_ok demo_tick = true) as Hok by (vm_compute; reflexivity).
  destruct demo_tick as [[r w']|] eqn:E; [|discriminate Hok].
  exists r, w'. split; [reflexivity|]. split; [exact Hok|].
  destruct (tick_drains_first _ _ _ _ _ _ E) as (l & Hl & Hp). simpl in Hl. rewrite Hl.
  exact Hp.
Qed.

