(* ===== verification/RustStr.v ===== *)
(** Rust's strings: bytes in UTF-8, and the functions of [str] that the error code uses.

    [text] is the list of the bytes of a string; a slice at a byte that is not the start of
    a character panics, as in Rust. *)

From Stdlib Require Export Ascii.
From S2P Require Import Prelude.

Local Open Scope Z_scope.

Abbreviation text := (list ascii) (only parsing).

Notation "$ s" := (String.list_ascii_of_string s%string) (at level 1, format "$ s").

Implicit Types (s t p : text) (c : ascii) (i j : nat).

(** * Characters *)

Definition code c : Z := Z.of_N (N_of_ascii c).
Definition is_ascii c : bool := code c <? 128.
(** A byte that is not the first one of its character. *)
Definition continuation c : bool := (128 <=? code c) && (code c <? 192).

(** [n] more bytes belong to the character.  All of UTF-8 passes (and some overlong forms
    and surrogates, which only makes the theorems stronger). *)
Fixpoint utf8_from (n : nat) s : bool :=
  match s with
  | [] => bool_decide (n = 0%nat)
  | c :: s =>
      match n with
      | S n => continuation c && utf8_from n s
      | O =>
          if code c <? 128 then utf8_from 0 s
          else if (192 <=? code c) && (code c <? 224) then utf8_from 1 s
          else if (224 <=? code c) && (code c <? 240) then utf8_from 2 s
          else if (240 <=? code c) && (code c <? 248) then utf8_from 3 s
          else false
      end
  end.
Definition utf8 s : bool := utf8_from 0 s.

(** Exactly UTF-8: the ranges of the bytes that may follow a first byte. *)
Definition following (c : Z) : option (list (Z * Z)) :=
  let t := (128, 191) in
  let within a b := (a <=? c) && (c <=? b) in
  if within 0 127 then Some []
  else if within 194 223 then Some [t]
  else if c =? 224 then Some [(160, 191); t]
  else if c =? 237 then Some [(128, 159); t]
  else if within 225 239 then Some [t; t]
  else if c =? 240 then Some [(144, 191); t; t]
  else if within 241 243 then Some [t; t; t]
  else if c =? 244 then Some [(128, 143); t; t]
  else None.
Fixpoint valid_utf8_from (expected : list (Z * Z)) s : bool :=
  match s, expected with
  | [], _ => bool_decide (expected = [])
  | c :: s, (lo, hi) :: expected => (lo <=? code c) && (code c <=? hi) && valid_utf8_from expected s
  | c :: s, [] => match following (code c) with Some expected => valid_utf8_from expected s | None => false end
  end.
Definition valid_utf8 s : bool := valid_utf8_from [] s.

Definition is_char_boundary s i : bool :=
  match i with
  | O => true
  | _ => match s !! i with
         | Some c => negb (continuation c)
         | None => bool_decide (i = length s)
         end
  end.

(** [&s[i..]], [&s[..i]] and [s.get(i..j)]. *)
Definition slice_from s i : outcome text :=
  if is_char_boundary s i then Ret (drop i s) else Panic OutOfBounds.
Definition slice_to s i : outcome text :=
  if is_char_boundary s i then Ret (take i s) else Panic OutOfBounds.
Definition get_range s i j : option text :=
  if (i <=? j)%nat && is_char_boundary s i && is_char_boundary s j then Some (take (j - i) (drop i s))
  else None.

(** * Searching *)

Fixpoint starts_with p s : bool :=
  match p, s with
  | [], _ => true
  | c :: p, d :: s => bool_decide (c = d) && starts_with p s
  | _ :: _, [] => false
  end.
Definition ends_with p s : bool := bool_decide (drop (length s - length p) s = p).

Fixpoint find p s : option nat :=
  if starts_with p s then Some 0%nat
  else match s with [] => None | _ :: s => S <$> find p s end.

Fixpoint rfind p s : option nat :=
  match s with
  | [] => if starts_with p [] then Some 0%nat else None
  | _ :: s' =>
      match rfind p s' with
      | Some i => Some (S i)
      | None => if starts_with p s then Some 0%nat else None
      end
  end.

Definition contains p s : bool := bool_decide (is_Some (find p s)).

(** The text before the last [c] and the text after it. *)
Fixpoint rsplit_once c s : option (text * text) :=
  match s with
  | [] => None
  | d :: s =>
      match rsplit_once c s with
      | Some (a, b) => Some (d :: a, b)
      | None => if decide (d = c) then Some ([], s) else None
      end
  end.

(** What the iterator [s.rsplitn(n, c)] yields. *)
Fixpoint rsplitn (n : nat) c s : list text :=
  match n with
  | O => []
  | 1%nat => [s]
  | S n => match rsplit_once c s with
           | Some (a, b) => b :: rsplitn n c a
           | None => [s]
           end
  end.

Fixpoint split_once c s : option (text * text) :=
  match s with
  | [] => None
  | d :: s => if decide (d = c) then Some ([], s) else prod_map (cons d) id <$> split_once c s
  end.

(** The patterns of [trim_start_matches] are not empty. *)
Fixpoint trim_start (fuel : nat) p s : text :=
  match fuel with
  | O => s
  | S fuel => if starts_with p s then trim_start fuel p (drop (length p) s) else s
  end.
Definition trim_start_matches p s : text := trim_start (length s) p s.

Fixpoint replace_from (fuel : nat) p t s : text :=
  match fuel, s with
  | S fuel, c :: s' =>
      if starts_with p s then t ++ replace_from fuel p t (drop (length p) s)
      else c :: replace_from fuel p t s'
  | _, _ => s
  end.
(** An empty pattern matches before every character and at the end. *)
Definition replace p t s : text :=
  match p with
  | [] => concat (map (λ c, if continuation c then [c] else t ++ [c]) s) ++ t
  | _ => replace_from (length s) p t s
  end.

(** * Numbers *)

Definition digit (z : Z) : ascii := ascii_of_N (Z.to_N (if z <? 10 then 48 + z else 87 + z)).
Definition digit_value c : option Z :=
  if (48 <=? code c) && (code c <=? 57) then Some (code c - 48) else None.

(** Least significant digit last, in front of [acc]. *)
Fixpoint digits (base : Z) (fuel : nat) (n : Z) (acc : text) : text :=
  match fuel with
  | O => acc
  | S fuel =>
      let acc := digit (n mod base) :: acc in
      if n <? base then acc else digits base fuel (n / base) acc
  end.

(** [Display] and [LowerHex] of an [i64]: at most 20 digits. *)
Definition show_i64 (z : Z) : text := if z <? 0 then $"-" ++ digits 10 20 (- z) [] else digits 10 20 z [].
Definition show_hex (z : Z) : text := digits 16 16 (z mod 2 ^ 64) [].

Fixpoint parse_digits (acc : Z) s : option Z :=
  match s with
  | [] => Some acc
  | c :: s => d ← digit_value c; parse_digits (acc * 10 + d) s
  end.

(** [str::parse::<i64>]. *)
Definition parse_i64 s : option Z :=
  z ← match s with
      | [] => None
      | c :: s' =>
          if decide (c = "+"%char) then (if decide (s' = []) then None else parse_digits 0 s')
          else if decide (c = "-"%char) then (if decide (s' = []) then None else Z.opp <$> parse_digits 0 s')
          else parse_digits 0 s
      end;
  if (- 2 ^ 63 <=? z) && (z <? 2 ^ 63) then Some z else None.

(** * Lemmas *)

Lemma starts_with_spec p s : starts_with p s = true ↔ ∃ k, s = p ++ k.
Proof.
  revert s. induction p as [|c p IH]; intros s; simpl; [split; [by exists s|done]|].
  destruct s as [|d s]; [split; [done|by intros (k & ?)]|].
  rewrite andb_true_iff, bool_decide_eq_true, IH. split.
  - intros [-> (k & ->)]. by exists k.
  - intros (k & [= -> ->]). split; [done|by exists k].
Qed.

Lemma starts_with_app p s : starts_with p (p ++ s) = true.
Proof. apply starts_with_spec. by exists s. Qed.

Lemma ends_with_app p s : ends_with p (s ++ p) = true.
Proof. apply bool_decide_eq_true. rewrite length_app. apply drop_app_length'. lia. Qed.

(** The first and the last place of a pattern. *)
Definition occurs p s i : Prop := ∃ a b, s = a ++ p ++ b ∧ length a = i.

Lemma find_Some p s i : find p s = Some i → occurs p s i ∧ ∀ j, occurs p s j → (i <= j)%nat.
Proof.
  revert i. induction s as [|c s IH]; intros i; cbn [find].
  - destruct (starts_with p []) eqn:Hp; [|done]. intros [= <-]. split; [|intros; lia].
    apply starts_with_spec in Hp as (k & Hk). by exists [], k.
  - destruct (starts_with p (c :: s)) eqn:Hp.
    + intros [= <-]. split; [|intros; lia]. apply starts_with_spec in Hp as (k & Hk). by exists [], k.
    + intros (i' & Hi & ->)%fmap_Some. apply IH in Hi as [(a & b & -> & <-) Hmin]. split.
      * by exists (c :: a), b.
      * intros j ([|d a'] & b' & Heq & <-); simpl in *.
        -- exfalso. apply eq_true_false_abs with (2 := Hp). apply starts_with_spec. by exists b'.
        -- injection Heq as -> Heq. apply le_n_S, Hmin. by exists a', b'.
Qed.

Lemma find_None p s : find p s = None → ∀ j, ¬ occurs p s j.
Proof.
  induction s as [|c s IH]; cbn [find]; destruct (starts_with p _) eqn:Hp; try done.
  - intros _ j ([|] & b & Heq & _); [|done]. simpl in Heq.
    apply eq_true_false_abs with (2 := Hp). apply starts_with_spec. by exists b.
  - intros Hn%fmap_None j ([|d a'] & b' & Heq & <-); simpl in *.
    + apply eq_true_false_abs with (2 := Hp). apply starts_with_spec. by exists b'.
    + injection Heq as -> Heq. apply (IH Hn (length a')). by exists a', b'.
Qed.

Lemma find_first p s i : occurs p s i → (∀ j, occurs p s j → (i <= j)%nat) → find p s = Some i.
Proof.
  intros Hi Hmin. destruct (find p s) as [k|] eqn:Hf; [|by destruct (find_None _ _ Hf i)].
  apply find_Some in Hf as [Hk Hmk]. f_equal. apply Nat.le_antisymm; auto.
Qed.

Lemma rfind_None p s : rfind p s = None → ∀ j, ¬ occurs p s j.
Proof.
  induction s as [|c s IH]; cbn [rfind].
  - destruct (starts_with p []) eqn:Hp; [done|]. intros _ j ([|] & b & Heq & _); [|done].
    simpl in Heq. apply eq_true_false_abs with (2 := Hp). apply starts_with_spec. by exists b.
  - destruct (rfind p s) as [i|]; [done|]. destruct (starts_with p (c :: s)) eqn:Hp; [done|].
    intros _ j ([|d a'] & b' & Heq & <-); simpl in *.
    + apply eq_true_false_abs with (2 := Hp). apply starts_with_spec. by exists b'.
    + injection Heq as -> Heq. apply (IH eq_refl (length a')). by exists a', b'.
Qed.

Lemma rfind_Some p s i : rfind p s = Some i → occurs p s i ∧ ∀ j, occurs p s j → (j <= i)%nat.
Proof.
  revert i. induction s as [|c s IH]; intros i; cbn [rfind].
  - destruct (starts_with p []) eqn:Hp; [|done]. intros [= <-].
    apply starts_with_spec in Hp as (k & Hk). split; [by exists [], k|].
    intros j ([|] & b & Heq & <-); [simpl; lia|done].
  - destruct (rfind p s) as [i'|] eqn:Hr.
    + intros [= <-]. destruct (IH _ eq_refl) as [(a & b & -> & <-) Hmax]. split; [by exists (c :: a), b|].
      intros j ([|d a'] & b' & Heq & <-); simpl in *; [lia|]. injection Heq as -> Heq.
      apply le_n_S, Hmax. by exists a', b'.
    + destruct (starts_with p (c :: s)) eqn:Hp; [|done]. intros [= <-].
      apply starts_with_spec in Hp as (k & Hk). split; [by exists [], k|].
      intros j ([|d a'] & b' & Heq & <-); simpl in *; [lia|]. injection Heq as -> Heq.
      exfalso. apply (rfind_None _ _ Hr (length a')). by exists a', b'.
Qed.


Lemma rfind_last p s i : occurs p s i → (∀ j, occurs p s j → (j <= i)%nat) → rfind p s = Some i.
Proof.
  intros Hi Hmax. destruct (rfind p s) as [k|] eqn:Hf; [|by destruct (rfind_None _ _ Hf i)].
  apply rfind_Some in Hf as [Hk Hmk]. f_equal. apply Nat.le_antisymm; auto.
Qed.

(** One character. *)
Lemma occurs_char c s i : occurs [c] s i ↔ s !! i = Some c.
Proof.
  split.
  - intros (a & b & -> & <-). apply list_lookup_middle. done.
  - intros Hs. exists (take i s), (drop (S i) s). split; [symmetry; by apply take_drop_middle|].
    apply lookup_lt_Some in Hs. rewrite length_take. lia.
Qed.

Lemma find_char c a b : c ∉ a → find [c] (a ++ c :: b) = Some (length a).
Proof.
  intros Ha. apply find_first; [by exists a, b|]. intros j Hj%occurs_char.
  destruct (decide (j < length a)%nat) as [Hlt|]; [|lia].
  rewrite lookup_app_l in Hj by done. by apply list_elem_of_lookup_2 in Hj.
Qed.

Lemma rfind_char c a b : c ∉ b → rfind [c] (a ++ c :: b) = Some (length a).
Proof.
  intros Hb. apply rfind_last; [by exists a, b|]. intros j Hj%occurs_char.
  destruct (decide (length a < j)%nat) as [Hlt|]; [|lia].
  rewrite lookup_app_r in Hj by lia. destruct (j - length a)%nat as [|k] eqn:Hk; [lia|].
  simpl in Hj. by apply list_elem_of_lookup_2 in Hj.
Qed.

Lemma rsplit_once_Some c s a b : rsplit_once c s = Some (a, b) ↔ s = a ++ c :: b ∧ c ∉ b.
Proof.
  split.
  - revert a. induction s as [|d s IH]; intros a; simpl; [done|].
    destruct (rsplit_once c s) as [[a' b']|] eqn:Hr.
    + intros [= <- ->]. destruct (IH _ eq_refl) as [-> Hb]. done.
    + case_decide as Hd; [|done]. intros [= <- <-]. subst d. split; [done|].
      clear IH. revert Hr. induction s as [|e s IH]; [by intros _ ?%elem_of_nil|]. simpl.
      destruct (rsplit_once c s) as [[]|]; [done|]. case_decide; [done|]. intros _.
      apply not_elem_of_cons. split; [done|by apply IH].
  - intros [-> Hb]. induction a as [|d a IH]; simpl; [|by rewrite IH].
    assert (rsplit_once c b = None) as ->.
    { induction b as [|e b IH]; [done|]. apply not_elem_of_cons in Hb as [He Hb]. simpl.
      rewrite IH by done. by rewrite decide_False. }
    by rewrite decide_True.
Qed.

(** ** UTF-8 *)

Lemma utf8_split n a b : utf8_from n (a ++ b) = true →
  ∃ m, utf8_from m b = true ∧ ∀ b', utf8_from m b' = true → utf8_from n (a ++ b') = true.
Proof.
  revert n. induction a as [|c a IH]; intros n; simpl; [by exists n|].
  destruct n as [|n].
  - repeat case_match; try done; apply IH.
  - intros [Hc Hu]%andb_true_iff. destruct (IH _ Hu) as (m & Hm & Hall). exists m. split; [done|].
    intros b' Hb'. rewrite Hc. by apply Hall.
Qed.

Lemma ascii_not_continuation c : is_ascii c = true → continuation c = false.
Proof. unfold is_ascii, continuation. rewrite Z.ltb_lt. intros. apply andb_false_iff. left. lia. Qed.

(** After an ASCII character a new character starts. *)
Lemma utf8_after_ascii a c b : utf8 (a ++ c :: b) = true → is_ascii c = true → utf8 b = true.
Proof.
  intros (m & Hm & _)%utf8_split Hc. pose proof (ascii_not_continuation _ Hc) as Hn.
  destruct m as [|m]; simpl in Hm; [|by rewrite Hn in Hm].
  unfold is_ascii in Hc. by rewrite Hc in Hm.
Qed.

Lemma utf8_head c s : utf8 (c :: s) = true → continuation c = false.
Proof.
  unfold utf8, continuation. simpl. intros Hu. apply andb_false_iff.
  destruct (code c <? 128) eqn:E1; [rewrite Z.ltb_lt in E1; left; lia|].
  right. apply Z.ltb_ge. destruct ((192 <=? code c) && (code c <? 224)) eqn:E2; [lia|].
  destruct ((224 <=? code c) && (code c <? 240)) eqn:E3; [lia|].
  destruct ((240 <=? code c) && (code c <? 248)) eqn:E4; [lia|done].
Qed.

Lemma boundary_after_ascii a c b :
  utf8 (a ++ c :: b) = true → is_ascii c = true → is_char_boundary (a ++ c :: b) (S (length a)) = true.
Proof.
  intros Hu Hc. pose proof (utf8_after_ascii _ _ _ Hu Hc) as Hb. simpl.
  rewrite lookup_app_r, Nat.sub_succ_l, Nat.sub_diag by lia. simpl. destruct b as [|d b]; simpl.
  - apply bool_decide_eq_true. rewrite length_app. simpl. lia.
  - by rewrite (utf8_head _ _ Hb).
Qed.

Lemma boundary_at_ascii a c b : is_ascii c = true → is_char_boundary (a ++ c :: b) (length a) = true.
Proof.
  intros Hc. unfold is_char_boundary. rewrite list_lookup_middle by done.
  rewrite (ascii_not_continuation _ Hc). by destruct (length a).
Qed.

(** ** Numbers *)

Lemma digit_value_digit z : 0 <= z < 10 → digit_value (digit z) = Some z.
Proof.
  intros Hz. assert (z ∈ [0;1;2;3;4;5;6;7;8;9]) as Hin.
  { rewrite !elem_of_cons. lia. }
  rewrite !elem_of_cons, elem_of_nil in Hin. destruct_or? Hin; by subst.
Qed.

Lemma parse_digits_digits fuel n acc :
  (0 < fuel)%nat → 0 <= n < 10 ^ Z.of_nat fuel →
  parse_digits 0 (digits 10 fuel n acc) = parse_digits n acc.
Proof.
  revert n acc. induction fuel as [|fuel IH]; intros n acc Hf Hn; [lia|]. cbn [digits].
  destruct (n <? 10) eqn:Hs.
  - apply Z.ltb_lt in Hs. rewrite Z.mod_small by lia. cbn [parse_digits].
    rewrite digit_value_digit by lia. simpl. done.
  - apply Z.ltb_ge in Hs.
    assert (10 ^ Z.of_nat (S fuel) = 10 * 10 ^ Z.of_nat fuel) as Hp
      by (rewrite Nat2Z.inj_succ, Z.pow_succ_r; lia).
    rewrite IH.
    + cbn [parse_digits]. rewrite digit_value_digit by (apply Z.mod_pos_bound; lia). simpl. f_equal.
      pose proof (Z.div_mod n 10). lia.
    + destruct fuel; [|lia]. simpl in Hn. lia.
    + split; [apply Z.div_pos; lia|]. apply Z.div_lt_upper_bound; lia.
Qed.

Lemma digits_head fuel n acc : (0 < fuel)%nat → 0 <= n →
  ∃ d s, digits 10 fuel n acc = digit d :: s ∧ 0 <= d < 10.
Proof.
  revert n acc. induction fuel as [|fuel IH]; intros n acc Hf Hn; [lia|]. cbn [digits].
  destruct (n <? 10) eqn:Hs.
  - eexists _, _. split; [done|]. apply Z.mod_pos_bound. lia.
  - destruct fuel; [|apply IH; [lia|apply Z.div_pos; lia]].
    eexists _, _. split; [done|]. apply Z.mod_pos_bound. lia.
Qed.

Lemma digit_not_sign d : 0 <= d < 10 → digit d ≠ "+"%char ∧ digit d ≠ "-"%char.
Proof.
  intros Hd. split; intros E; apply (f_equal digit_value) in E; rewrite digit_value_digit in E; done.
Qed.

Lemma parse_show_i64 z : - 2 ^ 63 <= z < 2 ^ 63 → parse_i64 (show_i64 z) = Some z.
Proof.
  intros Hz. assert (2 ^ 63 < 10 ^ Z.of_nat 20) as Hmax by reflexivity.
  unfold parse_i64, show_i64. destruct (z <? 0) eqn:Hneg.
  - apply Z.ltb_lt in Hneg. pose proof (parse_digits_digits 20 (- z) []) as Hp.
    destruct (digits_head 20 (- z) []) as (d & s & Hd & Hr); [lia..|]. rewrite Hd in Hp |- *.
    cbn [String.list_ascii_of_string app]. rewrite decide_False, decide_True, decide_False by done.
    rewrite Hp by lia. cbn [fmap option_fmap option_map mbind option_bind parse_digits].
    rewrite Z.opp_involutive, (proj2 (andb_true_iff _ _)); [done|]. lia.
  - apply Z.ltb_ge in Hneg. pose proof (parse_digits_digits 20 z []) as Hp.
    destruct (digits_head 20 z []) as (d & s & Hd & Hr); [lia..|]. rewrite Hd in Hp |- *.
    destruct (digit_not_sign d Hr) as [H1 H2]. rewrite !decide_False by done.
    rewrite Hp by lia. cbn [mbind option_bind parse_digits].
    rewrite (proj2 (andb_true_iff _ _)); [done|]. lia.
Qed.

Definition no_digit c : Prop := c ≠ "-"%char ∧ ∀ d, 0 <= d < 10 → digit d ≠ c.

Lemma digits_free c fuel n acc : (∀ d, 0 <= d < 10 → digit d ≠ c) → c ∉ acc → c ∉ digits 10 fuel n acc.
Proof.
  intros Hc. revert n acc. induction fuel as [|fuel IH]; intros n acc Ha; [done|]. cbn [digits].
  assert (c ∉ digit (n mod 10) :: acc) as Hd.
  { apply not_elem_of_cons. split; [|done]. intros E. symmetry in E. apply Hc in E; [done|].
    apply Z.mod_pos_bound. lia. }
  destruct (n <? 10); [done|by apply IH].
Qed.

Lemma show_i64_free c z : no_digit c → c ∉ show_i64 z.
Proof.
  intros [Hm Hd]. unfold show_i64. destruct (z <? 0).
  - apply not_elem_of_app. split; [|by apply digits_free; [|apply not_elem_of_nil]].
    apply not_elem_of_cons. split; [done|apply not_elem_of_nil].
  - apply digits_free; [done|apply not_elem_of_nil].
Qed.

(** ** Slices at known places *)

Lemma slice_from_app s a b : s = a ++ b → is_char_boundary s (length a) = true → slice_from s (length a) = Ret b.
Proof. intros -> Hb. unfold slice_from. by rewrite Hb, drop_app_length. Qed.

Lemma slice_to_app s a b : s = a ++ b → is_char_boundary s (length a) = true → slice_to s (length a) = Ret a.
Proof. intros -> Hb. unfold slice_to. by rewrite Hb, take_app_length. Qed.

Lemma find_char_Some c s i : find [c] s = Some i → ∃ a b, s = a ++ c :: b ∧ length a = i ∧ c ∉ a.
Proof.
  intros [(a & b & -> & <-) Hmin]%find_Some. exists a, b. split_and!; [done..|].
  intros (k & Hk)%list_elem_of_lookup_1. pose proof (lookup_lt_Some _ _ _ Hk).
  assert (length a <= k)%nat; [|lia]. apply Hmin, occurs_char. by rewrite lookup_app_l.
Qed.

Lemma rsplitn_3 c a b d : c ∉ b → c ∉ d → rsplitn 3 c (a ++ c :: b ++ c :: d) = [d; b; a].
Proof.
  intros Hb Hd.
  assert (rsplit_once c (a ++ c :: b ++ c :: d) = Some (a ++ c :: b, d)) as E1
    by (apply rsplit_once_Some; by rewrite <- app_assoc).
  assert (rsplit_once c (a ++ c :: b) = Some (a, b)) as E2 by (by apply rsplit_once_Some).
  cbn [rsplitn]. by rewrite E1, E2.
Qed.

Lemma no_digit_value c : digit_value c = None → c ≠ "-"%char → no_digit c.
Proof. intros Hc Hm. split; [done|]. intros d Hd <-. by rewrite digit_value_digit in Hc. Qed.

Definition in_i64 (z : Z) : Prop := - 2 ^ 63 <= z < 2 ^ 63.
