(* ===== verification/Numbers.v ===== *)
(** Rust's numbers: [f64] and the casts between it and the integer types.

    An [f64] is a dyadic rational, an infinity or NaN.  There is one zero: no code that uses
    this file tells negative zero from zero.  Sums of integers are rounded as [f64] rounds
    them. *)

From S2P Require Import Prelude.

Local Open Scope Z_scope.

(** [Finite m k] is [m / 2 ^ k]. *)
Inductive number :=
  | NaN
  | Infinity (negative : bool)
  | Finite (m : Z) (k : nat).

Definition pow2 (k : nat) : Z := 2 ^ Z.of_nat k.

(** [f64::trunc]. *)
Definition trunc (m : Z) (k : nat) : Z := Z.quot m (pow2 k).

(** [f64::round_ties_even]. *)
Definition round_ties_even (m : Z) (k : nat) : Z :=
  let q := m / pow2 k in
  let r := m mod pow2 k in
  if decide (2 * r < pow2 k) then q
  else if decide (pow2 k < 2 * r) then q + 1
  else if Z.even q then q else q + 1.

(** The [f64] nearest to an integer: 53 significant bits, ties to even. *)
Definition to_f64 (z : Z) : Z :=
  let e := Z.to_nat (Z.log2 (Z.abs z) - 52) in
  round_ties_even z e * pow2 e.

Global Instance number_eq_dec : EqDecision number.
Proof. solve_decision. Defined.

(** * Integer types *)

Definition int_min (signed : bool) (bits : Z) : Z := if signed then - 2 ^ (bits - 1) else 0.
Definition int_max (signed : bool) (bits : Z) : Z := if signed then 2 ^ (bits - 1) - 1 else 2 ^ bits - 1.

(** [as] from [f64]: saturates, and NaN is zero. *)
Definition f64_as_int (signed : bool) (bits : Z) (n : number) : Z :=
  match n with
  | NaN => 0
  | Infinity negative => if negative then int_min signed bits else int_max signed bits
  | Finite m k => Z.max (int_min signed bits) (Z.min (int_max signed bits) (trunc m k))
  end.

(** [as] from a wider integer: the low bits. *)
Definition int_as_int (signed : bool) (bits z : Z) : Z :=
  if signed then (z + 2 ^ (bits - 1)) mod 2 ^ bits - 2 ^ (bits - 1) else z mod 2 ^ bits.

(** [as f64] from an integer. *)
Definition int_as_f64 (z : Z) : number := Finite (to_f64 z) 0.

(** * Lemmas *)

Lemma pow2_pos k : 0 < pow2 k.
Proof. unfold pow2. lia. Qed.

Lemma round_0 z : round_ties_even z 0 = z.
Proof.
  unfold round_ties_even, pow2. simpl. rewrite Z.div_1_r, Z.mod_1_r. by case_decide.
Qed.

Lemma to_f64_exact z : Z.abs z < 2 ^ 53 → to_f64 z = z.
Proof.
  intros Hz. unfold to_f64.
  assert (Z.log2 (Z.abs z) <= 52) as Hlog.
  { destruct (decide (z = 0)) as [->|]; [done|].
    apply Z.lt_succ_r, Z.log2_lt_pow2; lia. }
  replace (Z.to_nat (Z.log2 (Z.abs z) - 52)) with 0%nat by lia.
  rewrite round_0. unfold pow2. simpl. lia.
Qed.

(** Rounding stays between integers. *)
Lemma round_between m k lo hi :
  lo * pow2 k <= m <= hi * pow2 k → lo <= round_ties_even m k <= hi.
Proof.
  pose proof (pow2_pos k) as Hp. intros [Hlo Hhi]. unfold round_ties_even.
  pose proof (Z.div_mod m (pow2 k) ltac:(lia)) as Hdm.
  pose proof (Z.mod_pos_bound m (pow2 k) Hp) as Hb.
  set (q := m / pow2 k) in *. set (r := m mod pow2 k) in *.
  assert (lo <= q) by nia. assert (q <= hi) by nia.
  assert (0 < r → q + 1 <= hi) by nia.
  repeat case_decide; try lia. destruct (Z.even q); lia.
Qed.

Lemma trunc_exp_0 z : trunc z 0 = z.
Proof. unfold trunc, pow2. simpl. apply Z.quot_1_r. Qed.

Lemma int_bounds signed bits : 0 < bits → int_min signed bits <= 0 <= int_max signed bits.
Proof. intros Hb. unfold int_min, int_max. pose proof (Z.pow_pos_nonneg 2 (bits - 1)). pose proof (Z.pow_pos_nonneg 2 bits). destruct signed; lia. Qed.

Lemma f64_as_int_bounds signed bits n :
  0 < bits → int_min signed bits <= f64_as_int signed bits n <= int_max signed bits.
Proof. intros Hb. pose proof (int_bounds signed bits Hb). destruct n as [|[]|]; simpl; lia. Qed.

(** An integer below 2^53 survives the way through an [f64]. *)
Lemma f64_as_int_of_int signed bits z :
  Z.abs z < 2 ^ 53 → int_min signed bits <= z <= int_max signed bits →
  f64_as_int signed bits (int_as_f64 z) = z.
Proof. intros Hz Hb. unfold int_as_f64, f64_as_int. rewrite to_f64_exact, trunc_exp_0 by done. lia. Qed.

Lemma int_as_int_id signed bits z :
  0 < bits → int_min signed bits <= z <= int_max signed bits → int_as_int signed bits z = z.
Proof.
  intros Hb Hz. unfold int_as_int, int_min, int_max in *.
  assert (2 ^ bits = 2 * 2 ^ (bits - 1)) as E by (rewrite <- Z.pow_succ_r by lia; f_equal; lia).
  destruct signed; rewrite Z.mod_small; lia.
Qed.
