(* ===== verification/Specifiers.v ===== *)
(** Module specifiers ([core/module_specifier.rs]), and the interface of the [url] crate that
    specifiers, source maps and stack traces use. *)

From S2P Require Import Prelude RustStr.

(** * The [url] crate *)

(** [url::ParseError]; the code tells one of them apart. *)
Inductive ParseError := RelativeUrlWithoutBase | OtherParseError (message : text).

Class UrlCrate (Url : Type) := {
  url_parse : text → result Url ParseError;
  url_join : Url → text → result Url ParseError;
  as_str : Url → text;
  scheme : Url → text;
  url_path : Url → text;
  make_relative : Url → Url → option text
}.

(** What the crate documents: a URL parses back from its text. *)
Class UrlLaws (Url : Type) `{UrlCrate Url} := {
  url_parse_as_str (u : Url) : url_parse (as_str u) = Ok u
}.

Definition ok {A E} (r : result A E) : option A := match r with Ok a => Some a | Err _ => None end.

(** * Resolution *)

Inductive ModuleResolutionError :=
  | InvalidUrl (e : ParseError)
  | InvalidBaseUrl (e : ParseError)
  | ImportPrefixMissing (specifier : text) (maybe_referrer : option text).

Section specifiers.
Context `{UrlCrate Url}.

Definition is_relative (specifier : text) : bool :=
  starts_with $"/" specifier || starts_with $"./" specifier || starts_with $"../" specifier.

Definition resolve_import (specifier base : text) : result Url ModuleResolutionError :=
  match url_parse specifier with
  | Ok url => Ok url
  | Err RelativeUrlWithoutBase =>
      if negb (is_relative specifier) then
        Err (ImportPrefixMissing specifier (if decide (base = []) then None else Some base))
      else
        match url_parse base with
        | Err e => Err (InvalidBaseUrl e)
        | Ok base =>
            match url_join base specifier with
            | Ok url => Ok url
            | Err e => Err (InvalidUrl e)
            end
        end
  | Err err => Err (InvalidUrl err)
  end.

Definition resolve_url (url_str : text) : result Url ModuleResolutionError :=
  match url_parse url_str with Ok u => Ok u | Err e => Err (InvalidUrl e) end.

(** An absolute specifier resolves to itself, whatever the base. *)
Lemma resolve_import_absolute specifier base u :
  resolve_url specifier = Ok u → resolve_import specifier base = Ok u.
Proof. unfold resolve_url, resolve_import. by destruct (url_parse specifier). Qed.

(** A bare specifier never resolves, and never asks for the base. *)
Lemma resolve_import_bare specifier base u :
  resolve_import specifier base = Ok u → ok (resolve_url specifier) = Some u ∨ is_relative specifier = true.
Proof.
  unfold resolve_url, resolve_import. destruct (url_parse specifier) as [u'|[|]]; try done.
  - intros [= ->]. by left.
  - destruct (is_relative specifier); [by right|done].
Qed.

(** Resolving a resolved specifier again changes nothing. *)
Lemma resolve_import_idempotent `{!UrlLaws Url} specifier base other u :
  resolve_import specifier base = Ok u → resolve_import (as_str u) other = Ok u.
Proof. intros _. unfold resolve_import. by rewrite url_parse_as_str. Qed.
End specifiers.

(** * A crate for examples

    Texts with a scheme are URLs; a directory ends with a slash; other things are relative. *)

Definition demo_parse (s : text) : result text ParseError :=
  match split_once ":" s with Some _ => Ok s | None => Err RelativeUrlWithoutBase end.
Definition demo_dir (u : text) : text :=
  match rsplit_once "/" u with Some (d, _) => d ++ $"/" | None => [] end.

Definition demo_url : UrlCrate text := {|
  url_parse := demo_parse;
  url_join base s := match demo_parse s with Ok u => Ok u | Err _ => Ok (demo_dir base ++ s) end;
  as_str u := u;
  scheme u := from_option fst [] (split_once ":" u);
  url_path u := from_option snd [] (split_once ":" u);
  make_relative base u :=
    if starts_with (demo_dir base) u then Some (drop (length (demo_dir base)) u) else None
|}.
