(* ===== verification/SourceMaps.v ===== *)
(** Positions in sources: [core/source_map.rs] and the code that asks it.

    [SourceMapper] caches the source map of each file and the lines that were asked for.
    The loader of the embedder, the [sourcemap] crate and the [url] crate are parameters.
    Questions to the loader whose answers are cached are logged.  The reference [ref_mapper]
    looks everything up again each time. *)

From S2P Require Import Prelude RustStr Specifiers.

Local Open Scope Z_scope.

(** * Interfaces *)

Record Token := mkToken { src_line : Z; src_col : Z; token_source : option text }.

(** [sourcemap::SourceMap]. *)
Class SourceMapCrate (SourceMap : Type) := {
  from_slice : text → option SourceMap;
  decode_data_url : text → option SourceMap;
  lookup_token : SourceMap → Z → Z → option Token
}.

(** The methods of [ModuleLoader] that source maps use. *)
Record MapLoader := mkMapLoader {
  get_source_map : text → option text;
  load_external_source_map : text → option text;
  source_map_source_exists : text → option bool;
  get_source_mapped_source_line : text → Z → option text
}.

(** * Data *)

Inductive SourceMapApplication :=
  | Unchanged
  | LineAndColumn (line_number column_number : Z)
  | LineAndColumnAndFileName (file_name : text) (line_number column_number : Z).

(** Questions to the loader. *)
Inductive question :=
  | AskMap (file_name : text)
  | AskExternal (file_name url : text)
  | AskLine (file_name : text) (line_number : Z).

Record SourceMapper (SourceMap : Type) := mkMapper {
  maps : gmap text (option SourceMap);
  source_lines : gmap (text * Z) (option text);
  ext_source_maps : gmap text text;
  source_map_urls : gmap text text;
  asked : list question  (** a log *)
}.
Arguments mkMapper {SourceMap}.
Arguments maps {SourceMap}.
Arguments source_lines {SourceMap}.
Arguments ext_source_maps {SourceMap}.
Arguments source_map_urls {SourceMap}.
Arguments asked {SourceMap}.

Definition MAX_SOURCE_LINE_LENGTH : nat := 150.
Definition DATA_PREFIX : text := $"data:".

Section source_maps.
Context (profile : profile) `{UrlCrate Url} `{SourceMapCrate SourceMap} (loader : MapLoader).
Abbreviation mapper := (SourceMapper SourceMap).
Abbreviation M := (stateM mapper).
Implicit Types (m : mapper) (file_name : text).

Definition SourceMapper_new : mapper := mkMapper ∅ ∅ ∅ ∅ [].

Definition add_ext_source_map (module_name data : text) m : mapper :=
  mkMapper (maps m) (source_lines m) (<[module_name := data]> (ext_source_maps m)) (source_map_urls m) (asked m).
Definition take_ext_source_maps m : gmap text text * mapper :=
  (ext_source_maps m, mkMapper (maps m) (source_lines m) ∅ (source_map_urls m) (asked m)).
Definition add_source_map (module_name : text) (source_map : SourceMap) m : mapper :=
  mkMapper (<[module_name := Some source_map]> (maps m)) (source_lines m) (ext_source_maps m)
    (source_map_urls m) (asked m).
Definition add_source_map_url (module_name url : text) m : mapper :=
  mkMapper (maps m) (source_lines m) (ext_source_maps m) (<[module_name := url]> (source_map_urls m)) (asked m).

(** The first map that is found: of the extension, from its URL, from the loader.  Also
    what the loader is asked. *)
Definition find_source_map m file_name : option SourceMap * list question :=
  match ext_source_maps m !! file_name ≫= from_slice with
  | Some sm => (Some sm, [])
  | None =>
      let (external, q) :=
        match source_map_urls m !! file_name with
        | Some url => (load_external_source_map loader url ≫= from_slice, [AskExternal file_name url])
        | None => (None, [])
        end in
      match external with
      | Some sm => (Some sm, q)
      | None => (get_source_map loader file_name ≫= from_slice, q ++ [AskMap file_name])
      end
  end.

(** [self.maps.entry(file_name).or_insert_with(..)]. *)
Definition cached_source_map file_name : M (option SourceMap) := λ m,
  match maps m !! file_name with
  | Some sm => Ret (sm, m)
  | None =>
      let (sm, q) := find_source_map m file_name in
      Ret (sm, mkMapper (<[file_name := sm]> (maps m)) (source_lines m) (ext_source_maps m)
                 (source_map_urls m) (asked m ++ q))
  end.

(** The new name of the file, when it changes. *)
Definition new_file_name file_name (source : option text) : option text :=
  match source with
  | Some source_file_name =>
      if decide (source_file_name = file_name) then None
      else
        match resolve_url source_file_name with
        | Ok u => if decide (scheme u = $"blob") then None else Some (as_str u)
        | Err _ =>
            base_url ← ok (resolve_url file_name);
            resolved ← ok (url_join base_url source_file_name);
            match source_map_source_exists loader (as_str resolved) with
            | Some true => Some (as_str resolved)
            | _ => None
            end
        end
  | None => None
  end.

(** What a map says about a position that starts at 0. *)
Definition map_position (sm : option SourceMap) file_name (line column : Z) : outcome SourceMapApplication :=
  match sm with
  | None => Ret Unchanged
  | Some sm =>
      match lookup_token sm line column with
      | None => Ret Unchanged
      | Some token =>
          new_line_number ← add_w profile 32 (src_line token) 1;
          new_column_number ← add_w profile 32 (src_col token) 1;
          Ret (match new_file_name file_name (token_source token) with
               | None => LineAndColumn new_line_number new_column_number
               | Some file_name => LineAndColumnAndFileName file_name new_line_number new_column_number
               end)
      end
  end.

Definition apply_source_map file_name (line_number column_number : Z) : M SourceMapApplication := λ m,
  line ← sub_w profile 32 line_number 1;
  column ← sub_w profile 32 column_number 1;
  '(sm, m) ← cached_source_map file_name m;
  r ← map_position sm file_name line column;
  Ret (r, m).

Definition get_source_line file_name (line_number : Z) : M (option text) := λ m,
  match source_lines m !! (file_name, line_number) with
  | Some maybe_source_line => Ret (maybe_source_line, m)
  | None =>
      index ← add_s profile 64 line_number (-1);
      let maybe_source_line :=
        s ← get_source_mapped_source_line loader file_name (index mod 2 ^ 64);
        if (length s <=? MAX_SOURCE_LINE_LENGTH)%nat then Some s else None in
      Ret (maybe_source_line,
           mkMapper (maps m) (<[(file_name, line_number) := maybe_source_line]> (source_lines m))
             (ext_source_maps m) (source_map_urls m) (asked m ++ [AskLine file_name line_number]))
  end.

(** ** Callers *)

(** [apply_source_map] of [error.rs], for positions in an [i64]. *)
Definition apply_source_map_i64 file_name (line_number column_number : Z) : M (text * Z * Z) :=
  application ← apply_source_map file_name (line_number mod 2 ^ 32) (column_number mod 2 ^ 32);
  mret (match application with
        | Unchanged => (file_name, line_number, column_number)
        | LineAndColumn line_number column_number => (file_name, line_number, column_number)
        | LineAndColumnAndFileName file_name line_number column_number => (file_name, line_number, column_number)
        end).

(** [new_module_from_js_source]: the URL that V8 found in a module. *)
Definition register_source_mapping_url (name : text) (source_mapping_url : option text) m : mapper :=
  match source_mapping_url with
  | None => m
  | Some source_mapping_url =>
      if starts_with DATA_PREFIX source_mapping_url then
        match decode_data_url source_mapping_url with
        | Some sm => add_source_map name sm m
        | None => m
        end
      else
        let resolved_url :=
          match url_parse name with
          | Ok module_url =>
              as_str (match url_join module_url source_mapping_url with
                      | Ok u => u
                      | Err _ => module_url
                      end)
          | Err _ => source_mapping_url
          end in
        add_source_map_url name resolved_url m
  end.

(** [JsRuntime::new_inner]: the sources of extensions. *)
Definition add_ext_source_maps (sources : list (text * option text)) m : mapper :=
  foldl (λ m '(specifier, maybe_source_map),
    match maybe_source_map with
    | Some data => add_ext_source_map specifier data m
    | None => m
    end) m sources.

(** *** The referrer of an import *)

Record ModuleLoadReferrer := mkReferrer { specifier : Url; line_number : Z; column_number : Z }.

Definition newline : ascii := "010".

(** The last newline with its rank: [(n, i)]. *)
Fixpoint last_newline (n i : nat) (code : text) : option (nat * nat) :=
  match code with
  | [] => None
  | c :: code =>
      if decide (c = newline) then
        match last_newline (S n) (S i) code with Some r => Some r | None => Some (n, i) end
      else last_newline n (S i) code
  end.

(** Line and column, from 1, of an offset in bytes. *)
Definition line_and_column (code : text) (source_offset : Z) : option (Z * Z) :=
  let offset := source_offset mod 2 ^ 64 in
  if Z.of_nat (length code) <? offset then None
  else Some (match last_newline 0 0 (take (Z.to_nat offset) code) with
             | Some (n, i) => ((Z.of_nat n + 2) mod 2 ^ 32, (source_offset - Z.of_nat i) mod 2 ^ 32)
             | None => (1, (source_offset + 1) mod 2 ^ 32)
             end).

Definition source_mapped_module_load_referrer (referrer : Url) (code : text) (source_offset : Z) :
    M (option ModuleLoadReferrer) :=
  match line_and_column code source_offset with
  | None => mret None
  | Some (line_number, column_number) =>
      application ← apply_source_map (as_str referrer) line_number column_number;
      mret (match application with
            | Unchanged => Some (mkReferrer referrer line_number column_number)
            | LineAndColumn l c => Some (mkReferrer referrer l c)
            | LineAndColumnAndFileName file_name l c =>
                u ← ok (url_parse file_name); Some (mkReferrer u l c)
            end)
  end.

(** *** [op_current_user_call_site] *)

(** A frame of [v8::StackTrace]. *)
Record StackFrame := mkStackFrame {
  is_user_javascript : bool;
  get_line_number : Z;
  get_column : Z;
  get_script_name : option text;
  frame_is_eval : bool
}.

(** The file, line and column that the op returns and writes to its buffer. *)
Definition call_site := (text * Z * Z)%type.

Definition frame_call_site (frame : StackFrame) : M call_site :=
  let line := get_line_number frame in
  let column := get_column frame in
  match get_script_name frame with
  | Some file_name =>
      application ← apply_source_map file_name line column;
      mret (match application with
            | Unchanged => (file_name, line, column)
            | LineAndColumn l c => (file_name, l, c)
            | LineAndColumnAndFileName f l c => (f, l, c)
            end)
  | None => mret (if frame_is_eval frame then $"[eval]" else $"[unknown]", line, column)
  end.

(** [i != frame_count - 1] is [rest ≠ []]. *)
Definition skips_frame (frame : StackFrame) (last : bool) : bool :=
  match get_script_name frame with
  | Some file_name =>
      (negb (starts_with $"file:" file_name) || contains $"/node_modules/" file_name) && negb last
  | None => false
  end.

Fixpoint op_current_user_call_site (frames : list StackFrame) : M call_site :=
  match frames with
  | [] => λ _, Panic Unreachable
  | frame :: rest =>
      if negb (is_user_javascript frame) then op_current_user_call_site rest
      else if skips_frame frame (bool_decide (rest = [])) then op_current_user_call_site rest
      else frame_call_site frame
  end.
End source_maps.

(** * The caches implement the reference *)

Section reference.
Context (profile : profile) `{UrlCrate Url} `{SourceMapCrate SourceMap} (loader : MapLoader).
Abbreviation mapper := (SourceMapper SourceMap).
Implicit Types (m r : mapper) (f : text).

Inductive operation :=
  | AddExt (name data : text)
  | TakeExt
  | AddMap (name : text) (sm : SourceMap)
  | AddUrl (name url : text)
  | Apply (f : text) (line column : Z)
  | SourceLine (f : text) (line : Z).

Inductive answer :=
  | Silent
  | Position (a : SourceMapApplication)
  | Line (l : option text).

Definition register (o : operation) m : mapper :=
  match o with
  | AddExt name data => add_ext_source_map name data m
  | TakeExt => (take_ext_source_maps m).2
  | AddMap name sm => add_source_map name sm m
  | AddUrl name url => add_source_map_url name url m
  | Apply _ _ _ | SourceLine _ _ => m
  end.

Definition exec (o : operation) : stateM mapper answer :=
  match o with
  | Apply f line column => a ← apply_source_map profile loader f line column; mret (Position a)
  | SourceLine f line => l ← get_source_line profile loader f line; mret (Line l)
  | _ => λ m, Ret (Silent, register o m)
  end.

(** The reference keeps what was added, and asks again for everything else. *)
Definition ref_source_map r f : option SourceMap :=
  match maps r !! f with Some sm => sm | None => (find_source_map loader r f).1 end.

Definition ref_exec (o : operation) : stateM mapper answer := λ r,
  match o with
  | Apply f line column =>
      line ← sub_w profile 32 line 1;
      column ← sub_w profile 32 column 1;
      a ← map_position profile loader (ref_source_map r f) f line column;
      Ret (Position a, r)
  | SourceLine f line =>
      index ← add_s profile 64 line (-1);
      Ret (Line (s ← get_source_mapped_source_line loader f (index mod 2 ^ 64);
                 if (length s <=? MAX_SOURCE_LINE_LENGTH)%nat then Some s else None), r)
  | _ => Ret (Silent, register o r)
  end.

Fixpoint run_all_ops (step : operation → stateM mapper answer) (l : list operation) :
    stateM mapper (list answer) :=
  match l with
  | [] => mret []
  | o :: l => a ← step o; answers ← run_all_ops step l; mret (a :: answers)
  end.

Definition answers_of {A} (o : outcome (A * mapper)) : outcome A :=
  match o with Ret (a, _) => Ret a | Panic f => Panic f end.

(** A file's maps of extensions and URLs are registered before positions in it are asked
    for.  [add_source_map] may come at any time. *)
Fixpoint registered_first (seen : list text) (l : list operation) : Prop :=
  match l with
  | [] => True
  | Apply f _ _ :: l => registered_first (f :: seen) l
  | (AddExt name _ :: l) | (AddUrl name _ :: l) => (name ∉ seen) ∧ registered_first seen l
  | TakeExt :: l => seen = [] ∧ registered_first seen l
  | (AddMap _ _ :: l) | (SourceLine _ _ :: l) => registered_first seen l
  end.

Global Instance registered_first_dec seen l : Decision (registered_first seen l).
Proof. revert seen. induction l as [|[] l IH]; intros seen; simpl; apply _. Defined.

(** ** Questions *)

Definition question_file (q : question) : option text :=
  match q with AskMap f | AskExternal f _ => Some f | AskLine _ _ => None end.

(** Nothing that is cached is asked again. *)
Record asked_once m : Prop := {
  questions_nodup : NoDup (asked m);
  questions_maps q f : q ∈ asked m → question_file q = Some f → is_Some (maps m !! f);
  questions_lines f line : AskLine f line ∈ asked m → is_Some (source_lines m !! (f, line))
}.

Lemma find_source_map_questions m f :
  NoDup (find_source_map loader m f).2 ∧ ∀ q, q ∈ (find_source_map loader m f).2 → question_file q = Some f.
Proof.
  unfold find_source_map. destruct (ext_source_maps m !! f ≫= from_slice); simpl.
  { split; [constructor|]. intros q Hq. by apply elem_of_nil in Hq. }
  destruct (source_map_urls m !! f) as [url|]; simpl; [|split; [apply NoDup_singleton|]];
    [|intros q ->%list_elem_of_singleton; done].
  destruct (load_external_source_map loader url ≫= from_slice); simpl.
  - split; [apply NoDup_singleton|]. by intros q ->%list_elem_of_singleton.
  - split; [apply NoDup_cons; split; [|apply NoDup_singleton]; by intros ?%list_elem_of_singleton|].
    intros q. rewrite elem_of_cons, list_elem_of_singleton. by intros [->| ->].
Qed.

Lemma cached_source_map_asks f m sm m' :
  cached_source_map loader f m = Ret (sm, m') → asked_once m → asked_once m'.
Proof.
  unfold cached_source_map. intros Hc [Hnd Hm Hl].
  destruct (maps m !! f) as [o|] eqn:Hf; [by simplify_eq|].
  pose proof (find_source_map_questions m f) as [Hq1 Hq2].
  destruct (find_source_map loader m f) as [sm' q]. simplify_eq/=. split; simpl.
  - apply NoDup_app. split_and!; [done| |done]. intros x Hx Hin.
    destruct (Hm x f Hx (Hq2 _ Hin)) as [y Hy]. congruence.
  - intros x g Hx Hg. rewrite lookup_insert_is_Some. apply elem_of_app in Hx as [Hx|Hx].
    + destruct (decide (f = g)); [by left|]. right. split; [done|]. by eapply Hm.
    + left. specialize (Hq2 _ Hx). congruence.
  - intros g line [Hx|Hx]%elem_of_app; [by apply Hl|]. by specialize (Hq2 _ Hx).
Qed.

Lemma exec_asks o m a m' : exec o m = Ret (a, m') → asked_once m → asked_once m'.
Proof.
  intros He Hm. destruct o as [name data| |name sm|name url|f line column|f line]; simpl in He.
  - simplify_eq. destruct Hm. by split.
  - simplify_eq. destruct Hm. by split.
  - simplify_eq. destruct Hm as [Hnd Hm Hl]. split; [done| |done].
    intros q f Hq Hf. simpl. rewrite lookup_insert_is_Some.
    destruct (decide (name = f)); [by left|]. right. split; [done|]. by eapply Hm.
  - simplify_eq. destruct Hm. by split.
  - apply stateM_bind_inv in He as (x & m1 & Hx & [= _ <-]). unfold apply_source_map in Hx.
    apply bind_Ret_inv in Hx as (l1 & _ & Hx). apply bind_Ret_inv in Hx as (c1 & _ & Hx).
    apply bind_Ret_inv in Hx as ([sm m2] & Hc & Hx). apply bind_Ret_inv in Hx as (r & _ & [= _ <-]).
    by eapply cached_source_map_asks.
  - apply stateM_bind_inv in He as (x & m1 & Hx & [= _ <-]). unfold get_source_line in Hx.
    destruct (source_lines m !! (f, line)) as [o|] eqn:Hf; [by simplify_eq|].
    apply bind_Ret_inv in Hx as (index & _ & [= _ <-]). destruct Hm as [Hnd Hm Hl]. split; simpl.
    + apply NoDup_app. split_and!; [done| |apply NoDup_singleton].
      intros q Hq ->%list_elem_of_singleton. destruct (Hl _ _ Hq). congruence.
    + intros q g [Hq| ->%list_elem_of_singleton]%elem_of_app Hg; [by eapply Hm|done].
    + intros g line' Hq. rewrite lookup_insert_is_Some.
      apply elem_of_app in Hq as [Hq|[= -> ->]%list_elem_of_singleton]; [|by left].
      destruct (decide ((f, line) = (g, line'))); [by left|]. right. split; [done|]. by apply Hl.
Qed.

Lemma run_asks l m answers m' :
  run_all_ops exec l m = Ret (answers, m') → asked_once m → asked_once m'.
Proof.
  revert m answers. induction l as [|o l IH]; intros m answers; cbn [run_all_ops]; [by intros [= _ <-]|].
  intros (a & m1 & Ha & (as' & m2 & Hl & [= _ <-])%stateM_bind_inv)%stateM_bind_inv Hm.
  eapply IH; [done|]. by eapply exec_asks.
Qed.

(** ** Simulation *)

Record simulates (seen : list text) m r : Prop := {
  sim_ext : ext_source_maps m = ext_source_maps r;
  sim_urls : source_map_urls m = source_map_urls r;
  sim_cached f sm : maps m !! f = Some sm → ref_source_map r f = sm;
  sim_new f : maps m !! f = None → maps r !! f = None;
  sim_seen f : f ∉ seen → maps m !! f = maps r !! f;
  sim_lines f line o : source_lines m !! (f, line) = Some o →
    ∃ index, add_s profile 64 line (-1) = Ret index ∧
      o = (s ← get_source_mapped_source_line loader f (index mod 2 ^ 64);
           if (length s <=? MAX_SOURCE_LINE_LENGTH)%nat then Some s else None)
}.

Lemma find_source_map_ext m r f :
  ext_source_maps m !! f = ext_source_maps r !! f → source_map_urls m !! f = source_map_urls r !! f →
  find_source_map loader m f = find_source_map loader r f.
Proof. intros He Hu. unfold find_source_map. by rewrite He, Hu. Qed.

Lemma ref_source_map_ext r r' f :
  maps r !! f = maps r' !! f → ext_source_maps r !! f = ext_source_maps r' !! f →
  source_map_urls r !! f = source_map_urls r' !! f → ref_source_map r f = ref_source_map r' f.
Proof. intros Hm He Hu. unfold ref_source_map. by rewrite Hm, (find_source_map_ext r r'). Qed.

(** A registration that touches no file that was asked for. *)
Lemma register_simulates seen m r o :
  simulates seen m r →
  match o with
  | AddExt name _ | AddUrl name _ => name ∉ seen
  | TakeExt => seen = []
  | _ => True
  end → simulates seen (register o m) (register o r).
Proof.
  intros [He Hu Hc Hn Hs Hl] Ho.
  assert (∀ f sm, maps m !! f = Some sm → f ∉ seen → maps r !! f = Some sm) as Hadded
    by (intros f sm Hf Hout; by rewrite <- Hs).
  destruct o as [name data| |name sm|name url|f line column|f line]; simpl in *; try by split.
  - split; simpl; try done; [by rewrite He|]. intros f sm Hf.
    destruct (decide (f = name)) as [->|Hne].
    + unfold ref_source_map. simpl. by rewrite (Hadded _ _ Hf Ho).
    + rewrite <- (Hc f sm Hf). apply ref_source_map_ext; [done| |done]. simpl. by rewrite lookup_insert_ne.
  - subst seen. split; simpl; try done. intros f sm Hf. unfold ref_source_map. simpl.
    by rewrite (Hadded _ _ Hf) by apply not_elem_of_nil.
  - split; simpl; try done; intros f.
    + intros sm'. destruct (decide (f = name)) as [->|Hne].
      * rewrite lookup_insert_eq. intros [= <-]. unfold ref_source_map. simpl. by rewrite lookup_insert_eq.
      * rewrite lookup_insert_ne by done. intros Hf. rewrite <- (Hc f sm' Hf).
        apply ref_source_map_ext; [|done..]. simpl. by rewrite lookup_insert_ne.
    + destruct (decide (f = name)) as [->|Hne]; [by rewrite lookup_insert_eq|].
      rewrite !lookup_insert_ne by done. apply Hn.
    + intros Hout. destruct (decide (f = name)) as [->|Hne]; [by rewrite !lookup_insert_eq|].
      rewrite !lookup_insert_ne by done. by apply Hs.
  - split; simpl; try done; [by rewrite Hu|]. intros f sm Hf.
    destruct (decide (f = name)) as [->|Hne].
    + unfold ref_source_map. simpl. by rewrite (Hadded _ _ Hf Ho).
    + rewrite <- (Hc f sm Hf). apply ref_source_map_ext; [done..|]. simpl. by rewrite lookup_insert_ne.
Qed.

Lemma cached_source_map_simulates seen m r f :
  simulates seen m r → ∃ m', cached_source_map loader f m = Ret (ref_source_map r f, m') ∧
    simulates (f :: seen) m' r.
Proof.
  intros [He Hu Hc Hn Hs Hl]. unfold cached_source_map. destruct (maps m !! f) as [sm|] eqn:Hf.
  - exists m. rewrite (Hc f sm Hf). split; [done|]. split; [done..| |done].
    intros g [_ Hg]%not_elem_of_cons. by apply Hs.
  - assert ((find_source_map loader m f).1 = ref_source_map r f) as Href.
    { unfold ref_source_map. rewrite (Hn f Hf). f_equal. apply find_source_map_ext; congruence. }
    destruct (find_source_map loader m f) as [sm q]. simpl in Href. subst sm.
    eexists. split; [done|]. split; simpl; try done; intros g.
    + intros sm'. destruct (decide (g = f)) as [->|Hne]; [rewrite lookup_insert_eq; by intros [= <-]|].
      rewrite lookup_insert_ne by done. apply Hc.
    + destruct (decide (g = f)) as [->|Hne]; [by rewrite lookup_insert_eq|].
      rewrite lookup_insert_ne by done. apply Hn.
    + intros [Hne Hg]%not_elem_of_cons. rewrite lookup_insert_ne by done. by apply Hs.
Qed.

(** One operation gives the same answer and keeps the simulation. *)
Lemma exec_simulates seen m r o :
  simulates seen m r → registered_first seen [o] →
  let seen' := match o with Apply f _ _ => f :: seen | _ => seen end in
  match exec o m, ref_exec o r with
  | Ret (a, m'), Ret (b, r') => a = b ∧ simulates seen' m' r'
  | Panic f, Panic g => f = g
  | _, _ => False
  end.
Proof.
  intros Hsim Ho. pose proof (register_simulates seen m r o Hsim) as Hreg.
  destruct o as [name data| |name sm|name url|f line column|f line]; simpl in Ho, Hreg |- *;
    try (split; [done|by apply Hreg; try apply Ho]).
  - unfold mbind at 1, stateM_bind, apply_source_map. destruct (sub_w profile 32 line 1) as [l|]; [|done].
    destruct (sub_w profile 32 column 1) as [c|]; [|done]. rewrite !bind_Ret.
    destruct (cached_source_map_simulates seen m r f Hsim) as (m' & -> & Hsim'). rewrite !bind_Ret.
    by destruct (map_position _ _ _ _ _ _).
  - unfold mbind at 1, stateM_bind, get_source_line.
    destruct (source_lines m !! (f, line)) as [o|] eqn:Hf.
    + destruct (sim_lines _ _ _ Hsim f line o Hf) as (index & -> & ->). by rewrite !bind_Ret.
    + destruct (add_s profile 64 line (-1)) as [index|] eqn:Hi; [|done]. rewrite !bind_Ret. simpl.
      split; [done|]. destruct Hsim as [He Hu Hc Hn Hs Hl]. split; simpl; try done.
      intros g line' o. destruct (decide ((g, line') = (f, line))) as [[= -> ->]|Hne].
      * rewrite lookup_insert_eq. intros [= <-]. by exists index.
      * rewrite lookup_insert_ne by done. apply Hl.
Qed.

Lemma run_simulates seen l m r :
  simulates seen m r → registered_first seen l →
  answers_of (run_all_ops exec l m) = answers_of (run_all_ops ref_exec l r).
Proof.
  revert seen m r. induction l as [|o l IH]; intros seen m r Hsim Hl; [done|].
  assert (registered_first seen [o] ∧
    registered_first (match o with Apply f _ _ => f :: seen | _ => seen end) l) as [Ho Hl']
    by (destruct o; simpl in *; tauto).
  pose proof (exec_simulates seen m r o Hsim Ho) as Hstep. cbn [run_all_ops].
  unfold mbind, stateM_bind. simpl in Hstep.
  destruct (exec o m) as [[a m']|]; destruct (ref_exec o r) as [[b r']|]; try done; simpl; [|by subst].
  destruct Hstep as [-> Hsim']. specialize (IH _ m' r' Hsim' Hl').
  destruct (run_all_ops exec l m') as [[? ?]|]; destruct (run_all_ops ref_exec l r') as [[? ?]|];
    simpl in *; by simplify_eq.
Qed.

(** C23. The caches of the source mapper change no answer: when the maps of a file are
    registered before it is asked for, any sequence of operations answers (and panics) as
    the reference that looks everything up each time; and, in any sequence, the loader is
    asked at most once for the map of a file, for its external map and for each line. *)
Theorem source_mapper_refines l :
  (registered_first [] l → answers_of (run_all_ops exec l SourceMapper_new) =
    answers_of (run_all_ops ref_exec l SourceMapper_new)) ∧
  ∀ answers m, run_all_ops exec l SourceMapper_new = Ret (answers, m) → NoDup (asked m).
Proof.
  split.
  - intros Hl. by apply (run_simulates []).
  - intros answers m Hrun. apply (run_asks _ _ _ _ Hrun). split; simpl; [constructor|..].
    + intros q f Hq. by apply elem_of_nil in Hq.
    + intros f line Hq. by apply elem_of_nil in Hq.
Qed.
End reference.

(** * Offsets and positions *)

Section positions.
Implicit Types (pre post a b code : text).

Definition newlines code : Z := Z.of_nat (length (filter (λ c, c = newline) code)).
(** The column, from 1, of the end of [pre]. *)
Definition end_column pre : Z :=
  1 + Z.of_nat (length (match rsplit_once newline pre with Some (_, b) => b | None => pre end)).

Lemma rsplit_once_None c s : rsplit_once c s = None → c ∉ s.
Proof.
  induction s as [|d s IH]; simpl; [intros _; apply not_elem_of_nil|].
  destruct (rsplit_once c s) as [[]|]; [done|]. case_decide; [done|]. intros _.
  apply not_elem_of_cons. split; [done|by apply IH].
Qed.

Lemma newlines_app a b : newlines (a ++ b) = newlines a + newlines b.
Proof. unfold newlines. rewrite filter_app, length_app. lia. Qed.

Lemma newlines_zero b : newlines b = 0 ↔ newline ∉ b.
Proof.
  induction b as [|c b IH]; [split; [intros; apply not_elem_of_nil|done]|].
  change (c :: b) with ([c] ++ b). rewrite newlines_app, not_elem_of_app, <- IH, list_elem_of_singleton.
  unfold newlines at 1. rewrite filter_cons, filter_nil.
  assert (0 <= newlines b) by (unfold newlines; lia).
  case_decide; simpl; split; [lia| |split; [congruence|lia]|lia]. intros [Hc _]. congruence.
Qed.

Lemma last_newline_None n i code : newline ∉ code → last_newline n i code = None.
Proof.
  revert n i. induction code as [|c code IH]; intros n i; [done|]. intros [Hc Ho]%not_elem_of_cons.
  simpl. rewrite decide_False by congruence. by apply IH.
Qed.

Lemma last_newline_Some n i a b :
  newline ∉ b →
  last_newline n i (a ++ newline :: b) = Some ((n + length (filter (λ c, c = newline) a))%nat, (i + length a)%nat).
Proof.
  intros Hb. revert n i. induction a as [|c a IH]; intros n i; simpl.
  - rewrite last_newline_None by done. do 2 f_equal; lia.
  - rewrite filter_cons. case_decide; rewrite IH; simpl; do 2 f_equal; lia.
Qed.

Lemma line_and_column_prefix pre post :
  Z.of_nat (length pre) < 2 ^ 31 →
  line_and_column (pre ++ post) (Z.of_nat (length pre)) = Some (1 + newlines pre, end_column pre).
Proof.
  intros Hlen. unfold line_and_column. rewrite Z.mod_small by lia. rewrite length_app.
  rewrite (proj2 (Z.ltb_ge _ _)) by lia. rewrite Nat2Z.id, take_app_length. f_equal.
  unfold end_column. destruct (rsplit_once newline pre) as [[a b]|] eqn:Hr.
  - apply rsplit_once_Some in Hr as [-> Hb]. rewrite last_newline_Some by done.
    rewrite length_app in *. simpl in *.
    assert (newlines (a ++ newline :: b) = newlines a + 1) as ->.
    { change (newline :: b) with ([newline] ++ b).
      by rewrite !newlines_app, (proj2 (newlines_zero b) Hb). }
    pose proof (length_filter (λ c, c = newline) a) as Hle. unfold newlines.
    rewrite !Z.mod_small by lia. f_equal; lia.
  - rewrite last_newline_None by (by apply rsplit_once_None).
    rewrite (proj2 (newlines_zero pre)) by (by apply rsplit_once_None).
    rewrite Z.mod_small by lia. f_equal; lia.
Qed.

(** More text on the same line is further to the right. *)
Lemma end_column_same_line a b : newline ∉ b → end_column (a ++ b) = end_column a + Z.of_nat (length b).
Proof.
  intros Hb. unfold end_column. destruct (rsplit_once newline a) as [[a1 a2]|] eqn:Ha.
  - apply rsplit_once_Some in Ha as [-> Ha2].
    assert (rsplit_once newline ((a1 ++ newline :: a2) ++ b) = Some (a1, a2 ++ b)) as ->.
    { apply rsplit_once_Some. rewrite <- app_assoc. split; [done|]. by apply not_elem_of_app. }
    rewrite length_app. lia.
  - apply rsplit_once_None in Ha. destruct (rsplit_once newline (a ++ b)) as [[c d]|] eqn:Hr.
    + apply rsplit_once_Some in Hr as [Heq _]. exfalso.
      assert (newline ∈ a ++ b) as [?|?]%elem_of_app; [|done..].
      rewrite Heq. apply elem_of_app. right. by left.
    + rewrite length_app. lia.
Qed.

(** The position of an import in its source.  An offset within the code (of less than
    2 GB) has as line the number of newlines before it plus one and as column its distance
    from the last of them; different offsets have different positions; an offset that is
    negative or behind the end of the code has none. *)
Lemma offset_positions code :
  Z.of_nat (length code) < 2 ^ 31 →
  (∀ n, (n <= length code)%nat → line_and_column code (Z.of_nat n) =
    Some (1 + newlines (take n code), end_column (take n code))) ∧
  (∀ i j, (i <= length code)%nat → (j <= length code)%nat →
    line_and_column code (Z.of_nat i) = line_and_column code (Z.of_nat j) → i = j) ∧
  ∀ z, - 2 ^ 31 <= z < 0 ∨ Z.of_nat (length code) < z < 2 ^ 31 → line_and_column code z = None.
Proof.
  intros Hlen.
  assert (∀ n, (n <= length code)%nat → line_and_column code (Z.of_nat n) =
    Some (1 + newlines (take n code), end_column (take n code))) as Hpos.
  { intros n Hn. rewrite <- (take_drop n code) at 1.
    assert (length (take n code) = n) as Hl by (rewrite length_take; lia).
    rewrite <- Hl at 3. apply line_and_column_prefix. lia. }
  assert (∀ i j, (i <= j <= length code)%nat →
    line_and_column code (Z.of_nat i) = line_and_column code (Z.of_nat j) → i = j) as Hinj.
  { intros i j Hij. rewrite !Hpos by lia. intros [= Hline Hcol].
    replace (take j code) with (take i code ++ take (j - i) (drop i code)) in Hline, Hcol
      by (rewrite take_take_drop; f_equal; lia).
    rewrite newlines_app in Hline. rewrite end_column_same_line in Hcol by (apply newlines_zero; lia).
    rewrite length_take, length_drop in Hcol. lia. }
  split; [done|]. split.
  - intros i j Hi Hj Heq. destruct (decide (i <= j)%nat); [apply Hinj; [lia|done]|].
    symmetry. apply Hinj; [lia|done].
  - intros z Hz. unfold line_and_column. rewrite (proj2 (Z.ltb_lt _ _)); [done|].
    destruct Hz as [Hz|Hz]; [|rewrite Z.mod_small; lia].
    rewrite <- (Z.mod_add z 1), Z.mod_small; lia.
Qed.
End positions.

(** * Examples *)

#[local] Existing Instance demo_url.

(** A map from its text, which is the one of [file:///a.ts] or broken. *)
Definition demo_map : SourceMapCrate (list (Z * Z * Token)) := {|
  from_slice s := if decide (s = $"map") then Some [(0, 20, mkToken 0 16 (Some $"../a.ts")); (4, 0, mkToken 8 2 None)] else None;
  decode_data_url s := None;
  lookup_token l line column := snd <$> head (filter (λ e, e.1 = (line, column)) l)
|}.
#[local] Existing Instance demo_map.

Definition demo_loader : MapLoader := mkMapLoader
  (λ f, if decide (f = $"file:///b.js") then Some $"map" else None)
  (λ u, if decide (u = $"file:///c.map") then Some $"map" else None)
  (λ _, Some true) (λ f n, if n =? 1 then Some $"let x = 1;" else None).

Definition demo_ops : list (operation (SourceMap:=list (Z * Z * Token))) :=
  [AddExt $"ext:a.js" $"map"; AddUrl $"file:///c.js" $"file:///c.map";
   Apply $"ext:a.js" 5 1; Apply $"ext:a.js" 1 1; Apply $"file:///c.js" 1 21; Apply $"file:///b.js" 5 1;
   Apply $"file:///d.js" 1 1; Apply $"file:///b.js" 1 21; SourceLine $"file:///b.js" 2; SourceLine $"file:///b.js" 2].

(** [source_mapper_refines]: the loader is asked four times. *)
Lemma source_mapper_refines_witness :
  answers_of (run_all_ops (exec Debug demo_loader) demo_ops SourceMapper_new) =
    answers_of (run_all_ops (ref_exec Debug demo_loader) demo_ops SourceMapper_new) ∧
  answers_of (run_all_ops (exec Debug demo_loader) demo_ops SourceMapper_new) =
    Ret [Silent; Silent; Position (LineAndColumn 9 3); Position Unchanged;
         Position (LineAndColumnAndFileName $"file:///../a.ts" 1 17); Position (LineAndColumn 9 3);
         Position Unchanged; Position (LineAndColumnAndFileName $"file:///../a.ts" 1 17);
         Line (Some $"let x = 1;"); Line (Some $"let x = 1;")] ∧
  match run_all_ops (exec Debug demo_loader) demo_ops SourceMapper_new with
  | Ret (_, m) => length (asked m) = 4%nat
  | Panic _ => False
  end.
Proof.
  split; [|split; by vm_compute].
  apply (proj1 (source_mapper_refines Debug demo_loader demo_ops)), (bool_decide_unpack _). by vm_compute.
Defined.

Definition demo_code : text := $"let x;" ++ newline :: newline :: $"import 'a';".

Lemma offset_positions_example :
  line_and_column demo_code 8 = Some (3, 1) ∧ line_and_column demo_code 7 = Some (2, 1) ∧
  line_and_column demo_code 20 = None ∧
  ∀ i j, (i <= length demo_code)%nat → (j <= length demo_code)%nat →
    line_and_column demo_code (Z.of_nat i) = line_and_column demo_code (Z.of_nat j) → i = j.
Proof.
  split; [by vm_compute|]. split; [by vm_compute|]. split; [by vm_compute|].
  apply (offset_positions demo_code). by vm_compute.
Qed.

(** "é" is one character of two bytes. *)
Definition accented_code : text := "195"%char :: "169"%char :: newline :: $"import 'a';".
Definition characters (s : text) : nat := length (filter (λ c, continuation c = false) s).

(** Where positions go wrong.  (1) Line 0 panics in debug builds, and in release builds
    becomes the last line that exists.  (2) A map that is registered after its file was
    asked for is never seen.  (3) [op_current_user_call_site] reaches its [unreachable!] when
    code from elsewhere than the file system was called by internal code.  (4) An offset that
    counts characters, as the offsets of V8 do, has a wrong position behind a character of
    several bytes: the import at character 2, on line 2, is reported on line 1. *)
Lemma source_map_gaps :
  (∀ f column m, apply_source_map Debug demo_loader f 0 column m = Panic Overflow) ∧
  (∀ f m, apply_source_map Release demo_loader f 0 1 m =
    ('(sm, m) ← cached_source_map demo_loader f m;
     r ← map_position Release demo_loader sm f (2 ^ 32 - 1) 0; Ret (r, m))) ∧
  answers_of (run_all_ops (exec Debug demo_loader)
    [Apply $"ext:a.js" 5 1; AddExt $"ext:a.js" $"map"; Apply $"ext:a.js" 5 1] SourceMapper_new) =
    Ret [Position Unchanged; Silent; Position Unchanged] ∧
  op_current_user_call_site Debug demo_loader
    [mkStackFrame true 1 1 (Some $"https://example.com/a.js") false; mkStackFrame false 9 9 (Some $"ext:timers.js") false]
    SourceMapper_new = Panic Unreachable ∧
  (characters (take 3 accented_code) = 2%nat ∧ line_and_column accented_code 2 = Some (1, 3) ∧
    line_and_column accented_code 3 = Some (2, 1)).
Proof.
  split; [done|]. split; [intros f m; unfold apply_source_map; by rewrite (eq_refl : sub_w Release 32 0 1 = Ret (2 ^ 32 - 1))|].
  split_and!; by vm_compute.
Qed.
