(* ===== verification/StackTraces.v ===== *)
(** Frames of JavaScript stack traces ([core/error.rs]): the origin of evaluated code, names
    of files, the text of a frame, and the call sites that user code sees.

    Strings are bytes, so slices may panic; the [url] and [percent_encoding] crates and V8's
    call sites are parameters. *)

From S2P Require Import Prelude RustStr Specifiers SourceMaps.

Local Open Scope Z_scope.

(** * Data *)

Record JsStackFrame := mkFrame {
  type_name : option text;
  function_name : option text;
  method_name : option text;
  file_name : option text;
  frame_line : option Z;
  frame_column : option Z;
  eval_origin : option text;
  is_top_level : option bool;
  is_eval : bool;
  is_native : bool;
  is_constructor : bool;
  is_async : bool;
  is_promise_all : bool;
  is_wasm : bool;
  promise_index : option Z
}.

Global Instance JsStackFrame_eq_dec : EqDecision JsStackFrame.
Proof. solve_decision. Defined.

Definition from_location (file_name : option text) (line_number column_number : option Z) : JsStackFrame :=
  mkFrame None None None file_name line_number column_number None None false false false false false
    false None.

(** [format!("{file}:{line}:{column}")]. *)
Definition show_position (file : text) (line column : Z) : text :=
  file ++ $":" ++ show_i64 line ++ $":" ++ show_i64 column.

Definition maybe_format_location (frame : JsStackFrame) : option text :=
  f ← file_name frame; l ← frame_line frame; c ← frame_column frame; Some (show_position f l c).

(** * The origin of evaluated code *)

(** Text before the location, the location, text after it. *)
Definition eval_location := (text * (text * Z * Z) * text)%type.

Definition EVAL_AT : text := $"eval at ".

(** The [?] of a function that returns an [Option]. *)
Definition try_some {A B} (m : option A) (k : A → outcome (option B)) : outcome (option B) :=
  match m with Some a => k a | None => Ret None end.
Notation "x ←? m ; k" := (try_some m (λ x, k))
  (at level 20, m at level 100, k at level 200, only parsing).

Definition parse_eval_origin (eval_origin : text) : outcome (option eval_location) :=
  i ←? rfind EVAL_AT eval_origin;
  let innermost_start := (i + length EVAL_AT)%nat in
  tail ← slice_from eval_origin innermost_start;
  j ←? find $"(" tail;
  let innermost_start := (innermost_start + (j + 1))%nat in
  if (length eval_origin <=? innermost_start)%nat then Ret None
  else
    inner ← slice_from eval_origin innermost_start;
    let parts := rsplitn 3 ":" inner in
    column_number_with_rest ←? parts !! 0%nat;
    column_number_end ←? find $")" column_number_with_rest;
    column_text ← slice_to column_number_with_rest column_number_end;
    column_number ←? parse_i64 column_text;
    line_text ←? parts !! 1%nat;
    line_number ←? parse_i64 line_text;
    file_name ←? parts !! 2%nat;
    k ←? rfind $":" eval_origin;
    let innermost_end := (k + 1 + column_number_end)%nat in
    before ← slice_to eval_origin innermost_start;
    after ← slice_from eval_origin innermost_end;
    Ret (Some (before, (file_name, line_number, column_number), after)).

(** * Names of files *)

Record FileNameParts := mkParts { working_dir_path : option text; part_file_name : text }.

Definition DATA_URL_ABBREV_THRESHOLD : nat := 150.

Section names.
Context (profile : profile) `{UrlCrate Url} `{EqDecision Url}.
(** [percent_decode_str(s).decode_utf8()]. *)
Context (percent_decode : text → option text).

Definition to_percent_decoded_str (s : text) : text := default s (percent_decode s).

Definition relative_specifier (from to : Url) : option text :=
  let is_dir := ends_with $"/" (url_path to) in
  if is_dir && bool_decide (from = to) then Some $"./"
  else
    text ← make_relative from to;
    let text := if starts_with $"../" text || starts_with $"./" text then text else $"./" ++ text in
    Some (to_percent_decoded_str text).

Definition relative_specifier_within (from to : Url) : option text :=
  relative ← relative_specifier from to;
  if starts_with $"../" relative then None else Some relative.

Definition abbrev_file_name (file_name : text) (maybe_initial_cwd : option Url) : outcome (option FileNameParts) :=
  url ←? ok (url_parse file_name);
  if decide (scheme url = $"data") then
    if (length file_name <=? DATA_URL_ABBREV_THRESHOLD)%nat then Ret (Some (mkParts None file_name))
    else
      ht ←? split_once "," (url_path url);
      let len := length ht.2 in
      start ←? get_range ht.2 0 20;
      from ← sub_w profile 64 (Z.of_nat len) 20;
      tail_end ←? get_range ht.2 (Z.to_nat from) len;
      Ret (Some (mkParts None (scheme url ++ $":" ++ ht.1 ++ $"," ++ start ++ $"......" ++ tail_end)))
  else
    Ret (initial_cwd ← maybe_initial_cwd;
         relative ← relative_specifier_within initial_cwd url;
         Some (mkParts (Some (as_str initial_cwd)) relative)).

Definition format_file_name (file_name : text) (maybe_initial_cwd : option Url) : outcome FileNameParts :=
  parts ← abbrev_file_name file_name maybe_initial_cwd;
  Ret (default (mkParts None (to_percent_decoded_str file_name)) parts).

(** The directory and the name, as they are displayed. *)
Definition joined_name (parts : FileNameParts) : text :=
  match working_dir_path parts with
  | Some dir => dir ++ trim_start_matches $"./" (part_file_name parts)
  | None => part_file_name parts
  end.

Definition format_eval_origin (eval_origin : text) (maybe_initial_cwd : option Url) : outcome text :=
  parsed ← parse_eval_origin eval_origin;
  match parsed with
  | None => Ret eval_origin
  | Some (before, (file, line, col), after) =>
      formatted_file ← format_file_name file maybe_initial_cwd;
      Ret (before ++ joined_name formatted_file ++ $":" ++ show_i64 line ++ $":" ++ show_i64 col ++ after)
  end.

(** * The text of a frame *)

Inductive ErrorElement :=
  | Anonymous | NativeFrame | LineNumber | ColumnNumber | FunctionName | FileName
  | WorkingDirPath | EvalOrigin | PromiseAll | PlainText.

(** [ErrorFormat::fmt_element]. *)
Definition ErrorFormat := ErrorElement → bool → text → text.
Definition NoAnsiColors : ErrorFormat := λ _ _ s, s.

Definition in_extension_code (frame : JsStackFrame) : bool :=
  match file_name frame with Some f => starts_with $"ext:" f | None => false end.

Section format.
Context (F : ErrorFormat).

Definition format_file (frame : JsStackFrame) (maybe_initial_cwd : option Url) : outcome text :=
  let fmt e s := F e (in_extension_code frame) s in
  match default [] (file_name frame) with
  | [] =>
      origin ← (if is_eval frame then
                  eval_origin ← unwrap (eval_origin frame);
                  formatted_eval_origin ← format_eval_origin eval_origin maybe_initial_cwd;
                  Ret (fmt EvalOrigin formatted_eval_origin ++ fmt PlainText $", ")
                else Ret []);
      Ret (origin ++ fmt Anonymous $"<anonymous>")
  | file_name =>
      parts ← format_file_name file_name maybe_initial_cwd;
      Ret (match working_dir_path parts with
           | Some working_dir_path =>
               fmt WorkingDirPath working_dir_path ++ fmt FileName (trim_start_matches $"./" (part_file_name parts))
           | None => fmt FileName (part_file_name parts)
           end)
  end.

Definition format_position (frame : JsStackFrame) : outcome text :=
  let fmt e s := F e (in_extension_code frame) s in
  if is_wasm frame then
    line ← (match frame_line frame with
            | Some line_number =>
                func_index ← add_s profile 64 line_number (-1);
                Ret (fmt PlainText $":" ++ fmt LineNumber ($"wasm-function[" ++ show_i64 func_index ++ $"]"))
            | None => Ret []
            end);
    column ← (match frame_column frame with
              | Some column_number =>
                  pc_offset ← add_s profile 64 column_number (-1);
                  Ret (fmt PlainText $":" ++ fmt ColumnNumber ($"0x" ++ show_hex pc_offset))
              | None => Ret []
              end);
    Ret (line ++ column)
  else
    Ret (match frame_line frame with
         | Some line_number =>
             fmt PlainText $":" ++ fmt LineNumber (show_i64 line_number) ++
             match frame_column frame with
             | Some column_number => fmt PlainText $":" ++ fmt ColumnNumber (show_i64 column_number)
             | None => []
             end
         | None => []
         end).

Definition format_location (frame : JsStackFrame) (maybe_initial_cwd : option Url) : outcome text :=
  if is_native frame then Ret (F NativeFrame (in_extension_code frame) $"native")
  else
    file ← format_file frame maybe_initial_cwd;
    position ← format_position frame;
    Ret (file ++ position).

Definition formatted_method (frame : JsStackFrame) : text :=
  match function_name frame with
  | Some function_name =>
      match type_name frame with
      | Some type_name => if negb (starts_with type_name function_name) then type_name ++ $"." else []
      | None => []
      end ++ function_name ++
      match method_name frame with
      | Some method_name =>
          if negb (ends_with method_name function_name) then $" [as " ++ method_name ++ $"]" else []
      | None => []
      end
  | None =>
      match type_name frame with Some type_name => type_name ++ $"." | None => [] end ++
      default $"<anonymous>" (method_name frame)
  end.

Definition format_frame (frame : JsStackFrame) (maybe_initial_cwd : option Url) : outcome text :=
  let fmt e s := F e (in_extension_code frame) s in
  let is_method_call := negb (default false (is_top_level frame) || is_constructor frame) in
  let result := if is_async frame then fmt PlainText $"async " else [] in
  if is_promise_all frame then
    Ret (result ++ fmt PromiseAll ($"Promise.all (index " ++ show_i64 (default 0 (promise_index frame)) ++ $")"))
  else
    let called :=
      if is_method_call then Some (fmt FunctionName (formatted_method frame))
      else if is_constructor frame then
        Some (fmt PlainText $"new " ++
              match function_name frame with
              | Some function_name => fmt FunctionName function_name
              | None => fmt Anonymous $"<anonymous>"
              end)
      else fmt FunctionName <$> function_name frame in
    location ← format_location frame maybe_initial_cwd;
    Ret (match called with
         | Some name => result ++ name ++ fmt PlainText $" (" ++ location ++ fmt PlainText $")"
         | None => result ++ location
         end).
End format.
End names.

(** * Call sites *)

(** What the methods of one of V8's call sites return. *)
Record CallSite := mkCallSite {
  raw_file_name : option text;
  raw_line : option Z;
  raw_column : option Z;
  raw_eval_origin : option text;
  raw_frame : JsStackFrame  (** the other methods *)
}.

Section call_sites.
Context (profile : profile) `{UrlCrate Url} `{SourceMapCrate SourceMap} (loader : MapLoader).
Abbreviation M := (stateM (SourceMapper SourceMap)).

Definition lift {A} (o : outcome A) : M A := λ m, a ← o; Ret (a, m).

Definition map_eval_origin (o : text) : M text :=
  parsed ← lift (parse_eval_origin o);
  match parsed with
  | None => mret o
  | Some (before, (file, line, col), after) =>
      '(file, line, col) ← apply_source_map_i64 profile loader file line col;
      mret (before ++ show_position file line col ++ after)
  end.

Definition from_callsite_object (callsite : CallSite) : M JsStackFrame :=
  let is_wasm := match raw_file_name callsite with Some f => starts_with $"wasm://" f | None => false end in
  '(file_name, line_number, column_number) ←
    (match is_wasm, raw_file_name callsite, raw_line callsite, raw_column callsite with
     | false, Some f, Some l, Some c =>
         '(file_name, line_num, col_num) ← apply_source_map_i64 profile loader f l c;
         mret (Some file_name, Some line_num, Some col_num)
     | _, f, l, c => mret (f, l, c)
     end);
  eval_origin ←
    (match is_wasm, raw_eval_origin callsite with
     | false, Some o => o ← map_eval_origin o; mret (Some o)
     | _, _ => mret None
     end);
  let r := raw_frame callsite in
  mret (mkFrame (type_name r) (function_name r) (method_name r) file_name line_number column_number
          eval_origin (is_top_level r) (is_eval r) (is_native r) (is_constructor r) (is_async r)
          (is_promise_all r) is_wasm (promise_index r)).

(** The resource name, line and column (from 0) of a [v8::Message]. *)
Definition from_v8_message (location : option (text * Z * Z)) : M (option JsStackFrame) :=
  match location with
  | None => mret None
  | Some (f, l, start_column) =>
      '(file_name, line_num, col_num) ← apply_source_map_i64 profile loader f l (start_column + 1);
      mret (Some (from_location (Some file_name) (Some line_num) (Some col_num)))
  end.

(** ** The objects that [Error.prepareStackTrace] sees *)

Context (to_file_path : Url → option text).

(** A value that a method of a call site returns. *)
Inductive site_value := Str (s : text) | Num (n : Z) | Undef.

Record Site := mkSite {
  get_file_name : option site_value;  (** [None]: the method threw *)
  get_line : option site_value;
  get_col : option site_value;
  original_to_string : text
}.

(** A patched call site: the original and the private cache. *)
Record PatchedSite := mkPatched {
  original : Site;
  info : option (site_value * site_value * site_value)
}.

Definition maybe_to_path_str (string : text) : outcome (option text) :=
  if starts_with $"file://" string then
    u ← unwrap (ok (url_parse string));
    p ← unwrap (to_file_path u);
    Ret (Some p)
  else Ret None.

Definition maybe_apply_source_map (file line column : option site_value) : M (option (text * Z * Z)) :=
  match file, line, column with
  | Some (Str f), Some (Num l), Some (Num c) => r ← apply_source_map_i64 profile loader f l c; mret (Some r)
  | _, _, _ => mret None
  end.

(** The information, and the call site with its cache. *)
Definition source_mapped_call_site_info (site : PatchedSite) :
    M (site_value * site_value * site_value * PatchedSite) :=
  match info site with
  | Some i => mret (i, site)
  | None =>
      let o := original site in
      let is_wasm := match get_file_name o with Some (Str s) => starts_with $"wasm://" s | _ => false end in
      mapped ← (if is_wasm then mret None
                else maybe_apply_source_map (get_file_name o) (get_line o) (get_col o));
      match mapped with
      | Some (mapped_file_name, mapped_line_number, mapped_column_number) =>
          path ← lift (maybe_to_path_str mapped_file_name);
          let i := (Str (default mapped_file_name path), Num mapped_line_number, Num mapped_column_number) in
          mret (i, mkPatched o (Some i))
      | None =>
          let i := (default Undef (get_file_name o), default Undef (get_line o), default Undef (get_col o)) in
          mret (i, mkPatched o (Some i))
      end
  end.

(** [to_string]: positions in V8's text are replaced. *)
Definition site_to_string (site : PatchedSite) : M (text * PatchedSite) :=
  let o := original site in
  match get_file_name o with
  | Some (Str orig_file_name) =>
      if starts_with $"wasm://" orig_file_name then mret (original_to_string o, site)
      else
        match get_line o, get_col o with
        | Some (Num l), Some (Num c) =>
            '(mapped, site) ← source_mapped_call_site_info site;
            match mapped with
            | (Str mapped_file_name, Num ml, Num mc) =>
                mret (replace orig_file_name mapped_file_name
                        (replace (show_position orig_file_name l c) (show_position mapped_file_name ml mc)
                           (original_to_string o)), site)
            | _ => mret (original_to_string o, site)
            end
        | _, _ => mret (original_to_string o, site)
        end
  | _ => mret (original_to_string o, site)
  end.
End call_sites.

(** * Properties *)

(** ** The origin of evaluated code *)

Section origins.
Implicit Types (o a b c f : text).

(** The pieces of an origin with a location: up to the last "eval at ", the name of the
    function, the file, line and column, and the rest. *)
Lemma parse_eval_origin_pieces a b1 f l c rest :
  let o := a ++ EVAL_AT ++ b1 ++ "("%char :: f ++ ":"%char :: l ++ ":"%char :: c ++ ")"%char :: rest in
  utf8 o = true → rfind EVAL_AT o = Some (length a) → "("%char ∉ b1 →
  ":"%char ∉ l → ":"%char ∉ c ++ ")"%char :: rest → ")"%char ∉ c →
  parse_eval_origin o =
    match parse_i64 c, parse_i64 l with
    | Some column, Some line => Ret (Some (a ++ EVAL_AT ++ b1 ++ $"(", (f, line, column), $")" ++ rest))
    | _, _ => Ret None
    end.
Proof.
  intros o Hu Hi Hb1 Hl Hc Hcc. unfold parse_eval_origin. rewrite Hi. cbn [try_some].
  change (find $"(") with (find ["("%char]). change (find $")") with (find [")"%char]).
  change (rfind $":") with (rfind [":"%char]).
  set (start := a ++ EVAL_AT ++ b1 ++ $"(").
  assert (o = (a ++ $"eval at") ++ " "%char :: b1 ++ "("%char :: f ++ ":"%char :: l ++ ":"%char :: c ++ ")"%char :: rest)
    as E1 by (unfold o; by rewrite <- app_assoc).
  assert (o = (a ++ EVAL_AT ++ b1) ++ "("%char :: f ++ ":"%char :: l ++ ":"%char :: c ++ ")"%char :: rest)
    as E2 by (unfold o; by rewrite <- !app_assoc).
  assert (is_char_boundary o (length (a ++ EVAL_AT)) = true) as B1.
  { rewrite E1 in Hu |- *. pose proof (boundary_after_ascii _ _ _ Hu eq_refl) as Hb.
    replace (length (a ++ EVAL_AT)) with (S (length (a ++ $"eval at")));
      [exact Hb|rewrite !length_app; simpl; lia]. }
  assert (is_char_boundary o (length start) = true) as B2.
  { rewrite E2 in Hu |- *. pose proof (boundary_after_ascii _ _ _ Hu eq_refl) as Hb.
    replace (length start) with (S (length (a ++ EVAL_AT ++ b1)));
      [exact Hb|unfold start; rewrite !length_app; simpl; lia]. }
  rewrite <- length_app, (slice_from_app _ (a ++ EVAL_AT) (b1 ++ "("%char :: f ++ ":"%char :: l ++ ":"%char :: c ++ ")"%char :: rest));
    [|unfold o; by rewrite <- app_assoc|done].
  rewrite bind_Ret, find_char by done. cbn [try_some].
  replace (length (a ++ EVAL_AT) + (length b1 + 1))%nat with (length start)
    by (unfold start; rewrite !length_app; simpl; lia).
  assert (o = start ++ f ++ ":"%char :: l ++ ":"%char :: c ++ ")"%char :: rest) as E3
    by (unfold o, start; by rewrite <- !app_assoc).
  rewrite (proj2 (Nat.leb_gt _ _)) by (rewrite E3, !length_app; simpl; rewrite !length_app; simpl; lia).
  rewrite (slice_from_app _ start _ E3 B2), bind_Ret, rsplitn_3 by done. cbn [lookup list_lookup try_some].
  rewrite find_char by done. cbn [try_some].
  rewrite (slice_to_app _ c (")"%char :: rest)) by (done || by apply boundary_at_ascii). rewrite bind_Ret.
  destruct (parse_i64 c) as [column|]; [|done]. cbn [try_some].
  destruct (parse_i64 l) as [line|]; [|done]. cbn [try_some].
  assert (o = (start ++ f ++ ":"%char :: l) ++ ":"%char :: c ++ ")"%char :: rest) as E4
    by (rewrite E3, <- !app_assoc; done).
  rewrite E4 at 1. rewrite rfind_char by done. cbn [try_some].
  rewrite (slice_to_app _ start _ E3 B2), bind_Ret.
  assert (o = (start ++ f ++ ":"%char :: l ++ ":"%char :: c) ++ ")"%char :: rest) as E5
    by (rewrite E3, <- !app_assoc; simpl; by rewrite <- !app_assoc).
  replace (length (start ++ f ++ ":"%char :: l) + 1 + length c)%nat
    with (length (start ++ f ++ ":"%char :: l ++ ":"%char :: c))
    by (rewrite !length_app; simpl; rewrite length_app; simpl; lia).
  rewrite (slice_from_app _ _ _ E5) by (rewrite E5; by apply boundary_at_ascii). done.
Qed.
Lemma take_column {B} c1 (K : nat → text → Z → outcome (option B)) :
  let r := (e ←? find [")"%char] c1; ct ← slice_to c1 e; n ←? parse_i64 ct; K e ct n) in
  r = Ret None ∨ ∃ c rest n, c1 = c ++ ")"%char :: rest ∧ (")"%char ∉ c) ∧ r = K (length c) c n.
Proof.
  destruct (find [")"%char] c1) as [e|] eqn:He; [|by left]. cbn [try_some].
  apply find_char_Some in He as (c & rest & -> & <- & Hc).
  rewrite (slice_to_app _ c (")"%char :: rest)) by (done || by apply boundary_at_ascii). rewrite bind_Ret.
  destruct (parse_i64 c) as [n|]; [|by left]. right. by exists c, rest, n.
Qed.

Local Ltac take_column c1 :=
  lazymatch goal with
  | |- context [try_some (find _ c1) (λ e, mbind (λ ct, try_some (parse_i64 ct) (@?K e ct)) (slice_to c1 e))] =>
      destruct (take_column c1 K) as [Hn|(c & rest & n & -> & Hc & Hn)]
  end.

(** Either there is no location, or the origin has those pieces. *)
Lemma parse_eval_origin_cases o : utf8 o = true →
  parse_eval_origin o = Ret None ∨
  ∃ a b1 f l c rest,
    o = a ++ EVAL_AT ++ b1 ++ "("%char :: f ++ ":"%char :: l ++ ":"%char :: c ++ ")"%char :: rest ∧
    rfind EVAL_AT o = Some (length a) ∧ ("("%char ∉ b1) ∧ (":"%char ∉ l) ∧
    (":"%char ∉ c ++ ")"%char :: rest) ∧ (")"%char ∉ c).
Proof.
  intros Hu. unfold parse_eval_origin.
  change (find $"(") with (find ["("%char]). change (find $")") with (find [")"%char]).
  destruct (rfind EVAL_AT o) as [i|] eqn:Hi; [|by left]. cbn [try_some].
  pose proof (rfind_Some _ _ _ Hi) as [(a & b & Ho & <-) _].
  assert (o = (a ++ $"eval at") ++ " "%char :: b) as E1 by (rewrite Ho; by rewrite <- app_assoc).
  assert (is_char_boundary o (length (a ++ EVAL_AT)) = true) as B1.
  { rewrite E1 in Hu |- *. pose proof (boundary_after_ascii _ _ _ Hu eq_refl) as Hb.
    replace (length (a ++ EVAL_AT)) with (S (length (a ++ $"eval at")));
      [exact Hb|rewrite !length_app; simpl; lia]. }
  rewrite <- length_app, (slice_from_app _ (a ++ EVAL_AT) b); [|by rewrite Ho, <- app_assoc|done].
  rewrite bind_Ret. destruct (find ["("%char] b) as [j|] eqn:Hj; [|by left]. cbn [try_some].
  apply find_char_Some in Hj as (b1 & b2 & -> & <- & Hb1).
  case_match; [by left|].
  assert (o = (a ++ EVAL_AT ++ b1) ++ "("%char :: b2) as E2 by (rewrite Ho; by rewrite <- !app_assoc).
  assert (o = (a ++ EVAL_AT ++ b1 ++ $"(") ++ b2) as E3 by (rewrite Ho; by rewrite <- !app_assoc).
  replace (length (a ++ EVAL_AT) + (length b1 + 1))%nat with (length (a ++ EVAL_AT ++ b1 ++ $"("))
    by (rewrite !length_app; simpl; lia).
  rewrite (slice_from_app _ _ b2 E3), bind_Ret.
  2: { rewrite E2 in Hu |- *. pose proof (boundary_after_ascii _ _ _ Hu eq_refl) as Hb.
       replace (length (a ++ EVAL_AT ++ b1 ++ $"(")) with (S (length (a ++ EVAL_AT ++ b1)));
         [exact Hb|rewrite !length_app; simpl; lia]. }
  cbn [rsplitn]. destruct (rsplit_once ":" b2) as [[f c1]|] eqn:H1; [|].
  - apply rsplit_once_Some in H1 as [-> Hc1].
    destruct (rsplit_once ":" f) as [[f' l]|] eqn:H2; cbn [lookup list_lookup]; cbn [try_some].
    + apply rsplit_once_Some in H2 as [-> Hl].
      take_column c1; [left; exact Hn|].
      right. exists a, b1, f', l, c, rest. split; [|done]. rewrite Ho. by rewrite <- !app_assoc.
    + left. take_column c1; [exact Hn|]. etrans; [exact Hn|]. by destruct (parse_i64 f).
  - left. cbn [lookup list_lookup]. cbn [try_some].
    take_column b2; [exact Hn|]. etrans; [exact Hn|]. done.
Qed.
(** The origin of evaluated code.  Parsing never panics on UTF-8, and the pieces that it
    returns are the whole text; a position that was printed is found again, with the text
    around it, if no later "eval at " and no colon behind it mislead the parser. *)
Lemma eval_origin_roundtrip :
  (∀ o, utf8 o = true → ∃ r, parse_eval_origin o = Ret r ∧
    ∀ before file line col after, r = Some (before, (file, line, col), after) →
      ∃ l c, o = before ++ file ++ $":" ++ l ++ $":" ++ c ++ after ∧
        parse_i64 l = Some line ∧ parse_i64 c = Some col) ∧
  ∀ a function file line col rest,
    let before := a ++ EVAL_AT ++ function ++ $"(" in
    let o := before ++ show_position file line col ++ $")" ++ rest in
    in_i64 line → in_i64 col → utf8 o = true → "("%char ∉ function → ":"%char ∉ rest →
    (∀ j, occurs EVAL_AT o j → (j <= length a)%nat) →
    parse_eval_origin o = Ret (Some (before, (file, line, col), $")" ++ rest)).
Proof.
  split.
  - intros o Hu. destruct (parse_eval_origin_cases o Hu) as [->|(a & b1 & f & l & c & rest & Ho & Hi & Hb1 & Hl & Hc & Hcc)].
    + by exists None.
    + pose proof Hu as Hu'. rewrite Ho in Hu, Hi |- *.
      rewrite (parse_eval_origin_pieces a b1 f l c rest) by done.
      destruct (parse_i64 c) as [column|] eqn:Pc; [|by exists None].
      destruct (parse_i64 l) as [line|] eqn:Pl; [|by exists None].
      eexists. split; [done|]. intros before file line' col after [= <- <- <- <- <-]. exists l, c.
      split; [|done]. rewrite <- !app_assoc. simpl. by rewrite <- ?app_assoc.
  - intros a function file line col rest before o Hline Hcol Hu Hfn Hrest Hlast.
    assert (o = a ++ EVAL_AT ++ function ++ "("%char :: file ++ ":"%char :: show_i64 line ++
      ":"%char :: show_i64 col ++ ")"%char :: rest) as Ho.
    { unfold o, before, show_position. rewrite <- !app_assoc. simpl. by rewrite <- ?app_assoc. }
    assert (∀ z, (":"%char ∉ show_i64 z) ∧ (")"%char ∉ show_i64 z)) as Hfree
      by (intros z; split; by apply show_i64_free, no_digit_value).
    rewrite Ho, parse_eval_origin_pieces.
    + by rewrite !parse_show_i64 by done.
    + by rewrite <- Ho.
    + rewrite <- Ho. apply rfind_last; [|done]. exists a. eexists. by split.
    + done.
    + apply Hfree.
    + apply not_elem_of_app. split; [apply Hfree|]. by apply not_elem_of_cons.
    + apply Hfree.
Qed.
End origins.

(** ** The text of frames *)

Section texts.
Context (profile : profile) `{UrlCrate Url} `{EqDecision Url} (percent_decode : text → option text).
Implicit Types (frame : JsStackFrame) (cwd : option Url).

(** The elements of a text with what they say. *)
Abbreviation pieces := (list (ErrorElement * text)).

Definition render (F : ErrorFormat) (in_extension : bool) (l : pieces) : text :=
  concat (map (λ '(e, s), F e in_extension s) l).

(** A text whose elements do not depend on the format. *)
Definition uniform (b : bool) (g : ErrorFormat → outcome text) : Prop :=
  ∃ o : outcome pieces, ∀ F, g F = l ← o; Ret (render F b l).
Definition uniform_text (b : bool) (g : ErrorFormat → text) : Prop :=
  ∃ l : pieces, ∀ F, g F = render F b l.

Lemma render_app F b l1 l2 : render F b (l1 ++ l2) = render F b l1 ++ render F b l2.
Proof. unfold render. by rewrite map_app, concat_app. Qed.

Lemma uniform_piece b e s : uniform_text b (λ F, F e b s).
Proof. exists [(e, s)]. intros F. unfold render. simpl. by rewrite app_nil_r. Qed.
Lemma uniform_nil b : uniform_text b (λ _, []).
Proof. by exists []. Qed.
Lemma uniform_app b g h : uniform_text b g → uniform_text b h → uniform_text b (λ F, g F ++ h F).
Proof. intros [l1 H1] [l2 H2]. exists (l1 ++ l2). intros F. by rewrite H1, H2, render_app. Qed.
Lemma uniform_if (c : bool) b g h :
  uniform_text b g → uniform_text b h → uniform_text b (λ F, if c then g F else h F).
Proof. by destruct c. Qed.

Lemma uniform_Ret b g : uniform_text b g → uniform b (λ F, Ret (g F)).
Proof. intros [l Hl]. exists (Ret l). intros F. by rewrite bind_Ret, Hl. Qed.
Lemma uniform_Panic b f : uniform b (λ _, Panic f).
Proof. by exists (Panic f). Qed.
Lemma uniform_fixed {A} b (m : outcome A) (k : A → ErrorFormat → outcome text) :
  (∀ a, uniform b (k a)) → uniform b (λ F, a ← m; k a F).
Proof. intros Hk. destruct m as [a|f]; [apply Hk|apply uniform_Panic]. Qed.
(** A text that goes into a larger one. *)
Lemma uniform_bind b (m : ErrorFormat → outcome text) (k : ErrorFormat → text → outcome text) :
  uniform b m → (∀ l, uniform b (λ F, k F (render F b l))) → uniform b (λ F, s ← m F; k F s).
Proof.
  intros [[l|f] Hm] Hk.
  - destruct (Hk l) as [o Ho]. exists o. intros F. by rewrite Hm, !bind_Ret, Ho.
  - exists (Panic f). intros F. by rewrite Hm.
Qed.
Lemma uniform_rendered b l : uniform_text b (λ F, render F b l).
Proof. by exists l. Qed.

Create HintDb uniform discriminated.
Hint Resolve uniform_piece uniform_nil uniform_app uniform_if uniform_Ret uniform_Panic uniform_fixed
  uniform_bind uniform_rendered : uniform.

Lemma format_file_uniform frame cwd :
  uniform (in_extension_code frame) (λ F, format_file profile percent_decode F frame cwd).
Proof.
  unfold format_file. destruct (default [] (file_name frame)).
  - apply uniform_bind; [|intros; auto with uniform].
    destruct (is_eval frame); [|auto with uniform]. do 2 (apply uniform_fixed; intros ?). auto with uniform.
  - apply uniform_fixed. intros parts. destruct (working_dir_path parts); auto with uniform.
Qed.

Lemma format_position_uniform frame :
  uniform (in_extension_code frame) (λ F, format_position profile F frame).
Proof.
  unfold format_position. destruct (is_wasm frame).
  - apply uniform_bind; [destruct (frame_line frame); auto 6 with uniform|]. intros line.
    apply uniform_bind; [destruct (frame_column frame); auto 6 with uniform|]. auto with uniform.
  - apply uniform_Ret. destruct (frame_line frame); [|auto with uniform].
    destruct (frame_column frame); auto 6 with uniform.
Qed.

Lemma format_location_uniform frame cwd :
  uniform (in_extension_code frame) (λ F, format_location profile percent_decode F frame cwd).
Proof.
  unfold format_location. destruct (is_native frame); [auto with uniform|].
  apply uniform_bind; [apply format_file_uniform|]. intros file.
  apply uniform_bind; [apply format_position_uniform|]. auto with uniform.
Qed.

Lemma format_frame_uniform frame cwd :
  uniform (in_extension_code frame) (λ F, format_frame profile percent_decode F frame cwd).
Proof.
  unfold format_frame. destruct (is_promise_all frame); [destruct (is_async frame); auto with uniform|].
  apply uniform_bind; [apply format_location_uniform|]. intros location.
  destruct (negb _); [destruct (is_async frame); auto 8 with uniform|].
  destruct (is_constructor frame);
    [destruct (is_async frame), (function_name frame); auto 8 with uniform|].
  destruct (function_name frame), (is_async frame); simpl; auto 8 with uniform.
Qed.

(** ** Panics *)

Lemma get_range_Some s i j t : get_range s i j = Some t → (j <= length s)%nat ∧ length t = (j - i)%nat.
Proof.
  unfold get_range. destruct ((i <=? j)%nat && is_char_boundary s i && is_char_boundary s j) eqn:Hb; [|done].
  intros [= <-]. rewrite !andb_true_iff in Hb. destruct Hb as [[Hij%Nat.leb_le _] Hj].
  assert (j <= length s)%nat.
  { destruct j as [|j]; [lia|]. unfold is_char_boundary in Hj. destruct (s !! S j) eqn:Hs.
    - apply lookup_lt_Some in Hs. lia.
    - apply bool_decide_eq_true in Hj. lia. }
  rewrite length_take, length_drop. lia.
Qed.

Lemma abbrev_file_name_returns file cwd : ∃ r, abbrev_file_name profile percent_decode file cwd = Ret r.
Proof.
  unfold abbrev_file_name. destruct (ok (url_parse file)) as [url|]; cbn [try_some]; [|by eexists].
  destruct (decide _); [|by eexists]. destruct (length file <=? _)%nat; [by eexists|].
  destruct (split_once "," (url_path url)) as [[hd tl]|]; cbn [try_some]; [|by eexists]. simpl.
  destruct (get_range tl 0 20) as [start|] eqn:Hs; cbn [try_some]; [|by eexists].
  apply get_range_Some in Hs as [Hlen _]. rewrite sub_w_fits by lia. rewrite bind_Ret.
  destruct (get_range tl _ _) as [en|]; cbn [try_some]; by eexists.
Qed.

Lemma format_file_name_returns file cwd : ∃ r, format_file_name profile percent_decode file cwd = Ret r.
Proof.
  unfold format_file_name. destruct (abbrev_file_name_returns file cwd) as [r ->]. by eexists.
Qed.

Lemma format_eval_origin_returns o cwd : utf8 o = true →
  ∃ r, format_eval_origin profile percent_decode o cwd = Ret r.
Proof.
  intros Hu. unfold format_eval_origin.
  destruct (proj1 eval_origin_roundtrip o Hu) as (r & -> & _). rewrite bind_Ret.
  destruct r as [[[before [[file line] col]] after]|]; [|by eexists].
  destruct (format_file_name_returns file cwd) as [parts ->]. by eexists.
Qed.

(** What V8 gives: evaluated code without a file has an origin; the positions in WebAssembly
    are not negative. *)
Definition frame_ok frame : Prop :=
  (is_eval frame = true → default [] (file_name frame) = [] →
    ∃ o, eval_origin frame = Some o ∧ utf8 o = true) ∧
  (is_wasm frame = true → ∀ z, frame_line frame = Some z ∨ frame_column frame = Some z → 0 <= z < 2 ^ 63).

Lemma format_location_returns F frame cwd : frame_ok frame →
  ∃ r, format_location profile percent_decode F frame cwd = Ret r.
Proof.
  intros [Heval Hwasm]. unfold format_location. destruct (is_native frame); [by eexists|].
  assert (∃ r, format_file profile percent_decode F frame cwd = Ret r) as [file ->].
  { unfold format_file. destruct (default [] (file_name frame)) as [|c s].
    - destruct (is_eval frame); [|by eexists]. destruct (Heval eq_refl eq_refl) as (o & -> & Hu).
      cbn [unwrap]. rewrite bind_Ret. destruct (format_eval_origin_returns o cwd Hu) as [r ->]. by eexists.
    - destruct (format_file_name_returns (c :: s) cwd) as [parts ->]. by eexists. }
  assert (∃ r, format_position profile F frame = Ret r) as [position ->]; [|by eexists].
  unfold format_position. destruct (is_wasm frame); [|by eexists]. specialize (Hwasm eq_refl).
  assert (∀ z, frame_line frame = Some z ∨ frame_column frame = Some z → add_s profile 64 z (-1) = Ret (z - 1)) as Hadd.
  { intros z Hz. apply Hwasm in Hz. rewrite add_s_fits; [f_equal|]; lia. }
  destruct (frame_line frame) as [l|]; [rewrite Hadd by auto|]; rewrite !bind_Ret;
    (destruct (frame_column frame) as [c|]; [rewrite Hadd by auto|]); rewrite !bind_Ret; by eexists.
Qed.

(** Every frame that V8 can give has a text, and colours do not change it: there is one
    list of elements such that each format shows exactly these, in that order; without
    colours the text is what they say. *)
Lemma frame_text frame cwd : frame_ok frame →
  ∃ l, (∀ F, format_frame profile percent_decode F frame cwd = Ret (render F (in_extension_code frame) l)) ∧
    format_frame profile percent_decode NoAnsiColors frame cwd = Ret (concat l.*2).
Proof.
  intros Hok. destruct (format_frame_uniform frame cwd) as [[l|f] Ho].
  - exists l. split; [exact Ho|]. by rewrite Ho, bind_Ret.
  - exfalso. specialize (Ho NoAnsiColors). revert Ho. unfold format_frame.
    destruct (is_promise_all frame); [done|].
    destruct (format_location_returns NoAnsiColors frame cwd Hok) as [r ->]. done.
Qed.
End texts.

(** * Examples *)

(** The tests of [error.rs]. *)
Example parse_eval_origin_tests :
  parse_eval_origin $"eval at <anonymous> (file://path.ts:1:2)" =
    Ret (Some ($"eval at <anonymous> (", ($"file://path.ts", 1, 2), $")")) ∧
  parse_eval_origin $"eval at (s:1:2" = Ret None ∧ parse_eval_origin $"at ()" = Ret None ∧
  parse_eval_origin $"eval at foo (http://website.zzz/my-script).ts:1:2)" =
    Ret (Some ($"eval at foo (", ($"http://website.zzz/my-script).ts", 1, 2), $")")) ∧
  parse_eval_origin $"eval at foo (eval at bar (file://path.ts:1:2))" =
    Ret (Some ($"eval at foo (eval at bar (", ($"file://path.ts", 1, 2), $"))")).
Proof. split_and!; by vm_compute. Qed.

(** [eval_origin_roundtrip]: a nested origin. *)
Lemma eval_origin_roundtrip_example :
  let o := $"eval at foo (eval at bar (file:///a.ts:-1:20))" in
  (∃ r, parse_eval_origin o = Ret r) ∧
  parse_eval_origin o = Ret (Some ($"eval at foo (eval at bar (", ($"file:///a.ts", -1, 20), $"))")).
Proof.
  split.
  - destruct (proj1 eval_origin_roundtrip $"eval at foo (eval at bar (file:///a.ts:-1:20))") as (r & Hr & _);
      [by vm_compute|by exists r].
  - apply (proj2 eval_origin_roundtrip $"eval at foo (" $"bar " $"file:///a.ts" (-1) 20 $")");
      [by vm_compute..| | |].
    + apply (bool_decide_unpack _). by vm_compute.
    + apply (bool_decide_unpack _). by vm_compute.
    + intros j Hj. destruct (rfind_Some EVAL_AT $"eval at foo (eval at bar (file:///a.ts:-1:20))" 13) as [_ Hmax];
        [by vm_compute|]. by apply Hmax.
Qed.

#[local] Existing Instance demo_url.
#[local] Existing Instance demo_map.

(** Without percent signs nothing is decoded. *)
Definition demo_decode (s : text) : option text := if contains $"%" s then None else Some s.

Definition demo_frame : JsStackFrame :=
  mkFrame (Some $"Foo") (Some $"bar") (Some $"baz") (Some $"file:///w/a.ts") (Some 3) (Some 7) None (Some false)
    false false false true false false None.

Lemma frame_text_example :
  (∃ l, ∀ F, format_frame Debug demo_decode F demo_frame (Some $"file:///w/") =
    Ret (render F (in_extension_code demo_frame) l)) ∧
  format_frame Debug demo_decode NoAnsiColors demo_frame (Some $"file:///w/") =
    Ret $"async Foo.bar [as baz] (file:///w/a.ts:3:7)".
Proof.
  split; [|by vm_compute].
  destruct (frame_text Debug demo_decode demo_frame (Some $"file:///w/")) as (l & Hl & _); [|by exists l].
  split; done.
Qed.

(** A call site at a position that a map moves to another file. *)
Definition moved_site (file shown : text) : PatchedSite :=
  mkPatched (mkSite (Some (Str file)) (Some (Num 1)) (Some (Num 1)) shown) None.
Definition moving_map (target : text) : SourceMapCrate unit := {|
  from_slice _ := Some ();
  decode_data_url _ := None;
  lookup_token _ _ _ := Some (mkToken 4 5 (Some target))
|}.
(** On Unix, file URLs with a host have no path. *)
Definition unix_path (u : text) : option text :=
  if starts_with $"file:///" u then Some (drop 7 u) else None.
Definition map_everything : MapLoader := mkMapLoader (λ _, Some []) (λ _, None) (λ _, None) (λ _ _, None).

Definition long_head : text := $"data:" ++ concat (replicate 12 $"abcdefghij") ++ $",".
Definition twenty_five : text := $"0123456789012345678901234".

(** Where stack traces go wrong.  (1) The text of a call site whose file the map renames
    to a name that contains the old one is replaced twice.  (2) A map that names a source on
    another host makes [getFileName] panic.  (3) The abbreviation of a data URL with a long
  X *)
Lemma stack_trace_gaps :
  (let M := moving_map $"http://x/a.js.ts" in
   answers_of (site_to_string Debug map_everything unix_path (moved_site $"http://x/a.js" $"f (http://x/a.js:1:1)")
     SourceMapper_new) =
   Ret ($"f (http://x/a.js.ts.ts:5:6)",
        mkPatched (original (moved_site $"http://x/a.js" $"f (http://x/a.js:1:1)"))
          (Some (Str $"http://x/a.js.ts", Num 5, Num 6)))) ∧
  (let M := moving_map $"file://server/a.ts" in
   answers_of (source_mapped_call_site_info Debug map_everything unix_path
     (moved_site $"http://x/a.js" $"f (http://x/a.js:1:1)") SourceMapper_new) = Panic Unwrap) ∧
  (length (long_head ++ twenty_five) = 151%nat ∧
   abbrev_file_name Debug demo_decode (long_head ++ twenty_five) None =
     Ret (Some (mkParts None (long_head ++ $"01234567890123456789" ++ $"......" ++ $"56789012345678901234"))) ∧
   length (long_head ++ $"01234567890123456789" ++ $"......" ++ $"56789012345678901234") = 172%nat).
Proof. split_and!; by vm_compute. Qed.
