(* ===== verification/JsErrors.v ===== *)
(** [JsError] ([core/error.rs]): a JavaScript exception as a Rust value.

    V8's heap is a host: a map of the objects that are instances of [Error], with what the
    code reads of them.  [inner_from_v8_exception] follows causes, with the set of errors it
    has seen, and the errors of an [AggregateError]; the stack of Rust is the fuel. *)

From stdpp Require Import gmap.
From S2P Require Import Prelude RustStr Specifiers SourceMaps StackTraces.

Local Open Scope Z_scope.

(** * Data *)

#[local] Unset Elimination Schemes.
Inductive JsError := mkJsError {
  name : option text;
  message : option text;
  stack : option text;
  cause : option JsError;
  exception_message : text;
  frames : list JsStackFrame;
  source_line : option text;
  source_line_frame_index : option nat;
  aggregated : option (list JsError);
  additional_properties : list (text * text)
}.
#[local] Set Elimination Schemes.

(** Values of JavaScript; objects by identity. *)
Inductive js_value := Object (id : Z) | Undefined | Primitive (v : Z).

(** What the code reads of an instance of [Error]. *)
Record error_object := mkErrorObject {
  o_name : option text;
  o_message : option text;
  o_cause : option js_value;
  o_stack : option text;
  o_call_sites : option (list (option CallSite));  (** [None]: a method threw *)
  o_errors : option (list js_value);  (** the array of an [AggregateError] *)
  o_additional : list (text * text)
}.

Record v8_host := mkV8 {
  errors : gmap Z error_object;
  message_text : js_value → text;
  message_location : js_value → option (text * Z * Z);
  format_exception : option (js_value → option text)  (** [js_format_exception_cb] *)
}.

Definition GENERIC_ERROR : text := $"Error".

(** * Equality *)

Fixpoint JsError_eqb (a b : JsError) {struct a} : bool :=
  match a, b with
  | mkJsError n m s c em fr sl si ag ap, mkJsError n' m' s' c' em' fr' sl' si' ag' ap' =>
      bool_decide ((n, m, s, em, fr, sl, si, ap) = (n', m', s', em', fr', sl', si', ap')) &&
      match c, c' with
      | Some c, Some c' => JsError_eqb c c'
      | None, None => true
      | _, _ => false
      end &&
      match ag, ag' with
      | Some l, Some l' =>
          (fix go l l' := match l, l' with
                          | [], [] => true
                          | x :: l, y :: l' => JsError_eqb x y && go l l'
                          | _, _ => false
                          end) l l'
      | None, None => true
      | _, _ => false
      end
  end.

Definition errors_eqb (a b : option (list JsError)) : bool :=
  match a, b with
  | Some l, Some l' => (fix go l l' := match l, l' with
                                       | [], [] => true
                                       | x :: l, y :: l' => JsError_eqb x y && go l l'
                                       | _, _ => false
                                       end) l l'
  | None, None => true
  | _, _ => false
  end.

Definition without_promise (m : text) : text := replace $" (in promise) " $" " m.

Definition is_same_error (a b : JsError) : bool :=
  bool_decide (name a = name b) && bool_decide (message a = message b) && bool_decide (stack a = stack b) &&
  (bool_decide (exception_message a = exception_message b) ||
   bool_decide (without_promise (exception_message a) = without_promise (exception_message b))) &&
  bool_decide (frames a = frames b) && bool_decide (source_line a = source_line b) &&
  bool_decide (source_line_frame_index a = source_line_frame_index b) &&
  errors_eqb (aggregated a) (aggregated b).

(** * Display *)

(** [s.lines().count()]. *)
Definition count_lines (s : text) : nat :=
  match rsplit_once newline s with
  | Some (_, last) => length (filter (λ c, c = newline) s) + (if decide (last = []) then 0 else 1)
  | None => if decide (s = []) then 0 else 1
  end.

Definition display (e : JsError) : text :=
  default
    (exception_message e ++
     match head (frames e) ≫= maybe_format_location with
     | Some location => newline :: $"    at " ++ location
     | None => []
     end)
    (s ← stack e; if (1 <? count_lines s)%nat then Some s else None).

(** [CoreError]: its message and those of its sources. *)
Definition print_with_cause (err_message : text) (source : option text) : text :=
  err_message ++
  match source with
  | Some source => newline :: newline :: $"Caused by:" ++ newline :: $"    " ++ replace [newline] (newline :: $"    ") source
  | None => []
  end.

Definition join (sep : text) (l : list text) : text :=
  match l with [] => [] | x :: l => x ++ concat (map (app sep) l) end.

(** The message of [CoreErrorKind::to_v8_error]. *)
Definition core_error_message (err_string : text) (sources : list text) : text :=
  match filter (λ s, s ≠ err_string) sources with
  | [] => err_string
  | error_chain =>
      err_string ++ newline :: $"  Caused by:" ++ newline :: $"    " ++ join (newline :: $"    ") error_chain
  end.

(** * Exceptions of V8 *)

Section exceptions.
Context (profile : profile) `{UrlCrate Url} `{SourceMapCrate SourceMap} (loader : MapLoader) (v8 : v8_host).
Abbreviation M := (stateM (SourceMapper SourceMap)).

(** The text of an [Error] without a formatter. *)
Definition uncaught (name message_prop : text) : text :=
  match name, message_prop with
  | _ :: _, _ :: _ => $"Uncaught " ++ name ++ $": " ++ message_prop
  | _ :: _, [] => $"Uncaught " ++ name
  | [], _ :: _ => $"Uncaught " ++ message_prop
  | [], [] => $"Uncaught"
  end.

Fixpoint js_frames (l : list (option CallSite)) : M (list JsStackFrame) :=
  match l with
  | Some callsite :: l =>
      frame ← from_callsite_object profile loader callsite;
      frames ← js_frames l;
      mret (frame :: frames)
  | _ => mret []  (** a warning is printed *)
  end.

(** A frame whose line may be shown. *)
Definition shown_frame (frame : JsStackFrame) : option (text * Z) :=
  f ← file_name frame;
  l ← frame_line frame;
  if starts_with $"ext:" (trim_start_matches $"[" f) then None else Some (f, l).

Fixpoint find_source_line (i : nat) (frames : list JsStackFrame) : M (option text * option nat) :=
  match frames with
  | [] => mret (None, None)
  | frame :: frames =>
      match shown_frame frame with
      | Some (file_name, line_number) =>
          source_line ← get_source_line profile loader file_name line_number;
          mret (source_line, Some i)
      | None => find_source_line (S i) frames
      end
  end.

Definition JsError_from_v8_message (text_of_message : text) (location : option (text * Z * Z)) : M JsError :=
  frame ← from_v8_message profile loader location;
  let frames := match frame with Some f => [f] | None => [] end in
  '(source_line, index) ← find_source_line 0 frames;
  mret (mkJsError None None None None text_of_message frames source_line index None []).

Fixpoint collect (f : js_value → M JsError) (l : list js_value) : M (list JsError) :=
  match l with
  | [] => mret []
  | v :: l => e ← f v; es ← collect f l; mret (e :: es)
  end.

Definition as_error (exception : js_value) : option (Z * error_object) :=
  match exception with Object id => pair id <$> errors v8 !! id | _ => None end.

Fixpoint inner_from_v8_exception (fuel : nat) (exception : js_value) (seen : gset Z) : M JsError :=
  match fuel with
  | O => λ _, Panic OutOfFuel
  | S fuel =>
      let formatted := f ← format_exception v8; f exception in
      match as_error exception with
      | Some (id, e) =>
          let exception_message :=
            default (uncaught (default GENERIC_ERROR (o_name e)) (default [] (o_message e))) formatted in
          cause ← (match o_cause e with
                   | None | Some Undefined => mret None
                   | Some cause =>
                       if decide (id ∈ seen) then mret None
                       else c ← inner_from_v8_exception fuel cause ({[id]} ∪ seen); mret (Some c)
                   end);
          frames ← js_frames (default [] (o_call_sites e));
          frames ← (match frames with
                    | [] => f ← from_v8_message profile loader (message_location v8 exception);
                            mret (match f with Some f => [f] | None => [] end)
                    | _ => mret frames
                    end);
          '(source_line, index) ← find_source_line 0 frames;
          aggregated ← (match o_errors e with
                        | None | Some [] => mret None
                        | Some errors => l ← collect (λ v, inner_from_v8_exception fuel v ∅) errors; mret (Some l)
                        end);
          mret (mkJsError (o_name e) (o_message e) (o_stack e) cause exception_message frames source_line
                  index aggregated (o_additional e))
      | None =>
          mret (mkJsError None None None None (default (message_text v8 exception) formatted) [] None None None [])
      end
  end.

Definition from_v8_exception (fuel : nat) (exception : js_value) : M JsError :=
  inner_from_v8_exception fuel exception ∅.
End exceptions.

(** * Properties *)

(** ** Errors are well formed *)

(** The index is that of the first frame that may be shown. *)
Definition shows (frames : list JsStackFrame) (source_line : option text) (index : option nat) : Prop :=
  match index with
  | Some i => ∃ frame, frames !! i = Some frame ∧ is_Some (shown_frame frame) ∧
      Forall (λ g, shown_frame g = None) (take i frames)
  | None => source_line = None ∧ Forall (λ g, shown_frame g = None) frames
  end.

Inductive well_formed : JsError → Prop :=
  | well_formed_intro e :
      shows (frames e) (source_line e) (source_line_frame_index e) →
      (∀ c, cause e = Some c → well_formed c) →
      (∀ l c, aggregated e = Some l → c ∈ l → well_formed c) →
      aggregated e ≠ Some [] →
      well_formed e.

(** The length of the chain of causes. *)
Fixpoint causes (e : JsError) : nat :=
  match e with
  | mkJsError _ _ _ (Some c) _ _ _ _ _ _ => S (causes c)
  | _ => 0
  end.

(** ** Total methods *)

Section posts.
Context {S : Type}.

Definition post {A} (c : stateM S A) (Q : A → Prop) : Prop :=
  ∀ s, ∃ a s', c s = Ret (a, s') ∧ Q a.

Lemma post_ret {A} (a : A) (Q : A → Prop) : Q a → post (mret a) Q.
Proof. intros Ha s. by exists a, s. Qed.

Lemma post_bind {A B} (c : stateM S A) (k : A → stateM S B) (P : A → Prop) (Q : B → Prop) :
  post c P → (∀ a, P a → post (k a) Q) → post (c ≫= k) Q.
Proof.
  intros Hc Hk s. destruct (Hc s) as (a & s1 & Ha & HP). destruct (Hk a HP s1) as (b & s2 & Hb & HQ).
  exists b, s2. unfold mbind, stateM_bind. by rewrite Ha.
Qed.

Lemma post_weaken {A} (c : stateM S A) (P Q : A → Prop) : post c P → (∀ a, P a → Q a) → post c Q.
Proof. intros Hc HPQ s. destruct (Hc s) as (a & s' & Ha & HP). exists a, s'. auto. Qed.

Lemma post_panic {A B} (c : stateM S A) (k : A → stateM S B) (P : A → Prop) f s :
  post c P → (∀ a s, k a s = Panic f) → (c ≫= k) s = Panic f.
Proof.
  intros Hc Hk. destruct (Hc s) as (a & s1 & Ha & _). unfold mbind, stateM_bind. rewrite Ha. apply Hk.
Qed.
Lemma panic_bind {A B} (c : stateM S A) (k : A → stateM S B) f s : c s = Panic f → (c ≫= k) s = Panic f.
Proof. unfold mbind, stateM_bind. by intros ->. Qed.
End posts.

Section termination.
Context `{UrlCrate Url} `{SourceMapCrate SourceMap} (loader : MapLoader) (v8 : v8_host).
Abbreviation M := (stateM (SourceMapper SourceMap)).

Lemma sub_w_release w a b : ∃ c, sub_w Release w a b = Ret c.
Proof. unfold sub_w. case_decide; by eexists. Qed.
Lemma add_w_release w a b : ∃ c, add_w Release w a b = Ret c.
Proof. unfold add_w. case_decide; by eexists. Qed.
Lemma add_s_release w a b : ∃ c, add_s Release w a b = Ret c.
Proof. unfold add_s. case_decide; by eexists. Qed.

Lemma map_position_release sm f l c : ∃ r, map_position Release loader sm f l c = Ret r.
Proof.
  unfold map_position. destruct sm as [sm|]; [|by eexists].
  destruct (lookup_token sm l c) as [token|]; [|by eexists].
  destruct (add_w_release 32 (src_line token) 1) as [x ->], (add_w_release 32 (src_col token) 1) as [y ->].
  by eexists.
Qed.

Lemma apply_source_map_release f l c : post (apply_source_map Release loader f l c : M _) (λ _, True).
Proof.
  intros m. unfold apply_source_map.
  destruct (sub_w_release 32 l 1) as [x ->], (sub_w_release 32 c 1) as [y ->]. rewrite !bind_Ret.
  assert (∃ sm m', cached_source_map loader f m = Ret (sm, m')) as (sm & m' & ->).
  { unfold cached_source_map. destruct (maps m !! f); [by eexists _, _|].
    destruct (find_source_map loader m f). by eexists _, _. }
  rewrite bind_Ret. destruct (map_position_release sm f x y) as [r ->]. by exists r, m'.
Qed.

Lemma apply_source_map_i64_release f l c : post (apply_source_map_i64 Release loader f l c : M _) (λ _, True).
Proof. eapply post_bind; [apply apply_source_map_release|]. intros a _. by apply post_ret. Qed.

Lemma get_source_line_release f l : post (get_source_line Release loader f l : M _) (λ _, True).
Proof.
  intros m. unfold get_source_line. destruct (source_lines m !! (f, l)); [by eexists _, _|].
  destruct (add_s_release 64 l (-1)) as [x ->]. by eexists _, _.
Qed.

Definition site_ok (c : CallSite) : Prop := ∀ o, raw_eval_origin c = Some o → utf8 o = true.

Lemma from_callsite_object_release c : site_ok c →
  post (from_callsite_object Release loader c : M _) (λ _, True).
Proof.
  intros Hc. unfold from_callsite_object. eapply (post_bind _ _ (λ _, True)).
  - repeat case_match; try (by apply post_ret).
    eapply post_bind; [apply apply_source_map_i64_release|]. intros [[f' l'] k'] _. by apply post_ret.
  - intros [[f' l'] k'] _. eapply (post_bind _ _ (λ _, True)); [|intros; by apply post_ret].
    case_match; [by apply post_ret|]. destruct (raw_eval_origin c) as [o|] eqn:Ho; [|by apply post_ret].
    eapply (post_bind _ _ (λ _, True)); [|intros; by apply post_ret]. unfold map_eval_origin.
    destruct (proj1 eval_origin_roundtrip o (Hc o Ho)) as (r & Hr & _). rewrite Hr.
    eapply (post_bind _ _ (λ x, x = r)); [intros m; by exists r, m|]. intros _ ->.
    destruct r as [[[before [[file line] col]] after]|]; [|by apply post_ret].
    eapply post_bind; [apply apply_source_map_i64_release|]. intros [[f2 l2] k2] _. by apply post_ret.
Qed.

Lemma js_frames_release l : (∀ c, Some c ∈ l → site_ok c) → post (js_frames Release loader l : M _) (λ _, True).
Proof.
  induction l as [|[c|] l IH]; intros Hl; try (by apply post_ret). cbn [js_frames].
  eapply post_bind; [apply from_callsite_object_release, Hl; by left|]. intros f _.
  eapply post_bind; [apply IH; intros d Hd; apply Hl; by right|]. intros fs _. by apply post_ret.
Qed.

Lemma from_v8_message_release loc : post (from_v8_message Release loader loc : M _) (λ _, True).
Proof.
  destruct loc as [[[f l] c]|]; [|by apply post_ret].
  eapply post_bind; [apply apply_source_map_i64_release|]. intros [[f' l'] c'] _. by apply post_ret.
Qed.

Lemma find_source_line_shows seen frames :
  Forall (λ g, shown_frame g = None) seen →
  post (find_source_line Release loader (length seen) frames : M _) (λ r, shows (seen ++ frames) r.1 r.2).
Proof.
  revert seen. induction frames as [|f frames IH]; intros seen Hs; cbn [find_source_line].
  - apply post_ret. by rewrite app_nil_r.
  - destruct (shown_frame f) as [[file line]|] eqn:Hf.
    + eapply post_bind; [apply get_source_line_release|]. intros sl _. apply post_ret.
      exists f. rewrite list_lookup_middle, take_app_length by done. by rewrite Hf.
    + specialize (IH (seen ++ [f])). rewrite length_app, Nat.add_1_r, <- app_assoc in IH. apply IH.
      apply Forall_app. split; [done|]. by constructor.
Qed.

(** ** Termination *)

Context (rank : Z → nat).

Definition rank_of (v : js_value) : nat :=
  match as_error v8 v with Some (id, _) => rank id | None => 0 end.

(** No error is among its own causes and errors, if one of the steps goes through the list
    of an [AggregateError]; cycles of causes are allowed. *)
Record ranked : Prop := {
  ranked_cause id e c : errors v8 !! id = Some e → o_cause e = Some c → (rank_of c <= rank id)%nat;
  ranked_errors id e l v w : errors v8 !! id = Some e → o_errors e = Some l → v ∈ l →
    as_error v8 v = Some w → (rank_of v < rank id)%nat
}.

Definition sites_ok : Prop := ∀ id e l c,
  errors v8 !! id = Some e → o_call_sites e = Some l → Some c ∈ l → site_ok c.

Definition depth_bound (v : js_value) (seen : gset Z) : nat :=
  rank_of v * (size (errors v8) + 3) + (size (errors v8) - size seen) + 1.

Lemma collect_release (f : js_value → M JsError) l :
  (∀ v, v ∈ l → post (f v) well_formed) → post (collect f l) (λ es, (∀ e, e ∈ es → well_formed e) ∧ length es = length l).
Proof.
  induction l as [|v l IH]; intros Hf; cbn [collect].
  - apply post_ret. split; [|done]. intros e He. by apply elem_of_nil in He.
  - eapply post_bind; [apply Hf; by left|]. intros e He.
    eapply post_bind; [apply IH; intros w Hw; apply Hf; by right|]. intros es [Hes Hlen]. apply post_ret.
    split; [|simpl; by rewrite Hlen]. intros x [->|Hx]%elem_of_cons; [done|by apply Hes].
Qed.

Lemma as_error_Some v id e : as_error v8 v = Some (id, e) → v = Object id ∧ errors v8 !! id = Some e.
Proof.
  unfold as_error. destruct v as [i| |]; [|done..]. intros (x & Hx & [= -> ->])%fmap_Some. done.
Qed.

Lemma inner_ends (Hrank : ranked) (Hsites : sites_ok) fuel v seen :
  seen ⊆ dom (errors v8) → (depth_bound v seen < fuel)%nat →
  post (inner_from_v8_exception Release loader v8 fuel v seen : M _)
    (λ e, well_formed e ∧ (causes e + size seen <= size (errors v8) + 1)%nat).
Proof.
  revert v seen. induction fuel as [|fuel IH]; intros v seen Hseen Hfuel; [lia|]. cbn [inner_from_v8_exception].
  assert (size seen <= size (errors v8))%nat as Hsize.
  { rewrite <- size_dom. by apply subseteq_size. }
  destruct (as_error v8 v) as [[id e]|] eqn:Hv.
  2: { apply post_ret. split; [|simpl; lia]. by constructor. }
  assert (rank_of v = rank id) as Hr by (unfold rank_of; by rewrite Hv).
  unfold depth_bound in Hfuel. rewrite Hr in Hfuel. pose proof (as_error_Some _ _ _ Hv) as [-> He].
  eapply (post_bind _ _ (λ c, (∀ x, c = Some x → well_formed x) ∧
    (match c with Some x => S (causes x) | None => 0 end + size seen <= size (errors v8) + 1)%nat)).
  { destruct (o_cause e) as [c|] eqn:Hc; [|apply post_ret; split; [done|simpl; lia]].
    assert (post (if decide (id ∈ seen) then mret None
                  else (c ← inner_from_v8_exception Release loader v8 fuel c ({[id]} ∪ seen); mret (Some c)) : M _)
              (λ c, (∀ x, c = Some x → well_formed x) ∧
                (match c with Some x => S (causes x) | None => 0 end + size seen <= size (errors v8) + 1)%nat)) as Hnext.
    { case_decide as Hin; [apply post_ret; split; [done|simpl; lia]|].
      assert (size ({[id]} ∪ seen : gset Z) = S (size seen)) as Hs
        by (rewrite size_union by set_solver; by rewrite size_singleton).
      assert ({[id]} ∪ seen ⊆ dom (errors v8)) as Hsub.
      { apply elem_of_dom_2 in He. set_solver. }
      assert (S (size seen) <= size (errors v8))%nat.
      { rewrite <- Hs, <- size_dom. by apply subseteq_size. }
      pose proof (ranked_cause Hrank id e c He Hc) as Hle.
      eapply post_bind; [apply IH; [done|]|].
      - unfold depth_bound. rewrite Hs.
        pose proof (Nat.mul_le_mono_r _ _ (size (errors v8) + 3) Hle). lia.
      - intros x [Hx Hcx]. apply post_ret. split; [by intros y [= <-]|]. rewrite Hs in Hcx. lia. }
    destruct c; [exact Hnext| |exact Hnext]. apply post_ret. split; [done|simpl; lia]. }
  intros c [Hcw Hcs].
  eapply post_bind; [apply js_frames_release|].
  { intros s Hs. destruct (o_call_sites e) as [l|] eqn:Hl; [by eapply Hsites|]. by apply elem_of_nil in Hs. }
  intros frames _. eapply (post_bind _ _ (λ _, True)).
  { destruct frames; [|by apply post_ret].
    eapply post_bind; [apply from_v8_message_release|]. intros; by apply post_ret. }
  intros frames' _. eapply post_bind; [apply (find_source_line_shows [] frames'); constructor|].
  intros [sl index] Hshows. simpl in Hshows.
  eapply (post_bind _ _ (λ ag, (∀ l x, ag = Some l → x ∈ l → well_formed x) ∧ ag ≠ Some [])).
  { destruct (o_errors e) as [[|w l]|] eqn:Hl; [by apply post_ret| |by apply post_ret].
    eapply post_bind; [apply (collect_release _ (w :: l))|].
    - intros u Hu. destruct (as_error v8 u) as [p|] eqn:Hp.
      + eapply post_weaken; [apply IH; [set_solver|]|by intros x []].
        unfold depth_bound. rewrite size_empty.
        pose proof (ranked_errors Hrank id e _ u p He Hl Hu Hp) as Hlt.
        pose proof (Nat.mul_le_mono_r _ _ (size (errors v8) + 3) Hlt). lia.
      + destruct fuel as [|fuel']; [lia|]. cbn [inner_from_v8_exception]. rewrite Hp. apply post_ret.
        by constructor.
    - intros es [Hes Hlen]. apply post_ret. split; [|by destruct es].
      intros l' x [= <-] Hx. by apply Hes. }
  intros ag [Hagw Hag]. apply post_ret. split; [|destruct c; simpl in *; lia].
  by constructor.
Qed.

(** An exception becomes an error.  If no error leads back to itself through the list of
    an [AggregateError] (causes may be cyclic), the conversion ends, with stack for
    [rank * (errors + 3) + errors + 2] calls; in release builds it returns; the error is well
    formed, in all its causes and parts: the frame whose line is shown is the first that
    may be; and a chain of causes is at most one longer than the number of errors. *)
Lemma exceptions_end fuel v m :
  ranked → sites_ok →
  (rank_of v * (size (errors v8) + 3) + size (errors v8) + 1 < fuel)%nat →
  ∃ e m', from_v8_exception Release loader v8 fuel v m = Ret (e, m') ∧ well_formed e ∧
    (causes e <= size (errors v8) + 1)%nat.
Proof.
  intros Hrank Hsites Hfuel.
  destruct (inner_ends Hrank Hsites fuel v ∅ (empty_subseteq _)) with (s := m) as (e & m' & He & Hw & Hc).
  - unfold depth_bound. rewrite size_empty. lia.
  - exists e, m'. split; [done|]. split; [done|lia].
Qed.
End termination.

(** ** Sameness *)

Section sameness.
Implicit Types (a b c e : JsError).

(** Induction that reaches the causes and parts. *)
Lemma JsError_ind_parts (P : JsError → Prop) :
  (∀ e, (∀ c, cause e = Some c → P c) → (∀ l c, aggregated e = Some l → c ∈ l → P c) → P e) → ∀ e, P e.
Proof.
  intros HP. fix go 1. intros [n m s c em fr sl si ag ap]. apply HP; simpl.
  - destruct c as [c|]; [|clear; done]. intros x [= <-]. apply go.
  - destruct ag as [l|]; [|clear; done]. intros l' x [= <-].
    induction l as [|y l IH]; [clear; by intros ?%elem_of_nil|].
    intros [->|Hx]%elem_of_cons; [apply go|by apply IH].
Qed.

Lemma errors_eqb_spec (l l' : option (list JsError)) :
  (∀ k x y, l = Some k → x ∈ k → JsError_eqb x y = true ↔ x = y) → errors_eqb l l' = true ↔ l = l'.
Proof.
  intros Hl. destruct l as [l|], l' as [l'|]; [|done..]. simpl.
  transitivity (l = l'); [|split; congruence].
  assert (∀ x y, x ∈ l → JsError_eqb x y = true ↔ x = y) as Heq by (intros x y; by apply Hl). clear Hl.
  revert l'. induction l as [|x l IH]; intros [|y l']; [done..|].
  rewrite andb_true_iff, (Heq x y) by (by left).
  rewrite IH by (intros u v Hu; apply Heq; by right). split; [by intros [-> ->]|by intros [= -> ->]].
Qed.

Lemma JsError_eqb_spec a b : JsError_eqb a b = true ↔ a = b.
Proof.
  revert b. induction a as [a IHc IHl] using JsError_ind_parts. intros b.
  pose proof (errors_eqb_spec (aggregated a) (aggregated b)) as Hag.
  assert (errors_eqb (aggregated a) (aggregated b) = true ↔ aggregated a = aggregated b) as Hag'
    by (apply Hag; intros k x y Hk Hx; by eapply IHl). clear Hag IHl.
  destruct a as [n m s c em fr sl si ag ap], b as [n' m' s' c' em' fr' sl' si' ag' ap'].
  cbn [JsError_eqb aggregated cause] in *. fold (errors_eqb ag ag'). rewrite !andb_true_iff, bool_decide_eq_true, Hag'.
  assert (match c, c' with Some c, Some c' => JsError_eqb c c' | None, None => true | _, _ => false end = true ↔ c = c') as ->.
  { destruct c as [c|], c' as [c'|]; [|done..]. rewrite IHc by done. split; congruence. }
  split; [intros [[Hf ->] ->]; by simplify_eq|by intros [= -> -> -> -> -> -> -> -> -> ->]].
Qed.

Global Instance JsError_eq_dec : EqDecision JsError.
Proof.
  refine (λ a b, cast_if (decide (JsError_eqb a b = true))); by rewrite <- JsError_eqb_spec.
Defined.

(** What [is_same_error] compares. *)
Definition without_cause (e : JsError) :=
  (name e, message e, stack e, without_promise (exception_message e), frames e, source_line e,
   source_line_frame_index e, aggregated e).

Lemma is_same_error_spec a b : is_same_error a b = true ↔ without_cause a = without_cause b.
Proof.
  unfold is_same_error, without_cause.
  rewrite !andb_true_iff, !orb_true_iff, !bool_decide_eq_true, errors_eqb_spec
    by (intros; apply JsError_eqb_spec).
  split.
  - intros (((((((-> & ->) & ->) & Hm) & ->) & ->) & ->) & ->). by destruct Hm as [->| ->].
  - intros [= -> -> -> Hm -> -> -> ->]. tauto.
Qed.

(** [is_same_error] is an equivalence, although it accepts two texts of the message. *)
Global Instance is_same_error_equivalence : Equivalence (λ a b, is_same_error a b = true).
Proof.
  split.
  - intros a. by apply is_same_error_spec.
  - intros a b. rewrite !is_same_error_spec. congruence.
  - intros a b c. rewrite !is_same_error_spec. congruence.
Qed.
End sameness.

(** * Examples *)

#[local] Existing Instance demo_url.
#[local] Existing Instance demo_map.

Definition plain_error (message : text) (cause : option js_value) (errors : option (list js_value)) : error_object :=
  mkErrorObject (Some $"Error") (Some message) cause None None errors [].

Definition demo_v8 (errors : gmap Z error_object) : v8_host :=
  mkV8 errors (λ _, $"Uncaught 1") (λ v, match v with Object _ => Some ($"file:///b.js", 5, 0) | _ => None end) None.

(** Two errors that are each other's cause, and an aggregate of both and a number. *)
Definition demo_heap : v8_host := demo_v8 (list_to_map
  [(1, plain_error $"one" (Some (Object 2)) None); (2, plain_error $"two" (Some (Object 1)) None);
   (3, plain_error $"all" (Some (Object 3)) (Some [Object 1; Primitive 1; Object 2]))]).

Definition demo_rank (id : Z) : nat := if decide (id = 3) then 1 else 0.

Lemma demo_ranked : ranked demo_heap demo_rank ∧ sites_ok demo_heap.
Proof.
  assert (∀ id e, errors demo_heap !! id = Some e →
    (id, e) ∈ [(1, plain_error $"one" (Some (Object 2)) None); (2, plain_error $"two" (Some (Object 1)) None);
      (3, plain_error $"all" (Some (Object 3)) (Some [Object 1; Primitive 1; Object 2]))]) as Hin.
  { intros id e He. by apply elem_of_list_to_map_2 in He. }
  split; [split|].
  - intros id e c He Hc. specialize (Hin id e He). rewrite !elem_of_cons, elem_of_nil in Hin.
    destruct_or? Hin; simplify_eq/=; vm_compute; lia.
  - intros id e l v w He Hl Hv Hw. specialize (Hin id e He). rewrite !elem_of_cons, elem_of_nil in Hin.
    destruct_or? Hin; simplify_eq/=. rewrite !elem_of_cons, elem_of_nil in Hv.
    destruct_or? Hv; subst; vm_compute; lia.
  - intros id e l c He Hl _. specialize (Hin id e He). rewrite !elem_of_cons, elem_of_nil in Hin.
    destruct_or? Hin; simplify_eq/=.
Qed.

(** [exceptions_end]: the aggregate has a chain of causes of length 1 and three parts. *)
Lemma exceptions_end_example :
  (∃ e m', from_v8_exception Release demo_loader demo_heap 11 (Object 3) SourceMapper_new = Ret (e, m') ∧
    well_formed e) ∧
  match answers_of (from_v8_exception Release demo_loader demo_heap 11 (Object 3) SourceMapper_new) with
  | Ret e => causes e = 1%nat ∧ display e = $"Uncaught Error: all" ++ newline :: $"    at file:///b.js:9:3" ∧
      (map exception_message <$> aggregated e) =
        Some [$"Uncaught Error: one"; $"Uncaught 1"; $"Uncaught Error: two"] ∧
      (map causes <$> aggregated e) = Some [2; 0; 2]%nat
  | Panic _ => False
  end.
Proof.
  split; [|by vm_compute].
  destruct (exceptions_end demo_loader demo_heap demo_rank 11 (Object 3) SourceMapper_new)
    as (e & m' & He & Hw & _);
    [apply demo_ranked|apply demo_ranked|vm_compute; lia|by exists e, m'].
Qed.

(** An error that contains itself, and one whose part has it as cause. *)
Definition self_heap : v8_host := demo_v8 {[ 1 := plain_error $"self" None (Some [Object 1]) ]}.
Definition loop_heap : v8_host := demo_v8 (list_to_map
  [(1, plain_error $"all" None (Some [Object 2])); (2, plain_error $"part" (Some (Object 1)) None)]).

(** An error without call sites recurses into its parts. *)
Lemma parts_exhaust v8 fuel id e seen cause v l m :
  as_error v8 (Object id) = Some (id, e) → o_call_sites e = None → o_errors e = Some (v :: l) →
  o_cause e = cause → cause = None →
  (∀ m, inner_from_v8_exception Release demo_loader v8 fuel v ∅ m = Panic OutOfFuel) →
  inner_from_v8_exception Release demo_loader v8 (S fuel) (Object id) seen m = Panic OutOfFuel.
Proof.
  intros He Hs Hp Hc -> Hv. cbn [inner_from_v8_exception]. rewrite He, Hs, Hp, Hc.
  eapply post_panic; [by apply (post_ret _ (λ _, True))|]. intros c m1.
  eapply post_panic; [by apply (post_ret _ (λ x, x = []))|]. intros frames m2.
  eapply (post_panic _ _ (λ _, True)).
  { destruct frames; [|by apply post_ret].
    eapply post_bind; [apply from_v8_message_release|]. intros; by apply post_ret. }
  intros frames' m3. eapply post_panic; [apply (find_source_line_shows _ [] frames'); constructor|].
  intros [sl index] m4. apply panic_bind, panic_bind. cbn [collect]. by apply panic_bind.
Qed.

(** Exceptions that exhaust the stack.  The errors of an [AggregateError] are converted
    with a fresh set of seen errors, so one that contains itself, or whose part has it as
    cause, recurses for ever, whatever the stack; a cycle of causes alone is cut after its
    first error comes again, which is why [is_same_error] compares errors without causes. *)
Lemma js_error_gaps :
  (∀ fuel m, from_v8_exception Release demo_loader self_heap fuel (Object 1) m = Panic OutOfFuel) ∧
  (∀ fuel m, from_v8_exception Release demo_loader loop_heap fuel (Object 1) m = Panic OutOfFuel) ∧
  match answers_of (from_v8_exception Release demo_loader demo_heap 9 (Object 1) SourceMapper_new) with
  | Ret e => ∃ c d, cause e = Some c ∧ cause c = Some d ∧ cause d = None ∧ is_same_error e d = true ∧ e ≠ d
  | Panic _ => False
  end.
Proof.
  split; [|split].
  - intros fuel. unfold from_v8_exception. induction fuel as [|fuel IH]; intros m; [done|].
    by eapply parts_exhaust.
  - intros fuel. unfold from_v8_exception. generalize (∅ : gset Z) as seen.
    induction fuel as [fuel IH] using lt_wf_ind. intros seen m.
    destruct fuel as [|[|fuel]]; [done|by eapply parts_exhaust|].
    eapply parts_exhaust; [done..|]. clear m. intros m. cbn [inner_from_v8_exception].
    apply panic_bind. simpl. rewrite decide_False by set_solver. apply panic_bind, IH. lia.
  - vm_compute. eexists _, _. by split_and!.
Qed.
