(* ===== verification/OpContexts.v ===== *)
(** Ops of a runtime, from their declarations to their bindings: [core/extension_set.rs],
    [core/extensions.rs], [core/ops.rs], [core/ops_metrics.rs] and the layout of
    [runtime/bindings.rs].

    Functions of V8 are known by identity.  The state that extensions contribute to and the
    state of a metrics factory are parameters. *)

From S2P Require Import Prelude RustStr.

Local Open Scope Z_scope.

(** * Declarations *)

(** Slow and fast functions. *)
Abbreviation fn := Z (only parsing).

Inductive AccessorType := Getter | Setter | NoAccessor.
Global Instance AccessorType_eq_dec : EqDecision AccessorType.
Proof. solve_decision. Defined.

Record OpDecl := mkDecl {
  op_name : text;
  name_fast : text;
  is_async : bool;
  is_reentrant : bool;
  symbol_for : bool;
  accessor_type : AccessorType;
  arg_count : Z;
  no_side_effects : bool;
  slow_fn : fn;
  slow_fn_with_metrics : fn;
  fast_fn : option fn;
  fast_fn_with_metrics : option fn
}.
Global Instance OpDecl_eq_dec : EqDecision OpDecl.
Proof. solve_decision. Defined.

Record OpMethodDecl := mkMethodDecl {
  type_name : text;
  object_name : text * text;
  constructor : option OpDecl;
  methods : list OpDecl;
  static_methods : list OpDecl;
  inherits_type_name : option text
}.

(** [bindings::op_disabled_fn] and [NOOP_FN]. *)
Definition op_disabled_fn : fn := -1.
Definition NOOP_FN : fn := -2.

Definition is_accessor (d : OpDecl) : bool := bool_decide (accessor_type d ≠ NoAccessor).

Definition with_fns (d : OpDecl) slow slow_metrics fast fast_metrics : OpDecl :=
  mkDecl (op_name d) (name_fast d) (is_async d) (is_reentrant d) (symbol_for d) (accessor_type d) (arg_count d)
    (no_side_effects d) slow slow_metrics fast fast_metrics.

Definition disable (d : OpDecl) : OpDecl :=
  with_fns d op_disabled_fn op_disabled_fn ((λ _, NOOP_FN) <$> fast_fn d) ((λ _, NOOP_FN) <$> fast_fn_with_metrics d).

Definition with_implementation_from (d from : OpDecl) : OpDecl :=
  with_fns d (slow_fn from) (slow_fn_with_metrics from) (fast_fn from) (fast_fn_with_metrics from).

(** [S] is the op state. *)
Record Extension (S : Type) := mkExtension {
  ext_name : text;
  deps : list text;
  ops : list OpDecl;
  objects : list OpMethodDecl;
  op_state_fn : option (S → S);
  needs_lazy_init : bool;
  middleware_fn : option (OpDecl → OpDecl);
  enabled : bool
}.
Arguments mkExtension {S}.
Arguments ext_name {S}.
Arguments deps {S}.
Arguments ops {S}.
Arguments objects {S}.
Arguments op_state_fn {S}.
Arguments needs_lazy_init {S}.
Arguments middleware_fn {S}.
Arguments enabled {S}.

Section extensions.
Context (profile : profile) {S : Type}.
Implicit Types (ext : Extension S).

Definition set_enabled ext (b : bool) : Extension S :=
  mkExtension (ext_name ext) (deps ext) (ops ext) (objects ext) (op_state_fn ext) (needs_lazy_init ext)
    (middleware_fn ext) b.
(** [Extension::disable]. *)
Definition disable_extension ext : Extension S := set_enabled ext false.

Definition for_warmup ext : Extension S :=
  mkExtension (ext_name ext) (deps ext) (ops ext) (objects ext) None (needs_lazy_init ext) None (enabled ext).

Definition take_state ext (s : S) : S := match op_state_fn ext with Some f => f s | None => s end.

(** The names of the extensions that are initialized later, and the state. *)
Fixpoint setup_op_state (s : S) (exts : list (Extension S)) : S * list text :=
  match exts with
  | [] => (s, [])
  | ext :: exts =>
      let (s, lazy_extensions) := setup_op_state (take_state ext s) exts in
      (s, (if needs_lazy_init ext then [ext_name ext] else []) ++ lazy_extensions)
  end.

(** [JsRuntime::lazy_init_extensions]. *)
Inductive LazyInitError :=
  | ExtensionLazyInitCountMismatch (lazy_init_extensions_len arguments_len : nat)
  | ExtensionLazyInitOrderMismatch (expected actual : text).

Fixpoint lazy_init_in_order (args : list (text * option (S → S))) (expected : list text) (s : S) :
    result unit LazyInitError * S :=
  match args, expected with
  | (name, f) :: args, expected_name :: expected =>
      if decide (name = expected_name) then
        lazy_init_in_order args expected (match f with Some f => f s | None => s end)
      else (Err (ExtensionLazyInitOrderMismatch expected_name name), s)
  | _, _ => (Ok tt, s)
  end.

Definition lazy_init_extensions (ext_args : list (text * option (S → S))) (lazy_extensions : list text) (s : S) :
    result unit LazyInitError * S :=
  if decide (length ext_args = length lazy_extensions) then lazy_init_in_order ext_args lazy_extensions s
  else (Err (ExtensionLazyInitCountMismatch (length lazy_extensions) (length ext_args)), s).

Fixpoint check_dependencies (name : text) (deps : list text) (previous : list text) : outcome unit :=
  match deps with
  | [] => Ret tt
  | dep :: deps =>
      if decide (dep = name) then Panic Unwrap
      else if decide (dep ∈ previous) then check_dependencies name deps previous
      else Panic Unwrap
  end.

Fixpoint check_extensions_dependencies (previous : list text) (exts : list (Extension S)) : outcome unit :=
  match exts with
  | [] => Ret tt
  | ext :: exts =>
      _ ← check_dependencies (ext_name ext) (deps ext) previous;
      check_extensions_dependencies (previous ++ [ext_name ext]) exts
  end.

Definition check_no_duplicate_op_names (ops : list OpDecl) : outcome unit :=
  if decide (NoDup (map op_name ops)) then Ret tt else Panic Unwrap.

Definition debug_only (o : outcome unit) : outcome unit :=
  match profile with Debug => o | Release => Ret tt end.

(** The copies that [op.disable()] returns are dropped. *)
Definition ext_init_ops ext : list OpDecl :=
  if enabled ext then ops ext else map (λ op, let _ := disable op in op) (ops ext).

(** Every middleware of the extensions, in order. *)
Definition macroware (exts : list (Extension S)) (d : OpDecl) : OpDecl :=
  foldl (λ d m, m d) d (omap middleware_fn exts).

Definition keep_names (op d : OpDecl) : OpDecl :=
  mkDecl (op_name op) (name_fast op) (is_async d) (is_reentrant d) (symbol_for d) (accessor_type d) (arg_count d)
    (no_side_effects d) (slow_fn d) (slow_fn_with_metrics d) (fast_fn d) (fast_fn_with_metrics d).

Definition init_ops (deno_core_ops : list OpDecl) (exts : list (Extension S)) :
    outcome (list OpDecl * list OpMethodDecl) :=
  _ ← debug_only (check_extensions_dependencies [] exts);
  let wrap op := keep_names op (macroware exts op) in
  let all := map wrap deno_core_ops ++ concat (map (λ ext, map wrap (ext_init_ops ext)) exts) in
  let op_methods := concat (map objects exts) in
  _ ← debug_only (check_no_duplicate_op_names all);
  Ret (all, op_methods).
End extensions.

(** * Contexts *)

Record OpCtx := mkCtx {
  op_id : Z;
  decl : OpDecl;
  metrics_enabled : bool;
  fast_fn_info : option fn
}.

(** [OpMetricsFactoryFn], with state [T]: whether there is a metrics function. *)
Definition OpMetricsFactory (T : Type) := Z → nat → OpDecl → T → bool * T.

Section contexts.
Context {T : Type} (op_metrics_factory_fn : option (OpMetricsFactory T)).

Definition OpCtx_new (id : Z) (d : OpDecl) (metrics : bool) : OpCtx :=
  mkCtx id d metrics (if metrics then fast_fn_with_metrics d else fast_fn d).

(** [index as OpId]. *)
Definition create_ctx (op_count index : nat) (d : OpDecl) (t : T) : OpCtx * T :=
  let id := Z.of_nat index mod 2 ^ 16 in
  let (metrics, t) := match op_metrics_factory_fn with
                      | Some f => f id op_count d t
                      | None => (false, t)
                      end in
  (OpCtx_new id d metrics, t).

(** Contexts for pairs of an index and a declaration. *)
Fixpoint create_ctxs (op_count : nat) (l : list (nat * OpDecl)) (t : T) : list OpCtx * T :=
  match l with
  | [] => ([], t)
  | (index, d) :: l =>
      let (ctx, t) := create_ctx op_count index d t in
      let (ctxs, t) := create_ctxs op_count l t in
      (ctx :: ctxs, t)
  end.

(** The declarations of an object, the constructor with the name of the object. *)
Definition rename (d : OpDecl) (name : text * text) : OpDecl :=
  mkDecl name.1 name.2 (is_async d) (is_reentrant d) (symbol_for d) (accessor_type d) (arg_count d) (no_side_effects d)
    (slow_fn d) (slow_fn_with_metrics d) (fast_fn d) (fast_fn_with_metrics d).
Definition constructor_of (d : OpMethodDecl) : list OpDecl :=
  match constructor d with Some c => [rename c (object_name d)] | None => [] end.
Definition members (d : OpMethodDecl) : list OpDecl := constructor_of d ++ methods d ++ static_methods d.

(** Every member of an object gets the index of the object. *)
Fixpoint indexed_members (index : nat) (l : list OpMethodDecl) : list (nat * OpDecl) :=
  match l with
  | [] => []
  | d :: l => map (pair index) (members d) ++ indexed_members (1 + index) l
  end.

Fixpoint indexed (index : nat) (l : list OpDecl) : list (nat * OpDecl) :=
  match l with [] => [] | d :: l => (index, d) :: indexed (1 + index) l end.

(** The contexts, and how many of them are for objects. *)
Definition create_op_ctxs (op_decls : list OpDecl) (op_method_decls : list OpMethodDecl) (t : T) :
    list OpCtx * nat * T :=
  let op_count := (length op_decls + length op_method_decls)%nat in
  let (method_ctxs, t) := create_ctxs op_count (indexed_members 0 op_method_decls) t in
  let methods_ctx_offset := length method_ctxs in
  let (op_ctxs, t) := create_ctxs op_count (indexed methods_ctx_offset op_decls) t in
  (method_ctxs ++ op_ctxs, methods_ctx_offset, t).
End contexts.

(** The functions behind the external references of a context; [None] is the placeholder. *)
Definition external_references (ctx : OpCtx) : fn * option (fn * fn) :=
  let slow := if metrics_enabled ctx then slow_fn_with_metrics (decl ctx) else slow_fn (decl ctx) in
  let fast := if metrics_enabled ctx then fast_fn_with_metrics (decl ctx) else fast_fn (decl ctx) in
  (slow, f ← fast; info ← fast_fn_info ctx; Some (f, info)).

(** * Metrics *)

Inductive OpMetricsEvent := Dispatched | Completed | CompletedAsync | Error | ErrorAsync.
Inductive OpMetricsSource := Slow | Fast | Async.
Global Instance OpMetricsSource_eq_dec : EqDecision OpMetricsSource.
Proof. solve_decision. Defined.

Record OpMetricsSummary := mkSummary {
  ops_dispatched_sync : Z;
  ops_dispatched_async : Z;
  ops_dispatched_fast : Z;
  ops_completed_async : Z
}.
Global Instance OpMetricsSummary_eq_dec : EqDecision OpMetricsSummary.
Proof. solve_decision. Defined.

Definition OpMetricsSummary_default : OpMetricsSummary := mkSummary 0 0 0 0.
Definition has_outstanding_ops (m : OpMetricsSummary) : bool := ops_completed_async m <? ops_dispatched_async m.

(** [OpMetricsSummaryTracker]: one summary per op. *)
Abbreviation tracker := (list OpMetricsSummary) (only parsing).

Section metrics.
Context (profile : profile).

Definition add_summary (a b : OpMetricsSummary) : outcome OpMetricsSummary :=
  s ← add_w profile 64 (ops_dispatched_sync a) (ops_dispatched_sync b);
  f ← add_w profile 64 (ops_dispatched_fast a) (ops_dispatched_fast b);
  y ← add_w profile 64 (ops_dispatched_async a) (ops_dispatched_async b);
  c ← add_w profile 64 (ops_completed_async a) (ops_completed_async b);
  Ret (mkSummary s y f c).

Fixpoint sum_from (sum : OpMetricsSummary) (l : tracker) : outcome OpMetricsSummary :=
  match l with [] => Ret sum | m :: l => sum ← add_summary sum m; sum_from sum l end.
Definition aggregate (l : tracker) : outcome OpMetricsSummary := sum_from OpMetricsSummary_default l.

Definition metrics_mut (id : Z) (f : OpMetricsSummary → outcome OpMetricsSummary) (l : tracker) : outcome tracker :=
  match l !! Z.to_nat id with
  | Some m => m ← f m; Ret (<[Z.to_nat id := m]> l)
  | None => Panic OutOfBounds
  end.

Definition dispatched_delta (ctx : OpCtx) (source : OpMetricsSource) : OpMetricsSummary :=
  mkSummary (if is_async (decl ctx) then 0 else 1) (if is_async (decl ctx) then 1 else 0)
    (if decide (source = Fast) then 1 else 0) 0.

Definition op_metrics_fn (ctx : OpCtx) (event : OpMetricsEvent) (source : OpMetricsSource) (l : tracker) :
    outcome tracker :=
  match event with
  | Dispatched => metrics_mut (op_id ctx) (λ m, add_summary m (dispatched_delta ctx source)) l
  | Completed | Error | CompletedAsync | ErrorAsync =>
      if is_async (decl ctx) then metrics_mut (op_id ctx) (λ m, add_summary m (mkSummary 0 0 0 1)) l
      else Ret l
  end.

(** [op_metrics_factory_fn]: the id is ignored. *)
Definition tracker_factory (op_enabled : OpDecl → bool) : OpMetricsFactory tracker :=
  λ _ _ d l, (op_enabled d, l ++ [OpMetricsSummary_default]).

Definition merge_op_metrics {T U} (fn1 : OpMetricsFactory T) (fn2 : OpMetricsFactory U) :
    OpMetricsFactory (T * U) :=
  λ op count d t,
    let (a, t1) := fn1 op count d t.1 in
    let (b, t2) := fn2 op count d t.2 in
    (a || b, (t1, t2)).

(** A call of an op through [dispatch_metrics_fast], [_slow] or [_async]. *)
Definition dispatch_metrics (ctx : OpCtx) (event : OpMetricsEvent) (source : OpMetricsSource) (l : tracker) :
    outcome tracker :=
  if metrics_enabled ctx then op_metrics_fn ctx event source l else Ret l.

(** [dispatch_pending_ops]: the context of a completed op is found by its id. *)
Definition completed_async (op_ctxs : list OpCtx) (op_id : Z) (is_ok : bool) (l : tracker) : outcome tracker :=
  match op_ctxs !! Z.to_nat op_id with
  | Some ctx => dispatch_metrics ctx (if is_ok then CompletedAsync else ErrorAsync) Async l
  | None => Panic OutOfBounds
  end.
End metrics.

(** * Bindings *)

(** [name_key]: a property is named by a string or by a registered symbol. *)
Inductive property_key := StringKey (name : text) | SymbolKey (name : text).
Definition name_key (d : OpDecl) : property_key :=
  if symbol_for d then SymbolKey (name_fast d) else StringKey (name_fast d).

(** What [Deno.core.ops] is given: functions with the contexts [C] of their ops, under the
    keys of their properties.  The two functions of an accessor share a context, [data].  An
    asynchronous op is given through its stub. *)
Inductive binding (C : Type) :=
  | BindConstructor (object : text) (ctx : C)
  | BindTemplate (object : text)  (** an object without a constructor *)
  | BindMethod (object : text) (key : property_key) (ctx : C)
  | BindAccessor (object : text) (name : text) (getter setter : option C) (data : C)
  | BindStatic (object : text) (key : property_key) (ctx : C)
  | BindAsyncMethod (object : text) (key : property_key) (ctx : C)
  | BindInherit (object parent : text)
  | BindObject (object : text)
  | BindOp (name : text) (ctx : C)
  | BindAsyncOp (name : text) (ctx : C).
Arguments BindConstructor {C}.
Arguments BindTemplate {C}.
Arguments BindMethod {C}.
Arguments BindAccessor {C}.
Arguments BindStatic {C}.
Arguments BindAsyncMethod {C}.
Arguments BindInherit {C}.
Arguments BindObject {C}.
Arguments BindOp {C}.
Arguments BindAsyncOp {C}.

Section methods.
Context {C : Type} (dec : C → OpDecl).

(** [create_accessor_store]: the getter and the setter of a name. *)
Definition accessors (method_ctxs : list C) (name : text) : option (option C * option C) :=
  let of_type t m := bool_decide (op_name (dec m) = name) && bool_decide (accessor_type (dec m) = t) in
  let keyed t m := bool_decide (name_fast (dec m) = name) && bool_decide (accessor_type (dec m) = t) in
  match last (filter (keyed Setter) method_ctxs) with
  | Some setter => Some (head (filter (of_type Getter) method_ctxs), Some setter)
  | None => (λ g, (Some g, None)) <$> head (filter (keyed Getter) method_ctxs)
  end.

(** [op_ctx_template_or_accessor]. *)
Definition bind_method (object : text) (method_ctxs : list C) (ctx : C) : list (binding C) :=
  if negb (is_accessor (dec ctx)) then
    let key := name_key (dec ctx) in
    [if is_async (dec ctx) then BindAsyncMethod object key ctx else BindMethod object key ctx]
  else
    match accessors method_ctxs (op_name (dec ctx)) with
    | Some (getter, setter) => [BindAccessor object (name_fast (dec ctx)) getter setter ctx]
    | None => []
    end.

(** Async methods come last. *)
Definition bind_members (object : text) (method_ctxs static_ctxs : list C) : list (binding C) :=
  concat (map (bind_method object method_ctxs) (filter (λ m, is_async (dec m) = false) method_ctxs)) ++
  map (λ m, BindStatic object (name_key (dec m)) m) static_ctxs ++
  concat (map (bind_method object method_ctxs) (filter (λ m, is_async (dec m) = true) method_ctxs)).
End methods.

(** [&ctxs[index..index + len]]. *)
Definition ctx_slice (ctxs : list OpCtx) (index len : nat) : outcome (list OpCtx) :=
  if (index + len <=? length ctxs)%nat then Ret (take len (drop index ctxs)) else Panic OutOfBounds.

(** One object, with the types that are registered. *)
Definition bind_object (ctxs : list OpCtx) (index : nat) (d : OpMethodDecl) (types : list text) :
    outcome (list (binding OpCtx) * nat * list text) :=
  let object := (object_name d).2 in
  '(first, index) ←
    (match constructor d with
     | Some _ => match ctxs !! index with
                 | Some ctx => Ret (BindConstructor object ctx, (index + 1)%nat)
                 | None => Panic OutOfBounds
                 end
     | None => Ret (BindTemplate object, index)
     end);
  method_ctxs ← ctx_slice ctxs index (length (methods d));
  let index := (index + length (methods d))%nat in
  static_ctxs ← ctx_slice ctxs index (length (static_methods d));
  let index := (index + length (static_methods d))%nat in
  inherit ← (match inherits_type_name d with
             | Some e => if decide (e ∈ types) then Ret [BindInherit object e] else Panic Unwrap
             | None => Ret []
             end);
  Ret (first :: bind_members decl object method_ctxs static_ctxs ++ inherit ++ [BindObject object],
       index, types ++ [type_name d]).

Fixpoint bind_objects (ctxs : list OpCtx) (methods_ctx_offset index : nat) (l : list OpMethodDecl)
    (types : list text) : outcome (list (binding OpCtx) * nat) :=
  match l with
  | [] => Ret ([], index)
  | d :: l =>
      if decide (index = methods_ctx_offset) then Ret ([], index)
      else
        '(bound, index, types) ← bind_object ctxs index d types;
        '(rest, index) ← bind_objects ctxs methods_ctx_offset index l types;
        Ret (bound ++ rest, index)
  end.

Definition bind_op (ctx : OpCtx) : binding OpCtx :=
  let name := name_fast (decl ctx) in
  if is_async (decl ctx) then BindAsyncOp name ctx else BindOp name ctx.

Definition initialize_deno_core_ops_bindings (op_ctxs : list OpCtx) (op_method_decls : list OpMethodDecl)
    (methods_ctx_offset : nat) : outcome (list (binding OpCtx)) :=
  '(bound, index) ← bind_objects op_ctxs methods_ctx_offset 0 op_method_decls [];
  if (index <=? length op_ctxs)%nat then Ret (bound ++ map bind_op (drop index op_ctxs)) else Panic OutOfBounds.

(** The names that [ext:core/ops] exports. *)
Fixpoint export_objects (methods_ctx_offset index : nat) (l : list OpMethodDecl) : list text * nat :=
  match l with
  | [] => ([], index)
  | d :: l =>
      if decide (index = methods_ctx_offset) then ([], index)
      else
        let index := (index + length (constructor_of d) + (length (methods d) + length (static_methods d)))%nat in
        let (names, index) := export_objects methods_ctx_offset index l in
        ((object_name d).2 :: names, index)
  end.

Definition create_exports_for_ops_virtual_module (op_ctxs : list OpCtx) (op_method_decls : list OpMethodDecl)
    (methods_ctx_offset : nat) : outcome (list text) :=
  let (names, index) := export_objects methods_ctx_offset 0 op_method_decls in
  if (index <=? length op_ctxs)%nat then Ret (names ++ map (λ c, name_fast (decl c)) (drop index op_ctxs))
  else Panic OutOfBounds.

(** * Calls *)

(** [reentrancy_check]: [CURRENT_OP] and whether a guard was made. *)
Definition reentrancy_check (d : OpDecl) (current : option OpDecl) : outcome (bool * option OpDecl) :=
  if is_reentrant d then Ret (false, current)
  else match current with
       | Some _ => Panic Unwrap
       | None => Ret (true, Some d)
       end.
Definition drop_guard (guard : bool) (current : option OpDecl) : option OpDecl :=
  if guard then None else current.

(** An op call with the calls that it makes. *)
#[local] Unset Elimination Schemes.
Inductive call := Call (d : OpDecl) (inner : list call).
#[local] Set Elimination Schemes.

Fixpoint run_call (c : call) (current : option OpDecl) : outcome (option OpDecl) :=
  match c with
  | Call d inner =>
      '(guard, current) ← reentrancy_check d current;
      current ← (fix run_calls l current := match l with
                                            | [] => Ret current
                                            | c :: l => current ← run_call c current; run_calls l current
                                            end) inner current;
      Ret (drop_guard guard current)
  end.

(** ** [ExternalOpsTracker] and references *)

Definition ref_op (counter : Z) : Z := (counter + 1) mod 2 ^ 64.
Definition unref_op (counter : Z) : Z := if counter =? 0 then counter else counter - 1.
Definition has_pending_ops (counter : Z) : bool := 0 <? counter.

(** The [unrefed_resources] of [OpState]. *)
Definition uv_unref (rid : Z) (l : gmap Z unit) : gmap Z unit := <[rid := tt]> l.
Definition uv_ref (rid : Z) (l : gmap Z unit) : gmap Z unit := delete rid l.
Definition has_ref (rid : Z) (l : gmap Z unit) : bool := bool_decide (l !! rid = None).

(** * Layout

    The bindings without indices: each object with its own declarations. *)

Definition map_binding {C D} (f : C → D) (b : binding C) : binding D :=
  match b with
  | BindConstructor o c => BindConstructor o (f c)
  | BindTemplate o => BindTemplate o
  | BindMethod o k c => BindMethod o k (f c)
  | BindAccessor o n g s c => BindAccessor o n (f <$> g) (f <$> s) (f c)
  | BindStatic o k c => BindStatic o k (f c)
  | BindAsyncMethod o k c => BindAsyncMethod o k (f c)
  | BindInherit o p => BindInherit o p
  | BindObject o => BindObject o
  | BindOp n c => BindOp n (f c)
  | BindAsyncOp n c => BindAsyncOp n (f c)
  end.

(** A property of an object: a method, or an accessor whose getter is the first and whose
    setter is the last of the name. *)
Definition accesses (t : AccessorType) (name : text) (d : OpDecl) : bool :=
  bool_decide (op_name d = name ∧ accessor_type d = t).
Definition property (object : text) (siblings : list OpDecl) (d : OpDecl) : binding OpDecl :=
  match accessor_type d with
  | NoAccessor =>
      let key := (if symbol_for d then SymbolKey else StringKey) (op_name d) in
      if is_async d then BindAsyncMethod object key d else BindMethod object key d
  | Getter | Setter =>
      BindAccessor object (op_name d) (List.find (accesses Getter (op_name d)) siblings)
        (List.find (accesses Setter (op_name d)) (reverse siblings)) d
  end.
Definition static_property (object : text) (d : OpDecl) : binding OpDecl :=
  BindStatic object ((if symbol_for d then SymbolKey else StringKey) (op_name d)) d.

(** The synchronous methods, the static ones, the asynchronous ones. *)
Definition object_bindings (d : OpMethodDecl) : list (binding OpDecl) :=
  let object := (object_name d).2 in
  let (later, sooner) := List.partition is_async (methods d) in
  match constructor d with
  | Some c => BindConstructor object (mkDecl (object_name d).1 object (is_async c) (is_reentrant c) (symbol_for c)
      (accessor_type c) (arg_count c) (no_side_effects c) (slow_fn c) (slow_fn_with_metrics c) (fast_fn c)
      (fast_fn_with_metrics c))
  | None => BindTemplate object
  end :: map (property object (methods d)) sooner ++ map (static_property object) (static_methods d) ++
  map (property object (methods d)) later ++
  option_list (BindInherit object <$> inherits_type_name d) ++ [BindObject object].

Definition op_binding (d : OpDecl) : binding OpDecl :=
  (if is_async d then BindAsyncOp else BindOp) (op_name d) d.

(** The two names of a declaration are the same text. *)
Definition named (d : OpDecl) : Prop := name_fast d = op_name d.

(** Parents come before their children. *)
Fixpoint parents_first (types : list text) (l : list OpMethodDecl) : Prop :=
  match l with
  | [] => True
  | d :: l => match inherits_type_name d with Some e => e ∈ types | None => True end ∧
              parents_first (types ++ [type_name d]) l
  end.
Global Instance parents_first_dec types l : Decision (parents_first types l).
Proof. revert types. induction l as [|d l IH]; intros types; simpl; [apply _|]. destruct (inherits_type_name d); apply _. Defined.

Section layout.
Context {T : Type} (factory : option (OpMetricsFactory T)).

Lemma create_ctx_spec op_count index d t ctx t' :
  create_ctx factory op_count index d t = (ctx, t') → decl ctx = d ∧ op_id ctx = Z.of_nat index mod 2 ^ 16.
Proof. unfold create_ctx. destruct factory as [f|]; [destruct (f _ _ _ _)|]; by intros [= <- _]. Qed.

Lemma create_ctxs_spec op_count l t :
  map decl (create_ctxs factory op_count l t).1 = l.*2 ∧
  map op_id (create_ctxs factory op_count l t).1 = map (λ i, Z.of_nat i mod 2 ^ 16) l.*1.
Proof.
  revert t. induction l as [|[i d] l IH]; intros t; [done|]. cbn [create_ctxs].
  destruct (create_ctx factory op_count i d t) as [ctx t1] eqn:Hc. apply create_ctx_spec in Hc as [Hd Hi].
  specialize (IH t1). destruct (create_ctxs factory op_count l t1) as [ctxs t2]. simpl in *.
  destruct IH as [-> ->]. by rewrite Hd, Hi.
Qed.

Lemma indexed_members_decls i l : (indexed_members i l).*2 = concat (map members l).
Proof.
  revert i. induction l as [|d l IH]; intros i; [done|]. simpl. rewrite fmap_app, IH.
  f_equal. rewrite <- list_fmap_compose. apply list_fmap_id.
Qed.

Lemma indexed_decls i l : (indexed i l).*2 = l.
Proof. revert i. induction l as [|d l IH]; intros i; [done|]. simpl. by rewrite IH. Qed.

Lemma indexed_ids i l : (indexed i l).*1 = seq i (length l).
Proof. revert i. induction l as [|d l IH]; intros i; [done|]. simpl. by rewrite IH. Qed.
End layout.

(** Bindings of contexts show those of their declarations. *)
Section naturality.
Context {C : Type} (dec : C → OpDecl).

Lemma filter_dec (P : OpDecl → Prop) `{!∀ d, Decision (P d)} (l : list C) :
  map dec (filter (λ c, P (dec c)) l) = filter P (map dec l).
Proof.
  induction l as [|c l IH]; [done|]. cbn [map]. rewrite !filter_cons. case_decide; simpl; by rewrite IH.
Qed.

Lemma head_map (l : list C) : head (map dec l) = dec <$> head l.
Proof. by destruct l. Qed.
Lemma last_map (l : list C) : last (map dec l) = dec <$> last l.
Proof. apply fmap_last. Qed.

Definition map_pair (p : option C * option C) : option OpDecl * option OpDecl := (dec <$> p.1, dec <$> p.2).

Lemma accessors_dec (l : list C) n : accessors id (map dec l) n = map_pair <$> accessors dec l n.
Proof.
  unfold accessors.
  pose proof (filter_dec (λ m, bool_decide (name_fast m = n) && bool_decide (accessor_type m = Setter)) l) as E1.
  pose proof (filter_dec (λ m, bool_decide (name_fast m = n) && bool_decide (accessor_type m = Getter)) l) as E2.
  pose proof (filter_dec (λ m, bool_decide (op_name m = n) && bool_decide (accessor_type m = Getter)) l) as E3.
  cbv beta in E1, E2, E3. unfold id. rewrite <- E1, <- E2, <- E3, last_map, !head_map.
  destruct (last _) as [s|]; [done|]. simpl. by destruct (head _).
Qed.

Lemma bind_method_dec o (l : list C) c :
  bind_method id o (map dec l) (dec c) = map (map_binding dec) (bind_method dec o l c).
Proof.
  unfold bind_method. simpl. destruct (negb (is_accessor (dec c))); [simpl; by destruct (is_async (dec c))|].
  rewrite accessors_dec. by destruct (accessors dec l (op_name (dec c))) as [[g s]|].
Qed.

Lemma bind_members_dec o (ms ss : list C) :
  bind_members id o (map dec ms) (map dec ss) = map (map_binding dec) (bind_members dec o ms ss).
Proof.
  unfold bind_members. rewrite !map_app, !concat_map, !map_map. unfold id. f_equal; [|f_equal].
  - rewrite <- (filter_dec (λ m, is_async m = false)), map_map. f_equal. apply map_ext. intros c. apply bind_method_dec.
  - rewrite <- (filter_dec (λ m, is_async m = true)), map_map. f_equal. apply map_ext. intros c. apply bind_method_dec.
Qed.
End naturality.

(** ** The bindings of declarations, by their properties *)

Lemma head_filter {A} (f : A → bool) (P : A → Prop) `{!∀ x, Decision (P x)} (l : list A) :
  Forall (λ x, P x ↔ f x = true) l → head (filter P l) = List.find f l.
Proof.
  induction 1 as [|x l Hx Hl IH]; [done|]. rewrite filter_cons. simpl. case_decide as Hd.
  - by rewrite (proj1 Hx Hd).
  - destruct (f x); [by destruct Hd; apply Hx|done].
Qed.

Lemma last_filter {A} (f : A → bool) (P : A → Prop) `{!∀ x, Decision (P x)} (l : list A) :
  Forall (λ x, P x ↔ f x = true) l → last (filter P l) = List.find f (reverse l).
Proof.
  intros Hl. rewrite <- head_reverse, <- filter_reverse. apply head_filter. by apply Forall_reverse.
Qed.

Lemma partition_filter {A} (f : A → bool) (l : list A) :
  List.partition f l = (filter (λ x, f x = true) l, filter (λ x, f x = false) l).
Proof.
  induction l as [|x l IH]; [done|]. simpl. rewrite IH, !filter_cons. by destruct (f x).
Qed.

(** Every accessor has a getter or a setter of its name: itself. *)
Lemma bind_method_property o ms d :
  Forall named ms → d ∈ ms → bind_method id o ms d = [property o ms d].
Proof.
  intros Hn Hd. assert (named d) as Hnd by (rewrite Forall_forall in Hn; by apply Hn).
  assert (∀ t n, Forall (λ m, bool_decide (op_name (id m) = n) && bool_decide (accessor_type (id m) = t) ↔
    accesses t n m = true) ms) as H1.
  { intros t n. apply Forall_forall. intros m _. unfold accesses, id.
    rewrite bool_decide_eq_true, andb_True, !bool_decide_spec. done. }
  assert (∀ t n, Forall (λ m, bool_decide (name_fast (id m) = n) && bool_decide (accessor_type (id m) = t) ↔
    accesses t n m = true) ms) as H2.
  { intros t n. apply Forall_forall. intros m Hm. rewrite Forall_forall in Hn. specialize (Hn m Hm).
    unfold accesses, id. rewrite Hn, bool_decide_eq_true, andb_True, !bool_decide_spec. done. }
  unfold bind_method, property, is_accessor, name_key. cbv delta [id]; cbv beta. rewrite Hnd.
  destruct (accessor_type d) eqn:Ht; simpl.
  3: by destruct (symbol_for d), (is_async d).
  all: unfold accessors; rewrite (last_filter _ _ _ (H2 Setter (op_name d))).
  - destruct (List.find _ (reverse ms)); [by rewrite (head_filter _ _ _ (H1 Getter (op_name d)))|].
    rewrite (head_filter _ _ _ (H2 Getter (op_name d))).
    destruct (List.find _ ms) eqn:Hf; [done|]. eapply List.find_none in Hf; [|by apply list_elem_of_In].
    unfold accesses in Hf. by apply bool_decide_eq_false in Hf as [].
  - destruct (List.find _ (reverse ms)) eqn:Hf; [by rewrite (head_filter _ _ _ (H1 Getter (op_name d)))|].
    eapply List.find_none in Hf; [|by apply list_elem_of_In, elem_of_reverse].
    unfold accesses in Hf. by apply bool_decide_eq_false in Hf as [].
Qed.

Lemma bind_members_properties o ms ss :
  Forall named ms → Forall named ss →
  bind_members id o ms ss =
    map (property o ms) (List.partition is_async ms).2 ++ map (static_property o) ss ++
    map (property o ms) (List.partition is_async ms).1.
Proof.
  intros Hm Hs. rewrite partition_filter. unfold bind_members. simpl.
  assert (∀ l, l ⊆ ms → concat (map (bind_method id o ms) l) = map (property o ms) l) as H.
  { induction l as [|d l IH]; intros Hl; [done|]. simpl. rewrite IH by set_solver.
    by rewrite bind_method_property by (done || set_solver). }
  rewrite !H by (intros x; rewrite list_elem_of_filter; naive_solver). f_equal. f_equal.
  apply map_ext_in. intros d Hd%list_elem_of_In. rewrite Forall_forall in Hs. unfold static_property, name_key, id.
  rewrite (Hs d Hd). by destruct (symbol_for d).
Qed.

Definition all_named (d : OpMethodDecl) : Prop := Forall named (methods d ++ static_methods d).

Lemma object_bindings_members d :
  all_named d →
  object_bindings d =
    match constructor_of d with
    | c :: _ => BindConstructor (object_name d).2 c
    | [] => BindTemplate (object_name d).2
    end :: bind_members id (object_name d).2 (methods d) (static_methods d) ++
    match inherits_type_name d with Some e => [BindInherit (object_name d).2 e] | None => [] end ++
    [BindObject (object_name d).2].
Proof.
  intros [Hm Hs]%Forall_app. rewrite bind_members_properties by done. unfold object_bindings, constructor_of.
  destruct (List.partition _ _) as [later sooner]. simpl. rewrite <- !app_assoc.
  by destruct (constructor d), (inherits_type_name d).
Qed.

Section bindings.
Implicit Types (ctxs pre post : list OpCtx) (d : OpMethodDecl).

(** A slice of a list that is known in parts. *)
Lemma ctx_slice_app pre mid post n :
  length mid = n → ctx_slice (pre ++ mid ++ post) (length pre) n = Ret mid.
Proof.
  intros <-. unfold ctx_slice. rewrite !length_app, (proj2 (Nat.leb_le _ _)) by lia.
  by rewrite drop_app_length, take_app_length.
Qed.

Lemma bind_object_spec pre mid post d types :
  map decl mid = members d → match inherits_type_name d with Some e => e ∈ types | None => True end →
  all_named d →
  ∃ bound, bind_object (pre ++ mid ++ post) (length pre) d types =
      Ret (bound, length (pre ++ mid), types ++ [type_name d]) ∧
    map (map_binding decl) bound = object_bindings d.
Proof.
  intros Hmid Hin Hn. unfold members in Hmid.
  assert (∃ cs ms ss, mid = cs ++ ms ++ ss ∧ map decl cs = constructor_of d ∧ map decl ms = methods d ∧
    map decl ss = static_methods d) as (cs & ms & ss & -> & Hcs & Hms & Hss).
  { apply map_eq_app in Hmid as (cs & r & -> & ? & Hr). apply map_eq_app in Hr as (ms & ss & -> & ? & ?).
    by exists cs, ms, ss. }
  assert (length ms = length (methods d)) as Lms by (by rewrite <- Hms, length_map).
  assert (length ss = length (static_methods d)) as Lss by (by rewrite <- Hss, length_map).
  assert (∃ first, (match constructor d with
     | Some _ => match (pre ++ (cs ++ ms ++ ss) ++ post) !! length pre with
                 | Some ctx => Ret (BindConstructor (object_name d).2 ctx, (length pre + 1)%nat)
                 | None => Panic OutOfBounds
                 end
     | None => Ret (BindTemplate (object_name d).2, length pre)
     end) = Ret (first, length (pre ++ cs)) ∧
     map_binding decl first = match constructor_of d with
       | c :: _ => BindConstructor (object_name d).2 c | [] => BindTemplate (object_name d).2 end) as (first & Hf & Hfb).
  { rewrite <- Hcs. unfold constructor_of in Hcs. destruct (constructor d) as [c|].
    - destruct cs as [|k [|? ?]]; [done| |done].
      change (([k] ++ ms ++ ss) ++ post) with (k :: (ms ++ ss) ++ post). rewrite list_lookup_middle by done.
      eexists. rewrite length_app. by split.
    - destruct cs; [|done]. eexists. rewrite app_nil_r. by split. }
  unfold bind_object. rewrite Hf, bind_Ret.
  rewrite <- !app_assoc, (app_assoc pre cs).
  rewrite (ctx_slice_app (pre ++ cs) ms (ss ++ post)), bind_Ret by done. rewrite <- Lms, <- length_app.
  rewrite (app_assoc (pre ++ cs) ms), (ctx_slice_app ((pre ++ cs) ++ ms) ss post), bind_Ret by done.
  rewrite <- Lss, <- length_app.
  assert (∃ inh, (match inherits_type_name d with
             | Some e => if decide (e ∈ types) then Ret [BindInherit (object_name d).2 e] else Panic Unwrap
             | None => Ret []
             end : outcome (list (binding OpCtx))) = Ret inh ∧ map (map_binding decl) inh =
     match inherits_type_name d with Some e => [BindInherit (object_name d).2 e] | None => [] end) as (inh & Hi & Hib).
  { destruct (inherits_type_name d); [rewrite decide_True by done|]; by eexists. }
  rewrite Hi, bind_Ret. eexists. split; [do 3 f_equal; by rewrite <- !app_assoc|].
  rewrite object_bindings_members by done. simpl. rewrite Hfb, !map_app, Hib, <- Hms, <- Hss, bind_members_dec. done.
Qed.

Lemma bind_objects_spec pre mid post l types :
  map decl mid = concat (map members l) → Forall (λ d, members d ≠ []) l → Forall all_named l → parents_first types l →
  ∃ bound, bind_objects (pre ++ mid ++ post) (length (pre ++ mid)) (length pre) l types =
      Ret (bound, length (pre ++ mid)) ∧
    map (map_binding decl) bound = concat (map object_bindings l).
Proof.
  revert pre mid types. induction l as [|d l IH]; intros pre mid types Hmid Hne Hn Hp; simpl in Hmid.
  - apply map_eq_nil in Hmid as ->. exists []. by rewrite app_nil_r.
  - apply Forall_cons in Hne as [Hd Hne]. apply Forall_cons in Hn as [Hnd Hn]. destruct Hp as [Hin Hp].
    apply map_eq_app in Hmid as (m1 & m2 & -> & H1 & H2). cbn [bind_objects].
    rewrite decide_False.
    2: { rewrite !length_app. destruct m1; [by simpl in H1; rewrite <- H1 in Hd|]. simpl. lia. }
    destruct (bind_object_spec pre m1 (m2 ++ post) d types H1 Hin Hnd) as (b1 & Hb1 & E1).
    destruct (IH (pre ++ m1) m2 (types ++ [type_name d]) H2 Hne Hn Hp) as (b2 & Hb2 & E2).
    rewrite <- (app_assoc m1 m2 post), Hb1, bind_Ret.
    replace (pre ++ m1 ++ m2 ++ post) with ((pre ++ m1) ++ m2 ++ post) by (by rewrite <- app_assoc).
    rewrite (app_assoc pre m1 m2), Hb2, bind_Ret. eexists. split; [done|].
    rewrite map_app, E1, E2. done.
Qed.
End bindings.


(** * Metrics count calls *)

Section counting.
Context (profile : profile).
Implicit Types (m : OpMetricsSummary) (ctxs : list OpCtx) (tr : list OpMetricsSummary).

(** What the program does with the ops: it calls the one at an index, which returns; the
    driver completes one by its id. *)
Inductive use :=
  | Enter (source : OpMetricsSource)
  | Leave (is_ok : bool)
  | Finish (is_ok : bool).

Definition run_use ctxs (i : nat) (u : use) tr : outcome (list OpMetricsSummary) :=
  match ctxs !! i with
  | None => Panic OutOfBounds
  | Some ctx =>
      match u with
      | Enter source => dispatch_metrics profile ctx Dispatched source tr
      | Leave is_ok => dispatch_metrics profile ctx (if is_ok then Completed else Error) Slow tr
      | Finish is_ok => completed_async profile ctxs (op_id ctx) is_ok tr
      end
  end.

Fixpoint run_uses ctxs (l : list (nat * use)) tr : outcome (list OpMetricsSummary) :=
  match l with [] => Ret tr | (i, u) :: l => tr ← run_use ctxs i u tr; run_uses ctxs l tr end.

(** The counts, without machine integers. *)
Definition plus m1 m2 : OpMetricsSummary :=
  mkSummary (ops_dispatched_sync m1 + ops_dispatched_sync m2) (ops_dispatched_async m1 + ops_dispatched_async m2)
    (ops_dispatched_fast m1 + ops_dispatched_fast m2) (ops_completed_async m1 + ops_completed_async m2).
Definition delta (ctx : OpCtx) (u : use) : OpMetricsSummary :=
  if metrics_enabled ctx then
    match u with
    | Enter source => dispatched_delta ctx source
    | Leave _ | Finish _ => mkSummary 0 0 0 (if is_async (decl ctx) then 1 else 0)
    end
  else OpMetricsSummary_default.
Fixpoint total (i : nat) (ctx : OpCtx) (l : list (nat * use)) : OpMetricsSummary :=
  match l with
  | [] => OpMetricsSummary_default
  | (j, u) :: l => if decide (j = i) then plus (delta ctx u) (total i ctx l) else total i ctx l
  end.

Definition below m (n : Z) : Prop :=
  0 <= ops_dispatched_sync m < n ∧ 0 <= ops_dispatched_async m < n ∧ 0 <= ops_dispatched_fast m < n ∧
  0 <= ops_completed_async m < n.

Lemma add_summary_fits m1 m2 : below (plus m1 m2) (2 ^ 64) → add_summary profile m1 m2 = Ret (plus m1 m2).
Proof.
  intros (Hs & Ha & Hf & Hc). unfold add_summary, plus in *. simpl in *.
  rewrite !add_w_fits by lia. done.
Qed.

Lemma plus_default m : plus m OpMetricsSummary_default = m.
Proof. destruct m. unfold plus. simpl. by rewrite !Z.add_0_r. Qed.
Lemma plus_default_l m : plus OpMetricsSummary_default m = m.
Proof. by destruct m. Qed.
Lemma plus_assoc m1 m2 m3 : plus (plus m1 m2) m3 = plus m1 (plus m2 m3).
Proof. unfold plus. simpl. f_equal; lia. Qed.

Lemma delta_small ctx u : below (delta ctx u) 2.
Proof.
  unfold delta, dispatched_delta, below. destruct (metrics_enabled ctx); [|simpl; lia].
  destruct u; simpl; repeat case_decide; destruct (is_async (decl ctx)); simpl; lia.
Qed.

Lemma below_plus m1 m2 a b : below m1 a → below m2 b → below (plus m1 m2) (a + b - 1).
Proof. unfold below, plus. simpl. lia. Qed.

(** One use changes the summary at its index. *)
Lemma run_use_counts ctxs i u tr ctx m n :
  ctxs !! i = Some ctx → op_id ctx = Z.of_nat i → tr !! i = Some m → below m n → n + 1 <= 2 ^ 64 →
  run_use ctxs i u tr = Ret (<[i := plus m (delta ctx u)]> tr).
Proof.
  intros Hctx Hid Hm Hb Hn.
  assert (below (plus m (delta ctx u)) (2 ^ 64)) as Hfit.
  { pose proof (below_plus _ _ _ _ Hb (delta_small ctx u)) as Hp. unfold below in *. lia. }
  assert (∀ d, delta ctx u = d → metrics_enabled ctx = true →
    metrics_mut (op_id ctx) (λ m, add_summary profile m d) tr = Ret (<[i := plus m (delta ctx u)]> tr)) as Hmut.
  { intros d <- _. unfold metrics_mut. rewrite Hid, Nat2Z.id, Hm, add_summary_fits, bind_Ret by done. done. }
  assert (delta ctx u = OpMetricsSummary_default → Ret tr = Ret (<[i := plus m (delta ctx u)]> tr)) as Hsame.
  { intros ->. rewrite plus_default. by rewrite list_insert_id. }
  assert (∀ event source, (∀ d, delta ctx u = d → dispatch_metrics profile ctx event source tr =
      (if metrics_enabled ctx then op_metrics_fn profile ctx event source tr else Ret tr))) as _ by done.
  assert (∀ event, event ≠ Dispatched → (∃ b, u = Leave b ∨ u = Finish b) → ∀ source,
    dispatch_metrics profile ctx event source tr = Ret (<[i := plus m (delta ctx u)]> tr)) as Hdone.
  { intros event He (b & Hu) source. unfold dispatch_metrics.
    assert (delta ctx u = if metrics_enabled ctx then mkSummary 0 0 0 (if is_async (decl ctx) then 1 else 0)
      else OpMetricsSummary_default) as Hd by (by destruct Hu as [-> | ->]).
    destruct (metrics_enabled ctx); [|by apply Hsame].
    destruct (is_async (decl ctx)) eqn:Ha; destruct event; try done; simpl; rewrite Ha; by auto. }
  unfold run_use. rewrite Hctx. destruct u as [source|b|b].
  - unfold dispatch_metrics. destruct (metrics_enabled ctx) eqn:Hen.
    + apply Hmut; [|done]. unfold delta. by rewrite Hen.
    + apply Hsame. unfold delta. by rewrite Hen.
  - apply Hdone; [by destruct b|exists b; by left].
  - unfold completed_async. rewrite Hid, Nat2Z.id, Hctx. apply Hdone; [by destruct b|exists b; by right].
Qed.

Lemma run_uses_counts ctxs l tr n :
  (∀ i ctx, ctxs !! i = Some ctx → op_id ctx = Z.of_nat i) → Forall (λ e, is_Some (ctxs !! e.1)) l →
  length tr = length ctxs → Forall (λ m, below m n) tr → n + Z.of_nat (length l) <= 2 ^ 64 →
  ∃ tr', run_uses ctxs l tr = Ret tr' ∧ length tr' = length ctxs ∧
    ∀ i ctx m, ctxs !! i = Some ctx → tr !! i = Some m → tr' !! i = Some (plus m (total i ctx l)).
Proof.
  intros Hids. revert tr n. induction l as [|[i u] l IH]; intros tr n Hl Hlen Hb Hn.
  - exists tr. split_and!; [done..|]. intros i ctx m _ Hm. simpl. by rewrite plus_default.
  - apply Forall_cons in Hl as [[ctx Hctx] Hl]. simpl in Hctx.
    destruct (lookup_lt_is_Some_2 tr i) as [m Hm]; [rewrite Hlen; by eapply lookup_lt_Some|].
    assert (below m n) as Hbm by (by eapply Forall_lookup_1 in Hb).
    cbn [run_uses]. simpl length in Hn. rewrite (run_use_counts ctxs i u tr ctx m n), bind_Ret by (done || by apply Hids || lia).
    destruct (IH (<[i := plus m (delta ctx u)]> tr) (n + 1)) as (tr' & Hrun & Hlen' & Hall).
    + done.
    + by rewrite length_insert.
    + apply Forall_insert; [|pose proof (below_plus _ _ _ _ Hbm (delta_small ctx u)) as Hp; by replace (n + 1) with (n + 2 - 1) by lia].
      eapply Forall_impl; [exact Hb|]. intros x. unfold below. lia.
    + lia.
    + exists tr'. split_and!; [done..|]. intros j c mj Hj Hmj. simpl. case_decide as E.
      * subst j. simplify_eq. rewrite <- plus_assoc. apply Hall; [done|]. rewrite list_lookup_insert_eq; [done|].
        by eapply lookup_lt_Some.
      * apply Hall; [done|]. by rewrite list_lookup_insert_ne.
Qed.

Lemma tracker_create en count l tr :
  (create_ctxs (Some (tracker_factory en)) count l tr).2 = tr ++ replicate (length l) OpMetricsSummary_default.
Proof.
  revert tr. induction l as [|[i d] l IH]; intros tr; [by rewrite app_nil_r|]. cbn [create_ctxs create_ctx tracker_factory].
  specialize (IH (tr ++ [OpMetricsSummary_default])).
  destruct (create_ctxs _ count l _) as [ctxs t]. simpl in *. by rewrite IH, <- app_assoc.
Qed.

(** The metrics of ops count their calls.  When no extension has objects (and there are
    at most 2^16 ops), any sequence of fewer than 2^64 calls, returns and completions of ops
    leaves for each op exactly the number of its synchronous, asynchronous and fast calls and
    of its completions, nothing for an op that is not enabled; no access is out of bounds. *)
Lemma metrics_count_calls en op_decls l :
  Z.of_nat (length op_decls) <= 2 ^ 16 → Z.of_nat (length l) < 2 ^ 64 →
  Forall (λ e, (e.1 < length op_decls)%nat) l →
  let '(ctxs, _, tr) := create_op_ctxs (Some (tracker_factory en)) op_decls [] [] in
  ∃ tr', run_uses ctxs l tr = Ret tr' ∧ length tr' = length op_decls ∧
    ∀ i ctx, ctxs !! i = Some ctx → tr' !! i = Some (total i ctx l).
Proof.
  intros Hops Hlen Hl. unfold create_op_ctxs. cbn [indexed_members create_ctxs length app].
  generalize (length op_decls + 0)%nat as count; intros count.
  pose proof (create_ctxs_spec (Some (tracker_factory en)) count (indexed 0 op_decls) []) as [Hd Hi].
  pose proof (tracker_create en count (indexed 0 op_decls) []) as Ht.
  destruct (create_ctxs _ count (indexed 0 op_decls) []) as [ctxs tr]. simpl in Hd, Hi, Ht. subst tr.
  rewrite indexed_decls in Hd. rewrite indexed_ids in Hi.
  assert (length ctxs = length op_decls) as Hlc by (by rewrite <- Hd, length_map).
  assert (length (indexed 0 op_decls) = length op_decls) as Hli
    by (rewrite <- (length_fmap snd), indexed_decls; done).
  rewrite Hli. destruct (run_uses_counts ctxs l (replicate (length op_decls) OpMetricsSummary_default) 1) as (tr' & Hr & Hlt & Hall).
  - intros i ctx Hctx. assert (map op_id ctxs !! i = Some (op_id ctx)) as Hid
      by (change (map op_id ctxs) with (op_id <$> ctxs); by rewrite list_lookup_fmap, Hctx).
    pose proof (lookup_lt_Some _ _ _ Hctx). rewrite Hi in Hid. change (map ?f ?x) with (f <$> x) in Hid.
    rewrite list_lookup_fmap, lookup_seq_lt in Hid by lia. simpl in Hid. injection Hid as <-.
    rewrite Z.mod_small; lia.
  - eapply Forall_impl; [exact Hl|]. intros [i u] Hlt. simpl in *. apply lookup_lt_is_Some_2. lia.
  - by rewrite length_replicate.
  - apply Forall_replicate. unfold below. simpl. lia.
  - lia.
  - exists tr'. split; [done|]. split; [lia|]. intros i ctx Hctx.
    rewrite <- (plus_default_l (total i ctx l)). apply Hall; [done|]. apply lookup_replicate. split; [done|].
    apply lookup_lt_Some in Hctx. lia.
Qed.
End counting.

(** * Examples *)

Definition op (name : text) (asynchronous : bool) (type : AccessorType) (f : fn) : OpDecl :=
  mkDecl name name asynchronous false false type 0 false f (f + 100) None None.
Definition object (name : text) (c : option OpDecl) (ms ss : list OpDecl) (parent : option text) : OpMethodDecl :=
  mkMethodDecl name (name, name) c ms ss parent.

Definition demo_ops : list OpDecl := [op ($ "op_read") true NoAccessor 1; op ($ "op_now") false NoAccessor 2].
Definition demo_objects : list OpMethodDecl :=
  [object ($ "Event") (Some (op ($ "new") false NoAccessor 10))
     [op ($ "kind") false Getter 11; op ($ "kind") false Setter 12; op ($ "wait") true NoAccessor 13] [] None;
   object ($ "Click") None [op ($ "x") false Getter 20] [op ($ "of") false NoAccessor 21] (Some ($ "Event"))].


Lemma metrics_count_calls_example :
  let uses := [(0%nat, Enter Slow); (1%nat, Enter Fast); (1%nat, Leave true); (0%nat, Finish true); (0%nat, Enter Slow)] in
  let '(ctxs, _, tr) := create_op_ctxs (Some (tracker_factory (λ _, true))) demo_ops [] [] in
  ∃ tr', run_uses Debug ctxs uses tr = Ret tr' ∧ length tr' = length demo_ops ∧
    ∀ i ctx, ctxs !! i = Some ctx → tr' !! i = Some (total i ctx uses).
Proof.
  apply (metrics_count_calls Debug (λ _, true) demo_ops
    [(0%nat, Enter Slow); (1%nat, Enter Fast); (1%nat, Leave true); (0%nat, Finish true); (0%nat, Enter Slow)]).
  - vm_compute. discriminate.
  - vm_compute. reflexivity.
  - repeat constructor.
Qed.

(** * What the code does not do *)

Definition demo_extension : Extension unit := mkExtension ($ "demo") [] demo_ops [] None false None true.
(** Two objects and an op; only methods are called. *)
Definition two_objects : list OpMethodDecl :=
  [object ($ "A") None [op ($ "first") false NoAccessor 1; op ($ "second") true NoAccessor 2] [] None;
   object ($ "B") None [op ($ "third") true NoAccessor 3] [] None].
Definition two_contexts := create_op_ctxs (Some (tracker_factory (λ _, true))) [] two_objects [].
(** The last object has no members. *)
Definition empty_last : list OpMethodDecl :=
  [object ($ "A") None [op ($ "first") false NoAccessor 1] [] None; object ($ "Empty") None [] [] None].

(** The ops of a disabled extension stay enabled.  The members of an object get its index as
    id: a call of the second member counts for the op with that id, and the contexts that
    asynchronous members complete under are those of others.  A last object without members
    is neither bound nor exported. *)
Lemma op_context_gaps :
  ext_init_ops (disable_extension demo_extension) = demo_ops ∧
  (map op_id two_contexts.1.1 = [0; 0; 1] ∧ map (op_name ∘ decl) two_contexts.1.1 = [$ "first"; $ "second"; $ "third"]) ∧
  run_uses Debug two_contexts.1.1 [(1%nat, Enter Slow); (1%nat, Finish true)] two_contexts.2 =
    Ret [mkSummary 0 1 0 0; OpMetricsSummary_default; OpMetricsSummary_default] ∧
  (let '(ctxs, offset, _) := create_op_ctxs (T := unit) None demo_ops empty_last tt in
   (bound ← initialize_deno_core_ops_bindings ctxs empty_last offset;
    Ret (map (map_binding (op_name ∘ decl)) bound)) =
     Ret [BindTemplate ($ "A"); BindMethod ($ "A") (StringKey ($ "first")) ($ "first"); BindObject ($ "A");
          BindAsyncOp ($ "op_read") ($ "op_read"); BindOp ($ "op_now") ($ "op_now")] ∧
   create_exports_for_ops_virtual_module ctxs empty_last offset = Ret [$ "A"; $ "op_read"; $ "op_now"]).
Proof. vm_compute. split_and!; reflexivity. Qed.

(** [#[symbol]] is for methods: an accessor and an op are bound under the string. *)
Definition symbol_accessor : OpDecl :=
  mkDecl ($ "kind") ($ "kind") false false true Getter 0 false 30 130 None None.
Lemma symbol_is_ignored :
  name_key symbol_accessor = SymbolKey ($ "kind") ∧
  bind_method id ($ "A") [symbol_accessor] symbol_accessor =
    [BindAccessor ($ "A") ($ "kind") (Some symbol_accessor) None symbol_accessor].
Proof. vm_compute. split; reflexivity. Qed.
