(* ===== verification/ExtSources.v ===== *)
(** Sources of extensions: how they are read ([core/extension_set.rs], [core/extensions.rs]),
    the loaders ([modules/loaders.rs]), and the execution of an extension's JavaScript
    ([runtime/jsruntime.rs]).

    The file system, the transpiler, the [url] crate and V8 are parameters. *)

From S2P Require Import Prelude RustStr Specifiers Modules.

Local Open Scope Z_scope.

(** * Files *)

Inductive ExtensionFileSourceCode :=
  | IncludedInBinary (code : text)
  | LoadedFromFsDuringSnapshot (path : text)
  | LoadedFromMemoryDuringSnapshot (code : text)
  | Computed (code : text).

Inductive ExtensionSourceType := LazyEsm | Js | Esm.

Record ExtensionFileSource := mkFile { file_specifier : text; file_code : ExtensionFileSourceCode }.

(** The files of an [Extension]. *)
Record ExtensionFiles := mkFiles {
  ext_name : text;
  js_files : list ExtensionFileSource;
  esm_files : list ExtensionFileSource;
  lazy_loaded_esm_files : list ExtensionFileSource;
  esm_entry_point : option text
}.

(** [M] are source maps. *)
Record LoadedSource (M : Type) := mkLoaded {
  source_type : ExtensionSourceType;
  loaded_specifier : text;
  loaded_code : text;
  maybe_source_map : option M
}.
Arguments mkLoaded {M}.
Arguments source_type {M}.
Arguments loaded_specifier {M}.
Arguments loaded_code {M}.
Arguments maybe_source_map {M}.

Record LoadedSources (M : Type) := mkSources {
  js : list (LoadedSource M);
  esm : list (LoadedSource M);
  lazy_esm : list (LoadedSource M);
  esm_entry_points : list text
}.
Arguments mkSources {M}.
Arguments js {M}.
Arguments esm {M}.
Arguments lazy_esm {M}.
Arguments esm_entry_points {M}.

Definition sources_len {M} (s : LoadedSources M) : nat := (length (js s) + length (esm s) + length (lazy_esm s))%nat.
Definition sources_is_empty {M} (s : LoadedSources M) : bool :=
  bool_decide (js s = [] ∧ esm s = [] ∧ lazy_esm s = []).
(** [into_iter]. *)
Definition all_sources {M} (s : LoadedSources M) : list (LoadedSource M) := js s ++ esm s ++ lazy_esm s.

(** The errors of this part, of [CoreErrorKind]. *)
Inductive CoreError :=
  | Io (message : text)
  | ExtensionTranspiler (message : text)
  | ExtensionSnapshotMismatch (expected actual : text)
  | MissingFromModuleMap (specifier : text)
  | UnusedModules (names : list text)
  | NonEvaluatedModules (names : list text)
  | UrlError (e : ParseError)
  | HostError (message : text).  (** from V8 or the module map *)

Section loading.
Context (profile : profile) {M : Type}.
(** [std::fs::read_to_string] and [ExtensionTranspiler]. *)
Context (read_to_string : text → result text text).
Context (transpiler : option (text → text → result (text * option M) text)).

Definition file_load (f : ExtensionFileSource) : outcome (result text text) :=
  match file_code f with
  | LoadedFromMemoryDuringSnapshot code | IncludedInBinary code | Computed code =>
      _ ← debug_assert profile (forallb is_ascii code); Ret (Ok code)
  | LoadedFromFsDuringSnapshot path =>
      match read_to_string path with
      | Ok s => _ ← debug_assert profile (forallb is_ascii s); Ret (Ok s)
      | Err e => Ret (Err e)
      end
  end.

Definition mark_as_loaded_from_fs_during_snapshot (files_loaded : list text) (code : ExtensionFileSourceCode) : list text :=
  match code with LoadedFromFsDuringSnapshot path => files_loaded ++ [path] | _ => files_loaded end.

(** Loading keeps the list of the files that were read. *)
Abbreviation loadM := (resultM (list text) CoreError).

Definition load (f : ExtensionFileSource) : loadM (text * option M) := λ files_loaded,
  let files_loaded := mark_as_loaded_from_fs_during_snapshot files_loaded (file_code f) in
  r ← file_load f;
  match r with
  | Err e => Ret (Err (Io e), files_loaded)
  | Ok source_code =>
      match transpiler with
      | Some transpiler =>
          match transpiler (file_specifier f) source_code with
          | Ok code_and_map => Ret (Ok code_and_map, files_loaded)
          | Err e => Ret (Err (ExtensionTranspiler e), files_loaded)
          end
      | None => Ret (Ok (source_code, None), files_loaded)
      end
  end.

Fixpoint load_files (type : ExtensionSourceType) (files : list ExtensionFileSource) (loaded : list (LoadedSource M)) :
    loadM (list (LoadedSource M)) :=
  match files with
  | [] => mret loaded
  | f :: files =>
      code_and_map ← load f;
      load_files type files (loaded ++ [mkLoaded type (file_specifier f) code_and_map.1 code_and_map.2])
  end.

Fixpoint into_sources (extensions : list ExtensionFiles) (extensions_in_snapshot : list text)
    (sources : LoadedSources M) : loadM (LoadedSources M) :=
  match extensions with
  | [] => mret sources
  | extension :: extensions =>
      lazies ← load_files LazyEsm (lazy_loaded_esm_files extension) (lazy_esm sources);
      let sources := mkSources (js sources) (esm sources) lazies (esm_entry_points sources) in
      match extensions_in_snapshot with
      | name :: extensions_in_snapshot =>
          if decide (ext_name extension = name) then into_sources extensions extensions_in_snapshot sources
          else λ files_loaded, Ret (Err (ExtensionSnapshotMismatch name (ext_name extension)), files_loaded)
      | [] =>
          let entry_points :=
            esm_entry_points sources ++ match esm_entry_point extension with Some e => [e] | None => [] end in
          scripts ← load_files Js (js_files extension) (js sources);
          modules ← load_files Esm (esm_files extension) (esm sources);
          into_sources extensions [] (mkSources scripts modules lazies entry_points)
      end
  end.

Definition into_sources_and_source_maps (extensions : list ExtensionFiles)
    (extensions_in_snapshot : option (list text)) : loadM (LoadedSources M) :=
  into_sources extensions (default [] extensions_in_snapshot) (mkSources [] [] [] []).

(** ** What is loaded *)

(** A file by itself. *)
Definition loaded (type : ExtensionSourceType) (f : ExtensionFileSource) : option (LoadedSource M) :=
  match load f [] with
  | Ret (Ok (code, map), _) => Some (mkLoaded type (file_specifier f) code map)
  | _ => None
  end.

(** The files that are read from disk. *)
Definition path_of (f : ExtensionFileSource) : list text := mark_as_loaded_from_fs_during_snapshot [] (file_code f).

Definition succeeds {A} (o : outcome (result A CoreError * list text)) : option (A * list text) :=
  match o with Ret (Ok a, files) => Some (a, files) | _ => None end.

Lemma mark_app files code :
  mark_as_loaded_from_fs_during_snapshot files code = files ++ mark_as_loaded_from_fs_during_snapshot [] code.
Proof. destruct code; simpl; by rewrite ?app_nil_r. Qed.

Lemma load_succeeds type f files :
  succeeds (load f files) =
    (λ s, (loaded_code s, maybe_source_map s, files ++ path_of f)) <$> loaded type f.
Proof.
  unfold loaded, load, path_of. rewrite (mark_app files).
  destruct (file_load f) as [[code|e]|]; [|done..]. simpl.
  destruct transpiler as [t|]; [destruct (t _ _) as [[c m]|]|]; done.
Qed.

Lemma succeeds_bind {A B} (m : loadM A) (k : A → loadM B) files :
  succeeds ((m ≫= k) files) = '(a, files) ← succeeds (m files); succeeds (k a files).
Proof. unfold mbind at 1, resultM_bind. by destruct (m files) as [[[a|e] ?]|]. Qed.

Lemma load_files_succeeds type fs : ∀ l files,
  succeeds (load_files type fs l files) =
    (λ new, (l ++ new, files ++ concat (map path_of fs))) <$> mapM (loaded type) fs.
Proof.
  induction fs as [|f fs IH]; intros l files; [simpl; by rewrite !app_nil_r|].
  cbn [load_files]. rewrite succeeds_bind, (load_succeeds type). cbn [mapM].
  destruct (loaded type f) as [s|] eqn:Hs; [|done]. simpl. rewrite IH.
  assert (mkLoaded type (file_specifier f) (loaded_code s) (maybe_source_map s) = s) as ->.
  { unfold loaded in Hs. destruct (load f []) as [[[[c m]|]?]|]; by simplify_eq/=. }
  destruct (mapM (loaded type) fs); [|done]. simpl. by rewrite <- !app_assoc.
Qed.

Lemma mapM_app_option {A B} (g : A → option B) l k :
  mapM g (l ++ k) = x ← mapM g l; y ← mapM g k; Some (x ++ y).
Proof.
  induction l as [|a l IH]; [simpl; by destruct (mapM g k)|]. simpl. rewrite IH.
  destruct (g a); [|done]. simpl. destruct (mapM g l); [|done]. simpl. by destruct (mapM g k).
Qed.

(** In what order files are read. *)
Fixpoint files_in_order (extensions : list ExtensionFiles) (n : nat) : list ExtensionFileSource :=
  match extensions, n with
  | [], _ => []
  | e :: extensions, S n => lazy_loaded_esm_files e ++ files_in_order extensions n
  | e :: extensions, O => lazy_loaded_esm_files e ++ js_files e ++ esm_files e ++ files_in_order extensions O
  end.

Definition names_agree (extensions : list ExtensionFiles) (snapshot : list text) : Prop :=
  take (length snapshot) (map ext_name extensions) = take (length extensions) snapshot.
Global Instance names_agree_dec extensions snapshot : Decision (names_agree extensions snapshot).
Proof. unfold names_agree. apply _. Defined.

Definition sources_after (s : LoadedSources M) (extensions : list ExtensionFiles) (n : nat) : option (LoadedSources M) :=
  lazies ← mapM (loaded LazyEsm) (concat (map lazy_loaded_esm_files extensions));
  scripts ← mapM (loaded Js) (concat (map js_files (drop n extensions)));
  modules ← mapM (loaded Esm) (concat (map esm_files (drop n extensions)));
  Some (mkSources (js s ++ scripts) (esm s ++ modules) (lazy_esm s ++ lazies)
          (esm_entry_points s ++ omap esm_entry_point (drop n extensions))).

Lemma into_sources_new extensions : ∀ s files,
  succeeds (into_sources extensions [] s files) =
    (λ r, (r, files ++ concat (map path_of (files_in_order extensions 0)))) <$> sources_after s extensions 0.
Proof.
  unfold sources_after. induction extensions as [|e es IH]; intros s files.
  - destruct s. simpl. by rewrite !app_nil_r.
  - cbn [into_sources]. rewrite succeeds_bind, load_files_succeeds. cbn [map concat drop].
    rewrite !mapM_app_option. destruct (mapM (loaded LazyEsm) (lazy_loaded_esm_files e)) as [lz|]; [|done].
    simpl. rewrite succeeds_bind, load_files_succeeds. simpl.
    destruct (mapM (loaded Js) (js_files e)) as [sc|]; simpl;
      [|by destruct (mapM (loaded LazyEsm) _)].
    rewrite succeeds_bind, load_files_succeeds. simpl.
    destruct (mapM (loaded Esm) (esm_files e)) as [md|]; simpl;
      [|destruct (mapM (loaded LazyEsm) _); [simpl|done]; by destruct (mapM (loaded Js) _)].
    rewrite IH. simpl. rewrite !drop_0.
    destruct (mapM (loaded LazyEsm) _) as [lzs|]; [simpl|done].
    destruct (mapM (loaded Js) _) as [scs|]; [simpl|done].
    destruct (mapM (loaded Esm) _) as [mds|]; [simpl|done].
    rewrite !map_app, !concat_app, <- !app_assoc. do 2 f_equal.
    + f_equal. by destruct (esm_entry_point e).
Qed.

Lemma into_sources_succeeds extensions : ∀ snapshot s files,
  succeeds (into_sources extensions snapshot s files) =
    if decide (names_agree extensions snapshot) then
      (λ r, (r, files ++ concat (map path_of (files_in_order extensions (length snapshot))))) <$>
        sources_after s extensions (length snapshot)
    else None.
Proof.
  unfold names_agree. induction extensions as [|e es IH]; intros [|name snapshot] s files.
  - rewrite into_sources_new. by rewrite decide_True.
  - unfold sources_after. destruct s. simpl. by rewrite !app_nil_r.
  - rewrite into_sources_new. rewrite decide_True by done. done.
  - cbn [into_sources length take map]. rewrite succeeds_bind, load_files_succeeds.
    unfold sources_after. cbn [map concat drop]. rewrite mapM_app_option.
    destruct (mapM (loaded LazyEsm) (lazy_loaded_esm_files e)) as [lz|]; simpl; [|by case_decide].
    destruct (decide (ext_name e = name)) as [<-|Hne].
    2: { rewrite decide_False; [done|]. by intros [= ? _]. }
    rewrite IH. unfold sources_after.
    destruct (decide (take (length snapshot) (map ext_name es) = take (length es) snapshot)) as [Ha|Ha].
    2: { rewrite decide_False; [done|]. by intros [= ?]. }
    rewrite decide_True by (by rewrite Ha).
    destruct (mapM (loaded LazyEsm) _) as [lzs|]; [simpl|done].
    destruct (mapM (loaded Js) _) as [scs|]; [simpl|done].
    destruct (mapM (loaded Esm) _) as [mds|]; [simpl|done].
    by rewrite map_app, concat_app, <- !app_assoc.
Qed.

(** Sources of extensions.  Reading succeeds exactly when the extensions of the snapshot
    are those given, in order, as far as both lists go, and every file that is needed loads
    and transpiles.  Then lazily loaded modules are those of all extensions; scripts, modules
    and entry points are those of the extensions that the snapshot does not hold, in order;
    the files read from disk are reported in order. *)
Lemma sources_of_extensions extensions snapshot :
  succeeds (into_sources_and_source_maps extensions snapshot []) =
    let n := length (default [] snapshot) in
    if decide (names_agree extensions (default [] snapshot)) then
      lazies ← mapM (loaded LazyEsm) (concat (map lazy_loaded_esm_files extensions));
      scripts ← mapM (loaded Js) (concat (map js_files (drop n extensions)));
      modules ← mapM (loaded Esm) (concat (map esm_files (drop n extensions)));
      Some (mkSources scripts modules lazies (omap esm_entry_point (drop n extensions)),
            concat (map path_of (files_in_order extensions n)))
    else None.
Proof.
  unfold into_sources_and_source_maps. rewrite into_sources_succeeds. cbv zeta. case_decide; [|done].
  unfold sources_after. simpl.
  repeat (match goal with |- context [mapM ?f ?l] => destruct (mapM f l); simpl; [|done] end). done.
Qed.
End loading.

(** * Loaders *)

Inductive loader_error :=
  | Resolution (e : ModuleResolutionError)
  | Generic (message : text)
  | LoadFailed (message : text).

Inductive module_code := CodeString (s : text) | CodeBytes (b : text).

(** [ModuleSource]; [Url] is the type of specifiers.  Code caches are not modelled. *)
Record module_source (Url : Type) := mkModuleSource {
  source_module_type : ModuleType;
  source_code : module_code;
  source_specifier : Url
}.
Arguments mkModuleSource {Url}.
Arguments source_module_type {Url}.
Arguments source_code {Url}.
Arguments source_specifier {Url}.

(** The trait: a response is what [Sync] holds or the future gives. *)
Record ModuleLoader (Url L : Type) := mkLoader {
  loader_resolve : text → text → result Url loader_error;
  loader_load : Url → RequestedModuleType → L → result (module_source Url) loader_error * L
}.
Arguments mkLoader {Url L}.
Arguments loader_resolve {Url L}.
Arguments loader_load {Url L}.

Definition map_err {A E F} (f : E → F) (r : result A E) : result A F :=
  match r with Ok a => Ok a | Err e => Err (f e) end.

Section loaders.
Context `{UrlCrate Url}.

Definition resolve_plain (specifier referrer : text) : result Url loader_error :=
  map_err Resolution (resolve_import specifier referrer).

Definition NoopModuleLoader {L} : ModuleLoader Url L :=
  mkLoader resolve_plain (λ _ _ l, (Err (Generic ($ "Module loading is not supported.")), l)).

(** ** Extensions *)

Definition ExtModuleLoader_new (loaded_sources : list (text * text)) : gmap text text :=
  foldl (λ sources s, <[s.1 := s.2]> sources) ∅ loaded_sources.

(** The order of the names is that of the map. *)
Definition finalize (sources : gmap text text) : result unit CoreError * gmap text text :=
  (match (map_to_list sources).*1 with [] => Ok tt | unused => Err (UnusedModules unused) end, ∅).

Definition ext_resolve (specifier referrer : text) : result Url loader_error :=
  if starts_with ($ "../") specifier || starts_with ($ "./") specifier || starts_with ($ "ext:") referrer then
    match resolve_url (replace ($ "ext:") ($ "ext:/") referrer) with
    | Err e => Err (Resolution e)
    | Ok base =>
        match url_join base specifier with
        | Err e => Err (Resolution (InvalidBaseUrl e))
        | Ok joined => map_err Resolution (resolve_url (replace ($ "ext:/") ($ "ext:") (as_str joined)))
        end
    end
  else resolve_plain specifier referrer.

(** A source is handed out once. *)
Definition take_source (message : text → text) (specifier : text) (sources : gmap text text) :
    result text text * gmap text text :=
  match sources !! specifier with
  | Some source => (Ok source, delete specifier sources)
  | None => (Err (message specifier), sources)
  end.

Definition quoted (s : text) : text := ascii_of_N 34 :: s ++ [ascii_of_N 34].
Definition not_an_extension (specifier : text) : text :=
  $ "Specifier " ++ quoted specifier ++
  $ " was not passed as an extension module and was not included in the snapshot.".
Definition not_lazy (specifier : text) : text :=
  $ "Specifier " ++ quoted specifier ++ $ " cannot be lazy-loaded as it was not included in the binary.".

Definition load_from (message : text → text) (specifier : Url) (_ : RequestedModuleType) (sources : gmap text text) :
    result (module_source Url) loader_error * gmap text text :=
  let (r, sources) := take_source message (as_str specifier) sources in
  (match r with
   | Ok source => Ok (mkModuleSource JavaScript (CodeString source) specifier)
   | Err e => Err (Generic e)
   end, sources).

Definition ExtModuleLoader : ModuleLoader Url (gmap text text) :=
  mkLoader ext_resolve (load_from not_an_extension).
Definition LazyEsmModuleLoader : ModuleLoader Url (gmap text text) :=
  mkLoader resolve_plain (load_from not_lazy).

(** ** Static modules *)

Definition StaticModuleLoader_new (from : list (Url * text)) : gmap text text :=
  foldl (λ m s, <[as_str s.1 := s.2]> m) ∅ from.
Definition StaticModuleLoader : ModuleLoader Url (gmap text text) :=
  mkLoader resolve_plain (λ specifier _ map,
    (match map !! as_str specifier with
     | Some code => Ok (mkModuleSource JavaScript (CodeString code) specifier)
     | None => Err (Generic ($ "Module not found"))
     end, map)).

(** ** The file system *)

Section fs.
(** [Url::to_file_path] of the crate and [std::fs::read]. *)
Context (to_file_path : Url → option text) (fs_read : text → result text text).

(** [Path::extension] on Unix, for a path without [.] components. *)
Definition file_name (path : text) : option text :=
  let path := match rsplit_once "/" path with Some (dir, []) => dir | _ => path end in
  let name := match rsplit_once "/" path with Some (_, name) => name | None => path end in
  if decide (name = [] ∨ name = $ "..") then None else Some name.
Definition extension (path : text) : option text :=
  name ← file_name path;
  '(stem, ext) ← rsplit_once "." name;
  if decide (stem = []) then None else Some ext.

(** [to_lowercase]: no other character has a lower case among those that are compared. *)
Definition ascii_lowercase (c : ascii) : ascii :=
  if (65 <=? code c) && (code c <=? 90) then ascii_of_N (N_of_ascii c + 32) else c.

Definition fs_module_type (path : text) (requested : RequestedModuleType) : ModuleType :=
  match extension path with
  | Some ext =>
      let ext := map ascii_lowercase ext in
      if decide (ext = $ "json") then Json
      else if decide (ext = $ "wasm") then Wasm
      else match requested with
           | ROther ty => Other ty
           | RText => Text
           | RBytes => Bytes
           | RNone | RJson => JavaScript
           end
  | None => JavaScript
  end.

Definition json_without_attribute : text :=
  $ "Attempted to load JSON module without specifying " ++ quoted ($ "type") ++ $ ": " ++ quoted ($ "json") ++
  $ " attribute in the import statement.".

Definition fs_load (module_specifier : Url) (requested : RequestedModuleType) : result (module_source Url) loader_error :=
  match to_file_path module_specifier with
  | None => Err (Generic ($ "Provided module specifier " ++ quoted (as_str module_specifier) ++ $ " is not a file URL."))
  | Some path =>
      let module_type := fs_module_type path requested in
      if decide (module_type = Json ∧ requested ≠ RJson) then Err (Generic json_without_attribute)
      else match fs_read path with
           | Err e => Err (LoadFailed e)
           | Ok code => Ok (mkModuleSource module_type (CodeBytes code) module_specifier)
           end
  end.

Definition FsModuleLoader {L} : ModuleLoader Url L :=
  mkLoader resolve_plain (λ specifier requested l, (fs_load specifier requested, l)).
End fs.
End loaders.

(** * Execution *)

(** Sources that are handed out, and a log of those that were. *)
Record store := mkStore { left : gmap text text; served : list (text * text) }.

Definition store_take (message : text → text) (specifier : text) (s : store) : result text text * store :=
  let (r, sources) := take_source message specifier (left s) in
  (r, mkStore sources (served s ++ match r with Ok source => [(specifier, source)] | Err _ => [] end)).

(** What V8 and the module map do in one call: they may ask the loader of the module map for
    sources, ask for lazily loaded ones, and panic. *)
Inductive program (A : Type) : Type :=
  | Done (a : A)
  | Crash (f : fault)
  | LoadExt (specifier : text) (k : result text text → program A)
  | LoadLazy (specifier : text) (k : result text text → program A).
Arguments Done {A}.
Arguments Crash {A}.
Arguments LoadExt {A}.
Arguments LoadLazy {A}.

Fixpoint then_ {A B} (p : program A) (f : A → program B) : program B :=
  match p with
  | Done a => f a
  | Crash f => Crash f
  | LoadExt s k => LoadExt s (λ r, then_ (k r) f)
  | LoadLazy s k => LoadLazy s (λ r, then_ (k r) f)
  end.

Fixpoint never_crashes {A} (p : program A) : Prop :=
  match p with
  | Done _ => True
  | Crash _ => False
  | LoadExt _ k | LoadLazy _ k => ∀ r, never_crashes (k r)
  end.

Inductive ModuleStatus := Uninstantiated | Instantiating | Instantiated | Evaluating | Evaluated | Errored.
Global Instance ModuleStatus_eq_dec : EqDecision ModuleStatus.
Proof. solve_decision. Defined.

(** V8 and the module map, with state [W]; errors are messages. *)
Record host (Url W : Type) := mkHost {
  load_side_es_module : Url → W → program (result unit text * W);
  execute_script : text → text → W → program (result unit text * W);
  get_id : text → W → option ModuleId;
  mod_evaluate_sync : ModuleId → W → program (result unit text * W);
  poll_progress : W → program W;
  module_statuses : W → list (text * ModuleStatus * text);  (** by handle; the message of the exception *)
  new_es_module : Url → text → W → result ModuleId text * W;
  instantiate_module : ModuleId → W → result unit text * W;
  module_status : ModuleId → W → ModuleStatus;
  module_evaluate : ModuleId → W → program (option text * W);  (** the rejection *)
  module_namespace : ModuleId → W → Z
}.
Arguments load_side_es_module {Url W}.
Arguments execute_script {Url W}.
Arguments get_id {Url W}.
Arguments mod_evaluate_sync {Url W}.
Arguments poll_progress {Url W}.
Arguments module_statuses {Url W}.
Arguments new_es_module {Url W}.
Arguments instantiate_module {Url W}.
Arguments module_status {Url W}.
Arguments module_evaluate {Url W}.
Arguments module_namespace {Url W}.

Inductive event := Side (specifier : text) | Script (specifier : text) | EntryPoint (specifier : text).

Record state (W : Type) := mkState {
  world : W;
  ext_sources : store;  (** of the [ExtModuleLoader] *)
  lazy_esm_sources : store;
  overridden : bool;  (** the module map has the loader of the extensions *)
  events : list event
}.
Arguments mkState {W}.
Arguments world {W}.
Arguments ext_sources {W}.
Arguments lazy_esm_sources {W}.
Arguments overridden {W}.
Arguments events {W}.

Section execution.
Context `{UrlCrate Url} (profile : profile) {W : Type} (V : host Url W) {M : Type}.
Abbreviation st := (state W).
Abbreviation initM := (resultM (state W) CoreError).

Fixpoint run {A} (p : program A) (s : st) : outcome (A * st) :=
  match p with
  | Done a => Ret (a, s)
  | Crash f => Panic f
  | LoadExt specifier k =>
      let (r, sources) := store_take not_an_extension specifier (ext_sources s) in
      run (k r) (mkState (world s) sources (lazy_esm_sources s) (overridden s) (events s))
  | LoadLazy specifier k =>
      let (r, sources) := store_take not_lazy specifier (lazy_esm_sources s) in
      run (k r) (mkState (world s) (ext_sources s) sources (overridden s) (events s))
  end.

Definition exec {A} (p : W → program (result A text * W)) : initM A := λ s,
  '(r, w, s) ← run (p (world s)) s;
  Ret (map_err HostError r, mkState w (ext_sources s) (lazy_esm_sources s) (overridden s) (events s)).

Definition log (e : event) : initM unit := λ s,
  Ret (Ok tt, mkState (world s) (ext_sources s) (lazy_esm_sources s) (overridden s) (events s ++ [e])).

Definition fail {A} (e : CoreError) : initM A := λ s, Ret (Err e, s).

Definition add_lazy_loaded_esm_source (specifier code : text) : initM unit := λ s,
  let '(mkStore sources served) := lazy_esm_sources s in
  _ ← assert (bool_decide (sources !! specifier = None));
  Ret (Ok tt, mkState (world s) (ext_sources s) (mkStore (<[specifier := code]> sources) served) (overridden s) (events s)).

Fixpoint each {A} (f : A → initM unit) (l : list A) : initM unit :=
  match l with [] => mret tt | a :: l => _ ← f a; each f l end.

(** [ModuleSpecifier::parse(..).unwrap()]. *)
Fixpoint parse_all (specifiers : list text) : outcome (list Url) :=
  match specifiers with
  | [] => Ret []
  | specifier :: specifiers =>
      match url_parse specifier with
      | Ok u => us ← parse_all specifiers; Ret (u :: us)
      | Err _ => Panic Unwrap
      end
  end.

Definition override_loader (sources : list (text * text)) : initM unit := λ s,
  Ret (Ok tt, mkState (world s) (mkStore (ExtModuleLoader_new sources) []) (lazy_esm_sources s) true (events s)).
Definition restore_loader : initM unit := λ s,
  Ret (Ok tt, mkState (world s) (ext_sources s) (lazy_esm_sources s) false (events s)).
Definition finalize_loader : initM unit := λ s,
  let (r, sources) := finalize (left (ext_sources s)) in
  Ret (r, mkState (world s) (mkStore sources (served (ext_sources s))) (lazy_esm_sources s) (overridden s) (events s)).

Definition load_module (module : Url) : initM unit :=
  _ ← log (Side (as_str module)); exec (load_side_es_module V module).

Definition run_script (has_cache : bool) (source : LoadedSource M) : initM unit :=
  specifier ←
    (if has_cache then
       match url_parse (loaded_specifier source) with
       | Ok specifier => mret (as_str specifier)
       | Err e => fail (UrlError e)
       end
     else mret (loaded_specifier source)) : initM text;
  _ ← log (Script (loaded_specifier source));
  exec (execute_script V specifier (loaded_code source)).

Definition run_entry_point (specifier : text) : initM unit := λ s,
  match get_id V specifier (world s) with
  | None => Ret (Err (MissingFromModuleMap specifier), s)
  | Some mod_id =>
      (_ ← log (EntryPoint specifier);
       _ ← exec (mod_evaluate_sync V mod_id);
       exec (λ w, then_ (poll_progress V w) (λ w, Done (Ok tt, w)))) s
  end.

(** The first exception, or the names of the modules that are not evaluated. *)
Fixpoint check_modules (modules : list (text * ModuleStatus * text)) (not_evaluated : list text) : result unit CoreError :=
  match modules with
  | [] => match not_evaluated with [] => Ok tt | _ => Err (NonEvaluatedModules not_evaluated) end
  | (name, status, message) :: modules =>
      match status with
      | Errored => Err (HostError message)
      | Evaluated => check_modules modules not_evaluated
      | _ => check_modules modules (not_evaluated ++ [name])
      end
  end.
Definition check_all_modules_evaluated : initM unit := λ s, Ret (check_modules (module_statuses V (world s)) [], s).

Definition init_extension_js_inner (loaded_sources : LoadedSources M) (has_cache : bool) : initM unit :=
  _ ← each (λ source, add_lazy_loaded_esm_source (loaded_specifier source) (loaded_code source)) (lazy_esm loaded_sources);
  modules ← (λ s, us ← parse_all (map loaded_specifier (esm loaded_sources)); Ret (Ok us, s)) : initM (list Url);
  _ ← override_loader (map (λ source, (loaded_specifier source, loaded_code source)) (esm loaded_sources));
  _ ← each load_module modules;
  _ ← each (run_script has_cache) (js loaded_sources);
  _ ← each run_entry_point (esm_entry_points loaded_sources);
  _ ← (match profile with Debug => check_all_modules_evaluated | Release => mret tt end);
  _ ← restore_loader;
  finalize_loader.

(** ** Lazily loaded modules *)

Definition lazy_load_es_module_with_code (module_specifier code : text) (w : W) : program (result Z CoreError * W) :=
  match url_parse module_specifier with
  | Err e => Done (Err (UrlError e), w)
  | Ok specifier =>
      match new_es_module V specifier code w with
      | (Err e, w) => Done (Err (HostError e), w)
      | (Ok mod_id, w) =>
          match instantiate_module V mod_id w with
          | (Err e, w) => Done (Err (HostError e), w)
          | (Ok _, w) =>
              if decide (module_status V mod_id w = Instantiated) then
                then_ (module_evaluate V mod_id w) (λ '(rejection, w),
                  match rejection with
                  | Some e => Done (Err (HostError e), w)
                  | None => if decide (module_status V mod_id w = Evaluated) then Done (Ok (module_namespace V mod_id w), w)
                            else Crash Assert
                  end)
              else Crash Assert
          end
      end
  end.

Definition lazy_load_esm_module (module_specifier : text) (w : W) : program (result Z CoreError * W) :=
  match get_id V module_specifier w with
  | Some id => Done (Ok (module_namespace V id w), w)
  | None =>
      match url_parse module_specifier with
      | Err e => Done (Err (UrlError e), w)
      | Ok specifier =>
          LoadLazy (as_str specifier) (λ r,
            match r with
            | Err e => Done (Err (HostError e), w)
            | Ok code => lazy_load_es_module_with_code module_specifier code w
            end)
      end
  end.
End execution.

(** * Sources are served once *)

(** What a store has handed out, of the sources that it had. *)
Record serves (sources : gmap text text) (s : store) : Prop := {
  served_once : NoDup (served s).*1;
  served_from : ∀ n c, (n, c) ∈ served s → sources !! n = Some c;
  served_left : ∀ n, left s !! n = if decide (n ∈ (served s).*1) then None else sources !! n
}.

Lemma serves_new sources : serves sources (mkStore sources []).
Proof. split; [constructor|by intros ? ? ?%elem_of_nil|]. done. Qed.

Lemma serves_take sources message n s :
  serves sources s → serves sources (store_take message n s).2.
Proof.
  intros [Ho Hf Hl]. unfold store_take, take_source. destruct (left s !! n) as [c|] eqn:Hn; simpl.
  - rewrite Hl in Hn. destruct (decide (n ∈ (served s).*1)) as [|Hni]; [done|]. split; simpl.
    + rewrite fmap_app. apply NoDup_app. split_and!; [done| |apply NoDup_singleton].
      intros x Hx Hxn%list_elem_of_singleton. by subst x.
    + intros m d [Hm|Hm]%elem_of_app; [by apply Hf|]. apply list_elem_of_singleton in Hm as [= -> ->]. done.
    + intros m. rewrite fmap_app. destruct (decide (m = n)) as [->|Hne].
      * rewrite lookup_delete_eq, decide_True; [done|]. apply elem_of_app. right. by apply list_elem_of_singleton.
      * rewrite lookup_delete_ne, Hl by done. apply decide_ext. rewrite elem_of_app.
        assert (m ∉ [n]) by (by intros ?%list_elem_of_singleton). tauto.
  - rewrite app_nil_r. by split.
Qed.

Section serving.
Context `{UrlCrate Url} (profile : profile) {W : Type} (V : host Url W) {M : Type}.
Context (ext lazies : gmap text text).
Implicit Types (s : state W) (done : list event).

(** During the initialisation, after some events. *)
Definition serving done s : Prop :=
  serves ext (ext_sources s) ∧ serves lazies (lazy_esm_sources s) ∧ overridden s = true ∧ events s = done.

Lemma run_serving {A} (p : program A) done : ∀ s,
  never_crashes p → serving done s → ∃ a s', run p s = Ret (a, s') ∧ serving done s'.
Proof.
  induction p as [a|f|n k IH|n k IH]; intros s Hp Hs; simpl in *.
  - by exists a, s.
  - done.
  - destruct Hs as (He & Hl & Ho & Hd). pose proof (serves_take ext not_an_extension n _ He) as Ht.
    destruct (store_take not_an_extension n (ext_sources s)) as [r st]. by apply IH.
  - destruct Hs as (He & Hl & Ho & Hd). pose proof (serves_take lazies not_lazy n _ Hl) as Ht.
    destruct (store_take not_lazy n (lazy_esm_sources s)) as [r st]. by apply IH.
Qed.

(** An error of a part, within the events that were planned. *)
Definition failed (plan : list event) (e : CoreError) s : Prop :=
  (∀ names, e ≠ UnusedModules names) ∧ ∃ done, done `prefix_of` plan ∧ serving done s.
Definition either {A} (done plan : list event) (r : result A CoreError) s : Prop :=
  match r with Ok _ => serving done s | Err e => failed plan e s end.

Lemma failed_longer plan plan' e s : plan `prefix_of` plan' → failed plan e s → failed plan' e s.
Proof. intros Hp (He & done & Hd & Hs). split; [done|]. exists done. split; [by etrans|done]. Qed.

Lemma exec_serving {A} (p : W → program (result A text * W)) done s :
  (∀ w, never_crashes (p w)) → serving done s → terminates (exec p) s (either done done).
Proof.
  intros Hp Hs. unfold terminates, exec. destruct (run_serving (p (world s)) done s (Hp _) Hs) as ([r w] & s' & -> & Hs').
  rewrite bind_Ret. eexists _, _. split; [done|]. destruct r; simpl; [done|]. split; [done|]. by exists done.
Qed.

Lemma log_serving e done s : serving done s → terminates (log e) s (λ r s', r = Ok tt ∧ serving (done ++ [e]) s').
Proof. intros (He & Hl & Ho & <-). eexists _, _. split; [done|]. split; [done|]. by split_and!. Qed.

Lemma each_serving {A} (f : A → resultM (state W) CoreError unit) (ev : A → event) l : ∀ done s,
  (∀ a done s, a ∈ l → serving done s → terminates (f a) s (either (done ++ [ev a]) (done ++ [ev a]))) →
  serving done s → terminates (each f l) s (either (done ++ map ev l) (done ++ map ev l)).
Proof.
  induction l as [|a l IH]; intros done s Hf Hs; [apply terminates_ret; simpl; by rewrite app_nil_r|].
  cbn [each map]. apply terminates_bind. eapply terminates_mono; [apply Hf; [left|done]|].
  replace (done ++ ev a :: map ev l) with ((done ++ [ev a]) ++ map ev l) by (by rewrite <- app_assoc).
  intros [u|e] s' Hs'; simpl in Hs' |- *.
  - apply IH; [|done]. intros b d s1 Hb. apply Hf. by right.
  - eapply failed_longer; [|done]. by apply prefix_app_r.
Qed.

(** V8 and the module map do not panic. *)
Record crash_free : Prop := {
  side_safe u w : never_crashes (load_side_es_module V u w);
  script_safe n c w : never_crashes (execute_script V n c w);
  evaluate_safe i w : never_crashes (mod_evaluate_sync V i w);
  progress_safe w : never_crashes (poll_progress V w)
}.

Lemma then_never_crashes {A B} (p : program A) (f : A → program B) :
  never_crashes p → (∀ a, never_crashes (f a)) → never_crashes (then_ p f).
Proof. intros Hp Hf. induction p; simpl in *; auto. Qed.

(** Logging and then running a program. *)
Lemma log_exec_serving {A} e (p : W → program (result A text * W)) done s :
  (∀ w, never_crashes (p w)) → serving done s →
  terminates (_ ← log e; exec p) s (either (done ++ [e]) (done ++ [e])).
Proof.
  intros Hp Hs. apply terminates_bind. eapply terminates_mono; [by apply log_serving|].
  intros r s1 (-> & Hs1). by apply exec_serving.
Qed.

Lemma load_module_serving done s u :
  crash_free → serving done s →
  terminates (load_module V u) s (either (done ++ [Side (as_str u)]) (done ++ [Side (as_str u)])).
Proof. intros HV Hs. apply log_exec_serving; [|done]. intros w. apply (side_safe HV). Qed.

Lemma run_script_serving has_cache done s (source : LoadedSource M) :
  crash_free → serving done s →
  terminates (run_script V has_cache source) s
    (either (done ++ [Script (loaded_specifier source)]) (done ++ [Script (loaded_specifier source)])).
Proof.
  intros HV Hs. apply terminates_bind.
  assert (∀ n, terminates (_ ← log (Script (loaded_specifier source)); exec (execute_script V n (loaded_code source))) s
    (either (done ++ [Script (loaded_specifier source)]) (done ++ [Script (loaded_specifier source)]))) as Hrun.
  { intros n. apply log_exec_serving; [|done]. intros w. apply (script_safe HV). }
  destruct has_cache; [|by apply terminates_ret].
  destruct (url_parse (loaded_specifier source)) as [u|e]; [by apply terminates_ret|].
  eexists _, _. split; [done|]. split; [done|]. exists done. split; [by apply prefix_app_r|done].
Qed.

Lemma run_entry_point_serving done s n :
  crash_free → serving done s →
  terminates (run_entry_point V n) s (either (done ++ [EntryPoint n]) (done ++ [EntryPoint n])).
Proof.
  intros HV Hs. unfold terminates, run_entry_point. destruct (get_id V n (world s)) as [id|].
  - apply terminates_bind. eapply terminates_mono; [by apply log_serving|]. intros r s1 (-> & Hs1).
    apply terminates_bind. eapply terminates_mono; [apply exec_serving; [intros w; apply (evaluate_safe HV)|done]|].
    intros [u|e] s2 Hs2; [|done]. apply exec_serving; [|done]. intros w. apply then_never_crashes; [apply (progress_safe HV)|done].
  - eexists _, _. split; [done|]. split; [done|]. exists done. split; [by apply prefix_app_r|done].
Qed.

Lemma check_modules_error modules : ∀ l names, check_modules modules l ≠ Err (UnusedModules names).
Proof.
  induction modules as [|[[n t] m] modules IH]; intros l names; simpl; [by destruct l|]. by destruct t.
Qed.
End serving.

Section initialization.
Context `{UrlCrate Url} (profile : profile) {W : Type} (V : host Url W) {M : Type}.
Implicit Types (s : state W) (sources : LoadedSources M).

Definition ext_map sources : gmap text text :=
  ExtModuleLoader_new (map (λ source, (loaded_specifier source, loaded_code source)) (esm sources)).

(** Modules, scripts and entry points, in this order. *)
Definition plan sources : list event :=
  map Side (omap (λ source, as_str <$> ok (url_parse (loaded_specifier source))) (esm sources)) ++
  map (Script ∘ loaded_specifier) (js sources) ++ map EntryPoint (esm_entry_points sources).

(** The code of a specifier: that of the last module with it. *)
Definition code_of sources (n : text) : option text :=
  loaded_code <$> List.find (λ source, bool_decide (loaded_specifier source = n)) (reverse (esm sources)).

Lemma ext_map_code sources n : ext_map sources !! n = code_of sources n.
Proof.
  unfold ext_map, code_of, ExtModuleLoader_new. rewrite <- (reverse_involutive (esm sources)) at 1.
  induction (reverse (esm sources)) as [|source l IH]; [done|].
  rewrite reverse_cons, map_app, foldl_app. simpl. case_bool_decide as Hn.
  - by rewrite Hn, lookup_insert_eq.
  - by rewrite lookup_insert_ne.
Qed.

(** A module whose specifier no other has. *)
Lemma code_of_distinct sources source :
  NoDup (map loaded_specifier (esm sources)) → source ∈ esm sources →
  code_of sources (loaded_specifier source) = Some (loaded_code source).
Proof.
  unfold code_of. intros Hnd Hin. apply elem_of_reverse in Hin.
  assert (NoDup (map loaded_specifier (reverse (esm sources)))) as Hnd'
    by (change (map ?f ?l) with (f <$> l) in *; rewrite fmap_reverse; by rewrite reverse_Permutation).
  clear Hnd. induction (reverse (esm sources)) as [|m l IH]; [by apply elem_of_nil in Hin|].
  cbn [map] in Hnd'. apply NoDup_cons in Hnd' as [Hni Hnd']. simpl.
  apply elem_of_cons in Hin as [<-|Hin]; [by rewrite bool_decide_true|].
  rewrite bool_decide_false; [auto|]. intros Heq. apply Hni. rewrite Heq. by apply (list_elem_of_fmap_2 loaded_specifier).
Qed.

(** What the initialisation returns and leaves. *)
Definition initialized sources (r : result unit CoreError) s : Prop :=
  NoDup (served (ext_sources s)).*1 ∧
  (∀ n c, (n, c) ∈ served (ext_sources s) → code_of sources n = Some c) ∧
  NoDup (served (lazy_esm_sources s)).*1 ∧
  match r with
  | Ok _ => events s = plan sources ∧ overridden s = false ∧
            (∀ source, source ∈ esm sources → loaded_specifier source ∈ (served (ext_sources s)).*1) ∧
            (NoDup (map loaded_specifier (esm sources)) → ∀ source, source ∈ esm sources →
               (loaded_specifier source, loaded_code source) ∈ served (ext_sources s))
  | Err (UnusedModules names) =>
      events s = plan sources ∧ overridden s = false ∧ names ≠ [] ∧
      ∀ n, n ∈ names ↔ n ∈ map loaded_specifier (esm sources) ∧ n ∉ (served (ext_sources s)).*1
  | Err _ => events s `prefix_of` plan sources
  end.

Lemma add_lazies_serve (l : list (LoadedSource M)) : ∀ lazies s,
  NoDup (map loaded_specifier l) → (∀ n, n ∈ map loaded_specifier l → lazies !! n = None) →
  lazy_esm_sources s = mkStore lazies [] →
  terminates (each (λ source, add_lazy_loaded_esm_source (loaded_specifier source) (loaded_code source)) l) s
    (λ r s', r = Ok tt ∧ events s' = events s ∧ ∃ lazies', lazy_esm_sources s' = mkStore lazies' []).
Proof.
  induction l as [|source l IH]; intros lazies s Hnd Hfresh Hs; [apply terminates_ret; eauto|].
  cbn [map] in Hnd, Hfresh. apply NoDup_cons in Hnd as [Hni Hnd]. cbn [each].
  apply terminates_bind. unfold terminates at 1, add_lazy_loaded_esm_source. rewrite Hs.
  rewrite bool_decide_true by (apply Hfresh; left). cbn [assert]. rewrite bind_Ret.
  eexists _, _. split; [done|]. eapply terminates_mono; [eapply IH; [done| |done]|by intros ? ? (-> & -> & ?)].
  intros n Hn. rewrite lookup_insert_ne by (by intros <-). apply Hfresh. by right.
Qed.

Lemma parse_all_spec (l : list (LoadedSource M)) :
  Forall (λ source, is_Some (ok (url_parse (loaded_specifier source)))) l →
  ∃ us, parse_all (map loaded_specifier l) = Ret us ∧
    map as_str us = omap (λ source, as_str <$> ok (url_parse (loaded_specifier source))) l.
Proof.
  induction 1 as [|source l [u Hu] _ (us & IH & E)]; [by exists []|]. cbn [map parse_all].
  destruct (url_parse (loaded_specifier source)) as [u'|] eqn:Hp; [|done]. rewrite IH, bind_Ret.
  eexists. split; [done|]. simpl. rewrite Hp. simpl. by rewrite E.
Qed.

Lemma finalize_spec ext s :
  serves ext (ext_sources s) →
  match (finalize (left (ext_sources s))).1 with
  | Ok _ => ∀ n, is_Some (ext !! n) → n ∈ (served (ext_sources s)).*1
  | Err (UnusedModules names) =>
      names ≠ [] ∧ ∀ n, n ∈ names ↔ is_Some (ext !! n) ∧ n ∉ (served (ext_sources s)).*1
  | Err _ => False
  end.
Proof.
  intros [_ _ Hl].
  assert (∀ n, n ∈ (map_to_list (left (ext_sources s))).*1 ↔ is_Some (ext !! n) ∧ n ∉ (served (ext_sources s)).*1) as Hin.
  { intros n. rewrite list_elem_of_fmap. split.
    - intros ([n' c] & -> & Hc%elem_of_map_to_list). simpl. rewrite Hl in Hc. case_decide; [done|]. eauto.
    - intros [[c Hc] Hni]. exists (n, c). split; [done|]. apply elem_of_map_to_list. by rewrite Hl, decide_False. }
  unfold finalize. simpl. destruct ((map_to_list (left (ext_sources s))).*1) as [|name names].
  - intros n Hn. destruct (decide (n ∈ (served (ext_sources s)).*1)) as [|Hni]; [done|].
    by destruct (not_elem_of_nil n); apply Hin.
  - split; [done|]. done.
Qed.

Lemma ext_map_specifiers sources n :
  is_Some (ext_map sources !! n) ↔ n ∈ map loaded_specifier (esm sources).
Proof.
  rewrite ext_map_code. unfold code_of. rewrite fmap_is_Some. change (map ?f ?l) with (f <$> l). rewrite list_elem_of_fmap.
  split.
  - intros [m Hm]. apply List.find_some in Hm as [Hm Hn%bool_decide_eq_true]. exists m. split; [done|].
    by apply elem_of_reverse, list_elem_of_In.
  - intros (m & -> & Hm). destruct (List.find _ _) eqn:Hf; [by eexists|].
    eapply List.find_none in Hf; [|by apply list_elem_of_In, elem_of_reverse]. by apply bool_decide_eq_false in Hf.
Qed.

(** A store that serves the modules meets the description. *)
Lemma initialized_spec sources r s s' :
  serves (ext_map sources) (ext_sources s) →
  NoDup (served (lazy_esm_sources s')).*1 → served (ext_sources s') = served (ext_sources s) →
  match r with
  | Ok _ => events s' = plan sources ∧ overridden s' = false ∧
            ∀ n, is_Some (ext_map sources !! n) → n ∈ (served (ext_sources s)).*1
  | Err (UnusedModules names) =>
      events s' = plan sources ∧ overridden s' = false ∧ names ≠ [] ∧
      ∀ n, n ∈ names ↔ is_Some (ext_map sources !! n) ∧ n ∉ (served (ext_sources s)).*1
  | Err _ => events s' `prefix_of` plan sources
  end → initialized sources r s'.
Proof.
  intros Hx Hz Hserved Hr. unfold initialized. rewrite Hserved. split_and!; [apply Hx| |done|].
  { intros n c Hn. rewrite <- ext_map_code. by apply Hx. }
  destruct r as [u|[]]; try done.
  - destruct Hr as (? & ? & Hall). split_and!; [done..| |].
    + intros m Hm. apply Hall, ext_map_specifiers. by apply (list_elem_of_fmap_2 loaded_specifier).
    + intros Hnd m Hm. assert (loaded_specifier m ∈ (served (ext_sources s)).*1) as Hin
        by (apply Hall, ext_map_specifiers; by apply (list_elem_of_fmap_2 loaded_specifier)).
      apply list_elem_of_fmap in Hin as ([n c] & Hn & Hin). simpl in Hn. subst n.
      pose proof (served_from _ _ Hx _ _ Hin) as Hc. rewrite ext_map_code, code_of_distinct in Hc by done. by simplify_eq.
  - destruct Hr as (? & ? & ? & Hall). split_and!; [done..|]. intros n. by rewrite Hall, ext_map_specifiers.
Qed.

(** C31. Initialisation from extension code.  Assume that V8, the scripts and the modules do
    not panic, that the lazily loaded modules have new and different names (the loader
    asserts it) and that the specifiers of modules parse (or the code unwraps an error).
    Then initialisation returns; modules are loaded first, then scripts run, then entry
    points, in order, up to the first error.  No source is handed out twice, and for a
    specifier it is the code of the last module with it: of two modules with the same
    specifier the first is dropped without an error.  If initialisation succeeds then every
    specifier of a module was asked for, so if they are different every module was handed
    out, and the loader is given back; if it fails with [UnusedModules] then everything ran,
    and the names are exactly those that were not asked for.  Other errors name no modules. *)
Theorem extension_sources_served_once sources has_cache lazies s :
  crash_free V →
  NoDup (map loaded_specifier (lazy_esm sources)) →
  (∀ n, n ∈ map loaded_specifier (lazy_esm sources) → lazies !! n = None) →
  Forall (λ source, is_Some (ok (url_parse (loaded_specifier source)))) (esm sources) →
  lazy_esm_sources s = mkStore lazies [] → events s = [] →
  terminates (init_extension_js_inner profile V sources has_cache) s (initialized sources).
Proof.
  intros HV Hnd Hfresh Hparse Hl Hev. unfold init_extension_js_inner.
  apply terminates_bind. eapply terminates_mono; [by eapply add_lazies_serve|].
  intros ? s1 (-> & Hev1 & lazies' & Hl1).
  apply terminates_bind. destruct (parse_all_spec _ Hparse) as (us & Hus & Hplan).
  eexists _, _. rewrite Hus, bind_Ret. split; [done|].
  apply terminates_bind. eexists _, _. split; [done|]. cbv beta iota.
  match goal with |- terminates _ ?x _ => set (s2 := x) end.
  assert (serving (ext_map sources) lazies' [] s2) as Hs2.
  { split_and!; [apply serves_new|simpl; rewrite Hl1; apply serves_new|done|simpl; congruence]. }
  assert (∀ done, done `prefix_of` plan sources → ∀ e s', failed (ext_map sources) lazies' done e s' →
    initialized sources (Err e) s') as Hfail.
  { intros done Hd e s' (He & done' & Hd' & (Hx & Hz & _ & Hev')). apply (initialized_spec _ _ s'); [done|apply Hz|done|].
    destruct e; try (rewrite Hev'; by etrans). by destruct (He names). }
  unfold plan in Hfail. rewrite <- Hplan, map_map in Hfail.
  apply terminates_bind. eapply terminates_mono.
  { eapply (each_serving _ _ _ (Side ∘ as_str)); [|exact Hs2]. intros. by apply load_module_serving. }
  intros [u|e] s3 Hs3; simpl in Hs3; [|eapply Hfail; [|exact Hs3]; by apply prefix_app_r].
  apply terminates_bind. eapply terminates_mono.
  { eapply (each_serving _ _ _ (Script ∘ loaded_specifier)); [|exact Hs3]. intros. by apply run_script_serving. }
  intros [u'|e] s4 Hs4; simpl in Hs4; [|eapply Hfail; [|exact Hs4]; rewrite app_assoc; by apply prefix_app_r].
  apply terminates_bind. eapply terminates_mono.
  { eapply (each_serving _ _ _ EntryPoint); [|exact Hs4]. intros. by apply run_entry_point_serving. }
  rewrite <- app_assoc. intros [u2|e] s5 Hs5; simpl in Hs5; [|by eapply Hfail; [|exact Hs5]].
  apply terminates_bind.
  assert (terminates (match profile with Debug => check_all_modules_evaluated V | Release => mret tt end) s5
    (either (ext_map sources) lazies' (events s5) (events s5))) as Hcheck.
  { destruct Hs5 as (Hx & Hz & Ho & _). destruct profile; [|by apply terminates_ret].
    eexists _, _. split; [done|]. destruct (check_modules _ []) eqn:Hc; [done|].
    split; [intros names ->; by apply check_modules_error in Hc|]. by exists (events s5). }
  eapply terminates_mono; [exact Hcheck|]. destruct Hs5 as (_ & _ & _ & Hev5). rewrite Hev5.
  intros [u3|e] s6 Hs6; simpl in Hs6; [|by eapply Hfail; [|exact Hs6]].
  destruct Hs6 as (Hx & Hz & _ & Hev6).
  apply terminates_bind. eexists _, _. split; [done|]. unfold terminates, finalize_loader. simpl.
  pose proof (finalize_spec _ s6 Hx) as Hfin. unfold finalize in *. simpl in Hfin |- *.
  eexists _, _. split; [done|]. apply (initialized_spec _ _ s6); [done|apply Hz|done|]. simpl.
  unfold plan. rewrite <- Hplan, map_map.
  destruct ((map_to_list (left (ext_sources s6))).*1); [done|]. done.
Qed.
End initialization.

(** * Examples *)

(** The world is the list of loaded modules.  The main module imports another one; the
    script loads a lazy module. *)
Definition demo_load (specifier : text) (w : list text) : program (result unit text * list text) :=
  if decide (specifier ∈ w) then Done (Ok tt, w)
  else LoadExt specifier (λ r, match r with
                               | Ok _ => Done (Ok tt, w ++ [specifier])
                               | Err e => Done (Err e, w)
                               end).
Definition demo_host : host text (list text) := {|
  load_side_es_module u w :=
    if decide (u = $ "ext:demo/main.js") then
      then_ (demo_load u w) (λ '(r, w), match r with
                                        | Ok _ => demo_load ($ "ext:demo/util.js") w
                                        | Err e => Done (Err e, w)
                                        end)
    else demo_load u w;
  execute_script _ _ w := LoadLazy ($ "ext:demo/lazy.js") (λ _, Done (Ok tt, w));
  get_id n w := if decide (n ∈ w) then Some 0%nat else None;
  mod_evaluate_sync _ w := Done (Ok tt, w);
  poll_progress w := Done w;
  module_statuses w := map (λ n, (n, Evaluated, [])) w;
  new_es_module u _ w := (Ok 0%nat, w ++ [u]);
  instantiate_module _ w := (Ok tt, w);
  module_status _ _ := Evaluated;
  module_evaluate _ w := Done (None, w);
  module_namespace _ _ := 0
|}.

Definition source (type : ExtensionSourceType) (specifier : text) : LoadedSource unit :=
  mkLoaded type specifier ($ "code of " ++ specifier) None.
Definition demo_sources : LoadedSources unit :=
  mkSources [source Js ($ "ext:demo/script.js")]
    [source Esm ($ "ext:demo/main.js"); source Esm ($ "ext:demo/util.js")]
    [source LazyEsm ($ "ext:demo/lazy.js")] [$ "ext:demo/main.js"].
Definition demo_state : state (list text) := mkState [] (mkStore ∅ []) (mkStore ∅ []) false [].

Lemma extension_sources_served_once_witness :
  terminates (init_extension_js_inner (H := demo_url) Debug demo_host demo_sources true) demo_state
    (initialized (H := demo_url) demo_sources).
Proof.
  refine (extension_sources_served_once (H := demo_url) Debug demo_host demo_sources true ∅ demo_state _ _ _ _ _ _).
  - split; simpl; intros; [|exact I..].
    assert (∀ n w, never_crashes (demo_load n w)) as Hload.
    { intros n w'. unfold demo_load. case_decide; [exact I|]. intros [c|e]; exact I. }
    case_decide; [|apply Hload]. apply then_never_crashes; [apply Hload|]. intros [[c|e] w']; [apply Hload|exact I].
  - apply NoDup_singleton.
  - intros n _. apply lookup_empty.
  - repeat constructor; eexists; reflexivity.
  - reflexivity.
  - reflexivity.
Defined.

(** It succeeds, with every source used. *)
Example init_extension_js_example :
  match init_extension_js_inner (H := demo_url) Debug demo_host demo_sources true demo_state with
  | Ret (r, s) =>
      r = Ok tt ∧ (served (ext_sources s)).*1 = [$ "ext:demo/main.js"; $ "ext:demo/util.js"] ∧
      (served (lazy_esm_sources s)).*1 = [$ "ext:demo/lazy.js"]
  | Panic _ => False
  end.
Proof. vm_compute. split_and!; reflexivity. Qed.

Definition demo_extension (name : text) : ExtensionFiles :=
  mkFiles name [] [mkFile ($ "ext:" ++ name ++ $ "/main.js") (Computed ($ "export {}"))] [] None.
Definition no_fs (path : text) : result text text := Err ($ "not found").

(** A snapshot of more extensions than there are is accepted.  Of two modules with the same
    specifier, the first is dropped silently.  A bare specifier in an extension is taken as
    relative, and an absolute URL loses a slash after [ext:].  The loader for the file
    system ignores the requested type of a file without an extension. *)
Lemma extension_source_gaps :
  (∃ s, into_sources_and_source_maps (M := unit) Debug no_fs None [demo_extension ($ "a")]
    (Some [$ "a"; $ "b"; $ "c"]) [] = Ret (Ok s, [])) ∧
  ExtModuleLoader_new [($ "ext:a", $ "first"); ($ "ext:a", $ "second")] = {[ $ "ext:a" := $ "second" ]} ∧
  loader_resolve (ExtModuleLoader (H := demo_url)) ($ "bare") ($ "ext:demo/main.js") = Ok ($ "ext:demo/bare") ∧
  loader_resolve (ExtModuleLoader (H := demo_url)) ($ "https://host/ext:/x") ($ "ext:demo/main.js") =
    Ok ($ "https://host/ext:x") ∧
  fs_module_type ($ "/dir/LICENSE") RText = JavaScript ∧ fs_module_type ($ "/dir/LICENSE.md") RText = Text.
Proof.
  split_and!; [eexists; vm_compute; reflexivity| |vm_compute; reflexivity..].
  apply map_eq. intros n. unfold ExtModuleLoader_new. simpl. by rewrite insert_insert_eq.
Qed.
