(* ===== verification/SerdeV8.v ===== *)
(** [src/serde_v8]: Rust values to JavaScript values and back.

    A Rust value is known by the calls that its [Serialize] makes, a type by the calls that
    its [Deserialize] makes; the visitors are those of serde's implementations for standard
    types and of its derive macros.  JavaScript values are trees; objects may be proxies and
    have getters, whose reads give a value or throw, and give the same whenever they are
    done.  Strings of V8 are a parameter ([V8Strings]). *)

From S2P Require Import Prelude RustStr Numbers.

Local Open Scope Z_scope.

(** * Errors *)

Inductive serde_error := InvalidType | InvalidLength | UnknownVariant | MissingField (field : text).

(** What was got instead is left out of the messages. *)
Inductive Error :=
  | Message (m : text)
  | ExpectedBoolean | ExpectedInteger | ExpectedNumber | ExpectedString | ExpectedArray
  | ExpectedMap | ExpectedEnum | ExpectedObject | ExpectedBuffer | ExpectedDetachable
  | ExpectedExternal | ExpectedBigInt | ExpectedUtf8 | ExpectedLatin1 | UnsupportedType
  | LengthMismatch (got expected : nat)
  | ResizableBackingStoreNotSupported
  | Serde (e : serde_error).  (** a [Message] that serde makes *)

(** A result, or a panic. *)
Definition res (A : Type) : Type := outcome (result A Error).
Global Instance res_ret : MRet res := λ A a, Ret (Ok a).
Global Instance res_bind : MBind res := λ A B k m,
  match m with
  | Ret (Ok a) => k a
  | Ret (Err e) => Ret (Err e)
  | Panic f => Panic f
  end.
Definition err {A} (e : Error) : res A := Ret (Err e).
Definition crash {A} (f : fault) : res A := Panic f.

(** [f] on every element, in order, up to the first error. *)
Definition traverse {A B} (f : A → res B) : list A → res (list B) :=
  fix go l := match l with
              | [] => mret []
              | a :: l => b ← f a; bs ← go l; mret (b :: bs)
              end.

(** * JavaScript values *)

(** Strings of V8. *)
Class V8Strings (J : Type) := {
  js_string_eq :: EqDecision J;
  of_utf8 : text → option J;  (** [None] if it is too long *)
  characters : J → list (nat * text);  (** each with its code units and its UTF-8, with replacement *)
  of_one_byte : text → option J;
  one_byte : J → option text;  (** [contains_only_onebyte], [write_one_byte_v2] *)
  of_two_byte : list Z → option J;
  two_byte : J → list Z;
  own_order {A} : list (J * A) → list (J * A);  (** array indices come first *)
  is_index : J → bool;
  bigint_fits : Z → bool;
  index_key : nat → J
}.

(** What V8 documents. *)
Class V8StringLaws (J : Type) `{V8Strings J} := {
  of_utf8_characters s j : valid_utf8 s = true → of_utf8 s = Some j → concat (characters j).*2 = s;
  of_one_byte_read s j : of_one_byte s = Some j → one_byte j = Some s;
  characters_units j : Forall (λ c, (0 < c.1)%nat) (characters j);
  of_two_byte_read l j : of_two_byte l = Some j → two_byte j = l;
  own_order_permutes {A} (l : list (J * A)) : own_order l ≡ₚ l
}.

(** Objects have own enumerable properties, in order, and others that a read also finds.
    What is read by running JavaScript is an [option], [None] if that throws: the text of a
    [String] object, and all that is read from an exotic object: a proxy, or an object or an
    array with getters.  It has elements if it is an array, names unless asking for them
    throws, other properties, and something that every other read gives. *)
#[local] Unset Elimination Schemes.
Inductive js (J : Type) :=
  | JUndefined
  | JNull
  | JBool (b : bool)
  | JNumber (n : number)
  | JBigInt (z : Z)
  | JString (s : J)
  | JSymbol
  | JExternal (pointer : Z)
  | JObject (own hidden : list (J * js J))
  | JArray (elements : list (js J)) (own hidden : list (J * js J))
  | JMap (pairs : list (js J * js J)) (own hidden : list (J * js J))
  | JStringObject (s : option J) (own hidden : list (J * js J))
  | JBuffer (view shared resizable detachable : bool) (bytes : text) (own hidden : list (J * js J))
  | JExotic (elements : option (list (option (js J)))) (names : option (list (J * option (js J))))
      (others : list (J * option (js J))) (otherwise : option (js J)).
#[local] Set Elimination Schemes.
Arguments JUndefined {J}.
Arguments JNull {J}.
Arguments JBool {J}.
Arguments JNumber {J}.
Arguments JBigInt {J}.
Arguments JString {J}.
Arguments JSymbol {J}.
Arguments JExternal {J}.
Arguments JObject {J}.
Arguments JArray {J}.
Arguments JMap {J}.
Arguments JStringObject {J}.
Arguments JBuffer {J}.
Arguments JExotic {J}.

(** * Rust values *)

Inductive AnyValue :=
  | RustBuffer (bytes : option text)
  | V8Buffer (bytes : text)
  | AnyString (s : text)
  | AnyNumber (n : number)
  | AnyBigInt (z : Z)
  | AnyBool (b : bool).

(** The types with [impl_magic!].  A [ToJsBuffer] can be taken once. *)
Inductive magic (J : Type) :=
  | MExternalPointer (pointer : Z)
  | MByteString (bytes : text)
  | MU16String (units : list Z)
  | MToJsBuffer (bytes : option text)
  | MAnyValue (a : AnyValue)
  | MDetachedBuffer (bytes : text)
  | MBigInt (z : Z)
  | MJsBuffer (bytes : text)
  | MStringOrBuffer (s : text + text)
  | MValue (v : js J)
  | MGlobalValue (v : js J).
Arguments MExternalPointer {J}.
Arguments MByteString {J}.
Arguments MU16String {J}.
Arguments MToJsBuffer {J}.
Arguments MAnyValue {J}.
Arguments MDetachedBuffer {J}.
Arguments MBigInt {J}.
Arguments MJsBuffer {J}.
Arguments MStringOrBuffer {J}.
Arguments MValue {J}.
Arguments MGlobalValue {J}.

Inductive MagicKind :=
  | ExternalPointer | ByteString | U16String | ToJsBuffer | KAnyValue | DetachedBuffer | BigInt
  | JsBuffer | StringOrBuffer | Value | GlobalValue.
Global Instance MagicKind_eq_dec : EqDecision MagicKind.
Proof. solve_decision. Defined.

Definition kind_of {J} (m : magic J) : MagicKind :=
  match m with
  | MExternalPointer _ => ExternalPointer | MByteString _ => ByteString | MU16String _ => U16String
  | MToJsBuffer _ => ToJsBuffer | MAnyValue _ => KAnyValue | MDetachedBuffer _ => DetachedBuffer
  | MBigInt _ => BigInt | MJsBuffer _ => JsBuffer | MStringOrBuffer _ => StringOrBuffer
  | MValue _ => Value | MGlobalValue _ => GlobalValue
  end.

Definition MAGIC_FIELD : text := $ "$__v8_magic_field".
Definition MAGIC_NAME (k : MagicKind) : text :=
  $ "$__v8_magic_" ++
  match k with
  | ExternalPointer => $ "ExternalPointer" | ByteString => $ "ByteString" | U16String => $ "U16String"
  | ToJsBuffer => $ "ToJsBuffer" | KAnyValue => $ "AnyValue" | DetachedBuffer => $ "DetachedBuffer"
  | BigInt => $ "BigInt" | JsBuffer => $ "JsBuffer" | StringOrBuffer => $ "StringOrBuffer"
  | Value => $ "Value<'_>" | GlobalValue => $ "GlobalValue"
  end.

(** The names that [serialize_struct] and [deserialize_struct] match. *)
Definition serialized_kinds : list MagicKind :=
  [ExternalPointer; ByteString; U16String; ToJsBuffer; KAnyValue; DetachedBuffer; BigInt; Value; GlobalValue].
Definition deserialized_kinds : list MagicKind :=
  [JsBuffer; DetachedBuffer; ByteString; U16String; StringOrBuffer; BigInt; GlobalValue; Value; KAnyValue].

(** Maps are listed in the order of a [BTreeMap]. *)
#[local] Unset Elimination Schemes.
Inductive rust (J : Type) :=
  | RBool (b : bool)
  | RInt (signed : bool) (bits : Z) (z : Z)
  | RFloat (n : number)
  | RString (s : text)
  | RBytes (s : text)
  | RUnit
  | RNone
  | RSome (v : rust J)
  | RNewtype (v : rust J)
  | RSeq (l : list (rust J))
  | RTuple (l : list (rust J))
  | RMap (l : list (rust J * rust J))
  | RStruct (name : text) (fields : list (text * rust J))
  | RUnitVariant (variant : text)
  | RVariant (variant : text) (payload : rust J)
  | RMagic (m : magic J).
#[local] Set Elimination Schemes.
Arguments RBool {J}.
Arguments RInt {J}.
Arguments RFloat {J}.
Arguments RString {J}.
Arguments RBytes {J}.
Arguments RUnit {J}.
Arguments RNone {J}.
Arguments RSome {J}.
Arguments RNewtype {J}.
Arguments RSeq {J}.
Arguments RTuple {J}.
Arguments RMap {J}.
Arguments RStruct {J}.
Arguments RUnitVariant {J}.
Arguments RVariant {J}.
Arguments RMagic {J}.

(** Types.  A variant is a unit variant or has a payload: the type itself, a tuple, a struct
    without a name.  Keys of maps are strings. *)
#[local] Unset Elimination Schemes.
Inductive ty :=
  | TBool
  | TInt (signed : bool) (bits : Z)
  | TFloat
  | TString
  | TBytes
  | TUnit
  | TOption (t : ty)
  | TNewtype (t : ty)
  | TSeq (t : ty)
  | TTuple (ts : list ty)
  | TMap (t : ty)
  | TStruct (name : text) (fields : list (text * ty))
  | TEnum (variants : list (text * option ty))
  | TMagic (k : MagicKind)
  | TAny.
#[local] Set Elimination Schemes.

(** * Objects *)

Section serde.
Context `{V8Strings J}.
Abbreviation js := (js J).
Abbreviation rust := (rust J).
Implicit Types (v : js) (r : rust).

(** [Object::with_prototype_and_properties]: a later value replaces an earlier one. *)
Fixpoint set_property (k : J) v (l : list (J * js)) : list (J * js) :=
  match l with
  | [] => [(k, v)]
  | (k', v') :: l => if decide (k' = k) then (k, v) :: l else (k', v') :: set_property k v l
  end.
Definition new_object (entries : list (J * js)) : js :=
  JObject (own_order (foldl (λ l e, set_property e.1 e.2 l) [] entries)) [].
Definition new_array (elements : list js) : js := JArray elements [] [].
Definition slice_to_uint8array (buf : text) : js := JBuffer true false false true buf [] [].

Fixpoint property {A} (k : J) (l : list (J * A)) : option A :=
  match l with [] => None | (k', v) :: l => if decide (k' = k) then Some v else property k l end.

Fixpoint index_entries {A} (i : nat) (elements : list A) : list (J * A) :=
  match elements with [] => [] | v :: elements => (index_key i, v) :: index_entries (S i) elements end.

(** What a read of an object gives: the names with what they read as, unless asking for them
    throws; all that is read; the rest. *)
Record object := mkObject {
  own_entries : option (list (J * option js));
  readable : list (J * option js);
  rest : option js
}.
Definition slots (l : list (J * js)) : list (J * option js) := map (λ e, (e.1, Some e.2)) l.
Definition plain (own hidden : list (J * js)) : object :=
  mkObject (Some (slots own)) (slots (own ++ hidden)) (Some JUndefined).
Definition object_properties v : option object :=
  match v with
  | JObject own hidden | JMap _ own hidden | JStringObject _ own hidden | JBuffer _ _ _ _ _ own hidden =>
      Some (plain own hidden)
  | JArray elements own hidden => Some (plain (index_entries 0 elements ++ own) hidden)
  | JExternal _ => Some (plain [] [])
  | JExotic elements names others otherwise =>
      let indices := index_entries 0 (default [] elements) in
      Some (mkObject (app indices <$> names) (indices ++ default [] names ++ others) otherwise)
  | _ => None
  end.

(** [Object::get]: [None] if it throws; [.unwrap()]. *)
Definition get_property (o : object) (k : J) : option js := default (rest o) (property k (readable o)).
Definition unwrap_read (read : option js) : res js := match read with Some v => mret v | None => crash Unwrap end.

(** The elements of an array. *)
Definition array_elements v : option (list (option js)) :=
  match v with
  | JArray elements _ _ => Some (map Some elements)
  | JExotic elements _ _ _ => elements
  | _ => None
  end.

(** [Object::get_index]: arrays are read by position; other objects have properties. *)
Definition get_index v (o : object) (i : nat) : option js :=
  match array_elements v with
  | Some elements => default (rest o) (elements !! i)
  | None => get_property o (index_key i)
  end.

Definition v8_struct_key (field : text) : res J :=
  match of_utf8 field with Some k => mret k | None => crash Unwrap end.

(** * Serialization *)

Definition MAX_SAFE_INTEGER : Z := 2 ^ 53 - 1.
Definition MIN_SAFE_INTEGER : Z := - MAX_SAFE_INTEGER.

Definition serialize_int (signed : bool) (bits z : Z) : js :=
  if bits <=? 32 then JNumber (Finite z 0)
  else if if signed then (MIN_SAFE_INTEGER <=? z) && (z <=? MAX_SAFE_INTEGER) else z <=? MAX_SAFE_INTEGER
  then JNumber (int_as_f64 z) else JBigInt z.

Definition too_long : Error := Message ($ "Cannot allocate String: buffer exceeds maximum length.").
Definition utf16_too_long : Error :=
  Message ($ "Cannot allocate String from UTF-16: buffer exceeds maximum length.").
Definition string_keys : Error := Message ($ "Serialized Maps expect String keys").

Definition serialize_str (s : text) : res js :=
  match of_utf8 s with Some k => mret (JString k) | None => err too_long end.

Definition js_buffer_to_v8 (bytes : option text) : res js :=
  match bytes with Some buf => mret (slice_to_uint8array buf) | None => crash Unwrap end.

Definition bigint_to_v8 (z : Z) : res js := if bigint_fits z then mret (JBigInt z) else crash Unwrap.

(** [ToV8::to_v8], for the kinds that have it. *)
Definition to_v8 (m : magic J) : res js :=
  match m with
  | MExternalPointer pointer => mret (if pointer =? 0 then JNull else JExternal pointer)
  | MByteString bytes => match of_one_byte bytes with Some s => mret (JString s) | None => crash Unwrap end
  | MU16String units => match of_two_byte units with Some s => mret (JString s) | None => err utf16_too_long end
  | MToJsBuffer bytes => js_buffer_to_v8 bytes
  | MAnyValue a =>
      match a with
      | RustBuffer bytes => js_buffer_to_v8 bytes
      | V8Buffer _ => crash Unreachable
      | AnyString s => serialize_str s
      | AnyNumber n => mret (JNumber n)
      | AnyBigInt z => bigint_to_v8 z
      | AnyBool b => mret (JBool b)
      end
  | MDetachedBuffer bytes => mret (slice_to_uint8array bytes)
  | MBigInt z => bigint_to_v8 z
  | MValue v | MGlobalValue v => mret v
  | MJsBuffer _ | MStringOrBuffer _ => crash Unreachable  (** not implemented *)
  end.

(** Where a magic value is in memory: the field of its struct. *)
Context (address_of : magic J → Z).

(** [VariantSerializer::end]. *)
Definition variant_object (variant : text) v : res js :=
  key ← v8_struct_key variant : res J; mret (new_object [(key, v)]).

(** A symbol is a key too, of a property that no string finds. *)
Definition map_key v : res (option J) :=
  match v with JString k => mret (Some k) | JSymbol => mret None | _ => err string_keys end.

(** A struct whose name is magic is read through the pointer in its field. *)
Definition magic_struct (fields : list text) : res js :=
  if decide (Forall (eq MAGIC_FIELD) fields) then crash BadMemory else crash Assert.

Fixpoint serialize r : res js :=
  match r with
  | RBool b => mret (JBool b)
  | RInt signed bits z => mret (serialize_int signed bits z)
  | RFloat n => mret (JNumber n)
  | RString s => serialize_str s
  | RBytes s => mret (slice_to_uint8array s)
  | RUnit | RNone => mret JNull
  | RSome r | RNewtype r => serialize r
  | RSeq l | RTuple l => elements ← traverse serialize l; mret (new_array elements)
  | RMap l =>
      entries ← traverse (λ e, k ← serialize e.1; k ← map_key k : res (option J); v ← serialize e.2 : res js; mret (k, v)) l;
      mret (new_object (omap (λ e, (λ k, (k, e.2)) <$> e.1) entries))
  | RStruct name fields =>
      if decide (name ∈ map MAGIC_NAME serialized_kinds) then magic_struct fields.*1
      else
        entries ← traverse (λ e, v ← serialize e.2; k ← v8_struct_key e.1 : res J; mret (k, v)) fields;
        mret (new_object entries)
  | RUnitVariant variant => k ← v8_struct_key variant : res J; mret (JString k)
  | RVariant variant payload =>
      (** a struct variant has the name of the variant *)
      v ← (match payload with
           | RStruct [] fields =>
               if decide (variant ∈ map MAGIC_NAME serialized_kinds) then magic_struct fields.*1 else serialize payload
           | _ => serialize payload
           end) : res js;
      variant_object variant v
  | RMagic m =>
      if decide (kind_of m ∈ serialized_kinds) then to_v8 m
      else k ← v8_struct_key MAGIC_FIELD : res J; mret (new_object [(k, serialize_int false 64 (address_of m))])
  end.

(** * Strings *)

(** What [Vec::with_capacity] gives, at least what is asked for. *)
Context (allocate : nat → nat).

(** [write_utf8_uninit_v2]: whole characters, as far as they fit; the text and the code units. *)
Fixpoint write_utf8 (capacity : nat) (l : list (nat * text)) : text * nat :=
  match l with
  | [] => ([], 0%nat)
  | (units, bytes) :: l =>
      if decide (length bytes <= capacity)%nat then
        let (s, n) := write_utf8 (capacity - length bytes) l in (bytes ++ s, units + n)%nat
      else ([], 0%nat)
  end.
Definition string_length (s : J) : nat := sum_list (characters s).*1.
Definition utf8_length (s : J) : nat := length (concat (characters s).*2).

Definition to_utf8_fast (s : J) : option text :=
  let str_chars := string_length s in
  let (buf, nchars) := write_utf8 (allocate (str_chars * 6 / 5)%nat) (characters s) in
  if decide (nchars < str_chars)%nat then None else Some buf.
Definition to_utf8_slow (s : J) : text := (write_utf8 (utf8_length s) (characters s)).1.
Definition to_utf8 (s : J) : text := match to_utf8_fast s with Some t => t | None => to_utf8_slow s end.

(** * Deserialization *)

Definition integral (n : number) (lo hi : Z) : option Z :=
  match n with
  | Finite m k => if decide (m mod pow2 k = 0 ∧ lo <= trunc m k <= hi) then Some (trunc m k) else None
  | _ => None
  end.

Definition deserialize_int (signed : bool) (bits : Z) v : res rust :=
  match v with
  | JNumber x => mret (RInt signed bits (f64_as_int signed bits x))
  | JBigInt x => mret (RInt signed bits (int_as_int signed bits (int_as_int signed 64 x)))
  | _ => err ExpectedInteger
  end.

(** ** [bigint_to_f64]; [None] is infinity. *)
Fixpoint to_words (n : nat) (z : Z) : list Z :=
  match n with O => [] | S n => z mod 2 ^ 64 :: to_words n (z / 2 ^ 64) end.
Definition word_count (z : Z) : nat := if z =? 0 then 0%nat else S (Z.to_nat (Z.log2 (Z.abs z) / 64)).
Definition finite_f64 (z : Z) : option Z := if to_f64 z <? 2 ^ 1024 then Some (to_f64 z) else None.
Fixpoint sum_words (i : Z) (words : list Z) (sum : option Z) : option Z :=
  match words with
  | [] => sum
  | w :: words =>
      let term := if to_f64 w * 2 ^ (64 * i) <? 2 ^ 1024 then Some (to_f64 w * 2 ^ (64 * i)) else None in
      sum_words (i + 1) words (x ← sum; y ← term; finite_f64 (x + y))
  end.
Definition bigint_to_f64 (z : Z) : number :=
  let neg := z <? 0 in
  if (16 <? word_count z)%nat then Infinity neg
  else match sum_words 0 (to_words (word_count z) (Z.abs z)) (Some 0) with
       | Some x => Finite (if neg then - x else x) 0
       | None => Infinity neg
       end.

Definition deserialize_f64 v : res number :=
  match v with
  | JNumber x => mret x
  | JBigInt x => mret (bigint_to_f64 x)
  | _ => err ExpectedNumber
  end.

Definition deserialize_string v : res text :=
  match v with
  | JString s | JStringObject (Some s) _ _ => mret (to_utf8 s)
  | JStringObject None _ _ => crash Unwrap
  | _ => err ExpectedString
  end.

Definition null_or_undefined v : bool := match v with JNull | JUndefined => true | _ => false end.

(** ** Magic types *)

Definition slice_from_v8 v : res text :=
  match v with
  | JBuffer view shared resizable _ bytes _ _ =>
      if negb view && shared then err ExpectedBuffer
      else if resizable then err ResizableBackingStoreNotSupported
      else if shared then err ExpectedBuffer
      else mret bytes
  | _ => err ExpectedBuffer
  end.

(** The buffer in V8 is detached, too. *)
Definition detached_from_v8 v : res text :=
  match v with
  | JBuffer view shared _ detachable bytes _ _ =>
      if negb view && shared then err ExpectedBuffer
      else if detachable then mret bytes else err ExpectedDetachable
  | _ => err ExpectedBuffer
  end.

Definition bigint_from_v8 v : res Z := match v with JBigInt z => mret z | _ => err ExpectedBigInt end.

Definition any_expected : Error := Message ($ "expected string, number, bigint, ArrayBufferView, boolean").
Definition any_from_v8 v : res AnyValue :=
  match v with
  | JString s => mret (AnyString (to_utf8 s))
  | JNumber n => mret (AnyNumber n)
  | JBigInt z => mret (AnyBigInt z)
  | JBuffer true _ _ _ _ _ _ => bytes ← slice_from_v8 v; mret (V8Buffer bytes)
  | JBool b => mret (AnyBool b)
  | _ => err any_expected
  end.

(** [FromV8::from_v8]. *)
Definition from_v8 (k : MagicKind) v : res (magic J) :=
  match k with
  | JsBuffer => bytes ← slice_from_v8 v; mret (MJsBuffer bytes)
  | DetachedBuffer => bytes ← detached_from_v8 v; mret (MDetachedBuffer bytes)
  | ByteString =>
      match v with
      | JString s => match one_byte s with Some bytes => mret (MByteString bytes) | None => err ExpectedLatin1 end
      | _ => err ExpectedString
      end
  | U16String => match v with JString s => mret (MU16String (two_byte s)) | _ => err ExpectedString end
  | StringOrBuffer =>
      match slice_from_v8 v with
      | Ret (Ok bytes) => mret (MStringOrBuffer (inr bytes))
      | _ => match deserialize_string v with
             | Ret (Ok s) => mret (MStringOrBuffer (inl s))
             | Ret (Err _) => err ExpectedBuffer
             | Panic f => crash f
             end
      end
  | BigInt => z ← bigint_from_v8 v; mret (MBigInt z)
  | KAnyValue => a ← any_from_v8 v; mret (MAnyValue a)
  | Value => mret (MValue v)
  | GlobalValue => mret (MGlobalValue v)
  | ExternalPointer =>
      match v with
      | JNull => mret (MExternalPointer 0)
      | JExternal pointer => mret (MExternalPointer pointer)
      | _ => err ExpectedExternal
      end
  | ToJsBuffer => crash Unreachable  (** not implemented *)
  end.
Definition magic_kind_of (name : text) : option MagicKind :=
  head (filter (λ k, MAGIC_NAME k = name) deserialized_kinds).

(** ** Maps *)

Fixpoint text_compare (s t : text) : comparison :=
  match s, t with
  | [], [] => Eq
  | [], _ :: _ => Lt
  | _ :: _, [] => Gt
  | c :: s, d :: t => match code c ?= code d with Eq => text_compare s t | o => o end
  end.
Fixpoint btree_insert (k : text) r (l : list (text * rust)) : list (text * rust) :=
  match l with
  | [] => [(k, r)]
  | (k', r') :: l' =>
      match text_compare k k' with
      | Lt => (k, r) :: l
      | Eq => (k, r) :: l'
      | Gt => (k', r') :: btree_insert k r l'
      end
  end.
Definition btree (entries : list (text * rust)) : rust :=
  RMap (map (λ e, (RString e.1, e.2)) (foldl (λ l e, btree_insert e.1 e.2 l) [] entries)).

(** [MapObjectAccess]: a read that throws panics, properties that are undefined are left
    out.  [MapPairsAccess]. *)
Definition object_entry (f : js → res rust) (k : J) (read : option js) : res (option (text * rust)) :=
  match read with
  | None => crash Unwrap
  | Some JUndefined => mret None
  | Some v => k ← deserialize_string (JString k); r ← f v; mret (Some (k, r))
  end.
Definition object_entries (f : js → res rust) (own : list (J * option js)) : res (list (text * rust)) :=
  entries ← traverse (λ e, object_entry f e.1 e.2) own; mret (omap id entries).
(** The same for properties that do not throw. *)
Definition plain_entries (f : js → res rust) (own : list (J * js)) : res (list (text * rust)) :=
  entries ← traverse (λ e, object_entry f e.1 (Some e.2)) own; mret (omap id entries).
Definition pair_entries (f : js → res rust) (pairs : list (js * js)) : res (list (text * rust)) :=
  traverse (λ e, k ← deserialize_string e.1; r ← f e.2; mret (k, r)) pairs.

(** ** Self-describing types, as [serde_json::Value] *)

Fixpoint deserialize_any v : res rust :=
  match v with
  | JUndefined | JNull => mret RUnit
  | JBool b => mret (RBool b)
  | JNumber n =>
      match integral n 0 (2 ^ 32 - 1), integral n (- 2 ^ 31) (2 ^ 31 - 1) with
      | Some z, _ => mret (RInt false 32 z)
      | None, Some z => mret (RInt true 32 z)
      | None, None => mret (RFloat n)
      end
  | JBigInt _ => err UnsupportedType
  | JString s => mret (RString (to_utf8 s))
  | JArray elements _ _ => l ← traverse deserialize_any elements; mret (RSeq l)
  | JBuffer view shared _ _ _ own _ =>
      if negb view && shared then entries ← plain_entries deserialize_any own; mret (btree entries)
      else bytes ← slice_from_v8 v; mret (RBytes bytes)
  | JObject own _ | JStringObject _ own _ => entries ← plain_entries deserialize_any own; mret (btree entries)
  | JExotic (Some elements) _ _ _ =>
      l ← traverse (λ e, match e with Some v => deserialize_any v | None => crash Unwrap end) elements; mret (RSeq l)
  | JExotic None names _ _ =>
      match names with
      | Some names => entries ← object_entries deserialize_any names; mret (btree entries)
      | None => mret (btree [])
      end
  | JMap pairs _ _ => entries ← pair_entries deserialize_any pairs; mret (btree entries)
  | JExternal _ => mret (btree [])
  | JSymbol => crash Unwrap
  end.

(** ** By type *)

Definition is_option (t : ty) : bool := match t with TOption _ => true | _ => false end.

(** The derived visitor: the fields that were read, in order; then those that were not. *)
Fixpoint missing_fields (fields : list (text * bool * option rust)) : res (list (text * rust)) :=
  match fields with
  | [] => mret []
  | (f, optional, r) :: fields =>
      r ← (match r with
           | Some r => mret r
           | None => if (optional : bool) then mret RNone else err (Serde (MissingField f))
           end) : res rust;
      rs ← missing_fields fields;
      mret ((f, r) :: rs)
  end.

(** Tag and payload of an enum. *)
Definition enum_parts v : res (js * js) :=
  match v with
  | JString _ | JStringObject _ _ _ => mret (v, JUndefined)
  | _ =>
      match object_properties v with
      | None => err ExpectedEnum
      | Some o =>
          match own_entries o with
          | None => err ExpectedEnum
          | Some [(k, payload)] =>
              (** names that are indices are numbers here *)
              payload ← unwrap_read payload; mret (if is_index k then JNumber (Finite 0 0) else JString k, payload)
          | Some own => err (LengthMismatch (length own) 1)
          end
      end
  end.

(** Elements of a tuple by position; fields that are not undefined; the variant of a tag. *)
Definition read_elements (f : ty → js → res rust) (element : nat → option js) : list ty → nat → res (list rust) :=
  fix go ts i := match ts with
                 | [] => mret []
                 | t :: ts => v ← unwrap_read (element i); r ← f t v; rs ← go ts (S i); mret (r :: rs)
                 end.
Definition read_fields (f : ty → js → res rust) (o : object) :
    list (text * ty) → res (list (text * bool * option rust)) :=
  fix go fields := match fields with
                   | [] => mret []
                   | (name, t) :: fields =>
                       k ← v8_struct_key name : res J;
                       v ← unwrap_read (get_property o k);
                       r ← (match v with
                            | JUndefined => mret None
                            | v => r ← f t v; mret (Some r)
                            end) : res (option rust);
                       rs ← go fields;
                       mret ((name, is_option t, r) :: rs)
                   end.
Definition read_variant (f : ty → js → res rust) (tag : text) (payload : js) : list (text * option ty) → res rust :=
  fix go variants := match variants with
                     | [] => err (Serde UnknownVariant)
                     | (variant, o) :: variants =>
                         if decide (variant = tag) then
                           match o with
                           | None => mret (RUnitVariant variant)
                           | Some t => r ← f t payload; mret (RVariant variant r)
                           end
                         else go variants
                     end.

Fixpoint deserialize (t : ty) v : res rust :=
  match t with
  | TBool => mret (RBool (match v with JBool b => b | _ => false end))
  | TInt signed bits => deserialize_int signed bits v
  | TFloat => n ← deserialize_f64 v; mret (RFloat n)
  | TString => s ← deserialize_string v; mret (RString s)
  | TBytes => bytes ← slice_from_v8 v; mret (RBytes bytes)
  | TUnit => mret RUnit
  | TOption t => if null_or_undefined v then mret RNone else r ← deserialize t v; mret (RSome r)
  | TNewtype t => r ← deserialize t v; mret (RNewtype r)
  | TSeq t =>
      match array_elements v with
      | Some elements => l ← traverse (λ e, v ← unwrap_read e; deserialize t v) elements; mret (RSeq l)
      | None => err ExpectedArray
      end
  | TTuple ts =>
      match object_properties v with
      | None => err ExpectedObject
      | Some o =>
          let mismatch := match array_elements v with
                          | Some elements => if decide (length elements = length ts) then None else Some (length elements)
                          | None => None
                          end in
          match mismatch with
          | Some got => err (LengthMismatch got (length ts))
          | None => l ← read_elements deserialize (get_index v o) ts 0; mret (RTuple l)
          end
      end
  | TMap t =>
      match object_properties v with
      | None => err ExpectedObject
      | Some o =>
          entries ← (match v with
                     | JMap pairs _ _ => pair_entries (deserialize t) pairs
                     | _ => object_entries (deserialize t) (default [] (own_entries o))
                     end) : res (list (text * rust));
          mret (btree entries)
      end
  | TStruct name fields =>
      match magic_kind_of name, object_properties v with
      | Some k, _ => _ ← from_v8 k v; err (Serde InvalidType)
      | None, None => err ExpectedObject
      | None, Some o =>
          match fields with
          | [] => _ ← object_entries (λ _, mret RUnit) (default [] (own_entries o)); mret (RStruct name [])
          | _ =>
              read ← read_fields deserialize o fields;
              rs ← missing_fields read;
              mret (RStruct name rs)
          end
      end
  | TEnum variants =>
      '(tag, payload) ← enum_parts v;
      tag ← deserialize_string tag;
      read_variant deserialize tag payload variants
  | TMagic k =>
      if decide (k ∈ deserialized_kinds) then m ← from_v8 k v; mret (RMagic m)
      else match object_properties v with
           | None => err ExpectedObject
           | Some _ => err (Serde InvalidType)
           end
  | TAny => deserialize_any v
  end.
End serde.
