(* ===== verification/SerdeRoundtrip.v ===== *)
(** What [src/serde_v8] promises: values survive the way to JavaScript and back. *)

From stdpp Require Import sorting.
From S2P Require Import Prelude RustStr Numbers SerdeV8.

Local Open Scope Z_scope.

(** * Results *)

Lemma res_bind_Ok {A B} (m : res A) (k : A → res B) a : m = Ret (Ok a) → m ≫= k = k a.
Proof. by intros ->. Qed.

Lemma traverse_map {A B C} (f : B → res C) (g : A → B) (h : A → C) l :
  Forall (λ a, f (g a) = Ret (Ok (h a))) l → traverse f (map g l) = Ret (Ok (map h l)).
Proof. induction 1 as [|a l Ha _ IH]; [done|]. simpl. rewrite Ha. simpl. by rewrite IH. Qed.

Lemma omap_map {A B C} (f : B → option C) (g : A → B) (h : A → C) l :
  (∀ a, f (g a) = Some (h a)) → omap f (map g l) = map h l.
Proof. intros Hf. induction l as [|a l IH]; [done|]. simpl. rewrite Hf. f_equal. apply IH. Qed.

(** A witness for each element. *)
Lemma choose_list {A B} (Q : A → B → Prop) l :
  (∀ a, a ∈ l → ∃ b, Q a b) → ∃ ps : list (A * B), map fst ps = l ∧ Forall (λ p, Q p.1 p.2) ps.
Proof.
  induction l as [|a l IH]; intros HQ; [by exists []|].
  destruct (HQ a) as [b Hb]; [left|]. destruct IH as (ps & <- & Hps); [intros x Hx; apply HQ; by right|].
  exists ((a, b) :: ps). split; [done|]. by constructor.
Qed.

(** * Order of keys *)

Lemma text_compare_refl s : text_compare s s = Eq.
Proof. induction s as [|c s IH]; [done|]. simpl. by rewrite Z.compare_refl. Qed.

Lemma code_inj c d : code c = code d → c = d.
Proof. unfold code. intros E. apply N2Z.inj in E. rewrite <- (ascii_N_embedding c), <- (ascii_N_embedding d). by f_equal. Qed.

Lemma text_compare_Eq s : ∀ t, text_compare s t = Eq → s = t.
Proof.
  induction s as [|c s IH]; intros [|d t]; simpl; try done.
  destruct (code c ?= code d) eqn:E; try done. apply Z.compare_eq, code_inj in E as ->. intros ?. f_equal. by apply IH.
Qed.

Lemma text_compare_antisym s : ∀ t, text_compare t s = CompOpp (text_compare s t).
Proof.
  induction s as [|c s IH]; intros [|d t]; simpl; try done.
  rewrite (Z.compare_antisym (code c) (code d)). destruct (code c ?= code d); simpl; [apply IH|done..].
Qed.

Definition text_lt (s t : text) : Prop := text_compare s t = Lt.

Lemma text_lt_trans s : ∀ t u, text_lt s t → text_lt t u → text_lt s u.
Proof.
  unfold text_lt. induction s as [|c s IH]; intros [|d t] [|e u]; simpl; try done.
  destruct (Z.compare_spec (code c) (code d)), (Z.compare_spec (code d) (code e)), (Z.compare_spec (code c) (code e));
    try done; try lia. apply IH.
Qed.

Lemma text_lt_irrefl s : ¬ text_lt s s.
Proof. unfold text_lt. by rewrite text_compare_refl. Qed.

(** * Maps *)

Section maps.
Context {J : Type}.
Abbreviation rust := (rust J).
Implicit Types (l : list (text * rust)).

Definition key_lt (a b : text * rust) : Prop := text_lt a.1 b.1.

Lemma btree_insert_elem k r l x : x ∈ btree_insert k r l → x = (k, r) ∨ x ∈ l.
Proof.
  induction l as [|[k' r'] l IH]; simpl; [intros ?%list_elem_of_singleton; by left|].
  destruct (text_compare k k') eqn:E.
  - intros [->|Hx]%elem_of_cons; [by left|right; by right].
  - intros [->|Hx]%elem_of_cons; [by left|by right].
  - intros [->|Hx]%elem_of_cons; [right; by left|]. destruct (IH Hx); [by left|right; by right].
Qed.

Lemma btree_insert_StronglySorted k r l : StronglySorted key_lt l → StronglySorted key_lt (btree_insert k r l).
Proof.
  induction l as [|[k' r'] l IH]; intros Hs; simpl; [by repeat constructor|].
  apply StronglySorted_inv in Hs as [Hs Hall].
  destruct (text_compare k k') eqn:E.
  - apply text_compare_Eq in E as ->. by constructor.
  - constructor; [by constructor|]. constructor; [done|].
    eapply Forall_impl; [exact Hall|]. intros x. by apply text_lt_trans.
  - constructor; [by apply IH|]. apply Forall_forall. intros x [->|Hx]%btree_insert_elem.
    + unfold key_lt, text_lt. simpl. by rewrite text_compare_antisym, E.
    + rewrite Forall_forall in Hall. by apply Hall.
Qed.

Lemma btree_insert_new k r l : k ∉ l.*1 → btree_insert k r l ≡ₚ (k, r) :: l.
Proof.
  induction l as [|[k' r'] l IH]; intros Hk; simpl; [done|]. simpl in Hk. apply not_elem_of_cons in Hk as [Hne Hk].
  destruct (text_compare k k') eqn:E; [by apply text_compare_Eq in E|done|]. rewrite IH by done. apply Permutation_swap.
Qed.

Lemma btree_foldl l : ∀ acc,
  StronglySorted key_lt acc → NoDup (acc ++ l).*1 →
  let out := foldl (λ l e, btree_insert e.1 e.2 l) acc l in StronglySorted key_lt out ∧ out ≡ₚ acc ++ l.
Proof.
  induction l as [|[k r] l IH]; intros acc Hs Hnd; [by rewrite app_nil_r|]. simpl.
  assert (k ∉ acc.*1) as Hk.
  { rewrite fmap_app in Hnd. apply NoDup_app in Hnd as (_ & Hd & _). intros Hin. apply (Hd k Hin). left. }
  destruct (IH (btree_insert k r acc)) as [Hs' Hp].
  - by apply btree_insert_StronglySorted.
  - rewrite (btree_insert_new k r acc) by done. simpl. rewrite fmap_app in Hnd |- *. simpl in Hnd.
    rewrite <- Permutation_middle in Hnd. done.
  - split; [done|]. rewrite Hp, (btree_insert_new k r acc) by done. simpl. by rewrite <- Permutation_middle.
Qed.

(** A map is rebuilt from its entries in any order. *)
Lemma btree_sorted l l' :
  StronglySorted key_lt l → l' ≡ₚ l → foldl (λ l e, btree_insert e.1 e.2 l) [] l' = l.
Proof.
  intros Hs Hp.
  assert (NoDup l.*1) as Hnd.
  { clear Hp. induction Hs as [|e l Hs IH Hall]; [constructor|]. constructor; [|done].
    intros (x & Hx & Hin)%list_elem_of_fmap. rewrite Forall_forall in Hall. specialize (Hall x Hin).
    unfold key_lt in Hall. rewrite <- Hx in Hall. by apply text_lt_irrefl in Hall. }
  destruct (btree_foldl l' []) as [Hs' Hp']; [constructor|simpl; by rewrite Hp|]. simpl in *.
  eapply (StronglySorted_unique_strong key_lt); [|done|done|by rewrite Hp', Hp].
  intros a b _ _ Hab Hba. exfalso. eapply text_lt_irrefl, text_lt_trans; done.
Qed.
End maps.

(** * Strings *)

Section strings.
Context `{V8Strings J} (allocate : nat → nat).

Lemma write_utf8_all capacity l :
  (length (concat l.*2) <= capacity)%nat → write_utf8 capacity l = (concat l.*2, sum_list l.*1).
Proof.
  revert capacity. induction l as [|[u b] l IH]; intros capacity Hc; [done|].
  rewrite fmap_cons in Hc. cbn [concat snd] in Hc. rewrite length_app in Hc. simpl.
  rewrite decide_True by lia. by rewrite (IH (capacity - length b)%nat) by lia.
Qed.

Lemma write_utf8_some capacity l :
  Forall (λ c, (0 < c.1)%nat) l →
  write_utf8 capacity l = (concat l.*2, sum_list l.*1) ∨ ((write_utf8 capacity l).2 < sum_list l.*1)%nat.
Proof.
  intros Hl. revert capacity. induction Hl as [|[u b] l Hu Hl IH]; intros capacity; [by left|]. csimpl.
  simpl in Hu. case_decide; [|right; simpl; lia]. destruct (IH (capacity - length b)%nat) as [->|Hlt]; [by left|].
  right. destruct (write_utf8 _ l). simpl in Hlt |- *. lia.
Qed.

(** The fast path agrees with the slow one, whatever the allocator gives. *)
Lemma to_utf8_spec `{!V8StringLaws J} (s : J) : to_utf8 allocate s = concat (characters s).*2.
Proof.
  unfold to_utf8, to_utf8_slow, to_utf8_fast, utf8_length. rewrite (write_utf8_all (length _)) by done. cbv zeta.
  destruct (write_utf8_some (allocate (string_length s * 6 / 5)%nat) _ (characters_units s)) as [->|Hlt].
  - rewrite decide_False; [done|]. unfold string_length. lia.
  - unfold string_length in *. destruct (write_utf8 _ _). simpl in *. by rewrite decide_True.
Qed.
End strings.

(** * Values of a type *)

Definition all {A} (P : A → Prop) : list A → Prop :=
  fix go l := match l with [] => True | a :: l => P a ∧ go l end.

Definition all2 {A B} (P : A → B → Prop) : list A → list B → Prop :=
  fix go l k := match l, k with
                | [], [] => True
                | a :: l, b :: k => P a b ∧ go l k
                | _, _ => False
                end.
Definition any {A} (P : A → Prop) : list A → Prop :=
  fix go l := match l with [] => False | a :: l => P a ∨ go l end.

Lemma all_elem {A} (P : A → Prop) l a : all P l → a ∈ l → P a.
Proof.
  induction l as [|b l IH]; [by intros _ ?%elem_of_nil|]. intros [Hb Hl] [->|Ha]%elem_of_cons; [done|by apply IH].
Qed.

Lemma any_elem {A} (P : A → Prop) l : any P l → ∃ a, a ∈ l ∧ P a.
Proof.
  induction l as [|b l IH]; [done|]. intros [Hb|Hl]; [exists b; by split; [left|]|].
  destruct (IH Hl) as (a & ? & ?). exists a. by split; [right|].
Qed.

(** Induction on types. *)
Section ty_induction.
Context (P : ty → Prop).
Context (Hbase : ∀ t, match t with
                      | TBool | TInt _ _ | TFloat | TString | TBytes | TUnit | TMagic _ | TAny => P t
                      | _ => True
                      end).
Context (Hoption : ∀ t, P t → P (TOption t)) (Hnewtype : ∀ t, P t → P (TNewtype t)) (Hseq : ∀ t, P t → P (TSeq t)).
Context (Htuple : ∀ ts, all P ts → P (TTuple ts)) (Hmap : ∀ t, P t → P (TMap t)).
Context (Hstruct : ∀ name fields, all (λ f, P f.2) fields → P (TStruct name fields)).
Context (Henum : ∀ variants, all (λ v, match v.2 with Some t => P t | None => True end) variants → P (TEnum variants)).

Lemma ty_nested_ind : ∀ t, P t.
Proof.
  fix rec 1. intros t. pose proof (Hbase t) as Hb. destruct t; try exact Hb.
  - apply Hoption, rec.
  - apply Hnewtype, rec.
  - apply Hseq, rec.
  - apply Htuple. clear Hb. induction ts as [|t ts IH]; [exact I|]. split; [apply rec|exact IH].
  - apply Hmap, rec.
  - apply Hstruct. clear Hb. induction fields as [|[f t] fields IH]; [exact I|]. split; [apply rec|exact IH].
  - apply Henum. clear Hb. induction variants as [|[n o] vs IH]; [exact I|].
    split; [destruct o; [apply rec|exact I]|exact IH].
Qed.
End ty_induction.

(** The serialized value may be [null] or [undefined]. *)
Fixpoint nullable (t : ty) : bool :=
  match t with
  | TUnit | TOption _ | TAny => true
  | TNewtype t => nullable t
  | TMagic k => bool_decide (k ∈ [ExternalPointer; Value; GlobalValue])
  | _ => false
  end.

Section roundtrip.
Context `{V8StringLaws J} (address_of : magic J → Z) (allocate : nat → nat).
Abbreviation js := (js J).
Abbreviation rust := (rust J).
Implicit Types (v : js) (r : rust) (t : ty).

(** A Rust string that is not too long for V8. *)
Definition convertible (s : text) : Prop := valid_utf8 s = true ∧ is_Some (of_utf8 s).

(** Types whose values round-trip: what is in an [Option] is never [null]; names are not
    magic, fields and variants have different names, no variant has the name of an index. *)
Fixpoint faithful t : Prop :=
  match t with
  | TBool | TFloat | TString | TBytes | TUnit => True
  | TInt _ bits => bits ∈ [8; 16; 32; 64]
  | TOption t => nullable t = false ∧ faithful t
  | TNewtype t | TSeq t | TMap t => faithful t
  | TTuple ts => all faithful ts
  | TStruct name fields =>
      (name ∉ map MAGIC_NAME serialized_kinds) ∧ magic_kind_of name = None ∧ NoDup fields.*1 ∧
      all (λ f, convertible f.1 ∧ faithful f.2) fields
  | TEnum variants =>
      NoDup variants.*1 ∧
      all (λ x, convertible x.1 ∧ (x.1 ∉ map MAGIC_NAME serialized_kinds) ∧
                (∀ k, of_utf8 x.1 = Some k → is_index k = false) ∧
                match x.2 with Some t => faithful t | None => True end) variants
  | TMagic k => k ∈ serialized_kinds ∧ k ∈ deserialized_kinds
  | TAny => False
  end.

Definition any_typed (a : AnyValue) : Prop :=
  match a with
  | AnyString s => convertible s
  | AnyNumber _ | AnyBool _ => True
  | AnyBigInt z => bigint_fits z = true
  | RustBuffer _ | V8Buffer _ => False
  end.
Definition magic_typed (m : magic J) : Prop :=
  match m with
  | MByteString bytes => is_Some (of_one_byte bytes)
  | MU16String units => is_Some (of_two_byte units)
  | MAnyValue a => any_typed a
  | MDetachedBuffer _ => True
  | MBigInt z => bigint_fits z = true
  | MValue v | MGlobalValue v => v ≠ JUndefined
  | _ => False
  end.

Fixpoint typed t r : Prop :=
  match t, r with
  | TBool, RBool _ | TFloat, RFloat _ | TBytes, RBytes _ | TUnit, RUnit | TOption _, RNone => True
  | TInt signed bits, RInt signed' bits' z =>
      signed' = signed ∧ bits' = bits ∧ int_min signed bits <= z <= int_max signed bits
  | TString, RString s => convertible s
  | TOption t, RSome r | TNewtype t, RNewtype r => typed t r
  | TSeq t, RSeq l => all (typed t) l
  | TTuple ts, RTuple l => all2 typed ts l
  | TMap t, RMap l =>
      ∃ entries : list (text * rust), l = map (λ e, (RString e.1, e.2)) entries ∧ StronglySorted key_lt entries ∧
        all (λ e, convertible e.1 ∧ typed t e.2) entries
  | TStruct name fields, RStruct name' l =>
      name' = name ∧ all2 (λ f x, x.1 = f.1 ∧ typed f.2 x.2) fields l
  | TEnum variants, RUnitVariant variant => (variant, None) ∈ variants
  | TEnum variants, RVariant variant payload =>
      any (λ x, match x.2 with Some t => x.1 = variant ∧ typed t payload | None => False end) variants
  | TMagic k, RMagic m => kind_of m = k ∧ magic_typed m
  | _, _ => False
  end.

(** What has to be shown of a value. *)
Definition survives t r : Prop :=
  ∃ v, serialize address_of r = Ret (Ok v) ∧ v ≠ JUndefined ∧
    (nullable t = false → null_or_undefined v = false) ∧ deserialize allocate t v = Ret (Ok r).

(** ** Strings and objects *)

Lemma to_utf8_of s k : valid_utf8 s = true → of_utf8 s = Some k → to_utf8 allocate k = s.
Proof. intros Hs Hk. rewrite (to_utf8_spec allocate k). exact (of_utf8_characters s k Hs Hk). Qed.

Lemma of_utf8_inj s s' k :
  valid_utf8 s = true → valid_utf8 s' = true → of_utf8 s = Some k → of_utf8 s' = Some k → s = s'.
Proof. intros Hs Hs' Hk Hk'. by rewrite <- (to_utf8_of s k), <- (to_utf8_of s' k). Qed.

Lemma set_property_new (k : J) v (l : list (J * js)) : k ∉ l.*1 → set_property k v l = l ++ [(k, v)].
Proof.
  induction l as [|[k' v'] l IH]; intros Hk; [done|]. apply not_elem_of_cons in Hk as [Hne Hk]. simpl in Hne |- *.
  rewrite decide_False by done. by rewrite IH.
Qed.

Lemma set_properties (l : list (J * js)) : ∀ acc,
  NoDup (acc ++ l).*1 → foldl (λ l e, set_property e.1 e.2 l) acc l = acc ++ l.
Proof.
  induction l as [|[k v] l IH]; intros acc Hnd; [by rewrite app_nil_r|]. simpl.
  rewrite set_property_new.
  - rewrite IH; by rewrite <- app_assoc.
  - rewrite fmap_app in Hnd. apply NoDup_app in Hnd as (_ & Hd & _). intros Hin. apply (Hd k Hin). left.
Qed.

Lemma new_object_NoDup (l : list (J * js)) : NoDup l.*1 → ∃ own, new_object l = JObject own [] ∧ own ≡ₚ l.
Proof.
  intros Hnd. eexists. split; [done|]. rewrite own_order_permutes, set_properties by done. done.
Qed.

Lemma property_elem {A} (k : J) (v : A) (l : list (J * A)) : NoDup l.*1 → (k, v) ∈ l → property k l = Some v.
Proof.
  induction l as [|[k' v'] l IH]; intros Hnd Hin; [by apply elem_of_nil in Hin|].
  apply NoDup_cons in Hnd as [Hni Hnd]. simpl. apply elem_of_cons in Hin as [[= <- <-]|Hin]; [by rewrite decide_True|].
  rewrite decide_False; [by apply IH|]. intros ->. apply Hni. apply (list_elem_of_fmap_2' fst) with (k, v); done.
Qed.

Lemma get_property_plain own hidden (k : J) :
  get_property (plain own hidden) k = Some (default JUndefined (property k (own ++ hidden))).
Proof.
  unfold get_property, plain, slots. simpl. induction (own ++ hidden) as [|[k' v] l IH]; [done|]. simpl.
  by case_decide.
Qed.

(** ** One type at a time *)

Lemma survives_int signed bits z :
  bits ∈ [8; 16; 32; 64] → int_min signed bits <= z <= int_max signed bits →
  survives (TInt signed bits) (RInt signed bits z).
Proof.
  intros Hbits Hz. assert (0 < bits) as Hpos by (set_unfold in Hbits; lia).
  assert (∀ b, b = JNumber (int_as_f64 z) ∧ Z.abs z < 2 ^ 53 ∨ b = (JBigInt z : js) ∧ bits = 64 →
    b ≠ JUndefined ∧ null_or_undefined b = false ∧ deserialize_int signed bits b = Ret (Ok (RInt signed bits z))) as Hback.
  { intros b [[-> Hs]|[-> ->]]; (split_and!; [done..|]); unfold deserialize_int.
    - by rewrite f64_as_int_of_int.
    - rewrite (int_as_int_id signed 64 z), (int_as_int_id signed 64 z) by done. done. }
  exists (serialize_int signed bits z). split; [done|].
  destruct (Hback (serialize_int signed bits z)) as (? & ? & ?); [|done].
  unfold serialize_int, MAX_SAFE_INTEGER, MIN_SAFE_INTEGER, MAX_SAFE_INTEGER.
  destruct (bits <=? 32) eqn:Hb.
  - left. assert (Z.abs z < 2 ^ 53) as Hs.
    { unfold int_min, int_max in Hz. set_unfold in Hbits.
      destruct signed; repeat destruct Hbits as [->|Hbits]; simpl in *; lia. }
    split; [|done]. unfold int_as_f64. by rewrite to_f64_exact.
  - assert (bits = 64) as -> by (set_unfold in Hbits; lia).
    destruct signed; unfold int_min, int_max in Hz; simpl in Hz;
      match goal with |- context [if ?c then _ else _] => destruct c eqn:E end; [left|by right|left|by right];
      (split; [done|lia]).
Qed.

Lemma survives_seq t l : (∀ r, r ∈ l → survives t r) → survives (TSeq t) (RSeq l).
Proof.
  intros Hl. apply choose_list in Hl as (ps & <- & Hps). exists (new_array (map snd ps)). simpl.
  rewrite (traverse_map _ _ snd). 2: { eapply Forall_impl; [exact Hps|]. by intros ? (? & _). }
  split_and!; [done..|]. rewrite map_map, (traverse_map _ _ fst); [done|].
  eapply Forall_impl; [exact Hps|]. by intros ? (_ & _ & _ & ?).
Qed.

(** Types with their values and what they are serialized to. *)
Lemma choose_list2 {A} (P : A → rust → js → Prop) (Q : A → rust → Prop) (l : list A) : ∀ rs,
  all2 Q l rs → (∀ a r, a ∈ l → Q a r → ∃ v, P a r v) →
  ∃ ps : list (A * rust * js), map (λ p, p.1.1) ps = l ∧ map (λ p, p.1.2) ps = rs ∧
    Forall (λ p, Q p.1.1 p.1.2 ∧ P p.1.1 p.1.2 p.2) ps.
Proof.
  induction l as [|a l IH]; intros [|r rs] Hl HP; try done; [by exists []|]. destruct Hl as [Ha Hl].
  destruct (HP a r) as [v Hv]; [left|done|]. destruct (IH rs Hl) as (ps & <- & <- & Hps).
  { intros b r' Hb. apply HP. by right. }
  exists ((a, r, v) :: ps). split_and!; [done..|]. by constructor.
Qed.

Lemma read_elements_map (f : ty → js → res rust) element (ps : list (ty * rust * js)) : ∀ n,
  (∀ i p, ps !! i = Some p → ∃ v, element (n + i)%nat = Some v ∧ f p.1.1 v = Ret (Ok p.1.2)) →
  read_elements f element (map (λ p, p.1.1) ps) n = Ret (Ok (map (λ p, p.1.2) ps)).
Proof.
  induction ps as [|p ps IH]; intros n Hps; [done|]. cbn [map read_elements].
  destruct (Hps 0%nat p eq_refl) as (v & Hv & Hp). rewrite Nat.add_0_r in Hv. rewrite Hv. cbn [unwrap_read].
  rewrite (res_bind_Ok _ _ v eq_refl), (res_bind_Ok _ _ _ Hp).
  rewrite (res_bind_Ok _ _ (map (λ p, p.1.2) ps)); [done|]. apply IH. intros i q Hq.
  replace (S n + i)%nat with (n + S i)%nat by lia. by apply Hps.
Qed.

Lemma survives_tuple ts l :
  all2 typed ts l → (∀ t r, t ∈ ts → typed t r → survives t r) → survives (TTuple ts) (RTuple l).
Proof.
  intros Hl HP. destruct (choose_list2 _ _ _ _ Hl HP) as (ps & <- & <- & Hps).
  exists (new_array (map snd ps)). cbn [serialize].
  rewrite (traverse_map _ _ snd). 2: { eapply Forall_impl; [exact Hps|]. by intros ? (_ & ? & _). }
  split_and!; [done..|]. cbn [deserialize object_properties new_array array_elements].
  rewrite decide_True by (by rewrite !length_map).
  rewrite (res_bind_Ok _ _ (map (λ p, p.1.2) ps)); [done|]. apply read_elements_map.
  intros i p Hp. exists p.2. unfold get_index. cbn [array_elements new_array Nat.add]. rewrite map_map.
  change (map ?f ps) with (f <$> ps).
  rewrite list_lookup_fmap, Hp. split; [done|].
  rewrite Forall_lookup in Hps. by destruct (Hps i p Hp) as (_ & _ & _ & _ & ?).
Qed.

(** Keys of different names are different. *)
Lemma keys_NoDup {A} (name : A → text) (key : A → J) (l : list A) :
  Forall (λ a, valid_utf8 (name a) = true ∧ of_utf8 (name a) = Some (key a)) l →
  NoDup (map name l) → NoDup (map key l).
Proof.
  induction 1 as [|a l [Hv Hk] Hall IH]; intros Hnd; [constructor|]. apply NoDup_cons in Hnd as [Hni Hnd].
  apply NoDup_cons. split; [|by apply IH]. intros (b & Hb & Hin)%list_elem_of_fmap. apply Hni.
  rewrite Forall_forall in Hall. destruct (Hall b Hin) as [Hvb Hkb].
  rewrite (of_utf8_inj _ _ _ Hv Hvb Hk); [by apply list_elem_of_fmap_2|]. by rewrite Hb.
Qed.

(** The fields of a struct: name, type, value, key, serialized value. *)
Lemma choose_fields (fields : list (text * ty)) l :
  all2 (λ f x, x.1 = f.1 ∧ typed f.2 x.2) fields l → all (λ f, convertible f.1 ∧ faithful f.2) fields →
  (∀ f r, f ∈ fields → typed f.2 r → survives f.2 r) →
  ∃ ps : list ((text * ty) * rust * (J * js)),
    map (λ p, p.1.1) ps = fields ∧ map (λ p, (p.1.1.1, p.1.2)) ps = l ∧
    Forall (λ p, valid_utf8 p.1.1.1 = true ∧ of_utf8 p.1.1.1 = Some p.2.1 ∧
      serialize address_of p.1.2 = Ret (Ok p.2.2) ∧ p.2.2 ≠ JUndefined ∧
      deserialize allocate p.1.1.2 p.2.2 = Ret (Ok p.1.2)) ps.
Proof.
  revert l. induction fields as [|[f t] fields IH]; intros [|[f' r] l] Hl Hf HP; try done; [by exists []|].
  simpl in Hl, Hf. destruct Hl as [[-> Ht] Hl], Hf as [[[Hv [k Hk]] _] Hf].
  destruct (HP (f, t) r) as (v & Hs & Hu & _ & Hd); [left|done|].
  destruct (IH l Hl Hf) as (ps & <- & <- & Hps); [intros g r' Hg; apply HP; by right|].
  exists (((f, t), r, (k, v)) :: ps). split_and!; [done..|]. constructor; [done|exact Hps].
Qed.

Lemma read_fields_map o (ps : list ((text * ty) * rust * (J * js))) :
  Forall (λ p, of_utf8 p.1.1.1 = Some p.2.1 ∧ get_property o p.2.1 = Some p.2.2 ∧ p.2.2 ≠ JUndefined ∧
    deserialize allocate p.1.1.2 p.2.2 = Ret (Ok p.1.2)) ps →
  read_fields (deserialize allocate) o (map (λ p, p.1.1) ps) =
    Ret (Ok (map (λ p, (p.1.1.1, is_option p.1.1.2, Some p.1.2)) ps)).
Proof.
  induction 1 as [|[[[f t] r] [k v]] ps (Hk & Hp & Hu & Hd) _ IH]; [done|]. simpl in Hk, Hp, Hu, Hd.
  cbn [map read_fields fst snd]. rewrite (res_bind_Ok _ _ k) by (unfold v8_struct_key; by rewrite Hk).
  rewrite Hp. cbn [unwrap_read]. rewrite (res_bind_Ok _ _ v eq_refl), (res_bind_Ok _ _ (Some r)).
  - by rewrite (res_bind_Ok _ _ _ IH).
  - destruct v; simpl; try done; by rewrite Hd.
Qed.

Lemma missing_fields_map (ps : list ((text * ty) * rust * (J * js))) :
  missing_fields (map (λ p, (p.1.1.1, is_option p.1.1.2, Some p.1.2)) ps) =
    Ret (Ok (map (λ p, (p.1.1.1, p.1.2)) ps)).
Proof. induction ps as [|p ps IH]; [done|]. simpl. by rewrite (res_bind_Ok _ _ _ IH). Qed.

Lemma survives_struct name fields l :
  faithful (TStruct name fields) → all2 (λ f x, x.1 = f.1 ∧ typed f.2 x.2) fields l →
  (∀ f r, f ∈ fields → typed f.2 r → survives f.2 r) → survives (TStruct name fields) (RStruct name l).
Proof.
  intros (Hname & Hkind & Hnd & Hf) Hl HP.
  destruct (choose_fields _ _ Hl Hf HP) as (ps & <- & <- & Hps).
  assert (NoDup (map (λ p, p.2.1) ps)) as Hkeys.
  { apply (keys_NoDup (λ p, p.1.1.1)); [eapply Forall_impl; [exact Hps|]; by intros ? (? & ? & _)|].
    rewrite <- list_fmap_compose in Hnd. exact Hnd. }
  destruct (new_object_NoDup (map snd ps)) as (own & Hown & Hperm).
  { rewrite <- list_fmap_compose. exact Hkeys. }
  exists (JObject own []). split_and!; [|done..|].
  - cbn [serialize]. rewrite decide_False by done.
    rewrite (res_bind_Ok _ _ (map snd ps)); [by rewrite Hown|].
    apply (traverse_map _ (λ p, (p.1.1.1, p.1.2)) snd). eapply Forall_impl; [exact Hps|].
    intros [[[f t] r] [k v]] (_ & Hk & Hs & _). simpl in *. rewrite Hs. simpl. unfold v8_struct_key. by rewrite Hk.
  - cbn [deserialize]. rewrite Hkind. cbn [object_properties].
    assert (read_fields (deserialize allocate) (plain own []) (map (λ p, p.1.1) ps) =
      Ret (Ok (map (λ p, (p.1.1.1, is_option p.1.1.2, Some p.1.2)) ps))) as Hread.
    { apply read_fields_map. apply Forall_forall. intros p Hp. rewrite Forall_forall in Hps.
      destruct (Hps p Hp) as (_ & Hk & _ & Hu & Hd). split_and!; [done| |done..].
      rewrite get_property_plain, app_nil_r, (property_elem _ p.2.2); [done|by rewrite Hperm, <- list_fmap_compose|].
      rewrite Hperm, <- surjective_pairing. by apply list_elem_of_fmap_2. }
    destruct (map (λ p, p.1.1) ps) eqn:Hfs.
    + apply map_eq_nil in Hfs as ->. by apply Permutation_nil_r in Hperm as ->.
    + rewrite (res_bind_Ok _ _ _ Hread). by rewrite (res_bind_Ok _ _ _ (missing_fields_map ps)).
Qed.

(** The entries of a map: name, value, key, serialized value. *)
Lemma survives_map t (entries : list (text * rust)) :
  StronglySorted key_lt entries → all (λ e, convertible e.1 ∧ typed t e.2) entries →
  (∀ r, typed t r → survives t r) → survives (TMap t) (RMap (map (λ e, (RString e.1, e.2)) entries)).
Proof.
  intros Hsort Hall HP.
  assert (∃ ps : list ((text * rust) * (J * js)), map fst ps = entries ∧
    Forall (λ p, valid_utf8 p.1.1 = true ∧ of_utf8 p.1.1 = Some p.2.1 ∧ serialize address_of p.1.2 = Ret (Ok p.2.2) ∧
      p.2.2 ≠ JUndefined ∧ deserialize allocate t p.2.2 = Ret (Ok p.1.2)) ps) as (ps & <- & Hps).
  { apply (choose_list (λ (e : text * rust) (b : J * js), valid_utf8 e.1 = true ∧ of_utf8 e.1 = Some b.1 ∧
      serialize address_of e.2 = Ret (Ok b.2) ∧ b.2 ≠ JUndefined ∧ deserialize allocate t b.2 = Ret (Ok e.2))).
    intros e He. destruct (all_elem _ _ _ Hall He) as [[Hv [k Hk]] Ht].
    destruct (HP e.2 Ht) as (v & Hs & Hu & _ & Hd). by exists (k, v). }
  assert (NoDup (map (λ p, p.2.1) ps)) as Hkeys.
  { apply (keys_NoDup (λ p, p.1.1)); [eapply Forall_impl; [exact Hps|]; by intros ? (? & ? & _)|].
    clear -Hsort. induction ps as [|p ps IH]; [constructor|]. cbn [map] in Hsort |- *.
    apply StronglySorted_inv in Hsort as [Hsort Hlt]. apply NoDup_cons. split; [|by apply IH].
    intros (q & Hq & Hin)%list_elem_of_fmap. rewrite Forall_forall in Hlt.
    specialize (Hlt q.1 (list_elem_of_fmap_2 fst ps q Hin)). unfold key_lt in Hlt. rewrite Hq in Hlt. by apply text_lt_irrefl in Hlt. }
  destruct (new_object_NoDup (map snd ps)) as (own & Hown & Hperm).
  { rewrite <- list_fmap_compose. exact Hkeys. }
  exists (JObject own []). split_and!; [|done..|].
  - cbn [serialize]. rewrite map_map.
    rewrite (res_bind_Ok _ _ (map (λ p, (Some p.2.1, p.2.2)) ps)).
    + rewrite (omap_map _ _ snd); [by rewrite Hown|]. by intros [? []].
    + apply (traverse_map _ (λ p : (text * rust) * (J * js), (RString p.1.1, p.1.2))).
      eapply Forall_impl; [exact Hps|]. intros [[f r] [k v]] (_ & Hk & Hs & _). simpl in *.
      unfold serialize_str. rewrite Hk. simpl. by rewrite Hs.
  - apply Permutation_map_inv in Hperm as (ps' & -> & Hperm). cbn [deserialize object_properties].
    rewrite Hperm in Hps. rewrite (res_bind_Ok _ _ (map fst ps')).
    + unfold btree. by rewrite (btree_sorted (map fst ps)) by (done || by rewrite Hperm).
    + unfold object_entries, plain, slots. simpl. rewrite map_map. rewrite (res_bind_Ok _ _ (map (λ p, Some p.1) ps')).
      * by rewrite (omap_map _ _ fst).
      * apply (traverse_map _ (λ p, (p.2.1, Some p.2.2))). eapply Forall_impl; [exact Hps|].
        intros [[f r] [k v]] (Hv & Hk & _ & Hu & Hd). simpl in *. rewrite (to_utf8_of f k) by done.
        destruct v; simpl; try done; by rewrite Hd.
Qed.

Lemma read_variant_elem (f : ty → js → res rust) variant o payload variants :
  NoDup variants.*1 → (variant, o) ∈ variants →
  read_variant f variant payload variants =
    match o with
    | None => mret (RUnitVariant variant)
    | Some t => r ← f t payload; mret (RVariant variant r)
    end.
Proof.
  induction variants as [|[n o'] variants IH]; intros Hnd Hin; [by apply elem_of_nil in Hin|].
  apply NoDup_cons in Hnd as [Hni Hnd]. cbn [read_variant].
  apply elem_of_cons in Hin as [[= <- <-]|Hin]; [by rewrite decide_True|]. rewrite decide_False; [by apply IH|].
  intros ->. apply Hni. by apply (list_elem_of_fmap_2 fst _ (variant, o)).
Qed.

Lemma survives_enum variants r :
  faithful (TEnum variants) → typed (TEnum variants) r →
  (∀ n t r, (n, Some t) ∈ variants → typed t r → survives t r) → survives (TEnum variants) r.
Proof.
  intros [Hnd Hall] Ht HP. destruct r; try done.
  - simpl in Ht. destruct (all_elem _ _ _ Hall Ht) as ([Hv [k Hk]] & _). simpl in Hv, Hk.
    exists (JString k). cbn [serialize deserialize enum_parts]. unfold v8_struct_key. rewrite Hk. split_and!; [done..|].
    simpl. rewrite (to_utf8_of variant k) by done. by rewrite (read_variant_elem _ _ None).
  - assert (∃ t, (variant, Some t) ∈ variants ∧ typed t r) as (t & Hin & Htr).
    { apply any_elem in Ht as ([n [t|]] & Hin & Ht); [|done]. destruct Ht as [<- Ht]. by exists t. }
    destruct (all_elem _ _ _ Hall Hin) as ([Hv [k Hk]] & Hm & Hi & _). simpl in Hv, Hk, Hm, Hi.
    destruct (HP _ _ _ Hin Htr) as (v & Hs & Hu & _ & Hd).
    destruct (new_object_NoDup [(k, v)]) as (own & Hown & Hperm); [apply NoDup_singleton|].
    apply Permutation_singleton_r in Hperm as ->.
    exists (JObject [(k, v)] []). split_and!; [|done..|].
    + cbn [serialize]. rewrite (res_bind_Ok _ _ v).
      * unfold variant_object, v8_struct_key. rewrite Hk. by rewrite <- Hown.
      * destruct r as [| | | | | | | | | | | |[|? ?] ?| | |]; first [exact Hs|by rewrite decide_False].
    + cbn [deserialize]. simpl. rewrite (Hi k Hk). simpl.
      rewrite (to_utf8_of variant k) by done. rewrite (read_variant_elem _ _ (Some t)) by done. by rewrite Hd.
Qed.

Lemma survives_magic k m :
  k ∈ serialized_kinds → k ∈ deserialized_kinds → kind_of m = k → magic_typed m → survives (TMagic k) (RMagic m).
Proof.
  intros Hs Hd <- Hm. unfold survives. cbn [serialize deserialize]. rewrite !decide_True by done. clear Hs Hd.
  destruct m as [|bytes|units|bytes|a|bytes|z|bytes|bytes|v|v]; try done; simpl in Hm.
  - destruct Hm as [s Hs]. exists (JString s). simpl. rewrite Hs. split_and!; [done..|].
    by rewrite (of_one_byte_read _ _ Hs).
  - destruct Hm as [s Hs]. exists (JString s). simpl. rewrite Hs. split_and!; [done..|].
    simpl. by rewrite (of_two_byte_read _ _ Hs).
  - destruct a as [| |s|n|z|b]; try done; simpl in Hm.
    + destruct Hm as [Hv [k Hk]]. exists (JString k). simpl. unfold serialize_str. rewrite Hk. split_and!; [done..|].
      simpl. by rewrite (to_utf8_of s k).
    + by exists (JNumber n).
    + exists (JBigInt z). simpl. unfold bigint_to_v8. by rewrite Hm.
    + by exists (JBool b).
  - by exists (slice_to_uint8array bytes).
  - exists (JBigInt z). simpl. unfold bigint_to_v8. by rewrite Hm.
  - by exists v.
  - by exists v.
Qed.

(** C32. Round trip.  Every value of a faithful type is serialized without an error or a
    panic, and what it is serialized to is deserialized to the same value: numbers of every
    width, strings, bytes, options, sequences, tuples, maps, structs and enums of any
    nesting, and the magic types that go both ways.  It does not matter in which order V8
    lists properties. *)
Theorem serde_roundtrip t r :
  faithful t → typed t r →
  ∃ v, serialize address_of r = Ret (Ok v) ∧ deserialize allocate t v = Ret (Ok r).
Proof.
  intros Hf Ht. cut (survives t r); [intros (v & ? & _ & _ & ?); by exists v|]. revert r Hf Ht.
  revert t. apply (ty_nested_ind (λ t, ∀ r, faithful t → typed t r → survives t r)).
  - intros t. destruct t; try done; intros r Hf Ht; destruct r; try done; simpl in Hf, Ht.
    + by exists (JBool b).
    + destruct Ht as (-> & -> & Hz). by apply survives_int.
    + by exists (JNumber n).
    + destruct Ht as [Hv [k Hk]]. exists (JString k). simpl. unfold serialize_str. rewrite Hk. split_and!; [done..|].
      simpl. by rewrite (to_utf8_of s k).
    + by exists (slice_to_uint8array s).
    + by exists JNull.
    + destruct Hf, Ht. by apply survives_magic.
  - intros t IH r Hf Ht. destruct r as [| | | | | | |r| | | | | | | |]; try done; simpl in Hf, Ht; [by exists JNull|].
    destruct Hf as [Hn Hf]. destruct (IH r Hf Ht) as (v & Hs & Hu & Hnull & Hd). exists v. split_and!; [done..|].
    cbn [deserialize]. rewrite (Hnull Hn). by rewrite Hd.
  - intros t IH r Hf Ht. destruct r as [| | | | | | | |r| | | | | | |]; try done.
    destruct (IH r Hf Ht) as (v & Hs & Hu & Hnull & Hd). exists v. split_and!; [done..|]. cbn [deserialize]. by rewrite Hd.
  - intros t IH r Hf Ht. destruct r; try done. apply survives_seq. intros r Hr. apply IH; [done|]. by eapply all_elem.
  - intros ts IH r Hf Ht. destruct r; try done. apply survives_tuple; [done|]. intros t r Hin Htr.
    apply (all_elem _ _ _ IH Hin); [|done]. by apply (all_elem _ _ _ Hf Hin).
  - intros t IH r Hf Ht. destruct r; try done. destruct Ht as (entries & -> & Hsort & Hall).
    apply survives_map; [done..|]. intros r Hr. by apply IH.
  - intros name fields IH r Hf Ht. destruct r; try done. destruct Ht as [-> Hl].
    apply survives_struct; [done..|]. intros f r Hin Htr.
    apply (all_elem _ _ _ IH Hin); [|done]. destruct Hf as (_ & _ & _ & Hf). by destruct (all_elem _ _ _ Hf Hin).
  - intros variants IH r Hf Ht. apply survives_enum; [done..|]. intros n t r' Hin Htr. destruct Hf as [_ Hf].
    apply (all_elem _ _ _ IH Hin); [|done]. by destruct (all_elem _ _ _ Hf Hin) as (_ & _ & _ & ?).
Qed.
End roundtrip.

(** * Panics *)

Section panics.
Context `{V8Strings J} (allocate : nat → nat).
Abbreviation js := (js J).
Implicit Types (v : js) (t : ty).

Definition fine {A} (m : res A) : Prop := ∀ f, m ≠ Panic f.

Lemma fine_ret {A} (r : result A Error) : fine (Ret r).
Proof. done. Qed.
Lemma fine_bind {A B} (m : res A) (k : A → res B) : fine m → (∀ a, fine (k a)) → fine (m ≫= k).
Proof. intros Hm Hk. destruct m as [[a|e]|f]; [apply Hk|done|by destruct (Hm f)]. Qed.
Lemma fine_traverse {A B} (f : A → res B) l : all (λ a, fine (f a)) l → fine (traverse f l).
Proof.
  induction l as [|a l IH]; [done|]. intros [Ha Hl]. apply fine_bind; [done|]. intros b.
  apply fine_bind; [by apply IH|done].
Qed.

Lemma all_impl {A} (P Q : A → Prop) l : all P l → (∀ a, P a → Q a) → all Q l.
Proof. intros Hl HPQ. induction l as [|a l IH]; [done|]. destruct Hl. split; auto. Qed.
Lemma all_app {A} (P : A → Prop) l k : all P (l ++ k) ↔ all P l ∧ all P k.
Proof. induction l as [|a l IH]; simpl; [tauto|]. rewrite IH. tauto. Qed.

(** No read throws, and if [symbols] is [false] no symbol is a property or an element. *)
Definition reads_fine (P : js → Prop) (read : option js) : Prop := match read with Some v => P v | None => False end.
Fixpoint calm (symbols : bool) v : Prop :=
  match v with
  | JSymbol => symbols = true
  | JObject own hidden | JBuffer _ _ _ _ _ own hidden =>
      all (λ e, calm symbols e.2) own ∧ all (λ e, calm symbols e.2) hidden
  | JStringObject s own hidden =>
      is_Some s ∧ all (λ e, calm symbols e.2) own ∧ all (λ e, calm symbols e.2) hidden
  | JArray elements own hidden =>
      all (calm symbols) elements ∧ all (λ e, calm symbols e.2) own ∧ all (λ e, calm symbols e.2) hidden
  | JMap pairs own hidden =>
      all (λ e, calm symbols e.1 ∧ calm symbols e.2) pairs ∧
      all (λ e, calm symbols e.2) own ∧ all (λ e, calm symbols e.2) hidden
  | JExotic elements names others otherwise =>
      match elements with Some l => all (reads_fine (calm symbols)) l | None => True end ∧
      match names with Some l => all (λ e, reads_fine (calm symbols) e.2) l | None => True end ∧
      all (λ e, reads_fine (calm symbols) e.2) others ∧ reads_fine (calm symbols) otherwise
  | _ => True
  end.

(** The type allows any value nowhere. *)
Fixpoint any_free t : Prop :=
  match t with
  | TAny => False
  | TOption t | TNewtype t | TSeq t | TMap t => any_free t
  | TTuple ts => all any_free ts
  | TStruct _ fields => all (λ f, any_free f.2) fields
  | TEnum variants => all (λ x, match x.2 with Some t => any_free t | None => True end) variants
  | _ => True
  end.

(** No name of a field is too long for V8. *)
Fixpoint names_fit t : Prop :=
  match t with
  | TOption t | TNewtype t | TSeq t | TMap t => names_fit t
  | TTuple ts => all names_fit ts
  | TStruct _ fields => all (λ f, is_Some (of_utf8 f.1) ∧ names_fit f.2) fields
  | TEnum variants => all (λ x, match x.2 with Some t => names_fit t | None => True end) variants
  | _ => True
  end.

Lemma slice_fine v : fine (slice_from_v8 v).
Proof. destruct v; try done. simpl. destruct (_ && _), resizable, shared; done. Qed.
Lemma string_fine b v : calm b v → fine (deserialize_string allocate v).
Proof. destruct v; try done. intros [[? ->] _]. done. Qed.

Lemma from_v8_fine b k v : calm b v → k ∈ deserialized_kinds → fine (from_v8 allocate k v).
Proof.
  intros Hv Hk. destruct k; try done; simpl.
  - by destruct v.
  - destruct v; try done. by destruct (one_byte s).
  - by destruct v.
  - unfold deserialized_kinds in Hk. set_unfold in Hk. intuition discriminate.
  - apply fine_bind; [|done]. destruct v as [| | | | | | | | | | | |[] ? ? ? ? ? ?|]; try done.
    apply fine_bind; [apply slice_fine|done].
  - apply fine_bind; [|done]. destruct v; try done. simpl. destruct (_ && _); [done|]. by destruct detachable.
  - apply fine_bind; [|done]. by destruct v.
  - apply fine_bind; [apply slice_fine|done].
  - pose proof (string_fine b v Hv) as Hs.
    destruct (slice_from_v8 v) as [[]|]; [done|..];
      destruct (deserialize_string allocate v) as [[]|x]; try done; by destruct (Hs x).
Qed.

(** What an object gives is fine. *)
Definition calm_object b (o : object) : Prop :=
  match own_entries o with Some l => all (λ e, reads_fine (calm b) e.2) l | None => True end ∧
  all (λ e, reads_fine (calm b) e.2) (readable o) ∧ reads_fine (calm b) (rest o).

Lemma all_slots b (l : list (J * js)) : all (λ e, calm b e.2) l → all (λ e, reads_fine (calm b) e.2) (slots l).
Proof. unfold slots. induction l as [|e l IH]; [done|]. intros [? ?]. split; [done|by apply IH]. Qed.

Lemma plain_calm b own hidden :
  all (λ e, calm b e.2) own → all (λ e, calm b e.2) hidden → calm_object b (plain own hidden).
Proof. intros Ho Hh. split_and!; simpl; [by apply all_slots| |done]. apply all_slots. by apply all_app. Qed.

Lemma index_entries_all {A} (P : A → Prop) i elements :
  all P elements → all (λ e : J * A, P e.2) (index_entries i elements).
Proof. revert i. induction elements as [|v elements IH]; intros i; [done|]. intros [Hv He]. split; [done|by apply IH]. Qed.

Lemma object_properties_calm b v o : calm b v → object_properties v = Some o → calm_object b o.
Proof.
  intros Hv Ho. destruct v; simplify_eq/=; try done; try (by apply plain_calm);
    repeat match goal with H : _ ∧ _ |- _ => destruct H end; try (apply plain_calm; [|done]; rewrite ?all_app; auto using index_entries_all).
  assert (all (λ e, reads_fine (calm b) e.2) (index_entries 0 (default [] elements))) as Hi
    by (apply index_entries_all; by destruct elements).
  split_and!; simpl; [|rewrite !all_app; split_and!; try done; by destruct names|done].
  destruct names; [|done]. simpl. by apply all_app.
Qed.

Lemma unwrap_fine (P : js → Prop) r : reads_fine P r → fine (unwrap_read r).
Proof. by destruct r. Qed.

(** Reading and going on. *)
Lemma read_bind {A} b (r : option js) (k : js → res A) :
  reads_fine (calm b) r → (∀ v, calm b v → fine (k v)) → fine (v ← unwrap_read r; k v).
Proof. intros Hr Hk. destruct r as [v|]; [by apply Hk|done]. Qed.

Lemma object_entry_fine b f k r :
  reads_fine (calm b) r → (∀ v, r = Some v → fine (f v)) → fine (object_entry allocate f k r).
Proof.
  intros Hr Hf. destruct r as [v|]; [|done]. specialize (Hf v eq_refl).
  destruct v; try done; (apply fine_bind; [done|]; intros ?; apply fine_bind; [exact Hf|done]).
Qed.
Lemma object_entries_fine b (f : js → res (rust J)) own :
  all (λ e, reads_fine (calm b) e.2) own → (∀ v, calm b v → fine (f v)) → fine (object_entries allocate f own).
Proof.
  intros Hown Hf. apply fine_bind; [|done]. apply fine_traverse. eapply all_impl; [exact Hown|].
  intros [k r] Hr. eapply object_entry_fine; [exact Hr|]. simpl in *. intros v ->. by apply Hf.
Qed.
Lemma pair_entries_fine b (f : js → res (rust J)) pairs :
  all (λ e, calm b e.1 ∧ fine (f e.2)) pairs → fine (pair_entries allocate f pairs).
Proof.
  intros Hp. apply fine_traverse. eapply all_impl; [exact Hp|]. intros [k v] [Hk Hv].
  apply fine_bind; [by eapply string_fine|]. intros s. apply fine_bind; [exact Hv|done].
Qed.

Lemma any_fine : ∀ v, calm false v → fine (deserialize_any allocate v).
Proof.
  fix rec 1. intros v Hv.
  assert (∀ own : list (J * js), all (λ e, calm false e.2) own → fine (plain_entries allocate (deserialize_any allocate) own)) as Hown.
  { clear Hv v. intros own Ho. apply fine_bind; [|done]. apply fine_traverse.
    induction own as [|[k v] own IH]; [done|]. destruct Ho as [Hv Ho]. split; [|by apply IH].
    apply (object_entry_fine false); [exact Hv|]. intros v' [= <-]. by apply rec. }
  destruct v as [| |x|n|z|s| |p|own hidden|elements own hidden|pairs own hidden|s own hidden|view sh re de bytes own hidden
                |elements names others otherwise];
    try (clear rec; done).
  - clear rec. cbn [deserialize_any]. repeat match goal with |- context [integral ?n ?lo ?hi] => destruct (integral n lo hi) end; done.
  - clear rec. destruct Hv as [Ho _]. apply fine_bind; [|done]. by apply Hown.
  - destruct Hv as [He _]. apply fine_bind; [|done]. apply fine_traverse. clear Hown.
    induction elements as [|v elements IH]; [done|]. destruct He as [Hv He]. split; [by apply rec|by apply IH].
  - destruct Hv as [Hp _]. apply fine_bind; [|done]. apply (pair_entries_fine false). clear Hown.
    induction pairs as [|[k v] pairs IH]; [done|]. destruct Hp as [[Hk Hv] Hp]. split; [split; [done|by apply rec]|by apply IH].
  - clear rec. destruct Hv as (_ & Ho & _). apply fine_bind; [|done]. by apply Hown.
  - clear rec. destruct Hv as [Ho _]. cbn [deserialize_any]. destruct (negb view && sh).
    + apply fine_bind; [|done]. by apply Hown.
    + apply fine_bind; [apply slice_fine|done].
  - clear Hown. destruct Hv as (He & Hn & _). cbn [deserialize_any]. destruct elements as [elements|].
    + apply fine_bind; [|done]. apply fine_traverse. clear Hn.
      induction elements as [|[v|] elements IH]; [done| |by destruct He]. destruct He as [Hv He]. split; [by apply rec|by apply IH].
    + destruct names as [names|]; [|done]. apply fine_bind; [|done]. apply fine_bind; [|done]. apply fine_traverse. clear He.
      induction names as [|[k [v|]] names IH]; [done| |by destruct Hn]. destruct Hn as [Hv Hn]. split; [|by apply IH].
      apply (object_entry_fine false); [exact Hv|]. intros v' [= <-]. by apply rec.
Qed.

Lemma get_property_calm b o k : calm_object b o → reads_fine (calm b) (get_property o k).
Proof.
  intros (_ & Hr & Ho). unfold get_property. induction (readable o) as [|[k' v] l IH]; [done|]. destruct Hr as [Hv Hl]. simpl.
  case_decide; [done|by apply IH].
Qed.

Lemma array_elements_calm b v l : calm b v → array_elements v = Some l → all (reads_fine (calm b)) l.
Proof.
  intros Hv Hl. destruct v; simplify_eq/=; destruct Hv as [He _]; [|done].
  induction elements as [|v elements IH]; [done|]. destruct He as [Hv He]. split; [done|by apply IH].
Qed.

Lemma get_index_calm b v o i :
  calm b v → object_properties v = Some o → reads_fine (calm b) (get_index v o i).
Proof.
  intros Hv Ho. pose proof (object_properties_calm _ _ _ Hv Ho) as Hc. unfold get_index.
  destruct (array_elements v) as [l|] eqn:Hl; [|by apply get_property_calm].
  pose proof (array_elements_calm _ _ _ Hv Hl) as Hall. destruct (l !! i) as [r|] eqn:Hi; simpl; [|apply Hc].
  apply (all_elem _ _ _ Hall). by eapply list_elem_of_lookup_2.
Qed.

Lemma enum_parts_calm b v : calm b v → fine (enum_parts v) ∧
  ∀ tag payload, enum_parts v = Ret (Ok (tag, payload)) → calm b tag ∧ calm b payload.
Proof.
  intros Hv.
  assert (∀ (o : option object), object_properties v = o → enum_parts v = match o with
      | None => err ExpectedEnum
      | Some o => match own_entries o with
                  | None => err ExpectedEnum
                  | Some [(k, payload)] =>
                      payload ← unwrap_read payload; mret (if is_index k then JNumber (Finite 0 0) else JString k, payload)
                  | Some own => err (LengthMismatch (length own) 1)
                  end
      end → fine (enum_parts v) ∧ ∀ tag payload, enum_parts v = Ret (Ok (tag, payload)) → calm b tag ∧ calm b payload) as Hcase.
  { intros [o|] Ho ->; [|done]. destruct (object_properties_calm _ _ _ Hv Ho) as [Hown _].
    destruct (own_entries o) as [[|[k [w|]] [|]]|]; try done; [|by destruct Hown]. split; [done|]. intros tag payload [= <- <-].
    destruct Hown as [Hw _]. split; [by destruct (is_index k)|exact Hw]. }
  destruct v; try (by eapply Hcase); (split; [done|]; intros ? ? [= <- <-]; done).
Qed.

Lemma missing_fields_fine fields : fine (missing_fields (J := J) fields).
Proof.
  induction fields as [|[[f o] r] fields IH]; [done|]. apply fine_bind; [by destruct r, o|]. intros x.
  by apply fine_bind.
Qed.

End panics.

(** * Examples *)

(** Strings are their bytes, up to a length; digits come first. *)
Definition all_digits (s : text) : bool := forallb (λ c, bool_decide (is_Some (digit_value c))) s.
Definition demo_strings : V8Strings text := {|
  js_string_eq := _;
  of_utf8 s := if decide (length s < 100)%nat then Some s else None;
  characters s := map (λ c, (1%nat, [c])) s;
  of_one_byte s := Some s;
  one_byte s := Some s;
  of_two_byte l := if forallb (λ u, (0 <=? u) && (u <? 256)) l then Some (map (λ u, ascii_of_N (Z.to_N u)) l) else None;
  two_byte s := map code s;
  own_order A l := filter (λ e, all_digits e.1 = true) l ++ filter (λ e, ¬ all_digits e.1 = true) l;
  is_index := all_digits;
  bigint_fits _ := true;
  index_key i := show_i64 (Z.of_nat i)
|}.

Lemma demo_laws : @V8StringLaws text demo_strings.
Proof.
  split; simpl.
  - intros s j _ Hj. assert (s = j) as -> by (by case_decide; simplify_eq). clear. induction j as [|c j IH]; [done|]. simpl. f_equal. apply IH.
  - by intros s j [= <-].
  - intros j. induction j; constructor; [simpl; lia|done].
  - intros l j. destruct (forallb _ l) eqn:E; [|done]. intros [= <-]. rewrite map_map.
    rewrite forallb_forall in E. rewrite <- (map_id l) at 2. apply map_ext_in. intros u Hu%E.
    unfold code. rewrite N_ascii_embedding; lia.
  - intros A l. apply filter_app_complement.
Qed.

(** A struct with numbers, an option, a list of tuples, a map and an enum. *)
Definition demo_type : ty :=
  TStruct ($ "Config")
    [($ "id", TInt false 64); ($ "delta", TInt true 8); ($ "name", TOption TString);
     ($ "pairs", TSeq (TTuple [TBool; TFloat])); ($ "tags", TMap (TInt false 16));
     ($ "kind", TEnum [($ "Plain", None); ($ "Sized", Some (TStruct [] [($ "size", TInt true 64)]))])].
Definition demo_value : rust text :=
  RStruct ($ "Config")
    [($ "id", RInt false 64 (2 ^ 63)); ($ "delta", RInt true 8 (-5)); ($ "name", RNone);
     ($ "pairs", RSeq [RTuple [RBool true; RFloat (Finite 3 1)]]);
     ($ "tags", RMap [(RString ($ "12"), RInt false 16 1); (RString ($ "7"), RInt false 16 2); (RString ($ "b"), RInt false 16 3)]);
     ($ "kind", RVariant ($ "Sized") (RStruct [] [($ "size", RInt true 64 (-1))]))].

Lemma serde_roundtrip_witness :
  ∃ v, serialize (H := demo_strings) (λ _, 0) demo_value = Ret (Ok v) ∧
    deserialize (H := demo_strings) (λ n, n) demo_type v = Ret (Ok demo_value).
Proof.
  refine (serde_roundtrip (H := demo_strings) (H0 := demo_laws) (λ _, 0) (λ n, n) demo_type demo_value _ _).
  - assert (∀ s, valid_utf8 s = true → (length s < 100)%nat → convertible (H := demo_strings) s) as Hc.
    { intros s Hv Hs. split; [exact Hv|]. simpl. rewrite decide_True by exact Hs. eexists. reflexivity. }
    assert (∀ bits, bits = 8 ∨ bits = 16 ∨ bits = 32 ∨ bits = 64 → bits ∈ [8; 16; 32; 64]) as Hb.
    { intros bits Hbits. set_unfold. tauto. }
    cbn -[convertible valid_utf8 MAGIC_NAME serialized_kinds demo_strings MAGIC_FIELD].
    repeat match goal with
           | |- _ ∧ _ => split
           | |- convertible _ => apply Hc; [reflexivity|simpl; lia]
           | |- _ ∈ [8; 16; 32; 64] => apply Hb; tauto
           | |- True => exact I
           | |- NoDup _ => apply (bool_decide_unpack _); vm_compute; exact I
           | |- _ ∉ _ => apply (bool_decide_unpack _); vm_compute; exact I
           | |- ∀ k, _ → is_index k = false => simpl; intros k Hk; injection Hk as <-; reflexivity
           | |- _ = _ => vm_compute; reflexivity
           end.
  - assert (∀ s, valid_utf8 s = true → (length s < 100)%nat → convertible (H := demo_strings) s) as Hc.
    { intros s Hv Hs. split; [exact Hv|]. simpl. rewrite decide_True by exact Hs. eexists. reflexivity. }
    simpl. split_and!; try done; try lia.
    + exists [($ "12", RInt false 16 1); ($ "7", RInt false 16 2); ($ "b", RInt false 16 3)].
      split; [reflexivity|]. split; [repeat constructor|]. simpl.
      split_and!; try done; try lia; apply Hc; (reflexivity || simpl; lia).
    + right. left. split_and!; done || lia.
Defined.


(** * What the code does not do *)

#[local] Existing Instance demo_strings.
Definition ser (r : rust text) : res (js text) := serialize (λ _, 4096) r.
Definition de (t : ty) (v : js text) : res (rust text) := deserialize (λ n, n) t v.

(** A [JsBuffer] is serialized to an object with its address.  An [ExternalPointer] cannot be
    deserialized, although its [from_v8] exists.  A buffer in an [AnyValue] panics on its way
    back.  A symbol panics where any value is allowed.  A number saturates where the same
    big integer wraps; big integers are rounded twice.  A variant with the name of an index
    does not come back.  [Some(())] comes back as [None]. *)
Lemma serde_gaps :
  ser (RMagic (MJsBuffer ($ "data"))) = Ret (Ok (JObject [(MAGIC_FIELD, JNumber (Finite 4096 0))] [])) ∧
  (ser (RMagic (MExternalPointer 8)) = Ret (Ok (JExternal 8)) ∧
   from_v8 (λ n, n) ExternalPointer (JExternal 8 : js text) = Ret (Ok (MExternalPointer 8)) ∧
   de (TMagic ExternalPointer) (JExternal 8) = Ret (Err (Serde InvalidType))) ∧
  (de (TMagic KAnyValue) (slice_to_uint8array ($ "x")) = Ret (Ok (RMagic (MAnyValue (V8Buffer ($ "x"))))) ∧
   ser (RMagic (MAnyValue (V8Buffer ($ "x")))) = Panic Unreachable) ∧
  de TAny (JArray [JSymbol] [] []) = Panic Unwrap ∧
  (de (TInt false 8) (JNumber (Finite 300 0)) = Ret (Ok (RInt false 8 255)) ∧
   de (TInt false 8) (JBigInt 300) = Ret (Ok (RInt false 8 44))) ∧
  (let z := (2 ^ 53 + 1) * 2 ^ 64 + 1 in bigint_to_f64 z = Finite (2 ^ 117) 0 ∧ to_f64 z = 2 ^ 117 + 2 ^ 65) ∧
  (ser (RVariant ($ "1") (RBool true)) = Ret (Ok (JObject [($ "1", JBool true)] [])) ∧
   de (TEnum [($ "1", Some TBool)]) (JObject [($ "1", JBool true)] []) = Ret (Err ExpectedString)) ∧
  (ser (RSome RUnit) = Ret (Ok JNull) ∧ de (TOption TUnit) JNull = Ret (Ok RNone)).
Proof. vm_compute. split_and!; reflexivity. Qed.

(** Reads that throw panic: of a field, of an element of an array or a tuple, of an entry of a
    map, of the payload of a variant, of any value, of a string.  An enum that cannot be asked
    for its names is an error; a map that cannot is empty. *)
Definition throwing (k : string) : js text := JExotic None (Some [($ k, None)]) [] (Some JUndefined).
Definition nameless : js text := JExotic None None [] None.
Lemma throwing_reads_panic :
  de (TStruct ($ "S") [($ "a", TBool)]) (throwing "a") = Panic Unwrap ∧
  de (TStruct ($ "S") []) (throwing "a") = Panic Unwrap ∧
  de (TSeq TBool) (JExotic (Some [Some JNull; None]) (Some []) [] (Some JUndefined)) = Panic Unwrap ∧
  de (TTuple [TBool]) nameless = Panic Unwrap ∧
  de (TMap TBool) (throwing "a") = Panic Unwrap ∧
  de (TEnum [($ "a", Some TBool)]) (throwing "a") = Panic Unwrap ∧
  de TAny (JArray [throwing "a"] [] []) = Panic Unwrap ∧
  de TString (JStringObject None [] []) = Panic Unwrap ∧
  de (TEnum [($ "a", Some TBool)]) nameless = Ret (Err ExpectedEnum) ∧
  de (TMap TBool) nameless = Ret (Ok (RMap [])).
Proof. vm_compute. split_and!; reflexivity. Qed.
