(* ===== verification/OpValues.v ===== *)
(** [core/runtime/ops.rs]: the arguments of ops, from V8 values to Rust.

    JavaScript values are trees, but array buffers live in a heap: views of them share
    their bytes, and a buffer can be detached.  Strings of V8 are the parameter
    [V8Strings] of [SerdeV8]; the driver of async ops is that of [OpDriver]. *)

From S2P Require Import Prelude Buffers OpDriver RustStr Numbers SerdeV8.

Local Open Scope Z_scope.

(** * Values *)

Inductive ViewKind :=
  | Int8 | Uint8 | Int16 | Uint16 | Int32 | Uint32 | BigInt64 | BigUint64
  | Uint8Clamped | Float32 | Float64 | DataView.
Global Instance ViewKind_eq_dec : EqDecision ViewKind.
Proof. solve_decision. Defined.

(** A view covers a range of the bytes of its buffer.  [VOther]: symbols, functions and
    objects without a conversion. *)
#[local] Unset Elimination Schemes.
Inductive value (J : Type) :=
  | VUndefined
  | VNull
  | VBool (b : bool)
  | VNumber (n : number)
  | VBigInt (z : Z)
  | VString (s : J)
  | VExternal (pointer : Z)
  | VArray (elements : list (option (value J)))  (** [None]: a getter that throws *)
  | VArrayBuffer (buffer : Z)
  | VView (kind : ViewKind) (buffer offset length : Z)
  | VOther.
#[local] Set Elimination Schemes.
Arguments VUndefined {J}.
Arguments VNull {J}.
Arguments VBool {J}.
Arguments VNumber {J}.
Arguments VBigInt {J}.
Arguments VString {J}.
Arguments VExternal {J}.
Arguments VArray {J}.
Arguments VArrayBuffer {J}.
Arguments VView {J}.
Arguments VOther {J}.

(** A buffer on the heap of V8.  With a detach key, [detach(None)] does nothing. *)
Record ArrayBuffer := mkBuffer {
  backing_store : Z;
  store_length : Z;
  detachable : bool;
  has_detach_key : bool;
  detached : bool
}.
Abbreviation heap := (gmap Z ArrayBuffer) (only parsing).

(** The store of a buffer that is detached. *)
Definition EMPTY_STORE : Z := -1.

(** * Numbers *)

(** The [f32] nearest to a number: 24 significant bits, no finer than 2^-149. *)
Definition f32_finite (r q : Z) : number :=
  if decide (q < 0) then Finite r (Z.to_nat (- q))
  else if decide (2 ^ 128 <= Z.abs (r * 2 ^ q)) then Infinity (bool_decide (r < 0))
  else Finite (r * 2 ^ q) 0.
Definition to_f32 (n : number) : number :=
  match n with
  | Finite m k =>
      let q := Z.max (Z.log2 (Z.abs m) - Z.of_nat k - 23) (-149) in
      let e := Z.of_nat k + q in
      if decide (e <= 0) then n
      else
        let r := round_ties_even m (Z.to_nat e) in
        if decide (Z.abs r = 2 ^ 24) then f32_finite (r / 2) (q + 1) else f32_finite r q
  | _ => n
  end.

(** The integer that a number is. *)
Definition integral (n : number) : option Z :=
  match n with
  | Finite m k => if decide (m mod pow2 k = 0) then Some (m / pow2 k) else None
  | _ => None
  end.

Section numbers.
Context {J : Type}.
Implicit Types (v : value J).

Definition is_number v : bool := match v with VNumber _ => true | _ => false end.
Definition is_integer_within (lo hi : Z) v : bool :=
  match v with
  | VNumber n => match integral n with Some z => bool_decide (lo <= z <= hi) | None => false end
  | _ => false
  end.
Definition is_uint32 v : bool := is_integer_within 0 (2 ^ 32 - 1) v.
Definition is_int32 v : bool := is_integer_within (- 2 ^ 31) (2 ^ 31 - 1) v.
(** [Integer::value], [Int32::value], [Uint32::value], [Number::value]. *)
Definition integer_value v : Z := match v with VNumber n => default 0 (integral n) | _ => 0 end.
Definition number_value v : number := match v with VNumber n => n | _ => NaN end.

Definition try_integer_some (signed : bool) (bits : Z) v (test : value J → bool) (otherwise : option Z) :
    option Z :=
  if test v then Some (int_as_int signed bits (integer_value v)) else otherwise.
(** [trunc] is the type that the number is cast to before it wraps; casts of numbers truncate. *)
Definition try_number_int_some (signed : bool) (bits : Z) v (trunc_signed : bool) (otherwise : option Z) :
    option Z :=
  if is_number v then Some (int_as_int signed bits (f64_as_int trunc_signed 64 (number_value v)))
  else otherwise.
Definition try_number_some {A} (cast : number → A) v (otherwise : option A) : option A :=
  if is_number v then Some (cast (number_value v)) else otherwise.
(** [u64_value] and [i64_value]: the low 64 bits. *)
Definition try_bignum {A} (cast : Z → A) v (signed : bool) : option A :=
  match v with VBigInt z => Some (cast (int_as_int signed 64 z)) | _ => None end.

Definition to_u32_option v : option Z :=
  try_integer_some false 32 v is_uint32 (try_integer_some false 32 v is_int32 (
  try_number_int_some false 32 v false (try_bignum (int_as_int false 32) v false))).
Definition to_i32_option v : option Z :=
  try_integer_some true 32 v is_uint32 (try_integer_some true 32 v is_int32 (
  try_number_int_some true 32 v true (try_bignum (int_as_int true 32) v true))).
Definition to_u64_option v : option Z :=
  try_integer_some false 64 v is_uint32 (try_integer_some false 64 v is_int32 (
  try_number_some (f64_as_int false 64) v (try_bignum (int_as_int false 64) v false))).
Definition to_i64_option v : option Z :=
  try_integer_some true 64 v is_uint32 (try_integer_some true 64 v is_int32 (
  try_number_some (f64_as_int true 64) v (try_bignum (int_as_int true 64) v false))).
Definition to_f32_option v : option number :=
  try_number_some to_f32 v (try_bignum (λ z, to_f32 (Finite z 0)) v true).
Definition to_f64_option v : option number :=
  try_number_some id v (try_bignum int_as_f64 v true).

Definition to_external_option v : option Z :=
  match v with VExternal pointer => Some pointer | VNull => Some 0 | _ => None end.
End numbers.

(** ** Numbers are converted as JavaScript converts them *)

Inductive IntArg := ArgU32 | ArgI32 | ArgU64 | ArgI64.
Definition arg_signed (t : IntArg) : bool := match t with ArgI32 | ArgI64 => true | _ => false end.
Definition arg_bits (t : IntArg) : Z := match t with ArgU32 | ArgI32 => 32 | _ => 64 end.
Definition to_int_option {J} (t : IntArg) : value J → option Z :=
  match t with
  | ArgU32 => to_u32_option
  | ArgI32 => to_i32_option
  | ArgU64 => to_u64_option
  | ArgI64 => to_i64_option
  end.

(** The numbers whose conversion does not saturate: those that fit into 64 bits of the
    sign of the type, and the 32-bit integers. *)
Definition in_reach (t : IntArg) (m : Z) (k : nat) : Prop :=
  int_min (arg_signed t) 64 <= trunc m k <= int_max (arg_signed t) 64 ∨
  (m mod pow2 k = 0 ∧ - 2 ^ 31 <= trunc m k < 2 ^ 31).

Lemma integral_trunc m k : m mod pow2 k = 0 → m / pow2 k = trunc m k.
Proof.
  intros Hm. pose proof (pow2_pos k). pose proof (Z.div_mod m (pow2 k) ltac:(lia)) as Hd. rewrite Hm in Hd.
  unfold trunc. replace (Z.quot m (pow2 k)) with (Z.quot ((m / pow2 k) * pow2 k) (pow2 k)) by (f_equal; lia).
  by rewrite Z.quot_mul by lia.
Qed.

(** Only the low bits count. *)
Lemma int_as_int_congr signed bits z z' :
  0 < bits → z mod 2 ^ bits = z' mod 2 ^ bits → int_as_int signed bits z = int_as_int signed bits z'.
Proof.
  intros Hb Hz. unfold int_as_int. destruct signed; [|done].
  rewrite Z.add_mod, Hz, <- Z.add_mod by lia. done.
Qed.

Lemma int_as_int_mod signed bits z : 0 < bits → int_as_int signed bits z mod 2 ^ bits = z mod 2 ^ bits.
Proof.
  intros Hb. unfold int_as_int. destruct signed; [|by rewrite Z.mod_mod by lia].
  rewrite Zminus_mod_idemp_l. f_equal. lia.
Qed.

Lemma int_as_int_low signed bits signed' bits' z :
  0 < bits <= bits' → int_as_int signed bits (int_as_int signed' bits' z) = int_as_int signed bits z.
Proof.
  intros Hb. apply int_as_int_congr; [lia|].
  assert (∀ x, x mod 2 ^ bits = (x mod 2 ^ bits') mod 2 ^ bits) as Hx.
  { intros x. replace bits' with (bits + (bits' - bits)) by lia. rewrite Z.pow_add_r by lia.
    rewrite Z.rem_mul_r by lia. rewrite (Z.mul_comm (2 ^ bits)), Z.mod_add by lia. by rewrite Z.mod_mod by lia. }
  rewrite (Hx (int_as_int _ _ _)), int_as_int_mod, <- Hx by lia. done.
Qed.

(** The three steps for a number. *)
Lemma to_int_option_number {J} t (n : number) :
  to_int_option t (VNumber n : value J) =
  Some (int_as_int (arg_signed t) (arg_bits t)
    match integral n with
    | Some z => if decide (- 2 ^ 31 <= z < 2 ^ 32) then z else f64_as_int (arg_signed t) 64 n
    | None => f64_as_int (arg_signed t) 64 n
    end).
Proof.
  assert (∀ signed, int_as_int signed 64 (f64_as_int signed 64 n) = f64_as_int signed 64 n) as Hid.
  { intros. apply int_as_int_id; [lia|]. by apply f64_as_int_bounds. }
  destruct t; cbn [to_int_option arg_signed arg_bits];
    unfold to_u32_option, to_i32_option, to_u64_option, to_i64_option,
    try_integer_some, try_number_int_some, try_number_some, is_uint32, is_int32, is_integer_within,
    integer_value, is_number, number_value; (destruct (integral n) as [z|]; [|by rewrite ?Hid]);
    cbn [default];
    (destruct (decide (- 2 ^ 31 <= z < 2 ^ 32));
     [destruct (decide (0 <= z));
       [by rewrite bool_decide_eq_true_2 by lia|
        rewrite bool_decide_eq_false_2 by lia; by rewrite bool_decide_eq_true_2 by lia]
     |rewrite !bool_decide_eq_false_2 by lia; by rewrite ?Hid]).
Qed.

(** [to_u32_option], [to_i32_option], [to_u64_option] and [to_i64_option] return the number
    truncated modulo 2^32 or 2^64, as the conversions of JavaScript do, for every number that fits
    into 64 bits of the sign of the type and for every 32-bit integer; other finite numbers saturate at 64 bits
    first.  A BigInt is taken modulo 2^32 or 2^64, NaN is 0, and only numbers and BigInts convert. *)
Lemma number_arguments {J} (t : IntArg) (v : value J) :
  let wrap := int_as_int (arg_signed t) (arg_bits t) in
  match v with
  | VNumber (Finite m k) =>
      (in_reach t m k → to_int_option t v = Some (wrap (trunc m k))) ∧
      (¬ in_reach t m k → trunc m k < 2 ^ 32 → to_int_option t v = Some (wrap (int_min (arg_signed t) 64))) ∧
      (¬ in_reach t m k → 2 ^ 32 <= trunc m k → to_int_option t v = Some (wrap (int_max (arg_signed t) 64)))
  | VNumber NaN => to_int_option t v = Some 0
  | VNumber (Infinity negative) =>
      to_int_option t v =
      Some (wrap ((if negative then int_min else int_max) (arg_signed t) 64))
  | VBigInt z => to_int_option t v = Some (wrap z)
  | _ => to_int_option t v = None
  end.
Proof.
  intros wrap. destruct v as [| |b|n|z|s|ptr|l|buf|kind buf off len|]; try by destruct t.
  - rewrite to_int_option_number. destruct n as [|[]|m k]; simpl; try done.
    + by destruct t.
    + unfold in_reach. pose proof (int_bounds (arg_signed t) 64 ltac:(lia)) as Hb.
      assert (int_max (arg_signed t) 64 >= 2 ^ 63 - 1) as Hmax by (by destruct t).
      set (lo := int_min _ _) in *. set (hi := int_max _ _) in *.
      assert (lo <= - 2 ^ 63 ∨ lo = 0) as Hmin by (subst lo; destruct t; simpl; lia).
      case_decide as Hm; [rewrite integral_trunc by done; case_decide|];
        split_and!; intros; subst wrap; cbn beta; do 2 f_equal; lia.
  - subst wrap. cbn beta. destruct t; cbn [to_int_option arg_signed arg_bits];
      unfold to_u32_option, to_i32_option, to_u64_option, to_i64_option, try_integer_some,
        try_number_int_some, try_number_some, try_bignum; cbn [is_uint32 is_int32 is_integer_within is_number];
      by rewrite int_as_int_low by lia.
Qed.

Lemma number_arguments_example :
  in_reach ArgU32 (2 ^ 32 + 5) 0 ∧ to_u32_option (VNumber (Finite (2 ^ 32 + 5) 0) : value text) = Some 5 ∧
  ¬ in_reach ArgU32 (-3) 1 ∧ to_u32_option (VNumber (Finite (-3) 1) : value text) = Some 0 ∧
  ¬ in_reach ArgI32 (2 ^ 80) 0 ∧ to_i32_option (VNumber (Finite (2 ^ 80) 0) : value text) = Some (-1).
Proof.
  assert (in_reach ArgU32 (2 ^ 32 + 5) 0) as H1 by (left; vm_compute; split; discriminate).
  assert (¬ in_reach ArgU32 (-3) 1) as H2.
  { intros [[H _]|[H _]]; vm_compute in H; [by apply H|discriminate]. }
  assert (¬ in_reach ArgI32 (2 ^ 80) 0) as H3.
  { intros [[_ H]|(_ & _ & H)]; vm_compute in H; [by apply H|discriminate]. }
  split_and!; [done| |done| |done|].
  - apply (number_arguments ArgU32 (VNumber (Finite (2 ^ 32 + 5) 0) : value text)). exact H1.
  - apply (number_arguments ArgU32 (VNumber (Finite (-3) 1) : value text)); [exact H2|done].
  - apply (number_arguments ArgI32 (VNumber (Finite (2 ^ 80) 0) : value text)); [exact H3|done].
Qed.

(** Minus one is 2^32 - 1, but the other negative numbers that it is close to are zero. *)
Lemma negative_u32 :
  to_u32_option (VNumber (Finite (-1) 0) : value text) = Some (2 ^ 32 - 1) ∧
  to_u32_option (VNumber (Finite (-3) 1) : value text) = Some 0 ∧
  to_u32_option (VNumber (Finite (- 2 ^ 31 - 1) 0) : value text) = Some 0 ∧
  to_u32_option (VBigInt (- 2 ^ 31 - 1) : value text) = Some (2 ^ 31 - 1).
Proof. by split_and!. Qed.

(** * Strings *)

Section bytes.
Context (p : profile).

(** A buffer that may hold bytes that are not initialized. *)
Abbreviation uninit := (list (option ascii)).

Definition write_at (outbuf : uninit) (i : nat) (c : ascii) : outcome uninit :=
  if decide (i < length outbuf)%nat then Ret (<[i := Some c]> outbuf) else Panic BadMemory.
Definition read_at (inbuf : text) (i : nat) : outcome ascii :=
  match inbuf !! i with Some c => Ret c | None => Panic BadMemory end.
Definition byte (z : Z) : ascii := ascii_of_N (Z.to_N z).

(** The [while] loop, with [n] bytes to go. *)
Fixpoint latin1_loop (n : nat) (inbuf : text) (input : nat) (outbuf : uninit) (output : nat) :
    outcome (nat * uninit) :=
  match n with
  | O => Ret (output, outbuf)
  | S n =>
      char ← read_at inbuf input;
      if code char <? 128 then
        outbuf ← write_at outbuf output char;
        latin1_loop n inbuf (S input) outbuf (output + 1)
      else
        outbuf ← write_at outbuf output (byte (Z.lor (Z.shiftr (code char) 6) 192));
        outbuf ← write_at outbuf (output + 1) (byte (Z.lor (Z.land (code char) 63) 128));
        latin1_loop n inbuf (S input) outbuf (output + 2)
  end.
Definition latin1_to_utf8 (input_length : nat) (inbuf : text) (outbuf : uninit) : outcome (nat * uninit) :=
  latin1_loop input_length inbuf 0 outbuf 0.

Inductive Cow := Borrowed (s : text) | Owned (s : text).
Definition cow_text (c : Cow) : text := match c with Borrowed s | Owned s => s end.

(** The first bytes of a buffer, which must be initialized. *)
Definition initialized (outbuf : uninit) (written : nat) : outcome text :=
  if decide (written <= length outbuf)%nat then
    match mapM id (take written outbuf) with Some s => Ret s | None => Panic BadMemory end
  else Panic BadMemory.

Definition to_string_ptr (input_buf : text) : outcome text :=
  let capacity := (length input_buf * 2)%nat in
  '(written, buffer) ← latin1_to_utf8 (length input_buf) input_buf (replicate capacity None);
  _ ← debug_assert p (bool_decide (written <= capacity)%nat);
  initialized buffer written.

Definition to_str_ptr (input_buf : text) (buffer : uninit) : outcome Cow :=
  if forallb is_ascii input_buf then Ret (Borrowed input_buf)
  else
    let input_len := length input_buf in
    let output_len := length buffer in
    if decide (input_len < output_len / 2)%nat then
      _ ← debug_assert p (bool_decide (input_len * 2 <= output_len)%nat);
      '(written, buffer) ← latin1_to_utf8 input_len input_buf buffer;
      _ ← debug_assert p (bool_decide (written <= output_len)%nat);
      s ← initialized buffer written;
      Ret (Borrowed s)
    else s ← to_string_ptr input_buf; Ret (Owned s).

Definition to_cow_byte_ptr (input_buf : text) : Cow := Borrowed input_buf.
End bytes.

(** [is_onebyte]: how V8 stores the string. *)
Class StoredStrings (J : Type) `{V8Strings J} := {
  is_onebyte : J → bool;
  is_onebyte_law j : is_onebyte j = true → is_Some (one_byte j);
  one_byte_length j s : one_byte j = Some s → length s = string_length j
}.

Section strings.
Context `{StoredStrings J}.
Implicit Types (v : value J).

Definition is_string v : bool := match v with VString _ => true | _ => false end.

(** [to_rust_string_lossy], [to_rust_cow_lossy]: the UTF-8 of all characters. *)
Definition to_rust_string_lossy (s : J) : text := concat (characters s).*2.

Definition to_string v : text := match v with VString s => to_rust_string_lossy s | _ => [] end.
(** Whether the text is in the buffer or on the heap is V8's choice. *)
Definition to_str v : text := match v with VString s => to_rust_string_lossy s | _ => [] end.

Definition to_cow_one_byte v : result text text :=
  match v with
  | VString s =>
      let capacity := string_length s in
      if decide (capacity = 0%nat) then Ok []
      else if negb (is_onebyte s) && negb (bool_decide (is_Some (one_byte s))) then
        Err ($"expected one-byte String")
      else Ok (default [] (one_byte s))
  | _ => Err ($"expected String")
  end.
End strings.

(** ** One-byte strings are Latin-1 *)

Definition utf8_char (c : ascii) : text :=
  if code c <? 128 then [c]
  else [byte (Z.lor (Z.shiftr (code c) 6) 192); byte (Z.lor (Z.land (code c) 63) 128)].
Definition utf8_of_latin1 (s : text) : text := concat (map utf8_char s).

(** The characters of a UTF-8 text, which are all below 256. *)
Fixpoint latin1_of_utf8 (s : text) : option text :=
  match s with
  | [] => Some []
  | c :: s =>
      if code c <? 128 then cons c <$> latin1_of_utf8 s
      else match s with
           | d :: s =>
               if (194 <=? code c) && (code c <=? 195) && continuation d then
                 cons (byte ((code c - 192) * 64 + (code d - 128))) <$> latin1_of_utf8 s
               else None
           | [] => None
           end
  end.

Lemma utf8_char_decodes c s :
  latin1_of_utf8 (utf8_char c ++ s) = cons c <$> latin1_of_utf8 s.
Proof. destruct c as [[] [] [] [] [] [] [] []]; reflexivity. Qed.

Lemma utf8_char_valid c s : valid_utf8 (utf8_char c ++ s) = valid_utf8 s.
Proof. destruct c as [[] [] [] [] [] [] [] []]; reflexivity. Qed.

Lemma utf8_char_length c : (length (utf8_char c) <= 2)%nat.
Proof. unfold utf8_char. destruct (code c <? 128); simpl; lia. Qed.

Lemma utf8_of_latin1_decodes s : latin1_of_utf8 (utf8_of_latin1 s) = Some s.
Proof.
  induction s as [|c s IH]; [done|]. unfold utf8_of_latin1 in *. cbn [map concat].
  by rewrite utf8_char_decodes, IH.
Qed.

Lemma utf8_of_latin1_valid s : valid_utf8 (utf8_of_latin1 s) = true.
Proof.
  induction s as [|c s IH]; [done|]. unfold utf8_of_latin1 in *. cbn [map concat].
  by rewrite utf8_char_valid.
Qed.

Lemma utf8_of_latin1_ascii s : forallb is_ascii s = true → utf8_of_latin1 s = s.
Proof.
  unfold utf8_of_latin1. induction s as [|c s IH]; [done|]. simpl. intros [Hc Hs]%andb_true_iff.
  rewrite IH by done. unfold utf8_char. unfold is_ascii in Hc. by rewrite Hc.
Qed.

Lemma utf8_of_latin1_length s : (length (utf8_of_latin1 s) <= 2 * length s)%nat.
Proof.
  unfold utf8_of_latin1. induction s as [|c s IH]; [done|]. simpl. rewrite length_app.
  pose proof (utf8_char_length c). lia.
Qed.

Lemma write_at_ok outbuf i c :
  (i < length outbuf)%nat →
  ∃ outbuf', write_at outbuf i c = Ret outbuf' ∧ length outbuf' = length outbuf ∧
    take (S i) outbuf' = take i outbuf ++ [Some c].
Proof.
  intros Hi. unfold write_at. rewrite decide_True by done. eexists. split; [done|].
  split; [by rewrite length_insert|].
  rewrite (take_S_r _ _ (Some c)) by (by apply list_lookup_insert_eq). by rewrite take_insert_ge by lia.
Qed.

Lemma latin1_loop_ok n inbuf input outbuf output :
  (input + n <= length inbuf)%nat → (output + 2 * n <= length outbuf)%nat →
  let enc := utf8_of_latin1 (take n (drop input inbuf)) in
  ∃ outbuf', latin1_loop n inbuf input outbuf output = Ret (output + length enc, outbuf')%nat ∧
    length outbuf' = length outbuf ∧
    take (output + length enc) outbuf' = take output outbuf ++ map Some enc.
Proof.
  revert input outbuf output. induction n as [|n IH]; intros input outbuf output Hin Hout enc.
  { exists outbuf. subst enc. simpl. by rewrite Nat.add_0_r, app_nil_r. }
  destruct (lookup_lt_is_Some_2 inbuf input) as [c Hc]; [lia|].
  assert (enc = utf8_char c ++ utf8_of_latin1 (take n (drop (S input) inbuf))) as ->
    by (subst enc; by rewrite (drop_S _ _ _ Hc)).
  cbn [latin1_loop]. unfold read_at. rewrite Hc. cbn [mbind outcome_bind]. unfold utf8_char.
  destruct (code c <? 128).
  - destruct (write_at_ok outbuf output c) as (o1 & -> & Hl1 & Ht1); [lia|]. cbn [mbind outcome_bind].
    destruct (IH (S input) o1 (output + 1)%nat) as (o2 & -> & Hl2 & Ht2); [lia|lia|].
    exists o2. rewrite length_app, Nat.add_assoc. split; [done|]. split; [congruence|].
    cbn [length]. rewrite Ht2, Nat.add_1_r, Ht1. by rewrite <- app_assoc.
  - edestruct (write_at_ok outbuf output) as (o1 & -> & Hl1 & Ht1); [lia|]. cbn [mbind outcome_bind].
    edestruct (write_at_ok o1 (output + 1)) as (o2 & -> & Hl2 & Ht2); [lia|]. cbn [mbind outcome_bind].
    destruct (IH (S input) o2 (output + 2)%nat) as (o3 & -> & Hl3 & Ht3); [lia|lia|].
    exists o3. rewrite length_app, Nat.add_assoc. split; [done|]. split; [congruence|].
    cbn [length]. rewrite Ht3. replace (output + 2)%nat with (S (output + 1)) by lia.
    rewrite Ht2, Nat.add_1_r, Ht1. by rewrite <- !app_assoc.
Qed.

Lemma initialized_ok outbuf s :
  (length s <= length outbuf)%nat → take (length s) outbuf = map Some s → initialized outbuf (length s) = Ret s.
Proof.
  intros Hl Ht. unfold initialized. rewrite decide_True by done. rewrite Ht.
  assert (mapM id (map Some s) = Some s) as -> by (clear; induction s as [|c s IH]; simpl; [done|by rewrite IH]).
  done.
Qed.

(** The whole of an input that fits. *)
Lemma latin1_to_utf8_ok input outbuf :
  (2 * length input <= length outbuf)%nat →
  ∃ outbuf', latin1_to_utf8 (length input) input outbuf = Ret (length (utf8_of_latin1 input), outbuf') ∧
    length outbuf' = length outbuf ∧
    initialized outbuf' (length (utf8_of_latin1 input)) = Ret (utf8_of_latin1 input).
Proof.
  intros Hl. destruct (latin1_loop_ok (length input) input 0 outbuf 0) as (o & Ho & Hlen & Ht); [lia|lia|].
  rewrite drop_0, firstn_all in *. simpl in *. exists o. split; [done|]. split; [done|].
  apply initialized_ok; [|done]. rewrite Hlen. pose proof (utf8_of_latin1_length input). lia.
Qed.

(** A one-byte string that a fast call passes becomes valid UTF-8 of the same characters,
    whatever its length: no write is out of the bounds of its buffer, no byte that was not written
    is read, and [to_str_ptr] does not allocate if the string is ASCII or shorter than half of the
    buffer.  [to_string_ptr] returns the same text. *)
Lemma fast_strings p (input : text) (buffer : list (option ascii)) :
  ∃ s c, to_string_ptr p input = Ret s ∧ to_str_ptr p input buffer = Ret c ∧ cow_text c = s ∧
    valid_utf8 s = true ∧ latin1_of_utf8 s = Some input ∧
    (forallb is_ascii input = true ∨ (length input < length buffer / 2)%nat → c = Borrowed s).
Proof.
  assert (to_string_ptr p input = Ret (utf8_of_latin1 input)) as Hs.
  { unfold to_string_ptr. set (b := replicate _ _).
    assert (length b = (length input * 2)%nat) as Hb by (by apply length_replicate).
    destruct (latin1_to_utf8_ok input b) as (o & -> & Hl & Hi); [lia|].
    cbn [mbind outcome_bind]. pose proof (utf8_of_latin1_length input).
    rewrite debug_assert_true by (apply bool_decide_eq_true; lia). done. }
  exists (utf8_of_latin1 input). rewrite Hs.
  assert (valid_utf8 (utf8_of_latin1 input) = true) as Hv by apply utf8_of_latin1_valid.
  pose proof (utf8_of_latin1_decodes input) as Hd. unfold to_str_ptr.
  destruct (forallb is_ascii input) eqn:Ha.
  { eexists. split; [done|]. split; [done|]. rewrite utf8_of_latin1_ascii in * by done. done. }
  case_decide as Hlt.
  - pose proof (Nat.Div0.div_mod (length buffer) 2) as Hdiv.
    rewrite debug_assert_true by (apply bool_decide_eq_true; lia). cbn [mbind outcome_bind].
    destruct (latin1_to_utf8_ok input buffer) as (o & -> & Hl & Hi); [lia|]. cbn [mbind outcome_bind].
    pose proof (utf8_of_latin1_length input).
    rewrite debug_assert_true by (apply bool_decide_eq_true; lia). cbn [mbind outcome_bind]. rewrite Hi.
    eexists. split; [done|]. done.
  - rewrite Hs. eexists. split; [done|]. split; [done|]. split_and!; try done. intros [|]; done.
Qed.

(** ** Byte strings *)

Section one_byte.
Context `{StoredStrings J, !V8StringLaws J}.

(** The bytes of a string, if every character is one byte; the two errors otherwise. *)
Lemma to_cow_one_byte_spec (v : value J) :
  to_cow_one_byte v =
  match v with
  | VString s =>
      match one_byte s with
      | Some bytes => Ok bytes
      | None => if decide (string_length s = 0%nat) then Ok [] else Err ($"expected one-byte String")
      end
  | _ => Err ($"expected String")
  end.
Proof.
  destruct v as [| |b|n|z|s|ptr|l|buf|kind buf off len|]; try done. simpl.
  destruct (one_byte s) as [bytes|] eqn:Hs.
  - case_decide as Hl.
    + rewrite <- (one_byte_length _ _ Hs) in Hl. by destruct bytes.
    + rewrite bool_decide_eq_true_2 by (by eexists). by rewrite andb_false_r.
  - case_decide; [done|]. rewrite bool_decide_eq_false_2 by (by intros []).
    destruct (is_onebyte s) eqn:Hb; [|done]. apply is_onebyte_law in Hb as [? Hb]. congruence.
Qed.
End one_byte.

(** * Buffers *)

Section buffers.
Context {J : Type} (p : profile).
Implicit Types (v : value J) (h : heap).

Definition byte_length (b : ArrayBuffer) : Z := if detached b then 0 else store_length b.
Definition get_backing_store (b : ArrayBuffer) : Z := if detached b then EMPTY_STORE else backing_store b.
Definition buffer_data (b : ArrayBuffer) : option Z :=
  if decide (byte_length b = 0) then None else Some (get_backing_store b).
Definition detach (b : ArrayBuffer) : ArrayBuffer :=
  if has_detach_key b || negb (detachable b) then b
  else mkBuffer (backing_store b) (store_length b) (detachable b) (has_detach_key b) true.

(** [Local::<ArrayBuffer>::try_from]; views of the given kinds. *)
Definition try_array_buffer h v : option (Z * ArrayBuffer) :=
  match v with VArrayBuffer id => pair id <$> h !! id | _ => None end.
Definition try_view (kind : option ViewKind) v : option (Z * Z * Z) :=
  match v with
  | VView k id offset length =>
      match kind with
      | Some kind => if decide (k = kind) then Some (id, offset, length) else None
      | None => Some (id, offset, length)
      end
  | _ => None
  end.
(** A view of a detached buffer is empty. *)
Definition view_offset (b : option ArrayBuffer) (offset : Z) : Z :=
  match b with Some b => if detached b then 0 else offset | None => 0 end.

Definition from_parts (store start end_ : Z) : Slice.V8Slice := Slice.mkSlice store start end_.
Definition view_slice (b : ArrayBuffer) (offset length : Z) : outcome (result Slice.V8Slice text) :=
  let offset := view_offset (Some b) offset in
  let length := view_offset (Some b) length in
  end_ ← add_w p 64 offset length;
  Ret (Ok (from_parts (get_backing_store b) offset end_)).

Definition to_v8_slice (kind : ViewKind) h v : outcome (result Slice.V8Slice text) :=
  match try_view (Some kind) v with
  | Some (id, offset, length) =>
      match h !! id with
      | Some buffer => view_slice buffer offset length
      | None => Ret (Err ($"buffer missing"))
      end
  | None => Ret (Err ($"expected typed ArrayBufferView"))
  end.

Definition to_v8_slice_detachable (kind : ViewKind) h v : outcome (result Slice.V8Slice text * heap) :=
  match try_view (Some kind) v with
  | Some (id, offset, length) =>
      match h !! id with
      | Some buffer =>
          if negb (detachable buffer) then Ret (Err ($"invalid type; expected: detachable"), h)
          else
            slice ← view_slice buffer offset length;
            Ret (slice, <[id := detach buffer]> h)
      | None => Ret (Err ($"buffer missing"), h)
      end
  | None => Ret (Err ($"expected typed ArrayBufferView"), h)
  end.

(** A Rust slice is the range that it covers; [&mut []] covers nothing. *)
Definition empty_slice : Slice.V8Slice := from_parts EMPTY_STORE 0 0.

Definition to_slice_buffer h v : result Slice.V8Slice text :=
  match try_array_buffer h v with
  | Some (_, buf) =>
      let len := byte_length buf in
      if decide (0 < len) then
        match buffer_data buf with Some ptr => Ok (from_parts ptr 0 len) | None => Ok empty_slice end
      else Ok empty_slice
  | None => Err ($"expected ArrayBuffer")
  end.

Definition to_slice_buffer_any h v : result Slice.V8Slice text :=
  let found : option (option (Z * Z) * Z) :=
    match try_view None v with
    | Some (id, offset, length) =>
        let b := h !! id in
        Some ((λ ptr, (ptr, view_offset b offset)) <$> (b ≫= buffer_data), view_offset b length)
    | None =>
        match try_array_buffer h v with
        | Some (_, buf) => Some ((λ ptr, (ptr, 0)) <$> buffer_data buf, byte_length buf)
        | None => None
        end
    end in
  match found with
  | Some (data, len) =>
      if decide (0 < len) then
        match data with
        | Some (ptr, start) => Ok (from_parts ptr start (start + len))
        | None => Ok empty_slice
        end
      else Ok empty_slice
  | None => Err ($"expected ArrayBuffer or ArrayBufferView")
  end.

Definition to_v8_slice_buffer h v : result Slice.V8Slice text :=
  match try_array_buffer h v with
  | Some (_, buf) => Ok (from_parts (get_backing_store buf) 0 (byte_length buf))
  | None => Err ($"expected ArrayBuffer")
  end.

Definition to_v8_slice_buffer_detachable h v : result Slice.V8Slice text * heap :=
  match try_array_buffer h v with
  | Some (id, buf) =>
      if negb (detachable buf) then (Err ($"invalid type; expected: detachable"), h)
      else (Ok (from_parts (get_backing_store buf) 0 (byte_length buf)), <[id := detach buf]> h)
  | None => (Err ($"expected ArrayBuffer"), h)
  end.

Definition to_v8_slice_any h v : outcome (result Slice.V8Slice text) :=
  match try_view None v with
  | Some (id, offset, length) =>
      match h !! id with
      | Some buf => view_slice buf offset length
      | None => Ret (Err ($"buffer missing"))
      end
  | None =>
      match to_v8_slice_buffer h v with
      | Ok buf => Ret (Ok buf)
      | Err _ => Ret (Err ($"expected ArrayBuffer or ArrayBufferView"))
      end
  end.

(** [Local::<T>::try_from] of any type: the value itself, if it is of that type. *)
Definition v8_try_convert (is_T : value J → bool) v : result (value J) unit :=
  if is_T v then Ok v else Err tt.
Definition v8_try_convert_option (is_T : value J → bool) v : result (option (value J)) unit :=
  match v with
  | VNull | VUndefined => Ok None
  | _ => match v8_try_convert is_T v with Ok v => Ok (Some v) | Err e => Err e end
  end.
End buffers.

(** ** Slices cover the bytes of the argument *)

Section buffer_arguments.
Context {J : Type} (p : profile) (mem : memory).
Implicit Types (v : value J) (h : heap).

(** Stores are as long as their buffers say; V8's bounds on lengths. *)
Record heap_ok h : Prop := {
  heap_stores id b : h !! id = Some b → detached b = false →
    backing_store b ≠ EMPTY_STORE ∧ zlen (Slice.store_bytes mem (backing_store b)) = store_length b;
  heap_lengths id b : h !! id = Some b → 0 <= store_length b < 2 ^ 63;
  heap_empty : mem !! EMPTY_STORE = None
}.

Definition value_ok h v : Prop :=
  match v with
  | VArrayBuffer id => is_Some (h !! id)
  | VView _ id offset length =>
      ∃ b, h !! id = Some b ∧ 0 <= offset ∧ 0 <= length ∧ offset + length <= store_length b
  | _ => True
  end.

(** What JavaScript sees. *)
Definition value_bytes h v : option (list Z) :=
  match v with
  | VArrayBuffer id =>
      b ← h !! id; Some (if detached b then [] else Slice.store_bytes mem (backing_store b))
  | VView _ id offset length =>
      b ← h !! id;
      Some (if detached b then [] else ztake length (zdrop offset (Slice.store_bytes mem (backing_store b))))
  | _ => None
  end.
Definition value_store h v : Z :=
  match v with
  | VArrayBuffer id | VView _ id _ _ => match h !! id with Some b => get_backing_store b | None => EMPTY_STORE end
  | _ => EMPTY_STORE
  end.

Lemma empty_as_slice start end_ :
  mem !! EMPTY_STORE = None → 0 <= start → Slice.as_slice mem (from_parts EMPTY_STORE start end_) = [].
Proof.
  intros He Hs. rewrite Slice.as_slice_eq by done. unfold Slice.store_bytes. simpl. rewrite He. simpl.
  unfold ztake, zdrop. by rewrite drop_nil, take_nil.
Qed.

Lemma store_as_slice store start end_ :
  0 <= start → Slice.as_slice mem (from_parts store start end_) =
  ztake (end_ - start) (zdrop start (Slice.store_bytes mem store)).
Proof. intros Hs. by rewrite Slice.as_slice_eq. Qed.

Lemma view_slice_ok h k id offset length b :
  heap_ok h → value_ok h (VView k id offset length) → h !! id = Some b →
  ∃ s, view_slice p b offset length = Ret (Ok s) ∧ Slice.store s = get_backing_store b ∧
    value_bytes h (VView k id offset length) = Some (Slice.as_slice mem s).
Proof.
  intros Hh (b' & Hb' & Ho & Hl & Hol) Hb. rewrite Hb in Hb'. injection Hb' as <-. unfold view_slice, view_offset, get_backing_store.
  simpl. rewrite Hb. simpl. pose proof (heap_lengths _ Hh _ _ Hb). destruct (detached b) eqn:Hd.
  - rewrite add_w_fits by lia. eexists. split; [done|]. split; [done|].
    by rewrite empty_as_slice by (try apply Hh; done).
  - rewrite add_w_fits by lia. eexists. split; [done|]. split; [done|].
    rewrite store_as_slice by done. do 3 f_equal. lia.
Qed.

Lemma buffer_slice_ok h id b :
  heap_ok h → h !! id = Some b →
  value_bytes h (VArrayBuffer id : value J) =
  Some (Slice.as_slice mem (from_parts (get_backing_store b) 0 (byte_length b))).
Proof.
  intros Hh Hb. simpl. rewrite Hb. simpl. unfold get_backing_store, byte_length. destruct (detached b) eqn:Hd.
  - by rewrite empty_as_slice by (try apply Hh; done).
  - rewrite store_as_slice by done. destruct (heap_stores _ Hh _ _ Hb Hd) as [_ Hl].
    rewrite zdrop_0, ztake_all by lia. done.
Qed.

(** A Rust slice of a buffer or a view. *)
Lemma raw_slice_ok h id b start len :
  heap_ok h → h !! id = Some b → 0 <= start → (detached b = true → len = 0) → len <= byte_length b →
  Slice.as_slice mem
    (if decide (0 < len) then
       match buffer_data b with Some ptr => from_parts ptr start (start + len) | None => empty_slice end
     else empty_slice) =
  if detached b then [] else ztake len (zdrop start (Slice.store_bytes mem (backing_store b))).
Proof.
  intros Hh Hb Hs Hd Hlen. pose proof (heap_empty _ Hh) as He.
  assert (Slice.as_slice mem empty_slice = []) as Hnil by (by apply empty_as_slice).
  case_decide.
  - unfold buffer_data. rewrite decide_False by lia. rewrite store_as_slice by done. unfold get_backing_store.
    destruct (detached b); [lia|]. f_equal. lia.
  - rewrite Hnil. destruct (detached b); [done|]. unfold ztake. by replace (Z.to_nat len) with 0%nat by lia.
Qed.

Lemma raw_slice_eq (data : option Z) (start len : Z) :
  (if decide (0 < len) then
     match (λ ptr, (ptr, start)) <$> data with
     | Some (ptr, start) => Ok (from_parts ptr start (start + len))
     | None => Ok empty_slice
     end
   else Ok empty_slice : result Slice.V8Slice text) =
  Ok (if decide (0 < len) then
        match data with Some ptr => from_parts ptr start (start + len) | None => empty_slice end
      else empty_slice).
Proof. destruct data; by case_decide. Qed.

Lemma to_slice_buffer_any_ok h v :
  heap_ok h → value_ok h v →
  match to_slice_buffer_any h v with
  | Ok s => value_bytes h v = Some (Slice.as_slice mem s)
  | Err _ => value_bytes h v = None
  end.
Proof.
  intros Hh Hv. destruct v as [| |x|n|z|s|ptr|l|id|k id offset length|]; try done; unfold to_slice_buffer_any.
  - destruct Hv as [b Hb]. simpl. rewrite Hb. simpl. rewrite raw_slice_eq.
    pose proof (heap_lengths _ Hh _ _ Hb).
    rewrite (raw_slice_ok h id) by (done || unfold byte_length; intros; case_match; lia).
    unfold byte_length. destruct (detached b) eqn:Hd; [done|]. destruct (heap_stores _ Hh _ _ Hb Hd) as [_ Hl].
    rewrite zdrop_0, ztake_all by lia. done.
  - destruct Hv as (b & Hb & Ho & Hl & Hol). simpl. rewrite Hb. simpl. rewrite raw_slice_eq.
    rewrite (raw_slice_ok h id) by (done || unfold byte_length; intros; case_match; lia).
    by destruct (detached b).
Qed.

(** The slice of a value that a function of this kind accepts: its bytes, in its own store. *)
Definition slice_of h v (accepts : bool) (r : result Slice.V8Slice text) : Prop :=
  match r with
  | Ok s => accepts = true ∧ value_bytes h v = Some (Slice.as_slice mem s) ∧ Slice.store s = value_store h v
  | Err _ => accepts = false
  end.

Lemma to_v8_slice_any_ok h v :
  heap_ok h → value_ok h v →
  ∃ r, to_v8_slice_any p h v = Ret r ∧ slice_of h v (bool_decide (is_Some (value_bytes h v))) r.
Proof.
  intros Hh Hv. destruct v as [| |x|n|z|s|ptr|l|id|k id offset length|]; try by eexists.
  - destruct Hv as [b Hb]. unfold to_v8_slice_any, to_v8_slice_buffer. simpl. rewrite Hb. simpl.
    eexists. split; [done|]. pose proof (buffer_slice_ok h id b Hh Hb) as Hs. simpl in *. rewrite Hb in Hs.
    rewrite Hb. done.
  - pose proof Hv as (b & Hb & _). unfold to_v8_slice_any, try_view. rewrite Hb.
    destruct (view_slice_ok h k id offset length b Hh Hv Hb) as (s & Hs & Hst & Hbytes).
    eexists. split; [exact Hs|]. split; [by rewrite Hbytes|]. split; [exact Hbytes|]. simpl. by rewrite Hb.
Qed.

(** A value of another buffer over the store of [b]. *)
Definition owner v : option Z := match v with VArrayBuffer id | VView _ id _ _ => Some id | _ => None end.
Definition shares h (id : Z) (b : ArrayBuffer) v : Prop :=
  ∃ id' b', owner v = Some id' ∧ id' ≠ id ∧ h !! id' = Some b' ∧
    detached b' = false ∧ detached b = false ∧ backing_store b' = backing_store b.

(** A detached buffer: only values of another buffer over its store reach it. *)
Lemma detached_ok h id b :
  heap_ok h → h !! id = Some b → has_detach_key b = false → detachable b = true →
  heap_ok (<[id := detach b]> h) ∧
  ∀ v, value_ok h v → value_ok (<[id := detach b]> h) v ∧
    (value_store (<[id := detach b]> h) v ≠ get_backing_store b ∨ value_bytes (<[id := detach b]> h) v = Some []
     ∨ value_bytes (<[id := detach b]> h) v = None ∨ shares h id b v).
Proof.
  intros Hh Hb Hk Hd. unfold detach. rewrite Hk, Hd. simpl. set (b' := mkBuffer _ _ _ _ _). split.
  - split.
    + intros i c Hc Hdc. destruct (decide (i = id)) as [->|].
      * rewrite lookup_insert_eq in Hc. by simplify_eq.
      * rewrite lookup_insert_ne in Hc by done. by apply (heap_stores _ Hh i).
    + intros i c Hc. destruct (decide (i = id)) as [->|].
      * rewrite lookup_insert_eq in Hc. injection Hc as <-. apply (heap_lengths _ Hh id _ Hb).
      * rewrite lookup_insert_ne in Hc by done. by apply (heap_lengths _ Hh i).
    + apply Hh.
  - assert (∀ v i, owner v = Some i → is_Some (h !! i) → i ≠ id →
      ∃ c, <[id := b']> h !! i = Some c ∧
        (get_backing_store c ≠ get_backing_store b ∨ detached c = true ∨ shares h id b v)) as Hother.
    { intros v i Ho [c Hc] Hi. exists c. rewrite lookup_insert_ne by done. split; [done|].
      unfold get_backing_store. destruct (detached c) eqn:Hdc; [by right; left|].
      destruct (detached b) eqn:Hdb; [left; by apply (heap_stores _ Hh _ _ Hc)|].
      destruct (decide (backing_store c = backing_store b)) as [Hs|]; [|by left]. right; right. by exists i, c. }
    intros v Hv. destruct v as [| |x|n|z|s|ptr|l|i|k i offset length|]; try (split; [done|by right; right; left]).
    + destruct (decide (i = id)) as [->|Hi].
      * split; [simpl; by rewrite lookup_insert_eq|]. right; left. simpl. by rewrite lookup_insert_eq.
      * destruct (Hother (VArrayBuffer i) i eq_refl Hv Hi) as (c & Hc & Hcases). split; [simpl; by rewrite Hc|].
        simpl. rewrite Hc. simpl. destruct Hcases as [|[Hdc|]]; [by left| |by right; right; right]. right; left. by rewrite Hdc.
    + destruct Hv as (c & Hc & Hbounds). destruct (decide (i = id)) as [->|Hi].
      * simplify_eq. split; [exists b'; simpl; by rewrite lookup_insert_eq|].
        right; left. simpl. by rewrite lookup_insert_eq.
      * destruct (Hother (VView k i offset length) i eq_refl ltac:(by eexists) Hi) as (c' & Hc' & Hcases). split.
        -- exists c. by rewrite lookup_insert_ne.
        -- simpl. rewrite Hc'. simpl. destruct Hcases as [|[Hdc|]]; [by left| |by right; right; right].
           right; left. by rewrite Hdc.
Qed.

(** An argument that is detached: an [ArrayBuffer], or a view of a kind. *)
Definition to_detached (kind : option ViewKind) h v : outcome (result Slice.V8Slice text * heap) :=
  match kind with
  | Some kind => to_v8_slice_detachable p kind h v
  | None => Ret (to_v8_slice_buffer_detachable h v)
  end.
Definition detaches (kind : option ViewKind) h v : option (Z * ArrayBuffer) :=
  match kind, v with
  | None, VArrayBuffer id => pair id <$> h !! id
  | Some kind, VView k id _ _ => if decide (k = kind) then pair id <$> h !! id else None
  | _, _ => None
  end.

(** The slice has the bytes of [v]; no value reaches them any more, unless it is of another
    buffer over the same store. *)
Definition taken_over h v (id : Z) (b : ArrayBuffer) (s : Slice.V8Slice) h' : Prop :=
  value_bytes h v = Some (Slice.as_slice mem s) ∧
  ∀ v', value_ok h v' → value_ok h' v' ∧
    ∃ r, to_v8_slice_any p h' v' = Ret r ∧
      match r with
      | Ok s' => Slice.store s' ≠ Slice.store s ∨ Slice.as_slice mem s' = [] ∨ shares h id b v'
      | Err _ => value_bytes h' v' = None
      end.

Lemma taken_over_detached h v id b s :
  heap_ok h → h !! id = Some b → has_detach_key b = false → detachable b = true →
  value_bytes h v = Some (Slice.as_slice mem s) → Slice.store s = get_backing_store b →
  heap_ok (<[id := detach b]> h) ∧ taken_over h v id b s (<[id := detach b]> h).
Proof.
  intros Hh Hb Hk Hd Hs Hst. destruct (detached_ok h id b Hh Hb Hk Hd) as [Hh' Hall].
  split; [done|]. split; [done|]. intros v' Hv'. destruct (Hall v' Hv') as [Hv'' Hcases]. split; [done|].
  destruct (to_v8_slice_any_ok _ v' Hh' Hv'') as (r' & Hr' & Hspec). exists r'. split; [done|].
  destruct r' as [s'|e]; simpl in Hspec.
  - destruct Hspec as (_ & Hb' & Hst'). rewrite Hst, Hst'. destruct Hcases as [|[Hn|[Hn|]]]; [by left| | |by right; right];
      rewrite Hb' in Hn; [right; left; congruence|done].
  - apply bool_decide_eq_false in Hspec. destruct (value_bytes _ v') eqn:He; [|done].
    destruct Hspec. by eexists.
Qed.

(** With a detach key nothing happens. *)
Lemma detach_keyed h id b : h !! id = Some b → has_detach_key b = true → <[id := detach b]> h = h.
Proof. intros Hb Hk. apply insert_id. rewrite Hb. f_equal. unfold detach. by rewrite Hk. Qed.

Definition detach_outcome h v (id : Z) (b : ArrayBuffer) (s : Slice.V8Slice) h' : Prop :=
  if has_detach_key b then h' = h ∧ value_bytes h v = Some (Slice.as_slice mem s)
  else taken_over h v id b s h'.

Lemma detach_outcome_ok h v id b s :
  heap_ok h → h !! id = Some b → detachable b = true →
  value_bytes h v = Some (Slice.as_slice mem s) → Slice.store s = get_backing_store b →
  heap_ok (<[id := detach b]> h) ∧ detach_outcome h v id b s (<[id := detach b]> h).
Proof.
  intros Hh Hb Hd Hs Hst. unfold detach_outcome. destruct (has_detach_key b) eqn:Hk; [|by apply taken_over_detached].
  by rewrite detach_keyed.
Qed.

(** C36. The buffer of an argument that is taken over by Rust is detached: the slice has the bytes
    that JavaScript saw, and afterwards no value of JavaScript, whether it is a buffer or a view of
    any buffer, reaches them, with two exceptions.  A buffer with a detach key is not detached:
    nothing changes and the bytes are shared.  Values of another buffer over the same backing
    store still reach it ([shared_store_remains]; [ArrayBuffer::with_backing_store] for the
    store of a cloned [V8Slice] makes such buffers).  Without a buffer that can be detached
    there is an error, and nothing changes. *)
Theorem detached_slices_exclusive kind h v :
  heap_ok h → value_ok h v →
  ∃ r h', to_detached kind h v = Ret (r, h') ∧ heap_ok h' ∧
    match r with
    | Ok s => ∃ id b, detaches kind h v = Some (id, b) ∧ detachable b = true ∧ detach_outcome h v id b s h'
    | Err _ => h' = h ∧ ∀ id b, detaches kind h v = Some (id, b) → detachable b = false
    end.
Proof.
  intros Hh Hv. destruct kind as [kind|]; unfold to_detached, to_v8_slice_detachable, to_v8_slice_buffer_detachable.
  - destruct v as [| |x|n|z|s|ptr|l|id|k id offset length|]; try by eexists _, _.
    cbn [try_view detaches]. case_decide as Hk; [|by eexists _, _]. pose proof Hv as (b & Hb & _).
    rewrite Hb. destruct (detachable b) eqn:Hd; simpl.
    + destruct (view_slice_ok h k id offset length b Hh Hv Hb) as (s & -> & Hst & Hs). simpl.
      eexists _, _. split; [done|].
      destruct (detach_outcome_ok h (VView k id offset length) id b s) as [Hh' Ho]; try done.
      split; [done|]. by exists id, b.
    + eexists _, _. split; [done|]. split; [done|]. split; [done|]. by intros ? ? [= <- <-].
  - destruct v as [| |x|n|z|s|ptr|l|id|k id offset length|]; try by eexists _, _.
    destruct Hv as [b Hb]. cbn [try_array_buffer detaches]. rewrite Hb. simpl.
    destruct (detachable b) eqn:Hd; simpl; eexists _, _; (split; [done|]).
    + edestruct (detach_outcome_ok h (VArrayBuffer id) id b) as [Hh' Ho]; [done..|by apply buffer_slice_ok|done|].
      split; [done|]. by exists id, b.
    + split; [done|]. split; [done|]. by intros ? ? [= <- <-].
Qed.
End buffer_arguments.

(** A buffer of four bytes with two views of it. *)
Definition demo_memory : memory := {[ 1 := [10; 20; 30; 40] ]}.
Definition demo_heap : gmap Z ArrayBuffer := {[ 7 := mkBuffer 1 4 true false false ]}.
Definition demo_view : value text := VView Uint8 7 1 2.

Lemma demo_heap_ok : heap_ok demo_memory demo_heap ∧ value_ok demo_heap demo_view.
Proof.
  assert (∀ id b, demo_heap !! id = Some b → id = 7 ∧ b = mkBuffer 1 4 true false false) as Hall.
  { unfold demo_heap. intros id b [<- <-]%lookup_singleton_Some. done. }
  split; [split|].
  - intros id b [-> ->]%Hall _. done.
  - intros id b [-> ->]%Hall. done.
  - done.
  - exists (mkBuffer 1 4 true false false). split; [done|]. simpl. lia.
Qed.

Lemma detached_slices_exclusive_witness :
  ∃ s h', to_v8_slice_detachable Debug Uint8 demo_heap demo_view = Ret (Ok s, h') ∧
    Slice.as_slice demo_memory s = [20; 30] ∧
    to_v8_slice_any Debug h' (VArrayBuffer 7 : value text) = Ret (Ok (from_parts EMPTY_STORE 0 0)) ∧
    heap_ok demo_memory h'.
Proof.
  destruct demo_heap_ok as [Hh Hv].
  destruct (detached_slices_exclusive Debug demo_memory (Some Uint8) demo_heap demo_view Hh Hv)
    as (r & h' & Hrun & Hh' & _).
  vm_compute in Hrun. injection Hrun as <- <-. eexists _, _. split; [done|]. done.
Defined.

(** Two buffers over one store: the bytes that were taken over are those of the other one. *)
Lemma shared_store_remains :
  let h := <[8 := mkBuffer 1 4 true false false]> demo_heap in
  match to_v8_slice_buffer_detachable h (VArrayBuffer 7 : value text) with
  | (Ok s, h') =>
      Slice.as_slice demo_memory s = [10; 20; 30; 40] ∧
      to_v8_slice_any Debug h' (VArrayBuffer 8 : value text) = Ret (Ok s)
  | _ => False
  end.
Proof. vm_compute. split; reflexivity. Qed.

(** * Async ops *)

Section async.
Context {Fut Out Res W : Type} `{WakerCell W} (p : profile).
Context (F_poll : Fut → poll Out * Fut) (F_ready : Out → Fut) (fits : Fut → bool).
Implicit Types (d : FuturesUnorderedDriver (Fut:=Fut) (Res:=Res) (W:=W)).

Definition op_scheduling (lazy deferred : bool) : OpScheduling :=
  if lazy then Lazy else if deferred then Deferred else Eager.

(** [ctx.id] is the [op_id] of the op. *)
Definition map_async_op_fallible (ctx_id : Z) (lazy deferred : bool) d (promise_id : Z) (op : Fut) :=
  submit_op_fallible_scheduling p F_poll F_ready fits (op_scheduling lazy deferred) d
    (mkInfo promise_id ctx_id) op.
Definition map_async_op_infallible (ctx_id : Z) (lazy deferred : bool) d (promise_id : Z) (op : Fut) :=
  submit_op_infallible_scheduling p F_poll F_ready fits (op_scheduling lazy deferred) d
    (mkInfo promise_id ctx_id) op.

(** The flags of the op select the submission; a lazy op is lazy even if it is deferred. *)
Lemma map_async_op_submits `{!WakerCellLaws W} (ctx_id : Z) (lazy deferred : bool) d cs promise_id op :
  rep d cs → live_task d → len d + 1 < 2 ^ 64 →
  ∃ o woken d', map_async_op_fallible ctx_id lazy deferred d promise_id op = Ret (o, woken, d') ∧
    submitted d cs d' (o, woken) (mkInfo promise_id ctx_id)
      (accepted F_poll F_ready lazy (negb lazy && deferred) op).
Proof.
  intros Hr Hl Hlen. unfold map_async_op_fallible, op_scheduling.
  destruct lazy; [|destruct deferred]; cbn [submit_op_fallible_scheduling negb andb]; by apply submit_ok.
Qed.
End async.
