(* ===== verification/Convert.v ===== *)
(** [core/convert.rs]: the traits [ToV8] and [FromV8] and their implementations.

    A type is a code ([ty]), a Rust value of it a tree ([rust]).  Values of V8 are those of
    [OpValues]: arrays are trees, their elements may be getters that throw; typed arrays refer
    to the heap. *)

From S2P Require Import Prelude Buffers RustStr Numbers SerdeV8 OpValues.

Local Open Scope Z_scope.

(** * Types and values *)

Inductive IntTy := U8 | U16 | U32 | U64 | Usize | I8 | I16 | I32 | I64 | Isize.
Global Instance IntTy_eq_dec : EqDecision IntTy.
Proof. solve_decision. Defined.
Definition int_signed (t : IntTy) : bool :=
  match t with I8 | I16 | I32 | I64 | Isize => true | _ => false end.
Definition int_bits (t : IntTy) : Z :=
  match t with
  | U8 | I8 => 8
  | U16 | I16 => 16
  | U32 | I32 => 32
  | _ => 64
  end.
Definition int_name (t : IntTy) : text :=
  match t with
  | U8 => $"u8" | U16 => $"u16" | U32 => $"u32" | U64 => $"u64" | Usize => $"usize"
  | I8 => $"i8" | I16 => $"i16" | I32 => $"i32" | I64 => $"i64" | Isize => $"isize"
  end.

Inductive ElementKind := EInt8 | EUint8 | EInt16 | EUint16 | EInt32 | EUint32 | EBigInt64 | EBigUint64.
Global Instance ElementKind_eq_dec : EqDecision ElementKind.
Proof. solve_decision. Defined.
Definition element_type (k : ElementKind) : IntTy :=
  match k with
  | EInt8 => I8 | EUint8 => U8 | EInt16 => I16 | EUint16 => U16
  | EInt32 => I32 | EUint32 => U32 | EBigInt64 => I64 | EBigUint64 => U64
  end.
Definition view_kind (k : ElementKind) : ViewKind :=
  match k with
  | EInt8 => Int8 | EUint8 => Uint8 | EInt16 => Int16 | EUint16 => Uint16
  | EInt32 => Int32 | EUint32 => Uint32 | EBigInt64 => BigInt64 | EBigUint64 => BigUint64
  end.
Definition kind_name (k : ElementKind) : text :=
  match k with
  | EInt8 => $"Int8Array" | EUint8 => $"Uint8Array" | EInt16 => $"Int16Array" | EUint16 => $"Uint16Array"
  | EInt32 => $"Int32Array" | EUint32 => $"Uint32Array"
  | EBigInt64 => $"BigInt64Array" | EBigUint64 => $"BigUint64Array"
  end.
(** The order in which [ArrayBufferView::from_v8] asks. *)
Definition all_kinds : list ElementKind :=
  [EInt8; EUint8; EInt16; EUint16; EInt32; EUint32; EBigInt64; EBigUint64].

(** Types with [Numeric]. *)
Inductive NumericTy := NF32 | NF64 | NInt (t : IntTy).

#[local] Unset Elimination Schemes.
Inductive ty :=
  | TSmi (t : IntTy)
  | TNumber (t : NumericTy)
  | TInt (t : IntTy)
  | TF32
  | TF64
  | TBigInt
  | TBool
  | TString
  | TByteString
  | TOptionNull (t : ty)
  | TOptionUndefined (t : ty)
  | TOption (t : ty)
  | TTypedArray (k : ElementKind)
  | TArrayBufferView
  | TVec (t : ty)
  | TTuple (ts : list ty)
  | TLocal (T : text).  (** [v8::Local] and [v8::Global] *)

Inductive rust (J : Type) :=
  | RInt (z : Z)
  | RFloat (n : number)
  | RBigInt (sign_bit : bool) (words : list Z)
  | RBool (b : bool)
  | RString (s : text)
  | RByteString (s : text)
  | RNone
  | RSome (r : rust J)
  | RTypedArray (k : ElementKind) (elements : list Z)
  | RVec (l : list (rust J))
  | RTuple (l : list (rust J))
  | RLocal (v : value J).
#[local] Set Elimination Schemes.
Arguments RInt {J}.
Arguments RFloat {J}.
Arguments RBigInt {J}.
Arguments RBool {J}.
Arguments RString {J}.
Arguments RByteString {J}.
Arguments RNone {J}.
Arguments RSome {J}.
Arguments RTypedArray {J}.
Arguments RVec {J}.
Arguments RTuple {J}.
Arguments RLocal {J}.

(** [BadType] is V8's [DataError]; [JsErrorBox::from_err] keeps class and message. *)
Inductive error :=
  | BadType (actual expected : text)
  | ExpectedStringBut (actual : text)
  | ExpectedLatin1Only
  | TypeError (message : text).

(** * Bytes and words, least significant first *)

Fixpoint le_digits (base : Z) (n : nat) (z : Z) : list Z :=
  match n with O => [] | S n => z mod base :: le_digits base n (z / base) end.
Definition le_value (base : Z) (digits : list Z) : Z := foldr (λ d acc, d + base * acc) 0 digits.

Definition size_of (t : IntTy) : Z := int_bits t / 8.
Definition element_bytes (t : IntTy) (z : Z) : list Z := le_digits 256 (Z.to_nat (size_of t)) (z mod 2 ^ int_bits t).
Definition element_of_bytes (t : IntTy) (bytes : list Z) : Z :=
  int_as_int (int_signed t) (int_bits t) (le_value 256 bytes).
(** [n] elements from the bytes. *)
Fixpoint elements_of (t : IntTy) (n : nat) (bytes : list Z) : list Z :=
  match n with
  | O => []
  | S n => element_of_bytes t (ztake (size_of t) bytes) :: elements_of t n (zdrop (size_of t) bytes)
  end.

(** V8's [word_count] and [to_words_array]. *)
Definition word_count (z : Z) : nat :=
  if decide (z = 0) then 0%nat else Z.to_nat (Z.log2 (Z.abs z) / 64 + 1).
Definition to_words_array (z : Z) : bool * list Z :=
  (bool_decide (z < 0), le_digits (2 ^ 64) (word_count z) (Z.abs z)).
(** [new_from_words], if the words are not too many. *)
Definition words_value (sign_bit : bool) (words : list Z) : Z :=
  let z := le_value (2 ^ 64) words in if sign_bit then - z else z.

(** * The heap *)

Record world := mkWorld { mem : memory; buffers : gmap Z ArrayBuffer; next : Z }.

(** A new buffer with a store of its own. *)
Definition new_buffer (bytes : list Z) (w : world) : Z * world :=
  let id := next w in
  (id, mkWorld (<[id := bytes]> (mem w))
         (<[id := mkBuffer id (zlen bytes) true false false]> (buffers w)) (id + 1)).

(** A conversion to V8 allocates; one from V8 only reads. *)
Definition st (A : Type) : Type := world → outcome (result A error * world).
Global Instance st_ret : MRet st := λ A a w, Ret (Ok a, w).
Global Instance st_bind : MBind st := λ A B k m w,
  match m w with
  | Ret (Ok a, w) => k a w
  | Ret (Err e, w) => Ret (Err e, w)
  | Panic f => Panic f
  end.
Definition st_err {A} (e : error) : st A := λ w, Ret (Err e, w).
Definition st_unwrap {A} (o : option A) : st A :=
  λ w, match o with Some a => Ret (Ok a, w) | None => Panic Unwrap end.
Definition st_panic {A} (f : fault) : st A := λ _, Panic f.
Definition st_new_buffer (bytes : list Z) : st Z :=
  λ w, let (id, w) := new_buffer bytes w in Ret (Ok id, w).

Definition rd (A : Type) : Type := outcome (result A error).
Global Instance rd_ret : MRet rd := λ A a, Ret (Ok a).
Global Instance rd_bind : MBind rd := λ A B k m,
  match m with Ret (Ok a) => k a | Ret (Err e) => Ret (Err e) | Panic f => Panic f end.
Definition rd_err {A} (e : error) : rd A := Ret (Err e).
Definition rd_panic {A} (f : fault) : rd A := Panic f.

(** V8 and its crate: names of types in errors, [ToString], the bounds on lengths, [TryFrom]. *)
Class V8Values (J : Type) := {
  type_repr : value J → text;
  to_js_string : value J → text;
  typed_array_fits : Z → bool;
  is_type : text → value J → bool
}.

Section convert.
Context `{StoredStrings J, V8Values J}.
Abbreviation value := (value J).
Abbreviation rust := (rust J).
Implicit Types (v : value) (r : rust) (w : world).

Definition bad_type {A} (expected : text) v : rd A := rd_err (BadType (type_repr v) expected).
Definition ok_or {A} (o : option A) (expected : text) v : rd A :=
  match o with Some a => mret a | None => bad_type expected v end.

(** ** [ToV8] *)

Definition Integer_new (z : Z) : value := VNumber (Finite z 0).
Definition Number_new (n : number) : value := VNumber n.

(** [SmallInt::as_i32], [Numeric::as_f64]; [self as f64] of the integer types is the same. *)
Definition as_i32 (z : Z) : Z := int_as_int true 32 z.
Definition as_f64 (z : Z) : number := int_as_f64 z.

Definition bigint_to_v8 (sign_bit : bool) (words : list Z) : st value :=
  let z := words_value sign_bit words in
  if bigint_fits z then mret (VBigInt z) else st_err (TypeError ($"Failed to create BigInt")).

Definition typed_array_to_v8 (k : ElementKind) (elements : list Z) : st value :=
  let len := zlen elements in
  let failed := TypeError ($"Failed to create typed array") in
  if decide (len = 0) then
    ab ← st_new_buffer [];
    if typed_array_fits 0 then mret (VView (view_kind k) ab 0 0) else st_err failed
  else
    ab ← st_new_buffer (concat (map (element_bytes (element_type k)) elements));
    if typed_array_fits len then mret (VView (view_kind k) ab 0 (len * size_of (element_type k)))
    else st_err failed.

(** [Smi<T>]; [Number<T>] of the integer types, and the integer types themselves. *)
Definition smi_to_v8 (z : Z) : st value := mret (Integer_new (as_i32 z)).
Definition number_to_v8 (z : Z) : st value := mret (Number_new (as_f64 z)).
Definition float_to_v8 (n : number) : st value := mret (Number_new n).
Definition bool_to_v8 (b : bool) : st value := mret (VBool b).
Definition string_to_v8 (s : text) : st value := j ← st_unwrap (of_utf8 s); mret (VString j).
Definition byte_string_to_v8 (s : text) : st value := j ← st_unwrap (of_one_byte s); mret (VString j).
Definition option_null_to_v8 (T_to_v8 : rust → st value) (o : option rust) : st value :=
  match o with Some r => T_to_v8 r | None => mret VNull end.
Definition option_undefined_to_v8 (T_to_v8 : rust → st value) (o : option rust) : st value :=
  match o with Some r => T_to_v8 r | None => mret VUndefined end.
Definition option_to_v8 (T_to_v8 : rust → st value) (o : option rust) : st value :=
  match o with Some r => T_to_v8 r | None => mret VNull end.
Definition array_buffer_view_to_v8 (k : ElementKind) (elements : list Z) : st value :=
  typed_array_to_v8 k elements.

(** In order, up to the first error. *)
Definition all_to_v8 (f : rust → st value) : list rust → st (list value) :=
  fix go l := match l with
              | [] => mret []
              | r :: l => v ← f r; vs ← go l; mret (v :: vs)
              end.
Definition elements_to_v8 (f : ty → rust → st value) : list ty → list rust → st (list value) :=
  fix go ts l := match ts, l with
                 | t :: ts, r :: l => v ← f t r; vs ← go ts l; mret (v :: vs)
                 | [], [] => mret []
                 | _, _ => st_panic Unreachable  (** not a value of the type *)
                 end.

Definition vec_to_v8 (f : rust → st value) (l : list rust) : st value :=
  elements ← all_to_v8 f l; mret (VArray (map Some elements)).
Definition tuple_to_v8 (f : ty → rust → st value) (ts : list ty) (l : list rust) : st value :=
  elements ← elements_to_v8 f ts l; mret (VArray (map Some elements)).
(** [v8::Local], [v8::Global]: of any type to [v8::Value]. *)
Definition local_to_v8 v : st value := mret v.

Fixpoint to_v8 (t : ty) r {struct t} : st value :=
  match t, r with
  | TSmi _, RInt z => smi_to_v8 z
  | TNumber NF32, RFloat n | TNumber NF64, RFloat n | TF32, RFloat n | TF64, RFloat n => float_to_v8 n
  | TNumber (NInt _), RInt z | TInt _, RInt z => number_to_v8 z
  | TBigInt, RBigInt sign_bit words => bigint_to_v8 sign_bit words
  | TBool, RBool b => bool_to_v8 b
  | TString, RString s => string_to_v8 s
  | TByteString, RByteString s => byte_string_to_v8 s
  | TOptionNull t, RSome r => option_null_to_v8 (to_v8 t) (Some r)
  | TOptionNull t, RNone => option_null_to_v8 (to_v8 t) None
  | TOptionUndefined t, RSome r => option_undefined_to_v8 (to_v8 t) (Some r)
  | TOptionUndefined t, RNone => option_undefined_to_v8 (to_v8 t) None
  | TOption t, RSome r => option_to_v8 (to_v8 t) (Some r)
  | TOption t, RNone => option_to_v8 (to_v8 t) None
  | TTypedArray k, RTypedArray k' elements =>
      if decide (k' = k) then typed_array_to_v8 k elements else st_panic Unreachable
  | TArrayBufferView, RTypedArray k elements => array_buffer_view_to_v8 k elements
  | TVec t, RVec l => vec_to_v8 (to_v8 t) l
  | TTuple ts, RTuple l => tuple_to_v8 to_v8 ts l
  | TLocal _, RLocal v => local_to_v8 v
  | _, _ => st_panic Unreachable  (** not a value of the type *)
  end.

(** ** [FromV8] *)

Definition smi_from_v8 (t : IntTy) v : rd rust :=
  z ← ok_or (to_i32_option v) (int_name t) v;
  mret (RInt (int_as_int (int_signed t) (int_bits t) z)).

(** [impl_numeric!]: the conversion of arguments of each type. *)
Definition numeric_arg (t : IntTy) : option IntArg :=
  match t with
  | U32 => Some ArgU32
  | U64 | Usize => Some ArgU64
  | I32 => Some ArgI32
  | I64 | Isize => Some ArgI64
  | _ => None
  end.
Definition number_from_v8 (t : NumericTy) v : rd rust :=
  match t with
  | NF32 => n ← ok_or (to_f32_option v) ($"f32") v; mret (RFloat n)
  | NF64 => n ← ok_or (to_f64_option v) ($"f64") v; mret (RFloat n)
  | NInt t =>
      match numeric_arg t with
      | Some a => z ← ok_or (to_int_option a v) (int_name t) v; mret (RInt z)
      | None => rd_panic Unreachable
      end
  end.

(** [impl_number_types!] *)
Definition cast_number v : rd number :=
  match v with VNumber n => mret n | _ => bad_type ($"Number") v end.

Definition bigint_from_v8 v : rd rust :=
  match v with
  | VBigInt z => let (sign_bit, words) := to_words_array z in mret (RBigInt sign_bit words)
  | _ => bad_type ($"BigInt") v
  end.

Definition string_from_v8 v : rd rust :=
  mret (RString (match v with VString s => to_rust_string_lossy s | _ => to_js_string v end)).

Definition byte_string_from_v8 v : rd rust :=
  match v with
  | VString s =>
      match one_byte s with
      | Some buffer => mret (RByteString buffer)
      | None => rd_err ExpectedLatin1Only
      end
  | _ => rd_err (ExpectedStringBut (type_repr v))
  end.

(** [abview_to_box]: the elements that the view covers. *)
Definition abview_to_box (t : IntTy) w (id offset length : Z) : list Z :=
  let b := buffers w !! id in
  let byte_length := view_offset b length in
  if decide (byte_length = 0) then []
  else
    let len := byte_length / size_of t in
    let data := zdrop (view_offset b offset) (Slice.store_bytes (mem w) (from_option get_backing_store EMPTY_STORE b)) in
    elements_of t (Z.to_nat len) data.

Definition typed_array_from_v8 (k : ElementKind) w v : rd rust :=
  match v with
  | VView k' id offset length =>
      if decide (k' = view_kind k) then
        mret (RTypedArray k (abview_to_box (element_type k) w id offset length))
      else bad_type (kind_name k) v
  | _ => bad_type (kind_name k) v
  end.

Definition is_view_of v (k : ElementKind) : bool :=
  match v with VView k' _ _ _ => bool_decide (k' = view_kind k) | _ => false end.
Definition array_buffer_view_from_v8 w v : rd rust :=
  match base.filter (λ k, is_view_of v k = true) all_kinds with
  | k :: _ => typed_array_from_v8 k w v
  | [] => bad_type ($"ArrayBufferView") v
  end.

(** [Vec<T>::from_v8]: [len] uninitialized elements are written one by one.  After an error the
    elements that were written are dropped: the second result.  [get_index] is [None] if it throws. *)
Section vec.
Context {A : Type} (get_index : nat → option value) (T_from_v8 : value → rd A).

Definition maybe_uninit_vec (len : nat) : list (option A) := replicate len None.
(** [assume_init_drop] of the first [i] elements. *)
Definition drop_written (i : nat) (out : list (option A)) : outcome (list A) :=
  match mapM id (take i out) with Some l => Ret l | None => Panic BadMemory end.
(** [transmute_vec]. *)
Definition assume_init (out : list (option A)) : outcome (list A) :=
  match mapM id out with Some l => Ret l | None => Panic BadMemory end.

Fixpoint vec_loop (n i : nat) (out : list (option A)) : outcome (result (list A) error * list A) :=
  match n with
  | O => l ← assume_init out; Ret (Ok l, [])
  | S n =>
      v ← unwrap (get_index i);
      r ← T_from_v8 v;
      match r with
      | Ok a =>
          if decide (i < length out)%nat then vec_loop n (S i) (<[i := Some a]> out) else Panic OutOfBounds
      | Err e => dropped ← drop_written i out; Ret (Err e, dropped)
      end
  end.
Definition vec_from_v8 (len : nat) : outcome (result (list A) error * list A) :=
  vec_loop len 0 (maybe_uninit_vec len).
End vec.

Definition without_drops {A B} (o : outcome (result A error * B)) : rd A :=
  match o with Ret (r, _) => Ret r | Panic f => Panic f end.

(** [Array::get_index]: [None] if the read throws. *)
Definition get_index (elements : list (option value)) (i : nat) : option value :=
  default (Some VUndefined) (elements !! i).

Definition try_array v : option (list (option value)) := match v with VArray elements => Some elements | _ => None end.
Definition is_null v : bool := match v with VNull => true | _ => false end.
Definition is_undefined v : bool := match v with VUndefined => true | _ => false end.

Definition show_nat (n : nat) : text := digits 10 20 (Z.of_nat n) [].
Definition wrong_length (expected got : nat) : error :=
  TypeError ($"Expected " ++ show_nat expected ++ $" elements, got " ++ show_nat got).

(** The elements from [i] on. *)
Definition elements_from_v8 (f : ty → value → rd rust) (array : list (option value)) : list ty → nat → rd (list rust) :=
  fix go ts i := match ts with
                 | [] => mret []
                 | t :: ts =>
                     match get_index array i with
                     | Some element => res ← f t element; l ← go ts (S i); mret (res :: l)
                     | None => rd_panic Unwrap
                     end
                 end.

(** [impl_number_types!] *)
Definition int_from_v8 (t : IntTy) v : rd rust :=
  n ← cast_number v; mret (RInt (f64_as_int (int_signed t) (int_bits t) n)).
Definition float_from_v8 (cast : number → number) v : rd rust := n ← cast_number v; mret (RFloat (cast n)).
Definition bool_from_v8 v : rd rust := match v with VBool b => mret (RBool b) | _ => bad_type ($"Boolean") v end.
Definition option_null_from_v8 (T_from_v8 : value → rd rust) v : rd rust :=
  if is_null v then mret RNone else r ← T_from_v8 v; mret (RSome r).
Definition option_undefined_from_v8 (T_from_v8 : value → rd rust) v : rd rust :=
  if is_undefined v then mret RNone else r ← T_from_v8 v; mret (RSome r).
Definition option_from_v8 (T_from_v8 : value → rd rust) v : rd rust :=
  if is_null v || is_undefined v then mret RNone else r ← T_from_v8 v; mret (RSome r).
Definition rust_vec_from_v8 (T_from_v8 : value → rd rust) v : rd rust :=
  arr ← ok_or (try_array v) ($"Array") v;
  l ← without_drops (vec_from_v8 (get_index arr) T_from_v8 (length arr));
  mret (RVec l).
Definition tuple_from_v8 (f : ty → value → rd rust) (ts : list ty) v : rd rust :=
  array ← ok_or (try_array v) ($"Array") v;
  if decide (length array ≠ length ts) then rd_err (wrong_length (length ts) (length array))
  else l ← elements_from_v8 f array ts 0; mret (RTuple l).
Definition local_from_v8 (T : text) v : rd rust := if is_type T v then mret (RLocal v) else bad_type T v.

Fixpoint from_v8 w (t : ty) v {struct t} : rd rust :=
  match t with
  | TSmi t => smi_from_v8 t v
  | TNumber t => number_from_v8 t v
  | TInt t => int_from_v8 t v
  | TF32 => float_from_v8 to_f32 v
  | TF64 => float_from_v8 id v
  | TBigInt => bigint_from_v8 v
  | TBool => bool_from_v8 v
  | TString => string_from_v8 v
  | TByteString => byte_string_from_v8 v
  | TOptionNull t => option_null_from_v8 (from_v8 w t) v
  | TOptionUndefined t => option_undefined_from_v8 (from_v8 w t) v
  | TOption t => option_from_v8 (from_v8 w t) v
  | TTypedArray k => typed_array_from_v8 k w v
  | TArrayBufferView => array_buffer_view_from_v8 w v
  | TVec t => rust_vec_from_v8 (from_v8 w t) v
  | TTuple ts => tuple_from_v8 (from_v8 w) ts v
  | TLocal T => local_from_v8 T v
  end.
End convert.
