(* ===== verification/ConvertLaws.v ===== *)
(** The conversions of [Convert]: what they return has the type, and values come back. *)

From S2P Require Import Prelude Buffers RustStr Numbers SerdeV8 SerdeRoundtrip OpValues Convert.

Local Open Scope Z_scope.

(** * [f32] *)

Lemma round_multiple r e : round_ties_even (r * pow2 e) e = r.
Proof.
  pose proof (pow2_pos e). unfold round_ties_even. rewrite Z.div_mul, Z.mod_mul by lia.
  by rewrite decide_True by lia.
Qed.

Lemma f32_finite_fixed r q :
  -149 <= q → Z.abs r < 2 ^ 24 → q = -149 ∨ 2 ^ 23 <= Z.abs r →
  to_f32 (f32_finite r q) = f32_finite r q.
Proof.
  intros Hq Hr Hn.
  assert (Z.log2 (Z.abs r) <= 23) as Hlog.
  { destruct (decide (r = 0)) as [->|]; [done|]. apply Z.lt_succ_r, Z.log2_lt_pow2; lia. }
  unfold f32_finite. case_decide as Hneg.
  - unfold to_f32. rewrite decide_True by lia. done.
  - assert (Z.log2 (Z.abs r) = 23) as Hlog'.
    { apply Z.le_antisymm; [done|]. apply Z.log2_le_pow2; lia. }
    case_decide as Hbig; [done|]. unfold to_f32.
    rewrite Z.abs_mul, (Z.abs_eq (2 ^ q)), Z.log2_mul_pow2 by lia. rewrite Hlog'.
    replace (Z.max (q + 23 - Z.of_nat 0 - 23) (-149)) with q by lia.
    case_decide as He; [done|].
    assert (2 ^ q = pow2 (Z.to_nat (Z.of_nat 0 + q))) as Hp by (unfold pow2; f_equal; lia).
    rewrite Hp, round_multiple, decide_False by lia. rewrite <- Hp. unfold f32_finite.
    by rewrite !decide_False by lia.
Qed.

Lemma to_f32_idemp n : to_f32 (to_f32 n) = to_f32 n.
Proof.
  destruct n as [| |m k]; try done. unfold to_f32 at 2 3.
  set (q := Z.max _ _). set (e := Z.of_nat k + q). case_decide as He.
  { unfold to_f32. fold q. fold e. by rewrite decide_True by done. }
  set (r := round_ties_even m (Z.to_nat e)).
  assert (pow2 (Z.to_nat e) = 2 ^ e) as Hp by (unfold pow2; f_equal; lia).
  assert (m ≠ 0 → 2 ^ Z.log2 (Z.abs m) <= Z.abs m < 2 ^ (Z.log2 (Z.abs m) + 1)) as Hm
    by (intros; apply Z.log2_spec; lia).
  assert (Z.log2 (Z.abs m) + 1 <= 24 + e) as Hle by lia.
  assert (Z.abs m <= 2 ^ 24 * 2 ^ e) as Habs.
  { destruct (decide (m = 0)) as [->|]; [lia|]. rewrite <- Z.pow_add_r by lia.
    pose proof (Z.pow_le_mono_r 2 _ _ ltac:(lia) Hle). lia. }
  assert (- 2 ^ 24 <= r <= 2 ^ 24) as Hr by (apply round_between; rewrite Hp; lia).
  assert (q = -149 ∨ 2 ^ 23 <= Z.abs r) as Hnormal.
  { destruct (decide (q = -149)) as [|Hq]; [by left|right].
    assert (e = Z.log2 (Z.abs m) - 23) as Hlog by lia.
    destruct (decide (m = 0)) as [->|Hm0]; [simpl in Hlog; lia|].
    assert (2 ^ 23 * 2 ^ e <= Z.abs m) as Hlow.
    { rewrite <- Z.pow_add_r by lia. replace (23 + e) with (Z.log2 (Z.abs m)) by lia. by apply Hm. }
    destruct (decide (0 <= m)).
    - assert (2 ^ 23 <= r <= 2 ^ 24) by (apply round_between; rewrite Hp; lia). lia.
    - assert (- 2 ^ 24 <= r <= - 2 ^ 23) by (apply round_between; rewrite Hp; lia). lia. }
  case_decide as H24; apply f32_finite_fixed; try lia.
  - assert (r = 2 ^ 24 ∨ r = - 2 ^ 24) as [->| ->] by lia; vm_compute; done.
  - right. assert (r = 2 ^ 24 ∨ r = - 2 ^ 24) as [->| ->] by lia; vm_compute; done.
Qed.

#[local] Arguments to_f32 : simpl never.
#[local] Arguments int_as_int : simpl never.

(** The conversions of the single types. *)
Ltac unfold_conversions :=
  cbn [to_v8 from_v8];
  unfold smi_to_v8, number_to_v8, float_to_v8, bool_to_v8, string_to_v8, byte_string_to_v8, option_null_to_v8,
    option_undefined_to_v8, option_to_v8, array_buffer_view_to_v8, vec_to_v8, tuple_to_v8, local_to_v8,
    int_from_v8, float_from_v8, bool_from_v8, option_null_from_v8, option_undefined_from_v8, option_from_v8,
    rust_vec_from_v8, tuple_from_v8, local_from_v8.

(** * Digits *)

Definition int_range (t : IntTy) (z : Z) : Prop :=
  int_min (int_signed t) (int_bits t) <= z <= int_max (int_signed t) (int_bits t).
Definition word (d : Z) : Prop := 0 <= d < 2 ^ 64.

Section digits.
Context (base : Z) (Hbase : 1 < base).

Lemma le_value_bounds ds :
  Forall (λ d, 0 <= d < base) ds → 0 <= le_value base ds < base ^ Z.of_nat (length ds).
Proof.
  induction 1 as [|d ds Hd _ IH]; [simpl; lia|]. cbn [length le_value foldr].
  rewrite Nat2Z.inj_succ, Z.pow_succ_r by lia. unfold le_value in IH. nia.
Qed.

Lemma le_digits_value ds :
  Forall (λ d, 0 <= d < base) ds → le_digits base (length ds) (le_value base ds) = ds.
Proof.
  induction 1 as [|d ds Hd _ IH]; [done|]. cbn [length le_digits le_value foldr].
  change (foldr _ 0 ds) with (le_value base ds). rewrite (Z.mul_comm base), Z.mod_add, Z.mod_small by lia.
  rewrite Z.div_add, Z.div_small, Z.add_0_l by lia. by rewrite IH.
Qed.

Lemma le_value_digits n z : 0 <= z < base ^ Z.of_nat n → le_value base (le_digits base n z) = z.
Proof.
  revert z. induction n as [|n IH]; intros z Hz; [simpl in *; lia|].
  rewrite Nat2Z.inj_succ, Z.pow_succ_r in Hz by lia. cbn [le_digits le_value foldr].
  change (foldr _ 0 ?l) with (le_value base l). rewrite IH.
  - pose proof (Z.div_mod z base). lia.
  - split; [apply Z.div_pos; lia|]. apply Z.div_lt_upper_bound; lia.
Qed.

Lemma le_digits_length n z : length (le_digits base n z) = n.
Proof. revert z. induction n as [|n IH]; intros z; simpl; [done|]. by rewrite IH. Qed.

Lemma le_digits_range n z : Forall (λ d, 0 <= d < base) (le_digits base n z).
Proof.
  revert z. induction n as [|n IH]; intros z; constructor; [|apply IH]. apply Z.mod_pos_bound. lia.
Qed.

(** The value of digits is at least that of the last one. *)
Lemma le_value_last ds d :
  Forall (λ d, 0 <= d < base) ds → 0 <= d →
  d * base ^ Z.of_nat (length ds) <= le_value base (ds ++ [d]).
Proof.
  induction 1 as [|c ds Hc _ IH]; intros Hd; [simpl; lia|]. specialize (IH Hd).
  cbn [length app le_value foldr]. change (foldr _ 0 (ds ++ [d])) with (le_value base (ds ++ [d])).
  rewrite Nat2Z.inj_succ, Z.pow_succ_r by lia. nia.
Qed.
End digits.

Lemma size_of_bits t : 256 ^ Z.of_nat (Z.to_nat (size_of t)) = 2 ^ int_bits t ∧ 0 < size_of t.
Proof. by destruct t. Qed.

Lemma int_as_int_range t z : int_range t (int_as_int (int_signed t) (int_bits t) z).
Proof.
  unfold int_range, int_as_int, int_min, int_max.
  pose proof (Z.mod_pos_bound (z + 2 ^ (int_bits t - 1)) (2 ^ int_bits t)).
  pose proof (Z.mod_pos_bound z (2 ^ int_bits t)).
  destruct t; cbn [int_signed int_bits] in *; lia.
Qed.

Lemma element_roundtrip t z : int_range t z → element_of_bytes t (element_bytes t z) = z.
Proof.
  intros Hz. unfold element_of_bytes, element_bytes. destruct (size_of_bits t) as [Hs _].
  assert (0 < int_bits t) as Hb by (by destruct t).
  rewrite le_value_digits by (try rewrite Hs; try apply Z.mod_pos_bound; lia).
  rewrite (int_as_int_congr _ _ _ z) by (rewrite ?Z.mod_mod by lia; done || lia). by apply int_as_int_id.
Qed.

Lemma element_bytes_length t z : zlen (element_bytes t z) = size_of t.
Proof.
  unfold zlen, element_bytes. rewrite le_digits_length. destruct (size_of_bits t). lia.
Qed.

Lemma elements_roundtrip t es :
  Forall (int_range t) es → elements_of t (length es) (concat (map (element_bytes t) es)) = es.
Proof.
  induction 1 as [|e es He _ IH]; [done|]. cbn [length elements_of map concat].
  assert (length (element_bytes t e) = Z.to_nat (size_of t)) as Hl
    by (pose proof (element_bytes_length t e); unfold zlen in *; lia).
  unfold ztake, zdrop. rewrite take_app_length', drop_app_length' by done.
  by rewrite element_roundtrip, IH.
Qed.

Lemma elements_range t n bytes : Forall (int_range t) (elements_of t n bytes).
Proof. revert bytes. induction n as [|n IH]; intros; constructor; [apply int_as_int_range|apply IH]. Qed.

Lemma elements_bytes_length t es :
  zlen (concat (map (element_bytes t) es)) = zlen es * size_of t.
Proof.
  induction es as [|e es IH]; [done|]. cbn [map concat]. rewrite zlen_app, element_bytes_length, IH.
  unfold zlen. simpl length. lia.
Qed.

(** ** BigInts *)

Definition minimal_words (sign_bit : bool) (ws : list Z) : Prop :=
  Forall word ws ∧ (∀ w, last ws = Some w → w ≠ 0) ∧ (sign_bit = true → ws ≠ []).

Lemma word_count_value ws :
  Forall word ws → (∀ w, last ws = Some w → w ≠ 0) →
  word_count (le_value (2 ^ 64) ws) = length ws ∧ (ws ≠ [] → 0 < le_value (2 ^ 64) ws).
Proof.
  intros Hw Hlast. destruct (decide (ws = [])) as [->|Hne]; [done|].
  destruct (exists_last Hne) as (ds & d & ->). rewrite last_snoc in Hlast.
  specialize (Hlast d eq_refl). pose proof Hw as [Hds [Hd _]%Forall_cons]%Forall_app.
  unfold word in Hd. pose proof (le_value_last (2 ^ 64) ltac:(lia) ds d Hds ltac:(lia)) as Hlow.
  pose proof (le_value_bounds (2 ^ 64) ltac:(lia) _ Hw) as Hhigh.
  rewrite length_app in *. cbn [length] in *. set (z := le_value _ _) in *. set (n := length ds) in *.
  assert (0 < (2 ^ 64) ^ Z.of_nat n) as Hpos by lia.
  assert (0 < z) as Hz by nia. split; [|done].
  unfold word_count. rewrite decide_False by lia. rewrite Z.abs_eq by lia.
  assert (Z.of_nat n * 64 <= Z.log2 z < (Z.of_nat n + 1) * 64) as Hlog.
  { split.
    - apply Z.log2_le_pow2; [done|]. rewrite Z.mul_comm, Z.pow_mul_r by lia. nia.
    - apply Z.log2_lt_pow2; [done|]. rewrite Z.mul_comm, Z.pow_mul_r by lia.
      replace (Z.of_nat n + 1) with (Z.of_nat (n + 1)) by lia. lia. }
  assert (Z.log2 z / 64 = Z.of_nat n) as -> by (symmetry; apply Z.div_unique with (Z.log2 z - Z.of_nat n * 64); lia).
  lia.
Qed.

Lemma words_roundtrip sign_bit ws :
  minimal_words sign_bit ws → to_words_array (words_value sign_bit ws) = (sign_bit, ws).
Proof.
  intros (Hw & Hlast & Hsign). destruct (word_count_value ws Hw Hlast) as [Hc Hpos].
  assert (∀ z, word_count (- z) = word_count z) as Hopp.
  { intros z. unfold word_count. rewrite Z.abs_opp. repeat case_decide; done || lia. }
  pose proof (le_value_bounds (2 ^ 64) ltac:(lia) _ Hw) as Hb. unfold to_words_array, words_value.
  destruct sign_bit.
  - specialize (Hpos (Hsign eq_refl)). rewrite Hopp, Hc, Z.abs_opp, Z.abs_eq, le_digits_value by (done || lia).
    by rewrite bool_decide_eq_true_2 by lia.
  - rewrite Hc, Z.abs_eq, le_digits_value by (done || lia). by rewrite bool_decide_eq_false_2 by lia.
Qed.

Lemma to_words_array_range z : Forall word (to_words_array z).2.
Proof. apply le_digits_range. lia. Qed.

(** * Types *)

Section ty_ind.
Context (P : ty → Prop).
Context (H_Smi : ∀ t, P (TSmi t)) (H_Number : ∀ t, P (TNumber t)) (H_Int : ∀ t, P (TInt t))
  (H_F32 : P TF32) (H_F64 : P TF64) (H_BigInt : P TBigInt) (H_Bool : P TBool) (H_String : P TString)
  (H_ByteString : P TByteString) (H_OptionNull : ∀ t, P t → P (TOptionNull t))
  (H_OptionUndefined : ∀ t, P t → P (TOptionUndefined t)) (H_Option : ∀ t, P t → P (TOption t))
  (H_TypedArray : ∀ k, P (TTypedArray k)) (H_View : P TArrayBufferView)
  (H_Vec : ∀ t, P t → P (TVec t)) (H_Tuple : ∀ ts, Forall P ts → P (TTuple ts))
  (H_Local : ∀ T, P (TLocal T)).
Fixpoint ty_ind' (t : ty) : P t :=
  match t with
  | TSmi t => H_Smi t
  | TNumber t => H_Number t
  | TInt t => H_Int t
  | TF32 => H_F32
  | TF64 => H_F64
  | TBigInt => H_BigInt
  | TBool => H_Bool
  | TString => H_String
  | TByteString => H_ByteString
  | TOptionNull t => H_OptionNull t (ty_ind' t)
  | TOptionUndefined t => H_OptionUndefined t (ty_ind' t)
  | TOption t => H_Option t (ty_ind' t)
  | TTypedArray k => H_TypedArray k
  | TArrayBufferView => H_View
  | TVec t => H_Vec t (ty_ind' t)
  | TTuple ts =>
      H_Tuple ts ((fix go ts : Forall P ts :=
                     match ts with
                     | [] => Forall_nil_2 P
                     | t :: ts => Forall_cons_2 P t ts (ty_ind' t) (go ts)
                     end) ts)
  | TLocal T => H_Local T
  end.
End ty_ind.

Definition is_f32 (n : number) : Prop := to_f32 n = n.
Definition is_numeric (t : IntTy) : Prop := is_Some (numeric_arg t).

(** [Numeric] has fewer integer types, and tuples have one to twelve elements. *)
Fixpoint is_ty (t : ty) : Prop :=
  match t with
  | TNumber (NInt t) => is_numeric t
  | TOptionNull t | TOptionUndefined t | TOption t | TVec t => is_ty t
  | TTuple ts =>
      (1 <= length ts <= 12)%nat ∧
      (fix go ts := match ts with [] => True | t :: ts => is_ty t ∧ go ts end) ts
  | _ => True
  end.

Class V8ValueLaws (J : Type) `{StoredStrings J, V8Values J} := {
  lossy_valid (j : J) : valid_utf8 (to_rust_string_lossy j) = true;
  js_string_valid (v : value J) : valid_utf8 (to_js_string v) = true
}.

Section typing.
Context `{StoredStrings J, V8Values J}.
Abbreviation value := (value J).
Abbreviation rust := (rust J).

Fixpoint has_type (t : ty) (r : rust) : Prop :=
  match t, r with
  | TSmi t, RInt z | TNumber (NInt t), RInt z | TInt t, RInt z => int_range t z
  | TNumber NF32, RFloat n | TF32, RFloat n => is_f32 n
  | TNumber NF64, RFloat n | TF64, RFloat n => True
  | TBigInt, RBigInt _ words => Forall word words
  | TBool, RBool _ => True
  | TString, RString s => valid_utf8 s = true
  | TByteString, RByteString _ => True
  | TOptionNull _, RNone | TOptionUndefined _, RNone | TOption _, RNone => True
  | TOptionNull t, RSome r | TOptionUndefined t, RSome r | TOption t, RSome r => has_type t r
  | TTypedArray k, RTypedArray k' es => k' = k ∧ Forall (int_range (element_type k)) es
  | TArrayBufferView, RTypedArray k es => Forall (int_range (element_type k)) es
  | TVec t, RVec l => Forall (has_type t) l
  | TTuple ts, RTuple l =>
      (fix go ts l := match ts, l with
                      | [], [] => True
                      | t :: ts, r :: l => has_type t r ∧ go ts l
                      | _, _ => False
                      end) ts l
  | TLocal T, RLocal v => is_type T v = true
  | _, _ => False
  end.

(** ** The loop of a vector *)

Section vec.
Context {A : Type} (get : nat → option value) (T_from_v8 : value → rd A).

Definition converted (i : nat) (a : A) : Prop := ∃ v, get i = Some v ∧ T_from_v8 v = Ret (Ok a).

Lemma mapM_Some (l : list A) : mapM id (map Some l) = Some l.
Proof. induction l as [|a l IH]; simpl; [done|]. by rewrite IH. Qed.

Lemma vec_loop_spec n (pre : list A) :
  (∀ j a, pre !! j = Some a → converted j a) →
  match vec_loop get T_from_v8 n (length pre) (map Some pre ++ replicate n None) with
  | Ret (Ok l, dropped) =>
      dropped = [] ∧ length l = (length pre + n)%nat ∧ ∀ j a, l !! j = Some a → converted j a
  | Ret (Err e, dropped) =>
      ∃ v, get (length dropped) = Some v ∧ T_from_v8 v = Ret (Err e) ∧
        (length dropped < length pre + n)%nat ∧ ∀ j a, dropped !! j = Some a → converted j a
  | Panic f =>
      ∃ i, (length pre <= i < length pre + n)%nat ∧
        (get i = None ∧ f = Unwrap ∨ ∃ v, get i = Some v ∧ T_from_v8 v = Panic f)
  end.
Proof.
  revert pre. induction n as [|n IH]; intros pre Hpre; cbn [vec_loop replicate].
  { rewrite app_nil_r. unfold assume_init. rewrite mapM_Some. simpl. split_and!; [done|lia|done]. }
  destruct (get (length pre)) as [v|] eqn:Hg; simpl; [|exists (length pre); split; [lia|by left]].
  destruct (T_from_v8 v) as [[a|e]|f] eqn:Ht; simpl.
  - rewrite decide_True by (rewrite length_app, length_map; simpl; lia).
    rewrite insert_app_r_alt, length_map, Nat.sub_diag by (by rewrite length_map). simpl.
    specialize (IH (pre ++ [a])). rewrite length_app, Nat.add_1_r, map_app, <- app_assoc in IH. simpl in IH.
    assert (∀ j b, (pre ++ [a]) !! j = Some b → converted j b) as Hpre'.
    { intros j b [Hj|[Hj Hb]]%lookup_app_Some; [by apply Hpre|].
      apply list_lookup_singleton_Some in Hb as [Hj0 <-]. replace j with (length pre) by lia. by exists v. }
    specialize (IH Hpre'). destruct (vec_loop _ _ _ _ _) as [[[l|e] dropped]|f].
    + destruct IH as (? & ? & ?). split_and!; [done|lia|done].
    + destruct IH as (v' & ? & ? & ? & ?). exists v'. split_and!; try done. lia.
    + destruct IH as (i & ? & ?). exists i. split; [lia|done].
  - unfold drop_written. rewrite take_app_length' by (by rewrite length_map). rewrite mapM_Some. simpl.
    exists v. split_and!; try done. lia.
  - exists (length pre). split; [lia|]. right. by exists v.
Qed.

(** Every element that [Vec::from_v8] converted is either in the vector that it returns or was dropped
    by it, exactly once and in order: after an error at one element those before it, and none otherwise.
    No element is read before it is written; only a getter that throws makes it panic. *)
Lemma vec_from_v8_drops len :
  match vec_from_v8 get T_from_v8 len with
  | Ret (Ok l, dropped) => dropped = [] ∧ length l = len ∧ ∀ j a, l !! j = Some a → converted j a
  | Ret (Err e, dropped) =>
      ∃ v, get (length dropped) = Some v ∧ T_from_v8 v = Ret (Err e) ∧
        (length dropped < len)%nat ∧ ∀ j a, dropped !! j = Some a → converted j a
  | Panic f =>
      ∃ i, (i < len)%nat ∧ (get i = None ∧ f = Unwrap ∨ ∃ v, get i = Some v ∧ T_from_v8 v = Panic f)
  end.
Proof.
  pose proof (vec_loop_spec len []) as Hspec. simpl in Hspec. unfold vec_from_v8, maybe_uninit_vec.
  specialize (Hspec ltac:(done)). destruct (vec_loop _ _ _ _ _) as [[[l|e] dropped]|f]; try done.
  destruct Hspec as (i & Hi & ?). exists i. split; [lia|done].
Qed.
End vec.

(** The vector of an array of JavaScript. *)
Definition sound {A} (Q : A → Prop) (o : rd A) : Prop :=
  match o with Ret (Ok a) => Q a | Ret (Err _) => True | Panic _ => False end.

Lemma sound_bind {A B} (Q : A → Prop) (P : B → Prop) (o : rd A) (k : A → rd B) :
  sound Q o → (∀ a, Q a → sound P (k a)) → sound P (o ≫= k).
Proof. destruct o as [[a|e]|f]; simpl; auto. Qed.

(** No read of an element throws, here and further down. *)
Fixpoint readable (v : value) : Prop :=
  match v with
  | VArray elements => all (λ e, match e with Some v => readable v | None => False end) elements
  | _ => True
  end.
Definition readable_array (arr : list (option value)) : Prop :=
  all (λ e, match e with Some v => readable v | None => False end) arr.

Lemma get_index_readable arr i : readable_array arr → ∃ v, get_index arr i = Some v ∧ readable v.
Proof.
  intros Harr. unfold get_index. destruct (arr !! i) as [e|] eqn:He; simpl; [|by exists VUndefined].
  pose proof (all_elem _ _ e Harr ltac:(by eapply list_elem_of_lookup_2)) as Hr. destruct e as [v|]; [by exists v|done].
Qed.

Lemma lookup_map_Some {A} (l : list A) i : map Some l !! i = Some <$> l !! i.
Proof. apply list_lookup_fmap. Qed.

Lemma sound_vec {A} (Q : A → Prop) (arr : list (option value)) (T : value → rd A) :
  readable_array arr → (∀ v, readable v → sound Q (T v)) →
  sound (Forall Q) (without_drops (vec_from_v8 (get_index arr) T (length arr))).
Proof.
  intros Harr HT. pose proof (vec_loop_spec (get_index arr) T (length arr) []) as Hspec.
  specialize (Hspec ltac:(done)). unfold vec_from_v8, maybe_uninit_vec. simpl app in Hspec.
  cbn [length] in Hspec. destruct (vec_loop _ _ _ _ _) as [[[l|e] dropped]|f]; simpl.
  - destruct Hspec as (_ & _ & Hl). apply Forall_lookup_2. intros i a Hi.
    destruct (Hl i a Hi) as (v & Hg & Hv). destruct (get_index_readable arr i Harr) as (v' & Hg' & Hr). simplify_eq.
    specialize (HT v Hr). by rewrite Hv in HT.
  - done.
  - destruct Hspec as (i & _ & Hspec). destruct (get_index_readable arr i Harr) as (v' & Hg' & Hr).
    destruct Hspec as [[Hg _]|(v & Hg & Hv)]; [congruence|]. simplify_eq. specialize (HT v Hr). by rewrite Hv in HT.
Qed.

Lemma vec_of_all {A} (arr : list value) (l : list A) (T : value → rd A) :
  Forall2 (λ v a, T v = Ret (Ok a)) arr l →
  without_drops (vec_from_v8 (get_index (map Some arr)) T (length arr)) = Ret (Ok l).
Proof.
  intros Hall. pose proof (vec_loop_spec (get_index (map Some arr)) T (length arr) []) as Hspec.
  specialize (Hspec ltac:(done)). unfold vec_from_v8, maybe_uninit_vec. simpl app in Hspec.
  cbn [length] in Hspec.
  assert (∀ i, (i < length arr)%nat → ∃ v, get_index (map Some arr) i = Some v ∧ arr !! i = Some v) as Hget.
  { intros i Hlt. destruct (lookup_lt_is_Some_2 _ _ Hlt) as [v' Hv']. exists v'. split; [|done].
    unfold get_index. by rewrite lookup_map_Some, Hv'. }
  assert (∀ i v, get_index (map Some arr) i = Some v → (i < length arr)%nat →
    ∃ a, l !! i = Some a ∧ T v = Ret (Ok a)) as Hi.
  { intros i v Hv Hlt. destruct (Hget i Hlt) as (v' & Hg & Hv'). simplify_eq. destruct (Forall2_lookup_l _ _ _ _ _ Hall Hv') as (a & ? & ?). by exists a. }
  destruct (vec_loop _ _ _ _ _) as [[[l'|e] dropped]|f]; simpl.
  - destruct Hspec as (_ & Hlen & Hl). do 2 f_equal. apply list_eq. intros i.
    pose proof (Forall2_length _ _ _ Hall) as Hll.
    destruct (l' !! i) as [a|] eqn:Ha.
    + pose proof (lookup_lt_Some _ _ _ Ha). destruct (Hl i a Ha) as (v & Hg & Hv).
      destruct (Hi i v Hg ltac:(lia)) as (a' & -> & Hv'). congruence.
    + symmetry. apply lookup_ge_None_2. apply lookup_ge_None_1 in Ha. lia.
  - destruct Hspec as (v & Hg & Hv & Hlt & _). destruct (Hi _ v Hg ltac:(lia)) as (a & _ & Hv'). congruence.
  - destruct Hspec as (i & Hlt & [[Hg _]|(v & Hg & Hv)]); [destruct (Hget i ltac:(lia)) as (? & ? & _); congruence|].
    destruct (Hi _ v Hg ltac:(lia)) as (a & _ & Hv'). congruence.
Qed.

(** ** Values of the type *)

Lemma to_int_option_range a (v : value) z :
  to_int_option a v = Some z → int_min (arg_signed a) (arg_bits a) <= z <= int_max (arg_signed a) (arg_bits a).
Proof.
  assert (∀ z, int_min (arg_signed a) (arg_bits a) <= int_as_int (arg_signed a) (arg_bits a) z
    <= int_max (arg_signed a) (arg_bits a)) as Hr.
  { intros z'. pose proof (int_as_int_range (match a with ArgU32 => U32 | ArgI32 => I32 | ArgU64 => U64 | ArgI64 => I64 end) z').
    by destruct a. }
  destruct v as [| |b|n|i|s|p|l|id|k id o len|]; try by destruct a.
  - rewrite to_int_option_number. intros [= <-]. apply Hr.
  - assert (to_int_option a (VBigInt i : value) = Some (int_as_int (arg_signed a) (arg_bits a) i)) as ->
      by (destruct a; cbn -[int_as_int]; by rewrite int_as_int_low by lia).
    intros [= <-]. apply Hr.
Qed.

Lemma numeric_arg_type t a :
  numeric_arg t = Some a → arg_signed a = int_signed t ∧ arg_bits a = int_bits t.
Proof. destruct t; intros [= <-]; done. Qed.

Lemma sound_ok_or {A} (Q : A → Prop) (o : option A) expected v :
  (∀ a, o = Some a → Q a) → sound Q (ok_or o expected v).
Proof. destruct o; simpl; auto. Qed.

Lemma typed_array_typed k w v : sound (has_type (TTypedArray k)) (typed_array_from_v8 k w v).
Proof.
  destruct v as [| |b|n|i|s|p|l|id|k' id o len|]; try done. simpl. case_decide; [|done].
  split; [done|]. unfold abview_to_box. case_decide; [constructor|apply elements_range].
Qed.

(** C35. [FromV8] keeps its types.  Of a value of JavaScript it makes a value of the type, with
    integers in their range and strings of valid UTF-8, or an error; it panics only if a read
    of an element of an array throws ([throwing_element_panics]), which is assumed not to
    happen, or for a type that [Numeric] or tuples do not have. *)
Theorem from_v8_typed `{!V8ValueLaws J} w t v :
  is_ty t → readable v → sound (has_type t) (from_v8 w t v).
Proof.
  revert v. induction t as [t|t|t| | | | | | |t IH|t IH|t IH|k| |t IH|ts IH|T] using ty_ind'; intros v Ht Hread; unfold_conversions.
  - eapply sound_bind; [by apply (sound_ok_or (λ _, True))|]. intros z _. apply int_as_int_range.
  - destruct t as [| |t]; simpl in Ht |- *.
    + eapply sound_bind; [apply (sound_ok_or is_f32)|by intros n].
      unfold to_f32_option, try_number_some, try_bignum, is_number. intros a.
      destruct v; try done; intros [= <-]; apply to_f32_idemp.
    + eapply sound_bind; [by apply (sound_ok_or (λ _, True))|done].
    + destruct Ht as [a Ha]. rewrite Ha. destruct (numeric_arg_type _ _ Ha) as [Hs Hb].
      eapply sound_bind; [apply (sound_ok_or (int_range t)); intros z Hz%to_int_option_range|by intros z].
      unfold int_range. by rewrite <- Hs, <- Hb.
  - destruct v; try done. simpl. apply f64_as_int_bounds. by destruct t.
  - destruct v; try done. simpl. apply to_f32_idemp.
  - by destruct v.
  - destruct v; try done. simpl. apply to_words_array_range.
  - by destruct v.
  - simpl. destruct v; try apply js_string_valid. apply lossy_valid.
  - destruct v; try done. simpl. by destruct (one_byte s).
  - destruct (is_null v); [done|]. eapply sound_bind; [by apply IH|done].
  - destruct (is_undefined v); [done|]. eapply sound_bind; [by apply IH|done].
  - destruct (is_null v || is_undefined v); [done|]. eapply sound_bind; [by apply IH|done].
  - apply typed_array_typed.
  - unfold array_buffer_view_from_v8. destruct (base.filter _ _) as [|k ks]; [done|].
    pose proof (typed_array_typed k w v) as Hk. destruct (typed_array_from_v8 k w v) as [[r|e]|f]; try done.
    destruct r; try done. by destruct Hk as [-> ?].
  - eapply sound_bind; [apply (sound_ok_or readable_array)|].
    { destruct v; try done. by intros ? [= <-]. }
    intros arr Harr. eapply sound_bind; [apply sound_vec; [done|]; intros v'; by apply IH|done].
  - eapply sound_bind; [apply (sound_ok_or readable_array)|].
    { destruct v; try done. by intros ? [= <-]. }
    intros arr Harr. case_decide as Hlen; [done|]. clear Hlen. destruct Ht as [_ Ht].
    eapply (sound_bind (has_type (TTuple ts) ∘ RTuple)); [|done]. generalize 0%nat.
    induction IH as [|t ts IHt _ IHts]; intros i; [done|]. destruct Ht as [Ht Hts].
    destruct (get_index_readable arr i Harr) as (e & He & Hre). simpl. rewrite He.
    eapply sound_bind; [by apply IHt|]. intros r Hr.
    eapply sound_bind; [by apply IHts|]. done.
  - destruct (is_type T v) eqn:HT; [exact HT|done].
Qed.

(** * Values come back *)

(** The null or undefined that a value becomes. *)
Fixpoint none_value (t : ty) (r : rust) : option value :=
  match t, r with
  | TOptionNull _, RNone | TOption _, RNone => Some VNull
  | TOptionUndefined _, RNone => Some VUndefined
  | TOptionNull t, RSome r | TOptionUndefined t, RSome r | TOption t, RSome r => none_value t r
  | TLocal _, RLocal v => if is_null v || is_undefined v then Some v else None
  | _, _ => None
  end.

(** What is not lost: 32 bits of a [Smi], 53 bits of an integer that becomes a number, words without leading
    zeros, and the [Some] of an [Option] whose content is not the value that stands for [None]. *)
Fixpoint faithful (t : ty) (r : rust) : Prop :=
  match t, r with
  | TSmi t, RInt z => int_range t z ∧ (int_bits t = 64 → - 2 ^ 31 <= z < 2 ^ 31)
  | TNumber (NInt t), RInt z => is_numeric t ∧ int_range t z ∧ to_f64 z = z
  | TInt t, RInt z => int_range t z ∧ to_f64 z = z
  | TNumber NF32, RFloat n | TF32, RFloat n => is_f32 n
  | TNumber NF64, RFloat n | TF64, RFloat n => True
  | TBigInt, RBigInt sign_bit words => minimal_words sign_bit words
  | TBool, RBool _ => True
  | TString, RString s => valid_utf8 s = true
  | TByteString, RByteString _ => True
  | TOptionNull _, RNone | TOptionUndefined _, RNone | TOption _, RNone => True
  | TOptionNull t, RSome r => faithful t r ∧ none_value t r ≠ Some VNull
  | TOptionUndefined t, RSome r => faithful t r ∧ none_value t r ≠ Some VUndefined
  | TOption t, RSome r => faithful t r ∧ none_value t r = None
  | TTypedArray k, RTypedArray k' es => k' = k ∧ Forall (int_range (element_type k)) es
  | TArrayBufferView, RTypedArray k es => Forall (int_range (element_type k)) es
  | TVec t, RVec l => Forall (faithful t) l
  | TTuple ts, RTuple l =>
      (fix go ts l := match ts, l with
                      | [], [] => True
                      | t :: ts, r :: l => faithful t r ∧ go ts l
                      | _, _ => False
                      end) ts l
  | TLocal T, RLocal v => is_type T v = true
  | _, _ => False
  end.

(** ** The heap only grows *)

Definition world_ok (w : world) : Prop :=
  0 <= next w ∧ ∀ i, next w <= i → mem w !! i = None ∧ buffers w !! i = None.
Definition extends (w w' : world) : Prop := mem w ⊆ mem w' ∧ buffers w ⊆ buffers w'.
#[global] Instance extends_preorder : PreOrder extends.
Proof. split; [done|]. intros w1 w2 w3 [] []. split; by etrans. Qed.

Definition limits : list error :=
  [TypeError ($"Failed to create BigInt"); TypeError ($"Failed to create typed array")].

(** [m] succeeds with a result that has [Q] in every later world, or meets a limit of V8. *)
Definition good {A} (w : world) (m : st A) (Q : A → world → Prop) : Prop :=
  match m w with
  | Ret (Ok a, w') => world_ok w' ∧ extends w w' ∧ ∀ w'', extends w' w'' → Q a w''
  | Ret (Err e, _) => e ∈ limits
  | Panic f => f = Unwrap
  end.

Lemma good_ret {A} w (a : A) (Q : A → world → Prop) :
  world_ok w → (∀ w', extends w w' → Q a w') → good w (mret a) Q.
Proof. done. Qed.

Lemma good_bind {A B} w (m : st A) (k : A → st B) (Q : A → world → Prop) (P : B → world → Prop) :
  good w m Q →
  (∀ a w', world_ok w' → extends w w' → (∀ w'', extends w' w'' → Q a w'') → good w' (k a) P) →
  good w (m ≫= k) P.
Proof.
  unfold good, mbind, st_bind. intros Hm Hk. destruct (m w) as [[[a|e] w1]|f]; try done.
  destruct Hm as (Hw1 & Hext & HQ). specialize (Hk a w1 Hw1 Hext HQ).
  destruct (k a w1) as [[[b|e] w2]|f]; try done. destruct Hk as (? & ? & ?). split_and!; try done. by etrans.
Qed.

Lemma good_weaken {A} w (m : st A) (Q P : A → world → Prop) :
  (∀ a w', Q a w' → P a w') → good w m Q → good w m P.
Proof.
  unfold good. intros HQ. destruct (m w) as [[[a|e] w1]|f]; try done. intros (? & ? & ?). split_and!; auto.
Qed.

Lemma good_unwrap {A} w (o : option A) (Q : A → world → Prop) :
  world_ok w → (∀ a, o = Some a → ∀ w', Q a w') → good w (st_unwrap o) Q.
Proof. intros Hw HQ. unfold good. destruct o as [a|]; simpl; [|done]. split_and!; auto. done. Qed.

Lemma good_new_buffer w bytes :
  world_ok w →
  good w (st_new_buffer bytes) (λ id w',
    0 <= id ∧ mem w' !! id = Some bytes ∧ buffers w' !! id = Some (mkBuffer id (zlen bytes) true false false)).
Proof.
  intros [Hnext Hfree]. unfold good, st_new_buffer, new_buffer. destruct (Hfree (next w)) as [Hm Hb]; [lia|].
  split; [|split].
  - split; [simpl; lia|]. simpl. intros i Hi. destruct (Hfree i) as [Hm' Hb']; [lia|].
    split; apply lookup_insert_None; (split; [done|lia]).
  - split; simpl; by apply insert_subseteq.
  - intros w' [Hm' Hb']. simpl in *. split; [done|].
    split; eapply lookup_weaken; try done; apply lookup_insert_eq.
Qed.

(** ** Each type *)

Lemma to_int_option_int a z :
  int_min (arg_signed a) (arg_bits a) <= z <= int_max (arg_signed a) (arg_bits a) →
  to_int_option a (VNumber (Finite z 0) : value) = Some z.
Proof.
  intros Hz. rewrite to_int_option_number. unfold integral, pow2. simpl Z.of_nat.
  rewrite Z.pow_0_r, Z.mod_1_r, Z.div_1_r. rewrite decide_True by done.
  assert (f64_as_int (arg_signed a) 64 (Finite z 0) = z) as Hf.
  { unfold f64_as_int. rewrite trunc_exp_0. destruct a; cbn [arg_signed arg_bits int_min int_max] in *; lia. }
  rewrite Hf. case_decide; (rewrite int_as_int_id; [done|by destruct a|done]).
Qed.

Lemma smi_roundtrip t z :
  int_range t z → (int_bits t = 64 → - 2 ^ 31 <= z < 2 ^ 31) →
  smi_from_v8 t (Integer_new (as_i32 z)) = Ret (Ok (RInt z)).
Proof.
  intros Hz Hs. unfold smi_from_v8, Integer_new.
  change (to_i32_option ?v) with (to_int_option ArgI32 v).
  rewrite to_int_option_int by apply (int_as_int_range I32). simpl. unfold mret, rd_ret. do 3 f_equal.
  unfold as_i32. destruct (decide (int_bits t = 64)) as [H64|H64].
  - rewrite (int_as_int_id true 32) by (simpl; specialize (Hs H64); lia). apply int_as_int_id; [by destruct t|done].
  - rewrite int_as_int_low by (by destruct t). apply int_as_int_id; [by destruct t|done].
Qed.

Lemma number_roundtrip t z :
  is_numeric t → int_range t z → to_f64 z = z →
  number_from_v8 (NInt t) (Number_new (as_f64 z)) = Ret (Ok (RInt z)).
Proof.
  intros [a Ha] Hz Hf. simpl. rewrite Ha. destruct (numeric_arg_type _ _ Ha) as [Hs Hb].
  unfold as_f64, int_as_f64, Number_new. rewrite Hf, to_int_option_int; [done|]. by rewrite Hs, Hb.
Qed.

Lemma abview_roundtrip k w id es :
  0 <= id → es ≠ [] → Forall (int_range (element_type k)) es →
  let bytes := concat (map (element_bytes (element_type k)) es) in
  mem w !! id = Some bytes → buffers w !! id = Some (mkBuffer id (zlen bytes) true false false) →
  abview_to_box (element_type k) w id 0 (zlen es * size_of (element_type k)) = es.
Proof.
  intros Hid Hne Hes bytes Hm Hb. unfold abview_to_box. rewrite Hb. simpl.
  destruct (size_of_bits (element_type k)) as [_ Hs].
  assert (0 < zlen es) by (destruct es; [done|unfold zlen; simpl; lia]).
  rewrite decide_False by nia. rewrite Z.div_mul by lia. rewrite zdrop_0.
  unfold Slice.store_bytes, get_backing_store. simpl. rewrite Hm. simpl. unfold zlen. rewrite Nat2Z.id.
  by apply elements_roundtrip.
Qed.

Lemma typed_array_good k w es :
  world_ok w → Forall (int_range (element_type k)) es →
  good w (typed_array_to_v8 k es) (λ v w',
    typed_array_from_v8 k w' v = Ret (Ok (RTypedArray k es)) ∧ ∃ id offset length, v = VView (view_kind k) id offset length).
Proof.
  intros Hw Hes. unfold typed_array_to_v8. case_decide as Hlen.
  - assert (es = []) as -> by (destruct es; [done|unfold zlen in Hlen; simpl in Hlen; lia]).
    eapply good_bind; [by apply good_new_buffer|]. intros id w1 Hw1 _ _.
    destruct (typed_array_fits 0); [|by right; left]. apply good_ret; [done|]. intros w2 _.
    split; [|by eexists _, _, _]. simpl. rewrite decide_True by done. unfold abview_to_box, view_offset.
    assert ((match buffers w2 !! id with Some b => if detached b then 0 else 0 | None => 0 end) = 0) as ->
      by (by destruct (buffers w2 !! id) as [[]|]; try case_match).
    done.
  - eapply good_bind; [by apply good_new_buffer|]. intros id w1 Hw1 _ Hid.
    destruct (typed_array_fits _); [|by right; left]. apply good_ret; [done|]. intros w2 (Hpos & Hm & Hb)%Hid.
    split; [|by eexists _, _, _]. simpl. rewrite decide_True by done.
    rewrite abview_roundtrip; try done. by intros ->.
Qed.

(** ** Whole values *)

Definition comes_back (t : ty) (r : rust) (v : value) (w : world) : Prop :=
  from_v8 w t v = Ret (Ok r) ∧ (is_null v || is_undefined v = true → none_value t r = Some v).

Lemma some_comes_back (T : ty → ty) (t : ty) (r : rust) (absent : value → bool) v w :
  (∀ v, from_v8 w (T t) v = if absent v then mret RNone else (r ← from_v8 w t v; mret (RSome r))) →
  none_value (T t) (RSome r) = none_value t r →
  comes_back t r v w → absent v = false → comes_back (T t) (RSome r) v w.
Proof. intros Hfrom Hnone [Hv Hn] Ha. split; [by rewrite Hfrom, Ha, Hv|by rewrite Hnone]. Qed.

Definition array_items (t : ty) (l : list rust) (vs : list value) (w : world) : Prop :=
  Forall2 (λ v r, from_v8 w t v = Ret (Ok r)) vs l.

Lemma list_good t l w :
  Forall (λ r, ∀ w, world_ok w → good w (to_v8 t r) (comes_back t r)) l → world_ok w →
  good w (all_to_v8 (to_v8 t) l) (array_items t l).
Proof.
  intros Hl. revert w. induction Hl as [|r l Hr _ IH]; intros w Hw.
  - apply good_ret; [done|]. intros w' _. constructor.
  - eapply good_bind; [by apply Hr|]. intros v w1 Hw1 _ Hv.
    eapply good_bind; [by apply IH|]. intros vs w2 Hw2 Hext Hvs. apply good_ret; [done|]. intros w3 Hext3.
    constructor; [apply Hv; by etrans|by apply Hvs].
Qed.

Lemma tuple_good ts l w :
  Forall2 (λ t r, ∀ w, world_ok w → good w (to_v8 t r) (comes_back t r)) ts l → world_ok w →
  good w (elements_to_v8 to_v8 ts l)
    (λ vs w', length vs = length ts ∧ ∀ pre,
       elements_from_v8 (from_v8 w') (map Some (pre ++ vs)) ts (length pre) = Ret (Ok l)).
Proof.
  intros Hl. revert w. induction Hl as [|t r ts l Hr _ IH]; intros w Hw.
  - by apply good_ret.
  - eapply good_bind; [by apply Hr|]. intros v w1 Hw1 _ Hv.
    eapply good_bind; [by apply IH|]. intros vs w2 Hw2 Hext Hvs. apply good_ret; [done|]. intros w3 Hext3.
    destruct (Hv w3) as [Hfrom _]; [by etrans|]. destruct (Hvs w3 Hext3) as [Hlen Hgo].
    split; [simpl; by rewrite Hlen|]. intros pre. cbn [elements_from_v8]. unfold get_index.
    rewrite lookup_map_Some, list_lookup_middle by done. simpl. rewrite Hfrom. specialize (Hgo (pre ++ [v])).
    rewrite <- app_assoc, length_app, Nat.add_1_r in Hgo. simpl in Hgo. by rewrite Hgo.
Qed.

Lemma to_v8_good `{!V8StringLaws J} t r w :
  faithful t r → world_ok w → good w (to_v8 t r) (comes_back t r).
Proof.
  revert r w. induction t as [t|t|t| | | | | | |t IH|t IH|t IH|k| |t IH|ts IH|T] using ty_ind';
    intros r w Hf Hw; destruct r as [z|n|sign words|b|s|s| |r|k' es|l|l|v]; try done; try (by destruct t); unfold_conversions.
  - apply good_ret; [done|]. intros w' _. destruct Hf. split; [by apply smi_roundtrip|done].
  - destruct t as [| |t]; try done. destruct Hf as (Ht & Hz & Hx). apply good_ret; [done|]. intros w' _.
    split; [by apply number_roundtrip|done].
  - destruct t as [| |t]; try done. apply good_ret; [done|]. intros w' _. split; [|done].
    unfold_conversions. simpl. unfold to_f32_option, try_number_some. simpl. by rewrite Hf.
  - destruct Hf as [Hz Hx]. apply good_ret; [done|]. intros w' _. split; [|done].
    unfold_conversions. simpl. unfold as_f64, int_as_f64. rewrite Hx. unfold mret, rd_ret. do 3 f_equal.
    rewrite trunc_exp_0. unfold int_range in Hz. lia.
  - apply good_ret; [done|]. intros w' _. split; [|done]. unfold_conversions. simpl. by rewrite Hf.
  - unfold bigint_to_v8. case_match; [|by left]. apply good_ret; [done|]. intros w' _. split; [|done].
    cbn [from_v8 bigint_from_v8]. by rewrite words_roundtrip by done.
  - eapply good_bind; [by apply (good_unwrap w (of_utf8 s) (λ j _, of_utf8 s = Some j))|].
    intros j w1 Hw1 _ Hj. apply good_ret; [done|]. intros w' Hext. specialize (Hj w' Hext). split; [|done].
    simpl. unfold string_from_v8, to_rust_string_lossy. by rewrite (of_utf8_characters s j).
  - eapply good_bind; [by apply (good_unwrap w (of_one_byte s) (λ j _, of_one_byte s = Some j))|].
    intros j w1 Hw1 _ Hj. apply good_ret; [done|]. intros w' Hext. specialize (Hj w' Hext). split; [|done].
    simpl. by rewrite (of_one_byte_read s j).
  - destruct Hf as [Hf Hn]. eapply good_weaken; [|by apply IH]. intros v w' Hv.
    apply (some_comes_back TOptionNull t r is_null); try done.
    destruct v; try done. destruct Hv as [_ Hv]. by specialize (Hv eq_refl).
  - destruct Hf as [Hf Hn]. eapply good_weaken; [|by apply IH]. intros v w' Hv.
    apply (some_comes_back TOptionUndefined t r is_undefined); try done.
    destruct v; try done. destruct Hv as [_ Hv]. by specialize (Hv eq_refl).
  - destruct Hf as [Hf Hn]. eapply good_weaken; [|by apply IH]. intros v w' Hv.
    apply (some_comes_back TOption t r (λ v, is_null v || is_undefined v)); try done.
    destruct (is_null v || is_undefined v) eqn:He; [|done]. destruct Hv as [_ Hv]. by rewrite (Hv He) in Hn.
  - destruct Hf as [-> Hes]. rewrite decide_True by done. eapply good_weaken; [|by apply typed_array_good].
    intros v w' [Hv (id & o & len & ->)]. done.
  - eapply good_weaken; [|by apply typed_array_good].
    intros v w' [Hv (id & o & len & ->)]. split; [|done]. unfold_conversions. unfold array_buffer_view_from_v8.
    by replace (base.filter _ all_kinds) with [k'] by (by destruct k').
  - eapply good_bind; [apply (list_good t l w); [|done]|].
    + eapply Forall_impl; [exact Hf|]. intros r Hr w1 Hw1. by apply IH.
    + intros vs w1 Hw1 _ Hvs. apply good_ret; [done|]. intros w' Hext. split; [|done].
      unfold_conversions. cbn [try_array ok_or mret rd_ret mbind rd_bind].
      unfold try_array. simpl. rewrite length_map. by rewrite (vec_of_all vs l) by (by apply Hvs).
  - eapply good_bind; [apply (tuple_good ts l w); [|done]|].
    + clear Hw. revert l Hf. induction IH as [|t ts IHt _ IHts]; intros [|r l] Hf; try done; constructor.
      * intros w1 Hw1. apply IHt; [apply Hf|done].
      * apply IHts, Hf.
    + intros vs w1 Hw1 _ Hvs. apply good_ret; [done|]. intros w' Hext. split; [|done].
      destruct (Hvs w' Hext) as [Hlen Hgo]. specialize (Hgo []). change (length []) with 0%nat in Hgo. cbn [app] in Hgo.
      unfold_conversions. cbn [try_array ok_or mret rd_ret mbind rd_bind].
      rewrite decide_False by (rewrite length_map; intros Hne; by apply Hne). by rewrite Hgo.
  - apply good_ret; [done|]. intros w' _. split.
    + unfold_conversions. simpl in Hf. by rewrite Hf.
    + simpl. by intros ->.
Qed.

(** C34. A value that [ToV8] converts comes back unchanged from [FromV8], whatever is built from the types of
    [convert.rs], if the type can carry it; conversions fail only at the limits of V8 on lengths. *)
Theorem convert_roundtrip `{!V8StringLaws J} t r w :
  faithful t r → world_ok w →
  match to_v8 t r w with
  | Ret (Ok v, w') => from_v8 w' t v = Ret (Ok r)
  | Ret (Err e, _) => e ∈ limits
  | Panic f => f = Unwrap
  end.
Proof.
  intros Hf Hw. pose proof (to_v8_good t r w Hf Hw) as Hg. unfold good in Hg.
  destruct (to_v8 t r w) as [[[v|e] w']|f]; try done. destruct Hg as (_ & _ & Hv). by apply (Hv w').
Qed.
End typing.

(** * Examples *)

(** Strings of Latin-1 characters. *)
Definition latin1_strings : V8Strings text := {|
  js_string_eq := _;
  of_utf8 s := match latin1_of_utf8 s with
               | Some j => if decide (utf8_of_latin1 j = s) then Some j else None
               | None => None
               end;
  characters s := map (λ c, (1%nat, utf8_char c)) s;
  of_one_byte s := Some s;
  one_byte s := Some s;
  of_two_byte l := if forallb (λ u, (0 <=? u) && (u <? 256)) l then Some (map byte l) else None;
  two_byte s := map code s;
  own_order A l := l;
  is_index _ := false;
  bigint_fits _ := true;
  index_key i := digits 10 20 (Z.of_nat i) []
|}.

Lemma latin1_laws : @V8StringLaws text latin1_strings.
Proof.
  split; simpl.
  - intros s j _ Hj. destruct (latin1_of_utf8 s) as [j'|]; [|done]. case_decide as Hs; [|done].
    injection Hj as <-. rewrite <- Hs. unfold utf8_of_latin1. f_equal. clear. induction j' as [|c j IH]; [done|].
    simpl. f_equal. apply IH.
  - by intros s j [= <-].
  - intros j. induction j; constructor; [simpl; lia|done].
  - intros l j. destruct (forallb _ l) eqn:E; [|done]. intros [= <-]. rewrite map_map.
    rewrite forallb_forall in E. rewrite <- (map_id l) at 2. apply map_ext_in. intros u Hu%E.
    unfold code, byte. rewrite N_ascii_embedding; lia.
  - done.
Qed.

Lemma latin1_lengths s : length s = @string_length text latin1_strings s.
Proof. unfold string_length. simpl. induction s as [|c s IH]; [done|]. simpl. by rewrite IH. Qed.

Definition latin1_stored : @StoredStrings text latin1_strings :=
  @Build_StoredStrings text latin1_strings (λ _, true) (λ j _, ex_intro _ j eq_refl)
    (λ j s H, match H in _ = o return length (default [] o) = _ with eq_refl => latin1_lengths j end).

Definition demo_values : V8Values text := {|
  type_repr v := match v with VNull => $"null" | VUndefined => $"undefined" | _ => $"value" end;
  to_js_string v := $"[object]";
  typed_array_fits n := n <? 2 ^ 32;
  is_type T v := true
|}.

#[local] Existing Instances latin1_strings latin1_laws latin1_stored demo_values.

Lemma demo_value_laws : V8ValueLaws text.
Proof.
  split; [|done]. intros j. unfold to_rust_string_lossy. simpl.
  assert ((map (λ c, (1%nat, utf8_char c)) j).*2 = map utf8_char j) as ->
    by (induction j as [|c j IH]; [done|]; simpl; by f_equal).
  apply utf8_of_latin1_valid.
Qed.

(** [(Vec<Option<Smi<u32>>>, Int16Array, (String, OptionUndefined<Option<f64>>), i64, BigInt)]. *)
Definition demo_ty : ty :=
  TTuple [TVec (TOption (TSmi U32)); TTypedArray EInt16; TTuple [TString; TOptionUndefined (TOption TF64)];
          TInt I64; TBigInt].
Definition demo_rust : rust text :=
  RTuple [RVec [RSome (RInt (2 ^ 32 - 1)); RNone; RSome (RInt 7)]; RTypedArray EInt16 [-1; 2; - 2 ^ 15];
          RTuple [RString [byte 195; byte 169]; RSome RNone]; RInt (- 2 ^ 53); RBigInt true [0; 1]].
Definition empty_world : world := mkWorld ∅ ∅ 0.

Lemma empty_world_ok : world_ok empty_world.
Proof. split; [done|]. intros i _. split; apply lookup_empty. Qed.

Lemma demo_faithful : faithful demo_ty demo_rust.
Proof.
  repeat match goal with
    | |- _ ∧ _ => split
    | |- Forall _ _ => constructor
    | |- int_range _ _ => split; vm_compute; discriminate
    | |- _ ≠ _ => vm_compute; discriminate
    | |- word _ => split; vm_compute; [discriminate|done]
    | |- minimal_words _ _ => split
    | |- ∀ w, last _ = Some w → _ => by intros w [= <-]
    | |- _ => done
    | |- _ => progress simpl
    end.
Qed.

Lemma demo_is_ty : is_ty demo_ty.
Proof. by split_and!; try (simpl; lia). Qed.

Lemma from_v8_typed_witness :
  is_ty demo_ty ∧
  sound (has_type demo_ty) (from_v8 empty_world demo_ty
    (VArray [Some (VArray []); Some VNull])).
Proof.
  split; [apply demo_is_ty|].
  apply (from_v8_typed (J := text) (V8ValueLaws0 := demo_value_laws)).
  - apply demo_is_ty.
  - by split_and!.
Defined.

(** A getter that throws panics: in a vector and in a tuple. *)
Lemma throwing_element_panics :
  from_v8 empty_world (TVec TBool) (VArray [Some (VBool true); None] : value text) = Panic Unwrap ∧
  from_v8 empty_world (TTuple [TBool]) (VArray [None] : value text) = Panic Unwrap.
Proof. by split. Qed.

Lemma convert_roundtrip_witness :
  ∃ v w, to_v8 demo_ty demo_rust empty_world = Ret (Ok v, w) ∧
    from_v8 w demo_ty v = Ret (Ok demo_rust).
Proof.
  pose proof (convert_roundtrip
    demo_ty demo_rust empty_world demo_faithful empty_world_ok) as Hr.
  destruct (to_v8 demo_ty demo_rust empty_world) as [[[v|e] w]|f] eqn:Hv.
  - by exists v, w.
  - exfalso. clear Hr. vm_compute in Hv. discriminate.
  - exfalso. clear Hr. vm_compute in Hv. discriminate.
Defined.

(** What is not faithful is lost: the [Some] of two nested options, and the low bits of a large integer. *)
Lemma unfaithful_values :
  let w := empty_world in
  let there_and_back t (r : rust text) :=
    match to_v8 t r w with
    | Ret (Ok v, w) => from_v8 w t v
    | _ => Panic Unreachable
    end in
  there_and_back (TOption (TOption TBool)) (RSome RNone) = Ret (Ok RNone) ∧
  there_and_back (TInt U64) (RInt (2 ^ 53 + 1)) = Ret (Ok (RInt (2 ^ 53))) ∧
  there_and_back (TSmi U64) (RInt (2 ^ 32 - 1)) = Ret (Ok (RInt (2 ^ 64 - 1))).
Proof. by split_and!. Qed.
