(* ===== verification/Rejections.v ===== *)
(** Promise rejections and dispatched exceptions: [runtime/exception_state.rs], the callback
    of V8 in [bindings.rs], [dispatch_rejections] and [exception_to_err].

    V8 announces rejections without a handler, and handlers that come later; the tick
    reports them to JavaScript, whose code is a list of actions that a host chooses.  The
    borrows of two [RefCell]s that are held while JavaScript runs are part of the state.
    The abstract specification is the life of one promise ([life]). *)

From S2P Require Import Prelude RustStr.

Local Open Scope Z_scope.

(** * Data *)

(** Promises, values, functions and contexts are known by identity. *)
Abbreviation promise := Z (only parsing).
Abbreviation value := Z (only parsing).
Abbreviation function := Z (only parsing).

Inductive PromiseRejectEvent :=
  | PromiseRejectWithNoHandler
  | PromiseHandlerAddedAfterReject
  | PromiseRejectAfterResolved
  | PromiseResolveAfterResolved.
Global Instance PromiseRejectEvent_eq_dec : EqDecision PromiseRejectEvent.
Proof. solve_decision. Defined.

Record ExceptionState := mkEx {
  dispatched_exception : option value;
  dispatched_exception_is_promise : bool;
  pending_promise_rejections : list (promise * value * value);
  pending_handled_promise_rejections : list (promise * value);
  js_build_custom_error_cb : option function;
  js_handled_promise_rejection_cb : option function;
  js_format_exception_cb : option function
}.

Definition ExceptionState_default : ExceptionState := mkEx None false [] [] None None None.

Definition set_pending (x : ExceptionState) q : ExceptionState :=
  mkEx (dispatched_exception x) (dispatched_exception_is_promise x) q
    (pending_handled_promise_rejections x) (js_build_custom_error_cb x)
    (js_handled_promise_rejection_cb x) (js_format_exception_cb x).
Definition set_handled (x : ExceptionState) q : ExceptionState :=
  mkEx (dispatched_exception x) (dispatched_exception_is_promise x)
    (pending_promise_rejections x) q (js_build_custom_error_cb x)
    (js_handled_promise_rejection_cb x) (js_format_exception_cb x).
Definition set_handled_cb (x : ExceptionState) f : ExceptionState :=
  mkEx (dispatched_exception x) (dispatched_exception_is_promise x)
    (pending_promise_rejections x) (pending_handled_promise_rejections x)
    (js_build_custom_error_cb x) f (js_format_exception_cb x).

(** [prepare_to_destroy]; the handled rejections stay. *)
Definition prepare_to_destroy (x : ExceptionState) : ExceptionState :=
  mkEx None (dispatched_exception_is_promise x) [] (pending_handled_promise_rejections x)
    None None None.

Definition set_dispatched_exception (x : ExceptionState) (e : option value) (is_promise : bool) :
    ExceptionState :=
  mkEx e is_promise (pending_promise_rejections x) (pending_handled_promise_rejections x)
    (js_build_custom_error_cb x) (js_handled_promise_rejection_cb x) (js_format_exception_cb x).
Definition clear_error (x : ExceptionState) : ExceptionState := set_dispatched_exception x None false.
Definition has_dispatched_exception (x : ExceptionState) : bool := bool_decide (is_Some (dispatched_exception x)).

(** What is reported to JavaScript. *)
Inductive js_call :=
  | HandledRejection (f : function) (p : promise) (result : value)
  | HandleRejections (rejections : list (promise * value * value)).

(** What JavaScript does, as far as this state sees it. *)
Inductive js_action :=
  | Announce (event : PromiseRejectEvent) (p : promise) (rejection_value : option value)
      (async_context result : value)  (** [promise_reject_callback] *)
  | SetHandledHandler (f : option function)  (** [op_set_handled_promise_rejection_handler] *)
  | ReportException (e : value) (is_promise repl : bool).  (** [dispatch_exception] *)

(** For one promise: was reported as unhandled, as handled. *)
Inductive report := Unhandled (p : promise) | Handled (p : promise).

Record state (J : Type) := mkState {
  ex : ExceptionState;
  queue_borrowed : bool;  (** [pending_handled_promise_rejections] *)
  cb_borrowed : bool;  (** [js_handled_promise_rejection_cb] *)
  terminating : bool;
  world : J;
  announced : list (PromiseRejectEvent * promise);  (** the events of V8, a log *)
  reports : list report  (** a log *)
}.
Arguments mkState {J}.
Arguments ex {J}.
Arguments queue_borrowed {J}.
Arguments cb_borrowed {J}.
Arguments terminating {J}.
Arguments world {J}.
Arguments announced {J}.
Arguments reports {J}.

Abbreviation M J := (stateM (state J)) (only parsing).

(** The exception of an error: [null] or [undefined], a value, or a new [Error]. *)
Inductive error_value := Nullish | Thrown (e : value) | NewError (message : text).
Definition error_of (exception : option value) : error_value :=
  match exception with Some e => Thrown e | None => Nullish end.

(** JavaScript answers a call with what it does and, perhaps, the exception it throws. *)
Record host (J : Type) := mkHost {
  run : js_call → J → list js_action * option value * J;
  message_of : error_value → text  (** [JsError::from_v8_exception] *)
}.
Arguments run {J}.
Arguments message_of {J}.

Record JsError := mkJsError { exception_message : text }.

Section exceptions.
Context {J : Type} (H : host J).
Implicit Types (s : state J).
Abbreviation R := (M J).

Definition get_ex : R ExceptionState := λ s, Ret (ex s, s).
Definition put_ex (x : ExceptionState) : R unit := λ s,
  Ret (tt, mkState x (queue_borrowed s) (cb_borrowed s) (terminating s) (world s) (announced s)
             (reports s)).
Definition set_borrows (queue cb : bool) : R unit := λ s,
  Ret (tt, mkState (ex s) queue cb (terminating s) (world s) (announced s) (reports s)).
Definition set_terminating (b : bool) : R unit := λ s,
  Ret (tt, mkState (ex s) (queue_borrowed s) (cb_borrowed s) b (world s) (announced s) (reports s)).
Definition fails {A} (f : fault) : R A := λ _, Panic f.

(** ** Tracking *)

Definition log_event (event : PromiseRejectEvent) (p : promise) : R unit := λ s,
  Ret (tt, mkState (ex s) (queue_borrowed s) (cb_borrowed s) (terminating s) (world s)
             (announced s ++ [(event, p)]) (reports s)).

Definition push_handled (p : promise) (result : value) : R unit := λ s,
  if queue_borrowed s then Panic BorrowConflict
  else put_ex (set_handled (ex s) (pending_handled_promise_rejections (ex s) ++ [(p, result)])) s.

Definition track_promise_rejection (p : promise) (event : PromiseRejectEvent)
    (rejection_value : option value) (async_context result : value) : R unit :=
  match event with
  | PromiseRejectWithNoHandler =>
      match rejection_value with
      | None => fails Unwrap
      | Some error =>
          x ← get_ex;
          put_ex (set_pending x (pending_promise_rejections x ++ [(p, error, async_context)]))
      end
  | PromiseHandlerAddedAfterReject =>
      x ← get_ex;
      let rejections := filter (λ e, e.1.1 ≠ p) (pending_promise_rejections x) in
      _ ← put_ex (set_pending x rejections);
      if decide (length rejections = length (pending_promise_rejections x)) then
        match js_handled_promise_rejection_cb x with
        | Some _ => push_handled p result
        | None => mret tt
        end
      else mret tt
  | PromiseRejectAfterResolved => mret tt
  | PromiseResolveAfterResolved => mret tt
  end.

Definition promise_reject_callback (event : PromiseRejectEvent) (p : promise)
    (rejection_value : option value) (async_context result : value) : R unit :=
  _ ← log_event event p;
  track_promise_rejection p event rejection_value async_context result.

Definition op_set_handled_promise_rejection_handler (f : option function) : R unit := λ s,
  if cb_borrowed s then Panic BorrowConflict else put_ex (set_handled_cb (ex s) f) s.

(** [repl]: the inspector is dispatching a message. *)
Definition dispatch_exception (e : value) (is_promise repl : bool) : R unit :=
  if repl then mret tt
  else
    x ← get_ex;
    _ ← put_ex (set_dispatched_exception x (Some e) is_promise);
    set_terminating true.

Definition exec_action (a : js_action) : R unit :=
  match a with
  | Announce event p v c r => promise_reject_callback event p v c r
  | SetHandledHandler f => op_set_handled_promise_rejection_handler f
  | ReportException e b repl => dispatch_exception e b repl
  end.

Fixpoint exec_actions (l : list js_action) : R unit :=
  match l with
  | [] => mret tt
  | a :: l => _ ← exec_action a; exec_actions l
  end.

(** A call of a JavaScript function: what it throws. *)
Definition call_js (c : js_call) : R (option value) := λ s,
  let '(actions, thrown, j) := run H c (world s) in
  let new := match c with
             | HandledRejection _ p _ => [Handled p]
             | HandleRejections l => map (λ e, Unhandled e.1.1) l
             end in
  (_ ← exec_actions actions; mret thrown)
    (mkState (ex s) (queue_borrowed s) (cb_borrowed s) (terminating s) j (announced s)
       (reports s ++ new)).

(** ** Errors *)

Definition in_promise_message (m : text) : text :=
  $"Uncaught (in promise) " ++ trim_start_matches $"Uncaught " m.

(** [exception]: [None] is [null] or [undefined]. *)
Definition exception_to_err (exception : option value) (in_promise clear : bool) : R JsError := λ s,
  let was_terminating := terminating s in
  let x := ex s in
  let '(m, in_promise, x, was_terminating) :=
    match dispatched_exception x with
    | Some e => (message_of H (Thrown e), dispatched_exception_is_promise x,
                 (if clear then clear_error x else x), was_terminating && negb clear)
    | None =>
        (message_of H (if was_terminating && negb (bool_decide (is_Some exception))
                       then NewError $"execution terminated" else error_of exception),
         in_promise, x, was_terminating)
    end in
  (_ ← put_ex x;
   _ ← set_terminating was_terminating;
   mret (mkJsError (if in_promise : bool then in_promise_message m else m))) s.

Definition check_exception_condition : R (result unit JsError) :=
  x ← get_ex;
  if has_dispatched_exception x then
    e ← exception_to_err None (dispatched_exception_is_promise x) true;
    mret (Err e)
  else mret (Ok tt).

(** ** The tick *)

(** The [while let] holds the borrow of the queue, and the [if let] that of the handler,
    while JavaScript runs. *)
Fixpoint handled_loop (fuel : nat) : R unit :=
  match fuel with
  | O => fails OutOfFuel
  | S fuel =>
      x ← get_ex;
      match pending_handled_promise_rejections x with
      | [] => mret tt
      | (p, result) :: rest =>
          _ ← put_ex (set_handled x rest);
          _ ← match js_handled_promise_rejection_cb x with
              | Some f =>
                  _ ← set_borrows true true;
                  _ ← call_js (HandledRejection f p result);
                  set_borrows false false
              | None => mret tt
              end;
          handled_loop fuel
      end
  end.

Definition dispatch_rejections (fuel : nat) : R (result unit JsError) :=
  _ ← handled_loop fuel;
  x ← get_ex;
  match pending_promise_rejections x with
  | [] => mret (Ok tt)
  | rejections =>
      _ ← put_ex (set_pending x []);
      thrown ← call_js (HandleRejections rejections);
      match thrown with
      | Some e => e ← exception_to_err (Some e) false true; mret (Err e)
      | None => mret (Ok tt)
      end
  end.
End exceptions.

(** * Queues by promise *)

Section by_key.
Context {A : Type} (key : A → Z).
Implicit Types (l : list A).

Lemma filter_key_other p q l :
  q ≠ p → filter (λ e, key e = q) (filter (λ e, key e ≠ p) l) = filter (λ e, key e = q) l.
Proof.
  intros Hne. rewrite list_filter_filter. apply list_filter_ext_elem. intros e _.
  split; [by intros []|]. intros He. split; [done|congruence].
Qed.

Lemma filter_key_self p l : filter (λ e, key e = p) (filter (λ e, key e ≠ p) l) = [].
Proof.
  induction l as [|e l IH]; [done|]. rewrite (filter_cons (λ e, key e ≠ p)). case_decide; [|done].
  rewrite filter_cons, decide_False; [done|tauto].
Qed.

Lemma length_filter_key p l :
  (length (filter (λ e, key e ≠ p) l) + length (filter (λ e, key e = p) l) = length l)%nat.
Proof.
  induction l as [|e l IH]; [done|]. rewrite !filter_cons.
  destruct (decide (key e = p)); [rewrite decide_False by tauto|rewrite decide_True by done];
    simpl; lia.
Qed.

Lemma filter_key_app p l e :
  length (filter (λ e, key e = p) (l ++ [e])) =
    (length (filter (λ e, key e = p) l) + if decide (key e = p) then 1 else 0)%nat.
Proof. rewrite filter_app, length_app, filter_cons. by case_decide. Qed.
End by_key.

(** * The life of a promise *)

Inductive life :=
  | Fresh      (** not rejected without a handler *)
  | Waiting    (** rejected, to be reported by the next tick *)
  | Forgiven   (** a handler came before the report *)
  | Reported   (** reported as unhandled *)
  | Queued     (** a handler came after that, to be reported *)
  | Delivered  (** reported as handled *)
  | Unheard.   (** a handler came after the report, and nobody asked to be told *)

Global Instance life_eq_dec : EqDecision life.
Proof. solve_decision. Defined.

Inductive life_step : life → life → Prop :=
  | rejected : life_step Fresh Waiting
  | forgiven : life_step Waiting Forgiven
  | reported : life_step Waiting Reported
  | handled_late : life_step Reported Queued
  | handled_unheard : life_step Reported Unheard
  | delivered : life_step Queued Delivered
  | dropped : life_step Queued Unheard.

(** The events of V8 about a promise, the entries in the two queues, and the reports:
    [false] as unhandled, [true] as handled. *)
Record view := mkView { v_events : list PromiseRejectEvent; v_pending : nat; v_handled : nat;
  v_reports : list bool }.

Definition life_view (l : life) : view :=
  let rejected := PromiseRejectWithNoHandler in
  let handled := PromiseHandlerAddedAfterReject in
  match l with
  | Fresh => mkView [] 0 0 []
  | Waiting => mkView [rejected] 1 0 []
  | Forgiven => mkView [rejected; handled] 0 0 []
  | Reported => mkView [rejected] 0 0 [false]
  | Queued => mkView [rejected; handled] 0 1 [false]
  | Delivered => mkView [rejected; handled] 0 0 [false; true]
  | Unheard => mkView [rejected; handled] 0 0 [false]
  end.

Definition relevant (p : promise) (e : PromiseRejectEvent * promise) : bool :=
  bool_decide (e.2 = p) && match e.1 with
                           | PromiseRejectWithNoHandler | PromiseHandlerAddedAfterReject => true
                           | _ => false
                           end.
Definition about (p : promise) (r : report) : option bool :=
  match r with
  | Unhandled q => if decide (q = p) then Some false else None
  | Handled q => if decide (q = p) then Some true else None
  end.

Section life.
Context {J : Type}.
Implicit Types (s : state J) (p q : promise).

Definition events_of p s : list PromiseRejectEvent := (filter (relevant p) (announced s)).*1.
Definition pending_of p s : nat :=
  length (filter (λ e, e.1.1 = p) (pending_promise_rejections (ex s))).
Definition handled_of p s : nat :=
  length (filter (λ e, e.1 = p) (pending_handled_promise_rejections (ex s))).
Definition reports_of p s : list bool := omap (about p) (reports s).
Definition view_of p s : view := mkView (events_of p s) (pending_of p s) (handled_of p s) (reports_of p s).

Definition lives p s (l : life) : Prop := view_of p s = life_view l.

(** What ECMAScript promises: a promise is rejected once, and is given its first handler
    once, after that. *)
Definition v8_events (l : list PromiseRejectEvent) : Prop :=
  l ∈ [[]; [PromiseRejectWithNoHandler]; [PromiseRejectWithNoHandler; PromiseHandlerAddedAfterReject]].
Definition v8_law s : Prop := ∀ p, v8_events (events_of p s).

(** Every life goes on by its steps. *)
Definition advances s s' : Prop := v8_law s' → v8_law s ∧
  ∀ p l, lives p s l → ∃ l', lives p s' l' ∧ rtc life_step l l'.

Lemma advances_refl s : advances s s.
Proof. intros Hl. split; [done|]. intros p l Hp. by exists l. Qed.

Lemma advances_trans s1 s2 s3 : advances s1 s2 → advances s2 s3 → advances s1 s3.
Proof.
  intros A1 A2 L3. destruct (A2 L3) as [L2 P2]. destruct (A1 L2) as [L1 P1]. split; [done|].
  intros p l Hl. destruct (P1 p l Hl) as (l2 & Hl2 & S1). destruct (P2 p l2 Hl2) as (l3 & Hl3 & S2).
  exists l3. split; [done|]. by etrans.
Qed.

(** Nothing that the views see has changed. *)
Lemma advances_same s s' : (∀ p, view_of p s' = view_of p s) → advances s s'.
Proof.
  intros Hv Hl. split.
  - intros p. specialize (Hl p). specialize (Hv p). unfold view_of in Hv. injection Hv as He _ _ _.
    by rewrite <- He.
  - intros p l Hp. exists l. split; [|done]. unfold lives. by rewrite Hv.
Qed.

Lemma v8_events_cases l : v8_events l → l = [] ∨ l = [PromiseRejectWithNoHandler] ∨
  l = [PromiseRejectWithNoHandler; PromiseHandlerAddedAfterReject].
Proof. unfold v8_events. rewrite !elem_of_cons, elem_of_nil. tauto. Qed.

Lemma v8_events_prefix l e : v8_events (l ++ [e]) → v8_events l.
Proof.
  intros [Hl|[Hl|Hl]]%v8_events_cases.
  - by destruct l.
  - apply (app_inj_tail l []) in Hl as [-> _]. by left.
  - apply (app_inj_tail l [_]) in Hl as [-> _]. right. by left.
Qed.

(** One promise changes. *)
Lemma advances_one s s' p :
  (∀ q, q ≠ p → view_of q s' = view_of q s) →
  (v8_events (events_of p s') → v8_events (events_of p s)) →
  (∀ l, lives p s l → v8_events (events_of p s') → ∃ l', lives p s' l' ∧ (l' = l ∨ life_step l l')) →
  advances s s'.
Proof.
  intros Hq Hlaw Hp Hl. split.
  - intros q. destruct (decide (q = p)) as [->|Hne]; [by apply Hlaw|].
    specialize (Hq q Hne). unfold view_of in Hq. injection Hq as He _ _ _. rewrite <- He. apply Hl.
  - intros q l Hl'. destruct (decide (q = p)) as [->|Hne].
    + destruct (Hp l Hl' (Hl p)) as (l' & Hv & [->|Hst]); [by exists l|].
      exists l'. split; [done|by apply rtc_once].
    + exists l. split; [|done]. unfold lives. by rewrite Hq.
Qed.

Lemma events_of_app p s e x qb cb b j r :
  events_of p (mkState x qb cb b j (announced s ++ [e]) r) =
    events_of p s ++ (if relevant p e then [e.1] else []).
Proof.
  unfold events_of. simpl. rewrite filter_app, fmap_app, filter_cons. f_equal.
  by destruct (relevant p e).
Qed.

Lemma relevant_other p q event : q ≠ p → relevant q (event, p) = false.
Proof. intros Hne. unfold relevant. simpl. by rewrite bool_decide_false by done. Qed.

Lemma relevant_self p event : relevant p (event, p) =
  match event with PromiseRejectWithNoHandler | PromiseHandlerAddedAfterReject => true | _ => false end.
Proof. unfold relevant. simpl. by rewrite bool_decide_true. Qed.

(** [promise_reject_callback]. *)
Lemma announce_advances event p v c r s u s' :
  promise_reject_callback event p v c r s = Ret (u, s') → advances s s'.
Proof.
  unfold promise_reject_callback, log_event, mbind, stateM_bind. simpl.
  assert (∀ x, (∀ q, q ≠ p → length (filter (λ e, e.1.1 = q) (pending_promise_rejections x)) = pending_of q s ∧
      length (filter (λ e, e.1 = q) (pending_handled_promise_rejections x)) = handled_of q s) →
    (∀ l, lives p s l → v8_events (events_of p s ++ (if relevant p (event, p) then [event] else [])) →
      ∃ l', mkView (events_of p s ++ (if relevant p (event, p) then [event] else []))
        (length (filter (λ e, e.1.1 = p) (pending_promise_rejections x)))
        (length (filter (λ e, e.1 = p) (pending_handled_promise_rejections x))) (reports_of p s) = life_view l' ∧
        (l' = l ∨ life_step l l')) →
    advances s (mkState x (queue_borrowed s) (cb_borrowed s) (terminating s) (world s)
      (announced s ++ [(event, p)]) (reports s))) as Hone.
  { intros x Hoth Hself. apply (advances_one _ _ p).
    - intros q Hne. destruct (Hoth q Hne) as [H1 H2]. unfold view_of. rewrite events_of_app, relevant_other by done.
      rewrite app_nil_r. unfold pending_of, handled_of in *. simpl in *. by rewrite H1, H2.
    - rewrite events_of_app. destruct (relevant p (event, p)); [apply v8_events_prefix|by rewrite app_nil_r].
    - intros l Hl Hlaw. rewrite events_of_app in Hlaw. destruct (Hself l Hl Hlaw) as (l' & Hv & Hst).
      exists l'. split; [|done]. unfold lives, view_of. rewrite events_of_app. exact Hv. }
  destruct event; simpl.
  - destruct v as [error|]; [|done]. unfold get_ex, put_ex, mbind, stateM_bind. simpl. intros [= _ <-]. apply Hone; simpl.
    + intros q Hne. rewrite (filter_key_app (λ e, e.1.1)). simpl. rewrite decide_False by done.
      split; [|done]. unfold pending_of. lia.
    + rewrite relevant_self, (filter_key_app (λ e, e.1.1)). simpl. rewrite decide_True by done.
      intros l Hl Hlaw. exists Waiting. destruct l; injection Hl as He Hp Hh Hr; rewrite He in Hlaw;
        try (apply v8_events_cases in Hlaw as [Hl|[Hl|Hl]]; discriminate Hl).
      unfold pending_of, handled_of in *. rewrite He, Hp, Hh, Hr. split; [done|right; constructor].
  - set (q0 := filter (λ e, e.1.1 ≠ p) (pending_promise_rejections (ex s))).
    pose proof (length_filter_key (λ e, e.1.1) p (pending_promise_rejections (ex s))) as Hlen.
    assert (∀ q, q ≠ p → length (filter (λ e, e.1.1 = q) q0) = pending_of q s) as Hq.
    { intros q Hne. unfold q0. by rewrite (filter_key_other (λ e, e.1.1)). }
    assert (length (filter (λ e, e.1.1 = p) q0) = 0%nat) as Hq0
      by (unfold q0; by rewrite (filter_key_self (λ e, e.1.1))).
    cbv beta in Hlen. fold q0 in Hlen. fold (pending_of p s) in Hlen.
    assert (∀ l, lives p s l → v8_events (events_of p s ++ [PromiseHandlerAddedAfterReject]) →
      l = Waiting ∨ l = Reported) as Hlife.
    { intros l Hl Hlaw. destruct l; injection Hl as He Hp Hh Hr; rewrite He in Hlaw; auto;
        apply v8_events_cases in Hlaw as [Hl|[Hl|Hl]]; discriminate Hl. }
    unfold get_ex, put_ex, mret, stateM_ret, mbind, stateM_bind. simpl. fold q0. case_decide as Hsame.
    + destruct (js_handled_promise_rejection_cb (ex s)) as [f|].
      * unfold push_handled. simpl. destruct (queue_borrowed s); [done|]. intros [= _ <-].
        apply Hone; simpl.
        -- intros q Hne. split; [by apply Hq|]. rewrite (filter_key_app (λ e, e.1)). simpl.
           rewrite decide_False by done. unfold handled_of. lia.
        -- rewrite relevant_self, Hq0, (filter_key_app (λ e, e.1)). simpl. rewrite decide_True by done.
           intros l Hl Hlaw. exists Queued.
           destruct (Hlife l Hl Hlaw) as [->| ->]; injection Hl as He Hp Hh Hr; [lia|].
           unfold handled_of in Hh. rewrite He, Hh, Hr. split; [done|right; constructor].
      * intros [= _ <-]. apply Hone; simpl; [intros q Hne; by rewrite Hq|].
        rewrite relevant_self, Hq0. intros l Hl Hlaw. exists Unheard.
        destruct (Hlife l Hl Hlaw) as [->| ->]; injection Hl as He Hp Hh Hr; [lia|].
        unfold handled_of in Hh. rewrite He, Hh, Hr. split; [done|right; constructor].
    + intros [= _ <-]. apply Hone; simpl; [intros q Hne; by rewrite Hq|].
      rewrite relevant_self, Hq0. intros l Hl Hlaw. exists Forgiven.
      destruct (Hlife l Hl Hlaw) as [->| ->]; injection Hl as He Hp Hh Hr; [|lia].
      unfold handled_of in Hh. rewrite He, Hh, Hr. split; [done|right; constructor].
  - intros [= _ <-]. apply Hone; [done|]. intros l Hl _. exists l. split; [|by left].
    rewrite relevant_self, app_nil_r. exact Hl.
  - intros [= _ <-]. apply Hone; [done|]. intros l Hl _. exists l. split; [|by left].
    rewrite relevant_self, app_nil_r. exact Hl.
Qed.

(** ** Runs *)

Definition moves {A} (m : M J A) : Prop := ∀ s a s', m s = Ret (a, s') → advances s s'.

Lemma moves_bind {A B} (m : M J A) (k : A → M J B) :
  moves m → (∀ a, moves (k a)) → moves (m ≫= k).
Proof.
  intros Hm Hk s b s' (a & s1 & H1 & H2)%stateM_bind_inv. eapply advances_trans; [by eapply Hm|by eapply Hk].
Qed.

Lemma moves_ret {A} (a : A) : moves (mret a).
Proof. intros s b s' [= _ <-]. apply advances_refl. Qed.

(** A step that the views do not see. *)
Lemma moves_same {A} (m : M J A) :
  (∀ s a s', m s = Ret (a, s') → ∀ p, view_of p s' = view_of p s) → moves m.
Proof. intros Hm s a s' Hs. apply advances_same. by apply (Hm s a). Qed.

Lemma exec_action_moves a : moves (exec_action a).
Proof.
  destruct a as [event p v c r|f|e b repl]; simpl.
  - intros s u s'. apply announce_advances.
  - apply moves_same. intros s u s'. unfold op_set_handled_promise_rejection_handler.
    destruct (cb_borrowed s); [done|]. by intros [= _ <-].
  - apply moves_same. intros s u s'. unfold dispatch_exception. destruct repl; by intros [= _ <-].
Qed.

Lemma exec_actions_moves l : moves (exec_actions l).
Proof.
  induction l as [|a l IH]; [apply moves_ret|]. apply moves_bind; [apply exec_action_moves|done].
Qed.

(** The borrows last while JavaScript runs, and protect the queue. *)
Lemma exec_action_borrows a s u s' :
  exec_action a s = Ret (u, s') →
  queue_borrowed s' = queue_borrowed s ∧ cb_borrowed s' = cb_borrowed s ∧
  (queue_borrowed s = true →
    pending_handled_promise_rejections (ex s') = pending_handled_promise_rejections (ex s)).
Proof.
  destruct a as [event p v c r|f|e b repl]; simpl.
  - unfold promise_reject_callback, mbind, stateM_bind. simpl. destruct event; simpl.
    + destruct v; [|done]. by intros [= _ <-].
    + unfold get_ex, put_ex, mret, stateM_ret, mbind, stateM_bind. simpl. case_decide; [|by intros [= _ <-]].
      destruct (js_handled_promise_rejection_cb (ex s)); [|by intros [= _ <-]].
      unfold push_handled. simpl. destruct (queue_borrowed s) eqn:Hb; [done|]. by intros [= _ <-].
    + by intros [= _ <-].
    + by intros [= _ <-].
  - unfold op_set_handled_promise_rejection_handler. destruct (cb_borrowed s) eqn:Hb; [done|].
    by intros [= _ <-].
  - unfold dispatch_exception. destruct repl; by intros [= _ <-].
Qed.

Lemma exec_actions_borrows l s u s' :
  exec_actions l s = Ret (u, s') →
  queue_borrowed s' = queue_borrowed s ∧ cb_borrowed s' = cb_borrowed s ∧
  (queue_borrowed s = true →
    pending_handled_promise_rejections (ex s') = pending_handled_promise_rejections (ex s)).
Proof.
  revert s. induction l as [|a l IH]; intros s; [by intros [= _ <-]|].
  intros (v & s1 & H1 & H2)%stateM_bind_inv.
  destruct (exec_action_borrows a s v s1 H1) as (Q1 & C1 & K1).
  destruct (IH s1 H2) as (Q2 & C2 & K2). split_and!; [congruence..|].
  intros Hq. rewrite K2, K1; congruence.
Qed.

Lemma exec_actions_fuel l s : exec_actions l s ≠ Panic OutOfFuel.
Proof.
  revert s. induction l as [|a l IH]; intros s; [done|]. simpl. unfold mbind, stateM_bind.
  destruct (exec_action a s) as [[u s1]|f] eqn:Ha; [apply IH|]. intros [= ->].
  destruct a as [event p v c r|f|e b repl]; simpl in Ha.
  - unfold promise_reject_callback, mbind, stateM_bind in Ha. simpl in Ha. destruct event; simpl in Ha; try done.
    + by destruct v.
    + unfold get_ex, put_ex, mret, stateM_ret, mbind, stateM_bind in Ha. simpl in Ha. case_decide; [|done].
      destruct (js_handled_promise_rejection_cb (ex s)); [|done].
      unfold push_handled in Ha. simpl in Ha. by destruct (queue_borrowed s).
  - unfold op_set_handled_promise_rejection_handler in Ha. by destruct (cb_borrowed s).
  - unfold dispatch_exception in Ha. by destruct repl.
Qed.

(** ** The tick *)

Lemma reports_of_app p x qb cb b j ev l l' :
  reports_of p (mkState (J:=J) x qb cb b j ev (l ++ l')) = omap (about p) l ++ omap (about p) l'.
Proof. unfold reports_of. simpl. apply omap_app. Qed.

(** A handled rejection is taken from the queue, and reported if somebody asked. *)
Lemma pop_advances s p r rest (told : bool) qb cb b j :
  pending_handled_promise_rejections (ex s) = (p, r) :: rest →
  advances s (mkState (set_handled (ex s) rest) qb cb b j (announced s)
    (reports s ++ (if told then [Handled p] else []))).
Proof.
  intros Hq. apply (advances_one _ _ p); [|done|].
  - intros q Hne. unfold view_of. rewrite reports_of_app. unfold handled_of. simpl.
    rewrite Hq, filter_cons, decide_False by done. f_equal.
    destruct told; simpl; [rewrite decide_False by done|]; by rewrite app_nil_r.
  - intros l Hl _. unfold lives, view_of in Hl.
    assert (handled_of p s = S (length (filter (λ e, e.1 = p) rest))) as Hc.
    { unfold handled_of. by rewrite Hq, filter_cons, decide_True. }
    destruct l; injection Hl as He Hp Hh Hr; rewrite Hc in Hh; try discriminate Hh.
    injection Hh as Hh. exists (if told then Delivered else Unheard).
    split; [|right; destruct told; constructor].
    unfold lives, view_of. rewrite reports_of_app.
    change (omap (about p) (reports s)) with (reports_of p s). rewrite Hr.
    unfold events_of, pending_of, handled_of in *. simpl. rewrite He, Hp, Hh.
    destruct told; simpl; [by rewrite decide_True|done].
Qed.

Variable H : host J.

(** The run of a handler. *)
Lemma call_handled_moves f p r rest s a s' :
  pending_handled_promise_rejections (ex s) = (p, r) :: rest →
  (_ ← put_ex (set_handled (ex s) rest); _ ← set_borrows true true;
   _ ← call_js H (HandledRejection f p r); set_borrows false false) s = Ret (a, s') →
  advances s s' ∧ pending_handled_promise_rejections (ex s') = rest ∧ queue_borrowed s' = false.
Proof.
  intros Hq. unfold put_ex, set_borrows, call_js, mbind, stateM_bind. simpl.
  destruct (run H _ (world s)) as [[actions thrown] j].
  destruct (exec_actions actions _) as [[u s1]|f'] eqn:Hrun; [|done]. simpl. intros [= _ <-].
  pose proof (exec_actions_moves actions _ _ _ Hrun) as Hmv.
  destruct (exec_actions_borrows actions _ _ _ Hrun) as (_ & _ & Hkeep). simpl in Hkeep.
  split; [|simpl; by rewrite Hkeep].
  eapply advances_trans; [exact (pop_advances s p r rest true true true (terminating s) j Hq)|].
  eapply advances_trans; [exact Hmv|]. by apply advances_same.
Qed.

Lemma handled_loop_run fuel s a s' :
  handled_loop H fuel s = Ret (a, s') →
  advances s s' ∧ pending_handled_promise_rejections (ex s') = [].
Proof.
  revert s a. induction fuel as [|fuel IH]; intros s a; [done|]. cbn [handled_loop].
  intros (x & s0 & [= <- <-] & Hs)%stateM_bind_inv. revert Hs.
  destruct (pending_handled_promise_rejections (ex s)) as [|[p r] rest] eqn:Hq.
  - intros [= _ <-]. split; [apply advances_refl|done].
  - intros (u & s1 & H1 & H2)%stateM_bind_inv. apply stateM_bind_inv in H2 as (v & s2 & H2 & H3).
    destruct (IH s2 a H3) as [A2 E2]. split; [|done]. eapply advances_trans; [|exact A2].
    injection H1 as _ <-. destruct (js_handled_promise_rejection_cb (ex s)) as [f|].
    + apply (call_handled_moves f p r rest s v s2 Hq). exact H2.
    + injection H2 as _ <-. pose proof (pop_advances s p r rest false (queue_borrowed s) (cb_borrowed s)
        (terminating s) (world s) Hq) as Hp. by rewrite app_nil_r in Hp.
Qed.

Lemma about_unhandled p (l : list (promise * value * value)) :
  omap (about p) (map (λ e, Unhandled e.1.1) l) = replicate (length (filter (λ e, e.1.1 = p) l)) false.
Proof.
  induction l as [|e l IH]; [done|]. rewrite filter_cons. cbn.
  destruct (decide (e.1.1 = p)); cbn; [f_equal|]; exact IH.
Qed.

(** The swap of the queue, and the report of all that was in it. *)
Lemma swap_advances s j :
  let s' := mkState (set_pending (ex s) []) (queue_borrowed s) (cb_borrowed s) (terminating s) j
    (announced s) (reports s ++ map (λ e, Unhandled e.1.1) (pending_promise_rejections (ex s))) in
  advances s s' ∧ ∀ p l, lives p s l → lives p s' (if decide (l = Waiting) then Reported else l).
Proof.
  intros s'. assert (∀ p l, lives p s l → lives p s' (match l with Waiting => Reported | l => l end)) as Hv.
  { intros p l Hl. unfold lives, view_of in *. unfold s'. rewrite reports_of_app, about_unhandled.
    change (omap (about p) (reports s)) with (reports_of p s).
    change (length (filter (λ e, e.1.1 = p) (pending_promise_rejections (ex s)))) with (pending_of p s).
    destruct l; injection Hl as He Hp Hh Hr; rewrite Hp, Hr; unfold events_of, handled_of in *; simpl;
      by rewrite He, Hh. }
  split.
  - intros Hlaw. split; [exact Hlaw|]. intros p l Hl. eexists. split; [by apply Hv|].
    destruct l; try done. apply rtc_once. constructor.
  - intros p l Hl. specialize (Hv p l Hl). by destruct l.
Qed.

Lemma exception_to_err_run e b c s a s' :
  exception_to_err H e b c s = Ret (a, s') →
  (∀ p, view_of p s' = view_of p s) ∧
  pending_handled_promise_rejections (ex s') = pending_handled_promise_rejections (ex s).
Proof.
  unfold exception_to_err, put_ex, set_terminating, mbind, stateM_bind. simpl.
  destruct (dispatched_exception (ex s)), c; simpl; by intros [= _ <-].
Qed.

(** The lives that lead to each other. *)
Definition reach (l : life) : list life :=
  match l with
  | Fresh => [Fresh; Waiting; Forgiven; Reported; Queued; Delivered; Unheard]
  | Waiting => [Waiting; Forgiven; Reported; Queued; Delivered; Unheard]
  | Reported => [Reported; Queued; Delivered; Unheard]
  | Queued => [Queued; Delivered; Unheard]
  | l => [l]
  end.

Lemma rtc_reach l l' : rtc life_step l l' → l' ∈ reach l.
Proof.
  induction 1 as [l|l1 l2 l3 Hst _ IH]; [destruct l; simpl; by left|].
  destruct Hst; simpl in *; rewrite ?elem_of_cons, ?elem_of_nil in *; naive_solver.
Qed.

(** [dispatch_rejections] after the handled ones. *)
Lemma dispatch_run fuel s r s' :
  dispatch_rejections H fuel s = Ret (r, s') →
  ∃ s1 s2, advances s s1 ∧ pending_handled_promise_rejections (ex s1) = [] ∧
    (∀ p l, lives p s1 l → lives p s2 (if decide (l = Waiting) then Reported else l)) ∧
    advances s1 s2 ∧ advances s2 s'.
Proof.
  unfold dispatch_rejections. intros (u & s1 & H1 & Hs)%stateM_bind_inv.
  destruct (handled_loop_run fuel s u s1 H1) as [A1 E1]. exists s1.
  apply stateM_bind_inv in Hs as (x & s0 & [= <- <-] & Hs).
  destruct (pending_promise_rejections (ex s1)) as [|e rejections] eqn:Hp.
  - injection Hs as _ <-. exists s1. split_and!; [done|done| |apply advances_refl..].
    intros p l Hl. case_decide as Hw; [|done]. subst l. injection Hl as _ Hc _ _.
    unfold pending_of in Hc. by rewrite Hp in Hc.
  - apply stateM_bind_inv in Hs as (v & s2 & [= _ <-] & Hs). apply stateM_bind_inv in Hs as (thrown & s3 & Hcall & Hs).
    unfold call_js in Hcall. cbn [world ex queue_borrowed cb_borrowed terminating announced reports] in Hcall.
    destruct (run H (HandleRejections (e :: rejections)) (world s1)) as [[actions th] j].
    apply stateM_bind_inv in Hcall as (w & s4 & Hrun & [= <- <-]).
    destruct (swap_advances s1 j) as [Asw Vsw]. rewrite Hp in Asw, Vsw.
    eexists. split_and!; [done|done|exact Vsw|exact Asw|].
    eapply advances_trans; [by eapply exec_actions_moves|].
    destruct th as [ex0|]; [|injection Hs as _ <-; apply advances_refl].
    apply stateM_bind_inv in Hs as (er & s5 & Herr & [= _ <-]).
    apply advances_same. apply (exception_to_err_run _ _ _ _ _ _ Herr).
Qed.

(** ** The program *)

Inductive top := JsRuns (l : list js_action) | Tick (fuel : nat).

Definition exec_top (t : top) : M J unit :=
  match t with
  | JsRuns l => exec_actions l
  | Tick fuel => _ ← dispatch_rejections H fuel; mret tt
  end.
Fixpoint exec_tops (l : list top) : M J unit :=
  match l with [] => mret tt | t :: l => _ ← exec_top t; exec_tops l end.

Lemma exec_tops_moves l : moves (exec_tops l).
Proof.
  induction l as [|t l IH]; [apply moves_ret|]. apply moves_bind; [|done].
  destruct t as [acts|fuel]; [apply exec_actions_moves|]. apply moves_bind; [|intros; apply moves_ret].
  intros s r s' Hd. destruct (dispatch_run fuel s r s' Hd) as (s1 & s2 & A1 & _ & _ & A2 & A3).
  eapply advances_trans; [exact A1|]. by eapply advances_trans.
Qed.

(** The start of a runtime. *)
Definition init (j : J) : state J := mkState ExceptionState_default false false false j [] [].

Lemma init_lives j p : lives p (init j) Fresh.
Proof. done. Qed.

(** C12. Every promise that V8 announces lives one life, whatever JavaScript does between and
    inside the reports: if it is rejected and has no handler by the next tick, it is reported
    as unhandled, once; if a handler comes before that it is never reported; if one comes
    later it is reported as handled, once, after the other report, provided that somebody
    asked for it.  A tick reports everything that was waiting and everything that was
    queued. *)
Theorem rejections_reported_once l j s :
  exec_tops l (init j) = Ret (tt, s) → v8_law s →
  (∀ p, ∃ k, lives p s k) ∧
  ∀ fuel r s', dispatch_rejections H fuel s = Ret (r, s') → v8_law s' →
    ∀ p k, lives p s k → ∃ k', lives p s' k' ∧ rtc life_step k k' ∧
      (k = Waiting → k' ≠ Waiting) ∧ (k = Queued → k' = Delivered ∨ k' = Unheard).
Proof.
  intros Hrun Hlaw. destruct (exec_tops_moves l (init j) tt s Hrun Hlaw) as [_ Hall]. split.
  - intros p. destruct (Hall p Fresh (init_lives j p)) as (k & Hk & _). by exists k.
  - intros fuel r s' Hd Hlaw' p k Hk.
    destruct (dispatch_run fuel s r s' Hd) as (s1 & s2 & A1 & E1 & Hsw & A2 & A3).
    destruct (A3 Hlaw') as [L2 V3]. destruct (A2 L2) as [L1 _]. destruct (A1 L1) as [_ V1].
    destruct (V1 p k Hk) as (k1 & Hk1 & St1). pose proof (Hsw p k1 Hk1) as Hk2.
    destruct (V3 p _ Hk2) as (k' & Hk' & St3). exists k'. split; [done|].
    assert (k1 ≠ Queued) as Hnq.
    { intros ->. injection Hk1 as _ _ Hh _. unfold handled_of in Hh. by rewrite E1 in Hh. }
    assert (rtc life_step k1 (if decide (k1 = Waiting) then Reported else k1)) as St2
      by (case_decide; [subst; apply rtc_once; constructor|done]).
    assert (rtc life_step k k') as Hst by (etrans; [exact St1|]; by etrans).
    apply rtc_reach in St1, St3. split; [done|]. split.
    + intros ->. intros ->. destruct k1; simpl in *; rewrite ?elem_of_cons, ?elem_of_nil in *; naive_solver.
    + intros ->. destruct k1; simpl in *; rewrite ?elem_of_cons, ?elem_of_nil in *; naive_solver.
Qed.

Lemma call_js_fuel c s : call_js H c s ≠ Panic OutOfFuel.
Proof.
  unfold call_js. destruct (run H c (world s)) as [[actions thrown] j].
  intros [Hf|(u & s1 & _ & Hf)]%stateM_bind_panic; [by apply exec_actions_fuel in Hf|done].
Qed.

Lemma handled_loop_ends fuel s :
  (length (pending_handled_promise_rejections (ex s)) < fuel)%nat →
  handled_loop H fuel s ≠ Panic OutOfFuel.
Proof.
  revert s. induction fuel as [|fuel IH]; intros s Hlen; [lia|]. cbn [handled_loop].
  intros [Hf|(x & s0 & [= <- <-] & Hf)]%stateM_bind_panic; [done|].
  destruct (pending_handled_promise_rejections (ex s)) as [|[p r] rest] eqn:Hq; [done|].
  simpl in Hlen. apply stateM_bind_panic in Hf as [Hf|(u & s1 & [= _ <-] & Hf)]; [done|].
  apply stateM_bind_panic in Hf as [Hf|(v & s2 & Hrun & Hf)].
  - destruct (js_handled_promise_rejection_cb (ex s)) as [f|]; [|done].
    apply stateM_bind_panic in Hf as [Hf|(w & s3 & _ & Hf)]; [done|].
    apply stateM_bind_panic in Hf as [Hf|(w2 & s4 & _ & Hf)]; [by apply call_js_fuel in Hf|done].
  - revert Hf. apply IH. destruct (js_handled_promise_rejection_cb (ex s)) as [f|].
    + destruct (call_handled_moves f p r rest s v s2 Hq Hrun) as (_ & -> & _). lia.
    + injection Hrun as _ <-. simpl. lia.
Qed.

(** [dispatch_rejections] ends: its loop over the handled rejections makes one turn for
    each that was queued, since the queue is borrowed while JavaScript runs. *)
Lemma dispatch_rejections_ends fuel s :
  (length (pending_handled_promise_rejections (ex s)) < fuel)%nat →
  dispatch_rejections H fuel s ≠ Panic OutOfFuel.
Proof.
  intros Hlen [Hf|(u & s1 & _ & Hf)]%stateM_bind_panic; [by apply handled_loop_ends in Hf|].
  apply stateM_bind_panic in Hf as [Hf|(x & s0 & [= <- <-] & Hf)]; [done|].
  destruct (pending_promise_rejections (ex s1)) as [|e l]; [done|].
  apply stateM_bind_panic in Hf as [Hf|(v & s2 & _ & Hf)]; [done|].
  apply stateM_bind_panic in Hf as [Hf|(thrown & s3 & _ & Hf)]; [by apply call_js_fuel in Hf|].
  destruct thrown as [er|]; [|done].
  apply stateM_bind_panic in Hf as [Hf|(w & s4 & _ & Hf)]; [|done].
  unfold exception_to_err, put_ex, set_terminating, mbind, stateM_bind in Hf. simpl in Hf.
  by destruct (dispatched_exception (ex s3)).
Qed.

(** An exception that was reported with [dispatch_exception] is what the tick fails with,
    once, and ends the termination. *)
Lemma dispatched_exception_reported e is_promise s :
  ∃ s1 s2, dispatch_exception e is_promise false s = Ret (tt, s1) ∧ terminating s1 = true ∧
    check_exception_condition H s1 = Ret (Err (mkJsError
      (if is_promise then in_promise_message (message_of H (Thrown e)) else message_of H (Thrown e))), s2) ∧
    terminating s2 = false ∧ has_dispatched_exception (ex s2) = false.
Proof. eexists _, _. split_and!; by try destruct is_promise. Qed.
End life.

(** * Examples *)

(** The handler of handled rejections attaches a handler to the promise 2, or changes the
    handler; other calls do nothing. *)
Definition attach : list js_action := [Announce PromiseHandlerAddedAfterReject 2 None 0 20].
Definition reset : list js_action := [SetHandledHandler None].
Definition demo_host (in_handler : list js_action) : host unit :=
  mkHost unit (λ c j, (match c with HandledRejection _ _ _ => in_handler | _ => [] end, None, j))
    (λ e, match e with Thrown _ => $"Uncaught Error: no" | _ => $"Uncaught null" end).

Definition reject (p : Z) : js_action := Announce PromiseRejectWithNoHandler p (Some (p * 10)) 0 0.
Definition handle (p : Z) : js_action := Announce PromiseHandlerAddedAfterReject p None 0 (p * 10).

(** Promise 1 is reported and then handled, 2 is reported, 3 is handled in time. *)
Definition demo_tops : list top :=
  [JsRuns [SetHandledHandler (Some 7); reject 1; reject 3; reject 2; handle 3]; Tick 9;
   JsRuns [handle 1; reject 4]].
Definition demo_state (l : list top) : state unit :=
  match exec_tops (demo_host []) l (init tt) with Ret (_, s) => s | Panic _ => init tt end.

Lemma demo_law (s : state unit) :
  Forall (λ p, v8_events (events_of p s)) (announced s).*2 → v8_law s.
Proof.
  intros Hall p. destruct (decide (p ∈ (announced s).*2)) as [Hin|Hout].
  - rewrite Forall_forall in Hall. by apply Hall.
  - assert (events_of p s = []) as ->; [|by left]. unfold events_of.
    clear Hall. induction (announced s) as [|e l IH]; [done|].
    apply not_elem_of_cons in Hout as [Hne Hout].
    assert (relevant p e = false) as Hr.
    { unfold relevant. simpl in Hne. by rewrite (bool_decide_eq_false_2 (e.2 = p)) by congruence. }
    rewrite filter_cons, Hr. by apply IH.
Qed.

(** [rejections_reported_once]: the second tick reports 1 as handled and 4 as unhandled. *)
Lemma rejections_reported_once_witness :
  let s := demo_state demo_tops in
  reports s = [Unhandled 1; Unhandled 2] ∧
  match dispatch_rejections (demo_host []) 9 s with
  | Ret (_, s') => reports s' = reports s ++ [Handled 1; Unhandled 4]
  | Panic _ => False
  end ∧ ∀ p, ∃ k, lives p s k.
Proof.
  split; [by vm_compute|]. split; [by vm_compute|].
  refine (proj1 (rejections_reported_once (demo_host []) demo_tops tt _ _ _)); [by vm_compute|].
  apply demo_law, (bool_decide_unpack _). by vm_compute.
Defined.

Lemma dispatch_rejections_ends_example :
  dispatch_rejections (demo_host []) 2 (demo_state demo_tops) ≠ Panic OutOfFuel.
Proof. apply (dispatch_rejections_ends (demo_host []) 2 (demo_state demo_tops)). vm_compute. lia. Qed.

(** Where the code does not do what it means to.  (1) A [rejectionhandled] handler that
    makes another reported promise handled panics, because the loop holds the borrow of the
    queue while it calls the handler.  (2) So does one that replaces the handler.  (3)
    [prepare_to_destroy], which is to clear every V8 object, keeps the queue of handled
    rejections. *)
Lemma rejection_gaps :
  dispatch_rejections (demo_host attach) 9 (demo_state demo_tops) = Panic BorrowConflict ∧
  dispatch_rejections (demo_host reset) 9 (demo_state demo_tops) = Panic BorrowConflict ∧
  pending_handled_promise_rejections (prepare_to_destroy (ex (demo_state demo_tops))) = [(1, 10)].
Proof. split_and!; by vm_compute. Qed.
