(* ===== verification/Inspector.v ===== *)
(** [core/inspector.rs]: the sessions of debuggers.

    [poll_sessions] runs on the thread of the runtime; debuggers and workers send from
    other threads at any time.  It is cut into its atomic steps: a poll of one channel, one
    message, one critical section of the waker.  A [world] is the inspector with its
    channels; [pc] says where [poll_sessions] stands.  Channels are those of
    [futures::mpsc]: a receiver that finds nothing leaves its waker, the next message or the
    end of the sender takes and wakes it.  [FuturesUnordered] polls the futures that were
    woken, in the order in which they were, and leaves its own waker.  JSON texts are read
    and written by parameters, and V8 is one: it answers a message with calls back. *)

From S2P Require Import Prelude.
From stdpp Require Import pretty.

(** * JSON *)

(** [serde_json::Value]; a number is an integer of 64 bits or something else. *)
#[local] Unset Elimination Schemes.
Inductive json :=
  | JNull
  | JBool (b : bool)
  | JInt (z : Z)
  | JNum (s : string)
  | JStr (s : string)
  | JArr (l : list json)
  | JObj (fields : list (string * json)).
#[local] Set Elimination Schemes.

Definition find_field (key : string) (o : list (string * json)) : option json :=
  snd <$> head (filter (λ f, f.1 = key) o).

Definition json_get (v : json) (key : string) : option json :=
  match v with JObj o => find_field key o | _ => None end.
Definition as_str (v : json) : option string := match v with JStr s => Some s | _ => None end.
Definition as_bool (v : json) : option bool := match v with JBool b => Some b | _ => None end.
Definition as_i64 (v : json) : option Z := match v with JInt z => Some z | _ => None end.

(** [Map::remove] and [Map::insert]. *)
Definition obj_remove (key : string) (o : list (string * json)) := filter (λ f, f.1 ≠ key) o.
Definition obj_insert (key : string) (v : json) (o : list (string * json)) :=
  obj_remove key o ++ [(key, v)].

(** [as i32]. *)
Definition to_i32 (z : Z) : Z := ((z + 2 ^ 31) mod 2 ^ 32 - 2 ^ 31)%Z.

Definition get_str_param (params : option json) (key : string) : string :=
  default "" (p ← params; v ← json_get p key; as_str v).
Definition get_bool_param (params : option json) (key : string) : bool :=
  default false (p ← params; v ← json_get p key; as_bool v).

(** * Channels *)

(** Who is woken: the inspector, or the future that pumps a session. *)
Inductive waker_of := WInspector | WPump (sid : nat).
Global Instance waker_of_eq_dec : EqDecision waker_of.
Proof. solve_decision. Defined.

Record chan (A : Type) := mkChan { queue : list A; open : bool; rx_waker : option waker_of }.
Arguments mkChan {A} _ _ _.
Arguments queue {A} _.
Arguments open {A} _.
Arguments rx_waker {A} _.

Definition empty_chan {A} : chan A := mkChan [] true None.

(** [poll_next_unpin] of a receiver. *)
Definition chan_poll {A} (w : waker_of) (c : chan A) : poll (option A) * chan A :=
  match queue c with
  | x :: q => (Ready (Some x), mkChan q (open c) (rx_waker c))
  | [] => if open c then (Pending, mkChan [] true (Some w)) else (Ready None, c)
  end.

(** [unbounded_send], and the end of the last sender: who is woken comes with it. *)
Definition chan_send {A} (x : A) (c : chan A) : option waker_of * chan A :=
  (rx_waker c, mkChan (queue c ++ [x]) (open c) None).
Definition chan_close {A} (c : chan A) : option waker_of * chan A :=
  (rx_waker c, mkChan (queue c) false None).

(** * Data *)

Inductive InspectorMsgKind := Notification | Message (id : Z).
Record InspectorMsg := mkMsg { msg_kind : InspectorMsgKind; content : string }.

Inductive InspectorSessionKind := Blocking | NonBlocking (wait_for_disconnect : bool).

(** [InspectorSessionProxy] with [InspectorSessionChannels]: channels are known by number. *)
Inductive InspectorSessionProxy :=
  | PRegular (rx : nat) (kind : InspectorSessionKind)
  | PWorker (rx : nat) (worker_url : string).

Record TargetSession := mkTarget {
  target_id : string;
  session_id : string;
  local_session_id : Z;
  worker_id : Z;
  channels : option nat;
  url : string;
  attached : bool
}.
Definition set_channels (ts : TargetSession) (c : option nat) : TargetSession :=
  mkTarget (target_id ts) (session_id ts) (local_session_id ts) (worker_id ts) c (url ts) (attached ts).
Definition set_attached (ts : TargetSession) (b : bool) : TargetSession :=
  mkTarget (target_id ts) (session_id ts) (local_session_id ts) (worker_id ts) (channels ts) (url ts) b.

Definition title (ts : TargetSession) : string := "worker [" +:+ pretty (worker_id ts) +:+ "]".

Definition target_info (ts : TargetSession) (attached : bool) : json :=
  JObj [("targetId", JStr (target_id ts)); ("type", JStr "node_worker");
        ("title", JStr (title ts)); ("url", JStr (url ts)); ("attached", JBool attached);
        ("canAccessOpener", JBool true)].
Definition worker_info (ts : TargetSession) : json :=
  JObj [("workerId", JStr (target_id ts)); ("type", JStr "node_worker");
        ("title", JStr (title ts)); ("url", JStr (url ts))].

Definition event (method : string) (params : list (string * json)) : json :=
  JObj [("method", JStr method); ("params", JObj params)].
Definition target_created (ts : TargetSession) : json :=
  event "Target.targetCreated" [("targetInfo", target_info ts false)].
Definition attached_to_target (ts : TargetSession) : json :=
  event "Target.attachedToTarget" [("sessionId", JStr (session_id ts));
    ("targetInfo", target_info ts true); ("waitingForDebugger", JBool false)].
Definition attached_to_worker (ts : TargetSession) : json :=
  event "NodeWorker.attachedToWorker" [("sessionId", JStr (session_id ts));
    ("workerInfo", worker_info ts); ("waitingForDebugger", JBool false)].

(** [InspectorSession]: what it sent to its debugger is kept; [pumping] is that its
    receiver was taken. *)
Record InspectorSession := mkSession {
  kind : InspectorSessionKind;
  pumping : bool;
  sent : list InspectorMsg
}.

(** [InspectorFlags], the cells that sessions share, the tasks that they spawned, V8. *)
Inductive spawned_task :=
  | NotifyAttachedToWorker (sid : nat)
  | NotifyTargetCreated (sid : nat)
  | AutoAttach (sid : nat).

Record front (V : Type) := mkFront {
  sessions : gmap nat InspectorSession;
  pending_worker_messages : list (string * string);
  spawned : list spawned_task;
  nodeworker_enabled : bool;
  auto_attach_enabled : bool;
  discover_targets_enabled : bool;
  on_pause : bool;
  waiting_for_session : bool;
  v8 : V
}.
Arguments mkFront {V} _ _ _ _ _ _ _ _ _.
Arguments sessions {V} _.
Arguments pending_worker_messages {V} _.
Arguments spawned {V} _.
Arguments nodeworker_enabled {V} _.
Arguments auto_attach_enabled {V} _.
Arguments discover_targets_enabled {V} _.
Arguments on_pause {V} _.
Arguments waiting_for_session {V} _.
Arguments v8 {V} _.

(** What V8 does while it handles a message: it sends through a channel, or calls
    [run_message_loop_on_pause], [quit_message_loop_on_pause],
    [run_if_waiting_for_debugger]. *)
Inductive v8_call :=
  | SendResponse (sid : nat) (call_id : Z) (content : string)
  | SendNotification (sid : nat) (content : string)
  | RunMessageLoopOnPause
  | QuitMessageLoopOnPause
  | RunIfWaitingForDebugger.

Section front.
Context {V : Type} (v8_dispatch : nat → string → V → V * list v8_call)
  (from_str : string → option json) (to_string : json → string).
Implicit Types (f : front V).

Definition notification (v : json) : InspectorMsg := mkMsg Notification (to_string v).

Definition set_sessions f (s : gmap nat InspectorSession) : front V :=
  mkFront s (pending_worker_messages f) (spawned f) (nodeworker_enabled f)
    (auto_attach_enabled f) (discover_targets_enabled f) (on_pause f) (waiting_for_session f) (v8 f).
Definition set_pending f (l : list (string * string)) : front V :=
  mkFront (sessions f) l (spawned f) (nodeworker_enabled f)
    (auto_attach_enabled f) (discover_targets_enabled f) (on_pause f) (waiting_for_session f) (v8 f).
Definition set_spawned f (l : list spawned_task) : front V :=
  mkFront (sessions f) (pending_worker_messages f) l (nodeworker_enabled f)
    (auto_attach_enabled f) (discover_targets_enabled f) (on_pause f) (waiting_for_session f) (v8 f).
Definition set_modes f (nodeworker auto_attach discover : bool) : front V :=
  mkFront (sessions f) (pending_worker_messages f) (spawned f) nodeworker auto_attach discover
    (on_pause f) (waiting_for_session f) (v8 f).
Definition set_flags f (on_pause waiting : bool) : front V :=
  mkFront (sessions f) (pending_worker_messages f) (spawned f) (nodeworker_enabled f)
    (auto_attach_enabled f) (discover_targets_enabled f) on_pause waiting (v8 f).
Definition set_v8 f (v : V) : front V :=
  mkFront (sessions f) (pending_worker_messages f) (spawned f) (nodeworker_enabled f)
    (auto_attach_enabled f) (discover_targets_enabled f) (on_pause f) (waiting_for_session f) v.

(** [state.send]: a debugger that is gone is ignored. *)
Definition send f (sid : nat) (msg : InspectorMsg) : front V :=
  set_sessions f (alter (λ s, mkSession (kind s) (pumping s) (sent s ++ [msg])) sid (sessions f)).

(** The callbacks of V8 while [sessions] is borrowed: [poll_sessions] of
    [run_message_loop_on_pause] returns an error, which is ignored. *)
Definition v8_callback f (c : v8_call) : front V :=
  match c with
  | SendResponse sid call_id content => send f sid (mkMsg (Message call_id) content)
  | SendNotification sid content => send f sid (mkMsg Notification content)
  | RunMessageLoopOnPause => set_flags f true (waiting_for_session f)
  | QuitMessageLoopOnPause => set_flags f false (waiting_for_session f)
  | RunIfWaitingForDebugger => set_flags f (on_pause f) false
  end.

Definition dispatch_message (sid : nat) f (msg : string) : front V :=
  let '(v, calls) := v8_dispatch sid msg (v8 f) in
  foldl v8_callback (set_v8 f v) calls.

Definition queue_worker_message f (session_id message : string) : front V :=
  set_pending f (pending_worker_messages f ++ [(session_id, message)]).

Definition notify_workers f (t : spawned_task) : front V := set_spawned f (spawned f ++ [t]).

(** The methods that the inspector handles itself. *)
Definition handle_method (sid : nat) f (method : string) (params : option json) : option (front V) :=
  if decide (method = "NodeWorker.enable") then
    Some (notify_workers
      (set_modes f true (auto_attach_enabled f) (discover_targets_enabled f))
      (NotifyAttachedToWorker sid))
  else if decide (method = "NodeWorker.sendMessageToWorker" ∨ method = "Target.sendMessageToTarget") then
    Some (queue_worker_message f (get_str_param params "sessionId") (get_str_param params "message"))
  else if decide (method = "Target.setDiscoverTargets") then
    let discover := get_bool_param params "discover" in
    let f := set_modes f (nodeworker_enabled f) (auto_attach_enabled f) discover in
    Some (if discover then notify_workers f (NotifyTargetCreated sid) else f)
  else if decide (method = "Target.setAutoAttach") then
    let auto_attach := get_bool_param params "autoAttach" in
    let f := set_modes f (nodeworker_enabled f) auto_attach (discover_targets_enabled f) in
    Some (if auto_attach then notify_workers f (AutoAttach sid) else f)
  else None.

(** The end of the loop of [pump_inspector_session_messages]. *)
Definition respond (sid : nat) f (msg_id : option json) : front V :=
  match msg_id with
  | Some id =>
      let call_id := to_i32 (default 0%Z (as_i64 id)) in
      send f sid (mkMsg (Message call_id) (to_string (JObj [("id", id); ("result", JObj [])])))
  | None => f
  end.

(** One turn of the loop of [pump_inspector_session_messages]. *)
Definition handle_message (sid : nat) f (msg : string) : front V :=
  match from_str msg with
  | None => dispatch_message sid f msg
  | Some parsed =>
      match v ← json_get parsed "sessionId"; as_str v with
      | Some session_id =>
          match parsed with
          | JObj o => queue_worker_message f session_id (to_string (JObj (obj_remove "sessionId" o)))
          | _ => f
          end
      | None =>
          match v ← json_get parsed "method"; as_str v with
          | None => dispatch_message sid f msg
          | Some method =>
              match handle_method sid f method (json_get parsed "params") with
              | None => dispatch_message sid f msg
              | Some f => respond sid f (json_get parsed "id")
              end
          end
      end
  end.

(** What is sent to the main session for a message of a worker. *)
Definition forward_worker_message f (ts : TargetSession) (msg : InspectorMsg) : option InspectorMsg :=
  if nodeworker_enabled f then
    Some (notification (event "NodeWorker.receivedMessageFromWorker"
      [("sessionId", JStr (session_id ts)); ("message", JStr (content msg));
       ("workerId", JStr (target_id ts))]))
  else
    match from_str (content msg) with
    | Some (JObj o) =>
        Some (mkMsg (msg_kind msg)
          (to_string (JObj (obj_insert "sessionId" (JStr (session_id ts)) o))))
    | Some _ => None
    | None => Some msg
    end.

(** The worker has terminated. *)
Definition worker_gone f (ts : TargetSession) : option InspectorMsg :=
  if nodeworker_enabled f then
    Some (notification (event "NodeWorker.detachedFromWorker" [("sessionId", JStr (session_id ts))]))
  else if auto_attach_enabled f || discover_targets_enabled f then
    Some (notification (event "Target.targetDestroyed" [("targetId", JStr (target_id ts))]))
  else None.

Definition send_opt f (sid : nat) (m : option InspectorMsg) : front V :=
  match m with Some m => send f sid m | None => f end.
End front.

(** * The inspector *)

Inductive PollState := Idle | Woken | Polling | Parked | Dropped.
Global Instance PollState_eq_dec : EqDecision PollState.
Proof. solve_decision. Defined.

(** [InspectorWakerInner], and whom it reached: the task of the event loop, an interrupt of
    V8, the token of the parked thread. *)
Record InspectorWaker := mkWaker {
  poll_state : PollState;
  task_waker : bool;
  parked_thread : bool;
  inspector_state_ptr : bool;
  task_woken : bool;
  interrupt : bool;
  unparked : bool
}.

(** [SessionContainer].  [ready] and [waker_set] belong to the [FuturesUnordered] of
    established sessions. *)
Record SessionContainer := mkContainer {
  v8_inspector : bool;
  session_rx : chan InspectorSessionProxy;
  handshake : option nat;
  established : list nat;
  ready : list nat;
  waker_set : bool;
  next_local_id : Z;
  local : gmap Z nat;
  target_sessions : gmap string TargetSession;
  main_session_id : option Z;
  next_worker_id : Z
}.

(** Where [poll_sessions] stands: [Greet] polls the future of a new session for the first
    time, [Pump] polls an established one, [Workers] carries the channels that are left to
    poll, whether one had a message, and who has terminated. *)
Inductive poll_pc :=
  | Outside
  | Handshake
  | Greet (sid : nat)
  | Accept
  | Workers (sid : nat) (todo : list string) (has_message : bool) (terminated : list string)
  | Established
  | Pump (sid : nat)
  | Drain
  | Decide (should_block : bool)
  | Park.
Global Instance poll_pc_eq_dec : EqDecision poll_pc.
Proof. solve_decision. Defined.

(** [receivers] of sessions and of workers by number; [to_worker] is what workers were
    sent; [invoker] is the waker of the task that called [poll_sessions]. *)
Record world (V : Type) := mkWorld {
  waker : InspectorWaker;
  container : SessionContainer;
  state : front V;
  receivers : gmap nat (chan string);
  worker_receivers : gmap nat (chan InspectorMsg);
  to_worker : gmap nat (list string);
  pc : poll_pc;
  invoker : bool
}.
Arguments mkWorld {V} _ _ _ _ _ _ _ _.
Arguments waker {V} _.
Arguments container {V} _.
Arguments state {V} _.
Arguments receivers {V} _.
Arguments worker_receivers {V} _.
Arguments to_worker {V} _.
Arguments pc {V} _.
Arguments invoker {V} _.

(** ** The waker *)

Definition set_poll_state (w : InspectorWaker) (s : PollState) : InspectorWaker :=
  mkWaker s (task_waker w) (parked_thread w) (inspector_state_ptr w) (task_woken w)
    (interrupt w) (unparked w).

(** [wake_by_ref]. *)
Definition wake (w : InspectorWaker) : outcome InspectorWaker :=
  w ← match poll_state w with
      | Idle =>
          Ret (mkWaker Idle false (parked_thread w) false (task_woken w || task_waker w)
                 (interrupt w || inspector_state_ptr w) (unparked w))
      | Parked =>
          if parked_thread w then
            Ret (mkWaker Parked (task_waker w) false (inspector_state_ptr w) (task_woken w)
                   (interrupt w) true)
          else Panic Unwrap
      | _ => Ret w
      end;
  Ret (set_poll_state w Woken).

(** ** The container *)

(** An id, an [i32] or a [u32], that is incremented; release builds wrap around instead. *)
Definition incremented (bits id : Z) : outcome unit :=
  if decide (id + 1 < 2 ^ bits)%Z then Ret tt else Panic Overflow.

Section container.
Implicit Types (c : SessionContainer) (sid : nat).

Definition set_session_rx c rx : SessionContainer :=
  mkContainer (v8_inspector c) rx (handshake c) (established c) (ready c) (waker_set c)
    (next_local_id c) (local c) (target_sessions c) (main_session_id c) (next_worker_id c).
Definition set_handshake c h : SessionContainer :=
  mkContainer (v8_inspector c) (session_rx c) h (established c) (ready c) (waker_set c)
    (next_local_id c) (local c) (target_sessions c) (main_session_id c) (next_worker_id c).
Definition set_established c e r (b : bool) : SessionContainer :=
  mkContainer (v8_inspector c) (session_rx c) (handshake c) e r b
    (next_local_id c) (local c) (target_sessions c) (main_session_id c) (next_worker_id c).
Definition set_local c n l m : SessionContainer :=
  mkContainer (v8_inspector c) (session_rx c) (handshake c) (established c) (ready c) (waker_set c)
    n l (target_sessions c) m (next_worker_id c).
Definition set_targets c n t k : SessionContainer :=
  mkContainer (v8_inspector c) (session_rx c) (handshake c) (established c) (ready c) (waker_set c)
    n (local c) t (main_session_id c) k.

(** [SessionContainer::new], with the inspector of V8 or not. *)
Definition container_new (v8 : bool) : SessionContainer :=
  mkContainer v8 empty_chan None [] [] false 1 ∅ ∅ None 1.

Definition drop_sessions c : SessionContainer :=
  mkContainer false (session_rx c) None [] [] (waker_set c) (next_local_id c) ∅
    (target_sessions c) (main_session_id c) (next_worker_id c).

Record SessionsState := mkSessionsState {
  has_active : bool;
  has_blocking : bool;
  has_nonblocking : bool;
  has_nonblocking_wait_for_disconnect : bool
}.

(** [any] over the sessions in [local]. *)
Definition any_local c (ss : gmap nat InspectorSession) (P : InspectorSessionKind → bool) : bool :=
  existsb (λ x, match ss !! x.2 with Some s => P (kind s) | None => false end)
    (map_to_list (local c)).

Definition sessions_state c (ss : gmap nat InspectorSession) : SessionsState :=
  mkSessionsState
    (negb (bool_decide (established c = [])) || bool_decide (is_Some (handshake c))
       || negb (bool_decide (local c = ∅)))
    (any_local c ss (λ k, match k with Blocking => true | _ => false end))
    (any_local c ss (λ k, match k with NonBlocking _ => true | _ => false end))
    (any_local c ss (λ k, match k with NonBlocking true => true | _ => false end)).

Definition register_worker_session c (lid : Z) (worker_url : string) : Z * SessionContainer :=
  let worker_id := next_worker_id c in
  let id : string := pretty lid in
  let ts := mkTarget id id lid worker_id None worker_url false in
  (worker_id, set_targets c (next_local_id c) (<[id := ts]> (target_sessions c)) (worker_id + 1)).

(** A worker has one target session, since local ids are not used twice. *)
Definition register_worker_channels c (lid : Z) (rx : nat) : bool * SessionContainer :=
  match head (filter (λ x, local_session_id x.2 = lid) (map_to_list (target_sessions c))) with
  | Some (key, ts) =>
      (true, set_targets c (next_local_id c)
         (<[key := set_channels ts (Some rx)]> (target_sessions c)) (next_worker_id c))
  | None => (false, c)
  end.
End container.

(** * [poll_sessions] *)

Section poll.
Context {V : Type} (v8_dispatch : nat → string → V → V * list v8_call)
  (from_str : string → option json) (to_string : json → string)
  (order : gmap string TargetSession → list string).  (** of [HashMap::values] *)
Implicit Types (w : world V).

Definition set_waker w (x : InspectorWaker) : world V :=
  mkWorld x (container w) (state w) (receivers w) (worker_receivers w) (to_worker w) (pc w) (invoker w).
Definition set_container w (c : SessionContainer) : world V :=
  mkWorld (waker w) c (state w) (receivers w) (worker_receivers w) (to_worker w) (pc w) (invoker w).
Definition set_state w (f : front V) : world V :=
  mkWorld (waker w) (container w) f (receivers w) (worker_receivers w) (to_worker w) (pc w) (invoker w).
Definition set_receiver w (i : nat) (c : chan string) : world V :=
  mkWorld (waker w) (container w) (state w) (<[i := c]> (receivers w)) (worker_receivers w) (to_worker w) (pc w) (invoker w).
Definition set_worker_receiver w (i : nat) (c : chan InspectorMsg) : world V :=
  mkWorld (waker w) (container w) (state w) (receivers w) (<[i := c]> (worker_receivers w)) (to_worker w) (pc w) (invoker w).
Definition set_to_worker w (m : gmap nat (list string)) : world V :=
  mkWorld (waker w) (container w) (state w) (receivers w) (worker_receivers w) m (pc w) (invoker w).
Definition set_pc w (x : poll_pc) : world V :=
  mkWorld (waker w) (container w) (state w) (receivers w) (worker_receivers w) (to_worker w) x (invoker w).
Definition set_invoker w (b : bool) : world V :=
  mkWorld (waker w) (container w) (state w) (receivers w) (worker_receivers w) (to_worker w) (pc w) b.

(** The call: [Err] when [sessions] is borrowed. *)
Definition poll_sessions w (cx : bool) : outcome (result unit unit * world V) :=
  match pc w with
  | Outside =>
      match poll_state (waker w) with
      | Idle | Woken =>
          Ret (Ok tt, set_invoker (set_pc (set_waker w (set_poll_state (waker w) Polling)) Handshake) cx)
      | _ => Panic Unreachable
      end
  | _ => Ret (Err tt, w)
  end.

(** One poll of the receiver of a session, and the message that it gives.  [None] in the
    middle: nothing yet. *)
Definition pump_turn w (sid : nat) (me : waker_of) : outcome (poll bool * world V) :=
  c ← unwrap (receivers w !! sid);
  let '(r, c) := chan_poll me c in
  let w := set_receiver w sid c in
  match r with
  | Ready (Some msg) =>
      Ret (Ready true, set_state w (handle_message v8_dispatch from_str to_string sid (state w) msg))
  | Ready None => Ret (Ready false, w)
  | Pending => Ret (Pending, w)
  end.

(** The start of [pump_inspector_session_messages]. *)
Definition pump_start w (sid : nat) : outcome (world V) :=
  match sessions (state w) !! sid with
  | Some s =>
      if pumping s || negb (bool_decide (is_Some (receivers w !! sid))) then Panic Unwrap
      else Ret (set_state w (set_sessions (state w)
             (<[sid := mkSession (kind s) true (sent s)]> (sessions (state w)))))
  | None => Panic Unwrap
  end.

(** The end of a handshake. *)
Definition insert_local (c : SessionContainer) (sid : nat) : SessionContainer :=
  let id := next_local_id c in
  set_local c (id + 1) (<[id := sid]> (local c))
    (match main_session_id c with None => Some id | m => m end).

Definition greet w (sid : nat) : outcome (world V) :=
  '(r, w) ← pump_turn w sid WInspector;
  let c := container w in
  match r with
  | Ready true => Ret w
  | Ready false =>
      _ ← incremented 31 (next_local_id c);
      Ret (set_pc (set_container w (insert_local c sid)) Handshake)
  | Pending =>
      _ ← incremented 31 (next_local_id c);
      let c := set_established c (established c ++ [sid]) (ready c ++ [sid]) (waker_set c) in
      Ret (set_pc (set_container w (insert_local c sid)) Handshake)
  end.

(** The main session, when it is known. *)
Definition main_session (c : SessionContainer) : option nat := id ← main_session_id c; local c !! id.

(** A worker connects. *)
Definition accept_worker w (rx : nat) (worker_url : string) : world V :=
  let c := container w in
  let worker_id := next_local_id c in
  let c := set_local c (worker_id + 1) (local c) (main_session_id c) in
  let '(_, c) := register_worker_session c worker_id worker_url in
  let '(_, c) := register_worker_channels c worker_id rx in
  let w := set_container w c in
  match main_session c, target_sessions c !! (pretty worker_id : string) with
  | Some main, Some ts =>
      let w := if discover_targets_enabled (state w)
               then set_state w (send (state w) main (notification to_string (target_created ts)))
               else w in
      if auto_attach_enabled (state w) then
        let c := set_targets c (next_local_id c)
                   (<[(pretty worker_id : string) := set_attached ts true]> (target_sessions c)) (next_worker_id c) in
        set_state (set_container w c)
          (send (state w) main (notification to_string (attached_to_target ts)))
      else w
  | _, _ => w
  end.

(** A debugger connects: [InspectorSession::new]. *)
Definition accept_session w (rx : nat) (k : InspectorSessionKind) : outcome (world V) :=
  let c := container w in
  if negb (v8_inspector c) then Panic Unwrap else
  match handshake c with
  | Some _ => Panic Assert
  | None =>
      let f := state w in
      Ret (set_state (set_container w (set_handshake c (Some rx)))
             (set_sessions f (<[rx := mkSession k false []]> (sessions f))))
  end.

Definition accept w : outcome (world V) :=
  let c := container w in
  let '(r, rx) := chan_poll WInspector (session_rx c) in
  let w := set_container w (set_session_rx c rx) in
  match r with
  | Ready (Some (PWorker rx url)) =>
      _ ← incremented 31 (next_local_id c);
      _ ← incremented 32 (next_worker_id c);
      Ret (set_pc (accept_worker w rx url) Handshake)
  | Ready (Some (PRegular rx k)) => w ← accept_session w rx k; Ret (set_pc w Handshake)
  | _ =>
      match main_session c with
      | Some main => Ret (set_pc w (Workers main (order (target_sessions c)) false []))
      | None => Ret (set_pc w Established)
      end
  end.

(** One worker of the loop over [target_sessions]. *)
Definition poll_worker w (main : nat) (key : string) (todo : list string) (has : bool)
    (gone : list string) : outcome (world V) :=
  match target_sessions (container w) !! key with
  | None => Ret (set_pc w (Workers main todo has gone))
  | Some ts =>
      match channels ts with
      | None => Ret (set_pc w (Workers main todo has gone))
      | Some i =>
          ch ← unwrap (worker_receivers w !! i);
          let '(r, ch) := chan_poll WInspector ch in
          let w := set_worker_receiver w i ch in
          let f := state w in
          match r with
          | Ready (Some msg) =>
              let f := send_opt f main (forward_worker_message from_str to_string f ts msg) in
              Ret (set_pc (set_state w f) (Workers main todo true gone))
          | Ready None =>
              let f := send_opt f main (worker_gone to_string f ts) in
              Ret (set_pc (set_state w f) (Workers main todo has (gone ++ [session_id ts])))
          | Pending => Ret (set_pc w (Workers main todo has gone))
          end
      end
  end.

Definition remove_targets (gone : list string) (t : gmap string TargetSession) : gmap string TargetSession :=
  foldl (λ t key, delete key t) t gone.

Definition after_workers w (has : bool) (gone : list string) : world V :=
  let c := container w in
  let w := set_container w (set_targets c (next_local_id c)
             (remove_targets gone (target_sessions c)) (next_worker_id c)) in
  set_pc w (if has || negb (bool_decide (gone = [])) then Handshake else Established).

(** [poll_next_unpin] of the established sessions, up to the next future that was woken. *)
Definition poll_established w : world V :=
  let c := container w in
  if bool_decide (established c = []) then set_pc w Drain
  else match ready c with
       | [] => set_pc (set_container w (set_established c (established c) [] true)) Drain
       | sid :: r => set_pc (set_container w (set_established c (established c) r true)) (Pump sid)
       end.

Definition pump w (sid : nat) : outcome (world V) :=
  '(r, w) ← pump_turn w sid (WPump sid);
  let c := container w in
  match r with
  | Ready true => Ret w
  | Ready false =>
      Ret (set_pc (set_container w
             (set_established c (filter (λ x, x ≠ sid) (established c))
                (filter (λ x, x ≠ sid) (ready c)) (waker_set c))) Handshake)
  | Pending => Ret (set_pc w Established)
  end.

(** [send_to_worker]; a worker that is gone is ignored. *)
Definition send_to_worker (ts : TargetSession) (message : string) (m : gmap nat (list string)) :
    gmap nat (list string) :=
  match channels ts with
  | Some i => alter (λ l, l ++ [message]) i m
  | None => m
  end.

Definition deliver (t : gmap string TargetSession) (m : gmap nat (list string)) (x : string * string) :=
  match t !! x.1 with Some ts => send_to_worker ts x.2 m | None => m end.

Definition drain w : world V :=
  let f := state w in
  let should_block := on_pause f || waiting_for_session f in
  let m := foldl (deliver (target_sessions (container w))) (to_worker w) (pending_worker_messages f) in
  set_pc (set_state (set_to_worker w m) (set_pending f [])) (Decide should_block).

Definition decide_state w (should_block : bool) : outcome (world V) :=
  let k := waker w in
  match poll_state k with
  | Woken => Ret (set_pc (set_waker w (set_poll_state k Polling)) Handshake)
  | Polling =>
      if should_block then
        Ret (set_pc (set_waker w (mkWaker Parked (task_waker k) true (inspector_state_ptr k)
               (task_woken k) (interrupt k) (unparked k))) Park)
      else
        Ret (set_invoker (set_pc (set_waker w (mkWaker Idle (task_waker k || invoker w) (parked_thread k) true
               (task_woken k) (interrupt k) (unparked k))) Outside) false)
  | _ => Panic Unreachable
  end.

(** One step of [poll_sessions]; [thread::park] returns when there is a token. *)
Definition poll_step w : outcome (world V) :=
  match pc w with
  | Outside => Ret w
  | Handshake =>
      let c := container w in
      match handshake c with
      | Some sid => pump_start (set_pc (set_container w (set_handshake c None)) (Greet sid)) sid
      | None => Ret (set_pc w Accept)
      end
  | Greet sid => greet w sid
  | Accept => accept w
  | Workers main (key :: todo) has gone => poll_worker w main key todo has gone
  | Workers main [] has gone => Ret (after_workers w has gone)
  | Established => Ret (poll_established w)
  | Pump sid => pump w sid
  | Drain => Ret (drain w)
  | Decide b => decide_state w b
  | Park =>
      if unparked (waker w) then
        let k := waker w in
        Ret (set_pc (set_waker w (mkWaker (poll_state k) (task_waker k) (parked_thread k)
               (inspector_state_ptr k) (task_woken k) (interrupt k) false)) Handshake)
      else Ret w
  end.

(** ** What others do, between any two steps *)

(** A wake-up that a channel kept. *)
Definition notify w (k : option waker_of) : outcome (world V) :=
  match k with
  | None => Ret w
  | Some WInspector => x ← wake (waker w); Ret (set_waker w x)
  | Some (WPump sid) =>
      let c := container w in
      if bool_decide (sid ∈ established c) then
        let r := if bool_decide (sid ∈ ready c) then ready c else ready c ++ [sid] in
        let w' := set_container w (set_established c (established c) r false) in
        if waker_set c then x ← wake (waker w); Ret (set_waker w' x) else Ret w'
      else Ret w
  end.

(** A debugger or a worker connects, with a new channel; it sends, or goes away. *)
Definition connect w (p : InspectorSessionProxy) : outcome (world V) :=
  let c := container w in
  let '(k, rx) := chan_send p (session_rx c) in
  let w := set_container w (set_session_rx c rx) in
  notify
    (match p with
     | PRegular i _ => set_receiver w i empty_chan
     | PWorker i _ => set_to_worker (set_worker_receiver w i empty_chan) (<[i := []]> (to_worker w))
     end) k.

Definition frontend_sends w (i : nat) (msg : string) : outcome (world V) :=
  match receivers w !! i with
  | Some ch => if open ch then let '(k, ch) := chan_send msg ch in notify (set_receiver w i ch) k else Ret w
  | None => Ret w
  end.
Definition frontend_leaves w (i : nat) : outcome (world V) :=
  match receivers w !! i with
  | Some ch => let '(k, ch) := chan_close ch in notify (set_receiver w i ch) k
  | None => Ret w
  end.
Definition worker_sends w (i : nat) (msg : InspectorMsg) : outcome (world V) :=
  match worker_receivers w !! i with
  | Some ch => if open ch then let '(k, ch) := chan_send msg ch in notify (set_worker_receiver w i ch) k else Ret w
  | None => Ret w
  end.
Definition worker_ends w (i : nat) : outcome (world V) :=
  match worker_receivers w !! i with
  | Some ch => let '(k, ch) := chan_close ch in notify (set_worker_receiver w i ch) k
  | None => Ret w
  end.

(** [thread::park] returns although nobody unparked the thread. *)
Definition spurious_return w : world V := match pc w with Park => set_pc w Handshake | _ => w end.

(** ** Entry points *)

Definition ignore {A} (r : outcome (A * world V)) : outcome (world V) := '(_, w) ← r; Ret w.

(** [poll_sessions_from_event_loop], when the event loop is polled. *)
Definition poll_sessions_from_event_loop w : outcome (world V) :=
  let k := waker w in
  let w := set_waker w (mkWaker (poll_state k) (task_waker k) (parked_thread k)
             (inspector_state_ptr k) false (interrupt k) (unparked k)) in
  '(r, w) ← poll_sessions w true;
  match r with Ok _ => Ret w | Err _ => Panic Unwrap end.

(** [handle_interrupt]. *)
Definition handle_interrupt w : outcome (world V) :=
  let k := waker w in
  let w := set_waker w (mkWaker (poll_state k) (task_waker k) (parked_thread k)
             (inspector_state_ptr k) (task_woken k) false (unparked k)) in
  ignore (poll_sessions w false).

(** [run_message_loop_on_pause], when JavaScript reaches a breakpoint. *)
Definition run_message_loop_on_pause w : outcome (world V) :=
  ignore (poll_sessions (set_state w (set_flags (state w) true (waiting_for_session (state w)))) false).

(** One turn of [wait_for_session]; [true] ends its loop. *)
Definition wait_for_session w : outcome (bool * world V) :=
  let f := state w in
  if bool_decide (local (container w) = ∅) then
    '(r, w) ← poll_sessions (set_state w (set_flags f (on_pause f) true)) false;
    match r with Ok _ => Ret (false, w) | Err _ => Panic Unwrap end
  else Ret (true, set_state w (set_flags f (on_pause f) false)).

(** [create_local_session] with a new session [sid]; the id of the session. *)
Definition create_local_session w (sid : nat) (k : InspectorSessionKind) : outcome (Z * world V) :=
  let c := container w in
  let f := state w in
  let id := next_local_id c in
  _ ← incremented 31 id;
  if bool_decide (is_Some (local c !! id)) then Panic Assert
  else
    let f := set_sessions f (<[sid := mkSession k false []]> (sessions f)) in
    Ret (id, set_state (set_container w (set_local c (id + 1) (<[id := sid]> (local c)) (main_session_id c)))
               (set_flags f (on_pause f) false)).

(** [LocalInspectorSession::dispatch]: [dispatch_message_from_frontend]. *)
Definition dispatch_from_frontend w (id : Z) (msg : string) : outcome (world V) :=
  sid ← unwrap (local (container w) !! id);
  Ret (set_state w (dispatch_message v8_dispatch sid (state w) msg)).

(** The tasks that [notify_workers] and [Target.setAutoAttach] spawned. *)
Definition run_target (t : spawned_task) w (key : string) : world V :=
  let c := container w in
  match target_sessions c !! key with
  | None => w
  | Some ts =>
      match t with
      | NotifyAttachedToWorker sid =>
          set_state w (send (state w) sid (notification to_string (attached_to_worker ts)))
      | NotifyTargetCreated sid =>
          set_state w (send (state w) sid (notification to_string (target_created ts)))
      | AutoAttach sid =>
          if attached ts then w
          else set_state
            (set_container w (set_targets c (next_local_id c)
               (<[key := set_attached ts true]> (target_sessions c)) (next_worker_id c)))
            (send (state w) sid (notification to_string (attached_to_target ts)))
      end
  end.

Definition run_spawned w : outcome (world V) :=
  let f := state w in
  match spawned f with
  | [] => Ret w
  | t :: l =>
      match pc w with
      | Outside =>
          Ret (foldl (run_target t) (set_state w (set_spawned f l)) (order (target_sessions (container w))))
      | _ => Panic BorrowConflict
      end
  end.

(** [JsRuntimeInspector::new]: the first poll has begun. *)
Definition inspector_new (v : V) : outcome (world V) :=
  let f := mkFront ∅ [] [] false false false false false v in
  let k := mkWaker Idle false false false true false false in
  '(r, w) ← poll_sessions (mkWorld k (container_new true) f ∅ ∅ ∅ Outside false) false;
  match r with Ok _ => Ret w | Err _ => Panic Unwrap end.

(** ** Everything together *)

Inductive action :=
  | AStep
  | AEventLoop
  | AInterrupt
  | APause
  | AWait
  | ALocal (sid : nat) (k : InspectorSessionKind)
  | ADispatch (id : Z) (msg : string)
  | ASpawned
  | AConnect (p : InspectorSessionProxy)
  | ASend (i : nat) (msg : string)
  | ALeave (i : nat)
  | AWorkerSend (i : nat) (msg : InspectorMsg)
  | AWorkerEnd (i : nat)
  | ASpurious.

Definition exec (a : action) w : outcome (world V) :=
  match a with
  | AStep => poll_step w
  | AEventLoop => poll_sessions_from_event_loop w
  | AInterrupt => handle_interrupt w
  | APause => run_message_loop_on_pause w
  | AWait => '(_, w) ← wait_for_session w; Ret w
  | ALocal sid k => '(_, w) ← create_local_session w sid k; Ret w
  | ADispatch id msg => dispatch_from_frontend w id msg
  | ASpawned => run_spawned w
  | AConnect p => connect w p
  | ASend i msg => frontend_sends w i msg
  | ALeave i => frontend_leaves w i
  | AWorkerSend i msg => worker_sends w i msg
  | AWorkerEnd i => worker_ends w i
  | ASpurious => Ret (spurious_return w)
  end.

(** The local ids that are taken, and those that will be for who has connected. *)
Definition ids_used w : Z :=
  let c := container w in
  next_local_id c + Z.of_nat (length (queue (session_rx c))) +
  match handshake c with Some _ => 1 | None => 0 end + match pc w with Greet _ => 1 | _ => 0 end.

(** The thread of the runtime is in one place at a time; V8 honours an interrupt that was
    requested, wherever it runs JavaScript; sessions and channels are new, and a local
    session is used under its id; fewer than 2^31 sessions and workers connect.  And
    [thread::park] returns only when the thread was unparked, although the standard library
    lets it return at any time: see [inspector_gaps] of [InspectorRuns]. *)
Definition legal w (a : action) : Prop :=
  match a with
  | AStep => pc w ≠ Outside
  | AEventLoop | APause | AWait | ASpawned => pc w = Outside
  | ALocal sid _ =>
      pc w = Outside ∧ (sessions (state w) !! sid = None ∧ receivers w !! sid = None) ∧ (ids_used w + 1 < 2 ^ 31)%Z
  | ADispatch id _ => pc w = Outside ∧ is_Some (local (container w) !! id)
  | AInterrupt => interrupt (waker w) = true
  | AConnect p =>
      match p with
      | PRegular i _ => receivers w !! i = None ∧ sessions (state w) !! i = None
      | PWorker i _ => worker_receivers w !! i = None
      end ∧ (ids_used w + 1 < 2 ^ 31)%Z
  | ASpurious => False
  | _ => True
  end.

Inductive reachable : world V → Prop :=
  | r_new v w : inspector_new v = Ret w → reachable w
  | r_step w a w' : reachable w → legal w a → exec a w = Ret w' → reachable w'.
End poll.

(** * The invariant *)

Section invariant.
Context {V : Type} (v8_dispatch : nat → string → V → V * list v8_call)
  (from_str : string → option json) (to_string : json → string)
  (order : gmap string TargetSession → list string)
  (order_spec : ∀ t key, is_Some (t !! key) → key ∈ order t).
Implicit Types (w : world V) (c : SessionContainer).

(** A receiver with nothing to give, whose next message wakes [me]. *)
Definition quiet {A} (me : waker_of) (ch : chan A) : Prop :=
  queue ch = [] ∧ open ch = true ∧ rx_waker ch = Some me.

Definition rx_quiet w : Prop := quiet WInspector (session_rx (container w)).
Definition target_quiet w (key : string) : Prop :=
  ∀ ts i ch, target_sessions (container w) !! key = Some ts → channels ts = Some i →
    worker_receivers w !! i = Some ch → quiet WInspector ch.
Definition targets_quiet w : Prop :=
  main_session (container w) = None ∨ ∀ key, target_quiet w key.

(** A session whose future will be polled when there is something for it. *)
Definition attended w (sid : nat) : Prop :=
  sid ∈ ready (container w) ∨ ∃ ch, receivers w !! sid = Some ch ∧ quiet (WPump sid) ch.
Definition all_attended w : Prop :=
  ∀ sid, sid ∈ established (container w) → pc w ≠ Pump sid → attended w sid.

Definition futures_watched w : Prop := waker_set (container w) = true ∨ established (container w) = [].

(** Nothing to do, and everything that may come wakes the inspector. *)
Definition calm w : Prop :=
  rx_quiet w ∧ targets_quiet w ∧ ready (container w) = [] ∧ futures_watched w.

(** What the polls of this turn found. *)
Definition progress w : Prop :=
  match pc w with
  | Handshake | Greet _ | Accept => True
  | Workers _ todo has gone =>
      rx_quiet w ∧ (has = true ∨ gone ≠ [] ∨ ∀ key, key ∉ todo → target_quiet w key)
  | Established => rx_quiet w ∧ targets_quiet w
  | Pump _ => rx_quiet w ∧ targets_quiet w ∧ waker_set (container w) = true
  | Drain | Decide _ | Park | Outside => calm w
  end.

Definition waker_ok w : Prop :=
  let k := waker w in
  match pc w with
  | Outside => (poll_state k = Idle ∧ (task_waker k || task_woken k) = true) ∨
               (poll_state k = Woken ∧ task_woken k = true)
  | Park => (poll_state k = Parked ∧ parked_thread k = true ∧ unparked k = false) ∨
            (poll_state k = Woken ∧ unparked k = true)
  | _ => poll_state k = Polling ∨ poll_state k = Woken
  end ∧ (pc w ≠ Outside → (invoker w || task_waker k || task_woken k) = true) ∧
  (pc w ≠ Park → unparked k = false).

(** No dangling numbers. *)
Record well_formed w : Prop := {
  wf_v8 : v8_inspector (container w) = true;
  wf_open : open (session_rx (container w)) = true;
  wf_rx : Forall (λ p, match p with
                       | PRegular i _ => is_Some (receivers w !! i)
                       | PWorker i _ => is_Some (worker_receivers w !! i)
                       end) (queue (session_rx (container w)));
  wf_handshake sid : handshake (container w) = Some sid →
    is_Some (receivers w !! sid) ∧ ∃ s, sessions (state w) !! sid = Some s ∧ pumping s = false;
  wf_established sid : sid ∈ established (container w) → is_Some (receivers w !! sid);
  wf_ready sid : sid ∈ ready (container w) → sid ∈ established (container w);
  wf_targets key ts : target_sessions (container w) !! key = Some ts →
    session_id ts = key ∧ ∀ i, channels ts = Some i → is_Some (worker_receivers w !! i);
  wf_local id sid : local (container w) !! id = Some sid → (id < next_local_id (container w))%Z;
  wf_main id : main_session_id (container w) = Some id → is_Some (local (container w) !! id);
  wf_pc : match pc w with
          | Greet sid => is_Some (receivers w !! sid)
          | Pump sid => sid ∈ established (container w)
          | Workers main _ _ _ => main_session (container w) = Some main
          | _ => True
          end
}.

Record invariant w : Prop := {
  inv_wf : well_formed w;
  inv_attended : all_attended w;
  inv_handshake : match pc w with Handshake => True | _ => handshake (container w) = None end;
  inv_waker : waker_ok w;
  inv_progress : poll_state (waker w) = Woken ∨ progress w;
  inv_pending : match pc w with
                | Decide _ | Park | Outside => pending_worker_messages (state w) = []
                | _ => True
                end
}.

(** ** Wake-ups *)

Lemma wake_ok w :
  waker_ok w → ∃ k, wake (waker w) = Ret k ∧ poll_state k = Woken ∧ waker_ok (set_waker w k).
Proof.
  unfold waker_ok, wake. destruct w as [k c f r wr tw pc i]. simpl.
  destruct k as [st tw' pt ptr wo it un]. simpl. intros (Hst & Htask & Hun).
  destruct st; simpl.
  - destruct pc; try (exfalso; intuition discriminate).
    eexists. split; [done|]. simpl. split; [done|].
    destruct Hst as [[_ Hw]|[? _]]; [|done]. split; [|done]. right. split; [done|].
    by rewrite orb_comm.
  - eexists. split; [done|]. simpl. split; [done|]. destruct pc; (split; [done || by right|done]).
  - eexists. split; [done|]. simpl. split; [done|].
    destruct pc; try (exfalso; intuition discriminate); (split; [done || by right|done]).
  - destruct pc; try (exfalso; intuition discriminate). destruct Hst as [(_ & -> & _)|[? _]]; [|done].
    eexists. split; [done|]. simpl. split; [done|]. split; [by right|done].
  - destruct pc; exfalso; intuition discriminate.
Qed.

Lemma attended_mono w w' sid :
  receivers w' = receivers w → (sid ∈ ready (container w) → sid ∈ ready (container w')) →
  attended w sid → attended w' sid.
Proof. unfold attended. intros -> Hr [?|?]; auto. Qed.

(** The invariant of [w], where the channel whose wake-up [k] is not watched any more. *)
Definition unnotified w (k : option waker_of) : Prop :=
  well_formed w ∧ waker_ok w ∧
  match pc w with Handshake => True | _ => handshake (container w) = None end ∧
  match pc w with Decide _ | Park | Outside => pending_worker_messages (state w) = [] | _ => True end ∧
  (∀ sid, sid ∈ established (container w) → pc w ≠ Pump sid → attended w sid ∨ k = Some (WPump sid)) ∧
  (poll_state (waker w) = Woken ∨ progress w ∨ k = Some WInspector).

Lemma progress_watched w sid :
  progress w → sid ∈ established (container w) → waker_set (container w) = false →
  match pc w with Handshake | Greet _ | Accept | Workers _ _ _ _ | Established => True | _ => False end.
Proof.
  unfold progress, calm, futures_watched. intros Hp Hsid Hw.
  assert (established (container w) ≠ []) by (intros He; rewrite He in Hsid; by apply elem_of_nil in Hsid).
  destruct (pc w); naive_solver congruence.
Qed.

Lemma notify_ok w k : unnotified w k → ∃ w', notify w k = Ret w' ∧ invariant w'.
Proof.
  intros (Hwf & Hwk & Hhs & Hpe & Hat & Hpr). unfold notify. destruct k as [[|sid]|].
  - destruct (wake_ok w Hwk) as (k & -> & Hst & Hwk'). simpl. eexists. split; [done|].
    split; try done; [by destruct Hwf; split| |by left].
    intros sid Hs Hne. destruct (Hat sid Hs Hne); done.
  - case_bool_decide as Hsid.
    + set (r := if bool_decide _ then _ else _).
      assert (sid ∈ r ∧ (∀ s, s ∈ ready (container w) → s ∈ r) ∧ (∀ s, s ∈ r → s = sid ∨ s ∈ ready (container w)))
        as (Hr1 & Hr2 & Hr3).
      { unfold r. case_bool_decide; set_solver. }
      assert (∀ k', well_formed (set_waker (set_container w (set_established (container w)
        (established (container w)) r false)) k')) as Hwf'.
      { intros k'. destruct Hwf. split; simpl; try done. intros s [->|?]%Hr3; [done|auto]. }
      assert (∀ k', all_attended (set_waker (set_container w (set_established (container w)
        (established (container w)) r false)) k')) as Hat'.
      { intros k' s Hs Hne. destruct (Hat s Hs Hne) as [Ha|[= <-]]; [|by left].
        eapply (attended_mono w); [done|apply Hr2|done]. }
      destruct (waker_set (container w)) eqn:Hset.
      * destruct (wake_ok w Hwk) as (k & -> & Hst & Hwk'). simpl. eexists. split; [done|].
        split; try done; first [apply Hwf' | apply Hat' | by left].
      * eexists. split; [done|]. split; try done; try first [apply (Hwf' (waker w)) | apply (Hat' (waker w))].
        destruct Hpr as [?|[Hp|?]]; [by left|right|done].
        pose proof (progress_watched w sid Hp Hsid Hset) as Hpc.
        revert Hp Hpc. unfold progress. simpl. by destruct (pc w).
    + eexists. split; [done|]. split; try done.
      * intros s Hs Hne. destruct (Hat s Hs Hne) as [?|[= ->]]; done.
      * destruct Hpr as [?|[?|?]]; [by left|by right|done].
  - eexists. split; [done|]. split; try done.
    + intros s Hs Hne. destruct (Hat s Hs Hne); done.
    + destruct Hpr as [?|[?|?]]; [by left|by right|done].
Qed.

(** ** Arrivals *)

Lemma progress_mono w w' :
  pc w' = pc w → (rx_quiet w → rx_quiet w') → (∀ key, target_quiet w key → target_quiet w' key) →
  main_session (container w') = main_session (container w) →
  ready (container w') = ready (container w) → waker_set (container w') = waker_set (container w) →
  established (container w') = established (container w) → progress w → progress w'.
Proof.
  intros Hpc Hrx Ht Hm Hr Hs He. unfold progress, calm, targets_quiet, futures_watched.
  rewrite Hpc, Hm, Hr, Hs, He. destruct (pc w); naive_solver.
Qed.

Lemma receiver_changed w i ch ch' :
  invariant w → receivers w !! i = Some ch → unnotified (set_receiver w i ch') (rx_waker ch).
Proof.
  intros [Hwf Hat Hhs Hwk Hpr Hpe] Hch.
  assert (∀ j, is_Some (receivers w !! j) → is_Some (<[i := ch']> (receivers w) !! j)) as Hdom.
  { intros j ?. destruct (decide (i = j)) as [->|]; [rewrite lookup_insert_eq; by eexists|by rewrite lookup_insert_ne]. }
  split_and!; try done.
  - destruct Hwf. split; simpl; try done; eauto.
    + eapply Forall_impl; [done|]. intros [j ?|j ?]; eauto.
    + intros sid Hsid. destruct (wf_handshake0 sid Hsid) as [? ?]. eauto.
    + destruct (pc w); eauto.
  - intros sid Hsid Hne. destruct (Hat sid Hsid Hne) as [Hr|(ch0 & Hch0 & Hq)]; [by left; left|].
    destruct (decide (i = sid)) as [->|Hi].
    + right. rewrite Hch in Hch0. injection Hch0 as <-. apply Hq.
    + left. right. exists ch0. simpl. by rewrite lookup_insert_ne.
  - destruct Hpr as [?|Hp]; [by left|right; left]. by eapply progress_mono.
Qed.

Lemma worker_receiver_changed w i ch ch' :
  invariant w → worker_receivers w !! i = Some ch → unnotified (set_worker_receiver w i ch') (rx_waker ch).
Proof.
  intros [Hwf Hat Hhs Hwk Hpr Hpe] Hch.
  assert (∀ j, is_Some (worker_receivers w !! j) → is_Some (<[i := ch']> (worker_receivers w) !! j)) as Hdom.
  { intros j ?. destruct (decide (i = j)) as [->|]; [rewrite lookup_insert_eq; by eexists|by rewrite lookup_insert_ne]. }
  split_and!; try done.
  - destruct Hwf. split; simpl; try done; eauto.
    + eapply Forall_impl; [done|]. intros [j ?|j ?]; eauto.
    + intros key ts Hts. destruct (wf_targets0 key ts Hts). eauto.
  - intros sid Hsid Hne. left. by apply Hat.
  - destruct Hpr as [?|Hp]; [by left|]. destruct (decide (rx_waker ch = Some WInspector)) as [|Hno]; [by right; right|].
    right. left. eapply (progress_mono w); try done. intros key Hq ts j ch0 Hts Hj. simpl.
    intros [[<- <-]|[Hne Hch0]]%lookup_insert_Some; [|by eapply Hq].
    destruct (Hq ts i ch Hts Hj Hch) as (_ & _ & ?). done.
Qed.

Lemma progress_rx w : progress w →
  rx_quiet w ∨ match pc w with Handshake | Greet _ | Accept => True | _ => False end.
Proof. unfold progress, calm. destruct (pc w); (by right) || (left; tauto). Qed.

Lemma connect_ok w p : invariant w → legal w (AConnect p) → ∃ w', connect w p = Ret w' ∧ invariant w'.
Proof.
  intros [Hwf Hat Hhs Hwk Hpr Hpe] [Hl _]. unfold connect, chan_send. apply notify_ok.
  assert (poll_state (waker w) = Woken ∨
    match pc w with Handshake | Greet _ | Accept => True | _ => False end ∨
    rx_waker (session_rx (container w)) = Some WInspector) as Hpr'.
  { destruct Hpr as [?|Hp]; [by left|right]. destruct (progress_rx w Hp) as [(_ & _ & ?)|?]; auto. }
  set (w1 := match p with PRegular _ _ => _ | _ => _ end).
  assert (waker w1 = waker w ∧ pc w1 = pc w ∧ invoker w1 = invoker w ∧
    state w1 = state w ∧ container w1 = set_session_rx (container w)
      (mkChan (queue (session_rx (container w)) ++ [p]) (open (session_rx (container w))) None))
    as (E1 & E2 & E3 & E4 & E5) by (unfold w1; by destruct p).
  assert (∀ j ch, receivers w !! j = Some ch → receivers w1 !! j = Some ch) as Hr.
  { intros j ch Hj. unfold w1. destruct p as [i k|i u]; simpl; [|done].
    rewrite lookup_insert_ne; [done|]. intros ->. by rewrite (proj1 Hl) in Hj. }
  assert (∀ j ch, worker_receivers w !! j = Some ch → worker_receivers w1 !! j = Some ch) as Hwr.
  { intros j ch Hj. unfold w1. destruct p as [i k|i u]; simpl; [done|].
    rewrite lookup_insert_ne; [done|]. intros ->. by rewrite Hl in Hj. }
  assert (∀ j, is_Some (receivers w !! j) → is_Some (receivers w1 !! j)) as Hr' by (intros j [ch ?]; exists ch; auto).
  assert (∀ j, is_Some (worker_receivers w !! j) → is_Some (worker_receivers w1 !! j)) as Hwr' by (intros j [ch ?]; exists ch; auto).
  unfold unnotified, waker_ok, progress. rewrite E1, E2, E3, E4, E5.
  split; [|split; [exact Hwk|split; [exact Hhs|split; [exact Hpe|split]]]].
  - destruct Hwf. split; rewrite ?E2, ?E4, E5; simpl; try done; eauto.
    + apply Forall_app. split; [eapply Forall_impl; [done|]; intros [j ?|j ?]; eauto|].
      apply Forall_singleton. unfold w1. destruct p; simpl; rewrite lookup_insert_eq; by eexists.
    + intros sid Hs. destruct (wf_handshake0 sid Hs) as [? ?]. eauto.
    + intros key ts Hts. destruct (wf_targets0 key ts Hts). eauto.
    + destruct (pc w); eauto.
  - intros sid Hsid Hne. left. destruct (Hat sid Hsid Hne) as [?|(ch & ? & ?)]; [left; by rewrite E5|].
    right. exists ch. auto.
  - destruct Hpr' as [?|[?|?]]; [by left|right; left; by destruct (pc w)|by right; right].
Qed.

Lemma frontend_sends_ok w i msg : invariant w → ∃ w', frontend_sends w i msg = Ret w' ∧ invariant w'.
Proof.
  intros Hw. unfold frontend_sends. destruct (receivers w !! i) as [ch|] eqn:Hch; [|by exists w].
  destruct (open ch); [|by exists w]. by apply notify_ok, receiver_changed.
Qed.
Lemma frontend_leaves_ok w i : invariant w → ∃ w', frontend_leaves w i = Ret w' ∧ invariant w'.
Proof.
  intros Hw. unfold frontend_leaves. destruct (receivers w !! i) as [ch|] eqn:Hch; [|by exists w].
  by apply notify_ok, receiver_changed.
Qed.
Lemma worker_sends_ok w i msg : invariant w → ∃ w', worker_sends w i msg = Ret w' ∧ invariant w'.
Proof.
  intros Hw. unfold worker_sends. destruct (worker_receivers w !! i) as [ch|] eqn:Hch; [|by exists w].
  destruct (open ch); [|by exists w]. by apply notify_ok, worker_receiver_changed.
Qed.
Lemma worker_ends_ok w i : invariant w → ∃ w', worker_ends w i = Ret w' ∧ invariant w'.
Proof.
  intros Hw. unfold worker_ends. destruct (worker_receivers w !! i) as [ch|] eqn:Hch; [|by exists w].
  by apply notify_ok, worker_receiver_changed.
Qed.

(** ** Steps *)

Lemma chan_poll_cases {A} me (ch : chan A) :
  (∃ x ch', chan_poll me ch = (Ready (Some x), ch') ∧ ∀ me', ¬ quiet me' ch) ∨
  (chan_poll me ch = (Ready None, ch) ∧ ∀ me', ¬ quiet me' ch) ∨
  (∃ ch', chan_poll me ch = (Pending, ch') ∧ quiet me ch').
Proof.
  unfold chan_poll, quiet. destruct ch as [[|x q] o k]; simpl.
  - destruct o; [right; right; by eexists|right; left]. split; [done|]. intros me' (_ & ? & _). done.
  - left. eexists _, _. split; [done|]. intros me' (? & _). done.
Qed.

(** The parts of a world that the polls of sessions leave alone. *)
Lemma set_receiver_wf w i ch : well_formed w → is_Some (receivers w !! i) → well_formed (set_receiver w i ch).
Proof.
  intros Hwf Hi.
  assert (∀ j, is_Some (receivers w !! j) → is_Some (<[i := ch]> (receivers w) !! j)) as Hdom.
  { intros j ?. destruct (decide (i = j)) as [->|]; [rewrite lookup_insert_eq; by eexists|by rewrite lookup_insert_ne]. }
  destruct Hwf. split; simpl; try done; eauto.
  - eapply Forall_impl; [done|]. intros [j ?|j ?]; eauto.
  - intros sid Hsid. destruct (wf_handshake0 sid Hsid) as [? ?]. eauto.
  - destruct (pc w); eauto.
Qed.

Lemma set_worker_receiver_wf w i ch :
  well_formed w → is_Some (worker_receivers w !! i) → well_formed (set_worker_receiver w i ch).
Proof.
  intros Hwf Hi.
  assert (∀ j, is_Some (worker_receivers w !! j) → is_Some (<[i := ch]> (worker_receivers w) !! j)) as Hdom.
  { intros j ?. destruct (decide (i = j)) as [->|]; [rewrite lookup_insert_eq; by eexists|by rewrite lookup_insert_ne]. }
  destruct Hwf. split; simpl; try done; eauto.
  - eapply Forall_impl; [done|]. intros [j ?|j ?]; eauto.
  - intros key ts Hts. destruct (wf_targets0 key ts Hts). eauto.
Qed.

Lemma set_state_wf w f : well_formed w → handshake (container w) = None → well_formed (set_state w f).
Proof. intros Hwf Hh. destruct Hwf. split; simpl; try done. by rewrite Hh. Qed.

(** What [pump_turn] changes. *)
Lemma pump_turn_ok w sid me :
  well_formed w → handshake (container w) = None → is_Some (receivers w !! sid) →
  ∃ r ch f, pump_turn v8_dispatch from_str to_string w sid me =
      Ret (r, set_state (set_receiver w sid ch) f) ∧
    well_formed (set_state (set_receiver w sid ch) f) ∧
    (r = Pending → quiet me ch) ∧
    (∀ sid', attended w sid' → attended (set_state (set_receiver w sid ch) f) sid' ∨ (sid' = sid ∧ r = Pending)).
Proof.
  intros Hwf Hh [ch Hch]. unfold pump_turn. rewrite Hch. simpl.
  assert (∀ ch' f, well_formed (set_state (set_receiver w sid ch') f)) as Hwf'.
  { intros ch' f. apply set_state_wf; [|done]. apply set_receiver_wf; [done|by eexists]. }
  assert (∀ sid' ch' f, attended w sid' → sid' = sid ∨ attended (set_state (set_receiver w sid ch') f) sid') as Hother.
  { intros sid' ch' f [?|(ch0 & H0 & Hq)]; [right; by left|].
    destruct (decide (sid = sid')) as [->|]; [by left|right; right; exists ch0; simpl; by rewrite lookup_insert_ne]. }
  assert (∀ sid' ch' f, (∀ me', ¬ quiet me' ch) → attended w sid' → attended (set_state (set_receiver w sid ch') f) sid') as Hsame.
  { intros sid' ch' f Hnq Ha. destruct (Hother sid' ch' f Ha) as [->|]; [|done].
    destruct Ha as [?|(ch0 & H0 & Hq)]; [by left|]. rewrite Hch in H0. injection H0 as <-. by destruct (Hnq (WPump sid)). }
  destruct (chan_poll_cases me ch) as [(x & ch' & -> & Hnq)|[[-> Hnq]|(ch' & -> & Hq)]].
  - eexists _, ch', _. split; [done|]. split; [apply Hwf'|]. split; [done|]. intros sid' Ha. left. by apply Hsame.
  - exists (Ready false), ch, (state w). split; [done|]. split; [apply Hwf'|]. split; [done|].
    intros sid' Ha. left. by apply Hsame.
  - exists Pending, ch', (state w). split; [done|]. split; [apply Hwf'|]. split; [done|].
    intros sid' Ha. destruct (Hother sid' ch' (state w) Ha) as [->|]; [by right|by left].
Qed.

Lemma insert_local_wf w sid pc' :
  well_formed w → match pc' with Handshake => True | _ => False end →
  well_formed (set_pc (set_container w (insert_local (container w) sid)) pc').
Proof.
  intros Hwf Hpc. destruct Hwf. split; simpl; try done.
  - intros id s [[<- _]|[_ ?%wf_local0]]%lookup_insert_Some; lia.
  - intros id. destruct (main_session_id (container w)) as [m|] eqn:Hm; intros [= <-].
    + apply lookup_insert_is_Some'. right. by apply wf_main0.
    + rewrite lookup_insert_eq. by eexists.
  - by destruct pc'.
Qed.

(** No id overflows, and a worker has an id of a session. *)
Definition ids_ok w : Prop :=
  (ids_used w < 2 ^ 31)%Z ∧ (next_worker_id (container w) <= next_local_id (container w))%Z.

Lemma incremented_ok bits id : (id + 1 < 2 ^ bits)%Z → incremented bits id = Ret tt.
Proof. intros. unfold incremented. by rewrite decide_True. Qed.
Lemma incremented_inv {A} bits id (k : outcome A) x : (_ ← incremented bits id; k) = Ret x → k = Ret x.
Proof. unfold incremented. by case_decide. Qed.
Lemma ids_greet w sid : ids_ok w → pc w = Greet sid → incremented 31 (next_local_id (container w)) = Ret tt.
Proof. intros [H _] Hpc. apply incremented_ok. unfold ids_used in H. rewrite Hpc in H. case_match; lia. Qed.
Lemma ids_accept w x q : ids_ok w → queue (session_rx (container w)) = x :: q →
  incremented 31 (next_local_id (container w)) = Ret tt ∧ incremented 32 (next_worker_id (container w)) = Ret tt.
Proof.
  intros [H ?] Hq. unfold ids_used in H. rewrite Hq in H. simpl in H.
  assert (next_local_id (container w) + 1 < 2 ^ 31)%Z by (repeat case_match; lia).
  split; apply incremented_ok; lia.
Qed.

Local Abbreviation step_ok w := (∃ w', poll_step v8_dispatch from_str to_string order w = Ret w' ∧ invariant w').

(** The waker is not touched inside the loop. *)
Lemma waker_ok_inside w w' :
  waker w' = waker w → invoker w' = invoker w →
  match pc w with Outside | Park => False | _ => True end →
  match pc w' with Outside | Park => False | _ => True end →
  waker_ok w → waker_ok w'.
Proof.
  unfold waker_ok. intros -> -> H1 H2 (HA & HB & HC).
  destruct (pc w), (pc w'); try done;
    (split; [exact HA|split; [intros _; by apply HB|intros _; by apply HC]]).
Qed.

Lemma handshake_step w : invariant w → pc w = Handshake → step_ok w.
Proof.
  intros [Hwf Hat Hhs Hwk Hpr Hpe] Hpc. unfold poll_step. rewrite Hpc.
  destruct (handshake (container w)) as [sid|] eqn:Hh.
  - destruct (wf_handshake _ Hwf sid Hh) as (Hr & s & Hs & Hp). unfold pump_start. simpl. rewrite Hs, Hp.
    rewrite (bool_decide_true _ Hr). simpl. eexists. split; [done|]. split; simpl; try done.
    + destruct Hwf. by split.
    + intros sid' Hsid _. apply Hat; [done|by rewrite Hpc].
    + eapply waker_ok_inside; [| | | |exact Hwk]; simpl; by rewrite ?Hpc.
    + by right.
  - eexists. split; [done|]. split; simpl; try done.
    + destruct Hwf. by split.
    + intros sid' Hsid _. apply Hat; [done|by rewrite Hpc].
    + eapply waker_ok_inside; [| | | |exact Hwk]; simpl; by rewrite ?Hpc.
    + by right.
Qed.

Lemma greet_step w sid : invariant w → ids_ok w → pc w = Greet sid → step_ok w.
Proof.
  intros [Hwf Hat Hhs Hwk Hpr Hpe] Hids Hpc. pose proof (ids_greet w sid Hids Hpc) as Hinc. unfold poll_step, greet. rewrite Hpc in *.
  pose proof (wf_pc _ Hwf) as Hr. rewrite Hpc in Hr.
  destruct (pump_turn_ok w sid WInspector Hwf Hhs Hr) as (r & ch & f & -> & Hwf' & Hq & Hatt). simpl.
  assert (∀ s, s ∈ established (container w) → attended w s) as Hall.
  { intros s Hs. apply Hat; [done|by rewrite Hpc]. }
  destruct r as [[|]|]; rewrite ?Hinc; simpl.
  - eexists. split; [done|]. split; simpl; rewrite ?Hpc; try done.
    + intros s Hs _. destruct (Hatt s (Hall s Hs)) as [?|[_ ?]]; done.
  - eexists. split; [done|]. split; simpl; try done.
    + by apply (insert_local_wf (set_state (set_receiver w sid ch) f)).
    + intros s Hs _. destruct (Hatt s (Hall s Hs)) as [?|[_ ?]]; done.
    + eapply waker_ok_inside; [| | | |exact Hwk]; simpl; by rewrite ?Hpc.
    + by right.
  - eexists. split; [done|]. split; simpl; try done.
    + pose proof (insert_local_wf (set_state (set_receiver w sid ch) f) sid Handshake Hwf' I) as Hwf2.
      destruct Hwf2. split; simpl; try done.
      * intros s [?|Hs%list_elem_of_singleton]%elem_of_app; [by apply wf_established0|subst s].
        rewrite lookup_insert_eq. by eexists.
      * intros s [?|?]%elem_of_app; apply elem_of_app; [left; by apply wf_ready0|by right].
    + intros s [Hs|Hs]%elem_of_app _.
      * destruct (Hatt s (Hall s Hs)) as [[?|?]|[-> _]]; [|by right|]; left; simpl; set_solver.
      * left. simpl. set_solver.
    + eapply waker_ok_inside; [| | | |exact Hwk]; simpl; by rewrite ?Hpc.
    + by right.
Qed.

Lemma pump_step w sid : invariant w → pc w = Pump sid → step_ok w.
Proof.
  intros [Hwf Hat Hhs Hwk Hpr Hpe] Hpc. unfold poll_step, pump. rewrite Hpc in *.
  pose proof (wf_pc _ Hwf) as Hsid. rewrite Hpc in Hsid.
  destruct (pump_turn_ok w sid (WPump sid) Hwf Hhs (wf_established _ Hwf _ Hsid))
    as (r & ch & f & -> & Hwf' & Hq & Hatt). simpl.
  assert (∀ s, s ∈ established (container w) → s ≠ sid → attended (set_state (set_receiver w sid ch) f) s) as Hall.
  { intros s Hs Hne. destruct (Hatt s) as [?|[? _]]; [|done..]. apply Hat; [done|rewrite Hpc; congruence]. }
  destruct r as [[|]|].
  - eexists. split; [done|]. split; simpl; rewrite ?Hpc; try done.
    + intros s Hs Hne. simpl in Hne. rewrite Hpc in Hne. apply Hall; [done|congruence].
  - eexists. split; [done|]. split; simpl; try done.
    + destruct Hwf'. split; simpl; try done.
      * intros s [_ Hs]%list_elem_of_filter. by apply wf_established0.
      * intros s [? ?%wf_ready0]%list_elem_of_filter. by apply list_elem_of_filter.
    + intros s [Hne Hs]%list_elem_of_filter _.
      destruct (Hall s Hs Hne) as [?|?]; [left|by right]. simpl. by apply list_elem_of_filter.
    + eapply waker_ok_inside; [| | | |exact Hwk]; simpl; by rewrite ?Hpc.
    + by right.
  - eexists. split; [done|]. split; simpl; try done.
    + destruct Hwf'. by split.
    + intros s Hs _. destruct (decide (s = sid)) as [->|Hne]; [|by apply Hall].
      right. exists ch. simpl. rewrite lookup_insert_eq. split; [done|by apply Hq].
    + eapply waker_ok_inside; [| | | |exact Hwk]; simpl; by rewrite ?Hpc.
    + destruct Hpr as [?|Hp]; [by left|right]. revert Hp. unfold progress. simpl. rewrite Hpc. tauto.
Qed.

(** ** Connections *)

Definition targets_known (known : nat → Prop) (t : gmap string TargetSession) : Prop :=
  ∀ key ts, t !! key = Some ts → session_id ts = key ∧ ∀ i, channels ts = Some i → known i.

Lemma targets_known_insert known t key ts :
  targets_known known t → session_id ts = key → (∀ i, channels ts = Some i → known i) →
  targets_known known (<[key := ts]> t).
Proof. intros Ht Hk Hc key' ts' [[<- <-]|[_ ?]]%lookup_insert_Some; [done|by apply Ht]. Qed.

Lemma register_worker_channels_known known c lid rx :
  targets_known known (target_sessions c) → known rx →
  targets_known known (target_sessions (register_worker_channels c lid rx).2).
Proof.
  intros Ht Hrx. unfold register_worker_channels.
  destruct (head _) as [[key ts]|] eqn:Hh; [|done]. simpl.
  apply head_Some_elem_of, list_elem_of_filter in Hh as [_ Hh%elem_of_map_to_list].
  destruct (Ht key ts Hh). apply targets_known_insert; try done. by intros i [= <-].
Qed.

(** [c'] differs from [c] in its targets and ids of workers. *)
Definition same_sessions c c' : Prop :=
  v8_inspector c' = v8_inspector c ∧ session_rx c' = session_rx c ∧ handshake c' = handshake c ∧
  established c' = established c ∧ ready c' = ready c ∧ waker_set c' = waker_set c ∧
  local c' = local c ∧ main_session_id c' = main_session_id c ∧ (next_local_id c <= next_local_id c')%Z.

Lemma register_worker_channels_same c lid rx : same_sessions c (register_worker_channels c lid rx).2.
Proof. unfold register_worker_channels. by destruct (head _) as [[? ?]|]. Qed.

Lemma same_sessions_trans c1 c2 c3 : same_sessions c1 c2 → same_sessions c2 c3 → same_sessions c1 c3.
Proof. unfold same_sessions. intuition (congruence || lia). Qed.

Lemma accept_worker_ok w rx url known :
  targets_known known (target_sessions (container w)) → known rx →
  let w' := accept_worker to_string w rx url in
  same_sessions (container w) (container w') ∧ targets_known known (target_sessions (container w')) ∧
  waker w' = waker w ∧ receivers w' = receivers w ∧ worker_receivers w' = worker_receivers w ∧
  invoker w' = invoker w.
Proof.
  intros Ht Hrx. unfold accept_worker. destruct (register_worker_session _ _ _) as [n c1] eqn:E1.
  destruct (register_worker_channels _ _ _) as [b c2] eqn:E2.
  assert (same_sessions (container w) c2 ∧ targets_known known (target_sessions c2)) as [Hs Hk].
  { replace c2 with (register_worker_channels c1 (next_local_id (container w)) rx).2 by by rewrite E2.
    replace c1 with (n, c1).2 by done. rewrite <- E1. split.
    - eapply same_sessions_trans; [|apply register_worker_channels_same].
      unfold same_sessions. simpl. intuition lia.
    - apply register_worker_channels_known; [|done]. simpl. by apply targets_known_insert. }
  destruct (main_session _) as [main|]; [|done].
  destruct (target_sessions _ !! _) as [ts|] eqn:Hts; [|done]. simpl in Hts.
  destruct (Hk _ _ Hts) as [Hid Hch].
  assert (targets_known known (<[(pretty (next_local_id (container w)) : string) := set_attached ts true]> (target_sessions c2))) as Hk'
    by by apply targets_known_insert.
  destruct (discover_targets_enabled _); simpl; destruct (auto_attach_enabled _); simpl; by split_and!.
Qed.

Lemma main_session_same c c' : same_sessions c c' → main_session c' = main_session c.
Proof. unfold same_sessions, main_session. intros (_ & _ & _ & _ & _ & _ & -> & -> & _). done. Qed.

Lemma wf_same w w' :
  well_formed w → same_sessions (container w) (container w') → 
  targets_known (λ i, is_Some (worker_receivers w' !! i)) (target_sessions (container w')) →
  receivers w' = receivers w → worker_receivers w' = worker_receivers w →
  handshake (container w) = None →
  match pc w' with Greet _ | Pump _ | Workers _ _ _ _ => False | _ => True end → well_formed w'.
Proof.
  intros [] (H1 & H2 & H3 & H4 & H5 & H6 & H7 & H8 & H9) Ht Hr Hwr Hh Hpc.
  split; rewrite ?H1, ?H2, ?H3, ?H4, ?H5, ?H7, ?H8, ?Hr, ?Hwr; try done.
  - by rewrite Hh.
  - intros key ts Hts. rewrite <- Hwr. by apply Ht.
  - intros id sid Hid. specialize (wf_local0 id sid Hid). lia.
  - by destruct (pc w').
Qed.

Lemma wf_known w : well_formed w →
  targets_known (λ i, is_Some (worker_receivers w !! i)) (target_sessions (container w)).
Proof. intros Hwf key ts Hts. by apply (wf_targets _ Hwf). Qed.

Lemma set_rx_wf w rx pc' :
  well_formed w → open rx = true →
  (∀ p, p ∈ queue rx → p ∈ queue (session_rx (container w))) →
  match pc' with
  | Greet _ | Pump _ => False
  | Workers main _ _ _ => main_session (container w) = Some main
  | _ => True
  end →
  well_formed (set_pc (set_container w (set_session_rx (container w) rx)) pc').
Proof.
  intros [] Ho Hq Hpc. split; simpl; try done.
  - rewrite Forall_forall in wf_rx0. rewrite Forall_forall. intros p Hp. by apply wf_rx0, Hq.
  - by destruct pc'.
Qed.

Lemma accept_step w : invariant w → ids_ok w → pc w = Accept → step_ok w.
Proof.
  intros [Hwf Hat Hhs Hwk Hpr Hpe] Hids Hpc. unfold poll_step, accept. rewrite Hpc in *.
  assert (∀ s, s ∈ established (container w) → attended w s) as Hall.
  { intros s Hs. apply Hat; [done|by rewrite Hpc]. }
  destruct (session_rx (container w)) as [[|p q] o k] eqn:Hrx; unfold chan_poll; simpl.
  - pose proof (wf_open _ Hwf) as Ho. rewrite Hrx in Ho. simpl in Ho. rewrite Ho. simpl.
    change (main_session (set_session_rx (container w) _)) with (main_session (container w)).
    assert (∀ pc' : poll_pc, match pc' with
      | Greet _ | Pump _ => False | Workers main _ _ _ => main_session (container w) = Some main | _ => True end →
      well_formed (set_pc (set_container w (set_session_rx (container w) (mkChan [] true (Some WInspector)))) pc')) as Hwf'.
    { intros pc' Hpc'. apply set_rx_wf; [done|done|by intros p ?%elem_of_nil|done]. }
    destruct (main_session (container w)) as [main|] eqn:Hmain.
    + eexists. split; [done|]. split; simpl; try done; [by apply Hwf'|intros s Hs _; by apply Hall| |].
      * eapply waker_ok_inside; [| | | |exact Hwk]; simpl; by rewrite ?Hpc.
      * right. unfold progress. simpl. split; [done|right; right]. intros key Hkey ts i ch Hts.
        destruct Hkey. apply order_spec. by exists ts.
    + eexists. split; [done|]. split; simpl; try done; [by apply Hwf'|intros s Hs _; by apply Hall| |].
      * eapply waker_ok_inside; [| | | |exact Hwk]; simpl; by rewrite ?Hpc.
      * right. unfold progress. simpl. split; [done|by left].
  - destruct (ids_accept w p q Hids) as [Hinc Hinc']; [by rewrite Hrx|].
    pose proof (wf_rx _ Hwf) as Hp. rewrite Hrx in Hp. simpl in Hp. apply Forall_cons in Hp as [Hp _].
    pose proof (wf_open _ Hwf) as Ho. rewrite Hrx in Ho. simpl in Ho.
    set (w1 := set_container w (set_session_rx (container w) (mkChan q o k))).
    assert (well_formed (set_pc w1 Handshake)) as Hwf1.
    { apply set_rx_wf; [done|done| |done]. intros p' Hp'. rewrite Hrx. by right. }
    destruct p as [i kd|i u].
    + unfold accept_session. simpl. rewrite (wf_v8 _ Hwf), Hhs. simpl.
      eexists. split; [done|]. split; simpl; try done.
      * destruct Hwf1. split; simpl in *; try done. intros s [= <-]. split; [done|].
        rewrite lookup_insert_eq. by eexists.
      * intros s Hs _. by apply Hall.
      * eapply waker_ok_inside; [| | | |exact Hwk]; simpl; by rewrite ?Hpc.
      * by right.
    + destruct (accept_worker_ok w1 i u (λ i, is_Some (worker_receivers w !! i)))
        as (Hsame & Hk & H1 & H2 & H3 & H4); [apply (wf_known _ Hwf1)|done|].
      destruct Hsame as (E1 & E2 & E3 & E4 & E5 & E6 & E7 & E8 & E9).
      rewrite Hinc, Hinc'. simpl. eexists. split; [done|]. split; simpl; try done.
      * apply (wf_same (set_pc w1 Handshake)); try done; simpl; by rewrite ?H3.
      * intros s Hs _. unfold attended. simpl. rewrite H2, E5. simpl. apply Hall. simpl in Hs.
        by rewrite E4 in Hs.
      * eapply waker_ok_inside; [| | | |exact Hwk]; simpl; by rewrite ?Hpc.
      * by right.
Qed.

(** ** Workers *)

Lemma set_workers_inv w main todo has gone todo' has' gone' f :
  invariant w → pc w = Workers main todo has gone → 
  (poll_state (waker w) = Woken ∨ progress (set_pc w (Workers main todo' has' gone'))) →
  invariant (set_pc (set_state w f) (Workers main todo' has' gone')).
Proof.
  intros [Hwf Hat Hhs Hwk Hpr Hpe] Hpc Hpr'. rewrite Hpc in *. split; simpl; try done.
  - pose proof (wf_pc _ Hwf) as Hm. rewrite Hpc in Hm.
    destruct (set_state_wf w f Hwf Hhs). by split.
  - intros s Hs _. apply Hat; [done|by rewrite Hpc].
  - eapply waker_ok_inside; [| | | |exact Hwk]; simpl; by rewrite ?Hpc.
Qed.

Lemma set_state_id w : set_state w (state w) = w.
Proof. by destruct w. Qed.

(** A channel of a worker that is polled stays quiet. *)
Lemma target_quiet_poll w i ch ch' key :
  worker_receivers w !! i = Some ch → (quiet WInspector ch → quiet WInspector ch') →
  target_quiet w key → target_quiet (set_worker_receiver w i ch') key.
Proof.
  intros Hch Hq Ht ts j c0 Hts Hj. simpl. intros [[<- <-]|[Hne Hc0]]%lookup_insert_Some.
  - apply Hq. by eapply Ht.
  - by eapply Ht.
Qed.

(** A worker that was polled without a message, or one with a message. *)
Lemma worker_polled w main key todo has gone has' gone' ts i ch ch' :
  progress w → pc w = Workers main (key :: todo) has gone →
  target_sessions (container w) !! key = Some ts → channels ts = Some i →
  worker_receivers w !! i = Some ch → (quiet WInspector ch → quiet WInspector ch') →
  (has = true → has' = true) → (gone ≠ [] → gone' ≠ []) →
  (quiet WInspector ch' ∨ has' = true ∨ gone' ≠ []) →
  progress (set_pc (set_worker_receiver w i ch') (Workers main todo has' gone')).
Proof.
  intros Hp Hpc Hts Hi Hch Hq Hh Hg Hnew. unfold progress in *. rewrite Hpc in Hp. simpl.
  destruct Hp as [Hrx Hp]. split; [done|]. destruct Hp as [?|[?|Hp]]; [auto|auto|].
  destruct Hnew as [Hnew|?]; [|tauto]. right. right. intros key' Hkey'.
  destruct (decide (key' = key)) as [->|Hne].
  - intros ts' j c0 Hts' Hj. simpl in *. rewrite Hts in Hts'. injection Hts' as <-.
    rewrite Hi in Hj. injection Hj as <-. rewrite lookup_insert_eq. by intros [= <-].
  - apply (target_quiet_poll w i ch ch' key' Hch Hq). apply Hp. by apply not_elem_of_cons.
Qed.

Lemma skip_worker w main key todo has gone :
  progress w → pc w = Workers main (key :: todo) has gone →
  (∀ ts, target_sessions (container w) !! key = Some ts → channels ts = None) →
  progress (set_pc w (Workers main todo has gone)).
Proof.
  intros Hp Hpc Hts. unfold progress in *. rewrite Hpc in Hp. simpl.
  destruct Hp as [Hrx Hp]. split; [done|]. destruct Hp as [?|[?|Hp]]; [auto|auto|right; right].
  intros key' Hkey'. destruct (decide (key' = key)) as [->|Hne].
  - intros ts j c0 Hts' Hj. by rewrite (Hts ts Hts') in Hj.
  - apply Hp. by apply not_elem_of_cons.
Qed.

Lemma poll_worker_step w main key todo has gone :
  invariant w → pc w = Workers main (key :: todo) has gone → step_ok w.
Proof.
  intros Hw Hpc. pose proof Hw as [Hwf Hat Hhs Hwk Hpr Hpe].
  unfold poll_step, poll_worker. rewrite Hpc in *.
  destruct (target_sessions (container w) !! key) as [ts|] eqn:Hts; [destruct (channels ts) as [i|] eqn:Hi|].
  - destruct (wf_targets _ Hwf key ts Hts) as [_ [ch Hch]%(λ H, H i Hi)]. rewrite Hch. simpl.
    assert (∀ ch' has' gone' f, (quiet WInspector ch → quiet WInspector ch') →
      (has = true → has' = true) → (gone ≠ [] → gone' ≠ []) →
      (quiet WInspector ch' ∨ has' = true ∨ gone' ≠ []) →
      invariant (set_pc (set_state (set_worker_receiver w i ch') f) (Workers main todo has' gone'))) as Hgo.
    { intros ch' has' gone' f Hq Hh Hg Hn.
      assert (invariant (set_pc (set_state w f) (Workers main todo true gone))) as [Hwf2 Hat2 _ Hwk2 _ _].
      { apply (set_workers_inv w main (key :: todo) has gone); [done..|].
        destruct Hpr as [?|Hp]; [by left|right]. unfold progress in *. rewrite Hpc in Hp. simpl in *. tauto. }
      split; simpl; try done.
      - pose proof (set_worker_receiver_wf _ i ch' Hwf2) as [] ; [by eexists|]. by split.
      - intros s Hs Hne. by apply (Hat2 s Hs).
      - unfold waker_ok in *. simpl in *. destruct Hwk2 as (H1 & H2 & H3).
        split; [done|]. split; [intros _; by apply H2|intros _; by apply H3].
      - destruct Hpr as [?|Hp]; [by left|right]. by exact (worker_polled w main key todo has gone has' gone' ts i ch ch' Hp Hpc Hts Hi Hch Hq Hh Hg Hn). }
    destruct (chan_poll_cases WInspector ch) as [(x & ch' & -> & Hnq)|[[-> Hnq]|(ch' & -> & Hq)]].
    + eexists. split; [done|]. apply Hgo; auto. intros H. by destruct (Hnq _ H).
    + eexists. split; [done|]. apply Hgo; auto; [by intros _ ?%app_eq_nil; naive_solver|].
      right. right. by intros [_ ?]%app_eq_nil.
    + eexists. split; [done|]. change (set_pc (set_worker_receiver w i ch') _) with
        (set_pc (set_state (set_worker_receiver w i ch') (state w)) (Workers main todo has gone)).
      apply Hgo; auto.
  - eexists. split; [done|]. rewrite <- (set_state_id w) at 1. apply (set_workers_inv w main (key :: todo) has gone); [done..|].
    destruct Hpr as [?|Hp]; [by left|right]. eapply skip_worker; [done..|]. intros ts'. rewrite Hts. by intros [= <-].
  - eexists. split; [done|]. rewrite <- (set_state_id w) at 1. apply (set_workers_inv w main (key :: todo) has gone); [done..|].
    destruct Hpr as [?|Hp]; [by left|right]. eapply skip_worker; [done..|]. intros ts'. by rewrite Hts.
Qed.

Lemma remove_targets_Some gone t key ts : remove_targets gone t !! key = Some ts → t !! key = Some ts.
Proof.
  revert t. induction gone as [|g gone IH]; intros t; simpl; [done|].
  intros H%IH. by apply lookup_delete_Some in H as [_ ?].
Qed.

Lemma after_workers_step w main has gone :
  invariant w → pc w = Workers main [] has gone → step_ok w.
Proof.
  intros [Hwf Hat Hhs Hwk Hpr Hpe] Hpc. unfold poll_step, after_workers. rewrite Hpc in *.
  eexists. split; [done|]. set (t := remove_targets gone (target_sessions (container w))).
  assert (∀ key ts, t !! key = Some ts → target_sessions (container w) !! key = Some ts) as Ht
    by apply remove_targets_Some.
  assert (∀ s, s ∈ established (container w) → attended w s) as Hall.
  { intros s Hs. apply Hat; [done|by rewrite Hpc]. }
  destruct (has || negb (bool_decide (gone = []))) eqn:Hb.
  - split; simpl; try done.
    + destruct Hwf. split; simpl; try done. intros key ts Hts. by apply wf_targets0, Ht.
    + intros s Hs _. by apply Hall.
    + eapply waker_ok_inside; [| | | |exact Hwk]; simpl; by rewrite ?Hpc.
    + by right.
  - apply orb_false_iff in Hb as [-> Hg%negb_false_iff%bool_decide_eq_true]. split; simpl; try done.
    + destruct Hwf. split; simpl; try done. intros key ts Hts. by apply wf_targets0, Ht.
    + intros s Hs _. by apply Hall.
    + eapply waker_ok_inside; [| | | |exact Hwk]; simpl; by rewrite ?Hpc.
    + destruct Hpr as [?|Hp]; [by left|right]. unfold progress in *. rewrite Hpc in Hp. simpl.
      destruct Hp as [Hrx [?|[?|Hp]]]; [done|done|]. split; [done|right].
      intros key ts i ch Hts Hi Hch. simpl in *. eapply (Hp key); [by intros ?%elem_of_nil|by apply Ht|done|done].
Qed.

(** ** The end of a turn *)

Lemma established_step w : invariant w → pc w = Established → step_ok w.
Proof.
  intros [Hwf Hat Hhs Hwk Hpr Hpe] Hpc. unfold poll_step, poll_established. rewrite Hpc in *.
  assert (∀ s, s ∈ established (container w) → attended w s) as Hall.
  { intros s Hs. apply Hat; [done|by rewrite Hpc]. }
  unfold progress in Hpr. rewrite Hpc in Hpr. eexists. split; [done|]. case_bool_decide as He.
  - split; simpl; try done.
    + destruct Hwf. by split.
    + intros s Hs _. by apply Hall.
    + eapply waker_ok_inside; [| | | |exact Hwk]; simpl; by rewrite ?Hpc.
    + destruct Hpr as [?|[Hrx Ht]]; [by left|right]. split; [done|]. split; [done|]. split; [|by right].
      simpl. destruct (ready (container w)) as [|s r] eqn:Hr; [done|].
      pose proof (wf_ready _ Hwf s) as H. rewrite Hr, He in H. exfalso.
      by eapply not_elem_of_nil, H, list_elem_of_here.
  - destruct (ready (container w)) as [|sid r] eqn:Hr.
    + split; simpl; try done.
      * destruct Hwf. split; simpl; try done. by intros s ?%elem_of_nil.
      * intros s Hs _. destruct (Hall s Hs) as [H|?]; [|by right]. rewrite Hr in H. by apply elem_of_nil in H.
      * eapply waker_ok_inside; [| | | |exact Hwk]; simpl; by rewrite ?Hpc.
      * destruct Hpr as [?|[Hrx Ht]]; [by left|right]. split; [done|]. split; [done|]. split; [done|by left].
    + assert (sid ∈ established (container w)) as Hsid.
      { apply (wf_ready _ Hwf). rewrite Hr. by left. }
      split; simpl; try done.
      * destruct Hwf. split; simpl; try done. intros s Hs. apply wf_ready0. rewrite Hr. by right.
      * intros s Hs Hne. simpl in *. destruct (Hall s Hs) as [H|?]; [|by right]. rewrite Hr in H.
        apply elem_of_cons in H as [->|H]; [done|by left].
      * eapply waker_ok_inside; [| | | |exact Hwk]; simpl; by rewrite ?Hpc.
      * destruct Hpr as [?|[Hrx Ht]]; [by left|right]. by split.
Qed.

Lemma drain_step w : invariant w → pc w = Drain → step_ok w.
Proof.
  intros [Hwf Hat Hhs Hwk Hpr Hpe] Hpc. unfold poll_step, drain. rewrite Hpc in *.
  eexists. split; [done|]. split; simpl; try done.
  - destruct Hwf. by split.
  - intros s Hs _. apply Hat; [done|by rewrite Hpc].
  - eapply waker_ok_inside; [| | | |exact Hwk]; simpl; by rewrite ?Hpc.
  - unfold progress in *. rewrite Hpc in Hpr. exact Hpr.
Qed.

Lemma decide_step w b : invariant w → pc w = Decide b → step_ok w.
Proof.
  intros [Hwf Hat Hhs Hwk Hpr Hpe] Hpc. unfold poll_step, decide_state. rewrite Hpc in *.
  assert (∀ s, s ∈ established (container w) → attended w s) as Hall.
  { intros s Hs. apply Hat; [done|by rewrite Hpc]. }
  unfold waker_ok in Hwk. rewrite Hpc in Hwk. destruct Hwk as (Hst & Htask & Hun).
  specialize (Htask ltac:(done)). specialize (Hun ltac:(done)). unfold progress in Hpr. rewrite Hpc in Hpr.
  destruct (poll_state (waker w)) eqn:Hk; [by destruct Hst| | |by destruct Hst|by destruct Hst].
  - eexists. split; [done|]. split; simpl; try done.
    + destruct Hwf. by split.
    + intros s Hs _. by apply Hall.
    + split; [by left|by split].
    + by right.
  - destruct Hpr as [?|Hcalm]; [done|]. destruct b; eexists; (split; [done|]); split; simpl; try done.
    + destruct Hwf. by split.
    + intros s Hs _. by apply Hall.
    + split; [by left|by split].
    + by right.
    + destruct Hwf. by split.
    + intros s Hs _. by apply Hall.
    + split; [|by split]. left. simpl. split; [done|]. by rewrite (orb_comm (task_waker _)).
    + by right.
Qed.

Lemma park_step w : invariant w → pc w = Park → step_ok w.
Proof.
  intros Hw Hpc. pose proof Hw as [Hwf Hat Hhs Hwk Hpr Hpe]. unfold poll_step. rewrite Hpc in *.
  destruct (unparked (waker w)) eqn:Hu; [|by exists w]. eexists. split; [done|]. split; simpl; try done.
  - destruct Hwf. by split.
  - intros s Hs _. apply Hat; [done|by rewrite Hpc].
  - unfold waker_ok in *. rewrite Hpc in Hwk. simpl. destruct Hwk as (Hst & Htask & _).
    split; [|split; [intros _; by apply Htask|done]]. right. destruct Hst as [(_ & _ & ?)|[? _]]; congruence.
  - by right.
Qed.

(** ** Entry points *)

Lemma enter_ok w k f cx :
  invariant w → pc w = Outside → poll_state k = poll_state (waker w) → unparked k = unparked (waker w) →
  (cx || task_waker k || task_woken k) = true →
  ∃ w', poll_sessions (set_state (set_waker w k) f) cx = Ret (Ok tt, w') ∧ invariant w'.
Proof.
  intros [Hwf Hat Hhs Hwk Hpr Hpe] Hpc Hst Hun Hcx. unfold poll_sessions. simpl. rewrite Hpc, Hst in *.
  unfold waker_ok in Hwk. rewrite Hpc in Hwk. destruct Hwk as (Hs & _ & Hu). specialize (Hu ltac:(done)).
  assert (invariant (set_invoker (set_pc (set_waker (set_state (set_waker w k) f) (set_poll_state k Polling)) Handshake) cx)).
  { split; simpl; try done.
    - destruct Hwf. split; simpl; try done. by rewrite Hhs.
    - intros s Hsid _. apply Hat; [done|by rewrite Hpc].
    - split; [by left|]. split; [done|]. intros _. simpl. congruence.
    - by right. }
  destruct Hs as [[-> _]|[-> _]]; by eexists.
Qed.

Lemma invariant_outside w : invariant w → pc w = Outside →
  (task_waker (waker w) || task_woken (waker w)) = true.
Proof.
  intros [_ _ _ Hwk _ _] Hpc. unfold waker_ok in Hwk. rewrite Hpc in Hwk.
  destruct Hwk as ([[_ ?]|[_ ->]] & _); [done|apply orb_true_r].
Qed.

Lemma event_loop_ok w : invariant w → pc w = Outside →
  ∃ w', poll_sessions_from_event_loop w = Ret w' ∧ invariant w'.
Proof.
  intros Hw Hpc. unfold poll_sessions_from_event_loop. set (k := mkWaker _ _ _ _ _ _ _).
  destruct (enter_ok w k (state w) true) as (w' & He & Hi); [done..|].
  change (set_state (set_waker w k) (state w)) with (set_waker w k) in He.
  rewrite He. by exists w'.
Qed.

Lemma pause_ok w f : invariant w → pc w = Outside →
  ∃ w', poll_sessions (set_state w f) false = Ret (Ok tt, w') ∧ invariant w'.
Proof.
  intros Hw Hpc. change (set_state w f) with (set_state (set_waker w (waker w)) f).
  apply enter_ok; [done..|]. simpl. by apply invariant_outside.
Qed.

Lemma invariant_waker w k :
  invariant w → poll_state k = poll_state (waker w) → unparked k = unparked (waker w) →
  task_waker k = task_waker (waker w) → task_woken k = task_woken (waker w) →
  parked_thread k = parked_thread (waker w) → invariant (set_waker w k).
Proof.
  intros [Hwf Hat Hhs Hwk Hpr Hpe] H1 H2 H3 H4 H5. split; simpl; try done.
  - destruct Hwf. by split.
  - unfold waker_ok in *. simpl. by rewrite H1, H2, H3, H4, H5.
  - rewrite H1. destruct Hpr; [by left|by right].
Qed.

Lemma interrupt_ok w : invariant w → ∃ w', handle_interrupt w = Ret w' ∧ invariant w'.
Proof.
  intros Hw. unfold handle_interrupt. set (k := mkWaker _ _ _ _ _ _ _).
  assert (invariant (set_waker w k)) as Hk by by apply invariant_waker.
  destruct (decide (pc w = Outside)) as [Hpc|Hpc].
  - destruct (pause_ok (set_waker w k) (state w) Hk Hpc) as (w' & He & Hi).
    change (set_state (set_waker w k) (state w)) with (set_waker w k) in He.
    rewrite He. by exists w'.
  - exists (set_waker w k). split; [|done]. unfold poll_sessions. simpl. by destruct (pc w).
Qed.

Lemma set_state_invariant w f :
  invariant w → pc w = Outside → pending_worker_messages f = [] → invariant (set_state w f).
Proof.
  intros [Hwf Hat Hhs Hwk Hpr Hpe] Hpc Hf. split; simpl; try done; rewrite ?Hpc in *; try done.
  by apply set_state_wf.
Qed.

Lemma foldl_pending calls (f : front V) :
  pending_worker_messages (foldl v8_callback f calls) = pending_worker_messages f.
Proof. revert f. induction calls as [|c calls IH]; intros f; [done|]. simpl. rewrite IH. by destruct c. Qed.

Lemma dispatch_pending sid (f : front V) msg :
  pending_worker_messages (dispatch_message v8_dispatch sid f msg) = pending_worker_messages f.
Proof. unfold dispatch_message. destruct (v8_dispatch sid msg (v8 f)) as [v calls]. by rewrite foldl_pending. Qed.

Lemma local_session_ok w sid k : invariant w → pc w = Outside → (next_local_id (container w) + 1 < 2 ^ 31)%Z →
  ∃ id w', create_local_session w sid k = Ret (id, w') ∧ invariant w'.
Proof.
  intros Hw Hpc Hids. pose proof Hw as [Hwf Hat Hhs Hwk Hpr Hpe]. rewrite Hpc in *.
  unfold create_local_session. rewrite incremented_ok by done. simpl. rewrite bool_decide_false.
  2: { intros [s Hs]. pose proof (wf_local _ Hwf _ _ Hs). lia. }
  eexists _, _. split; [done|]. split; simpl; rewrite ?Hpc; try done.
  - destruct Hwf. split; simpl; try done.
    + by rewrite Hhs.
    + intros id s [[<- _]|[_ ?%wf_local0]]%lookup_insert_Some; lia.
    + intros id Hid. apply lookup_insert_is_Some'. right. by apply wf_main0.
    + by rewrite Hpc.
  - destruct Hpr as [?|Hp]; [by left|right]. unfold progress in *. simpl. rewrite Hpc in *.
    destruct Hp as (Hrx & Ht & Hr). split; [done|]. split; [|done]. destruct Ht as [Ht|?]; [left|by right].
    unfold main_session in *. simpl. destruct (main_session_id (container w)) as [m|] eqn:Hm; [|done].
    simpl in *. destruct (wf_main _ Hwf m Hm) as [s Hs]. congruence.
Qed.

Lemma run_target_ok t w key :
  invariant w → pc w = Outside →
  invariant (run_target to_string t w key) ∧ pc (run_target to_string t w key) = Outside.
Proof.
  intros Hw Hpc. pose proof Hw as [Hwf Hat Hhs Hwk Hpr Hpe]. rewrite Hpc in *. unfold run_target.
  destruct (target_sessions (container w) !! key) as [ts|] eqn:Hts; [|done].
  destruct t as [sid|sid|sid]; [split; [by apply set_state_invariant|done]..|].
  destruct (attached ts); [done|]. split; [|done]. apply set_state_invariant; [|done|done].
  destruct (wf_targets _ Hwf key ts Hts) as [Hid Hch].
  split; simpl; rewrite ?Hpc; try done.
  - apply (wf_same w); try done; [|by simpl; rewrite Hpc].
    apply targets_known_insert; [exact (wf_known w Hwf)|done|done].
  - destruct Hpr as [?|Hp]; [by left|right]. unfold progress in *. simpl. rewrite Hpc in *.
    destruct Hp as (Hrx & Ht & Hr). split; [done|]. split; [|done]. destruct Ht as [Ht|Ht]; [by left|right].
    intros key' ts' i ch. simpl. intros [[<- <-]|[_ Hts']]%lookup_insert_Some Hi Hchi; simpl in *.
    + by eapply (Ht key).
    + by eapply (Ht key').
Qed.

Lemma run_spawned_ok w : invariant w → pc w = Outside →
  ∃ w', run_spawned to_string order w = Ret w' ∧ invariant w'.
Proof.
  intros Hw Hpc. unfold run_spawned. destruct (spawned (state w)) as [|t l]; [by exists w|].
  rewrite Hpc. eexists. split; [done|].
  assert (invariant (set_state w (set_spawned (state w) l)) ∧ pc (set_state w (set_spawned (state w) l)) = Outside)
    as [Hi Hp].
  { split; [|done]. apply set_state_invariant; [done|done|]. pose proof (inv_pending _ Hw) as H.
    by rewrite Hpc in H. }
  revert Hi Hp. generalize (set_state w (set_spawned (state w) l)). 
  induction (order (target_sessions (container w))) as [|key keys IH]; intros w0 Hi Hp; [done|].
  simpl. destruct (run_target_ok t w0 key Hi Hp). by apply IH.
Qed.

Lemma new_ok v : ∃ w, inspector_new v = Ret w ∧ invariant w.
Proof.
  unfold inspector_new. simpl. eexists. split; [done|]. split; simpl; try done.
  - split; simpl; try done.
    all: (by intros s ?%elem_of_nil) || (intros ? ?; by rewrite lookup_empty).
  - intros s ?%elem_of_nil. done.
  - split; [by left|by split].
  - by right.
Qed.

Lemma exec_ok a w : invariant w → ids_ok w → legal w a →
  ∃ w', exec v8_dispatch from_str to_string order a w = Ret w' ∧ invariant w'.
Proof.
  intros Hw Hids Hl. destruct a as [| | | | |sid k|id msg| |p|i msg|i|i msg|i|]; simpl in *.
  - destruct (pc w) as [| |sid| |main [|key todo] has gone| |sid| |b|] eqn:Hpc; [done|..].
    all: eauto using handshake_step, greet_step, accept_step, after_workers_step, poll_worker_step,
      established_step, pump_step, drain_step, decide_step, park_step.
  - by apply event_loop_ok.
  - by apply interrupt_ok.
  - unfold run_message_loop_on_pause. destruct (pause_ok w (set_flags (state w) true (waiting_for_session (state w))) Hw Hl)
      as (w' & -> & Hi). by exists w'.
  - unfold wait_for_session. case_bool_decide.
    + destruct (pause_ok w (set_flags (state w) (on_pause (state w)) true) Hw Hl) as (w' & -> & Hi). by exists w'.
    + eexists. split; [done|]. apply set_state_invariant; [done|done|]. pose proof (inv_pending _ Hw) as Hp.
      by rewrite Hl in Hp.
  - destruct Hl as (Hl & _ & Hn).
    assert (next_local_id (container w) + 1 < 2 ^ 31)%Z as Hid by (unfold ids_used in Hn; repeat case_match; lia).
    destruct (local_session_ok w sid k Hw Hl Hid) as (id & w' & -> & Hi). by exists w'.
  - destruct Hl as [Hl [sid Hs]]. unfold dispatch_from_frontend. rewrite Hs. simpl. eexists. split; [done|].
    apply set_state_invariant; [done|done|]. rewrite dispatch_pending. pose proof (inv_pending _ Hw) as Hp.
    by rewrite Hl in Hp.
  - by apply run_spawned_ok.
  - by apply connect_ok.
  - by apply frontend_sends_ok.
  - by apply frontend_leaves_ok.
  - by apply worker_sends_ok.
  - by apply worker_ends_ok.
  - done.
Qed.

(** ** Ids *)

Definition ids_kept w w' : Prop :=
  (ids_used w' <= ids_used w)%Z ∧
  (next_worker_id (container w) <= next_local_id (container w) →
   next_worker_id (container w') <= next_local_id (container w'))%Z.

(** Nothing that ids depend on has changed. *)
Definition same_ids w w' : Prop :=
  next_local_id (container w') = next_local_id (container w) ∧
  next_worker_id (container w') = next_worker_id (container w) ∧
  length (queue (session_rx (container w'))) = length (queue (session_rx (container w))) ∧
  handshake (container w') = handshake (container w).
Lemma same_ids_kept w w' :
  same_ids w w' → match pc w' with Greet _ => pc w = pc w' | _ => True end → ids_kept w w'.
Proof.
  intros (H1 & H2 & H3 & H4) Hpc. unfold ids_kept, ids_used. rewrite H1, H2, H3, H4. split; [|done].
  destruct (pc w') eqn:E; rewrite ?Hpc; destruct (pc w); simpl; lia.
Qed.

Lemma notify_ids w k w' : notify w k = Ret w' → same_ids w w' ∧ pc w' = pc w.
Proof.
  unfold notify. destruct k as [[|sid]|]; [|destruct (bool_decide _)|].
  - destruct (wake (waker w)); by intros [= <-].
  - simpl. destruct (waker_set _); [destruct (wake (waker w))|]; by intros [= <-].
  - by intros [= <-].
  - by intros [= <-].
Qed.

Lemma pump_turn_same w sid me r w' :
  pump_turn v8_dispatch from_str to_string w sid me = Ret (r, w') → container w' = container w ∧ pc w' = pc w.
Proof.
  unfold pump_turn. destruct (receivers w !! sid) as [c|]; [|done]. simpl.
  destruct (chan_poll me c) as [[[msg|]|] c']; by intros [= <- <-].
Qed.

Lemma accept_worker_ids w rx url :
  let c := container (accept_worker to_string w rx url) in
  next_local_id c = (next_local_id (container w) + 1)%Z ∧ next_worker_id c = (next_worker_id (container w) + 1)%Z ∧
  session_rx c = session_rx (container w) ∧ handshake c = handshake (container w).
Proof.
  unfold accept_worker, register_worker_channels, register_worker_session. simpl.
  destruct (head _) as [[key ts]|]; simpl; (destruct (main_session _) as [main|]; [|done]);
    (destruct (_ !! _) as [ts'|]; [|done]); by destruct (discover_targets_enabled _), (auto_attach_enabled _).
Qed.

Lemma poll_step_ids w w' : poll_step v8_dispatch from_str to_string order w = Ret w' → ids_kept w w'.
Proof.
  unfold poll_step.
  assert (∀ w1, same_ids w w1 → match pc w1 with Greet _ => pc w = pc w1 | _ => True end → Ret w1 = Ret w' → ids_kept w w') as Hsame.
  { intros w1 Hs Hpc [= <-]. by apply same_ids_kept. }
  destruct (pc w) as [| |sid| |main [|key todo] has gone| |sid| |b|] eqn:Hpc; try (apply Hsame; simpl; by rewrite ?Hpc).
  - destruct (handshake (container w)) as [sid|] eqn:Hh; [|by apply Hsame].
    unfold pump_start. simpl. destruct (sessions _ !! _); [|done]. destruct (_ || _); [done|].
    intros [= <-]. unfold ids_kept, ids_used. simpl. rewrite Hh, Hpc. split; [lia|done].
  - unfold greet. destruct (pump_turn _ _ _ w sid WInspector) as [[r w1]|] eqn:Hp; [|done]. simpl.
    apply pump_turn_same in Hp as [Hc Hpc1]. rewrite Hpc in Hpc1.
    destruct r as [[|]|]; [apply Hsame; [by unfold same_ids; rewrite Hc|by rewrite Hpc1]|..];
      intros [= <-]%incremented_inv; unfold ids_kept, ids_used; simpl; rewrite Hc, Hpc; simpl; split; lia.
  - unfold accept. destruct (session_rx (container w)) as [[|pr q] o k] eqn:Hrx; unfold chan_poll; simpl.
    + destruct o; simpl; (destruct (main_session _); apply Hsame; unfold same_ids; simpl; by rewrite ?Hrx).
    + destruct pr as [i kd|i u].
      * unfold accept_session. simpl. destruct (negb _); [done|]. destruct (handshake _) eqn:Hh; [done|].
        intros [= <-]. unfold ids_kept, ids_used. simpl. rewrite Hrx, Hh, Hpc. simpl. split; [lia|done].
      * intros [= <-]%incremented_inv%incremented_inv.
        destruct (accept_worker_ids (set_container w (set_session_rx (container w) (mkChan q o k))) i u) as (E1 & E2 & E3 & E4).
        unfold ids_kept, ids_used. simpl. rewrite E1, E2, E3, E4, Hrx, Hpc. simpl. split; lia.
  - apply Hsame; [done|]. unfold after_workers. simpl. by destruct has, (bool_decide (gone = [])).
  - unfold poll_worker. destruct (_ !! _) as [ts|]; [destruct (channels ts) as [i|]|]; [|by apply Hsame..].
    destruct (worker_receivers w !! i); [|done]. simpl. destruct (chan_poll _ _) as [[[]|] c']; by apply Hsame.
  - unfold poll_established. destruct (bool_decide _); [by apply Hsame|]. destruct (ready _); by apply Hsame.
  - unfold pump. destruct (pump_turn _ _ _ w sid (WPump sid)) as [[r w1]|] eqn:Hp; [|done]. simpl.
    apply pump_turn_same in Hp as [Hc Hpc1]. rewrite Hpc in Hpc1.
    destruct r as [[|]|]; apply Hsame; unfold same_ids; simpl; rewrite ?Hc; try done. by rewrite Hpc1.
  - unfold decide_state. destruct (poll_state _); [done|..|done|done]; [by apply Hsame|]. destruct b; by apply Hsame.
  - destruct (unparked _); apply Hsame; try done. by rewrite Hpc.
Qed.

Lemma exec_ids a w w' : legal w a → exec v8_dispatch from_str to_string order a w = Ret w' → ids_ok w → ids_ok w'.
Proof.
  intros Hl He Hids.
  assert (ids_kept w w' → ids_ok w') as Hkept by (unfold ids_kept, ids_ok in *; intros; lia).
  assert (∀ w1, same_ids w w1 → pc w1 = pc w ∨ pc w1 = Outside ∨ pc w1 = Handshake → w1 = w' → ids_ok w') as Hsame.
  { intros w1 Hs Hpc <-. apply Hkept, same_ids_kept; [done|]. by destruct Hpc as [->|[->| ->]]; [destruct (pc w)|..]. }
  assert (∀ w0 w1 cx r, poll_sessions w0 cx = Ret (r, w1) →
    container w1 = container w0 ∧ (pc w1 = pc w0 ∨ pc w1 = Outside ∨ pc w1 = Handshake)) as Hps.
  { intros w0 w1 cx r. unfold poll_sessions. destruct (pc w0) eqn:Hpc; [destruct (poll_state _)|..];
      intros [= <- <-]; simpl; auto. }
  assert (∀ w0 k, notify w0 k = Ret w' → same_ids w w0 → pc w0 = pc w → ids_ok w') as Hnot.
  { intros w0 k Hn Hs Hpc. apply notify_ids in Hn as [Hn Hpc']. apply (Hsame w'); [|left; congruence|done].
    unfold same_ids in *. intuition congruence. }
  destruct a as [| | | | |sid k|id msg| |pr|i msg|i|i msg|i|]; simpl in *; revert He.
  - intros He. by apply Hkept, poll_step_ids.
  - unfold poll_sessions_from_event_loop. destruct (poll_sessions _ _) as [[[] w1]|] eqn:He; [|done|done].
    intros [= <-]. apply Hps in He as [Hc Hpc]. apply (Hsame w1); [by unfold same_ids; rewrite Hc|done..].
  - unfold handle_interrupt, ignore. destruct (poll_sessions _ _) as [[r w1]|] eqn:He; [|done].
    intros [= <-]. apply Hps in He as [Hc Hpc]. apply (Hsame w1); [by unfold same_ids; rewrite Hc|done..].
  - unfold run_message_loop_on_pause, ignore. destruct (poll_sessions _ _) as [[r w1]|] eqn:He; [|done].
    intros [= <-]. apply Hps in He as [Hc Hpc]. apply (Hsame w1); [by unfold same_ids; rewrite Hc|done..].
  - unfold wait_for_session. destruct (bool_decide _).
    + destruct (poll_sessions _ _) as [[[] w1]|] eqn:He; [|done|done]. intros [= <-].
      apply Hps in He as [Hc Hpc]. apply (Hsame w1); [by unfold same_ids; rewrite Hc|done..].
    + intros [= <-]. eapply Hsame; [| |reflexivity]; [done|by left].
  - destruct Hl as (_ & _ & Hn). unfold create_local_session. intros He.
    apply bind_Ret_inv in He as ([id w1] & He%incremented_inv & [= <-]). destruct (bool_decide _); [done|].
    injection He as _ <-. unfold ids_ok, ids_used in *. simpl. destruct Hids. split; lia.
  - unfold dispatch_from_frontend. destruct (_ !! _); [|done]. intros [= <-]. eapply Hsame; [| |reflexivity]; [done|by left].
  - unfold run_spawned. destruct (spawned _) as [|tk l]; [by intros [= <-]|].
    destruct (pc w) eqn:Hpc; try done. intros [= <-]. apply Hkept, same_ids_kept.
    + generalize (order (target_sessions (container w))) as keys. intros keys.
      assert (same_ids w (set_state w (set_spawned (state w) l))) as Hs by done. revert Hs.
      generalize (set_state w (set_spawned (state w) l)). induction keys as [|key keys IH]; intros w0 Hs; [done|].
      simpl. apply IH. unfold run_target. destruct (_ !! _) as [ts|]; [|done]. destruct tk; try done.
      by destruct (attached ts).
    + assert (∀ keys w0, pc w0 = Outside → pc (foldl (run_target to_string tk) w0 keys) = Outside) as Hf.
      { induction keys as [|key keys IH]; intros w0 H0; [done|]. simpl. apply IH. unfold run_target.
        destruct (_ !! _) as [ts|]; [|done]. destruct tk; try done. by destruct (attached ts). }
      by rewrite Hf.
  - destruct Hl as [_ Hn]. unfold connect, chan_send. intros He. apply notify_ids in He as [(E1 & E2 & E3 & E4) Hpc].
    unfold ids_ok, ids_used in *. rewrite E1, E2, E3, E4, Hpc. destruct pr; simpl; rewrite length_app; simpl; lia.
  - unfold frontend_sends. destruct (_ !! _) as [ch|]; [destruct (open ch); [intros He; eapply Hnot; [exact He|done..]|]|];
      intros [= <-]; done.
  - unfold frontend_leaves. destruct (_ !! _) as [ch|]; [|by intros [= <-]].
    destruct (chan_close ch) as [k ch']. intros He. eapply Hnot; [exact He|done..].
  - unfold worker_sends. destruct (_ !! _) as [ch|]; [destruct (open ch); [intros He; eapply Hnot; [exact He|done..]|]|];
      intros [= <-]; done.
  - unfold worker_ends. destruct (_ !! _) as [ch|]; [|by intros [= <-]].
    destruct (chan_close ch) as [k ch']. intros He. eapply Hnot; [exact He|done..].
  - done.
Qed.

Lemma reachable_ids w : reachable v8_dispatch from_str to_string order w → ids_ok w.
Proof.
  induction 1 as [v w Hn|w a w' _ IH Hl He]; [|by eapply exec_ids].
  unfold inspector_new in Hn. simpl in Hn. injection Hn as <-. done.
Qed.

Lemma reachable_invariant w : reachable v8_dispatch from_str to_string order w → invariant w.
Proof.
  induction 1 as [v w Hn|w a w' Hr IH Hl He].
  - destruct (new_ok v) as (w' & He & Hi). rewrite Hn in He. by injection He as ->.
  - destruct (exec_ok a w IH (reachable_ids w Hr) Hl) as (w2 & He2 & Hi). rewrite He in He2. by injection He2 as ->.
Qed.
End invariant.
