(* ===== verification/InspectorRuns.v ===== *)
(** Runs of the inspector: [poll_sessions] comes to an end, messages reach their workers in
    order, sessions are never forgotten; the theorems about [Inspector]. *)

From S2P Require Import Prelude Inspector.

(** * The end of [poll_sessions]

    Every step uses up something that was there, or moves on.  [items] counts what is
    there, [rank] how far the turn is. *)

Definition total {A} (m : gmap nat (chan A)) : nat := map_fold (λ _ c n, length (queue c) + n) 0 m.

Lemma total_delete {A} (m : gmap nat (chan A)) i c :
  m !! i = Some c → total m = length (queue c) + total (delete i m).
Proof. intros Hi. apply (map_fold_delete_L (λ _ (c : chan A) n, length (queue c) + n) 0 i c m); [|done].
  intros. lia. Qed.

Lemma total_insert {A} (m : gmap nat (chan A)) i c c' :
  m !! i = Some c → total (<[i := c']> m) + length (queue c) = total m + length (queue c').
Proof.
  intros Hi. rewrite (total_delete m i c Hi), (total_delete (<[i := c']> m) i c') by apply lookup_insert_eq.
  rewrite delete_insert_eq. lia.
Qed.

Lemma chan_poll_length {A} me (c c' : chan A) r :
  chan_poll me c = (r, c') →
  match r with Ready (Some _) => length (queue c) = S (length (queue c')) | _ => queue c = queue c' end.
Proof.
  unfold chan_poll. destruct c as [[|x q] o k]; simpl; [destruct o|]; by intros [= <- <-].
Qed.

Section termination.
Context {V : Type} (v8_dispatch : nat → string → V → V * list v8_call)
  (from_str : string → option json) (to_string : json → string)
  (order : gmap string TargetSession → list string).
Implicit Types (w : world V).

Definition gone_of (pc : poll_pc) : list string := match pc with Workers _ _ _ gone => gone | _ => [] end.

Definition remaining_targets w : gmap string TargetSession :=
  remove_targets (gone_of (pc w)) (target_sessions (container w)).

Definition items w : nat :=
  let c := container w in
  total (receivers w) + total (worker_receivers w) + 7 * length (queue (session_rx c)) +
  (match handshake c with Some _ => 5 | None => 0 end) + (match pc w with Greet _ => 4 | _ => 0 end) +
  2 * length (established c) + length (ready c) + size (remaining_targets w) +
  (if decide (poll_state (waker w) = Woken) then 1 else 0) + (if unparked (waker w) then 1 else 0).

Definition rank w : nat :=
  let n := length (order (remaining_targets w)) in
  match pc w with
  | Outside | Park => 0
  | Decide _ => 1
  | Drain => 2
  | Established => 3
  | Pump _ => 4
  | Workers _ todo has gone => if has || negb (bool_decide (gone = [])) then 9 + n + length todo else 5 + length todo
  | Accept => 6 + n
  | Handshake => 7 + n
  | Greet _ => 8 + n
  end.

Definition smaller w w' : Prop := items w' < items w ∨ (items w' = items w ∧ rank w' < rank w).

(** Where the thread of the runtime may stay. *)
Definition at_rest w : Prop := pc w = Outside ∨ (pc w = Park ∧ unparked (waker w) = false).
#[local] Instance at_rest_dec w : Decision (at_rest w).
Proof. unfold at_rest. apply _. Defined.

(** The loop of [poll_sessions], with nobody else in between. *)
Fixpoint poll_run (fuel : nat) w : outcome (world V) :=
  if decide (at_rest w) then Ret w
  else match fuel with
       | 0 => Panic OutOfFuel
       | S fuel => w ← poll_step v8_dispatch from_str to_string order w; poll_run fuel w
       end.

Lemma remove_targets_snoc gone key t : remove_targets (gone ++ [key]) t = delete key (remove_targets gone t).
Proof. unfold remove_targets. by rewrite foldl_app. Qed.

Lemma pump_turn_items w w' sid me r :
  pump_turn v8_dispatch from_str to_string w sid me = Ret (r, w') →
  container w' = container w ∧ waker w' = waker w ∧ worker_receivers w' = worker_receivers w ∧ pc w' = pc w ∧
  match r with Ready true => total (receivers w) = S (total (receivers w')) | _ => total (receivers w') = total (receivers w) end.
Proof.
  unfold pump_turn. destruct (receivers w !! sid) as [c|] eqn:Hc; [|done]. simpl.
  destruct (chan_poll me c) as [r0 c'] eqn:Hp. pose proof (chan_poll_length me c c' r0 Hp) as Hl.
  pose proof (total_insert (receivers w) sid c c' Hc) as Ht.
  destruct r0 as [[msg|]|]; intros [= <- <-]; simpl; (split_and!; [done..|]); [lia| |]; rewrite Hl in Ht; lia.
Qed.

Lemma handshake_smaller w w' :
  pc w = Handshake → poll_step v8_dispatch from_str to_string order w = Ret w' → smaller w w'.
Proof.
  unfold poll_step, smaller, items, rank, remaining_targets. intros Hpc. rewrite Hpc.
  destruct (handshake (container w)) as [sid|] eqn:Hh.
  - unfold pump_start. simpl. destruct (sessions (state w) !! sid); [|done].
    destruct (_ || _); [done|]. intros [= <-]. simpl. left. lia.
  - intros [= <-]. simpl. rewrite Hh. right. lia.
Qed.

Lemma greet_smaller w w' sid :
  pc w = Greet sid → poll_step v8_dispatch from_str to_string order w = Ret w' → smaller w w'.
Proof.
  unfold poll_step, greet. intros Hpc. rewrite Hpc.
  destruct (pump_turn _ _ _ w sid WInspector) as [[r w1]|] eqn:Hp; [|done]. simpl.
  destruct (pump_turn_items _ _ _ _ _ Hp) as (E1 & E2 & E3 & E4 & E5).
  unfold smaller, items, rank, remaining_targets. rewrite Hpc in E4.
  destruct r as [[|]|]; try intros He%incremented_inv; injection 1 as <- || injection He as <-; simpl;
    rewrite ?E1, ?E2, ?E3, ?E4, ?Hpc; simpl; left; rewrite ?length_app; simpl; lia.
Qed.

Lemma pump_smaller w w' sid :
  sid ∈ established (container w) →
  pc w = Pump sid → poll_step v8_dispatch from_str to_string order w = Ret w' → smaller w w'.
Proof.
  unfold poll_step, pump. intros Hsid Hpc. rewrite Hpc.
  destruct (pump_turn _ _ _ w sid (WPump sid)) as [[r w1]|] eqn:Hp; [|done]. simpl.
  destruct (pump_turn_items _ _ _ _ _ Hp) as (E1 & E2 & E3 & E4 & E5).
  unfold smaller, items, rank, remaining_targets. rewrite Hpc in E4.
  destruct r as [[|]|]; intros [= <-]; simpl; rewrite ?E1, ?E2, ?E3, ?E4, ?Hpc; simpl; [left; lia| |right; lia].
  left. pose proof (length_filter (λ x, x ≠ sid) (ready (container w))).
  assert (length (filter (λ x, x ≠ sid) (established (container w))) < length (established (container w))).
  { apply (length_filter_lt _ _ sid); auto. }
  lia.
Qed.

Lemma size_insert_le {A} (m : gmap string A) k x : size (<[k := x]> m) <= S (size m).
Proof. rewrite map_size_insert. destruct (m !! k); simpl; lia. Qed.

Lemma register_worker_channels_size c lid rx :
  size (target_sessions (register_worker_channels c lid rx).2) <= S (size (target_sessions c)).
Proof.
  unfold register_worker_channels. destruct (head _) as [[key ts]|]; simpl; [|lia]. apply size_insert_le.
Qed.

Lemma accept_worker_targets w rx url :
  size (target_sessions (container (accept_worker to_string w rx url))) <= 3 + size (target_sessions (container w)).
Proof.
  unfold accept_worker. destruct (register_worker_session _ _ _) as [n c1] eqn:E1.
  destruct (register_worker_channels _ _ _) as [b c2] eqn:E2.
  assert (size (target_sessions c2) <= 2 + size (target_sessions (container w))) as Hc2.
  { pose proof (register_worker_channels_size c1 (next_local_id (container w)) rx) as H. rewrite E2 in H.
    simpl in H. injection E1 as _ <-. simpl in H.
    etransitivity; [apply H|]. apply le_n_S, size_insert_le. }
  destruct (main_session _) as [main|]; [|simpl; lia].
  destruct (_ !! _) as [ts|]; [|simpl; lia].
  destruct (discover_targets_enabled _), (auto_attach_enabled _); simpl;
    (etransitivity; [apply size_insert_le|]; lia) || lia.
Qed.

Lemma accept_smaller w w' :
  well_formed w → pc w = Accept → poll_step v8_dispatch from_str to_string order w = Ret w' → smaller w w'.
Proof.
  unfold poll_step, accept. intros Hwf Hpc. rewrite Hpc.
  destruct (chan_poll WInspector (session_rx (container w))) as [r rx] eqn:Hr.
  pose proof (chan_poll_length _ _ _ _ Hr) as Hl.
  assert (∀ x, match r with Ready (Some _) => False | _ => True end →
    match main_session (container w) with
    | Some main => x = set_pc (set_container w (set_session_rx (container w) rx))
        (Workers main (order (target_sessions (container w))) false [])
    | None => x = set_pc (set_container w (set_session_rx (container w) rx)) Established
    end → smaller w x) as Hdone.
  { intros x Hx Hm. assert (queue rx = queue (session_rx (container w))) as Hq by by destruct r as [[]|].
    unfold smaller, items, rank, remaining_targets. rewrite Hpc.
    destruct (main_session (container w)); subst x; simpl; rewrite Hq; right; lia. }
  destruct r as [[[i k|i u]|]|]; simpl.
  - unfold accept_session. simpl. destruct (negb _); [done|].
    destruct (handshake (container w)) eqn:Hh; [done|]. intros [= <-].
    unfold smaller, items, rank, remaining_targets. rewrite Hpc. simpl. rewrite Hh. left. lia.
  - intros [= <-]%incremented_inv%incremented_inv. set (w1 := set_container w (set_session_rx (container w) rx)).
    destruct (accept_worker_ok v8_dispatch from_str to_string w1 i u (λ _, True)) as (Hs & _ & H1 & H2 & H3 & _); [|done|].
    { intros key ts Hts. split; [by apply (wf_targets _ Hwf)|done]. }
    destruct Hs as (E1 & E2 & E3 & E4 & E5 & _).
    pose proof (accept_worker_targets w1 i u) as Hsz.
    unfold smaller, items, rank, remaining_targets. rewrite Hpc. simpl in *.
    rewrite H1, H2, H3, E2, E3, E4, E5. left. simpl. lia.
  - intros He. apply Hdone; [done|]. simpl in He. change (main_session (set_session_rx (container w) rx)) with
      (main_session (container w)) in He. destruct (main_session (container w)); by injection He as <-.
  - intros He. apply Hdone; [done|]. simpl in He. change (main_session (set_session_rx (container w) rx)) with
      (main_session (container w)) in He. destruct (main_session (container w)); by injection He as <-.
Qed.

Lemma workers_smaller w w' main key todo has gone :
  well_formed w → pc w = Workers main (key :: todo) has gone →
  poll_step v8_dispatch from_str to_string order w = Ret w' → smaller w w'.
Proof.
  unfold poll_step, poll_worker. intros Hwf Hpc. rewrite Hpc.
  assert (smaller w (set_pc w (Workers main todo has gone))) as Hskip.
  { unfold smaller, items, rank, remaining_targets. rewrite Hpc. simpl. right. split; [done|].
    destruct (_ || _); lia. }
  destruct (target_sessions (container w) !! key) as [ts|] eqn:Hts; [|by intros [= <-]].
  destruct (channels ts) as [i|]; [|by intros [= <-]].
  destruct (worker_receivers w !! i) as [c|] eqn:Hc; [|done]. simpl.
  destruct (chan_poll WInspector c) as [r c'] eqn:Hr.
  pose proof (chan_poll_length _ _ _ _ Hr) as Hl.
  pose proof (total_insert (worker_receivers w) i c c' Hc) as Ht.
  destruct (wf_targets _ Hwf key ts Hts) as [Hid _].
  destruct r as [[msg|]|]; intros [= <-]; unfold smaller, items, rank, remaining_targets; rewrite Hpc; simpl.
  - left. lia.
  - rewrite remove_targets_snoc, Hid. rewrite Hl in Ht.
    destruct (remove_targets gone (target_sessions (container w)) !! key) as [x|] eqn:Hk.
    + left. rewrite map_size_delete_Some by by eexists.
      assert (size (remove_targets gone (target_sessions (container w))) ≠ 0); [|lia].
      intros Hz%map_size_empty_inv. by rewrite Hz, lookup_empty in Hk.
    + right. rewrite delete_id by done. split; [lia|].
      assert (gone ≠ []) as Hg by (intros ->; simpl in Hk; congruence).
      rewrite !bool_decide_false by (try done; by intros [_ ?]%app_eq_nil). rewrite !orb_true_r. lia.
  - right. rewrite Hl in Ht. split; [lia|]. destruct (_ || _); lia.
Qed.

Lemma after_workers_smaller w w' main has gone :
  pc w = Workers main [] has gone →
  poll_step v8_dispatch from_str to_string order w = Ret w' → smaller w w'.
Proof.
  unfold poll_step, after_workers. intros Hpc. rewrite Hpc. intros [= <-].
  unfold smaller, items, rank, remaining_targets. rewrite Hpc. simpl.
  destruct (has || _); simpl; right; lia.
Qed.

Lemma established_smaller w w' :
  pc w = Established → poll_step v8_dispatch from_str to_string order w = Ret w' → smaller w w'.
Proof.
  unfold poll_step, poll_established. intros Hpc. rewrite Hpc. intros [= <-].
  unfold smaller, items, rank, remaining_targets. rewrite Hpc.
  destruct (bool_decide _); simpl; [right; lia|].
  destruct (ready (container w)); simpl; [right|left]; lia.
Qed.

Lemma rest_smaller w w' :
  match pc w with Drain | Decide _ => True | Park => unparked (waker w) = true | _ => False end →
  poll_step v8_dispatch from_str to_string order w = Ret w' → smaller w w'.
Proof.
  unfold poll_step, smaller, items, rank, remaining_targets. intros Hpc.
  destruct (pc w) eqn:He; try done.
  - intros [= <-]. simpl. right. lia.
  - unfold decide_state. destruct (poll_state (waker w)) eqn:Hk; try done.
    + intros [= <-]. simpl. left. lia.
    + destruct should_block; intros [= <-]; simpl; right; lia.
  - rewrite Hpc. intros [= <-]. simpl. left. lia.
Qed.

Lemma step_smaller w w' :
  invariant w → ¬ at_rest w → poll_step v8_dispatch from_str to_string order w = Ret w' → smaller w w'.
Proof.
  intros Hw Hr He. pose proof (inv_wf _ Hw) as Hwf. unfold at_rest in Hr.
  destruct (pc w) as [| |sid| |main [|key todo] has gone| |sid| |b|] eqn:Hpc.
  - tauto.
  - by apply handshake_smaller.
  - by eapply greet_smaller.
  - by apply accept_smaller.
  - by eapply after_workers_smaller.
  - by eapply workers_smaller.
  - by apply established_smaller.
  - eapply pump_smaller; [|done..]. pose proof (wf_pc _ Hwf) as H. by rewrite Hpc in H.
  - apply rest_smaller; [by rewrite Hpc|done].
  - apply rest_smaller; [by rewrite Hpc|done].
  - apply rest_smaller; [|done]. rewrite Hpc. destruct (unparked (waker w)); [done|tauto].
Qed.

Context (order_spec : ∀ t key, is_Some (t !! key) → key ∈ order t).

Lemma poll_run_ends w :
  reachable v8_dispatch from_str to_string order w →
  ∃ fuel w', poll_run fuel w = Ret w' ∧ at_rest w' ∧ reachable v8_dispatch from_str to_string order w'.
Proof.
  remember (items w) as n eqn:Hn. remember (rank w) as m eqn:Hm. revert m w Hn Hm.
  induction n as [n IHn] using lt_wf_ind. intros m. induction m as [m IHm] using lt_wf_ind.
  intros w Hn Hm Hr. destruct (decide (at_rest w)) as [Ha|Ha].
  { exists 0, w. split; [|done]. unfold poll_run. by rewrite decide_True. }
  pose proof (reachable_invariant _ _ _ _ order_spec w Hr) as Hw.
  assert (pc w ≠ Outside) as Hpc by (intros H; apply Ha; by left).
  destruct (exec_ok v8_dispatch from_str to_string order order_spec AStep w Hw (reachable_ids _ _ _ _ w Hr) Hpc)
    as (w1 & He & _).
  assert (reachable v8_dispatch from_str to_string order w1) as Hr1
    by by apply (r_step _ _ _ _ w AStep).
  assert (∃ fuel w', poll_run fuel w1 = Ret w' ∧ at_rest w' ∧ reachable v8_dispatch from_str to_string order w')
    as (fuel & w' & Hrun & H).
  { destruct (step_smaller w w1 Hw Ha He) as [Hlt|[Heq Hlt]].
    - eapply (IHn (items w1)); [lia|reflexivity|reflexivity|done].
    - eapply (IHm (rank w1)); [lia|lia|reflexivity|done]. }
  exists (S fuel), w'. split; [|done]. simpl. rewrite decide_False by done. simpl in He. by rewrite He.
Qed.

Lemma poll_run_mono fuel fuel' w w' : fuel <= fuel' → poll_run fuel w = Ret w' → poll_run fuel' w = Ret w'.
Proof.
  revert fuel' w. induction fuel as [|fuel IH]; intros fuel' w Hle.
  - simpl. case_decide as Ha; [|done]. intros [= <-]. destruct fuel'; simpl; by rewrite decide_True.
  - destruct fuel' as [|fuel']; [lia|]. simpl. case_decide; [done|].
    destruct (poll_step _ _ _ _ w) as [w1|]; [|done]. simpl. apply IH. lia.
Qed.
End termination.

(** * Messages to workers *)

Definition messages_for (key : string) (l : list (string * string)) : list string :=
  (filter (λ x, x.1 = key) l).*2.

Section messages.
Context {V : Type}.
Implicit Types (w : world V).

Lemma deliver_in_order (t : gmap string TargetSession) l m key ts i sent :
  t !! key = Some ts → channels ts = Some i →
  (∀ key' ts', t !! key' = Some ts' → channels ts' = Some i → key' = key) →
  m !! i = Some sent →
  foldl (deliver t) m l !! i = Some (sent ++ messages_for key l).
Proof.
  intros Hts Hi Huniq. revert m sent. induction l as [|[k msg] l IH]; intros m sent Hm.
  { by rewrite app_nil_r. }
  simpl. unfold messages_for. rewrite filter_cons. simpl. destruct (decide (k = key)) as [->|Hne].
  - rewrite (IH _ (sent ++ [msg])); [by rewrite <- app_assoc|].
    unfold deliver, send_to_worker. simpl. rewrite Hts, Hi, lookup_alter_eq, Hm. done.
  - apply IH. unfold deliver, send_to_worker. simpl. destruct (t !! k) as [ts'|] eqn:Hk; [|done].
    destruct (channels ts') as [j|] eqn:Hj; [|done]. rewrite lookup_alter_ne; [done|].
    intros ->. by apply Hne, (Huniq k ts').
Qed.
End messages.

(** * Sessions stay *)

Section kept.
Context {V : Type} (v8_dispatch : nat → string → V → V * list v8_call)
  (from_str : string → option json) (to_string : json → string)
  (order : gmap string TargetSession → list string).
Implicit Types (w : world V).

Definition kept w w' : Prop :=
  ∀ id sid, local (container w) !! id = Some sid → local (container w') !! id = Some sid.

Lemma kept_same w w' : local (container w') = local (container w) → kept w w'.
Proof. intros H id sid. by rewrite H. Qed.

Lemma notify_kept w k w' : notify w k = Ret w' → local (container w') = local (container w).
Proof.
  unfold notify. destruct k as [[|sid]|]; [|destruct (bool_decide _)|].
  - destruct (wake (waker w)); by intros [= <-].
  - simpl. destruct (waker_set _); [destruct (wake (waker w))|]; by intros [= <-].
  - by intros [= <-].
  - by intros [= <-].
Qed.

Lemma insert_local_kept w sid : well_formed w →
  ∀ id s, local (container w) !! id = Some s → local (insert_local (container w) sid) !! id = Some s.
Proof.
  intros Hwf id s Hs. simpl. rewrite lookup_insert_ne; [done|].
  pose proof (wf_local _ Hwf id s Hs). lia.
Qed.

Lemma poll_step_kept w w' : invariant w → poll_step v8_dispatch from_str to_string order w = Ret w' → kept w w'.
Proof.
  intros Hw. pose proof (inv_wf _ Hw) as Hwf. unfold poll_step.
  destruct (pc w) as [| |sid| |main [|key todo] has gone| |sid| |b|] eqn:Hpc.
  - intros [= <-]. by apply kept_same.
  - destruct (handshake _); [unfold pump_start; destruct (sessions _ !! _); [destruct (_ || _)|]|];
      intros [= <-]; by apply kept_same.
  - unfold greet. destruct (pump_turn _ _ _ w sid WInspector) as [[r w1]|] eqn:Hp; [|done]. simpl.
    destruct (pump_turn_items _ _ _ _ _ _ _ _ Hp) as (E1 & _).
    destruct r as [[|]|]; [intros [= <-]; apply kept_same; by rewrite E1|..];
      intros [= <-]%incremented_inv id s Hs; simpl; rewrite E1; by apply insert_local_kept.
  - unfold accept. destruct (chan_poll _ _) as [[[[i k|i u]|]|] rx]; simpl.
    + unfold accept_session. simpl. destruct (negb _); [done|]. destruct (handshake _); [done|].
      intros [= <-]. by apply kept_same.
    + intros [= <-]%incremented_inv%incremented_inv. apply kept_same. simpl.
      destruct (accept_worker_ok v8_dispatch from_str to_string (set_container w (set_session_rx (container w) rx)) i u (λ _, True))
        as (Hs & _); [|done|by destruct Hs as (_ & _ & _ & _ & _ & _ & -> & _)].
      intros key ts Hts. split; [by apply (wf_targets _ Hwf)|done].
    + destruct (main_session _); intros [= <-]; by apply kept_same.
    + destruct (main_session _); intros [= <-]; by apply kept_same.
  - intros [= <-]. by apply kept_same.
  - unfold poll_worker. destruct (_ !! _) as [ts|]; [|intros [= <-]; by apply kept_same].
    destruct (channels ts) as [i|]; [|intros [= <-]; by apply kept_same].
    destruct (worker_receivers w !! i); [|done]. simpl. destruct (chan_poll _ _) as [[[]|] c'];
      intros [= <-]; by apply kept_same.
  - unfold poll_established. destruct (bool_decide _); [|destruct (ready _)]; intros [= <-]; by apply kept_same.
  - unfold pump. destruct (pump_turn _ _ _ w sid (WPump sid)) as [[r w1]|] eqn:Hp; [|done]. simpl.
    destruct (pump_turn_items _ _ _ _ _ _ _ _ Hp) as (E1 & _).
    destruct r as [[|]|]; intros [= <-]; apply kept_same; simpl; by rewrite ?E1.
  - intros [= <-]. by apply kept_same.
  - unfold decide_state. destruct (poll_state _); [done|..|done|done]; [|destruct b]; intros [= <-]; by apply kept_same.
  - destruct (unparked _); intros [= <-]; by apply kept_same.
Qed.

Lemma exec_kept a w w' : invariant w → exec v8_dispatch from_str to_string order a w = Ret w' → kept w w'.
Proof.
  intros Hw.
  assert (∀ w0 cx r w1, container w0 = container w → poll_sessions w0 cx = Ret (r, w1) → kept w w1) as Hps.
  { intros w0 cx r w1 Hc. unfold poll_sessions. destruct (pc w0); [destruct (poll_state _)|..];
      intros [= <- <-]; apply kept_same; simpl; by rewrite Hc. }
  assert (∀ w0 k, container w0 = container w ∨ (∃ rx, container w0 = set_session_rx (container w) rx) →
    notify w0 k = Ret w' → kept w w') as Hn.
  { intros w0 k Hc He. apply kept_same. rewrite (notify_kept _ _ _ He).
    by destruct Hc as [->|[rx ->]]. }
  destruct a as [| | | | |sid k|id msg| |pr|i msg|i|i msg|i|]; simpl.
  - by apply poll_step_kept.
  - unfold poll_sessions_from_event_loop. destruct (poll_sessions _ _) as [[[] w1]|] eqn:He; [|done|done].
    intros [= <-]. by eapply Hps in He.
  - unfold handle_interrupt, ignore. destruct (poll_sessions _ _) as [[r w1]|] eqn:He; [|done].
    intros [= <-]. by eapply Hps in He.
  - unfold run_message_loop_on_pause, ignore. destruct (poll_sessions _ _) as [[r w1]|] eqn:He; [|done].
    intros [= <-]. by eapply Hps in He.
  - unfold wait_for_session. destruct (bool_decide _).
    + destruct (poll_sessions _ _) as [[[] w1]|] eqn:He; [|done|done]. intros [= <-]. by eapply Hps in He.
    + intros [= <-]. by apply kept_same.
  - unfold create_local_session. intros He. apply bind_Ret_inv in He as ([id0 w1] & He%incremented_inv & [= <-]).
    case_bool_decide as Hid; [done|]. injection He as _ <-. intros id s Hs. simpl.
    rewrite lookup_insert_ne; [done|]. intros <-. apply Hid. by eexists.
  - unfold dispatch_from_frontend. destruct (_ !! _); [|done]. intros [= <-]. by apply kept_same.
  - unfold run_spawned. destruct (spawned _) as [|t l]; [intros [= <-]; by apply kept_same|].
    destruct (pc w); try done. intros [= <-]. apply kept_same.
    generalize (order (target_sessions (container w))) as keys. intros keys.
    change (local (container w)) with (local (container (set_state w (set_spawned (state w) l)))).
    generalize (set_state w (set_spawned (state w) l)). induction keys as [|key keys IH]; intros w0; [done|].
    simpl. rewrite IH. unfold run_target. destruct (_ !! _) as [ts|]; [|done]. destruct t; try done.
    by destruct (attached ts).
  - unfold connect, chan_send. apply Hn. right. destruct pr; by eexists.
  - unfold frontend_sends. destruct (_ !! _) as [ch|]; [destruct (open ch)|]; [apply Hn; by left|..];
      intros [= <-]; by apply kept_same.
  - unfold frontend_leaves. destruct (_ !! _) as [ch|]; [apply Hn; by left|]. intros [= <-]. by apply kept_same.
  - unfold worker_sends. destruct (_ !! _) as [ch|]; [destruct (open ch)|]; [apply Hn; by left|..];
      intros [= <-]; by apply kept_same.
  - unfold worker_ends. destruct (_ !! _) as [ch|]; [apply Hn; by left|]. intros [= <-]. by apply kept_same.
  - intros [= <-]. apply kept_same. unfold spurious_return. by destruct (pc w).
Qed.
End kept.

(** * Properties *)

Section properties.
Context {V : Type} (v8_dispatch : nat → string → V → V * list v8_call)
  (from_str : string → option json) (to_string : json → string)
  (order : gmap string TargetSession → list string)
  (order_spec : ∀ t key, is_Some (t !! key) → key ∈ order t).
Implicit Types (w : world V).

(** No debugger that waits to be accepted or has sent anything, no worker with a message for
    a debugger, no message for a worker. *)
Definition nothing_to_do w : Prop :=
  let c := container w in
  handshake c = None ∧ queue (session_rx c) = [] ∧ pending_worker_messages (state w) = [] ∧
  (∀ sid ch, sid ∈ established c → receivers w !! sid = Some ch → queue ch = [] ∧ open ch = true) ∧
  (is_Some (main_session c) → ∀ key ts i ch, target_sessions c !! key = Some ts →
     channels ts = Some i → worker_receivers w !! i = Some ch → queue ch = [] ∧ open ch = true).

Lemma calm_nothing w :
  invariant w → match pc w with Park | Outside => True | _ => False end → calm w → nothing_to_do w.
Proof.
  intros [Hwf Hat Hhs Hwk Hpr Hpe] Hpc ((Hrx & _) & Ht & Hr & _).
  split; [by destruct (pc w)|]. split; [done|]. split; [by destruct (pc w)|]. split.
  - intros sid ch Hsid Hch. destruct (Hat sid Hsid) as [H|(ch' & Hch' & Hq)].
    + by destruct (pc w).
    + rewrite Hr in H. by apply elem_of_nil in H.
    + rewrite Hch in Hch'. injection Hch' as <-. destruct Hq as (? & ? & _). done.
  - intros [m Hm] key ts i ch Hts Hi Hch. destruct Ht as [Ht|Ht]; [congruence|].
    by destruct (Ht key ts i ch Hts Hi Hch) as (? & ? & _).
Qed.

(** C13. The inspector never panics, whatever debuggers, workers and V8 do in between its
    steps, as long as [thread::park] returns only when the thread was unparked, which the
    standard library does not promise ([inspector_gaps] has the panic without it), and fewer
    than 2^31 sessions and workers connect ([legal]); and it misses nothing: when
    [poll_sessions] has returned, the task of the event loop has been woken, or there is
    nothing to do and its waker is registered; when the thread is parked, it has been
    unparked, or there is nothing to do. *)
Theorem inspector_wakeups w :
  reachable v8_dispatch from_str to_string order w →
  (∀ a, legal w a → ∃ w', exec v8_dispatch from_str to_string order a w = Ret w' ∧
     reachable v8_dispatch from_str to_string order w') ∧
  (pc w = Outside → task_woken (waker w) = true ∨ (nothing_to_do w ∧ task_waker (waker w) = true)) ∧
  (pc w = Park → unparked (waker w) = true ∨ (nothing_to_do w ∧ parked_thread (waker w) = true)).
Proof.
  intros Hr. pose proof (reachable_invariant _ _ _ _ order_spec w Hr) as Hw. split; [|split].
  - intros a Hl. destruct (exec_ok v8_dispatch from_str to_string order order_spec a w Hw (reachable_ids _ _ _ _ w Hr) Hl)
      as (w' & He & _).
    exists w'. split; [done|]. by apply (r_step v8_dispatch _ _ _ w a).
  - intros Hpc. destruct (inv_waker _ Hw) as [Hst _]. rewrite Hpc in Hst.
    destruct Hst as [[Hi Ht]|[_ ?]]; [|by left]. apply orb_true_iff in Ht as [Ht|?]; [|by left].
    right. split; [|done]. apply calm_nothing; [done|by rewrite Hpc|].
    destruct (inv_progress _ Hw) as [?|Hp]; [congruence|]. unfold progress in Hp. by rewrite Hpc in Hp.
  - intros Hpc. destruct (inv_waker _ Hw) as [Hst _]. rewrite Hpc in Hst.
    destruct Hst as [(Hi & Ht & _)|[_ ?]]; [|by left].
    right. split; [|done]. apply calm_nothing; [done|by rewrite Hpc|].
    destruct (inv_progress _ Hw) as [?|Hp]; [congruence|]. unfold progress in Hp. by rewrite Hpc in Hp.
Qed.

(** C14. [poll_sessions] comes to an end: when nothing more arrives, its loop returns or
    parks the thread after finitely many steps, from wherever it stands, and with any larger
    fuel all the same. *)
Theorem inspector_polls_end w :
  reachable v8_dispatch from_str to_string order w →
  ∃ fuel w', (∀ fuel', fuel <= fuel' → poll_run v8_dispatch from_str to_string order fuel' w = Ret w') ∧
    at_rest w' ∧ reachable v8_dispatch from_str to_string order w'.
Proof.
  intros Hr. destruct (poll_run_ends v8_dispatch from_str to_string order order_spec w Hr)
    as (fuel & w' & He & Ha & Hr').
  exists fuel, w'. split; [|done]. intros fuel' Hle. by eapply poll_run_mono.
Qed.

(** A message of a debugger that names a worker goes to that worker only, after those sent
    before. *)
Lemma routed_messages f sid msg o key :
  from_str msg = Some (JObj o) → find_field "sessionId" o = Some (JStr key) →
  handle_message v8_dispatch from_str to_string sid f msg =
    queue_worker_message f key (to_string (JObj (obj_remove "sessionId" o))).
Proof. intros Hp Hf. unfold handle_message. rewrite Hp. simpl. by rewrite Hf. Qed.

Lemma drained_in_order w key ts i sent :
  target_sessions (container w) !! key = Some ts → channels ts = Some i →
  (∀ key' ts', target_sessions (container w) !! key' = Some ts' → channels ts' = Some i → key' = key) →
  to_worker w !! i = Some sent →
  to_worker (drain w) !! i = Some (sent ++ messages_for key (pending_worker_messages (state w))) ∧
  pending_worker_messages (state (drain w)) = [].
Proof. intros Hts Hi Hu Hs. split; [|done]. by eapply deliver_in_order. Qed.

(** A session is never forgotten: once one was accepted, [sessions_state] reports activity
    for ever. *)
Lemma active_for_ever w a w' ss :
  reachable v8_dispatch from_str to_string order w → local (container w) ≠ ∅ →
  exec v8_dispatch from_str to_string order a w = Ret w' →
  local (container w') ≠ ∅ ∧ has_active (sessions_state (container w') ss) = true.
Proof.
  intros Hr Hl He. pose proof (reachable_invariant _ _ _ _ order_spec w Hr) as Hw.
  assert (local (container w') ≠ ∅) as Hl'.
  { apply map_choose in Hl as (id & s & Hs). pose proof (exec_kept _ _ _ _ a w w' Hw He id s Hs) as H.
    intros Hn. by rewrite Hn, lookup_empty in H. }
  split; [done|]. simpl. rewrite (bool_decide_false (local (container w') = ∅)) by done.
  by rewrite !orb_true_r.
Qed.
End properties.

(** * A concrete inspector

    V8 keeps the messages that it gets; two messages are JSON. *)

Definition demo_v8 (sid : nat) (msg : string) (v : list string) : list string * list v8_call :=
  (v ++ [msg], []).
Definition demo_from_str (s : string) : option json :=
  if decide (s = "enable") then Some (JObj [("id", JInt 7); ("method", JStr "Target.setAutoAttach")])
  else if decide (s = "[]") then Some (JArr [])
  else None.
Definition demo_to_string (v : json) : string := match v with JObj ((key, _) :: _) => key | _ => "" end.
Definition demo_order (t : gmap string TargetSession) : list string := (map_to_list t).*1.

Lemma demo_order_spec t key : is_Some (t !! key) → key ∈ demo_order t.
Proof.
  intros [ts Hts]. apply list_elem_of_fmap. exists (key, ts). split; [done|]. by apply elem_of_map_to_list.
Qed.

Abbreviation demo_exec := (exec demo_v8 demo_from_str demo_to_string demo_order).
Abbreviation demo_run := (poll_run demo_v8 demo_from_str demo_to_string demo_order 30).
Abbreviation demo_reachable := (reachable demo_v8 demo_from_str demo_to_string demo_order).

(** A debugger has connected that wants the process to wait for it. *)
Definition demo_connect : InspectorSessionProxy := PRegular 0 (NonBlocking true).
Definition demo_idle : outcome (world (list string)) := w ← inspector_new []; demo_run w.
Definition demo_woken : outcome (world (list string)) := w ← demo_idle; demo_exec (AConnect demo_connect) w.
Definition demo_served : outcome (world (list string)) :=
  w ← demo_woken; w ← demo_exec AEventLoop w; demo_run w.

Lemma poll_run_reachable {V : Type} d f t o fuel (w w' : world V) :
  reachable d f t o w → poll_run d f t o fuel w = Ret w' → reachable d f t o w'.
Proof.
  revert w. induction fuel as [|fuel IH]; intros w Hr; simpl; case_decide as Ha; try done.
  - by intros [= <-].
  - by intros [= <-].
  - destruct (poll_step d f t o w) as [w1|] eqn:He; [|done]. simpl. apply IH.
    apply (r_step d f t o w AStep); [done| |done]. intros Hpc. apply Ha. by left.
Qed.

(** What computing tells of them. *)
Definition fresh_channel (w : world (list string)) : Prop :=
  (receivers w !! 0 = None ∧ sessions (state w) !! 0 = None) ∧ ids_used w = 1%Z.
Lemma demo_idle_fresh : ∃ w, demo_idle = Ret w ∧ fresh_channel w.
Proof. eexists. split; [vm_compute; reflexivity|by split]. Qed.
Lemma demo_woken_outside : ∃ w, demo_woken = Ret w ∧ pc w = Outside ∧ poll_state (waker w) = Woken.
Proof. eexists. split; [vm_compute; reflexivity|by split]. Qed.

Lemma demo_idle_reachable w : demo_idle = Ret w → demo_reachable w.
Proof.
  unfold demo_idle. intros H. apply bind_Ret_inv in H as (w0 & H0 & H).
  exact (poll_run_reachable _ _ _ _ 30 w0 w (r_new _ _ _ _ _ _ H0) H).
Qed.

Lemma demo_woken_inv w : demo_woken = Ret w →
  ∃ w1, demo_idle = Ret w1 ∧ fresh_channel w1 ∧ demo_exec (AConnect demo_connect) w1 = Ret w.
Proof.
  unfold demo_woken. intros H. apply bind_Ret_inv in H as (w1 & H1 & H2).
  exists w1. split; [exact H1|]. split; [|exact H2].
  destruct demo_idle_fresh as (w2 & H & Hnew). rewrite H1 in H. injection H as <-. exact Hnew.
Qed.

Lemma demo_woken_reachable w : demo_woken = Ret w → demo_reachable w.
Proof.
  intros (w1 & H1 & Hnew & H2)%demo_woken_inv.
  destruct Hnew as [Hnew Hids].
  apply (r_step _ _ _ _ w1 (AConnect demo_connect)); [by apply demo_idle_reachable|simpl; by rewrite Hids|exact H2].
Qed.

Lemma inspector_wakeups_witness :
  ∃ w, demo_woken = Ret w ∧ demo_reachable w ∧ pc w = Outside ∧ poll_state (waker w) = Woken ∧
    (task_woken (waker w) = true ∨ (nothing_to_do w ∧ task_waker (waker w) = true)).
Proof.
  destruct demo_woken_outside as (w & Hw & Hpc & Hk). pose proof (demo_woken_reachable w Hw) as Hr.
  exists w. split; [exact Hw|]. split; [exact Hr|]. split; [exact Hpc|]. split; [exact Hk|].
  exact (proj1 (proj2 (inspector_wakeups demo_v8 demo_from_str demo_to_string demo_order
    demo_order_spec w Hr)) Hpc).
Defined.

Lemma inspector_polls_end_witness :
  ∃ w fuel w', demo_woken = Ret w ∧
    poll_run demo_v8 demo_from_str demo_to_string demo_order fuel w = Ret w' ∧ at_rest w'.
Proof.
  destruct demo_woken_outside as (w & Hw & _). pose proof (demo_woken_reachable w Hw) as Hr.
  destruct (inspector_polls_end demo_v8 demo_from_str demo_to_string demo_order
    demo_order_spec w Hr) as (fuel & w' & He & Ha & _).
  exists w, fuel, w'. split; [exact Hw|]. split; [apply He; lia|exact Ha].
Defined.

(** * What the code does not do *)

(** The debugger goes away, and the inspector notices. *)
Definition demo_left : outcome (world (list string)) :=
  w ← demo_served; w ← demo_exec (ALeave 0) w; w ← demo_exec AEventLoop w; demo_run w.

(** [wait_for_session], and a debugger that connects. *)
Definition demo_waiting : outcome (world (list string)) :=
  w ← demo_idle; w ← demo_exec AWait w; demo_run w.
Definition demo_arrived : outcome (world (list string)) :=
  w ← demo_waiting; w ← demo_exec (AConnect demo_connect) w; demo_run w.

(** Sessions whose debugger is gone still count: the event loop waits for ever for a
    debugger that has disconnected ([active_for_ever]), and a debugger that connects later
    is not the main session, which gets the events of workers; [wait_for_session] goes on to
    wait when a session is established; a spurious return of [thread::park] reaches
    [unreachable!()]; a message of a worker that is JSON but no object is dropped. *)
Lemma inspector_gaps :
  (∃ w, demo_left = Ret w ∧ pc w = Outside ∧ established (container w) = [] ∧
     sessions_state (container w) (sessions (state w)) = mkSessionsState true false true true ∧
     ∃ w', (w ← demo_exec (AConnect (PRegular 1 Blocking)) w; w ← demo_exec AEventLoop w; demo_run w) = Ret w' ∧
       established (container w') = [1] ∧ main_session (container w') = Some 0) ∧
  (∃ w, demo_arrived = Ret w ∧ pc w = Park ∧ poll_state (waker w) = Parked ∧
     local (container w) = {[1%Z := 0]} ∧ (w ← demo_exec ASpurious w; demo_run w) = Panic Unreachable) ∧
  (∀ (f : front (list string)) ts, nodeworker_enabled f = false →
     forward_worker_message demo_from_str demo_to_string f ts (mkMsg Notification "[]") = None).
Proof.
  split; [|split].
  - eexists. split; [vm_compute; reflexivity|]. split; [done|]. split; [done|]. split; [done|].
    eexists. split; [vm_compute; reflexivity|]. by split.
  - eexists. split; [vm_compute; reflexivity|]. split; [done|]. split; [done|]. split; [done|]. by vm_compute.
  - intros f ts Hf. unfold forward_worker_message. by rewrite Hf.
Qed.
