(* ===== verification/UvLoop.v ===== *)
(** [core/uv_compat.rs]: the replacement for libuv.

    Holds handles in memory, timers, the watchers of the idle, prepare and check phases,
    closing, TCP handles with their connects, backlogs, reads and write queues, and the
    phases that [poll_event_loop_inner] runs.  C callbacks, sockets and the clock are a
    [uv_host].  A handle that was freed is not in the heap: touching it is [BadMemory].
    Left out: fields that only C reads ([data], the handle of a request, [internal_fd]), the
    waker, which is passed to the sockets, the no-ops ([uv_update_time], [uv_tcp_keepalive],
    [uv_tcp_simultaneous_accepts]) and [uv_ip4_addr], which parses with the standard
    library.  [UvHandles] has the invariant, [UvClient] the rules for C code, [UvPhases] and
    [UvStreams] the theorems. *)

From S2P Require Import Prelude.

Local Open Scope Z_scope.

(** * Handles *)

Inductive uv_handle_type := UV_UNKNOWN_HANDLE | UV_TIMER | UV_IDLE | UV_PREPARE | UV_CHECK | UV_TCP.
Global Instance uv_handle_type_eq_dec : EqDecision uv_handle_type.
Proof. solve_decision. Defined.

Definition UV_HANDLE_ACTIVE : Z := Z.shiftl 1 0.
Definition UV_HANDLE_REF : Z := Z.shiftl 1 1.
Definition UV_HANDLE_CLOSING : Z := Z.shiftl 1 2.

(** On Linux. *)
Definition UV_EAGAIN : Z := -11.
Definition UV_EBADF : Z := -9.
Definition UV_EADDRINUSE : Z := -98.
Definition UV_ECONNREFUSED : Z := -111.
Definition UV_EINVAL : Z := -22.
Definition UV_ENOTCONN : Z := -107.
Definition UV_ECANCELED : Z := -125.
Definition UV_EPIPE : Z := -32.
Definition UV_EOF : Z := -4095.

(** Pointers to handles and requests, callbacks, sockets and futures are known by
    identity. *)
Abbreviation ptr := Z (only parsing).
Abbreviation callback := Z (only parsing).
Abbreviation socket := Z (only parsing).
Abbreviation byte := Z (only parsing).

Inductive sockaddr :=
  | V4 (ip : Z) (port : Z)
  | V6 (octets : list Z) (port flowinfo scope_id : Z).

Record ConnectPending := mkConnect { cp_future : Z; cp_req : ptr; cp_cb : option callback }.

Record WritePending := mkWrite {
  wp_req : ptr;
  wp_data : list byte;
  wp_offset : Z;
  wp_cb : option callback
}.

Record uv_tcp := mkTcp {
  internal_bind_addr : option sockaddr;
  internal_stream : option socket;
  internal_listener : option socket;
  internal_listener_addr : option sockaddr;
  internal_nodelay : bool;
  internal_alloc_cb : option callback;
  internal_read_cb : option callback;
  internal_reading : bool;
  internal_connect : option ConnectPending;
  internal_write_queue : list WritePending;
  internal_connection_cb : option callback;
  internal_backlog : list socket
}.

(** The fields of every kind of handle; [cb], [internal_id] to [repeat] are those of
    timers ([cb] also of watchers), [tcp] those of TCP handles. *)
Record uv_handle := mkHandle {
  type : uv_handle_type;
  flags : Z;
  cb : option callback;
  internal_id : Z;
  internal_deadline : Z;
  timeout : Z;
  repeat : Z;
  tcp : uv_tcp
}.

(** * The loop *)

Abbreviation TimerKey := (Z * Z)%type (only parsing).  (** deadline and id *)

Record UvLoopInner := mkLoop {
  timers : list (Z * Z);  (** a [BTreeSet]: sorted, without duplicates *)
  next_timer_id : Z;
  timer_handles : gmap Z ptr;
  idle_handles : list ptr;
  prepare_handles : list ptr;
  check_handles : list ptr;
  tcp_handles : list ptr;
  closing_handles : list (ptr * option callback)
}.

Definition UvLoopInner_new : UvLoopInner := mkLoop [] 1 ∅ [] [] [] [] [].

(** What a C callback is called with. *)
Inductive invocation :=
  | OnTimer (c : callback) (h : ptr)
  | OnWatcher (ty : uv_handle_type) (c : callback) (h : ptr)
  | OnClose (c : callback) (h : ptr)
  | OnConnect (c : callback) (req : ptr) (status : Z)
  | OnConnection (c : callback) (h : ptr)
  | OnRead (c : callback) (h : ptr) (nread : Z)
  | OnWrite (c : callback) (req : ptr) (status : Z)
  | OnShutdown (c : callback) (req : ptr) (status : Z).

Inductive io (A : Type) := Done (a : A) | WouldBlock | Failed.
Arguments Done {A} a.
Arguments WouldBlock {A}.
Arguments Failed {A}.

(** Questions to the sockets. *)
Inductive sock_query : Type → Type :=
  | PollConnect (future : Z) : sock_query (poll (option socket))
  | PollAccept (listener : socket) : sock_query (poll (option socket))
  | TryRead (s : socket) (len : Z) : sock_query (io Z)
  | TryWrite (s : socket) (data : list byte) : sock_query (io Z)
  | TryWriteVectored (s : socket) (bufs : list (list byte)) : sock_query (io Z)
  | StartConnect (addr : sockaddr) : sock_query Z
  | Bind (addr : sockaddr) : sock_query (option (option (socket * option sockaddr)))
  | OpenFd (fd : Z) : sock_query (option socket)
  | SetNodelay (s : socket) (enabled : bool) : sock_query bool
  | PeerAddr (s : socket) : sock_query (option sockaddr)
  | LocalAddr (s : socket) : sock_query (option sockaddr)
  | ShutdownWrite (s : socket) : sock_query bool.

(** Calls into C: a callback, or the allocation of a buffer ([None]: its base is null). *)
Inductive c_entry : Type → Type :=
  | Call (i : invocation) : c_entry unit
  | Alloc (c : callback) (h : ptr) (suggested : Z) : c_entry (option Z).

(** [called] lists the callbacks that were called, [sent] the bytes each socket took. *)
Record ustate (J : Type) := mkU {
  world : J;
  now : Z;
  inner : option UvLoopInner;
  heap : gmap ptr uv_handle;
  called : list invocation;
  sent : list (socket * list byte)
}.
Arguments mkU {J}.
Arguments world {J}.
Arguments now {J}.
Arguments inner {J}.
Arguments heap {J}.
Arguments called {J}.
Arguments sent {J}.

Record uv_host (J : Type) := mkUvHost {
  ask_sock : ∀ A, sock_query A → J → A * J;
  enter_c : ∀ A, c_entry A → ustate J → outcome (A * ustate J)
}.
Arguments mkUvHost {J}.
Arguments ask_sock {J} _ {A} _ _.
Arguments enter_c {J} _ {A} _ _.

Abbreviation umethod J := (stateM (ustate J)) (only parsing).

(** ** Fields *)

Definition set_flags (x : uv_handle) (f : Z) : uv_handle :=
  mkHandle (type x) f (cb x) (internal_id x) (internal_deadline x) (timeout x) (repeat x) (tcp x).
Definition set_cb (x : uv_handle) (c : option callback) : uv_handle :=
  mkHandle (type x) (flags x) c (internal_id x) (internal_deadline x) (timeout x) (repeat x) (tcp x).
Definition set_deadline (x : uv_handle) (id deadline : Z) : uv_handle :=
  mkHandle (type x) (flags x) (cb x) id deadline (timeout x) (repeat x) (tcp x).
Definition set_repeat (x : uv_handle) (r : Z) : uv_handle :=
  mkHandle (type x) (flags x) (cb x) (internal_id x) (internal_deadline x) (timeout x) r (tcp x).
Definition set_tcp (x : uv_handle) (t : uv_tcp) : uv_handle :=
  mkHandle (type x) (flags x) (cb x) (internal_id x) (internal_deadline x) (timeout x) (repeat x) t.

Definition set_timers (l : UvLoopInner) ts n hs : UvLoopInner :=
  mkLoop ts n hs (idle_handles l) (prepare_handles l) (check_handles l) (tcp_handles l)
    (closing_handles l).
Definition set_tcp_handles (l : UvLoopInner) ts : UvLoopInner :=
  mkLoop (timers l) (next_timer_id l) (timer_handles l) (idle_handles l) (prepare_handles l)
    (check_handles l) ts (closing_handles l).
Definition set_closing (l : UvLoopInner) q : UvLoopInner :=
  mkLoop (timers l) (next_timer_id l) (timer_handles l) (idle_handles l) (prepare_handles l)
    (check_handles l) (tcp_handles l) q.

(** The list of the watchers of a type. *)
Definition watchers (ty : uv_handle_type) (l : UvLoopInner) : list ptr :=
  match ty with
  | UV_IDLE => idle_handles l
  | UV_PREPARE => prepare_handles l
  | UV_CHECK => check_handles l
  | _ => []
  end.
Definition set_watchers (ty : uv_handle_type) (l : UvLoopInner) (hs : list ptr) : UvLoopInner :=
  match ty with
  | UV_IDLE => mkLoop (timers l) (next_timer_id l) (timer_handles l) hs (prepare_handles l)
      (check_handles l) (tcp_handles l) (closing_handles l)
  | UV_PREPARE => mkLoop (timers l) (next_timer_id l) (timer_handles l) (idle_handles l) hs
      (check_handles l) (tcp_handles l) (closing_handles l)
  | UV_CHECK => mkLoop (timers l) (next_timer_id l) (timer_handles l) (idle_handles l)
      (prepare_handles l) hs (tcp_handles l) (closing_handles l)
  | _ => l
  end.

Definition has_flag (f b : Z) : bool := negb (Z.land f b =? 0).
Definition is_active (x : uv_handle) : bool := has_flag (flags x) UV_HANDLE_ACTIVE.
Definition activate (x : uv_handle) : uv_handle := set_flags x (Z.lor (flags x) UV_HANDLE_ACTIVE).
Definition deactivate (x : uv_handle) : uv_handle :=
  set_flags x (Z.ldiff (flags x) UV_HANDLE_ACTIVE).

Section uv.
Context (p : profile) {J : Type} (H : uv_host J).
Abbreviation U := (umethod J).
Implicit Types (h : ptr).

Definition lift_u {A} (o : outcome A) : U A := λ s, a ← o; Ret (a, s).
Definition sock {A} (q : sock_query A) : U A := λ s,
  let '(a, j) := ask_sock H q (world s) in
  Ret (a, mkU j (now s) (inner s) (heap s) (called s) (sent s)).

(** A callback is called. *)
Definition call (i : invocation) : U unit := λ s,
  enter_c H (Call i) (mkU (world s) (now s) (inner s) (heap s) (called s ++ [i]) (sent s)).
Definition call_opt (c : option callback) (i : callback → invocation) : U unit :=
  match c with Some c => call (i c) | None => mret tt end.
Definition alloc (c : callback) h : U (option Z) := λ s, enter_c H (Alloc c h 65536) s.

(** [get_inner] and [&*handle]: a null or dangling pointer must not be read. *)
Definition get_inner : U UvLoopInner := λ s,
  match inner s with Some l => Ret (l, s) | None => Panic BadMemory end.
Definition put_inner (l : UvLoopInner) : U unit := λ s,
  Ret (tt, mkU (world s) (now s) (Some l) (heap s) (called s) (sent s)).
Definition read h : U uv_handle := λ s,
  match heap s !! h with Some x => Ret (x, s) | None => Panic BadMemory end.
Definition write h (x : uv_handle) : U unit := λ s,
  Ret (tt, mkU (world s) (now s) (inner s) (<[h := x]> (heap s)) (called s) (sent s)).
Definition on_handle h (f : uv_handle → uv_handle) : U unit := x ← read h; write h (f x).
Definition on_tcp h (f : uv_tcp → uv_tcp) : U unit := on_handle h (λ x, set_tcp x (f (tcp x))).
Definition now_ms : U Z := λ s, Ret (now s, s).

(** ** Timers *)

Definition key_lt (a b : Z * Z) : bool :=
  (a.1 <? b.1) || ((a.1 =? b.1) && (a.2 <? b.2)).

(** [BTreeSet::insert] and [remove]. *)
Fixpoint key_insert (k : Z * Z) (l : list (Z * Z)) : list (Z * Z) :=
  match l with
  | [] => [k]
  | a :: l => if key_lt k a then k :: a :: l
              else if bool_decide (k = a) then a :: l else a :: key_insert k l
  end.
Definition key_remove (k : Z * Z) (l : list (Z * Z)) : list (Z * Z) := filter (λ a, a ≠ k) l.

Definition alloc_timer_id : U Z :=
  l ← get_inner;
  n ← lift_u (add_w p 64 (next_timer_id l) 1);
  _ ← put_inner (set_timers l (timers l) n (timer_handles l));
  mret (next_timer_id l).

Definition stop_timer h : U unit :=
  x ← read h;
  l ← get_inner;
  _ ← (if decide (internal_id x ≠ 0) then
         put_inner (set_timers l
           (key_remove (internal_deadline x, internal_id x) (timers l)) (next_timer_id l)
           (delete (internal_id x) (timer_handles l)))
       else mret tt);
  write h (deactivate x).

(** The end of [uv_timer_start] and [uv_timer_again]. *)
Definition insert_timer h (id deadline : Z) : U unit :=
  l ← get_inner;
  put_inner (set_timers l (key_insert (deadline, id) (timers l)) (next_timer_id l)
    (<[id := h]> (timer_handles l))).

Definition tcp_init : uv_tcp := mkTcp None None None None false None None false None [] None [].

Definition uv_timer_init h : U Z :=
  _ ← write h (mkHandle UV_TIMER UV_HANDLE_REF None 0 0 0 0 tcp_init);
  mret 0.

Definition uv_timer_start h (c : callback) (timeout repeat : Z) : U Z :=
  x ← read h;
  _ ← get_inner;
  _ ← (if is_active x then stop_timer h else mret tt);
  id ← alloc_timer_id;
  n ← now_ms;
  deadline ← lift_u (add_w p 64 n timeout);
  x ← read h;
  _ ← write h (activate (mkHandle (type x) (flags x) (Some c) id deadline timeout repeat (tcp x)));
  _ ← insert_timer h id deadline;
  mret 0.

Definition uv_timer_stop h : U Z := λ s,
  match inner s with
  | None => (_ ← on_handle h deactivate; mret 0) s
  | Some _ => (_ ← stop_timer h; mret 0) s
  end.

Definition uv_timer_again h : U Z :=
  x ← read h;
  if repeat x =? 0 then mret UV_EINVAL
  else
    _ ← stop_timer h;
    id ← alloc_timer_id;
    n ← now_ms;
    deadline ← lift_u (add_w p 64 n (repeat x));
    _ ← on_handle h (λ x, activate (set_deadline x id deadline));
    _ ← insert_timer h id deadline;
    mret 0.

Definition uv_timer_get_repeat h : U Z := x ← read h; mret (repeat x).
Definition uv_timer_set_repeat h (r : Z) : U unit := on_handle h (λ x, set_repeat x r).

(** [run_timers]: the keys that have expired, in order. *)
Fixpoint expired_keys (n : Z) (l : list (Z * Z)) : list (Z * Z) :=
  match l with
  | [] => []
  | k :: l => if n <? k.1 then [] else k :: expired_keys n l
  end.

(** One expired key. *)
Definition fire_timer (n : Z) (k : Z * Z) : U unit :=
  l ← get_inner;
  _ ← put_inner (set_timers l (key_remove k (timers l)) (next_timer_id l) (timer_handles l));
  match timer_handles l !! k.2 with
  | None => mret tt
  | Some h =>
      x ← read h;
      l ← get_inner;
      if negb (is_active x) then
        put_inner (set_timers l (timers l) (next_timer_id l) (delete k.2 (timer_handles l)))
      else
        _ ← (if 0 <? repeat x then
               new_deadline ← lift_u (add_w p 64 n (repeat x));
               _ ← write h (set_deadline x (internal_id x) new_deadline);
               put_inner (set_timers l (key_insert (new_deadline, k.2) (timers l))
                 (next_timer_id l) (timer_handles l))
             else
               _ ← write h (deactivate x);
               put_inner (set_timers l (timers l) (next_timer_id l)
                 (delete k.2 (timer_handles l))));
        call_opt (cb x) (λ c, OnTimer c h)
  end.

Fixpoint fire_timers (n : Z) (ks : list (Z * Z)) : U unit :=
  match ks with
  | [] => mret tt
  | k :: ks => _ ← fire_timer n k; fire_timers n ks
  end.

Definition run_timers : U unit :=
  n ← now_ms;
  l ← get_inner;
  fire_timers n (expired_keys n (timers l)).

(** ** Idle, prepare and check watchers; the three have the same code *)

Definition uv_watcher_init (ty : uv_handle_type) h : U Z :=
  _ ← write h (mkHandle ty UV_HANDLE_REF None 0 0 0 0 tcp_init);
  mret 0.

Definition uv_watcher_start (ty : uv_handle_type) h (c : callback) : U Z :=
  x ← read h;
  if is_active x then _ ← write h (set_cb x (Some c)); mret 0
  else
    _ ← write h (activate (set_cb x (Some c)));
    l ← get_inner;
    _ ← put_inner (set_watchers ty l (watchers ty l ++ [h]));
    mret 0.

Definition stop_watcher (ty : uv_handle_type) h : U unit :=
  l ← get_inner;
  _ ← put_inner (set_watchers ty l (filter (λ h', h' ≠ h) (watchers ty l)));
  on_handle h deactivate.

Definition uv_watcher_stop (ty : uv_handle_type) h : U Z :=
  x ← read h;
  if negb (is_active x) then mret 0
  else
    _ ← get_inner;
    _ ← stop_watcher ty h;
    _ ← on_handle h (λ x, set_cb x None);
    mret 0.

(** [run_idle], [run_prepare], [run_check]: the list is read again for each index, and a
    callback may change it. *)
Fixpoint run_watchers_loop (fuel : nat) (ty : uv_handle_type) (i : nat) : U unit :=
  match fuel with
  | O => lift_u (Panic OutOfFuel)
  | S fuel =>
      l ← get_inner;
      match watchers ty l !! i with
      | None => mret tt
      | Some h =>
          x ← read h;
          _ ← (if is_active x then call_opt (cb x) (λ c, OnWatcher ty c h) else mret tt);
          run_watchers_loop fuel ty (S i)
      end
  end.

Definition run_watchers (fuel : nat) (ty : uv_handle_type) : U unit := run_watchers_loop fuel ty 0.

(** The functions of the source, one per type. *)
Definition uv_idle_init := uv_watcher_init UV_IDLE.
Definition uv_prepare_init := uv_watcher_init UV_PREPARE.
Definition uv_check_init := uv_watcher_init UV_CHECK.
Definition uv_idle_start := uv_watcher_start UV_IDLE.
Definition uv_prepare_start := uv_watcher_start UV_PREPARE.
Definition uv_check_start := uv_watcher_start UV_CHECK.
Definition stop_idle := stop_watcher UV_IDLE.
Definition stop_prepare := stop_watcher UV_PREPARE.
Definition stop_check := stop_watcher UV_CHECK.
Definition uv_idle_stop := uv_watcher_stop UV_IDLE.
Definition uv_prepare_stop := uv_watcher_stop UV_PREPARE.
Definition uv_check_stop := uv_watcher_stop UV_CHECK.
Definition run_idle (fuel : nat) : U unit := run_watchers fuel UV_IDLE.
Definition run_prepare (fuel : nat) : U unit := run_watchers fuel UV_PREPARE.
Definition run_check (fuel : nat) : U unit := run_watchers fuel UV_CHECK.

(** ** Closing *)

Definition stop_tcp h : U unit :=
  l ← get_inner;
  _ ← put_inner (set_tcp_handles l (filter (λ h', h' ≠ h) (tcp_handles l)));
  on_handle h (λ x, deactivate (set_tcp x
    (mkTcp (internal_bind_addr (tcp x)) None None (internal_listener_addr (tcp x))
       (internal_nodelay (tcp x)) None None false None [] None []))).

Definition uv_close h (close_cb : option callback) : U unit :=
  _ ← on_handle h (λ x, deactivate (set_flags x (Z.lor (flags x) UV_HANDLE_CLOSING)));
  _ ← get_inner;
  x ← read h;
  _ ← match type x with
      | UV_TIMER => stop_timer h
      | UV_TCP => stop_tcp h
      | UV_UNKNOWN_HANDLE => mret tt
      | ty => stop_watcher ty h
      end;
  l ← get_inner;
  put_inner (set_closing l (closing_handles l ++ [(h, close_cb)])).

Fixpoint call_closing (snapshot : list (ptr * option callback)) : U unit :=
  match snapshot with
  | [] => mret tt
  | (h, c) :: snapshot => _ ← call_opt c (λ c, OnClose c h); call_closing snapshot
  end.

Definition run_close : U unit :=
  l ← get_inner;
  _ ← put_inner (set_closing l []);
  call_closing (closing_handles l).

(** ** The loop and its handles *)

Definition uv_loop_init : U Z := λ s,
  Ret (0, mkU (world s) (now s) (Some UvLoopInner_new) (heap s) (called s) (sent s)).
Definition uv_loop_close : U Z := λ s,
  Ret (0, mkU (world s) (now s) None (heap s) (called s) (sent s)).
Definition uv_now : U Z := _ ← get_inner; now_ms.

Definition uv_ref h : U unit :=
  on_handle h (λ x, set_flags x (Z.lor (flags x) UV_HANDLE_REF)).
Definition uv_unref h : U unit :=
  on_handle h (λ x, set_flags x (Z.ldiff (flags x) UV_HANDLE_REF)).
Definition uv_is_active h : U Z := x ← read h; mret (if is_active x then 1 else 0).
Definition uv_is_closing h : U Z :=
  x ← read h; mret (if has_flag (flags x) UV_HANDLE_CLOSING then 1 else 0).

Definition is_alive (x : uv_handle) : bool := is_active x && has_flag (flags x) UV_HANDLE_REF.

Fixpoint any_alive (hs : list ptr) : U bool :=
  match hs with
  | [] => mret false
  | h :: hs => x ← read h; if is_alive x then mret true else any_alive hs
  end.

(** [has_alive_handles]: the lists one after the other. *)
Definition has_alive_handles : U bool :=
  l ← get_inner;
  alive ← any_alive ((map_to_list (timer_handles l)).*2 ++ idle_handles l ++ prepare_handles l
            ++ check_handles l ++ tcp_handles l);
  mret (alive || match closing_handles l with [] => false | _ => true end).

(** ** Addresses *)

(** [u16::to_be] and [u32::to_be] on a little-endian machine, and back. *)
Definition swap16 (x : Z) : Z := Z.lor (Z.shiftl (Z.land x 255) 8) (Z.shiftr x 8).
Definition swap32 (x : Z) : Z :=
  Z.lor (Z.shiftl (swap16 (Z.land x 65535)) 16) (swap16 (Z.shiftr x 16)).

(** The bytes in memory, by their family: [AF_INET], [AF_INET6] or another one. *)
Inductive raw_sockaddr :=
  | sockaddr_in (sin_port s_addr : Z)
  | sockaddr_in6 (sin6_port : Z) (s6_addr : list Z) (sin6_flowinfo sin6_scope_id : Z)
  | sockaddr_other (sa_family : Z).

Definition sockaddr_to_std (addr : raw_sockaddr) : option sockaddr :=
  match addr with
  | sockaddr_in port s => Some (V4 (swap32 s) (swap16 port))
  | sockaddr_in6 port a _ _ => Some (V6 a (swap16 port) 0 0)
  | sockaddr_other _ => None
  end.

Definition std_to_sockaddr (addr : sockaddr) : raw_sockaddr :=
  match addr with
  | V4 ip port => sockaddr_in (swap16 port) (swap32 ip)
  | V6 octets port _ scope => sockaddr_in6 (swap16 port) octets 0 scope
  end.

(** ** TCP *)

Definition uv_tcp_init h : U Z :=
  _ ← write h (mkHandle UV_TCP UV_HANDLE_REF None 0 0 0 0 tcp_init); mret 0.

Definition set_stream (t : uv_tcp) (s : option socket) : uv_tcp :=
  mkTcp (internal_bind_addr t) s (internal_listener t) (internal_listener_addr t)
    (internal_nodelay t) (internal_alloc_cb t) (internal_read_cb t) (internal_reading t)
    (internal_connect t) (internal_write_queue t) (internal_connection_cb t)
    (internal_backlog t).
Definition set_connect (t : uv_tcp) (c : option ConnectPending) : uv_tcp :=
  mkTcp (internal_bind_addr t) (internal_stream t) (internal_listener t)
    (internal_listener_addr t) (internal_nodelay t) (internal_alloc_cb t)
    (internal_read_cb t) (internal_reading t) c (internal_write_queue t)
    (internal_connection_cb t) (internal_backlog t).
Definition set_reading (t : uv_tcp) (b : bool) a r : uv_tcp :=
  mkTcp (internal_bind_addr t) (internal_stream t) (internal_listener t)
    (internal_listener_addr t) (internal_nodelay t) a r b (internal_connect t)
    (internal_write_queue t) (internal_connection_cb t) (internal_backlog t).
Definition set_queue (t : uv_tcp) q : uv_tcp :=
  mkTcp (internal_bind_addr t) (internal_stream t) (internal_listener t)
    (internal_listener_addr t) (internal_nodelay t) (internal_alloc_cb t)
    (internal_read_cb t) (internal_reading t) (internal_connect t) q
    (internal_connection_cb t) (internal_backlog t).
Definition set_backlog (t : uv_tcp) b : uv_tcp :=
  mkTcp (internal_bind_addr t) (internal_stream t) (internal_listener t)
    (internal_listener_addr t) (internal_nodelay t) (internal_alloc_cb t)
    (internal_read_cb t) (internal_reading t) (internal_connect t) (internal_write_queue t)
    (internal_connection_cb t) b.
Definition set_listener (t : uv_tcp) ls addr c : uv_tcp :=
  mkTcp (internal_bind_addr t) (internal_stream t) ls addr (internal_nodelay t)
    (internal_alloc_cb t) (internal_read_cb t) (internal_reading t) (internal_connect t)
    (internal_write_queue t) c (internal_backlog t).
Definition set_address (t : uv_tcp) nodelay addr : uv_tcp :=
  mkTcp addr (internal_stream t) (internal_listener t) (internal_listener_addr t) nodelay
    (internal_alloc_cb t) (internal_read_cb t) (internal_reading t) (internal_connect t)
    (internal_write_queue t) (internal_connection_cb t) (internal_backlog t).

(** A socket that becomes the stream of a handle. *)
Definition adopt_stream h (s : socket) : U unit :=
  x ← read h;
  _ ← (if internal_nodelay (tcp x) then _ ← sock (SetNodelay s true); mret tt else mret tt);
  on_tcp h (λ t, set_stream t (Some s)).

Definition uv_tcp_open h (fd : Z) : U Z :=
  r ← sock (OpenFd fd);
  match r with
  | Some stream => _ ← adopt_stream h stream; mret 0
  | None => mret UV_EINVAL
  end.

Definition uv_tcp_bind h (addr : raw_sockaddr) : U Z :=
  match sockaddr_to_std addr with
  | Some sa => _ ← on_tcp h (λ t, set_address t (internal_nodelay t) (Some sa)); mret 0
  | None => mret UV_EINVAL
  end.

(** Registers a TCP handle with the loop, once. *)
Definition register_tcp h : U unit :=
  l ← get_inner;
  if bool_decide (h ∈ tcp_handles l) then mret tt
  else put_inner (set_tcp_handles l (tcp_handles l ++ [h])).

Definition uv_tcp_connect (req : ptr) h (addr : raw_sockaddr) (c : option callback) : U Z :=
  match sockaddr_to_std addr with
  | None => mret UV_EINVAL
  | Some sa =>
      _ ← get_inner;
      _ ← on_handle h activate;
      _ ← register_tcp h;
      future ← sock (StartConnect sa);
      _ ← on_tcp h (λ t, set_connect t (Some (mkConnect future req c)));
      mret 0
  end.

Definition uv_tcp_nodelay h (enable : Z) : U Z :=
  let enabled := negb (enable =? 0) in
  _ ← on_tcp h (λ t, set_address t enabled (internal_bind_addr t));
  x ← read h;
  match internal_stream (tcp x) with
  | Some stream =>
      ok ← sock (SetNodelay stream enabled);
      mret (if (ok : bool) then 0 else UV_EINVAL)
  | None => mret 0
  end.

(** The address is an output: [None] leaves it alone. *)
Definition uv_tcp_getpeername h : U (Z * option raw_sockaddr) :=
  x ← read h;
  match internal_stream (tcp x) with
  | Some stream =>
      addr ← sock (PeerAddr stream);
      mret (match addr with Some a => (0, Some (std_to_sockaddr a)) | None => (UV_ENOTCONN, None) end)
  | None => mret (UV_ENOTCONN, None)
  end.

Definition uv_tcp_getsockname h : U (Z * option raw_sockaddr) :=
  x ← read h;
  match internal_stream (tcp x) with
  | Some stream =>
      addr ← sock (LocalAddr stream);
      mret (match addr with Some a => (0, Some (std_to_sockaddr a)) | None => (UV_EINVAL, None) end)
  | None =>
      mret (match internal_listener_addr (tcp x), internal_bind_addr (tcp x) with
            | Some a, _ => (0, Some (std_to_sockaddr a))
            | None, Some a => (0, Some (std_to_sockaddr a))
            | None, None => (UV_EINVAL, None)
            end)
  end.

Definition uv_listen h (c : option callback) : U Z :=
  x ← read h;
  let bind_addr := default (V4 0 0) (internal_bind_addr (tcp x)) in
  r ← sock (Bind bind_addr);
  match r with
  | None => mret UV_EADDRINUSE
  | Some None => mret UV_EINVAL
  | Some (Some (listener, addr)) =>
      _ ← on_handle h (λ x, activate (set_tcp x (set_listener (tcp x) (Some listener) addr c)));
      _ ← register_tcp h;
      mret 0
  end.

Definition uv_accept server client : U Z :=
  x ← read server;
  match internal_backlog (tcp x) with
  | stream :: backlog =>
      _ ← on_tcp server (λ t, set_backlog t backlog);
      _ ← adopt_stream client stream;
      mret 0
  | [] => _ ← read client; mret UV_EAGAIN
  end.

Definition uv_read_start h (a r : option callback) : U Z :=
  _ ← on_handle h (λ x, activate (set_tcp x (set_reading (tcp x) true a r)));
  _ ← register_tcp h;
  mret 0.

Definition uv_read_stop h : U Z :=
  _ ← on_tcp h (λ t, set_reading t false None None);
  x ← read h;
  let t := tcp x in
  _ ← match internal_connection_cb t, internal_connect t, internal_write_queue t with
      | None, None, [] => write h (deactivate x)
      | _, _, _ => mret tt
      end;
  mret 0.

(** *** Writing *)

(** [try_write] on a socket, which takes a prefix of the data. *)
Definition try_write (stream : socket) (data : list byte) : U (io Z) := λ s,
  let '(r, j) := ask_sock H (TryWrite stream data) (world s) in
  Ret (r, mkU j (now s) (inner s) (heap s) (called s)
            (match r with
             | Done n => sent s ++ [(stream, ztake n data)]
             | _ => sent s
             end)).

Definition try_write_vectored (stream : socket) (bufs : list (list byte)) : U (io Z) := λ s,
  let '(r, j) := ask_sock H (TryWriteVectored stream bufs) (world s) in
  Ret (r, mkU j (now s) (inner s) (heap s) (called s)
            (match r with
             | Done n => sent s ++ [(stream, ztake n (concat bufs))]
             | _ => sent s
             end)).

(** [n as i32]. *)
Definition as_i32 (n : Z) : Z := (n + 2 ^ 31) mod 2 ^ 32 - 2 ^ 31.

Definition uv_try_write h (data : list byte) : U Z :=
  x ← read h;
  match internal_write_queue (tcp x) with
  | _ :: _ => mret UV_EAGAIN
  | [] =>
      match internal_stream (tcp x) with
      | None => mret UV_EBADF
      | Some stream =>
          r ← try_write stream data;
          mret (match r with Done n => as_i32 n | WouldBlock => UV_EAGAIN | Failed => UV_EPIPE end)
      end
  end.

(** A [uv_buf_t]: [None] has a null base. *)
Definition collect_bufs (bufs : list (option (list byte))) : list byte :=
  concat (map (default []) bufs).

Definition push_write h (req : ptr) (data : list byte) (c : option callback) : U unit :=
  on_tcp h (λ t, set_queue t (internal_write_queue t ++ [mkWrite req data 0 c])).

(** The loop of [uv_write] for one buffer: the status for the callback, or [None] when the
    rest was queued. *)
Fixpoint write_one (fuel : nat) h (req : ptr) (stream : socket) (data : list byte)
    (offset : Z) (c : option callback) : U (option Z) :=
  match fuel with
  | O => lift_u (Panic OutOfFuel)
  | S fuel =>
      r ← try_write stream (zdrop offset data);
      match r with
      | Done n =>
          if zlen data <=? offset + n then mret (Some 0)
          else write_one fuel h req stream data (offset + n) c
      | WouldBlock => _ ← push_write h req (zdrop offset data) c; mret None
      | Failed => mret (Some UV_EPIPE)
      end
  end.

(** What is left of several buffers after [n] bytes. *)
Fixpoint skip_bufs (skip : Z) (iovecs : list (list byte)) : list byte :=
  match iovecs with
  | [] => []
  | iov :: iovecs =>
      if zlen iov <=? skip then skip_bufs (skip - zlen iov) iovecs
      else zdrop skip iov ++ skip_bufs 0 iovecs
  end.

(** [uv_write] up to the call of the callback, which always comes last. *)
Definition start_write (fuel : nat) (req : ptr) h (bufs : list (option (list byte)))
    (c : option callback) : U (option Z) :=
  x ← read h;
  match internal_stream (tcp x) with
  | None => mret (Some UV_ENOTCONN)
  | Some stream =>
      match internal_write_queue (tcp x) with
      | _ :: _ => _ ← push_write h req (collect_bufs bufs) c; mret None
      | [] =>
          match bufs with
          | [buf] =>
              match default [] buf with
              | [] => mret (Some 0)
              | data => write_one fuel h req stream data 0 c
              end
          | _ =>
              let iovecs := filter (λ b, b ≠ []) (map (default []) bufs) in
              let total_len := zlen (concat iovecs) in
              if total_len =? 0 then mret (Some 0)
              else
                r ← try_write_vectored stream iovecs;
                match r with
                | Done n =>
                    if total_len <=? n then mret (Some 0)
                    else _ ← push_write h req (skip_bufs n iovecs) c; mret None
                | WouldBlock => _ ← push_write h req (collect_bufs bufs) c; mret None
                | Failed => mret (Some UV_EPIPE)
                end
          end
      end
  end.

Definition uv_write (fuel : nat) (req : ptr) h (bufs : list (option (list byte)))
    (c : option callback) : U Z :=
  status ← start_write fuel req h bufs c;
  _ ← match status with
      | Some status => call_opt c (λ c, OnWrite c req status)
      | None => mret tt
      end;
  mret 0.

Definition start_shutdown h : U Z :=
  x ← read h;
  match internal_stream (tcp x) with
  | Some stream => ok ← sock (ShutdownWrite stream); mret (if (ok : bool) then 0 else UV_ENOTCONN)
  | None => mret UV_ENOTCONN
  end.

Definition uv_shutdown (req : ptr) h (c : option callback) : U Z :=
  status ← start_shutdown h;
  _ ← call_opt c (λ c, OnShutdown c req status);
  mret 0.

(** *** [run_io]; each step re-reads the handle, and returns whether it found work *)

Definition poll_connect h : U unit :=
  x ← read h;
  match internal_connect (tcp x) with
  | None => mret tt
  | Some pending =>
      r ← sock (PollConnect (cp_future pending));
      match r with
      | Pending => mret tt
      | Ready result =>
          status ← match result with
                   | Some stream => _ ← adopt_stream h stream; mret 0
                   | None => mret UV_ECONNREFUSED
                   end;
          _ ← on_tcp h (λ t, set_connect t None);
          call_opt (cp_cb pending) (λ c, OnConnect c (cp_req pending) status)
      end
  end.

Fixpoint accept_loop (fuel : nat) h (listener : socket) (any_work : bool) : U bool :=
  match fuel with
  | O => lift_u (Panic OutOfFuel)
  | S fuel =>
      r ← sock (PollAccept listener);
      match r with
      | Ready (Some stream) =>
          _ ← on_tcp h (λ t, set_backlog t (internal_backlog t ++ [stream]));
          accept_loop fuel h listener true
      | _ => mret any_work
      end
  end.

Fixpoint backlog_loop (fuel : nat) h : U unit :=
  match fuel with
  | O => lift_u (Panic OutOfFuel)
  | S fuel =>
      x ← read h;
      match internal_backlog (tcp x) with
      | [] => mret tt
      | _ :: _ =>
          _ ← call_opt (internal_connection_cb (tcp x)) (λ c, OnConnection c h);
          x ← read h;
          match internal_backlog (tcp x) with
          | [] => backlog_loop fuel h
          | _ :: _ => mret tt
          end
      end
  end.

Definition poll_listener (fuel : nat) h : U bool :=
  x ← read h;
  match internal_listener (tcp x), internal_connection_cb (tcp x) with
  | Some listener, Some _ =>
      any_work ← accept_loop fuel h listener false;
      _ ← backlog_loop fuel h;
      mret any_work
  | _, _ => mret false
  end.

Fixpoint read_loop (fuel : nat) h (alloc_cb read_cb : callback) (any_work : bool) : U bool :=
  match fuel with
  | O => lift_u (Panic OutOfFuel)
  | S fuel =>
      x ← read h;
      match internal_reading (tcp x), internal_stream (tcp x) with
      | true, Some _ =>
          buf ← alloc alloc_cb h;
          match buf with
          | None => mret any_work
          | Some len =>
              if len =? 0 then mret any_work
              else
                x ← read h;
                stream ← lift_u (unwrap (internal_stream (tcp x)));
                r ← sock (TryRead stream len);
                let eof : U bool :=
                  _ ← call (OnRead read_cb h UV_EOF);
                  _ ← on_tcp h (λ t, set_reading t false (internal_alloc_cb t)
                                       (internal_read_cb t));
                  mret any_work in
                match r with
                | Done n =>
                    if n =? 0 then eof
                    else _ ← call (OnRead read_cb h n); read_loop fuel h alloc_cb read_cb true
                | WouldBlock => mret any_work
                | Failed => eof
                end
          end
      | _, _ => mret any_work
      end
  end.

Definition poll_read (fuel : nat) h : U bool :=
  x ← read h;
  let t := tcp x in
  match internal_reading t, internal_stream t, internal_alloc_cb t, internal_read_cb t with
  | true, Some _, Some alloc_cb, Some read_cb => read_loop fuel h alloc_cb read_cb false
  | _, _, _, _ => mret false
  end.

(** The write at the front of the queue: [Some] status when it is over. *)
Fixpoint write_front (fuel : nat) h (stream : socket) : U (option Z) :=
  match fuel with
  | O => lift_u (Panic OutOfFuel)
  | S fuel =>
      x ← read h;
      match internal_write_queue (tcp x) with
      | [] => mret None
      | pw :: queue =>
          if zlen (wp_data pw) <=? wp_offset pw then mret (Some 0)
          else
            r ← try_write stream (zdrop (wp_offset pw) (wp_data pw));
            match r with
            | Done n =>
                _ ← on_tcp h (λ t, set_queue t
                       (mkWrite (wp_req pw) (wp_data pw) (wp_offset pw + n) (wp_cb pw) :: queue));
                write_front fuel h stream
            | WouldBlock => mret None
            | Failed => mret (Some UV_EPIPE)
            end
      end
  end.

Fixpoint drain_writes (fuel : nat) h (stream : socket) : U unit :=
  match fuel with
  | O => lift_u (Panic OutOfFuel)
  | S fuel' =>
      status ← write_front fuel h stream;
      match status with
      | None => mret tt
      | Some status =>
          x ← read h;
          match internal_write_queue (tcp x) with
          | [] => mret tt
          | pw :: queue =>
              _ ← on_tcp h (λ t, set_queue t queue);
              _ ← call_opt (wp_cb pw) (λ c, OnWrite c (wp_req pw) status);
              drain_writes fuel' h stream
          end
      end
  end.

Definition poll_write (fuel : nat) h : U unit :=
  x ← read h;
  match internal_write_queue (tcp x), internal_stream (tcp x) with
  | _ :: _, Some stream => drain_writes fuel h stream
  | _, _ => mret tt
  end.

Definition poll_tcp (fuel : nat) h : U bool :=
  x ← read h;
  if negb (is_active x) then mret false
  else
    _ ← poll_connect h;
    accepted ← poll_listener fuel h;
    got ← poll_read fuel h;
    _ ← poll_write fuel h;
    mret (accepted || got).

Fixpoint io_pass (fuel : nat) (i : nat) (any_work : bool) : U bool :=
  match fuel with
  | O => lift_u (Panic OutOfFuel)
  | S fuel' =>
      l ← get_inner;
      match tcp_handles l !! i with
      | None => mret any_work
      | Some h => w ← poll_tcp fuel h; io_pass fuel' (S i) (any_work || w)
      end
  end.

Fixpoint io_passes (fuel : nat) (passes : nat) (did_any_work : bool) : U bool :=
  match passes with
  | O => mret did_any_work
  | S passes =>
      any_work ← io_pass fuel 0 false;
      if (any_work : bool) then io_passes fuel passes true else mret did_any_work
  end.

Definition run_io (fuel : nat) : U bool := io_passes fuel 16 false.
End uv.
