(* ===== verification/UvHandles.v ===== *)
(** The invariant of [UvLoop]: how handles in memory and the lists of the loop agree.

    Holds the laws of flags and of sorted timer keys, [loop_inv], and that each kind of
    change keeps it: a handle that is initialised, released, started, stopped, closed. *)

From S2P Require Import Prelude UvLoop.
From Stdlib Require Import Sorting.Sorted.

Local Open Scope Z_scope.

Definition is_closing (x : uv_handle) : bool := has_flag (flags x) UV_HANDLE_CLOSING.

(** ** Flags *)

Lemma has_flag_bit f k : 0 <= k → has_flag f (Z.shiftl 1 k) = Z.testbit f k.
Proof.
  intros Hk. unfold has_flag. rewrite Z.shiftl_1_l.
  destruct (Z.testbit f k) eqn:Hb.
  - apply negb_true_iff, Z.eqb_neq. intros Hz.
    assert (Z.testbit (Z.land f (2 ^ k)) k = true) as Ht
      by (rewrite Z.land_spec, Hb, Z.pow2_bits_true; done).
    by rewrite Hz, Z.bits_0 in Ht.
  - apply negb_false_iff, Z.eqb_eq, Z.bits_inj'. intros i Hi.
    rewrite Z.land_spec, Z.bits_0, Z.pow2_bits_eqb by done.
    destruct (Z.eqb_spec k i) as [<-|]; [by rewrite Hb|by rewrite andb_false_r].
Qed.

Definition ACTIVE_bit f : has_flag f UV_HANDLE_ACTIVE = Z.testbit f 0 := has_flag_bit f 0 (Z.le_refl 0).
Definition REF_bit f : has_flag f UV_HANDLE_REF = Z.testbit f 1 := has_flag_bit f 1 Z.le_0_1.
Lemma CLOSING_bit f : has_flag f UV_HANDLE_CLOSING = Z.testbit f 2.
Proof. by apply has_flag_bit. Qed.

(** Setting or clearing a flag changes that flag only. *)
Ltac flag_bits :=
  unfold is_active, is_closing, activate, deactivate, UV_HANDLE_ACTIVE, UV_HANDLE_REF,
    UV_HANDLE_CLOSING in *; simpl;
  rewrite ?has_flag_bit, ?Z.lor_spec, ?Z.ldiff_spec, ?Z.shiftl_1_l, ?Z.pow2_bits_eqb by done;
  simpl; rewrite ?orb_true_r, ?orb_false_r, ?andb_true_r, ?andb_false_r.

Lemma active_activate x : is_active (activate x) = true.
Proof. by flag_bits. Qed.
Lemma active_deactivate x : is_active (deactivate x) = false.
Proof. by flag_bits. Qed.
Lemma closing_activate x : is_closing (activate x) = is_closing x.
Proof. by flag_bits. Qed.
Lemma closing_deactivate x : is_closing (deactivate x) = is_closing x.
Proof. by flag_bits. Qed.
Lemma active_closed x :
  is_active (set_flags x (Z.lor (flags x) UV_HANDLE_CLOSING)) = is_active x.
Proof. by flag_bits. Qed.
Lemma closing_closed x : is_closing (set_flags x (Z.lor (flags x) UV_HANDLE_CLOSING)) = true.
Proof. by flag_bits. Qed.
Lemma active_ref x : is_active (set_flags x (Z.lor (flags x) UV_HANDLE_REF)) = is_active x.
Proof. by flag_bits. Qed.
Lemma active_unref x : is_active (set_flags x (Z.ldiff (flags x) UV_HANDLE_REF)) = is_active x.
Proof. by flag_bits. Qed.
Lemma closing_ref x : is_closing (set_flags x (Z.lor (flags x) UV_HANDLE_REF)) = is_closing x.
Proof. by flag_bits. Qed.
Lemma closing_unref x : is_closing (set_flags x (Z.ldiff (flags x) UV_HANDLE_REF)) = is_closing x.
Proof. by flag_bits. Qed.

(** ** Sorted keys *)

Definition key_order (a b : Z * Z) : Prop := key_lt a b = true.

Lemma key_lt_spec a b : key_lt a b = true ↔ a.1 < b.1 ∨ (a.1 = b.1 ∧ a.2 < b.2).
Proof. unfold key_lt. rewrite orb_true_iff, andb_true_iff, !Z.ltb_lt, Z.eqb_eq. lia. Qed.

Lemma elem_of_key_insert k l a : a ∈ key_insert k l ↔ a = k ∨ a ∈ l.
Proof.
  induction l as [|b l IH]; simpl; [rewrite elem_of_cons, elem_of_nil; tauto|].
  destruct (key_lt k b); [rewrite !elem_of_cons; tauto|].
  case_bool_decide as Hb; [subst; rewrite !elem_of_cons; tauto|].
  rewrite !elem_of_cons, IH. tauto.
Qed.

Lemma elem_of_key_remove k l a : a ∈ key_remove k l ↔ a ≠ k ∧ a ∈ l.
Proof. unfold key_remove. by rewrite list_elem_of_filter. Qed.

Lemma key_insert_sorted k l :
  StronglySorted key_order l → StronglySorted key_order (key_insert k l).
Proof.
  induction 1 as [|b l Hl IH Hb]; simpl; [repeat constructor|].
  destruct (key_lt k b) eqn:Hk.
  - constructor; [by constructor|]. constructor; [done|]. rewrite Forall_forall in *.
    intros x Hx. specialize (Hb x Hx). unfold key_order in *. rewrite key_lt_spec in *. lia.
  - case_bool_decide as Heq; [by constructor|]. constructor; [done|].
    rewrite Forall_forall in *. intros x [->|Hx]%elem_of_key_insert; [|auto].
    unfold key_order. rewrite key_lt_spec.
    apply not_true_iff_false in Hk. rewrite key_lt_spec in Hk.
    destruct (decide (b.1 = k.1)), (decide (b.2 = k.2)); [|lia..].
    destruct Heq. destruct k, b. simpl in *. congruence.
Qed.

Lemma key_remove_sorted k l :
  StronglySorted key_order l → StronglySorted key_order (key_remove k l).
Proof.
  unfold key_remove. induction 1 as [|b l Hl IH Hb]; [constructor|]. rewrite filter_cons.
  case_decide; [|done]. constructor; [done|]. rewrite Forall_forall in *.
  intros x [_ Hx]%list_elem_of_filter. auto.
Qed.

(** * The invariant *)

Definition watcher_type (ty : uv_handle_type) : bool :=
  match ty with UV_IDLE | UV_PREPARE | UV_CHECK => true | _ => false end.

Section inv.
Implicit Types (l : UvLoopInner) (hp : gmap Z uv_handle) (h : Z) (x : uv_handle).

(** Every handle in memory is registered exactly where its type and flags say, and the
    loop points to live handles only. *)
Record loop_inv l hp : Prop := {
  li_sorted : StronglySorted key_order (timers l);
  li_next : 0 < next_timer_id l;
  li_timer : ∀ h x, hp !! h = Some x → type x = UV_TIMER →
    0 <= internal_id x < next_timer_id l ∧
    (is_active x = true → timer_handles l !! internal_id x = Some h ∧ internal_id x ≠ 0);
  li_unique : ∀ h h' x x', hp !! h = Some x → hp !! h' = Some x' → type x = UV_TIMER →
    type x' = UV_TIMER → internal_id x = internal_id x' → internal_id x ≠ 0 → h = h';
  li_registered : ∀ id h, timer_handles l !! id = Some h → ∃ x, hp !! h = Some x ∧
    type x = UV_TIMER ∧ internal_id x = id ∧ is_active x = true ∧
    (internal_deadline x, id) ∈ timers l;
  li_keys : ∀ d id, (d, id) ∈ timers l → ∃ h x, timer_handles l !! id = Some h ∧
    hp !! h = Some x ∧ internal_deadline x = d;
  li_watchers : ∀ ty h, watcher_type ty = true →
    h ∈ watchers ty l ↔ ∃ x, hp !! h = Some x ∧ type x = ty ∧ is_active x = true;
  li_watchers_nodup : ∀ ty, NoDup (watchers ty l);
  li_tcp : ∀ h, h ∈ tcp_handles l → ∃ x, hp !! h = Some x ∧ type x = UV_TCP ∧
    is_closing x = false;
  li_tcp_active : ∀ h x, hp !! h = Some x → type x = UV_TCP → is_active x = true →
    h ∈ tcp_handles l;
  li_tcp_nodup : NoDup (tcp_handles l);
  li_closing : ∀ h, h ∈ (closing_handles l).*1 → ∃ x, hp !! h = Some x ∧ is_closing x = true;
  li_closing_nodup : NoDup (closing_handles l).*1;
  li_closed : ∀ h x, hp !! h = Some x → is_closing x = true → is_active x = false
}.

(** What the invariant reads of a handle. *)
Definition same_core x x' : Prop :=
  type x' = type x ∧ is_active x' = is_active x ∧ is_closing x' = is_closing x ∧
  internal_id x' = internal_id x ∧ internal_deadline x' = internal_deadline x.

Lemma loop_inv_core l hp h x x' :
  loop_inv l hp → hp !! h = Some x → same_core x x' → loop_inv l (<[h := x']> hp).
Proof.
  intros [] Hx (Ht & Ha & Hc & Hid & Hdl).
  assert (∀ h2 y', <[h := x']> hp !! h2 = Some y' → ∃ y, hp !! h2 = Some y ∧ same_core y y') as Hback.
  { intros h2 y' Hy. destruct (decide (h2 = h)) as [->|Hne].
    - rewrite lookup_insert_eq in Hy. injection Hy as <-. by exists x.
    - rewrite lookup_insert_ne in Hy by done. exists y'. done. }
  assert (∀ h2 y, hp !! h2 = Some y → ∃ y', <[h := x']> hp !! h2 = Some y' ∧ same_core y y') as Hforth.
  { intros h2 y Hy. destruct (decide (h2 = h)) as [->|Hne].
    - rewrite lookup_insert_eq. exists x'. split; [done|]. by simplify_eq.
    - rewrite lookup_insert_ne by done. by exists y. }
  split; try done.
  - intros h2 y' (y & Hy & T & A & C & I & D)%Hback Hty. rewrite I, A. rewrite T in Hty. eauto.
  - intros h1 h2 y1' y2' (y1 & Hy1 & T1 & _ & _ & I1 & _)%Hback
      (y2 & Hy2 & T2 & _ & _ & I2 & _)%Hback. rewrite T1, T2, I1, I2. eauto.
  - intros id h2 Hh. destruct (li_registered0 id h2 Hh) as (y & Hy & T & I & A & D).
    destruct (Hforth h2 y Hy) as (y' & Hy' & T' & A' & C' & I' & D'). exists y'.
    rewrite T', A', I', D'. done.
  - intros d id Hk. destruct (li_keys0 d id Hk) as (h2 & y & Hh & Hy & D).
    destruct (Hforth h2 y Hy) as (y' & Hy' & _ & _ & _ & _ & D'). exists h2, y'.
    by rewrite D'.
  - intros ty h2 Hty. rewrite li_watchers0 by done. split.
    + intros (y & (y' & Hy' & T' & A' & _)%Hforth & T & A). exists y'. by rewrite T', A'.
    + intros (y' & (y & Hy & T' & A' & _)%Hback & T & A). exists y. by rewrite <- T', <- A'.
  - intros h2 Hh. destruct (li_tcp0 h2 Hh) as (y & Hy & T & C).
    destruct (Hforth h2 y Hy) as (y' & Hy' & T' & _ & C' & _). exists y'. by rewrite T', C'.
  - intros h2 y' (y & Hy & T & A & _)%Hback. rewrite T, A. eauto.
  - intros h2 Hh. destruct (li_closing0 h2 Hh) as (y & Hy & C).
    destruct (Hforth h2 y Hy) as (y' & Hy' & _ & _ & C' & _). exists y'. by rewrite C'.
  - intros h2 y' (y & Hy & _ & A & C & _)%Hback. rewrite A, C. eauto.
Qed.

(** Cases for the handle that was written. *)
Ltac written :=
  repeat match goal with
  | H : <[_ := _]> _ !! _ = Some _ |- _ =>
      apply lookup_insert_Some in H as [[<- <-]|[? H]]
  end.

Lemma lookup_written hp h x' h2 (P : uv_handle → Prop) :
  (∃ y, hp !! h2 = Some y ∧ P y) → h ≠ h2 → ∃ y, <[h := x']> hp !! h2 = Some y ∧ P y.
Proof. intros (y & Hy & HP) Hne. exists y. by rewrite lookup_insert_ne. Qed.

(** A handle that is in no list. *)
Definition detached l h : Prop :=
  (∀ id, timer_handles l !! id ≠ Some h) ∧ (∀ ty, h ∉ watchers ty l) ∧ h ∉ tcp_handles l.

Lemma unregistered_watcher ty l h : watcher_type ty = false → h ∉ watchers ty l.
Proof. destruct ty; try done; by intros _ Hin%elem_of_nil. Qed.

Lemma absent_detached l hp h : loop_inv l hp → hp !! h = None →
  detached l h ∧ h ∉ (closing_handles l).*1.
Proof.
  intros [] Hh. split; [split; [|split]|].
  - intros id (x & Hx & _)%li_registered0. congruence.
  - intros ty. destruct (watcher_type ty) eqn:Hty; [|by apply unregistered_watcher].
    intros (x & Hx & _)%li_watchers0; [congruence|done].
  - intros (x & Hx & _)%li_tcp0. congruence.
  - intros (x & Hx & _)%li_closing0. congruence.
Qed.

(** C initialises a handle in fresh memory. *)
Lemma loop_inv_init l hp h x :
  loop_inv l hp → hp !! h = None → is_active x = false → is_closing x = false →
  internal_id x = 0 → loop_inv l (<[h := x]> hp).
Proof.
  intros Hinv Hh Ha Hc Hid. destruct (absent_detached l hp h Hinv Hh) as [(D1 & D2 & D3) D4].
  destruct Hinv. split; try done.
  - intros h2 y Hy Hty. written; [split; [lia|congruence]|by apply li_timer0].
  - intros h1 h2 y1 y2 H1 H2 T1 T2 Hi Hn. written; try done; try lia.
    by eapply li_unique0.
  - intros id h2 Hr. apply lookup_written; [by apply li_registered0|]. intros <-. by apply (D1 id).
  - intros d id Hk. destruct (li_keys0 d id Hk) as (h2 & y & Hr & Hy & Hd).
    exists h2, y. rewrite lookup_insert_ne; [done|]. intros <-. by apply (D1 id).
  - intros ty h2 Hty. split.
    + intros Hin. apply lookup_written; [by apply li_watchers0|]. intros <-. by apply (D2 ty).
    + intros (y & Hy & T & A). written; [congruence|]. apply li_watchers0; [done|]. by exists y.
  - intros h2 Hin. apply lookup_written; [by apply li_tcp0|]. by intros <-.
  - intros h2 y Hy T A. written; [congruence|by eapply li_tcp_active0].
  - intros h2 Hin. apply lookup_written; [by apply li_closing0|]. by intros <-.
  - intros h2 y Hy C. written; [congruence|by eapply li_closed0].
Qed.

(** A closed handle is in no list but that of closing handles. *)
Lemma closed_detached l hp h x :
  loop_inv l hp → hp !! h = Some x → is_closing x = true → detached l h.
Proof.
  intros [] Hx Hc. pose proof (li_closed0 h x Hx Hc) as Ha. split; [|split].
  - intros id (y & Hy & _ & _ & A & _)%li_registered0. congruence.
  - intros ty. destruct (watcher_type ty) eqn:Hty; [|by apply unregistered_watcher].
    intros (y & Hy & _ & A)%li_watchers0; [congruence|done].
  - intros (y & Hy & _ & C)%li_tcp0. congruence.
Qed.

(** C frees a handle after its close callback was taken. *)
Lemma loop_inv_free l hp h x :
  loop_inv l hp → hp !! h = Some x → is_closing x = true → h ∉ (closing_handles l).*1 →
  loop_inv l (delete h hp).
Proof.
  intros Hinv Hx Hc Hq. destruct (closed_detached l hp h x Hinv Hx Hc) as (D1 & D2 & D3).
  destruct Hinv.
  assert (∀ h2 (P : uv_handle → Prop), (∃ y, hp !! h2 = Some y ∧ P y) → h ≠ h2 →
    ∃ y, delete h hp !! h2 = Some y ∧ P y) as Hkeep.
  { intros h2 P (y & Hy & HP) Hne. exists y. by rewrite lookup_delete_ne. }
  split; try done.
  - intros h2 y [? Hy]%lookup_delete_Some. eauto.
  - intros h1 h2 y1 y2 [? H1]%lookup_delete_Some [? H2]%lookup_delete_Some. eauto.
  - intros id h2 Hr. apply Hkeep; [by apply li_registered0|]. intros <-. by apply (D1 id).
  - intros d id Hk. destruct (li_keys0 d id Hk) as (h2 & y & Hr & Hy & Hd).
    exists h2, y. rewrite lookup_delete_ne; [done|]. intros <-. by apply (D1 id).
  - intros ty h2 Hty. split.
    + intros Hin. apply Hkeep; [by apply li_watchers0|]. intros <-. by apply (D2 ty).
    + intros (y & [? Hy]%lookup_delete_Some & T & A). apply li_watchers0; [done|]. by exists y.
  - intros h2 Hin. apply Hkeep; [by apply li_tcp0|]. by intros <-.
  - intros h2 y [? Hy]%lookup_delete_Some. eauto.
  - intros h2 Hin. apply Hkeep; [by apply li_closing0|]. by intros <-.
  - intros h2 y [? Hy]%lookup_delete_Some. eauto.
Qed.

Lemma watchers_set_timers ty l ts n hs : watchers ty (set_timers l ts n hs) = watchers ty l.
Proof. by destruct ty. Qed.

(** ** Timers *)

(** A timer leaves the loop; it may be closing. *)
Definition drop_timer l (d id : Z) : UvLoopInner :=
  set_timers l (key_remove (d, id) (timers l)) (next_timer_id l) (delete id (timer_handles l)).

(** The handle after it was stopped: of the same type, not active, perhaps closing. *)
Definition stopped x x' : Prop :=
  type x' = type x ∧ internal_id x' = internal_id x ∧ is_active x' = false ∧
  (is_closing x = true → is_closing x' = true).

Lemma loop_inv_drop_timer l hp h x x' :
  loop_inv l hp → hp !! h = Some x → type x = UV_TIMER → internal_id x ≠ 0 →
  stopped x x' →
  loop_inv (drop_timer l (internal_deadline x) (internal_id x)) (<[h := x']> hp).
Proof.
  intros Hinv Hx T Hid (T' & Hid' & A' & C'). rewrite T in T'.
  assert (∀ id, timer_handles l !! id = Some h → id = internal_id x) as Hown.
  { intros id Hr. destruct (li_registered _ _ Hinv _ _ Hr) as (y & Hy & _ & <- & _). congruence. }
  assert (∀ h2, timer_handles l !! internal_id x = Some h2 → h2 = h) as Howner.
  { intros h2 Hr. destruct (li_registered _ _ Hinv _ _ Hr) as (y & Hy & Ty & Hi & _).
    apply (li_unique _ _ Hinv h2 h y x); try done; congruence. }
  assert (∀ ty h2, h2 ∈ watchers ty l → watcher_type ty = true → h ≠ h2) as Hw.
  { intros ty h2 Hin Hty <-. apply (li_watchers _ _ Hinv) in Hin as (y & Hy & Ty & _); [|done].
    assert (ty = UV_TIMER) as Hu by congruence. by rewrite Hu in Hty. }
  destruct Hinv. unfold drop_timer. split; try done.
  - by apply key_remove_sorted.
  - simpl. intros h2 y Hy Hty. written.
    + rewrite Hid', A'. split; [by apply (li_timer0 h x)|done].
    + destruct (li_timer0 h2 y Hy Hty) as [? Hact]. split; [done|]. intros A.
      destruct (Hact A) as [Hr ?]. split; [|done]. rewrite lookup_delete_ne; [done|].
      intros Heq. rewrite <- Heq in Hr. by apply Howner in Hr.
  - intros h1 h2 y1 y2 H1 H2 T1 T2 Hi Hn. written; try done.
    + apply (li_unique0 h1 h y1 x); congruence.
    + apply (li_unique0 h h2 x y2); congruence.
    + by apply (li_unique0 h1 h2 y1 y2).
  - simpl. intros id h2 [Hne Hr]%lookup_delete_Some. apply lookup_written.
    + destruct (li_registered0 id h2 Hr) as (y & Hy & Ty & Hi & A & Hk). exists y.
      split_and!; try done. apply elem_of_key_remove. split; [congruence|done].
    + intros <-. by apply Hown in Hr.
  - simpl. intros d id [Hne Hk]%elem_of_key_remove.
    destruct (li_keys0 d id Hk) as (h2 & y & Hr & Hy & Hd). exists h2, y.
    assert (id ≠ internal_id x) as Hni.
    { intros ->. apply Howner in Hr as ->. assert (y = x) by congruence. by subst. }
    rewrite lookup_delete_ne, lookup_insert_ne; [done| |done].
    intros <-. by apply Hown in Hr.
  - intros ty h2 Hty. rewrite (watchers_set_timers ty). split.
    + intros Hin. apply lookup_written; [by apply li_watchers0|by eapply Hw].
    + intros (y & Hy & Ty & A). written; [congruence|]. apply li_watchers0; [done|]. by exists y.
  - intros h2 Hin. apply lookup_written; [by apply li_tcp0|]. intros <-.
    apply li_tcp0 in Hin as (y & Hy & Ty & _). congruence.
  - intros h2 y Hy Ty A. written; [congruence|by eapply li_tcp_active0].
  - intros h2 Hin. destruct (li_closing0 h2 Hin) as (y & Hy & C).
    destruct (decide (h = h2)) as [<-|Hne].
    + rewrite lookup_insert_eq. exists x'. split; [done|]. apply C'. congruence.
    + exists y. by rewrite lookup_insert_ne.
  - intros h2 y Hy C. written; [done|by eapply li_closed0].
Qed.

Lemma inactive_unregistered l hp h x :
  loop_inv l hp → hp !! h = Some x → is_active x = false →
  (∀ id, timer_handles l !! id ≠ Some h) ∧ ∀ ty, h ∉ watchers ty l.
Proof.
  intros [] Hx Ha. split.
  - intros id (y & Hy & _ & _ & A & _)%li_registered0. congruence.
  - intros ty. destruct (watcher_type ty) eqn:Hty; [|by apply unregistered_watcher].
    intros (y & Hy & _ & A)%li_watchers0; [congruence|done].
Qed.

(** A timer enters the loop, with an id that is new or that was its own. *)
Lemma loop_inv_add_timer l hp h x x' d id n :
  loop_inv l hp → hp !! h = Some x → type x = UV_TIMER → is_active x = false →
  is_closing x = false → 0 < id < n → next_timer_id l <= n →
  timer_handles l !! id = None →
  (∀ h2 y, hp !! h2 = Some y → type y = UV_TIMER → internal_id y = id → h2 = h) →
  type x' = UV_TIMER → is_active x' = true → is_closing x' = false → internal_id x' = id →
  internal_deadline x' = d →
  loop_inv (set_timers l (key_insert (d, id) (timers l)) n (<[id := h]> (timer_handles l)))
    (<[h := x']> hp).
Proof.
  intros Hinv Hx T A C Hid Hn Hfree Huniq T' A' C' Hid' Hd'.
  destruct (inactive_unregistered l hp h x Hinv Hx A) as [D1 D2].
  assert (h ∉ (closing_handles l).*1) as D4.
  { intros (y & Hy & ?)%(li_closing _ _ Hinv). congruence. }
  destruct Hinv. split; try done; cbn [timers next_timer_id timer_handles tcp_handles
    closing_handles set_timers].
  - by apply key_insert_sorted.
  - lia.
  - intros h2 y Hy Hty. written.
    + rewrite Hid'. split; [lia|]. intros _. rewrite lookup_insert_eq. split; [done|lia].
    + destruct (li_timer0 h2 y Hy Hty) as [? Hact]. split; [lia|]. intros Ay.
      destruct (Hact Ay) as [Hr ?]. split; [|done]. rewrite lookup_insert_ne; [done|].
      congruence.
  - intros h1 h2 y1 y2 H1 H2 T1 T2 Hi Hne. written; try done.
    + apply (Huniq h1 y1); congruence.
    + symmetry. apply (Huniq h2 y2); congruence.
    + by apply (li_unique0 h1 h2 y1 y2).
  - intros id2 h2 [[<- <-]|[Hne Hr]]%lookup_insert_Some.
    + exists x'. rewrite lookup_insert_eq. split_and!; try done.
      apply elem_of_key_insert. left. congruence.
    + apply lookup_written.
      * destruct (li_registered0 id2 h2 Hr) as (y & Hy & Ty & Hi & Ay & Hk). exists y.
        split_and!; try done. apply elem_of_key_insert. by right.
      * intros <-. by apply (D1 id2).
  - intros d2 id2 [[= -> ->]|Hk]%elem_of_key_insert.
    + exists h, x'. rewrite !lookup_insert_eq. done.
    + destruct (li_keys0 d2 id2 Hk) as (h2 & y & Hr & Hy & Hd). exists h2, y.
      rewrite !lookup_insert_ne; [done| |].
      * intros <-. by apply (D1 id2).
      * intros <-. congruence.
  - intros ty h2 Hty. rewrite (watchers_set_timers ty). split.
    + intros Hin. apply lookup_written; [by apply li_watchers0|]. intros <-. by apply (D2 ty).
    + intros (y & Hy & Ty & Ay). written; [|apply li_watchers0; [done|]; by exists y].
      rewrite T' in Ty. by rewrite <- Ty in Hty.
  - intros h2 Hin. apply lookup_written; [by apply li_tcp0|]. intros <-.
    apply li_tcp0 in Hin as (y & Hy & Ty & _). congruence.
  - intros h2 y Hy Ty Ay. written; [congruence|by eapply li_tcp_active0].
  - intros h2 Hin. apply lookup_written; [by apply li_closing0|]. by intros <-.
  - intros h2 y Hy Cy. written; [congruence|by eapply li_closed0].
Qed.

(** A repeating timer gets its next deadline. *)
Lemma loop_inv_repeat l hp h x d :
  loop_inv l hp → timer_handles l !! internal_id x = Some h → hp !! h = Some x →
  loop_inv (set_timers l
      (key_insert (d, internal_id x) (key_remove (internal_deadline x, internal_id x) (timers l)))
      (next_timer_id l) (timer_handles l))
    (<[h := set_deadline x (internal_id x) d]> hp).
Proof.
  intros Hinv Hr Hx.
  destruct (li_registered _ _ Hinv _ _ Hr) as (y & Hy & T & _ & A & _).
  assert (y = x) as -> by congruence.
  destruct (li_timer _ _ Hinv h x Hx T) as [Hrange Hact]. destruct (Hact A) as [_ Hne].
  assert (is_closing x = false) as C.
  { destruct (is_closing x) eqn:C; [|done]. pose proof (li_closed _ _ Hinv h x Hx C). congruence. }
  pose proof (loop_inv_drop_timer l hp h x (deactivate x) Hinv Hx T Hne) as Hdrop.
  assert (stopped x (deactivate x)) as Hst.
  { split_and!; try done; [apply active_deactivate|by rewrite closing_deactivate]. }
  pose proof (loop_inv_add_timer _ _ h (deactivate x) (set_deadline x (internal_id x) d) d
    (internal_id x) (next_timer_id l) (Hdrop Hst)) as Hadd.
  unfold drop_timer, set_timers in *. simpl in *.
  rewrite insert_insert_eq, insert_delete_eq, (insert_id (timer_handles l)) in Hadd by done.
  apply Hadd; try done.
  - apply lookup_insert_eq.
  - apply active_deactivate.
  - by rewrite closing_deactivate.
  - lia.
  - apply lookup_delete_eq.
  - intros h2 y Hy2 T2 Hi. written; [done|]. apply (li_unique _ _ Hinv h2 h y x); congruence.
Qed.

(** ** Watchers *)

Lemma watchers_set ty ty2 l hs :
  watcher_type ty = true → watchers ty2 (set_watchers ty l hs) = if decide (ty2 = ty) then hs
    else watchers ty2 l.
Proof. by destruct ty, ty2. Qed.

Lemma set_watchers_rest ty l hs : watcher_type ty = true →
  timers (set_watchers ty l hs) = timers l ∧
  next_timer_id (set_watchers ty l hs) = next_timer_id l ∧
  timer_handles (set_watchers ty l hs) = timer_handles l ∧
  tcp_handles (set_watchers ty l hs) = tcp_handles l ∧
  closing_handles (set_watchers ty l hs) = closing_handles l.
Proof. by destruct ty. Qed.

(** A watcher that starts or stops: it is in its list when it is active. *)
Lemma loop_inv_watcher ty l hp h x x' hs :
  loop_inv l hp → hp !! h = Some x → watcher_type ty = true → type x = ty → type x' = ty →
  NoDup hs → (∀ h2, h2 ∈ hs ↔ if decide (h2 = h) then is_active x' = true else h2 ∈ watchers ty l) →
  (is_closing x = true → is_closing x' = true) →
  (is_closing x' = true → is_active x' = false) →
  loop_inv (set_watchers ty l hs) (<[h := x']> hp).
Proof.
  intros Hinv Hx Hty T T' Hnd Hhs Hc Hca.
  assert (∀ y, hp !! h = Some y → type y ≠ UV_TIMER ∧ type y ≠ UV_TCP) as Hne.
  { intros y Hy. assert (y = x) as -> by congruence. rewrite T. by destruct ty. }
  assert (type x' ≠ UV_TIMER ∧ type x' ≠ UV_TCP) as [N1 N2] by (rewrite T'; by destruct ty).
  destruct (set_watchers_rest ty l hs Hty) as (E1 & E2 & E3 & E4 & E5).
  destruct Hinv. split; rewrite ?E1, ?E2, ?E3, ?E4, ?E5; try done.
  - intros h2 y Hy Ty. written; [done|]. by apply li_timer0.
  - intros h1 h2 y1 y2 H1 H2 T1 T2. written; try done. by apply (li_unique0 h1 h2 y1 y2).
  - intros id h2 Hr. apply lookup_written; [by apply li_registered0|]. intros <-.
    apply li_registered0 in Hr as (y & Hy & Ty & _). by apply Hne in Hy as [? _].
  - intros d id Hk. destruct (li_keys0 d id Hk) as (h2 & y & Hr & Hy & Hd). exists h2, y.
    rewrite lookup_insert_ne; [done|]. intros <-.
    apply li_registered0 in Hr as (z & Hz & Tz & _). by apply Hne in Hz as [? _].
  - intros ty2 h2 Hty2. rewrite watchers_set by done. destruct (decide (ty2 = ty)) as [->|Ht2].
    + rewrite Hhs. destruct (decide (h2 = h)) as [->|Hh2].
      * split; [intros A; exists x'; by rewrite lookup_insert_eq|].
        intros (y & Hy & _ & A). rewrite lookup_insert_eq in Hy. by simplify_eq.
      * rewrite li_watchers0 by done. by rewrite lookup_insert_ne.
    + rewrite li_watchers0 by done. split.
      * intros (y & Hy & Ty & A). exists y. rewrite lookup_insert_ne; [done|].
        intros <-. congruence.
      * intros (y & Hy & Ty & A). written; [congruence|]. by exists y.
  - intros ty2. rewrite watchers_set by done. by case_decide.
  - intros h2 Hin. apply lookup_written; [by apply li_tcp0|]. intros <-.
    apply li_tcp0 in Hin as (y & Hy & Ty & _). by apply Hne in Hy as [_ ?].
  - intros h2 y Hy Ty. written; [done|by apply li_tcp_active0].
  - intros h2 Hin. destruct (li_closing0 h2 Hin) as (y & Hy & C).
    destruct (decide (h = h2)) as [<-|Hn].
    + rewrite lookup_insert_eq. exists x'. split; [done|]. apply Hc. congruence.
    + exists y. by rewrite lookup_insert_ne.
  - intros h2 y Hy C. written; [auto|by eapply li_closed0].
Qed.

(** ** TCP handles *)

(** A TCP handle that is registered, changed or removed. *)
Lemma loop_inv_tcp l hp h x x' hs :
  loop_inv l hp → hp !! h = Some x → type x = UV_TCP → type x' = UV_TCP →
  NoDup hs → (∀ h2, h2 ≠ h → h2 ∈ hs ↔ h2 ∈ tcp_handles l) →
  (is_active x' = true → h ∈ hs) → (h ∈ hs → is_closing x' = false) →
  (is_closing x = true → is_closing x' = true) →
  (is_closing x' = true → is_active x' = false) →
  loop_inv (set_tcp_handles l hs) (<[h := x']> hp).
Proof.
  intros Hinv Hx T T' Hnd Hhs Ha Hc Hcc Hca.
  assert (∀ y, hp !! h = Some y → type y = UV_TCP) as Hty by (intros y Hy; congruence).
  destruct Hinv. split; cbn [timers next_timer_id timer_handles tcp_handles closing_handles
    set_tcp_handles]; try done.
  - intros h2 y Hy Ty. written; [congruence|]. by apply li_timer0.
  - intros h1 h2 y1 y2 H1 H2 T1 T2. written; try congruence. by apply (li_unique0 h1 h2 y1 y2).
  - intros id h2 Hr. apply lookup_written; [by apply li_registered0|]. intros <-.
    apply li_registered0 in Hr as (y & Hy & Ty & _). apply Hty in Hy. congruence.
  - intros d id Hk. destruct (li_keys0 d id Hk) as (h2 & y & Hr & Hy & Hd). exists h2, y.
    rewrite lookup_insert_ne; [done|]. intros <-.
    apply li_registered0 in Hr as (z & Hz & Tz & _). apply Hty in Hz. congruence.
  - intros ty h2 Ht. replace (watchers ty (set_tcp_handles l hs)) with (watchers ty l)
      by by destruct ty.
    rewrite li_watchers0 by done. split.
    + intros (y & Hy & Ty & A). exists y. rewrite lookup_insert_ne; [done|]. intros <-.
      apply Hty in Hy. rewrite Hy in Ty. by rewrite <- Ty in Ht.
    + intros (y & Hy & Ty & A). written; [|by exists y].
      rewrite T' in Ty. by rewrite <- Ty in Ht.
  - intros h2 Hin. destruct (decide (h = h2)) as [<-|Hn].
    + rewrite lookup_insert_eq. exists x'. auto.
    + rewrite lookup_insert_ne by done. apply li_tcp0. by apply Hhs.
  - intros h2 y Hy Ty A. written; [auto|]. apply Hhs; [done|]. by eapply li_tcp_active0.
  - intros h2 Hin. destruct (li_closing0 h2 Hin) as (y & Hy & C).
    destruct (decide (h = h2)) as [<-|Hn].
    + rewrite lookup_insert_eq. exists x'. split; [done|]. apply Hcc. congruence.
    + exists y. by rewrite lookup_insert_ne.
  - intros h2 y Hy C. written; [auto|by eapply li_closed0].
Qed.

(** A closed handle is queued for its callback. *)
Lemma loop_inv_queue l hp h x q :
  loop_inv l hp → hp !! h = Some x → is_closing x = true →
  NoDup q.*1 → (∀ h2, h2 ∈ q.*1 → h2 = h ∨ h2 ∈ (closing_handles l).*1) →
  loop_inv (set_closing l q) hp.
Proof.
  intros [] Hx C Hnd Hq. split; try done. simpl. intros h2 [->|Hin]%Hq; [by exists x|auto].
Qed.

Lemma loop_inv_unqueue l hp : loop_inv l hp → loop_inv (set_closing l []) hp.
Proof.
  intros []. split; try done; simpl; [by intros h ?%elem_of_nil|apply NoDup_nil_2].
Qed.
(** An inactive handle may be marked as closing. *)
Lemma loop_inv_retire l hp h x x' :
  loop_inv l hp → hp !! h = Some x → is_active x = false → type x ≠ UV_TCP →
  stopped x x' → loop_inv l (<[h := x']> hp).
Proof.
  intros Hinv Hx A Hn (T' & I' & A' & C').
  destruct (inactive_unregistered l hp h x Hinv Hx A) as [D1 D2].
  destruct Hinv. split; try done.
  - intros h2 y Hy Ty. written; [rewrite I', A'; split; [|done]|by apply li_timer0].
    apply (li_timer0 h x Hx). congruence.
  - intros h1 h2 y1 y2 H1 H2 T1 T2 Hi Hid. written; try done.
    + apply (li_unique0 h1 h y1 x); congruence.
    + apply (li_unique0 h h2 x y2); congruence.
    + by apply (li_unique0 h1 h2 y1 y2).
  - intros id h2 Hr. apply lookup_written; [by apply li_registered0|]. intros <-. by apply (D1 id).
  - intros d id Hk. destruct (li_keys0 d id Hk) as (h2 & y & Hr & Hy & Hd). exists h2, y.
    rewrite lookup_insert_ne; [done|]. intros <-. by apply (D1 id).
  - intros ty h2 Hty. split.
    + intros Hin. apply lookup_written; [by apply li_watchers0|]. intros <-. by apply (D2 ty).
    + intros (y & Hy & Ty & Ay). written; [congruence|]. apply li_watchers0; [done|]. by exists y.
  - intros h2 Hin. apply lookup_written; [by apply li_tcp0|]. intros <-.
    apply li_tcp0 in Hin as (y & Hy & Ty & _). congruence.
  - intros h2 y Hy Ty Ay. written; [congruence|by eapply li_tcp_active0].
  - intros h2 Hin. destruct (li_closing0 h2 Hin) as (y & Hy & C).
    destruct (decide (h = h2)) as [<-|Hne].
    + rewrite lookup_insert_eq. exists x'. split; [done|]. apply C'. congruence.
    + exists y. by rewrite lookup_insert_ne.
  - intros h2 y Hy C. written; [done|by eapply li_closed0].
Qed.

(** [stop_timer]: a timer that was never started is in no list. *)
Definition after_stop l x : UvLoopInner :=
  if decide (internal_id x ≠ 0) then drop_timer l (internal_deadline x) (internal_id x) else l.

Lemma loop_inv_stop l hp h x x' :
  loop_inv l hp → hp !! h = Some x → type x = UV_TIMER → stopped x x' →
  loop_inv (after_stop l x) (<[h := x']> hp).
Proof.
  intros Hinv Hx T Hst. unfold after_stop. case_decide as Hid.
  - by apply loop_inv_drop_timer.
  - apply (loop_inv_retire l hp h x); try done; [|congruence].
    destruct (is_active x) eqn:A; [|done].
    destruct (li_timer _ _ Hinv h x Hx T) as [_ Ha]. destruct (Ha A) as [_ ?]. lia.
Qed.

(** A timer starts with the next id. *)
Lemma loop_inv_start l hp h x x' d :
  loop_inv l hp → hp !! h = Some x → type x = UV_TIMER → is_active x = false →
  is_closing x = false → type x' = UV_TIMER → is_active x' = true → is_closing x' = false →
  internal_id x' = next_timer_id l → internal_deadline x' = d →
  loop_inv (set_timers l (key_insert (d, next_timer_id l) (timers l)) (next_timer_id l + 1)
      (<[next_timer_id l := h]> (timer_handles l)))
    (<[h := x']> hp).
Proof.
  intros Hinv Hx T A C T' A' C' I' D'. pose proof (li_next _ _ Hinv).
  apply (loop_inv_add_timer l hp h x); try done; [lia|lia| |].
  - apply eq_None_not_Some. intros [h2 Hr].
    destruct (li_registered _ _ Hinv _ _ Hr) as (y & Hy & Ty & Iy & _).
    destruct (li_timer _ _ Hinv h2 y Hy Ty). lia.
  - intros h2 y Hy Ty Iy. destruct (li_timer _ _ Hinv h2 y Hy Ty). lia.
Qed.
End inv.
