(* ===== verification/UvClient.v ===== *)
(** The C code that drives [UvLoop]: its calls, libuv's rules for them, its callbacks.

    A callback is a sequence of legal calls ([c_run]), in which [uv_write] and
    [uv_shutdown] may call back at once.  Every call keeps the invariant of [UvHandles],
    never reads freed memory, and changes the loop only as [evolves] says. *)

From S2P Require Import Prelude UvLoop UvHandles.
From Stdlib Require Import Sorting.Sorted.

Local Open Scope Z_scope.

(** * Calls *)

Inductive ucall :=
  | C_timer_init (h : Z)
  | C_timer_start (h : Z) (c : callback) (timeout repeat : Z)
  | C_timer_stop (h : Z)
  | C_timer_again (h : Z)
  | C_timer_set_repeat (h r : Z)
  | C_watcher_init (ty : uv_handle_type) (h : Z)
  | C_watcher_start (ty : uv_handle_type) (h : Z) (c : callback)
  | C_watcher_stop (ty : uv_handle_type) (h : Z)
  | C_tcp_init (h : Z)
  | C_tcp_open (h fd : Z)
  | C_tcp_bind (h : Z) (addr : raw_sockaddr)
  | C_tcp_connect (req h : Z) (addr : raw_sockaddr) (c : option callback)
  | C_tcp_nodelay (h enable : Z)
  | C_listen (h : Z) (c : option callback)
  | C_accept (server client : Z)
  | C_read_start (h : Z) (a r : option callback)
  | C_read_stop (h : Z)
  | C_try_write (h : Z) (data : list byte)
  | C_write (fuel : nat) (req h : Z) (bufs : list (option (list byte))) (c : option callback)
  | C_shutdown (req h : Z) (c : option callback)
  | C_close (h : Z) (c : option callback)
  | C_ref (h : Z)
  | C_unref (h : Z)
  | C_free (h : Z).

(** A pointer and the handle behind it. *)
Definition holds (hp : gmap Z uv_handle) (h : Z) (ty : uv_handle_type) : Prop :=
  ∃ x, hp !! h = Some x ∧ type x = ty.
Definition usable (hp : gmap Z uv_handle) (h : Z) (ty : uv_handle_type) : Prop :=
  ∃ x, hp !! h = Some x ∧ type x = ty ∧ is_closing x = false.

(** libuv's rules: a handle is initialised in memory that is not in use, used with the
    functions of its type, closed once and not started after that; its memory is released
    when the loop has taken it off the list of closing handles. *)
Definition legal (c : ucall) (l : UvLoopInner) (hp : gmap Z uv_handle) : Prop :=
  match c with
  | C_timer_init h | C_tcp_init h => hp !! h = None
  | C_watcher_init ty h => watcher_type ty = true ∧ hp !! h = None
  | C_timer_start h _ _ _ | C_timer_again h => usable hp h UV_TIMER ∧ next_timer_id l < 2 ^ 64 - 1
  | C_timer_stop h => holds hp h UV_TIMER
  | C_timer_set_repeat h _ => holds hp h UV_TIMER
  | C_watcher_start ty h _ => watcher_type ty = true ∧ usable hp h ty
  | C_watcher_stop ty h => watcher_type ty = true ∧ holds hp h ty
  | C_tcp_open h _ | C_tcp_bind h _ | C_tcp_connect _ h _ _ | C_tcp_nodelay h _ | C_listen h _
  | C_read_start h _ _ | C_read_stop h | C_try_write h _ | C_write _ _ h _ _
  | C_shutdown _ h _ => usable hp h UV_TCP
  | C_accept server client => usable hp server UV_TCP ∧ usable hp client UV_TCP
  | C_close h _ => ∃ x, hp !! h = Some x ∧ is_closing x = false ∧ type x ≠ UV_UNKNOWN_HANDLE
  | C_ref h | C_unref h => is_Some (hp !! h)
  | C_free h => ∃ x, hp !! h = Some x ∧ is_closing x = true ∧ h ∉ (closing_handles l).*1
  end.

Lemma exists_dec (hp : gmap Z uv_handle) (h : Z) (P : uv_handle → Prop) `{!∀ x, Decision (P x)} :
  Decision (∃ x, hp !! h = Some x ∧ P x).
Proof.
  destruct (hp !! h) as [x|]; [|right; by intros (x & ? & _)].
  destruct (decide (P x)); [left; by exists x|right]. intros (y & [= ->] & ?). done.
Defined.

Global Instance legal_dec c l hp : Decision (legal c l hp).
Proof. destruct c; simpl; unfold holds, usable; repeat first [apply and_dec|apply exists_dec]; apply _. Defined.

Section client.
Context (p : profile) {J : Type} (H : uv_host J).
Abbreviation U := (umethod J).
Implicit Types (s : ustate J) (l : UvLoopInner) (hp : gmap Z uv_handle) (h : Z) (x : uv_handle).

(** What the call does, and the callback that it makes at its end. *)
Definition exec_call (c : ucall) : U (option invocation) :=
  match c with
  | C_timer_init h => _ ← uv_timer_init h; mret None
  | C_timer_start h c t r => _ ← uv_timer_start p h c t r; mret None
  | C_timer_stop h => _ ← uv_timer_stop h; mret None
  | C_timer_again h => _ ← uv_timer_again p h; mret None
  | C_timer_set_repeat h r => _ ← uv_timer_set_repeat h r; mret None
  | C_watcher_init ty h => _ ← uv_watcher_init ty h; mret None
  | C_watcher_start ty h c => _ ← uv_watcher_start ty h c; mret None
  | C_watcher_stop ty h => _ ← uv_watcher_stop ty h; mret None
  | C_tcp_init h => _ ← uv_tcp_init h; mret None
  | C_tcp_open h fd => _ ← uv_tcp_open H h fd; mret None
  | C_tcp_bind h a => _ ← uv_tcp_bind h a; mret None
  | C_tcp_connect req h a c => _ ← uv_tcp_connect H req h a c; mret None
  | C_tcp_nodelay h e => _ ← uv_tcp_nodelay H h e; mret None
  | C_listen h c => _ ← uv_listen H h c; mret None
  | C_accept sv cl => _ ← uv_accept H sv cl; mret None
  | C_read_start h a r => _ ← uv_read_start h a r; mret None
  | C_read_stop h => _ ← uv_read_stop h; mret None
  | C_try_write h data => _ ← uv_try_write H h data; mret None
  | C_write fuel req h bufs c =>
      status ← start_write H fuel req h bufs c;
      mret (match status, c with Some st, Some c => Some (OnWrite c req st) | _, _ => None end)
  | C_shutdown req h c =>
      status ← start_shutdown H h;
      mret (match c with Some c => Some (OnShutdown c req status) | None => None end)
  | C_close h c => _ ← uv_close h c; mret None
  | C_ref h => _ ← uv_ref h; mret None
  | C_unref h => _ ← uv_unref h; mret None
  | C_free h => λ s,
      Ret (None, mkU (world s) (now s) (inner s) (delete h (heap s)) (called s) (sent s))
  end.

Definition log_call (i : invocation) s : ustate J :=
  mkU (world s) (now s) (inner s) (heap s) (called s ++ [i]) (sent s).

(** C code that runs until it returns, or until something panics. *)
Inductive c_run : ustate J → outcome (ustate J) → Prop :=
  | c_done s : c_run s (Ret s)
  | c_world s j n o :
      c_run (mkU j n (inner s) (heap s) (called s) (sent s)) o → c_run s o
  | c_call s c l s' o :
      inner s = Some l → legal c l (heap s) → exec_call c s = Ret (None, s') →
      c_run s' o → c_run s o
  | c_call_back s c l i s1 s2 o :
      inner s = Some l → legal c l (heap s) → exec_call c s = Ret (Some i, s1) →
      c_run (log_call i s1) (Ret s2) → c_run s2 o → c_run s o
  | c_call_back_panic s c l i s1 f :
      inner s = Some l → legal c l (heap s) → exec_call c s = Ret (Some i, s1) →
      c_run (log_call i s1) (Panic f) → c_run s (Panic f)
  | c_panic s c l f :
      inner s = Some l → legal c l (heap s) → exec_call c s = Panic f → c_run s (Panic f).

Definition final {A} (o : outcome (A * ustate J)) : outcome (ustate J) :=
  match o with Ret (_, s) => Ret s | Panic f => Panic f end.

(** The state of a loop that C code uses by the rules. *)
Definition uv_ok s : Prop := ∃ l, inner s = Some l ∧ loop_inv l (heap s).

(** Callbacks are C code that follows the rules. *)
Definition c_follows_rules : Prop :=
  ∀ A (e : c_entry A) s, uv_ok s → c_run s (final (enter_c H e s)).

(** * How C code changes the loop *)

(** A handle whose memory C may not release yet. *)
Definition pinned l hp h (ty : uv_handle_type) : Prop :=
  ∃ x, hp !! h = Some x ∧ type x = ty ∧ (is_closing x = true → h ∈ (closing_handles l).*1).

(** What a started timer keeps. *)
Definition start_of x : option callback * Z := (cb x, internal_deadline x).

(** Ids of timers are not used again, a started timer keeps its callback and deadline,
    closed handles queue up, and memory in use stays in use. *)
Record evolves l hp l' hp' : Prop := {
  ev_pinned : ∀ h ty, pinned l hp h ty → pinned l' hp' h ty;
  ev_next : next_timer_id l <= next_timer_id l';
  ev_ids : ∀ id h, id < next_timer_id l → timer_handles l' !! id = Some h →
    timer_handles l !! id = Some h ∧ start_of <$> hp' !! h = start_of <$> hp !! h;
  ev_closing : ∃ q, closing_handles l' = closing_handles l ++ q
}.

(** The callbacks that C code triggers itself. *)
Definition c_made (i : invocation) : bool :=
  match i with OnWrite _ _ _ | OnShutdown _ _ _ => true | _ => false end.

(** A step of the loop or of C code. *)
Record runs s s' : Prop := {
  ru_ok : uv_ok s';
  ru_evolves : ∀ l l', inner s = Some l → inner s' = Some l' →
    evolves l (heap s) l' (heap s');
  ru_called : ∃ new, called s' = called s ++ new ∧ Forall (λ i, c_made i = true) new
}.

Lemma evolves_refl l hp : evolves l hp l hp.
Proof. split; [done|lia|done|]. exists []. by rewrite app_nil_r. Qed.

Lemma evolves_trans l1 hp1 l2 hp2 l3 hp3 :
  evolves l1 hp1 l2 hp2 → evolves l2 hp2 l3 hp3 → evolves l1 hp1 l3 hp3.
Proof.
  intros [P1 N1 I1 [q1 Q1]] [P2 N2 I2 [q2 Q2]]. split; [auto|lia| |].
  - intros id h Hid [Hr E2]%I2; [|lia]. destruct (I1 id h Hid Hr) as [? E1].
    split; [done|congruence].
  - exists (q1 ++ q2). by rewrite Q2, Q1, app_assoc.
Qed.

Lemma runs_refl s : uv_ok s → runs s s.
Proof.
  intros Hok. split; [done| |exists []; by rewrite app_nil_r].
  intros l l' E1 E2. assert (l' = l) as -> by congruence. apply evolves_refl.
Qed.

Lemma runs_trans s1 s2 s3 : runs s1 s2 → runs s2 s3 → runs s1 s3.
Proof.
  intros [(l2 & E2 & _) V1 (new1 & C1 & F1)] [O3 V2 (new2 & C2 & F2)]. split; [done| |].
  - intros l1 l3 E1 E3. eapply evolves_trans; [by apply V1|by apply V2].
  - exists (new1 ++ new2). rewrite C2, C1, app_assoc. split; [done|]. by apply Forall_app.
Qed.
Lemma runs_step s s' l l' :
  inner s = Some l → inner s' = Some l' → called s' = called s → loop_inv l' (heap s') →
  evolves l (heap s) l' (heap s') → runs s s'.
Proof.
  intros E E' Hc Hinv Hev. split; [by exists l'| |exists []; by rewrite app_nil_r].
  intros k k' F F'. by simplify_eq.
Qed.

(** One handle is written. *)
Lemma evolves_handle l hp l' h x x' :
  hp !! h = Some x → type x' = type x →
  (is_closing x' = true → is_closing x = true ∨ h ∈ (closing_handles l').*1) →
  next_timer_id l <= next_timer_id l' →
  (∀ id h2, id < next_timer_id l → timer_handles l' !! id = Some h2 →
    timer_handles l !! id = Some h2 ∧ (h2 = h → start_of x' = start_of x)) →
  (∃ q, closing_handles l' = closing_handles l ++ q) →
  evolves l hp l' (<[h := x']> hp).
Proof.
  intros Hx T C N I [q Q]. split; [| done | | by exists q].
  - intros h2 ty (y & Hy & Ty & Hp). destruct (decide (h = h2)) as [<-|Hne].
    + exists x'. rewrite lookup_insert_eq. split_and!; [done|congruence|]. intros [Cx|?]%C; [|done].
      rewrite Q, fmap_app. apply elem_of_app. left. apply Hp. congruence.
    + exists y. rewrite lookup_insert_ne by done. split_and!; [done..|]. intros Cy.
      rewrite Q, fmap_app. apply elem_of_app. auto.
  - intros id h2 Hid Hr. destruct (I id h2 Hid Hr) as [? Hcb]. split; [done|].
    destruct (decide (h = h2)) as [<-|Hne].
    + rewrite lookup_insert_eq, Hx. simpl. by rewrite Hcb.
    + by rewrite lookup_insert_ne.
Qed.

(** A handle is written and the timers and closing handles stay. *)
Lemma evolves_same l hp l' h x x' :
  hp !! h = Some x → type x' = type x → is_closing x' = is_closing x →
  timer_handles l' = timer_handles l → next_timer_id l' = next_timer_id l →
  closing_handles l' = closing_handles l → (type x = UV_TIMER → start_of x' = start_of x) →
  loop_inv l hp → evolves l hp l' (<[h := x']> hp).
Proof.
  intros Hx T C ET EN EC Hcb Hinv. apply (evolves_handle l hp l' h x x'); try done.
  - rewrite C. by left.
  - by rewrite EN.
  - rewrite ET. intros id h2 _ Hr. split; [done|]. intros ->. apply Hcb.
    destruct (li_registered _ _ Hinv _ _ Hr) as (y & Hy & Ty & _). congruence.
  - exists []. by rewrite app_nil_r.
Qed.

Lemma evolves_init l hp h x : loop_inv l hp → hp !! h = None → evolves l hp l (<[h := x]> hp).
Proof.
  intros Hinv Hh. split; [|lia| |exists []; by rewrite app_nil_r].
  - intros h2 ty (y & Hy & ?). exists y. rewrite lookup_insert_ne; [done|]. congruence.
  - intros id h2 _ Hr. destruct (li_registered _ _ Hinv _ _ Hr) as (y & Hy & _).
    rewrite lookup_insert_ne; [done|]. congruence.
Qed.

Lemma evolves_free l hp h x :
  loop_inv l hp → hp !! h = Some x → is_closing x = true → h ∉ (closing_handles l).*1 →
  evolves l hp l (delete h hp).
Proof.
  intros Hinv Hx C Hq. destruct (closed_detached l hp h x Hinv Hx C) as (D & _).
  split; [|lia| |exists []; by rewrite app_nil_r].
  - intros h2 ty (y & Hy & Ty & Hp). exists y. rewrite lookup_delete_ne; [done|]. intros <-.
    apply Hq, Hp. congruence.
  - intros id h2 _ Hr. rewrite lookup_delete_ne; [done|]. intros <-. by apply (D id).
Qed.

(** * Running code *)

(** A run that does not read freed memory. *)
Definition safe {A} (o : outcome (A * ustate J)) (Q : A → ustate J → Prop) : Prop :=
  match o with Ret (a, s) => Q a s | Panic f => f ≠ BadMemory end.

Lemma safe_mono {A} (o : outcome (A * ustate J)) (P Q : A → ustate J → Prop) :
  safe o P → (∀ a s, P a s → Q a s) → safe o Q.
Proof. destruct o as [[a s]|f]; simpl; auto. Qed.

Lemma safe_bind {A B} (m : U A) (k : A → U B) s Q :
  safe (m s) (λ a s', safe (k a s') Q) → safe ((m ≫= k) s) Q.
Proof. unfold mbind, stateM_bind. by destruct (m s) as [[a s']|f]. Qed.

Lemma safe_ret {A} (a : A) s (Q : A → ustate J → Prop) : Q a s → safe ((mret a : U A) s) Q.
Proof. done. Qed.

Lemma safe_read h x s Q : heap s !! h = Some x → Q x s → safe (read h s) Q.
Proof. unfold read. by intros ->. Qed.

Lemma safe_inner l s Q : inner s = Some l → Q l s → safe (get_inner s) Q.
Proof. unfold get_inner. by intros ->. Qed.

Lemma safe_lift {A} (o : outcome A) s (Q : A → ustate J → Prop) :
  (∀ a, o = Ret a → Q a s) → o ≠ Panic BadMemory → safe (lift_u o s) Q.
Proof. unfold lift_u. destruct o; simpl; [auto|]. intros _ Hne ->. by apply Hne. Qed.

Lemma safe_sock {A} (q : sock_query A) s (Q : A → ustate J → Prop) :
  (∀ a j, Q a (mkU j (now s) (inner s) (heap s) (called s) (sent s))) → safe (sock H q s) Q.
Proof. unfold sock. destruct (ask_sock H q (world s)). simpl. auto. Qed.

Lemma safe_try_write k d s (Q : io Z → ustate J → Prop) :
  (∀ a j st, Q a (mkU j (now s) (inner s) (heap s) (called s) st)) → safe (try_write H k d s) Q.
Proof. unfold try_write. destruct (ask_sock H _ (world s)). simpl. auto. Qed.

Lemma safe_try_write_vectored k d s (Q : io Z → ustate J → Prop) :
  (∀ a j st, Q a (mkU j (now s) (inner s) (heap s) (called s) st)) →
  safe (try_write_vectored H k d s) Q.
Proof. unfold try_write_vectored. destruct (ask_sock H _ (world s)). simpl. auto. Qed.

Lemma safe_on_handle h f x s Q :
  heap s !! h = Some x →
  Q tt (mkU (world s) (now s) (inner s) (<[h := f x]> (heap s)) (called s) (sent s)) →
  safe (on_handle h f s) Q.
Proof. intros Hx HQ. unfold on_handle. apply safe_bind. by apply (safe_read h x). Qed.

Lemma add_w_safe w a b : add_w p w a b ≠ Panic BadMemory.
Proof. unfold add_w. case_decide; [done|]. by destruct p. Qed.

(** ** Timers *)

Definition with_loop s l hp : ustate J :=
  mkU (world s) (now s) (Some l) hp (called s) (sent s).

Lemma stop_timer_run h x s l :
  inner s = Some l → heap s !! h = Some x →
  stop_timer h s = Ret (tt, with_loop s (after_stop l x) (<[h := deactivate x]> (heap s))).
Proof.
  intros E Hx. unfold stop_timer, read, get_inner, mbind, stateM_bind. simpl.
  rewrite Hx. simpl. rewrite E. simpl. unfold after_stop. case_decide; simpl; [done|].
  unfold with_loop. by rewrite <- E.
Qed.

Lemma alloc_timer_id_run s l :
  inner s = Some l → next_timer_id l < 2 ^ 64 - 1 →
  alloc_timer_id p s = Ret (next_timer_id l,
    with_loop s (set_timers l (timers l) (next_timer_id l + 1) (timer_handles l)) (heap s)).
Proof.
  intros E Hn. unfold alloc_timer_id, get_inner, mbind, stateM_bind. simpl. rewrite E. simpl.
  unfold lift_u, mbind, stateM_bind. rewrite add_w_fits by lia. done.
Qed.

Lemma stopped_deactivate x x' :
  type x' = type x → internal_id x' = internal_id x → flags x' = flags x →
  stopped x (deactivate x').
Proof.
  intros T I F. split_and!; [done|done|by rewrite active_deactivate|].
  rewrite closing_deactivate. unfold is_closing. by rewrite F.
Qed.

(** What [uv_timer_start] and [uv_timer_again] do once the timer is stopped. *)
Definition begin_timer l (h d : Z) : UvLoopInner :=
  set_timers l (key_insert (d, next_timer_id l) (timers l)) (next_timer_id l + 1)
    (<[next_timer_id l := h]> (timer_handles l)).

Lemma runs_restart s l h x l1 hp1 x1 x' d :
  inner s = Some l → heap s !! h = Some x → type x = UV_TIMER → is_closing x = false →
  loop_inv l1 hp1 → hp1 !! h = Some x1 → is_active x1 = false → type x1 = UV_TIMER →
  is_closing x1 = false → <[h := x']> hp1 = <[h := x']> (heap s) →
  next_timer_id l1 = next_timer_id l → closing_handles l1 = closing_handles l →
  (∀ id h2, timer_handles l1 !! id = Some h2 → timer_handles l !! id = Some h2) →
  type x' = UV_TIMER → is_active x' = true → is_closing x' = false →
  internal_id x' = next_timer_id l → internal_deadline x' = d →
  runs s (with_loop s (begin_timer l1 h d) (<[h := x']> (heap s))).
Proof.
  intros E Hx T C Hinv Hx1 A1 T1 C1 Hhp HN HQ Hsub T' A' C' I' D'.
  destruct (inactive_unregistered l1 hp1 h x1 Hinv Hx1 A1) as [D _].
  apply (runs_step s _ l (begin_timer l1 h d)); try done; simpl.
  - rewrite <- Hhp. apply (loop_inv_start l1 hp1 h x1); try done. congruence.
  - apply (evolves_handle l (heap s) _ h x); simpl.
    + done.
    + congruence.
    + congruence.
    + lia.
    + intros id h2 Hid. rewrite lookup_insert_ne by lia. intros Hr. split; [auto|].
      intros ->. by apply D in Hr.
    + exists []. by rewrite app_nil_r.
Qed.

Lemma after_stop_rest l x :
  next_timer_id (after_stop l x) = next_timer_id l ∧
  closing_handles (after_stop l x) = closing_handles l ∧
  (∀ id h2, timer_handles (after_stop l x) !! id = Some h2 → timer_handles l !! id = Some h2).
Proof.
  unfold after_stop. case_decide; [|done]. split_and!; [done..|]. simpl.
  by intros id h2 [_ Hr]%lookup_delete_Some.
Qed.

(** A timer of the loop that C code may use. *)
Record timer_at s l h x : Prop := {
  ta_inner : inner s = Some l;
  ta_inv : loop_inv l (heap s);
  ta_heap : heap s !! h = Some x;
  ta_type : type x = UV_TIMER
}.

Lemma runs_begin s l h x (st : bool) x' d :
  timer_at s l h x → is_closing x = false → (st = false → is_active x = false) →
  type x' = UV_TIMER → is_active x' = true → is_closing x' = false →
  internal_id x' = next_timer_id l → internal_deadline x' = d →
  runs s (with_loop s (begin_timer (if st then after_stop l x else l) h d)
            (<[h := x']> (heap s))).
Proof.
  intros [E Hinv Hx T] C Hst T' A' C' I' D'. destruct (after_stop_rest l x) as (N & Q & S).
  destruct st.
  - apply (runs_restart s l h x _ (<[h := deactivate x]> (heap s)) (deactivate x)); try done.
    + apply loop_inv_stop; try done. by apply stopped_deactivate.
    + by rewrite lookup_insert_eq.
    + apply active_deactivate.
    + by rewrite closing_deactivate.
    + by rewrite insert_insert_eq.
  - by apply (runs_restart s l h x l (heap s) x); auto.
Qed.

(** The new id and deadline. *)
Lemma safe_new_deadline s l t (k : Z → Z → U Z) Q :
  inner s = Some l → next_timer_id l < 2 ^ 64 - 1 →
  (∀ d, safe (k (next_timer_id l) d (with_loop s
     (set_timers l (timers l) (next_timer_id l + 1) (timer_handles l)) (heap s))) Q) →
  safe ((id ← alloc_timer_id p; n ← now_ms; d ← lift_u (add_w p 64 n t); k id d) s) Q.
Proof.
  intros E Hn Hk. apply safe_bind. rewrite (alloc_timer_id_run s l) by done. simpl.
  apply safe_bind. simpl. apply safe_bind, safe_lift; [done|apply add_w_safe].
Qed.

Lemma safe_insert_timer s l h id d (Q : unit → ustate J → Prop) :
  inner s = Some l →
  Q tt (with_loop s (set_timers l (key_insert (d, id) (timers l)) (next_timer_id l)
          (<[id := h]> (timer_handles l))) (heap s)) →
  safe (insert_timer h id d s) Q.
Proof. intros E HQ. unfold insert_timer. apply safe_bind. by apply (safe_inner l). Qed.

Lemma safe_timer_start s l h x c t r :
  timer_at s l h x → is_closing x = false → next_timer_id l < 2 ^ 64 - 1 →
  safe (uv_timer_start p h c t r s) (λ _, runs s).
Proof.
  intros Hat C Hn. destruct (id Hat) as [E Hinv Hx T].
  destruct (after_stop_rest l x) as (N & _).
  unfold uv_timer_start. apply safe_bind, (safe_read h x); [done|].
  apply safe_bind, (safe_inner l); [done|]. apply safe_bind.
  assert (∀ d f, has_flag f UV_HANDLE_CLOSING = false → runs s (with_loop s
    (begin_timer (if is_active x then after_stop l x else l) h d)
    (<[h := activate (mkHandle UV_TIMER f (Some c) (next_timer_id l) d t r (tcp x))]> (heap s))))
    as Hruns.
  { intros d f Hf. apply (runs_begin s l h x (is_active x)); try done.
    - apply active_activate.
    - by rewrite closing_activate. }
  destruct (is_active x) eqn:A.
  - rewrite (stop_timer_run h x s l) by done. simpl.
    apply (safe_new_deadline _ (after_stop l x)); [done|simpl; lia|]. intros d.
    apply safe_bind, (safe_read h (deactivate x)); [by simpl; rewrite lookup_insert_eq|].
    simpl. rewrite insert_insert_eq, T. unfold begin_timer in Hruns. rewrite N in Hruns |- *.
    apply Hruns. rewrite <- C. apply closing_deactivate.
  - simpl. apply (safe_new_deadline _ l); [done..|]. intros d.
    apply safe_bind, (safe_read h x); [done|]. simpl. rewrite T. by apply Hruns.
Qed.

Lemma safe_timer_again s l h x :
  timer_at s l h x → is_closing x = false → next_timer_id l < 2 ^ 64 - 1 →
  safe (uv_timer_again p h s) (λ _, runs s).
Proof.
  intros Hat C Hn. destruct (id Hat) as [E Hinv Hx T].
  destruct (after_stop_rest l x) as (N & _).
  unfold uv_timer_again. apply safe_bind, (safe_read h x); [done|].
  destruct (repeat x =? 0); [apply runs_refl; by exists l|].
  apply safe_bind. rewrite (stop_timer_run h x s l) by done. simpl.
  apply (safe_new_deadline _ (after_stop l x)); [done|simpl; lia|]. intros d.
  apply safe_bind, (safe_on_handle h _ (deactivate x)); [by simpl; rewrite lookup_insert_eq|].
  simpl. rewrite insert_insert_eq.
  pose proof (runs_begin s l h x true (activate (set_deadline (deactivate x) (next_timer_id l) d)) d)
    as Hruns.
  unfold begin_timer in Hruns. rewrite N in Hruns |- *. apply Hruns; try done.
  - apply active_activate.
  - rewrite closing_activate. rewrite <- C. apply closing_deactivate.
Qed.

Lemma safe_timer_stop s l h x :
  timer_at s l h x → safe (uv_timer_stop h s) (λ _, runs s).
Proof.
  intros [E Hinv Hx T]. unfold uv_timer_stop. rewrite E. apply safe_bind.
  rewrite (stop_timer_run h x s l) by done. simpl.
  destruct (after_stop_rest l x) as (N & Q & S).
  apply (runs_step s _ l (after_stop l x)); try done; simpl.
  - apply loop_inv_stop; try done. by apply stopped_deactivate.
  - apply (evolves_handle l (heap s) _ h x); simpl; [done..| |by rewrite N| |].
    + left. by rewrite <- closing_deactivate.
    + auto.
    + exists []. by rewrite app_nil_r.
Qed.

(** ** Watchers *)

(** A watcher starts or stops: its list and its handle change together. *)
Lemma runs_watcher s l h x x' ty hs :
  inner s = Some l → loop_inv l (heap s) → heap s !! h = Some x →
  watcher_type ty = true → type x = ty → type x' = ty → is_closing x' = is_closing x →
  (is_active x' = true → is_closing x = false) →
  NoDup hs → (∀ h2, h2 ∈ hs ↔ if decide (h2 = h) then is_active x' = true else h2 ∈ watchers ty l) →
  runs s (with_loop s (set_watchers ty l hs) (<[h := x']> (heap s))).
Proof.
  intros E Hinv Hx Hty T T' C A Hnd Hhs.
  destruct (set_watchers_rest ty l hs Hty) as (_ & E2 & E3 & _ & E5).
  apply (runs_step s _ l (set_watchers ty l hs)); try done; simpl.
  - apply (loop_inv_watcher ty l (heap s) h x); try done; [by rewrite C|].
    rewrite C. intros Hc. destruct (is_active x'); [|done]. by rewrite A in Hc.
  - apply (evolves_same l (heap s) _ h x); try done; [congruence|].
    intros Ht. rewrite Ht in T. by rewrite <- T in Hty.
Qed.

Lemma elem_of_list_without h h2 (hs : list Z) :
  h2 ∈ filter (λ h', h' ≠ h) hs ↔ h2 ≠ h ∧ h2 ∈ hs.
Proof. by rewrite list_elem_of_filter. Qed.

Lemma safe_watcher_start s l h x ty c :
  inner s = Some l → loop_inv l (heap s) → heap s !! h = Some x →
  watcher_type ty = true → type x = ty → is_closing x = false →
  safe (uv_watcher_start ty h c s) (λ _, runs s).
Proof.
  intros E Hinv Hx Hty T C. unfold uv_watcher_start. apply safe_bind, (safe_read h x); [done|].
  destruct (is_active x) eqn:A; apply safe_bind; simpl.
  - rewrite E. apply (runs_step s _ l l); try done; simpl.
    + apply (loop_inv_core _ _ h x); done.
    + apply (evolves_same l (heap s) _ h x); try done. intros Ht. rewrite Ht in T.
      by rewrite <- T in Hty.
  - apply safe_bind, (safe_inner l); [done|]. simpl.
    apply (runs_watcher s l h x _ ty); try done.
    + by rewrite closing_activate.
    + apply NoDup_app. split; [by apply (li_watchers_nodup _ _ Hinv)|]. split; [|apply NoDup_singleton].
      intros h2 Hin ->%list_elem_of_singleton. apply (li_watchers _ _ Hinv) in Hin as (y & Hy & _ & Ay);
        [congruence|done].
    + intros h2. rewrite elem_of_app, list_elem_of_singleton. case_decide as Hd.
      * rewrite active_activate. tauto.
      * tauto.
Qed.

Lemma safe_watcher_stop s l h x ty :
  inner s = Some l → loop_inv l (heap s) → heap s !! h = Some x →
  watcher_type ty = true → type x = ty → safe (uv_watcher_stop ty h s) (λ _, runs s).
Proof.
  intros E Hinv Hx Hty T. unfold uv_watcher_stop. apply safe_bind, (safe_read h x); [done|].
  destruct (is_active x) eqn:A; simpl; [|apply runs_refl; by exists l].
  apply safe_bind, (safe_inner l); [done|]. unfold stop_watcher. apply safe_bind.
  apply safe_bind, (safe_inner l); [done|]. apply safe_bind. simpl.
  apply (safe_on_handle h _ x); [done|]. apply safe_bind.
  apply (safe_on_handle h _ (deactivate x)); [by simpl; rewrite lookup_insert_eq|]. simpl.
  rewrite insert_insert_eq.
  apply (runs_watcher s l h x _ ty); try done; try by flag_bits.
  - apply NoDup_filter, (li_watchers_nodup _ _ Hinv).
  - intros h2. rewrite elem_of_list_without. case_decide as Hd; [|tauto].
    split; [tauto|]. by flag_bits.
Qed.

(** ** Handles that keep their place *)

Lemma runs_core s l h x x' :
  inner s = Some l → loop_inv l (heap s) → heap s !! h = Some x → same_core x x' →
  cb x' = cb x → runs s (with_loop s l (<[h := x']> (heap s))).
Proof.
  intros E Hinv Hx Hc Hcb. apply (runs_step s _ l l); try done.
  - by apply (loop_inv_core _ _ h x).
  - destruct Hc as (T & A & C & _ & D). apply (evolves_same l (heap s) _ h x); try done.
    intros _. unfold start_of. by rewrite Hcb, D.
Qed.

Lemma safe_on_core s l h x f :
  inner s = Some l → loop_inv l (heap s) → heap s !! h = Some x → same_core x (f x) →
  cb (f x) = cb x → safe (on_handle h f s) (λ _, runs s).
Proof.
  intros E Hinv Hx Hc Hcb. apply (safe_on_handle h _ x); [done|]. rewrite E.
  by apply (runs_core s l h x).
Qed.

Lemma runs_init s l h ty :
  inner s = Some l → loop_inv l (heap s) → heap s !! h = None →
  runs s (with_loop s l (<[h := mkHandle ty UV_HANDLE_REF None 0 0 0 0 tcp_init]> (heap s))).
Proof.
  intros E Hinv Hh. apply (runs_step s _ l l); try done.
  - by apply loop_inv_init.
  - by apply evolves_init.
Qed.

Lemma runs_free s l h x :
  inner s = Some l → loop_inv l (heap s) → heap s !! h = Some x → is_closing x = true →
  h ∉ (closing_handles l).*1 → runs s (with_loop s l (delete h (heap s))).
Proof.
  intros E Hinv Hx C Hq. apply (runs_step s _ l l); try done.
  - by apply (loop_inv_free _ _ h x).
  - by apply (evolves_free _ _ h x).
Qed.

(** ** TCP handles *)

(** Sockets and the clock are no part of the invariant. *)
Lemma runs_as s s1 s2 :
  runs s s1 → inner s2 = inner s1 → heap s2 = heap s1 → called s2 = called s1 → runs s s2.
Proof.
  intros [(l & E & Hinv) V Q] E2 Hh Hc. split.
  - exists l. by rewrite E2, Hh.
  - intros l1 l2. rewrite E2, Hh. apply V.
  - by rewrite Hc.
Qed.

Definition registered l h : UvLoopInner :=
  set_tcp_handles l (if decide (h ∈ tcp_handles l) then tcp_handles l else tcp_handles l ++ [h]).

Lemma safe_register s l h (Q : unit → ustate J → Prop) :
  inner s = Some l → Q tt (with_loop s (registered l h) (heap s)) → safe (register_tcp h s) Q.
Proof.
  intros E HQ. unfold register_tcp. apply safe_bind, (safe_inner l); [done|].
  unfold registered in HQ. case_bool_decide; case_decide; try done. simpl.
  replace (set_tcp_handles l (tcp_handles l)) with l in HQ by by destruct l.
  unfold with_loop in HQ. rewrite <- E in HQ. by destruct s.
Qed.

(** A TCP handle that C code may use. *)
Record tcp_at s l h x : Prop := {
  tc_inner : inner s = Some l;
  tc_inv : loop_inv l (heap s);
  tc_heap : heap s !! h = Some x;
  tc_type : type x = UV_TCP;
  tc_open : is_closing x = false
}.

Lemma runs_registered s l h x x' :
  tcp_at s l h x → type x' = UV_TCP → is_closing x' = false →
  runs s (with_loop s (registered l h) (<[h := x']> (heap s))).
Proof.
  intros [E Hinv Hx T C] T' C'. apply (runs_step s _ l (registered l h)); try done; simpl.
  - apply (loop_inv_tcp l (heap s) h x); try done; try congruence; case_decide as Hd.
    + apply (li_tcp_nodup _ _ Hinv).
    + apply NoDup_app. split; [apply (li_tcp_nodup _ _ Hinv)|]. split; [|apply NoDup_singleton].
      by intros h2 Hin ->%list_elem_of_singleton.
    + done.
    + intros h2 Hne. rewrite elem_of_app, list_elem_of_singleton. tauto.
    + done.
    + intros _. apply elem_of_app. right. by apply list_elem_of_singleton.
  - apply (evolves_same l (heap s) _ h x); try done; congruence.
Qed.

Ltac tcp_op := intros Hat; destruct (id Hat) as [E Hinv Hx T C].

(** The handle is changed again. *)
Ltac again x := simpl; apply (safe_on_handle _ _ x); [by simpl; rewrite lookup_insert_eq|]; simpl;
  rewrite ?insert_insert_eq.

Lemma safe_adopt_stream s l h x k :
  inner s = Some l → loop_inv l (heap s) → heap s !! h = Some x →
  safe (adopt_stream H h k s) (λ _ s', runs s s' ∧
    ∃ j, s' = mkU j (now s) (inner s) (<[h := set_tcp x (set_stream (tcp x) (Some k))]> (heap s))
                  (called s) (sent s)).
Proof.
  intros E Hinv Hx. unfold adopt_stream. apply safe_bind, (safe_read h x); [done|].
  assert (runs s (with_loop s l (<[h := set_tcp x (set_stream (tcp x) (Some k))]> (heap s)))) as Hr
    by by apply (runs_core s l h x).
  apply safe_bind. destruct (internal_nodelay (tcp x)).
  - apply safe_bind, safe_sock. intros ok j. simpl. apply (safe_on_handle h _ x); [done|]. simpl.
    split; [|by eexists]. by apply (runs_as s _ _ Hr); rewrite ?E.
  - simpl. apply (safe_on_handle h _ x); [done|]. simpl.
    split; [|by eexists]. by apply (runs_as s _ _ Hr); rewrite ?E.
Qed.

Lemma safe_tcp_connect s l h x req a c :
  tcp_at s l h x → safe (uv_tcp_connect H req h a c s) (λ _, runs s).
Proof.
  tcp_op. unfold uv_tcp_connect. destruct (sockaddr_to_std a); [|apply runs_refl; by exists l].
  apply safe_bind, (safe_inner l); [done|]. apply safe_bind, (safe_on_handle h _ x); [done|].
  apply safe_bind, (safe_register _ l); [done|]. apply safe_bind, safe_sock. intros f j.
  apply safe_bind. again (activate x).
  apply (runs_as s _ _ (runs_registered s l h x
    (set_tcp (activate x) (set_connect (tcp x) (Some (mkConnect f req c)))) Hat T
    (eq_trans (closing_activate _) C))); done.
Qed.

Lemma safe_listen s l h x c : tcp_at s l h x → safe (uv_listen H h c s) (λ _, runs s).
Proof.
  tcp_op. unfold uv_listen. apply safe_bind, (safe_read h x); [done|].
  apply safe_bind, safe_sock. intros r j.
  assert (runs s (mkU j (now s) (inner s) (heap s) (called s) (sent s))) as Hsame.
  { apply (runs_as s s); try done. apply runs_refl. by exists l. }
  destruct r as [[[k addr]|]|]; [|done|done].
  apply safe_bind, (safe_on_handle h _ x); [done|].
  apply safe_bind, (safe_register _ l); [done|].
  apply (runs_as s _ _ (runs_registered s l h x
    (activate (set_tcp x (set_listener (tcp x) (Some k) addr c))) Hat T (eq_trans (closing_activate _) C))); done.
Qed.

Lemma safe_read_start s l h x a r : tcp_at s l h x → safe (uv_read_start h a r s) (λ _, runs s).
Proof.
  tcp_op. unfold uv_read_start. apply safe_bind, (safe_on_handle h _ x); [done|].
  apply safe_bind, (safe_register _ l); [done|].
  apply safe_ret, (runs_registered s l h x); [done..|]. by rewrite closing_activate.
Qed.

Lemma safe_tcp_field {A} s l h x f (a : A) :
  tcp_at s l h x → safe ((_ ← on_tcp h f; mret a : U A) s) (λ _, runs s).
Proof.
  tcp_op. apply safe_bind, (safe_mono _ (λ _, runs s)); [|done].
  by apply (safe_on_core s l h x).
Qed.

Lemma runs_world s j st :
  uv_ok s → runs s (mkU j (now s) (inner s) (heap s) (called s) st).
Proof. intros Hok. by apply (runs_as s s _ (runs_refl s Hok)). Qed.

Lemma safe_tcp_open s l h x fd : tcp_at s l h x → safe (uv_tcp_open H h fd s) (λ _, runs s).
Proof.
  tcp_op. unfold uv_tcp_open. apply safe_bind, safe_sock. intros k j.
  pose proof (runs_world s j (sent s) ltac:(by exists l)) as Hw.
  destruct k as [k|]; [|done]. apply safe_bind.
  eapply safe_mono; [by apply (safe_adopt_stream _ l h x)|].
  intros _ s' [Hr _]. by apply (runs_trans _ _ _ Hw).
Qed.

Lemma safe_tcp_nodelay s l h x e : tcp_at s l h x → safe (uv_tcp_nodelay H h e s) (λ _, runs s).
Proof.
  tcp_op. unfold uv_tcp_nodelay. apply safe_bind, (safe_on_handle h _ x); [done|].
  set (x' := set_tcp x _). apply safe_bind, (safe_read h x'); [by simpl; rewrite lookup_insert_eq|].
  assert (runs s (with_loop s l (<[h := x']> (heap s)))) as Hr by by apply (runs_core s l h x).
  destruct (internal_stream (tcp x')).
  - apply safe_bind, safe_sock. intros ok j. by apply (runs_as _ _ _ Hr).
  - by apply (runs_as _ _ _ Hr).
Qed.

Lemma safe_accept s l sv cl x y :
  tcp_at s l sv x → tcp_at s l cl y → safe (uv_accept H sv cl s) (λ _, runs s).
Proof.
  intros [E Hinv Hx T C] [_ _ Hy T' C']. unfold uv_accept.
  apply safe_bind, (safe_read sv x); [done|].
  destruct (internal_backlog (tcp x)) as [|k q].
  - apply safe_bind, (safe_read cl y); [done|]. apply runs_refl. by exists l.
  - apply safe_bind. set (x' := set_tcp x (set_backlog (tcp x) q)).
    assert (runs s (with_loop s l (<[sv := x']> (heap s)))) as Hr by by apply (runs_core s l sv x).
    apply (safe_on_handle sv _ x); [done|]. fold x'. rewrite E. apply safe_bind.
    assert (∃ z, <[sv := x']> (heap s) !! cl = Some z) as [z Hz].
    { destruct (decide (sv = cl)) as [->|Hne]; [exists x'; by rewrite lookup_insert_eq|].
      exists y. by rewrite lookup_insert_ne. }
    eapply safe_mono; [apply (safe_adopt_stream _ l cl z); try done; simpl|].
    + by apply (loop_inv_core _ _ sv x).
    + intros _ s' [Hr' _]. by apply (runs_trans _ _ _ Hr).
Qed.

Lemma safe_read_stop s l h x : tcp_at s l h x → safe (uv_read_stop h s) (λ _, runs s).
Proof.
  tcp_op. unfold uv_read_stop. apply safe_bind, (safe_on_handle h _ x); [done|].
  set (x' := set_tcp x _). apply safe_bind, (safe_read h x'); [by simpl; rewrite lookup_insert_eq|].
  assert (runs s (with_loop s l (<[h := x']> (heap s)))) as Hr by by apply (runs_core s l h x).
  assert (runs s (mkU (world s) (now s) (inner s) (<[h := x']> (heap s)) (called s) (sent s))) as Hr2
    by by apply (runs_as _ _ _ Hr).
  cbv zeta. apply safe_bind. destruct (internal_connection_cb (tcp x')); [done|].
  destruct (internal_connect (tcp x')); [done|].
  destruct (internal_write_queue (tcp x')); [|done].
  simpl. rewrite insert_insert_eq.
  apply (runs_step s _ l l); try done; simpl.
  - replace l with (set_tcp_handles l (tcp_handles l)) by by destruct l.
    apply (loop_inv_tcp l (heap s) h x); try done; rewrite ?active_deactivate, ?closing_deactivate; try done.
    apply (li_tcp_nodup _ _ Hinv).
  - apply (evolves_same l (heap s) _ h x); try done. by rewrite closing_deactivate.
Qed.

(** Writing keeps the loop and changes the queue of the handle at most. *)
Lemma safe_push_write s l h x req d c :
  inner s = Some l → loop_inv l (heap s) → heap s !! h = Some x →
  safe (push_write h req d c s) (λ _, runs s).
Proof. intros E Hinv Hx. by apply (safe_on_core s l h x). Qed.

Lemma safe_write_one fuel s l h x req k d off c :
  inner s = Some l → loop_inv l (heap s) → heap s !! h = Some x →
  safe (write_one H fuel h req k d off c s) (λ _, runs s).
Proof.
  intros E Hinv Hx. revert s off E Hinv Hx. induction fuel as [|fuel IH]; intros s off E Hinv Hx;
    [done|]. simpl.
  apply safe_bind, safe_try_write. intros r j st.
  pose proof (runs_world s j st ltac:(by exists l)) as Hw. destruct r as [n| |]; simpl; [|..|done].
  - destruct (_ <=? _); [done|]. eapply safe_mono; [by apply IH|]. intros a s1 Hr.
    by apply (runs_trans _ _ _ Hw).
  - apply safe_bind. eapply safe_mono; [by apply (safe_push_write _ l h x)|].
    intros ? s1 Hr. by apply (runs_trans _ _ _ Hw).
Qed.

Lemma safe_start_write fuel s l h x req bufs c :
  inner s = Some l → loop_inv l (heap s) → heap s !! h = Some x →
  safe (start_write H fuel req h bufs c s) (λ _, runs s).
Proof.
  intros E Hinv Hx. assert (uv_ok s) as Hok by by exists l.
  assert (∀ d j st, let s1 := mkU j (now s) (inner s) (heap s) (called s) st in
    safe ((_ ← push_write h req d c; mret None : U (option Z)) s1) (λ _, runs s)) as Hpush.
  { intros d j st s1. apply safe_bind.
    eapply safe_mono; [by apply (safe_push_write s1 l h x)|]. intros a s' Hr.
    by apply (runs_trans _ _ _ (runs_world s j st Hok)). }
  unfold start_write. apply safe_bind, (safe_read h x); [done|].
  destruct (internal_stream (tcp x)) as [k|]; [|by apply runs_refl].
  destruct (internal_write_queue (tcp x)); [|by destruct s; apply Hpush].
  assert (∀ v tot, safe ((if tot =? 0 then mret (Some 0) else
    r ← try_write_vectored H k v;
    match r with
    | Done n => if tot <=? n then mret (Some 0)
                else _ ← push_write h req (skip_bufs n v) c; mret None
    | WouldBlock => _ ← push_write h req (collect_bufs bufs) c; mret None
    | Failed => mret (Some UV_EPIPE)
    end : U (option Z)) s) (λ _, runs s)) as Hvec.
  { intros v tot. destruct (tot =? 0); [by apply runs_refl|].
    apply safe_bind, safe_try_write_vectored. intros r j st.
    destruct r as [n| |]; [|apply Hpush|by apply runs_world].
    destruct (_ <=? _); [by apply runs_world|apply Hpush]. }
  destruct bufs as [|b [|]]; [apply Hvec| |apply Hvec].
  destruct (default [] b); [by apply runs_refl|]. by apply (safe_write_one _ s l h x).
Qed.

Lemma safe_shutdown s l h x :
  inner s = Some l → loop_inv l (heap s) → heap s !! h = Some x →
  safe (start_shutdown H h s) (λ _, runs s).
Proof.
  intros E Hinv Hx. unfold start_shutdown. apply safe_bind, (safe_read h x); [done|].
  destruct (internal_stream _); [|apply runs_refl; by exists l].
  apply safe_bind, safe_sock. intros ok j. apply runs_world. by exists l.
Qed.

(** ** Closing *)

Definition mark_closing x : uv_handle :=
  deactivate (set_flags x (Z.lor (flags x) UV_HANDLE_CLOSING)).

Lemma closing_mark x : is_closing (mark_closing x) = true.
Proof. unfold mark_closing. by rewrite closing_deactivate, closing_closed. Qed.
Lemma active_mark x : is_active (mark_closing x) = false.
Proof. apply active_deactivate. Qed.

(** The handle left its list, and joins that of closing handles. *)
Lemma runs_closed s l h x l1 x' c :
  inner s = Some l → loop_inv l (heap s) → heap s !! h = Some x → is_closing x = false →
  loop_inv l1 (<[h := x']> (heap s)) → type x' = type x → is_closing x' = true → start_of x' = start_of x →
  next_timer_id l1 = next_timer_id l → closing_handles l1 = closing_handles l →
  (∀ id h2, timer_handles l1 !! id = Some h2 → timer_handles l !! id = Some h2) →
  runs s (with_loop s (set_closing l1 (closing_handles l1 ++ [(h, c)])) (<[h := x']> (heap s))).
Proof.
  intros E Hinv Hx C Hinv1 T' C' Hcb N Q S.
  assert (h ∉ (closing_handles l).*1) as Hq.
  { intros (y & Hy & ?)%(li_closing _ _ Hinv). congruence. }
  assert ((closing_handles l1 ++ [(h, c)]).*1 = (closing_handles l).*1 ++ [h]) as Hfst
    by by rewrite Q, fmap_app.
  apply (runs_step s _ l (set_closing l1 (closing_handles l1 ++ [(h, c)]))); try done; simpl.
  - apply (loop_inv_queue l1 _ h x'); [done|by rewrite lookup_insert_eq|done|..]; rewrite Hfst.
    + apply NoDup_app. split; [apply (li_closing_nodup _ _ Hinv)|].
      split; [by intros h2 Hin ->%list_elem_of_singleton|apply NoDup_singleton].
    + intros h2. rewrite elem_of_app, list_elem_of_singleton, Q. tauto.
  - apply (evolves_handle l (heap s) _ h x); simpl; try done.
    + intros _. right. rewrite Hfst. apply elem_of_app. right. by apply list_elem_of_singleton.
    + by rewrite N.
    + intros id h2 _ Hr. split; [by apply S|done].
    + exists [(h, c)]. by rewrite Q.
Qed.

Lemma safe_close s l h x c :
  inner s = Some l → loop_inv l (heap s) → heap s !! h = Some x → is_closing x = false →
  type x ≠ UV_UNKNOWN_HANDLE → safe (uv_close h c s) (λ _, runs s).
Proof.
  intros E Hinv Hx C Hty. unfold uv_close. apply safe_bind, (safe_on_handle h _ x); [done|].
  fold (mark_closing x). apply safe_bind, (safe_inner l); [done|].
  apply safe_bind, (safe_read h (mark_closing x)); [by simpl; rewrite lookup_insert_eq|].
  change (type (mark_closing x)) with (type x). apply safe_bind.
  assert (∀ ty, type x = ty → watcher_type ty = true →
    safe (stop_watcher ty h (mkU (world s) (now s) (inner s) (<[h := mark_closing x]> (heap s))
      (called s) (sent s)))
     (λ _ s', safe ((l ← get_inner; put_inner (set_closing l (closing_handles l ++ [(h, c)])) : U unit) s')
        (λ _, runs s))) as Hw.
  { intros ty T Ht. destruct (set_watchers_rest ty l (filter (λ h', h' ≠ h) (watchers ty l)) Ht)
      as (_ & E2 & E3 & _ & E5).
    unfold stop_watcher. apply safe_bind, (safe_inner l); [done|]. apply safe_bind. simpl.
    apply (safe_on_handle h _ (mark_closing x)); [by simpl; rewrite lookup_insert_eq|].
    apply safe_bind. simpl. rewrite insert_insert_eq.
    apply (runs_closed s l h x _ (deactivate (mark_closing x)) c); try done.
    - apply (loop_inv_watcher ty l (heap s) h x); try done.
      + apply NoDup_filter, (li_watchers_nodup _ _ Hinv).
      + intros h2. rewrite elem_of_list_without. case_decide as Hd; [|tauto].
        rewrite active_deactivate. split; [tauto|done].
      + by rewrite C.
      + by rewrite active_deactivate.
    - by rewrite closing_deactivate, closing_mark.
    - rewrite E3. auto. }
  destruct (type x) eqn:T; [done| |by apply Hw..|].
  - rewrite (stop_timer_run h (mark_closing x) _ l);
      [|done|by simpl; rewrite lookup_insert_eq]. simpl. rewrite insert_insert_eq.
    destruct (after_stop_rest l x) as (N & Q & S).
    apply (runs_closed s l h x (after_stop l x) (deactivate (mark_closing x)) c); try done.
    + apply loop_inv_stop; try done. split_and!; [done|done|by rewrite active_deactivate|].
      by rewrite C.
    + by rewrite closing_deactivate, closing_mark.
  - unfold stop_tcp. apply safe_bind, (safe_inner l); [done|]. apply safe_bind. simpl.
    apply (safe_on_handle h _ (mark_closing x)); [by simpl; rewrite lookup_insert_eq|].
    simpl. rewrite insert_insert_eq.
    set (x' := deactivate (set_tcp (mark_closing x) _)).
    assert (is_closing x' = true) as C' by (unfold x'; rewrite closing_deactivate; apply closing_mark).
    apply (runs_closed s l h x (set_tcp_handles l (filter (λ h', h' ≠ h) (tcp_handles l))) x' c);
      try done.
    apply (loop_inv_tcp l (heap s) h x); try done.
    + apply NoDup_filter, (li_tcp_nodup _ _ Hinv).
    + intros h2 Hne. rewrite elem_of_list_without. tauto.
    + unfold x'. by rewrite active_deactivate.
    + rewrite elem_of_list_without. tauto.
    + intros _. apply active_deactivate.
Qed.

(** * Every call is safe *)

Lemma safe_exec c s l :
  inner s = Some l → loop_inv l (heap s) → legal c l (heap s) →
  safe (exec_call c s) (λ r s', runs s s' ∧ ∀ i, r = Some i → c_made i = true).
Proof.
  intros E Hinv Hlegal. assert (uv_ok s) as Hok by by exists l.
  assert (∀ A (m : U A), safe (m s) (λ _, runs s) →
    safe ((_ ← m; mret None : U (option invocation)) s)
      (λ r s', runs s s' ∧ ∀ i, r = Some i → c_made i = true)) as Hnone.
  { intros A m Hm. apply safe_bind. eapply safe_mono; [done|]. intros a s' Hr. done. }
  destruct c; simpl in Hlegal; cbn [exec_call].
  - apply Hnone. apply (runs_as s _ _ (runs_init s l h UV_TIMER E Hinv Hlegal)); try done.
  - apply Hnone. destruct Hlegal as ((x & Hx & T & C) & Hn). by apply (safe_timer_start s l h x).
  - apply Hnone. destruct Hlegal as (x & Hx & T). by apply (safe_timer_stop s l h x).
  - apply Hnone. destruct Hlegal as ((x & Hx & T & C) & Hn). by apply (safe_timer_again s l h x).
  - apply Hnone. destruct Hlegal as (x & Hx & T). by apply (safe_on_core s l h x).
  - apply Hnone. destruct Hlegal as [_ Hh].
    apply (runs_as s _ _ (runs_init s l h ty E Hinv Hh)); done.
  - apply Hnone. destruct Hlegal as (Ht & x & Hx & T & C).
    by apply (safe_watcher_start s l h x ty).
  - apply Hnone. destruct Hlegal as (Ht & x & Hx & T). by apply (safe_watcher_stop s l h x ty).
  - apply Hnone. apply (runs_as s _ _ (runs_init s l h UV_TCP E Hinv Hlegal)); try done.
  - apply Hnone. destruct Hlegal as (x & Hx & T & C). by apply (safe_tcp_open s l h x).
  - apply Hnone. destruct Hlegal as (x & Hx & T & C). unfold uv_tcp_bind.
    destruct (sockaddr_to_std addr); [by apply (safe_tcp_field s l h x)|by apply runs_refl].
  - apply Hnone. destruct Hlegal as (x & Hx & T & C). by apply (safe_tcp_connect s l h x).
  - apply Hnone. destruct Hlegal as (x & Hx & T & C). by apply (safe_tcp_nodelay s l h x).
  - apply Hnone. destruct Hlegal as (x & Hx & T & C). by apply (safe_listen s l h x).
  - apply Hnone. destruct Hlegal as ((x & Hx & T & C) & y & Hy & T' & C').
    by apply (safe_accept s l server client x y).
  - apply Hnone. destruct Hlegal as (x & Hx & T & C). by apply (safe_read_start s l h x).
  - apply Hnone. destruct Hlegal as (x & Hx & T & C). by apply (safe_read_stop s l h x).
  - apply Hnone. destruct Hlegal as (x & Hx & T & C). unfold uv_try_write.
    apply safe_bind, (safe_read h x); [done|].
    destruct (internal_write_queue _); [|by apply runs_refl].
    destruct (internal_stream _); [|by apply runs_refl].
    apply safe_bind, safe_try_write. intros r j st. by apply runs_world.
  - destruct Hlegal as (x & Hx & T & C). apply safe_bind.
    eapply safe_mono; [by apply (safe_start_write fuel s l h x)|].
    intros st s' Hr. split; [done|]. intros i. by destruct st, c; intros [= <-].
  - destruct Hlegal as (x & Hx & T & C). apply safe_bind.
    eapply safe_mono; [by apply (safe_shutdown s l h x)|].
    intros st s' Hr. split; [done|]. intros i. by destruct c; intros [= <-].
  - apply Hnone. destruct Hlegal as (x & Hx & C & Hty). by apply (safe_close s l h x).
  - apply Hnone. destruct Hlegal as [x Hx]. apply (safe_on_core s l h x); try done.
    split_and!; try done; [apply active_ref|apply closing_ref].
  - apply Hnone. destruct Hlegal as [x Hx]. apply (safe_on_core s l h x); try done.
    split_and!; try done; [apply active_unref|apply closing_unref].
  - destruct Hlegal as (x & Hx & C & Hq). split; [|done].
    apply (runs_as s _ _ (runs_free s l h x E Hinv Hx C Hq)); done.
Qed.

(** C code that follows the rules keeps the loop in order, whatever it does. *)
Lemma runs_call s c l r s' :
  uv_ok s → inner s = Some l → legal c l (heap s) → exec_call c s = Ret (r, s') →
  runs s (match r with Some i => log_call i s' | None => s' end).
Proof.
  intros (l2 & E2 & Hinv) E Hl Hc. assert (l2 = l) as -> by congruence.
  pose proof (safe_exec c s l E Hinv Hl) as Hs. rewrite Hc in Hs. destruct Hs as [Hr Hi].
  destruct r as [i|]; [|done]. apply (runs_trans _ _ _ Hr).
  destruct (ru_ok _ _ Hr) as (l' & E' & Hinv'). split.
  - by exists l'.
  - intros l1 l3 E1 E3. simpl in E3. assert (l3 = l1) as -> by congruence. apply evolves_refl.
  - exists [i]. split; [done|]. apply Forall_singleton. auto.
Qed.

Lemma runs_final s s1 o :
  runs s s1 → match o with Ret s' => runs s1 s' | Panic f => f ≠ BadMemory end →
  match o with Ret s' => runs s s' | Panic f => f ≠ BadMemory end.
Proof. intros Hr. destruct o; [by apply runs_trans|done]. Qed.

(** C code that follows the rules keeps the loop in order, whatever it does. *)
Lemma c_run_safe s o :
  c_run s o → uv_ok s → match o with Ret s' => runs s s' | Panic f => f ≠ BadMemory end.
Proof.
  induction 1 as [s|s j n o Hrun IH|s c l s' o E Hl Hc Hrun IH|s c l i s1 s2 o E Hl Hc Hrun1 IH1 Hrun2 IH2
    |s c l i s1 f E Hl Hc Hrun IH|s c l f E Hl Hc]; intros Hok.
  - by apply runs_refl.
  - assert (runs s (mkU j n (inner s) (heap s) (called s) (sent s))) as Hw
      by by apply (runs_as s s _ (runs_refl s Hok)).
    apply (runs_final _ _ _ Hw), IH, (ru_ok _ _ Hw).
  - pose proof (runs_call s c l None s' Hok E Hl Hc) as Hr.
    apply (runs_final _ _ _ Hr), IH, (ru_ok _ _ Hr).
  - pose proof (runs_call s c l (Some i) s1 Hok E Hl Hc) as Hr.
    specialize (IH1 (ru_ok _ _ Hr)). apply (runs_final _ _ _ Hr), (runs_final _ _ _ IH1), IH2.
    apply (ru_ok _ _ IH1).
  - pose proof (runs_call s c l (Some i) s1 Hok E Hl Hc) as Hr. apply IH, (ru_ok _ _ Hr).
  - destruct Hok as (l2 & E2 & Hinv). assert (l2 = l) as -> by congruence.
    pose proof (safe_exec c s l E Hinv Hl) as Hs. by rewrite Hc in Hs.
Qed.
End client.

Arguments uv_ok {J} s.
Arguments runs {J} s s'.

(** * Hosts that play scripts *)

Section script.
Context (p : profile) {J : Type} (ask : ∀ A, sock_query A → J → A * J).

(** Sockets that answer [ask], and callbacks that do nothing. *)
Definition silent_host : uv_host J := mkUvHost ask (λ A e,
  match e in c_entry A return ustate J → outcome (A * ustate J) with
  | Call _ => λ s, Ret (tt, s)
  | Alloc _ _ n => λ s, Ret (Some n, s)
  end).

(** Makes the calls that are legal, and skips the others. *)
Fixpoint play (cs : list ucall) (s : ustate J) : outcome (ustate J) :=
  match cs, inner s with
  | [], _ | _, None => Ret s
  | c :: cs, Some l =>
      if decide (legal c l (heap s)) then
        match exec_call p silent_host c s with
        | Ret (Some i, s) => play cs (log_call i s)
        | Ret (None, s) => play cs s
        | Panic f => Panic f
        end
      else play cs s
  end.

(** A callback makes the calls of its script. *)
Definition scripted_host (script : invocation → list ucall) : uv_host J := mkUvHost ask (λ A e,
  match e in c_entry A return ustate J → outcome (A * ustate J) with
  | Call i => λ s, s' ← play (script i) s; Ret (tt, s')
  | Alloc _ _ n => λ s, Ret (Some n, s)
  end).

Lemma play_run H cs s : @ask_sock J H = ask → c_run p H s (play cs s).
Proof.
  intros Hask. assert (∀ c s, exec_call p silent_host c s = exec_call p H c s) as Heq.
  { intros c s1. destruct H as [a e]. simpl in Hask. subst a. by destruct c. }
  revert s. induction cs as [|c cs IH]; intros s; simpl; [by destruct (inner s); apply c_done|].
  destruct (inner s) as [l|] eqn:E; [|apply c_done]. case_decide as Hl; [|apply IH].
  rewrite Heq. destruct (exec_call p H c s) as [[[i|] s1]|f] eqn:Hc.
  - by apply (c_call_back _ _ s c l i s1 (log_call i s1)); [..|apply c_done|apply IH].
  - by apply (c_call _ _ s c l s1).
  - by apply (c_panic _ _ s c l).
Qed.

Lemma scripted_rules script : c_follows_rules p (scripted_host script).
Proof.
  intros A e s _. destruct e; simpl; [|apply c_done].
  pose proof (play_run (scripted_host script) (script i) s eq_refl) as Hp.
  by destruct (play (script i) s).
Qed.

Lemma play_ok cs s s' : uv_ok s → play cs s = Ret s' → uv_ok s'.
Proof.
  intros Hok Hp. pose proof (play_run silent_host cs s eq_refl) as Hrun. rewrite Hp in Hrun.
  apply (ru_ok _ _ (c_run_safe p silent_host s (Ret s') Hrun Hok)).
Qed.

(** A loop in which nothing happened yet. *)
Definition new_loop (j : J) (n : Z) : ustate J := mkU j n (Some UvLoopInner_new) ∅ [] [].

Lemma new_loop_ok j n : uv_ok (new_loop j n).
Proof.
  exists UvLoopInner_new. split; [done|].
  split; simpl; try done; try by intros ?? Hin; try apply elem_of_nil in Hin.
  - constructor.
  - intros ty h Ht. split; [|by intros (x & Hx & _)].
    destruct ty; simpl; by intros ?%elem_of_nil.
  - intros []; apply NoDup_nil_2.
  - by intros h ?%elem_of_nil.
  - apply NoDup_nil_2.
  - by intros h ?%elem_of_nil.
  - apply NoDup_nil_2.
Qed.
End script.
