(* ===== verification/UvPhases.v ===== *)
(** The phases of the loop of [UvLoop] over C code that follows libuv's rules: none of
    them touches freed memory; expired timers fire in order, each once; close callbacks
    come once per closed handle, in order.  Also what the phases do not do. *)

From S2P Require Import Prelude UvLoop UvHandles UvClient.
From Stdlib Require Import Sorting.Sorted.

Local Open Scope Z_scope.

Section phases.
Context (p : profile) {J : Type} (H : uv_host J).
Abbreviation U := (umethod J).
Implicit Types (s : ustate J) (l : UvLoopInner) (hp : gmap Z uv_handle) (h : Z) (x : uv_handle).
Hypothesis rules : c_follows_rules p H.

(** * Callbacks *)

Lemma safe_entry {A} (e : c_entry A) s : uv_ok s → safe (enter_c H e s) (λ _, runs s).
Proof.
  intros Hok. pose proof (c_run_safe p H s _ (rules A e s Hok) Hok) as Hs.
  by destruct (enter_c H e s) as [[a s']|f].
Qed.

Lemma safe_call i s : uv_ok s → safe (call H i s) (λ _, runs (log_call i s)).
Proof. intros Hok. by apply (safe_entry (Call i) (log_call i s)). Qed.

(** Memory in use stays in use. *)
Record keeps s s' : Prop := {
  ke_ok : uv_ok s';
  ke_pinned : ∀ l l', inner s = Some l → inner s' = Some l' →
    ∀ h ty, pinned l (heap s) h ty → pinned l' (heap s') h ty
}.

Lemma keeps_refl s : uv_ok s → keeps s s.
Proof. intros Hok. split; [done|]. intros l l' E E'. by simplify_eq. Qed.

Lemma keeps_trans s1 s2 s3 : keeps s1 s2 → keeps s2 s3 → keeps s1 s3.
Proof.
  intros [(l2 & E2 & _) K1] [O3 K2]. split; [done|]. intros l1 l3 E1 E3 h ty Hp. eauto.
Qed.

Lemma runs_keeps s s' : runs s s' → keeps s s'.
Proof. intros [O V _]. split; [done|]. intros l l' E E'. apply (V l l' E E'). Qed.

Lemma keeps_as s s1 s2 :
  keeps s s1 → inner s2 = inner s1 → heap s2 = heap s1 → keeps s s2.
Proof.
  intros [(l & E & Hinv) K] E2 Hh. split.
  - exists l. by rewrite E2, Hh.
  - intros l1 l2. rewrite E2, Hh. apply K.
Qed.

Lemma safe_call_opt c i s : uv_ok s → safe (call_opt H c i s) (λ _, keeps s).
Proof.
  intros Hok. destruct c as [c|]; [|by apply keeps_refl].
  eapply safe_mono; [by apply safe_call|]. intros a s' Hr%runs_keeps.
  apply (keeps_trans s (log_call (i c) s)); [|done]. by apply (keeps_as s s); [apply keeps_refl|..].
Qed.

(** [keeps] through a bind. *)
Lemma uv_keeps_bind {A B} (m : U A) (k : A → U B) s0 s :
  keeps s0 s → safe (m s) (λ _, keeps s) →
  (∀ a s', keeps s0 s' → safe (k a s') (λ _, keeps s0)) →
  safe ((m ≫= k) s) (λ _, keeps s0).
Proof.
  intros Hk Hm Hc. apply safe_bind. eapply safe_mono; [apply Hm|]. intros a s' Hs'.
  apply Hc. by apply (keeps_trans _ s).
Qed.

(** * Watchers *)

Lemma safe_run_watchers_loop fuel ty i s :
  uv_ok s → safe (run_watchers_loop H fuel ty i s) (λ _, uv_ok).
Proof.
  revert i s. induction fuel as [|fuel IH]; intros i s Hok; [done|].
  destruct (id Hok) as (l & E & Hinv). simpl. apply safe_bind, (safe_inner l); [done|].
  destruct (watchers ty l !! i) as [h|] eqn:Hi; [|done].
  assert (∃ x, heap s !! h = Some x) as [x Hx].
  { apply list_elem_of_lookup_2 in Hi. destruct (watcher_type ty) eqn:Hty;
      [|by apply (unregistered_watcher ty l) in Hi].
    apply (li_watchers _ _ Hinv) in Hi as (x & Hx & _); [by exists x|done]. }
  apply safe_bind, (safe_read h x); [done|]. apply safe_bind.
  destruct (is_active x); [|by apply IH].
  eapply safe_mono; [by apply safe_call_opt|]. intros a s' Hk. apply IH, (ke_ok _ _ Hk).
Qed.

(** * Close callbacks *)

Definition is_close (i : invocation) : bool := match i with OnClose _ _ => true | _ => false end.
Definition close_calls (new : list invocation) : list invocation := filter is_close new.

Lemma close_calls_made new : Forall (λ i, c_made i = true) new → close_calls new = [].
Proof. induction 1 as [|i new Hi _ IH]; [done|]. unfold close_calls. by destruct i. Qed.

Lemma close_calls_app a b : close_calls (a ++ b) = close_calls a ++ close_calls b.
Proof. apply filter_app. Qed.

Definition close_calls_of (q : list (Z * option callback)) : list invocation :=
  omap (λ e, (λ c, OnClose c e.1) <$> e.2) q.

Lemma safe_call_closing q s :
  uv_ok s → safe (call_closing H q s) (λ _ s', uv_ok s' ∧
    (∀ l, inner s = Some l → ∃ l' q', inner s' = Some l' ∧
       closing_handles l' = closing_handles l ++ q') ∧
    close_calls (called s') = close_calls (called s) ++ close_calls_of q).
Proof.
  revert s. induction q as [|[h [c|]] q IH]; intros s Hok; simpl.
  - split_and!; [done| |by rewrite app_nil_r].
    intros l E. exists l, []. by rewrite app_nil_r.
  - apply safe_bind. eapply safe_mono; [by apply safe_call|]. intros [] s1 Hr. cbv beta.
    destruct (id Hr) as [Ho V (new & Hc & Hn)].
    eapply safe_mono; [by apply IH|]. intros [] s' (Ho' & Hcl & Hlog). split_and!; [done| |].
    + intros l E. destruct (id Ho) as (l1 & E1 & _).
      destruct (V l l1 E E1) as [_ _ _ [q1 Q1]]. destruct (Hcl l1 E1) as (l' & q' & E' & Q').
      exists l', (q1 ++ q'). split; [done|]. by rewrite Q', Q1, app_assoc.
    + rewrite Hlog, Hc. simpl. rewrite !close_calls_app, (close_calls_made new) by done.
      simpl. by rewrite app_nil_r, <- app_assoc.
  - by apply IH.
Qed.

(** * TCP handles *)

Definition pinned_at s h : Prop := ∃ l, inner s = Some l ∧ pinned l (heap s) h UV_TCP.

Lemma keeps_pinned s s' h : keeps s s' → pinned_at s h → pinned_at s' h.
Proof. intros [(l' & E' & _) K] (l & E & Hp). exists l'. split; [done|]. by apply (K l l'). Qed.

Lemma safe_read_pinned h s (Q : uv_handle → ustate J → Prop) :
  pinned_at s h → (∀ x, heap s !! h = Some x → type x = UV_TCP → Q x s) → safe (read h s) Q.
Proof. intros (l & E & x & Hx & T & _) HQ. apply (safe_read h x); auto. Qed.

Lemma keeps_on_tcp h f s : uv_ok s → pinned_at s h → safe (on_tcp h f s) (λ _, keeps s).
Proof.
  intros (l & E & Hinv) (l2 & E2 & x & Hx & T & _).
  eapply safe_mono; [by apply (safe_on_core s l h x)|]. intros a s'. apply runs_keeps.
Qed.

Lemma keeps_world s j st : uv_ok s → keeps s (mkU j (now s) (inner s) (heap s) (called s) st).
Proof. intros Hok. by apply runs_keeps, runs_world. Qed.

Lemma keeps_sock {A} (q : sock_query A) s : uv_ok s → safe (sock H q s) (λ _, keeps s).
Proof. intros Hok. apply safe_sock. intros a j. by apply keeps_world. Qed.

Lemma keeps_try_write k d s : uv_ok s → safe (try_write H k d s) (λ _, keeps s).
Proof. intros Hok. apply safe_try_write. intros a j st. by apply keeps_world. Qed.

Lemma keeps_alloc c h s : uv_ok s → safe (alloc H c h s) (λ _, keeps s).
Proof.
  intros Hok. eapply safe_mono; [by apply (safe_entry (Alloc c h 65536))|].
  intros a s'. apply runs_keeps.
Qed.

Lemma keeps_adopt h k s : uv_ok s → pinned_at s h → safe (adopt_stream H h k s) (λ _, keeps s).
Proof.
  intros (l & E & Hinv) (l2 & E2 & x & Hx & T & _).
  eapply safe_mono; [by apply (safe_adopt_stream H s l h x)|]. intros a s' [Hr _].
  by apply runs_keeps.
Qed.

(** A step after [s0]: [m] keeps what [s] has, and the rest may rely on it. *)
Lemma after {A B} (m : U A) (k : A → U B) s0 s h :
  keeps s0 s → pinned_at s h → (uv_ok s → safe (m s) (λ _, keeps s)) →
  (∀ a s', keeps s0 s' → pinned_at s' h → safe (k a s') (λ _, keeps s0)) →
  safe ((m ≫= k) s) (λ _, keeps s0).
Proof.
  intros K0 Hp Hm Hk. apply safe_bind. eapply safe_mono; [apply Hm, (ke_ok _ _ K0)|].
  intros a s' K'. apply Hk; [by apply (keeps_trans _ s)|by apply (keeps_pinned s)].
Qed.

(** The handle is read again. *)
Lemma reread {B} (k : uv_handle → U B) s0 s h :
  keeps s0 s → pinned_at s h → (∀ x, safe (k x s) (λ _, keeps s0)) →
  safe ((x ← read h; k x) s) (λ _, keeps s0).
Proof. intros K0 Hp Hk. apply safe_bind, safe_read_pinned; [done|]. intros x _ _. apply Hk. Qed.

(** Ends a run that kept everything. *)
Ltac kept := intros; simpl; first [done | by apply keeps_refl].

Lemma safe_poll_connect h s0 s :
  keeps s0 s → pinned_at s h → safe (poll_connect H h s) (λ _, keeps s0).
Proof.
  intros K Hp. unfold poll_connect. apply reread; [done..|]. intros x.
  destruct (internal_connect (tcp x)) as [pending|]; [|done].
  apply (after _ _ s0 s h); [done..|by apply keeps_sock|]. intros [r|] s1 K1 Hp1; [|done].
  apply (after _ _ s0 s1 h); [done..| |].
  { intros Hok. destruct r as [k|]; [|by apply keeps_refl].
    apply safe_bind. by apply keeps_adopt. }
  intros st s2 K2 Hp2. apply (after _ _ s0 s2 h); [done..| |].
  { intros Hok. by apply keeps_on_tcp. }
  intros u s3 K3 Hp3. eapply safe_mono; [apply safe_call_opt, (ke_ok _ _ K3)|].
  intros a s'. by apply keeps_trans.
Qed.

Lemma safe_accept_loop fuel h k b s0 s :
  keeps s0 s → pinned_at s h → safe (accept_loop H fuel h k b s) (λ _, keeps s0).
Proof.
  revert b s. induction fuel as [|fuel IH]; intros b s K Hp; [done|]. simpl.
  apply (after _ _ s0 s h); [done..|by apply keeps_sock|].
  intros [[c|]|] s1 K1 Hp1; [|done..].
  apply (after _ _ s0 s1 h); [done..| |intros _ s2; apply IH].
  intros Hok. by apply keeps_on_tcp.
Qed.

Lemma safe_backlog_loop fuel h s0 s :
  keeps s0 s → pinned_at s h → safe (backlog_loop H fuel h s) (λ _, keeps s0).
Proof.
  revert s. induction fuel as [|fuel IH]; intros s K Hp; [done|]. simpl.
  apply reread; [done..|]. intros x. destruct (internal_backlog (tcp x)); [done|].
  apply (after _ _ s0 s h); [done..|by apply safe_call_opt|]. intros _ s1 K1 Hp1.
  apply reread; [done..|]. intros x1. destruct (internal_backlog (tcp x1)); [by apply IH|done].
Qed.

Lemma safe_poll_listener fuel h s0 s :
  keeps s0 s → pinned_at s h → safe (poll_listener H fuel h s) (λ _, keeps s0).
Proof.
  intros K Hp. unfold poll_listener. apply reread; [done..|]. intros x.
  destruct (internal_listener (tcp x)), (internal_connection_cb (tcp x)); try done.
  apply (after _ _ s0 s h); [done..| |].
  { intros Hok. by apply safe_accept_loop; [apply keeps_refl|]. }
  intros b s1 K1 Hp1. apply (after _ _ s0 s1 h); [done..| |done].
  intros Hok. by apply safe_backlog_loop; [apply keeps_refl|].
Qed.

Lemma safe_read_loop fuel h a r b s0 s :
  keeps s0 s → pinned_at s h → safe (read_loop H fuel h a r b s) (λ _, keeps s0).
Proof.
  revert b s. induction fuel as [|fuel IH]; intros b s K Hp; [done|]. simpl.
  apply reread; [done..|]. intros x.
  destruct (internal_reading (tcp x)), (internal_stream (tcp x)); try done.
  apply (after _ _ s0 s h); [done..|by apply keeps_alloc|]. intros [len|] s1 K1 Hp1; [|done].
  destruct (len =? 0); [done|]. apply reread; [done..|]. intros x1. apply safe_bind, safe_lift;
    [|by destruct (internal_stream (tcp x1))]. intros k _.
  apply (after _ _ s0 s1 h); [done..|by apply keeps_sock|]. intros q s2 K2 Hp2.
  assert (∀ i s3, keeps s0 s3 → pinned_at s3 h →
    safe (call H i s3) (λ _ s4, keeps s0 s4 ∧ pinned_at s4 h)) as Hcall.
  { intros i s3 K3 Hp3. eapply safe_mono; [apply (safe_call_opt (Some 0) (λ _, i)), (ke_ok _ _ K3)|].
    intros a0 s4 K4. split; [by apply (keeps_trans _ s3)|by apply (keeps_pinned s3)]. }
  assert (safe ((_ ← call H (OnRead r h UV_EOF);
    _ ← on_tcp h (λ t, set_reading t false (internal_alloc_cb t) (internal_read_cb t));
    mret b : U bool) s2) (λ _, keeps s0)) as Heof.
  { apply safe_bind. eapply safe_mono; [by apply Hcall|]. intros _ s3 [K3 Hp3].
    apply (after _ _ s0 s3 h); [done..| |done]. intros Hok. by apply keeps_on_tcp. }
  destruct q as [n| |]; [|done|done]. destruct (n =? 0); [done|].
  apply safe_bind. eapply safe_mono; [by apply Hcall|]. intros _ s3 [K3 Hp3]. by apply IH.
Qed.

Lemma safe_poll_read fuel h s0 s :
  keeps s0 s → pinned_at s h → safe (poll_read H fuel h s) (λ _, keeps s0).
Proof.
  intros K Hp. unfold poll_read. apply reread; [done..|]. intros x.
  destruct (internal_reading (tcp x)), (internal_stream (tcp x)), (internal_alloc_cb (tcp x)),
    (internal_read_cb (tcp x)); try done. by apply safe_read_loop.
Qed.

Lemma safe_write_front fuel h k s0 s :
  keeps s0 s → pinned_at s h → safe (write_front H fuel h k s) (λ _, keeps s0).
Proof.
  revert s. induction fuel as [|fuel IH]; intros s K Hp; [done|]. simpl.
  apply reread; [done..|]. intros x. destruct (internal_write_queue (tcp x)) as [|pw q]; [done|].
  destruct (_ <=? _); [done|]. apply (after _ _ s0 s h); [done..|by apply keeps_try_write|].
  intros [n| |] s1 K1 Hp1; [|done..]. apply (after _ _ s0 s1 h); [done..| |intros _ s2; apply IH].
  intros Hok. by apply keeps_on_tcp.
Qed.

Lemma safe_drain_writes fuel h k s0 s :
  keeps s0 s → pinned_at s h → safe (drain_writes H fuel h k s) (λ _, keeps s0).
Proof.
  revert s. induction fuel as [|fuel IH]; intros s K Hp; [done|]. cbn [drain_writes].
  apply (after _ _ s0 s h); [done..| |].
  { intros Hok. by apply safe_write_front; [apply keeps_refl|]. }
  intros [st|] s1 K1 Hp1; [|done]. apply reread; [done..|]. intros x.
  destruct (internal_write_queue (tcp x)) as [|pw q]; [done|].
  apply (after _ _ s0 s1 h); [done..| |intros _ s2 K2 Hp2]. { intros Hok. by apply keeps_on_tcp. }
  apply (after _ _ s0 s2 h); [done..|by apply safe_call_opt|intros _ s3; apply IH].
Qed.

Lemma safe_poll_write fuel h s0 s :
  keeps s0 s → pinned_at s h → safe (poll_write H fuel h s) (λ _, keeps s0).
Proof.
  intros K Hp. unfold poll_write. apply reread; [done..|]. intros x.
  destruct (internal_write_queue (tcp x)), (internal_stream (tcp x)); try done.
  by apply safe_drain_writes.
Qed.

Lemma safe_poll_tcp fuel h s0 s :
  keeps s0 s → pinned_at s h → safe (poll_tcp H fuel h s) (λ _, keeps s0).
Proof.
  intros K Hp. unfold poll_tcp. apply reread; [done..|]. intros x.
  destruct (negb (is_active x)); [done|].
  apply (after _ _ s0 s h); [done..|intros Hok; by apply safe_poll_connect; [apply keeps_refl|]|].
  intros _ s1 K1 Hp1.
  apply (after _ _ s0 s1 h); [done..|intros Hok; by apply safe_poll_listener; [apply keeps_refl|]|].
  intros b s2 K2 Hp2.
  apply (after _ _ s0 s2 h); [done..|intros Hok; by apply safe_poll_read; [apply keeps_refl|]|].
  intros b' s3 K3 Hp3.
  apply (after _ _ s0 s3 h); [done..|intros Hok; by apply safe_poll_write; [apply keeps_refl|]|done].
Qed.

Lemma safe_io_pass fuel i b s : uv_ok s → safe (io_pass H fuel i b s) (λ _, uv_ok).
Proof.
  revert i b s. induction fuel as [|fuel IH]; intros i b s Hok; [done|]. cbn [io_pass].
  destruct (id Hok) as (l & E & Hinv). apply safe_bind, (safe_inner l); [done|].
  destruct (tcp_handles l !! i) as [h|] eqn:Hi; [|done]. apply safe_bind.
  eapply safe_mono; [apply (safe_poll_tcp (S fuel) h s s)|].
  - by apply keeps_refl.
  - exists l. split; [done|].
    apply list_elem_of_lookup_2, (li_tcp _ _ Hinv) in Hi as (x & Hx & T & C).
    exists x. split_and!; [done..|]. by rewrite C.
  - intros w s' Hk. apply IH, (ke_ok _ _ Hk).
Qed.

Lemma safe_io_passes fuel n b s : uv_ok s → safe (io_passes H fuel n b s) (λ _, uv_ok).
Proof.
  revert b s. induction n as [|n IH]; intros b s Hok; [done|]. simpl. apply safe_bind.
  eapply safe_mono; [by apply safe_io_pass|]. intros w s' Hok'. cbv beta.
  destruct w; [by apply IH|done].
Qed.

(** * Alive handles *)

Lemma any_alive_run hs s :
  (∀ h, h ∈ hs → is_Some (heap s !! h)) →
  any_alive hs s = Ret (existsb (λ h, if heap s !! h is Some x then is_alive x else false) hs, s).
Proof.
  induction hs as [|h hs IH]; intros Hin; [done|]. simpl.
  destruct (Hin h) as [x Hx]; [by apply list_elem_of_here|].
  unfold read, mbind, stateM_bind. simpl. rewrite Hx. simpl.
  destruct (is_alive x); [done|]. apply IH. intros h2 H2. apply Hin. by apply list_elem_of_further.
Qed.

Lemma listed_in_memory s l h :
  inner s = Some l → loop_inv l (heap s) →
  h ∈ (map_to_list (timer_handles l)).*2 ++ idle_handles l ++ prepare_handles l
    ++ check_handles l ++ tcp_handles l → is_Some (heap s !! h).
Proof.
  intros E Hinv. rewrite !elem_of_app.
  assert (∀ ty, watcher_type ty = true → h ∈ watchers ty l → is_Some (heap s !! h)) as Hw.
  { intros ty Hty (x & Hx & _)%(li_watchers _ _ Hinv); [by exists x|done]. }
  intros [Hin|[Hin|[Hin|[Hin|Hin]]]].
  - apply list_elem_of_fmap in Hin as ([id h'] & -> & Hin%elem_of_map_to_list).
    apply (li_registered _ _ Hinv) in Hin as (x & Hx & _). by exists x.
  - by apply (Hw UV_IDLE).
  - by apply (Hw UV_PREPARE).
  - by apply (Hw UV_CHECK).
  - apply (li_tcp _ _ Hinv) in Hin as (x & Hx & _). by exists x.
Qed.

(** * Timers *)

Definition is_timer (i : invocation) : bool := match i with OnTimer _ _ => true | _ => false end.
Definition timer_calls (new : list invocation) : list invocation := filter is_timer new.

Lemma timer_calls_app a b : timer_calls (a ++ b) = timer_calls a ++ timer_calls b.
Proof. apply filter_app. Qed.

Lemma timer_calls_made new : Forall (λ i, c_made i = true) new → timer_calls new = [].
Proof. induction 1 as [|i new Hi _ IH]; [done|]. unfold timer_calls. by destruct i. Qed.

(** The call that a key leads to. *)
Definition timer_call l hp (k : Z * Z) : option invocation :=
  h ← timer_handles l !! k.2; x ← hp !! h; c ← cb x; Some (OnTimer c h).

(** The ids of [ks] mean now, if anything, what they meant in [l0] and [hp0]. *)
Definition same_starts (ks : list (Z * Z)) l0 hp0 l hp : Prop :=
  ∀ k h, k ∈ ks → timer_handles l !! k.2 = Some h →
    timer_handles l0 !! k.2 = Some h ∧ start_of <$> hp !! h = start_of <$> hp0 !! h.

(** Keys of the loop at [l0], [hp0], each with an id of its own. *)
Record expired l0 hp0 (ks : list (Z * Z)) : Prop := {
  ex_nodup : NoDup ks.*2;
  ex_keys : ∀ k, k ∈ ks → ∃ h x, timer_handles l0 !! k.2 = Some h ∧ hp0 !! h = Some x ∧
    internal_deadline x = k.1;
  ex_next : ∀ k, k ∈ ks → k.2 < next_timer_id l0
}.

Lemma expired_prefix n ks : ∃ rest, ks = expired_keys n ks ++ rest.
Proof.
  induction ks as [|k ks [rest IH]]; [by exists []|]. simpl.
  destruct (n <? k.1); [by exists (k :: ks)|]. exists rest. simpl. by rewrite <- IH.
Qed.

Lemma sorted_ids l hp : loop_inv l hp → NoDup (timers l).*2.
Proof.
  intros Hinv.
  assert (∀ ks, StronglySorted key_order ks → (∀ k, k ∈ ks → k ∈ timers l) → NoDup ks.*2) as Hnd.
  { induction 1 as [|[d id] ks Hs IH Hall]; intros Hin; [apply NoDup_nil_2|].
    simpl. apply NoDup_cons. split.
    - intros ([d' id'] & Heq & Hk)%list_elem_of_fmap. simpl in Heq. subst id'.
      destruct (li_keys _ _ Hinv d id) as (h & x & Hr & Hx & Hd); [apply Hin; by left|].
      destruct (li_keys _ _ Hinv d' id) as (h' & x' & Hr' & Hx' & Hd'); [apply Hin; by right|].
      rewrite Forall_forall in Hall. specialize (Hall _ Hk). unfold key_order in Hall.
      rewrite key_lt_spec in Hall. simpl in Hall. simplify_eq. lia.
    - apply IH. intros k Hk. apply Hin. by right. }
  by apply Hnd; [apply (li_sorted _ _ Hinv)|].
Qed.

Lemma expired_ok l hp n : loop_inv l hp → expired l hp (expired_keys n (timers l)).
Proof.
  intros Hinv. destruct (expired_prefix n (timers l)) as [rest Hp].
  assert (∀ k, k ∈ expired_keys n (timers l) → k ∈ timers l) as Hin.
  { intros k Hk. rewrite Hp. apply elem_of_app. by left. }
  split.
  - pose proof (sorted_ids l hp Hinv) as Hnd. rewrite Hp, fmap_app in Hnd.
    by apply NoDup_app in Hnd as [? _].
  - intros [d id] Hk%Hin. by apply (li_keys _ _ Hinv).
  - intros [d id] Hk%Hin. destruct (li_keys _ _ Hinv d id Hk) as (h & x & Hr & Hx & _).
    destruct (li_registered _ _ Hinv id h Hr) as (y & Hy & T & Hi & _).
    destruct (li_timer _ _ Hinv h y Hy T) as [? _]. simpl. lia.
Qed.

(** Firing a key: either its timer is gone, or it is called and leaves or is set again. *)
Record fired_one s k s' (fired : bool) : Prop := {
  fo_ok : uv_ok s';
  fo_next : ∀ l l', inner s = Some l → inner s' = Some l' → next_timer_id l <= next_timer_id l';
  fo_starts : ∀ l l' ks, inner s = Some l → inner s' = Some l' →
    (∀ k', k' ∈ ks → k'.2 ≠ k.2 ∧ k'.2 < next_timer_id l) →
    same_starts ks l (heap s) l' (heap s');
  fo_none : ∀ l l' id, inner s = Some l → inner s' = Some l' → id < next_timer_id l →
    timer_handles l !! id = None → timer_handles l' !! id = None;
  fo_fired : ∀ l, inner s = Some l → if fired then is_Some (timer_handles l !! k.2)
    else timer_handles l !! k.2 = None;
  fo_calls : ∀ l, inner s = Some l → timer_calls (called s') = timer_calls (called s) ++
    (if fired then option_list (timer_call l (heap s) k) else [])
}.

Lemma set_timers_again l ts n hs ts' n' hs' :
  set_timers (set_timers l ts n hs) ts' n' hs' = set_timers l ts' n' hs'.
Proof. done. Qed.

(** The call at the end of [fire_timer]. *)
Lemma fired_call s s1 k l l1 h x x' :
  inner s = Some l → timer_handles l !! k.2 = Some h → heap s !! h = Some x →
  inner s1 = Some l1 → loop_inv l1 (heap s1) → heap s1 = <[h := x']> (heap s) →
  called s1 = called s → next_timer_id l1 = next_timer_id l →
  (∀ id, id ≠ k.2 → timer_handles l1 !! id = timer_handles l !! id ∧
     timer_handles l !! id ≠ Some h) →
  safe (call_opt H (cb x) (λ c, OnTimer c h) s1) (λ _ s', fired_one s k s' true).
Proof.
  intros E Hr Hx E1 Hinv1 Hhp Hc HN Hoth.
  assert (uv_ok s1) as Hok1 by by exists l1.
  assert (timer_call l (heap s) k = (λ c, OnTimer c h) <$> cb x) as Htc.
  { unfold timer_call. rewrite Hr. simpl. rewrite Hx. simpl. by destruct (cb x). }
  assert (∀ s2, evolves l1 (heap s1) l1 (heap s1) → uv_ok s2 →
    (∀ l2, inner s2 = Some l2 → evolves l1 (heap s1) l2 (heap s2)) →
    timer_calls (called s2) = timer_calls (called s) ++ option_list (timer_call l (heap s) k) →
    fired_one s k s2 true) as Hfin.
  { intros s2 _ Hok2 Hev Hcalls. split; [done| | | | |].
    - intros m l2 Em E2. destruct (Hev l2 E2) as [_ HN2 _ _]. simplify_eq. lia.
    - intros m l2 ks Em E2 Hks k' h' Hin Hr'. simplify_eq.
      destruct (Hks k' Hin) as [Hne Hlt]. destruct (Hev l2 E2) as [_ _ HI _].
      destruct (HI k'.2 h' ltac:(lia) Hr') as [Hr1 Hst]. destruct (Hoth _ Hne) as [Heq Hnot].
      rewrite Heq in Hr1. split; [done|]. rewrite Hst, Hhp, lookup_insert_ne; [done|]. congruence.
    - intros m l2 id Em E2 Hlt Hnone. simplify_eq. apply eq_None_not_Some. intros [h' Hr'].
      destruct (Hev l2 E2) as [_ _ HI _]. destruct (HI id h' ltac:(lia) Hr') as [Hr1 _].
      destruct (Hoth id) as [Heq _]; [congruence|]. congruence.
    - intros m Em. simplify_eq. by exists h.
    - intros m Em. by simplify_eq. }
  rewrite Htc in Hfin. destruct (cb x) as [c|]; simpl.
  - eapply safe_mono; [by apply safe_call|]. intros [] s2 [Hok2 Hev (new & Hnew & Hmade)].
    apply Hfin; [apply evolves_refl|done| |].
    + intros l2 E2. by apply (Hev l1 l2).
    + rewrite Hnew, timer_calls_app, (timer_calls_made new) by done. simpl.
      rewrite timer_calls_app, Hc. by rewrite app_nil_r.
  - apply Hfin; [apply evolves_refl|done| |by rewrite Hc, app_nil_r].
    intros l2 E2. simplify_eq. apply evolves_refl.
Qed.

Lemma safe_fire_timer n k s l :
  inner s = Some l → loop_inv l (heap s) →
  (∀ h, timer_handles l !! k.2 = Some h → ∃ x, heap s !! h = Some x ∧ internal_deadline x = k.1) →
  safe (fire_timer p H n k s) (λ _ s', ∃ fired, fired_one s k s' fired).
Proof.
  intros E Hinv Hk. unfold fire_timer. apply safe_bind, (safe_inner l); [done|].
  apply safe_bind. simpl. destruct (timer_handles l !! k.2) as [h|] eqn:Hr.
  - destruct (Hk h eq_refl) as (x & Hx & Hd).
    destruct (li_registered _ _ Hinv _ _ Hr) as (y & Hy & T & Hid & A & _).
    assert (y = x) as -> by congruence. assert (k = (internal_deadline x, internal_id x)) as Hkx
      by (destruct k; simpl in *; congruence).
    destruct (li_timer _ _ Hinv h x Hx T) as [_ Hact]. destruct (Hact A) as [Hr2 Hne].
    assert (∀ id, id ≠ k.2 → timer_handles l !! id ≠ Some h) as Hother.
    { intros id Hn Hri. destruct (li_registered _ _ Hinv _ _ Hri) as (z & Hz & _ & <- & _). congruence. }
    apply safe_bind, (safe_read h x); [done|]. rewrite A. simpl.
    apply safe_bind, (safe_inner (set_timers l (key_remove k (timers l)) (next_timer_id l)
      (timer_handles l))); [done|]. apply safe_bind.
    destruct (0 <? repeat x).
    + apply safe_bind, safe_lift; [|apply add_w_safe]. intros d _. apply safe_bind. simpl.
      eapply safe_mono; [apply (fired_call s _ k l
        (set_timers l (key_insert (d, internal_id x) (key_remove (internal_deadline x, internal_id x)
           (timers l))) (next_timer_id l) (timer_handles l)) h x
        (set_deadline x (internal_id x) d)); try done|].
      * simpl. by rewrite Hkx.
      * simpl. by apply loop_inv_repeat.
      * intros id Hn. auto.
      * intros u s' Hf. by exists true.
    + apply safe_bind. simpl. eapply safe_mono; [apply (fired_call s _ k l
        (drop_timer l (internal_deadline x) (internal_id x)) h x (deactivate x)); try done|].
      * simpl. by rewrite Hkx.
      * simpl. apply loop_inv_drop_timer; try done. by apply stopped_deactivate.
      * intros id Hn. simpl. rewrite lookup_delete_ne; [auto|]. intros <-. by apply Hn.
      * intros u s' Hf. by exists true.
  - assert (key_remove k (timers l) = timers l) as ->.
    { apply list_filter_all. intros [d id] Hin <-. apply (li_keys _ _ Hinv) in Hin as (h & x & Hh & _).
      simpl in *. congruence. }
    assert (set_timers l (timers l) (next_timer_id l) (timer_handles l) = l) as -> by by destruct l.
    exists false. split; simpl.
    + by exists l.
    + intros m l' Em E'. by simplify_eq.
    + intros m l' ks Em E' _ k' h Hin Hh. by simplify_eq.
    + intros m l' id Em E' _ Hn. by simplify_eq.
    + intros m Em. by simplify_eq.
    + intros m Em. by rewrite app_nil_r.
Qed.

Lemma timer_call_same ks l0 hp0 l hp k :
  same_starts ks l0 hp0 l hp → k ∈ ks → is_Some (timer_handles l !! k.2) →
  timer_call l hp k = timer_call l0 hp0 k.
Proof.
  intros Hs Hin [h Hr]. destruct (Hs k h Hin Hr) as [Hr0 Hst]. unfold timer_call.
  rewrite Hr, Hr0. simpl. destruct (hp !! h), (hp0 !! h); try done.
  injection Hst as Hcb _. simpl. by rewrite Hcb.
Qed.

Lemma safe_fire_timers n l0 hp0 ks s l :
  expired l0 hp0 ks → same_starts ks l0 hp0 l (heap s) → next_timer_id l0 <= next_timer_id l →
  inner s = Some l → loop_inv l (heap s) →
  safe (fire_timers p H n ks s) (λ _ s', uv_ok s' ∧ ∃ fired, sublist fired ks ∧
    timer_calls (called s') = timer_calls (called s) ++ omap (timer_call l0 hp0) fired ∧
    ∀ l', inner s' = Some l' →
      (∀ k, k ∈ ks → k ∉ fired → timer_handles l' !! k.2 = None) ∧
      (∀ id, id < next_timer_id l → timer_handles l !! id = None → timer_handles l' !! id = None)).
Proof.
  revert s l. induction ks as [|k ks IH]; intros s l Hex Hsame HN E Hinv.
  { simpl. split; [by exists l|]. exists []. split_and!; [done|by rewrite app_nil_r|].
    intros l' E'. simplify_eq. split; [by intros ? ?%elem_of_nil|done]. }
  destruct Hex as [Hnd Hkeys Hnext]. simpl in Hnd. apply NoDup_cons in Hnd as [Hni Hnd].
  simpl. apply safe_bind. eapply safe_mono; [apply (safe_fire_timer n k s l E Hinv)|].
  { intros h Hr. destruct (Hsame k h) as [Hr0 Hst]; [by left|done|].
    destruct (Hkeys k) as (h0 & x & Hh0 & Hx & Hd); [by left|]. simplify_eq.
    rewrite Hx in Hst. destruct (heap s !! h) as [y|]; [|done]. injection Hst as _ Hdl.
    exists y. split; [done|congruence]. }
  intros [] s1 (b & [Hok1 HN1 Hst1 Hnone1 Hb1 Hcalls1]). destruct (id Hok1) as (l1 & E1 & Hinv1).
  specialize (HN1 l l1 E E1).
  assert (∀ k', k' ∈ ks → k'.2 ≠ k.2) as Hoth.
  { intros k' Hin Heq. apply Hni. rewrite <- Heq. by apply list_elem_of_fmap_2. }
  assert (same_starts ks l (heap s) l1 (heap s1)) as Hs1.
  { apply Hst1; [done..|]. intros k' Hin. split; [by apply Hoth|].
    specialize (Hnext k' ltac:(by right)). lia. }
  eapply safe_mono; [apply (IH s1 l1); try done|].
  - split; [done| |]; intros k' Hin; [apply Hkeys|apply Hnext]; by right.
  - intros k' h Hin Hr. destruct (Hs1 k' h Hin Hr) as [Hr1 Hq1].
    destruct (Hsame k' h) as [Hr0 Hq0]; [by right|done|]. split; [done|congruence].
  - lia.
  - intros [] s' (Hok' & fired & Hsub & Hcalls & Hleft). split; [done|].
    exists (if b then k :: fired else fired). specialize (Hb1 l E). split_and!.
    + destruct b; by constructor.
    + rewrite Hcalls, (Hcalls1 l E). destruct b; [|by rewrite app_nil_r].
      rewrite (timer_call_same (k :: ks) l0 hp0 l (heap s) k) by (done || by left).
      simpl. destruct (timer_call l0 hp0 k); simpl; [by rewrite <- app_assoc|by rewrite app_nil_r].
    + intros l' E'. destruct (Hleft l' E') as [Hl1 Hl2]. split.
      * intros k' [->|Hin]%elem_of_cons Hnf; [|apply Hl1; [done|]; destruct b; [|done]].
        -- destruct b; [by destruct Hnf; left|]. apply Hl2.
           ++ specialize (Hnext k ltac:(by left)). lia.
           ++ apply (Hnone1 l l1); try done. specialize (Hnext k ltac:(by left)). lia.
        -- intros Hf. apply Hnf. by right.
      * intros id Hlt Hnone. apply Hl2; [lia|]. by apply (Hnone1 l l1).
Qed.

Lemma elem_of_expired n ks k :
  StronglySorted key_order ks → k ∈ expired_keys n ks ↔ k ∈ ks ∧ k.1 <= n.
Proof.
  induction 1 as [|a ks Hs IH Ha]; simpl; [by rewrite elem_of_nil; split; [|intros [? _]]|].
  destruct (Z.ltb_spec n a.1) as [Hlt|Hle].
  - rewrite elem_of_nil. split; [done|]. intros [[->|Hin]%elem_of_cons ?]; [lia|].
    rewrite Forall_forall in Ha. specialize (Ha k Hin). unfold key_order in Ha.
    rewrite key_lt_spec in Ha. lia.
  - rewrite !elem_of_cons, IH. split; [|tauto]. intros [->|[? ?]]; [|tauto]. split; [by left|done].
Qed.

Lemma StronglySorted_sublist (R : Z * Z → Z * Z → Prop) ks ks' :
  StronglySorted R ks → sublist ks' ks → StronglySorted R ks'.
Proof.
  intros Hs. revert ks'. induction Hs as [|a ks Hs IH Ha]; intros ks' Hsub.
  - apply sublist_nil_r in Hsub as ->. constructor.
  - apply sublist_cons_r in Hsub as [Hsub|(ks1 & -> & Hsub)]; [by apply IH|].
    constructor; [by apply IH|]. rewrite Forall_forall in *. intros b Hb. apply Ha.
    by eapply elem_of_sublist.
Qed.

(** What [run_timers] comes down to. *)
Lemma safe_run_timers_fired s l :
  uv_ok s → inner s = Some l →
  safe (run_timers p H s) (λ _ s', uv_ok s' ∧ ∃ fired,
    sublist fired (expired_keys (now s) (timers l)) ∧
    timer_calls (called s') = timer_calls (called s) ++ omap (timer_call l (heap s)) fired ∧
    ∀ l' k, inner s' = Some l' → k ∈ expired_keys (now s) (timers l) → k ∉ fired →
      timer_handles l' !! k.2 = None).
Proof.
  intros (l2 & E2 & Hinv) E. assert (l2 = l) as -> by congruence.
  unfold run_timers. apply safe_bind. simpl. apply safe_bind, (safe_inner l); [done|].
  eapply safe_mono; [by apply (safe_fire_timers (now s) l (heap s) _ s l); [apply expired_ok|..]|].
  intros [] s' (Hok & fired & Hsub & Hcalls & Hleft). split; [done|]. exists fired.
  split_and!; [done..|]. intros l' k E'. by apply Hleft.
Qed.

Lemma safe_run_timers s : uv_ok s → safe (run_timers p H s) (λ _, uv_ok).
Proof.
  intros Hok. destruct (id Hok) as (l & E & _).
  eapply safe_mono; [by apply (safe_run_timers_fired s l)|]. by intros [] s' [? _].
Qed.

(** * Theorems *)

(** C20. The loop never touches freed memory.  If C code follows libuv's rules then, in
    every phase ([run_timers], [run_idle], [run_prepare], [run_check], [run_io],
    [run_close]) and in C code itself, no dangling handle is read or written and the loop
    stays consistent: every active handle is registered once, where its type says, nothing
    that is closed is registered, and every registered pointer is a live handle of the
    right type. *)
Theorem uv_memory_safe s :
  uv_ok s →
  safe (run_timers p H s) (λ _, uv_ok) ∧
  (∀ fuel ty, safe (run_watchers H fuel ty s) (λ _, uv_ok)) ∧
  (∀ fuel, safe (run_io H fuel s) (λ _, uv_ok)) ∧
  safe (run_close H s) (λ _, uv_ok) ∧
  safe (has_alive_handles s) (λ _, uv_ok) ∧
  (∀ o, c_run p H s o → match o with Ret s' => uv_ok s' | Panic f => f ≠ BadMemory end).
Proof.
  intros Hok. destruct (id Hok) as (l & E & Hinv). split_and!.
  - by apply safe_run_timers.
  - intros fuel ty. by apply safe_run_watchers_loop.
  - intros fuel. by apply safe_io_passes.
  - unfold run_close. apply safe_bind, (safe_inner l); [done|]. apply safe_bind. simpl.
    eapply safe_mono; [apply safe_call_closing|].
    + exists (set_closing l []). split; [done|]. by apply loop_inv_unqueue.
    + intros [] s' [? _]. done.
  - unfold has_alive_handles. apply safe_bind, (safe_inner l); [done|]. apply safe_bind.
    rewrite any_alive_run by (intros h; by apply listed_in_memory). done.
  - intros o Hrun. pose proof (c_run_safe p H s o Hrun Hok) as Hs.
    destruct o; [apply (ru_ok _ _ Hs)|done].
Qed.

(** [run_timers] fires the timers whose deadline has come, and only those, in the order
    of their deadlines and then of their starts, each at most once, with the callback that
    they were started with; a timer that has expired and does not fire was stopped or
    started anew by an earlier callback. *)
Lemma expired_timers_fire s l :
  uv_ok s → inner s = Some l →
  safe (run_timers p H s) (λ _ s', ∃ fired,
    StronglySorted key_order fired ∧
    (∀ k, k ∈ fired → k ∈ timers l ∧ k.1 <= now s) ∧
    timer_calls (called s') = timer_calls (called s) ++ omap (timer_call l (heap s)) fired ∧
    ∀ l' k, inner s' = Some l' → k ∈ timers l → k.1 <= now s → k ∉ fired →
      timer_handles l' !! k.2 = None).
Proof.
  intros Hok E. assert (Hs := Hok). destruct Hs as (l2 & E2 & Hinv).
  assert (l2 = l) as -> by congruence. pose proof (li_sorted _ _ Hinv) as Hs.
  destruct (expired_prefix (now s) (timers l)) as [rest Hp].
  eapply safe_mono; [by apply (safe_run_timers_fired s l)|].
  intros [] s' (_ & fired & Hsub & Hcalls & Hleft). exists fired. split_and!; [|..|done|].
  - apply (StronglySorted_sublist _ (timers l)); [done|]. rewrite Hp.
    by apply sublist_inserts_r.
  - intros k Hk. apply (elem_of_expired (now s)); [done|]. by eapply elem_of_sublist.
  - intros l' k E' Hin Hle. apply Hleft; [done|]. by apply elem_of_expired.
Qed.

(** [run_close] calls the callback of every handle that was closed since the last time,
    once and in the order of the closes. *)
Lemma close_callbacks_once s l :
  uv_ok s → inner s = Some l →
  NoDup (closing_handles l).*1 ∧
  safe (run_close H s) (λ _ s', uv_ok s' ∧
    close_calls (called s') = close_calls (called s) ++ close_calls_of (closing_handles l)).
Proof.
  intros (l2 & E2 & Hinv) E. assert (l2 = l) as -> by congruence. split; [apply (li_closing_nodup _ _ Hinv)|].
  unfold run_close. apply safe_bind, (safe_inner l); [done|]. apply safe_bind. simpl.
  eapply safe_mono; [apply safe_call_closing|].
  - exists (set_closing l []). split; [done|]. by apply loop_inv_unqueue.
  - intros [] s' (? & _ & Hcalls). done.
Qed.

(** [has_alive_handles], which looks through the lists of the loop, says whether some
    handle in memory is active and referenced, or closing. *)
Lemma has_alive_handles_iff s l :
  uv_ok s → inner s = Some l → (∀ h x, heap s !! h = Some x → type x ≠ UV_UNKNOWN_HANDLE) →
  ∃ b, has_alive_handles s = Ret (b, s) ∧
    (b = true ↔ (∃ h x, heap s !! h = Some x ∧ is_alive x = true) ∨ closing_handles l ≠ []).
Proof.
  intros (l2 & E2 & Hinv) E Hty. assert (l2 = l) as -> by congruence.
  unfold has_alive_handles, mbind, stateM_bind, get_inner. simpl. rewrite E. simpl.
  rewrite any_alive_run by (intros h; by apply listed_in_memory). simpl. eexists. split; [done|].
  rewrite orb_true_iff. apply Morphisms_Prop.or_iff_morphism; [|by destruct (closing_handles l)].
  rewrite existsb_exists. split.
  - intros (h & _ & Ha). destruct (heap s !! h) as [x|] eqn:Hx; [by exists h, x|done].
  - intros (h & x & Hx & Ha). exists h. rewrite Hx. split; [|done].
    apply list_elem_of_In. apply andb_true_iff in Ha as [A _]. rewrite !elem_of_app.
    assert (∀ ty, watcher_type ty = true → type x = ty → h ∈ watchers ty l) as Hw.
    { intros ty Ht T. apply (li_watchers _ _ Hinv); [done|]. by exists x. }
    destruct (type x) eqn:T; [by destruct (Hty h x)| |..].
    + left. destruct (li_timer _ _ Hinv h x Hx T) as [_ Hact]. destruct (Hact A) as [Hr _].
      apply list_elem_of_fmap. exists (internal_id x, h). split; [done|]. by apply elem_of_map_to_list.
    + right. left. by apply (Hw UV_IDLE).
    + right. right. left. by apply (Hw UV_PREPARE).
    + do 3 right. left. by apply (Hw UV_CHECK).
    + do 4 right. by apply (li_tcp_active _ _ Hinv h x).
Qed.
End phases.

(** * Examples *)

(** Sockets that never answer. *)
Definition quiet_sockets A (q : sock_query A) : unit → A * unit := λ j,
  (match q in sock_query A return A with
   | PollConnect _ | PollAccept _ => Pending
   | TryRead _ _ | TryWrite _ _ | TryWriteVectored _ _ => WouldBlock
   | StartConnect _ => 0
   | Bind _ | OpenFd _ | PeerAddr _ | LocalAddr _ => None
   | SetNodelay _ _ | ShutdownWrite _ => true
   end, j).

(** The first timer stops the second and closes itself; its close callback frees it. *)
Definition demo_script (i : invocation) : list ucall :=
  match i with
  | OnTimer 7 h => [C_timer_stop 2; C_close h (Some 9)]
  | OnClose _ h => [C_free h]
  | _ => []
  end.
Definition demo_host : uv_host unit := scripted_host Release quiet_sockets demo_script.

Definition demo_calls : list ucall :=
  [C_timer_init 1; C_timer_init 2; C_timer_init 3; C_timer_init 4; C_watcher_init UV_IDLE 5;
   C_timer_start 2 8 20 0; C_timer_start 1 7 10 0; C_timer_start 3 8 20 5; C_timer_start 4 8 90 0;
   C_watcher_start UV_IDLE 5 6].
Definition demo_at (n : Z) : ustate unit :=
  match play Release quiet_sockets demo_calls (new_loop tt 0) with
  | Ret s => mkU tt n (inner s) (heap s) (called s) (sent s)
  | Panic _ => new_loop tt 0
  end.

(** The state after a run. *)
Definition after_run {A} (m : umethod unit A) (s : ustate unit) : ustate unit :=
  match m s with Ret (_, s) => s | Panic _ => s end.

Lemma demo_ok n : uv_ok (demo_at n).
Proof.
  unfold demo_at. destruct (play _ _ _ _) as [s|f] eqn:Hp; [|apply new_loop_ok].
  apply (play_ok _ _ _ _ _ (new_loop_ok tt 0)) in Hp. exact Hp.
Qed.

(** [uv_memory_safe] with timers that stop and close each other. *)
Lemma uv_memory_safe_witness :
  safe (run_timers Release demo_host (demo_at 25)) (λ _, uv_ok) ∧
  timer_calls (called (after_run (run_timers Release demo_host) (demo_at 25))) =
    [OnTimer 7 1; OnTimer 8 3].
Proof.
  split; [|by vm_compute].
  exact (proj1 (uv_memory_safe Release demo_host (scripted_rules _ _ _) _ (demo_ok 25))).
Defined.

(** The loop of [demo_at]. *)
Definition demo_loop : UvLoopInner := default UvLoopInner_new (inner (demo_at 0)).
Lemma demo_inner n : inner (demo_at n) = Some demo_loop.
Proof. by vm_compute. Qed.

(** [expired_timers_fire]: of the keys up to 25, the first is called and stops the second,
    which started earlier, so the third is next. *)
Lemma expired_timers_fire_example :
  timers demo_loop = [(10, 2); (20, 1); (20, 3); (90, 4)] ∧
  safe (run_timers Release demo_host (demo_at 25)) (λ _ s', ∃ fired,
    StronglySorted key_order fired ∧
    (∀ k, k ∈ fired → k ∈ timers demo_loop ∧ k.1 <= now (demo_at 25)) ∧
    timer_calls (called s') = timer_calls (called (demo_at 25)) ++
      omap (timer_call demo_loop (heap (demo_at 25))) fired ∧
    ∀ l' k, inner s' = Some l' → k ∈ timers demo_loop → k.1 <= now (demo_at 25) → k ∉ fired →
      timer_handles l' !! k.2 = None).
Proof.
  split; [by vm_compute|].
  exact (expired_timers_fire Release demo_host (scripted_rules _ _ _) _ _ (demo_ok 25)
    (demo_inner 25)).
Qed.

(** [close_callbacks_once] after [run_timers] closed a timer: it is called, and freed. *)
Definition demo_closing : ustate unit := after_run (run_timers Release demo_host) (demo_at 25).
Definition demo_closing_loop : UvLoopInner := default UvLoopInner_new (inner demo_closing).

Lemma after_run_ok {A} (m : umethod unit A) s :
  uv_ok s → safe (m s) (λ _, uv_ok) → uv_ok (after_run m s).
Proof. unfold after_run. by destruct (m s) as [[]|]. Qed.

Lemma demo_closing_ok : uv_ok demo_closing.
Proof.
  apply after_run_ok; [apply demo_ok|].
  apply (safe_run_timers Release demo_host (scripted_rules _ _ _) _ (demo_ok 25)).
Qed.
Lemma demo_closing_inner : inner demo_closing = Some demo_closing_loop.
Proof. by vm_compute. Qed.

Lemma close_callbacks_once_example :
  closing_handles demo_closing_loop = [(1, Some 9)] ∧
  close_calls (called (after_run (run_close demo_host) demo_closing)) = [OnClose 9 1] ∧
  safe (run_close demo_host demo_closing) (λ _ s', uv_ok s' ∧
    close_calls (called s') = close_calls (called demo_closing) ++
      close_calls_of (closing_handles demo_closing_loop)).
Proof.
  split; [by vm_compute|]. split; [by vm_compute|].
  exact (proj2 (close_callbacks_once Release demo_host (scripted_rules _ _ _) _ _
    demo_closing_ok demo_closing_inner)).
Qed.

(** [has_alive_handles_iff] with active timers. *)
Lemma has_alive_handles_iff_example :
  ∃ b, has_alive_handles (demo_at 25) = Ret (b, demo_at 25) ∧
    (b = true ↔ (∃ h x, heap (demo_at 25) !! h = Some x ∧ is_alive x = true) ∨
       closing_handles demo_loop ≠ []).
Proof.
  apply (has_alive_handles_iff (demo_at 25) demo_loop (demo_ok 25) (demo_inner 25)).
  intros h x Hx. assert (map_Forall (λ _ y, type y ≠ UV_UNKNOWN_HANDLE) (heap (demo_at 25))) as Hall
    by (apply (bool_decide_unpack _); by vm_compute).
  by apply (Hall h).
Qed.
