(* ===== verification/UvStreams.v ===== *)
(** Streams and addresses of [UvLoop]: writes lose and reorder no byte, whether they are sent
    at once or queued, and are completed in order; addresses survive the conversion to C and
    back, up to the scope of an IPv6 address.  Also where the functions differ from libuv's. *)

From S2P Require Import Prelude UvLoop UvHandles UvClient UvPhases.

Local Open Scope Z_scope.

(** * Writes *)

(** The bytes of a queued write that were not sent yet. *)
Definition remaining (w : WritePending) : list byte := zdrop (wp_offset w) (wp_data w).
Definition pending (x : uv_handle) : list byte :=
  concat (map remaining (internal_write_queue (tcp x))).

Section streams.
Context {J : Type} (H : uv_host J).
Abbreviation U := (umethod J).
Implicit Types (s : ustate J) (h : Z) (x : uv_handle) (k : socket) (data : list byte).

(** What [write(2)] and [writev(2)] promise: they take part of the bytes, and at least one. *)
Record socket_laws : Prop := {
  sl_write : ∀ k data j n, fst (ask_sock H (TryWrite k data) j) = Done n →
    0 <= n <= zlen data ∧ (data ≠ [] → 0 < n);
  sl_writev : ∀ k bufs j n, fst (ask_sock H (TryWriteVectored k bufs) j) = Done n →
    0 <= n <= zlen (concat bufs)
}.
Hypothesis laws : socket_laws.

(** The chunks went to the socket, and nothing else changed but the memory. *)
Record wrote k s s' (chunks : list (list byte)) (hp : gmap Z uv_handle) : Prop := {
  wr_sent : sent s' = sent s ++ map (pair k) chunks;
  wr_heap : heap s' = hp;
  wr_inner : inner s' = inner s;
  wr_called : called s' = called s;
  wr_now : now s' = now s
}.

Lemma wrote_nil k s : wrote k s s [] (heap s).
Proof. split; try done. by rewrite app_nil_r. Qed.

Lemma wrote_trans k s1 s2 s3 c1 c2 hp1 hp2 :
  wrote k s1 s2 c1 hp1 → wrote k s2 s3 c2 hp2 → wrote k s1 s3 (c1 ++ c2) hp2.
Proof.
  intros [S1 H1 I1 C1 N1] [S2 H2 I2 C2 N2]. split; try congruence.
  by rewrite S2, S1, map_app, app_assoc.
Qed.

(** One attempt. *)
Lemma try_write_run k data s :
  ∃ r s', try_write H k data s = Ret (r, s') ∧ match r with
    | Done n => 0 <= n <= zlen data ∧ (data ≠ [] → 0 < n) ∧ wrote k s s' [ztake n data] (heap s)
    | _ => wrote k s s' [] (heap s)
    end.
Proof.
  unfold try_write. destruct (ask_sock H (TryWrite k data) (world s)) as [r j] eqn:Hq.
  eexists r, _. split; [done|]. destruct r as [n| |]; [|by split; simpl; rewrite ?app_nil_r..].
  destruct (sl_write laws k data (world s) n) as [Hn Hpos]; [by rewrite Hq|].
  split_and!; [lia|lia|done|by split].
Qed.

Lemma zlen_zero {A} (l : list A) : zlen l <= 0 → l = [].
Proof. destruct l; [done|]. unfold zlen. simpl. lia. Qed.

Lemma on_tcp_run h x f s :
  heap s !! h = Some x →
  on_tcp h f s = Ret (tt, mkU (world s) (now s) (inner s)
    (<[h := set_tcp x (f (tcp x))]> (heap s)) (called s) (sent s)).
Proof.
  intros Hx. unfold on_tcp, on_handle, read, mbind, stateM_bind. by rewrite Hx.
Qed.

(** A bind whose first step is known. *)
Lemma ubind_run {A B} (m : U A) (f : A → U B) s a s1 :
  m s = Ret (a, s1) → (m ≫= f) s = f a s1.
Proof. intros Hm. unfold mbind, stateM_bind. by rewrite Hm. Qed.

Lemma read_run h x s : heap s !! h = Some x → read h s = Ret (x, s).
Proof. unfold read. by intros ->. Qed.

Definition push x (w : WritePending) : uv_handle :=
  set_tcp x (set_queue (tcp x) (internal_write_queue (tcp x) ++ [w])).

Lemma push_write_run h x req data c s :
  heap s !! h = Some x →
  push_write h req data c s = Ret (tt, mkU (world s) (now s) (inner s)
    (<[h := push x (mkWrite req data 0 c)]> (heap s)) (called s) (sent s)).
Proof.
  intros Hx. unfold push_write. by rewrite (on_tcp_run h x).
Qed.

Lemma wrote_push k s s' chunks h x w :
  wrote k s s' chunks (heap s) →
  wrote k s (mkU (world s') (now s') (inner s') (<[h := push x w]> (heap s')) (called s') (sent s'))
    chunks (<[h := push x w]> (heap s)).
Proof. intros [S1 H1 I1 C1 N1]. split; simpl; congruence. Qed.

(** How [start_write] ends: everything was sent, the rest was queued, or the socket failed. *)
Definition write_end k h x req c data s (st : option Z) s' : Prop :=
  match st with
  | Some 0 => ∃ chunks, concat chunks = data ∧ wrote k s s' chunks (heap s)
  | Some e => e = UV_EPIPE ∧ ∃ chunks, concat chunks `prefix_of` data ∧ wrote k s s' chunks (heap s)
  | None => ∃ chunks rest, concat chunks ++ rest = data ∧
      wrote k s s' chunks (<[h := push x (mkWrite req rest 0 c)]> (heap s))
  end.

Lemma write_end_after k h x req c c1 data s s1 st s' :
  wrote k s s1 [c1] (heap s) → write_end k h x req c data s1 st s' →
  write_end k h x req c (c1 ++ data) s st s'.
Proof.
  intros Hw. pose proof (wr_heap _ _ _ _ _ Hw) as Hh.
  assert (∀ chunks hp, wrote k s1 s' chunks hp → wrote k s s' (c1 :: chunks) hp) as Ht.
  { intros chunks hp. by apply (wrote_trans k s s1 s' [c1] chunks (heap s)). }
  unfold write_end. rewrite Hh. destruct st as [[|e|e]|].
  - intros (chunks & <- & Hc). exists (c1 :: chunks). split; [done|by apply Ht].
  - intros (He & chunks & Hp & Hc). split; [done|]. exists (c1 :: chunks).
    split; [by apply prefix_app|by apply Ht].
  - intros (He & chunks & Hp & Hc). split; [done|]. exists (c1 :: chunks).
    split; [by apply prefix_app|by apply Ht].
  - intros (chunks & rest & <- & Hc). exists (c1 :: chunks), rest.
    split; [simpl; by rewrite app_assoc|by apply Ht].
Qed.

Lemma push_end k h x req c data chunks rest s s1 :
  heap s !! h = Some x → wrote k s s1 chunks (heap s) → concat chunks ++ rest = data →
  ∃ s', push_write h req rest c s1 = Ret (tt, s') ∧ write_end k h x req c data s None s'.
Proof.
  intros Hx Hw Hd. rewrite (push_write_run h x) by (by rewrite (wr_heap _ _ _ _ _ Hw)).
  eexists. split; [done|]. exists chunks, rest. split; [done|]. by apply wrote_push.
Qed.

Lemma write_one_end fuel h x req k data off c s :
  heap s !! h = Some x → 0 <= off < zlen data → zlen data - off < Z.of_nat fuel →
  ∃ st s', write_one H fuel h req k data off c s = Ret (st, s') ∧
    write_end k h x req c (zdrop off data) s st s'.
Proof.
  revert off s. induction fuel as [|fuel IH]; intros off s Hx Hoff Hfuel; [lia|].
  cbn [write_one]. unfold mbind, stateM_bind at 1.
  destruct (try_write_run k (zdrop off data) s) as (r & s1 & -> & Hr). rewrite bind_Ret.
  assert (zlen (zdrop off data) = zlen data - off) as Hlen by (rewrite zlen_zdrop; lia).
  destruct r as [n| |].
  - destruct Hr as (Hn & Hpos & Hw). rewrite Hlen in Hn.
    destruct (Z.leb_spec (zlen data) (off + n)) as [Hdone|Hmore].
    + exists (Some 0), s1. split; [done|]. exists [ztake n (zdrop off data)].
      rewrite (ztake_all n) in * by lia. split; [by rewrite concat_cons, app_nil_r|done].
    + assert (zdrop off data ≠ []) as Hne by (intros He; rewrite He in Hlen; change (zlen []) with 0 in Hlen; lia).
      specialize (Hpos Hne). destruct (IH (off + n) s1) as (st & s' & -> & Hend); [|lia|lia|].
      { by rewrite (wr_heap _ _ _ _ _ Hw). }
      exists st, s'. split; [done|].
      rewrite <- (ztake_zdrop_id n (zdrop off data)), zdrop_zdrop by lia.
      by apply (write_end_after _ _ _ _ _ _ _ s s1).
  - destruct (push_end k h x req c (zdrop off data) [] (zdrop off data) s s1 Hx Hr eq_refl)
      as (s' & Hs' & Hend).
    unfold mbind, stateM_bind. rewrite Hs'. by exists None, s'.
  - exists (Some UV_EPIPE), s1. split; [done|]. split; [done|]. exists []. split; [apply prefix_nil|done].
Qed.

(** What is left of several buffers. *)
Lemma skip_bufs_spec n bufs : 0 <= n → skip_bufs n bufs = zdrop n (concat bufs).
Proof.
  revert n. induction bufs as [|b bufs IH]; intros n Hn; [by rewrite zdrop_all|]. simpl.
  destruct (Z.leb_spec (zlen b) n) as [Hle|Hgt].
  - rewrite IH by lia. unfold zdrop, zlen in *. rewrite drop_app_ge by lia. f_equal. lia.
  - rewrite IH by lia. unfold zdrop, zlen in *. rewrite drop_app_le by lia. done.
Qed.

Lemma concat_nonempty (bufs : list (list byte)) : concat (filter (λ b, b ≠ []) bufs) = concat bufs.
Proof.
  induction bufs as [|b bufs IH]; [done|]. rewrite filter_cons. case_decide as Hb; simpl.
  - by rewrite IH.
  - by rewrite Hb, IH.
Qed.

Lemma try_writev_run k bufs s :
  ∃ r s', try_write_vectored H k bufs s = Ret (r, s') ∧ match r with
    | Done n => 0 <= n <= zlen (concat bufs) ∧ wrote k s s' [ztake n (concat bufs)] (heap s)
    | _ => wrote k s s' [] (heap s)
    end.
Proof.
  unfold try_write_vectored.
  destruct (ask_sock H (TryWriteVectored k bufs) (world s)) as [r j] eqn:Hq.
  eexists r, _. split; [done|]. destruct r as [n| |]; [|by split; simpl; rewrite ?app_nil_r..].
  pose proof (sl_writev laws k bufs (world s) n) as Hn. rewrite Hq in Hn. specialize (Hn eq_refl).
  split; [lia|]. by split.
Qed.

(** [uv_write] loses and reorders nothing: however the socket splits the writes, the
    bytes of the buffers, in order, were sent first and the rest is at the end of the queue,
    to be sent after everything that was queued before; nothing of them is sent while other
    writes are waiting; success is reported only when every byte was sent, and an error only
    after a failure of the socket. *)
Lemma uv_write_keeps_bytes fuel req h bufs c s x k :
  heap s !! h = Some x → internal_stream (tcp x) = Some k →
  zlen (collect_bufs bufs) < Z.of_nat fuel →
  ∃ st s', start_write H fuel req h bufs c s = Ret (st, s') ∧
    write_end k h x req c (collect_bufs bufs) s st s' ∧
    (internal_write_queue (tcp x) ≠ [] → st = None ∧ sent s' = sent s).
Proof.
  intros Hx Hk Hfuel. unfold start_write. unfold mbind, stateM_bind at 1. unfold read.
  rewrite Hx, bind_Ret, Hk. set (data := collect_bufs bufs) in *.
  destruct (internal_write_queue (tcp x)) as [|w q] eqn:Hq.
  - assert (∀ chunks s1 rest, wrote k s s1 chunks (heap s) → concat chunks ++ rest = data →
      ∃ st s', ((_ ← push_write h req rest c; mret None) : U (option Z)) s1 = Ret (st, s') ∧
        write_end k h x req c data s st s') as Hpush.
    { intros chunks s1 rest Hw Hd. unfold mbind, stateM_bind.
      destruct (push_end k h x req c data chunks rest s s1 Hx Hw Hd) as (s' & -> & Hend).
      by exists None, s'. }
    set (iovecs := filter (λ b, b ≠ []) (map (default []) bufs)).
    assert (concat iovecs = data) as Hdata by apply concat_nonempty.
    assert (∃ st s', ((if zlen (concat iovecs) =? 0 then mret (Some 0) else
      r ← try_write_vectored H k iovecs;
      match r with
      | Done n => if zlen (concat iovecs) <=? n then mret (Some 0)
                  else _ ← push_write h req (skip_bufs n iovecs) c; mret None
      | WouldBlock => _ ← push_write h req data c; mret None
      | Failed => mret (Some UV_EPIPE)
      end) : U (option Z)) s = Ret (st, s') ∧ write_end k h x req c data s st s') as Hvec.
    { rewrite Hdata. destruct (Z.eqb_spec (zlen data) 0) as [Hz|Hz].
      - exists (Some 0), s. split; [done|]. exists []. split; [|apply wrote_nil].
        symmetry. apply zlen_zero. lia.
      - unfold mbind, stateM_bind at 1. destruct (try_writev_run k iovecs s) as (r & s1 & -> & Hr).
        rewrite bind_Ret. destruct r as [n| |].
        + destruct Hr as [Hn Hw]. rewrite Hdata in Hn, Hw.
          destruct (Z.leb_spec (zlen data) n) as [Hle|Hgt].
          * exists (Some 0), s1. split; [done|]. eexists. split; [|done].
            rewrite concat_cons, app_nil_r. by apply ztake_all.
          * apply (Hpush _ s1 _ Hw). rewrite skip_bufs_spec, Hdata by lia.
            rewrite concat_cons, app_nil_r. apply ztake_zdrop_id.
        + by apply (Hpush [] s1 data Hr).
        + exists (Some UV_EPIPE), s1. split; [done|]. split; [done|]. exists [].
          split; [apply prefix_nil|done]. }
    assert (∀ (m : U (option Z)),
      (∃ st s', m s = Ret (st, s') ∧ write_end k h x req c data s st s') →
      ∃ st s', m s = Ret (st, s') ∧ write_end k h x req c data s st s' ∧
        ([] ≠ @nil WritePending → st = None ∧ sent s' = sent s)) as Hfin.
    { intros m (st & s' & Hm & Hend). by exists st, s'. }
    destruct bufs as [|b [|b2 bufs]]; [exact (Hfin _ Hvec)| |exact (Hfin _ Hvec)].
    apply (Hfin (match default [] b with [] => mret (Some 0) | d => write_one H fuel h req k d 0 c end)).
    assert (data = default [] b) as Hb by (unfold data, collect_bufs; simpl; by rewrite app_nil_r).
    clear Hpush Hvec Hfin. rewrite <- Hb. clearbody data. destruct data as [|d ds].
    + exists (Some 0), s. split; [done|]. exists []. split; [done|apply wrote_nil].
    + apply (write_one_end fuel h x req k (d :: ds) 0 c s Hx); unfold zlen in *; simpl in *; lia.
  - unfold mbind, stateM_bind. rewrite (push_write_run h x) by done. rewrite bind_Ret.
    eexists None, _. split; [done|]. split; [|done]. exists [], data. split; [done|].
    apply (wrote_push k s s []). apply wrote_nil.
Qed.

(** ** Queued writes *)

Definition with_queue x (q : list WritePending) : uv_handle := set_tcp x (set_queue (tcp x) q).

(** The same write, further on. *)
Definition advanced (w w' : WritePending) : Prop :=
  wp_req w' = wp_req w ∧ wp_data w' = wp_data w ∧ wp_cb w' = wp_cb w.

Lemma write_front_run fuel h x k w q s :
  heap s !! h = Some x → internal_write_queue (tcp x) = w :: q → 0 <= wp_offset w →
  zlen (remaining w) < Z.of_nat fuel →
  ∃ st s' w' chunks, write_front H fuel h k s = Ret (st, s') ∧
    wrote k s s' chunks (<[h := with_queue x (w' :: q)]> (heap s)) ∧ advanced w w' ∧
    remaining w = concat chunks ++ remaining w' ∧
    match st with
    | None => remaining w' ≠ []
    | Some e => (e = 0 ∧ remaining w' = []) ∨ e = UV_EPIPE
    end.
Proof.
  revert x w s. induction fuel as [|fuel IH]; intros x w s Hx Hq Hoff Hfuel;
    [unfold zlen in *; lia|].
  assert (with_queue x (w :: q) = x) as Hsame.
  { unfold with_queue. rewrite <- Hq. by destruct x as [?????? ? []]. }
  assert (∀ s1, wrote k s s1 [] (heap s) →
    wrote k s s1 [] (<[h := with_queue x (w :: q)]> (heap s))) as Hstay.
  { intros s1 Hw. by rewrite Hsame, insert_id. }
  cbn [write_front]. rewrite (ubind_run _ _ _ _ _ (read_run h x s Hx)), Hq.
  assert (zlen (remaining w) = Z.max 0 (zlen (wp_data w) - wp_offset w)) as Hlen
    by (unfold remaining; by apply zlen_zdrop).
  destruct (Z.leb_spec (zlen (wp_data w)) (wp_offset w)) as [Hle|Hgt].
  - exists (Some 0), s, w, []. split; [done|].
    split_and!; [apply Hstay, wrote_nil|done..|]. left. split; [done|]. apply zlen_zero. lia.
  - assert (remaining w ≠ []) as Hne by (intros He; rewrite He in Hlen; change (zlen []) with 0 in Hlen; lia).
    fold (remaining w).
    destruct (try_write_run k (remaining w) s) as (r & s1 & Hrun1 & Hr).
    rewrite (ubind_run _ _ _ _ _ Hrun1).
    destruct r as [n| |].
    + destruct Hr as (Hn & Hpos & Hw). specialize (Hpos Hne).
      pose proof (wr_heap _ _ _ _ _ Hw) as Hh.
      set (w1 := mkWrite (wp_req w) (wp_data w) (wp_offset w + n) (wp_cb w)).
      erewrite ubind_run by (apply (on_tcp_run h x); by rewrite Hh).
      assert (remaining w1 = zdrop n (remaining w)) as Hrem
        by (unfold remaining; simpl; rewrite zdrop_zdrop by lia; done).
      match goal with |- context [write_front H fuel h k ?s2] =>
        destruct (IH (with_queue x (w1 :: q)) w1 s2) as (st & s' & w' & chunks & Hrun & Hw2 & Hadv & Hb & Hst) end.
      * simpl. by rewrite lookup_insert_eq.
      * done.
      * simpl. lia.
      * rewrite Hrem, zlen_zdrop by lia. lia.
      * exists st, s', w', (ztake n (remaining w) :: chunks). split; [exact Hrun|]. split_and!.
        -- destruct Hw as [S1 H1 I1 C1 N1], Hw2 as [S2 H2 I2 C2 N2]. simpl in *.
           split; try congruence.
           ++ by rewrite S2, S1, <- app_assoc.
           ++ by rewrite H2, insert_insert_eq, Hh.
        -- by destruct Hadv as (? & ? & ?).
        -- rewrite concat_cons, <- app_assoc, <- Hb, Hrem. symmetry. apply ztake_zdrop_id.
        -- done.
    + exists None, s1, w, []. split; [done|]. split_and!; [by apply Hstay|done..].
    + exists (Some UV_EPIPE), s1, w, []. split; [done|]. split_and!; [by apply Hstay|done..|].
      by right.
Qed.

(** What [poll_write] does to a queue: the bytes that it sends, the writes that it completes,
    in order, with their status, and the writes that stay. *)
Inductive drained : list WritePending → list byte → list (WritePending * Z) → list WritePending → Prop :=
  | dr_empty : drained [] [] [] []
  | dr_blocked w w' q b :
      advanced w w' → remaining w = b ++ remaining w' → remaining w' ≠ [] →
      drained (w :: q) b [] (w' :: q)
  | dr_sent w q b done rest :
      drained q b done rest → drained (w :: q) (remaining w ++ b) ((w, 0) :: done) rest
  | dr_failed w q b1 b done rest :
      b1 `prefix_of` remaining w → drained q b done rest →
      drained (w :: q) (b1 ++ b) ((w, UV_EPIPE) :: done) rest.

Definition completions (done : list (WritePending * Z)) : list invocation :=
  omap (λ e, (λ c, OnWrite c (wp_req e.1) e.2) <$> wp_cb e.1) done.

Hypothesis quiet : ∀ i s, enter_c H (Call i) s = Ret (tt, s).

Lemma call_opt_run c i s :
  call_opt H c i s = Ret (tt, mkU (world s) (now s) (inner s) (heap s)
    (called s ++ option_list (i <$> c)) (sent s)).
Proof.
  destruct c as [c|]; simpl; [by unfold call; rewrite quiet|]. rewrite app_nil_r. by destruct s.
Qed.

Lemma drain_writes_run fuel h x k s :
  heap s !! h = Some x → Forall (λ w, 0 <= wp_offset w) (internal_write_queue (tcp x)) →
  zlen (pending x) + zlen (internal_write_queue (tcp x)) < Z.of_nat fuel →
  ∃ s' chunks done rest, drain_writes H fuel h k s = Ret (tt, s') ∧
    drained (internal_write_queue (tcp x)) (concat chunks) done rest ∧
    heap s' = <[h := with_queue x rest]> (heap s) ∧ inner s' = inner s ∧
    sent s' = sent s ++ map (pair k) chunks ∧ called s' = called s ++ completions done.
Proof.
  revert x s. induction fuel as [|fuel IH]; intros x s Hx Hoff Hfuel; [unfold zlen in *; lia|].
  destruct (internal_write_queue (tcp x)) as [|w q] eqn:Hq.
  - assert (with_queue x [] = x) as Hsame.
    { unfold with_queue. rewrite <- Hq. by destruct x as [?????? ? []]. }
    cbn [drain_writes write_front]. unfold mbind, stateM_bind, read. rewrite Hx. cbn. rewrite Hq.
    exists s, [], [], []. split; [done|]. rewrite Hsame, insert_id, !app_nil_r by done.
    split; [constructor|done].
  - apply Forall_cons in Hoff as [Hw Hoff].
    assert (zlen (pending x) = zlen (remaining w) + zlen (concat (map remaining q))) as Hp
      by (unfold pending; rewrite Hq; simpl; by rewrite zlen_app).
    assert (zlen (w :: q) = 1 + zlen q) as Hl by (unfold zlen; simpl; lia).
    pose proof (zlen_nonneg (remaining w)) as Hr0. pose proof (zlen_nonneg q) as Hq0. pose proof (zlen_nonneg (concat (map remaining q))) as Hc0.
    cbn [drain_writes].
    destruct (write_front_run (S fuel) h x k w q s) as
      (st & s1 & w' & chunks & Hrun1 & [S1 H1 I1 C1 _] & Hadv & Hb & Hst); [done..|lia|].
    rewrite (ubind_run _ _ _ _ _ Hrun1). destruct st as [e|].
    + assert (heap s1 !! h = Some (with_queue x (w' :: q))) as Hx1
        by by rewrite H1, lookup_insert_eq.
      rewrite (ubind_run _ _ _ _ _ (read_run h _ s1 Hx1)). cbn [internal_write_queue with_queue set_tcp set_queue tcp].
      rewrite (ubind_run _ _ _ _ _ (on_tcp_run h _ _ s1 Hx1)).
      rewrite (ubind_run _ _ _ _ _ (call_opt_run _ _ _)).
      match goal with |- context [drain_writes H fuel h k ?s2] =>
        destruct (IH (with_queue x q) s2) as (s' & chunks2 & done & rest & Hrun & Hdr & Hh & Hi & Hs & Hc) end.
      * simpl. by rewrite lookup_insert_eq.
      * done.
      * unfold pending. simpl. lia.
      * simpl in Hh, Hi, Hs, Hc. destruct Hadv as (A1 & A2 & A3).
        exists s', (chunks ++ chunks2), ((w, e) :: done), rest. split_and!; [done|..].
        -- rewrite concat_app. destruct Hst as [[-> Hr]| ->].
           ++ rewrite Hr, app_nil_r in Hb. rewrite <- Hb. by constructor.
           ++ constructor; [|done]. rewrite Hb. by apply prefix_app_r.
        -- rewrite Hh, H1, !insert_insert_eq. done.
        -- congruence.
        -- by rewrite Hs, S1, map_app, app_assoc.
        -- rewrite Hc, C1, A1, A3, <- app_assoc. f_equal. unfold completions. simpl.
           by destruct (wp_cb w).
    + exists s1, chunks, [], (w' :: q). split; [done|]. split; [by apply dr_blocked|].
      by rewrite app_nil_r.
Qed.

(** [poll_write] completes queued writes in the order in which they were queued: it
    sends what is left of each one before anything of the next, and calls its callback with
    success exactly when every byte of it was taken and with an error exactly when the
    socket failed; it stops when the socket would block, at the first write that is not
    over, and that write keeps exactly the bytes that were not sent. *)
Lemma queued_writes_in_order fuel h x k s :
  heap s !! h = Some x → internal_stream (tcp x) = Some k →
  Forall (λ w, 0 <= wp_offset w) (internal_write_queue (tcp x)) →
  zlen (pending x) + zlen (internal_write_queue (tcp x)) < Z.of_nat fuel →
  ∃ s' chunks done rest, poll_write H fuel h s = Ret (tt, s') ∧
    drained (internal_write_queue (tcp x)) (concat chunks) done rest ∧
    heap s' = <[h := with_queue x rest]> (heap s) ∧ inner s' = inner s ∧
    sent s' = sent s ++ map (pair k) chunks ∧ called s' = called s ++ completions done.
Proof.
  intros Hx Hk Hoff Hfuel. unfold poll_write. rewrite (ubind_run _ _ _ _ _ (read_run h x s Hx)), Hk.
  destruct (drain_writes_run fuel h x k s Hx Hoff Hfuel) as (s' & chunks & done & rest & Hrun & Hdr & Hrest).
  destruct (internal_write_queue (tcp x)) as [|w q] eqn:Hq.
  - exists s, [], [], []. split; [done|]. assert (with_queue x [] = x) as ->.
    { unfold with_queue. rewrite <- Hq. by destruct x as [?????? ? []]. }
    rewrite insert_id, !app_nil_r by done. split; [constructor|done].
  - by exists s', chunks, done, rest.
Qed.
End streams.

(** * Addresses *)

Lemma lor_high_low n a b : 0 <= n → 0 <= b < 2 ^ n → Z.lor (Z.shiftl a n) b = a * 2 ^ n + b.
Proof.
  intros Hn Hb. rewrite <- Z.shiftl_mul_pow2 by done.
  assert (Z.land (Z.shiftl a n) b = 0) as Hland.
  { apply Z.bits_inj'. intros i Hi. rewrite Z.land_spec, Z.shiftl_spec, Z.bits_0 by done.
    destruct (Z.ltb_spec i n); [by rewrite Z.testbit_neg_r by lia|].
    destruct (decide (b = 0)) as [->|]; [by rewrite Z.bits_0, andb_false_r|].
    rewrite (Z.bits_above_log2 b), andb_false_r; [done|lia|].
    apply (Z.lt_le_trans _ n); [|done]. apply Z.log2_lt_pow2; lia. }
  by rewrite Z.add_nocarry_lxor, Z.lxor_lor.
Qed.

Lemma swap16_digits x : 0 <= x < 2 ^ 16 → swap16 x = x mod 256 * 256 + x / 256.
Proof.
  intros Hx. unfold swap16. change 255 with (Z.ones 8). rewrite Z.land_ones by done.
  rewrite Z.shiftr_div_pow2 by done. change (2 ^ 8) with 256 in *. change (2 ^ 16) with 65536 in *.
  rewrite (lor_high_low 8); [done|done|]. change (2 ^ 8) with 256. Z.div_mod_to_equations. lia.
Qed.

Lemma swap16_range x : 0 <= x < 2 ^ 16 → 0 <= swap16 x < 2 ^ 16.
Proof.
  intros Hx. rewrite swap16_digits by done. change (2 ^ 16) with 65536 in *.
  Z.div_mod_to_equations. lia.
Qed.

Lemma swap16_twice x : 0 <= x < 2 ^ 16 → swap16 (swap16 x) = x.
Proof.
  intros Hx. rewrite (swap16_digits (swap16 x)) by by apply swap16_range.
  rewrite swap16_digits by done. change (2 ^ 16) with 65536 in *.
  Z.div_mod_to_equations. lia.
Qed.

Lemma swap32_halves x : 0 <= x < 2 ^ 32 →
  swap32 x = swap16 (x mod 2 ^ 16) * 2 ^ 16 + swap16 (x / 2 ^ 16) ∧
  0 <= x mod 2 ^ 16 < 2 ^ 16 ∧ 0 <= x / 2 ^ 16 < 2 ^ 16.
Proof.
  intros Hx. assert (0 <= x mod 2 ^ 16 < 2 ^ 16 ∧ 0 <= x / 2 ^ 16 < 2 ^ 16) as [H1 H2].
  { change (2 ^ 16) with 65536. change (2 ^ 32) with 4294967296 in Hx. Z.div_mod_to_equations. lia. }
  split; [|done]. unfold swap32. change 65535 with (Z.ones 16).
  rewrite Z.land_ones, Z.shiftr_div_pow2 by done. apply lor_high_low; [done|].
  by apply swap16_range.
Qed.

Lemma swap32_twice x : 0 <= x < 2 ^ 32 → swap32 (swap32 x) = x.
Proof.
  intros Hx. destruct (swap32_halves x Hx) as (E & Hlo & Hhi).
  pose proof (swap16_range _ Hlo) as Rlo. pose proof (swap16_range _ Hhi) as Rhi.
  assert (swap32 x / 2 ^ 16 = swap16 (x mod 2 ^ 16) ∧ swap32 x mod 2 ^ 16 = swap16 (x / 2 ^ 16))
    as [Hd Hm].
  { rewrite E. split.
    - rewrite Z.div_add_l by done. rewrite Z.div_small by done. lia.
    - rewrite Z.add_comm, Z.mod_add by done. by apply Z.mod_small. }
  destruct (swap32_halves (swap32 x)) as (E2 & _).
  { rewrite E. change (2 ^ 32) with (2 ^ 16 * 2 ^ 16). lia. }
  rewrite E2, Hd, Hm, !swap16_twice by done. rewrite Z.mul_comm. symmetry. by apply Z.div_mod.
Qed.

(** A socket address of the machine. *)
Definition address_ok (a : sockaddr) : Prop :=
  match a with
  | V4 ip port => 0 <= ip < 2 ^ 32 ∧ 0 <= port < 2 ^ 16
  | V6 _ port _ _ => 0 <= port < 2 ^ 16
  end.

(** The address without what [sockaddr_to_std] drops. *)
Definition unscoped (a : sockaddr) : sockaddr :=
  match a with V6 octets port _ _ => V6 octets port 0 0 | a => a end.

(** An address survives the conversion to the structures of C, in network byte order,
    and back, except for the flow information and the scope of an IPv6 address. *)
Lemma sockaddr_roundtrip a :
  address_ok a → sockaddr_to_std (std_to_sockaddr a) = Some (unscoped a).
Proof.
  destruct a as [ip port|octets port flow scope]; simpl.
  - intros [Hip Hport]. by rewrite swap32_twice, swap16_twice.
  - intros Hport. by rewrite swap16_twice.
Qed.

Definition link_local : list Z := [254; 128; 0; 0; 0; 0; 0; 0; 0; 0; 0; 0; 0; 0; 0; 1].

(** [sockaddr_roundtrip] at 127.0.0.1:8080 and at a link-local address. *)
Lemma sockaddr_roundtrip_example :
  std_to_sockaddr (V4 0x7f000001 8080) = sockaddr_in 0x901f 0x0100007f ∧
  sockaddr_to_std (std_to_sockaddr (V4 0x7f000001 8080)) = Some (V4 0x7f000001 8080) ∧
  sockaddr_to_std (std_to_sockaddr (V6 link_local 80 0 3)) = Some (V6 link_local 80 0 0).
Proof.
  split; [done|]. split.
  - apply (sockaddr_roundtrip (V4 0x7f000001 8080)). simpl. lia.
  - apply (sockaddr_roundtrip (V6 link_local 80 0 3)). simpl. lia.
Qed.

(** * Examples *)

(** Sockets that take two bytes at a time, up to a budget, and a queue of connections. *)
Definition small_sockets A (q : sock_query A) : Z * Z → A * (Z * Z) := λ j,
  match q in sock_query A return A * (Z * Z) with
  | PollConnect _ => (Pending, j)
  | PollAccept _ => if 0 <? j.2 then (Ready (Some (100 + j.2)), (j.1, j.2 - 1)) else (Pending, j)
  | TryRead _ _ => (WouldBlock, j)
  | TryWrite _ data => let n := Z.min (Z.min 2 j.1) (zlen data) in
      if 0 <? j.1 then (Done n, (j.1 - n, j.2)) else (WouldBlock, j)
  | TryWriteVectored _ bufs => let n := Z.min (Z.min 2 j.1) (zlen (concat bufs)) in
      if 0 <? j.1 then (Done n, (j.1 - n, j.2)) else (WouldBlock, j)
  | StartConnect _ => (1, j)
  | OpenFd fd => (Some fd, j)
  | Bind a => (Some (Some (50, Some a)), j)
  | PeerAddr _ | LocalAddr _ => (None, j)
  | SetNodelay _ _ | ShutdownWrite _ => (true, j)
  end.
Definition small_host : uv_host (Z * Z) := silent_host small_sockets.

Lemma small_laws : socket_laws small_host.
Proof.
  split.
  - intros k data [b c] n. simpl. pose proof (zlen_nonneg data).
    destruct (Z.ltb_spec 0 b); [|done]. intros [= <-]. split; [lia|].
    intros Hne. destruct data; [done|]. unfold zlen in *. simpl in *. lia.
  - intros k bufs [b c] n. simpl. pose proof (zlen_nonneg (concat bufs)).
    destruct (Z.ltb_spec 0 b); [|done]. intros [= <-]. lia.
Qed.

(** A handle over socket 5 with two writes queued. *)
Definition two_writes : uv_handle :=
  mkHandle UV_TCP UV_HANDLE_REF None 0 0 0 0
    (set_queue (set_stream tcp_init (Some 5))
       [mkWrite 1 [1; 2; 3; 4; 5] 1 (Some 8); mkWrite 2 [6; 7; 8] 0 None]).
Definition one_stream (x : uv_handle) (b : Z) : ustate (Z * Z) :=
  mkU (b, 0) 0 (Some UvLoopInner_new) {[ 1 := x ]} [] [].

(** [uv_write_keeps_bytes] for three buffers of which one byte is taken at first. *)
Lemma uv_write_keeps_bytes_example :
  let x := with_queue two_writes [] in
  ∃ st s', start_write small_host 9 3 1 [Some [1; 2]; None; Some [3]] (Some 4) (one_stream x 1) = Ret (st, s') ∧
    write_end 5 1 x 3 (Some 4) [1; 2; 3] (one_stream x 1) st s' ∧
    (internal_write_queue (tcp x) ≠ [] → st = None ∧ sent s' = sent (one_stream x 1)).
Proof.
  intros x. apply (uv_write_keeps_bytes small_host small_laws 9 3 1 [Some [1; 2]; None; Some [3]]
    (Some 4) (one_stream x 1) x 5); done.
Qed.

(** [queued_writes_in_order] when the socket takes five more bytes. *)
Lemma queued_writes_in_order_example :
  ∃ s' chunks done rest, poll_write small_host 20 1 (one_stream two_writes 5) = Ret (tt, s') ∧
    drained (internal_write_queue (tcp two_writes)) (concat chunks) done rest ∧
    heap s' = <[1 := with_queue two_writes rest]> (heap (one_stream two_writes 5)) ∧
    inner s' = inner (one_stream two_writes 5) ∧
    sent s' = sent (one_stream two_writes 5) ++ map (pair 5) chunks ∧
    called s' = called (one_stream two_writes 5) ++ completions done.
Proof.
  apply (queued_writes_in_order small_host small_laws (λ i s, eq_refl) 20 1 two_writes 5); try done.
  by repeat constructor.
Qed.

(** * Where the loop differs from libuv *)

(** The state after some calls in a new loop, and after a phase. *)
Definition played (b c : Z) (cs : list ucall) : ustate (Z * Z) :=
  match play Release small_sockets cs (new_loop (b, c) 1) with
  | Ret s => s
  | Panic _ => new_loop (b, c) 1
  end.
Definition then_do {A} (m : umethod (Z * Z) A) (s : ustate (Z * Z)) : ustate (Z * Z) :=
  match m s with Ret (_, s) => s | Panic _ => s end.
Definition with_world (b c : Z) (s : ustate (Z * Z)) : ustate (Z * Z) :=
  mkU (b, c) (now s) (inner s) (heap s) (called s) (sent s).
Definition active_at (h : Z) (s : ustate (Z * Z)) : bool :=
  match heap s !! h with Some x => is_active x | None => false end.
Definition queued_at (h : Z) (s : ustate (Z * Z)) : list byte :=
  match heap s !! h with Some x => pending x | None => [] end.
Definition backlog_at (h : Z) (s : ustate (Z * Z)) : list socket :=
  match heap s !! h with Some x => internal_backlog (tcp x) | None => [] end.

(** The watcher 1 stops itself when it is called. *)
Definition self_stop : uv_host (Z * Z) := scripted_host Release small_sockets
  (λ i, match i with OnWatcher ty 6 h => [C_watcher_stop ty h] | _ => [] end).
Definition two_idle : ustate (Z * Z) :=
  played 0 0 [C_watcher_init UV_IDLE 1; C_watcher_init UV_IDLE 2;
              C_watcher_start UV_IDLE 1 6; C_watcher_start UV_IDLE 2 7].

(** Every connection is accepted as soon as it is announced. *)
Definition accepting : uv_host (Z * Z) := scripted_host Release small_sockets
  (λ i, match i with OnConnection 6 _ => [C_accept 1 2] | _ => [] end).
Definition listening : ustate (Z * Z) :=
  played 0 3 [C_tcp_init 1; C_tcp_init 2; C_listen 1 (Some 6)].

(** A handle over an open socket, with a write that waits for the socket. *)
Definition opened_write : ustate (Z * Z) :=
  played 0 0 [C_tcp_init 1; C_tcp_open 1 5; C_write 9 3 1 [Some [1; 2]] (Some 8)].

(** A timer that was closed. *)
Definition closed_timer : ustate (Z * Z) :=
  played 0 0 [C_timer_init 1; C_timer_start 1 8 10 0; C_close 1 (Some 9)].
Definition freed (h : Z) (s : ustate (Z * Z)) : ustate (Z * Z) :=
  mkU (world s) (now s) (inner s) (delete h (heap s)) (called s) (sent s).

(** Six places where the functions do not do what those of libuv do.  (1) An idle watcher
    that stops itself makes [run_idle] skip the next one.  (2) The deadline of a timer with
    a huge timeout overflows: debug builds panic, release builds fire it at once.  (3) A
    timer can be started after it was closed; once its memory is released the loop reads it.
    (4) Closing a handle forgets its queued writes: their callbacks are never called.
    (5) A write that waits on a handle from [uv_tcp_open] or [uv_accept] is not sent when
    the socket is ready, since only reading, listening and connecting register a handle.
    (6) Of three connections that arrive together two are announced, although each was
    accepted at once; the third stays in the backlog. *)
Lemma uv_compat_gaps :
  (called (then_do (run_watchers self_stop 9 UV_IDLE) two_idle) = [OnWatcher UV_IDLE 6 1] ∧
   active_at 2 (then_do (run_watchers self_stop 9 UV_IDLE) two_idle) = true) ∧
  (uv_timer_start Debug 1 8 (2 ^ 64 - 1) 0 (played 0 0 [C_timer_init 1]) = Panic Overflow ∧
   called (then_do (run_timers Release small_host)
     (then_do (uv_timer_start Release 1 8 (2 ^ 64 - 1) 0) (played 0 0 [C_timer_init 1]))) =
     [OnTimer 8 1]) ∧
  (match uv_timer_start Release 1 8 0 0 closed_timer with
   | Ret (st, s) => st = 0 ∧
       run_timers Release small_host (freed 1 (then_do (run_close small_host) s)) = Panic BadMemory
   | Panic _ => False
   end) ∧
  (queued_at 1 opened_write = [1; 2] ∧
   called (then_do (run_close small_host) (then_do (run_io small_host 9)
     (then_do (uv_close 1 (Some 9)) opened_write))) = [OnClose 9 1]) ∧
  (sent (then_do (run_io small_host 9) (with_world 100 0 opened_write)) = [] ∧
   queued_at 1 (then_do (run_io small_host 9) (with_world 100 0 opened_write)) = [1; 2]) ∧
  (called (then_do (run_io accepting 9) listening) = [OnConnection 6 1; OnConnection 6 1] ∧
   backlog_at 1 (then_do (run_io accepting 9) listening) = [101]).
Proof. split_and!; vm_compute; repeat split. Qed.
