(* ===== verification/WebIdl.v ===== *)
(** [core/webidl.rs]: the conversions of JavaScript numbers to Rust integers.

    Holds the macro [impl_ints] with its table of types and, as its specification, the
    abstract operation ConvertToInt of Web IDL, which the source refers to.  An [f64] is a
    dyadic rational, an infinity or NaN; the code turns negative zero into zero before it
    matters, so there is one zero.  Sums are rounded as [f64] rounds them. *)

From S2P Require Import Prelude Numbers.

Local Open Scope string_scope.
Local Open Scope Z_scope.

(** * The types *)

(** [impl_ints!] per type: name, bits, the flag of the table, the bounds. *)
Record IntType := mkType {
  name : string;
  bits : Z;
  unsigned : bool;
  MIN : Z;
  MAX : Z
}.
Definition i8 := mkType "byte" 8 false (- 2 ^ 7) (2 ^ 7 - 1).
Definition u8 := mkType "octet" 8 true 0 (2 ^ 8 - 1).
Definition i16 := mkType "short" 16 false (- 2 ^ 15) (2 ^ 15 - 1).
Definition u16 := mkType "unsigned short" 16 true 0 (2 ^ 16 - 1).
Definition i32 := mkType "long" 32 false (- 2 ^ 31) (2 ^ 31 - 1).
Definition u32 := mkType "unsigned long" 32 true 0 (2 ^ 32 - 1).
Definition i64 := mkType "long long" 64 false (- 2 ^ 53 + 1) (2 ^ 53 - 1).
Definition u64 := mkType "unsigned long long" 64 true 0 (2 ^ 53 - 1).
Definition int_types : list IntType := [i8; u8; i16; u16; i32; u32; i64; u64].

(** A saturating cast, [as]. *)
Definition cast (t : IntType) (z : Z) : Z :=
  let lo := if unsigned t then 0 else - 2 ^ (bits t - 1) in
  let hi := if unsigned t then 2 ^ bits t - 1 else 2 ^ (bits t - 1) - 1 in
  Z.max lo (Z.min hi z).

(** * The conversion *)

Record IntOptions := mkOptions { clamp : bool; enforce_range : bool }.

(** An error of another library is known by identity. *)
Inductive WebIdlErrorKind :=
  | ConvertToConverterType (kind : string)
  | DictionaryCannotConvertKey (converter key : string)
  | NotFinite
  | IntRange (lower_bound upper_bound : Z)
  | InvalidByteString
  | Precision
  | InvalidEnumVariant (converter variant : string)
  | Other (other : Z).

(** A JavaScript value as the conversion sees it: is it a big integer, and what does
    [number_value] answer? *)
Record value := mkValue { is_big_int : bool; number_value : option number }.

(** [n.clamp(MIN, MAX).round_ties_even()]. *)
Definition clamped (lo hi : Z) (n : number) : Z :=
  match n with
  | NaN => 0
  | Infinity negative => if negative then lo else hi
  | Finite m k =>
      if decide (m < lo * pow2 k) then lo
      else if decide (hi * pow2 k < m) then hi
      else round_ties_even m k
  end.

(** The end of [convert], for an integer outside the bounds. *)
Definition wrap (t : IntType) (n : Z) : Z :=
  let bit_len_num := 2 ^ bits t in
  let sign_might_not_match := Z.rem n bit_len_num in
  let n :=
    if decide (n < 0) then to_f64 (sign_might_not_match + bit_len_num)
    else sign_might_not_match in
  if negb (unsigned t) && bool_decide (MAX t <= n) then cast t (to_f64 (n - bit_len_num))
  else cast t n.

Definition convert (t : IntType) (options : IntOptions) (v : value) :
    result Z WebIdlErrorKind :=
  if is_big_int v then Err (ConvertToConverterType (name t))
  else match number_value v with
  | None => Err (ConvertToConverterType (name t))
  | Some n =>
      if enforce_range options then
        match n with
        | Finite m k =>
            let n := trunc m k in
            if decide (n < MIN t ∨ MAX t < n) then Err (IntRange (MIN t) (MAX t))
            else Ok (cast t n)
        | _ => Err NotFinite
        end
      else match n with
      | NaN => Ok 0
      | _ =>
          if clamp options then Ok (cast t (clamped (MIN t) (MAX t) n))
          else match n with
          | Finite m k =>
              if decide (m = 0) then Ok 0
              else
                let n := trunc m k in
                if decide (MIN t <= n <= MAX t) then Ok (cast t n) else Ok (wrap t n)
          | _ => Ok 0
          end
      end
  end.

(** * Web IDL *)

(** The bounds of the standard, steps 1 to 3 of ConvertToInt. *)
Definition lowerBound (bits : Z) (unsigned : bool) : Z :=
  if unsigned then 0 else if decide (bits = 64) then - 2 ^ 53 + 1 else - 2 ^ (bits - 1).
Definition upperBound (bits : Z) (unsigned : bool) : Z :=
  if decide (bits = 64) then 2 ^ 53 - 1
  else if unsigned then 2 ^ bits - 1 else 2 ^ (bits - 1) - 1.

(** The rest of it.  [name] is the type in messages. *)
Definition ConvertToInt (name : string) (bits : Z) (unsigned : bool) (options : IntOptions) (v : value) :
    result Z WebIdlErrorKind :=
  if is_big_int v then Err (ConvertToConverterType name)
  else match number_value v with
  | None => Err (ConvertToConverterType name)
  | Some n =>
      let lo := lowerBound bits unsigned in
      let hi := upperBound bits unsigned in
      if enforce_range options then
        match n with
        | Finite m k =>
            let x := trunc m k in
            if decide (lo <= x <= hi) then Ok x else Err (IntRange lo hi)
        | _ => Err NotFinite
        end
      else match n with
      | NaN => Ok 0
      | _ =>
          if clamp options then Ok (clamped lo hi n)
          else match n with
          | Finite m k =>
              let x := trunc m k mod 2 ^ bits in
              if negb (unsigned) && bool_decide (2 ^ (bits - 1) <= x)
              then Ok (x - 2 ^ bits) else Ok x
          | _ => Ok 0
          end
      end
  end.

(** * Lemmas *)

Lemma clamped_between lo hi n : lo <= 0 <= hi → lo <= clamped lo hi n <= hi.
Proof.
  intros ?. destruct n as [|[]|m k]; simpl; [lia..|].
  repeat case_decide; [lia..|]. apply round_between. lia.
Qed.

(** The remainder that the code corrects, and the modulus. *)
Lemma rem_mod n b : 0 < b →
  (0 <= n → Z.rem n b = n mod b) ∧
  (n < 0 → Z.rem n b + b = if decide (n mod b = 0) then b else n mod b).
Proof.
  intros Hb. split; intros Hn; [by apply Z.rem_mod_nonneg; lia|].
  pose proof (Z.quot_rem n b ltac:(lia)) as Hqr.
  pose proof (Z.rem_bound_pos_neg n b ltac:(lia) ltac:(lia)) as Hr.
  case_decide as Hm.
  - apply Z.mod_divide in Hm; [|lia]. destruct Hm as [c ->].
    rewrite Z.rem_mul by lia. lia.
  - assert (Z.rem n b ≠ 0) as Hne.
    { intros Hz. apply Hm. rewrite Hqr, Hz, Z.add_0_r, Z.mul_comm. apply Z.mod_mul. lia. }
    apply (Z.mod_unique_pos _ _ (Z.quot n b - 1)); lia.
Qed.

(** The table follows the standard. *)
Lemma table_ok t : t ∈ int_types →
  MIN t = lowerBound (bits t) (unsigned t) ∧ MAX t = upperBound (bits t) (unsigned t) ∧
  MIN t <= 0 <= MAX t ∧ ∀ z, MIN t <= z <= MAX t → cast t z = z.
Proof.
  unfold int_types. intros Ht. set_unfold in Ht.
  repeat destruct Ht as [->|Ht]; try done; (split_and!; [reflexivity|reflexivity|simpl; lia..|]);
    intros z Hz; unfold cast; simpl in *; lia.
Qed.

(** * The conversion and the standard *)

(** A negative multiple of the modulus, for an unsigned type; a number congruent to the
    upper bound, for a signed one. *)
Definition misses (t : IntType) (n : Z) : Prop :=
  if unsigned t then n < 0 ∧ n mod 2 ^ bits t = 0 else n mod 2 ^ bits t = MAX t.

(** Where the code leaves the standard: without options, such an integer outside the
    bounds. *)
Definition diverges (t : IntType) (options : IntOptions) (v : value) : Prop :=
  is_big_int v = false ∧ enforce_range options = false ∧ clamp options = false ∧
  ∃ m k, number_value v = Some (Finite m k) ∧
    ¬ (MIN t <= trunc m k <= MAX t) ∧ misses t (trunc m k).

(** What the standard answers for an integer. *)
Definition wrapped (t : IntType) (n : Z) : Z :=
  let x := n mod 2 ^ bits t in
  if negb (unsigned t) && bool_decide (2 ^ (bits t - 1) <= x) then x - 2 ^ bits t else x.

Definition narrow (t : IntType) : Prop := t ∈ int_types ∧ bits t <= 32.

Lemma narrow_cases t : narrow t →
  (bits t = 8 ∨ bits t = 16 ∨ bits t = 32) ∧
  (unsigned t = true ∧ MIN t = 0 ∧ MAX t = 2 ^ bits t - 1 ∨
   unsigned t = false ∧ MIN t = - 2 ^ (bits t - 1) ∧ MAX t = 2 ^ (bits t - 1) - 1).
Proof.
  intros [Ht Hb]. unfold int_types in Ht. set_unfold in Ht.
  repeat destruct Ht as [->|Ht]; try done; simpl in *; lia || (split; auto).
Qed.

(** The integer that the code corrects, before it looks at the sign of the type. *)
Lemma wrap_mod t n :
  narrow t →
  (if decide (n < 0) then to_f64 (Z.rem n (2 ^ bits t) + 2 ^ bits t)
   else Z.rem n (2 ^ bits t)) =
  if decide (n < 0 ∧ n mod 2 ^ bits t = 0) then 2 ^ bits t else n mod 2 ^ bits t.
Proof.
  intros Hn. destruct (narrow_cases t Hn) as [Hbits _].
  assert (0 < 2 ^ bits t <= 2 ^ 32) as Hb by (destruct Hbits as [-> | [-> | ->]]; simpl; lia).
  set (b := 2 ^ bits t) in *. clearbody b.
  destruct (rem_mod n b ltac:(lia)) as [Hpos Hneg].
  pose proof (Z.mod_pos_bound n b ltac:(lia)) as Hxb.
  destruct (decide (n < 0)) as [Hlt|Hlt].
  - rewrite Hneg by done. rewrite to_f64_exact; repeat case_decide; try tauto; lia.
  - rewrite Hpos, decide_False by lia. done.
Qed.

Lemma wrap_narrow t n :
  narrow t →
  let x := n mod 2 ^ bits t in
  if unsigned t then wrap t n = if decide (n < 0 ∧ x = 0) then MAX t else wrapped t n
  else wrap t n = if decide (x = MAX t) then MIN t else wrapped t n.
Proof.
  intros Hn x. pose proof (wrap_mod t n Hn) as Hw. fold x in Hw.
  destruct (narrow_cases t Hn) as [Hbits Hcase].
  assert (2 * 2 ^ (bits t - 1) = 2 ^ bits t ∧ 256 <= 2 ^ bits t <= 2 ^ 32) as [Hhalf Hb]
    by (destruct Hbits as [-> | [-> | ->]]; simpl; lia).
  pose proof (Z.mod_pos_bound n (2 ^ bits t) ltac:(lia)) as Hxb. fold x in Hxb.
  unfold wrap, wrapped. cbv zeta. rewrite Hw. fold x. clearbody x. clear Hw Hbits Hn.
  set (b := 2 ^ bits t) in *. set (h := 2 ^ (bits t - 1)) in *.
  unfold cast. fold b h. clearbody b h.
  destruct Hcase as [(-> & Hmin & Hmax)|(-> & Hmin & Hmax)]; rewrite ?Hmin, ?Hmax; simpl.
  - repeat case_decide; lia.
  - destruct (decide (n < 0 ∧ x = 0)) as [[_ ->]|_].
    + rewrite bool_decide_true by lia. rewrite to_f64_exact by lia.
      rewrite (bool_decide_false (h <= 0)) by lia. case_decide; lia.
    + repeat case_bool_decide; repeat case_decide; rewrite ?to_f64_exact by lia; lia.
Qed.

Lemma wrap_wrapped t n : narrow t →
  (wrap t n = wrapped t n ↔ ¬ misses t n) ∧
  (misses t n → wrap t n = if unsigned t then MAX t else MIN t).
Proof.
  intros Hn. pose proof (wrap_narrow t n Hn) as Hw. cbv zeta in Hw.
  destruct (narrow_cases t Hn) as [Hbits Hcase].
  assert (2 * 2 ^ (bits t - 1) = 2 ^ bits t ∧ 256 <= 2 ^ bits t) as [Hhalf Hb]
    by (destruct Hbits as [-> | [-> | ->]]; simpl; lia).
  unfold misses. destruct Hcase as [(Hu & Hmin & Hmax)|(Hu & Hmin & Hmax)]; rewrite Hu in *;
    rewrite Hw; case_decide as Hd; (split; [split|]); try tauto.
  - intros He _. unfold wrapped in He. rewrite Hu in He. simpl in He. lia.
  - intros He _. unfold wrapped in He. rewrite Hu, Hd, bool_decide_false in He by lia.
    simpl in He. lia.
Qed.

Lemma neg_mod n b : - b <= n < 0 → n mod b = n + b.
Proof. intros. symmetry. apply (Z.mod_unique_pos _ _ (-1)); lia. Qed.

Lemma wrapped_id t n : t ∈ int_types → MIN t <= n <= MAX t → wrapped t n = n.
Proof.
  unfold int_types, wrapped. intros Ht Hn. set_unfold in Ht.
  repeat destruct Ht as [->|Ht]; try done; simpl in *;
    try (apply Z.mod_small; lia);
    (destruct (decide (0 <= n));
     [rewrite Z.mod_small by lia; rewrite bool_decide_false by lia; done|]);
    (rewrite neg_mod by lia; rewrite bool_decide_true by lia; lia).
Qed.

Lemma convert_plain t options v :
  t ∈ int_types →
  enforce_range options = true ∨ clamp options = true ∨ is_big_int v = true ∨
    (∀ m k, number_value v = Some (Finite m k) → MIN t <= trunc m k <= MAX t) →
  convert t options v = ConvertToInt (name t) (bits t) (unsigned t) options v.
Proof.
  intros Ht Hp. destruct (table_ok t Ht) as (Hlo & Hhi & H0 & Hcast).
  unfold convert, ConvertToInt. cbv zeta. rewrite <- Hlo, <- Hhi.
  destruct (is_big_int v); [done|]. destruct (number_value v) as [n|]; [|done].
  destruct (enforce_range options).
  { destruct n as [|?|m k]; try done.
    repeat case_decide; try (rewrite Hcast by lia); done || lia. }
  destruct (clamp options).
  { rewrite Hcast by (by apply clamped_between). done. }
  destruct n as [|?|m k]; try done.
  destruct Hp as [Hp|[Hp|[Hp|Hp]]]; try done. specialize (Hp m k eq_refl).
  rewrite (decide_True (P := MIN t <= trunc m k <= MAX t)), Hcast by done.
  pose proof (wrapped_id t _ Ht Hp) as Hw. unfold wrapped in Hw. cbv zeta in Hw.
  destruct (decide (m = 0)) as [->|]; destruct (negb (unsigned t) && _); by rewrite Hw.
Qed.

(** The cases in which no integer is wrapped. *)
Definition plain (t : IntType) (options : IntOptions) (v : value) : bool :=
  enforce_range options || clamp options || is_big_int v ||
  match number_value v with
  | Some (Finite m k) => bool_decide (MIN t <= trunc m k <= MAX t)
  | _ => true
  end.

Lemma plain_holds t options v : plain t options v →
  enforce_range options = true ∨ clamp options = true ∨ is_big_int v = true ∨
  (∀ m k, number_value v = Some (Finite m k) → MIN t <= trunc m k <= MAX t).
Proof.
  unfold plain. destruct (enforce_range options), (clamp options), (is_big_int v); auto.
  simpl. intros Hp. right; right; right. intros m k Hv. rewrite Hv in Hp.
  by apply bool_decide_unpack in Hp.
Qed.
Lemma plain_converges t options v : plain t options v → ¬ diverges t options v.
Proof.
  intros Hp (Hb & He & Hc & m & k & Hv & Hout & _).
  destruct (plain_holds _ _ _ Hp) as [?|[?|[?|Hn]]]; [congruence..|]. by apply Hout, Hn.
Qed.
Lemma not_plain t options v : ¬ plain t options v →
  enforce_range options = false ∧ clamp options = false ∧ is_big_int v = false ∧
  ∃ m k, number_value v = Some (Finite m k) ∧ ¬ (MIN t <= trunc m k <= MAX t).
Proof.
  unfold plain. destruct (enforce_range options), (clamp options), (is_big_int v);
    try by intros []. simpl.
  destruct (number_value v) as [[|?|m k]|]; try by intros [].
  intros Hp. do 3 (split; [done|]). exists m, k. split; [done|]. by case_bool_decide.
Qed.

Lemma trunc_0 k : trunc 0 k = 0.
Proof. done. Qed.

Lemma convert_wrap t options v m k : t ∈ int_types →
  enforce_range options = false → clamp options = false → is_big_int v = false →
  number_value v = Some (Finite m k) → ¬ (MIN t <= trunc m k <= MAX t) →
  convert t options v = Ok (wrap t (trunc m k)).
Proof.
  intros Ht He Hc Hb Hv Hout. destruct (table_ok t Ht) as (_ & _ & H0 & _).
  unfold convert. rewrite He, Hc, Hb, Hv. cbv zeta.
  rewrite (decide_False (P := m = 0)); [by rewrite decide_False|].
  intros ->. apply Hout. by rewrite trunc_0.
Qed.
Lemma ConvertToInt_wrapped t options v m k :
  enforce_range options = false → clamp options = false → is_big_int v = false →
  number_value v = Some (Finite m k) →
  ConvertToInt (name t) (bits t) (unsigned t) options v = Ok (wrapped t (trunc m k)).
Proof.
  intros He Hc Hb Hv. unfold ConvertToInt, wrapped. rewrite He, Hc, Hb, Hv. cbv zeta.
  by destruct (negb (unsigned t) && _).
Qed.

(** C39: the integer conversions of Web IDL.  With [enforce_range] or [clamp], for values
    within the bounds, for what is not a finite number and for errors, every type
    converts as the standard says.  For the types up to 32 bits without options, the
    conversion differs from the standard exactly on the values that [diverges] names, and
    answers the nearest bound for them: the greatest number for an unsigned type, where
    the standard says zero, and the least for a signed one, where the standard says the
    greatest. *)
Theorem convert_conforms t options v :
  t ∈ int_types →
  (enforce_range options = true ∨ clamp options = true ∨ is_big_int v = true ∨
   (∀ m k, number_value v = Some (Finite m k) → MIN t <= trunc m k <= MAX t) →
   convert t options v = ConvertToInt (name t) (bits t) (unsigned t) options v) ∧
  (bits t <= 32 →
   (convert t options v = ConvertToInt (name t) (bits t) (unsigned t) options v ↔
    ¬ diverges t options v) ∧
   (diverges t options v →
    convert t options v = Ok (if unsigned t then MAX t else MIN t))).
Proof.
  intros Ht. split; [by apply convert_plain|]. intros Hb.
  destruct (decide (plain t options v)) as [Hp|Hp].
  - assert (¬ diverges t options v) as Hd by (by apply plain_converges).
    split; [|done]. split; [done|]. intros _. by apply convert_plain, plain_holds.
  - destruct (not_plain _ _ _ Hp) as (He & Hc & Hbig & m & k & Hv & Hout).
    rewrite (convert_wrap t options v m k), (ConvertToInt_wrapped t options v m k) by done.
    destruct (wrap_wrapped t (trunc m k) (conj Ht Hb)) as [Hiff Hmiss].
    assert (diverges t options v ↔ misses t (trunc m k)) as ->.
    { unfold diverges. rewrite Hv. split; [|by eauto 10].
      by intros (_ & _ & _ & m' & k' & [= <- <-] & _ & Hd). }
    split; [|intros Hd; by rewrite Hmiss].
    split; [intros [= Heq]; by apply Hiff|intros Hd; f_equal; by apply Hiff].
Qed.

(** Numbers beyond the bounds of [long long] are taken for negative ones. *)
Example long_long_wraps :
  let v := mkValue false (Some (Finite (2 ^ 53) 0)) in
  convert i64 (mkOptions false false) v = Ok (- 2 ^ 63) ∧
  ConvertToInt "long long" 64 false (mkOptions false false) v = Ok (2 ^ 53).
Proof. done. Qed.
(** The sum is rounded to an [f64] before the cast. *)
Example unsigned_long_long_rounds :
  let v := mkValue false (Some (Finite (-3) 0)) in
  convert u64 (mkOptions false false) v = Ok (2 ^ 64 - 1) ∧
  ConvertToInt "unsigned long long" 64 true (mkOptions false false) v = Ok (2 ^ 64 - 3).
Proof. done. Qed.

(** * Witness *)

(** 383 as a byte is -128 here, and 127 in the standard; 384.5 is -128 in both. *)
Lemma convert_conforms_witness :
  let none := mkOptions false false in
  let v := mkValue false (Some (Finite 383 0)) in
  let w := mkValue false (Some (Finite 769 1)) in
  convert i8 none v = Ok (-128) ∧ ConvertToInt "byte" 8 false none v = Ok 127 ∧
  convert i8 none w = ConvertToInt "byte" 8 false none w ∧ convert i8 none w = Ok (-128) ∧
  ¬ diverges i8 none w.
Proof.
  assert (i8 ∈ int_types) as Hi8 by (unfold int_types; set_solver).
  destruct (convert_conforms i8 (mkOptions false false)
    (mkValue false (Some (Finite 383 0))) Hi8) as [_ Hv].
  destruct (convert_conforms i8 (mkOptions false false)
    (mkValue false (Some (Finite 769 1))) Hi8) as [_ Hw].
  specialize (Hv ltac:(simpl; lia)). specialize (Hw ltac:(simpl; lia)).
  cbv zeta. split; [apply Hv|split; [reflexivity|split; [reflexivity|split; [reflexivity|]]]].
  - split_and!; try reflexivity. exists 383, 0%nat. split_and!; try reflexivity.
    simpl. intros [_ H]. by apply H.
  - by apply Hw.
Defined.
