(* ===== verification/WebIdlTypes.v ===== *)
(** [core/webidl.rs]: the converters of Web IDL for other types than integers.

    JavaScript is a parameter: every call into V8 may run code of the user, which changes
    the state [St] and may throw.  [Scope] lists the calls that the converters make. *)

From stdpp Require Import pretty.
From S2P Require Import Prelude RustStr Numbers SerdeV8 OpValues Convert ConvertLaws.
From S2P Require WebIdl.

Local Open Scope string_scope.
Local Open Scope Z_scope.

(** * Errors *)

Record WebIdlError := mkError { prefix : string; context : string; kind : WebIdl.WebIdlErrorKind }.

Definition show_bound (z : Z) : string := pretty z.

(** [Display]; the message of another error is a parameter. *)
Definition error_message (other : Z → string) (e : WebIdlError) : string :=
  (prefix e ++ ": " ++ context e ++ " " ++
  match kind e with
  | WebIdl.ConvertToConverterType kind => "can not be converted to a " ++ kind
  | WebIdl.DictionaryCannotConvertKey converter key =>
      "can not be converted to '" ++ converter ++ "' because '" ++ key ++ "' is required in '" ++ converter ++ "'"
  | WebIdl.NotFinite => "is not a finite number"
  | WebIdl.IntRange lower_bound upper_bound =>
      "is outside the accepted range of $" ++ show_bound lower_bound ++ " to $" ++ show_bound upper_bound ++ ", inclusive"
  | WebIdl.InvalidByteString => "is not a valid ByteString"
  | WebIdl.Precision => "is outside the range of a single-precision floating-point value"
  | WebIdl.InvalidEnumVariant converter variant =>
      "can not be converted to '" ++ converter ++ "' because '" ++ variant ++ "' is not a valid enum value"
  | WebIdl.Other o => other o
  end)%string.

(** * JavaScript *)

Inductive property_key (V : Type) := KIterator | KNext | KDone | KValue | KKey (key : V).
Arguments KIterator {V}.
Arguments KNext {V}.
Arguments KDone {V}.
Arguments KValue {V}.
Arguments KKey {V}.

(** [None]: the call threw, or the value is of another type. *)
Class Scope (St V J : Type) := {
  is_null : V → bool;
  is_undefined : V → bool;
  is_symbol : V → bool;
  is_big_int : V → bool;
  is_true : V → bool;
  type_name : V → string;
  to_boolean : V → bool;
  as_string : V → option J;
  as_function : V → option V;
  as_object : V → option V;
  proxy_target : V → option (option V);  (** of a proxy; [None] inside if the target is no object *)
  number_value : V → St → option number * St;
  to_string : V → St → option J * St;
  to_big_int : V → St → option Z * St;
  to_object : V → St → option V * St;
  get : V → property_key V → St → option V * St;
  call : V → V → St → option V * St;
  own_property_names : V → St → option (list V) * St;
  unwrap_cppgc : string → V → option V
}.

Inductive Type_ := Null | Undefined | Boolean | Number | String | Symbol | BigInt | Object.
Definition type_of `{Scope St V J} (v : V) : Type_ :=
  if is_null v then Null
  else if decide (type_name v = "undefined"%string) then Undefined
  else if decide (type_name v = "boolean"%string) then Boolean
  else if decide (type_name v = "number"%string) then Number
  else if decide (type_name v = "string"%string) then String
  else if decide (type_name v = "symbol"%string) then Symbol
  else if decide (type_name v = "bigint"%string) then BigInt
  else Object.

(** * Types *)

Record StringOptions := mkStringOptions { treat_null_as_empty_string : bool }.
Definition default_string_options : StringOptions := mkStringOptions false.

(** The converters of types that a map can have as keys. *)
Inductive idl_key := KeyString | KeyInt (t : WebIdl.IntType) | KeyBool.

(** A converter with its options. *)
Inductive idl :=
  | IAny
  | IOption (t : idl)
  | INullable (t : idl)
  | ISequence (t : idl)
  | IRecord (k : idl_key) (t : idl)
  | IInt (t : WebIdl.IntType) (options : WebIdl.IntOptions)
  | IFloat
  | IUnrestrictedFloat
  | IDouble
  | IUnrestrictedDouble
  | IBigInt
  | IBool
  | IString (options : StringOptions)
  | IByteString (options : StringOptions)
  | IInterface (NAME : string).

Inductive key := KText (s : text) | KInteger (z : Z) | KBoolean (b : bool).
Global Instance key_eq_dec : EqDecision key.
Proof. solve_decision. Defined.

#[local] Unset Elimination Schemes.
Inductive converted (V : Type) :=
  | CAny (v : V)
  | COption (o : option (converted V))
  | CNullable (o : option (converted V))
  | CSequence (l : list (converted V))
  | CRecord (entries : list (key * converted V))
  | CInt (z : Z)
  | CFloat (n : number)
  | CBigInt (sign : bool) (words : list Z)
  | CBool (b : bool)
  | CString (s : text)
  | CInterface (v : V).
#[local] Set Elimination Schemes.
Arguments CAny {V}.
Arguments COption {V}.
Arguments CNullable {V}.
Arguments CSequence {V}.
Arguments CRecord {V}.
Arguments CInt {V}.
Arguments CFloat {V}.
Arguments CBigInt {V}.
Arguments CBool {V}.
Arguments CString {V}.
Arguments CInterface {V}.

(** [IndexMap::insert]: a key keeps its place. *)
Fixpoint index_insert {A} (k : key) (v : A) (m : list (key * A)) : list (key * A) :=
  match m with
  | [] => [(k, v)]
  | (k', v') :: m => if decide (k' = k) then (k, v) :: m else (k', v') :: index_insert k v m
  end.

(** * Converters *)

Section converters.
Context `{StoredStrings J, Scope St V J}.
Implicit Types (v : V) (s : St).

Definition M (A : Type) : Type := St → outcome (result A WebIdlError) * St.
Global Instance M_ret : MRet M := λ A a s, (Ret (Ok a), s).
Global Instance M_bind : MBind M := λ A B k m s,
  match m s with
  | (Ret (Ok a), s) => k a s
  | (Ret (Err e), s) => (Ret (Err e), s)
  | (Panic f, s) => (Panic f, s)
  end.
Definition err {A} (e : WebIdlError) : M A := λ s, (Ret (Err e), s).
Definition panic {A} (f : fault) : M A := λ s, (Panic f, s).
Definition call_v8 {A} (f : St → A * St) : M A := λ s, let (a, s) := f s in (Ret (Ok a), s).
(** [and_then] of a call. *)
Definition and_then {A B} (f : St → option A * St) (k : A → St → option B * St) : St → option B * St :=
  λ s, match f s with (Some a, s) => k a s | (None, s) => (None, s) end.
Definition pure {A} (o : option A) : St → option A * St := λ s, (o, s).

Section converter.
Context (prefix context : string).
Definition cannot {A} (type : string) : M A := err (mkError prefix context (WebIdl.ConvertToConverterType type)).
Definition fail {A} (kind : WebIdl.WebIdlErrorKind) : M A := err (mkError prefix context kind).
Definition or_cannot {A} (f : St → option A * St) (type : string) : M A :=
  o ← call_v8 f; match o with Some a => mret a | None => cannot type end.

(** [impl_ints!]: the answers of V8 that the conversion asks for. *)
Definition int_convert (t : WebIdl.IntType) (options : WebIdl.IntOptions) v : M (converted V) :=
  n ← (if is_big_int v then mret None else call_v8 (number_value v));
  match WebIdl.convert t options (WebIdl.mkValue (is_big_int v) n) with
  | Ok z => mret (CInt z)
  | Err e => fail e
  end.

Definition is_finite (n : number) : bool := match n with Finite _ _ => true | _ => false end.

Definition float_convert v : M (converted V) :=
  n ← or_cannot (number_value v) "float";
  if negb (is_finite n) then fail WebIdl.NotFinite
  else
    let n := to_f32 n in
    if negb (is_finite n) then fail WebIdl.Precision else mret (CFloat n).
Definition unrestricted_float_convert v : M (converted V) :=
  n ← or_cannot (number_value v) "float"; mret (CFloat (to_f32 n)).
Definition double_convert v : M (converted V) :=
  n ← or_cannot (number_value v) "float";
  if negb (is_finite n) then fail WebIdl.NotFinite else mret (CFloat n).
Definition unrestricted_double_convert v : M (converted V) :=
  n ← or_cannot (number_value v) "float"; mret (CFloat n).

(** [to_words_array] writes as many words as its argument has room for: here none. *)
Definition words_written (room : nat) (z : Z) : bool * list Z :=
  let (sign, words) := to_words_array z in (sign, take room words).
Definition bigint_convert v : M (converted V) :=
  bigint ← or_cannot (to_big_int v) "bigint";
  let (sign, words) := words_written 0 bigint in
  mret (CBigInt sign words).

Definition bool_convert v : M (converted V) := mret (CBool (to_boolean v)).

(** The V8 string, or [None] for the empty string that stands for null. *)
Definition js_string (options : StringOptions) v : M (option J) :=
  match as_string v with
  | Some str => mret (Some str)
  | None =>
      if is_null v && treat_null_as_empty_string options then mret None
      else if is_symbol v then cannot "string"
      else str ← or_cannot (to_string v) "string"; mret (Some str)
  end.
Definition string_convert (options : StringOptions) v : M (converted V) :=
  str ← js_string options v;
  match str with
  | Some str => mret (CString (to_rust_string_lossy str))
  | None => mret (CString [])
  end.
Definition byte_string_convert (options : StringOptions) v : M (converted V) :=
  str ← js_string options v;
  match str with
  | Some str =>
      if negb (bool_decide (is_Some (one_byte str))) then fail WebIdl.InvalidByteString
      else mret (CString (to_rust_string_lossy str))
  | None => mret (CString [])
  end.

Definition interface_convert (NAME : string) v : M (converted V) :=
  match unwrap_cppgc NAME v with
  | Some persistent => mret (CInterface persistent)
  | None => cannot NAME
  end.

(** ** Sequences *)

Definition index_context (i : nat) : string := (context ++ ", index " ++ pretty i)%string.

(** The result object of one call of [next]. *)
Definition next_result (iter : V) : St → option V * St :=
  and_then (get iter KNext) (λ next,
  and_then (pure (as_function next)) (λ next,
  and_then (call next iter) to_object)).

Fixpoint sequence_loop (fuel : nat) (T_convert : string → V → M (converted V)) (iter : V)
    (out : list (converted V)) : M (converted V) :=
  match fuel with
  | O => panic OutOfFuel
  | S fuel =>
      res ← or_cannot (next_result iter) "sequence";
      done ← call_v8 (get res KDone);
      if from_option is_true false done then mret (CSequence out)
      else
        iter_val ← or_cannot (get res KValue) "sequence";
        a ← T_convert (index_context (length out)) iter_val;
        sequence_loop fuel T_convert iter (out ++ [a])
  end.

Definition sequence_convert (fuel : nat) (T_convert : string → V → M (converted V)) v : M (converted V) :=
  obj ← or_cannot (to_object v) "sequence";
  iter ← or_cannot
    (and_then (get obj KIterator) (λ iter,
     and_then (pure (as_function iter)) (λ iter,
     and_then (call iter obj) to_object))) "sequence";
  sequence_loop fuel T_convert iter [].

(** ** Records *)

Definition key_convert (k : idl_key) v : M key :=
  match k with
  | KeyString => a ← string_convert default_string_options v; match a with CString s => mret (KText s) | _ => panic Unreachable end
  | KeyInt t => a ← int_convert t (WebIdl.mkOptions false false) v; match a with CInt z => mret (KInteger z) | _ => panic Unreachable end
  | KeyBool => mret (KBoolean (to_boolean v))
  end.

Fixpoint record_loop (k : idl_key) (T_convert : V → M (converted V)) (obj : V) (keys : list V)
    (out : list (key * converted V)) : M (converted V) :=
  match keys with
  | [] => mret (CRecord out)
  | name :: keys =>
      value ← call_v8 (get obj (KKey name));
      match value with
      | None => panic Unwrap
      | Some value =>
          key ← key_convert k name;
          value ← T_convert value;
          record_loop k T_convert obj keys (index_insert key value out)
      end
  end.

Definition record_convert (k : idl_key) (T_convert : V → M (converted V)) v : M (converted V) :=
  match as_object v with
  | None => cannot "record"
  | Some obj =>
      match match proxy_target obj with Some target => target | None => Some obj end with
      | None => mret (CRecord [])
      | Some obj =>
          keys ← call_v8 (own_property_names obj);
          match keys with
          | None => mret (CRecord [])
          | Some keys => record_loop k T_convert obj keys []
          end
      end
  end.
End converter.

Definition any_convert v : M (converted V) := mret (CAny v).
Definition option_convert (T_convert : V → M (converted V)) v : M (converted V) :=
  if is_undefined v then mret (COption None) else a ← T_convert v; mret (COption (Some a)).
Definition nullable_convert (T_convert : V → M (converted V)) v : M (converted V) :=
  if is_null v || is_undefined v then mret (CNullable None) else a ← T_convert v; mret (CNullable (Some a)).

Fixpoint convert (fuel : nat) (t : idl) (prefix context : string) v : M (converted V) :=
  match t with
  | IAny => any_convert v
  | IOption t => option_convert (convert fuel t prefix context) v
  | INullable t => nullable_convert (convert fuel t prefix context) v
  | ISequence t => sequence_convert prefix context fuel (convert fuel t prefix) v
  | IRecord k t => record_convert prefix context k (convert fuel t prefix context) v
  | IInt t options => int_convert prefix context t options v
  | IFloat => float_convert prefix context v
  | IUnrestrictedFloat => unrestricted_float_convert prefix context v
  | IDouble => double_convert prefix context v
  | IUnrestrictedDouble => unrestricted_double_convert prefix context v
  | IBigInt => bigint_convert prefix context v
  | IBool => bool_convert v
  | IString options => string_convert prefix context options v
  | IByteString options => byte_string_convert prefix context options v
  | IInterface NAME => interface_convert prefix context NAME v
  end.
End converters.

(** * Values of the type, whatever JavaScript does *)

#[local] Arguments to_f32 : simpl never.

Section idl_typing.
Context `{StoredStrings J, Scope St V J}.
(** Rust strings are UTF-8. *)
Context (Hlossy : ∀ j : J, valid_utf8 (to_rust_string_lossy j) = true).
Implicit Types (v : V) (s : St).

Definition int_of (t : WebIdl.IntType) (z : Z) : Prop :=
  if WebIdl.unsigned t then 0 <= z <= 2 ^ WebIdl.bits t - 1
  else - 2 ^ (WebIdl.bits t - 1) <= z <= 2 ^ (WebIdl.bits t - 1) - 1.

Definition key_has_type (k : idl_key) (a : key) : Prop :=
  match k, a with
  | KeyString, KText s => valid_utf8 s = true
  | KeyInt t, KInteger z => int_of t z
  | KeyBool, KBoolean _ => True
  | _, _ => False
  end.

(** The integer types of the table. *)
Fixpoint idl_ok (t : idl) : Prop :=
  match t with
  | IOption t | INullable t | ISequence t => idl_ok t
  | IRecord k t => match k with KeyInt t => t ∈ WebIdl.int_types | _ => True end ∧ idl_ok t
  | IInt t _ => t ∈ WebIdl.int_types
  | _ => True
  end.

Fixpoint idl_type (t : idl) (c : converted V) : Prop :=
  match t, c with
  | IAny, CAny _ | IInterface _, CInterface _ | IBool, CBool _ => True
  | IOption t, COption o | INullable t, CNullable o => from_option (idl_type t) True o
  | ISequence t, CSequence l => Forall (idl_type t) l
  | IRecord k t, CRecord entries =>
      NoDup entries.*1 ∧ Forall (λ e, key_has_type k e.1 ∧ idl_type t e.2) entries
  | IInt t _, CInt z => int_of t z
  | IFloat, CFloat n => is_finite n = true ∧ to_f32 n = n
  | IUnrestrictedFloat, CFloat n => to_f32 n = n
  | IDouble, CFloat n => is_finite n = true
  | IUnrestrictedDouble, CFloat _ => True
  | IBigInt, CBigInt _ words => Forall word words
  | IString _, CString s | IByteString _, CString s => valid_utf8 s = true
  | _, _ => False
  end.

Fixpoint has_record (t : idl) : bool :=
  match t with
  | IOption t | INullable t | ISequence t => has_record t
  | IRecord _ _ => true
  | _ => false
  end.

(** JavaScript in which iterations end: [remaining] bounds the elements that iterators are
    still to give, and no call of V8 makes it grow. *)
Definition keeps {A} (remaining : St → nat) (f : St → A * St) : Prop := ∀ s, (remaining (f s).2 <= remaining s)%nat.
Record iterators_end (remaining : St → nat) : Prop := {
  number_value_keeps v : keeps remaining (number_value v);
  to_string_keeps v : keeps remaining (to_string v);
  to_big_int_keeps v : keeps remaining (to_big_int v);
  to_object_keeps v : keeps remaining (to_object v);
  get_keeps v k : keeps remaining (get v k);
  call_keeps v this : keeps remaining (call v this);
  names_keep v : keeps remaining (own_property_names v);
  next_ends iter res ended s s1 s2 :
    next_result iter s = (Some res, s1) → get res KDone s1 = (ended, s2) → from_option is_true false ended = false →
    (remaining s2 < remaining s)%nat
}.
Definition always_keeps {A} (f : St → A * St) : Prop := ∀ remaining, iterators_end remaining → keeps remaining f.

(** A panic that a converter may make: a property of a record that throws; the end of [n]
    steps of a loop, if there may be as many elements left. *)
Definition may_panic (n : nat) (records : bool) s (f : fault) : Prop :=
  records = true ∧ f = Unwrap ∨ f = OutOfFuel ∧ ∀ remaining, iterators_end remaining → (n <= remaining s)%nat.

(** The outcome of a converter from a state. *)
Definition good {A} (n : nat) (records : bool) (Q : A → Prop) s (o : outcome (result A WebIdlError) * St) : Prop :=
  match o with
  | (Ret (Ok a), s') => Q a ∧ ∀ remaining, iterators_end remaining → (remaining s' <= remaining s)%nat
  | (Ret (Err _), _) => True
  | (Panic f, _) => may_panic n records s f
  end.
Definition typed {A} (n : nat) (records : bool) (Q : A → Prop) (m : M A) : Prop := ∀ s, good n records Q s (m s).

Lemma may_panic_earlier n b s s' f :
  (∀ remaining, iterators_end remaining → (remaining s' <= remaining s)%nat) → may_panic n b s' f → may_panic n b s f.
Proof.
  intros Hs [?|[-> Hf]]; [by left|right]. split; [done|]. intros remaining Hr.
  specialize (Hs remaining Hr). specialize (Hf remaining Hr). lia.
Qed.

Lemma good_later {A} n b (Q : A → Prop) s s' o :
  (∀ remaining, iterators_end remaining → (remaining s' <= remaining s)%nat) → good n b Q s' o → good n b Q s o.
Proof.
  intros Hs Ho. destruct o as [[[a|e]|f] s2]; [|done|by eapply may_panic_earlier].
  destruct Ho as [Ha Ho]. split; [done|]. intros remaining Hr. specialize (Hs remaining Hr). specialize (Ho remaining Hr). lia.
Qed.

Lemma typed_ret {A} n b (Q : A → Prop) a : Q a → typed n b Q (mret a).
Proof. by intros Ha s. Qed.
Lemma typed_err {A} n b (Q : A → Prop) e : typed n b Q (err e).
Proof. by intros s. Qed.

Lemma typed_bind {A B} n b (Q : A → Prop) (P : B → Prop) (m : M A) (k : A → M B) :
  typed n b Q m → (∀ a, Q a → typed n b P (k a)) → typed n b P (m ≫= k).
Proof.
  intros Hm Hk s. unfold mbind, M_bind. specialize (Hm s). destruct (m s) as [[[a|e]|f] s']; simpl in *; try done.
  destruct Hm as [Ha Hs]. eapply good_later; [exact Hs|]. by apply Hk.
Qed.

Lemma typed_call {A B} n b (P : B → Prop) (f : St → A * St) (k : A → M B) :
  always_keeps f → (∀ a, typed n b P (k a)) → typed n b P (a ← call_v8 f; k a).
Proof.
  intros Hf Hk. apply (typed_bind n b (λ _, True)); [|by intros a _; apply Hk]. intros s. unfold call_v8.
  pose proof (λ remaining Hr, Hf remaining Hr s) as Hs. destruct (f s). by split.
Qed.

Lemma typed_or_cannot {A B} n b (P : B → Prop) prefix context (f : St → option A * St) type (k : A → M B) :
  always_keeps f → (∀ a, typed n b P (k a)) → typed n b P (a ← or_cannot prefix context f type; k a).
Proof.
  intros Hf Hk. apply (typed_bind n b (λ _, True)); [|by intros a _; apply Hk].
  apply typed_call; [done|]. intros [a|]; [by apply typed_ret|apply typed_err].
Qed.

Lemma typed_weaken {A} n b (Q P : A → Prop) (m : M A) : (∀ a, Q a → P a) → typed n b Q m → typed n b P m.
Proof. intros HQ Hm s. specialize (Hm s). destruct (m s) as [[[a|e]|f] s']; simpl in *; naive_solver. Qed.

Lemma typed_records {A} n n' b (Q : A → Prop) (m : M A) :
  typed n b Q m → (n' <= n)%nat → ∀ b', (b = true → b' = true) → typed n' b' Q m.
Proof.
  intros Hm Hn b' Hb s. specialize (Hm s). destruct (m s) as [[[a|e]|f] s']; simpl in *; [done..|].
  destruct Hm as [[? ->]|[-> Hf]]; [left; auto|right]. split; [done|]. intros remaining Hr. specialize (Hf remaining Hr). lia.
Qed.

Lemma keeps_and_then {A B} (f : St → option A * St) (k : A → St → option B * St) :
  always_keeps f → (∀ a, always_keeps (k a)) → always_keeps (and_then f k).
Proof.
  intros Hf Hk remaining Hr s. unfold and_then. specialize (Hf remaining Hr s).
  destruct (f s) as [[a|] s']; simpl in *; [|done]. specialize (Hk a remaining Hr s'). lia.
Qed.
Lemma keeps_pure {A} (o : option A) : always_keeps (pure o).
Proof. by intros remaining Hr s. Qed.

Ltac keeps_tac :=
  first
    [ apply keeps_and_then; [keeps_tac | intros ?; keeps_tac]
    | apply keeps_pure
    | intros remaining Hr;
      first [ apply (number_value_keeps _ Hr) | apply (to_string_keeps _ Hr) | apply (to_big_int_keeps _ Hr)
            | apply (to_object_keeps _ Hr) | apply (get_keeps _ Hr) | apply (call_keeps _ Hr) | apply (names_keep _ Hr) ] ].

Lemma cast_range t z : t ∈ WebIdl.int_types → int_of t (WebIdl.cast t z).
Proof.
  intros Ht. unfold int_of, WebIdl.cast.
  assert (0 < WebIdl.bits t).
  { unfold WebIdl.int_types in Ht. repeat (apply elem_of_cons in Ht as [->|Ht]; [done|]). by apply elem_of_nil in Ht. }
  pose proof (Z.pow_pos_nonneg 2 (WebIdl.bits t)). pose proof (Z.pow_pos_nonneg 2 (WebIdl.bits t - 1)).
  destruct (WebIdl.unsigned t); lia.
Qed.

Lemma int_convert_range t options x z :
  t ∈ WebIdl.int_types → WebIdl.convert t options x = Ok z → int_of t z.
Proof.
  intros Ht. assert (int_of t 0) as Hzero.
  { unfold WebIdl.int_types in Ht.
    repeat (apply elem_of_cons in Ht as [->|Ht]; [by vm_compute; split|]). by apply elem_of_nil in Ht. }
  unfold WebIdl.convert, WebIdl.wrap. repeat case_match; intros [= <-]; try done; by apply cast_range.
Qed.

Lemma int_typed n b prefix context t options v :
  t ∈ WebIdl.int_types → typed n b (idl_type (IInt t options)) (int_convert prefix context t options v).
Proof.
  intros Ht. unfold int_convert.
  assert (∀ x, typed n b (idl_type (IInt t options))
    (match WebIdl.convert t options (WebIdl.mkValue (is_big_int v) x) with
     | Ok z => mret (CInt z)
     | Err e => fail prefix context e
     end)) as Hx.
  { intros x. destruct (WebIdl.convert _ _ _) as [z|e] eqn:Hz; [|apply typed_err]. apply typed_ret. by eapply int_convert_range. }
  destruct (is_big_int v); [exact (Hx None)|]. apply typed_call; [keeps_tac|]. exact Hx.
Qed.

Lemma js_string_typed n b prefix context options v :
  typed n b (λ _, True) (js_string prefix context options v).
Proof.
  unfold js_string. destruct (as_string v); [by apply typed_ret|]. case_match; [by apply typed_ret|].
  case_match; [apply typed_err|]. apply typed_or_cannot; [keeps_tac|]. intros str. by apply typed_ret.
Qed.

Lemma string_typed n b prefix context options v :
  typed n b (idl_type (IString options)) (string_convert prefix context options v).
Proof.
  unfold string_convert. eapply typed_bind; [apply js_string_typed|]. intros [j|] _; apply typed_ret; [apply Hlossy|done].
Qed.

Lemma index_insert_keys {A} k (a : A) m : (index_insert k a m).*1 = if decide (k ∈ m.*1) then m.*1 else (m.*1 ++ [k])%list.
Proof.
  induction m as [|[k' a'] m IH]; csimpl; [done|]. destruct (decide (k' = k)) as [->|Hne].
  - rewrite decide_True by (by constructor). done.
  - csimpl. rewrite IH. destruct (decide (k ∈ m.*1)).
    + rewrite decide_True by (by constructor). done.
    + rewrite decide_False; [done|]. by intros [->|]%elem_of_cons.
Qed.

Lemma index_insert_NoDup {A} k (a : A) m : NoDup m.*1 → NoDup (index_insert k a m).*1.
Proof.
  intros Hm. rewrite index_insert_keys. case_decide as Hk; [done|].
  apply NoDup_app. split_and!; [done| |apply NoDup_singleton]. intros x Hx ->%list_elem_of_singleton. done.
Qed.

Lemma index_insert_Forall {A} (P : key * A → Prop) k a m : P (k, a) → Forall P m → Forall P (index_insert k a m).
Proof.
  intros Ha. induction 1 as [|[k' a'] m Hm Hms IH]; simpl; [by constructor|].
  destruct (decide (k' = k)); by constructor.
Qed.

(** The loop: [n] steps, each of which takes an element. *)
Lemma sequence_loop_typed n m b prefix context t T_convert iter out :
  (n <= m)%nat → (∀ c v, typed m b (idl_type t) (T_convert c v)) → Forall (idl_type t) out →
  typed n b (idl_type (ISequence t)) (sequence_loop prefix context n T_convert iter out).
Proof.
  intros Hn HT. revert out Hn. induction n as [|n IH]; intros out Hn Hout s; [right; split; [done|lia]|].
  cbn [sequence_loop]. unfold or_cannot, call_v8, mbind, M_bind.
  assert (always_keeps (next_result iter)) as Hkeeps by (unfold next_result; keeps_tac).
  pose proof (λ remaining Hr, Hkeeps remaining Hr s) as Hk1.
  destruct (next_result iter s) as [[res|] s1] eqn:Hnext; [|done]. simpl in Hk1. cbn [mret M_ret].
  pose proof (λ remaining Hr, get_keeps remaining Hr res KDone s1) as Hk2.
  destruct (get res KDone s1) as [ended s2] eqn:Hdone. simpl in Hk2.
  destruct (from_option is_true false ended) eqn:Hended.
  { split; [done|]. intros remaining Hr. specialize (Hk1 remaining Hr). specialize (Hk2 remaining Hr). lia. }
  pose proof (λ remaining Hr, next_ends remaining Hr _ _ _ _ _ _ Hnext Hdone Hended) as Hlt.
  assert (typed n b (idl_type (ISequence t)) (iter_val ← or_cannot prefix context (get res KValue) "sequence";
    a ← T_convert (index_context context (length out)) iter_val;
    sequence_loop prefix context n T_convert iter (out ++ [a]))) as Hrest.
  { apply typed_or_cannot; [keeps_tac|]. intros item.
    eapply typed_bind; [eapply typed_records; [apply HT|lia|done]|].
    intros a Ha. apply IH; [lia|]. apply Forall_app. split; [done|by constructor]. }
  specialize (Hrest s2). unfold or_cannot, call_v8, mbind, M_bind in Hrest.
  match type of Hrest with good _ _ _ _ ?o => destruct o as [[[a|e]|f] s3] end; [|done|].
  - destruct Hrest as [Ha Hs3]. split; [done|]. intros remaining Hr. specialize (Hlt remaining Hr). specialize (Hs3 remaining Hr). lia.
  - destruct Hrest as [?|[-> Hf]]; [by left|right]. split; [done|]. intros remaining Hr.
    specialize (Hlt remaining Hr). specialize (Hf remaining Hr). lia.
Qed.

Lemma sequence_typed b prefix context fuel t T_convert v :
  (∀ c v, typed fuel b (idl_type t) (T_convert c v)) →
  typed fuel b (idl_type (ISequence t)) (sequence_convert prefix context fuel T_convert v).
Proof.
  intros HT. unfold sequence_convert. apply typed_or_cannot; [keeps_tac|]. intros obj.
  apply typed_or_cannot; [keeps_tac|]. intros iter. by apply (sequence_loop_typed fuel fuel).
Qed.

Lemma key_typed n b prefix context k v :
  match k with KeyInt t => t ∈ WebIdl.int_types | _ => True end →
  typed n b (key_has_type k) (key_convert prefix context k v).
Proof.
  intros Hk. destruct k as [|t|]; simpl; [| |by apply typed_ret].
  - eapply typed_bind; [apply string_typed|]. intros [] Ha; try done; by apply typed_ret.
  - eapply typed_bind; [by apply int_typed|]. intros [] Ha; try done; by apply typed_ret.
Qed.

Lemma record_typed n prefix context k t T_convert v :
  match k with KeyInt t => t ∈ WebIdl.int_types | _ => True end →
  (∀ v, typed n true (idl_type t) (T_convert v)) →
  typed n true (idl_type (IRecord k t)) (record_convert prefix context k T_convert v).
Proof.
  intros Hk HT. unfold record_convert. destruct (as_object v) as [obj|]; [|apply typed_err].
  destruct (match proxy_target obj with Some target => target | None => Some obj end) as [obj'|];
    [|apply typed_ret; split; constructor].
  apply typed_call; [keeps_tac|]. intros [keys|]; [|apply typed_ret; split; constructor].
  assert (idl_type (IRecord k t) (CRecord [])) as Hout by (split; constructor). revert Hout.
  generalize (@nil (key * converted V)).
  induction keys as [|name keys IH]; intros out Hout; [by apply typed_ret|]. cbn [record_loop]. apply typed_call; [keeps_tac|].
  intros [value|]; [|by intros s; left]. eapply typed_bind; [by apply key_typed|]. intros key Hkey.
  eapply typed_bind; [apply HT|]. intros a Ha. apply IH. destruct Hout as [Hnd Hall].
  split; [by apply index_insert_NoDup|by apply index_insert_Forall].
Qed.

End idl_typing.

(** * Iterators that end *)

Section sequences.
Context `{StoredStrings J, Scope St V J}.
Context (prefix context : string) (T_convert : string → V → M (St:=St) (converted V)).

(** An iterator over [items], and where it is. *)
Definition iterates (iter : V) (items : list V) (position : St → nat) : Prop :=
  ∀ s, (position s <= length items)%nat →
    ∃ res s1 ended s2,
      next_result iter s = (Some res, s1) ∧ get res KDone s1 = (ended, s2) ∧
      match items !! position s with
      | Some v =>
          from_option is_true false ended = false ∧
          ∃ s3, get res KValue s2 = (Some v, s3) ∧ position s3 = S (position s)
      | None => from_option is_true false ended = true
      end.

(** The conversion of an element does not move the iterator. *)
Context (R : string → V → result (converted V) WebIdlError) (position : St → nat).
Context (HT : ∀ c v s, ∃ s', T_convert c v s = (Ret (R c v), s') ∧ position s' = position s).

(** Every element with its index in the context, up to the first error. *)
Fixpoint convert_items (i : nat) (items : list V) : result (list (converted V)) WebIdlError :=
  match items with
  | [] => Ok []
  | v :: items =>
      match R (index_context context i) v with
      | Ok a => match convert_items (S i) items with Ok l => Ok (a :: l) | Err e => Err e end
      | Err e => Err e
      end
  end.

Lemma sequence_items fuel iter items out s :
  iterates iter items position → position s = length out → (position s <= length items)%nat →
  (length items - position s < fuel)%nat →
  (sequence_loop prefix context fuel T_convert iter out s).1 =
  Ret (match convert_items (length out) (drop (length out) items) with
       | Ok l => Ok (CSequence (out ++ l))
       | Err e => Err e
       end).
Proof.
  intros Hit. revert out s. induction fuel as [|fuel IH]; intros out s Hpos Hle Hf; [lia|].
  destruct (Hit s Hle) as (res & s1 & ended & s2 & Hnext & Hdone & Hitem). rewrite Hpos in Hitem.
  cbn [sequence_loop]. unfold or_cannot, call_v8, mbind, M_bind, mret, M_ret.
  rewrite Hnext, Hdone. destruct (items !! length out) as [v|] eqn:Hv.
  - destruct Hitem as (-> & s3 & Hval & Hpos3). rewrite Hval.
    rewrite (drop_S _ _ _ Hv). cbn [convert_items].
    destruct (HT (index_context context (length out)) v s3) as (s4 & -> & Hpos4).
    destruct (R _ v) as [a|e]; [|done].
    pose proof (lookup_lt_Some _ _ _ Hv).
    rewrite IH by (rewrite ?length_app; simpl; lia). rewrite length_app, Nat.add_1_r.
    destruct (convert_items _ _) as [l|e]; [|done]. by rewrite <- app_assoc.
  - rewrite Hitem. apply lookup_ge_None_1 in Hv. rewrite drop_ge by done. simpl. by rewrite app_nil_r.
Qed.
End sequences.

(** The words of a BigInt are lost, whatever it is. *)
Lemma bigint_words_lost `{Scope St V J} prefix context v s sign words :
  (bigint_convert prefix context v s).1 = Ret (Ok (CBigInt sign words)) → words = [].
Proof.
  unfold bigint_convert, or_cannot, call_v8, words_written, mbind, M_bind, mret, M_ret. simpl.
  destruct (to_big_int v s) as [[z|] s']; simpl; [|done]. by intros [= _ <-].
Qed.

(** * Examples *)

#[local] Unset Elimination Schemes.
Inductive demo :=
  | DNull | DBool (b : bool) | DNumber (n : number) | DBig (z : Z) | DString (s : text) | DArray (l : list demo)
  | DIteratorMethod | DIterator (l : list demo) | DNext (l : list demo) | DResult (o : option demo)
  | DObject (entries : list (text * option demo)).  (** [None]: a getter that throws *)
#[local] Set Elimination Schemes.

Definition demo_get (v : demo) (k : property_key demo) : option demo :=
  match v, k with
  | DArray _, KIterator => Some DIteratorMethod
  | DIterator l, KNext => Some (DNext l)
  | DResult o, KDone => Some (DBool (bool_decide (o = None)))
  | DResult o, KValue => o
  | DObject entries, KKey (DString name) =>
      default None (snd <$> head (base.filter (λ e, e.1 = name) entries))
  | _, _ => Some DNull
  end.

(** The state is the place of the iterator. *)
Definition demo_scope : Scope nat demo text := {|
  is_null v := match v with DNull => true | _ => false end;
  is_undefined _ := false;
  is_symbol _ := false;
  is_big_int v := match v with DBig _ => true | _ => false end;
  is_true v := match v with DBool b => b | _ => false end;
  type_name v := "object";
  to_boolean v := match v with DBool b => b | DNull => false | _ => true end;
  as_string v := match v with DString s => Some s | _ => None end;
  as_function v := match v with DIteratorMethod | DNext _ => Some v | _ => None end;
  as_object v := match v with DObject _ | DArray _ => Some v | _ => None end;
  proxy_target _ := None;
  number_value v s := (match v with DNumber n => Some n | _ => None end, s);
  to_string v s := (None, s);
  to_big_int v s := (match v with DBig z => Some z | _ => None end, s);
  to_object v s := (match v with DNull => None | _ => Some v end, s);
  get v k s := (demo_get v k, s);
  call f this s :=
    match f, this with
    | DIteratorMethod, DArray l => (Some (DIterator l), 0%nat)
    | DNext l, _ => (Some (DResult (l !! s)), S s)
    | _, _ => (None, s)
    end;
  own_property_names v s :=
    (match v with DObject entries => Some (map (λ e, DString e.1) entries) | _ => None end, s);
  unwrap_cppgc _ _ := None
|}.
#[local] Existing Instances latin1_strings latin1_stored demo_scope.

(** A sequence of records, and the error of an element. *)
Definition demo_idl : idl := ISequence (INullable (IRecord KeyString (IInt WebIdl.u8 (WebIdl.mkOptions true false)))).
Definition demo_object : demo :=
  DArray [DObject [($"a", Some (DNumber (Finite 3 1))); ($"b", Some (DNumber (Finite 300 0)))]; DNull].

Example convert_sequence :
  (convert 3 demo_idl "Failed" "Argument 1" demo_object 0%nat).1 =
  Ret (Ok (CSequence [CNullable (Some (CRecord [(KText ($"a"), CInt 2); (KText ($"b"), CInt 255)])); CNullable None])).
Proof. by vm_compute. Qed.

Example convert_index :
  match (convert 3 (ISequence IDouble) "Failed" "Argument 1" (DArray [DNumber (Finite 1 0); DNumber NaN]) 0%nat).1 with
  | Ret (Err e) => error_message (λ _, "") e = "Failed: Argument 1, index 1 is not a finite number"
  | _ => False
  end.
Proof. by vm_compute. Qed.

(** A getter that throws, and a BigInt. *)
Lemma web_idl_gaps :
  (convert 3 (IRecord KeyString IAny) "Failed" "Argument 1" (DObject [($"a", None)]) 0%nat).1 = Panic Unwrap ∧
  (convert 3 IBigInt "Failed" "Argument 1" (DBig (2 ^ 70)) 0%nat).1 = Ret (Ok (CBigInt false [])).
Proof. by vm_compute. Qed.


(** ** The end of iterators *)

(** The state is how many elements iterators still give; values tell whether they are done. *)
Definition budget_scope : Scope nat bool text := {|
  is_null _ := false;
  is_undefined _ := false;
  is_symbol _ := false;
  is_big_int _ := false;
  is_true v := v;
  type_name _ := "boolean";
  to_boolean v := v;
  as_string _ := None;
  as_function v := Some v;
  as_object v := Some v;
  proxy_target _ := None;
  number_value _ s := (None, s);
  to_string _ s := (None, s);
  to_big_int _ s := (None, s);
  to_object v s := (Some v, s);
  get v _ s := (Some v, s);
  call _ _ s := (Some (bool_decide (s = 0%nat)), pred s);
  own_property_names _ s := (None, s);
  unwrap_cppgc _ _ := None
|}.

Lemma budget_ends : iterators_end (H1 := budget_scope) id.
Proof.
  split; try (intros ? s; simpl; lia); try (intros ? ? s; simpl; lia).
  intros iter res ended s s1 s2. unfold next_result, and_then, pure, get, call, to_object. simpl.
  intros [= <- <-] [= <- <-]. simpl. intros Hs%bool_decide_eq_false. unfold id. lia.
Qed.

Example budget_sequence :
  (convert (H1 := budget_scope) 4 (ISequence (ISequence IBool)) "" "" false 3%nat).1 =
    Ret (Ok (CSequence [CSequence []])) ∧
  (convert (H1 := budget_scope) 1 (ISequence IBool) "" "" false 3%nat).1 = Panic OutOfFuel.
Proof. by vm_compute. Qed.

(** An iterator whose results are never [done === true], here [done: 1], is read for ever. *)
Definition endless_scope : Scope unit demo text := {|
  is_null _ := false;
  is_undefined _ := false;
  is_symbol _ := false;
  is_big_int _ := false;
  is_true v := match v with DBool b => b | _ => false end;
  type_name _ := "object";
  to_boolean _ := true;
  as_string _ := None;
  as_function v := Some v;
  as_object v := Some v;
  proxy_target _ := None;
  number_value _ s := (None, s);
  to_string _ s := (None, s);
  to_big_int _ s := (None, s);
  to_object v s := (Some v, s);
  get v k s := (Some (match k with KDone => DNumber (Finite 1 0) | _ => v end), s);
  call f _ s := (Some f, s);
  own_property_names _ s := (None, s);
  unwrap_cppgc _ _ := None
|}.

Lemma endless_iterator fuel :
  (convert (H1 := endless_scope) fuel (ISequence IAny) "" "" DNull tt).1 = Panic OutOfFuel.
Proof.
  cbn [convert]. unfold sequence_convert, or_cannot, and_then, pure, call_v8, mbind, M_bind. simpl.
  generalize (@nil (converted demo)). induction fuel as [|fuel IH]; intros out; [done|]. simpl. apply IH.
Qed.
