(* ===== verification/FastStrings.v ===== *)
(** [core/fast_string.rs]: strings that know in which memory they are, so that V8 can use
    static ASCII without a copy.

    The strings of V8 are those of [SerdeV8]; what it makes of static memory is the class
    [ExternalStrings].  A [FastString] has the same [==] as the texts, which is the
    equivalence here: only [as_static_str] and [try_clone] look at the memory. *)

From S2P Require Import Prelude RustStr SerdeV8 OpValues ConvertLaws.

Implicit Types (t : text) (i k : nat).

(** * Strings *)

(** [FastStaticString] is a reference to a constant that V8 can use. *)
Record FastStaticString := mkStatic { s : text }.

Inductive FastString :=
  | Static (t : text)
  | StaticAscii (t : text)
  | StaticConst (c : FastStaticString)
  | Owned (t : text)
  | Arc (t : text).

Definition all_ascii t : bool := forallb is_ascii t.

Definition static_as_str (c : FastStaticString) : text := s c.

Definition as_str (f : FastString) : text :=
  match f with
  | Arc t | Owned t | Static t | StaticAscii t => t
  | StaticConst c => static_as_str c
  end.

Definition as_bytes (f : FastString) : text := as_str f.

(** ** Where they come from *)

(** [ascii_str!]: V8 asserts, while compiling, that the constant is ASCII. *)
Definition ascii_str t : outcome FastStaticString := _ ← assert (all_ascii t); Ret (mkStatic t).

Definition EMPTY_STRING : FastStaticString := mkStatic [].

Definition from_static t : FastString := if all_ascii t then StaticAscii t else Static t.

Definition from_ascii_static_unchecked (p : profile) t : outcome FastString :=
  _ ← debug_assert p (all_ascii t); Ret (StaticAscii t).

Definition from_non_ascii_static t : FastString := Static t.
Definition from_fast_static (c : FastStaticString) : FastString := StaticConst c.
Definition from_string t : FastString := Owned t.
Definition from_arc t : FastString := Arc t.
Definition default_string : FastString := StaticConst EMPTY_STRING.

(** ** What they can do *)

Definition as_static_str (f : FastString) : option text :=
  match f with
  | Static t | StaticAscii t => Some t
  | StaticConst c => Some (static_as_str c)
  | _ => None
  end.

Definition try_clone (f : FastString) : option FastString :=
  match f with Owned _ => None | _ => Some f end.

(** The box of an owned string becomes an [Arc] that both copies share. *)
Definition into_cheap_copy (f : FastString) : outcome (FastString * FastString) :=
  match f with
  | Owned t => Ret (Arc t, Arc t)
  | _ => c ← unwrap (try_clone f); Ret (c, f)
  end.

Definition truncate (f : FastString) (index : nat) : outcome FastString :=
  match f with
  | Static b => b ← slice_to b index; Ret (Static b)
  | StaticAscii b => b ← slice_to b index; Ret (StaticAscii b)
  | StaticConst c => b ← slice_to (static_as_str c) index; Ret (StaticAscii b)
  | Owned b => b ← slice_to b index; Ret (Owned b)
  | Arc b => b ← slice_to b index; Ret (Arc b)
  end.

Definition into_arc (f : FastString) : text :=
  match f with
  | Static t | StaticAscii t => t
  | StaticConst c => static_as_str c
  | Owned t => t
  | Arc t => t
  end.

(** [PartialEq]. *)
Definition fast_eq (f g : FastString) : bool := bool_decide (as_bytes f = as_bytes g).

(** [Serialize] and [Deserialize]: the format gives and takes a text. *)
Definition serialize (f : FastString) : text := as_str f.
Definition deserialize t : FastString := from_string t.

(** What V8 does with static memory: it reads one character per byte. *)
Class ExternalStrings (J : Type) `{V8Strings J} := {
  new_external_onebyte_static : text → option J;
  new_from_onebyte_const : text → option J;
}.

(** Strings of V8 are their characters, however they came about. *)
Class ExternalLaws (J : Type) `{ExternalStrings J} := {
  external_one_byte t : new_external_onebyte_static t = of_one_byte t;
  const_one_byte t : new_from_onebyte_const t = of_one_byte t;
  one_byte_utf8 t : of_one_byte t = of_utf8 (utf8_of_latin1 t);
}.

Section v8.
Context `{ExternalStrings J}.

(** [None]: [FastStringV8AllocationError]. *)
Definition v8_string (f : FastString) : option J :=
  match f with
  | StaticAscii t => new_external_onebyte_static t
  | StaticConst c => new_from_onebyte_const (s c)
  | _ => of_utf8 (as_bytes f)
  end.

Definition static_v8_string (c : FastStaticString) : option J := v8_string (from_fast_static c).

(** * The equivalence *)

Global Instance fast_equiv : Equiv FastString := λ f g, fast_eq f g = true.

Lemma fast_equiv_text f g : f ≡ g ↔ as_str f = as_str g.
Proof. apply bool_decide_eq_true. Qed.

Global Instance fast_equivalence : Equivalence (≡@{FastString}).
Proof.
  split.
  - intros f. by apply fast_equiv_text.
  - intros f g. rewrite !fast_equiv_text. congruence.
  - intros f g h. rewrite !fast_equiv_text. congruence.
Qed.

Global Instance as_str_proper : Proper ((≡) ==> (=)) as_str.
Proof. intros f g. apply fast_equiv_text. Qed.

(** What static memory promises to V8. *)
Definition sound (f : FastString) : Prop :=
  match f with StaticAscii t => all_ascii t = true | StaticConst c => all_ascii (s c) = true | _ => True end.

Lemma into_arc_text f : into_arc f = as_str f.
Proof. by destruct f. Qed.

Lemma truncate_text f i :
  truncate f i = match slice_to (as_str f) i with
                 | Panic e => Panic e
                 | Ret t => Ret (match f with
                                 | Static _ => Static t | Owned _ => Owned t | Arc _ => Arc t
                                 | StaticAscii _ | StaticConst _ => StaticAscii t
                                 end)
                 end.
Proof. destruct f; simpl; unfold static_as_str; by destruct (slice_to _ i). Qed.

Lemma ascii_slice t u i : slice_to t i = Ret u → all_ascii t = true → all_ascii u = true.
Proof.
  unfold slice_to. destruct (is_char_boundary t i); intros [= <-]. unfold all_ascii. rewrite !forallb_forall.
  intros Hall c Hc. apply Hall. rewrite <- (take_drop i t). apply in_or_app. by left.
Qed.

Lemma truncate_sound f g i : truncate f i = Ret g → sound f → sound g.
Proof.
  rewrite truncate_text. destruct (slice_to (as_str f) i) as [t|] eqn:Ht; intros [= <-].
  destruct f; simpl in *; try done; by apply (ascii_slice _ _ i).
Qed.

Lemma into_cheap_copy_text f : ∃ g h, into_cheap_copy f = Ret (g, h) ∧ g ≡ f ∧ h ≡ f ∧ (sound f → sound g ∧ sound h).
Proof. destruct f; simpl; do 2 eexists; (split; [reflexivity|]); rewrite !fast_equiv_text; done. Qed.

Context `{!ExternalLaws J}.

(** V8 reads the same characters from every kind of memory. *)
Lemma v8_string_text f : sound f → v8_string f = of_utf8 (as_str f).
Proof.
  destruct f as [t|t|c|t|t]; simpl; intros Hs; try done.
  - by rewrite external_one_byte, one_byte_utf8, utf8_of_latin1_ascii.
  - by rewrite const_one_byte, one_byte_utf8, utf8_of_latin1_ascii.
Qed.

(** * Clients *)

(** How a client makes a string, and what it does with those it has. *)
Inductive source :=
  | FromLiteral t  (** [ascii_str!] *)
  | FromStatic t | FromAsciiUnchecked t | FromNonAscii t | FromString t | FromArc t | FromDefault
  | FromSerialized t.

Definition source_text (c : source) : text :=
  match c with
  | FromLiteral t | FromStatic t | FromAsciiUnchecked t | FromNonAscii t | FromString t | FromArc t
  | FromSerialized t => t
  | FromDefault => []
  end.

Definition build (p : profile) (c : source) : outcome FastString :=
  match c with
  | FromLiteral t => c ← ascii_str t; Ret (from_fast_static c)
  | FromStatic t => Ret (from_static t)
  | FromAsciiUnchecked t => from_ascii_static_unchecked p t
  | FromNonAscii t => Ret (from_non_ascii_static t)
  | FromString t => Ret (from_string t)
  | FromArc t => Ret (from_arc t)
  | FromDefault => Ret default_string
  | FromSerialized t => Ret (deserialize t)
  end.

(** The safety contract of [from_ascii_static_unchecked]. *)
Definition safe (c : source) : Prop :=
  match c with FromAsciiUnchecked t => all_ascii t = true | _ => True end.

Inductive request :=
  | Make (c : source)
  | Truncate k i
  | Copy k           (** keeps one of the copies in place, the other at the end *)
  | AsStr k | AsBytes k | IntoArc k | Serialize k | V8String k
  | Equal k i
  | AsStaticStr k
  | TryClone k.      (** a clone goes to the end *)

Inductive answer :=
  | Done | Missing | AText t | AString (j : option J) | ABool (b : bool) | AStatic (o : option text).

(** One request; the strings of the client are counted from 0. *)
Definition step (p : profile) (pool : list FastString) (r : request) : outcome (list FastString * answer) :=
  let with_string k (f : FastString → outcome (list FastString * answer)) :=
    match pool !! k with Some x => f x | None => Ret (pool, Missing) end in
  match r with
  | Make c => f ← build p c; Ret (pool ++ [f], Done)
  | Truncate k i => with_string k (λ f, g ← truncate f i; Ret (<[k := g]> pool, Done))
  | Copy k => with_string k (λ f, '(g, h) ← into_cheap_copy f; Ret (<[k := g]> pool ++ [h], Done))
  | AsStr k => with_string k (λ f, Ret (pool, AText (as_str f)))
  | AsBytes k => with_string k (λ f, Ret (pool, AText (as_bytes f)))
  | IntoArc k => with_string k (λ f, let t := into_arc f in Ret (<[k := from_arc t]> pool, AText t))
  | Serialize k => with_string k (λ f, Ret (pool, AText (serialize f)))
  | V8String k => with_string k (λ f, Ret (pool, AString (v8_string f)))
  | Equal k i => with_string k (λ f, match pool !! i with
                                     | Some g => Ret (pool, ABool (fast_eq f g))
                                     | None => Ret (pool, Missing)
                                     end)
  | AsStaticStr k => with_string k (λ f, Ret (pool, AStatic (as_static_str f)))
  | TryClone k => with_string k (λ f, match try_clone f with
                                      | Some g => Ret (pool ++ [g], ABool true)
                                      | None => Ret (pool, ABool false)
                                      end)
  end.

Fixpoint run (p : profile) (pool : list FastString) (l : list request) : outcome (list answer) :=
  match l with
  | [] => Ret []
  | r :: l => '(pool, a) ← step p pool r; rest ← run p pool l; Ret (a :: rest)
  end.

(** The specification: the client has plain texts, and knows of each only whether it is in
    static memory, the client's own, or shared. *)
Inductive memory := MStatic | MOwned | MShared.

Definition source_memory (c : source) : memory :=
  match c with
  | FromString _ | FromSerialized _ => MOwned
  | FromArc _ => MShared
  | _ => MStatic
  end.

(** A cheap copy makes a text of one's own a shared one. *)
Definition shared_memory (m : memory) : memory := match m with MOwned => MShared | _ => m end.

Definition spec_step (pool : list (text * memory)) (r : request) : outcome (list (text * memory) * answer) :=
  let with_string k (f : text → memory → outcome (list (text * memory) * answer)) :=
    match pool !! k with Some x => f x.1 x.2 | None => Ret (pool, Missing) end in
  match r with
  | Make c =>
      _ ← match c with FromLiteral t => assert (all_ascii t) | _ => Ret () end;
      Ret (pool ++ [(source_text c, source_memory c)], Done)
  | Truncate k i => with_string k (λ t m, u ← slice_to t i; Ret (<[k := (u, m)]> pool, Done))
  | Copy k => with_string k (λ t m, Ret (<[k := (t, shared_memory m)]> pool ++ [(t, shared_memory m)], Done))
  | AsStr k | AsBytes k | Serialize k => with_string k (λ t _, Ret (pool, AText t))
  | IntoArc k => with_string k (λ t _, Ret (<[k := (t, MShared)]> pool, AText t))
  | V8String k => with_string k (λ t _, Ret (pool, AString (of_utf8 t)))
  | Equal k i => with_string k (λ t _, match pool !! i with
                                       | Some u => Ret (pool, ABool (bool_decide (t = u.1)))
                                       | None => Ret (pool, Missing)
                                       end)
  | AsStaticStr k => with_string k (λ t m, Ret (pool, AStatic (match m with MStatic => Some t | _ => None end)))
  | TryClone k => with_string k (λ t m, match m with
                                        | MOwned => Ret (pool, ABool false)
                                        | _ => Ret (pool ++ [(t, m)], ABool true)
                                        end)
  end.

Fixpoint spec_run (pool : list (text * memory)) (l : list request) : outcome (list answer) :=
  match l with
  | [] => Ret []
  | r :: l => '(pool, a) ← spec_step pool r; rest ← spec_run pool l; Ret (a :: rest)
  end.

Definition safe_request (r : request) : Prop := match r with Make c => safe c | _ => True end.

Definition memory_of (f : FastString) : memory :=
  match f with Owned _ => MOwned | Arc _ => MShared | _ => MStatic end.

(** A string stands for a text in its kind of memory. *)
Definition is_text (f : FastString) (x : text * memory) : Prop := x = (as_str f, memory_of f) ∧ sound f.

Definition stands_for (pool : list FastString) (texts : list (text * memory)) : Prop := Forall2 is_text pool texts.

(** The same answer, and pools that correspond, or the same panic. *)
Definition refines (o : outcome (list FastString * answer)) (u : outcome (list (text * memory) * answer)) : Prop :=
  match o, u with
  | Ret (pool, a), Ret (texts, b) => stands_for pool texts ∧ a = b
  | Panic e, Panic e' => e = e'
  | _, _ => False
  end.

Lemma build_sound p c :
  safe c →
  match build p c with
  | Ret f => is_text f (source_text c, source_memory c)
  | Panic e => e = Assert ∧ ∃ t, c = FromLiteral t ∧ all_ascii t = false
  end.
Proof.
  unfold is_text. destruct c as [t|t|t|t|t|t| |t]; simpl; intros Hs; try done.
  - unfold ascii_str, assert. destruct (all_ascii t) eqn:E; simpl; [done | eauto].
  - unfold from_static. by destruct (all_ascii t) eqn:E.
  - unfold from_ascii_static_unchecked. by rewrite debug_assert_true.
Qed.

Lemma stands_for_app pool texts f x : stands_for pool texts → is_text f x → stands_for (pool ++ [f]) (texts ++ [x]).
Proof. intros Hpool Hf. apply Forall2_app; [done|]. by apply Forall2_cons_2, Forall2_nil_2. Qed.

Lemma make_refines p pool texts c :
  stands_for pool texts → safe c → refines (step p pool (Make c)) (spec_step texts (Make c)).
Proof.
  intros Hpool Hsafe. pose proof (build_sound p c Hsafe) as Hb. simpl. destruct (build p c) as [f|e] eqn:E; simpl.
  - destruct c; simpl in *; unfold ascii_str in E;
      try (destruct (assert _) eqn:Ea in E; [|done]; unfold assert in *; rewrite Ea; simpl);
      (split; [by apply stands_for_app | done]).
  - destruct Hb as (-> & u & -> & Hu). simpl. unfold assert. by rewrite Hu.
Qed.

Lemma copy_is_text f : is_text f (as_str f, memory_of f) → ∃ g h, into_cheap_copy f = Ret (g, h) ∧
  is_text g (as_str f, shared_memory (memory_of f)) ∧ is_text h (as_str f, shared_memory (memory_of f)).
Proof. intros [_ Hs]. destruct f; simpl; do 2 eexists; (split; [reflexivity|]); by split; split. Qed.

Lemma step_refines p pool texts r :
  stands_for pool texts → safe_request r → refines (step p pool r) (spec_step texts r).
Proof.
  intros Hpool Hsafe. assert (∀ k,
    match pool !! k, texts !! k with Some f, Some x => is_text f x | None, None => True | _, _ => False end) as Hk.
  { intros k. destruct (pool !! k) as [f|] eqn:Hf.
    - by destruct (Forall2_lookup_l _ _ _ _ _ Hpool Hf) as (x & -> & ?).
    - apply lookup_ge_None in Hf. by rewrite (proj2 (lookup_ge_None texts k)) by (by rewrite <- (Forall2_length _ _ _ Hpool)). }
  destruct r as [c|k i|k|k|k|k|k|k|k i|k|k]; [by apply make_refines|..]; simpl;
    (specialize (Hk k) as Hki; destruct (pool !! k) as [f|], (texts !! k) as [[t m]|] eqn:Htk; try done;
     destruct Hki as [[= -> ->] Hs]); simpl; try done.
  - rewrite truncate_text. pose proof (truncate_sound f) as Hts. destruct (slice_to (as_str f) i) as [u|] eqn:Hu; [|done].
    simpl. split; [|done]. apply Forall2_insert; [done|]. split; [by destruct f|].
    eapply (Hts _ i); [by rewrite truncate_text, Hu | done].
  - destruct (copy_is_text f) as (g & h & -> & Hg & Hh); [by split|]. simpl. split; [|done].
    apply stands_for_app; [by apply Forall2_insert | done].
  - split; [|by rewrite into_arc_text]. apply Forall2_insert; [done|]. rewrite into_arc_text. by split.
  - by rewrite v8_string_text.
  - specialize (Hk i). destruct (pool !! i) as [g|], (texts !! i) as [u|]; try done.
    simpl. by destruct Hk as [-> _].
  - split; [done|]. by destruct f.
  - destruct f; simpl; (split; [|done]); try done; by apply stands_for_app.
Qed.

Lemma run_refines p l pool texts :
  stands_for pool texts → Forall safe_request l → run p pool l = spec_run texts l.
Proof.
  revert pool texts. induction l as [|r l IH]; intros pool texts Hpool Hsafe; simpl; [done|].
  inversion Hsafe as [|?? Hr Hl]; subst. pose proof (step_refines p pool texts r Hpool Hr) as Hstep.
  destruct (step p pool r) as [[pool' a]|e], (spec_step texts r) as [[texts' b]|e']; simpl in *; try done.
  - destruct Hstep as [Hpool' ->]. by rewrite (IH pool' texts').
  - by subst.
Qed.

(** C37. The strings of a client are plain texts that only know whether they are in static
    memory, the client's own, or shared.  Whatever the client makes - for
    [from_ascii_static_unchecked], which is unsafe, only texts that are ASCII - and whatever it
    does with its strings in whatever order, it gets the answers and the panics that these
    texts give.  The only answers that depend on the memory are those of [as_static_str],
    which has a text exactly for static memory, and of [try_clone], which has a clone unless
    the text is the client's own; a cut keeps the kind of memory, a cheap copy shares what was
    the client's own, an [Arc] is shared.  Comparing, converting, serializing, cheap copies,
    cuts and strings of V8 do not tell memories apart: V8 reads the same characters from
    static memory as from a copy, after any number of cuts and copies.  The only panics are
    those of a literal that is not ASCII and of a cut inside a character; the [unwrap] of a
    cheap copy never fails. *)
Theorem fast_strings_are_texts p l :
  Forall safe_request l → run p [] l = spec_run [] l.
Proof. intros Hl. apply run_refines; [by constructor | done]. Qed.
End v8.

(** * Examples *)

#[local] Existing Instances latin1_strings.

#[local] Instance latin1_external : ExternalStrings text := {|
  new_external_onebyte_static t := Some t;
  new_from_onebyte_const t := Some t;
|}.

#[local] Instance latin1_external_laws : ExternalLaws text.
Proof.
  split; [done | done |]. intros t. simpl. rewrite utf8_of_latin1_decodes. by rewrite decide_True.
Qed.

Lemma fast_strings_are_texts_witness :
  let l := [Make (FromLiteral ($"123456")); Truncate 0 3; Copy 0; Make (FromString ($"123")); Equal 1 2; V8String 0] in
  Forall (safe_request) l ∧
  run Debug [] l = spec_run [] l ∧
  run Debug [] l = Ret [Done; Done; Done; Done; ABool true; AString (Some ($"123"))].
Proof.
  intros l. assert (Forall safe_request l) as Hl by (repeat constructor).
  split; [exact Hl|]. split; [exact (fast_strings_are_texts Debug l Hl)|].
  rewrite (fast_strings_are_texts Debug l Hl). vm_compute. reflexivity.
Defined.

(** Without the contract V8 reads bytes as characters, and only debug builds notice. *)
Lemma unchecked_not_ascii :
  let e := utf8_of_latin1 [ascii_of_N 233] in
  let l := [Make (FromAsciiUnchecked e); V8String 0] in
  run Release [] l = Ret [Done; AString (Some [ascii_of_N 195; ascii_of_N 169])] ∧
  spec_run [] l = Ret [Done; AString (Some [ascii_of_N 233])] ∧
  run Debug [] l = Panic DebugAssert.
Proof. vm_compute. split_and!; reflexivity. Qed.

(** Only owned strings have no clone, only strings in static memory can be kept for ever. *)
Lemma clones_and_statics f :
  (try_clone f = None ↔ ∃ t, f = Owned t) ∧
  (as_static_str f = None ↔ ∃ t, f = Owned t ∨ f = Arc t).
Proof.
  split; destruct f; simpl; split; try done; try (by eexists); try (by eexists; left); try (by eexists; right).
  all: intros [? Hf]; try done; by destruct Hf.
Qed.
