(* ===== verification/Op2Config.v ===== *)
(** [ops/op2/config.rs]: the flags of [#[op2(...)]] and of the methods of an object.

    Paths of Rust and the tokens between parentheses are parameters: [syn] parses and
    prints them.  The errors of [syn] are one constructor, since only their place and text
    differ. *)

From S2P Require Import Prelude.
From Stdlib Require Import Sorting.Sorted Strings.Ascii.

Local Open Scope string_scope.

(** * Flags *)

Inductive AsyncMode := Deferred | Fake | Lazy.

Global Instance async_mode_eq_dec : EqDecision AsyncMode.
Proof. solve_decision. Defined.

(** What the crates [syn] and [quote] know of a path and of the tokens in parentheses. *)
Class Tokens (path tokens : Type) := {
  path_eq_dec :: EqDecision path;
  segments : path → nat;
  path_text : path → string;
  parse_ident : tokens → option string;
  parse_type : tokens → option string;  (** and back to a text *)
  parse_int : tokens → option N;
  parse_str : tokens → option string;
  parse_path : tokens → option path;
}.

(** The effect of one flag on one field, by cases. *)
Ltac flag_step := intros [] []; simpl; repeat match goal with
  | x : option string |- _ => destruct x | x : AsyncMode |- _ => destruct x end;
  rewrite ?orb_false_r, ?orb_true_r; try done.

Section config.
Context {path tokens : Type} `{!Tokens path tokens}.

(** In the order of the source, which the derived [Ord] follows. *)
Inductive Flags :=
  | Async (mode : AsyncMode)
  | Constructor
  | Fast (alternative : option string)
  | Getter
  | NoFast
  | NoSideEffects
  | Reentrant
  | Rename (name : string)
  | Required (n : N)
  | Setter
  | StaticMethod
  | StackTrace
  | Symbol (name : string)
  | PromiseId
  | Validate (p : path).

Global Instance flags_eq_dec : EqDecision Flags.
Proof. solve_decision. Defined.

Definition mode_rank (m : AsyncMode) : nat :=
  match m with Deferred => 0 | Fake => 1 | Lazy => 2 end.

Definition flag_rank (f : Flags) : nat :=
  match f with
  | Async _ => 0 | Constructor => 1 | Fast _ => 2 | Getter => 3 | NoFast => 4
  | NoSideEffects => 5 | Reentrant => 6 | Rename _ => 7 | Required _ => 8 | Setter => 9
  | StaticMethod => 10 | StackTrace => 11 | Symbol _ => 12 | PromiseId => 13 | Validate _ => 14
  end.

Definition option_compare {A} (cmp : A → A → comparison) (a b : option A) : comparison :=
  match a, b with
  | None, None => Eq
  | None, Some _ => Lt
  | Some _, None => Gt
  | Some x, Some y => cmp x y
  end.

(** [impl Ord for PathOrd]. *)
Definition path_compare (p q : path) : comparison :=
  match Nat.compare (segments p) (segments q) with
  | Eq => String.compare (path_text p) (path_text q)
  | c => c
  end.

(** The derived [Ord]: by constructor, then by payload. *)
Definition flag_compare (a b : Flags) : comparison :=
  match a, b with
  | Async m, Async n => Nat.compare (mode_rank m) (mode_rank n)
  | Fast x, Fast y => option_compare String.compare x y
  | Rename x, Rename y | Symbol x, Symbol y => String.compare x y
  | Required m, Required n => N.compare m n
  | Validate p, Validate q => path_compare p q
  | _, _ => Nat.compare (flag_rank a) (flag_rank b)
  end.

Definition flag_leb (a b : Flags) : bool :=
  match flag_compare a b with Gt => false | _ => true end.

Definition flag_le (a b : Flags) : Prop := flag_leb a b = true.

(** [slice::is_sorted]. *)
Fixpoint is_sorted (l : list Flags) : bool :=
  match l with
  | a :: (b :: _) as l' => flag_leb a b && is_sorted l'
  | _ => true
  end.

(** * Parsing *)

Record CustomMeta := mkMeta { ident : string; args : option tokens }.

(** [parse2] fails when tokens are left over. *)
Definition bare (m : CustomMeta) (f : Flags) : option Flags :=
  match args m with None => Some f | Some _ => None end.

Definition require_list (m : CustomMeta) : option tokens := args m.

(** [str.replace(' ', "")]. *)
Fixpoint without_spaces (s : string) : string :=
  match s with
  | EmptyString => EmptyString
  | String c s' => if decide (c = " "%char) then without_spaces s' else String c (without_spaces s')
  end.

Definition parse_async_mode (t : tokens) : option AsyncMode :=
  i ← parse_ident t;
  if decide (i = "fake") then Some Fake
  else if decide (i = "lazy") then Some Lazy
  else if decide (i = "deferred") then Some Deferred
  else None.

(** [impl Parse for Flags]; a literal of [required] must fit in a [u8]. *)
Definition parse_flag (m : CustomMeta) : option Flags :=
  let i := ident m in
  if decide (i = "static_method") then bare m StaticMethod
  else if decide (i = "constructor") then bare m Constructor
  else if decide (i = "getter") then bare m Getter
  else if decide (i = "setter") then bare m Setter
  else if decide (i = "fast") then
    match args m with
    | Some list => ty ← parse_type list; Some (Fast (Some (without_spaces ty)))
    | None => Some (Fast None)
    end
  else if decide (i = "nofast") then bare m NoFast
  else if decide (i = "async" ∨ i = "async_method") then
    list ← require_list m; mode ← parse_async_mode list; Some (Async mode)
  else if decide (i = "reentrant") then bare m Reentrant
  else if decide (i = "no_side_effects") then bare m NoSideEffects
  else if decide (i = "stack_trace") then bare m StackTrace
  else if decide (i = "required") then
    list ← require_list m; n ← parse_int list; if (n <? 256)%N then Some (Required n) else None
  else if decide (i = "rename") then
    list ← require_list m; s ← parse_str list; Some (Rename s)
  else if decide (i = "symbol") then
    list ← require_list m; s ← parse_str list; Some (Symbol s)
  else if decide (i = "promise_id") then bare m PromiseId
  else if decide (i = "validate") then
    list ← require_list m; p ← parse_path list; Some (Validate p)
  else None.

(** * The configuration *)

Record MacroConfig := mkConfig {
  fast : bool;
  nofast : bool;
  fast_alternative : option string;
  fake_async : bool;
  async_lazy : bool;
  async_deferred : bool;
  reentrant : bool;
  method : option string;
  self_name : option string;
  constructor : bool;
  static_member : bool;
  no_side_effects : bool;
  getter : bool;
  setter : bool;
  stack_trace : bool;
  required : option N;
  rename : option string;
  symbol : bool;
  use_cppgc_base : bool;
  promise_id : bool;
  validate : option path;
}.

Definition default_config : MacroConfig :=
  mkConfig false false None false false false false None None false false false false false false
    None None false false false None.

(** The [match] in the loop of [from_metas]. *)
Definition apply_flag (c : MacroConfig) (f : Flags) : MacroConfig :=
  let '(mkConfig fa nf alt fk la de re me sn co sm ns ge se st rq rn sy ba pi va) := c in
  match f with
  | Constructor => mkConfig fa nf alt fk la de re me sn true sm ns ge se st rq rn sy ba pi va
  | Getter => mkConfig fa nf alt fk la de re me sn co sm ns true se st rq rn sy ba pi va
  | Setter => mkConfig fa nf alt fk la de re me sn co sm ns ge true st rq rn sy ba pi va
  | Fast (Some p) => mkConfig fa nf (Some p) fk la de re me sn co sm ns ge se st rq rn sy ba pi va
  | Fast None => mkConfig true nf alt fk la de re me sn co sm ns ge se st rq rn sy ba pi va
  | NoFast => mkConfig fa true alt fk la de re me sn co sm ns ge se st rq rn sy ba pi va
  | Async Fake => mkConfig fa nf alt true la de re me sn co sm ns ge se st rq rn sy ba pi va
  | Async Lazy => mkConfig fa nf alt fk true de re me sn co sm ns ge se st rq rn sy ba pi va
  | Async Deferred => mkConfig fa nf alt fk la true re me sn co sm ns ge se st rq rn sy ba pi va
  | Reentrant => mkConfig fa nf alt fk la de true me sn co sm ns ge se st rq rn sy ba pi va
  | NoSideEffects => mkConfig fa nf alt fk la de re me sn co sm true ge se st rq rn sy ba pi va
  | StackTrace => mkConfig fa nf alt fk la de re me sn co sm ns ge se true rq rn sy ba pi va
  | StaticMethod => mkConfig fa nf alt fk la de re me sn co true ns ge se st rq rn sy ba pi va
  | Required n => mkConfig fa nf alt fk la de re me sn co sm ns ge se st (Some n) rn sy ba pi va
  | Rename s => mkConfig fa nf alt fk la de re me sn co sm ns ge se st rq (Some s) sy ba pi va
  | Symbol s => mkConfig fa nf alt fk la de re me sn co sm ns ge se st rq (Some s) true ba pi va
  | PromiseId => mkConfig fa nf alt fk la de re me sn co sm ns ge se st rq rn sy ba true va
  | Validate p => mkConfig fa nf alt fk la de re me sn co sm ns ge se st rq rn sy ba pi (Some p)
  end.

Inductive config_error :=
  | ParseError
  | NotSorted
  | InvalidAttributeCombination (a b : string).

(** The loop: parse each flag, apply it, remember it. *)
Fixpoint read_flags (metas : list CustomMeta) (c : MacroConfig) (passed : list Flags)
    : option (MacroConfig * list Flags) :=
  match metas with
  | [] => Some (c, passed)
  | m :: metas' => f ← parse_flag m; read_flags metas' (apply_flag c f) (passed ++ [f])%list
  end.

Definition from_metas (metas : list CustomMeta) : result MacroConfig config_error :=
  match read_flags metas default_config [] with
  | None => Err ParseError
  | Some (config, passed_flags) =>
      if negb (is_sorted passed_flags) then Err NotSorted
      else if fast config && nofast config then Err (InvalidAttributeCombination "fast" "nofast")
      else if fast config && bool_decide (is_Some (fast_alternative config)) then
        Err (InvalidAttributeCombination "fast" "fast(...)")
      else if no_side_effects config && reentrant config then
        Err (InvalidAttributeCombination "no_side_effects" "reentrant")
      else Ok config
  end.

(** An attribute of a method: the identifier of its path if it is one, and the attribute
    as [syn] parses it into a [CustomMeta]. *)
Record attribute := mkAttribute { attr_ident : option string; attr_meta : option CustomMeta }.

Definition is_standard (a : attribute) : bool :=
  match attr_ident a with
  | Some i => bool_decide (i = "doc" ∨ i = "allow" ∨ i = "cfg")
  | None => false
  end.

Definition from_attributes (attributes : list attribute) : result MacroConfig config_error :=
  match mapM attr_meta (filter (λ a, is_standard a = false) attributes) with
  | Some metas => from_metas metas
  | None => Err ParseError
  end.

(** * Laws *)

Lemma is_sorted_spec l : is_sorted l = true ↔ Sorted flag_le l.
Proof.
  induction l as [|a [|b l] IH]; [split; [constructor | done] | split; [by repeat constructor | done] |].
  change (flag_leb a b && is_sorted (b :: l) = true ↔ Sorted flag_le (a :: b :: l)).
  rewrite andb_true_iff, IH. split.
  - intros [??]. constructor; [done | by constructor].
  - intros Hs. inversion Hs as [|?? Hs' Hh]; subst. by inversion Hh.
Qed.

Lemma read_flags_fold metas c passed :
  read_flags metas c passed =
    (λ fl, (foldl apply_flag c fl, (passed ++ fl)%list)) <$> mapM parse_flag metas.
Proof.
  revert c passed. induction metas as [|m metas IH]; intros c passed; simpl.
  { by rewrite app_nil_r. }
  destruct (parse_flag m) as [f|]; simpl; [|done]. rewrite IH.
  destruct (mapM parse_flag metas); simpl; [|done]. by rewrite <- app_assoc.
Qed.

(** A flag that sets a boolean field. *)
Lemma fold_sets (get : MacroConfig → bool) (is_flag : Flags → bool) :
  (∀ c f, get (apply_flag c f) = get c || is_flag f) →
  ∀ fl c, get (foldl apply_flag c fl) = get c || existsb is_flag fl.
Proof.
  intros Hstep fl. induction fl as [|f fl IH]; intros c; simpl.
  { by rewrite orb_false_r. }
  by rewrite IH, Hstep, orb_assoc.
Qed.

(** A flag whose payload a field holds: the last one wins. *)
Fixpoint last_of {A} (read : Flags → option A) (fl : list Flags) : option A :=
  match fl with
  | [] => None
  | f :: fl' => match last_of read fl' with Some a => Some a | None => read f end
  end.

Lemma fold_reads {A} (get : MacroConfig → option A) (read : Flags → option A) :
  (∀ c f, get (apply_flag c f) = match read f with Some a => Some a | None => get c end) →
  ∀ fl c, get (foldl apply_flag c fl) = match last_of read fl with Some a => Some a | None => get c end.
Proof.
  intros Hstep fl. induction fl as [|f fl IH]; intros c; simpl; [done|].
  rewrite IH, Hstep. by destruct (last_of read fl).
Qed.

Definition passes (f : Flags) (fl : list Flags) : bool := bool_decide (f ∈ fl).

Lemma existsb_passes f fl : existsb (λ g, bool_decide (f = g)) fl = passes f fl.
Proof.
  unfold passes. induction fl as [|g fl IH]; simpl.
  { done. }
  rewrite IH. apply eq_true_iff_eq. rewrite orb_true_iff, !bool_decide_eq_true. by rewrite elem_of_cons.
Qed.

Lemma fold_passes (get : MacroConfig → bool) (f : Flags) :
  (∀ c g, get (apply_flag c g) = get c || bool_decide (f = g)) → get default_config = false →
  ∀ fl, get (foldl apply_flag default_config fl) = passes f fl.
Proof.
  intros Hstep Hd fl. rewrite (fold_sets get (λ g, bool_decide (f = g)) Hstep), Hd. apply existsb_passes.
Qed.

Lemma fold_payload {A} (get : MacroConfig → option A) (read : Flags → option A) :
  (∀ c f, get (apply_flag c f) = match read f with Some a => Some a | None => get c end) →
  get default_config = None →
  ∀ fl, get (foldl apply_flag default_config fl) = last_of read fl.
Proof. intros Hstep Hd fl. rewrite (fold_reads _ _ Hstep), Hd. by destruct (last_of read fl). Qed.
End config.

(** What a list of flags means, field by field. *)
Definition alternative_of {path} (f : @Flags path) : option string :=
  match f with Fast a => a | _ => None end.
Definition required_of {path} (f : @Flags path) : option N :=
  match f with Required n => Some n | _ => None end.
Definition name_of {path} (f : @Flags path) : option string :=
  match f with Rename s | Symbol s => Some s | _ => None end.
Definition validate_of {path} (f : @Flags path) : option path :=
  match f with Validate p => Some p | _ => None end.
Definition is_symbol {path} (f : @Flags path) : bool :=
  match f with Symbol _ => true | _ => false end.

Section meaning.
Context {path tokens : Type} `{!Tokens path tokens}.

Definition config_means (fl : list (@Flags path)) (c : @MacroConfig path) : Prop :=
  fast c = passes (Fast None) fl ∧ nofast c = passes NoFast fl ∧
  fast_alternative c = last_of alternative_of fl ∧
  fake_async c = passes (Async Fake) fl ∧ async_lazy c = passes (Async Lazy) fl ∧
  async_deferred c = passes (Async Deferred) fl ∧ reentrant c = passes Reentrant fl ∧
  constructor c = passes Constructor fl ∧ static_member c = passes StaticMethod fl ∧
  no_side_effects c = passes NoSideEffects fl ∧ getter c = passes Getter fl ∧
  setter c = passes Setter fl ∧ stack_trace c = passes StackTrace fl ∧
  required c = last_of required_of fl ∧ rename c = last_of name_of fl ∧
  symbol c = existsb is_symbol fl ∧ promise_id c = passes PromiseId fl ∧
  validate c = last_of validate_of fl ∧
  method c = None ∧ self_name c = None ∧ use_cppgc_base c = false.

Lemma fold_keeps {A} (get : @MacroConfig path → A) :
  (∀ c f, get (apply_flag c f) = get c) → ∀ fl c, get (foldl apply_flag c fl) = get c.
Proof. intros Hk fl. induction fl as [|f fl IH]; intros c; simpl; [done|]. by rewrite IH, Hk. Qed.

Lemma fold_means fl : config_means fl (foldl apply_flag default_config fl).
Proof.
  repeat split.
  all: try (apply fold_passes; [flag_step | done]).
  all: try (apply fold_payload; [flag_step | done]).
  all: try (apply (fold_keeps method); flag_step).
  all: try (apply (fold_keeps self_name); flag_step).
  all: try (apply (fold_keeps use_cppgc_base); flag_step).
  pose proof (fold_sets symbol is_symbol ltac:(flag_step) fl default_config) as Hs. exact Hs.
Qed.

Lemma alternative_passed fl :
  is_Some (last_of alternative_of fl) ↔ ∃ p, Fast (path:=path) (Some p) ∈ fl.
Proof.
  induction fl as [|f fl IH]; simpl.
  { split; [by intros [??] | by intros [p []%not_elem_of_nil]]. }
  setoid_rewrite elem_of_cons. destruct (last_of alternative_of fl); simpl in *.
  { split; [intros _ | eauto]. destruct (proj1 IH ltac:(eauto)) as [p Hp]. eauto. }
  split.
  - intros Hf. destruct f as [| | [p|] | | | | | | | | | | | |]; simpl in Hf; try by destruct Hf.
    exists p. by left.
  - intros (p & [<-|Hp]); simpl; [by eexists|]. destruct (proj2 IH ltac:(eauto)) as [? [=]].
Qed.

(** ** The order of the flags

    It is that of the constructors, said to be alphabetical. *)

Definition keyword (f : Flags (path:=path)) : string :=
  match f with
  | Async _ => "async" | Constructor => "constructor" | Fast _ => "fast" | Getter => "getter"
  | NoFast => "nofast" | NoSideEffects => "no_side_effects" | Reentrant => "reentrant"
  | Rename _ => "rename" | Required _ => "required" | Setter => "setter"
  | StaticMethod => "static_method" | StackTrace => "stack_trace" | Symbol _ => "symbol"
  | PromiseId => "promise_id" | Validate _ => "validate"
  end.

Definition alphabetical_le (f g : Flags (path:=path)) : Prop := String.leb (keyword f) (keyword g) = true.

(** The pairs that the code wants in the other order: [promise_id] comes after all but [validate]. *)
Definition misplaced (f g : Flags (path:=path)) : Prop :=
  f = NoFast ∧ g = NoSideEffects ∨ f = StaticMethod ∧ g = StackTrace ∨
  g = PromiseId ∧ ¬ alphabetical_le f PromiseId ∧ keyword f ≠ "validate".

Ltac flag_cases f g := destruct f; destruct g.

Lemma flag_le_alphabetical f g : flag_le f g → alphabetical_le f g ∨ misplaced f g.
Proof.
  unfold flag_le, flag_leb, alphabetical_le, misplaced.
  flag_cases f g; try (intros _; left; reflexivity); try discriminate; intros _; right; auto 6.
  all: right; right; split_and!; [done | by vm_compute | done].
Qed.

Lemma not_flag_le_alphabetical f g :
  ¬ flag_le f g → keyword f = keyword g ∨ ¬ alphabetical_le f g ∨ misplaced g f.
Proof.
  unfold flag_le, flag_leb, alphabetical_le, misplaced.
  flag_cases f g; try (intros Hle; by destruct Hle); try (intros _; left; reflexivity);
    try (intros _; right; left; discriminate); intros _; right; right; auto 6.
  all: right; right; split_and!; [done | by vm_compute | done].
Qed.

Lemma unsorted_neighbours (l : list (Flags (path:=path))) :
  ¬ Sorted flag_le l → ∃ l1 f g l2, l = (l1 ++ f :: g :: l2)%list ∧ ¬ flag_le f g.
Proof.
  rewrite <- is_sorted_spec. induction l as [|f [|g l] IH]; [done..|].
  change (is_sorted (f :: g :: l)) with (flag_leb f g && is_sorted (g :: l)).
  intros Hs. destruct (flag_leb f g) eqn:Hle.
  - destruct (IH Hs) as (l1 & f' & g' & l2 & -> & ?). by exists (f :: l1)%list, f', g', l2.
  - exists [], f, g, l. split; [done|]. unfold flag_le. by rewrite Hle.
Qed.

(** C29. The flags of an op decide its configuration and nothing else does: flags that are
    out of order, or of which two exclude each other, are refused with the error for it, and
    otherwise each field of the configuration is what the flags say.  The order is the one of
    the Rust enum, which is not quite the alphabetical one that the message of the error
    names: accepted flags are in alphabetical order but for [nofast] before
    [no_side_effects], [static_method] before [stack_trace] and flags before [promise_id];
    flags that are refused for their order have neighbours that are not in alphabetical
    order, or have the same keyword, or are in alphabetical order but for these three the
    other way round. *)
Theorem flags_decide_config metas :
  match from_metas (path:=path) metas with
  | Err ParseError => mapM parse_flag metas = None
  | Err NotSorted => ∃ fl, mapM parse_flag metas = Some fl ∧ ¬ Sorted flag_le fl ∧
        ∃ l1 f g l2, fl = (l1 ++ f :: g :: l2)%list ∧
          (keyword f = keyword g ∧ flag_compare f g = Gt ∨ ¬ alphabetical_le f g ∨ misplaced g f)
  | Err (InvalidAttributeCombination a b) =>
      ∃ fl, mapM parse_flag metas = Some fl ∧ Sorted flag_le fl ∧
        ((a = "fast" ∧ b = "nofast" ∧ Fast None ∈ fl ∧ NoFast ∈ fl) ∨
         (a = "fast" ∧ b = "fast(...)" ∧ Fast None ∈ fl ∧ ∃ p, Fast (Some p) ∈ fl) ∨
         (a = "no_side_effects" ∧ b = "reentrant" ∧ NoSideEffects ∈ fl ∧ Reentrant ∈ fl))
  | Ok c => ∃ fl, mapM parse_flag metas = Some fl ∧ config_means fl c ∧
        Sorted flag_le fl ∧ Sorted (λ f g, alphabetical_le f g ∨ misplaced f g) fl ∧
        ¬ (Fast None ∈ fl ∧ NoFast ∈ fl) ∧ ¬ (Fast None ∈ fl ∧ ∃ p, Fast (Some p) ∈ fl) ∧
        ¬ (NoSideEffects ∈ fl ∧ Reentrant ∈ fl)
  end.
Proof.
  unfold from_metas. rewrite read_flags_fold.
  destruct (mapM parse_flag metas) as [fl|]; simpl; [|done].
  destruct (fold_means fl) as (Hf & Hn & Ha & _ & _ & _ & Hr & _ & _ & Hs & _).
  destruct (is_sorted fl) eqn:Hsort; simpl.
  2:{ assert (¬ Sorted flag_le fl) as Hfl by (by rewrite <- is_sorted_spec, Hsort).
      exists fl. split_and!; [done..|]. destruct (unsorted_neighbours fl Hfl) as (l1 & f & g & l2 & -> & Hfg).
      exists l1, f, g, l2. split; [done|]. destruct (not_flag_le_alphabetical f g Hfg); [left | by right].
      split; [done|]. unfold flag_le, flag_leb in Hfg. by destruct (flag_compare f g). }
  apply is_sorted_spec in Hsort.
  set (c := foldl _ _ _) in *.
  destruct (fast c && nofast c) eqn:E1.
  { exists fl. apply andb_true_iff in E1 as [E1 E1']. rewrite Hf in E1. rewrite Hn in E1'.
    apply bool_decide_eq_true in E1, E1'. auto 8. }
  destruct (fast c && bool_decide (is_Some (fast_alternative c))) eqn:E2.
  { exists fl. apply andb_true_iff in E2 as [E2 E2']. rewrite Hf in E2.
    apply bool_decide_eq_true in E2, E2'. rewrite Ha, alternative_passed in E2'. auto 8. }
  destruct (no_side_effects c && reentrant c) eqn:E3.
  { exists fl. apply andb_true_iff in E3 as [E3 E3']. rewrite Hs in E3. rewrite Hr in E3'.
    apply bool_decide_eq_true in E3, E3'. auto 8. }
  exists fl. rewrite Hf, Hn in E1. rewrite Hf, Ha in E2. rewrite Hs, Hr in E3.
  unfold passes in *. rewrite andb_false_iff, !bool_decide_eq_false in E1, E2, E3.
  rewrite alternative_passed in E2. pose proof (fold_means fl).
  assert (Sorted (λ f g, alphabetical_le f g ∨ misplaced f g) fl).
  { clear -Hsort. induction Hsort as [|f l Hs IH Hh]; constructor; [done|].
    destruct Hh as [|g l Hfg]; constructor. by apply flag_le_alphabetical. }
  naive_solver.
Qed.
End meaning.

(** * The order of the flags *)

Section order.
Context {path tokens : Type} `{!Tokens path tokens}.

Definition alphabetical : list (@Flags path) → Prop := Sorted alphabetical_le.

(** Flags in alphabetical order may be refused, and flags out of it accepted. *)
Lemma order_not_alphabetical :
  alphabetical [StackTrace; StaticMethod] ∧
  from_metas [mkMeta (tokens:=tokens) "stack_trace" None; mkMeta "static_method" None] = Err (NotSorted) ∧
  ¬ alphabetical [Symbol "f"; PromiseId] ∧ Sorted (flag_le (tokens:=tokens)) [Symbol "f"; PromiseId].
Proof.
  split_and!.
  - by repeat constructor.
  - done.
  - intros Hs. inversion Hs as [|?? _ Hh]. by inversion Hh.
  - by repeat constructor.
Qed.

(** A name of [symbol] always wins over a name of [rename]. *)
Lemma symbol_renames fl c s t :
  from_metas (path:=path) (tokens:=tokens) fl = Ok c →
  mapM parse_flag fl = Some [Rename s; Symbol t] → rename c = Some t ∧ symbol c = true.
Proof.
  intros Hc Hfl. unfold from_metas in Hc. rewrite read_flags_fold, Hfl in Hc. simpl in Hc.
  repeat case_match; simplify_eq. done.
Qed.
End order.

(** * An instance: tokens that are their own texts *)

#[local] Instance text_tokens : Tokens string string := {
  segments := λ _, 1;
  path_text := id;
  parse_ident := Some;
  parse_type := Some;
  parse_int := λ s, match s with "1" => Some 1%N | "256" => Some 256%N | _ => None end;
  parse_str := Some;
  parse_path := Some;
}.

Example config_of_fast_alternative :
  (λ r, match r with Ok c => Some (fast c, fast_alternative c, reentrant c) | Err _ => None end)
    (from_metas [mkMeta "fast" (Some "op_generic :: < T >"); mkMeta "reentrant" None])
  = Some (false, Some "op_generic::<T>", true).
Proof. vm_compute. reflexivity. Qed.

Example config_refusals :
  from_metas [mkMeta "fast" None; mkMeta "nofast" None] = Err (InvalidAttributeCombination "fast" "nofast") ∧
  from_metas [mkMeta "fast" None; mkMeta "fast" (Some "f")] = Err (InvalidAttributeCombination "fast" "fast(...)") ∧
  from_metas [mkMeta "required" (Some "256")] = Err ParseError ∧
  from_metas [mkMeta "nofast" (Some "x")] = Err ParseError.
Proof. vm_compute. auto. Qed.
