(* ===== verification/Op2Signature.v ===== *)
(** [ops/op2/signature.rs], [signature_retval.rs]: from the signature of a Rust function to
    the arguments and the return value of an op.

    The syntax trees are those of [syn], as far as the code looks into them.  What [syn],
    [quote] and [syn_match] do is a parameter ([Syn]): printing, parsing the text of an
    attribute, and which arm of a [path_match!] a path takes.  Spans are left out: they
    only say where an error is shown. *)

From S2P Require Import Prelude.

Local Open Scope string_scope.

(** * Syntax trees *)

#[local] Unset Elimination Schemes.
Inductive type :=
  | Tuple (elems : list type)
  | Reference (mutable : bool) (elem : type)
  | TPtr (mutable : bool) (elem : type)
  | TSlice (elem : type)
  | TPath (qself : option type) (p : path)
  | ImplTrait (bounds : list type_bound)
  | OtherType
with path := Path (first : segment) (rest : list segment)  (** [syn] parses no empty path *)
with segment := Segment (ident : string) (arguments : path_arguments)
with path_arguments := NoArguments | AngleBracketed (args : list generic_argument) | Parenthesized
with generic_argument :=
  | GLifetime (name : string)
  | GType (t : type)
  | AssocType (ident : string) (t : type)
  | OtherArgument
with type_bound :=
  | Lifetime (name : string)
  | Trait (p : path)
  | Verbatim
  | OtherBound.
#[local] Set Elimination Schemes.

Definition first_segment (p : path) : segment := let 'Path s _ := p in s.
Definition last_segment (p : path) : segment := let 'Path s l := p in List.last l s.
Definition seg_ident (s : segment) : string := let 'Segment i _ := s in i.
Definition seg_arguments (s : segment) : path_arguments := let 'Segment _ a := s in a.

(** * Arguments *)

Inductive NumericArg := SMI | VOID | bool_ | i8 | u8 | i16 | u16 | i32 | u32 | i64 | u64 | f32 | f64 | isize | usize.

Inductive V8Arg :=
  | Value | External_ | Object | Array | ArrayBuffer_ | ArrayBufferView | DataView | TypedArray_
  | BigInt64Array | BigUint64Array | Float32Array | Float64Array | Int16Array | Int32Array
  | Int8Array | Uint16Array | Uint32Array | Uint8Array | Uint8ClampedArray | BigIntObject
  | BooleanObject | Date | Function_ | Map | NumberObject | Promise | PromiseResolver | Proxy
  | RegExp | Set_ | SharedArrayBuffer | StringObject | SymbolObject | WasmModuleObject
  | Primitive | BigInt | Boolean | Name | String_ | Symbol_ | Number_ | Integer | Int32 | Uint32.

Inductive Special := HandleScope | OpState | JsRuntimeState | FastApiCallbackOptions | Isolate.
Inductive Strings := RString | CowStr | RefStr | CowByte.
Inductive RefType := Ref | Mut.
Inductive NumericFlag := NoFlag | NumberFlag.
Inductive StringMode := StringDefault | OneByte.
Inductive BufferMode := Default | Unsafe | Copy | Detach.
Inductive BufferSource := TypedArray | ArrayBuffer | Any.
Inductive Position := PArg | PRetVal.
Inductive External := ExternalPtr (r : RefType).

Inductive BufferType :=
  | Slice (r : RefType) (n : NumericArg)
  | Ptr (r : RefType) (n : NumericArg)
  | BoxSlice (n : NumericArg)
  | Vec (n : NumericArg)
  | Bytes
  | BytesMut
  | V8Slice (n : NumericArg)
  | JsBuffer.

(** A Web IDL option and a default are Rust expressions, kept as texts. *)
Record WebIDLPair := mkPair { pair_key : string; pair_expr : string }.
Record WebIDLArgs := mkWebIDL { default : option string; options : list WebIDLPair }.

Inductive Arg :=
  | Void
  | VoidUndefined
  | ASpecial (s : Special)
  | AString (s : Strings)
  | ABuffer (b : BufferType) (m : BufferMode) (s : BufferSource)
  | AExternal (e : External)
  | ARef (r : RefType) (s : Special)
  | ARc (s : Special)
  | ARcRefCell (s : Special)
  | AOption (s : Special)
  | OptionString (s : Strings)
  | OptionNumeric (n : NumericArg) (f : NumericFlag)
  | OptionBuffer (b : BufferType) (m : BufferMode) (s : BufferSource)
  | OptionV8Local (v : V8Arg)
  | V8Local (v : V8Arg)
  | OptionV8Ref (r : RefType) (v : V8Arg)
  | V8Ref (r : RefType) (v : V8Arg)
  | Numeric (n : NumericArg) (f : NumericFlag)
  | SerdeV8 (t : string)
  | CppGcResource (proto : bool) (t : string)
  | OptionCppGcResource (t : string)
  | CppGcProtochain (l : list string)
  | FromV8 (t : string) (scoped : bool)
  | ToV8 (t : string)
  | WebIDL (t : string) (opts : list WebIDLPair) (default : option string)
  | VarArgs
  | This.

Inductive AttributeModifier :=
  | MSerde
  | MWebIDL (args : WebIDLArgs)
  | MSmi
  | MString (m : StringMode)
  | MBuffer (m : BufferMode) (s : BufferSource)
  | MBigint
  | MNumber
  | MCppGcResource
  | MCppGcProto
  | MIgnore
  | MVarArgs
  | MThis
  | MUndefined
  | MScoped
  | MValidate (p : path).

Global Instance numeric_eq_dec : EqDecision NumericArg. Proof. solve_decision. Defined.
Global Instance v8_arg_eq_dec : EqDecision V8Arg. Proof. solve_decision. Defined.
Global Instance special_eq_dec : EqDecision Special. Proof. solve_decision. Defined.
Global Instance strings_eq_dec : EqDecision Strings. Proof. solve_decision. Defined.
Global Instance ref_type_eq_dec : EqDecision RefType. Proof. solve_decision. Defined.
Global Instance numeric_flag_eq_dec : EqDecision NumericFlag. Proof. solve_decision. Defined.
Global Instance string_mode_eq_dec : EqDecision StringMode. Proof. solve_decision. Defined.
Global Instance buffer_mode_eq_dec : EqDecision BufferMode. Proof. solve_decision. Defined.
Global Instance buffer_source_eq_dec : EqDecision BufferSource. Proof. solve_decision. Defined.
Global Instance external_eq_dec : EqDecision External. Proof. solve_decision. Defined.
Global Instance buffer_type_eq_dec : EqDecision BufferType. Proof. solve_decision. Defined.
Global Instance pair_eq_dec : EqDecision WebIDLPair. Proof. solve_decision. Defined.
Global Instance arg_eq_dec : EqDecision Arg. Proof. solve_decision. Defined.

(** * Tables *)

Definition v8_array_type (n : NumericArg) : option V8Arg :=
  match n with
  | i8 => Some Int8Array | u8 => Some Uint8Array | i16 => Some Int16Array | u16 => Some Uint16Array
  | i32 => Some Int32Array | u32 => Some Uint32Array | i64 => Some BigInt64Array
  | u64 => Some BigUint64Array | f32 => Some Float32Array | f64 => Some Float64Array
  | _ => None
  end.

Definition expand (m : BufferMode) : list AttributeModifier :=
  [MBuffer m TypedArray; MBuffer m ArrayBuffer; MBuffer m Any].

Definition valid_modes (b : BufferType) (position : Position) : list AttributeModifier :=
  match position with
  | PArg =>
      match b with
      | Bytes | BytesMut | Vec _ | BoxSlice _ => expand Copy
      | JsBuffer | V8Slice _ => (expand Copy ++ expand Detach ++ expand Default)%list
      | Slice _ _ | Ptr _ _ => expand Default
      end
  | PRetVal => expand Default
  end.

Definition element (b : BufferType) : NumericArg :=
  match b with
  | Slice _ n | BoxSlice n | Ptr _ n | Vec n | V8Slice n => n
  | Bytes | BytesMut | JsBuffer => u8
  end.

Definition is_virtual (a : Arg) : bool :=
  match a with
  | ASpecial (FastApiCallbackOptions | OpState | JsRuntimeState | HandleScope | Isolate) => true
  | ARef _ (FastApiCallbackOptions | OpState | JsRuntimeState | HandleScope | Isolate) => true
  | ARcRefCell (FastApiCallbackOptions | OpState | JsRuntimeState | HandleScope) => true
  | This | VarArgs => true
  | _ => false
  end.

Definition is_option (a : Arg) : bool :=
  match a with
  | OptionV8Ref _ _ | OptionV8Local _ | OptionNumeric _ _ | AOption _ | OptionString _
  | OptionBuffer _ _ _ | OptionCppGcResource _ => true
  | _ => false
  end.

Definition some_type (a : Arg) : option Arg :=
  match a with
  | OptionV8Ref r t => Some (V8Ref r t)
  | OptionV8Local t => Some (V8Local t)
  | OptionNumeric t flag => Some (Numeric t flag)
  | AOption t => Some (ASpecial t)
  | OptionString t => Some (AString t)
  | OptionBuffer t m s => Some (ABuffer t m s)
  | OptionCppGcResource t => Some (CppGcResource false t)
  | _ => None
  end.

Inductive ArgSlowRetval := RNone | RetVal_ | RetValFallible | RV8Local | V8LocalNoScope | V8LocalFalliable.

(** [slow_retval] of a type that is not an option. *)
Definition slow_retval_of (a : Arg) : ArgSlowRetval :=
  match a with
  | Numeric (i64 | u64 | isize | usize) NoFlag => RV8Local
  | Numeric (i64 | u64 | isize | usize) NumberFlag => RetVal_
  | VoidUndefined => V8LocalNoScope
  | Void | Numeric _ _ => RetVal_
  | AExternal _ => RV8Local
  | AString _ => RetValFallible
  | SerdeV8 _ | ToV8 _ => V8LocalFalliable
  | V8Local _ => V8LocalNoScope
  | ABuffer _ _ ArrayBuffer => RV8Local
  | ABuffer _ _ TypedArray => V8LocalFalliable
  | OptionBuffer _ _ ArrayBuffer => RV8Local
  | OptionBuffer _ _ TypedArray => V8LocalFalliable
  | CppGcResource _ _ | CppGcProtochain _ => RV8Local
  | _ => RNone
  end.

Definition slow_retval (a : Arg) : ArgSlowRetval :=
  match some_type a with
  | Some some => match slow_retval_of some with V8LocalNoScope => RetVal_ | rv => rv end
  | None => slow_retval_of a
  end.

Inductive ArgMarker := KNone | KSerde | KSmi | KNumber | KArrayBuffer | KCppgc | KToV8 | KUndefined.

Definition marker (a : Arg) : ArgMarker :=
  match a with
  | ABuffer _ _ ArrayBuffer | OptionBuffer _ _ ArrayBuffer => KArrayBuffer
  | SerdeV8 _ => KSerde
  | Numeric SMI _ => KSmi
  | Numeric _ NumberFlag => KNumber
  | CppGcProtochain _ | CppGcResource _ _ | OptionCppGcResource _ => KCppgc
  | ToV8 _ => KToV8
  | VoidUndefined => KUndefined
  | _ => KNone
  end.

(** * Errors *)

Inductive AttributeError := InvalidAttribute | InvalidInnerAttribute.

Inductive ArgError :=
  | InvalidType (what : string)
  | InvalidNumericType
  | InvalidSmiType
  | InvalidReference
  | MissingReference
  | InvalidSerdeType (what : string)
  | InvalidAttributeType (name : string)
  | InvalidNumberAttributeType
  | InvalidV8Type
  | MissingAttribute (name : string)
  | AttributeError_ (e : AttributeError)
  | NotAllowedInThisPosition
  | InvalidDenoCorePrefix (next instead : string)
  | ExpectedCppGcReference (t : string)
  | InvalidCppGcType
  | InvalidAttributePosition (name position : string).

Inductive RetError := RInvalidType (e : ArgError) | RAttributeError (e : AttributeError).

Inductive SignatureError :=
  | SArgError (name : string) (e : ArgError)
  | SRetError (e : RetError)
  | GenericBoundCardinality
  | WherePredicateMustAppearInGenerics
  | DuplicateGeneric (name : string)
  | LifetimesMayNotHaveBounds
  | InvalidWherePredicate
  | InvalidMultipleJsRuntimeState (arg : nat)
  | InvalidMetaAttribute.

Definition modifier_name (m : AttributeModifier) : string :=
  match m with
  | MBigint => "bigint" | MNumber => "number" | MBuffer _ _ => "buffer" | MSmi => "smi"
  | MSerde => "serde" | MWebIDL _ => "webidl" | MString _ => "string" | MCppGcResource => "cppgc"
  | MCppGcProto => "proto" | MIgnore => "ignore" | MVarArgs => "varargs" | MThis => "this"
  | MUndefined => "undefined" | MScoped => "scoped" | MValidate _ => "validate"
  end.

(** [PartialEq] of modifiers, as far as the lists of [required_attributes] need it: these
    hold no [webidl] and no [validate]. *)
Definition modifier_eqb (a b : AttributeModifier) : bool :=
  match a, b with
  | MString m, MString m' => bool_decide (m = m')
  | MBuffer m s, MBuffer m' s' => bool_decide (m = m' ∧ s = s')
  | MBigint, MBigint | MNumber, MNumber | MScoped, MScoped => true
  | _, _ => false
  end.

Record Attributes := mkAttributes { primary : option AttributeModifier; rest : list AttributeModifier }.

Definition no_attributes : Attributes := mkAttributes None [].
Definition string_attributes : Attributes := mkAttributes (Some (MString StringDefault)) [].

Definition is_scoped (a : Attributes) : bool :=
  match primary a with Some MScoped => true | _ => false end.

(** * Parsed types *)

Inductive ParsedType :=
  | TSpecial (s : Special)
  | TString (s : Strings)
  | TBuffer (b : BufferType)
  | TV8 (v : V8Arg)
  | TV8Mut (v : V8Arg)
  | TNumeric (n : NumericArg).

Inductive ParsedTypeContainer :=
  | CBare (t : ParsedType)
  | COption (t : ParsedType)
  | CRc (t : ParsedType)
  | CRcRefCell (t : ParsedType)
  | COptionV8Local (t : ParsedType)
  | CV8Local (t : ParsedType)
  | CUnknown (t : type) (slow : bool).

(** [None]: no attribute is valid; [Some []]: the type is not valid here. *)
Definition type_attributes (t : ParsedType) (position : Position) : option (list AttributeModifier) :=
  match t with
  | TNumeric (u64 | i64 | usize | isize) => Some [MBigint; MNumber]
  | TBuffer buffer => Some (valid_modes buffer position)
  | TString CowByte => Some [MString OneByte]
  | TString _ => Some [MString StringDefault]
  | _ => None
  end.

Definition required_attributes (c : ParsedTypeContainer) (position : Position) : option (list AttributeModifier) :=
  match c with
  | CV8Local _ | COptionV8Local _ | CUnknown _ false => None
  | CUnknown _ true => Some [MScoped]
  | CBare t | COption t | CRcRefCell t | CRc t => type_attributes t position
  end.

Definition validate_attributes (c : ParsedTypeContainer) (position : Position) (attrs : Attributes)
    : result unit ArgError :=
  match required_attributes c position with
  | None =>
      match primary attrs with
      | None => Ok tt
      | Some attr => Err (InvalidAttributeType (modifier_name attr))
      end
  | Some [] => Err NotAllowedInThisPosition
  | Some ((a :: _) as attr) =>
      match primary attrs with
      | None => Err (MissingAttribute (modifier_name a))
      | Some p => if existsb (modifier_eqb p) attr then Ok tt else Err (MissingAttribute (modifier_name a))
      end
  end.

(** * Attributes *)

Inductive meta (tokens : Type) := MetaPath | MetaList (t : tokens) | MetaNameValue.
Arguments MetaPath {tokens}.
Arguments MetaList {tokens} t.
Arguments MetaNameValue {tokens}.

(** The identifier is that of the path of the attribute, when it is one. *)
Record Attribute (tokens : Type) := mkAttr {
  inner : bool;
  attr_ident : option string;
  attr_meta : meta tokens;
}.
Arguments mkAttr {tokens} inner attr_ident attr_meta.
Arguments inner {tokens} a.
Arguments attr_ident {tokens} a.
Arguments attr_meta {tokens} a.

(** The arms of the [path_match!] of [parse_type_path], in their order, with what they bind. *)
Inductive arm :=
  | ArmString | ArmStr | ArmCowStr | ArmCowByte
  | ArmVec (ty : path)
  | ArmBox (ty : type)
  | ArmV8Slice (ty : path)
  | ArmJsBuffer | ArmBytes | ArmBytesMut | ArmOpState | ArmJsRuntimeState | ArmIsolate
  | ArmPinScope | ArmFastApiCallbackOptions
  | ArmLocal (v8 : segment)
  | ArmGlobal
  | ArmV8 (v8 : segment)
  | ArmRcRefCell (ty : generic_argument)
  | ArmRc (ty : generic_argument)
  | ArmOption (ty : generic_argument)
  | ArmDenoCore (next : segment) (any : option segment)
  | ArmOther.

Class Syn (tokens : Type) := {
  arg_ident : tokens → option string;          (** [parse_args::<Ident>()] *)
  arg_path : tokens → option path;
  arg_webidl : tokens → option WebIDLArgs;
  arg_metadata : tokens → option (list (string * string));
  path_arm : path → arm;
  is_c_void : path → bool;                     (** the pattern [std?::ffi?::c_void] *)
  text_type : type → string;                   (** [stringify_token] *)
  text_path : path → string;
  text_segment : segment → string;
}.

Section parser.
Context {tokens : Type} `{!Syn tokens}.
Local Abbreviation attribute := (Attribute tokens).

Definition parse_buffer_mode (m : meta tokens) : result BufferMode AttributeError :=
  match m with
  | MetaPath => Ok Default
  | MetaList t =>
      match arg_ident t with
      | Some i =>
          if decide (i = "unsafe") then Ok Unsafe
          else if decide (i = "copy") then Ok Copy
          else if decide (i = "detach") then Ok Detach
          else Err InvalidAttribute
      | None => Err InvalidAttribute
      end
  | MetaNameValue => Err InvalidAttribute
  end.

Definition parse_string_mode (m : meta tokens) : result StringMode AttributeError :=
  match m with
  | MetaPath => Ok StringDefault
  | MetaList t => if decide (arg_ident t = Some "onebyte") then Ok OneByte else Err InvalidAttribute
  | MetaNameValue => Err InvalidAttribute
  end.

Definition buffer_modifier (m : meta tokens) (s : BufferSource) : result (option AttributeModifier) AttributeError :=
  match parse_buffer_mode m with Ok mode => Ok (Some (MBuffer mode s)) | Err e => Err e end.

Definition ignored_names : list string :=
  ["required"; "rename"; "method"; "getter"; "setter"; "fast"; "async_method"; "static_method";
   "constructor"; "meta"].

Definition parse_attribute (attr : attribute) : result (option AttributeModifier) AttributeError :=
  if inner attr then Err InvalidInnerAttribute
  else match attr_ident attr with
  | None => Ok None
  | Some i =>
      if decide (i = "bigint") then Ok (Some MBigint)
      else if decide (i = "number") then Ok (Some MNumber)
      else if decide (i = "undefined") then Ok (Some MUndefined)
      else if decide (i = "serde") then Ok (Some MSerde)
      else if decide (i = "smi") then Ok (Some MSmi)
      else if decide (i = "this") then Ok (Some MThis)
      else if decide (i = "cppgc") then Ok (Some MCppGcResource)
      else if decide (i = "proto") then Ok (Some MCppGcProto)
      else if decide (i = "varargs") then Ok (Some MVarArgs)
      else if decide (i = "scoped") then Ok (Some MScoped)
      else if decide (i = "validate") then
        match attr_meta attr with
        | MetaList t => match arg_path t with Some p => Ok (Some (MValidate p)) | None => Err InvalidAttribute end
        | _ => Err InvalidAttribute
        end
      else if decide (i = "webidl") then
        match attr_meta attr with
        | MetaPath => Ok (Some (MWebIDL (mkWebIDL None [])))
        | MetaList t => match arg_webidl t with Some a => Ok (Some (MWebIDL a)) | None => Err InvalidAttribute end
        | MetaNameValue => Err InvalidAttribute
        end
      else if decide (i = "string") then
        match parse_string_mode (attr_meta attr) with Ok m => Ok (Some (MString m)) | Err e => Err e end
      else if decide (i = "buffer") then buffer_modifier (attr_meta attr) TypedArray
      else if decide (i = "anybuffer") then buffer_modifier (attr_meta attr) Any
      else if decide (i = "arraybuffer") then buffer_modifier (attr_meta attr) ArrayBuffer
      else if decide (i ∈ ignored_names) then Ok (Some MIgnore)
      else if decide (i ∈ ["allow"; "doc"; "cfg"]) then Ok None
      else Err InvalidAttribute
  end.

Definition is_attribute_special (attr : attribute) : bool :=
  match parse_attribute attr with
  | Ok (Some MIgnore) | Ok (Some (MValidate _)) | Ok None | Err _ => bool_decide (attr_ident attr = Some "meta")
  | Ok (Some _) => true
  end.

(** The loop of [parse_attributes]. *)
Fixpoint collect_attributes (attributes : list attribute) : result (list AttributeModifier) AttributeError :=
  match attributes with
  | [] => Ok []
  | attr :: attributes' =>
      match parse_attribute attr with
      | Err e => Err e
      | Ok (None | Some MIgnore) => collect_attributes attributes'
      | Ok (Some m) => match collect_attributes attributes' with Ok l => Ok (m :: l) | Err e => Err e end
      end
  end.

Definition attributes_of (attrs : list AttributeModifier) : Attributes :=
  match attrs with
  | [MValidate _] => mkAttributes None attrs
  | _ => mkAttributes (last attrs) (removelast attrs)
  end.

Definition parse_attributes (attributes : list attribute) : result Attributes AttributeError :=
  match collect_attributes attributes with Ok l => Ok (attributes_of l) | Err e => Err e end.

(** * Types *)

Definition numeric_names : list (string * NumericArg) :=
  [("__SMI__", SMI); ("__VOID__", VOID); ("bool", bool_); ("i8", i8); ("u8", u8); ("i16", i16);
   ("u16", u16); ("i32", i32); ("u32", u32); ("i64", i64); ("u64", u64); ("f32", f32); ("f64", f64);
   ("isize", isize); ("usize", usize)].

Definition v8_names : list (string * V8Arg) :=
  [("Value", Value); ("External", External_); ("Object", Object); ("Array", Array);
   ("ArrayBuffer", ArrayBuffer_); ("ArrayBufferView", ArrayBufferView); ("DataView", DataView);
   ("TypedArray", TypedArray_); ("BigInt64Array", BigInt64Array); ("BigUint64Array", BigUint64Array);
   ("Float32Array", Float32Array); ("Float64Array", Float64Array); ("Int16Array", Int16Array);
   ("Int32Array", Int32Array); ("Int8Array", Int8Array); ("Uint16Array", Uint16Array);
   ("Uint32Array", Uint32Array); ("Uint8Array", Uint8Array); ("Uint8ClampedArray", Uint8ClampedArray);
   ("BigIntObject", BigIntObject); ("BooleanObject", BooleanObject); ("Date", Date);
   ("Function", Function_); ("Map", Map); ("NumberObject", NumberObject); ("Promise", Promise);
   ("PromiseResolver", PromiseResolver); ("Proxy", Proxy); ("RegExp", RegExp); ("Set", Set_);
   ("SharedArrayBuffer", SharedArrayBuffer); ("StringObject", StringObject);
   ("SymbolObject", SymbolObject); ("WasmModuleObject", WasmModuleObject); ("Primitive", Primitive);
   ("BigInt", BigInt); ("Boolean", Boolean); ("Name", Name); ("String", String_); ("Symbol", Symbol_);
   ("Number", Number_); ("Integer", Integer); ("Int32", Int32); ("Uint32", Uint32)].

Fixpoint find_name {A} (s : string) (l : list (string * A)) : option A :=
  match l with
  | [] => None
  | (n, a) :: l' => if decide (n = s) then Some a else find_name s l'
  end.

Definition parse_numeric_type (tp : path) : result NumericArg ArgError :=
  let by_name := match tp with Path s [] => find_name (seg_ident s) numeric_names | _ => None end in
  match by_name with
  | Some n => Ok n
  | None => if is_c_void tp then Ok VOID else Err InvalidNumericType
  end.

Definition parse_v8_type (v8 : segment) : result V8Arg ArgError :=
  match find_name (seg_ident v8) v8_names with Some v => Ok v | None => Err InvalidV8Type end.

(** The functions on types may also panic. *)
Definition parsed (A : Type) : Type := outcome (result A ArgError).

Definition pbind {A B} (m : parsed A) (k : A → parsed B) : parsed B :=
  match m with Panic f => Panic f | Ret (Err e) => Ret (Err e) | Ret (Ok a) => k a end.

Definition pure {A} (r : result A ArgError) : parsed A := Ret r.
Definition pok {A} (a : A) : parsed A := Ret (Ok a).
Definition pfail {A} (e : ArgError) : parsed A := Ret (Err e).

(** [map_err(|_| e)]. *)
Definition or_fail {A} (m : parsed A) (e : ArgError) : parsed A :=
  match m with Ret (Err _) => Ret (Err e) | _ => m end.

Local Notation "'let*' x ':=' m 'in' k" := (pbind m (λ x, k)) (at level 10, x name, m at level 100, k at level 200).

Inductive TypePathContext := CtxNone | CtxRef | CtxPtr.

Global Instance ctx_eq_dec : EqDecision TypePathContext.
Proof. solve_decision. Defined.

Definition from_parsed (p : ParsedTypeContainer) (position : Position) (attr : Attributes) : parsed Arg :=
  let buffer (k : BufferMode → BufferSource → Arg) :=
    match primary attr with
    | Some (MBuffer m s) => pok (k m s)
    | _ => pfail (MissingAttribute "buffer")
    end in
  match p with
  | CBare (TNumeric n) => pok (Numeric n NoFlag)
  | CBare (TSpecial s) => pok (ASpecial s)
  | CBare (TString s) => pok (AString s)
  | CBare (TBuffer b) => buffer (ABuffer b)
  | COption (TNumeric n) => pok (OptionNumeric n NoFlag)
  | COption (TSpecial s) => pok (AOption s)
  | COption (TString s) => pok (OptionString s)
  | COption (TBuffer b) => buffer (OptionBuffer b)
  | CRc (TSpecial s) => pok (ARc s)
  | CRcRefCell (TSpecial s) => pok (ARcRefCell s)
  | COptionV8Local (TV8 v) => pok (OptionV8Local v)
  | COption (TV8 v) => pok (OptionV8Ref Ref v)
  | COption (TV8Mut v) => pok (OptionV8Ref Mut v)
  | CV8Local (TV8 v) => pok (V8Local v)
  | CUnknown t slow =>
      match position with PArg => pok (FromV8 (text_type t) slow) | PRetVal => pok (ToV8 (text_type t)) end
  | _ => Panic Unreachable
  end.

(** [Option<T>], from what [T] parses to. *)
Definition option_container (tp : type) (attrs : Attributes) (a : Arg) : ParsedTypeContainer :=
  match a with
  | ASpecial s => COption (TSpecial s)
  | AString s => COption (TString s)
  | Numeric n _ => COption (TNumeric n)
  | ABuffer b _ _ => COption (TBuffer b)
  | V8Ref Ref v => COption (TV8 v)
  | V8Ref Mut v => COption (TV8Mut v)
  | V8Local v => COptionV8Local (TV8 v)
  | _ => CUnknown tp (is_scoped attrs)
  end.

(** The last part of [parse_type_path]: is there a reference where one must be? *)
Definition check_reference (c : ParsedTypeContainer) (ctx : TypePathContext) : result unit ArgError :=
  match c with
  | CBare (TSpecial (OpState | JsRuntimeState)) => Ok tt
  | CBare (TSpecial Isolate) | CBare (TString RefStr | TSpecial HandleScope | TV8 _) =>
      if decide (ctx = CtxRef) then Ok tt else Err MissingReference
  | _ => if decide (ctx = CtxRef) then Err InvalidReference else Ok tt
  end.

Section recursion.
(** [parse_type] for the types inside. *)
Variable parse_inner : Position → Attributes → type → parsed Arg.

Definition parse_type_special (position : Position) (attrs : Attributes) (ty : generic_argument) : parsed Special :=
  match ty with
  | GType t =>
      let* a := parse_inner position attrs t in
      match a with ASpecial s => pok s | _ => pfail (InvalidType "for special type") end
  | _ => pfail (InvalidType "for special type")
  end.

(** The [path_match!] of [parse_type_path]. *)
Definition parse_arm (position : Position) (attrs : Attributes) (tp : type) (a : arm) : parsed ParsedTypeContainer :=
  let numeric (k : NumericArg → BufferType) (p : path) : parsed ParsedTypeContainer :=
    let* n := pure (parse_numeric_type p) in pok (CBare (TBuffer (k n))) in
  match a with
  | ArmString => pok (CBare (TString RString))
  | ArmStr => pok (CBare (TString RefStr))
  | ArmCowStr => pok (CBare (TString CowStr))
  | ArmCowByte => pok (CBare (TString CowByte))
  | ArmVec ty =>
      match primary attrs with
      | Some (MBuffer _ _) => numeric Vec ty
      | None | Some MScoped => pok (CUnknown tp (is_scoped attrs))
      | _ => pfail (InvalidAttributeType "buffer")
      end
  | ArmBox (TPath _ p) => numeric BoxSlice p
  | ArmBox _ => pfail InvalidNumericType
  | ArmV8Slice ty => numeric V8Slice ty
  | ArmJsBuffer => pok (CBare (TBuffer JsBuffer))
  | ArmBytes => pok (CBare (TBuffer Bytes))
  | ArmBytesMut => pok (CBare (TBuffer BytesMut))
  | ArmOpState => pok (CBare (TSpecial OpState))
  | ArmJsRuntimeState => pok (CBare (TSpecial JsRuntimeState))
  | ArmIsolate => pok (CBare (TSpecial Isolate))
  | ArmPinScope => pok (CBare (TSpecial HandleScope))
  | ArmFastApiCallbackOptions => pok (CBare (TSpecial FastApiCallbackOptions))
  | ArmLocal v8 => let* v := pure (parse_v8_type v8) in pok (CV8Local (TV8 v))
  | ArmGlobal => pok (CUnknown tp (is_scoped attrs))
  | ArmV8 v8 => let* v := pure (parse_v8_type v8) in pok (CBare (TV8 v))
  | ArmRcRefCell ty => let* s := parse_type_special position attrs ty in pok (CRcRefCell (TSpecial s))
  | ArmRc ty => let* s := parse_type_special position attrs ty in pok (CRc (TSpecial s))
  | ArmOption (GType t) => let* a := parse_inner position attrs t in pok (option_container tp attrs a)
  | ArmOption _ => pfail (InvalidType "for option")
  | ArmDenoCore next any =>
      let next := text_segment next in
      pfail (InvalidDenoCorePrefix next
        (next ++ match any with Some s => "::" ++ text_segment s | None => "" end))
  | ArmOther => pok (CUnknown tp (is_scoped attrs))
  end.

Definition parse_type_path (position : Position) (attrs : Attributes) (ctx : TypePathContext)
    (qself : option type) (tp : path) : parsed ParsedTypeContainer :=
  let* res := match parse_numeric_type tp with
              | Ok n => pok (CBare (TNumeric n))
              | Err _ => parse_arm position attrs (TPath qself tp) (path_arm tp)
              end in
  let* _ := pure (check_reference res ctx) in
  let* _ := (if decide (ctx = CtxPtr) then pok tt else pure (validate_attributes res position attrs)) in
  pok res.

Definition parse_cppgc (position : Position) (ty : type) (proto : bool) : result Arg ArgError :=
  match position, ty with
  | PArg, Reference false (TPath _ p) => Ok (CppGcResource proto (text_path p))
  | PArg, Reference false _ => Err InvalidCppGcType
  | PArg, TPath _ p =>
      match first_segment p with
      | Segment i (AngleBracketed (GType t :: _)) =>
          if decide (i = "Option") then
            match t with
            | Reference false (TPath _ p') => Ok (OptionCppGcResource (text_path p'))
            | Reference false _ => Err InvalidCppGcType
            | _ => Err (ExpectedCppGcReference (text_type t))
            end
          else Err (ExpectedCppGcReference (text_type ty))
      | _ => Err (ExpectedCppGcReference (text_type ty))
      end
  | PArg, _ => Err (ExpectedCppGcReference (text_type ty))
  | PRetVal, TPath _ p =>
      match first_segment p with
      | Segment i (AngleBracketed (GType (TPath _ p') :: _)) =>
          if decide (i = "Option") then Ok (OptionCppGcResource (text_path p'))
          else Ok (CppGcResource proto (text_path p))
      | _ => Ok (CppGcResource proto (text_path p))
      end
  | PRetVal, Tuple [TPath _ sup; TPath _ p] => Ok (CppGcProtochain [text_path sup; text_path p])
  | PRetVal, _ => Err InvalidCppGcType
  end.

(** Would the type parse without an attribute, or with [#[string]]? *)
Definition better_alternative_exists (position : Position) (qself : option type) (p : path) : outcome bool :=
  match parse_type_path position no_attributes CtxNone qself p with
  | Panic f => Panic f
  | Ret (Ok (CBare _ | COption _ | CRc _ | CRcRefCell _ | COptionV8Local _ | CV8Local _)) => Ret true
  | _ =>
      match parse_type_path position string_attributes CtxNone qself p with
      | Panic f => Panic f
      | Ret (Ok _) => Ret true
      | Ret (Err _) => Ret false
      end
  end.

(** A bare [Value], or [Value<'a>]. *)
Definition ambiguous_value (p : path) : bool :=
  match first_segment p with
  | Segment i a =>
      bool_decide (i = "Value") &&
      match a with NoArguments => true | AngleBracketed (GLifetime _ :: _) => true | _ => false end
  end.

(** [#[serde]] and [#[webidl]]. *)
Definition parse_converted (position : Position) (ty : type) (primary : AttributeModifier)
    (make_arg : string → Arg) : parsed Arg :=
  let webidl := match primary with MWebIDL _ => true | _ => false end in
  match ty with
  | Tuple _ => pok (make_arg (text_type ty))
  | TPath qself p =>
      match (if webidl then Ret false else better_alternative_exists position qself p) with
      | Panic f => Panic f
      | Ret true => pfail (InvalidAttributeType (modifier_name primary))
      | Ret false =>
          if ambiguous_value p then
            match primary with
            | MSerde => pfail (InvalidSerdeType "a fully-qualified type: v8::Value or serde_json::Value")
            | _ => pfail (InvalidAttributeType (modifier_name primary))
            end
          else pok (make_arg (text_path p))
      end
  | _ => pfail (InvalidAttributeType (modifier_name primary))
  end.

Definition parse_number (position : Position) (attrs : Attributes) (ty : type) : parsed Arg :=
  match ty with
  | TPath qself p =>
      let* c := parse_type_path position attrs CtxNone qself p in
      match c with
      | COption (TNumeric ((u64 | usize | i64 | isize) as n)) => pok (OptionNumeric n NumberFlag)
      | CBare (TNumeric ((u64 | usize | i64 | isize) as n)) => pok (Numeric n NumberFlag)
      | _ => pfail InvalidNumberAttributeType
      end
  | _ => pfail InvalidNumberAttributeType
  end.

Definition parse_smi (ty : type) : result Arg ArgError :=
  match ty with
  | TPath _ p =>
      if decide (seg_ident (first_segment p) = "Option") then Ok (OptionNumeric SMI NoFlag)
      else Ok (Numeric SMI NoFlag)
  | _ => Err InvalidSmiType
  end.

Definition ref_type (mutable : bool) : RefType := if mutable then Mut else Ref.

(** [parse_type] when the attribute leaves it to the type. *)
Definition parse_reference (position : Position) (attrs : Attributes) (mutable : bool) (elem : type) : parsed Arg :=
  match elem with
  | TSlice (TPath _ p) =>
      let* n := pure (parse_numeric_type p) in
      match n with
      | VOID => pok (AExternal (ExternalPtr (ref_type mutable)))
      | _ =>
          let res := CBare (TBuffer (Slice (ref_type mutable) n)) in
          let* _ := pure (validate_attributes res position attrs) in
          or_fail (from_parsed res position attrs) (InvalidType "for slice")
      end
  | TSlice _ => pfail (InvalidType "for slice")
  | TPath qself p =>
      let* c := parse_type_path position attrs CtxRef qself p in
      match c with
      | CBare (TString RefStr) => pok (AString RefStr)
      | COption (TString RefStr) => pok (OptionString RefStr)
      | CBare (TV8 v) => pok (V8Ref (ref_type mutable) v)
      | CBare (TSpecial s) => pok (ARef (ref_type mutable) s)
      | _ => pfail (InvalidType "for reference path")
      end
  | _ => pfail (InvalidType "for reference")
  end.

Definition parse_pointer (position : Position) (attrs : Attributes) (mutable : bool) (elem : type) : parsed Arg :=
  match elem with
  | TPath qself p =>
      let* c := parse_type_path position attrs CtxPtr qself p in
      match c with
      | CBare (TNumeric VOID) => pok (AExternal (ExternalPtr (ref_type mutable)))
      | CBare (TNumeric n) =>
          let res := CBare (TBuffer (Ptr (ref_type mutable) n)) in
          let* _ := pure (validate_attributes res position attrs) in
          or_fail (from_parsed res position attrs) (InvalidType "for numeric pointer")
      | CBare (TSpecial Isolate) => pok (ASpecial Isolate)
      | _ => pfail (InvalidType "for pointer to type path")
      end
  | _ => pfail (InvalidType "for pointer")
  end.

Definition parse_plain (position : Position) (attrs : Attributes) (ty : type) : parsed Arg :=
  match ty with
  | Tuple [] => pok Void
  | Tuple _ =>
      match position with
      | PArg => pok (FromV8 (text_type ty) (is_scoped attrs))
      | PRetVal => pok (ToV8 (text_type ty))
      end
  | Reference mutable elem => parse_reference position attrs mutable elem
  | TPtr mutable elem => parse_pointer position attrs mutable elem
  | TPath qself p =>
      let* c := parse_type_path position attrs CtxNone qself p in
      match c with
      | CBare (TSpecial Isolate) => pok (ASpecial Isolate)
      | _ => or_fail (from_parsed c position attrs) (InvalidType "for path")
      end
  | _ => pfail (InvalidType "for top-level type")
  end.

Definition parse_type_with (position : Position) (attrs : Attributes) (ty : type) : parsed Arg :=
  match primary attrs with
  | Some (MIgnore | MValidate _) => Panic Unreachable
  | Some MUndefined =>
      match position with
      | PArg => pfail (InvalidAttributePosition "undefined" "return value")
      | PRetVal => pok VoidUndefined
      end
  | Some MVarArgs =>
      match position with
      | PRetVal => pfail (InvalidAttributePosition "varargs" "argument")
      | PArg => pok VarArgs
      end
  | Some MCppGcResource => pure (parse_cppgc position ty false)
  | Some MCppGcProto => pure (parse_cppgc position ty true)
  | Some MSerde => parse_converted position ty MSerde SerdeV8
  | Some (MWebIDL a as m) => parse_converted position ty m (λ s, WebIDL s (options a) (default a))
  | Some MThis =>
      match position with
      | PRetVal => pfail (InvalidAttributePosition "this" "argument")
      | PArg => pok This
      end
  | Some MNumber => parse_number position attrs ty
  | Some MSmi => pure (parse_smi ty)
  | None | Some (MString _ | MBuffer _ _ | MScoped | MBigint) => parse_plain position attrs ty
  end.
End recursion.

(** Fuel bounds the nesting of types. *)
Fixpoint parse_type (fuel : nat) (position : Position) (attrs : Attributes) (ty : type) : parsed Arg :=
  match fuel with
  | O => Panic OutOfFuel
  | S fuel' => parse_type_with (parse_type fuel') position attrs ty
  end.
End parser.
