(* ===== verification/Op2SignatureLaws.v ===== *)
(** What the parser of op signatures promises: it ends, panics in one case only, and accepts
    an argument only with the attribute that its type asks for. *)

From S2P Require Import Prelude Op2Signature.

Local Open Scope string_scope.

(** * The nesting of types *)

Fixpoint depth (t : type) : nat :=
  match t with
  | Tuple l => S (max_list (map depth l))
  | Reference _ t | TPtr _ t | TSlice t => S (depth t)
  | TPath q p => S (from_option depth 0 q + path_depth p)
  | ImplTrait l => S (max_list (map bound_depth l))
  | OtherType => 0
  end
with path_depth (p : path) : nat :=
  match p with Path s l => S (max (segment_depth s) (max_list (map segment_depth l))) end
with segment_depth (s : segment) : nat :=
  match s with Segment _ a => arguments_depth a end
with arguments_depth (a : path_arguments) : nat :=
  match a with AngleBracketed l => S (max_list (map argument_depth l)) | _ => 0 end
with argument_depth (g : generic_argument) : nat :=
  match g with GType t | AssocType _ t => S (depth t) | _ => 0 end
with bound_depth (b : type_bound) : nat :=
  match b with Trait p => S (path_depth p) | _ => 0 end.

Definition arm_type (a : arm) : option type :=
  match a with ArmRcRefCell (GType t) | ArmRc (GType t) | ArmOption (GType t) => Some t | _ => None end.

(** A pattern binds parts of the path. *)
Class SynLaws (tokens : Type) `{!Syn tokens} :=
  arm_part : ∀ p t, arm_type (path_arm p) = Some t → depth t < path_depth p.

Section laws.
Context {tokens : Type} `{!Syn tokens}.

Lemma pbind_returns {A B} (m : parsed A) (k : A → parsed B) :
  returns m → (∀ a, m = pok a → returns (k a)) → returns (pbind m k).
Proof. intros [[a|e] ->] Hk; simpl; [by apply Hk | by eexists]. Qed.

Lemma pbind_Ok {A B} (m : parsed A) (k : A → parsed B) b :
  pbind m k = Ret (Ok b) → ∃ a, m = pok a ∧ k a = Ret (Ok b).
Proof. destruct m as [[a|e]|f]; simpl; [by eauto | done..]. Qed.

Lemma returns_Ret {A} (r : result A ArgError) : returns (Ret r).
Proof. by eexists. Qed.
Lemma returns_pure {A} (r : result A ArgError) : returns (pure r).
Proof. by eexists. Qed.
Lemma returns_pok {A} (a : A) : returns (pok a).
Proof. by eexists. Qed.
Lemma returns_pfail {A} e : returns (pfail (A:=A) e).
Proof. by eexists. Qed.
Lemma returns_or_fail {A} (m : parsed A) e : returns m → returns (or_fail m e).
Proof. intros [[a|e'] ->]; by eexists. Qed.
Lemma or_fail_Ok {A} (m : parsed A) e a : or_fail m e = Ret (Ok a) → m = Ret (Ok a).
Proof. by destruct m as [[]|]. Qed.

#[local] Arguments pbind : simpl never.
#[local] Arguments from_parsed : simpl never.

(** The containers that [parse_type_path] makes. *)
Definition container_ok (attrs : Attributes) (c : ParsedTypeContainer) : Prop :=
  match c with
  | CBare (TV8Mut _) => False
  | CBare _ | COption _ => True
  | CRc (TSpecial _) | CRcRefCell (TSpecial _) => True
  | COptionV8Local (TV8 _) | CV8Local (TV8 _) => True
  | CUnknown _ slow => slow = is_scoped attrs
  | _ => False
  end.

Ltac parse_steps :=
  repeat first
    [ match goal with
      | H : pbind _ _ = Ret (Ok _) |- _ => apply pbind_Ok in H as (? & ? & ?)
      | H : pok _ = _ |- _ => unfold pok in H
      | H : pfail _ = _ |- _ => unfold pfail in H
      | H : pure _ = _ |- _ => unfold pure in H
      | H : Ret (Ok _) = Ret (Ok _) |- _ => injection H as H
      | H : Ret (Err _) = Ret (Ok _) |- _ => discriminate H
      | H : Panic _ = Ret _ |- _ => discriminate H
      end
    | progress simplify_eq/= ].

Section one_level.
Variable parse_inner : Position → Attributes → type → parsed Arg.

Lemma parse_arm_ok position attrs q p c :
  parse_arm parse_inner position attrs (TPath q p) (path_arm p) = Ret (Ok c) → container_ok attrs c.
Proof.
  intros Hc. destruct (path_arm p) as [ | | | |?|[]|?| | | | | | | | |?| |?|?|?|[]|? []|];
    simpl in Hc; unfold option_container, parse_type_special in Hc; repeat case_match; parse_steps;
    by repeat case_match.
Qed.

Lemma parse_type_path_ok position attrs ctx q p c :
  parse_type_path parse_inner position attrs ctx q p = Ret (Ok c) →
  container_ok attrs c ∧ check_reference c ctx = Ok tt ∧
  (ctx = CtxPtr ∨ validate_attributes c position attrs = Ok tt).
Proof.
  intros Hc. unfold parse_type_path in Hc.
  apply pbind_Ok in Hc as (res & Hres & Hc). apply pbind_Ok in Hc as ([] & Href & Hc).
  apply pbind_Ok in Hc as ([] & Hval & Hc). unfold pok, pure in *. simplify_eq. split_and!; [|done|].
  - destruct (parse_numeric_type p); simplify_eq; [done | by eapply parse_arm_ok].
  - case_decide; [by left | right]. by simplify_eq.
Qed.

(** When the types inside parse without a panic, so do types around them. *)
Definition inner_returns (attrs : Attributes) (p : path) : Prop :=
  ∀ position t, arm_type (path_arm p) = Some t → returns (parse_inner position attrs t).

Create HintDb op2 discriminated.
#[local] Hint Resolve returns_Ret returns_pure returns_pok returns_pfail : op2.

Lemma parse_type_path_returns position attrs ctx q p :
  inner_returns attrs p → returns (parse_type_path parse_inner position attrs ctx q p).
Proof.
  intros Hin. unfold parse_type_path. apply pbind_returns; [|intros c _].
  - destruct (parse_numeric_type p); [auto with op2|].
    destruct (path_arm p) as [ | | | |?|[]|?| | | | | | | | |?| |?|[]|[]|[]|? []|] eqn:Harm; simpl;
      repeat case_match; simpl; auto with op2.
    all: repeat (apply pbind_returns; [auto with op2; try (apply Hin; by rewrite Harm) | intros]);
      repeat case_match; auto with op2.
  - apply pbind_returns; [auto with op2 | intros _ _].
    apply pbind_returns; [case_decide; auto with op2 | intros _ _; auto with op2].
Qed.

Lemma from_parsed_returns attrs c position :
  container_ok attrs c → (∀ v, c ≠ CBare (TV8 v)) → returns (from_parsed c position attrs).
Proof.
  intros Hc Hv. unfold from_parsed. repeat case_match; simplify_eq/=; auto with op2; try done; naive_solver.
Qed.

(** Of the modifiers that [parse_type] is given, [ignore] is dropped and a [validate] comes
    with another one. *)
Definition usable (attrs : Attributes) : bool :=
  match primary attrs with Some (MIgnore | MValidate _) => false | _ => true end.

(** The path whose arguments [parse_type] looks into. *)
Fixpoint type_path (t : type) : option path :=
  match t with
  | TPath _ p => Some p
  | Reference _ t | TPtr _ t => type_path t
  | _ => None
  end.

Lemma parse_converted_returns position ty m make :
  (∀ attrs p, usable attrs = true → type_path ty = Some p → inner_returns attrs p) →
  returns (parse_converted parse_inner position ty m make).
Proof.
  intros Hin. unfold parse_converted, better_alternative_exists.
  destruct ty as [| | | |q p| |]; auto with op2.
  destruct (parse_type_path_returns position no_attributes CtxNone q p ltac:(by apply Hin)) as [r1 ->].
  destruct (parse_type_path_returns position string_attributes CtxNone q p ltac:(by apply Hin)) as [r2 ->].
  repeat case_match; simplify_eq; auto with op2.
Qed.

Lemma buffer_returns b position attrs e :
  returns (pbind (pure (validate_attributes (CBare (TBuffer b)) position attrs))
    (λ _, or_fail (from_parsed (CBare (TBuffer b)) position attrs) e)).
Proof.
  apply pbind_returns; [auto with op2 | intros _ _].
  apply returns_or_fail. unfold from_parsed. repeat case_match; auto with op2.
Qed.
#[local] Hint Resolve buffer_returns : op2.

Lemma parse_reference_returns position attrs m elem :
  (∀ p, type_path elem = Some p → inner_returns attrs p) →
  returns (parse_reference parse_inner position attrs m elem).
Proof.
  intros Hin. destruct elem as [| | |[| | | |? p| |]|q p| |]; simpl; auto with op2.
  - apply pbind_returns; [auto with op2 | intros n _]. destruct n; auto with op2.
  - apply pbind_returns; [by apply parse_type_path_returns, Hin | intros c _].
    repeat case_match; auto with op2.
Qed.

Lemma parse_pointer_returns position attrs m elem :
  (∀ p, type_path elem = Some p → inner_returns attrs p) →
  returns (parse_pointer parse_inner position attrs m elem).
Proof.
  intros Hin. destruct elem as [| | | |q p| |]; simpl; auto with op2.
  apply pbind_returns; [by apply parse_type_path_returns, Hin | intros c _].
  destruct c as [[[]| | | | |[]]| | | | | |]; auto with op2.
Qed.

Lemma parse_plain_returns position attrs ty :
  (∀ p, type_path ty = Some p → inner_returns attrs p) →
  returns (parse_plain parse_inner position attrs ty).
Proof.
  intros Hin. destruct ty as [[]|m elem|m elem| |q p| |]; simpl; auto with op2.
  - destruct position; auto with op2.
  - apply parse_reference_returns. intros p Hp. by apply Hin.
  - apply parse_pointer_returns. intros p Hp. by apply Hin.
  - apply pbind_returns; [by apply parse_type_path_returns, Hin | intros c Hc].
    apply parse_type_path_ok in Hc as (Hok & Href & _).
    assert (returns (or_fail (from_parsed c position attrs) (InvalidType "for path"))).
    { apply returns_or_fail, from_parsed_returns; [done|]. by intros v ->. }
    destruct c as [[[]| | | | |]| | | | | |]; auto with op2.
Qed.

Lemma parse_type_with_returns position attrs ty :
  (∀ attrs' p, usable attrs' = true → type_path ty = Some p → inner_returns attrs' p) →
  usable attrs = true → returns (parse_type_with parse_inner position attrs ty).
Proof.
  intros Hin Hu. unfold parse_type_with, usable in *. destruct (primary attrs) as [m|] eqn:Hm.
  2:{ apply parse_plain_returns. intros p. apply Hin. by rewrite Hm. }
  destruct m; try done; try (case_match; auto with op2; fail);
    try (apply parse_converted_returns, Hin); try (apply returns_pure).
  all: try (apply parse_plain_returns; intros; apply Hin; [by rewrite Hm | done]).
  unfold parse_number. destruct ty as [| | | |q p| |]; auto with op2.
  apply pbind_returns; [|intros; repeat case_match; auto with op2].
  apply parse_type_path_returns, Hin; [by rewrite Hm | done].
Qed.
End one_level.

(** * The end *)

Section agreement.
Variables f g : Position → Attributes → type → parsed Arg.

Definition agree_on (attrs : Attributes) (p : path) : Prop :=
  ∀ position t, arm_type (path_arm p) = Some t → f position attrs t = g position attrs t.

Lemma parse_type_path_agree position attrs ctx q p :
  agree_on attrs p → parse_type_path f position attrs ctx q p = parse_type_path g position attrs ctx q p.
Proof.
  intros Hfg. unfold parse_type_path.
  destruct (parse_numeric_type p); [done|]. f_equal.
  destruct (path_arm p) as [ | | | |?|[]|?| | | | | | | | |?| |?|[]|[]|[]|? []|] eqn:Harm; simpl; try done.
  all: by rewrite (Hfg position t ltac:(by rewrite Harm)).
Qed.

Lemma parse_type_with_agree position attrs ty :
  (∀ attrs' p, type_path ty = Some p → agree_on attrs' p) →
  parse_type_with f position attrs ty = parse_type_with g position attrs ty.
Proof.
  intros Hfg.
  assert (∀ attrs' ctx q p, type_path ty = Some p →
    parse_type_path f position attrs' ctx q p = parse_type_path g position attrs' ctx q p) as Hp.
  { intros. by apply parse_type_path_agree, Hfg. }
  assert (parse_plain f position attrs ty = parse_plain g position attrs ty) as Hplain.
  { destruct ty as [|m [| | |[]| | |]|m []| |q p| |]; simpl; try done; by rewrite Hp. }
  assert (∀ m k, parse_converted f position ty m k = parse_converted g position ty m k) as Hconv.
  { intros. unfold parse_converted, better_alternative_exists. destruct ty; try done. by rewrite !Hp. }
  assert (parse_number f position attrs ty = parse_number g position attrs ty) as Hnum.
  { unfold parse_number. destruct ty; try done. by rewrite !Hp. }
  unfold parse_type_with. destruct (primary attrs) as [[]|]; by rewrite ?Hplain, ?Hconv, ?Hnum.
Qed.
End agreement.

Context `{!SynLaws tokens}.

Lemma type_path_depth ty p : type_path ty = Some p → path_depth p < depth ty.
Proof.
  revert p. induction ty as [ty IH] using (induction_ltof1 _ depth). unfold ltof in IH.
  intros p. destruct ty; simpl; try done.
  - intros Hp. apply IH in Hp; simpl; lia.
  - intros Hp. apply IH in Hp; simpl; lia.
  - intros [= ->]. lia.
Qed.

Lemma parse_type_returns fuel position attrs ty :
  depth ty < fuel → usable attrs = true → returns (parse_type fuel position attrs ty).
Proof.
  revert position attrs ty. induction fuel as [|fuel IH]; intros position attrs ty Hd Hu; [lia|].
  simpl. apply parse_type_with_returns; [|done].
  intros attrs' p Hu' Hp position' t Ht. apply IH; [|done].
  apply type_path_depth in Hp. apply arm_part in Ht. lia.
Qed.

Lemma parse_type_fuel fuel fuel' position attrs ty :
  depth ty < fuel → depth ty < fuel' →
  parse_type fuel position attrs ty = parse_type fuel' position attrs ty.
Proof.
  revert fuel' position attrs ty. induction fuel as [|fuel IH]; intros [|fuel'] position attrs ty Hd Hd'; try lia.
  simpl. apply parse_type_with_agree.
  intros attrs' p Hp position' t Ht. apply type_path_depth in Hp. apply arm_part in Ht. apply IH; lia.
Qed.

Lemma collect_no_ignore attributes ms :
  collect_attributes attributes = Ok ms → MIgnore ∉ ms.
Proof.
  revert ms. induction attributes as [|a l IH]; intros ms Hc; simpl in Hc.
  { injection Hc as <-. apply not_elem_of_nil. }
  destruct (parse_attribute a) as [[m|]|]; [|by apply IH | done].
  assert (m = MIgnore ∨ m ≠ MIgnore) as [->|Hm] by (destruct m; first [left; reflexivity | right; discriminate]); [by apply IH|].
  assert (∃ ms', ms = m :: ms' ∧ collect_attributes l = Ok ms') as (ms' & -> & Hl).
  { destruct (collect_attributes l) eqn:?; destruct m; simplify_eq; eauto; done. }
  rewrite not_elem_of_cons. split; [by intros <- | by apply IH].
Qed.

(** Two or more modifiers, the last of which is a [validate]. *)
Definition ends_in_validate (attributes : list (Attribute tokens)) : Prop :=
  ∃ ms m p, collect_attributes attributes = Ok (ms ++ [m; MValidate p])%list.

Lemma attributes_usable attributes attrs :
  parse_attributes attributes = Ok attrs →
  if usable attrs then ¬ ends_in_validate attributes else ends_in_validate attributes.
Proof.
  unfold parse_attributes, ends_in_validate.
  destruct (collect_attributes attributes) as [ms|] eqn:Hc; [|done]. intros [= <-].
  apply collect_no_ignore in Hc as Hi.
  destruct ms as [|m ms _] using rev_ind; [by intros ([]&?&?&?)|].
  assert (ms = [] ∧ (∃ p, m = MValidate p) ∨ attributes_of (ms ++ [m])%list = mkAttributes (Some m) ms)
    as [[-> [p ->]]|Heq].
  { unfold attributes_of. rewrite last_snoc, removelast_last.
    destruct ms as [|m' [|? ms]]; simpl; [|destruct m'; eauto|destruct m'; eauto].
    destruct m; eauto. }
  - intros (ms & m & q & Hx). by destruct ms as [|? []].
  - rewrite Heq. unfold usable. simpl. destruct m as [| | | | | | | | | | | | | |p].
    15:{ destruct ms as [|m' ms _] using rev_ind; [done|]. exists ms, m', p. by rewrite <- app_assoc. }
    10:{ exfalso. apply Hi. apply elem_of_app. right. apply elem_of_cons. by left. }
    all: intros (ms' & m' & q & Hx); injection Hx as Hx.
    all: change [m'; MValidate q] with ([m'] ++ [MValidate q])%list in Hx; rewrite app_assoc in Hx.
    all: by apply app_inj_tail in Hx as [_ ?].
Qed.

(** C27. The type of every argument and return value parses, however deep it is nested: with
    fuel above its depth the answer does not depend on the fuel.  The only panic is the
    [unreachable!] that a [#[validate]] behind another attribute reaches; that of
    [from_parsed] is never reached. *)
Theorem op_types_parse attributes attrs position ty fuel :
  parse_attributes attributes = Ok attrs → depth ty < fuel →
  match parse_type fuel position attrs ty with
  | Ret r => ¬ ends_in_validate attributes ∧
      ∀ fuel', depth ty < fuel' → parse_type fuel' position attrs ty = Ret r
  | Panic f => f = Unreachable ∧ ends_in_validate attributes
  end.
Proof.
  intros Ha Hd. apply attributes_usable in Ha as Hu. destruct (usable attrs) eqn:E.
  - destruct (parse_type_returns fuel position attrs ty Hd E) as [r Hr]. rewrite Hr.
    split; [done|]. intros fuel' Hd'. by rewrite <- Hr, (parse_type_fuel fuel' fuel).
  - destruct fuel as [|fuel]; [lia|]. simpl. unfold parse_type_with, usable in *.
    by destruct (primary attrs) as [[]|].
Qed.

(** * Attributes and types *)

Definition wide (n : NumericArg) : bool :=
  match n with u64 | i64 | usize | isize => true | _ => false end.

Definition string_mode (s : Strings) : StringMode :=
  match s with CowByte => OneByte | _ => StringDefault end.

(** The attributes with which [parse_type] goes by the type alone. *)
Definition left_to_type (attrs : Attributes) : Prop :=
  match primary attrs with
  | None | Some (MString _ | MBuffer _ _ | MScoped | MBigint) => True
  | _ => False
  end.

(** The attribute that an argument or a return value must have been declared with. *)
Definition declared (position : Position) (attrs : Attributes) (a : Arg) : Prop :=
  match a with
  | Void | AExternal _ => left_to_type attrs
  | VoidUndefined => position = PRetVal ∧ primary attrs = Some MUndefined
  | ABuffer b m s | OptionBuffer b m s =>
      primary attrs = Some (MBuffer m s) ∧ MBuffer m s ∈ valid_modes b position
  | AString s | OptionString s => primary attrs = Some (MString (string_mode s))
  | Numeric n NoFlag | OptionNumeric n NoFlag =>
      (n = SMI ∧ primary attrs = Some MSmi) ∨ primary attrs = (if wide n then Some MBigint else None)
  | Numeric n NumberFlag | OptionNumeric n NumberFlag => wide n = true ∧ primary attrs = Some MNumber
  | ASpecial s => primary attrs = None ∨ (s = Isolate ∧ left_to_type attrs)
  | ARef _ _ | ARc _ | ARcRefCell _ | AOption _ => primary attrs = None
  | V8Local _ | OptionV8Local _ | V8Ref _ _ | OptionV8Ref _ _ => primary attrs = None
  | SerdeV8 _ => primary attrs = Some MSerde
  | WebIDL _ o d => primary attrs = Some (MWebIDL (mkWebIDL d o))
  | CppGcResource proto _ => primary attrs = Some (if proto then MCppGcProto else MCppGcResource)
  | OptionCppGcResource _ => primary attrs = Some MCppGcProto ∨ primary attrs = Some MCppGcResource
  | CppGcProtochain _ =>
      position = PRetVal ∧ (primary attrs = Some MCppGcProto ∨ primary attrs = Some MCppGcResource)
  | FromV8 _ scoped => position = PArg ∧ left_to_type attrs ∧ scoped = is_scoped attrs
  | ToV8 _ => position = PRetVal ∧ left_to_type attrs
  | VarArgs => position = PArg ∧ primary attrs = Some MVarArgs
  | This => position = PArg ∧ primary attrs = Some MThis
  end.

Lemma modifier_eqb_eq a b : modifier_eqb a b = true → a = b.
Proof.
  destruct a, b; simpl; try done; intros H%bool_decide_eq_true.
  - by subst.
  - by destruct H as [-> ->].
Qed.

(** A type that passes [validate_attributes] was given one of its attributes. *)
Lemma validate_attributes_Ok c position attrs :
  validate_attributes c position attrs = Ok tt →
  match required_attributes c position with
  | None => primary attrs = None
  | Some l => ∃ m, primary attrs = Some m ∧ m ∈ l
  end.
Proof.
  unfold validate_attributes. destruct (required_attributes c position) as [[|a l]|]; [done| |].
  2:{ by destruct (primary attrs). }
  destruct (primary attrs) as [m|]; [|done]. destruct (existsb _ _) eqn:E; [|done]. intros _.
  apply existsb_exists in E as (m' & Hin & ->%modifier_eqb_eq).
  exists m'. split; [done|]. apply list_elem_of_In. exact Hin.
Qed.

Lemma buffer_declared position attrs b e a :
  pbind (pure (validate_attributes (CBare (TBuffer b)) position attrs))
    (λ _, or_fail (from_parsed (CBare (TBuffer b)) position attrs) e) = Ret (Ok a) →
  declared position attrs a.
Proof.
  intros Ha. apply pbind_Ok in Ha as ([] & Hv & Ha). unfold pure, pok in Hv. simplify_eq.
  apply validate_attributes_Ok in Hv as (m & Hm & Hin). apply or_fail_Ok in Ha.
  unfold from_parsed, pok, pfail in Ha. rewrite Hm in Ha. destruct m; simplify_eq. simpl. by rewrite Hm.
Qed.

(** What [type_attributes] asks for, by the kind of type. *)
Lemma attributes_of_type t position attrs :
  match type_attributes t position with
  | None => primary attrs = None
  | Some l => ∃ m, primary attrs = Some m ∧ m ∈ l
  end → left_to_type attrs →
  match t with
  | TNumeric n => primary attrs = if wide n then Some MBigint else None
  | TString s => primary attrs = Some (MString (string_mode s))
  | TBuffer b => ∃ m, primary attrs = Some m ∧ m ∈ valid_modes b position
  | _ => primary attrs = None
  end.
Proof.
  unfold left_to_type. destruct t as [s|s|b|v|v|n]; simpl; try done.
  - destruct s; by intros (m & -> & ->%list_elem_of_singleton).
  - destruct n; simpl; try done; intros (m & Hm & Hin); rewrite Hm; intros Hl;
      apply list_elem_of_In in Hin; by destruct Hin as [<-|[<-|[]]].
Qed.

Lemma container_declared position attrs c a :
  container_ok attrs c → validate_attributes c position attrs = Ok tt → left_to_type attrs →
  from_parsed c position attrs = Ret (Ok a) → declared position attrs a.
Proof.
  intros Hok Hv Hl Ha. apply validate_attributes_Ok in Hv. unfold from_parsed, pok, pfail in Ha.
  destruct c as [t|t|t|t|t|t|t slow]; simpl in Hv; try (apply attributes_of_type in Hv; [|done]).
  all: try (destruct t as [s|s|b|v|v|n]; try done;
    first [ destruct Hv as (m & Hm & Hin); rewrite Hm in Ha; destruct m; try done | idtac ];
    injection Ha as <-; simpl; auto; done).
  destruct position; injection Ha as <-; simpl; auto.
Qed.

Section declared.
Variable parse_inner : Position → Attributes → type → parsed Arg.

Lemma parse_reference_declared position attrs m elem a :
  left_to_type attrs → parse_reference parse_inner position attrs m elem = Ret (Ok a) → declared position attrs a.
Proof.
  intros Hl Ha. destruct elem as [| | |[| | | |? p| |]|q p| |]; simpl in Ha; try done.
  - apply pbind_Ok in Ha as (n & _ & Ha).
    destruct n; try (by apply buffer_declared in Ha). unfold pok in Ha. by simplify_eq.
  - apply pbind_Ok in Ha as (c & Hc & Ha).
    apply parse_type_path_ok in Hc as (Hok & Href & [|Hv]); [done|]. apply validate_attributes_Ok in Hv.
    destruct c as [[s|s| |v| |]|[]| | | | |]; try done; unfold pok in Ha; try destruct s; simplify_eq; simpl in *;
      try (destruct Hv as (? & ? & ->%list_elem_of_singleton)); done.
Qed.

Lemma parse_pointer_declared position attrs m elem a :
  left_to_type attrs → parse_pointer parse_inner position attrs m elem = Ret (Ok a) → declared position attrs a.
Proof.
  intros Hl Ha. destruct elem as [| | | |q p| |]; simpl in Ha; try done.
  apply pbind_Ok in Ha as (c & Hc & Ha).
  destruct c as [[s| | | | |n]| | | | | |]; try done; [destruct s|destruct n]; unfold pok, pfail in Ha; simplify_eq;
    try (by apply buffer_declared in Ha); simpl; auto.
Qed.

Lemma parse_plain_declared position attrs ty a :
  left_to_type attrs → parse_plain parse_inner position attrs ty = Ret (Ok a) → declared position attrs a.
Proof.
  intros Hl Ha. destruct ty as [[]|m elem|m elem| |q p| |]; simpl in Ha; try done.
  - unfold pok in Ha. by simplify_eq.
  - destruct position; unfold pok in Ha; by simplify_eq.
  - by eapply parse_reference_declared.
  - by eapply parse_pointer_declared.
  - apply pbind_Ok in Ha as (c & Hc & Ha). apply parse_type_path_ok in Hc as (Hok & Href & [|Hv]); [done|].
    destruct c as [[[]| | | | |]| | | | | |]; try (apply or_fail_Ok in Ha; by eapply container_declared).
    done.
Qed.

Lemma parse_converted_Ok position ty m make a :
  parse_converted parse_inner position ty m make = Ret (Ok a) → ∃ s, a = make s.
Proof.
  unfold parse_converted, pok, pfail. intros Ha. destruct ty; try done; [by simplify_eq; eauto|].
  repeat case_match; simplify_eq; eauto.
Qed.

Lemma parse_number_declared position attrs ty a :
  primary attrs = Some MNumber → parse_number parse_inner position attrs ty = Ret (Ok a) → declared position attrs a.
Proof.
  intros Hm Ha. destruct ty as [| | | |q p| |]; simpl in Ha; try done.
  apply pbind_Ok in Ha as (c & _ & Ha). unfold pok, pfail in Ha.
  destruct c as [[]|[]| | | | |]; try done; destruct n; by simplify_eq.
Qed.

Lemma parse_cppgc_declared (position : Position) attrs (ty : type) (proto : bool) a :
  primary attrs = Some (if proto then MCppGcProto else MCppGcResource) →
  parse_cppgc position ty proto = Ok a → declared position attrs a.
Proof.
  intros Hm Ha. unfold parse_cppgc in Ha.
  assert (primary attrs = Some MCppGcProto ∨ primary attrs = Some MCppGcResource) by (destruct proto; auto).
  repeat case_match; simplify_eq; simpl; auto.
Qed.

Lemma parse_type_with_declared position attrs ty a :
  parse_type_with parse_inner position attrs ty = Ret (Ok a) → declared position attrs a.
Proof.
  intros Ha. unfold parse_type_with in Ha. destruct (primary attrs) as [m|] eqn:Hm.
  2:{ apply parse_plain_declared in Ha; [done|]. unfold left_to_type. by rewrite Hm. }
  destruct m; unfold pok, pfail, pure in Ha; try done.
  all: try (apply parse_plain_declared in Ha; [done | unfold left_to_type; by rewrite Hm]).
  all: try (destruct position; simplify_eq; done).
  all: try (apply parse_converted_Ok in Ha as [s ->]; try destruct args; done).
  - destruct ty; simpl in Ha; try done. case_decide; simplify_eq; simpl; auto.
  - by apply parse_number_declared in Ha.
  - injection Ha as Ha. by eapply parse_cppgc_declared; [|exact Ha].
  - injection Ha as Ha. by eapply parse_cppgc_declared; [|exact Ha].
Qed.
End declared.

Lemma parse_type_declared fuel position attrs ty a :
  parse_type fuel position attrs ty = Ret (Ok a) → declared position attrs a.
Proof. destruct fuel; [done|]. apply parse_type_with_declared. Qed.

(** C28. An op accepts an argument or a return value only with the attribute that its type
    asks for and in a position that this allows: 64-bit integers are declared as BigInts or
    as numbers, strings in their encoding, and buffers in a mode that their type allows,
    which is never [unsafe]. *)
Theorem op_types_declared fuel position attrs ty a :
  parse_type fuel position attrs ty = Ret (Ok a) →
  declared position attrs a ∧ (∀ b s, a ≠ ABuffer b Unsafe s ∧ a ≠ OptionBuffer b Unsafe s).
Proof.
  intros Ha%parse_type_declared. split; [done|].
  assert (∀ b s, MBuffer Unsafe s ∉ valid_modes b position) as Hn.
  { intros b s Hin. apply list_elem_of_In in Hin. by destruct position, b; simpl in Hin; intuition. }
  intros b s. split; intros ->; destruct Ha as [_ Ha]; by apply Hn in Ha.
Qed.
End laws.

(** * An instance, for concrete signatures

    Types are named without their modules, except those of [v8]. *)

Definition name_path (s : string) : path := Path (Segment s NoArguments) [].
Definition named (s : string) : type := TPath None (name_path s).
Definition applied (s : string) (l : list generic_argument) : type :=
  TPath None (Path (Segment s (AngleBracketed l)) []).
Definition v8_type (s : string) : type :=
  TPath None (Path (Segment "v8" NoArguments) [Segment s NoArguments]).

Definition text_arm (p : path) : arm :=
  match p with
  | Path (Segment "String" NoArguments) [] => ArmString
  | Path (Segment "str" NoArguments) [] => ArmStr
  | Path (Segment "Vec" (AngleBracketed [GType (TPath None q)])) [] => ArmVec q
  | Path (Segment "OpState" NoArguments) [] => ArmOpState
  | Path (Segment "JsRuntimeState" NoArguments) [] => ArmJsRuntimeState
  | Path (Segment "JsBuffer" NoArguments) [] => ArmJsBuffer
  | Path (Segment "v8" NoArguments) [Segment "Isolate" NoArguments] => ArmIsolate
  | Path (Segment "v8" NoArguments) [Segment "PinScope" NoArguments] => ArmPinScope
  | Path (Segment "v8" NoArguments) [s] => ArmV8 s
  | Path (Segment "Rc" (AngleBracketed [GType (TPath None (Path (Segment "RefCell" (AngleBracketed [g])) []))])) [] =>
      ArmRcRefCell g
  | Path (Segment "Rc" (AngleBracketed [g])) [] => ArmRc g
  | Path (Segment "Option" (AngleBracketed [g])) [] => ArmOption g
  | _ => ArmOther
  end.

#[local] Instance text_syn : Syn string := {
  arg_ident := Some;
  arg_path := λ s, Some (name_path s);
  arg_webidl := λ _, None;
  arg_metadata := λ s, Some [(s, s)];
  path_arm := text_arm;
  is_c_void := λ p, bool_decide (seg_ident (last_segment p) = "c_void");
  text_type := λ t, match t with TPath _ p => seg_ident (last_segment p) | _ => "()" end;
  text_path := λ p, seg_ident (last_segment p);
  text_segment := seg_ident;
}.

Lemma text_arm_part p t : arm_type (text_arm p) = Some t → depth t < path_depth p.
Proof.
  unfold text_arm. intros Ht. repeat (case_match; simplify_eq/=; try done); lia.
Qed.

#[local] Instance text_syn_laws : SynLaws string := text_arm_part.

Definition attribute_of (s : string) : Attribute string := mkAttr false (Some s) MetaPath.
Definition validate_with (s : string) : Attribute string := mkAttr false (Some "validate") (MetaList s).

Example parsed_types :
  parse_type 9 PArg (mkAttributes (Some (MBuffer Default TypedArray)) []) (Reference true (TSlice (named "u8")))
    = pok (ABuffer (Slice Mut u8) Default TypedArray) ∧
  parse_type 9 PArg no_attributes (applied "Rc" [GType (applied "RefCell" [GType (named "OpState")])])
    = pok (ARcRefCell OpState) ∧
  parse_type 9 PArg no_attributes (named "u64") = pfail (MissingAttribute "bigint") ∧
  parse_type 9 PArg (mkAttributes (Some MNumber) []) (applied "Option" [GType (named "u64")])
    = pok (OptionNumeric u64 NumberFlag) ∧
  parse_type 9 PArg (mkAttributes (Some MSerde) []) (named "String") = pfail (InvalidAttributeType "serde") ∧
  parse_type 9 PArg (mkAttributes (Some (MBuffer Unsafe TypedArray)) []) (Reference false (TSlice (named "u8")))
    = pfail (MissingAttribute "buffer").
Proof. vm_compute. split_and!; reflexivity. Qed.

(** The order of the attributes decides whether the macro panics. *)
Lemma validate_order :
  (parse_attributes [validate_with "f"; attribute_of "smi"] = Ok (mkAttributes (Some MSmi) [MValidate (name_path "f")]) ∧
   parse_type 9 PArg (mkAttributes (Some MSmi) [MValidate (name_path "f")]) (named "u32") = pok (Numeric SMI NoFlag)) ∧
  (parse_attributes [attribute_of "smi"; validate_with "f"] = Ok (mkAttributes (Some (MValidate (name_path "f"))) [MSmi]) ∧
   parse_type 9 PArg (mkAttributes (Some (MValidate (name_path "f"))) [MSmi]) (named "u32") = Panic Unreachable).
Proof. vm_compute. split_and!; reflexivity. Qed.

Lemma op_types_parse_witness :
  parse_attributes [attribute_of "smi"; validate_with "f"] = Ok (mkAttributes (Some (MValidate (name_path "f"))) [MSmi]) ∧
  parse_type 3 PArg (mkAttributes (Some (MValidate (name_path "f"))) [MSmi]) (named "u32") = Panic Unreachable ∧
  ends_in_validate [attribute_of "smi"; validate_with "f"].
Proof.
  split; [vm_compute; reflexivity|]. split; [vm_compute; reflexivity|].
  apply (op_types_parse [attribute_of "smi"; validate_with "f"] (mkAttributes (Some (MValidate (name_path "f"))) [MSmi])
    PArg (named "u32") 3); [vm_compute; reflexivity | vm_compute; lia].
Defined.

Lemma op_types_declared_witness :
  parse_type 9 PRetVal (mkAttributes (Some MBigint) []) (applied "Option" [GType (named "i64")])
    = Ret (Ok (OptionNumeric i64 NoFlag)) ∧
  declared PRetVal (mkAttributes (Some MBigint) []) (OptionNumeric i64 NoFlag).
Proof.
  assert (parse_type 9 PRetVal (mkAttributes (Some MBigint) []) (applied "Option" [GType (named "i64")])
    = Ret (Ok (OptionNumeric i64 NoFlag))) as H by (vm_compute; reflexivity).
  split; [exact H|]. apply (op_types_declared 9 _ _ _ _ H).
Defined.
