(* ===== verification/Op2Generics.v ===== *)
(** [ops/op2/signature.rs], [signature_retval.rs]: generics, return values and whole
    signatures of ops. *)

From S2P Require Import Prelude Op2Signature Op2SignatureLaws.

Local Open Scope string_scope.

(** * Generics *)

Inductive GenericParam :=
  | PLifetime (ident : string) (bounds : list string)
  | PType (ident : string) (bounds : list type_bound)
  | PConst.

Inductive WherePredicate :=
  | WhereType (bounded_ty : type) (bounds : list type_bound)
  | WhereLifetime.

Record Generics := mkGenerics { params : list GenericParam; where_clause : list WherePredicate }.

(** [Path::get_ident]. *)
Definition get_ident (p : path) : option string :=
  match p with Path (Segment i NoArguments) [] => Some i | _ => None end.

Section generics.
Context {tokens : Type} `{!Syn tokens}.

Fixpoint parse_lifetimes (ps : list GenericParam) : result (list string) SignatureError :=
  match ps with
  | [] => Ok []
  | PLifetime i [] :: ps' => match parse_lifetimes ps' with Ok l => Ok (i :: l) | Err e => Err e end
  | PLifetime _ _ :: _ => Err LifetimesMayNotHaveBounds
  | _ :: ps' => parse_lifetimes ps'
  end.

(** The loop of [parse_bound]. *)
Fixpoint bound_loop (bounds : list type_bound) (has_static_lifetime : bool) (bound : option string)
    : result (bool * option string) SignatureError :=
  match bounds with
  | [] => Ok (has_static_lifetime, bound)
  | Lifetime lt :: bounds' =>
      if decide (lt ≠ "static") then Err InvalidWherePredicate
      else if has_static_lifetime then Err InvalidWherePredicate
      else bound_loop bounds' true bound
  | Trait t :: bounds' =>
      match bound with
      | Some _ => Err InvalidWherePredicate
      | None => bound_loop bounds' has_static_lifetime (Some (text_path t))
      end
  | _ => Err InvalidWherePredicate
  end.

Definition parse_bound (bounds : list type_bound) : result string SignatureError :=
  match bound_loop bounds false None with
  | Err e => Err e
  | Ok (_, None) => Err InvalidWherePredicate
  | Ok (has_static_lifetime, Some bound) =>
      Ok (if has_static_lifetime then bound ++ " + 'static" else bound)
  end.

(** A predicate of the form [T: bounds]. *)
Definition simple_predicate (p : WherePredicate) : option (string * list type_bound) :=
  match p with
  | WhereType (TPath _ q) (b :: bs) => i ← get_ident q; Some (i, b :: bs)
  | _ => None
  end.

Fixpoint collect_where (ps : list WherePredicate) (where_clauses : gmap string string)
    : result (gmap string string) SignatureError :=
  match ps with
  | [] => Ok where_clauses
  | p :: ps' =>
      match simple_predicate p with
      | None => Err InvalidWherePredicate
      | Some (ident, bounds) =>
          match parse_bound bounds with
          | Err e => Err e
          | Ok bound =>
              match where_clauses !! ident with
              | Some _ => Err (DuplicateGeneric ident)
              | None => collect_where ps' (<[ident := bound]> where_clauses)
              end
          end
      end
  end.

(** The bound of a parameter, and the predicates that are left. *)
Definition param_bound (name : string) (bounds : list type_bound) (where_clauses : gmap string string)
    : result (string * gmap string string) SignatureError :=
  match bounds with
  | _ :: _ =>
      match where_clauses !! name with
      | Some _ => Err GenericBoundCardinality
      | None => match parse_bound bounds with Ok b => Ok (b, where_clauses) | Err e => Err e end
      end
  | [] =>
      match where_clauses !! name with
      | None => Err GenericBoundCardinality
      | Some bound => Ok (bound, delete name where_clauses)
      end
  end.

Fixpoint params_loop (ps : list GenericParam) (where_clauses res : gmap string string)
    : result (gmap string string * gmap string string) SignatureError :=
  match ps with
  | [] => Ok (where_clauses, res)
  | PType name bounds :: ps' =>
      match param_bound name bounds where_clauses with
      | Err e => Err e
      | Ok (bound, where_clauses') =>
          match res !! name with
          | Some _ => Err (DuplicateGeneric name)
          | None => params_loop ps' where_clauses' (<[name := bound]> res)
          end
      end
  | _ :: ps' => params_loop ps' where_clauses res
  end.

Definition parse_generics (g : Generics) : result (gmap string string) SignatureError :=
  match collect_where (where_clause g) ∅ with
  | Err e => Err e
  | Ok where_clauses =>
      match params_loop (params g) where_clauses ∅ with
      | Err e => Err e
      | Ok (unused, res) =>
          if decide (unused = ∅) then Ok res else Err WherePredicateMustAppearInGenerics
      end
  end.

(** ** Laws *)

(** The type parameters, with the bounds that stand with them. *)
Definition type_params (g : Generics) : list (string * list type_bound) :=
  omap (λ p, match p with PType n bs => Some (n, bs) | _ => None end) (params g).

Definition predicate_bound (p : WherePredicate) (w : string * string) : Prop :=
  ∃ bs, simple_predicate p = Some (w.1, bs) ∧ parse_bound bs = Ok w.2.

Lemma collect_where_Ok ps m m' :
  collect_where ps m = Ok m' ↔
  ∃ ws, Forall2 predicate_bound ps ws ∧ NoDup ws.*1 ∧ (∀ n, n ∈ ws.*1 → m !! n = None) ∧
    m' = list_to_map ws ∪ m.
Proof.
  revert m. induction ps as [|p ps IH]; intros m; simpl.
  { split.
    - intros [= <-]. exists []. split_and!; [constructor | constructor | by intros ? []%not_elem_of_nil |].
      by rewrite list_to_map_nil, (left_id_L ∅ (∪)).
    - intros (ws & Hf & _ & _ & ->). inversion Hf. by rewrite list_to_map_nil, (left_id_L ∅ (∪)). }
  split.
  - destruct (simple_predicate p) as [[n bs]|] eqn:Hp; [|done].
    destruct (parse_bound bs) as [b|] eqn:Hb; [|done]. destruct (m !! n) eqn:Hm; [done|].
    intros (ws & Hf & Hnd & Hout & ->)%IH. exists ((n, b) :: ws). split_and!.
    + constructor; [|done]. by exists bs.
    + simpl. constructor; [|done]. intros Hin. apply Hout in Hin. by rewrite lookup_insert_eq in Hin.
    + simpl. intros n' [->|Hin]%elem_of_cons; [done|]. apply Hout in Hin.
      by apply lookup_insert_None in Hin as [? _].
    + simpl. rewrite <- insert_union_r; [by rewrite insert_union_l|].
      apply not_elem_of_list_to_map_1. intros Hin. apply Hout in Hin. by rewrite lookup_insert_eq in Hin.
  - intros (ws & Hf & Hnd & Hout & ->). inversion Hf as [|? [n b] ? ws' (bs & Hp & Hb) Hf']; subst. simpl in *.
    apply NoDup_cons in Hnd as [Hn Hnd]. rewrite Hp, Hb, (Hout n); [|apply elem_of_cons; by left].
    apply IH. exists ws'. split_and!; [done | done | |].
    + intros n' Hin. rewrite lookup_insert_ne; [apply Hout, elem_of_cons; by right | by intros ->].
    + rewrite <- insert_union_r; [by rewrite insert_union_l|]. by apply not_elem_of_list_to_map_1.
Qed.

(** The bound that a parameter has, and that it has only this one. *)
Definition one_bound (where_clauses : gmap string string) (p : string * list type_bound) (b : string) : Prop :=
  (p.2 ≠ [] ∧ where_clauses !! p.1 = None ∧ parse_bound p.2 = Ok b) ∨
  (p.2 = [] ∧ where_clauses !! p.1 = Some b).

Lemma param_bound_Ok n bs ws b ws' :
  param_bound n bs ws = Ok (b, ws') ↔ one_bound ws (n, bs) b ∧ ws' = delete n ws.
Proof.
  unfold param_bound, one_bound. simpl. destruct bs as [|b0 bs]; destruct (ws !! n) as [w|] eqn:Hw; simpl.
  - split; [intros [= <- <-]; eauto | intros [[[]|[_ [= ->]]] ->]; done].
  - naive_solver.
  - split; [done | intros [[(_&[=]&_)|[[=] _]] _]].
  - rewrite delete_id by done. destruct (parse_bound (b0 :: bs)); [|naive_solver].
    split; [intros [= <- <-]; eauto | intros [[(_&_&[= ->])|[[=] _]] ->]; done].
Qed.

Abbreviation typed g := (type_params (mkGenerics g [])) (only parsing).

Lemma one_bound_delete n ws ps bs :
  n ∉ ps.*1 → Forall2 (one_bound (delete n ws)) ps bs ↔ Forall2 (one_bound ws) ps bs.
Proof.
  intros Hn. revert bs. induction ps as [|p ps IH]; intros bs.
  { split; intros Hf; inversion Hf; constructor. }
  simpl in Hn. apply not_elem_of_cons in Hn as [Hne Hn].
  assert (∀ b, one_bound (delete n ws) p b ↔ one_bound ws p b) as Hp.
  { intros b. unfold one_bound. by rewrite lookup_delete_ne. }
  split; intros Hf; inversion Hf; subst; constructor; try (by apply Hp); by apply IH.
Qed.

Lemma params_loop_Ok g ws res left_over res' :
  params_loop g ws res = Ok (left_over, res') ↔
  ∃ bs, Forall2 (one_bound ws) (typed g) bs ∧ NoDup (typed g).*1 ∧
    (∀ n, n ∈ (typed g).*1 → res !! n = None) ∧
    left_over = filter (λ kv, kv.1 ∉ (typed g).*1) ws ∧
    res' = list_to_map (zip (typed g).*1 bs) ∪ res.
Proof.
  revert ws res. induction g as [|[n bs|n bs|] g IH]; intros ws res; simpl.
  - unfold type_params. simpl. split.
    + intros [= <- <-]. exists []. split_and!; [constructor | constructor | by intros ? []%not_elem_of_nil | |].
      * symmetry. apply map_filter_id. intros ? ? _. apply not_elem_of_nil.
      * simpl. by rewrite (left_id_L ∅ (∪)).
    + intros (bs & _ & _ & _ & -> & ->). simpl. rewrite (left_id_L ∅ (∪)). f_equal. f_equal.
      symmetry. apply map_filter_id. intros ? ? _. apply not_elem_of_nil.
  - apply IH.
  - change (type_params (mkGenerics (PType n bs :: g) [])) with ((n, bs) :: typed g). simpl.
    assert (filter (λ kv : string * string, kv.1 ∉ n :: (typed g).*1) ws
            = filter (λ kv, kv.1 ∉ (typed g).*1) (delete n ws)) as Hfilter.
    { apply map_eq. intros i. destruct (decide (i = n)) as [->|Hi].
      - rewrite (map_lookup_filter_None_2 _ (delete n ws)); [|left; apply lookup_delete_eq].
        apply map_lookup_filter_None_2. right. intros ? _ Hn. apply Hn, elem_of_cons. by left.
      - apply option_eq. intros x. rewrite !map_lookup_filter_Some, lookup_delete_ne by done. simpl.
        rewrite not_elem_of_cons. naive_solver. }
    split.
    + destruct (param_bound n bs ws) as [[b ws']|] eqn:Hb; [|done].
      apply param_bound_Ok in Hb as [Hone ->]. destruct (res !! n) eqn:Hn; [done|].
      intros (bl & Hf & Hnd & Hout & -> & ->)%IH.
      assert (n ∉ (typed g).*1) as Hnot by (intros Hin; apply Hout in Hin; by rewrite lookup_insert_eq in Hin).
      exists (b :: bl). split_and!.
      * constructor; [done|]. by apply one_bound_delete in Hf.
      * by constructor.
      * intros n' [->|Hin]%elem_of_cons; [done|]. apply Hout in Hin. by apply lookup_insert_None in Hin as [? _].
      * rewrite <- Hfilter. by apply map_filter_ext.
      * simpl. rewrite <- insert_union_r; [by rewrite insert_union_l|].
        apply not_elem_of_list_to_map_1. intros ([x y] & Hx & Hin%elem_of_zip_l)%list_elem_of_fmap.
        simpl in Hx. by subst.
    + intros (bl & Hf & Hnd & Hout & -> & ->). inversion Hf as [|? b ? bl' Hone Hf']; subst.
      apply NoDup_cons in Hnd as [Hnot Hnd].
      rewrite (proj2 (param_bound_Ok n bs ws b (delete n ws)) (conj Hone eq_refl)).
      rewrite (Hout n); [|apply elem_of_cons; by left]. apply IH. exists bl'. split_and!.
      * by apply one_bound_delete.
      * done.
      * intros n' Hin. rewrite lookup_insert_ne; [apply Hout, elem_of_cons; by right | by intros ->].
      * rewrite <- Hfilter. by apply map_filter_ext.
      * simpl. rewrite <- insert_union_r; [by rewrite insert_union_l|].
        apply not_elem_of_list_to_map_1. intros ([x y] & Hx & Hin%elem_of_zip_l)%list_elem_of_fmap.
        simpl in Hx. by subst.
  - apply IH.
Qed.
Lemma unused_predicates (ws : list (string * string)) (names : list string) :
  filter (λ kv : string * string, kv.1 ∉ names) (list_to_map ws : gmap string string) = ∅ ↔
  ∀ n, n ∈ ws.*1 → n ∈ names.
Proof.
  rewrite map_empty_filter. split.
  - intros Hall n Hn. destruct (decide (n ∈ names)) as [|Hno]; [done|]. exfalso.
    destruct ((list_to_map ws : gmap string string) !! n) as [b|] eqn:E; [by apply (Hall n b)|].
    by apply not_elem_of_list_to_map_2 in E.
  - intros Hall n b Hb Hno. apply Hno, Hall. apply elem_of_list_to_map_2 in Hb.
    apply list_elem_of_fmap. by exists (n, b).
Qed.

(** The generics of an op are accepted exactly when every type parameter is declared
    once and has one bound, either where it is declared or in the [where] clause, and every
    predicate of the [where] clause is the bound of a parameter; the result gives each
    parameter its bound. *)
Lemma generics_have_one_bound g m :
  parse_generics g = Ok m ↔
  ∃ ws bs, Forall2 predicate_bound (where_clause g) ws ∧ NoDup ws.*1 ∧
    NoDup (type_params g).*1 ∧ Forall2 (one_bound (list_to_map ws)) (type_params g) bs ∧
    (∀ n, n ∈ ws.*1 → n ∈ (type_params g).*1) ∧
    m = list_to_map (zip (type_params g).*1 bs).
Proof.
  unfold parse_generics. change (type_params g) with (typed (params g)). split.
  - destruct (collect_where (where_clause g) ∅) as [wc|] eqn:Hw; [|done].
    apply collect_where_Ok in Hw as (ws & Hws & Hnd & _ & ->).
    destruct (params_loop _ _ _) as [[lo res]|] eqn:Hp; [|done].
    apply params_loop_Ok in Hp as (bs & Hf & Hnd' & _ & -> & ->).
    rewrite !(right_id_L ∅ (∪)) in *. case_decide as Hd; [|done]. intros [= <-].
    exists ws, bs. split_and!; try done. by apply unused_predicates.
  - intros (ws & bs & Hws & Hnd & Hnd' & Hf & Hall & ->).
    rewrite (proj2 (collect_where_Ok (where_clause g) ∅ (list_to_map ws))); cycle 1.
    { exists ws. split_and!; try done. by rewrite (right_id_L ∅ (∪)). }
    rewrite (proj2 (params_loop_Ok (params g) (list_to_map ws) ∅
      (filter (λ kv : string * string, kv.1 ∉ (typed (params g)).*1) (list_to_map ws))
      (list_to_map (zip (typed (params g)).*1 bs)))); cycle 1.
    { exists bs. split_and!; try done. by rewrite (right_id_L ∅ (∪)). }
    by rewrite decide_True by (by apply unused_predicates).
Qed.

(** A valid bound is one trait, with ['static] at most once. *)
Lemma parse_bound_Ok bounds s :
  parse_bound bounds = Ok s →
  ∃ t, (bounds = [Trait t] ∧ s = text_path t) ∨
       ((bounds = [Trait t; Lifetime "static"] ∨ bounds = [Lifetime "static"; Trait t]) ∧
        s = text_path t ++ " + 'static").
Proof.
  unfold parse_bound. intros Hs.
  destruct bounds as [|[l|t| |] [|[m|u| |] [|[n|v| |] rest]]]; simpl in Hs;
    repeat (case_decide || case_match); simplify_eq/=; try done;
    repeat match goal with H : ¬ (?x ≠ ?y) |- _ => apply dec_stable in H; subst end; eauto 8.
Qed.
End generics.

(** * Return values *)

Inductive RetVal :=
  | RValue (a : Arg)
  | RResult (r : RetVal)
  | RFuture (r : RetVal).

Fixpoint is_async (r : RetVal) : bool :=
  match r with RValue _ => false | RResult r' => is_async r' | RFuture _ => true end.

Fixpoint get_future (r : RetVal) : option RetVal :=
  match r with RValue _ => None | RResult r' => get_future r' | RFuture r' => Some r' end.

Definition unwrap_result (r : RetVal) : option RetVal :=
  match r with RResult r' => Some r' | _ => None end.

Fixpoint ret_arg (r : RetVal) : Arg :=
  match r with RValue a => a | RResult r' | RFuture r' => ret_arg r' end.

Inductive UnwrappedReturn := UType (t : type) | UResult (t : type) | UFuture (t : type).

(** The bounds that count: lifetimes, traits and what [syn] keeps verbatim. *)
Definition counted_bound (b : type_bound) : bool :=
  match b with OtherBound => false | _ => true end.

Definition unwrap_return (ty : type) : result UnwrappedReturn RetError :=
  match ty with
  | ImplTrait bounds =>
      if decide (1 < length (filter (λ b, counted_bound b = true) bounds)) then
        Err (RInvalidType (InvalidType "for impl trait bounds"))
      else match bounds with
      | Trait t :: _ =>
          match last_segment t with
          | Segment i (AngleBracketed (AssocType o out :: _)) =>
              if decide (i = "Future" ∧ o = "Output") then Ok (UFuture out)
              else Err (RInvalidType (InvalidType "for impl Future"))
          | _ => Err (RInvalidType (InvalidType "for impl Future"))
          end
      | _ => Err (RInvalidType (InvalidType "for impl"))
      end
  | TPath _ p =>
      match last_segment p with
      | Segment i (AngleBracketed (GType t :: _)) => if decide (i = "Result") then Ok (UResult t) else Ok (UType ty)
      | _ => Ok (UType ty)
      end
  | Tuple _ | TPtr _ _ | Reference _ _ => Ok (UType ty)
  | _ => Err (RInvalidType (InvalidType "for return type"))
  end.

Inductive ReturnType := DefaultReturn | ReturnsType (t : type).

Section signature.
Context {tokens : Type} `{!Syn tokens}.

(** Fuel bounds the nesting of the type. *)
Fixpoint handle_type (fuel : nat) (ty : type) (attrs : Attributes) : outcome (result RetVal RetError) :=
  match fuel with
  | O => Panic OutOfFuel
  | S fuel' =>
      match unwrap_return ty with
      | Err e => Ret (Err e)
      | Ok (UType t) =>
          match parse_type fuel PRetVal attrs t with
          | Panic f => Panic f
          | Ret (Err e) => Ret (Err (RInvalidType e))
          | Ret (Ok a) => Ret (Ok (RValue a))
          end
      | Ok (UResult t) =>
          r ← handle_type fuel' t attrs;
          Ret (match r with Ok v => Ok (RResult v) | Err e => Err e end)
      | Ok (UFuture t) =>
          r ← handle_type fuel' t attrs;
          Ret (match r with Ok v => Ok (RFuture v) | Err e => Err e end)
      end
  end.

Definition try_parse (fuel : nat) (is_async : bool) (attrs : Attributes) (rt : ReturnType)
    : outcome (result RetVal RetError) :=
  res ← match rt with
        | DefaultReturn =>
            Ret (Ok (RValue (match primary attrs with Some MUndefined => VoidUndefined | _ => Void end)))
        | ReturnsType t => handle_type fuel t attrs
        end;
  Ret (match res with Ok r => Ok (if is_async then RFuture r else r) | Err e => Err e end).

(** * Signatures *)

Inductive FnArg :=
  | Receiver
  | Typed (pat : option string) (attrs : list (Attribute tokens)) (ty : type).

Record Signature := mkSignature {
  inputs : list FnArg;
  asyncness : bool;
  output : ReturnType;
  generics : Generics;
}.

(** A span is the number of the argument that it covers. *)
Record ParsedSignature := mkParsed {
  sig_args : list (Arg * Attributes);
  arg_spans : list nat;
  ret_val : RetVal;
  lifetimes : list string;
  generic_bounds : gmap string string;
  metadata : gmap string string;
}.

Fixpoint parse_inputs (fuel : nat) (l : list FnArg) (args : list (Arg * Attributes))
    : outcome (result (list (Arg * Attributes)) SignatureError) :=
  match l with
  | [] => Ret (Ok args)
  | Receiver :: l' => parse_inputs fuel l' args
  | Typed pat attributes ty :: l' =>
      let name := from_option id "(complex)" pat in
      match parse_attributes attributes with
      | Err e => Ret (Err (SArgError name (AttributeError_ e)))
      | Ok attrs =>
          match parse_type fuel PArg attrs ty with
          | Panic f => Panic f
          | Ret (Err e) => Ret (Err (SArgError name e))
          | Ret (Ok a) => parse_inputs fuel l' (args ++ [(a, attrs)])%list
          end
      end
  end.

(** The arguments that the check counts. *)
Definition counts_as_runtime_state (a : Arg) : bool :=
  match a with ARef _ JsRuntimeState | ARcRefCell JsRuntimeState => true | _ => false end.

(** The number of such arguments, and the span of the last one if there are several. *)
Fixpoint count_runtime_state (l : list (Arg * Attributes)) (idx count span : nat) : nat * nat :=
  match l with
  | [] => (count, span)
  | (a, _) :: l' =>
      if counts_as_runtime_state a
      then count_runtime_state l' (S idx) (S count) (if decide (1 < S count) then idx else span)
      else count_runtime_state l' (S idx) count span
  end.

Fixpoint parse_metadata (l : list (Attribute tokens)) (m : gmap string string)
    : result (gmap string string) SignatureError :=
  match l with
  | [] => Ok m
  | a :: l' =>
      match attr_meta a, bool_decide (attr_ident a = Some "meta") with
      | MetaList t, true =>
          match arg_metadata t with
          | None => Err InvalidMetaAttribute
          | Some pairs => parse_metadata l' (foldl (λ m p, <[p.1 := p.2]> m) m pairs)
          end
      | _, _ => parse_metadata l' m
      end
  end.

Definition parse_signature (fuel : nat) (attributes : list (Attribute tokens)) (s : Signature)
    : outcome (result ParsedSignature SignatureError) :=
  rargs ← parse_inputs fuel (inputs s) [];
  match rargs with
  | Err e => Ret (Err e)
  | Ok args =>
      match parse_attributes attributes with
      | Err e => Ret (Err (SRetError (RAttributeError e)))
      | Ok attrs =>
          rret ← try_parse fuel (asyncness s) attrs (output s);
          match rret with
          | Err e => Ret (Err (SRetError e))
          | Ok ret =>
              match parse_lifetimes (params (generics s)) with
              | Err e => Ret (Err e)
              | Ok lts =>
                  match parse_generics (generics s) with
                  | Err e => Ret (Err e)
                  | Ok bounds =>
                      let '(count, span) := count_runtime_state args 0 0 0 in
                      if decide (1 < count) then Ret (Err (InvalidMultipleJsRuntimeState span))
                      else match parse_metadata attributes ∅ with
                      | Err e => Ret (Err e)
                      | Ok md => Ret (Ok (mkParsed args (seq 0 (length args)) ret lts bounds md))
                      end
                  end
              end
          end
      end
  end.

(** ** Laws *)

Definition type_of_input (i : FnArg) : option (list (Attribute tokens) * type) :=
  match i with Receiver => None | Typed _ attrs ty => Some (attrs, ty) end.

(** The argument of an input. *)
Definition argument_of (fuel : nat) (i : list (Attribute tokens) * type) (a : Arg * Attributes) : Prop :=
  parse_attributes i.1 = Ok a.2 ∧ parse_type fuel PArg a.2 i.2 = Ret (Ok a.1).

Lemma parse_inputs_Ok fuel l args args' :
  parse_inputs fuel l args = Ret (Ok args') →
  ∃ new, args' = (args ++ new)%list ∧ Forall2 (argument_of fuel) (omap type_of_input l) new.
Proof.
  revert args. induction l as [|[|pat attrs ty] l IH]; intros args Hl; simpl in *.
  - injection Hl as <-. exists []. by rewrite app_nil_r.
  - by apply IH.
  - destruct (parse_attributes attrs) as [at_|] eqn:Ha; [|done].
    destruct (parse_type fuel PArg at_ ty) as [[a|]|] eqn:Ht; [|done..].
    apply IH in Hl as (new & -> & Hf). exists ((a, at_) :: new). split; [by rewrite <- app_assoc|].
    by constructor.
Qed.

Lemma count_runtime_state_spec l idx count span :
  (count_runtime_state l idx count span).1 =
    count + length (filter (λ p, counts_as_runtime_state p.1 = true) l).
Proof.
  revert idx count span. induction l as [|[a at_] l IH]; intros idx count span; simpl; [lia|].
  rewrite filter_cons. destruct (counts_as_runtime_state a) eqn:E; simpl.
  - rewrite IH, decide_True by done. simpl. lia.
  - rewrite IH, decide_False by (simpl; by rewrite E). lia.
Qed.

Lemma handle_type_declared fuel ty attrs r :
  handle_type fuel ty attrs = Ret (Ok r) → declared PRetVal attrs (ret_arg r).
Proof.
  revert ty r. induction fuel as [|fuel IH]; intros ty r; [done|]. cbn [handle_type].
  destruct (unwrap_return ty) as [[t|t|t]|]; [| | |done].
  - destruct (parse_type (S fuel) PRetVal attrs t) as [[a|]|] eqn:Ht; [|done..]. intros [= <-].
    by apply parse_type_declared in Ht.
  - intros (r' & Hr & Heq)%bind_Ret_inv. destruct r'; simplify_eq. by apply IH in Hr.
  - intros (r' & Hr & Heq)%bind_Ret_inv. destruct r'; simplify_eq. by apply IH in Hr.
Qed.

(** What an accepted signature is: every argument and the return value were declared with
    the attribute of their type, and one borrows the state of the runtime at most. *)
Lemma parse_signature_Ok fuel attributes s sig :
  parse_signature fuel attributes s = Ret (Ok sig) →
  Forall2 (argument_of fuel) (omap type_of_input (inputs s)) (sig_args sig) ∧
  Forall (λ a, declared PArg a.2 a.1) (sig_args sig) ∧
  (∃ attrs, parse_attributes attributes = Ok attrs ∧
    (output s = DefaultReturn ∨ declared PRetVal attrs (ret_arg (ret_val sig)))) ∧
  (length (filter (λ a, counts_as_runtime_state a.1 = true) (sig_args sig)) ≤ 1)%nat ∧
  parse_generics (generics s) = Ok (generic_bounds sig).
Proof.
  unfold parse_signature, try_parse. intros (r & Hi & Hs)%bind_Ret_inv.
  destruct r as [args|]; [|done]. apply parse_inputs_Ok in Hi as (new & -> & Hf). simpl in Hs.
  destruct (parse_attributes attributes) as [attrs|] eqn:Ha; [|done].
  apply bind_Ret_inv in Hs as (rr & Hr & Hs).
  apply bind_Ret_inv in Hr as (res & Hres & Hr). injection Hr as Hr.
  destruct rr as [ret|]; [|done].
  destruct (parse_lifetimes _) as [lts|]; [|done]. destruct (parse_generics _) as [m|] eqn:Hg; [|done].
  pose proof (count_runtime_state_spec new 0 0 0) as Hcount.
  destruct (count_runtime_state _ _ _ _) as [count span]. simpl in Hcount. case_decide; [done|].
  destruct (parse_metadata _ _) as [md|]; [|done]. injection Hs as <-. simpl. split_and!.
  - done.
  - eapply Forall2_Forall_r; [exact Hf|]. apply Forall_true. intros i a [_ Ht].
    by apply parse_type_declared in Ht.
  - exists attrs. split; [done|]. destruct (output s) as [|t]; [by left | right].
    destruct res as [r|]; [|done]. apply handle_type_declared in Hres. by destruct (asyncness s); simplify_eq.
  - lia.
  - done.
Qed.
End signature.

(** * Concrete signatures *)

#[local] Existing Instances text_syn text_syn_laws.

Definition arg_named (s : string) (attrs : list (Attribute string)) (t : type) : FnArg (tokens:=string) :=
  Typed (Some s) attrs t.

Definition plain_signature (l : list (FnArg (tokens:=string))) (t : ReturnType) : Signature :=
  mkSignature l false t (mkGenerics [] []).

Example parsed_signature :
  parse_signature 9 [attribute_of "smi"]
    (plain_signature [Receiver; arg_named "id" [attribute_of "smi"] (named "ResourceId");
                      arg_named "state" [] (Reference true (named "OpState"))]
      (ReturnsType (applied "Result" [GType (named "u32"); GType (named "Error")])))
  = Ret (Ok (mkParsed [(Numeric SMI NoFlag, mkAttributes (Some MSmi) []); (ARef Mut OpState, no_attributes)]
      [0; 1] (RResult (RValue (Numeric SMI NoFlag))) [] ∅ ∅)).
Proof. vm_compute. reflexivity. Qed.

(** Two borrows of the state of the runtime are refused, two shared ones are not. *)
Lemma runtime_state_twice :
  let rc := applied "Rc" [GType (named "JsRuntimeState")] in
  let by_ref := Reference false (named "JsRuntimeState") in
  parse_signature 9 [] (plain_signature [arg_named "a" [] by_ref; arg_named "b" [] by_ref] DefaultReturn)
    = Ret (Err (InvalidMultipleJsRuntimeState 1)) ∧
  sig_args <$> (match parse_signature 9 [] (plain_signature [arg_named "a" [] rc; arg_named "b" [] rc] DefaultReturn) with
                | Ret (Ok s) => Some s | _ => None end)
    = Some [(ARc JsRuntimeState, no_attributes); (ARc JsRuntimeState, no_attributes)].
Proof. vm_compute. split; reflexivity. Qed.

Example parsed_generics :
  let bound s := Trait (name_path s) in
  parse_generics (tokens:=string) (mkGenerics [PType "T" []; PType "U" [bound "Send"; Lifetime "static"]]
    [WhereType (named "T") [bound "Trait"]]) = Ok {[ "T" := "Trait"; "U" := "Send + 'static" ]} ∧
  parse_generics (tokens:=string) (mkGenerics [PType "T" [bound "A"]] [WhereType (named "T") [bound "B"]])
    = Err GenericBoundCardinality ∧
  parse_generics (tokens:=string) (mkGenerics [] [WhereType (named "T") [bound "B"]])
    = Err WherePredicateMustAppearInGenerics.
Proof. vm_compute. split_and!; reflexivity. Qed.
