(* ===== verification/Op2Codegen.v ===== *)
(** [ops/op2/generator_state.rs], [dispatch_shared.rs], [dispatch_slow.rs],
    [dispatch_async.rs]: the code that [#[op2]] generates for the slow and the asynchronous
    call of an op.

    A fragment of generated code is kept as far as its variables go: which names of the
    generator it binds and which it uses.  Names that one [quote!] both binds and uses, the
    texts of messages and types are left out. *)

From S2P Require Import Prelude Op2Config Op2Signature Op2Generics.

Local Open Scope string_scope.

(** * Generated code *)

Inductive var :=
  | VInfo | VScope | VArgs | VOpctx | VOpstate | VRuntimeState | VRetval | VSelf | VResult
  | VPromiseId | VCallbackOptions | VThis
  | VErr                 (** the [err] of a [match] *)
  | VRetvalErr
  | VArg (i : nat) | VTemp (i : nat) | VArgErr (i : nat).

Global Instance var_eq_dec : EqDecision var.
Proof. solve_decision. Defined.

Inductive code :=
  | Skip
  | Let (x : var) (uses : list var)
  | Get (x : var) (position : nat)  (** reads an argument that JavaScript passed *)
  | Use (uses : list var)
  | Block (c : code)
  | Seq (c d : code).

Declare Scope code_scope.
Delimit Scope code_scope with code.
Bind Scope code_scope with code.
Infix "⨾" := Seq (at level 62, right associativity) : code_scope.
Local Open Scope code_scope.

Definition bound_in (env : list var) (uses : list var) : bool := forallb (λ v, bool_decide (v ∈ env)) uses.

(** The names that are bound after the code, if each is bound where it is used. *)
Fixpoint check (env : list var) (c : code) : option (list var) :=
  match c with
  | Skip => Some env
  | Let x uses => if bound_in env uses then Some (x :: env) else None
  | Get x _ => if decide (VArgs ∈ env) then Some (x :: env) else None
  | Use uses => if bound_in env uses then Some env else None
  | Block c => match check env c with Some _ => Some env | None => None end
  | Seq c d => match check env c with Some env' => check env' d | None => None end
  end.

(** * The state of the generator *)

(** The fields [needs_*]. *)
Inductive need :=
  | NArgs | NRetval | NScope | NFastIsolate | NIsolate | NOpstate | NOpctx | NStackTrace
  | NRuntimeState | NCallbackOptions | NSelf.

Global Instance need_eq_dec : EqDecision need.
Proof. solve_decision. Defined.

Record GeneratorState := mkGenerator {
  num_args : nat;         (** the length of [args] *)
  is_fake_async : bool;
  moves : list code;
  needs : need → bool;
  use_this_cppgc : bool;
}.

Definition gen (A : Type) : Type := resultM GeneratorState string A.

Definition get (n : need) : gen bool := λ g, Ret (Ok (needs g n), g).
Definition gets {A} (f : GeneratorState → A) : gen A := λ g, Ret (Ok (f g), g).
Definition require (n : need) : gen unit := λ g,
  Ret (Ok tt, mkGenerator (num_args g) (is_fake_async g) (moves g)
    (λ m, if decide (m = n) then true else needs g m) (use_this_cppgc g)).
Definition push_move (c : code) : gen unit := λ g,
  Ret (Ok tt, mkGenerator (num_args g) (is_fake_async g) (moves g ++ [c])%list (needs g) (use_this_cppgc g)).
Definition fail {A} (e : string) : gen A := λ g, Ret (Err e, g).
Definition panics {A} (f : fault) : gen A := λ _, Panic f.
Definition when (b : bool) (m : gen code) : gen code := if b then m else mret Skip.

(** What the generator asks [syn] about texts. *)
Class Reparse := {
  reparses : string → bool;            (** the text of a type parses again *)
  default_supported : string → bool;   (** a default of [webidl]: an empty string or a number *)
}.

(** * Fragments of the slow call *)

Definition with_scope : gen code := mret (Let VScope [VInfo]).
Definition with_retval : gen code := mret (Let VRetval [VInfo]).
Definition with_fn_args : gen code := mret (Let VArgs [VInfo]).

Definition with_opctx : gen code := _ ← require NArgs; mret (Let VOpctx [VArgs]).
Definition with_isolate : gen code := _ ← require NOpctx; mret (Let VScope [VOpctx]).
Definition with_opstate : gen code := _ ← require NOpctx; mret (Let VOpstate [VOpctx]).
Definition with_js_runtime_state : gen code := _ ← require NOpctx; mret (Let VRuntimeState [VOpctx]).

Definition with_stack_trace : gen code :=
  _ ← require NOpctx; _ ← require NOpstate; _ ← require NScope;
  mret (Use [VOpctx; VScope; VOpstate]).

Definition with_required_check : gen code := _ ← require NScope; mret (Use [VArgs; VScope]).

(** Throws the error in [err]. *)
Definition throw_exception : gen code :=
  scope ← get NScope;
  maybe_scope ← when (negb scope) with_scope;
  opctx ← get NOpctx;
  maybe_opctx ← when (negb opctx) with_opctx;
  args ← get NArgs;
  maybe_args ← when (negb args) with_fn_args;
  mret (maybe_scope ⨾ maybe_args ⨾ maybe_opctx ⨾ Use [VScope; VErr]).

Definition throw_type_error : gen code := mret (Use [VInfo]).

Definition throw_type_error_string (message : var) : gen code :=
  scope ← get NScope;
  maybe_scope ← when (negb scope) with_scope;
  mret (maybe_scope ⨾ Use [VScope; message]).

Definition throw_type_error_static_string (message : var) : gen code := mret (Use [VInfo; message]).

Definition with_self (r : RetVal) : gen code :=
  _ ← require NOpctx; _ ← require NScope;
  exception ← throw_type_error;
  if is_async r then
    _ ← push_move (Let VSelf [VSelf]);
    mret (Use [VScope; VArgs] ⨾ Block exception ⨾ Let VSelf [] ⨾ Use [VSelf])
  else
    mret (Use [VScope; VArgs] ⨾ Block exception ⨾ Let VSelf [] ⨾ Let VSelf [VSelf]).

(** * Arguments *)

Definition from_arg_option (i : nat) : gen code :=
  exception ← throw_type_error;
  mret (Use [VArg i] ⨾ Block exception ⨾ Let (VArg i) [] ⨾ Let (VArg i) [VArg i]).

(** [v8slice_to_buffer]: a [V8Slice] in the name [v8slice]. *)
Definition convertible (n : NumericArg) : bool :=
  match n with u8 | u32 | f32 | f64 => true | _ => false end.

Definition v8slice_to_buffer (i : nat) (v8slice : var) (buffer : BufferType) : gen code :=
  match buffer with
  | V8Slice _ => mret (Let (VArg i) [VArg i])
  | Slice _ n | Ptr _ n | Vec n | BoxSlice n =>
      if convertible n then mret (Let (VArg i) [v8slice]) else fail "a v8slice argument"
  | Bytes | JsBuffer => mret (Let (VArg i) [v8slice])
  | BytesMut => fail "a v8slice argument"
  end.

Definition byte_slice_to_buffer (i : nat) (buf : var) (buffer : BufferType) : gen code :=
  match buffer with
  | Slice _ n | Ptr _ n | Vec n | BoxSlice n =>
      if convertible n then mret (Let (VArg i) [buf]) else fail "a fast typed array buffer argument"
  | Bytes => mret (Let (VArg i) [buf])
  | _ => fail "a fast typed array buffer argument"
  end.

(** The match of [from_arg_buffer] and its relatives. *)
Definition make_v8slice (i : nat) (uses : list var) (exception : code) : code :=
  Use uses ⨾ Block (Let (VArgErr i) [] ⨾ exception) ⨾ Let (VTemp i) [] ⨾ Skip.

Definition from_arg_buffer (i : nat) (b : BufferType) (m : BufferMode) : gen code :=
  exception ← throw_type_error_static_string (VArgErr i);
  uses ← match m with
         | Detach => _ ← require NScope; mret [VScope; VArg i]
         | _ => mret [VArg i]
         end;
  make_arg ← v8slice_to_buffer i (VTemp i) b;
  mret (make_v8slice i uses exception ⨾ make_arg).

Definition from_arg_arraybuffer (i : nat) (b : BufferType) (m : BufferMode) : gen code :=
  exception ← throw_type_error_static_string (VArgErr i);
  make_arg ← v8slice_to_buffer i (VTemp i) b;
  mret (make_v8slice i [VArg i] exception ⨾ make_arg).

Definition from_arg_any_buffer (i : nat) (b : BufferType) (m : BufferMode) : gen code :=
  exception ← throw_type_error_static_string (VArgErr i);
  make_arg ← v8slice_to_buffer i (VTemp i) b;
  mret (make_v8slice i [VArg i] exception ⨾ make_arg).

Definition from_arg_array_or_buffer (i : nat) (b : BufferType) (m : BufferMode) (s : BufferSource) : gen code :=
  match s with
  | TypedArray => from_arg_buffer i b m
  | ArrayBuffer => from_arg_arraybuffer i b m
  | Any => from_arg_any_buffer i b m
  end.

(** [v8_to_arg], with the conversion of [v8_intermediate_to_arg]. *)
Definition v8_to_arg (v : V8Arg) (i : nat) (throw : gen code) : gen code :=
  exception ← (if decide (v = Value) then mret Skip else throw);
  mret (Use [VArg i] ⨾ Block exception ⨾ Let (VArg i) [] ⨾ Let (VArg i) [VArg i]).

(** [if arg.is_null_or_undefined() { None } else { some; Some(arg) }]. *)
Definition optional (i : nat) (some : code) : code :=
  Use [VArg i] ⨾ Block (some ⨾ Use [VArg i]) ⨾ Let (VArg i) [].

(** [match convert { Ok(t) => t, Err(arg_err) => { exception } }]. *)
Definition convert_or_throw (i : nat) (uses : list var) (exception : code) : code :=
  Use uses ⨾ Block (Let (VArgErr i) [] ⨾ exception) ⨾ Let (VArg i) [].

Section generator.
Context `{!Reparse}.

Definition reparse (ty : string) : gen unit :=
  if reparses ty then mret tt else fail "failed to reparse type".

(** [Numeric] in [from_arg]. *)
Definition numeric_from_arg (i : nat) (n : NumericArg) : gen code :=
  match n with
  | bool_ => mret (Let (VArg i) [VArg i])
  | VOID => fail "a slow argument"
  | _ => from_arg_option i
  end.

Definition from_arg (i : nat) (a : Arg) (r : RetVal) : gen code :=
  match a with
  | Numeric n _ => numeric_from_arg i n
  | OptionNumeric n _ => some ← numeric_from_arg i n; mret (optional i some)
  | OptionString RString =>
      _ ← require NIsolate; mret (Use [VArg i; VScope] ⨾ Let (VArg i) [])
  | AString RString => _ ← require NIsolate; mret (Let (VArg i) [VScope; VArg i])
  | AString (RefStr | CowStr) =>
      _ ← require NIsolate;
      scope ← get NScope;
      maybe_scope ← when (negb scope) with_scope;
      mret (Let (VTemp i) [] ⨾ Use [VArg i] ⨾ Block (maybe_scope ⨾ Use [VScope; VArg i]) ⨾
            Let (VArg i) [] ⨾ Let (VArg i) [VScope; VArg i; VTemp i])
  | AString CowByte =>
      _ ← require NIsolate;
      exception ← throw_type_error_static_string (VArg i);
      mret (Use [VScope; VArg i] ⨾ Block (Let (VArg i) [] ⨾ exception) ⨾ Let (VArg i) [])
  | VarArgs => mret (Let (VArg i) [VArgs])
  | This => _ ← require NIsolate; mret (Let (VArg i) [VScope; VArgs])
  | ABuffer b m s =>
      buffer ← from_arg_array_or_buffer i b m s; mret (Let (VTemp i) [] ⨾ buffer)
  | OptionBuffer b m s =>
      some ← from_arg_array_or_buffer i b m s; mret (Let (VTemp i) [] ⨾ optional i some)
  | AExternal _ => from_arg_option i
  | ARef _ Isolate =>
      _ ← require NOpctx; mret (Let (VArg i) [VOpctx] ⨾ Let (VArg i) [VArg i])
  | ARef _ HandleScope => _ ← require NScope; mret (Let (VArg i) [VScope])
  | ARef _ OpState | ARcRefCell OpState => _ ← require NOpstate; mret (Let (VArg i) [VOpstate])
  | ARef Ref JsRuntimeState => _ ← require NRuntimeState; mret (Let (VArg i) [VRuntimeState])
  | V8Local v | OptionV8Local v | V8Ref Ref v | OptionV8Ref Ref v => v8_to_arg v i throw_type_error
  | SerdeV8 _ =>
      _ ← require NScope;
      exception ← throw_type_error_string (VArgErr i);
      mret (convert_or_throw i [VScope; VArg i] exception)
  | FromV8 ty true =>
      _ ← require NScope; _ ← reparse ty;
      exception ← throw_type_error_string (VArgErr i);
      mret (convert_or_throw i [VScope; VArg i] exception)
  | FromV8 ty false =>
      _ ← reparse ty;
      exception ← throw_type_error_string (VArgErr i);
      mret (convert_or_throw i [VArg i] exception)
  | WebIDL ty _ default =>
      _ ← require NScope; _ ← reparse ty;
      exception ← throw_type_error_string (VArgErr i);
      default ← match default with
                | None => mret Skip
                | Some d =>
                    if default_supported d then mret (Let (VArg i) [VScope; VArg i])
                    else fail "unsupported WebIDL default value"
                end;
      mret (default ⨾ convert_or_throw i [VScope; VArg i] exception)
  | CppGcResource proto ty =>
      _ ← require NScope;
      let from_ident := if proto then VArgs else VArg i in
      exception ← throw_type_error;
      _ ← reparse ty;
      if is_async r then
        _ ← push_move (Let (VArg i) [VArg i]);
        mret (Use [VScope; from_ident] ⨾ Block exception ⨾ Let (VArg i) [] ⨾ Use [VArg i])
      else mret (Use [VScope; from_ident] ⨾ Block exception ⨾ Let (VArg i) [] ⨾ Let (VArg i) [VArg i])
  | OptionCppGcResource ty =>
      _ ← require NScope;
      exception ← throw_type_error;
      _ ← reparse ty;
      if is_async r then
        _ ← push_move (Let (VArg i) [VArg i]);
        mret (Use [VScope; VArg i] ⨾ Block exception ⨾ Let (VArg i) [])
      else mret (Use [VScope; VArg i] ⨾ Block exception ⨾ Let (VArg i) [] ⨾ Let (VArg i) [VArg i])
  | _ => fail "a slow argument"
  end.

(** The loop over the attributes in [extract_arg]: the last [validate] replaces the others. *)
Fixpoint early_validates (i : nat) (rest : list AttributeModifier) (exception early : code) : gen code :=
  match rest with
  | [] => mret early
  | MValidate _ :: rest' =>
      _ ← require NScope;
      early_validates i rest' exception (Use [VScope; VArg i] ⨾ Block (Let VErr [] ⨾ exception))
  | _ :: rest' => early_validates i rest' exception early
  end.

Definition extract_arg (attrs : Attributes) (i input_index : nat) : gen code :=
  exception ← throw_exception;
  early ← early_validates i (rest attrs) exception Skip;
  mret (Get (VArg i) input_index ⨾ early).

(** The call of the op. *)
Definition call (r : RetVal) : gen code :=
  uses ← gets (λ g, (if needs g NSelf then [VSelf] else []) ++ map VArg (seq 0 (num_args g)))%list;
  moves ← gets moves;
  match moves with
  | _ :: _ => if is_async r then mret (Block (foldr Seq (Use uses) moves)) else mret (Use uses)
  | [] => mret (Use uses)
  end.

(** The loop of [generate_dispatch_slow_call]: arguments from JavaScript first, in order,
    then the virtual ones. *)
Fixpoint slow_args (i input_index : nat) (l : list (Arg * Attributes)) (r : RetVal) (args deferred : code)
    : gen (code * code) :=
  match l with
  | [] => mret (args, deferred)
  | (a, attrs) :: l' =>
      arg_mapped ← from_arg i a r;
      if is_virtual a then slow_args (S i) input_index l' r args (deferred ⨾ arg_mapped)
      else
        extracted ← extract_arg attrs i input_index;
        slow_args (S i) (S input_index) l' r (args ⨾ extracted ⨾ arg_mapped) deferred
  end.

Definition generate_dispatch_slow_call (s : ParsedSignature) (input_index : nat) : gen code :=
  p ← (slow_args 0 input_index (sig_args s) (ret_val s) Skip Skip : gen (code * code));
  c ← call (ret_val s);
  mret (p.1 ⨾ p.2 ⨾ c).

(** * Return values *)

Definition return_marker (a : Arg) : gen code :=
  this ← gets use_this_cppgc;
  match marker a with
  | KCppgc =>
      if (this : bool) then
        _ ← require NIsolate; _ ← require NArgs; mret (Use [VScope; VArgs; VResult])
      else mret (Use [VResult])
  | KUndefined => mret (Use [VScope])
  | _ => mret (Use [VResult])
  end.

Definition return_value_infallible (a : Arg) : gen code :=
  _ ← require NRetval;
  result ← return_marker a;
  match slow_retval a with
  | RetVal_ | V8LocalNoScope => mret (result ⨾ Use [VRetval])
  | RetValFallible | V8LocalFalliable =>
      _ ← require NScope;
      exception ← throw_type_error_string VRetvalErr;
      mret (result ⨾ Use [VScope; VRetval] ⨾ Block (Let VRetvalErr [] ⨾ exception))
  | RV8Local => _ ← require NScope; mret (result ⨾ Use [VScope; VRetval])
  | RNone => fail "a slow return value"
  end.

Definition return_value_result (a : Arg) : gen code :=
  infallible ← return_value_infallible a;
  exception ← throw_exception;
  mret (Use [VResult] ⨾ Block (Let VResult [] ⨾ infallible) ⨾ Block (Let VErr [] ⨾ exception)).

Definition return_value (r : RetVal) : gen code :=
  match r with
  | RValue a => return_value_infallible a
  | RResult r' => return_value_result (ret_arg r')
  | RFuture _ => panics Unwrap  (** [todo!()] *)
  end.

(** The body of the closure that maps the result of a future; its scope is a parameter of
    the closure. *)
Definition return_value_v8_value (a : Arg) : gen code :=
  this ← gets use_this_cppgc;
  let result :=
    match marker a with
    | KCppgc => if (this : bool) then Use [VScope; VArgs; VResult] else Use [VResult]
    | KUndefined => Use [VScope]
    | _ => Use [VResult]
    end in
  match slow_retval a with
  | V8LocalNoScope => mret result
  | RetVal_ | RV8Local | RetValFallible | V8LocalFalliable => mret (result ⨾ Use [VScope])
  | RNone => fail "a v8 return value"
  end.

(** * The slow call *)

Definition requires_arguments {path} (config : @MacroConfig path) : bool :=
  match required config with Some n => (0 <? n)%N | None => false end.

Definition generate_dispatch_slow {path} (config : @MacroConfig path) (s : ParsedSignature) : gen code :=
  args ← generate_dispatch_slow_call s 0;
  ret ← when (negb (setter config)) (return_value (ret_val s));
  let output := Block args ⨾ Let VResult [] ⨾ ret in
  with_validate ←
    match validate config with
    | Some _ =>
        _ ← require NScope; _ ← require NArgs;
        exception ← throw_exception;
        mret (Use [VScope; VArgs] ⨾ Block (Let VErr [] ⨾ exception))
    | None => mret Skip
    end;
  stack_trace ← get NStackTrace; with_stack_trace ← when stack_trace with_stack_trace;
  isolate ← get NIsolate; scope ← get NScope;
  with_isolate ← when (isolate && negb scope) with_isolate;
  opstate ← get NOpstate; with_opstate ← when opstate with_opstate;
  js ← get NRuntimeState; with_js_runtime_state ← when js with_js_runtime_state;
  opctx ← get NOpctx; with_opctx ← when opctx with_opctx;
  retval ← get NRetval; with_retval ← when retval with_retval;
  nargs ← get NArgs; with_args ← when nargs with_fn_args;
  with_required_check ←
    when (nargs && requires_arguments config) with_required_check;
  self ← get NSelf; with_self ← when self (with_self (ret_val s));
  scope ← get NScope; with_scope ← when scope with_scope;
  mret (with_scope ⨾ with_retval ⨾ with_args ⨾ with_validate ⨾ with_required_check ⨾
        with_opctx ⨾ with_self ⨾ with_isolate ⨾ with_opstate ⨾ with_stack_trace ⨾
        with_js_runtime_state ⨾ output).

(** * The asynchronous call *)

(** The code in the closure, and the code for a result that is there at once. *)
Definition map_async_return_type (r : RetVal) : gen (code * code) :=
  ret_value ← return_value_v8_value (ret_arg r);
  fake ← gets is_fake_async;
  match (if (fake : bool) then Some r else get_future r) with
  | None => fail "an async return"
  | Some fut =>
      immediate ← match unwrap_result fut with
                  | Some res => return_value_result (ret_arg res)
                  | None => return_value_infallible (ret_arg fut)
                  end;
      mret (ret_value, immediate)
  end.

(** The closure that maps the result. *)
Definition closure (body : code) : code := Block (Let VScope [] ⨾ Let VResult [] ⨾ body).

Definition generate_dispatch_async {path} (config : @MacroConfig path) (s : ParsedSignature) : gen code :=
  self ← get NSelf; with_self ← when self (with_self (ret_val s));
  args ← generate_dispatch_slow_call s (if promise_id config then 0 else 1);
  _ ← require NOpctx; _ ← require NArgs;
  isolate ← get NIsolate;
  _ ← (if (isolate : bool) then require NScope else mret tt);
  p ← (map_async_return_type (ret_val s) : gen (code * code));
  fake ← gets is_fake_async;
  eager ← (if bool_decide (is_Some (unwrap_result (ret_val s))) && negb fake then
             exception ← throw_exception;
             mret (Use [VResult] ⨾ Block (Let VErr [] ⨾ exception) ⨾ Let VResult [])
           else mret Skip);
  let submit :=
    Get VPromiseId 0 ⨾ Use [VOpctx; VPromiseId; VResult] ⨾ closure p.1 ⨾
    (if async_lazy config || async_deferred config then Skip else Block (Let VResult [] ⨾ p.2)) in
  let output := (Block args ⨾ Let VResult []) ⨾ eager ⨾ submit in
  stack_trace ← get NStackTrace;
  opstate ← get NOpstate; with_opstate ← when (opstate || stack_trace) with_opstate;
  opctx ← get NOpctx; with_opctx ← when (opctx || stack_trace) with_opctx;
  retval ← get NRetval; with_retval ← when retval with_retval;
  nargs ← get NArgs; with_args ← when nargs with_fn_args;
  with_required_check ←
    when (nargs && requires_arguments config) with_required_check;
  scope ← get NScope; with_scope ← when (scope || stack_trace) with_scope;
  with_stack_trace ← when stack_trace with_stack_trace;
  mret (with_scope ⨾ with_retval ⨾ with_args ⨾ with_required_check ⨾ with_opctx ⨾
        with_opstate ⨾ with_self ⨾ with_stack_trace ⨾ output).
End generator.
