(* ===== verification/Op2Fast.v ===== *)
(** [ops/op2/dispatch_fast.rs] and [generate_op2] of [op2/mod.rs]: which ops V8 may call
    directly, the code for these calls, and the op as a whole. *)

From S2P Require Import Prelude Op2Config Op2Signature Op2Generics Op2Codegen.

Local Open Scope string_scope.
Local Open Scope code_scope.

(** * Types of fast calls *)

Inductive V8FastCallType :=
  | FVoid | FBool | FU32 | FI32 | FU64 | FI64 | FF32 | FF64 | FPointer | FV8Value | FAnyArray
  | FUint8Array | FUint32Array | FFloat32Array | FFloat64Array | FSeqOneByteString
  | FCallbackOptions | FArrayBuffer | FVirtual.

Global Instance fast_call_type_eq_dec : EqDecision V8FastCallType.
Proof. solve_decision. Defined.

(** [Ok None]: the op cannot be fast. *)
Definition map_arg_to_v8_fastcall_type (a : Arg) : result (option V8FastCallType) string :=
  match a with
  | ABuffer _ Detach _ => Ok None
  | ABuffer (JsBuffer | V8Slice _) _ TypedArray => Ok None
  | ABuffer _ _ Any => Ok None
  | ABuffer _ _ ArrayBuffer => Ok (Some FArrayBuffer)
  | ABuffer (Slice _ u32 | Ptr _ u32 | Vec u32 | BoxSlice u32) _ TypedArray => Ok (Some FUint32Array)
  | ABuffer (Slice _ f32 | Ptr _ f32 | Vec f32 | BoxSlice f32) _ TypedArray => Ok (Some FFloat32Array)
  | ABuffer (Slice _ f64 | Ptr _ f64 | Vec f64 | BoxSlice f64) _ TypedArray => Ok (Some FFloat64Array)
  | ABuffer _ _ TypedArray => Ok (Some FUint8Array)
  | ARcRefCell OpState | ARef _ OpState | ARef Mut HandleScope | ARc JsRuntimeState
  | ARef Ref JsRuntimeState | VarArgs | This | ARef _ Isolate => Ok (Some FVirtual)
  | OptionNumeric _ _ | AOption _ | OptionString _ | OptionBuffer _ _ _ | SerdeV8 _ | FromV8 _ _
  | WebIDL _ _ _ | ARef _ _ => Ok None
  | V8Ref Ref _ | V8Local _ | OptionV8Local _ | OptionV8Ref Ref _ => Ok (Some FV8Value)
  | Numeric bool_ _ => Ok (Some FBool)
  | Numeric (u32 | u16 | u8) _ => Ok (Some FU32)
  | Numeric (i32 | i16 | i8 | SMI) _ => Ok (Some FI32)
  | Numeric (u64 | usize) NoFlag => Ok (Some FU64)
  | Numeric (i64 | isize) NoFlag => Ok (Some FI64)
  | Numeric (u64 | usize | i64 | isize) NumberFlag => Ok (Some FF64)
  | Numeric f32 _ => Ok (Some FF32)
  | Numeric f64 _ => Ok (Some FF64)
  | AString _ => Ok (Some FSeqOneByteString)
  | AExternal _ => Ok (Some FPointer)
  | CppGcResource _ _ | OptionCppGcResource _ => Ok (Some FV8Value)
  | _ => Err "a fast argument"
  end.

Definition map_retval_to_v8_fastcall_type (a : Arg) : result (option V8FastCallType) string :=
  match a with
  | OptionNumeric _ _ | SerdeV8 _ | ToV8 _ | WebIDL _ _ _ => Ok None
  | VoidUndefined | Void => Ok (Some FVoid)
  | Numeric bool_ _ => Ok (Some FBool)
  | Numeric (u32 | u16 | u8) _ => Ok (Some FU32)
  | Numeric (SMI | i32 | i16 | i8) _ => Ok (Some FI32)
  | Numeric (u64 | usize) NoFlag => Ok (Some FU64)
  | Numeric (i64 | isize) NoFlag => Ok (Some FI64)
  | Numeric (u64 | usize | i64 | isize) NumberFlag => Ok (Some FF64)
  | Numeric f32 _ => Ok (Some FF32)
  | Numeric f64 _ => Ok (Some FF64)
  | AOption _ | OptionString _ | ASpecial _ | AString _ => Ok None
  | V8Ref _ _ | V8Local _ | OptionV8Local _ | OptionV8Ref _ _ | CppGcResource _ _
  | OptionCppGcResource _ => Ok None
  | ABuffer _ _ _ | OptionBuffer _ _ _ => Ok None
  | AExternal _ => Ok (Some FPointer)
  | _ => Err "a fast return value"
  end.

(** * Fast signatures *)

Inductive FastArg :=
  | Virtual (name_out : nat) (a : Arg)
  | Actual (arg_type : V8FastCallType) (name_in name_out : nat) (a : Arg)
  | CallbackOptions
  | FPromiseId.

Record FastSignature := mkFast {
  fast_args : list FastArg;
  fast_ret : V8FastCallType;
  has_fast_api_callback_options : bool;
}.

Definition insert_promise_id (f : FastSignature) : FastSignature :=
  mkFast (FPromiseId :: fast_args f) (fast_ret f) (has_fast_api_callback_options f).

Definition ensure_fast_api_callback_options (f : FastSignature) : FastSignature :=
  if has_fast_api_callback_options f then f
  else mkFast (fast_args f ++ [CallbackOptions])%list (fast_ret f) true.

(** The parameters of the generated function, after [this]. *)
Definition input_args (f : FastSignature) : list var :=
  omap (λ a, match a with
    | CallbackOptions => Some VCallbackOptions
    | FPromiseId => Some VPromiseId
    | Actual _ name_in _ _ => Some (VArg name_in)
    | Virtual _ _ => None
    end) (fast_args f).

(** Their types; a type that is virtual makes the macro panic. *)
Definition input_types (f : FastSignature) : list V8FastCallType :=
  omap (λ a, match a with
    | CallbackOptions => Some FCallbackOptions
    | FPromiseId => Some FI32
    | Actual t _ _ _ => Some t
    | Virtual _ _ => None
    end) (fast_args f).

Definition fast_fails (A : Type) : Type := outcome (result A string).

(** The loop of [get_fast_signature]; [index_in] and [index_out] count together. *)
Fixpoint fast_signature_args (i : nat) (l : list (Arg * Attributes)) : fast_fails (option (list FastArg)) :=
  match l with
  | [] => Ret (Ok (Some []))
  | (a, _) :: l' =>
      match map_arg_to_v8_fastcall_type a with
      | Err e => Ret (Err e)
      | Ok None => Ret (Ok None)
      | Ok (Some t) =>
          _ ← assert (negb (bool_decide (t = FCallbackOptions)));
          r ← fast_signature_args (S i) l';
          Ret (match r with
               | Ok (Some args) => Ok (Some ((if decide (t = FVirtual) then Virtual i a else Actual t i i a) :: args))
               | r => r
               end)
      end
  end.

Definition get_fast_signature (s : ParsedSignature) : fast_fails (option FastSignature) :=
  r ← fast_signature_args 0 (sig_args s);
  Ret (match r with
       | Err e => Err e
       | Ok None => Ok None
       | Ok (Some args) =>
           match map_retval_to_v8_fastcall_type (if is_async (ret_val s) then Void else ret_arg (ret_val s)) with
           | Err e => Err e
           | Ok None => Ok None
           | Ok (Some output) => Ok (Some (mkFast args output false))
           end
       end).

(** * Fragments of the fast call *)

Definition create_scope : gen code := _ ← require NCallbackOptions; mret (Use [VCallbackOptions]).

(** [throw_type_error] of the fast call. *)
Definition throw_type_error_fast : gen code := create_scope.

Definition generate_fast_result_early_exit : gen code :=
  _ ← require NOpctx;
  create_scope ← create_scope;
  mret (Use [VResult] ⨾ Block (Let VErr [] ⨾ create_scope ⨾ Use [VErr]) ⨾ Let VResult []).

Definition fast_api_typed_array_to_buffer (i : nat) (buffer : BufferType) : gen code :=
  convert ← byte_slice_to_buffer i (VArg i) buffer;
  exception ← throw_type_error_fast;
  mret (Use [VArg i] ⨾ Block exception ⨾ Let (VArg i) [] ⨾ Let (VArg i) [VArg i] ⨾ convert).

(** [let Ok(mut temp) = convert(arg) else { exception }; buf]. *)
Definition unwrap_buffer (i : nat) (exception buf : code) : code :=
  Use [VArg i] ⨾ Block exception ⨾ Let (VTemp i) [] ⨾ buf.

Section generator.
Context `{!Reparse}.

Definition map_v8_fastcall_arg_to_arg (i : nat) (a : Arg) : gen code :=
  match a with
  | ABuffer ((V8Slice _ | JsBuffer) as buffer) _ (ArrayBuffer | TypedArray) =>
      exception ← throw_type_error_fast;
      buf ← v8slice_to_buffer i (VTemp i) buffer;
      mret (unwrap_buffer i exception buf)
  | ABuffer buffer _ (ArrayBuffer | Any) =>
      exception ← throw_type_error_fast;
      buf ← byte_slice_to_buffer i (VTemp i) buffer;
      mret (unwrap_buffer i exception buf)
  | ABuffer buffer _ TypedArray => fast_api_typed_array_to_buffer i buffer
  | ARef _ Isolate =>
      _ ← require NCallbackOptions; mret (Let (VArg i) [VCallbackOptions] ⨾ Let (VArg i) [VArg i])
  | ARef _ OpState | ARcRefCell OpState => _ ← require NOpctx; mret (Let (VArg i) [VOpctx])
  | ARef _ HandleScope => panics Unreachable
  | ARef Ref JsRuntimeState => _ ← require NRuntimeState; mret (Let (VArg i) [VRuntimeState])
  | VarArgs => mret (Let (VArg i) [])
  | This => _ ← require NFastIsolate; mret (Let (VArg i) [VScope; VThis])
  | AString (RefStr | CowStr) => mret (Let (VTemp i) [] ⨾ Let (VArg i) [VArg i; VTemp i])
  | AString (RString | CowByte) => mret (Let (VArg i) [VArg i])
  | V8Local v | OptionV8Local v | V8Ref _ v | OptionV8Ref _ v => v8_to_arg v i throw_type_error_fast
  | CppGcResource _ ty =>
      _ ← reparse ty; _ ← require NFastIsolate;
      exception ← throw_type_error_fast;
      mret (Use [VScope; VArg i] ⨾ Block exception ⨾ Let (VArg i) [] ⨾ Let (VArg i) [VArg i])
  | OptionCppGcResource ty =>
      _ ← require NFastIsolate;
      exception ← throw_type_error_fast;
      _ ← reparse ty;
      mret (Use [VScope; VArg i] ⨾ Block exception ⨾ Let (VArg i) [] ⨾ Let (VArg i) [VArg i])
  | _ => mret (Let (VArg i) [VArg i])
  end.

Definition is_handle_scope (a : Arg) : bool :=
  match a with ARef _ HandleScope => true | _ => false end.

Fixpoint call_args (l : list FastArg) (acc : code) : gen code :=
  match l with
  | [] => mret acc
  | (Actual _ _ name_out a | Virtual name_out a) :: l' =>
      if is_handle_scope a then _ ← require NScope; call_args l' acc
      else c ← map_v8_fastcall_arg_to_arg name_out a; call_args l' (acc ⨾ c)
  | _ :: l' => call_args l' acc
  end.

Definition call_names (l : list FastArg) : list var :=
  omap (λ a, match a with
    | Actual _ _ name_out a | Virtual name_out a => Some (if is_handle_scope a then VScope else VArg name_out)
    | _ => None
    end) l.

(** * The fast call *)

Inductive fast_dispatch :=
  | NotFast
  | Alternative (op : string)
  | Fast_ (f metrics : FastSignature) (body : code).

Definition lift {A} (m : fast_fails A) : gen A := λ g,
  match m with Panic f => Panic f | Ret r => Ret (r, g) end.

Definition fast_body (f : FastSignature) (handle_error call_args handle_result : code)
    : gen fast_dispatch :=
  stack_trace ← get NStackTrace;
  with_stack_trace ← when stack_trace
    (_ ← require NOpctx; _ ← require NScope; mret (Use [VOpctx; VScope; VOpstate]));
  opstate ← get NOpstate;
  with_opstate ← when (opstate || stack_trace) (_ ← require NOpctx; mret (Let VOpstate [VOpctx]));
  js ← get NRuntimeState;
  with_js_runtime_state ← when js (_ ← require NOpctx; mret (Let VRuntimeState [VOpctx]));
  opctx ← get NOpctx;
  with_opctx ← when opctx (_ ← require NCallbackOptions; mret (Let VOpctx [VCallbackOptions]));
  self ← get NSelf;
  with_self ← when self
    (_ ← require NFastIsolate; exception ← throw_type_error_fast;
     mret (Use [VScope; VThis] ⨾ Block exception ⨾ Let VSelf [] ⨾ Let VSelf [VSelf]));
  isolate ← get NFastIsolate; scope ← get NScope;
  with_isolate ← when (isolate && negb scope && negb stack_trace)
    (_ ← require NCallbackOptions; mret (Let VScope [VCallbackOptions]));
  with_scope ← when scope (c ← create_scope; mret (Block c ⨾ Let VScope []));
  options ← get NCallbackOptions;
  let fastsig := if (options : bool) then ensure_fast_api_callback_options f else f in
  with_options ← when options (mret (Let VCallbackOptions [VCallbackOptions]));
  mret (Fast_ fastsig (ensure_fast_api_callback_options f)
    (with_options ⨾ with_scope ⨾ with_opctx ⨾ with_opstate ⨾ with_stack_trace ⨾
     with_js_runtime_state ⨾ with_isolate ⨾ with_self ⨾
     Block (call_args ⨾ Use ((if (self : bool) then [VSelf] else []) ++ call_names (fast_args fastsig))%list) ⨾
     Let VResult [] ⨾ handle_error ⨾ handle_result)).

Definition generate_dispatch_fast {path} (config : @MacroConfig path) (s : ParsedSignature) : gen fast_dispatch :=
  match fast_alternative config with
  | Some alternative =>
      if reparses alternative then mret (Alternative alternative)
      else fail "failed to reparse fast alternative type"
  | None =>
      if (is_async (ret_val s) && negb (async_lazy config) && negb (async_deferred config)) || fake_async config
      then mret NotFast
      else
        fastsig ← lift (get_fast_signature s);
        match fastsig with
        | None => mret NotFast
        | Some fastsig =>
            handle_error ← when (bool_decide (is_Some (unwrap_result (ret_val s)))) generate_fast_result_early_exit;
            let fastsig := if is_async (ret_val s) then insert_promise_id fastsig else fastsig in
            args ← call_args (fast_args fastsig) Skip;
            handle_result ←
              (if is_async (ret_val s) then
                 _ ← require NOpctx;
                 p ← (map_async_return_type (ret_val s) : gen (code * code));
                 mret (Use [VOpctx; VPromiseId; VResult] ⨾ closure p.1)
               else mret (Use [VResult]));
            fast_body fastsig handle_error args handle_result
        end
  end.

(** * The op *)

Inductive op2_error := MappingError (e : string) | ShouldBeFast | ShouldNotBeFast (flag : string).

Inductive accessor := AccessorNone | AccessorGetter | AccessorSetter.

Record op_code := mkOp {
  op_slow : code;
  op_fast : option fast_dispatch;
  op_arg_count : N;  (** a [u8] *)
  op_is_async : bool;
  op_accessor : accessor;
}.

Definition base_generator_state {path} (config : @MacroConfig path) (s : ParsedSignature) : GeneratorState :=
  mkGenerator (length (sig_args s)) (fake_async config) []
    (λ n, match n with
          | NArgs => bool_decide (is_Some (method config)) || bool_decide (length (sig_args s) ≠ 0)
          | NStackTrace => stack_trace config
          | NSelf => bool_decide (is_Some (method config))
          | _ => false
          end) (constructor config).

(** The choice that follows [generate_dispatch_fast]. *)
Definition choose_fast {path} (config : @MacroConfig path) (d : fast_dispatch)
    : result (option fast_dispatch) op2_error :=
  match d with
  | NotFast =>
      if fast config then Err (ShouldNotBeFast "fast")
      else if nofast config then Err (ShouldNotBeFast "nofast")
      else Ok None
  | _ =>
      if negb (fast config) && negb (nofast config) && negb (bool_decide (is_Some (fast_alternative config))) &&
         negb (getter config) && negb (setter config) && negb (fake_async config)
      then Err ShouldBeFast
      else if nofast config || getter config || setter config then Ok None
      else Ok (Some d)
  end.

Definition arg_count {path} (config : @MacroConfig path) (s : ParsedSignature) (async : bool) : N :=
  let base := match required config with Some n => n | None => N.of_nat (length (sig_args s)) end in
  ((base + if async then 1 else 0) mod 256)%N.

Definition generate_op2 {path} (config : @MacroConfig path) (s : ParsedSignature) : outcome (result op_code op2_error) :=
  let base := base_generator_state config s in
  let async := is_async (ret_val s) || fake_async config in
  '(slow, _) ← (if async then generate_dispatch_async config s base else generate_dispatch_slow config s base);
  match slow with
  | Err e => Ret (Err (MappingError e))
  | Ok slow_fn =>
      '(fast, _) ← generate_dispatch_fast config s base;
      Ret (match fast with
           | Err e => Err (MappingError e)
           | Ok d =>
               match choose_fast config d with
               | Err e => Err e
               | Ok f =>
                   Ok (mkOp slow_fn f (arg_count config s async) async
                     (if getter config then AccessorGetter else if setter config then AccessorSetter else AccessorNone))
               end
           end)
  end.
End generator.
