(* ===== verification/Op2Scoping.v ===== *)
(** Names in the code that [#[op2]] generates: what it means for code to be scoped, and that
    the fragments of the slow and the asynchronous call are, as long as what they ask the
    generator for is bound around them. *)

From S2P Require Import Prelude Op2Config Op2Signature Op2SignatureLaws Op2Generics Op2Codegen Op2Fast.

Local Open Scope string_scope.
Local Open Scope code_scope.

(** * Checking code *)

Lemma bound_in_spec env uses : bound_in env uses = true ↔ uses ⊆ env.
Proof.
  unfold bound_in. rewrite forallb_forall. setoid_rewrite bool_decide_eq_true.
  split; intros Hall v Hv; apply Hall; by apply list_elem_of_In.
Qed.

(** More names do no harm. *)
Lemma check_mono c env env1 env' :
  check env c = Some env' → env ⊆ env1 → ∃ env1', check env1 c = Some env1' ∧ env' ⊆ env1' ∧ env1 ⊆ env1'.
Proof.
  revert env env1 env'. induction c as [|x us|x n|us|c IH|c IHc d IHd]; intros env env1 env'; simpl.
  - intros [= <-] Hsub. by exists env1.
  - destruct (bound_in env us) eqn:Hb; [|done]. intros [= <-] Hsub. apply bound_in_spec in Hb.
    rewrite (proj2 (bound_in_spec env1 us)) by (by transitivity env). exists (x :: env1).
    split_and!; [done | set_solver..].
  - destruct (decide (VArgs ∈ env)) as [Hb|]; [|done]. intros [= <-] Hsub.
    rewrite decide_True by (by apply Hsub). exists (x :: env1). split_and!; [done | set_solver..].
  - destruct (bound_in env us) eqn:Hb; [|done]. intros [= <-] Hsub. apply bound_in_spec in Hb.
    rewrite (proj2 (bound_in_spec env1 us)) by (by transitivity env). by exists env1.
  - destruct (check env c) as [e|] eqn:Hc; [|done]. intros [= <-] Hsub.
    destruct (IH _ _ _ Hc Hsub) as (e1 & -> & _). by exists env1.
  - destruct (check env c) as [e|] eqn:Hc; [|done]. intros Hd Hsub.
    destruct (IHc _ _ _ Hc Hsub) as (e1 & -> & He & Hin). destruct (IHd _ _ _ Hd He) as (e2 & -> & ? & ?).
    exists e2. split_and!; [done | done | by transitivity e1].
Qed.

Lemma check_grows c env env' : check env c = Some env' → env ⊆ env'.
Proof. intros Hc. destruct (check_mono c env env env' Hc ltac:(done)) as (e & He & _ & ?). by simplify_eq. Qed.

(** Given the names [pre] the code makes sense, and it binds [post]. *)
Definition scoped (pre : list var) (c : code) (post : list var) : Prop :=
  ∀ env, pre ⊆ env → ∃ env', check env c = Some env' ∧ env ⊆ env' ∧ post ⊆ env'.

Lemma scoped_Skip pre : scoped pre Skip [].
Proof. intros env Hpre. exists env. split_and!; [done | done | set_solver]. Qed.

Lemma scoped_Let pre x us : us ⊆ pre → scoped pre (Let x us) [x].
Proof.
  intros Hus env Hpre. simpl. rewrite (proj2 (bound_in_spec env us)) by set_solver.
  exists (x :: env). split_and!; [done | set_solver..].
Qed.

Lemma scoped_Get pre x n : VArgs ∈ pre → scoped pre (Get x n) [x].
Proof.
  intros Hargs env Hpre. simpl. rewrite decide_True by set_solver.
  exists (x :: env). split_and!; [done | set_solver..].
Qed.

Lemma scoped_Use pre us : us ⊆ pre → scoped pre (Use us) [].
Proof.
  intros Hus env Hpre. simpl. rewrite (proj2 (bound_in_spec env us)) by set_solver.
  exists env. split_and!; [done | set_solver..].
Qed.

Lemma scoped_Block pre c post : scoped pre c post → scoped pre (Block c) [].
Proof.
  intros Hc env Hpre. simpl. destruct (Hc env Hpre) as (e & -> & _). exists env. split_and!; [done | set_solver..].
Qed.

Lemma scoped_Seq pre c mid d post :
  scoped pre c mid → scoped (mid ++ pre)%list d post → scoped pre (c ⨾ d) (post ++ mid)%list.
Proof.
  intros Hc Hd env Hpre. simpl. destruct (Hc env Hpre) as (e & -> & ? & ?).
  destruct (Hd e ltac:(set_solver)) as (e' & -> & ? & ?). exists e'. split_and!; [done | set_solver..].
Qed.

Lemma scoped_weaken pre pre' c post post' :
  scoped pre c post → pre ⊆ pre' → post' ⊆ post → scoped pre' c post'.
Proof.
  intros Hc Hpre Hpost env Henv. destruct (Hc env ltac:(set_solver)) as (e & ? & ? & ?).
  exists e. split_and!; [done | set_solver..].
Qed.

Lemma scoped_post pre c post post' : scoped pre c post → post' ⊆ post → scoped pre c post'.
Proof. intros Hc Hpost. by eapply scoped_weaken. Qed.

(** Decides whether concrete code is scoped, up to a part that is not concrete. *)
Ltac scoped_tac :=
  repeat first
    [ match goal with
      | H : scoped _ ?c ?q |- scoped _ ?c _ => eapply (scoped_weaken _ _ c q q H); [set_solver | reflexivity]
      end
    | apply scoped_Skip
    | match goal with |- scoped _ (Let _ _) _ => eapply scoped_Let; set_solver end
    | match goal with |- scoped _ (Get _ _) _ => eapply scoped_Get; set_solver end
    | match goal with |- scoped _ (Use _) _ => eapply scoped_Use; set_solver end
    | match goal with |- scoped _ (Block _) _ => eapply scoped_Block end
    | match goal with |- scoped _ (Seq _ _) _ => eapply scoped_Seq end ].

(** * The generator only asks for more *)

Record extends (g g' : GeneratorState) : Prop := {
  ext_args : num_args g' = num_args g;
  ext_fake : is_fake_async g' = is_fake_async g;
  ext_this : use_this_cppgc g' = use_this_cppgc g;
  ext_self : needs g' NSelf = needs g NSelf;
  ext_stack : needs g' NStackTrace = needs g NStackTrace;
  ext_needs : ∀ n, needs g n = true → needs g' n = true;
}.

Global Instance extends_refl : Reflexive extends.
Proof. done. Qed.
Global Instance extends_trans : Transitive extends.
Proof. intros g1 g2 g3 [] []. split; try congruence. auto. Qed.

(** The moves into a future bind again what is bound already. *)
Definition good_move (g : GeneratorState) (c : code) : Prop :=
  (c = Let VSelf [VSelf] ∧ needs g NSelf = true) ∨ ∃ i, i < num_args g ∧ c = Let (VArg i) [VArg i].

Definition good (g : GeneratorState) : Prop := Forall (good_move g) (moves g).

(** The generator returns, and asks for more at most. *)
Definition emits {A} (m : gen A) (g : GeneratorState) (Q : A → GeneratorState → Prop) : Prop :=
  terminates m g (λ r g', extends g g' ∧ (good g → good g') ∧ match r with Ok a => Q a g' | Err _ => True end).

Lemma emits_bind {A B} (m : gen A) (k : A → gen B) g Q :
  emits m g (λ a g', emits (k a) g' Q) → emits (m ≫= k) g Q.
Proof.
  intros Hm. apply terminates_bind. eapply terminates_mono; [exact Hm|].
  intros [a|e] g' (Hext & Hgood & Hk); [|done].
  eapply terminates_mono; [exact Hk|]. intros r g2 (Hext2 & Hgood2 & HQ).
  split_and!; [by etrans | auto | done].
Qed.

Lemma emits_ret {A} (a : A) g (Q : A → GeneratorState → Prop) : Q a g → emits (mret a) g Q.
Proof. intros HQ. by apply terminates_ret. Qed.

Lemma emits_fail {A} e g (Q : A → GeneratorState → Prop) : emits (fail e) g Q.
Proof. by exists (Err e), g. Qed.

Lemma emits_gets {A} (f : GeneratorState → A) g (Q : A → GeneratorState → Prop) : Q (f g) g → emits (gets f) g Q.
Proof. intros HQ. by exists (Ok (f g)), g. Qed.

Lemma emits_get n g (Q : bool → GeneratorState → Prop) : Q (needs g n) g → emits (get n) g Q.
Proof. intros HQ. by exists (Ok (needs g n)), g. Qed.

Lemma emits_mono {A} (m : gen A) g (Q R : A → GeneratorState → Prop) :
  emits m g Q → (∀ a g', extends g g' → (good g → good g') → Q a g' → R a g') → emits m g R.
Proof.
  intros Hm HQR. eapply terminates_mono; [exact Hm|]. intros [a|e] g' (? & ? & ?); split_and!; auto.
Qed.

(** What [require] leaves, known only by its needs. *)
Lemma emits_require n g (Q : unit → GeneratorState → Prop) :
  n ≠ NSelf → n ≠ NStackTrace →
  (∀ g', extends g g' → needs g' n = true → (∀ m, m ≠ n → needs g' m = needs g m) →
     moves g' = moves g → Q tt g') → emits (require n) g Q.
Proof.
  intros Hs Ht HQ. unfold require. eexists _, _. split; [done|].
  assert (extends g (mkGenerator (num_args g) (is_fake_async g) (moves g)
    (λ m, if decide (m = n) then true else needs g m) (use_this_cppgc g))) as Hext.
  { split; simpl; try done; intros; case_decide; congruence. }
  split_and!; [done | | apply HQ; simpl; try done; intros; case_decide; congruence].
  intros Hg. eapply Forall_impl; [exact Hg|]. intros c [[-> Hn]|Hn]; [left | by right].
  split; [done|]. by rewrite (ext_self _ _ Hext).
Qed.

Lemma emits_push_move c g (Q : unit → GeneratorState → Prop) :
  good_move g c → (∀ g', extends g g' → needs g' = needs g → Q tt g') → emits (push_move c) g Q.
Proof.
  intros Hc HQ. unfold push_move. eexists _, _. split; [done|]. split_and!; [by split | | by apply HQ].
  intros Hg. unfold good. simpl. apply Forall_app. split; [exact Hg|]. by constructor.
Qed.

Lemma emits_when b (m : gen code) g Q :
  (b = true → emits m g Q) → (b = false → Q Skip g) → emits (when b m) g Q.
Proof. destruct b; simpl; intros Ht Hf; [by apply Ht | apply emits_ret, Hf; done]. Qed.

Ltac ext_chain :=
  first [ reflexivity
        | match goal with H : extends ?a ?b |- extends ?a ?b => exact H end
        | match goal with H : extends ?a ?b |- extends ?a _ => transitivity b; [exact H | ext_chain] end ].

(** * The slow and the asynchronous call *)

(** The names that the generated function binds first, by what was asked for; [js] says
    whether it binds the state of the runtime. *)
Definition available (js : bool) (g : GeneratorState) (v : var) : bool :=
  match v with
  | VInfo => true
  | VScope => needs g NScope || needs g NIsolate
  | VArgs => needs g NArgs
  | VOpctx => needs g NOpctx
  | VOpstate => needs g NOpstate
  | VRuntimeState => js && needs g NRuntimeState
  | VRetval => needs g NRetval
  | VSelf => needs g NSelf
  | _ => false
  end.

Definition known (js : bool) (g : GeneratorState) : list var :=
  filter (λ v, available js g v = true)
    [VInfo; VScope; VArgs; VOpctx; VOpstate; VRuntimeState; VRetval; VSelf].

Lemma elem_of_known js g v : v ∈ known js g ↔ available js g v = true.
Proof.
  unfold known. rewrite list_elem_of_filter. split; [by intros [? _]|]. intros Hv. split; [done|].
  rewrite !elem_of_cons. destruct v; simpl in Hv; try done; tauto.
Qed.

Lemma known_extends js g g' : extends g g' → known js g ⊆ known js g'.
Proof.
  intros [_ _ _ Hs _ Hn] v. rewrite !elem_of_known.
  destruct v; simpl; try done; try apply Hn; rewrite ?orb_true_iff, ?andb_true_iff.
  - intros [?|?]; [left | right]; by apply Hn.
  - intros [??]. split; [done | by apply Hn].
Qed.

Definition fits (js : bool) (g : GeneratorState) (pre : list var) (c : code) (post : list var) : Prop :=
  scoped (pre ++ known js g)%list c post.

Lemma fits_extends js g g' pre c post : extends g g' → fits js g pre c post → fits js g' pre c post.
Proof.
  intros Hext Hc. eapply scoped_weaken; [exact Hc | | done]. apply (known_extends js) in Hext. set_solver.
Qed.

Lemma known_info js g : VInfo ∈ known js g.
Proof. by apply elem_of_known. Qed.
Lemma known_scope js g : needs g NScope = true → VScope ∈ known js g.
Proof. intros Hn. apply elem_of_known. simpl. by rewrite Hn. Qed.
Lemma known_isolate js g : needs g NIsolate = true → VScope ∈ known js g.
Proof. intros Hn. apply elem_of_known. simpl. by rewrite Hn, orb_true_r. Qed.
Lemma known_args js g : needs g NArgs = true → VArgs ∈ known js g.
Proof. intros Hn. by apply elem_of_known. Qed.
Lemma known_opctx js g : needs g NOpctx = true → VOpctx ∈ known js g.
Proof. intros Hn. by apply elem_of_known. Qed.
Lemma known_opstate js g : needs g NOpstate = true → VOpstate ∈ known js g.
Proof. intros Hn. by apply elem_of_known. Qed.
Lemma known_retval js g : needs g NRetval = true → VRetval ∈ known js g.
Proof. intros Hn. by apply elem_of_known. Qed.
Lemma known_self js g : needs g NSelf = true → VSelf ∈ known js g.
Proof. intros Hn. by apply elem_of_known. Qed.
Lemma known_runtime_state g : needs g NRuntimeState = true → VRuntimeState ∈ known true g.
Proof. intros Hn. by apply elem_of_known. Qed.

Ltac add_fact P := match goal with H : P |- _ => fail 1 | _ => assert P by eauto end.

(** What is needed stays needed, and what is needed is known. *)
Ltac know :=
  repeat match goal with
    | Hext : extends ?a ?b, H : needs ?a ?n = true |- _ =>
        lazymatch goal with
        | _ : needs b n = true |- _ => fail
        | _ => pose proof (ext_needs a b Hext n H)
        end
    end;
  repeat match goal with
    | H : needs ?g ?n = true |- context [known ?js ?g] =>
        let l := lazymatch n with
          | NScope => constr:(known_scope) | NIsolate => constr:(known_isolate)
          | NArgs => constr:(known_args) | NOpctx => constr:(known_opctx)
          | NOpstate => constr:(known_opstate) | NRetval => constr:(known_retval)
          | NSelf => constr:(known_self) | NRuntimeState => constr:(known_runtime_state) end in
        first [pose proof (l js g H) | pose proof (l g H)]; revert H
    end; intros;
  try match goal with |- context [known ?js ?g] => pose proof (known_info js g) end.

Ltac emits_step :=
  first
    [ apply emits_bind | apply emits_ret | apply emits_fail | apply emits_gets | apply emits_get
    | apply emits_require; [done | done | intros ? ? ? ? ?]
    | apply emits_when; intros ? ].

Ltac emits_tac := repeat (emits_step; simpl).

(** A goal about concrete code. *)
Ltac fits_tac :=
  unfold fits in *;
  repeat match goal with
    | H : negb _ = true |- _ => apply negb_true_iff in H
    | H : negb _ = false |- _ => apply negb_false_iff in H
    end;
  try congruence; (know; eapply scoped_post; [scoped_tac | set_solver]).

Lemma throw_exception_fits js g : emits throw_exception g (λ c g', fits js g' [VErr] c []).
Proof.
  unfold throw_exception, with_scope, with_opctx, with_fn_args. emits_tac.
  all: fits_tac.
Qed.

Lemma throw_type_error_string_fits js v g : emits (throw_type_error_string v) g (λ c g', fits js g' [v] c []).
Proof. unfold throw_type_error_string, with_scope. emits_tac. all: fits_tac. Qed.

Lemma v8slice_to_buffer_fits js i t b g :
  emits (v8slice_to_buffer i t b) g (λ c g', fits js g' [VArg i; t] c [VArg i]).
Proof. unfold v8slice_to_buffer. destruct b; simpl; try destruct (convertible n); emits_tac; fits_tac. Qed.

Lemma from_arg_array_or_buffer_fits js i b m s g :
  emits (from_arg_array_or_buffer i b m s) g (λ c g', fits js g' [VArg i] c [VArg i]).
Proof.
  unfold from_arg_array_or_buffer, from_arg_buffer, from_arg_arraybuffer, from_arg_any_buffer,
    throw_type_error_static_string, make_v8slice.
  destruct s; [destruct m|..]; emits_tac;
    (eapply emits_mono; [apply (v8slice_to_buffer_fits js)|]; intros make_arg g2 Hext _ Hc; emits_tac).
  all: fits_tac.
Qed.

Lemma v8_to_arg_fits js v i g : emits (v8_to_arg v i throw_type_error) g (λ c g', fits js g' [VArg i] c [VArg i]).
Proof. unfold v8_to_arg, throw_type_error. case_decide; emits_tac; fits_tac. Qed.

Section slow.
Context `{!Reparse}.

Lemma numeric_from_arg_fits js i n g :
  emits (numeric_from_arg i n) g (λ c g', fits js g' [VArg i] c [VArg i]).
Proof. unfold numeric_from_arg, from_arg_option, throw_type_error. destruct n; emits_tac; fits_tac. Qed.

Lemma emits_reparse ty g (Q : unit → GeneratorState → Prop) : Q tt g → emits (reparse ty) g Q.
Proof. intros HQ. unfold reparse. case_match; [by apply emits_ret | apply emits_fail]. Qed.

Ltac use_lemma L := eapply emits_mono; [apply L|]; intros ? ? ? _ ?; cbn beta in *.

Ltac from_arg_tac js :=
  repeat first
    [ match goal with
      | |- emits (reparse _) _ _ => apply emits_reparse
      | |- emits (if ?b then _ else _) _ _ => destruct b
      | |- emits (match ?o with Some _ => _ | None => _ end) _ _ => destruct o
      | |- emits (throw_type_error_string ?v) ?g _ => use_lemma (throw_type_error_string_fits js v g)
      | |- emits (numeric_from_arg ?i ?n) ?g _ => use_lemma (numeric_from_arg_fits js i n g)
      | |- emits (from_arg_array_or_buffer ?i ?b ?m ?s) ?g _ => use_lemma (from_arg_array_or_buffer_fits js i b m s g)
      | |- emits (v8_to_arg ?v ?i _) ?g _ => use_lemma (v8_to_arg_fits js v i g)
      | |- emits (push_move _) _ _ =>
          apply emits_push_move; [right; eexists; split; [|reflexivity] | intros ? ? ?]
      end
    | emits_step ]; cbn beta.

(** An argument uses its name only if JavaScript passes it, and binds it. *)
Lemma from_arg_fits js i a r g :
  needs g NArgs = true → i < num_args g → (a = ARef Ref JsRuntimeState → js = true) →
  emits (from_arg i a r) g (λ c g', fits js g' (if is_virtual a then [] else [VArg i]) c [VArg i]).
Proof.
  intros Hargs Hi Hjs.
  destruct a as [| |s|[]|b m s|e|[] []|s|[]|s|[]|n f|b m s|v|v|[] v|[] v|n f|t|p t|t|l|t []|t|t o d| |]; simpl; unfold throw_type_error, throw_type_error_static_string, from_arg_option, with_scope,
      convert_or_throw, optional; from_arg_tac js.
  all: try (specialize (Hjs eq_refl); subst js).
  all: try match goal with p : bool |- context [if ?p then VArgs else _] => destruct p end.
  all: try fits_tac.
  all: by rewrite (ext_args g).
Qed.

Lemma early_validates_fits js i rest exception early g :
  fits js g [VErr] exception [] → fits js g [VArg i] early [] →
  emits (early_validates i rest exception early) g (λ c g', fits js g' [VArg i] c []).
Proof.
  revert g early. induction rest as [|m rest IH]; intros g early Hexc Hearly; simpl; [by apply emits_ret|].
  destruct m; try by apply IH. apply emits_bind, emits_require; [done | done |]. intros g1 Hext Hn _ _.
  apply (fits_extends _ _ g1) in Hexc; [|done]. apply IH; [done|]. fits_tac.
Qed.

Lemma extract_arg_fits js attrs i n g :
  emits (extract_arg attrs i n) g (λ c g', needs g' NArgs = true → fits js g' [] c [VArg i]).
Proof.
  unfold extract_arg. apply emits_bind. eapply emits_mono; [apply (throw_exception_fits js)|].
  intros exc g1 _ _ Hexc. apply emits_bind. eapply emits_mono.
  { apply (early_validates_fits js); [done|]. fits_tac. }
  intros early g2 _ _ Hearly. apply emits_ret. intros Hargs. fits_tac.
Qed.

(** All arguments are bound after the code for them. *)
Definition args_bound (js : bool) (g : GeneratorState) (n : nat) (args deferred : code) : Prop :=
  ∃ A D, fits js g [] args A ∧ fits js g [] deferred D ∧ ∀ j, j < n → VArg j ∈ (A ++ D)%list.

Lemma slow_args_fits js l r i n args deferred g :
  needs g NArgs = true ∨ l = [] → i + length l = num_args g →
  (js = false → ARef Ref JsRuntimeState ∉ l.*1) →
  args_bound js g i args deferred →
  emits (slow_args i n l r args deferred) g (λ p g', args_bound js g' (num_args g) p.1 p.2).
Proof.
  revert i n args deferred g. induction l as [|[a attrs] l IH]; intros i n args deferred g Hargs Hi Hjs Hb; simpl.
  { apply emits_ret. simpl in Hi. by replace (num_args g) with i by lia. }
  destruct Hargs as [Hargs|]; [|done]. simpl in Hi. apply emits_bind. eapply emits_mono.
  { apply (from_arg_fits js); [done | lia |]. intros ->. destruct js; [done|].
    exfalso. apply (Hjs eq_refl), elem_of_cons. by left. }
  intros c g1 Hext1 _ Hc. destruct Hb as (A & D & HA & HD & Hall).
  apply (fits_extends _ _ _ _ _ _ Hext1) in HA, HD. pose proof (ext_needs _ _ Hext1 _ Hargs) as Hargs1.
  assert (js = false → ARef Ref JsRuntimeState ∉ l.*1) as Hjs'.
  { intros Hf Hin. by apply (Hjs Hf), elem_of_cons; right. }
  destruct (is_virtual a).
  - eapply emits_mono.
    + apply IH; [by left | by rewrite (ext_args _ _ Hext1); lia | done |].
      exists A, (VArg i :: D). split_and!; [done | fits_tac |].
      intros j Hj. destruct (decide (j = i)) as [->|]; [set_solver|]. pose proof (Hall j ltac:(lia)). set_solver.
    + intros p g' _ _ Hp. by rewrite (ext_args _ _ Hext1) in Hp.
  - apply emits_bind. eapply emits_mono; [apply (extract_arg_fits js)|]. intros ex g2 Hext2 _ Hex.
    pose proof (ext_needs _ _ Hext2 _ Hargs1) as Hargs2. specialize (Hex Hargs2).
    apply (fits_extends _ _ _ _ _ _ Hext2) in HA, HD, Hc.
    eapply emits_mono.
    + apply IH; [by left | by rewrite (ext_args _ _ Hext2), (ext_args _ _ Hext1); lia | done |].
      exists (VArg i :: A), D. split_and!; [fits_tac | done |].
      intros j Hj. destruct (decide (j = i)) as [->|]; [set_solver|]. pose proof (Hall j ltac:(lia)). set_solver.
    + intros p g' _ _ Hp. by rewrite (ext_args _ _ Hext2), (ext_args _ _ Hext1) in Hp.
Qed.

Lemma good_moves_scoped g uses moves :
  Forall (good_move g) moves →
  uses = ((if needs g NSelf then [VSelf] else []) ++ map VArg (seq 0 (num_args g)))%list →
  ∀ pre, uses ⊆ pre → scoped pre (foldr Seq (Use uses) moves) [].
Proof.
  intros Hm Hu. induction Hm as [|c moves Hc _ IH]; intros pre Hpre; simpl; [by apply scoped_Use|].
  assert (∃ x, c = Let x [x] ∧ x ∈ uses) as (x & -> & Hx).
  { subst uses. destruct Hc as [[-> Hs]|(i & Hi & ->)]; eexists; (split; [reflexivity|]).
    - rewrite Hs. set_solver.
    - apply elem_of_app. right. apply list_elem_of_fmap. exists i. split; [done|]. apply elem_of_seq. lia. }
  eapply scoped_post; [eapply scoped_Seq; [apply scoped_Let; set_solver | apply IH; set_solver] | set_solver].
Qed.

Lemma call_fits js r pre g :
  good g → (∀ j, j < num_args g → VArg j ∈ pre) →
  emits (call r) g (λ c g', fits js g' pre c []).
Proof.
  intros Hgood Hpre. unfold call. emits_tac.
  set (uses := ((if needs g NSelf then [VSelf] else []) ++ map VArg (seq 0 (num_args g)))%list).
  assert (uses ⊆ (pre ++ known js g)%list) as Hsub.
  { intros v [Hv|Hv]%elem_of_app; apply elem_of_app.
    - right. destruct (needs g NSelf) eqn:E; [|set_solver]. apply list_elem_of_singleton in Hv as ->. by apply known_self.
    - left. apply list_elem_of_fmap in Hv as (j & -> & Hj%elem_of_seq). apply Hpre. lia. }
  pose proof (good_moves_scoped g uses (moves g) Hgood eq_refl) as Hm.
  destruct (moves g) as [|m moves]; [apply emits_ret; by apply scoped_Use|].
  case_match; apply emits_ret; [|by apply scoped_Use].
  eapply scoped_Block. by apply Hm.
Qed.

Lemma slow_call_fits js s n g :
  good g → needs g NArgs = true ∨ sig_args s = [] → length (sig_args s) = num_args g →
  (js = false → ARef Ref JsRuntimeState ∉ (sig_args s).*1) →
  emits (generate_dispatch_slow_call s n) g (λ c g', fits js g' [] c []).
Proof.
  intros Hgood Hargs Hlen Hjs. unfold generate_dispatch_slow_call. apply emits_bind. eapply emits_mono.
  { apply (slow_args_fits js); [done | done | done |]. exists [], []. split_and!; [fits_tac.. | lia]. }
  intros p g1 Hext1 Hgood1 (A & D & HA & HD & Hall). apply emits_bind. eapply emits_mono.
  { apply (call_fits js _ (A ++ D)%list); [auto|]. by rewrite (ext_args _ _ Hext1). }
  intros c g2 Hext2 _ Hc. apply emits_ret. apply (fits_extends _ _ _ _ _ _ Hext2) in HA, HD. fits_tac.
Qed.

(** * Return values *)

(** [undefined] asks for no scope. *)
Definition undefined_scope (g : GeneratorState) (a : Arg) : Prop :=
  a = VoidUndefined → needs g NScope = true ∨ needs g NIsolate = true.

Lemma marker_undefined a : marker a = KUndefined → a = VoidUndefined.
Proof. destruct a as [| | | |? ? []| | | | | | | |? ? []| | | | |[] []| | | | | | | | |]; done. Qed.

(** In every later state that has a scope for [undefined]. *)
Definition later (js : bool) (g : GeneratorState) (a : Arg) (c : code) : Prop :=
  ∀ g', extends g g' → undefined_scope g' a → fits js g' [VResult] c [].

Lemma later_extends js g g' a c : extends g g' → later js g a c → later js g' a c.
Proof. intros Hext Hc g2 Hext2. apply Hc. by etrans. Qed.

(** The marker, for [slow_retval] to go on with. *)
Lemma return_marker_fits js a g : emits (return_marker a) g (λ c g', later js g' a c).
Proof.
  unfold return_marker. emits_tac. destruct (marker a) eqn:Hm; try case_match; emits_tac;
    intros g2 Hext Hu; try fits_tac.
  apply marker_undefined in Hm. destruct (Hu Hm); fits_tac.
Qed.

Lemma return_value_infallible_fits js a g :
  emits (return_value_infallible a) g (λ c g', later js g' a c ∧ needs g' NRetval = true).
Proof.
  unfold return_value_infallible. apply emits_bind, emits_require; [done | done |]. intros g1 Hext1 Hret _ _.
  apply emits_bind. eapply emits_mono; [apply (return_marker_fits js)|]. intros result g2 Hext2 _ Hresult.
  destruct (slow_retval a); [apply emits_fail|..].
  all: repeat first
    [ match goal with |- emits (throw_type_error_string ?v) ?g _ => use_lemma (throw_type_error_string_fits js v g) end
    | emits_step ].
  all: know; split; [|assumption].
  all: intros g5 Hext Hu; specialize (Hresult g5 ltac:(ext_chain) Hu).
  all: try match goal with H : fits _ ?g0 [VRetvalErr] _ _ |- _ => apply (fits_extends _ _ g5) in H; [|done] end.
  all: fits_tac.
Qed.

Lemma return_value_result_fits js a g :
  emits (return_value_result a) g (λ c g', later js g' a c ∧ needs g' NRetval = true).
Proof.
  unfold return_value_result. apply emits_bind. eapply emits_mono; [apply (return_value_infallible_fits js)|].
  intros c g1 Hext1 _ [Hc Hret]. apply emits_bind. eapply emits_mono; [apply (throw_exception_fits js)|].
  intros exc g2 Hext2 _ Hexc. apply emits_ret. know. split; [|done]. intros g' Hext Hu.
  specialize (Hc g' ltac:(by etrans) Hu). apply (fits_extends _ _ g') in Hexc; [|done]. fits_tac.
Qed.

(** The body of the closure of a future. *)
Lemma return_value_v8_value_fits a g (pre : list var) :
  VScope ∈ pre → VResult ∈ pre → VArgs ∈ pre →
  emits (return_value_v8_value a) g (λ c g', scoped pre c []).
Proof.
  intros. unfold return_value_v8_value. emits_tac.
  destruct (slow_retval a); try apply emits_fail; destruct (marker a); try case_match; apply emits_ret;
    (eapply scoped_post; [scoped_tac | set_solver]).
Qed.
End slow.
