(* ===== verification/Op2Hygiene.v ===== *)
(** The functions that [#[op2]] generates for the slow and the asynchronous call bind every
    name before they use it, however the arguments, the return value and the flags of an op
    are combined. *)

From S2P Require Import Prelude Op2Config Op2Signature Op2SignatureLaws Op2Generics Op2Codegen Op2Fast Op2Scoping.

Local Open Scope string_scope.
Local Open Scope code_scope.

(** * Names in lists *)

(** A fragment that is there if it is needed. *)
Definition maybe (b : bool) (c : code) : code := if b then c else Skip.
Definition given (b : bool) (l : list var) : list var := if b then l else [].

Lemma subset_cons {A} (x : A) us l : x ∈ l → us ⊆ l → x :: us ⊆ l.
Proof. intros Hx Hus y [->|Hy]%elem_of_cons; [done | by apply Hus]. Qed.
Lemma subset_app {A} (us vs l : list A) : us ⊆ l → vs ⊆ l → (us ++ vs)%list ⊆ l.
Proof. intros Hus Hvs y [Hy|Hy]%elem_of_app; [by apply Hus | by apply Hvs]. Qed.
Lemma subset_given b us l : (b = true → us ⊆ l) → given b us ⊆ l.
Proof. destruct b; simpl; [auto | intros _; apply list_subseteq_nil]. Qed.

(** A name in a list of names. *)
Ltac mem :=
  lazymatch goal with
  | |- [] ⊆ _ => apply list_subseteq_nil
  | |- (_ :: _) ⊆ _ => apply subset_cons; [mem | mem]
  | |- ?x ∈ ?x :: _ => left
  | |- _ ∈ _ :: _ => right; mem
  | |- _ ∈ given true _ => cbn [given]; mem
  | |- _ ∈ given (true || _) _ => cbn [given orb]; mem
  | |- _ ∈ (_ ++ _)%list => apply elem_of_app; first [left; mem | right; mem]
  end.

Section functions.
Context `{!Reparse}.

(** * The whole function *)

Lemma scoped_maybe pre b c post : (b = true → scoped pre c post) → scoped pre (maybe b c) (given b post).
Proof. destruct b; simpl; [auto | intros _; apply scoped_Skip]. Qed.

Lemma emits_maybe b c g (Q : code → GeneratorState → Prop) : Q (maybe b c) g → emits (when b (mret c)) g Q.
Proof. intros HQ. by destruct b; apply emits_ret. Qed.

Lemma emits_maybe_require b n c g (Q : code → GeneratorState → Prop) :
  n ≠ NSelf → n ≠ NStackTrace →
  (∀ g', extends g g' → (b = true → needs g' n = true) → (∀ m, m ≠ n → needs g' m = needs g m) →
     Q (maybe b c) g') →
  emits (when b (_ ← require n; mret c)) g Q.
Proof.
  intros Hs Ht HQ. destruct b; simpl.
  - apply emits_bind, emits_require; [done | done |]. intros g' Hext Hn Hm _. apply emits_ret. by apply HQ.
  - apply emits_ret. by apply (HQ g).
Qed.

Lemma emits_stack_trace b g (Q : code → GeneratorState → Prop) :
  (∀ g', extends g g' →
     (b = true → needs g' NOpctx = true ∧ needs g' NOpstate = true ∧ needs g' NScope = true) →
     Q (maybe b (Use [VOpctx; VScope; VOpstate])) g') →
  emits (when b with_stack_trace) g Q.
Proof.
  intros HQ. destruct b; simpl; [|apply emits_ret; by apply (HQ g)].
  unfold with_stack_trace. emits_tac. know.
  match goal with |- Q _ ?g' => apply (HQ g') end; [ext_chain | done].
Qed.

Lemma emits_self b r g (Q : code → GeneratorState → Prop) :
  b = needs g NSelf →
  (∀ g' c, extends g g' → (b = true → needs g' NScope = true ∧ needs g' NOpctx = true) →
     (∀ n, n ≠ NScope → n ≠ NOpctx → needs g' n = needs g n) →
     (∀ pre, VScope ∈ pre → VArgs ∈ pre → VInfo ∈ pre → scoped pre c [VSelf]) →
     Q (maybe b c) g') →
  emits (when b (with_self r)) g Q.
Proof.
  intros Hb HQ. destruct b; simpl; [|apply emits_ret, (HQ g (Let VSelf [])); try done; intros; apply scoped_Let; set_solver].
  symmetry in Hb. unfold with_self, throw_type_error. emits_tac. know. destruct (is_async r); emits_tac.
  - apply emits_push_move; [by left |]. intros g3 Hext3 Hneeds. emits_tac.
    apply (HQ g3 (Use [VScope; VArgs] ⨾ Block (Use [VInfo]) ⨾ Let VSelf [] ⨾ Use [VSelf])); rewrite ?Hneeds.
    + ext_chain.
    + know. auto.
    + intros n ??. by repeat match goal with H : ∀ m, m ≠ _ → needs ?a m = _ |- context [needs ?a n] => rewrite (H n) by done end.
    + intros pre ???. eapply scoped_post; [scoped_tac | set_solver].
  - match goal with |- Q ?c ?g' => apply (HQ g' c) end.
    + ext_chain.
    + know. auto.
    + intros n ??. by repeat match goal with H : ∀ m, m ≠ _ → needs ?a m = _ |- context [needs ?a n] => rewrite (H n) by done end.
    + intros pre ???. eapply scoped_post; [scoped_tac | set_solver].
Qed.

Lemma throw_exception_scoped g :
  needs g NScope = true → needs g NArgs = true →
  emits throw_exception g (λ c _, ∀ pre, [VErr; VInfo; VScope; VArgs] ⊆ pre → scoped pre c []).
Proof.
  intros Hs Ha. unfold throw_exception, with_scope, with_opctx, with_fn_args. emits_tac.
  all: rewrite ?Hs, ?Ha in *; try done; (intros pre Hpre; eapply scoped_post; [scoped_tac | set_solver]).
Qed.

Lemma return_value_fits js r g :
  is_async r = false → emits (return_value r) g (λ c g', later js g' (ret_arg r) c).
Proof.
  intros Hr. destruct r as [a|r|r]; [| |done].
  - eapply emits_mono; [apply (return_value_infallible_fits js)|]. by intros ? ? _ _ [Hl _].
  - eapply emits_mono; [apply (return_value_result_fits js)|]. by intros ? ? _ _ [Hl _].
Qed.

(** The validator of the whole op runs after the names that it uses are bound. *)
Lemma validate_scoped {path} (v : option path) g :
  emits match v with
        | Some _ => _ ← require NScope; _ ← require NArgs; exception ← throw_exception;
                    mret (Use [VScope; VArgs] ⨾ Block (Let VErr [] ⨾ exception))
        | None => mret Skip
        end g
    (λ c g', (is_Some v → needs g' NScope = true ∧ needs g' NArgs = true) ∧
       ∀ pre, (is_Some v → [VInfo; VScope; VArgs] ⊆ pre) → scoped pre c []).
Proof.
  destruct v as [p|]; cycle 1.
  { apply emits_ret. split; [by intros [??]|]. intros pre _. apply scoped_Skip. }
  apply emits_bind, emits_require; [done | done |]. intros g1 H1 N1 _ _.
  apply emits_bind, emits_require; [done | done |]. intros g2 H2 N2 _ _.
  know. apply emits_bind. eapply emits_mono; [by apply throw_exception_scoped|]. intros exc g3 Hext _ Hexc. apply emits_ret. know.
  split; [done|]. intros pre Hpre. specialize (Hpre ltac:(eauto)).
  specialize (Hexc (VErr :: pre)%list ltac:(set_solver)).
  eapply scoped_post; [scoped_tac | set_solver].
Qed.

(** The state [g], with a scope if the function ends up with one. *)
Definition with_scope_of (g : GeneratorState) (scope : bool) : GeneratorState :=
  mkGenerator (num_args g) (is_fake_async g) (moves g)
    (λ n, if decide (n = NScope) then scope else needs g n) (use_this_cppgc g).

Lemma with_scope_of_extends g b : (needs g NScope = true → b = true) → extends g (with_scope_of g b).
Proof. intros Hb. split; simpl; try done. intros n Hn. case_decide; [|done]. subst. by apply Hb. Qed.

Lemma with_scope_of_needs g b n : n ≠ NScope → needs (with_scope_of g b) n = needs g n.
Proof. intros Hn. unfold with_scope_of. cbn [needs]. by rewrite decide_False. Qed.

(** The fragments before the body, by what is needed. *)
Lemma preamble_scoped (scope retval nargs required opctx self isolate opstate stack js : bool) (validated : Prop)
    (val selfc output : code) :
  (validated → nargs = true ∧ scope = true) →
  (∀ pre, (validated → [VInfo; VScope; VArgs] ⊆ pre) → scoped pre val []) →
  (required = true → nargs = true ∧ scope = true) → (opctx = true → nargs = true) →
  (self = true → nargs = true ∧ scope = true) →
  (∀ pre, VScope ∈ pre → VArgs ∈ pre → VInfo ∈ pre → scoped pre selfc [VSelf]) →
  (isolate = true → opctx = true) → (opstate = true → opctx = true) →
  (stack = true → opctx = true ∧ opstate = true ∧ scope = true) → (js = true → opctx = true) →
  scoped (VInfo :: given (scope || isolate) [VScope] ++ given retval [VRetval] ++ given nargs [VArgs] ++
    given opctx [VOpctx] ++ given self [VSelf] ++ given opstate [VOpstate] ++ given js [VRuntimeState])%list output [] →
  scoped [VInfo]
    (maybe scope (Let VScope [VInfo]) ⨾ maybe retval (Let VRetval [VInfo]) ⨾ maybe nargs (Let VArgs [VInfo]) ⨾
     val ⨾ maybe required (Use [VArgs; VScope]) ⨾ maybe opctx (Let VOpctx [VArgs]) ⨾ maybe self selfc ⨾
     maybe isolate (Let VScope [VOpctx]) ⨾ maybe opstate (Let VOpstate [VOpctx]) ⨾
     maybe stack (Use [VOpctx; VScope; VOpstate]) ⨾ maybe js (Let VRuntimeState [VOpctx]) ⨾ output) [].
Proof.
  intros Hv Hval Hreq Hopctx Hself Hselfc Hiso Hopst Hst Hjs Hout.
  eapply scoped_post; [|apply list_subseteq_nil].
  apply scoped_Seq with (mid := given scope [VScope]); [apply scoped_maybe; intros; apply scoped_Let; mem|].
  apply scoped_Seq with (mid := given retval [VRetval]); [apply scoped_maybe; intros; apply scoped_Let; mem|].
  apply scoped_Seq with (mid := given nargs [VArgs]); [apply scoped_maybe; intros; apply scoped_Let; mem|].
  apply scoped_Seq with (mid := []); [apply Hval; intros Hx; destruct (Hv Hx) as [-> ->]; mem|].
  apply scoped_Seq with (mid := given required []).
  { apply scoped_maybe. intros Hx. destruct (Hreq Hx) as [-> ->]. apply scoped_Use. mem. }
  apply scoped_Seq with (mid := given opctx [VOpctx]).
  { apply scoped_maybe. intros Hx. rewrite (Hopctx Hx). apply scoped_Let. mem. }
  apply scoped_Seq with (mid := given self [VSelf]).
  { apply scoped_maybe. intros Hx. destruct (Hself Hx) as [-> ->]. apply Hselfc; mem. }
  apply scoped_Seq with (mid := given isolate [VScope]).
  { apply scoped_maybe. intros Hx. rewrite (Hiso Hx). apply scoped_Let. mem. }
  apply scoped_Seq with (mid := given opstate [VOpstate]).
  { apply scoped_maybe. intros Hx. rewrite (Hopst Hx). apply scoped_Let. mem. }
  apply scoped_Seq with (mid := given stack []).
  { apply scoped_maybe. intros Hx. destruct (Hst Hx) as (-> & -> & ->). apply scoped_Use. mem. }
  apply scoped_Seq with (mid := given js [VRuntimeState]).
  { apply scoped_maybe. intros Hx. rewrite (Hjs Hx). apply scoped_Let. mem. }
  eapply scoped_weaken; [exact Hout | | done].
  apply subset_cons; [mem|]. repeat apply subset_app; apply subset_given; intros Hx; try (rewrite Hx; mem).
  apply orb_true_iff in Hx as [->| ->]; mem.
Qed.

Lemma known_subset js g l :
  VInfo ∈ l → (needs g NScope || needs g NIsolate = true → VScope ∈ l) → (needs g NArgs = true → VArgs ∈ l) →
  (needs g NOpctx = true → VOpctx ∈ l) → (needs g NOpstate = true → VOpstate ∈ l) →
  (js && needs g NRuntimeState = true → VRuntimeState ∈ l) → (needs g NRetval = true → VRetval ∈ l) →
  (needs g NSelf = true → VSelf ∈ l) → known js g ⊆ l.
Proof. intros ? ? ? ? ? ? ? ? v Hv%elem_of_known. destruct v; simpl in Hv; auto; done. Qed.

(** The slow call binds what its parts use. *)
Lemma slow_closed {path} (config : @MacroConfig path) s g :
  good g → needs g NArgs = true ∨ sig_args s = [] → length (sig_args s) = num_args g →
  (needs g NSelf = true → needs g NArgs = true) → is_async (ret_val s) = false →
  (ret_arg (ret_val s) = VoidUndefined → needs g NSelf = true ∨ is_Some (validate config)) →
  emits (generate_dispatch_slow config s) g (λ c _, scoped [VInfo] c []).
Proof.
  intros Hgood Hargs Hlen Hselfargs Hasync Hund. unfold generate_dispatch_slow, with_isolate, with_opstate,
    with_js_runtime_state, with_opctx, with_retval, with_fn_args, with_required_check, with_scope.
  apply emits_bind. eapply emits_mono; [by apply (slow_call_fits true)|]. intros args g1 H1 _ Hc1.
  apply emits_bind. eapply (emits_mono _ _ (λ c g', later true g' (ret_arg (ret_val s)) c)).
  { apply emits_when; intros _; [by apply return_value_fits|]. intros ???. apply scoped_Skip. }
  intros ret g2 H2 _ Hret. apply emits_bind. eapply emits_mono; [apply validate_scoped|].
  intros val g3 H3 _ [Hv Hval]. apply emits_bind, emits_get, emits_bind, emits_stack_trace. intros g4 H4 Hst.
  apply emits_bind, emits_get, emits_bind, emits_get, emits_bind, emits_maybe_require; [done | done |].
  intros g5 H5 Hiso K5. apply emits_bind, emits_get, emits_bind, emits_maybe_require; [done | done |].
  intros g6 H6 Hopst K6. apply emits_bind, emits_get, emits_bind, emits_maybe_require; [done | done |].
  intros g7 H7 Hjs K7. apply emits_bind, emits_get, emits_bind, emits_maybe_require; [done | done |].
  intros g8 H8 Hopctx K8. apply emits_bind, emits_get, emits_bind, emits_maybe, emits_bind, emits_get, emits_bind, emits_maybe.
  apply emits_bind, emits_maybe_require; [done | done |]. intros g9 H9 Hreq K9.
  apply emits_bind, emits_get, emits_bind, emits_self; [done |]. intros g10 self H10 Hself K10 Hselfc.
  apply emits_bind, emits_get, emits_bind, emits_maybe, emits_ret.
  assert (extends g g9) as Hext9 by ext_chain.
  assert (∀ n, needs g8 n = true → needs g10 n = true) as E8 by (intros; know; done).
  assert (∀ n, needs g4 n = true → needs g10 n = true) as E4 by (intros; know; done).
  assert (∀ n, needs g5 n = true → needs g7 n = true) as E5 by (intros; know; done).
  assert (needs g7 NOpctx = true → needs g8 NArgs = true ∧ needs g7 NOpctx = true) as Iopctx by auto.
  assert (needs g4 NIsolate && negb (needs g4 NScope) = true → needs g7 NOpctx = true) as Iiso by auto.
  assert (needs g5 NOpstate = true → needs g7 NOpctx = true) as Iopst.
  { intros Hn. apply Hopst in Hn. know. done. }
  assert (needs g3 NStackTrace = true → needs g7 NOpctx = true ∧ needs g5 NOpstate = true ∧ needs g10 NScope = true) as Ist.
  { intros Hn. destruct (Hst Hn) as (?&?&?). split_and!; [know; done | know; done | auto]. }
  assert (is_Some (validate config) → needs g8 NArgs = true ∧ needs g10 NScope = true) as Ival.
  { intros Hn. destruct (Hv Hn). know. done. }
  assert (needs g8 NArgs && requires_arguments config = true → needs g8 NArgs = true ∧ needs g10 NScope = true) as Ireq.
  { intros Hn. pose proof (Hreq Hn). apply andb_true_iff in Hn as [??]. know. done. }
  assert (needs g9 NSelf = true → needs g8 NArgs = true ∧ needs g10 NScope = true) as Iself.
  { intros Hn. split; [|by apply Hself]. rewrite (ext_self _ _ Hext9) in Hn. apply Hselfargs in Hn. know. done. }
  set (gX := with_scope_of g8 (needs g10 NScope)).
  assert (extends g8 gX) as HX by (apply with_scope_of_extends; auto).
  assert (fits true gX [] args []) as Hargs_fit.
  { eapply fits_extends; [|exact Hc1]. ext_chain. }
  assert (fits true gX [VResult] ret []) as Hret_fit.
  { apply Hret; [ext_chain|]. intros Hu. left. change (needs g10 NScope = true).
    destruct (Hund Hu) as [Hn|Hn]; [|by apply Ival]. apply Iself. by rewrite (ext_self _ _ Hext9). }
  apply preamble_scoped with (validated := is_Some (validate config)); try done; try (by intros; eauto).
  match goal with |- scoped ?l _ _ => assert (known true gX ⊆ l) as Hknown end.
  { assert (∀ n, n ≠ NScope → needs gX n = needs g8 n) as EX.
    { intros n Hn. by apply with_scope_of_needs. }
    assert (needs gX NScope = needs g10 NScope) as ES by done.
    apply known_subset; [mem | intros Hx | intros Hx..].
    - rewrite ES, (EX NIsolate), K8, K7, K6, K5 in Hx by done. apply orb_true_iff in Hx as [Hx|Hx]; [rewrite Hx; mem|].
      destruct (needs g4 NScope) eqn:E; [rewrite (E4 _ E); mem|]. rewrite Hx. cbn [andb negb]. rewrite orb_true_r. mem.
    - rewrite EX in Hx by done. rewrite Hx. mem.
    - rewrite EX, K8 in Hx by done. rewrite Hx. mem.
    - rewrite EX, K8, K7, K6 in Hx by done. rewrite Hx. mem.
    - simpl in Hx. rewrite K8, K7 in Hx by done. rewrite Hx. mem.
    - rewrite EX in Hx by done. rewrite Hx. mem.
    - rewrite EX, <- K9 in Hx by done. rewrite Hx. mem. }
  unfold fits in *. eapply scoped_post; [|apply list_subseteq_nil].
  eapply scoped_Seq; [eapply scoped_Block, scoped_weaken; [exact Hargs_fit | done | reflexivity]|].
  eapply scoped_Seq; [apply scoped_Let, list_subseteq_nil|].
  eapply scoped_weaken; [exact Hret_fit | | reflexivity].
  apply subset_app; [mem|]. intros w Hw%Hknown. apply elem_of_app. by right.
Qed.

(** ** The asynchronous call *)

Lemma emits_and {A} (m : gen A) g (Q R : A → GeneratorState → Prop) :
  emits m g Q → emits m g R → emits m g (λ a g', Q a g' ∧ R a g').
Proof.
  intros (r & g1 & Hm & Hext & Hgood & HQ) (r' & g1' & Hm' & _ & _ & HR). rewrite Hm in Hm'. simplify_eq.
  exists r', g1'. split_and!; [done..|]. by destruct r'.
Qed.

(** An isolate is only asked for with a scope, as asynchronous calls need. *)
Definition scope_for_isolate (g : GeneratorState) : Prop := needs g NIsolate = true → needs g NScope = true.

Lemma throw_exception_needs g :
  emits throw_exception g (λ _ g', ∀ n, n ≠ NArgs → needs g' n = needs g n).
Proof. unfold throw_exception, with_scope, with_opctx, with_fn_args. emits_tac; try done. Qed.

Lemma cppgc_needs_scope a : marker a = KCppgc → slow_retval a = RV8Local.
Proof. destruct a as [| | | |? ? []| | | | | | | |? ? []| | | | |[] []| | | | | | | | |]; done. Qed.

Lemma return_value_infallible_isolate a g :
  scope_for_isolate g → emits (return_value_infallible a) g (λ _ g', scope_for_isolate g').
Proof.
  intros Hg. unfold return_value_infallible, return_marker. apply emits_bind, emits_require; [done | done |].
  intros g1 H1 _ N1 _. apply emits_bind, emits_bind, emits_gets.
  assert (scope_for_isolate g1) as Hg1 by (unfold scope_for_isolate; by rewrite !N1).
  destruct (marker a) eqn:Hm; try (rewrite (cppgc_needs_scope a Hm); destruct (use_this_cppgc g1)).
  all: unfold throw_type_error_string, with_scope; emits_tac; try done.
  all: try (destruct (slow_retval a); emits_tac; try done).
  all: unfold scope_for_isolate in *; try congruence.
  all: repeat match goal with
    | H : ∀ m, m ≠ _ → needs ?g m = _ |- context [needs ?g ?n] => rewrite (H n) by done
    end; auto.
Qed.

Lemma return_value_result_isolate a g :
  scope_for_isolate g → emits (return_value_result a) g (λ _ g', scope_for_isolate g').
Proof.
  intros Hg. unfold return_value_result. apply emits_bind. eapply emits_mono; [by apply return_value_infallible_isolate|].
  intros c g1 _ _ Hg1. apply emits_bind. eapply emits_mono; [apply throw_exception_needs|].
  intros exc g2 _ _ N2. apply emits_ret. unfold scope_for_isolate. by rewrite !N2.
Qed.

Lemma future_arg r fut : get_future r = Some fut → ret_arg fut = ret_arg r.
Proof. induction r; simpl; intros; simplify_eq; auto. Qed.

Lemma result_arg r res : unwrap_result r = Some res → ret_arg res = ret_arg r.
Proof. by destruct r; intros; simplify_eq/=. Qed.

Lemma return_value_v8_value_needs a g : emits (return_value_v8_value a) g (λ _ g', g' = g).
Proof.
  unfold return_value_v8_value. apply emits_bind, emits_gets.
  destruct (slow_retval a); first [apply emits_fail | by apply emits_ret].
Qed.

Lemma map_async_return_type_fits js r g :
  scope_for_isolate g →
  emits (map_async_return_type r) g (λ p g', scoped [VScope; VResult; VArgs] p.1 [] ∧
    later js g' (ret_arg r) p.2 ∧ scope_for_isolate g').
Proof.
  intros Hg. unfold map_async_return_type. apply emits_bind.
  eapply emits_mono; [apply emits_and; [|apply return_value_v8_value_needs]|].
  { apply (return_value_v8_value_fits _ _ [VScope; VResult; VArgs]); mem. }
  intros ret g1 _ _ [Hret ->]. apply emits_bind, emits_gets. simpl.
  destruct (if is_fake_async g then Some r else get_future r) as [fut|] eqn:Hfut; [|apply emits_fail].
  assert (ret_arg fut = ret_arg r) as <- by (destruct (is_fake_async g); [congruence | by apply future_arg]).
  apply emits_bind. destruct (unwrap_result fut) as [res|] eqn:Hres.
  - apply result_arg in Hres as <-. eapply emits_mono.
    { apply emits_and; [apply (return_value_result_fits js) | by apply return_value_result_isolate]. }
    intros c g2 _ _ [[Hc _] Hi]. by apply emits_ret.
  - eapply emits_mono.
    { apply emits_and; [apply (return_value_infallible_fits js) | by apply return_value_infallible_isolate]. }
    intros c g2 _ _ [[Hc _] Hi]. by apply emits_ret.
Qed.

(** The code for an error that the op returns at once. *)
Lemma eager_fits js (b : bool) g :
  emits (if b then exception ← throw_exception;
               mret (Use [VResult] ⨾ Block (Let VErr [] ⨾ exception) ⨾ Let VResult [])
         else mret Skip) g
    (λ c g', fits js g' [VResult] c [] ∧ ∀ n, n ≠ NArgs → needs g' n = needs g n).
Proof.
  destruct b; [|apply emits_ret; split; [apply scoped_Skip | done]]. apply emits_bind.
  eapply emits_mono; [apply emits_and; [apply (throw_exception_fits js) | apply throw_exception_needs]|].
  intros exc g1 _ _ [Hexc N1]. apply emits_ret. split; [|done]. fits_tac.
Qed.

Lemma async_preamble_scoped (scope retval required opstate self stack : bool) (selfc output : code) :
  (required = true → scope = true) → (self = true → scope = true) →
  (∀ pre, VScope ∈ pre → VArgs ∈ pre → VInfo ∈ pre → scoped pre selfc [VSelf]) →
  (stack = true → opstate = true ∧ scope = true) →
  scoped (VInfo :: given scope [VScope] ++ given retval [VRetval] ++ [VArgs] ++ [VOpctx] ++
    given opstate [VOpstate] ++ given self [VSelf])%list output [] →
  scoped [VInfo]
    (maybe scope (Let VScope [VInfo]) ⨾ maybe retval (Let VRetval [VInfo]) ⨾ maybe true (Let VArgs [VInfo]) ⨾
     maybe required (Use [VArgs; VScope]) ⨾ maybe true (Let VOpctx [VArgs]) ⨾
     maybe opstate (Let VOpstate [VOpctx]) ⨾ maybe self selfc ⨾
     maybe stack (Use [VOpctx; VScope; VOpstate]) ⨾ output) [].
Proof.
  intros Hreq Hself Hselfc Hst Hout. eapply scoped_post; [|apply list_subseteq_nil].
  apply scoped_Seq with (mid := given scope [VScope]); [apply scoped_maybe; intros; apply scoped_Let; mem|].
  apply scoped_Seq with (mid := given retval [VRetval]); [apply scoped_maybe; intros; apply scoped_Let; mem|].
  apply scoped_Seq with (mid := given true [VArgs]); [apply scoped_maybe; intros; apply scoped_Let; mem|].
  apply scoped_Seq with (mid := given required []).
  { apply scoped_maybe. intros Hx. rewrite (Hreq Hx). apply scoped_Use. mem. }
  apply scoped_Seq with (mid := given true [VOpctx]); [apply scoped_maybe; intros; apply scoped_Let; mem|].
  apply scoped_Seq with (mid := given opstate [VOpstate]); [apply scoped_maybe; intros; apply scoped_Let; mem|].
  apply scoped_Seq with (mid := given self [VSelf]).
  { apply scoped_maybe. intros Hx. rewrite (Hself Hx). apply Hselfc; mem. }
  apply scoped_Seq with (mid := given stack []).
  { apply scoped_maybe. intros Hx. destruct (Hst Hx) as (-> & ->). apply scoped_Use. mem. }
  eapply scoped_weaken; [exact Hout | | done].
  apply subset_cons; [mem|]. repeat apply subset_app; try (apply subset_given; intros Hx; rewrite Hx); mem.
Qed.

Lemma async_body_scoped pre args eager mapper immediate (lazy : bool) :
  scoped pre args [] → scoped (VResult :: pre) eager [] → scoped [VScope; VResult; VArgs] mapper [] →
  scoped (VResult :: pre) immediate [] → VArgs ∈ pre → VOpctx ∈ pre →
  scoped pre ((Block args ⨾ Let VResult []) ⨾ eager ⨾ Get VPromiseId 0 ⨾
    Use [VOpctx; VPromiseId; VResult] ⨾ closure mapper ⨾
    (if lazy then Skip else Block (Let VResult [] ⨾ immediate))) [].
Proof.
  intros Hargs Heager Hmap Himm Ha Ho. unfold closure. eapply scoped_post; [|apply list_subseteq_nil].
  destruct lazy; scoped_tac.
Qed.

Lemma async_closed {path} (config : @MacroConfig path) s g :
  good g → needs g NArgs = true ∨ sig_args s = [] → length (sig_args s) = num_args g →
  ARef Ref JsRuntimeState ∉ (sig_args s).*1 →
  (ret_arg (ret_val s) = VoidUndefined → needs g NSelf = true) →
  emits (generate_dispatch_async config s) g (λ c _, scoped [VInfo] c []).
Proof.
  intros Hgood Hargs Hlen Hjs Hund. unfold generate_dispatch_async, with_opstate, with_opctx, with_retval,
    with_fn_args, with_required_check, with_scope.
  apply emits_bind, emits_get, emits_bind. eapply emits_mono.
  { apply (emits_self _ _ _ (λ c g', (needs g NSelf = true → needs g' NScope = true) ∧
      ∃ self, c = maybe (needs g NSelf) self ∧
        ∀ pre, VScope ∈ pre → VArgs ∈ pre → VInfo ∈ pre → scoped pre self [VSelf])); [done|].
    intros g' c _ Hn _ Hc. split; [by intros; apply Hn | by exists c]. }
  intros ? g1 H1 Hgood1 (Hself & self & -> & Hselfc). specialize (Hgood1 Hgood).
  apply emits_bind. eapply emits_mono.
  { apply (slow_call_fits false); [done | | |done]; [|by rewrite (ext_args _ _ H1)].
    destruct Hargs as [Hn|Hn]; [left | by right]. by apply (ext_needs _ _ H1). }
  intros args g2 H2 _ Hc2. apply emits_bind, emits_require; [done | done |]. intros g3 H3 N3 K3 _.
  apply emits_bind, emits_require; [done | done |]. intros g4 H4 N4 K4 _.
  apply emits_bind, emits_get, emits_bind.
  eapply (emits_mono _ _ (λ _ g', scope_for_isolate g')).
  { unfold scope_for_isolate. destruct (needs g4 NIsolate) eqn:E; [|apply emits_ret; congruence].
    apply emits_require; [done | done |]. intros g5 _ Hn _ _ _. done. }
  intros _ g5 H5 _ Hiso5. apply emits_bind. eapply emits_mono; [by apply (map_async_return_type_fits false)|].
  intros p g6 H6 _ (Hp1 & Hp2 & Hiso6). apply emits_bind, emits_gets, emits_bind.
  eapply emits_mono; [apply (eager_fits false)|]. intros eager g7 H7 _ [Heager K7].
  apply emits_bind, emits_get, emits_bind, emits_get, emits_bind, emits_maybe_require; [done | done |].
  intros g8 H8 _ K8. apply emits_bind, emits_get, emits_bind, emits_maybe_require; [done | done |].
  intros g9 H9 _ K9. apply emits_bind, emits_get, emits_bind, emits_maybe, emits_bind, emits_get, emits_bind, emits_maybe.
  apply emits_bind, emits_maybe_require; [done | done |]. intros g10 H10 Hreq K10.
  apply emits_bind, emits_get, emits_bind, emits_maybe, emits_bind, emits_stack_trace. intros g11 H11 _. apply emits_ret.
  assert (needs g9 NArgs = true) as A9 by (know; done).
  assert (needs g8 NOpctx = true) as A8 by (know; done).
  set (scope := needs g10 NScope || needs g7 NStackTrace).
  assert (∀ n, needs g9 n = true → needs g10 n = true) as E9 by (intros; know; done).
  assert (needs g NSelf = true → scope = true) as Iself.
  { intros Hn. apply Hself in Hn. unfold scope. know. by rewrite (ext_needs _ _ H10). }
  assert (needs g6 NIsolate = true → scope = true) as Iiso.
  { intros Hn. apply Hiso6 in Hn. unfold scope. know. by rewrite (ext_needs _ _ H10). }
  set (gX := with_scope_of g9 scope).
  assert (extends g9 gX) as HX.
  { apply with_scope_of_extends. intros Hn. unfold scope. by rewrite E9. }
  assert (extends g g9) as Hext9 by ext_chain.
  rewrite A9 in Hreq. rewrite A9, A8. cbn [andb orb] in *. apply async_preamble_scoped; [ | done | done | |].
  { intros Hn. unfold scope. by rewrite Hreq. }
  { intros Hn. unfold scope. by rewrite Hn, !orb_true_r. }
  match goal with |- scoped ?l _ _ => assert (known false gX ⊆ l) as Hknown end.
  { apply known_subset; [mem | intros Hx | intros Hx..].
    - change (scope || needs gX NIsolate = true) in Hx. unfold gX in Hx.
      rewrite with_scope_of_needs, K9, K8, K7 in Hx by done.
      apply orb_true_iff in Hx as [Hx|Hx]; [rewrite Hx | rewrite (Iiso Hx)]; mem.
    - mem.
    - mem.
    - unfold gX in Hx. rewrite with_scope_of_needs, K9, K8 in Hx by done. rewrite Hx. mem.
    - done.
    - unfold gX in Hx. rewrite with_scope_of_needs in Hx by done. rewrite Hx. mem.
    - unfold gX in Hx. rewrite with_scope_of_needs, (ext_self _ _ Hext9) in Hx by done. rewrite Hx. mem. }
  assert (∀ pre c post, fits false gX pre c post → scoped (pre ++ (VInfo :: given scope [VScope] ++
    given (needs g9 NRetval) [VRetval] ++ [VArgs] ++ [VOpctx] ++
    given (needs g7 NOpstate || needs g7 NStackTrace) [VOpstate] ++ given (needs g NSelf) [VSelf]))%list c post) as Hweak.
  { intros pre c post Hc. eapply scoped_weaken; [exact Hc | | done].
    intros v [Hv|Hv]%elem_of_app; apply elem_of_app; [by left | right; by apply Hknown]. }
  apply async_body_scoped.
  - apply (Hweak []). eapply fits_extends; [|exact Hc2]. ext_chain.
  - apply (Hweak [VResult]). eapply fits_extends; [|exact Heager]. ext_chain.
  - done.
  - apply (Hweak [VResult]). apply Hp2; [ext_chain|]. intros Hu. left. by apply Iself, Hund.
  - mem.
  - mem.
Qed.
End functions.
