(* ===== verification/Op2Reads.v ===== *)
(** Which of the values that JavaScript passes become which arguments of an op: the slow and
    the asynchronous call read them by position, V8 passes them to the fast call in order. *)

From S2P Require Import Prelude Op2Config Op2Signature Op2Generics Op2Codegen Op2Fast.

Local Open Scope code_scope.

(** The reads of the values from JavaScript, in the order of the code. *)
Fixpoint reads (c : code) : list (var * nat) :=
  match c with
  | Get x n => [(x, n)]
  | Block c => reads c
  | Seq c d => reads c ++ reads d
  | Skip | Let _ _ | Use _ => []
  end.

(** The names that code binds, and those that it uses before it binds them. *)
Fixpoint binds (c : code) : list var :=
  match c with
  | Let x _ | Get x _ => [x]
  | Seq c d => binds c ++ binds d
  | Skip | Use _ | Block _ => []
  end.
Fixpoint inputs (c : code) : list var :=
  match c with
  | Let _ l | Use l => l
  | Block c => inputs c
  | Seq c d => inputs c ++ filter (λ x, x ∉ binds c) (inputs d)
  | Skip | Get _ _ => []
  end.

Definition quiet (c : code) : Prop := reads c = [].

Definition quiet_moves (g : GeneratorState) : Prop := Forall quiet (moves g).

(** If the generator returns a result, it is as [P] says. *)
Definition gives {A} (m : gen A) (P : A → Prop) : Prop :=
  ∀ g a g', quiet_moves g → m g = Ret (Ok a, g') → quiet_moves g' ∧ P a.

Lemma gives_bind {A B} (m : gen A) (k : A → gen B) P Q :
  gives m P → (∀ a, P a → gives (k a) Q) → gives (m ≫= k) Q.
Proof.
  intros Hm Hk g b g' Hg Hb. unfold mbind, resultM_bind in Hb.
  destruct (m g) as [[[a|e] g1]|] eqn:E; [|done..]. destruct (Hm _ _ _ Hg E) as [Hg1 Ha].
  by apply (Hk a Ha g1).
Qed.

Lemma gives_ret {A} (a : A) (P : A → Prop) : P a → gives (mret a) P.
Proof. intros Ha g b g' Hg [= <- <-]. done. Qed.

Lemma gives_mono {A} (m : gen A) (P Q : A → Prop) : gives m P → (∀ a, P a → Q a) → gives m Q.
Proof. intros Hm HPQ g a g' Hg Ha. destruct (Hm _ _ _ Hg Ha). auto. Qed.

Lemma gives_fail {A} e (P : A → Prop) : gives (fail e) P.
Proof. done. Qed.
Lemma gives_panics {A} f (P : A → Prop) : gives (panics f) P.
Proof. done. Qed.
Lemma gives_get n : gives (get n) (λ _, True).
Proof. by intros g a g' Hg [= <- <-]. Qed.
Lemma gives_gets {A} (f : GeneratorState → A) : gives (gets f) (λ _, True).
Proof. by intros g a g' Hg [= <- <-]. Qed.
Lemma gives_moves : gives (gets moves) (Forall quiet).
Proof. by intros g a g' Hg [= <- <-]. Qed.
Lemma gives_require n : gives (require n) (λ _, True).
Proof. by intros g a g' Hg [= <- <-]. Qed.
Lemma gives_push_move c : quiet c → gives (push_move c) (λ _, True).
Proof. intros Hc g a g' Hg [= <- <-]. split; [|done]. apply Forall_app. split; [exact Hg | by constructor]. Qed.
Lemma gives_when b (m : gen code) : gives m quiet → gives (when b m) quiet.
Proof. intros Hm. by destruct b; [|apply gives_ret]. Qed.

Create HintDb gives.
#[export] Hint Resolve gives_get gives_gets gives_require gives_when : gives.
#[export] Hint Extern 1 (gives (push_move _) _) => (apply gives_push_move; reflexivity) : gives.

(** Code whose parts are quiet. *)
Ltac quiet_done :=
  try exact I; unfold quiet in *; cbn [reads]; repeat match goal with H : reads _ = [] |- _ => rewrite H; clear H end; reflexivity.

Ltac quiet_tac :=
  repeat match goal with
    | |- gives (mret _) _ => apply gives_ret
    | |- gives (fail _) _ => apply gives_fail
    | |- gives (panics _) _ => apply gives_panics
    | |- gives (if ?b then _ else _) _ => destruct b
    | |- gives (match ?x with _ => _ end) _ => destruct x
    | |- gives (mbind _ ?m) _ =>
        first [ eapply gives_bind; [solve [eauto 3 with gives]|intros ? ?]
              | apply (gives_bind m _ quiet); [|intros ? ?]
              | apply (gives_bind m _ (λ _, True)); [|intros ? ?] ]
    | |- gives (when _ _) _ => apply gives_when
    | |- gives _ _ => solve [eauto 3 with gives]
    end; try quiet_done.

(** * The fragments *)

Lemma with_scope_quiet : gives with_scope quiet.
Proof. by apply gives_ret. Qed.
#[export] Hint Resolve with_scope_quiet : gives.

Lemma throw_exception_quiet : gives throw_exception quiet.
Proof. unfold throw_exception, with_scope, with_opctx, with_fn_args. quiet_tac. Qed.

Lemma throw_type_error_string_quiet v : gives (throw_type_error_string v) quiet.
Proof. unfold throw_type_error_string, with_scope. quiet_tac. Qed.

Lemma throw_type_error_quiet : gives throw_type_error quiet.
Proof. unfold throw_type_error. quiet_tac. Qed.
Lemma throw_type_error_static_string_quiet v : gives (throw_type_error_static_string v) quiet.
Proof. unfold throw_type_error_static_string. quiet_tac. Qed.
#[export] Hint Resolve throw_exception_quiet throw_type_error_string_quiet throw_type_error_quiet
  throw_type_error_static_string_quiet : gives.

Lemma v8slice_to_buffer_quiet i t b : gives (v8slice_to_buffer i t b) quiet.
Proof. unfold v8slice_to_buffer. destruct b; quiet_tac. Qed.
#[export] Hint Resolve v8slice_to_buffer_quiet : gives.

Lemma from_arg_array_or_buffer_quiet i b m s : gives (from_arg_array_or_buffer i b m s) quiet.
Proof.
  unfold from_arg_array_or_buffer, from_arg_buffer, from_arg_arraybuffer, from_arg_any_buffer, make_v8slice.
  destruct s; [destruct m|..]; quiet_tac.
Qed.
#[export] Hint Resolve from_arg_array_or_buffer_quiet : gives.

Lemma v8_to_arg_quiet v i m : gives m quiet → gives (v8_to_arg v i m) quiet.
Proof. intros Hm. unfold v8_to_arg. quiet_tac. Qed.
#[export] Hint Resolve v8_to_arg_quiet : gives.

Section reads.
Context `{!Reparse}.

Lemma reparse_quiet ty : gives (reparse ty) (λ _, True).
Proof. unfold reparse. destruct (reparses ty); [by apply gives_ret | done]. Qed.
#[local] Hint Resolve reparse_quiet : gives.

Lemma numeric_from_arg_quiet i n : gives (numeric_from_arg i n) quiet.
Proof. unfold numeric_from_arg, from_arg_option. destruct n; quiet_tac. Qed.
#[local] Hint Resolve numeric_from_arg_quiet : gives.

Lemma from_arg_quiet i a r : gives (from_arg i a r) quiet.
Proof.
  destruct a as [| |s|[]|b m s|e|[] []|s|[]|s|[]|n f|b m s|v|v|[] v|[] v|n f|t|p t|t|l|t []|t|t o d| |]; simpl;
    unfold from_arg_option, convert_or_throw, optional; quiet_tac.
Qed.

(** There is no code for [Rc<JsRuntimeState>]. *)
Lemma from_arg_rc i s r : gives (from_arg i (ARc s) r) (λ _, False).
Proof. apply gives_fail. Qed.

Lemma early_validates_quiet i rest exception early :
  quiet exception → quiet early → gives (early_validates i rest exception early) quiet.
Proof.
  intros Hexc. revert early. induction rest as [|m rest IH]; intros early Hearly; simpl; [by apply gives_ret|].
  destruct m; try by apply IH. eapply gives_bind; [apply gives_require|]. intros _ _. apply IH.
  unfold quiet in *. simpl. by rewrite Hexc.
Qed.

Lemma extract_arg_reads attrs i n : gives (extract_arg attrs i n) (λ c, reads c = [(VArg i, n)]).
Proof.
  unfold extract_arg. eapply gives_bind; [apply throw_exception_quiet|]. intros exc Hexc.
  eapply gives_bind; [by apply early_validates_quiet|]. intros early Hearly. apply gives_ret. simpl. by rewrite Hearly.
Qed.

(** The arguments that JavaScript passes, from argument [i] and position [n] on. *)
Fixpoint positions (i n : nat) (l : list (Arg * Attributes)) : list (var * nat) :=
  match l with
  | [] => []
  | (a, _) :: l' => if is_virtual a then positions (S i) n l' else (VArg i, n) :: positions (S i) (S n) l'
  end.

Definition no_rc (l : list (Arg * Attributes)) : Prop := ARc JsRuntimeState ∉ l.*1.

Lemma slow_args_reads i n l r args deferred :
  quiet deferred →
  gives (slow_args i n l r args deferred)
    (λ p, reads p.1 = (reads args ++ positions i n l)%list ∧ quiet p.2 ∧ no_rc l).
Proof.
  revert i n args deferred. induction l as [|[a attrs] l IH]; intros i n args deferred Hd; cbn [slow_args positions].
  { apply gives_ret. simpl. rewrite app_nil_r. split_and!; [done..|]. apply not_elem_of_nil. }
  assert (gives (from_arg i a r) (λ c, quiet c ∧ a ≠ ARc JsRuntimeState)) as Hfrom.
  { intros g c g' Hg Hc. destruct (from_arg_quiet i a r g c g' Hg Hc). split_and!; [done..|].
    intros ->. by destruct (from_arg_rc i JsRuntimeState r g c g' Hg Hc). }
  eapply gives_bind; [exact Hfrom|]. intros c [Hc Ha].
  assert (no_rc l → no_rc ((a, attrs) :: l)) as Hrc.
  { intros Hl [Heq|Hin]%elem_of_cons; [by apply Ha | by apply Hl]. }
  destruct (is_virtual a).
  - eapply gives_mono; [apply IH; unfold quiet in *; simpl; by rewrite Hd, Hc|].
    intros p (? & ? & ?). auto.
  - eapply gives_bind; [apply extract_arg_reads|]. intros ex Hex. eapply gives_mono; [by apply IH|].
    intros p (-> & ? & ?). split_and!; [|done|auto]. simpl. rewrite Hex, Hc. by rewrite <- app_assoc.
Qed.

Lemma call_quiet r : gives (call r) quiet.
Proof.
  unfold call. eapply gives_bind; [apply gives_gets|]. intros uses _.
  eapply gives_bind; [apply gives_moves|]. intros ms Hms.
  destruct ms as [|m ms]; [by apply gives_ret|]. destruct (is_async r); apply gives_ret; [|done].
  unfold quiet. cbn [reads]. induction Hms as [|c l Hc _ IH]; [done|]. simpl. by rewrite Hc.
Qed.

Lemma slow_call_reads s n :
  gives (generate_dispatch_slow_call s n) (λ c, reads c = positions 0 n (sig_args s) ∧ no_rc (sig_args s)).
Proof.
  unfold generate_dispatch_slow_call. eapply gives_bind; [by apply slow_args_reads|].
  intros p (Hp & Hd & ?). eapply gives_bind; [apply call_quiet|]. intros c Hc. apply gives_ret.
  split; [|done]. simpl. by rewrite Hp, Hd, Hc, app_nil_r.
Qed.

Lemma return_value_infallible_quiet a : gives (return_value_infallible a) quiet.
Proof. unfold return_value_infallible, return_marker. quiet_tac. Qed.
#[local] Hint Resolve return_value_infallible_quiet : gives.

Lemma return_value_result_quiet a : gives (return_value_result a) quiet.
Proof. unfold return_value_result. quiet_tac. Qed.
#[local] Hint Resolve return_value_result_quiet : gives.

Lemma return_value_quiet r : gives (return_value r) quiet.
Proof. unfold return_value. quiet_tac. Qed.
#[local] Hint Resolve return_value_quiet : gives.

Lemma return_value_v8_value_quiet a : gives (return_value_v8_value a) quiet.
Proof. unfold return_value_v8_value. eapply gives_bind; [apply gives_gets|]. intros this _. destruct this, (slow_retval a), (marker a); quiet_tac. Qed.

Lemma map_async_return_type_quiet r : gives (map_async_return_type r) (λ p, quiet p.1 ∧ quiet p.2).
Proof.
  unfold map_async_return_type. eapply gives_bind; [apply return_value_v8_value_quiet|]. intros ret Hret.
  eapply gives_bind; [apply gives_gets|]. intros fake _. destruct (if (fake : bool) then Some r else get_future r); [|done].
  eapply gives_bind; [|intros imm Himm; by apply gives_ret]. by destruct (unwrap_result _); auto with gives.
Qed.

Lemma with_self_quiet r : gives (with_self r) quiet.
Proof. unfold with_self. quiet_tac. Qed.
#[local] Hint Resolve with_self_quiet : gives.

(** * The calls *)

(** A bind whose result is quiet. *)
Lemma gives_quiet {B} (m : gen code) (k : code → gen B) Q :
  gives m quiet → (∀ c, quiet c → gives (k c) Q) → gives (m ≫= k) Q.
Proof. apply gives_bind. Qed.

Lemma gives_flag {B} n (k : bool → gen B) Q : (∀ b, gives (k b) Q) → gives (get n ≫= k) Q.
Proof. intros Hk. eapply gives_bind; [apply gives_get|]. auto. Qed.

Ltac part_tac :=
  repeat first
    [ apply gives_flag; intros ?
    | eapply gives_bind; [apply gives_gets | intros ? _]
    | eapply gives_bind; [apply gives_require | intros ? _]
    | apply gives_quiet; [solve [unfold with_isolate, with_opstate, with_js_runtime_state, with_opctx, with_retval,
        with_fn_args, with_required_check, with_scope, with_stack_trace; quiet_tac] | intros ? ?] ].

Ltac rewrite_quiet := unfold quiet in *; cbn [reads]; repeat match goal with H : reads _ = _ |- _ => rewrite H; clear H end.

Lemma slow_reads {path} (config : @MacroConfig path) s :
  gives (generate_dispatch_slow config s) (λ c, reads c = positions 0 0 (sig_args s) ∧ no_rc (sig_args s)).
Proof.
  unfold generate_dispatch_slow. eapply gives_bind; [apply slow_call_reads|]. intros args [Hargs Hrc]. part_tac.
  apply gives_ret. split; [|done]. rewrite_quiet. by rewrite app_nil_r.
Qed.

Lemma async_reads {path} (config : @MacroConfig path) s :
  gives (generate_dispatch_async config s)
    (λ c, reads c = (positions 0 (if promise_id config then 0 else 1) (sig_args s) ++ [(VPromiseId, 0)])%list ∧
          no_rc (sig_args s)).
Proof.
  unfold generate_dispatch_async. part_tac. eapply gives_bind; [apply slow_call_reads|]. intros args [Hargs Hrc]. part_tac.
  eapply (gives_bind _ _ (λ _, True)); [destruct b0; [apply gives_require | by apply gives_ret]|]. intros _ _.
  eapply gives_bind; [apply map_async_return_type_quiet|]. intros p [Hp1 Hp2]. part_tac.
  apply gives_ret. split; [|done]. unfold closure. destruct (async_lazy config || async_deferred config); rewrite_quiet; by rewrite ?app_nil_r.
Qed.

(** * The fast call *)

(** An argument has no value of its own in the fast call exactly when it has none in the slow one. *)
Lemma virtual_agrees a t :
  map_arg_to_v8_fastcall_type a = Ok (Some t) → a ≠ ARc JsRuntimeState → bool_decide (t = FVirtual) = is_virtual a.
Proof.
  intros Ht Ha. destruct a as [| |s|[]|b m s|e|[] []|[]|[]|s|[]|n f|b m s|v|v|[] v|[] v|n f|ty|p ty|ty|l|ty []|ty|ty o d| |];
    simpl in *; try done; repeat case_match; simplify_eq; done.
Qed.

Lemma fast_signature_parameters i l args n :
  no_rc l → fast_signature_args i l = Ret (Ok (Some args)) →
  input_args (mkFast args FVoid false) = (positions i n l).*1.
Proof.
  revert i n args. induction l as [|[a attrs] l IH]; intros i n args Hrc; cbn [fast_signature_args positions].
  { by intros [= <-]. }
  intros Hargs. destruct (map_arg_to_v8_fastcall_type a) as [[t|]|] eqn:Ht; try done.
  destruct (bool_decide (t = FCallbackOptions)); [done|]. cbn in Hargs.
  destruct (fast_signature_args (S i) l) as [[[l'|]|]|] eqn:Hl; simplify_eq/=.
  assert (no_rc l) as Hrc' by (intros Hin; apply Hrc; by right).
  rewrite <- (virtual_agrees a t) by (done || (intros ->; apply Hrc; left)).
  destruct (decide (t = FVirtual)) as [Hv|Hv].
  - rewrite bool_decide_true by done. change (input_args (mkFast l' FVoid false) = (positions (S i) n l).*1).
    by apply IH.
  - rewrite bool_decide_false by done.
    change (VArg i :: input_args (mkFast l' FVoid false) = VArg i :: (positions (S i) (S n) l).*1). f_equal. by apply IH.
Qed.

(** The parameters of a fast call, with the ones that the generator adds. *)
Definition parameters_of (s : ParsedSignature) (f : FastSignature) : Prop :=
  ∃ options : bool,
    input_args f = ((if is_async (ret_val s) then [VPromiseId] else []) ++ (positions 0 0 (sig_args s)).*1 ++
      (if options then [VCallbackOptions] else []))%list.

Lemma fast_body_parameters f error args result :
  has_fast_api_callback_options f = false →
  gives (fast_body f error args result) (λ d, ∀ f' metrics body, d = Fast_ f' metrics body →
    ∃ options : bool, input_args f' = (input_args f ++ (if options then [VCallbackOptions] else []))%list).
Proof.
  intros Hf. unfold fast_body, throw_type_error_fast, create_scope. part_tac. apply gives_ret.
  intros f' metrics body [= <- _ _]. destruct b6; [exists true | exists false; by rewrite app_nil_r].
  unfold ensure_fast_api_callback_options, input_args. rewrite Hf. simpl. by rewrite omap_app.
Qed.

Lemma throw_type_error_fast_quiet : gives throw_type_error_fast quiet.
Proof. unfold throw_type_error_fast, create_scope. quiet_tac. Qed.
#[local] Hint Resolve throw_type_error_fast_quiet : gives.

Lemma byte_slice_to_buffer_quiet i t b : gives (byte_slice_to_buffer i t b) quiet.
Proof. unfold byte_slice_to_buffer. destruct b; quiet_tac. Qed.
#[local] Hint Resolve byte_slice_to_buffer_quiet : gives.

Lemma map_v8_fastcall_arg_to_arg_quiet i a : gives (map_v8_fastcall_arg_to_arg i a) quiet.
Proof. unfold map_v8_fastcall_arg_to_arg, fast_api_typed_array_to_buffer, unwrap_buffer. quiet_tac. Qed.

Lemma call_args_quiet l acc : quiet acc → gives (call_args l acc) quiet.
Proof.
  revert acc. induction l as [|f l IH]; intros acc Hacc; simpl; [by apply gives_ret|].
  assert (∀ i a, gives (if is_handle_scope a then _ ← require NScope; call_args l acc
    else c ← map_v8_fastcall_arg_to_arg i a; call_args l (acc ⨾ c)) quiet) as Hstep.
  { intros i a. destruct (is_handle_scope a).
    - eapply gives_bind; [apply gives_require|]. auto.
    - eapply gives_bind; [apply map_v8_fastcall_arg_to_arg_quiet|]. intros c Hc. apply IH. quiet_done. }
  destruct f; auto.
Qed.

Lemma gives_lift {A} (m : fast_fails A) : gives (lift m) (λ a, m = Ret (Ok a)).
Proof. intros g a g' Hg Ha. unfold lift in Ha. destruct m as [r|]; [|done]. by simplify_eq. Qed.

Lemma fast_parameters {path} (config : @MacroConfig path) s :
  no_rc (sig_args s) →
  gives (generate_dispatch_fast config s)
    (λ d, ∀ f metrics body, d = Fast_ f metrics body → parameters_of s f ∧ fake_async config = false).
Proof.
  intros Hrc. unfold generate_dispatch_fast.
  destruct (fast_alternative config) as [alt|]; [destruct (reparses alt); [by apply gives_ret | done]|].
  destruct (_ || fake_async config) eqn:Hfake; [by apply gives_ret|]. apply orb_false_iff in Hfake as [_ Hfake].
  eapply gives_bind; [apply gives_lift|]. intros [f0|] Hsig; [|by apply gives_ret].
  set (f1 := if is_async (ret_val s) then insert_promise_id f0 else f0).
  assert (has_fast_api_callback_options f1 = false ∧
    input_args f1 = ((if is_async (ret_val s) then [VPromiseId] else []) ++ (positions 0 0 (sig_args s)).*1)%list)
    as [Hopts Hin].
  { unfold get_fast_signature in Hsig. apply bind_Ret_inv in Hsig as (r & Hr & Hsig).
    destruct r as [[args|]|]; try done. apply (fast_signature_parameters 0 _ _ 0) in Hr; [|done].
    destruct (map_retval_to_v8_fastcall_type _) as [[out|]|]; simplify_eq/=.
    unfold f1. destruct (is_async (ret_val s)); [|done]. split; [done|].
    change (VPromiseId :: input_args (mkFast args FVoid false) = VPromiseId :: (positions 0 0 (sig_args s)).*1).
    by f_equal. }
  apply gives_quiet; [unfold generate_fast_result_early_exit, create_scope; quiet_tac|]. intros error _.
  eapply gives_bind; [by apply call_args_quiet|]. intros args _. eapply (gives_bind _ _ (λ _, True)).
  { destruct (is_async (ret_val s)); [|by apply gives_ret]. eapply gives_bind; [apply gives_require|]. intros _ _.
    eapply gives_bind; [apply map_async_return_type_quiet|]. intros p _. by apply gives_ret. }
  intros result _. eapply gives_mono; [by apply fast_body_parameters|]. intros d Hbody f m b Heq.
  destruct (Hbody _ _ _ Heq) as [options Ho]. split; [|done]. exists options. by rewrite Ho, Hin, <- app_assoc.
Qed.

Lemma elem_of_positions i n m l v p :
  (v, p) ∈ positions i n l ↔ (n ≤ p)%nat ∧ (positions i m l).*1 !! (p - n) = Some v.
Proof.
  revert i n m. induction l as [|[a attrs] l IH]; intros i n m; cbn [positions].
  { rewrite elem_of_nil. simpl. split; [done | by intros [_ ?]]. }
  destruct (is_virtual a); [apply IH|]. rewrite elem_of_cons, (IH _ _ (S m)). simpl.
  destruct (decide (p = n)) as [->|Hne].
  - rewrite Nat.sub_diag. simpl. split; [|intros [_ [= <-]]; by left]. intros [[= ->]|[? _]]; [done | lia].
  - destruct (decide (n < p)) as [Hlt|Hlt]; [|split; [intros [[= _ ?]|[? _]]; lia | intros [? _]; lia]].
    replace (p - n) with (S (p - S n)) by lia. simpl. split; [intros [[= _ ?]|[_ ?]]; [lia | split; [lia|done]] |].
    intros [_ ?]. right. split; [lia | done].
Qed.

Lemma positions_args i n l k v : (positions i n l).*1 !! k = Some v → ∃ j, v = VArg j.
Proof.
  revert i n k. induction l as [|[a attrs] l IH]; intros i n k; [done|]. cbn [positions].
  destruct (is_virtual a); [apply IH|]. destruct k as [|k]; simpl; [intros [= <-]; by eexists | apply IH].
Qed.

(** ** What the arguments are made from *)

Definition is_proto (a : Arg) : bool := match a with CppGcResource proto _ => proto | _ => false end.

(** The fragment of an argument starts from the value of the argument. *)
Definition from_its_value (i : nat) (m : gen code) : Prop := gives m (λ c, VArg i ∈ inputs c).

Lemma inputs_seq v c d : v ∈ inputs c ∨ ¬ (v ∈ binds c) ∧ v ∈ inputs d → v ∈ inputs (Seq c d).
Proof. intros [Hc|[Hb Hd]]; cbn [inputs]; apply elem_of_app; [by left | right]. by apply list_elem_of_filter. Qed.

Ltac in_list :=
  match goal with
  | H : ?x ∈ ?l |- ?x ∈ ?l => exact H
  | |- ?x ∈ ?x :: _ => left
  | |- _ ∈ _ :: _ => right; in_list
  end.
Ltac not_in_list :=
  let Hin := fresh in
  cbn [binds app]; intros Hin; repeat (apply elem_of_cons in Hin as [Hin|Hin]; [discriminate Hin|]);
  by apply elem_of_nil in Hin.
Ltac in_inputs :=
  match goal with
  | |- _ ∈ inputs (Seq _ _) => apply inputs_seq; first [left; solve [in_inputs] | right; split; [not_in_list | in_inputs]]
  | |- _ ∈ inputs _ => cbn [inputs]; in_list
  end.

Ltac source_tac :=
  repeat match goal with
    | |- gives (mret _) _ => apply gives_ret; first [in_inputs | in_list]
    | |- gives (fail _) _ => apply gives_fail
    | |- gives (panics _) _ => apply gives_panics
    | |- gives (if ?b then _ else _) _ => destruct b
    | |- gives (match ?x with _ => _ end) _ => destruct x
    | |- gives (mbind _ ?m) _ => eapply gives_bind; [solve [eauto 4 with gives]|intros ? ?]
    end.

Lemma array_or_buffer_source i b m s : from_its_value i (from_arg_array_or_buffer i b m s).
Proof.
  unfold from_its_value, from_arg_array_or_buffer, from_arg_buffer, from_arg_arraybuffer, from_arg_any_buffer, make_v8slice.
  destruct s; source_tac.
  eapply (gives_bind _ _ (λ l, VArg i ∈ l)); [destruct m|intros l Hl]; source_tac.
Qed.

Lemma buffer_source i b m s r : from_its_value i (from_arg i (ABuffer b m s) r).
Proof.
  unfold from_its_value. cbn [from_arg]. eapply gives_bind; [apply array_or_buffer_source|]. intros c Hc.
  apply gives_ret, inputs_seq. right. split; [not_in_list | done].
Qed.

Lemma v8_to_arg_source v i m : gives m quiet → from_its_value i (v8_to_arg v i m).
Proof.
  intros Hm. unfold from_its_value, v8_to_arg. eapply (gives_bind _ _ quiet); [case_decide; [by apply gives_ret | done]|].
  intros c _. source_tac.
Qed.
#[local] Hint Resolve v8_to_arg_source : gives.

Lemma convert_source i c uses exception :
  (binds c = [] ∨ VArg i ∈ inputs c) → VArg i ∈ uses → VArg i ∈ inputs (Seq c (convert_or_throw i uses exception)).
Proof.
  intros Hc Hu. apply inputs_seq. destruct Hc as [Hc|]; [right|by left]. split; [rewrite Hc; apply not_elem_of_nil|].
  apply inputs_seq. by left.
Qed.

Lemma from_arg_source i a r : is_virtual a = false → is_proto a = false → from_its_value i (from_arg i a r).
Proof.
  intros Hv Hp. unfold from_its_value.
  destruct a as [| |s|[]|b m s|e|[] []|s|[]|s|[]|n f|b m s|v|v|[] v|[] v|n f|t|p t|t|l|t []|t|t o d| |]; try done;
    unfold is_proto in Hp; try subst p; try match goal with |- gives (from_arg _ (ABuffer _ _ _) _) _ => by apply buffer_source end;
    cbn [from_arg]; try by (apply v8_to_arg_source, throw_type_error_quiet).
  all: unfold numeric_from_arg, from_arg_option, convert_or_throw, optional; source_tac.
  eapply (gives_bind _ _ (λ c, binds c = [] ∨ VArg i ∈ inputs c)).
  - destruct d; [destruct (default_supported _)|];
      first [apply gives_fail | apply gives_ret; first [by left | right; in_inputs]].
  - intros c Hc. apply gives_ret. apply convert_source; [done | in_list].
Qed.

(** The fragments of the fast call too, whether [#[proto]] or not. *)
Lemma fast_arg_source i a : is_virtual a = false → from_its_value i (map_v8_fastcall_arg_to_arg i a).
Proof.
  intros Hv. unfold from_its_value.
  destruct a as [| |s|[]|b m s|e|[] []|s|[]|s|[]|n f|b m s|v|v|[] v|[] v|n f|t|p t|t|l|t []|t|t o d| |]; try done;
    cbn [map_v8_fastcall_arg_to_arg];
    try by (apply v8_to_arg_source, throw_type_error_fast_quiet).
  all: unfold fast_api_typed_array_to_buffer, unwrap_buffer; source_tac.
Qed.

(** C26. The slow and the fast call of an op read the same values.  Every argument of an
    accepted op that JavaScript passes is read by the slow function from its own position,
    in the order of the signature and without gaps: from the first, or from the second if
    the op is asynchronous, when the first is the id of the promise (the argument of an op
    that asked for the id starts with it).  If the op has a fast call, and is not an
    asynchronous op that asked for the id of its promise (for which this fails,
    [promise_id_shifts_fast_arguments]), then its parameters, which V8 fills with the same
    values in order, are those variables at those positions: a value that is read into a
    variable at a position is the parameter there, and the reverse, but for the callback
    options that V8 adds at the end.  The code that makes an argument starts from that
    variable in both calls, but for the slow call of [#[proto]], which starts from [this]
    ([proto_unwraps_this]). *)
Theorem calls_read_same_arguments {path} (config : @MacroConfig path) s op :
  generate_op2 config s = Ret (Ok op) →
  reads (op_slow op) =
    (positions 0 (if op_is_async op && negb (promise_id config) then 1 else 0) (sig_args s) ++
     if op_is_async op then [(VPromiseId, 0)] else [])%list ∧
  (∀ f metrics body, op_fast op = Some (Fast_ f metrics body) →
    (op_is_async op = true → promise_id config = false) →
    ∀ v n, (v, n) ∈ reads (op_slow op) ↔ input_args f !! n = Some v ∧ v ≠ VCallbackOptions)%type ∧
  ∀ i a, (sig_args s).*1 !! i = Some a → is_virtual a = false →
    (is_proto a = false → from_its_value i (from_arg i a (ret_val s))) ∧
    from_its_value i (map_v8_fastcall_arg_to_arg i a).
Proof.
  rewrite (assoc (∧)). intros Hop. split; [revert Hop | auto using from_arg_source, fast_arg_source].
  unfold generate_op2. set (g := base_generator_state config s). intros Hop.
  apply bind_Ret_inv in Hop as ([slow g1] & Hslow & Hop). destruct slow as [slow|]; [|done].
  apply bind_Ret_inv in Hop as ([d g2] & Hd & Hop). destruct d as [d|]; [|done].
  destruct (choose_fast config d) as [fast|] eqn:Hfast; simplify_eq/=.
  assert (quiet_moves g) as Hg by by apply Forall_nil.
  assert (reads slow = (positions 0 (if (is_async (ret_val s) || fake_async config) && negb (promise_id config) then 1 else 0)
      (sig_args s) ++ if is_async (ret_val s) || fake_async config then [(VPromiseId, 0)] else [])%list ∧
    no_rc (sig_args s)) as [Hreads Hrc].
  { destruct (is_async (ret_val s) || fake_async config).
    - destruct (async_reads config s _ _ _ Hg Hslow) as (_ & -> & ?). split; [|done]. by destruct (promise_id config).
    - destruct (slow_reads config s _ _ _ Hg Hslow) as (_ & -> & ?). by rewrite app_nil_r. }
  split; [done|]. intros f metrics body -> Hid v n.
  assert (d = Fast_ f metrics body) as ->.
  { unfold choose_fast in Hfast. destruct d; repeat case_match; by simplify_eq. }
  destruct (fast_parameters config s Hrc _ _ _ Hg Hd) as [_ Hpar].
  destruct (Hpar _ _ _ eq_refl) as [[options ->] Hfake]. rewrite Hreads, Hfake, orb_false_r in *. clear Hreads.
  assert (∀ k, (positions 0 0 (sig_args s)).*1 !! k = Some v ↔
    ((positions 0 0 (sig_args s)).*1 ++ if options then [VCallbackOptions] else [])%list !! k = Some v ∧ v ≠ VCallbackOptions) as Hk.
  { intros k. rewrite lookup_app_Some. split.
    - intros Hv. split; [by left|]. destruct (positions_args _ _ _ _ _ Hv) as [j ->]. done.
    - intros [[?|[_ Hv]] Hne]; [done|]. destruct options; [|done]. apply list_lookup_singleton_Some in Hv as [_ Hv]. by destruct Hne. }
  destruct (is_async (ret_val s)).
  - rewrite (Hid eq_refl). simpl. rewrite elem_of_app, list_elem_of_singleton, (elem_of_positions 0 1 0).
    destruct n as [|n]; simpl.
    + split; [intros [[? _]|[= ->]]; [lia | done] | intros [[= <-] _]; by right].
    + rewrite Nat.sub_0_r, <- Hk. split; [by intros [[_ ?]|?] | intros ?; left; split; [lia | done]].
  - simpl. rewrite app_nil_r, (elem_of_positions 0 0 0), Nat.sub_0_r, <- Hk. split; [by intros [_ ?] | split; [lia | done]].
Qed.
End reads.

(** * Concrete ops *)

#[local] Instance any_text : Reparse := {| reparses _ := true; default_supported _ := true |}.

(** A fast op that returns its result later; [promise_id] asks for the id of the promise. *)
Definition sleep_config (promise_id : bool) : @MacroConfig string :=
  mkConfig true false None false true false false None None false false false false false false
    None None false false promise_id None.

Definition sleep_signature : ParsedSignature :=
  mkParsed ((λ a, (a, no_attributes)) <$> [Numeric SMI NoFlag; ARcRefCell OpState; Numeric u32 NoFlag]) []
    (RFuture (RValue Void)) [] ∅ ∅.

Lemma calls_read_same_arguments_witness :
  match generate_op2 (sleep_config false) sleep_signature with
  | Ret (Ok op) =>
      reads (op_slow op) = [(VArg 0, 1); (VArg 2, 2); (VPromiseId, 0)] ∧
      match op_fast op with
      | Some (Fast_ f _ _) => input_args f !! 2 = Some (VArg 2)
      | _ => False
      end
  | _ => False
  end.
Proof.
  destruct (generate_op2 (sleep_config false) sleep_signature) as [[op|]|] eqn:Hop;
    [|vm_compute in Hop; discriminate..].
  destruct (calls_read_same_arguments (sleep_config false) sleep_signature op Hop) as (Hreads & Hfast & _).
  assert (op_is_async op = true) as Ha by (vm_compute in Hop; by inversion Hop).
  rewrite Ha in *. split; [exact Hreads|].
  destruct (op_fast op) as [[| |f m b]|] eqn:Hf; try (vm_compute in Hop; by inversion Hop; subst).
  destruct (Hfast f m b eq_refl (λ _, eq_refl) (VArg 2) 2) as [Hto _]. apply Hto. rewrite Hreads.
  right. left.
Defined.

(** An op that asks for the id: the slow call reads it as the first argument, in the fast
    call the first argument is the value after it. *)
Lemma promise_id_shifts_fast_arguments :
  match generate_op2 (sleep_config true) sleep_signature with
  | Ret (Ok op) =>
      reads (op_slow op) = [(VArg 0, 0); (VArg 2, 1); (VPromiseId, 0)] ∧
      match op_fast op with
      | Some (Fast_ f _ _) => take 3 (input_args f) = [VPromiseId; VArg 0; VArg 2]
      | _ => False
      end
  | _ => False
  end.
Proof. vm_compute. split; reflexivity. Qed.

(** [#[proto]]: the slow call unwraps [this], the fast call the argument. *)
Definition code_of (m : gen code) : option code :=
  match m (base_generator_state (sleep_config false) sleep_signature) with Ret (Ok c, _) => Some c | _ => None end.

Lemma proto_unwraps_this :
  inputs <$> code_of (from_arg 0 (CppGcResource true "Event") (RValue Void)) = Some [VScope; VArgs; VInfo] ∧
  inputs <$> code_of (map_v8_fastcall_arg_to_arg 0 (CppGcResource true "Event")) = Some [VScope; VArg 0; VCallbackOptions].
Proof. vm_compute. split; reflexivity. Qed.
