(* ===== verification/Op2Closed.v ===== *)
(** The functions that [#[op2]] generates for fast calls bind every name before they use it;
    the code of an op as a whole, and which ops get a fast call. *)

From S2P Require Import Prelude Op2Config Op2Signature Op2SignatureLaws Op2Generics Op2Codegen Op2Fast Op2Scoping Op2Hygiene Op2Reads.

Local Open Scope string_scope.
Local Open Scope code_scope.

Section functions.
Context `{!Reparse}.

(** * The fast call *)

Definition available_fast (g : GeneratorState) (v : var) : bool :=
  match v with
  | VThis => true
  | VScope => needs g NScope || needs g NFastIsolate
  | VOpctx => needs g NOpctx
  | VOpstate => needs g NOpstate || needs g NStackTrace
  | VRuntimeState => needs g NRuntimeState
  | VCallbackOptions => needs g NCallbackOptions
  | VSelf => needs g NSelf
  | _ => false
  end.

Definition known_fast (g : GeneratorState) : list var :=
  filter (λ v, available_fast g v = true)
    [VThis; VScope; VOpctx; VOpstate; VRuntimeState; VCallbackOptions; VSelf].

Lemma elem_of_known_fast g v : v ∈ known_fast g ↔ available_fast g v = true.
Proof.
  unfold known_fast. rewrite list_elem_of_filter. split; [by intros [? _]|]. intros Hv. split; [done|].
  rewrite !elem_of_cons. destruct v; simpl in Hv; try done; tauto.
Qed.

Lemma known_fast_extends g g' : extends g g' → known_fast g ⊆ known_fast g'.
Proof.
  intros [_ _ _ Hs Ht Hn] v. rewrite !elem_of_known_fast.
  destruct v; simpl; try done; try apply Hn; rewrite ?orb_true_iff, ?Hs, ?Ht; intuition auto.
Qed.

Definition fits_fast (g : GeneratorState) (pre : list var) (c : code) (post : list var) : Prop :=
  scoped (pre ++ known_fast g)%list c post.

Lemma fits_fast_extends g g' pre c post : extends g g' → fits_fast g pre c post → fits_fast g' pre c post.
Proof.
  intros Hext Hc. eapply scoped_weaken; [exact Hc | | done].
  intros v [Hv|Hv]%elem_of_app; apply elem_of_app; [by left | right; by apply (known_fast_extends g)].
Qed.

Lemma known_fast_this g : VThis ∈ known_fast g.
Proof. by apply elem_of_known_fast. Qed.
Lemma known_fast_need g n v :
  match n, v with
  | NScope, VScope | NFastIsolate, VScope | NOpctx, VOpctx | NRuntimeState, VRuntimeState
  | NCallbackOptions, VCallbackOptions | NSelf, VSelf => True
  | _, _ => False
  end → needs g n = true → v ∈ known_fast g.
Proof.
  intros Hv Hn. apply elem_of_known_fast. destruct n, v; try done; simpl; by rewrite ?Hn, ?orb_true_r.
Qed.

(** A name in a list that ends in names known from what was asked for. *)
Ltac mem_fast :=
  let by_need n := (eapply (known_fast_need _ n); [exact I | assumption]) in
  lazymatch goal with
  | |- [] ⊆ _ => apply list_subseteq_nil
  | |- (_ :: _) ⊆ _ => apply subset_cons; [mem_fast | mem_fast]
  | |- ?x ∈ ?x :: _ => left
  | |- _ ∈ _ :: _ => right; mem_fast
  | |- _ ∈ (_ ++ _)%list => apply elem_of_app; first [left; mem_fast | right; mem_fast]
  | |- VThis ∈ known_fast _ => apply known_fast_this
  | |- VScope ∈ known_fast _ => first [by_need NFastIsolate | by_need NScope]
  | |- VOpctx ∈ known_fast _ => by_need NOpctx
  | |- VRuntimeState ∈ known_fast _ => by_need NRuntimeState
  | |- VCallbackOptions ∈ known_fast _ => by_need NCallbackOptions
  | |- VSelf ∈ known_fast _ => by_need NSelf
  end.

Ltac scoped_fast :=
  lazymatch goal with
  | |- scoped _ Skip _ => apply scoped_Skip
  | |- scoped _ (Let _ _) _ => eapply scoped_Let; mem_fast
  | |- scoped _ (Use _) _ => eapply scoped_Use; mem_fast
  | |- scoped _ (Block _) _ => eapply scoped_Block; scoped_fast
  | |- scoped _ (Seq _ _) _ => eapply scoped_Seq; [scoped_fast | scoped_fast]
  | H : scoped _ ?c ?q |- scoped _ ?c _ => eapply (scoped_weaken _ _ c q q H); [mem_fast | reflexivity]
  end.

Ltac fits_fast_tac := unfold fits_fast; know; eapply scoped_post; [scoped_fast | mem_fast].

Lemma v8slice_to_buffer_scoped i t b g :
  emits (v8slice_to_buffer i t b) g (λ c _, scoped [VArg i; t] c [VArg i]).
Proof.
  unfold v8slice_to_buffer. destruct b; simpl; try destruct (convertible n);
    first [apply emits_fail | apply emits_ret, scoped_Let; mem].
Qed.

Lemma byte_slice_to_buffer_scoped i t b g :
  emits (byte_slice_to_buffer i t b) g (λ c _, scoped [VArg i; t] c [VArg i]).
Proof.
  unfold byte_slice_to_buffer. destruct b; simpl; try destruct (convertible n);
    first [apply emits_fail | apply emits_ret, scoped_Let; mem].
Qed.

Ltac fast_tac :=
  repeat first
    [ match goal with
      | |- emits (reparse _) _ _ => apply emits_reparse
      | |- emits (v8slice_to_buffer ?i ?t ?b) ?g _ =>
          eapply emits_mono; [apply (v8slice_to_buffer_scoped i t b g)|]; intros ? ? ? _ ?; cbn beta in *
      | |- emits (byte_slice_to_buffer ?i ?t ?b) ?g _ =>
          eapply emits_mono; [apply (byte_slice_to_buffer_scoped i t b g)|]; intros ? ? ? _ ?; cbn beta in *
      end
    | emits_step ]; cbn beta.

(** The buffers of a fast call. *)
Lemma fast_buffer_fits i b m s t g :
  map_arg_to_v8_fastcall_type (ABuffer b m s) = Ok (Some t) →
  emits (map_v8_fastcall_arg_to_arg i (ABuffer b m s)) g (λ c g', t ≠ FVirtual ∧ fits_fast g' [VArg i] c [VArg i]).
Proof.
  intros Ht. assert (t ≠ FVirtual) as Hv by (intros ->; simpl in Ht; by repeat case_match; simplify_eq).
  assert (emits (map_v8_fastcall_arg_to_arg i (ABuffer b m s)) g (λ c g', fits_fast g' [VArg i] c [VArg i])).
  { clear Ht Hv. destruct b, s; unfold map_v8_fastcall_arg_to_arg, fast_api_typed_array_to_buffer, throw_type_error_fast, create_scope,
      unwrap_buffer; fast_tac; fits_fast_tac. }
  eapply emits_mono; [done|]. auto.
Qed.

(** An argument of the fast call: virtual ones need no name of their own. *)
Lemma fast_arg_fits i a t g :
  map_arg_to_v8_fastcall_type a = Ok (Some t) → is_handle_scope a = false → a ≠ ARc JsRuntimeState →
  emits (map_v8_fastcall_arg_to_arg i a) g
    (λ c g', fits_fast g' (if decide (t = FVirtual) then [] else [VArg i]) c [VArg i]).
Proof.
  intros Ht Hh Hrc.
  destruct a as [| |s|[]|b m s|e|[] []|[]|[]|s|[]|n f|b m s|v|v|[] v|[] v|n f|ty|p ty|ty|l|ty []|ty|ty o d| |].
  all: match goal with
    | |- context [ABuffer] =>
        eapply emits_mono; [by apply (fast_buffer_fits i _ _ _ t)|]; intros c g' _ _ [? ?]; by rewrite decide_False
    | _ => simpl in Ht, Hh; try done
    end.
  all: unfold map_v8_fastcall_arg_to_arg, throw_type_error_fast, create_scope, v8_to_arg;
    try destruct (decide _); repeat case_match; simplify_eq; cbn [decide_rel].
  all: try (rewrite decide_True by done || rewrite decide_False by done).
  all: fast_tac; fits_fast_tac.
Qed.

(** What [get_fast_signature] makes of an argument. *)
Definition fast_arg_ok (f : FastArg) : Prop :=
  match f with
  | Virtual _ a => map_arg_to_v8_fastcall_type a = Ok (Some FVirtual) ∧ a ≠ ARc JsRuntimeState
  | Actual t name_in name_out a =>
      name_in = name_out ∧ t ≠ FVirtual ∧ map_arg_to_v8_fastcall_type a = Ok (Some t) ∧ a ≠ ARc JsRuntimeState
  | _ => True
  end.

Lemma fast_signature_args_ok i l args :
  fast_signature_args i l = Ret (Ok (Some args)) → ARc JsRuntimeState ∉ l.*1 → Forall fast_arg_ok args.
Proof.
  revert i args. induction l as [|[a attrs] l IH]; intros i args; simpl; [by intros [= <-]|].
  intros Hargs Hrc. destruct (map_arg_to_v8_fastcall_type a) as [[t|]|] eqn:Ht; try done.
  destruct (bool_decide (t = FCallbackOptions)); [done|]. cbn in Hargs.
  destruct (fast_signature_args (S i) l) as [[[l'|]|]|] eqn:Hl; simplify_eq/=.
  assert (a ≠ ARc JsRuntimeState) by (intros ->; apply Hrc; left).
  constructor; [|apply (IH _ _ Hl); intros Hin; apply Hrc; by right].
  case_decide; [by subst | done].
Qed.

(** The names of the arguments that the function is given. *)
Definition given_args (l : list FastArg) : list var :=
  omap (λ a, match a with Actual _ name_in _ _ => Some (VArg name_in) | _ => None end) l.

Lemma handle_scope_virtual a t :
  is_handle_scope a = true → map_arg_to_v8_fastcall_type a = Ok (Some t) → t = FVirtual.
Proof. destruct a as [| | | | | |[] []| | | | | | | | | | | | | | | | | | | |]; simpl; intros; by simplify_eq. Qed.

Lemma fits_fast_app g pre c A d B :
  fits_fast g pre c A → fits_fast g (A ++ pre) d B → fits_fast g pre (c ⨾ d) (B ++ A).
Proof.
  intros Hc Hd. eapply scoped_Seq; [exact Hc|]. eapply scoped_weaken; [exact Hd | rewrite app_assoc; reflexivity | done].
Qed.

(** All arguments are bound when the function is called. *)
Lemma call_args_fits l pre acc A g :
  Forall fast_arg_ok l → given_args l ⊆ pre → fits_fast g pre acc A →
  emits (call_args l acc) g
    (λ c g', ∃ B, fits_fast g' pre c B ∧ ∀ v, v ∈ A ∨ v ∈ call_names l → v ∈ B ∨ v ∈ known_fast g').
Proof.
  intros Hok. revert acc A g. induction Hok as [|fa l Hfa _ IH]; intros acc A g Hpre Hacc; simpl.
  { apply emits_ret. exists A. split; [done|]. intros v [?|[]%not_elem_of_nil]. by left. }
  assert (∀ (a : Arg) name t,
    map_arg_to_v8_fastcall_type a = Ok (Some t) → a ≠ ARc JsRuntimeState →
    (t ≠ FVirtual → VArg name ∈ pre) → given_args l ⊆ pre →
    emits (if is_handle_scope a then _ ← require NScope; call_args l acc
           else c ← map_v8_fastcall_arg_to_arg name a; call_args l (acc ⨾ c)) g
      (λ c g', ∃ B, fits_fast g' pre c B ∧
         ∀ v, v ∈ A ∨ v ∈ (if is_handle_scope a then VScope else VArg name) :: call_names l →
           v ∈ B ∨ v ∈ known_fast g')) as Hstep.
  { intros a name t Ht Hrc Hname Hl. destruct (is_handle_scope a) eqn:Hh.
    - apply emits_bind, emits_require; [done | done |]. intros g1 H1 N1 _ _.
      eapply emits_mono; [apply (IH acc A); [done | by eapply fits_fast_extends]|].
      intros c g2 H2 _ (B & Hc & HB). exists B. split; [done|]. intros v [Hv|[->|Hv]%elem_of_cons].
      + apply HB. by left.
      + right. know. by apply (known_fast_need _ NScope).
      + apply HB. by right.
    - apply emits_bind. eapply emits_mono; [by apply (fast_arg_fits name a t)|]. intros d g1 H1 _ Hd.
      apply (fits_fast_extends _ _ _ _ _ H1) in Hacc.
      eapply emits_mono; [apply (IH (acc ⨾ d) ([VArg name] ++ A)%list); [done|]|].
      + apply fits_fast_app; [done|]. eapply scoped_weaken; [exact Hd | | done].
        apply subset_app; [|intros v Hv; apply elem_of_app; by right].
        case_decide; [apply list_subseteq_nil|]. apply subset_cons; [|apply list_subseteq_nil].
        rewrite !elem_of_app. auto.
      + intros c g2 _ _ (B & Hc & HB). exists B. split; [done|]. intros v Hv. apply HB.
        rewrite elem_of_cons in Hv. rewrite elem_of_app, list_elem_of_singleton. tauto. }
  destruct fa as [name a|t name_in name a| |].
  - destruct Hfa. by apply (Hstep a name FVirtual).
  - destruct Hfa as (-> & ? & ? & ?). apply (Hstep a name t); [done | done | |].
    + intros _. apply Hpre. simpl. left.
    + intros v Hv. apply Hpre. simpl. by right.
  - by apply (IH acc A).
  - by apply (IH acc A).
Qed.

(** The fragments before the body of the fast call, by what is needed. *)
Lemma fast_preamble_scoped (options scope opctx opstate stack js isolate self : bool) pre output :
  VThis ∈ pre → (options = true → VCallbackOptions ∈ pre) →
  (scope = true → options = true) → (opctx = true → options = true) → (opstate = true → opctx = true) →
  (stack = true → opctx = true ∧ opstate = true ∧ scope = true) → (js = true → opctx = true) →
  (isolate = true → options = true) → (self = true → isolate || scope = true ∧ options = true) →
  scoped (pre ++ given (isolate || scope) [VScope] ++ given opctx [VOpctx] ++ given opstate [VOpstate] ++
    given js [VRuntimeState] ++ given self [VSelf])%list output [] →
  scoped pre
    (maybe options (Let VCallbackOptions [VCallbackOptions]) ⨾
     maybe scope (Block (Use [VCallbackOptions]) ⨾ Let VScope []) ⨾ maybe opctx (Let VOpctx [VCallbackOptions]) ⨾
     maybe opstate (Let VOpstate [VOpctx]) ⨾ maybe stack (Use [VOpctx; VScope; VOpstate]) ⨾
     maybe js (Let VRuntimeState [VOpctx]) ⨾ maybe isolate (Let VScope [VCallbackOptions]) ⨾
     maybe self (Use [VScope; VThis] ⨾ Block (Use [VCallbackOptions]) ⨾ Let VSelf [] ⨾ Let VSelf [VSelf]) ⨾
     output) [].
Proof.
  intros Hthis Hopts Hscope Hopctx Hopst Hst Hjs Hiso Hself Hout.
  assert (∀ l, options = true → VCallbackOptions ∈ (l ++ pre)%list) as Ho.
  { intros l Hx. apply elem_of_app. right. auto. }
  eapply scoped_post; [|apply list_subseteq_nil].
  apply scoped_Seq with (mid := given options [VCallbackOptions]).
  { apply scoped_maybe. intros Hx. apply scoped_Let. apply subset_cons; [auto | mem]. }
  apply scoped_Seq with (mid := given scope [VScope]).
  { apply scoped_maybe. intros Hx%Hscope. rewrite Hx. eapply scoped_post; [scoped_tac | mem]. }
  apply scoped_Seq with (mid := given opctx [VOpctx]).
  { apply scoped_maybe. intros Hx%Hopctx. rewrite Hx. apply scoped_Let. mem. }
  apply scoped_Seq with (mid := given opstate [VOpstate]).
  { apply scoped_maybe. intros Hx%Hopst. rewrite Hx. apply scoped_Let. mem. }
  apply scoped_Seq with (mid := given stack []).
  { apply scoped_maybe. intros Hx. destruct (Hst Hx) as (-> & -> & ->). apply scoped_Use. mem. }
  apply scoped_Seq with (mid := given js [VRuntimeState]).
  { apply scoped_maybe. intros Hx%Hjs. rewrite Hx. apply scoped_Let. mem. }
  apply scoped_Seq with (mid := given isolate [VScope]).
  { apply scoped_maybe. intros Hx%Hiso. rewrite Hx. apply scoped_Let. mem. }
  apply scoped_Seq with (mid := given self [VSelf]).
  { apply scoped_maybe. intros Hx. destruct (Hself Hx) as [Hs Hx']. rewrite Hx'.
    match goal with |- scoped ?l _ _ => assert (VScope ∈ l) as Hin; [|assert (VThis ∈ l) as Hin'] end.
    - apply orb_true_iff in Hs as [->| ->]; mem.
    - rewrite !elem_of_app. tauto.
    - eapply scoped_post; [|apply (reflexivity (R := (⊆)))].
      eapply scoped_weaken; [|apply subset_cons; [exact Hin | apply subset_cons; [exact Hin' |
        apply (subset_cons VCallbackOptions); [mem | apply list_subseteq_nil]]]|].
      + eapply scoped_Seq; [apply scoped_Use; mem | eapply scoped_Seq; [eapply scoped_Block, scoped_Use; mem|
          eapply scoped_Seq; [apply scoped_Let; mem | apply scoped_Let; mem]]].
      + mem. }
  eapply scoped_weaken; [exact Hout | | done].
  apply subset_app; [intros v Hv; rewrite !elem_of_app; tauto|].
  repeat apply subset_app; apply subset_given; intros Hx; try (rewrite Hx; mem).
  apply orb_true_iff in Hx as [->| ->]; mem.
Qed.

(** The generated function binds what it uses, and the one with metrics can call it. *)
Definition fast_scoped (d : fast_dispatch) : Prop :=
  match d with
  | Fast_ f metrics body => scoped (VThis :: input_args f) body [] ∧ input_args f ⊆ input_args metrics
  | _ => True
  end.

Lemma emits_fast_stack b g (Q : code → GeneratorState → Prop) :
  (∀ g', extends g g' → (b = true → needs g' NOpctx = true ∧ needs g' NScope = true) →
     Q (maybe b (Use [VOpctx; VScope; VOpstate])) g') →
  emits (when b (_ ← require NOpctx; _ ← require NScope; mret (Use [VOpctx; VScope; VOpstate]))) g Q.
Proof.
  intros HQ. destruct b; simpl; [|apply emits_ret; by apply (HQ g)]. emits_tac. know.
  match goal with |- Q _ ?g' => apply (HQ g') end; [ext_chain | done].
Qed.

Lemma emits_fast_self b g (Q : code → GeneratorState → Prop) :
  (∀ g', extends g g' → (b = true → needs g' NFastIsolate = true ∧ needs g' NCallbackOptions = true) →
     Q (maybe b (Use [VScope; VThis] ⨾ Block (Use [VCallbackOptions]) ⨾ Let VSelf [] ⨾ Let VSelf [VSelf])) g') →
  emits (when b (_ ← require NFastIsolate; exception ← throw_type_error_fast;
    mret (Use [VScope; VThis] ⨾ Block exception ⨾ Let VSelf [] ⨾ Let VSelf [VSelf]))) g Q.
Proof.
  intros HQ. destruct b; simpl; [|apply emits_ret; by apply (HQ g)].
  unfold throw_type_error_fast, create_scope. emits_tac. know.
  match goal with |- Q _ ?g' => apply (HQ g') end; [ext_chain | done].
Qed.

Lemma emits_fast_scope b g (Q : code → GeneratorState → Prop) :
  (∀ g', extends g g' → (b = true → needs g' NCallbackOptions = true) →
     Q (maybe b (Block (Use [VCallbackOptions]) ⨾ Let VScope [])) g') →
  emits (when b (c ← create_scope; mret (Block c ⨾ Let VScope []))) g Q.
Proof.
  intros HQ. destruct b; simpl; [|apply emits_ret; by apply (HQ g)]. unfold create_scope. emits_tac. auto.
Qed.

Lemma known_fast_subset g l :
  VThis ∈ l → (needs g NScope || needs g NFastIsolate = true → VScope ∈ l) → (needs g NOpctx = true → VOpctx ∈ l) →
  (needs g NOpstate || needs g NStackTrace = true → VOpstate ∈ l) → (needs g NRuntimeState = true → VRuntimeState ∈ l) →
  (needs g NCallbackOptions = true → VCallbackOptions ∈ l) → (needs g NSelf = true → VSelf ∈ l) → known_fast g ⊆ l.
Proof. intros ? ? ? ? ? ? ? v Hv%elem_of_known_fast. destruct v; simpl in Hv; auto; done. Qed.

Lemma ensure_input_args f :
  has_fast_api_callback_options f = false →
  input_args (ensure_fast_api_callback_options f) = (input_args f ++ [VCallbackOptions])%list.
Proof.
  intros Hf. unfold ensure_fast_api_callback_options, input_args. rewrite Hf. simpl. by rewrite omap_app.
Qed.

Lemma ensure_call_names f : call_names (fast_args (ensure_fast_api_callback_options f)) = call_names (fast_args f).
Proof.
  unfold ensure_fast_api_callback_options, call_names. destruct (has_fast_api_callback_options f); [done|].
  simpl. by rewrite omap_app, app_nil_r.
Qed.

Lemma fast_body_fits f error args result B g :
  has_fast_api_callback_options f = false →
  fits_fast g (VThis :: input_args f) args B →
  (∀ v, v ∈ call_names (fast_args f) → v ∈ B ∨ v ∈ known_fast g) →
  fits_fast g (VResult :: input_args f) error [] → fits_fast g (VResult :: input_args f) result [] →
  emits (fast_body f error args result) g (λ d _, fast_scoped d).
Proof.
  intros Hf Hargs Hnames Herror Hresult. unfold fast_body.
  apply emits_bind, emits_get, emits_bind, emits_fast_stack. intros g1 H1 Hst.
  apply emits_bind, emits_get, emits_bind, emits_maybe_require; [done | done |]. intros g2 H2 Hopst _.
  apply emits_bind, emits_get, emits_bind, emits_maybe_require; [done | done |]. intros g3 H3 Hjs _.
  apply emits_bind, emits_get, emits_bind, emits_maybe_require; [done | done |]. intros g4 H4 Hopctx _.
  apply emits_bind, emits_get, emits_bind, emits_fast_self. intros g5 H5 Hself.
  apply emits_bind, emits_get, emits_bind, emits_get, emits_bind, emits_maybe_require; [done | done |]. intros g6 H6 Hiso _.
  apply emits_bind, emits_fast_scope. intros g7 H7 Hscope.
  apply emits_bind, emits_get, emits_bind, emits_maybe, emits_ret.
  assert (extends g g7) as Hext by ext_chain. assert (extends g g5) as Hext5 by ext_chain.
  assert (extends g g2) as Hext2 by ext_chain. assert (extends g g4) as Hext4 by ext_chain.
  assert (∀ n, needs g5 n = true → needs g7 n = true) as E5 by (intros; know; done).
  assert (∀ n, needs g3 n = true → needs g7 n = true) as E3 by (intros; know; done).
  assert (∀ n, needs g4 n = true → needs g7 n = true) as E4 by (intros; know; done).
  assert (∀ n, needs g1 n = true → needs g3 n = true) as E1 by (intros; know; done).
  assert (∀ n, needs g1 n = true → needs g5 n = true) as E15 by (intros; know; done).
  assert (needs g NStackTrace = true → needs g3 NOpctx = true ∧ needs g5 NScope = true) as Ist.
  { intros Hn. destruct (Hst Hn). auto. }
  simpl. split; cycle 1.
  { case_match; [done|]. rewrite ensure_input_args by done. intros v Hv. apply elem_of_app. by left. }
  assert (∀ v, v ∈ input_args f →
    v ∈ input_args (if needs g7 NCallbackOptions then ensure_fast_api_callback_options f else f)) as Hin.
  { intros v Hv. case_match; [|done]. rewrite ensure_input_args by done. apply elem_of_app. by left. }
  assert (call_names (fast_args (if needs g7 NCallbackOptions then ensure_fast_api_callback_options f else f)) =
    call_names (fast_args f)) as -> by (case_match; [by rewrite ensure_call_names | done]).
  apply fast_preamble_scoped; auto.
  - left.
  - intros ->. rewrite ensure_input_args by done. right. apply elem_of_app. right. left.
  - intros Hn. apply orb_true_iff in Hn as [Hn|Hn]; [|by apply Ist].
    assert (needs g2 NOpctx = true) as Hn2 by (apply Hopst; by rewrite Hn). by apply (ext_needs _ _ H3).
  - intros Hn. destruct (Ist Hn). split_and!; [done | by rewrite Hn, orb_true_r | done].
  - intros Hn. pose proof (Hiso Hn). by apply (ext_needs _ _ H7).
  - intros Hn. destruct (Hself Hn) as [Hi Hc]. split; [|by apply E5]. rewrite Hi. simpl.
    destruct (needs g5 NScope) eqn:E; [by rewrite orb_true_r|].
    destruct (needs g NStackTrace) eqn:E'; [|done]. by destruct (Ist eq_refl); congruence.
  - match goal with |- scoped ?l _ _ => assert (known_fast g ⊆ l) as Hknown; [|assert (∀ v, v ∈ input_args f → v ∈ l) as Hargs_in] end.
    { apply known_fast_subset.
      - apply elem_of_app. do 2 left.
      - intros Hn. rewrite !elem_of_app. right. left. 
        assert (needs g5 NScope || needs g5 NFastIsolate = true) as Hn5.
        { apply orb_true_iff in Hn as [Hn|Hn]; apply (ext_needs _ _ Hext5) in Hn; rewrite Hn; [done | by rewrite orb_true_r]. }
        assert (needs g NStackTrace = true → needs g5 NScope = true) as Hs by (intros; by apply Ist).
        destruct (needs g5 NScope); [rewrite orb_true_r; left|]. simpl in Hn5. rewrite Hn5.
        destruct (needs g NStackTrace); [by specialize (Hs eq_refl)|]. left.
      - intros Hn. apply (ext_needs g g3) in Hn; [|ext_chain]. rewrite Hn. mem.
      - intros Hn. assert (needs g1 NOpstate || needs g NStackTrace = true) as ->; [|mem].
        apply orb_true_iff in Hn as [Hn| ->]; [|apply orb_true_r]. apply (ext_needs _ _ H1) in Hn. by rewrite Hn.
      - intros Hn. apply (ext_needs g g2) in Hn; [|ext_chain]. rewrite Hn. mem.
      - intros Hn. apply (ext_needs _ _ Hext) in Hn. rewrite Hn. rewrite ensure_input_args by done.
        apply elem_of_app. left. right. apply elem_of_app. right. left.
      - intros Hn. apply (ext_needs g g4) in Hn; [|done]. rewrite Hn. mem. }
    { intros v Hv. apply elem_of_app. left. right. auto. }
    unfold fits_fast in *. eapply scoped_post; [|apply list_subseteq_nil].
    eapply scoped_Seq.
    { eapply scoped_Block, scoped_Seq; [eapply scoped_weaken; [exact Hargs | | reflexivity]|].
      - apply subset_app; [|done]. apply subset_cons; [|exact Hargs_in]. apply elem_of_app. do 2 left.
      - apply scoped_Use. intros v [Hv|Hv]%elem_of_app; apply elem_of_app.
        + right. destruct (needs g4 NSelf) eqn:E; [|by apply not_elem_of_nil in Hv]. apply list_elem_of_singleton in Hv as ->. mem.
        + destruct (Hnames v Hv) as [?|?]; [by left | right; by apply Hknown]. }
    eapply scoped_Seq; [apply scoped_Let, list_subseteq_nil|].
    assert (∀ l c, fits_fast g (VResult :: input_args f) c [] →
      ∀ pre, VResult ∈ pre → (∀ v, v ∈ l → v ∈ pre) → known_fast g ⊆ l → input_args f ⊆ l → scoped pre c []) as Hweak.
    { intros l c Hc pre Hr Hp Hk Hi. eapply scoped_weaken; [exact Hc | | done].
      apply subset_app; [apply subset_cons; [done|] |]; intros v Hv; auto. }
    eapply scoped_Seq; [eapply Hweak; [exact Herror | mem | | exact Hknown | exact Hargs_in]; intros v Hv |
      eapply Hweak; [exact Hresult | mem | | exact Hknown | exact Hargs_in]; intros v Hv].
    + rewrite elem_of_app. by right.
    + simpl. by right.
Qed.

Lemma return_value_v8_value_this a g :
  use_this_cppgc g = false → emits (return_value_v8_value a) g (λ c g', scoped [VScope; VResult] c []).
Proof.
  intros Hg. unfold return_value_v8_value. apply emits_bind, emits_gets. rewrite Hg.
  destruct (slow_retval a); try apply emits_fail; destruct (marker a); apply emits_ret;
    (eapply scoped_post; [scoped_tac | set_solver]).
Qed.

Lemma map_async_return_type_this r g :
  use_this_cppgc g = false → emits (map_async_return_type r) g (λ p _, scoped [VScope; VResult] p.1 []).
Proof.
  intros Hg. unfold map_async_return_type. apply emits_bind. eapply emits_mono; [by apply return_value_v8_value_this|].
  intros ret g1 _ _ Hret. apply emits_bind, emits_gets. simpl.
  case_match; [|apply emits_fail].
  apply emits_bind; destruct (unwrap_result _) as [res|];
    (eapply emits_mono; [first [apply (return_value_result_fits false) | apply (return_value_infallible_fits false)]|]);
    intros; by apply emits_ret.
Qed.

(** No argument is the callback options, so the assertion holds. *)
Lemma fast_signature_args_total i l : ∃ r, fast_signature_args i l = Ret r.
Proof.
  revert i. induction l as [|[a attrs] l IH]; intros i; simpl; [by eexists|].
  destruct (map_arg_to_v8_fastcall_type a) as [[t|]|] eqn:Ht; try by eexists.
  assert (t ≠ FCallbackOptions) as Hne.
  { intros ->. unfold map_arg_to_v8_fastcall_type in Ht. by repeat case_match; simplify_eq. }
  rewrite bool_decide_false by done. destruct (IH (S i)) as [r Hr]. cbn. rewrite Hr. by eexists.
Qed.

Lemma get_fast_signature_ok s :
  ARc JsRuntimeState ∉ (sig_args s).*1 →
  ∃ r, get_fast_signature s = Ret r ∧
    ∀ f, r = Ok (Some f) → has_fast_api_callback_options f = false ∧ Forall fast_arg_ok (fast_args f).
Proof.
  intros Hrc. unfold get_fast_signature. destruct (fast_signature_args_total 0 (sig_args s)) as [r Hr]. rewrite Hr.
  eexists. split; [reflexivity|]. intros f Hf. repeat case_match; simplify_eq/=; split; try done;
    by eapply fast_signature_args_ok.
Qed.

Lemma given_args_input f : given_args (fast_args f) ⊆ input_args f.
Proof.
  intros v. unfold given_args, input_args. rewrite !list_elem_of_omap. intros (a & Ha & Hv). exists a. split; [done|].
  by destruct a.
Qed.

(** The fast call binds what its parts use. *)
Lemma fast_closed {path} (config : @MacroConfig path) s g :
  ARc JsRuntimeState ∉ (sig_args s).*1 → (is_async (ret_val s) = true → use_this_cppgc g = false) →
  emits (generate_dispatch_fast config s) g (λ d _, fast_scoped d).
Proof.
  intros Hrc Hthis. unfold generate_dispatch_fast.
  destruct (fast_alternative config) as [alt|]; [case_match; [by apply emits_ret | apply emits_fail]|].
  case_match; [by apply emits_ret|]. destruct (get_fast_signature_ok s Hrc) as (r & Hr & Hf).
  unfold lift. rewrite Hr. apply emits_bind.
  assert (∀ Q : option FastSignature → GeneratorState → Prop, (∀ o, r = Ok o → Q o g) → emits (λ g, Ret (r, g)) g Q) as Hlift.
  { intros Q HQ. eexists r, g. split_and!; [done..|]. destruct r; auto. }
  apply Hlift. intros o ->. destruct o as [f|]; [|by apply emits_ret]. destruct (Hf f eq_refl) as [Hopts Hok].
  apply emits_bind. eapply (emits_mono _ _ (λ c g', extends g g' ∧ fits_fast g' [VResult] c [])).
  { apply emits_when; intros _; [|split; [done | apply scoped_Skip]].
    unfold generate_fast_result_early_exit, create_scope. emits_tac. split; [ext_chain|]. fits_fast_tac. }
  intros error g1 H1 _ [_ Herror].
  set (f' := if is_async (ret_val s) then insert_promise_id f else f).
  assert (has_fast_api_callback_options f' = false) as Hopts' by (unfold f'; by case_match).
  assert (Forall fast_arg_ok (fast_args f')) as Hok'.
  { unfold f'. case_match; [|done]. by constructor. }
  apply emits_bind. eapply emits_mono.
  { apply (call_args_fits _ (VThis :: input_args f') Skip []); [done | | apply scoped_Skip].
    intros v Hv. right. by apply given_args_input. }
  intros args g2 H2 _ (B & Hargs & Hnames).
  apply emits_bind. eapply (emits_mono _ _ (λ c g', extends g2 g' ∧ fits_fast g' (VResult :: input_args f') c [])).
  { case_match eqn:Ha; [|apply emits_ret; split; [done|]; apply scoped_Use; mem].
    apply emits_bind, emits_require; [done | done |]. intros g3 H3 N3 _ _. apply emits_bind.
    assert (use_this_cppgc g3 = false) as Hg3.
    { rewrite (ext_this _ _ H3), (ext_this _ _ H2), (ext_this _ _ H1). by apply Hthis. }
    eapply emits_mono; [by apply map_async_return_type_this|]. intros p g4 H4 _ Hp. apply emits_ret. split; [ext_chain|].
    know. unfold closure, fits_fast, f'. unfold insert_promise_id, input_args. simpl.
    eapply scoped_post; [|apply list_subseteq_nil]. eapply scoped_Seq.
    { apply scoped_Use. apply subset_cons; [|mem].
      do 2 right. apply elem_of_app. right. by apply (known_fast_need _ NOpctx). }
    eapply scoped_Block, scoped_Seq; [apply scoped_Let, list_subseteq_nil|].
    eapply scoped_Seq; [apply scoped_Let, list_subseteq_nil|]. eapply scoped_weaken; [exact Hp | | done]. mem. }
  intros result g3 H3 _ [_ Hresult].
  apply (fast_body_fits _ _ _ _ B); [done | by eapply fits_fast_extends | | | done].
  - intros v Hv. destruct (Hnames v) as [?|Hk]; [by right | by left |]. right. by apply (known_fast_extends g2).
  - eapply scoped_weaken; [exact Herror | | done]. apply subset_app; [mem|].
    intros v Hv. apply elem_of_app. right. apply (known_fast_extends g1); [ext_chain | done].
Qed.

(** * The op *)

Lemma base_good {path} (config : @MacroConfig path) s : good (base_generator_state config s).
Proof. by apply Forall_nil. Qed.

Lemma base_args {path} (config : @MacroConfig path) s :
  needs (base_generator_state config s) NArgs = true ∨ sig_args s = [].
Proof.
  simpl. destruct (sig_args s) as [|x l]; [by right | left]. rewrite (bool_decide_true (length _ ≠ 0)) by done.
  apply orb_true_r.
Qed.

(** The conditions of the flags that the generator does not check. *)
Record checked {path} (config : @MacroConfig path) (s : ParsedSignature) : Prop := {
  checked_ref : is_async (ret_val s) || fake_async config = true → ARef Ref JsRuntimeState ∉ (sig_args s).*1;
  checked_undefined : ret_arg (ret_val s) = VoidUndefined →
    is_Some (method config) ∨ (is_async (ret_val s) || fake_async config = false ∧ is_Some (validate config));
  checked_constructor : is_async (ret_val s) = true → constructor config = false;
}.

(** C25. The code that [#[op2]] generates binds every name before it is used.  Assume what
    the generator does not check ([checked]): an asynchronous (or fake asynchronous) op has no
    argument [&JsRuntimeState], an op whose result is [#[undefined]] is a method or a
    synchronous op with a validator, and a constructor is not asynchronous.  Then, for every
    signature and every combination of flags, the macro returns - it does not run into its
    [todo!()], [unreachable!()] and assertions - and if it generates an op, then the body of its
    slow (or asynchronous) function uses only names that the function itself has bound before,
    starting from the callback info: scope, return value, callback arguments, op context, op
    state, [self], the state of the runtime, and each argument; every argument of the op is
    bound when the op is called.  The same holds for the function of the fast call, starting from
    its own parameters, and the variant with metrics has the parameters that it passes on.
    [undefined_has_no_scope] and [async_runtime_state_unbound] show ops outside the assumption. *)
Theorem generated_code_closed {path} (config : @MacroConfig path) s :
  checked config s →
  ∃ r, generate_op2 config s = Ret r ∧
    ∀ op, r = Ok op → scoped [VInfo] (op_slow op) [] ∧ ∀ d, op_fast op = Some d → fast_scoped d.
Proof.
  intros [Href Hund Hthis]. set (g := base_generator_state config s).
  assert (needs g NSelf = true ↔ is_Some (method config)) as Hself by apply bool_decide_eq_true.
  assert (emits (if is_async (ret_val s) || fake_async config then generate_dispatch_async config s
                 else generate_dispatch_slow config s) g (λ c _, scoped [VInfo] c [])) as (slow & g1 & Hslow & _ & _ & Hs).
  { destruct (is_async (ret_val s) || fake_async config) eqn:Ha.
    - apply async_closed; [apply base_good | apply base_args | done | auto |].
      intros Hu. apply Hself. by destruct (Hund Hu) as [|[??]].
    - apply slow_closed; [apply base_good | apply base_args | done | | by apply orb_false_iff in Ha as [? _] |].
      + intros Hn%Hself. apply orb_true_iff. left. by apply bool_decide_eq_true.
      + intros Hu. rewrite Hself. destruct (Hund Hu) as [|[??]]; auto. }
  assert ((if is_async (ret_val s) || fake_async config then generate_dispatch_async config s g
           else generate_dispatch_slow config s g) = Ret (slow, g1)) as Hslow'
    by (by destruct (is_async (ret_val s) || fake_async config)).
  unfold generate_op2. fold g. rewrite Hslow'. cbn. destruct slow as [c|e]; [|by eexists].
  assert (no_rc (sig_args s)) as Hrc.
  { assert (quiet_moves g) as Hg by by apply Forall_nil.
    destruct (is_async (ret_val s) || fake_async config);
      [by destruct (async_reads config s _ _ _ Hg Hslow) as (_ & _ & ?) |
       by destruct (slow_reads config s _ _ _ Hg Hslow) as (_ & _ & ?)]. }
  destruct (fast_closed config s g Hrc) as (d & g2 & Hfast & _ & _ & Hd); [done|].
  rewrite Hfast. cbn. destruct d as [d|e]; [|by eexists]. eexists. split; [done|]. intros op Hop.
  unfold choose_fast in Hop. repeat case_match; simplify_eq/=; split; try done; intros; by simplify_eq.
Qed.

(** The flags decide whether an op is fast.  If the macro accepts an op then V8 may call
    it directly if and only if it is marked [fast] or names a fast alternative, and it is
    neither [nofast] nor a getter or a setter: an op that could be fast has to say which it
    is, and an op that cannot be fast must not claim to be, nor that it is not. *)
Lemma fast_as_marked {path} (config : @MacroConfig path) s op :
  generate_op2 config s = Ret (Ok op) →
  is_Some (op_fast op) ↔
    (fast config = true ∨ is_Some (fast_alternative config)) ∧
    nofast config = false ∧ getter config = false ∧ setter config = false.
Proof.
  unfold generate_op2. intros Hop. set (g := base_generator_state config s) in *.
  destruct (if is_async (ret_val s) || fake_async config then generate_dispatch_async config s g
            else generate_dispatch_slow config s g) as [[[slow|e] g1]|]; simplify_eq/=.
  destruct (generate_dispatch_fast config s g) as [[[d|e] g2]|] eqn:Hfast; simplify_eq/=.
  assert (is_Some (fast_alternative config) → d ≠ NotFast) as Halt.
  { intros [alt Ha]. unfold generate_dispatch_fast in Hfast. rewrite Ha in Hfast.
    destruct (reparses alt); cbv in Hfast; by simplify_eq. }
  assert (fake_async config = true → d ≠ NotFast → is_Some (fast_alternative config)) as Hfake.
  { intros Hf. unfold generate_dispatch_fast in Hfast. rewrite Hf, orb_true_r in Hfast.
    destruct (fast_alternative config); [done|]. cbv in Hfast. by simplify_eq. }
  destruct (choose_fast config d) as [f|e] eqn:Hc; simplify_eq/=. unfold choose_fast in Hc.
  assert (d = NotFast ∧ fast config = false ∧ nofast config = false ∧ f = None ∨
    d ≠ NotFast ∧ (fast config || nofast config || bool_decide (is_Some (fast_alternative config)) ||
      getter config || setter config || fake_async config = true) ∧
    f = if nofast config || getter config || setter config then None else Some d)
    as [(-> & Hf & _ & ->)|(Hd & Hmarked & ->)].
  { destruct d; [left | right..]; destruct (fast config), (nofast config), (getter config), (setter config),
      (fake_async config), (bool_decide (is_Some (fast_alternative config))); by simplify_eq/=. }
  - split; [by intros [? ?]|]. intros [[Hf'|Ha] _]; [congruence | destruct (Halt Ha eq_refl)].
  - destruct (nofast config), (getter config), (setter config); simpl;
      try (split; [by intros [? ?] | by intros (_ & ? & ? & ?)]).
    split; [intros _ | by eexists]. split; [|done]. rewrite !orb_false_r in Hmarked.
    apply orb_true_iff in Hmarked as [[Hm|Hm%bool_decide_eq_true]%orb_true_iff|Hm]; auto.
Qed.
End functions.

(** * Concrete ops *)

#[local] Instance any_text : Reparse := {| reparses _ := true; default_supported _ := true |}.

Definition with_args (l : list Arg) (r : RetVal) : ParsedSignature :=
  mkParsed ((λ a, (a, no_attributes)) <$> l) [] r [] ∅ ∅.

(** A fast method that writes a buffer. *)
Definition write_config : @MacroConfig string :=
  mkConfig true false None false false false false (Some "Stream") None false false false false false true
    None None false false false None.

Definition write_signature : ParsedSignature :=
  with_args [Numeric SMI NoFlag; ABuffer (Slice Ref u8) Default TypedArray; ARef Mut OpState;
    ARef Ref JsRuntimeState] (RResult (RValue (Numeric u32 NoFlag))).

Lemma generated_code_closed_witness :
  checked write_config write_signature ∧
  ∃ r, generate_op2 write_config write_signature = Ret r ∧
    ∀ op, r = Ok op → scoped [VInfo] (op_slow op) [] ∧ ∀ d, op_fast op = Some d → fast_scoped d.
Proof.
  assert (checked write_config write_signature) as Hc.
  { by split. }
  split; [exact Hc | exact (generated_code_closed write_config write_signature Hc)].
Defined.

Definition op_of (r : outcome (result op_code op2_error)) : option op_code :=
  match r with Ret (Ok op) => Some op | _ => None end.

Lemma fast_as_marked_example :
  match generate_op2 write_config write_signature with
  | Ret (Ok op) => is_Some (op_fast op)
  | _ => False
  end.
Proof.
  destruct (generate_op2 write_config write_signature) as [[op|]|] eqn:Hop;
    [|vm_compute in Hop; discriminate..].
  apply (fast_as_marked write_config write_signature op Hop). repeat split. by left.
Qed.

(** What the generator does not check: the names that are missing. *)
Definition slow_scoped (config : @MacroConfig string) (s : ParsedSignature) : option bool :=
  op ← op_of (generate_op2 config s); Some (bool_decide (is_Some (check [VInfo] (op_slow op)))).

Definition async_config : @MacroConfig string :=
  mkConfig false false None true false false false None None false false false false false false
    None None false false false None.

(** [#[undefined]] without another need for a scope uses a scope that is not there. *)
Lemma undefined_has_no_scope :
  slow_scoped (mkConfig false true None false false false false None None false false false false false false
    None None false false false None) (with_args [] (RValue VoidUndefined)) = Some false ∧
  slow_scoped (mkConfig false true None false false false false None None false false false false false false
    None None false false false None) (with_args [] (RValue Void)) = Some true.
Proof. vm_compute. split; reflexivity. Qed.

(** An asynchronous op does not bind the state of the runtime. *)
Lemma async_runtime_state_unbound :
  slow_scoped async_config (with_args [ARef Ref JsRuntimeState] (RValue Void)) = Some false ∧
  slow_scoped async_config (with_args [ARef Ref OpState] (RValue Void)) = Some true.
Proof. vm_compute. split; reflexivity. Qed.

(** The validator of an op only runs in the synchronous slow call. *)
Definition without_validate (c : @MacroConfig string) : @MacroConfig string :=
  mkConfig (fast c) (nofast c) (fast_alternative c) (fake_async c) (async_lazy c) (async_deferred c) (reentrant c)
    (method c) (self_name c) (constructor c) (static_member c) (no_side_effects c) (getter c) (setter c)
    (stack_trace c) (required c) (rename c) (symbol c) (use_cppgc_base c) (promise_id c) None.

Lemma validate_only_slow (c : @MacroConfig string) s g :
  generate_dispatch_async c s g = generate_dispatch_async (without_validate c) s g ∧
  generate_dispatch_fast c s g = generate_dispatch_fast (without_validate c) s g.
Proof. by destruct c. Qed.
