(* ===== verification/Op2Objects.v ===== *)
(** [ops/op2/object_wrap.rs] and the front of [generate_op2]: the ops of an object, from the
    methods of an [impl] block, and the declaration that names them. *)

From S2P Require Import Prelude Op2Config Op2Signature Op2SignatureLaws Op2Generics Op2Codegen Op2Fast.

Local Open Scope string_scope.

(** What the crates [syn], [stringcase] and [proc_macro2] know of identifiers. *)
Class Names := {
  camel_case : string → string;
  parses_ident : string → bool;  (** an identifier that is no keyword *)
  token_ident : string → bool;   (** what [Ident::new] accepts; it panics on other texts *)
  unraw : string → string;       (** without a leading [r#] *)
}.

(** * Arguments of the attribute *)

Inductive arg_token := KwBase | KwInherit | KwEq | KwComma | KwType (t : type) | KwOther.

Record Args := mkArgs { is_base : bool; inherits_from : option type }.

(** The loop of [parse]; a comma between the items is optional. *)
Fixpoint parse_args (l : list arg_token) (a : Args) : option Args :=
  match l with
  | [] => Some a
  | KwBase :: l' =>
      let a := mkArgs true (inherits_from a) in
      match l' with KwComma :: l'' => parse_args l'' a | _ => parse_args l' a end
  | KwInherit :: KwEq :: KwType t :: l' =>
      let a := mkArgs (is_base a) (Some t) in
      match l' with KwComma :: l'' => parse_args l'' a | _ => parse_args l' a end
  | _ => None
  end.

Inductive object_error :=
  | ParseArgs
  | ConfigError (e : config_error)
  | InSignature (e : SignatureError)
  | InOp (e : op2_error)
  | MultipleConstructors.

Section objects.
Context {path tokens : Type} `{!Tokens path tokens, !Syn tokens, !Reparse, !Names}.

(** * One op *)

(** An op: the name of the Rust function that declares it and the name for JavaScript. *)
Record member_op := mkMember {
  rust_name : string;
  js_name : string;
  member_config : @MacroConfig path;
  member_code : op_code;
}.

(** A function: attributes, identifier and signature. *)
Record ItemFn := mkFn {
  fn_attrs : list (Attribute tokens);
  fn_ident : string;
  fn_sig : Signature (tokens:=tokens);
}.

Definition name_of_op (config : @MacroConfig path) (ident : string) : string :=
  if setter config then "__set_" ++ unraw ident
  else if static_member config then "__static_" ++ unraw ident
  else ident.

(** [Ident::new], which [format_ident!] ends in. *)
Definition new_ident (s : string) : outcome string := if token_ident s then Ret s else Panic Unwrap.

(** [generate_op2] from a function. *)
Definition generate_op2_fn (fuel : nat) (config : @MacroConfig path) (func : ItemFn)
    : outcome (result member_op object_error) :=
  s ← parse_signature fuel (fn_attrs func) (fn_sig func);
  match s with
  | Err e => Ret (Err (InSignature e))
  | Ok s =>
      name ← new_ident (from_option id (fn_ident func) (rename config));
      op ← generate_op2 config s;
      Ret (match op with
           | Err e => Err (InOp e)
           | Ok op => Ok (mkMember (name_of_op config (fn_ident func)) name config op)
           end)
  end.

(** * The [impl] block *)

Inductive ImplItem := ImplFn (f : ItemFn) | ImplOther.

(** [parse2::<CustomMeta>] of an attribute, without its kind of parentheses. *)
Definition custom_meta (a : Attribute tokens) : option (CustomMeta (tokens:=tokens)) :=
  match Op2Signature.attr_ident a, Op2Signature.attr_meta a with
  | Some i, MetaPath => Some (mkMeta i None)
  | Some i, MetaList t => Some (mkMeta i (Some t))
  | _, _ => None
  end.

Definition config_attribute (a : Attribute tokens) : attribute (tokens:=tokens) :=
  mkAttribute (Op2Signature.attr_ident a) (custom_meta a).

Definition set_base (c : @MacroConfig path) (base : bool) : @MacroConfig path :=
  mkConfig (fast c) (nofast c) (fast_alternative c) (fake_async c) (async_lazy c) (async_deferred c) (reentrant c)
    (method c) (self_name c) (constructor c) (static_member c) (no_side_effects c) (getter c) (setter c)
    (stack_trace c) (required c) (rename c) (symbol c) (base || use_cppgc_base c) (promise_id c) (validate c).

Definition set_self (c : @MacroConfig path) (m : option string) (self : string) : @MacroConfig path :=
  mkConfig (fast c) (nofast c) (fast_alternative c) (fake_async c) (async_lazy c) (async_deferred c) (reentrant c)
    m (Some self) (constructor c) (static_member c) (no_side_effects c) (getter c) (setter c)
    (stack_trace c) (required c) (rename c) (symbol c) (use_cppgc_base c) (promise_id c) (validate c).

(** What [DECL] names. *)
Record Declared := mkDecl {
  decl_constructor : option string;
  decl_methods : list string;
  decl_static_methods : list string;
}.

(** The name that a member gets in [DECL], by its role. *)
Definition declare (config : @MacroConfig path) (ident : string) (d : Declared) : result Declared object_error :=
  if constructor config then
    match decl_constructor d with
    | Some _ => Err MultipleConstructors
    | None => Ok (mkDecl (Some ident) (decl_methods d) (decl_static_methods d))
    end
  else if static_member config then
    Ok (mkDecl (decl_constructor d) (decl_methods d) (decl_static_methods d ++ [("__static_" ++ unraw ident)%string])%list)
  else
    Ok (mkDecl (decl_constructor d)
          (decl_methods d ++ [if setter config then ("__set_" ++ unraw ident)%string else ident])%list (decl_static_methods d)).

(** One method of the block. *)
Definition member (fuel : nat) (args : Args) (self_ty : string) (f : ItemFn) (d : Declared)
    : outcome (result (Declared * member_op) object_error) :=
  let special := filter (λ a, is_attribute_special a = true) (fn_attrs f) in
  let attrs := filter (λ a, is_attribute_special a = false) (fn_attrs f) in
  name ← new_ident (camel_case (fn_ident f));
  match from_attributes (map config_attribute attrs) with
  | Err e => Ret (Err (ConfigError e))
  | Ok config =>
      let config := set_base config (is_base args) in
      ident ← match rename config with
              | Some r => if parses_ident r then new_ident r else Ret name
              | None => Ret name
              end;
      match declare config ident d with
      | Err e => Ret (Err e)
      | Ok d =>
          self_ty ← new_ident self_ty;
          let m := if constructor config || static_member config then None else Some self_ty in
          op ← generate_op2_fn fuel (set_self config m self_ty) (mkFn special ident (fn_sig f));
          Ret (match op with Err e => Err e | Ok op => Ok (d, op) end)
      end
  end.

Fixpoint members (fuel : nat) (args : Args) (self_ty : string) (items : list ImplItem) (d : Declared)
    (ops : list member_op) : outcome (result (Declared * list member_op) object_error) :=
  match items with
  | [] => Ret (Ok (d, ops))
  | ImplOther :: items' => members fuel args self_ty items' d ops
  | ImplFn f :: items' =>
      r ← member fuel args self_ty f d;
      match r with
      | Err e => Ret (Err e)
      | Ok (d, op) => members fuel args self_ty items' d (ops ++ [op])%list
      end
  end.

Definition generate_impl_ops (fuel : nat) (attr : list arg_token) (self_ty : string) (items : list ImplItem)
    : outcome (result (Declared * list member_op) object_error) :=
  match parse_args attr (mkArgs false None) with
  | None => Ret (Err ParseArgs)
  | Some args => members fuel args self_ty items (mkDecl None [] []) []
  end.

(** * Laws *)

Definition is_constructor (o : member_op) : bool := constructor (member_config o).
Definition is_static (o : member_op) : bool := negb (is_constructor o) && static_member (member_config o).
Definition is_method (o : member_op) : bool := negb (is_constructor o) && negb (static_member (member_config o)).

(** Flags that do not contradict each other. *)
Definition one_role (o : member_op) : Prop :=
  if constructor (member_config o) then setter (member_config o) = false ∧ static_member (member_config o) = false
  else static_member (member_config o) = true → setter (member_config o) = false.

Definition names (sel : member_op → bool) (ops : list member_op) : list string :=
  rust_name <$> filter (λ o, sel o = true) ops.

(** The declaration names the ops, by role. *)
Definition names_ops (d : Declared) (ops : list member_op) : Prop :=
  names is_constructor ops = option_list (decl_constructor d) ∧
  names is_method ops = decl_methods d ∧
  names is_static ops = decl_static_methods d.

(** How the code of a member knows its object. *)
Definition knows_object (base : bool) (self_ty : string) (o : member_op) : Prop :=
  self_name (member_config o) = Some self_ty ∧
  method (member_config o) = (if is_method o then Some self_ty else None) ∧
  (base = true → use_cppgc_base (member_config o) = true).

Lemma names_app sel ops o : names sel (ops ++ [o]) = (names sel ops ++ if sel o then [rust_name o] else [])%list.
Proof.
  unfold names. rewrite filter_app, fmap_app. f_equal. rewrite filter_cons.
  destruct (sel o) eqn:E; [by rewrite decide_True | by rewrite decide_False by congruence].
Qed.

(** What becomes of a method. *)
Definition op_of (fuel : nat) (base : bool) (self_ty : string) (f : ItemFn) (o : member_op) : Prop :=
  knows_object base self_ty o ∧
  js_name o = from_option id (camel_case (fn_ident f)) (rename (member_config o)) ∧
  ∃ s, parse_signature fuel (filter (λ a, is_attribute_special a = true) (fn_attrs f)) (fn_sig f) = Ret (Ok s) ∧
       generate_op2 (member_config o) s = Ret (Ok (member_code o)).

Definition methods_of (items : list ImplItem) : list ItemFn :=
  omap (λ i, match i with ImplFn f => Some f | ImplOther => None end) items.

Lemma new_ident_Ret a b : new_ident a = Ret b → b = a.
Proof. unfold new_ident. destruct (token_ident a); congruence. Qed.

Lemma generate_op2_fn_Ok fuel config f o :
  generate_op2_fn fuel config f = Ret (Ok o) →
  rust_name o = name_of_op config (fn_ident f) ∧ member_config o = config ∧
  js_name o = from_option id (fn_ident f) (rename config) ∧
  ∃ s, parse_signature fuel (fn_attrs f) (fn_sig f) = Ret (Ok s) ∧ generate_op2 config s = Ret (Ok (member_code o)).
Proof.
  unfold generate_op2_fn. intros (s & Hs & Ho)%bind_Ret_inv. destruct s as [s|]; [|done].
  apply bind_Ret_inv in Ho as (name & ->%new_ident_Ret & Ho).
  apply bind_Ret_inv in Ho as (op & Hop & Ho). destruct op; simplify_eq/=.
  split_and!; try done. by exists s.
Qed.

(** A member of one role is declared under the name of its op. *)
Lemma declare_names config ident d d' o ops :
  declare config ident d = Ok d' → member_config o = config → rust_name o = name_of_op config ident →
  names_ops d ops → one_role o → names_ops d' (ops ++ [o]).
Proof.
  unfold names_ops, one_role, is_method, is_static, is_constructor. intros Hd Hc Hn (Hn1 & Hn2 & Hn3) Hrole.
  rewrite !names_app, Hn1, Hn2, Hn3, Hn, Hc. rewrite Hc in Hrole. unfold declare in Hd. unfold name_of_op.
  destruct (constructor config).
  - destruct Hrole as [-> ->]. destruct (decl_constructor d); simplify_eq/=. by rewrite !app_nil_r.
  - destruct (static_member config); [rewrite (Hrole eq_refl)|]; simplify_eq/=; rewrite !app_nil_r;
      by split_and!.
Qed.

Lemma member_names fuel args self_ty f d d' o ops :
  member fuel args self_ty f d = Ret (Ok (d', o)) →
  op_of fuel (is_base args) self_ty f o ∧ (names_ops d ops → one_role o → names_ops d' (ops ++ [o])).
Proof.
  unfold member. intros (name & ->%new_ident_Ret & Hm)%bind_Ret_inv.
  destruct (from_attributes _) as [c|]; [|done].
  assert (is_base args = true → use_cppgc_base (set_base c (is_base args)) = true) as Hbase by (by intros ->).
  revert Hm. generalize (set_base c (is_base args)), Hbase. clear c Hbase. intros config Hbase.
  intros (ident & Hident & Hm)%bind_Ret_inv.
  destruct (declare config ident d) as [d1|] eqn:Hd; [|done].
  apply bind_Ret_inv in Hm as (sty & ->%new_ident_Ret & Hm). apply bind_Ret_inv in Hm as (r & Hr & Heq).
  destruct r as [op|]; simplify_eq. apply generate_op2_fn_Ok in Hr as (Hname & Hconfig & Hjs & Hcode).
  split.
  - unfold op_of, knows_object, is_method, is_constructor. rewrite Hconfig, Hjs. simpl in *. split_and!; try done.
    + by destruct (constructor config), (static_member config).
    + destruct (rename config); [done|]. simpl. by simplify_eq.
  - intros Hn Hrole. unfold names_ops. eapply (declare_names (set_self config _ self_ty)); [exact Hd | done..].
Qed.

Lemma members_names fuel args self_ty items d ops d' ops' :
  members fuel args self_ty items d ops = Ret (Ok (d', ops')) →
  ∃ new, ops' = (ops ++ new)%list ∧ Forall2 (op_of fuel (is_base args) self_ty) (methods_of items) new ∧
    (names_ops d ops → Forall one_role new → names_ops d' ops').
Proof.
  revert d ops. induction items as [|[f|] items IH]; intros d ops; simpl.
  - intros [= -> ->]. exists []. rewrite app_nil_r. by split_and!.
  - intros (r & Hr & Hm)%bind_Ret_inv. destruct r as [[d1 o]|]; [|done].
    destruct (member_names _ _ _ _ _ _ _ ops Hr) as [Hop Hnames].
    destruct (IH _ _ Hm) as (new & -> & Hnew & Hall). exists (o :: new). rewrite <- app_assoc. split_and!; [done | by constructor |].
    intros Hn Hroles. inversion Hroles; subst. rewrite <- app_assoc in Hall. by apply Hall; [apply Hnames|].
  - apply IH.
Qed.

(** C30. An object is declared with the ops of its methods.  When the macro accepts an [impl]
    block, every method has become one op, in the order of the block, whose code is that of
    its signature and whose name in JavaScript is the one that [rename] gives or the name of
    the method in camel case; methods, getters and setters unwrap the object that they are
    called on, constructors and static methods do not, and with [base] all of them use the
    unwrapping for base classes.  As long as no method claims two roles, which the macro does
    not check, [DECL] names exactly these ops, each in the list of its role and under the
    name of its Rust function, and so there is one constructor at most. *)
Theorem objects_declare_their_ops fuel attr self_ty items d ops :
  generate_impl_ops fuel attr self_ty items = Ret (Ok (d, ops)) →
  (∃ args, parse_args attr (mkArgs false None) = Some args ∧
     Forall2 (op_of fuel (is_base args) self_ty) (methods_of items) ops) ∧
  (Forall one_role ops → names_ops d ops).
Proof.
  unfold generate_impl_ops. destruct (parse_args _ _) as [args|]; [|done].
  intros (new & -> & Hnew & Hnames)%members_names. simpl in *. split; [by exists args|].
  by apply Hnames.
Qed.
End objects.

(** * A concrete object *)

#[local] Existing Instances text_tokens text_syn text_syn_laws.
#[local] Instance any_text : Reparse := {| reparses _ := true; default_supported _ := true |}.

Definition no_keyword (s : string) : bool := negb (bool_decide (s ∈ ["type"; "fn"; "new"; ""])).

#[local] Instance short_names : Names := {|
  camel_case s := match s with "get_x" => "getX" | _ => s end;
  parses_ident := no_keyword;
  token_ident s := negb (bool_decide (s ∈ [""; "Point < T >"]));
  unraw := id;
|}.

Definition list_attribute (s t : string) : Attribute string := mkAttr false (Some s) (MetaList t).

Definition method_fn (name : string) (attrs : list (Attribute string)) (args : list FnArg) (t : ReturnType) : ImplItem :=
  ImplFn (mkFn attrs name (plain_signature args t)).

Definition point_new : ImplItem :=
  method_fn "create" [attribute_of "constructor"; attribute_of "cppgc"]
    [arg_named "x" [] (named "i32")] (ReturnsType (named "Point")).
Definition point_get_x : ImplItem :=
  method_fn "get_x" [attribute_of "fast"] [Receiver] (ReturnsType (named "i32")).
Definition point_set_x : ImplItem :=
  method_fn "x" [attribute_of "setter"] [Receiver; arg_named "x" [] (named "i32")] DefaultReturn.
Definition point_origin : ImplItem :=
  method_fn "origin" [attribute_of "static_method"; attribute_of "cppgc"] [] (ReturnsType (named "Point")).
Definition point_type : ImplItem :=
  method_fn "kind" [attribute_of "getter"; list_attribute "rename" "type"] [Receiver] (ReturnsType (named "i32")).

Definition point_items := [point_new; ImplOther; point_get_x; point_set_x; point_origin; point_type].
Definition declared_point := mkDecl (Some "create") ["getX"; "__set_x"; "kind"] ["__static_origin"].

Lemma objects_declare_their_ops_witness :
  match generate_impl_ops 9 [KwBase] "Point" point_items with
  | Ret (Ok (d, ops)) => d = declared_point ∧ names_ops declared_point ops ∧ js_name <$> ops = ["create"; "getX"; "x"; "origin"; "type"]
  | _ => False
  end.
Proof.
  destruct (generate_impl_ops 9 [KwBase] "Point" point_items) as [[[d ops]|]|] eqn:H; [|vm_compute in H; discriminate..].
  destruct (objects_declare_their_ops 9 [KwBase] "Point" point_items d ops H) as [_ Hnames].
  assert (d = declared_point) as -> by (vm_compute in H; by inversion H).
  split; [reflexivity|]. split.
  - apply Hnames. vm_compute in H. inversion H. repeat (apply Forall_cons; split; [vm_compute; naive_solver|]). by apply Forall_nil.
  - vm_compute in H. inversion H. reflexivity.
Defined.

(** A static setter is declared under a name that no op has. *)
Lemma static_setter :
  let f := method_fn "x" [attribute_of "setter"; attribute_of "static_method"]
             [arg_named "x" [] (named "i32")] DefaultReturn in
  match generate_impl_ops 9 [] "Point" [f] with
  | Ret (Ok (d, ops)) => decl_static_methods d = ["__static_x"] ∧ rust_name <$> ops = ["__set_x"]
  | _ => False
  end.
Proof. vm_compute. split; reflexivity. Qed.

(** [cfg] on a method changes nothing. *)
Lemma cfg_on_method :
  let f l := method_fn "get_x" l [Receiver] (ReturnsType (named "i32")) in
  let fast := attribute_of "fast" in
  generate_impl_ops 9 [] "Point" [f [list_attribute "cfg" "windows"; fast]] = generate_impl_ops 9 [] "Point" [f [fast]] ∧
  generate_impl_ops 9 [] "Point" [f [fast]] ≠ generate_impl_ops 9 [] "Point" [].
Proof. vm_compute. split; [reflexivity | done]. Qed.

(** An object with type arguments is refused by a panic, two constructors by an error. *)
Lemma refused_objects :
  generate_impl_ops 9 [] "Point < T >" [point_get_x] = Panic Unwrap ∧
  generate_impl_ops 9 [] "Point" [point_new; point_get_x; point_new] = Ret (Err MultipleConstructors) ∧
  generate_impl_ops 9 [KwBase; KwInherit; KwComma] "Point" [] = Ret (Err ParseArgs).
Proof. vm_compute. split_and!; reflexivity. Qed.
