(* ===== verification/CppgcTypes.v ===== *)
(** [ops/cppgc.rs] and the inheritance graph of [core/cppgc.rs]: which types of garbage
    collected objects inherit from which, as the derive macros declare it, and what that
    means for their layout in memory.

    Types without parameters; a type is its [TypeId].  The texts of types are resolved in the
    scope of the declaration.  Sizes, alignments and offsets are those of the compiler. *)

From stdpp Require Import relations.
From S2P Require Import Prelude.

Local Open Scope string_scope.
Local Open Scope nat_scope.

Abbreviation TypeId := nat.

(** * Derive macros *)

Inductive repr_item := ReprPath (name : string) | ReprArgs (name : string).

Inductive Attribute :=
  | ReprList (nested : option (list repr_item))  (** [None]: it does not parse *)
  | ReprOther                                    (** [repr] without a list *)
  | InheritsFrom (base : option string)
  | OtherAttribute.

Inductive Fields := Named (types : list string) | Unnamed (types : list string) | Unit.
Inductive Data := Struct (fields : Fields) | Enum | Union.

Record DeriveInput := mkInput {
  ident : TypeId;
  attrs : list Attribute;
  data : Data;
  scope : string → TypeId;
}.

Inductive derive_error :=
  | ParseError | NoReprC | BaseTwice | NoBase | NoField | FirstFieldNotBase.

Definition field_types (data : Data) : list string :=
  match data with Struct (Named l) | Struct (Unnamed l) => l | _ => [] end.

Definition first_field (data : Data) : option string := head (field_types data).

Definition is_c (m : repr_item) : bool := match m with ReprPath name => bool_decide (name = "C") | ReprArgs _ => false end.

Fixpoint ensure_repr_c (attrs : list Attribute) : result unit derive_error :=
  match attrs with
  | [] => Err NoReprC
  | ReprList None :: _ => Err ParseError
  | ReprList (Some nested) :: attrs => if existsb is_c nested then Ok tt else ensure_repr_c attrs
  | _ :: attrs => ensure_repr_c attrs
  end.

Fixpoint base_attr_loop (attrs : list Attribute) (found : option string) : result (option string) derive_error :=
  match attrs with
  | [] => Ok found
  | InheritsFrom t :: attrs =>
      match found, t with
      | Some _, _ => Err BaseTwice
      | None, None => Err ParseError
      | None, Some base => base_attr_loop attrs (Some base)
      end
  | _ :: attrs => base_attr_loop attrs found
  end.

Definition parse_base_attr (attrs : list Attribute) : result string derive_error :=
  match base_attr_loop attrs None with
  | Err e => Err e
  | Ok None => Err NoBase
  | Ok (Some base) => Ok base
  end.

Definition types_equal (a b : string) : bool := bool_decide (a = b).

(** The code of [derives_inherits]: the edge that it submits and what it asserts. *)
Record InheritanceEdge := mkEdge { base : TypeId; derived : TypeId }.
Global Instance edge_eq_dec : EqDecision InheritanceEdge.
Proof. solve_decision. Defined.

Definition inherits_inner (input : DeriveInput) : result InheritanceEdge derive_error :=
  match parse_base_attr (attrs input) with
  | Err e => Err e
  | Ok base =>
      match ensure_repr_c (attrs input) with
      | Err e => Err e
      | Ok _ =>
          match first_field (data input) with
          | None => Err NoField
          | Some ty =>
              if types_equal ty base then Ok (mkEdge (scope input base) (ident input)) else Err FirstFieldNotBase
          end
      end
  end.

(** What the compiler says of a type; fields are counted from 0. *)
Class Layout := {
  size_of : TypeId → nat;
  align_of : TypeId → nat;
  offset_of : TypeId → nat → nat;
}.

Section layout.
Context `{Layout}.

Definition offset_assert (e : InheritanceEdge) : bool := bool_decide (offset_of (derived e) 0 = 0).

Definition size_align_assert (e : InheritanceEdge) : bool :=
  negb (bool_decide (size_of (base e) = 0)) && bool_decide (align_of (base e) <= align_of (derived e)).

Definition base_inner (input : DeriveInput) : result bool derive_error :=
  match ensure_repr_c (attrs input) with
  | Err e => Err e
  | Ok _ => Ok (negb (bool_decide (size_of (ident input) = 0)))
  end.

(** A derived type compiles. *)
Definition derives_inherits (input : DeriveInput) : option InheritanceEdge :=
  match inherits_inner input with
  | Ok e => if offset_assert e && size_align_assert e then Some e else None
  | Err _ => None
  end.

(** The edges of a program that compiles, as [inventory] collects them. *)
Definition inventory (program : list DeriveInput) : option (list InheritanceEdge) := mapM derives_inherits program.
End layout.

(** * The inheritance graph *)

Definition adjacency_map (edges : list InheritanceEdge) : gmap TypeId (list TypeId) :=
  foldl (λ m e, <[base e := (default [] (m !! base e) ++ [derived e])%list]> m) ∅ edges.

Record search_state := mkSearch { visited : gset TypeId; descendants : list TypeId; queue : list TypeId }.

(** The top of the stack is the head of [queue]. *)
Definition visit (s : search_state) (child : TypeId) : search_state :=
  if decide (child ∈ visited s) then s
  else mkSearch ({[child]} ∪ visited s) (descendants s ++ [child])%list (child :: queue s).

Fixpoint search (fuel : nat) (adjacency : gmap TypeId (list TypeId)) (s : search_state) : outcome (list TypeId) :=
  match fuel with
  | 0 => Panic OutOfFuel
  | S fuel =>
      match queue s with
      | [] => Ret (descendants s)
      | current :: queue =>
          search fuel adjacency
            (foldl visit (mkSearch (visited s) (descendants s) queue) (default [] (adjacency !! current)))
      end
  end.

(** Every edge leads to one new type at most. *)
Definition find_transitive_inheritors (edges : list InheritanceEdge) (root : TypeId) : outcome (list TypeId) :=
  search (length edges + 2) (adjacency_map edges) (mkSearch {[root]} [] [root]).

Definition extends (edges : list InheritanceEdge) (b d : TypeId) : Prop := mkEdge b d ∈ edges.

Lemma elem_of_adjacency edges b d : d ∈ default [] (adjacency_map edges !! b) ↔ extends edges b d.
Proof.
  unfold adjacency_map, extends.
  assert (∀ m, d ∈ default [] (foldl (λ m e, <[base e := (default [] (m !! base e) ++ [derived e])%list]> m) m edges !! b)
    ↔ d ∈ default [] (m !! b) ∨ mkEdge b d ∈ edges) as ->.
  { induction edges as [|e edges IH]; intros m; simpl; [rewrite elem_of_nil; tauto|].
    rewrite IH, elem_of_cons. destruct e as [b' d']. simpl. destruct (decide (b = b')) as [->|Hne].
    - rewrite lookup_insert_eq. simpl. rewrite elem_of_app, list_elem_of_singleton.
      split; [intros [[?| ->]|?]; auto | intros [?|[[= ->]|?]]; auto].
    - rewrite lookup_insert_ne by done. split; [intros [?|?]; auto | intros [?|[[= ? ->]|?]]; auto]; congruence. }
  rewrite lookup_empty. simpl. rewrite elem_of_nil. tauto.
Qed.

Section graph.
Context (edges : list InheritanceEdge) (root : TypeId).
Local Abbreviation targets := (list_to_set (C:=gset TypeId) (derived <$> edges)).

(** All types found so far can be reached, and only [pending] and the stack may have children
    that were not seen. *)
Record search_ok (pending : gset TypeId) (s : search_state) : Prop := {
  ok_visited : visited s = {[root]} ∪ list_to_set (descendants s);
  ok_nodup : NoDup (root :: descendants s);
  ok_queue : ∀ t, t ∈ queue s → t ∈ visited s;
  ok_reach : ∀ t, t ∈ descendants s → tc (extends edges) root t;
  ok_closed : ∀ t c, t ∈ visited s → t ∉ queue s → t ∉ pending → extends edges t c → c ∈ visited s;
}.

Definition work (s : search_state) : nat := length (queue s) + size (targets ∖ visited s).

Lemma visited_reach pending s t : search_ok pending s → t ∈ visited s → rtc (extends edges) root t.
Proof.
  intros Hok. rewrite (ok_visited _ _ Hok), elem_of_union, elem_of_singleton, elem_of_list_to_set.
  intros [->|Ht]; [done | by apply tc_rtc, (ok_reach _ _ Hok)].
Qed.

Lemma visit_ok pending s t c :
  search_ok pending s → t ∈ visited s → extends edges t c →
  search_ok pending (visit s c) ∧ work (visit s c) = work s ∧ visited s ⊆ visited (visit s c) ∧ c ∈ visited (visit s c).
Proof.
  intros Hok Ht Hc. unfold visit. case_decide as Hin; [done|]. unfold work. simpl. split; [|split; [|set_solver]].
  - pose proof (ok_visited _ _ Hok) as Hv. split; simpl.
    + rewrite Hv, list_to_set_app_L. set_solver.
    + apply (NoDup_app (root :: descendants s) [c]). split; [apply Hok|]. split; [|by apply NoDup_singleton].
      intros x Hx ->%list_elem_of_singleton. apply Hin. rewrite Hv. apply elem_of_cons in Hx. set_solver.
    + intros x [->|Hx]%elem_of_cons; [set_solver|]. apply (ok_queue _ _ Hok) in Hx. set_solver.
    + intros x [Hx| ->%list_elem_of_singleton]%elem_of_app; [by apply Hok|].
      apply tc_rtc_l with t; [by apply (visited_reach pending s) | by apply tc_once].
    + intros x y [->%elem_of_singleton|Hx]%elem_of_union Hq Hp Hxy; [set_solver|].
      apply elem_of_union. right. apply (ok_closed _ _ Hok x); [done | set_solver | done..].
  - assert (c ∈ targets) as Hct by (apply elem_of_list_to_set, list_elem_of_fmap; by exists (mkEdge t c)).
    replace (targets ∖ ({[c]} ∪ visited s)) with ((targets ∖ visited s) ∖ {[c]}) by set_solver.
    rewrite size_difference by set_solver. rewrite size_singleton.
    assert (size (targets ∖ visited s) ≠ 0); [|lia]. apply size_non_empty_iff. set_solver.
Qed.

Lemma visit_all_ok t children pending s :
  search_ok pending s → t ∈ visited s → (∀ c, c ∈ children → extends edges t c) →
  let s' := foldl visit s children in
  search_ok pending s' ∧ work s' = work s ∧ visited s ⊆ visited s' ∧ (∀ c, c ∈ children → c ∈ visited s').
Proof.
  revert s. induction children as [|c children IH]; intros s Hok Ht Hc; simpl.
  - split_and!; try done. by intros ? ?%elem_of_nil.
  - destruct (visit_ok pending s t c Hok Ht) as (Hok1 & Hw1 & Hsub & Hin); [apply Hc; by left|].
    destruct (IH (visit s c)) as (Hok2 & Hw2 & Hsub2 & Hin2); [done | set_solver | intros; apply Hc; by right |].
    split_and!; [done | lia | set_solver |]. intros x [->|Hx]%elem_of_cons; [set_solver | auto].
Qed.

Lemma closed_rtc (types : gset TypeId) t u :
  (∀ x y, x ∈ types → extends edges x y → y ∈ types) → rtc (extends edges) t u → t ∈ types → u ∈ types.
Proof. intros Hclosed. induction 1; eauto. Qed.

Lemma search_spec fuel s :
  search_ok ∅ s → work s < fuel →
  ∃ l, search fuel (adjacency_map edges) s = Ret l ∧ NoDup l ∧ ∀ t, t ∈ l ↔ t ≠ root ∧ tc (extends edges) root t.
Proof.
  revert s. induction fuel as [|fuel IH]; intros s Hok Hw; [lia|]. simpl.
  destruct (queue s) as [|current queue] eqn:Hq.
  - exists (descendants s). pose proof (ok_nodup _ _ Hok) as [Hroot Hnd]%NoDup_cons. split_and!; [done..|].
    intros t. split; [intros Ht; split; [by intros ->|]; by apply Hok|]. intros [Hne Ht%tc_rtc].
    assert (t ∈ visited s) as Hv.
    { apply (closed_rtc (visited s) root t); [| done | rewrite (ok_visited _ _ Hok); set_solver].
      intros x y Hx. apply (ok_closed _ _ Hok); [done | rewrite Hq; set_solver | set_solver]. }
    rewrite (ok_visited _ _ Hok) in Hv. set_solver.
  - set (s0 := mkSearch (visited s) (descendants s) queue).
    assert (current ∈ visited s) as Hcur by (apply (ok_queue _ _ Hok); rewrite Hq; by left).
    assert (search_ok {[current]} s0) as Hok0.
    { destruct Hok as [H1 H2 H3 H4 H5]. split; simpl; try done.
      - intros t Ht. apply H3. rewrite Hq. by right.
      - intros t c Ht Hnq Hne Htc. apply (H5 t c); [done | rewrite Hq; set_solver | set_solver | done]. }
    destruct (visit_all_ok current (default [] (adjacency_map edges !! current)) _ s0 Hok0)
      as (Hok1 & Hw1 & Hsub & Hin); [done | intros c; apply elem_of_adjacency |].
    apply IH.
    + destruct Hok1 as [H1 H2 H3 H4 H5]. split; try done. intros t c Ht Hnq _ Htc.
      destruct (decide (t = current)) as [->|Hne]; [by apply Hin, elem_of_adjacency|].
      apply (H5 t c); [done..| set_solver | done].
    + rewrite Hw1. unfold work in *. simpl. rewrite Hq in Hw. simpl in Hw. lia.
Qed.

(** The search finds each descendant once. *)
Lemma find_transitive_inheritors_spec :
  ∃ l, find_transitive_inheritors edges root = Ret l ∧ NoDup l ∧ ∀ t, t ∈ l ↔ t ≠ root ∧ tc (extends edges) root t.
Proof.
  apply search_spec.
  - split; simpl; try set_solver. apply NoDup_singleton.
  - unfold work. simpl.
    assert (size (targets ∖ {[root]}) <= length edges); [|lia].
    transitivity (size targets); [apply subseteq_size; set_solver|].
    rewrite <- (length_fmap derived edges). generalize (derived <$> edges). intros l.
    induction l as [|x l IH]; [by rewrite list_to_set_nil, size_empty|].
    rewrite list_to_set_cons, size_union_alt, size_singleton. simpl.
    assert (size (list_to_set l ∖ {[x]} : gset TypeId) <= size (list_to_set l : gset TypeId)); [|lia].
    apply subseteq_size. set_solver.
Qed.
End graph.

(** * Memory *)

(** A value in memory: the bytes that are not fields of a declared type are a payload. *)
Inductive value := Val (ty : TypeId) (payload : Z) (fields : list value).

Definition type_of (v : value) : TypeId := match v with Val ty _ _ => ty end.

Section memory.
Context `{Layout}.

(** The value of type [T] at an offset. *)
Fixpoint read_at (T : TypeId) (d : nat) (v : value) {struct v} : option value :=
  match v with
  | Val ty _ fields =>
      if decide (ty = T ∧ d = 0) then Some v
      else (fix go (i : nat) (fields : list value) : option value :=
              match fields with
              | [] => None
              | f :: fields =>
                  match (if decide (offset_of ty i <= d) then read_at T (d - offset_of ty i) f else None) with
                  | Some w => Some w
                  | None => go (S i) fields
                  end
              end) 0 fields
  end.

(** A value of a declared type has the fields of the declaration. *)
Fixpoint well_typed (program : list DeriveInput) (v : value) : Prop :=
  match v with
  | Val ty _ fields =>
      (∀ input, input ∈ program → ident input = ty → type_of <$> fields = scope input <$> field_types (data input)) ∧
      foldr and True (map (well_typed program) fields)
  end.

Context (program : list DeriveInput) (edges : list InheritanceEdge) (Hprogram : inventory program = Some edges).

(** What the macro has checked of an edge. *)
Lemma edge_declared b d :
  extends edges b d →
  ∃ input ty, input ∈ program ∧ ident input = d ∧ head (field_types (data input)) = Some ty ∧ scope input ty = b ∧
    offset_of d 0 = 0 ∧ size_of b ≠ 0 ∧ align_of b <= align_of d.
Proof.
  unfold extends, inventory in *. intros Hin.
  apply mapM_Some in Hprogram.
  apply list_elem_of_lookup in Hin as [i Hi]. destruct (Forall2_lookup_r _ _ _ _ _ Hprogram Hi) as (input & Hinput & Hd).
  apply list_elem_of_lookup_2 in Hinput. unfold derives_inherits in Hd.
  destruct (inherits_inner input) as [e|] eqn:He; [|done]. unfold inherits_inner in He.
  destruct (parse_base_attr _) as [base|]; [|done]. destruct (ensure_repr_c _); [|done].
  destruct (first_field (data input)) as [ty|] eqn:Hf; [|done].
  destruct (types_equal ty base) eqn:Ht; [|done]. apply bool_decide_eq_true in Ht as ->. injection He as <-.
  unfold offset_assert, size_align_assert in Hd. simpl in Hd.
  destruct (_ && _) eqn:Ha; [|done]. injection Hd as <- <-.
  apply andb_true_iff in Ha as [Ho%bool_decide_eq_true [Hs Ha%bool_decide_eq_true]%andb_true_iff].
  apply negb_true_iff, bool_decide_eq_false in Hs. by exists input, base.
Qed.

Lemma extends_align b d : rtc (extends edges) b d → align_of b <= align_of d.
Proof.
  induction 1 as [|b m d Hbm _ IH]; [done|]. destruct (edge_declared _ _ Hbm) as (? & ? & ?). naive_solver lia.
Qed.

(** A value of a derived type starts with one of the base. *)
Lemma base_at_front T v :
  well_typed program v → rtc (extends edges) T (type_of v) → ∃ w, read_at T 0 v = Some w ∧ type_of w = T.
Proof.
  intros Hv Hr. remember (type_of v) as D eqn:HD. revert v Hv HD.
  pattern D. refine (rtc_ind_r _ T _ _ D Hr); clear Hr; [|intros M D' _ HM IH]; intros [ty z fields] Hv HD; simpl in HD; subst.
  - exists (Val ty z fields). simpl. by rewrite decide_True.
  - simpl. case_decide as HT; [exists (Val ty z fields); naive_solver|].
    destruct (edge_declared _ _ HM) as (input & t & Hin & Hid & Hf & Hs & Ho & _ & _).
    destruct Hv as [Htypes Hfields]. specialize (Htypes input Hin Hid).
    destruct (field_types (data input)) as [|t' ts]; [done|]. injection Hf as ->.
    destruct fields as [|f fields]; [done|]. simpl in Htypes. injection Htypes as Hft _.
    destruct Hfields as [Hf _]. destruct (IH f Hf) as (w & Hw & Htw); [congruence|].
    exists w. rewrite Ho, decide_True by lia. simpl. by rewrite Hw.
Qed.
End memory.
