(* ===== verification/Cppgc.v ===== *)
(** [core/cppgc.rs]: Rust objects on V8's C++ heap, their JavaScript wrappers, and the casts
    that get from one to the other.

    Addresses are numbers that are never used again, and a read that does not find a value of
    the type it is for is [BadMemory].  The two garbage collectors are actions of the host:
    V8 drops a wrapper, cppgc drops objects that no root reaches.  As in V8 the stack is a
    root; what has left it is not. *)

From stdpp Require Import relations.
From S2P Require Import Prelude CppgcTypes.

Implicit Types (T : TypeId) (q k : nat).

Definition CPPGC_SINGLE_TAG : N := 1.

(** * Objects *)

(** A [CppGcObject]; [traced] are the [Member]s that its [trace] visits. *)
Record CppGcObject := mkObject { tag : TypeId; member : value; traced : list (TypeId * nat) }.

(** A JavaScript object; the wrapped pointer has the tag of the embedder that set it. *)
Record js_object := mkJs { is_api_wrapper : bool; template : option Z; wrapped : option (N * nat) }.

Inductive handle :=
  | UnsafePtr T q (root on_stack : bool)
  | Ref T q.

Definition handle_type (h : handle) : TypeId := match h with UnsafePtr T _ _ _ | Ref T _ => T end.
Definition inner (h : handle) : nat := match h with UnsafePtr _ q _ _ | Ref _ q => q end.

Record state := mkState {
  heap : gmap nat CppGcObject;
  next_address : nat;
  objects : gmap nat js_object;
  next_object : nat;
  handles : list handle;
  function_templates : gmap string Z;
  cppgc_template : option Z;
  same_objects : gmap nat nat;  (** the cells of [SameObject]s *)
}.

Definition set_heap (s : state) (h : gmap nat CppGcObject) (n : nat) : state :=
  mkState h n (objects s) (next_object s) (handles s) (function_templates s) (cppgc_template s) (same_objects s).
Definition set_objects (s : state) (o : gmap nat js_object) (n : nat) : state :=
  mkState (heap s) (next_address s) o n (handles s) (function_templates s) (cppgc_template s) (same_objects s).
Definition set_handles (s : state) (l : list handle) : state :=
  mkState (heap s) (next_address s) (objects s) (next_object s) l (function_templates s) (cppgc_template s) (same_objects s).
Definition set_same (s : state) (m : gmap nat nat) : state :=
  mkState (heap s) (next_address s) (objects s) (next_object s) (handles s) (function_templates s) (cppgc_template s) m.
Definition set_templates (s : state) (m : gmap string Z) : state :=
  mkState (heap s) (next_address s) (objects s) (next_object s) (handles s) m (cppgc_template s) (same_objects s).

(** A new runtime: [make_cppgc_template] has made the template of types without a class. *)
Definition initial_state (template : Z) : state := mkState ∅ 0 ∅ 0 [] ∅ (Some template) ∅.

(** [size_of::<TypeId>()]. *)
Definition tag_size : nat := 16.

(** The compiler, and the cppgc heap of V8, which takes no object with a larger alignment. *)
Class CppHeap := {
  cpp_layout :: Layout;
  heap_align : nat;
  type_name : TypeId → string;
}.

(** Alignments are powers of two, and cppgc supports 16 at most. *)
Class CppHeapLaws `{CppHeap} := {
  align_power T : ∃ n, align_of T = 2 ^ n;
  heap_align_16 : heap_align <= 16;
}.

Section cppgc.
Context `{CppHeap} (edges : list InheritanceEdge).

(** Where [member] is in a [repr(C)] struct after the tag. *)
Definition member_offset T : nat := (tag_size + align_of T - 1) / align_of T * align_of T.

(** Reading the member through a pointer to [CppGcObject<T>]. *)
Definition as_ref T (o : CppGcObject) : outcome value :=
  let real := member_offset (type_of (member o)) in
  if decide (real <= member_offset T) then
    match read_at T (member_offset T - real) (member o) with Some v => Ret v | None => Panic BadMemory end
  else Panic BadMemory.

Definition object_at (s : state) q : outcome CppGcObject :=
  match heap s !! q with Some o => Ret o | None => Panic BadMemory end.

(** ** Templates *)

Definition insert (s : state) (key : string) (template : Z) : state :=
  set_templates s (<[key := template]> (function_templates s)).

Definition get (s : state) T : option Z := function_templates s !! type_name T.

Definition new_instance (s : state) (template : Z) : nat * state :=
  (next_object s, set_objects s (<[next_object s := mkJs true (Some template) None]> (objects s)) (S (next_object s))).

Definition make_cppgc_empty_object T (s : state) : outcome (nat * state) :=
  match get s T with
  | Some template => Ret (new_instance s template)
  | None => template ← unwrap (cppgc_template s); Ret (new_instance s template)
  end.

(** ** Wrapping *)

(** [v8::cppgc::make_garbage_collected]. *)
Definition make_garbage_collected (s : state) (o : CppGcObject) : outcome (nat * state) :=
  if decide (align_of (type_of (member o)) <= heap_align) then
    Ret (next_address s, set_heap s (<[next_address s := o]> (heap s)) (S (next_address s)))
  else Panic Assert.

(** [v8::Object::wrap] has no check: an object that is no API wrapper has no place for a pointer. *)
Definition v8_wrap (s : state) k (wrapper_tag : N) q : outcome state :=
  match objects s !! k with
  | Some (mkJs true template _) =>
      Ret (set_objects s (<[k := mkJs true template (Some (wrapper_tag, q))]> (objects s)) (next_object s))
  | _ => Panic BadMemory
  end.

Definition wrap_object (s : state) k (t : value) (members : list (TypeId * nat)) : outcome state :=
  '(q, s) ← make_garbage_collected s (mkObject (type_of t) t members);
  v8_wrap s k CPPGC_SINGLE_TAG q.

Definition make_cppgc_object (s : state) (t : value) (members : list (TypeId * nat)) : outcome (nat * state) :=
  '(obj, s) ← make_cppgc_empty_object (type_of t) s;
  s ← wrap_object s obj t members;
  Ret (obj, s).

Definition make_cppgc_proto_object := make_cppgc_object.

(** ** Unwrapping *)

Definition v8_unwrap (o : js_object) (wrapper_tag : N) : option nat :=
  match wrapped o with Some (t, q) => if decide (t = wrapper_tag) then Some q else None | None => None end.

(** [val]: the object, or [None] for a value that is no object. *)
Definition try_unwrap_cppgc_with T (s : state) (val : option nat) (inheriting : list TypeId) : outcome (option nat) :=
  match val ≫= λ k, objects s !! k with
  | None => Ret None
  | Some obj =>
      if is_api_wrapper obj then
        match v8_unwrap obj CPPGC_SINGLE_TAG with
        | None => Ret None
        | Some q =>
            o ← object_at s q;
            Ret (if decide (tag o = T ∨ tag o ∈ inheriting) then Some q else None)
        end
      else Ret None
  end.

Definition try_unwrap_cppgc_object T (s : state) (val : option nat) : outcome (option nat) :=
  try_unwrap_cppgc_with T s val [].

(** The list is made once and kept, but its edges do not change. *)
Definition inheriting_types T : outcome (list TypeId) := find_transitive_inheritors edges T.

Definition try_unwrap_cppgc_base_object T (s : state) (val : option nat) : outcome (option nat) :=
  l ← inheriting_types T; try_unwrap_cppgc_with T s val l.

Definition unwrap_with (base : bool) T (s : state) (val : option nat) : outcome (option nat) :=
  if base then try_unwrap_cppgc_base_object T s val else try_unwrap_cppgc_object T s val.

(** [try_unwrap_cppgc_persistent_object] and [try_unwrap_cppgc_base_persistent_object]. *)
Definition try_unwrap_persistent (base : bool) T (s : state) (val : option nat) : outcome (option handle) :=
  ptr ← unwrap_with base T s val; Ret (option_map (Ref T) ptr).

Definition try_unwrap_ptr (base : bool) T (s : state) (val : option nat) : outcome (option handle) :=
  ptr ← unwrap_with base T s val; Ret (option_map (λ q, UnsafePtr T q false true) ptr).

Definition root_ptr (h : handle) : handle :=
  match h with UnsafePtr T q _ on_stack => UnsafePtr T q true on_stack | Ref _ _ => h end.

(** [Deref] of [UnsafePtr], [Ref] and [Member]. *)
Definition deref (s : state) T q : outcome value := o ← object_at s q; as_ref T o.

(** [Member::from]. *)
Definition member_of (h : handle) : option (TypeId * nat) :=
  match h with Ref T q => Some (T, q) | UnsafePtr _ _ _ _ => None end.

(** ** [SameObject] *)

(** [f] makes the value, and may do more; [OnceCell] panics when it has filled the cell. *)
Definition same_get (s : state) (cell : nat) (f : state → outcome (value * list (TypeId * nat) * state))
    : outcome (nat * state) :=
  match same_objects s !! cell with
  | Some obj => Ret (obj, s)
  | None =>
      '(v, members, s) ← f s;
      '(obj, s) ← make_cppgc_object s v members;
      match same_objects s !! cell with
      | Some _ => Panic Unwrap
      | None => Ret (obj, set_same s (<[cell := obj]> (same_objects s)))
      end
  end.

Definition same_set (s : state) (cell : nat) (v : value) (members : list (TypeId * nat)) : outcome (result unit nat * state) :=
  '(obj, s) ← make_cppgc_object s v members;
  match same_objects s !! cell with
  | Some _ => Ret (Err obj, s)
  | None => Ret (Ok tt, set_same s (<[cell := obj]> (same_objects s)))
  end.

Definition same_try_unwrap (s : state) (cell : nat) T : outcome (option handle) :=
  match same_objects s !! cell with
  | None => Ret None
  | Some obj => try_unwrap_ptr false T s (Some obj)
  end.

(** * Clients *)

Inductive action :=
  | CreateObject (api : bool) (foreign : option N)  (** JavaScript, or another embedder *)
  | InsertTemplate (key : string) (template : Z)
  | MakeObject (v : value) (members : list nat)     (** the members are handles *)
  | WrapThis k (v : value) (members : list nat)
  | TryUnwrap (base : bool) T (val : option nat)
  | TryUnwrapRef (base : bool) T (val : option nat)
  | Root (h : nat)
  | Deref (h : nat)
  | DerefMember (h i : nat)                         (** a [Member] of the object *)
  | DropHandle (h : nat)
  | SameGet (cell : nat) (v : value) (members : list nat)
  | SameSet (cell : nat) (v : value) (members : list nat)
  | SameTryUnwrap (cell : nat) T
  | Suspend                                         (** the handles leave the stack *)
  | CollectObject k                                 (** V8 drops a wrapper *)
  | CollectCpp (dead : gset nat).                   (** cppgc drops objects *)

Inductive answer :=
  | Done | Missing | AnObject k | AHandle (h : option nat) | AValue (v : value) | ASet (r : result unit nat).

Definition members_of (s : state) (l : list nat) : option (list (TypeId * nat)) :=
  mapM (λ h, handles s !! h ≫= member_of) l.

Definition add_handle (s : state) (h : option handle) : state * answer :=
  match h with
  | Some h => (set_handles s (handles s ++ [h]), AHandle (Some (length (handles s))))
  | None => (s, AHandle None)
  end.

Definition leave_stack (h : handle) : handle :=
  match h with UnsafePtr T q root _ => UnsafePtr T q root false | Ref _ _ => h end.

Definition with_members (s : state) (l : list nat)
    (f : list (TypeId * nat) → outcome (state * answer)) : outcome (state * answer) :=
  match members_of s l with Some members => f members | None => Ret (s, Missing) end.

Definition step (s : state) (a : action) : outcome (state * answer) :=
  match a with
  | CreateObject api foreign =>
      Ret (set_objects s (<[next_object s := mkJs api None ((λ t, (t, 0)) <$> foreign)]> (objects s)) (S (next_object s)),
           AnObject (next_object s))
  | InsertTemplate key template => Ret (insert s key template, Done)
  | MakeObject v l => with_members s l (λ members, '(k, s) ← make_cppgc_object s v members; Ret (s, AnObject k))
  | WrapThis k v l => with_members s l (λ members, s ← wrap_object s k v members; Ret (s, Done))
  | TryUnwrap base T val => h ← try_unwrap_ptr base T s val; Ret (add_handle s h)
  | TryUnwrapRef base T val => h ← try_unwrap_persistent base T s val; Ret (add_handle s h)
  | Root h => Ret (set_handles s (alter root_ptr h (handles s)), Done)
  | Deref h =>
      match handles s !! h with
      | Some p => v ← deref s (handle_type p) (inner p); Ret (s, AValue v)
      | None => Ret (s, Missing)
      end
  | DerefMember h i =>
      match handles s !! h with
      | Some p =>
          o ← object_at s (inner p);
          match traced o !! i with
          | Some (T, q) => v ← deref s T q; Ret (s, AValue v)
          | None => Ret (s, Missing)
          end
      | None => Ret (s, Missing)
      end
  | DropHandle h => Ret (set_handles s (delete h (handles s)), Done)
  | SameGet cell v l =>
      with_members s l (λ members, '(k, s) ← same_get s cell (λ s, Ret (v, members, s)); Ret (s, AnObject k))
  | SameSet cell v l => with_members s l (λ members, '(r, s) ← same_set s cell v members; Ret (s, ASet r))
  | SameTryUnwrap cell T => h ← same_try_unwrap s cell T; Ret (add_handle s h)
  | Suspend => Ret (set_handles s (leave_stack <$> handles s), Done)
  | CollectObject k => Ret (set_objects s (delete k (objects s)) (next_object s), Done)
  | CollectCpp dead => Ret (set_heap s (filter (λ x, x.1 ∉ dead) (heap s)) (next_address s), Done)
  end.

(** ** The contract *)

(** The roots of cppgc: wrappers, persistent handles, and pointers on the stack. *)
Definition usable (h : handle) : Prop := match h with UnsafePtr _ _ root on_stack => root || on_stack = true | Ref _ _ => True end.

Definition is_root (s : state) q : Prop :=
  (∃ k obj, objects s !! k = Some obj ∧ wrapped obj = Some (CPPGC_SINGLE_TAG, q)) ∨
  (∃ h, h ∈ handles s ∧ usable h ∧ inner h = q).

Definition makes (program : list DeriveInput) (v : value) : Prop := well_typed program v ∧ align_of (type_of v) <= heap_align.

(** What the client and the host promise: other embedders have their own tags; [this] of a
    constructor is an API wrapper; a pointer is rooted before it leaves the stack; a
    [SameObject] keeps its wrapper, and a garbage collector what is still referred to. *)
Definition legal (program : list DeriveInput) (s : state) (a : action) : Prop :=
  match a with
  | CreateObject _ foreign => foreign ≠ Some CPPGC_SINGLE_TAG
  | MakeObject v _ | SameGet _ v _ | SameSet _ v _ => makes program v
  | WrapThis k v _ => makes program v ∧ ∃ obj, objects s !! k = Some obj ∧ is_api_wrapper obj = true
  | Suspend => ∀ T q on_stack, UnsafePtr T q false on_stack ∉ handles s
  | CollectObject k => ∀ cell, same_objects s !! cell ≠ Some k
  | CollectCpp dead =>
      (∀ q, q ∈ dead → ¬ is_root s q) ∧
      (∀ q o T q', heap s !! q = Some o → q ∉ dead → (T, q') ∈ traced o → q' ∉ dead)
  | _ => True
  end.

Inductive reachable (program : list DeriveInput) : state → Prop :=
  | reach_initial template : reachable program (initial_state template)
  | reach_step s a s' r : reachable program s → legal program s a → step s a = Ret (s', r) → reachable program s'.

(** * Invariant *)

Context (program : list DeriveInput) (Hprogram : inventory program = Some edges) `{!CppHeapLaws}.

Definition fits T (o : CppGcObject) : Prop := rtc (extends edges) T (type_of (member o)).

Definition points_to (s : state) T q : Prop := ∃ o, heap s !! q = Some o ∧ fits T o.

Record state_ok (s : state) : Prop := {
  s_heap q o : heap s !! q = Some o →
    tag o = type_of (member o) ∧ makes program (member o) ∧ ∀ T q', (T, q') ∈ traced o → points_to s T q';
  s_fresh q : is_Some (heap s !! q) → q < next_address s;
  s_objects k obj q : objects s !! k = Some obj → wrapped obj = Some (CPPGC_SINGLE_TAG, q) →
    is_api_wrapper obj = true ∧ is_Some (heap s !! q);
  s_handles h : h ∈ handles s → usable h ∧ points_to s (handle_type h) (inner h);
  s_template : is_Some (cppgc_template s);
}.

(** Every pointer reads a value of its type, from the front of the object that was wrapped. *)
Definition derefs (s : state) T q : Prop :=
  ∃ o v, heap s !! q = Some o ∧ deref s T q = Ret v ∧ read_at T 0 (member o) = Some v ∧ type_of v = T.

(** Under a limit of 16 the alignment does not move the member. *)
Lemma member_offset_16 T : align_of T <= 16 → member_offset T = tag_size.
Proof.
  destruct (align_power T) as [n Hn]. unfold member_offset, tag_size. rewrite Hn. intros Hle.
  assert (n <= 4) as Hn4.
  { apply Nat.nlt_ge. intros Hlt. pose proof (Nat.pow_le_mono_r 2 5 n). simpl in *. lia. }
  do 5 (destruct n as [|n]; [reflexivity|]). lia.
Qed.

Lemma points_to_derefs s T q : state_ok s → points_to s T q → derefs s T q.
Proof.
  intros Hok (o & Ho & Hfits). destruct (s_heap _ Hok q o Ho) as (_ & [Htyped Halign] & _).
  destruct (base_at_front program edges Hprogram T (member o) Htyped Hfits) as (v & Hv & HT).
  exists o, v. split_and!; try done. unfold deref, object_at. rewrite Ho. simpl. unfold as_ref.
  pose proof heap_align_16. pose proof (extends_align program edges Hprogram T _ Hfits).
  rewrite !member_offset_16 by lia. by rewrite decide_True, Nat.sub_diag, Hv by lia.
Qed.

Lemma points_to_mono s s' T q :
  (∀ o, heap s !! q = Some o → heap s' !! q = Some o) → points_to s T q → points_to s' T q.
Proof. intros Hs (o & Ho & Hf). exists o. auto. Qed.

(** Changes outside of the heap. *)
Lemma state_ok_frame s s' :
  state_ok s → heap s' = heap s → next_address s' = next_address s → cppgc_template s' = cppgc_template s →
  (∀ k obj q, objects s' !! k = Some obj → wrapped obj = Some (CPPGC_SINGLE_TAG, q) →
     is_api_wrapper obj = true ∧ is_Some (heap s !! q)) →
  (∀ h, h ∈ handles s' → usable h ∧ points_to s (handle_type h) (inner h)) → state_ok s'.
Proof.
  intros [H1 H2 H3 H4 H5] Hh Hn Ht Ho Hs. split; rewrite ?Hh, ?Hn, ?Ht; try done.
  - intros q o Hq. destruct (H1 q o Hq) as (? & ? & Hm). split_and!; try done. intros T q' Hin.
    apply (points_to_mono s); [by rewrite Hh | auto].
  - intros h Hin. destruct (Hs h Hin). split; [done|]. apply (points_to_mono s); [by rewrite Hh | done].
Qed.

(** What making and wrapping objects leaves alone. *)
Definition extended (s s' : state) : Prop :=
  handles s' = handles s ∧ same_objects s' = same_objects s ∧
  ∀ q o, heap s !! q = Some o → heap s' !! q = Some o.

Lemma wrap_object_ok s k v members obj :
  state_ok s → makes program v → (∀ T q, (T, q) ∈ members → points_to s T q) →
  objects s !! k = Some obj → is_api_wrapper obj = true →
  ∃ s', wrap_object s k v members = Ret s' ∧ state_ok s' ∧ extended s s'.
Proof.
  intros Hok Hv Hm Hk Hapi. destruct obj as [api template w]. simpl in Hapi. subst.
  unfold wrap_object, make_garbage_collected, v8_wrap. simpl. rewrite decide_True by apply Hv. simpl. rewrite Hk.
  eexists. split; [done|]. destruct Hok as [H1 H2 H3 H4 H5].
  assert (∀ q o, heap s !! q = Some o → <[next_address s := mkObject (type_of v) v members]> (heap s) !! q = Some o) as Hkeep.
  { intros q o Hq. rewrite lookup_insert_ne; [done|]. intros <-.
    specialize (H2 (next_address s) (ex_intro _ o Hq)). lia. }
  split; [|by split_and!]. split; simpl.
  - intros q o [[<- <-]|[_ Hq]]%lookup_insert_Some; simpl.
    + split_and!; try done; try apply Hv. intros T q' Hin. eapply points_to_mono; [apply Hkeep | auto].
    + destruct (H1 q o Hq) as (? & ? & Ht). split_and!; try done. intros T q' Hin. eapply points_to_mono; [apply Hkeep | auto].
  - intros q [o [[<- _]|[_ Hq]]%lookup_insert_Some]; [lia|]. specialize (H2 q (ex_intro _ o Hq)). lia.
  - intros k' obj q [[<- <-]|[_ Ho]]%lookup_insert_Some Hw; simpl in *.
    + injection Hw as <-. split; [done|]. rewrite lookup_insert_eq. by eexists.
    + destruct (H3 k' obj q Ho Hw) as [? [o Hq]]. split; [done|]. exists o. by apply Hkeep.
  - intros h Hin. destruct (H4 h Hin). split; [done|]. by eapply points_to_mono; [apply Hkeep|].
  - done.
Qed.

Lemma make_cppgc_object_ok s v members :
  state_ok s → makes program v → (∀ T q, (T, q) ∈ members → points_to s T q) →
  ∃ k s', make_cppgc_object s v members = Ret (k, s') ∧ state_ok s' ∧ extended s s'.
Proof.
  intros Hok Hv Hm. unfold make_cppgc_object.
  assert (∃ t, make_cppgc_empty_object (type_of v) s = Ret (new_instance s t)) as [t ->].
  { unfold make_cppgc_empty_object. destruct (get s _) as [t|]; [by exists t|].
    destruct (s_template s Hok) as [t Ht]. exists t. by rewrite Ht. }
  simpl. set (s1 := snd (new_instance s t)).
  assert (state_ok s1) as Hok1.
  { apply (state_ok_frame s); try done; [|apply Hok]. simpl.
    intros k obj q [[_ <-]|[_ Ho]]%lookup_insert_Some Hw; [done | by apply (s_objects _ Hok k obj q)]. }
  destruct (wrap_object_ok s1 (next_object s) v members (mkJs true (Some t) None)) as (s' & Hs' & Hok' & Hext); try done.
  { apply lookup_insert_eq. }
  unfold s1 in Hs'. simpl in Hs'. rewrite Hs'. by exists (next_object s), s'.
Qed.

(** The wrapper [val] holds an object of [T], or of a type that inherits from it. *)
Definition wraps (s : state) (base : bool) T (val : option nat) q : Prop :=
  ∃ k obj o, val = Some k ∧ objects s !! k = Some obj ∧ wrapped obj = Some (CPPGC_SINGLE_TAG, q) ∧
    heap s !! q = Some o ∧ (type_of (member o) = T ∨ base = true ∧ tc (extends edges) T (type_of (member o))).

Lemma try_unwrap_cppgc_with_spec s T val l :
  state_ok s →
  ∃ r, try_unwrap_cppgc_with T s val l = Ret r ∧
    ∀ q, r = Some q ↔ ∃ k obj o, val = Some k ∧ objects s !! k = Some obj ∧ wrapped obj = Some (CPPGC_SINGLE_TAG, q) ∧
      heap s !! q = Some o ∧ (type_of (member o) = T ∨ type_of (member o) ∈ l).
Proof.
  intros Hok. unfold try_unwrap_cppgc_with.
  destruct val as [k|]; simpl; [|exists None; split; [done|]; naive_solver].
  destruct (objects s !! k) as [obj|] eqn:Hk; simpl; [|exists None; split; [done|]; naive_solver].
  unfold v8_unwrap. destruct (wrapped obj) as [[t q]|] eqn:Hw.
  2: { exists None. split; [by destruct (is_api_wrapper obj)|]. naive_solver. }
  case_decide as Ht.
  2: { exists None. split; [by destruct (is_api_wrapper obj)|]. naive_solver. }
  subst. destruct (s_objects s Hok k obj q Hk Hw) as [-> [o Ho]]. unfold object_at. rewrite Ho. simpl.
  eexists. split; [done|]. destruct (s_heap s Hok q o Ho) as (-> & _).
  intros q'. case_decide; split; naive_solver.
Qed.

Lemma unwrap_with_spec s base T val :
  state_ok s → ∃ r, unwrap_with base T s val = Ret r ∧ ∀ q, r = Some q ↔ wraps s base T val q.
Proof.
  intros Hok. unfold unwrap_with, wraps. destruct base; simpl.
  - unfold try_unwrap_cppgc_base_object, inheriting_types.
    destruct (find_transitive_inheritors_spec edges T) as (l & -> & _ & Hl). simpl.
    destruct (try_unwrap_cppgc_with_spec s T val l Hok) as (r & -> & Hr). exists r. split; [done|].
    intros q. rewrite Hr. setoid_rewrite Hl. split; intros (k & obj & o & ? & ? & ? & ? & Hty); exists k, obj, o; split_and!; try done.
    + naive_solver.
    + destruct (decide (type_of (member o) = T)); naive_solver.
  - unfold try_unwrap_cppgc_object. destruct (try_unwrap_cppgc_with_spec s T val [] Hok) as (r & -> & Hr).
    exists r. split; [done|]. intros q. rewrite Hr. setoid_rewrite elem_of_nil. naive_solver.
Qed.

Lemma wraps_points_to s base T val q : wraps s base T val q → points_to s T q.
Proof.
  intros (k & obj & o & _ & _ & _ & Ho & Hty). exists o. split; [done|]. unfold fits.
  destruct Hty as [->|[_ Hty]]; [done | by apply tc_rtc].
Qed.

Lemma try_unwrap_ptr_spec s base T val :
  state_ok s → ∃ r, try_unwrap_ptr base T s val = Ret r ∧ ∀ h, r = Some h → usable h ∧ points_to s (handle_type h) (inner h).
Proof.
  intros Hok. destruct (unwrap_with_spec s base T val Hok) as (r & Hr & Hq). unfold try_unwrap_ptr. rewrite Hr.
  eexists. split; [done|]. destruct r as [q|]; [|done]. intros h [= <-]. split; [done|]. by eapply wraps_points_to, Hq.
Qed.

Lemma try_unwrap_persistent_spec s base T val :
  state_ok s →
  ∃ r, try_unwrap_persistent base T s val = Ret r ∧ ∀ h, r = Some h → usable h ∧ points_to s (handle_type h) (inner h).
Proof.
  intros Hok. destruct (unwrap_with_spec s base T val Hok) as (r & Hr & Hq). unfold try_unwrap_persistent. rewrite Hr.
  eexists. split; [done|]. destruct r as [q|]; [|done]. intros h [= <-]. split; [done|]. by eapply wraps_points_to, Hq.
Qed.

(** * Steps *)

Lemma members_of_ok s l members :
  state_ok s → members_of s l = Some members → ∀ T q, (T, q) ∈ members → points_to s T q.
Proof.
  intros Hok Hm%mapM_Some T q Hin. apply list_elem_of_lookup in Hin as [i Hi].
  destruct (Forall2_lookup_r _ _ _ _ _ Hm Hi) as (n & _ & Hn).
  destruct (handles s !! n) as [h|] eqn:Hh; [|done]. simpl in Hn.
  apply list_elem_of_lookup_2 in Hh. destruct (s_handles s Hok h Hh) as [_ Hp].
  destruct h; simplify_eq/=. done.
Qed.

(** No step changes an object. *)
Definition heap_kept (s s' : state) : Prop := ∀ q o, heap s !! q = Some o → heap s' !! q = Some o ∨ heap s' !! q = None.

Definition step_ok (s : state) (r : outcome (state * answer)) : Prop :=
  ∃ s' x, r = Ret (s', x) ∧ state_ok s' ∧ heap_kept s s'.

Lemma step_ok_same s x : state_ok s → step_ok s (Ret (s, x)).
Proof. intros Hok. exists s, x. split_and!; try done. by left. Qed.

Lemma extended_kept s s' : extended s s' → heap_kept s s'.
Proof. intros (_ & _ & Hkeep) q o Hq. left. auto. Qed.

Lemma with_members_ok s l f :
  state_ok s → (∀ members, (∀ T q, (T, q) ∈ members → points_to s T q) → step_ok s (f members)) →
  step_ok s (with_members s l f).
Proof.
  intros Hok Hf. unfold with_members. destruct (members_of s l) as [members|] eqn:Hm; [|by apply step_ok_same].
  apply Hf. by apply (members_of_ok s l).
Qed.

Lemma handles_changed_ok s l :
  state_ok s → (∀ h, h ∈ l → usable h ∧ points_to s (handle_type h) (inner h)) →
  state_ok (set_handles s l) ∧ heap_kept s (set_handles s l).
Proof.
  intros Hok Hl. split; [|by left]. apply (state_ok_frame s); try done. apply Hok.
Qed.

Lemma add_handle_ok s h :
  state_ok s → (∀ x, h = Some x → usable x ∧ points_to s (handle_type x) (inner x)) → step_ok s (Ret (add_handle s h)).
Proof.
  intros Hok Hh. destruct h as [h|]; [|by apply step_ok_same]. simpl.
  destruct (handles_changed_ok s (handles s ++ [h])) as [? ?]; [done | |].
  - intros x [Hx| ->%list_elem_of_singleton]%elem_of_app; [by apply Hok | by apply Hh].
  - by eexists _, _.
Qed.

Lemma set_same_ok s m : state_ok s → state_ok (set_same s m).
Proof. intros Hok. apply (state_ok_frame s); try done; apply Hok. Qed.

Lemma same_get_ok s cell v members :
  state_ok s → makes program v → (∀ T q, (T, q) ∈ members → points_to s T q) →
  ∃ k s', same_get s cell (λ s, Ret (v, members, s)) = Ret (k, s') ∧ state_ok s' ∧ heap_kept s s' ∧
    (k = default k (same_objects s !! cell)) ∧ same_objects s' !! cell = Some k.
Proof.
  intros Hok Hv Hm. unfold same_get. destruct (same_objects s !! cell) as [k|] eqn:Hc.
  - exists k, s. split_and!; try done. by left.
  - simpl. destruct (make_cppgc_object_ok s v members Hok Hv Hm) as (k & s' & Hs' & Hok' & Hext). rewrite Hs'. simpl.
    destruct Hext as (Hh & Hs & Hk). rewrite Hs, Hc. exists k. eexists. split; [done|]. split_and!; try done.
    + by apply set_same_ok.
    + intros q o Hq. left. simpl. auto.
    + simpl. by rewrite lookup_insert_eq.
Qed.

Lemma same_set_ok s cell v members :
  state_ok s → makes program v → (∀ T q, (T, q) ∈ members → points_to s T q) →
  ∃ r s', same_set s cell v members = Ret (r, s') ∧ state_ok s' ∧ heap_kept s s' ∧
    (r = Ok tt ↔ same_objects s !! cell = None).
Proof.
  intros Hok Hv Hm. unfold same_set.
  destruct (make_cppgc_object_ok s v members Hok Hv Hm) as (k & s' & Hs' & Hok' & Hext). rewrite Hs'. simpl.
  destruct Hext as (Hh & Hs & Hk). rewrite Hs.
  destruct (same_objects s !! cell); eexists _, _; (split; [done|]); split_and!; try done.
  - intros q o Hq. left. auto.
  - by apply set_same_ok.
  - intros q o Hq. left. simpl. auto.
Qed.

Lemma collect_cpp_ok s dead :
  state_ok s → legal program s (CollectCpp dead) →
  let s' := set_heap s (filter (λ x, x.1 ∉ dead) (heap s)) (next_address s) in state_ok s' ∧ heap_kept s s'.
Proof.
  intros Hok [Hroots Htraced] s'.
  assert (∀ q o, heap s' !! q = Some o ↔ heap s !! q = Some o ∧ q ∉ dead) as Hl by (intros; apply map_lookup_filter_Some).
  assert (∀ T q, q ∉ dead → points_to s T q → points_to s' T q) as Hp.
  { intros T q Hq (o & Ho & Hf). exists o. by rewrite Hl. }
  split.
  - destruct Hok as [H1 H2 H3 H4 H5]. split; simpl.
    + intros q o [Hq Hd]%Hl. destruct (H1 q o Hq) as (? & ? & Ht). split_and!; try done.
      intros T q' Hin. apply Hp; [by apply (Htraced q o T) | auto].
    + intros q [o [Hq _]%Hl]. apply H2. by eexists.
    + intros k obj q Hk Hw. destruct (H3 k obj q Hk Hw) as [? [o Ho]]. split; [done|]. exists o. apply Hl.
      split; [done|]. intros Hd. apply (Hroots q Hd). left. by exists k, obj.
    + intros h Hh. destruct (H4 h Hh) as [Hu Hh']. split; [done|]. apply Hp; [|done].
      intros Hd. apply (Hroots (inner h) Hd). right. by exists h.
    + done.
  - intros q o Hq. destruct (decide (q ∈ dead)).
    + right. apply eq_None_not_Some. intros [o' [_ ?]%Hl]. done.
    + left. by apply Hl.
Qed.

Lemma alter_handles_ok s f h :
  (∀ x, usable x → usable (f x)) → (∀ x, handle_type (f x) = handle_type x ∧ inner (f x) = inner x) → state_ok s →
  state_ok (set_handles s (alter f h (handles s))) ∧ heap_kept s (set_handles s (alter f h (handles s))).
Proof.
  intros Hu Hf Hok. apply handles_changed_ok; [done|]. intros x [i Hi]%list_elem_of_lookup.
  rewrite list_lookup_alter in Hi. case_decide.
  - apply fmap_Some in Hi as (y & Hy%list_elem_of_lookup_2 & ->). destruct (Hf y) as [-> ->].
    destruct (s_handles s Hok y Hy). auto.
  - apply list_elem_of_lookup_2 in Hi. by apply Hok.
Qed.

Lemma legal_step s a : state_ok s → legal program s a → step_ok s (step s a).
Proof.
  intros Hok Ha. destruct a as [api foreign|key t|v l|k v l|base T val|base T val|h|h|h i|h|cell v l|cell v l|cell T| |k|dead];
    simpl in *.
  - eexists _, _. split; [done|]. split; [|by left]. apply (state_ok_frame s); try done; [|apply Hok]. simpl.
    intros k obj q [[_ <-]|[_ Ho]]%lookup_insert_Some Hw; [|by apply (s_objects s Hok k obj q)].
    destruct foreign; simplify_eq/=.
  - eexists _, _. split; [done|]. split; [|by left]. apply (state_ok_frame s); try done; apply Hok.
  - apply with_members_ok; [done|]. intros members Hm.
    destruct (make_cppgc_object_ok s v members Hok Ha Hm) as (k & s' & -> & Hok' & Hext).
    exists s', (AnObject k). split_and!; try done. by apply extended_kept.
  - apply with_members_ok; [done|]. intros members Hm. destruct Ha as (Hv & obj & Hk & Hapi).
    destruct (wrap_object_ok s k v members obj Hok Hv Hm Hk Hapi) as (s' & -> & Hok' & Hext).
    exists s', Done. split_and!; try done. by apply extended_kept.
  - destruct (try_unwrap_ptr_spec s base T val Hok) as (r & -> & Hr). by apply add_handle_ok.
  - destruct (try_unwrap_persistent_spec s base T val Hok) as (r & -> & Hr). by apply add_handle_ok.
  - eexists _, _. split; [done|]. by apply alter_handles_ok; [intros [] ..|].
  - destruct (handles s !! h) as [p|] eqn:Hh; [|by apply step_ok_same].
    apply list_elem_of_lookup_2 in Hh. destruct (s_handles s Hok p Hh) as [_ Hp].
    destruct (points_to_derefs s _ _ Hok Hp) as (o & v & _ & -> & _). by apply step_ok_same.
  - destruct (handles s !! h) as [p|] eqn:Hh; [|by apply step_ok_same].
    apply list_elem_of_lookup_2 in Hh. destruct (s_handles s Hok p Hh) as [_ (o & Ho & _)].
    unfold object_at. rewrite Ho. simpl. destruct (traced o !! i) as [[T q]|] eqn:Hi; [|by apply step_ok_same].
    apply list_elem_of_lookup_2 in Hi. destruct (s_heap s Hok _ o Ho) as (_ & _ & Ht).
    destruct (points_to_derefs s T q Hok (Ht T q Hi)) as (o' & v & _ & -> & _). by apply step_ok_same.
  - eexists _, _. split; [done|]. apply handles_changed_ok; [done|]. intros x Hx.
    apply (s_handles s Hok). by eapply list_elem_of_delete_inv.
  - apply with_members_ok; [done|]. intros members Hm.
    destruct (same_get_ok s cell v members Hok Ha Hm) as (k & s' & -> & Hok' & Hk & _). by exists s', (AnObject k).
  - apply with_members_ok; [done|]. intros members Hm.
    destruct (same_set_ok s cell v members Hok Ha Hm) as (r & s' & -> & Hok' & Hk & _). by exists s', (ASet r).
  - unfold same_try_unwrap. destruct (same_objects s !! cell) as [k|]; [|by apply (add_handle_ok s None)].
    destruct (try_unwrap_ptr_spec s false T (Some k) Hok) as (r & -> & Hr). by apply add_handle_ok.
  - eexists _, _. split; [done|]. apply handles_changed_ok; [done|].
    intros x (y & -> & Hy)%list_elem_of_fmap. destruct (s_handles s Hok y Hy) as [Hu Hp].
    destruct y as [T q [] on_stack|T q]; try done. by destruct (Ha T q on_stack).
  - eexists _, _. split; [done|]. split; [|by left]. apply (state_ok_frame s); try done; [|apply Hok]. simpl.
    intros k' obj q [_ Ho]%lookup_delete_Some Hw. by apply (s_objects s Hok k' obj q).
  - eexists _, _. split; [done|]. by apply collect_cpp_ok.
Qed.

Lemma reachable_ok s : reachable program s → state_ok s.
Proof.
  induction 1 as [t|s a s' r _ IH Ha Hs].
  - split; simpl; try (intros *; rewrite lookup_empty; intros; by destruct_and?); try (by eexists).
    by intros h ?%elem_of_nil.
  - destruct (legal_step s a IH Ha) as (s1 & x & Hs1 & Hok & _). rewrite Hs in Hs1. by simplify_eq.
Qed.

(** C38. Casts of garbage collected objects are sound under the contract [legal], which the
    types of Rust do not enforce.  Its conditions: objects are of the types of the program,
    with an alignment that the heap admits; [this] of a constructor is an API wrapper
    ([wrap_plain_object] shows the bad read otherwise); a pointer is rooted before it leaves
    the stack ([unrooted_pointer_dangles]); other embedders tag their objects differently; the
    two garbage collectors keep what a root, a member or a [SameObject] refers to.  In a
    program whose derive macros compile, whatever a client does within this contract -
    wrapping objects, unwrapping them as types or base types, keeping pointers, handles and
    members, suspending - no step panics or reads bad memory, and no step changes an object.
    In the states that are reached so, unwrapping succeeds exactly for the wrappers of objects
    of the type, or with a base type of one that the type inherits it from; and what a
    pointer, a handle or a member of a live object reads is a value of its type, the one at
    the front of the object that was wrapped. *)
Theorem casts_are_sound s :
  reachable program s →
  (∀ a, legal program s a → ∃ s' r, step s a = Ret (s', r) ∧ heap_kept s s') ∧
  (∀ base T val, ∃ r, unwrap_with base T s val = Ret r ∧ ∀ q, r = Some q ↔ wraps s base T val q) ∧
  (∀ h, h ∈ handles s → derefs s (handle_type h) (inner h)) ∧
  (∀ q o T q', heap s !! q = Some o → (T, q') ∈ traced o → derefs s T q').
Proof.
  intros Hok%reachable_ok. split_and!.
  - intros a Ha. destruct (legal_step s a Hok Ha) as (s' & r & ? & _ & ?). eauto.
  - intros base T val. by apply unwrap_with_spec.
  - intros h Hh. apply points_to_derefs; [done | by apply Hok].
  - intros q o T q' Ho Hin. apply points_to_derefs; [done|]. destruct (s_heap s Hok q o Ho) as (_ & _ & Ht). auto.
Qed.

(** A [SameObject] always gives the same object. *)
Lemma same_object_same s cell v members k s' :
  same_get s cell (λ s, Ret (v, members, s)) = Ret (k, s') →
  ∀ f, same_get s' cell f = Ret (k, s').
Proof.
  unfold same_get. destruct (same_objects s !! cell) as [k0|] eqn:Hc; [intros [= -> ->] f; by rewrite Hc|].
  simpl. intros ([k1 s1] & Hm & Hs)%bind_Ret_inv f. simpl in Hs.
  destruct (same_objects s1 !! cell); [done|]. injection Hs as <- <-. simpl. by rewrite lookup_insert_eq.
Qed.
End cppgc.

(** * Concrete types *)

(** [Base], [Derived] and [Derived2] of the tests, and another type. *)
Definition test_scope (s : string) : TypeId := if decide (s = "BaseType") then 0 else if decide (s = "Derived") then 1 else 3.

Definition derived_input : DeriveInput :=
  mkInput 1 [ReprList (Some [ReprPath "C"]); InheritsFrom (Some "BaseType")] (Struct (Named ["BaseType"; "u8"])) test_scope.
Definition derived2_input : DeriveInput :=
  mkInput 2 [ReprList (Some [ReprPath "C"]); InheritsFrom (Some "Derived")] (Struct (Named ["Derived"; "u8"])) test_scope.

Definition test_program := [derived_input; derived2_input].
Definition test_edges := [mkEdge 0 1; mkEdge 1 2].

#[local] Instance test_heap : CppHeap := {|
  cpp_layout := {| size_of _ := 8; align_of _ := 8; offset_of _ i := 8 * i |};
  heap_align := 16;
  type_name T := "";
|}.

#[local] Instance test_heap_laws : CppHeapLaws.
Proof. split; [by exists 3 | done]. Qed.

Lemma test_inventory : inventory test_program = Some test_edges.
Proof. vm_compute. reflexivity. Qed.

Definition base_value : value := Val 0 7 [].
Definition derived_value : value := Val 1 0 [base_value; Val 3 1 []].
Definition derived2_value : value := Val 2 0 [derived_value; Val 3 2 []].

Definition after (s : state) (l : list action) : outcome (state * list answer) :=
  foldl (λ r a, '(s, answers) ← r; '(s, x) ← step test_edges s a; Ret (s, (answers ++ [x])%list)) (Ret (s, [])) l.

Definition state_after (l : list action) : state :=
  match after (initial_state 0%Z) l with Ret (s, _) => s | Panic _ => initial_state 0%Z end.

Lemma derived2_makes : makes test_program derived2_value.
Proof.
  split; [|simpl; lia]. simpl. split_and!; try done; intros input Hin Hid; unfold test_program in Hin;
    rewrite !elem_of_cons, elem_of_nil in Hin; destruct Hin as [->|[->|[]]]; done.
Qed.

(** An object is unwrapped as its base twice removed and its pointer rooted before it is
    kept; its wrapper goes, the object stays and is still read as the base. *)
Lemma casts_are_sound_witness :
  let s := state_after [MakeObject derived2_value []; TryUnwrap true 0 (Some 0)] in
  reachable test_edges test_program s ∧ derefs s 0 0 ∧ deref s 0 0 = Ret base_value ∧
  unwrap_with test_edges false 0 s (Some 0) = Ret None.
Proof.
  assert (reachable test_edges test_program (state_after [MakeObject derived2_value []; TryUnwrap true 0 (Some 0)])) as Hs.
  { eapply (reach_step _ _ (state_after [MakeObject derived2_value []]) (TryUnwrap true 0 (Some 0)));
      [|exact I | vm_compute; reflexivity].
    eapply (reach_step _ _ (initial_state 0%Z) (MakeObject derived2_value []));
      [constructor | exact derived2_makes | vm_compute; reflexivity]. }
  destruct (casts_are_sound test_edges test_program test_inventory _ Hs) as (_ & _ & Hh & _).
  intros s. split; [exact Hs|]. split; [|split; vm_compute; reflexivity].
  apply (Hh (UnsafePtr 0 0 false true)). vm_compute. left.
Defined.

(** A rooted pointer and a [Member] outlive the wrapper, a pointer that is not rooted does
    not: its [Deref], which is safe to call, reads memory that was freed. *)
Lemma unrooted_pointer_dangles :
  let l (root : bool) := [MakeObject derived2_value []; TryUnwrap true 0 (Some 0)] ++ (if root then [Root 0] else []) ++
                [Suspend; CollectObject 0; CollectCpp (if root then ∅ else {[0]}); Deref 0] in
  snd <$> (match after (initial_state 0%Z) (l true) with Ret r => Some r | _ => None end)
    = Some [AnObject 0; AHandle (Some 0); Done; Done; Done; Done; AValue base_value] ∧
  after (initial_state 0%Z) (l false) = Panic BadMemory.
Proof. vm_compute. split; reflexivity. Qed.

(** [this] of a constructor that is called without [new] can be any object. *)
Lemma wrap_plain_object :
  after (initial_state 0%Z) [CreateObject false None; WrapThis 0 base_value []] = Panic BadMemory.
Proof. vm_compute. reflexivity. Qed.

(** [SameObject::set] makes an object even when it refuses the value. *)
Lemma same_object_set_twice :
  snd <$> (match after (initial_state 0%Z) [SameSet 5 base_value []; SameGet 5 derived_value []; SameSet 5 derived_value [];
                                          SameTryUnwrap 5 0; Deref 0] with Ret r => Some r | _ => None end)
  = Some [ASet (Ok tt); AnObject 0; ASet (Err 1); AHandle (Some 0); AValue base_value].
Proof. vm_compute. reflexivity. Qed.

(** The assertions of the derive macro admit a derived type with a larger alignment, which
    moves the member behind the tag: only the limit of the heap excludes this. *)
Lemma overaligned_derived :
  let layout := {| size_of _ := 8; align_of T := if decide (T = 1) then 32 else 8; offset_of _ i := 8 * i |} in
  let wide := {| cpp_layout := layout; heap_align := 32; type_name T := "" |} in
  @inventory layout [derived_input] = Some [mkEdge 0 1] ∧
  @as_ref wide 0 (mkObject 1 derived_value []) = Panic BadMemory ∧
  @as_ref test_heap 0 (mkObject 1 derived_value []) = Ret base_value.
Proof. vm_compute. split_and!; reflexivity. Qed.

(** The first field is compared by its text. *)
Lemma derive_refusals :
  let input attrs types := mkInput 1 attrs (Struct (Named types)) test_scope in
  let c := ReprList (Some [ReprPath "C"]) in
  let from t := InheritsFrom (Some t) in
  inherits_inner (input [c; from "BaseType"] ["crate::BaseType"]) = Err FirstFieldNotBase ∧
  inherits_inner (input [c; from "BaseType"] []) = Err NoField ∧
  inherits_inner (input [from "BaseType"] ["BaseType"]) = Err NoReprC ∧
  inherits_inner (input [c; from "A"; from "B"] ["A"]) = Err BaseTwice ∧
  inherits_inner (input [c] ["BaseType"]) = Err NoBase ∧
  find_transitive_inheritors [mkEdge 0 1; mkEdge 1 2; mkEdge 0 2; mkEdge 3 0] 0 = Ret [1; 2].
Proof. vm_compute. split_and!; reflexivity. Qed.
