(* ===== verification/CppgcTemplates.v ===== *)
(** [FunctionTemplateData] of [core/cppgc.rs]: the function templates of classes through a
    snapshot.  The templates are objects on V8's heap, which the stores of [Snapshot] carry. *)

From S2P Require Import Prelude Modules Snapshot.

Abbreviation FunctionTemplateData := (gmap string js_global).

(** [FunctionTemplateSnapshotData]; the order of the entries is that of the map. *)
Abbreviation FunctionTemplateSnapshotData := (list (string * SnapshotDataId)).

Definition serialize_templates (data : FunctionTemplateData) (data_store : StoreDataStore)
    : FunctionTemplateSnapshotData * StoreDataStore :=
  let l := map_to_list data in
  let '(ids, data_store) := register_all data_store (DTemplate <$> l.*2) in
  (zip l.*1 ids, data_store).

(** Collecting into a map: the last entry of a key stays. *)
Definition update_templates (data_store : LoadDataStore) (data : FunctionTemplateSnapshotData)
    : outcome (FunctionTemplateData * LoadDataStore) :=
  '(templates, data_store) ← get_all get_template data_store data.*2;
  Ret (foldl (λ m kv, <[kv.1 := kv.2]> m) ∅ (zip data.*1 templates), data_store).

Lemma collect_spec (l : list (string * js_global)) (m : FunctionTemplateData) :
  NoDup l.*1 → foldl (λ m kv, <[kv.1 := kv.2]> m) m l = list_to_map l ∪ m.
Proof.
  revert m. induction l as [|[k v] l IH]; intros m Hl; simpl in *.
  - by rewrite (left_id_L ∅ (∪)).
  - apply NoDup_cons in Hl as [Hk Hl]. rewrite IH by done. rewrite <- insert_union_r; [by rewrite insert_union_l|].
    by apply not_elem_of_list_to_map_1.
Qed.

Lemma fst_snd_zip {A B} (l : list A) (k : list B) : length l = length k → (zip l k).*1 = l ∧ (zip l k).*2 = k.
Proof. intros Hl. split; [apply fst_zip | apply snd_zip]; lia. Qed.

Lemma zip_map_snd {A B C} (f : B → C) (l : list (A * B)) : zip l.*1 (f <$> l.*2) = prod_map id f <$> l.
Proof. induction l as [|[x y] l IH]; simpl; [done | by f_equal]. Qed.

(** The templates that a new runtime finds under their names are those of the snapshot, as
    V8 has revived them. *)
Lemma templates_roundtrip revive (data : FunctionTemplateData) (before after : StoreDataStore) :
  (Z.of_nat (length before + size data + length after) < 2 ^ 32)%Z →
  let '(stored, data_store) := serialize_templates data before in
  ∃ rest, update_templates (load_data revive (data_store ++ after)) stored = Ret (revive <$> data, rest).
Proof.
  intros Hl. unfold serialize_templates. set (l := map_to_list data).
  assert (length l = size data) as Hsize by apply length_map_to_list.
  rewrite register_all_spec by (rewrite !length_fmap; lia).
  set (ids := ids_from (length before) (DTemplate <$> l.*2)).
  assert (length l.*1 = length ids) as Hids.
  { unfold ids, ids_from. by rewrite !length_fmap, length_seq. }
  destruct (fst_snd_zip l.*1 ids Hids) as [Hfst Hsnd]. unfold update_templates. rewrite Hfst, Hsnd.
  assert (load_data revive ((before ++ (DTemplate <$> l.*2)) ++ after) =
    (Some ∘ revive_data revive <$> before) ++ (Some ∘ DTemplate <$> (revive <$> l.*2)) ++ (Some ∘ revive_data revive <$> after)) as ->.
  { unfold load_data, data_count. rewrite !length_app, !length_fmap, Z.mod_small by lia.
    rewrite take_ge by (rewrite !length_app, !length_fmap; lia).
    rewrite !fmap_app, <- (assoc_L (++)), <- !list_fmap_compose. done. }
  unfold ids. rewrite (ids_from_length _ _ (DTemplate <$> (revive <$> l.*2))) by by rewrite !length_fmap.
  rewrite <- (length_fmap (Some ∘ revive_data revive) before), get_templates. simpl.
  eexists. do 2 f_equal. rewrite collect_spec.
  - rewrite (right_id_L ∅ (∪)), zip_map_snd, list_to_map_fmap. unfold l. by rewrite list_to_map_to_list.
  - rewrite fst_zip by (rewrite !length_fmap; lia). apply NoDup_fst_map_to_list.
Qed.
