(* ===== verification/Externals.v ===== *)
(** [core/external.rs]: typed pointers in V8 externals, which know their type by a marker.

    A type is a number, its marker the address of a static variable of its own.  Memory is a
    map from addresses to allocations; one that was freed keeps its first word until the
    allocator uses it again, and reading any other part of it is [BadMemory]. *)

From S2P Require Import Prelude.

Local Open Scope Z_scope.

Implicit Types (E : nat) (ptr : Z).

(** [ExternalWithMarker]; [None] for a value that was moved out. *)
Inductive allocation :=
  | Live (marker : Z) (ty : nat) (external : Z)
  | Freed (marker : Z).

Abbreviation memory := (gmap Z allocation).

(** What the linker and the allocator promise: statics have addresses of their own, which
    are not null; an allocation is not in use, aligned and not null. *)
Class Externalizable := {
  external_marker : nat → Z;
  allocate : memory → Z;
}.

Class ExternalLaws `{Externalizable} := {
  marker_inj :: Inj (=) (=) external_marker;
  marker_not_null E : external_marker E ≠ 0;
  allocate_new m : (∀ marker ty v, m !! allocate m ≠ Some (Live marker ty v)) ∧ allocate m ≠ 0 ∧ allocate m mod 8 = 0;
}.

Section externals.
Context `{Externalizable}.

Definition new E (external : Z) (m : memory) : Z * memory :=
  (allocate m, <[allocate m := Live (external_marker E) E external]> m).

(** [into_raw] and [from_raw] do not look at the pointer. *)
Definition into_raw ptr : Z := ptr.
Definition from_raw ptr : Z := ptr.

Definition read_marker (m : memory) ptr : outcome Z :=
  match m !! ptr with
  | Some (Live marker _ _) | Some (Freed marker) => Ret marker
  | None => Panic BadMemory
  end.

Definition validate_pointer E (m : memory) ptr : outcome Z :=
  if bool_decide (ptr = 0) then Panic Unwrap
  else if negb (bool_decide (ptr mod 8 = 0)) then Panic Unwrap
  else marker ← read_marker m ptr; if bool_decide (marker = external_marker E) then Ret ptr else Panic Unwrap.

(** Reading the value as a value of type [E]. *)
Definition read_external E (m : memory) ptr : outcome Z :=
  match m !! ptr with
  | Some (Live _ ty external) => if decide (ty = E) then Ret external else Panic BadMemory
  | _ => Panic BadMemory
  end.

Definition unsafely_deref E (m : memory) ptr : outcome Z :=
  validated_ptr ← validate_pointer E m ptr; read_external E m validated_ptr.

Definition replace_marker (m : memory) ptr (new : Z) : outcome (Z * memory) :=
  match m !! ptr with
  | Some (Live marker ty external) => Ret (marker, <[ptr := Live new ty external]> m)
  | _ => Panic BadMemory
  end.

Definition dealloc (m : memory) ptr : outcome memory :=
  match m !! ptr with
  | Some (Live marker _ _) => Ret (<[ptr := Freed marker]> m)
  | _ => Panic BadMemory
  end.

Definition unsafely_take E (m : memory) ptr : outcome (Z * memory) :=
  validated_ptr ← validate_pointer E m ptr;
  '(marker, m) ← replace_marker m validated_ptr 0;
  _ ← assert (negb (bool_decide (marker = 0)));
  '(_, m) ← replace_marker m validated_ptr 0;
  external ← read_external E m validated_ptr;
  m ← dealloc m ptr;
  Ret (external, m).

Context `{!ExternalLaws}.

(** ** Memory of a client that makes its pointers with [new]. *)

Definition memory_ok (m : memory) : Prop :=
  ∀ ptr a, m !! ptr = Some a → ptr ≠ 0 ∧ ptr mod 8 = 0 ∧
    match a with Live marker ty _ => marker = external_marker ty | Freed marker => marker = 0 end.

Inductive reached : memory → Prop :=
  | reached_empty : reached ∅
  | reached_new m E v : reached m → reached (new E v m).2
  | reached_take m E ptr v m' : reached m → unsafely_take E m ptr = Ret (v, m') → reached m'.

Lemma validate_spec E m ptr a :
  memory_ok m → m !! ptr = Some a →
  validate_pointer E m ptr = match a with
                             | Live _ ty _ => if decide (ty = E) then Ret ptr else Panic Unwrap
                             | Freed _ => Panic Unwrap
                             end.
Proof.
  intros Hok Ha. destruct (Hok ptr a Ha) as (Hn & Hal & Hm). unfold validate_pointer, read_marker.
  rewrite bool_decide_eq_false_2, Hal, Ha by done. simpl. destruct a as [marker ty v|marker]; subst; simpl.
  - case_decide as HE; [by rewrite HE, bool_decide_eq_true_2|].
    by rewrite bool_decide_eq_false_2 by (by intros ?%marker_inj).
  - rewrite bool_decide_eq_false_2; [done|]. intros Hz. by apply (marker_not_null E).
Qed.

(** What taking does, by what is at the pointer. *)
Lemma unsafely_take_spec E m ptr a :
  memory_ok m → m !! ptr = Some a →
  unsafely_take E m ptr = match a with
                          | Live _ ty v => if decide (ty = E) then Ret (v, <[ptr := Freed 0]> m) else Panic Unwrap
                          | Freed _ => Panic Unwrap
                          end.
Proof.
  intros Hok Ha. unfold unsafely_take. rewrite (validate_spec E m ptr a Hok Ha).
  destruct a as [marker ty v|marker]; [|done]. case_decide as HE; [|done]. subst.
  destruct (Hok ptr _ Ha) as (_ & _ & ->). unfold replace_marker, read_external, dealloc. simpl. rewrite Ha. simpl.
  rewrite assert_true by (rewrite bool_decide_eq_false_2; [done | apply marker_not_null]).
  simpl. rewrite !lookup_insert_eq. simpl. rewrite !lookup_insert_eq. simpl.
  rewrite decide_True by done. simpl. by rewrite !insert_insert_eq.
Qed.

Lemma reached_ok m : reached m → memory_ok m.
Proof.
  induction 1 as [|m E v _ IH|m E ptr v m' _ IH Ht].
  - intros ptr a. by rewrite lookup_empty.
  - simpl. intros ptr a [[<- <-]|[_ Ha]]%lookup_insert_Some; [|by apply IH].
    destruct (allocate_new m) as (_ & ? & ?). by split_and!.
  - destruct (m !! ptr) as [a|] eqn:Ha.
    + rewrite (unsafely_take_spec E m ptr a IH Ha) in Ht. destruct a as [marker ty w|]; [|done].
      case_decide; simplify_eq. destruct (IH ptr _ Ha) as (? & ? & _).
      intros ptr' a' [[<- <-]|[_ Ha']]%lookup_insert_Some; [done | by apply IH].
    + unfold unsafely_take, validate_pointer, read_marker in Ht. rewrite Ha in Ht. by repeat case_match.
Qed.

(** A pointer made by [new] gives its value to its own type, and to any other type, and after
    it was taken, a panic, until its memory is used again: never a value of another type. *)
Lemma externals_typed m ptr a E :
  reached m → m !! ptr = Some a →
  unsafely_deref E m ptr = match a with
                           | Live _ ty v => if decide (ty = E) then Ret v else Panic Unwrap
                           | Freed _ => Panic Unwrap
                           end ∧
  match unsafely_take E m ptr with
  | Ret (v, m') => (∃ marker, a = Live marker E v) ∧ ∀ E', unsafely_take E' m' ptr = Panic Unwrap
  | Panic e => e = Unwrap
  end.
Proof.
  intros Hm Ha. pose proof (reached_ok m Hm) as Hok. split.
  - unfold unsafely_deref. rewrite (validate_spec E m ptr a Hok Ha). destruct a as [marker ty v|]; [|done].
    case_decide; [|done]. subst. unfold read_external. simpl. by rewrite Ha, decide_True.
  - destruct (unsafely_take E m ptr) as [[v m']|e] eqn:Ht; pose proof Ht as Ht';
      rewrite (unsafely_take_spec E m ptr a Hok Ha) in Ht'; destruct a as [marker ty w|]; try case_decide; simplify_eq; try done.
    split; [by eexists|]. intros E'. apply (unsafely_take_spec E' _ ptr (Freed 0)); [|by rewrite lookup_insert_eq].
    apply reached_ok. by eapply reached_take.
Qed.

(** A value can be taken right after it was made. *)
Lemma new_take m E v :
  reached m → let '(ptr, m') := new E v m in unsafely_take E m' (from_raw (into_raw ptr)) = Ret (v, <[ptr := Freed 0]> m').
Proof.
  intros Hm. simpl. rewrite (unsafely_take_spec E _ _ (Live (external_marker E) E v)).
  - by rewrite decide_True.
  - apply reached_ok. by apply (reached_new m E v).
  - by rewrite lookup_insert_eq.
Qed.
End externals.
